(* ===== verification/_CoqProject ===== *)
-Q . S2P
Prelude.v
Errors.v
Crates.v
Wire.v
CratesRef.v
Cbor.v
Outer.v
Records.v
Payloads.v
Reassembly.v
NoiseIO.v
Lease.v
Bootstrap.v
Session.v
Channel.v
Descriptor.v
Supervisor.v
Supervision.v
Drive.v
Runs.v
Control.v
Names.v
Deterministic.v
Tokens.v
Sizes.v
Requests.v
Results.v
Stream.v
OwnedOp.v
Adapter.v
RawTransport.v
Launch.v
RawReads.v
RawSessions.v
Threads.v
Interference.v
Broker.v
BrokerOps.v
Handlers.v
Rights.v
Steps.v
Moves.v
Primitives.v
Triples.v
Reaping.v
Serving.v
Launching.v
Preparing.v
Calls.v
BrokerSafety.v
Apk.v
Axml.v
Slices.v
Chunks.v
Manifest.v
Archive.v
Crc.v
Texts.v
Validation.v
Machine.v
Adb.v
Loopback.v
Android.v
Commands.v
Traces.v
Rollback.v
Listings.v
Forwards.v
Polling.v
Shell.v
Kept.v
AndroidHost.v
Emulator.v
