(* ===== verification/Prelude.v ===== *)
(** * AppPilotKit transport and host runtime: verification development

    AppPilotKit drives an app under test from a host.  A client on the host, such as the
    command line, sends requests over a control channel to a broker; the broker launches the
    app on a simulator or an emulator through a platform adapter, and talks to the target in
    the app over raw streams, on which both ends run the transport core.  This development
    models the transport core [src/transport/crypto-core], the host runtime
    [src/cli/crates/host-runtime] (all but its Unix layer) and the Android adapter
    [src/cli/crates/android-emulator-adapter] as they are written, and proves what makes them
    correct.

    ** The program and the files that model it

    All of [src/transport/crypto-core/src/lib.rs] but its test-only functions, from the
    bottom up:
    - [Errors]: [CloseReason], [HandoffState], [Error] and the one Close frame an error may
      carry;
    - [Crates], [Wire], [CratesRef]: the interfaces of the crates [minicbor], [snow],
      [base64] and [sha2], as classes of operations ([Minicbor], [Snow], [Base64], [Sha2])
      and of the documented laws the code relies on ([MinicborLaws], [SnowLaws],
      [Base64Laws]; [MinicborWire] is the wire format, for the claims about exact bytes),
      and a concrete instance of each for the witnesses;
    - [Cbor]: the [Decoder] and [Encoder] wrappers, and the lemmas that run a decoder over
      what an encoder wrote;
    - [Outer]: [OuterFrameDecoder], [encode_outer], [one_outer], the length-prefixed
      envelopes of the byte stream;
    - [Records]: [Record] (here [WireRecord]), its codec and [fragment_records];
    - [Payloads]: the CBOR bodies of the protocol and their parsers, the bindings and limits;
    - [Reassembly]: [RecordReassembler] and [HalfDuplex];
    - [NoiseIO]: Noise messages in envelopes;
    - [Lease]: [LeaseCore] with [TargetLeaseConnection] and [BrokerLeaseConnection];
    - [Bootstrap]: [TargetBootstrap], [BrokerBootstrap] and the acknowledgement;
    - [Session]: [SessionCore] with [TargetSession] and [BrokerSession];
    - [Channel]: theorems about two linked sessions.

    All of [src/transport/crypto-core/src/target_transport.rs], the target's supervisor:
    - [Descriptor]: [parse_descriptor], [encode_descriptor], [generate_process_generation];
    - [Supervisor]: [TargetTransport] with [create], [drive] and every handler, [close], the
      tokens and timers;
    - [Supervision]: the well-formedness of its state ([tt_inv]), the abstract lifecycle of a
      lease and its sessions ([lifecycle_step]) and the proof rules of the handlers;
    - [Drive]: every handler keeps the one and refines the other;
    - [Runs]: the properties of runs of [drive], and the bootstrap of a supervised target.

    All of [src/cli/crates/host-runtime/src/control.rs], the control channel:
    - [Control]: the model of the file: requests and results, their validation, encoding and
      decoding, [validate_deterministic_cbor], [ControlPacketDecoder], [ReadyReference];
    - [Names]: the texts of the channel as grammars, and that the code's checks decide them;
    - [Deterministic]: CBOR trees, their shortest encoding ([cbor_bytes]), and the validator
      against them;
    - [Tokens]: trees as tokens, and what it means that a decoder [denotes] a relation
      between results and tokens, with a rule for each way decoders are composed;
    - [Sizes]: which texts are valid UTF-8, the length of a tree, frames;
    - [Requests], [Results]: the tree of each request and result, and the codecs against it;
    - [Stream]: the incremental decoder and the references.

    The seam to the platform and the raw streams:
    - [OwnedOp]: [owned_op.rs], the hand-off of one result between two threads, as the
      interleavings of its atomic operations;
    - [Adapter]: [adapter.rs], the failures, deadlines and endpoints, and the I/O traits as a
      class of operations on a world ([PlatformIo]);
    - [RawTransport]: [raw_transport.rs], the frame reader, heartbeats, exchanges, opening
      and closing of sessions, the bootstrap and [encode_launch_descriptor], on a world with
      a history ([log]) of the calls made;
    - [Launch], [RawReads], [RawSessions]: its properties.

    The broker, [src/cli/crates/host-runtime/src/broker.rs]:
    - [Threads]: threads on a shared state as what they do next, and schedules;
    - [Interference]: a logic for them: an invariant, a relation of what others may do, and
      rights that are handed around but never copied or lost ([Discipline]);
    - [Broker]: the data and the pure decisions; [PlatformHost], what it asks of a platform;
    - [BrokerOps]: the state ([Core] with what its leases share), the ledgers of operations,
      the end of a lease ([terminalize_lease], [reap_terminal_lease]);
    - [Handlers]: [handle] with prepare, open, exchange and the closes, [heartbeat],
      [maintain], [shutdown], the thread of a launch and its reaper;
    - [Rights], [Steps], [Moves], [Primitives], [Triples]: the invariant, the rights, and the
      rules of the primitive changes and sections;
    - [Reaping], [Serving], [Launching], [Preparing], [Calls]: every operation in the logic;
    - [BrokerSafety]: what follows for every interleaving of calls.

    The manifest of an APK, [src/cli/crates/android-emulator-adapter/src/apk.rs]:
    - [Apk]: [extract_manifest] with [read_local_entry], [inflate_raw] and [crc32]; zlib is
      the class [Zlib] of one operation, a file is its bytes;
    - [Axml]: [parse_binary_manifest] with the string pool, the resource map and the
      attributes, and [validate_apk_manifest];
    - [Slices]: windows of a byte string and little-endian integers;
    - [Chunks]: the loop over the chunks against their list;
    - [Manifest]: trees of elements, the documents that carry them ([document]) and the facts
      of a tree ([tree_facts]);
    - [Archive]: the archives a manifest can be extracted from, as a description of their
      parts; [Crc]: the checksum as a division of polynomials;
    - [Texts]: the texts of a string pool, and valid UTF-8 and UTF-16 as sequences of
      characters;
    - [Validation]: what passes, and a concrete archive that does.

    The rest of the adapter, [src/cli/crates/android-emulator-adapter/src]:
    - [Machine]: what it asks of the machine it runs on (clock, flags, files, sockets,
      processes) as the class [Machine] of operations on a world, with a history of the
      calls, commands as the class [CommandRunner], and the helpers of [process.rs];
    - [Adb]: the [AdbClient] of [lib.rs] and the parsers of the output of [adb];
    - [Loopback]: [raw.rs], the connections to a forwarded port;
    - [Android]: the rest of [lib.rs]: [validate_selection], the snapshot of the artifact,
      [begin_launch_android], [launch_android] with its rollback, and the receipt;
    - [Commands]: [SystemCommandRunner] of [process.rs], a command as a polled child process;
    - [AndroidHost]: the adapter as an instance of the broker's [PlatformIo] and
      [PlatformHost];
    - [Traces]: rules for the events a computation adds; [Rollback]: what a launch leaves
      behind; [Listings]: the list of forwardings as text; [Forwards]: what a launch does to
      the table of the [adb] server ([AdbServer]); [Polling]: that the waits end and what a
      command gives back; [Shell]: what is run in the shell of the device; [Kept]: what the
      raw transport leaves alone; [Emulator]: a concrete machine for the witnesses.

    [Prelude] holds the state-and-error monad [M] ([&mut self] methods that return a
    [Result]; the state of the error path is kept), byte strings, big-endian integers, loops
    and the tactics and lemmas the files share.

    ** How the model reads

    A struct is a [Record], an enum an [Inductive], a method a [Definition] of the same name
    (with a prefix where two types share it: [b_] and [t_] for broker and target, [s_] for
    the session core, [o_] for outcomes).  A machine integer is a [Z] with its checked or
    saturating arithmetic written out ([checked_add] at 64 bits); [usize] is 64 bits wide.  A
    [HashMap] is a [gmap]; where the code iterates over one ([lease_handoff],
    [terminal_timer_tokens]) the result does not depend on the order.  Randomness is an
    argument: the entropy of a handshake, the list of draws of a generation or of a broker.
    A value the code moves out of the state while a handler runs is out of it in the model
    too ([bootstrap_bytes], [full_write_committed]), which is what the finding about limit
    Closes is about.

    In the broker each hold of the lock is one atomic section, and so is each call of the
    clock, the platform and the raw transport between two holds; a wait on a condition
    variable is a step that is only possible where its condition holds, and a wait with a
    deadline may also end without it.  A section that panics halts its thread with [None].
    [Books] is a history of what was launched, cleaned up, given out and drawn: no definition
    reads it, the theorems do.

    ** What the theorems show

    - Bytes and codecs: envelopes survive any splitting of the stream ([push_app],
      [push_faithful], [push_roundtrip], [push_error]); the record codec is a bijection;
      every parser accepts exactly the canonical bytes of its value ([parse_*_exact],
      [descriptor_exact]); reassembly yields a message exactly for its fragments
      ([reassembly_exact], [fragments_reassemble]) and fails closed; the launch descriptor
      that the host writes with an encoder of its own is what the target reads
      ([launch_descriptor_arrives]).
    - One connection: in every run of calls a lease end or a session end is open with room
      for a Close, or closed without keys ([lease_run_inv], [session_run_inv]), closed ends
      are silent, heartbeats rise, messages alternate and keep within their caps, and the
      hand-off evidence is conservative.
    - Two ends: the bootstrap completes, sessions establish, any conversation within the
      limits is delivered, heartbeats complete, limits and Closes are announced.
    - The supervisor: every run refines the lifecycle and keeps the state well formed; tokens
      are never reused; the end of a lease is final, and thirty ticks bring it about; the
      timers announced as terminal are those that end something; a supervisor connected to
      its broker reaches its lease.  [limit_commit_forgets_handoff] records where the code
      loses hand-off evidence.
    - The control channel: the validator ends and accepts exactly the deterministic
      encodings ([deterministic_exact]); packets of requests and successes decode and encode
      exactly as their trees say, within caps that are those of the longest exchange
      ([request_packets_exact], [success_packets_exact]); failures arrive with a normalised
      message ([failure_packets_arrive]); the incremental decoder accepts a request however
      it is cut, holds a bounded number of bytes and fails closed ([stream_exact],
      [stream_bounded_and_closed]); references are exact ([references_exact]).
    - The raw transport: reads give out the bytes of the stream in order
      ([reads_faithful]), its loops end ([reading_ends]), an exchange says whether its
      request may have been handed off ([exchange_evidence]), and a session or bootstrap that
      fails leaves its stream cancelled and its launch cleaned up ([open_session_cancels],
      [bootstrap_cleans_up]).  An owned operation gives its value to exactly one consumer
      ([op_exactly_once]) and its waits return ([wait_returns]).
    - The broker, in every interleaving of requests, maintenance and shutdowns: no panic
      ([broker_never_panics]), no deadlock and no endless run ([broker_completes]),
      consistent tables ([broker_tables]), leases and references that only go forward
      ([lease_lifecycle]), launches and clean-ups done at most once
      ([receipts_spent_once]) and not while a request uses the lease
      ([cleanup_after_operations]), and nothing left behind by a shutdown
      ([shutdown_leaves_nothing]).
    - The APK: what passes ([apk_validated]) is an archive of exactly one manifest
      ([archive_exact]) whose binary XML is exactly one well-nested tree ([manifest_exact])
      over a pool of valid texts ([string_pool_exact]) with one application and one exported
      bootstrap activity; the checksum notices every change within four adjacent bytes
      ([crc32_detects_bursts]).  [ex_nested_passes] records that the parents of elements are
      compared by name only.
    - The Android adapter: only a verified copy is installed ([installed_is_verified]); a
      launch leaves no file, and no app that it saw start when it fails
      ([launch_leaves_nothing]); the port forwardings of others are untouched and its own is
      there exactly while a launch or lease holds it ([forwards_given_back],
      [prepared_or_given_back]); nothing a selection or descriptor contains is interpreted by
      the shell of the device ([shell_words_safe]); a command's process never outlives
      its call, not even as a zombie ([command_runs]), and the waits end ([waits_end]).

    ** Hypotheses

    Other crates are classes with laws; every law is one of the documentation, and holds of
    the reference instances.  [SteadyClock] says that the system clock is past the epoch,
    [LongClock] also that it is far from the last instant of the protocol (the year 287396):
    without them the code fails with [InternalError] where it asks for the time.  That the
    random strings a broker draws are different from each other ([NoDup]) is what the code
    relies on for tokens of 32 random bytes.

    [AdbServer] is the documented behaviour of [adb forward]: the list is the list, [tcp:0]
    picks a free port and prints it, a command that fails was carried out or not but not in
    part; nobody else changes the table meanwhile.  [SteadyMachine] is a clock that does not
    go back and a sleep that takes its time, [PipedMachine] that a child that was spawned
    with pipes has them.  They are used by [Forwards], [Polling] and [AndroidHost] only:
    [Rollback] and [Shell] hold whatever the machine and the commands answer.

    ** Fuel and bounds

    [push_loop] runs on fuel above the number of pending bytes, of which each turn that
    goes on takes at least one; [push_evals] shows that [push] never runs out.  [chunks]
    takes the length of its input.  [validate_item] and its loops run on fuel above the number
    of bytes, of which every item takes one; [validate_parses] shows that they never run
    out.  The loops of the raw transport run on binary fuel ([repeat_until], [loop_]):
    [READ_TURNS] is 65538, more than the bytes of an envelope, and [RESPONSE_TURNS] 2{^32}+1,
    more than the records of a message; [reading_ends] shows that neither is used up.  The
    draws of a generation are a list; [None] means that it is used up before a draw is
    accepted.  The loop over the chunks of a binary XML file has fuel for each of its bytes,
    of which a chunk has eight ([parse_chunks_spec]).  The loops of the Android adapter have
    2{^64}+1 turns to connect and to poll ([CONNECT_TURNS], [POLL_TURNS]), of which each that
    goes on sleeps at least a millisecond before a deadline of 64 bits, and 2{^30}+2 to copy
    ([COPY_TURNS]), of which each that goes on copies a byte of at most 2{^30};
    [waits_end] shows that none is used up.  The runs of the supervisor, the leases and the
    sessions are lists of events, and the schedules of a broker lists of turns, of any
    length.

    ** Not modelled

    Zeroization and [Drop] (but for the guards of the broker's operations and probes, which
    are modelled), [Debug] output, the functions compiled for tests only, panics
    ([unreachable!] on tags no caller passes) outside [OwnedOp] and the broker, and the
    feature [internal-diagnostics], off by default, which only adds messages to the stock
    ones.  In the Android adapter the mutexes around a stream are not poisoned, the two
    threads that read the output of a command are the pieces they have read by some time, and
    that a pipe reaches its end is up to the machine ([read_to_end]).  The host runtime's Unix
    layer is system calls; the command catalogue and results of the command line are tables
    and JSON rendering; the Apple adapter runs [simctl] and hashes bundles; the production composition wires the components into executables; the C
    and JNI bindings are glue; the reference verifier checks the contract documents; the
    exploratory spike is superseded; and the Swift and Kotlin sides are other languages.
*)

From Stdlib Require Import Strings.String Init.Byte Strings.Byte.
From Stdlib Require Export ZArith Lia List Bool.
From stdpp Require Export base tactics option list list_numbers numbers fin_maps gmap.

Export ListNotations String.StringSyntax.
#[global] Open Scope Z_scope.

(** ** Results and the state-and-error monad

    A Rust [Result] is [result]; a [&mut self] method that returns a [Result] is a
    computation of [M]: the state it leaves is returned on the error path too. *)

Inductive result (E A : Type) : Type :=
| Ok (a : A)
| Err (e : E).
Arguments Ok {E A} a.
Arguments Err {E A} e.

Definition is_ok {E A} (r : result E A) : bool :=
  match r with Ok _ => true | Err _ => false end.

Definition res_bind {E A B} (r : result E A) (k : A -> result E B) : result E B :=
  match r with Ok a => k a | Err e => Err e end.

Definition res_of_option {E A} (e : E) (o : option A) : result E A :=
  match o with Some a => Ok a | None => Err e end.

(** [map_err]. *)
Definition res_map_err {E F A} (f : E -> F) (r : result E A) : result F A :=
  match r with Ok a => Ok a | Err e => Err (f e) end.

(** [if !cond { return Err(e) }]. *)
Definition ensure {E} (b : bool) (e : E) : result E unit :=
  if b then Ok tt else Err e.

Definition M (S E A : Type) : Type := S -> result E A * S.

Definition ret {S E A} (a : A) : M S E A := fun s => (Ok a, s).
Definition throw {S E A} (e : E) : M S E A := fun s => (Err e, s).
Definition mbind_M {S E A B} (m : M S E A) (k : A -> M S E B) : M S E B :=
  fun s => let '(r, s') := m s in
           match r with Ok a => k a s' | Err e => (Err e, s') end.
Definition lift {S E A} (r : result E A) : M S E A := fun s => (r, s).
Definition get {S E} : M S E S := fun s => (Ok s, s).
Definition modify {S E} (f : S -> S) : M S E unit := fun s => (Ok tt, f s).

Declare Scope model_scope.
Delimit Scope model_scope with model.
Notation "'let?' x := r 'in' k" := (res_bind r (fun x => k))
  (at level 10, x name, r at level 100, k at level 200) : model_scope.
Notation "'let?' ' p := r 'in' k" := (res_bind r (fun p => k))
  (at level 10, p strict pattern, r at level 100, k at level 200) : model_scope.
Notation "'check' b 'else' e 'in' k" := (res_bind (ensure b e) (fun _ => k))
  (at level 10, b at level 100, e at level 100, k at level 200) : model_scope.
Notation "'do' x <- m ; k" := (mbind_M m (fun x => k))
  (at level 10, x name, m at level 100, k at level 200) : model_scope.
Notation "'do' ' p <- m ; k" := (mbind_M m (fun p => k))
  (at level 10, p strict pattern, m at level 100, k at level 200) : model_scope.
Notation "'run' m ; k" := (mbind_M m (fun _ => k))
  (at level 10, m at level 100, k at level 200) : model_scope.
#[global] Open Scope model_scope.

Lemma Ok_inj {E A} (a b : A) : @Ok E A a = Ok b -> a = b.
Proof. congruence. Qed.

Section ResultLemmas.
Context {E A B : Type}.
Implicit Types (r : result E A) (k : A -> result E B).

Lemma res_bind_ok r k b :
  res_bind r k = Ok b <-> exists a, r = Ok a /\ k a = Ok b.
Proof. destruct r; cbn; naive_solver. Qed.

Lemma res_bind_err r k e :
  res_bind r k = Err e <-> r = Err e \/ exists a, r = Ok a /\ k a = Err e.
Proof. destruct r; cbn; naive_solver. Qed.

Lemma ensure_ok (b : bool) (e : E) u : ensure b e = Ok u <-> b = true.
Proof. destruct b, u; cbn; naive_solver. Qed.

Lemma ensure_err (b : bool) (e e' : E) : ensure b e = Err e' <-> b = false /\ e = e'.
Proof. destruct b; cbn; naive_solver. Qed.

Lemma res_of_option_ok (e : E) (o : option A) a :
  res_of_option e o = Ok a <-> o = Some a.
Proof. destruct o; cbn; naive_solver. Qed.

Lemma res_of_option_err (e e' : E) (o : option A) :
  res_of_option e o = Err e' <-> o = None /\ e = e'.
Proof. destruct o; cbn; naive_solver. Qed.
End ResultLemmas.

Section MonadLemmas.
Context {S E A B : Type}.
Implicit Types (m : M S E A) (k : A -> M S E B).

Lemma mbind_M_ok m k s b s' :
  mbind_M m k s = (Ok b, s') <->
  exists a s1, m s = (Ok a, s1) /\ k a s1 = (Ok b, s').
Proof. unfold mbind_M. destruct (m s) as [[] ?]; naive_solver. Qed.

Lemma mbind_M_err m k s e s' :
  mbind_M m k s = (Err e, s') <->
  m s = (Err e, s') \/ exists a s1, m s = (Ok a, s1) /\ k a s1 = (Err e, s').
Proof. unfold mbind_M. destruct (m s) as [[] ?]; naive_solver. Qed.

Lemma lift_bind_ok (r : result E A) k s b s' :
  mbind_M (lift r) k s = (Ok b, s') <-> exists a, r = Ok a /\ k a s = (Ok b, s').
Proof. unfold mbind_M, lift. destruct r; naive_solver. Qed.

Lemma lift_bind (r : result E A) k s a : r = Ok a -> mbind_M (lift r) k s = k a s.
Proof. by intros ->. Qed.

Lemma get_bind (k : S -> M S E B) s : mbind_M get k s = k s s.
Proof. done. Qed.

Lemma modify_bind f (k : unit -> M S E B) s : mbind_M (modify f) k s = k tt (f s).
Proof. done. Qed.

Lemma mbind_M_step m k s a s1 : m s = (Ok a, s1) -> mbind_M m k s = k a s1.
Proof. unfold mbind_M. by intros ->. Qed.

Lemma mbind_M_fail m k s e s1 : m s = (Err e, s1) -> mbind_M m k s = (Err e, s1).
Proof. unfold mbind_M. by intros ->. Qed.
End MonadLemmas.

(** A [loop] whose body returns from it with [Some].  The fuel is binary, so that a bound of
    2{^32} turns costs nothing: [repeat_until p m] makes at most [p] turns, and answers [None]
    when they are used up ([repeat_until_turns]). *)
Fixpoint repeat_until {S E A} (p : positive) (m : M S E (option A)) : M S E (option A) := fun s =>
  match p with
  | xH => m s
  | xO q => match repeat_until q m s with (Ok None, s') => repeat_until q m s' | r => r end
  | xI q =>
      match m s with
      | (Ok None, s') => match repeat_until q m s' with (Ok None, s') => repeat_until q m s' | r => r end
      | r => r
      end
  end.

(** The loop, with the error of a bound that is used up. *)
Definition loop_ {S E A} (p : positive) (spent : E) (m : M S E (option A)) : M S E A := fun s =>
  match repeat_until p m s with
  | (Ok (Some a), s') => (Ok a, s')
  | (Ok None, s') => (Err spent, s')
  | (Err e, s') => (Err e, s')
  end.

Section Loops.
Context {S E A : Type} (m : M S E (option A)).

(** [n] turns, one after the other. *)
Fixpoint turns_of (n : nat) : M S E (option A) := fun s =>
  match n with
  | O => (Ok None, s)
  | Datatypes.S n => match m s with (Ok None, s') => turns_of n s' | r => r end
  end.

Lemma turns_of_add a b s :
  turns_of (a + b) s = match turns_of a s with (Ok None, s') => turns_of b s' | r => r end.
Proof.
  revert s. induction a as [|a IH]; intros s; [done|]. cbn [turns_of Nat.add].
  by destruct (m s) as [[[?|]|?] s'].
Qed.

Lemma repeat_until_turns p s : repeat_until p m s = turns_of (Pos.to_nat p) s.
Proof.
  revert s. induction p as [q IH|q IH|]; intros s; cbn [repeat_until].
  - rewrite Pos2Nat.inj_xI. cbn [turns_of]. destruct (m s) as [[[?|]|?] s']; try done.
    replace (2 * Pos.to_nat q)%nat with (Pos.to_nat q + Pos.to_nat q)%nat by lia.
    rewrite turns_of_add, <- IH. destruct (repeat_until q m s') as [[[?|]|?] s'']; try done.
  - rewrite Pos2Nat.inj_xO.
    replace (2 * Pos.to_nat q)%nat with (Pos.to_nat q + Pos.to_nat q)%nat by lia.
    rewrite turns_of_add, <- IH. destruct (repeat_until q m s) as [[[?|]|?] s'']; try done.
  - change (Pos.to_nat 1) with 1%nat. cbn [turns_of]. by destruct (m s) as [[[?|]|?] s'].
Qed.

(** A body that keeps [I] and lowers a measure below the bound never uses it up. *)
Lemma repeat_until_ends (I : S -> Prop) (measure : S -> nat) (Q : A -> S -> Prop)
    (X : E -> S -> Prop) p s :
  (forall s, I s -> match m s with
                    | (Ok (Some a), s') => Q a s'
                    | (Ok None, s') => I s' /\ (measure s' < measure s)%nat
                    | (Err e, s') => X e s'
                    end) ->
  I s -> (measure s < Pos.to_nat p)%nat ->
  match repeat_until p m s with
  | (Ok (Some a), s') => Q a s'
  | (Ok None, s') => False
  | (Err e, s') => X e s'
  end.
Proof.
  intros Hm. rewrite repeat_until_turns. generalize (Pos.to_nat p). clear p.
  intros n. revert s. induction n as [|n IH]; intros s Hi Hn; [lia|]. cbn [turns_of].
  specialize (Hm s Hi). destruct (m s) as [[[a|]|e] s']; try done.
  destruct Hm as [Hi' Hlt]. apply IH; [done|lia].
Qed.
End Loops.

(** ** What a computation leaves

    [post m s Q X]: from [s], [m] ends with a value and a state that satisfy [Q], or with an
    error and a state that satisfy [X]. *)
Definition post {S E A} (m : M S E A) (s : S) (Q : A -> S -> Prop) (X : E -> S -> Prop) : Prop :=
  match m s with (Ok a, s') => Q a s' | (Err e, s') => X e s' end.

Section Post.
Context {S E : Type}.
Implicit Types s : S.

Lemma post_bind {A B} (m : M S E A) (k : A -> M S E B) s (Q : B -> S -> Prop) X :
  post m s (fun a s' => post (k a) s' Q X) X -> post (mbind_M m k) s Q X.
Proof. unfold post, mbind_M. by destruct (m s) as [[a|e] s']. Qed.
Lemma post_mono {A} (m : M S E A) s (Q Q' : A -> S -> Prop) (X X' : E -> S -> Prop) :
  post m s Q X -> (forall a s', Q a s' -> Q' a s') -> (forall e s', X e s' -> X' e s') ->
  post m s Q' X'.
Proof. unfold post. destruct (m s) as [[a|e] s']; auto. Qed.
Lemma post_ret {A} (a : A) s (Q : A -> S -> Prop) (X : E -> S -> Prop) :
  Q a s -> post (ret a) s Q X.
Proof. done. Qed.
Lemma post_throw {A} (e : E) s (Q : A -> S -> Prop) (X : E -> S -> Prop) :
  X e s -> post (throw e) s Q X.
Proof. done. Qed.
Lemma post_lift {A} (r : result E A) s (Q : A -> S -> Prop) (X : E -> S -> Prop) :
  (forall a, r = Ok a -> Q a s) -> (forall e, r = Err e -> X e s) -> post (lift r) s Q X.
Proof. unfold post, lift. destruct r; auto. Qed.
Lemma post_repeat {A} (m : M S E (option A)) (I : S -> Prop) (measure : S -> nat)
    (Q : A -> S -> Prop) (X : E -> S -> Prop) p s :
  (forall s, I s -> post m s
     (fun o s' => match o with
                  | Some a => Q a s'
                  | None => I s' /\ (measure s' < measure s)%nat
                  end) X) ->
  I s -> (measure s < Pos.to_nat p)%nat ->
  post (repeat_until p m) s (fun o s' => match o with Some a => Q a s' | None => False end) X.
Proof.
  intros Hm Hi Hp. unfold post in *.
  pose proof (repeat_until_ends m I measure Q X p s) as Hr.
  destruct (repeat_until p m s) as [[[a|]|e] s'];
    apply Hr; try done; intros s0 Hi0; specialize (Hm s0 Hi0); by destruct (m s0) as [[[?|]|?] ?].
Qed.
Lemma post_loop {A} (m : M S E (option A)) (Q : A -> S -> Prop) (X : E -> S -> Prop) p spent s :
  post (repeat_until p m) s (fun o s' => match o with Some a => Q a s' | None => False end) X ->
  post (loop_ p spent m) s Q X.
Proof. unfold post, loop_. by destruct (repeat_until p m s) as [[[a|]|e] s']. Qed.
End Post.

(** [frame f m]: the computation [m] leaves [f] of the state as it was. *)
Section Frame.
Context {S E B : Type} (f : S -> B).

Definition frame {A} (m : M S E A) : Prop := forall s, f (snd (m s)) = f s.

Lemma frame_bind {A C} (m : M S E A) (k : A -> M S E C) :
  frame m -> (forall a, frame (k a)) -> frame (mbind_M m k).
Proof.
  intros Hm Hk s. unfold mbind_M. specialize (Hm s).
  destruct (m s) as [[a|e] s']; cbn in *; [|done]. by rewrite Hk.
Qed.
Lemma frame_lift {A} (r : result E A) : frame (lift r).
Proof. done. Qed.
Lemma frame_get : frame get.
Proof. done. Qed.
Lemma frame_ret {A} (a : A) : frame (ret a).
Proof. done. Qed.
Lemma frame_throw {A} (e : E) : frame (@throw S E A e).
Proof. done. Qed.
Lemma frame_modify g : (forall s, f (g s) = f s) -> frame (modify g).
Proof. done. Qed.
End Frame.

(** [res_inv H] splits an equation [_ = Ok _] on a chain of [let?]s, [check]s and
    option conversions into the equations of its parts. *)
Ltac res_inv_step H :=
  lazymatch type of H with
  | res_bind (ensure ?b ?e) _ = Ok _ =>
      let u := fresh "u" in let Hb := fresh "Hc" in
      apply res_bind_ok in H as (u & Hb & H); apply ensure_ok in Hb; clear u; cbn beta in H
  | res_bind (res_of_option _ ?o) _ = Ok _ =>
      let a := fresh "a" in let Ha := fresh "Ho" in
      apply res_bind_ok in H as (a & Ha & H); apply res_of_option_ok in Ha; cbn beta in H
  | res_bind _ _ = Ok _ =>
      let a := fresh "a" in let Ha := fresh "Hr" in
      apply res_bind_ok in H as (a & Ha & H); cbn beta in H
  end.
Ltac res_inv H := repeat res_inv_step H.

(** [m_inv H] does the same for an equation [m s = (Ok _, _)] on a chain of [do]s. *)
Ltac m_inv_step H :=
  lazymatch type of H with
  | mbind_M (lift (ensure _ _)) _ _ = (Ok _, _) =>
      let u := fresh "u" in let Hb := fresh "Hc" in
      apply lift_bind_ok in H as (u & Hb & H); apply ensure_ok in Hb; clear u; cbn beta in H
  | mbind_M (lift _) _ _ = (Ok _, _) =>
      let a := fresh "a" in let Ha := fresh "Hr" in
      apply lift_bind_ok in H as (a & Ha & H); cbn beta in H
  | mbind_M get _ _ = (Ok _, _) => rewrite get_bind in H; cbn beta in H
  | mbind_M (modify _) _ _ = (Ok _, _) => rewrite modify_bind in H; cbn beta in H
  | mbind_M _ _ _ = (Ok _, _) =>
      let a := fresh "a" in let s := fresh "s" in let Ha := fresh "Hm" in
      apply mbind_M_ok in H as (a & s & Ha & H); cbn beta in H
  | ret _ _ = (Ok _, _) => injection H as H ?; subst
  end.
Ltac m_inv H := repeat m_inv_step H.

(** [m_run] runs the [do]s of the goal, where the guards that hold are discharged by
    [tac]. *)
Ltac m_run tac :=
  repeat first
  [ rewrite get_bind; cbn beta
  | rewrite modify_bind; cbn beta
  | match goal with
    | |- context [mbind_M (lift (ensure ?b ?e)) ?k ?s] =>
        rewrite (lift_bind (ensure b e) k s tt) by (apply ensure_ok; tac); cbn beta
    end ].

(** ** Bytes and machine integers

    [byte] is the kernel's 256-element type, so a [list byte] is exactly a Rust
    [&[u8]]/[Vec<u8>].  The integers [u8 .. u64] are [Z]s; what the code computes on
    them is written with its checks and its wrap-around. *)

Abbreviation byte := Init.Byte.byte.
Abbreviation bytes := (list byte).

(** The number a byte holds, and [_ as u8]. *)
Definition u8 (b : byte) : Z := Z.of_N (Byte.to_N b).
Definition b8 (z : Z) : byte :=
  match Byte.of_N (Z.to_N (z mod 256)) with Some b => b | None => x00 end.

Lemma u8_range b : 0 <= u8 b < 256.
Proof.
  unfold u8. pose proof (Byte.to_N_bounded b). lia.
Qed.

Lemma u8_b8 z : u8 (b8 z) = z mod 256.
Proof.
  unfold u8, b8. pose proof (Z.mod_pos_bound z 256 ltac:(lia)) as Hz.
  destruct (Byte.of_N (Z.to_N (z mod 256))) as [b|] eqn:Hb.
  - apply Byte.to_of_N in Hb. rewrite Hb. lia.
  - apply Byte.of_N_None_iff in Hb. lia.
Qed.

Lemma u8_b8_small z : 0 <= z < 256 -> u8 (b8 z) = z.
Proof. intros. rewrite u8_b8. by apply Z.mod_small. Qed.

Lemma u8_inj b c : u8 b = u8 c -> b = c.
Proof.
  unfold u8. intros H%N2Z.inj.
  pose proof (Byte.of_to_N b) as Hb. pose proof (Byte.of_to_N c) as Hc.
  rewrite H in Hb. congruence.
Qed.

Lemma b8_u8 b : b8 (u8 b) = b.
Proof. apply u8_inj. rewrite u8_b8. apply Z.mod_small, u8_range. Qed.

#[export] Instance byte_eq_dec : EqDecision byte.
Proof.
  intros b c. destruct (decide (u8 b = u8 c)) as [H|H].
  - left. by apply u8_inj.
  - right. congruence.
Defined.

(** Byte-string equality as the code's [==]. *)
Definition bytes_eqb (a b : bytes) : bool := bool_decide (a = b).

Lemma bytes_eqb_eq a b : bytes_eqb a b = true <-> a = b.
Proof. unfold bytes_eqb. apply bool_decide_eq_true. Qed.

Lemma bytes_eqb_refl a : bytes_eqb a a = true.
Proof. by apply bytes_eqb_eq. Qed.

(** The length of a slice as the [usize]/[u64] the code computes with. *)
Definition len {A} (l : list A) : Z := Z.of_nat (length l).

Lemma len_nonneg {A} (l : list A) : 0 <= len l.
Proof. unfold len. lia. Qed.

Lemma to_nat_len {A} (l : list A) : Z.to_nat (len l) = length l.
Proof. unfold len. lia. Qed.

Lemma len_app {A} (l k : list A) : len (l ++ k) = len l + len k.
Proof. unfold len. rewrite length_app. lia. Qed.

Lemma len_cons {A} (x : A) l : len (x :: l) = 1 + len l.
Proof. unfold len. cbn [length]. lia. Qed.

Lemma len_nil {A} : len (@nil A) = 0.
Proof. reflexivity. Qed.

Lemma len_0 {A} (l : list A) : len l = 0 <-> l = [].
Proof. unfold len. destruct l; cbn; split; intros; [done|done|lia|done]. Qed.

Lemma last_cons {A} (a : A) l d : List.last (a :: l) d = List.last l a.
Proof.
  revert a d. induction l as [|x l IH]; intros a d; [done|].
  change (List.last (x :: l) d = List.last (x :: l) a). by rewrite !IH.
Qed.

Definition is_empty {A} (l : list A) : bool :=
  match l with [] => true | _ :: _ => false end.

Lemma is_empty_false {A} (l : list A) : is_empty l = false <-> 0 < len l.
Proof. unfold len. destruct l; cbn; split; intros; try done; lia. Qed.

Lemma is_empty_true {A} (l : list A) : is_empty l = true <-> l = [].
Proof. by destruct l. Qed.

(** Big-endian: the [n]-byte representation of [z], and the number of a byte string. *)
Fixpoint be_encode (n : nat) (z : Z) : bytes :=
  match n with
  | O => []
  | S n' => b8 (z / 256 ^ Z.of_nat n') :: be_encode n' z
  end.

Fixpoint be_decode (l : bytes) : Z :=
  match l with
  | [] => 0
  | b :: l' => u8 b * 256 ^ len l' + be_decode l'
  end.

Lemma length_be_encode n z : length (be_encode n z) = n.
Proof. induction n; cbn; auto. Qed.

Lemma len_be_encode n z : len (be_encode n z) = Z.of_nat n.
Proof. unfold len. by rewrite length_be_encode. Qed.

Lemma be_decode_range l : 0 <= be_decode l < 256 ^ len l.
Proof.
  induction l as [|b l IH]; [change (0 <= 0 < 1); lia|].
  rewrite len_cons. cbn [be_decode].
  rewrite Z.pow_add_r by (pose proof (len_nonneg l); lia).
  pose proof (u8_range b). change (256 ^ 1) with 256. nia.
Qed.

Lemma be_decode_encode_mod n z : be_decode (be_encode n z) = z mod 256 ^ Z.of_nat n.
Proof.
  induction n as [|n IH]; [cbn; by rewrite Z.mod_1_r|].
  cbn [be_encode be_decode]. rewrite IH, u8_b8, len_be_encode.
  rewrite Nat2Z.inj_succ, Z.pow_succ_r by lia.
  set (p := 256 ^ Z.of_nat n). assert (0 < p) by (apply Z.pow_pos_nonneg; lia).
  rewrite (Z.mul_comm 256 p), Z.rem_mul_r by lia. ring.
Qed.

Lemma be_decode_encode n z :
  0 <= z < 256 ^ Z.of_nat n -> be_decode (be_encode n z) = z.
Proof. intros. rewrite be_decode_encode_mod. by apply Z.mod_small. Qed.

Lemma be_encode_mod n z k :
  (Z.of_nat n <= k)%Z -> be_encode n (z mod 256 ^ k) = be_encode n z.
Proof.
  revert k. induction n as [|n IH]; intros k Hk; [done|].
  cbn [be_encode]. f_equal; [|apply IH; lia].
  apply u8_inj. rewrite !u8_b8.
  replace (256 ^ k) with (256 ^ Z.of_nat n * (256 * 256 ^ (k - Z.of_nat n - 1))).
  2:{ rewrite <- Z.pow_succ_r, <- Z.pow_add_r by lia. f_equal. lia. }
  set (p := 256 ^ Z.of_nat n). assert (0 < p) by (apply Z.pow_pos_nonneg; lia).
  set (q := 256 ^ (k - Z.of_nat n - 1)). assert (0 < q) by (apply Z.pow_pos_nonneg; lia).
  rewrite Z.rem_mul_r by nia.
  rewrite (Z.mul_comm p), Z.div_add, Z.div_small, Z.add_0_l
    by (try apply Z.mod_pos_bound; lia).
  rewrite Z.rem_mul_r by lia.
  by rewrite (Z.mul_comm 256), Z.mod_add, Z.mod_mod by lia.
Qed.

Lemma be_encode_decode l : be_encode (length l) (be_decode l) = l.
Proof.
  induction l as [|b l IH]; [done|].
  cbn [length be_encode be_decode]. pose proof (be_decode_range l).
  fold (len l). set (p := 256 ^ len l) in *.
  assert (0 < p) by (apply Z.pow_pos_nonneg; pose proof (len_nonneg l); lia).
  f_equal.
  - rewrite Z.add_comm, Z.div_add, Z.div_small, Z.add_0_l by lia. apply b8_u8.
  - rewrite <- (be_encode_mod _ _ (len l)) by (unfold len; lia). fold p.
    rewrite Z.add_comm, Z.mod_add, Z.mod_small by lia. exact IH.
Qed.

Lemma be_decode_inj l k : length l = length k -> be_decode l = be_decode k -> l = k.
Proof.
  intros Hl Hd. rewrite <- (be_encode_decode l), <- (be_encode_decode k). congruence.
Qed.

(** [u64::checked_add]. *)
Definition U64_MAX : Z := 2 ^ 64 - 1.
Definition checked_add (a b : Z) : option Z :=
  if a + b <=? U64_MAX then Some (a + b) else None.

Lemma checked_add_some a b c : checked_add a b = Some c <-> c = a + b /\ a + b <= U64_MAX.
Proof. unfold checked_add. destruct (Z.leb_spec (a + b) U64_MAX); naive_solver lia. Qed.

Lemma checked_add_none a b : checked_add a b = None <-> U64_MAX < a + b.
Proof. unfold checked_add. destruct (Z.leb_spec (a + b) U64_MAX); naive_solver lia. Qed.

(** [Option::is_some]. *)
Definition is_Some_b {A} (o : option A) : bool := match o with Some _ => true | None => false end.

Lemma is_Some_b_false {A} (o : option A) : is_Some_b o = false <-> o = None.
Proof. by destruct o. Qed.
Lemma is_Some_b_true {A} (o : option A) : is_Some_b o = true <-> exists a, o = Some a.
Proof. destruct o; cbn; naive_solver. Qed.

(** [Option::is_none_or]. *)
Definition is_none_or {A} (p : A -> bool) (o : option A) : bool :=
  match o with None => true | Some a => p a end.

#[global] Arguments be_encode : simpl never.
#[global] Arguments be_decode : simpl never.
#[global] Arguments len : simpl never.
#[global] Arguments checked_add : simpl never.

(** A string literal of the source as the bytes of the [&str]. *)
Definition str (s : String.string) : bytes := String.list_byte_of_string s.
Arguments str _%_string.

(** The largest integer JSON can carry exactly: 2{^53} - 1. *)
Definition JSON_SAFE_MAX : Z := 9007199254740991.

(** ** Automation *)

Create HintDb model discriminated.
Create HintDb codec.
Create Rewrite HintDb len.
Create Rewrite HintDb wire.
#[export] Hint Rewrite @len_app @len_cons @len_nil len_be_encode @length_app
  length_be_encode : len.

(** Splits the boolean guards of the code into the propositions they decide. *)
Ltac bool_split :=
  repeat match goal with
  | H : _ && _ = true |- _ => apply andb_true_iff in H as [? ?]
  | H : _ || _ = false |- _ => apply orb_false_iff in H as [? ?]
  | H : negb _ = true |- _ => apply negb_true_iff in H
  | H : negb _ = false |- _ => apply negb_false_iff in H
  | H : (_ =? _) = true |- _ => apply Z.eqb_eq in H
  | H : (_ =? _) = false |- _ => apply Z.eqb_neq in H
  | H : (_ <? _) = true |- _ => apply Z.ltb_lt in H
  | H : (_ <? _) = false |- _ => apply Z.ltb_ge in H
  | H : (_ <=? _) = true |- _ => apply Z.leb_le in H
  | H : (_ <=? _) = false |- _ => apply Z.leb_gt in H
  | H : bytes_eqb _ _ = true |- _ => apply bytes_eqb_eq in H
  | H : is_Some_b _ = false |- _ => apply is_Some_b_false in H
  | H : bool_decide _ = true |- _ => apply bool_decide_eq_true in H
  | H : bool_decide _ = false |- _ => apply bool_decide_eq_false in H
  | H : is_empty _ = false |- _ => apply is_empty_false in H
  | H : is_empty _ = true |- _ => apply is_empty_true in H
  end.

(** Decides the comparisons of the goal that the context settles. *)
Ltac decide_cmp :=
  repeat match goal with
  | |- context [?a <=? ?b] =>
      first [ replace (a <=? b) with true by (symmetry; apply Z.leb_le; lia)
            | replace (a <=? b) with false by (symmetry; apply Z.leb_gt; lia) ]
  | |- context [?a <? ?b] =>
      first [ replace (a <? b) with true by (symmetry; apply Z.ltb_lt; lia)
            | replace (a <? b) with false by (symmetry; apply Z.ltb_ge; lia) ]
  | |- context [?a =? ?b] =>
      first [ replace (a =? b) with true by (symmetry; apply Z.eqb_eq; lia)
            | replace (a =? b) with false by (symmetry; apply Z.eqb_neq; lia) ]
  end.

(** Case analysis on the scrutinee of a [match] or [if] of a hypothesis or the goal. *)
Ltac case_on H :=
  match type of H with
  | context [match ?x with _ => _ end] =>
      lazymatch x with
      | context [match _ with _ => _ end] => fail
      | _ => let E := fresh "Hcase" in destruct x eqn:E
      end
  end.
Ltac case_goal :=
  match goal with
  | |- context [match ?x with _ => _ end] =>
      lazymatch x with
      | context [match _ with _ => _ end] => fail
      | _ => let E := fresh "Hcase" in destruct x eqn:E
      end
  end.
