(* ===== verification/Errors.v ===== *)
(** Close reasons, hand-off states and the error value of the transport core
    ([crypto-core/src/lib.rs]).  An [Error] carries no peer bytes and no key: a reason,
    the peer's authenticated close if that is what ended the session, and the one
    authenticated Close frame a limit transition may have produced. *)

From S2P Require Import Prelude.

(** ** Wire enumerations *)

Inductive CloseReason : Set :=
| Normal | AuthenticationFailed | BindingMismatch | Stale | Timeout | Oversize
| Malformed | SequenceViolation | RecordLimit | PeerClosed | BrokerLost
| EligibilityLost | CleanupFailed | InternalError.

#[export] Instance CloseReason_eq_dec : EqDecision CloseReason.
Proof. solve_decision. Defined.

(** [#[repr(u8)]]: the discriminant [reason as u8]. *)
Definition CloseReason_wire (r : CloseReason) : Z :=
  match r with
  | Normal => 0 | AuthenticationFailed => 1 | BindingMismatch => 2 | Stale => 3
  | Timeout => 4 | Oversize => 5 | Malformed => 6 | SequenceViolation => 7
  | RecordLimit => 8 | PeerClosed => 9 | BrokerLost => 10 | EligibilityLost => 11
  | CleanupFailed => 12 | InternalError => 13
  end.

Inductive HandoffState : Set := NotHandedOff | HandoffPossibleOrConfirmed.

#[export] Instance HandoffState_eq_dec : EqDecision HandoffState.
Proof. solve_decision. Defined.

Definition HandoffState_wire (h : HandoffState) : Z :=
  match h with NotHandedOff => 0 | HandoffPossibleOrConfirmed => 1 end.

(** ** The error value *)

Record Error : Set := mkError {
  reason : CloseReason;
  peer_close : option (CloseReason * HandoffState);
  close_frame : option bytes
}.

Definition Error_new (r : CloseReason) : Error :=
  {| reason := r; peer_close := None; close_frame := None |}.

Definition Error_peer_close (r : CloseReason) (h : HandoffState) : Error :=
  {| reason := PeerClosed; peer_close := Some (r, h); close_frame := None |}.

Definition Error_record_limit (frame : option bytes) : Error :=
  {| reason := RecordLimit; peer_close := None; close_frame := frame |}.

(** [take_close_frame]: the frame can be taken once. *)
Definition take_close_frame (e : Error) : option bytes * Error :=
  (close_frame e,
   {| reason := reason e; peer_close := peer_close e; close_frame := None |}).

(** Every fallible function of the core returns a [Result<_, Error>]. *)
Abbreviation Res := (result Error).

Definition err {A} (r : CloseReason) : Res A := Err (Error_new r).

Definition CloseReason_from_wire (v : Z) : Res CloseReason :=
  match v with
  | 0 => Ok Normal
  | 1 => Ok AuthenticationFailed
  | 2 => Ok BindingMismatch
  | 3 => Ok Stale
  | 4 => Ok Timeout
  | 5 => Ok Oversize
  | 6 => Ok Malformed
  | 7 => Ok SequenceViolation
  | 8 => Ok RecordLimit
  | 9 => Ok PeerClosed
  | 10 => Ok BrokerLost
  | 11 => Ok EligibilityLost
  | 12 => Ok CleanupFailed
  | 13 => Ok InternalError
  | _ => err Malformed
  end.

Definition HandoffState_from_wire (v : Z) : Res HandoffState :=
  match v with
  | 0 => Ok NotHandedOff
  | 1 => Ok HandoffPossibleOrConfirmed
  | _ => err Malformed
  end.

Definition conservative_max (a b : HandoffState) : HandoffState :=
  match a, b with
  | HandoffPossibleOrConfirmed, _ | _, HandoffPossibleOrConfirmed =>
      HandoffPossibleOrConfirmed
  | NotHandedOff, NotHandedOff => NotHandedOff
  end.

(** The order the conservative hand-off evidence lives in. *)
Definition handoff_le (a b : HandoffState) : Prop :=
  HandoffState_wire a <= HandoffState_wire b.

(** ** Facts *)

Lemma CloseReason_wire_range r : 0 <= CloseReason_wire r <= 13.
Proof. destruct r; cbn; lia. Qed.

Lemma HandoffState_wire_range h : 0 <= HandoffState_wire h <= 1.
Proof. destruct h; cbn; lia. Qed.

Lemma CloseReason_from_wire_roundtrip r :
  CloseReason_from_wire (CloseReason_wire r) = Ok r.
Proof. by destruct r. Qed.

Lemma CloseReason_from_wire_ok v r :
  CloseReason_from_wire v = Ok r -> v = CloseReason_wire r.
Proof.
  unfold CloseReason_from_wire.
  repeat first [ by intros [= <-] | discriminate
               | let p := fresh "p" in destruct v as [|p|p]
               | match goal with p : positive |- _ => destruct p end ].
Qed.

Lemma HandoffState_from_wire_roundtrip h :
  HandoffState_from_wire (HandoffState_wire h) = Ok h.
Proof. by destruct h. Qed.

Lemma HandoffState_from_wire_ok v h :
  HandoffState_from_wire v = Ok h -> v = HandoffState_wire h.
Proof.
  unfold HandoffState_from_wire. destruct v as [|[]|]; by intros [= <-].
Qed.

Lemma handoff_le_refl h : handoff_le h h.
Proof. unfold handoff_le; lia. Qed.

Lemma handoff_le_trans a b c : handoff_le a b -> handoff_le b c -> handoff_le a c.
Proof. unfold handoff_le; lia. Qed.

Lemma handoff_le_top h : handoff_le h HandoffPossibleOrConfirmed.
Proof. destruct h; unfold handoff_le; cbn; lia. Qed.

#[export] Instance handoff_le_preorder : PreOrder handoff_le.
Proof. split; [exact handoff_le_refl|exact handoff_le_trans]. Qed.

Lemma conservative_max_l a b : handoff_le a (conservative_max a b).
Proof. destruct a, b; unfold handoff_le; cbn; lia. Qed.

Lemma conservative_max_r a b : handoff_le b (conservative_max a b).
Proof. destruct a, b; unfold handoff_le; cbn; lia. Qed.

Lemma conservative_max_lub a b c :
  handoff_le a c -> handoff_le b c -> handoff_le (conservative_max a b) c.
Proof. destruct a, b, c; unfold handoff_le; cbn; lia. Qed.

#[export] Hint Resolve handoff_le_refl handoff_le_top conservative_max_l
  conservative_max_r CloseReason_wire_range HandoffState_wire_range : model.
#[export] Hint Rewrite CloseReason_from_wire_roundtrip HandoffState_from_wire_roundtrip
  : wire.

(** ** Failing without a frame

    A closed connection must never hand out an authenticated frame.  [quiet] is a result
    whose error carries none; over a state with a [closed] flag, [dead m] fails quietly
    from every closed state and leaves it closed, and [shut m] keeps it closed. *)

Definition quiet {A} (r : Res A) : Prop := forall e, r = Err e -> close_frame e = None.

Lemma quiet_bind {A B} (r : Res A) (k : A -> Res B) :
  quiet r -> (forall a, quiet (k a)) -> quiet (res_bind r k).
Proof. intros Hr Hk e. rewrite res_bind_err. naive_solver. Qed.
Lemma quiet_ok {A} (a : A) : quiet (Ok a).
Proof. done. Qed.
Lemma quiet_err {A} r : quiet (@err A r).
Proof. by intros e [= <-]. Qed.
Lemma quiet_ensure b r : quiet (ensure b (Error_new r)).
Proof. intros e He. apply ensure_err in He as [_ <-]. done. Qed.
Lemma quiet_of_option {A} r (o : option A) : quiet (res_of_option (Error_new r) o).
Proof. intros e He. apply res_of_option_err in He as [_ <-]. done. Qed.

Section Dead.
Context {S : Type} (closed : S -> bool).

Definition dead {A} (m : M S Error A) : Prop := forall s, closed s = true ->
  exists e s', m s = (Err e, s') /\ close_frame e = None /\ closed s' = true.
Definition shut {A} (m : M S Error A) : Prop := forall s, closed s = true ->
  closed (snd (m s)) = true /\ quiet (fst (m s)).

Lemma dead_bind_l {A B} (m : M S Error A) (k : A -> M S Error B) :
  dead m -> dead (mbind_M m k).
Proof.
  intros Hm s Hs. destruct (Hm s Hs) as (e & s' & He & Hq & Hs').
  exists e, s'. by rewrite (mbind_M_fail _ _ _ _ _ He).
Qed.
Lemma dead_bind_r {A B} (m : M S Error A) (k : A -> M S Error B) :
  shut m -> (forall a, dead (k a)) -> dead (mbind_M m k).
Proof.
  intros Hm Hk s Hs. destruct (Hm s Hs) as [Hc Hq]. unfold mbind_M.
  destruct (m s) as [[a|e] s']; cbn in *; [by apply Hk|]. exists e, s'. eauto.
Qed.
Lemma dead_bind_lift {A B} (r : Res A) (k : A -> M S Error B) :
  quiet r -> (forall a, r = Ok a -> dead (k a)) -> dead (mbind_M (lift r) k).
Proof.
  intros Hr Hk s Hs. destruct r as [a|e].
  - destruct (Hk a eq_refl s Hs) as (e & s' & He & Hq). by exists e, s'.
  - exists e, s. by split_and!; [|apply Hr|].
Qed.
Lemma dead_throw {A} r : dead (@throw S Error A (Error_new r)).
Proof. intros s Hs. by exists (Error_new r), s. Qed.
Lemma shut_lift {A} (r : Res A) : quiet r -> shut (lift r).
Proof. by intros Hr s Hs. Qed.
Lemma shut_get : shut get.
Proof. by intros s Hs. Qed.
Lemma shut_modify f : (forall s, closed s = true -> closed (f s) = true) -> shut (modify f).
Proof. intros Hf s Hs. split; [by apply Hf|done]. Qed.
End Dead.

#[export] Hint Resolve quiet_ok quiet_err quiet_ensure quiet_of_option : model.
