(* ===== verification/Crates.v ===== *)
(** Interfaces of the crates the code calls and whose code is not part of the repository:
    [minicbor] (CBOR items, RFC 8949), [snow] (the Noise protocol framework), [base64] and
    [sha2].  Each is a class of operations, with a class of the documented laws the code
    relies on; [CratesRef.v] holds an instance of each. *)

From S2P Require Import Prelude.

(** [str::from_utf8] (Unicode, table 3-7): the bytes of a [&str]. *)
Definition utf8_tail (lo hi : Z) (b : byte) : bool := (lo <=? u8 b) && (u8 b <=? hi).
Fixpoint valid_utf8 (l : bytes) : bool :=
  match l with
  | [] => true
  | a :: l1 =>
      if u8 a <? 128 then valid_utf8 l1
      else match l1 with
      | [] => false
      | b :: l2 =>
          if (194 <=? u8 a) && (u8 a <=? 223) then utf8_tail 128 191 b && valid_utf8 l2
          else match l2 with
          | [] => false
          | c :: l3 =>
              if (224 <=? u8 a) && (u8 a <=? 239) then
                utf8_tail (if u8 a =? 224 then 160 else 128)
                  (if u8 a =? 237 then 159 else 191) b
                && utf8_tail 128 191 c && valid_utf8 l3
              else match l3 with
              | [] => false
              | d :: l4 =>
                  (240 <=? u8 a) && (u8 a <=? 244)
                  && utf8_tail (if u8 a =? 240 then 144 else 128)
                       (if u8 a =? 244 then 143 else 191) b
                  && utf8_tail 128 191 c && utf8_tail 128 191 d && valid_utf8 l4
              end
          end
      end
  end.

(** ** minicbor

    The encoder appends the bytes of an item to a [Vec<u8>] ([None]: an encode error).
    The decoder reads an item at the front of what is left of its buffer and says how
    many bytes it took ([None]: a decode error).  [dec_map]/[dec_array] give [None] for
    an indefinite length.  Strings are the UTF-8 bytes of the [&str]. *)

Class Minicbor := {
  enc_map : Z -> option bytes;
  enc_array : Z -> option bytes;
  enc_u8 : Z -> option bytes;
  enc_u16 : Z -> option bytes;
  enc_u64 : Z -> option bytes;
  enc_bytes : bytes -> option bytes;
  enc_str : bytes -> option bytes;
  enc_bool : bool -> option bytes;
  dec_map : bytes -> option (option Z * nat);
  dec_array : bytes -> option (option Z * nat);
  dec_u8 : bytes -> option (Z * nat);
  dec_u16 : bytes -> option (Z * nat);
  dec_u64 : bytes -> option (Z * nat);
  dec_bytes : bytes -> option (bytes * nat);
  dec_str : bytes -> option (bytes * nat);
  dec_bool : bytes -> option (bool * nat)
}.

(** What one item's encoder and decoder owe each other: encoding a value in range
    succeeds, takes at most [n] bytes, and is read back from the front of any input. *)
Definition item_ok {A B} (enc : A -> option bytes) (dec : bytes -> option (B * nat))
    (inj : A -> B) (n : Z) (a : A) : Prop :=
  exists e, enc a = Some e /\ 1 <= len e <= n /\
    forall rest, dec (e ++ rest) = Some (inj a, length e).

Class MinicborLaws `{Minicbor} : Prop := {
  map_ok : forall n, 0 <= n <= U64_MAX -> item_ok enc_map dec_map Some 9 n;
  array_ok : forall n, 0 <= n <= U64_MAX -> item_ok enc_array dec_array Some 9 n;
  u8_ok : forall n, 0 <= n < 256 -> item_ok enc_u8 dec_u8 id 2 n;
  u16_ok : forall n, 0 <= n < 65536 -> item_ok enc_u16 dec_u16 id 3 n;
  u64_ok : forall n, 0 <= n <= U64_MAX -> item_ok enc_u64 dec_u64 id 9 n;
  bytes_ok : forall b : bytes, len b <= U64_MAX ->
    item_ok enc_bytes dec_bytes id (9 + len b) b;
  str_ok : forall b : bytes, valid_utf8 b = true -> len b <= U64_MAX ->
    item_ok enc_str dec_str id (9 + len b) b;
  dec_str_utf8 : forall l b n, dec_str l = Some (b, n) -> valid_utf8 b = true;
  (* RFC 8949, 3: an argument below 24 is in the initial byte. *)
  u8_small : forall n, 0 <= n < 24 -> enc_u8 n = Some [b8 n];
  map_small : forall n, 0 <= n < 24 -> enc_map n = Some [b8 (160 + n)]
}.

(** ** base64 and sha2

    [base64] is the URL-safe alphabet without padding ([None]: a decode error), [sha256] is
    SHA-256. *)
Class Base64 := { b64_encode : bytes -> bytes; b64_decode : bytes -> option bytes }.

(** RFC 4648, 5: four characters for three bytes, from A-Z, a-z, 0-9, [-] and [_]. *)
Definition b64_character (b : byte) : bool :=
  utf8_tail 65 90 b || utf8_tail 97 122 b || utf8_tail 48 57 b || (u8 b =? 45) || (u8 b =? 95).
Class Base64Laws `{Base64} : Prop := {
  b64_decode_encode : forall b, b64_decode (b64_encode b) = Some b;
  b64_encode_len : forall b, len (b64_encode b) = (8 * len b + 5) / 6;
  b64_encode_alphabet : forall b, forallb b64_character (b64_encode b) = true
}.

Class Sha2 := { sha256 : bytes -> bytes }.
Class Sha2Laws `{Sha2} : Prop := { sha256_len : forall b, len (sha256 b) = 32 }.

(** ** snow

    A [Builder] is made from a protocol name and the keys of the pattern; the ephemeral
    key a handshake draws from the operating system is the [entropy] given to
    [build_initiator]/[build_responder].  [write_message]/[read_message] take the state,
    the message and the room of the output buffer; [None] is a [snow::Error], and the
    state is returned on both paths, since it is mutated in place. *)

Class Snow := {
  Builder : Type;
  HandshakeState : Type;
  TransportState : Type;
  builder_new : bytes -> option Builder;
  builder_psk : Z -> bytes -> Builder -> option Builder;
  builder_remote_public_key : bytes -> Builder -> option Builder;
  builder_local_private_key : bytes -> Builder -> option Builder;
  builder_prologue : bytes -> Builder -> option Builder;
  builder_fixed_ephemeral_key : bytes -> Builder -> Builder;
  build_initiator : bytes -> Builder -> option HandshakeState;
  build_responder : bytes -> Builder -> option HandshakeState;
  hs_write_message : HandshakeState -> bytes -> Z -> option bytes * HandshakeState;
  hs_read_message : HandshakeState -> bytes -> Z -> option bytes * HandshakeState;
  get_handshake_hash : HandshakeState -> bytes;
  into_transport_mode : HandshakeState -> option TransportState;
  ts_write_message : TransportState -> bytes -> Z -> option bytes * TransportState;
  ts_read_message : TransportState -> bytes -> Z -> option bytes * TransportState;
  (* the public key of a private key *)
  x25519_public : bytes -> bytes;
  (* [linked k a b]: two ends of one completed handshake, each one's sending cipher state
     equal to the other's receiving one, with [k] messages left before a nonce runs out *)
  linked : Z -> TransportState -> TransportState -> Prop
}.

(** The two protocol names the core builds handshakes for. *)
Definition NK_NAME : bytes := str "Noise_NK_25519_ChaChaPoly_SHA256".
Definition NNPSK0_NAME : bytes := str "Noise_NNpsk0_25519_ChaChaPoly_SHA256".

(** The room a Noise message has: 65535 bytes. *)
Definition NOISE_MAX : Z := 65535.
(** The nonces of a transport state: 2{^64} - 1 per direction. *)
Definition NONCES : Z := 2 ^ 64 - 2.

Section SnowSpec.
Context `{Snow}.

(** A handshake of two messages between an initiator and a responder that agree: the
    payloads arrive, the hashes agree and the transport states are linked. *)
Definition handshake_completes (i r : HandshakeState) : Prop :=
  forall p1 p2, len p1 + 64 <= NOISE_MAX -> len p2 + 64 <= NOISE_MAX ->
  exists m1 i1 r1 m2 i2 r2 ti tr,
    hs_write_message i p1 NOISE_MAX = (Some m1, i1) /\
    1 <= len m1 <= NOISE_MAX /\
    hs_read_message r m1 NOISE_MAX = (Some p1, r1) /\
    hs_write_message r1 p2 NOISE_MAX = (Some m2, r2) /\
    1 <= len m2 <= NOISE_MAX /\
    hs_read_message i1 m2 NOISE_MAX = (Some p2, i2) /\
    get_handshake_hash i2 = get_handshake_hash r2 /\
    len (get_handshake_hash i2) = 32 /\
    into_transport_mode i2 = Some ti /\ into_transport_mode r2 = Some tr /\
    linked NONCES ti tr.
End SnowSpec.

Class SnowLaws `{Snow} : Prop := {
  linked_sym : forall k a b, linked k a b -> linked k b a;
  (* a message written by one end is read by the other, in order *)
  linked_send : forall k a b p, linked k a b -> 0 < k -> len p + 16 <= NOISE_MAX ->
    exists c a' b',
      ts_write_message a p (len p + 16) = (Some c, a') /\
      len c = len p + 16 /\
      ts_read_message b c (len c) = (Some p, b') /\
      linked (k - 1) a' b';
  (* NK with the responder's static key known to the initiator *)
  nk_completes : forall prologue sk ei er b0 bi bi' br br' i r,
    builder_new NK_NAME = Some b0 ->
    builder_remote_public_key (x25519_public sk) b0 = Some bi ->
    builder_prologue prologue bi = Some bi' -> build_initiator ei bi' = Some i ->
    builder_local_private_key sk b0 = Some br ->
    builder_prologue prologue br = Some br' -> build_responder er br' = Some r ->
    handshake_completes i r;
  (* NNpsk0 with one pre-shared key *)
  nnpsk0_completes : forall prologue psk ei er b0 b1 b2 i r,
    builder_new NNPSK0_NAME = Some b0 -> builder_psk 0 psk b0 = Some b1 ->
    builder_prologue prologue b1 = Some b2 ->
    build_initiator ei b2 = Some i -> build_responder er b2 = Some r ->
    handshake_completes i r
}.
