(* ===== verification/Wire.v ===== *)
(** Items on the wire (RFC 8949, 3): heads with an argument in any of their widths, the
    shortest of which is the deterministic one, and the wire format of [minicbor] in those
    terms. *)

From S2P Require Import Prelude Crates.

(** ** Heads *)

(** How many bytes of argument follow the initial byte. *)
Inductive width : Set := W0 | W1 | W2 | W4 | W8.

#[export] Instance width_eq_dec : EqDecision width.
Proof. solve_decision. Defined.

Definition wide_ok (w : width) (n : Z) : Prop :=
  match w with
  | W0 => 0 <= n < 24
  | W1 => 0 <= n < 2 ^ 8
  | W2 => 0 <= n < 2 ^ 16
  | W4 => 0 <= n < 2 ^ 32
  | W8 => 0 <= n < 2 ^ 64
  end.

(** The head of major type [m] with argument [n]. *)
Definition wide_head (w : width) (m n : Z) : bytes :=
  match w with
  | W0 => [b8 (m * 32 + n)]
  | W1 => b8 (m * 32 + 24) :: be_encode 1 n
  | W2 => b8 (m * 32 + 25) :: be_encode 2 n
  | W4 => b8 (m * 32 + 26) :: be_encode 4 n
  | W8 => b8 (m * 32 + 27) :: be_encode 8 n
  end.

Definition width_of (n : Z) : width :=
  if n <? 24 then W0
  else if n <? 2 ^ 8 then W1
  else if n <? 2 ^ 16 then W2
  else if n <? 2 ^ 32 then W4
  else W8.

(** The shortest head, which is the deterministic one (RFC 8949, 4.2.1). *)
Definition cbor_head (m n : Z) : bytes := wide_head (width_of n) m n.

Lemma cbor_head_if m n :
  cbor_head m n =
  if n <? 24 then [b8 (m * 32 + n)]
  else if n <? 2 ^ 8 then b8 (m * 32 + 24) :: be_encode 1 n
  else if n <? 2 ^ 16 then b8 (m * 32 + 25) :: be_encode 2 n
  else if n <? 2 ^ 32 then b8 (m * 32 + 26) :: be_encode 4 n
  else b8 (m * 32 + 27) :: be_encode 8 n.
Proof. unfold cbor_head, width_of. by repeat case_match. Qed.

Lemma width_of_ok n : 0 <= n <= U64_MAX -> wide_ok (width_of n) n.
Proof.
  unfold width_of, U64_MAX. intros Hn. repeat case_match; bool_split; cbn; lia.
Qed.

Lemma wide_head_len w m n : 1 <= len (wide_head w m n) <= 9.
Proof. destruct w; cbn; autorewrite with len; lia. Qed.

Lemma cbor_head_len m n : 1 <= len (cbor_head m n) <= 9.
Proof. apply wide_head_len. Qed.

(** The length of the shortest head. *)
Definition head_len (n : Z) : Z :=
  match width_of n with W0 => 1 | W1 => 2 | W2 => 3 | W4 => 5 | W8 => 9 end.
Lemma len_cbor_head m n : len (cbor_head m n) = head_len n.
Proof. unfold cbor_head, head_len. destruct (width_of n); cbn; autorewrite with len; lia. Qed.

(** Heads are read back from the front of any input. *)
Definition info_of (w : width) (n : Z) : Z :=
  match w with W0 => n | W1 => 24 | W2 => 25 | W4 => 26 | W8 => 27 end.
Definition arg_of (w : width) (n : Z) : bytes :=
  match w with
  | W0 => [] | W1 => be_encode 1 n | W2 => be_encode 2 n | W4 => be_encode 4 n
  | W8 => be_encode 8 n
  end.

Lemma wide_head_eq w m n : wide_head w m n = b8 (m * 32 + info_of w n) :: arg_of w n.
Proof. by destruct w. Qed.

Lemma info_range w n : wide_ok w n -> 0 <= info_of w n < 28.
Proof. destruct w; cbn; lia. Qed.

Lemma initial_inj m i m' i' :
  0 <= m < 8 -> 0 <= m' < 8 -> 0 <= i < 32 -> 0 <= i' < 32 ->
  b8 (m * 32 + i) = b8 (m' * 32 + i') -> m = m' /\ i = i'.
Proof.
  intros ? ? ? ? Hb. apply (f_equal u8) in Hb. rewrite !u8_b8_small in Hb by lia. lia.
Qed.

Lemma info_width w n w' n' :
  wide_ok w n -> wide_ok w' n' -> info_of w n = info_of w' n' ->
  w = w' /\ (w = W0 -> n = n').
Proof. destruct w, w'; cbn; intros; split; (done || lia). Qed.

Lemma arg_inj w n n' r r' :
  wide_ok w n -> wide_ok w n' -> w <> W0 -> arg_of w n ++ r = arg_of w n' ++ r' -> n = n' /\ r = r'.
Proof.
  assert (Hk : forall k, 0 <= n < 256 ^ Z.of_nat k -> 0 <= n' < 256 ^ Z.of_nat k ->
    be_encode k n ++ r = be_encode k n' ++ r' -> n = n' /\ r = r').
  { intros k Hn Hn' He. apply app_inj_1 in He as [He ->]; [|by rewrite !length_be_encode].
    split; [|done]. apply (f_equal be_decode) in He. by rewrite !be_decode_encode in He. }
  destruct w; cbn; intros ? ? ? He; try done; by apply Hk in He.
Qed.

(** Heads are prefix-free. *)
Lemma wide_head_inj w m n w' m' n' r r' :
  0 <= m < 8 -> 0 <= m' < 8 -> wide_ok w n -> wide_ok w' n' ->
  wide_head w m n ++ r = wide_head w' m' n' ++ r' -> w = w' /\ m = m' /\ n = n' /\ r = r'.
Proof.
  intros Hm Hm' Hw Hw'. rewrite !wide_head_eq. cbn [app]. intros [= Hi Hr].
  pose proof (info_range w n Hw). pose proof (info_range w' n' Hw').
  apply initial_inj in Hi as [<- Hi]; [|lia..].
  destruct (info_width _ _ _ _ Hw Hw' Hi) as [<- Hn]. destruct (decide (w = W0)) as [->|Hd].
  - rewrite (Hn eq_refl) in Hr. by split_and!; auto.
  - by destruct (arg_inj w n n' r r') as [-> ->].
Qed.

Lemma cbor_head_inj m n m' n' r r' :
  0 <= m < 8 -> 0 <= m' < 8 -> 0 <= n <= U64_MAX -> 0 <= n' <= U64_MAX ->
  cbor_head m n ++ r = cbor_head m' n' ++ r' -> m = m' /\ n = n' /\ r = r'.
Proof.
  intros Hm Hm' Hn Hn' He. apply wide_head_inj in He as (_ & ? & ? & ?); auto using width_of_ok.
Qed.

(** A head that agrees with a shortest one is that one. *)
Lemma wide_head_short w m n m' n' r r' :
  0 <= m < 8 -> 0 <= m' < 8 -> wide_ok w n -> 0 <= n' <= U64_MAX ->
  wide_head w m n ++ r = cbor_head m' n' ++ r' ->
  wide_head w m n = cbor_head m n /\ m = m' /\ n = n' /\ r = r'.
Proof.
  intros Hm Hm' Hw Hn' He. apply wide_head_inj in He as (-> & ? & -> & ?); auto using width_of_ok.
Qed.

(** ** The wire format of minicbor

    The encoder writes shortest heads; the decoder accepts every width of a head whose
    argument fits the type asked for, strings of definite length, and both forms of a map
    or an array. *)
Class MinicborWire `{Minicbor} : Prop := {
  wire_enc_map : forall n, 0 <= n <= U64_MAX -> enc_map n = Some (cbor_head 5 n);
  wire_enc_array : forall n, 0 <= n <= U64_MAX -> enc_array n = Some (cbor_head 4 n);
  wire_enc_u8 : forall n, 0 <= n < 256 -> enc_u8 n = Some (cbor_head 0 n);
  wire_enc_u16 : forall n, 0 <= n < 65536 -> enc_u16 n = Some (cbor_head 0 n);
  wire_enc_u64 : forall n, 0 <= n <= U64_MAX -> enc_u64 n = Some (cbor_head 0 n);
  wire_enc_bytes : forall b : bytes, len b <= U64_MAX ->
    enc_bytes b = Some (cbor_head 2 (len b) ++ b);
  wire_enc_str : forall b : bytes, len b <= U64_MAX ->
    enc_str b = Some (cbor_head 3 (len b) ++ b);
  wire_enc_bool : forall v, enc_bool v = Some (cbor_head 7 (if v then 21 else 20));
  wire_dec_map : forall l n k, dec_map l = Some (Some n, k) <->
    exists w r, wide_ok w n /\ l = wide_head w 5 n ++ r /\ k = length (wide_head w 5 n);
  wire_dec_map_indefinite : forall l k, dec_map l = Some (None, k) ->
    exists r, l = b8 (5 * 32 + 31) :: r;
  wire_dec_array : forall l n k, dec_array l = Some (Some n, k) <->
    exists w r, wide_ok w n /\ l = wide_head w 4 n ++ r /\ k = length (wide_head w 4 n);
  wire_dec_array_indefinite : forall l k, dec_array l = Some (None, k) ->
    exists r, l = b8 (4 * 32 + 31) :: r;
  wire_dec_u8 : forall l n k, dec_u8 l = Some (n, k) <->
    n < 256 /\
    exists w r, wide_ok w n /\ l = wide_head w 0 n ++ r /\ k = length (wide_head w 0 n);
  wire_dec_u64 : forall l n k, dec_u64 l = Some (n, k) <->
    exists w r, wide_ok w n /\ l = wide_head w 0 n ++ r /\ k = length (wide_head w 0 n);
  wire_dec_bytes : forall l b k, dec_bytes l = Some (b, k) <->
    exists w r, wide_ok w (len b) /\ l = wide_head w 2 (len b) ++ b ++ r /\
      k = (length (wide_head w 2 (len b)) + length b)%nat;
  wire_dec_str : forall l b k, dec_str l = Some (b, k) <->
    valid_utf8 b = true /\
    exists w r, wide_ok w (len b) /\ l = wide_head w 3 (len b) ++ b ++ r /\
      k = (length (wide_head w 3 (len b)) + length b)%nat;
  wire_dec_bool : forall l v k, dec_bool l = Some (v, k) <->
    exists r, l = cbor_head 7 (if v then 21 else 20) ++ r /\ k = 1%nat
}.
