(* ===== verification/CratesRef.v ===== *)
(** A concrete instance of the crate interfaces of [Crates.v], used by the witnesses: the
    RFC 8949 encoding with the shortest argument, and a transparent stand-in for Noise
    (no secrecy, messages tagged with the key and the nonce) that satisfies the laws. *)

From Stdlib Require Import Init.Byte.
From S2P Require Import Prelude Crates Wire.

(** ** CBOR items *)

(** Reads an argument: its value and the bytes taken, given the initial byte's low bits. *)
Definition ref_arg (info : Z) (l : bytes) : option (Z * nat) :=
  let wide k := if (k <=? length l)%nat then Some (be_decode (take k l), S k) else None in
  if info <? 24 then Some (info, 1%nat)
  else if info =? 24 then wide 1%nat
  else if info =? 25 then wide 2%nat
  else if info =? 26 then wide 4%nat
  else if info =? 27 then wide 8%nat
  else None.

Definition ref_item (m : Z) (l : bytes) : option (Z * nat) :=
  match l with
  | [] => None
  | b :: l' => if u8 b / 32 =? m then ref_arg (u8 b mod 32) l' else None
  end.

Definition ref_uint (bound : Z) (l : bytes) : option (Z * nat) :=
  match ref_item 0 l with
  | Some (v, k) => if v <? bound then Some (v, k) else None
  | None => None
  end.

Definition ref_sized (m : Z) (l : bytes) : option (option Z * nat) :=
  match ref_item m l with Some (v, k) => Some (Some v, k) | None => None end.

Definition ref_string (m : Z) (l : bytes) : option (bytes * nat) :=
  match ref_item m l with
  | Some (v, k) =>
      let n := Z.to_nat v in
      if (n <=? length (drop k l))%nat then Some (take n (drop k l), (k + n)%nat) else None
  | None => None
  end.

#[export] Instance ref_minicbor : Minicbor := {
  enc_map n := Some (cbor_head 5 n);
  enc_array n := Some (cbor_head 4 n);
  enc_u8 n := Some (cbor_head 0 n);
  enc_u16 n := Some (cbor_head 0 n);
  enc_u64 n := Some (cbor_head 0 n);
  enc_bytes b := Some (cbor_head 2 (len b) ++ b);
  enc_str b := Some (cbor_head 3 (len b) ++ b);
  enc_bool v := Some [b8 (if v then 245 else 244)];
  dec_map := ref_sized 5;
  dec_array := ref_sized 4;
  dec_u8 := ref_uint 256;
  dec_u16 := ref_uint 65536;
  dec_u64 := ref_uint (2 ^ 64);
  dec_bool l := match l with
    | b :: _ => if u8 b =? 244 then Some (false, 1%nat)
                else if u8 b =? 245 then Some (true, 1%nat) else None
    | [] => None
    end;
  dec_bytes := ref_string 2;
  dec_str l :=
    match ref_string 3 l with
    | Some (b, n) => if valid_utf8 b then Some (b, n) else None
    | None => None
    end
}.

Lemma ref_head_len m n : 1 <= len (cbor_head m n) <= 9.
Proof. rewrite ?cbor_head_if. repeat case_match; autorewrite with len; lia. Qed.

Lemma ref_head_len_u8 m n : n < 256 -> len (cbor_head m n) <= 2.
Proof. rewrite ?cbor_head_if. intros. repeat case_match; bool_split; autorewrite with len; lia. Qed.

Lemma ref_head_len_u16 m n : n < 65536 -> len (cbor_head m n) <= 3.
Proof. rewrite ?cbor_head_if. intros. repeat case_match; bool_split; autorewrite with len; lia. Qed.

Lemma ref_arg_wide k n (rest : bytes) :
  0 <= n < 256 ^ Z.of_nat k ->
  (if (k <=? length (be_encode k n ++ rest))%nat
   then Some (be_decode (take k (be_encode k n ++ rest)), S k) else None)
  = Some (n, S k).
Proof.
  intros Hn. destruct (Nat.leb_spec k (length (be_encode k n ++ rest))) as [_|Hl].
  - rewrite take_app_length' by (symmetry; apply length_be_encode). by rewrite be_decode_encode.
  - rewrite length_app, length_be_encode in Hl. lia.
Qed.

Lemma ref_item_head m n rest :
  0 <= m < 8 -> 0 <= n <= U64_MAX ->
  ref_item m (cbor_head m n ++ rest) = Some (n, length (cbor_head m n)).
Proof.
  intros Hm Hn. unfold U64_MAX in Hn.
  assert (Hb : forall i, 0 <= i < 32 ->
    u8 (b8 (m * 32 + i)) / 32 = m /\ u8 (b8 (m * 32 + i)) mod 32 = i).
  { intros i Hi. rewrite u8_b8_small by lia. split.
    - rewrite Z.div_add_l, Z.div_small by lia. lia.
    - rewrite Z.add_comm, Z.mod_add, Z.mod_small by lia. lia. }
  rewrite ?cbor_head_if. repeat case_match; bool_split; cbn [app ref_item];
    (edestruct Hb as [-> ->]; [lia|]); rewrite Z.eqb_refl.
  - unfold ref_arg. destruct (Z.ltb_spec n 24); [done|lia].
  - apply (ref_arg_wide 1). lia.
  - apply (ref_arg_wide 2). lia.
  - apply (ref_arg_wide 4). lia.
  - apply (ref_arg_wide 8). lia.
Qed.

Lemma ref_uint_head bound n rest :
  0 <= n < bound -> bound <= 2 ^ 64 ->
  ref_uint bound (cbor_head 0 n ++ rest) = Some (n, length (cbor_head 0 n)).
Proof.
  intros Hn Hb. unfold ref_uint. rewrite ref_item_head by (unfold U64_MAX; lia).
  by destruct (Z.ltb_spec n bound); [|lia].
Qed.

Lemma ref_sized_head m n rest :
  0 <= m < 8 -> 0 <= n <= U64_MAX ->
  ref_sized m (cbor_head m n ++ rest) = Some (Some n, length (cbor_head m n)).
Proof. intros. unfold ref_sized. by rewrite ref_item_head. Qed.

Lemma ref_string_head m (b rest : bytes) :
  0 <= m < 8 -> len b <= U64_MAX ->
  ref_string m ((cbor_head m (len b) ++ b) ++ rest)
  = Some (b, length (cbor_head m (len b) ++ b)).
Proof.
  intros Hm Hb. unfold ref_string. rewrite <- app_assoc.
  rewrite ref_item_head by (pose proof (len_nonneg b); lia).
  rewrite drop_app_length, to_nat_len.
  destruct (Nat.leb_spec (length b) (length (b ++ rest))) as [_|Hl].
  - rewrite take_app_length. f_equal. f_equal. by rewrite length_app.
  - rewrite length_app in Hl. lia.
Qed.

#[export] Instance ref_minicbor_laws : MinicborLaws.
Proof.
  split; [intros n Hn|intros n Hn|intros n Hn|intros n Hn|intros n Hn|intros n Hn
         |intros n Hu Hn|intros l b n|intros n Hn|intros n Hn];
    try (eexists; split; [reflexivity|]; split).
  1,3: pose proof (ref_head_len 5 n); pose proof (ref_head_len 4 n); lia.
  1,2: intros; apply ref_sized_head; lia.
  - pose proof (ref_head_len 0 n). pose proof (ref_head_len_u8 0 n). lia.
  - intros. apply ref_uint_head; lia.
  - pose proof (ref_head_len 0 n). pose proof (ref_head_len_u16 0 n). lia.
  - intros. apply ref_uint_head; lia.
  - pose proof (ref_head_len 0 n). lia.
  - intros. apply ref_uint_head; unfold U64_MAX in *; lia.
  - rewrite len_app. pose proof (ref_head_len 2 (len n)). pose proof (len_nonneg n). lia.
  - intros. by apply ref_string_head.
  - rewrite len_app. pose proof (ref_head_len 3 (len n)). pose proof (len_nonneg n). lia.
  - intros. cbn [dec_str ref_minicbor]. rewrite ref_string_head by done. by rewrite Hu.
  - cbn. destruct (ref_string 3 l) as [[b' n']|]; [|done].
    destruct (valid_utf8 b') eqn:Hu; [|done]. by intros [= <- _].
  - cbn. rewrite ?cbor_head_if. destruct (Z.ltb_spec n 24); [|lia]. do 3 f_equal.
  - cbn. rewrite ?cbor_head_if. destruct (Z.ltb_spec n 24); [|lia]. do 3 f_equal.
Qed.

(** *** The wire format of the instance *)

Lemma ref_wide_spec k (l : bytes) v j :
  (if (k <=? length l)%nat then Some (be_decode (take k l), S k) else None) = Some (v, j) <->
  exists r, 0 <= v < 256 ^ Z.of_nat k /\ l = be_encode k v ++ r /\ j = S k.
Proof.
  split.
  - destruct (Nat.leb_spec k (length l)) as [Hk|]; [|done]. intros [= <- <-].
    pose proof (be_decode_range (take k l)) as Hr. pose proof (be_encode_decode (take k l)) as He.
    assert (Hl : length (take k l) = k) by (rewrite length_take; lia).
    unfold len in Hr. rewrite Hl in Hr, He. exists (drop k l). split_and!; [lia..| |done].
    by rewrite He, take_drop.
  - intros (r & Hv & -> & ->). by rewrite ref_arg_wide.
Qed.

Lemma ref_arg_spec info l v j :
  0 <= info < 32 ->
  ref_arg info l = Some (v, j) <->
  exists w r, wide_ok w v /\ info_of w v = info /\ l = arg_of w v ++ r /\ j = S (length (arg_of w v)).
Proof.
  intros Hi. unfold ref_arg. cbv zeta. split.
  - destruct (Z.ltb_spec info 24).
    { intros [= <- <-]. exists W0, l. split_and!; done || (cbn; lia). }
    destruct (Z.eqb_spec info 24) as [->|].
    { intros (r & Hv & -> & ->)%ref_wide_spec. exists W1, r. split_and!; cbn; done || lia. }
    destruct (Z.eqb_spec info 25) as [->|].
    { intros (r & Hv & -> & ->)%ref_wide_spec. exists W2, r. split_and!; cbn; done || lia. }
    destruct (Z.eqb_spec info 26) as [->|].
    { intros (r & Hv & -> & ->)%ref_wide_spec. exists W4, r. split_and!; cbn; done || lia. }
    destruct (Z.eqb_spec info 27) as [->|]; [|done].
    intros (r & Hv & -> & ->)%ref_wide_spec. exists W8, r. split_and!; cbn; done || lia.
  - intros (w & r & Hw & <- & -> & ->). destruct w; cbn in Hw |- *.
    + by destruct (Z.ltb_spec v 24); [|lia].
    + apply (ref_wide_spec 1). exists r. split_and!; done || lia.
    + apply (ref_wide_spec 2). exists r. split_and!; done || lia.
    + apply (ref_wide_spec 4). exists r. split_and!; done || lia.
    + apply (ref_wide_spec 8). exists r. split_and!; done || lia.
Qed.

Lemma initial_split b : b = b8 (u8 b / 32 * 32 + u8 b mod 32).
Proof. rewrite <- (b8_u8 b) at 1. f_equal. pose proof (Z.div_mod (u8 b) 32). lia. Qed.

Lemma ref_item_spec m l v j :
  0 <= m < 8 ->
  ref_item m l = Some (v, j) <->
  exists w r, wide_ok w v /\ l = wide_head w m v ++ r /\ j = length (wide_head w m v).
Proof.
  intros Hm. split.
  - destruct l as [|b l]; [done|]. cbn [ref_item]. destruct (Z.eqb_spec (u8 b / 32) m) as [Hb|]; [|done].
    pose proof (Z.mod_pos_bound (u8 b) 32 ltac:(lia)).
    intros (w & r & Hw & Hi & -> & ->)%ref_arg_spec; [|lia]. exists w, r. rewrite wide_head_eq.
    split_and!; [done| |done]. cbn [app]. f_equal. by rewrite (initial_split b), Hb, Hi.
  - intros (w & r & Hw & -> & ->). rewrite wide_head_eq. cbn [app ref_item].
    pose proof (info_range _ _ Hw) as Hi.
    rewrite u8_b8_small by lia. rewrite Z.div_add_l, Z.div_small, Z.add_0_r, Z.eqb_refl by lia.
    rewrite (Z.add_comm (m * 32)), Z.mod_add, Z.mod_small by lia.
    apply ref_arg_spec; [lia|]. by exists w, r.
Qed.

Lemma ref_string_spec m l b k :
  0 <= m < 8 ->
  ref_string m l = Some (b, k) <->
  exists w r, wide_ok w (len b) /\ l = wide_head w m (len b) ++ b ++ r /\
    k = (length (wide_head w m (len b)) + length b)%nat.
Proof.
  intros Hm. unfold ref_string. split.
  - destruct (ref_item m l) as [[v j]|] eqn:Hi; [|done].
    apply ref_item_spec in Hi as (w & r & Hw & -> & ->); [|done]. rewrite drop_app_length.
    destruct (Nat.leb_spec (Z.to_nat v) (length r)) as [Hl|]; [|done]. intros [= <- <-].
    assert (Hv : 0 <= v) by (destruct w; cbn in Hw; lia).
    assert (Hb : len (take (Z.to_nat v) r) = v) by (unfold len; rewrite length_take; lia).
    rewrite Hb. exists w, (drop (Z.to_nat v) r). rewrite take_drop, length_take.
    split_and!; [done|done|lia].
  - intros (w & r & Hw & -> & ->).
    assert (Hi : ref_item m (wide_head w m (len b) ++ b ++ r)
      = Some (len b, length (wide_head w m (len b)))) by (apply ref_item_spec; eauto).
    rewrite Hi, drop_app_length, to_nat_len.
    destruct (Nat.leb_spec (length b) (length (b ++ r))) as [_|Hl].
    + by rewrite take_app_length.
    + rewrite length_app in Hl. lia.
Qed.

#[export] Instance ref_minicbor_wire : MinicborWire.
Proof.
  assert (Hsized : forall m l n k, 0 <= m < 8 -> ref_sized m l = Some (Some n, k) <->
    exists w r, wide_ok w n /\ l = wide_head w m n ++ r /\ k = length (wide_head w m n)).
  { intros m l n k Hm. rewrite <- ref_item_spec by done. unfold ref_sized.
    destruct (ref_item m l) as [[v j]|]; [|done]. split; intros [= <- <-]; done. }
  assert (Hind : forall m l k, ref_sized m l <> Some (None, k))
    by (intros m l k; unfold ref_sized; by destruct (ref_item m l) as [[]|]).
  assert (Huint : forall bound l n k, ref_uint bound l = Some (n, k) <-> n < bound /\
    exists w r, wide_ok w n /\ l = wide_head w 0 n ++ r /\ k = length (wide_head w 0 n)).
  { intros bound l n k. rewrite <- ref_item_spec by lia. unfold ref_uint.
    destruct (ref_item 0 l) as [[v j]|]; [|by split; [|intros [_ ?]]].
    destruct (Z.ltb_spec v bound).
    - split; [intros [= <- <-]; by split|intros [_ [= <- <-]]; done].
    - split; [done|intros [? [= <- <-]]; lia]. }
  split; try done.
  - by intros [].
  - intros l n k. by apply Hsized.
  - intros l k Hx. by apply Hind in Hx.
  - intros l n k. by apply Hsized.
  - intros l k Hx. by apply Hind in Hx.
  - intros l n k. apply Huint.
  - intros l n k. cbn [dec_u64 ref_minicbor]. rewrite Huint. split; [by intros [_ ?]|].
    intros (w & r & Hw & ?). split; [destruct w; cbn in Hw; lia|eauto].
  - intros l b k. by apply ref_string_spec.
  - intros l b k. cbn [dec_str ref_minicbor]. split.
    + destruct (ref_string 3 l) as [[b' k']|] eqn:Hs; [|done].
      destruct (valid_utf8 b') eqn:Hu; [|done]. intros [= <- <-]. split; [done|].
      by apply ref_string_spec in Hs.
    + intros [Hu Hs]. apply ref_string_spec in Hs; [|done]. by rewrite Hs, Hu.
  - intros l v k. cbn [dec_bool ref_minicbor]. split.
    + destruct l as [|b l]; [done|]. destruct (Z.eqb_spec (u8 b) 244) as [Hb|].
      { intros [= <- <-]. exists l. split; [|done]. rewrite <- (b8_u8 b), Hb. done. }
      destruct (Z.eqb_spec (u8 b) 245) as [Hb|]; [|done].
      intros [= <- <-]. exists l. split; [|done]. rewrite <- (b8_u8 b), Hb. done.
    + intros (r & -> & ->). by destruct v.
Qed.

(** ** Noise *)

(** An [n]-byte checksum. *)
Definition ref_digest (n : nat) (l : bytes) : bytes :=
  be_encode n (fold_left (fun a b => (a * 257 + u8 b) mod (2 ^ 61 - 1)) l 7).

#[global] Arguments ref_digest : simpl never.

Record ref_builder := RefBuilder {
  rb_name : bytes; rb_key : bytes; rb_prologue : bytes }.

Record ref_handshake := RefHandshake {
  rh_key : bytes; rh_log : bytes; rh_role : bool }.

Record ref_transport := RefTransport {
  rt_key : bytes; rt_role : bool; rt_sent : Z; rt_received : Z }.

Definition ref_new (name : bytes) : option ref_builder :=
  if bytes_eqb name NK_NAME || bytes_eqb name NNPSK0_NAME
  then Some (RefBuilder name [] []) else None.

Definition ref_set_key (k : bytes) (b : ref_builder) : option ref_builder :=
  if len k =? 32 then Some (RefBuilder (rb_name b) k (rb_prologue b)) else None.

Definition ref_set_prologue (p : bytes) (b : ref_builder) : option ref_builder :=
  Some (RefBuilder (rb_name b) (rb_key b) p).

Definition ref_build (role : bool) (entropy : bytes) (b : ref_builder)
    : option ref_handshake :=
  Some (RefHandshake (rb_key b) (rb_name b ++ rb_key b ++ rb_prologue b) role).

(** Opens a message that ends in the 16-byte [tag]. *)
Definition ref_open (tag m : bytes) : option bytes :=
  let n := (length m - 16)%nat in
  if (16 <=? length m)%nat && bytes_eqb (drop n m) tag then Some (take n m) else None.

Definition ref_hs_log (h : ref_handshake) (m : bytes) : ref_handshake :=
  RefHandshake (rh_key h) (rh_log h ++ m) (rh_role h).

Definition ref_hs_write (h : ref_handshake) (p : bytes) (room : Z)
    : option bytes * ref_handshake :=
  let m := p ++ ref_digest 16 (rh_log h) in
  if len m <=? Z.min room NOISE_MAX then (Some m, ref_hs_log h m) else (None, h).

Definition ref_hs_read (h : ref_handshake) (m : bytes) (room : Z)
    : option bytes * ref_handshake :=
  match ref_open (ref_digest 16 (rh_log h)) m with
  | Some p => if len p <=? room then (Some p, ref_hs_log h m) else (None, h)
  | None => (None, h)
  end.

Definition ref_ts_tag (t : ref_transport) (role : bool) (nonce : Z) : bytes :=
  ref_digest 16 (rt_key t ++ (if role then x01 else x00) :: be_encode 8 nonce).

Definition ref_ts_write (t : ref_transport) (p : bytes) (room : Z)
    : option bytes * ref_transport :=
  let c := p ++ ref_ts_tag t (rt_role t) (rt_sent t) in
  if len c <=? Z.min room NOISE_MAX
  then (Some c, RefTransport (rt_key t) (rt_role t) (rt_sent t + 1) (rt_received t))
  else (None, t).

Definition ref_ts_read (t : ref_transport) (c : bytes) (room : Z)
    : option bytes * ref_transport :=
  match ref_open (ref_ts_tag t (negb (rt_role t)) (rt_received t)) c with
  | Some p =>
      if len p <=? room
      then (Some p, RefTransport (rt_key t) (rt_role t) (rt_sent t) (rt_received t + 1))
      else (None, t)
  | None => (None, t)
  end.

Definition ref_linked (k : Z) (a b : ref_transport) : Prop :=
  0 <= k /\ rt_key a = rt_key b /\ rt_role a = negb (rt_role b) /\
  rt_sent a = rt_received b /\ rt_sent b = rt_received a.

#[export] Instance ref_snow : Snow := {
  Builder := ref_builder;
  HandshakeState := ref_handshake;
  TransportState := ref_transport;
  builder_new := ref_new;
  builder_psk _ := ref_set_key;
  builder_remote_public_key := ref_set_key;
  builder_local_private_key := ref_set_key;
  builder_prologue := ref_set_prologue;
  builder_fixed_ephemeral_key _ b := b;
  build_initiator := ref_build true;
  build_responder := ref_build false;
  hs_write_message := ref_hs_write;
  hs_read_message := ref_hs_read;
  get_handshake_hash h := ref_digest 32 (rh_log h);
  into_transport_mode h :=
    Some (RefTransport (ref_digest 8 (rh_log h)) (rh_role h) 0 0);
  ts_write_message := ref_ts_write;
  ts_read_message := ref_ts_read;
  x25519_public sk := sk;
  linked := ref_linked
}.

Lemma length_ref_digest n l : length (ref_digest n l) = n.
Proof. apply length_be_encode. Qed.

Lemma len_ref_digest n l : len (ref_digest n l) = Z.of_nat n.
Proof. apply len_be_encode. Qed.

Lemma ref_open_tag tag p : length tag = 16%nat -> ref_open tag (p ++ tag) = Some p.
Proof.
  intros Ht. unfold ref_open. rewrite length_app, Ht.
  replace (length p + 16 - 16)%nat with (length p) by lia.
  rewrite drop_app_length, take_app_length, bytes_eqb_refl.
  by destruct (Nat.leb_spec 16 (length p + 16)); [|lia].
Qed.

Lemma ref_handshake_completes i r :
  rh_log i = rh_log r -> rh_role i = negb (rh_role r) ->
  handshake_completes i r.
Proof.
  intros Hlog Hrole p1 p2 H1 H2. unfold NOISE_MAX in *.
  set (m1 := p1 ++ ref_digest 16 (rh_log i)).
  set (m2 := p2 ++ ref_digest 16 (rh_log r ++ m1)).
  exists m1, (ref_hs_log i m1), (ref_hs_log r m1), m2,
    (ref_hs_log (ref_hs_log i m1) m2), (ref_hs_log (ref_hs_log r m1) m2).
  do 2 eexists.
  assert (Hl : forall p l, len (p ++ ref_digest 16 l) = len p + 16).
  { intros. rewrite len_app, len_ref_digest. lia. }
  pose proof (len_nonneg p1). pose proof (len_nonneg p2).
  cbn. unfold ref_hs_write, ref_hs_read, NOISE_MAX. cbn [rh_log ref_hs_log].
  rewrite !Hl, <- Hlog. unfold m1, m2. rewrite !Hl, <- Hlog, !ref_open_tag
    by apply length_ref_digest.
  decide_cmp.
  repeat (split; [first [reflexivity|apply len_ref_digest|lia]|]).
  split; cbn; [unfold NONCES; lia|]. by rewrite Hrole.
Qed.

#[export] Instance ref_snow_laws : SnowLaws.
Proof.
  split.
  - intros k a b (? & ? & Hr & ? & ?). repeat split; try congruence.
    rewrite Hr. by rewrite negb_involutive.
  - intros k [ka ra sa va] [kb rb sb vb] p (Hk & Hkey & Hr & Hs & Hv) Hpos Hp.
    cbn in *. subst. unfold NOISE_MAX in *.
    assert (Hl : forall l, len (p ++ ref_digest 16 l) = len p + 16).
    { intros. rewrite len_app, len_ref_digest. lia. }
    pose proof (len_nonneg p).
    do 3 eexists. unfold ref_ts_write, ref_ts_read, ref_ts_tag, NOISE_MAX. cbn.
    rewrite !Hl. decide_cmp.
    split; [reflexivity|]. split; [done|].
    rewrite ref_open_tag by apply length_ref_digest. decide_cmp.
    split; [reflexivity|]. repeat split; cbn; lia.
  - intros *. cbn. unfold ref_set_key, ref_set_prologue, ref_build.
    intros [= <-]. repeat case_match; try discriminate.
    intros [= <-] [= <-] [= <-] [= <-] [= <-] [= <-]. by apply ref_handshake_completes.
  - intros *. cbn. unfold ref_set_key, ref_set_prologue, ref_build.
    intros [= <-]. repeat case_match; try discriminate.
    intros [= <-] [= <-] [= <-] [= <-]. by apply ref_handshake_completes.
Qed.

(** ** base64 and sha2

    The number of the bytes, shifted left to a multiple of six bits, in base 64. *)
Definition b64_char (d : Z) : byte :=
  if d <? 26 then b8 (65 + d)
  else if d <? 52 then b8 (71 + d)
  else if d <? 62 then b8 (d - 4)
  else if d =? 62 then b8 45 else b8 95.
Definition b64_digit (b : byte) : option Z :=
  if utf8_tail 65 90 b then Some (u8 b - 65)
  else if utf8_tail 97 122 b then Some (u8 b - 71)
  else if utf8_tail 48 57 b then Some (u8 b + 4)
  else if u8 b =? 45 then Some 62
  else if u8 b =? 95 then Some 63 else None.

Fixpoint b64_digits (n : nat) (z : Z) : bytes :=
  match n with
  | O => []
  | S n => b64_digits n (z / 64) ++ [b64_char (z mod 64)]
  end.
Fixpoint b64_number (acc : Z) (l : bytes) : option Z :=
  match l with
  | [] => Some acc
  | b :: l => match b64_digit b with Some d => b64_number (acc * 64 + d) l | None => None end
  end.

Definition ref_b64_encode (b : bytes) : bytes :=
  let k := (8 * len b + 5) / 6 in
  b64_digits (Z.to_nat k) (be_decode b * 2 ^ (6 * k - 8 * len b)).
Definition ref_b64_decode (l : bytes) : option bytes :=
  let n := 6 * len l / 8 in
  let pad := 6 * len l - 8 * n in
  match b64_number 0 l with
  | Some z =>
      if (pad <? 6) && (z mod 2 ^ pad =? 0) then Some (be_encode (Z.to_nat n) (z / 2 ^ pad)) else None
  | None => None
  end.

#[export] Instance ref_base64 : Base64 := { b64_encode := ref_b64_encode; b64_decode := ref_b64_decode }.

Example ref_b64_examples :
  ref_b64_encode (str "Man") = str "TWFu" /\ ref_b64_encode (str "Ma") = str "TWE" /\
  ref_b64_encode (str "M?>") = str "TT8-".
Proof. by vm_compute. Qed.

Lemma b64_digit_char d : 0 <= d < 64 -> b64_digit (b64_char d) = Some d /\ b64_character (b64_char d) = true.
Proof.
  intros Hd. rewrite <- (Z2Nat.id d) by lia. assert (Hn : (Z.to_nat d < 64)%nat) by lia.
  revert Hn. generalize (Z.to_nat d). intros n Hn. do 64 (destruct n as [|n]; [by vm_compute|]). lia.
Qed.

Lemma len_b64_digits n z : len (b64_digits n z) = Z.of_nat n.
Proof.
  revert z. induction n as [|n IH]; intros z; [done|]. cbn [b64_digits].
  rewrite len_app, IH, len_cons, len_nil. lia.
Qed.

Lemma b64_number_app acc l k :
  b64_number acc (l ++ k) = match b64_number acc l with Some a => b64_number a k | None => None end.
Proof.
  revert acc. induction l as [|b l IH]; intros acc; cbn; [done|]. destruct (b64_digit b); auto.
Qed.

Lemma b64_number_digits n z : 0 <= z < 64 ^ Z.of_nat n -> b64_number 0 (b64_digits n z) = Some z.
Proof.
  revert z. induction n as [|n IH]; intros z Hz; [cbn in *; f_equal; lia|].
  rewrite Nat2Z.inj_succ, Z.pow_succ_r in Hz by lia. cbn [b64_digits]. rewrite b64_number_app, IH.
  - cbn. pose proof (Z.mod_pos_bound z 64). rewrite (proj1 (b64_digit_char (z mod 64) ltac:(lia))).
    f_equal. pose proof (Z.div_mod z 64). lia.
  - split; [apply Z.div_pos; lia|apply Z.div_lt_upper_bound; lia].
Qed.

#[export] Instance ref_base64_laws : Base64Laws.
Proof.
  split; intros b; cbn [b64_encode b64_decode ref_base64]; unfold ref_b64_encode;
    set (k := (8 * len b + 5) / 6); pose proof (len_nonneg b) as Hb;
    pose proof (Z.div_mod (8 * len b + 5) 6) as Hk; pose proof (Z.mod_pos_bound (8 * len b + 5) 6) as Hr;
    fold k in Hk; set (r := (8 * len b + 5) mod 6) in *.
  - unfold ref_b64_decode. rewrite len_b64_digits, Z2Nat.id by lia.
    set (pad := 6 * k - 8 * len b).
    assert (Hn : 6 * k / 8 = len b) by (symmetry; apply (Z.div_unique _ _ _ pad); unfold pad; lia).
    rewrite Hn. fold pad. pose proof (be_decode_range b) as Hz.
    assert (0 < 2 ^ pad) by (apply Z.pow_pos_nonneg; unfold pad; lia).
    rewrite b64_number_digits.
    + rewrite Z.mod_mul, Z.div_mul by lia. replace (pad <? 6) with true by (symmetry; apply Z.ltb_lt; unfold pad; lia).
      cbn. by rewrite to_nat_len, be_encode_decode.
    + rewrite Z2Nat.id by lia. change 64 with (2 ^ 6). rewrite <- Z.pow_mul_r by lia.
      replace (6 * k) with (8 * len b + pad) by (unfold pad; lia).
      rewrite Z.pow_add_r, Z.pow_mul_r by (unfold pad; lia). change (2 ^ 8) with 256. nia.
  - rewrite len_b64_digits. lia.
  - generalize (be_decode b * 2 ^ (6 * k - 8 * len b)), (Z.to_nat k). intros z n. clear.
    revert z. induction n as [|n IH]; intros z; [done|]. cbn [b64_digits].
    rewrite forallb_app, IH. cbn. pose proof (Z.mod_pos_bound z 64).
    by rewrite (proj2 (b64_digit_char (z mod 64) ltac:(lia))).
Qed.

#[export] Instance ref_sha2 : Sha2 := { sha256 := ref_digest 32 }.
#[export] Instance ref_sha2_laws : Sha2Laws.
Proof. split. intros b. apply len_ref_digest. Qed.
