(* ===== verification/Cbor.v ===== *)
(** The CBOR decoder and encoder as the code uses them: the wrappers of
    [crypto-core/src/lib.rs] around [minicbor], with the error each side reports, and the
    lemmas that run a decoder over what an encoder wrote. *)

From S2P Require Import Prelude Errors Crates.

(** ** The decoder *)

(** [minicbor::Decoder]: the buffer and the position of the next item. *)
Record Decoder := mkDecoder { d_buf : bytes; d_pos : nat }.

Definition Decoder_new (b : bytes) : Decoder := {| d_buf := b; d_pos := 0 |}.

(** One typed read: [Err e] where the crate reports a decode error. *)
Definition d_item {E A} (e : E) (rd : bytes -> option (A * nat)) : M Decoder E A :=
  fun d =>
    match rd (drop (d_pos d) (d_buf d)) with
    | Some (a, n) => (Ok a, {| d_buf := d_buf d; d_pos := d_pos d + n |})
    | None => (Err e, d)
    end.

(** [position()]. *)
Definition d_position {E} : M Decoder E Z := fun d => (Ok (Z.of_nat (d_pos d)), d).

(** [if cond { return Err(e) }] inside a decoder. *)
Definition d_ensure {E} (b : bool) (e : E) : M Decoder E unit := lift (ensure b e).

(** Runs a decoder over a buffer, as the parsing functions do. *)
Definition decode_with {E A} (m : M Decoder E A) (b : bytes) : result E A :=
  fst (m (Decoder_new b)).

Definition cbor_decode_error : Error := Error_new Malformed.
Definition cbor_encode_error : Error := Error_new InternalError.

Section Wrappers.
Context `{Minicbor}.

Definition d_map : M Decoder Error (option Z) := d_item cbor_decode_error dec_map.
Definition d_u8 : M Decoder Error Z := d_item cbor_decode_error dec_u8.
Definition d_u64 : M Decoder Error Z := d_item cbor_decode_error dec_u64.
Definition d_bytes : M Decoder Error bytes := d_item cbor_decode_error dec_bytes.
End Wrappers.

(** ** The encoder *)

(** A chain [e.map(n)?.u8(k)?...] of encoder calls: the bytes they append, or the error of
    the first that fails. *)
Fixpoint enc_chain {E} (e : E) (items : list (option bytes)) : result E bytes :=
  match items with
  | [] => Ok []
  | None :: _ => Err e
  | Some b :: rest => let? l := enc_chain e rest in Ok (b ++ l)
  end.

(** The chains of [lib.rs], whose encoder maps errors to [InternalError]. *)
Definition enc_seq (items : list (option bytes)) : Res bytes :=
  enc_chain cbor_encode_error items.

(** ** Running a decoder over encoded items *)

(** The decoder [d] stands in [b] with [rest] left to read. *)
Definition at_rest (d : Decoder) (b rest : bytes) : Prop :=
  exists pre, b = pre ++ rest /\ d = {| d_buf := b; d_pos := length pre |}.

Lemma at_rest_new b : at_rest (Decoder_new b) b b.
Proof. by exists []. Qed.

Lemma at_rest_drop d b rest :
  at_rest d b rest -> drop (d_pos d) (d_buf d) = rest.
Proof. intros (pre & -> & ->). cbn. by rewrite drop_app_length. Qed.

Lemma at_rest_pos d b rest :
  at_rest d b rest -> Z.of_nat (d_pos d) = len b - len rest.
Proof. intros (pre & -> & ->). cbn. autorewrite with len. unfold len. lia. Qed.

Lemma d_item_enc {E A B} (e : E) (enc : A -> option bytes)
    (rd : bytes -> option (B * nat)) inj n a x d b rest :
  item_ok enc rd inj n a -> enc a = Some x -> at_rest d b (x ++ rest) ->
  exists d', d_item e rd d = (Ok (inj a), d') /\ at_rest d' b rest.
Proof.
  intros (x' & Hx' & _ & Hrd) Hx Hd. assert (x' = x) as -> by congruence.
  exists {| d_buf := b; d_pos := d_pos d + length x |}. split.
  - unfold d_item. rewrite (at_rest_drop _ _ _ Hd), Hrd.
    destruct Hd as (pre & -> & ->). done.
  - destruct Hd as (pre & -> & ->). exists (pre ++ x).
    rewrite app_assoc, length_app. done.
Qed.

Lemma enc_chain_ok {E} (e : E) items out :
  enc_chain e items = Ok out <->
  exists parts, items = Some <$> parts /\ out = concat parts.
Proof.
  revert out. induction items as [|[b|] items IH]; intros out; cbn [enc_chain].
  - split; [intros [= <-]; by exists []|intros ([|] & ? & ->); done].
  - rewrite res_bind_ok. setoid_rewrite IH. split.
    + intros (a & (parts & -> & ->) & [= <-]). by exists (b :: parts).
    + intros ([|b' parts] & Hi & ->); [done|]. injection Hi as -> ->.
      exists (concat parts). split; [by exists parts|done].
  - split; [done|]. intros ([|] & ? & ?); done.
Qed.

Lemma enc_seq_nil : enc_seq [] = Ok [].
Proof. done. Qed.

Lemma enc_seq_cons x items :
  enc_seq (Some x :: items) = let? l := enc_seq items in Ok (x ++ l).
Proof. done. Qed.

(** A chain of items in range succeeds, and its length is bounded by the items'. *)
Definition within (n : Z) (o : option bytes) : Prop :=
  exists x, o = Some x /\ 1 <= len x <= n.

Lemma item_ok_within {A B} (enc : A -> option bytes) (rd : bytes -> option (B * nat)) inj n a :
  item_ok enc rd inj n a -> within n (enc a).
Proof. intros (x & ? & ? & _). by exists x. Qed.

Lemma enc_chain_within {E} (e : E) items bounds :
  Forall2 within bounds items ->
  exists out, enc_chain e items = Ok out /\ len items <= len out <= foldr Z.add 0 bounds.
Proof.
  induction 1 as [|n o bounds items (x & -> & Hx) _ (out & Hout & Hlen)];
    cbn [enc_chain foldr].
  - exists []. split; [done|]. autorewrite with len. lia.
  - rewrite Hout. exists (x ++ out). autorewrite with len. split; [done|lia].
Qed.

Lemma enc_chain_cons {E} (e : E) o items out :
  enc_chain e (o :: items) = Ok out <->
  exists x l, o = Some x /\ enc_chain e items = Ok l /\ out = x ++ l.
Proof.
  cbn [enc_chain]. destruct o; [rewrite res_bind_ok|]; naive_solver.
Qed.

(** ** Decoders over the parts of an input *)

Lemma decode_with_ok {E A} (m : M Decoder E A) b a :
  decode_with m b = Ok a <-> exists d, m (Decoder_new b) = (Ok a, d).
Proof.
  unfold decode_with. destruct (m (Decoder_new b)) as [r d]. cbn.
  split; [intros ->; eauto|intros [? [= -> _]]; done].
Qed.

(** [m] takes [x] off the front of the input and returns [a]. *)
Definition reads {E A} (m : M Decoder E A) (x : bytes) (a : A) : Prop :=
  forall d b rest, at_rest d b (x ++ rest) ->
  exists d', m d = (Ok a, d') /\ at_rest d' b rest.

(** [m] reads the rest [x] of the buffer [b] and returns [a]. *)
Definition reads_all {E A} (m : M Decoder E A) (b x : bytes) (a : A) : Prop :=
  forall d, at_rest d b x -> exists d', m d = (Ok a, d').

Lemma decode_with_reads {E A} (m : M Decoder E A) b x a :
  b = x -> reads_all m b x a -> decode_with m b = Ok a.
Proof. intros <- Hm. apply decode_with_ok, Hm, at_rest_new. Qed.

Lemma reads_all_bind {E A B} (m : M Decoder E A) (k : A -> M Decoder E B) b x y a c :
  reads m x a -> reads_all (k a) b y c -> reads_all (mbind_M m k) b (x ++ y) c.
Proof.
  intros Hm Hk d Hd. destruct (Hm _ _ _ Hd) as (d' & Hs & Hd').
  rewrite (mbind_M_step _ _ _ _ _ Hs). by apply Hk.
Qed.

Lemma reads_all_lift {E A B} (r : result E A) (k : A -> M Decoder E B) b x a c :
  r = Ok a -> reads_all (k a) b x c -> reads_all (mbind_M (lift r) k) b x c.
Proof. intros -> Hk. exact Hk. Qed.

Lemma reads_all_ensure {E B} p (e : E) (k : unit -> M Decoder E B) b x c :
  p = true -> reads_all (k tt) b x c -> reads_all (mbind_M (d_ensure p e) k) b x c.
Proof. intros -> Hk. exact Hk. Qed.

Lemma reads_all_ret {E A} (a : A) b x : reads_all (@ret Decoder E A a) b x a.
Proof. intros d _. by exists d. Qed.

Lemma reads_item {E A B} (e : E) (enc : A -> option bytes)
    (rd : bytes -> option (B * nat)) inj n a x :
  item_ok enc rd inj n a -> enc a = Some x -> reads (d_item e rd) x (inj a).
Proof. intros Hi Hx d b rest Hd. by eapply d_item_enc. Qed.

Lemma reads_check {E A B} (m : M Decoder E A) x a (f : A -> result E B) b :
  reads m x a -> f a = Ok b -> reads (do v <- m; lift (f v)) x b.
Proof.
  intros Hm Hf d buf rest Hd. destruct (Hm _ _ _ Hd) as (d' & Hs & Hd').
  exists d'. rewrite (mbind_M_step _ _ _ _ _ Hs). unfold lift. by rewrite Hf.
Qed.

#[global] Arguments enc_chain : simpl never.
#[global] Arguments enc_seq : simpl never.

(** The items of an encoder chain, as the hypotheses [enc_i _ = Some x_i]. *)
Ltac chain_items H :=
  lazymatch type of H with
  | enc_chain _ (_ :: _) = Ok _ =>
      let x := fresh "x" in let Hx := fresh "Hx" in
      let l := fresh "l" in let Hl := fresh "Hl" in
      apply enc_chain_cons in H as (x & l & Hx & H & Hl); chain_items H; subst l
  | enc_chain _ [] = Ok _ =>
      let Hl := fresh "Hl" in pose proof (Ok_inj _ _ H) as Hl
  end.
