(* ===== verification/Outer.v ===== *)
(** The u16-big-endian outer envelope ([encode_outer], [one_outer]) and its incremental
    parser ([OuterFrameDecoder]) of [crypto-core/src/lib.rs]. *)

From Stdlib Require Import Init.Byte.
From S2P Require Import Prelude Errors.

Definition OUTER_MAX : Z := 65535.

Definition encode_outer (payload : bytes) : Res bytes :=
  check negb (is_empty payload) else Error_new Malformed in
  check len payload <=? OUTER_MAX else Error_new Oversize in
  Ok (be_encode 2 (len payload) ++ payload).

Definition one_outer (outer : bytes) : Res bytes :=
  check 2 <=? len outer else Error_new Malformed in
  let n := be_decode (take 2 outer) in
  check negb (n =? 0) && (len outer =? n + 2) else Error_new Malformed in
  Ok (drop 2 outer).

(** ** The incremental parser *)

Record OuterFrameDecoder := mkOuter {
  pending : bytes;
  expected : option Z;
  failed : bool
}.

Definition OuterFrameDecoder_new : OuterFrameDecoder :=
  {| pending := []; expected := None; failed := false |}.

Definition set_pending (p : bytes) (d : OuterFrameDecoder) : OuterFrameDecoder :=
  {| pending := p; expected := expected d; failed := failed d |}.
Definition set_expected (e : option Z) (d : OuterFrameDecoder) : OuterFrameDecoder :=
  {| pending := pending d; expected := e; failed := failed d |}.
Definition set_failed (d : OuterFrameDecoder) : OuterFrameDecoder :=
  {| pending := pending d; expected := expected d; failed := true |}.

Definition outer_clear (d : OuterFrameDecoder) : OuterFrameDecoder :=
  {| pending := []; expected := None; failed := failed d |}.

Definition is_incomplete (d : OuterFrameDecoder) : bool :=
  match expected d with Some _ => true | None => negb (is_empty (pending d)) end.

(** One turn of the [loop] of [push]: it breaks, returns an error, or adds a frame. *)
Inductive outer_turn : Type :=
| TurnBreak (d : OuterFrameDecoder)
| TurnReturn (e : Error) (d : OuterFrameDecoder)
| TurnFrame (f : bytes) (d : OuterFrameDecoder).

Definition push_body (n : Z) (d : OuterFrameDecoder) : outer_turn :=
  if len (pending d) <? n then TurnBreak d
  else
    let payload := take (Z.to_nat n) (pending d) in
    let d' := set_pending (drop (Z.to_nat n) (pending d)) d in
    match encode_outer payload with
    | Ok f => TurnFrame f (set_expected None d')
    | Err e => TurnReturn e d'
    end.

Definition push_turn (d : OuterFrameDecoder) : outer_turn :=
  match expected d with
  | Some n => push_body n d
  | None =>
      if len (pending d) <? 2 then TurnBreak d
      else
        let n := be_decode (take 2 (pending d)) in
        let d1 := set_pending (drop 2 (pending d)) d in
        if n =? 0 then TurnReturn (Error_new Malformed) (set_failed (outer_clear d1))
        else push_body n (set_expected (Some n) d1)
  end.

(** The [loop]; a turn that adds a frame takes at least one byte, so fuel above the number
    of pending bytes is never used up ([push_loop_total]). *)
Fixpoint push_loop (fuel : nat) (d : OuterFrameDecoder) (frames : list bytes)
    : option (Res (list bytes) * OuterFrameDecoder) :=
  match fuel with
  | O => None
  | S fuel =>
      match push_turn d with
      | TurnBreak d' => Some (Ok frames, d')
      | TurnReturn e d' => Some (Err e, d')
      | TurnFrame f d' => push_loop fuel d' (frames ++ [f])
      end
  end.

Definition push (input : bytes) (d : OuterFrameDecoder)
    : Res (list bytes) * OuterFrameDecoder :=
  if failed d then (err SequenceViolation, d)
  else
    let d1 := set_pending (pending d ++ input) d in
    match push_loop (S (length (pending d1))) d1 [] with
    | Some r => r
    | None => (err InternalError, d1)
    end.

Definition outer_timeout (d : OuterFrameDecoder) : Res unit * OuterFrameDecoder :=
  if failed d then (err SequenceViolation, d)
  else if is_incomplete d then (err Timeout, set_failed (outer_clear d))
  else (Ok tt, d).

Definition outer_eof (d : OuterFrameDecoder) : Res unit * OuterFrameDecoder :=
  if failed d then (err SequenceViolation, d)
  else if is_incomplete d then (err Malformed, set_failed (outer_clear d))
  else (Ok tt, d).

(** ** Lemmas *)

(** The reachable states: an announced length is one a header can announce. *)
Definition outer_wf (d : OuterFrameDecoder) : Prop :=
  match expected d with Some n => 1 <= n <= OUTER_MAX | None => True end.

(** The bytes taken in and not yet given out. *)
Definition residue (d : OuterFrameDecoder) : bytes :=
  match expected d with
  | Some n => be_encode 2 n ++ pending d
  | None => pending d
  end.

Definition outer_extend (b : bytes) (d : OuterFrameDecoder) : OuterFrameDecoder :=
  set_pending (pending d ++ b) d.

Lemma encode_outer_ok p f :
  encode_outer p = Ok f <->
  1 <= len p <= OUTER_MAX /\ f = be_encode 2 (len p) ++ p.
Proof.
  unfold encode_outer. split.
  - intros H. res_inv H. injection H as <-. bool_split. split; [lia|done].
  - intros [Hl ->]. pose proof (len_nonneg p). unfold ensure.
    destruct (is_empty p) eqn:He; [bool_split; subst; rewrite len_nil in Hl; lia|].
    cbn. decide_cmp. done.
Qed.

Lemma one_outer_ok f p :
  one_outer f = Ok p <-> encode_outer p = Ok f.
Proof.
  rewrite encode_outer_ok. unfold one_outer. split.
  - intros H. res_inv H. injection H as <-. bool_split.
    destruct f as [|a [|b f]]; [done|done|]. cbn [take drop] in *. rewrite ?take_0, ?drop_0 in *.
    assert (Hr := be_decode_range [a; b]).
    change (256 ^ len [a; b]) with 65536 in Hr.
    rewrite !len_cons in *. unfold OUTER_MAX.
    change (a :: b :: f) with ([a; b] ++ f).
    split; [lia|]. f_equal. rewrite <- (be_encode_decode [a; b]). cbn [length].
    f_equal. lia.
  - intros [Hl ->]. unfold OUTER_MAX in Hl. autorewrite with len. unfold ensure.
    rewrite take_app_length', drop_app_length' by by rewrite length_be_encode.
    rewrite be_decode_encode by (change (256 ^ Z.of_nat 2) with 65536; lia).
    change (Z.of_nat 2) with 2. decide_cmp. done.
Qed.

Lemma is_incomplete_residue d : is_incomplete d = false <-> residue d = [].
Proof.
  unfold is_incomplete, residue. destruct (expected d) as [n|].
  - split; [done|]. intros [H _]%app_eq_nil. by apply (f_equal length) in H.
  - destruct (pending d); cbn; done.
Qed.

Lemma push_body_frame n d f d' :
  1 <= n <= OUTER_MAX -> push_body n d = TurnFrame f d' ->
  exists p, encode_outer p = Ok f /\ len p = n /\ pending d = p ++ pending d' /\
    expected d' = None /\ failed d' = failed d.
Proof.
  intros Hn. unfold push_body. case_match eqn:Hlt; [done|]. bool_split.
  destruct (encode_outer _) eqn:He; [|done]. intros [= <- <-]. cbn.
  eexists. split; [exact He|]. split; [|by rewrite take_drop].
  unfold len in *. rewrite length_take. lia.
Qed.

Lemma push_body_total n d e d' :
  1 <= n <= OUTER_MAX -> push_body n d <> TurnReturn e d'.
Proof.
  intros Hn. unfold push_body. case_match eqn:Hlt; [done|]. bool_split.
  destruct (encode_outer _) eqn:He; [done|]. exfalso.
  assert (encode_outer (take (Z.to_nat n) (pending d)) =
    Ok (be_encode 2 (len (take (Z.to_nat n) (pending d))) ++ take (Z.to_nat n) (pending d)))
    as Hok; [|congruence].
  apply encode_outer_ok. split; [|done].
  unfold len in *. rewrite length_take. lia.
Qed.

Lemma header_range a b : 0 <= be_decode [a; b] <= OUTER_MAX.
Proof.
  pose proof (be_decode_range [a; b]) as Hr.
  change (256 ^ len [a; b]) with 65536 in Hr. unfold OUTER_MAX. lia.
Qed.

(** What one turn does, on well-formed states. *)
Inductive turn_spec (d : OuterFrameDecoder) : outer_turn -> Prop :=
| TurnSpecBreak d' :
    residue d' = residue d -> outer_wf d' -> failed d' = failed d ->
    (forall p f rest, encode_outer p = Ok f -> residue d' <> f ++ rest) ->
    turn_spec d (TurnBreak d')
| TurnSpecReturn rest :
    residue d = be_encode 2 0 ++ rest ->
    turn_spec d (TurnReturn (Error_new Malformed)
                   {| pending := []; expected := None; failed := true |})
| TurnSpecFrame p f d' :
    encode_outer p = Ok f -> residue d = f ++ residue d' -> expected d' = None ->
    failed d' = failed d -> (length (pending d') < length (pending d))%nat ->
    turn_spec d (TurnFrame f d').

Lemma body_spec n d d0 :
  1 <= n <= OUTER_MAX -> expected d = Some n -> residue d0 = residue d ->
  failed d0 = failed d -> (length (pending d) <= length (pending d0))%nat ->
  turn_spec d0 (push_body n d).
Proof.
  intros Hn He Hres Hf Hlen. destruct (push_body n d) as [d'|e d'|f d'] eqn:Hb.
  - revert Hb. unfold push_body. case_match eqn:Hlt; [|by case_match].
    intros [= <-]. bool_split.
    apply TurnSpecBreak; [done| |done|].
    + unfold outer_wf. by rewrite He.
    + intros p f rest [Hp ->]%encode_outer_ok. unfold residue. rewrite He, <- app_assoc.
      intros [Hhd Htl]%app_inj_1; [|by rewrite !length_be_encode].
      apply (f_equal be_decode) in Hhd. unfold OUTER_MAX in *.
      rewrite !be_decode_encode in Hhd by (change (256 ^ Z.of_nat 2) with 65536; lia).
      apply (f_equal len) in Htl. autorewrite with len in Htl.
      pose proof (len_nonneg rest). lia.
  - by apply push_body_total in Hb.
  - apply push_body_frame in Hb as (p & Henc & Hp & Hpend & He' & Hf'); [|done].
    apply (TurnSpecFrame _ p); [done| |done|congruence|].
    + rewrite Hres. unfold residue. rewrite He, He', Hpend.
      apply encode_outer_ok in Henc as [_ ->]. by rewrite Hp, app_assoc.
    + rewrite Hpend, length_app in Hlen. unfold len in Hp. lia.
Qed.

Lemma turn_ok d : outer_wf d -> turn_spec d (push_turn d).
Proof.
  intros Hwf. unfold push_turn. destruct (expected d) as [n|] eqn:He.
  - apply body_spec; try done. unfold outer_wf in Hwf. by rewrite He in Hwf.
  - case_match eqn:Hlt; bool_split.
    + apply TurnSpecBreak; try done.
      intros p f rest [Hp ->]%encode_outer_ok. unfold residue. rewrite He.
      intros H%(f_equal len). autorewrite with len in H.
      pose proof (len_nonneg rest). lia.
    + destruct (pending d) as [|a [|b rest]] eqn:Hpend; [done|done|].
      cbn [take drop]. rewrite ?take_0, ?drop_0.
      assert (Hres : residue d = be_encode 2 (be_decode [a; b]) ++ rest).
      { unfold residue. rewrite He, Hpend.
        change 2%nat with (length [a; b]). by rewrite be_encode_decode. }
      case_match eqn:Hz; bool_split.
      * unfold outer_clear, set_failed. cbn. rewrite Hz in Hres. by eapply TurnSpecReturn.
      * pose proof (header_range a b).
        apply body_spec; cbn; [lia|done| |done|rewrite Hpend; cbn; lia].
        rewrite Hres. done.
Qed.

Lemma push_loop_total fuel d frames :
  outer_wf d -> (length (pending d) < fuel)%nat -> is_Some (push_loop fuel d frames).
Proof.
  revert d frames. induction fuel as [|fuel IH]; intros d frames Hwf Hl; [lia|].
  cbn [push_loop]. destruct (turn_ok d Hwf); [done|done|].
  apply IH; [|lia]. unfold outer_wf. by rewrite H1.
Qed.

Lemma push_loop_mono fuel fuel' d frames r :
  push_loop fuel d frames = Some r -> (fuel <= fuel')%nat ->
  push_loop fuel' d frames = Some r.
Proof.
  revert fuel' d frames. induction fuel as [|fuel IH]; intros fuel' d frames; [done|].
  destruct fuel' as [|fuel']; [lia|]. cbn [push_loop].
  case_match; eauto with lia.
Qed.

(** The result of the [loop], with any sufficient fuel. *)
Definition evals (d : OuterFrameDecoder) (frames : list bytes)
    (x : Res (list bytes) * OuterFrameDecoder) : Prop :=
  exists fuel, push_loop fuel d frames = Some x.

Lemma evals_det d frames x y : evals d frames x -> evals d frames y -> x = y.
Proof.
  intros [n Hn] [m Hm].
  apply (push_loop_mono _ (n + m)) in Hn, Hm; [congruence|lia|lia].
Qed.

Lemma evals_turn d frames x :
  evals d frames x <->
  match push_turn d with
  | TurnBreak d' => x = (Ok frames, d')
  | TurnReturn e d' => x = (Err e, d')
  | TurnFrame f d' => evals d' (frames ++ [f]) x
  end.
Proof.
  split.
  - intros [[|n] Hn]; [done|]. cbn [push_loop] in Hn. case_match; [congruence..|by exists n].
  - intros H. destruct (push_turn d) eqn:Ht; subst.
    1,2: exists 1%nat; cbn [push_loop]; by rewrite Ht.
    destruct H as [n Hn]. exists (S n). cbn [push_loop]. by rewrite Ht.
Qed.

(** Induction on the turns of the loop. *)
Lemma evals_ind_turns (P : OuterFrameDecoder -> list bytes ->
    Res (list bytes) * OuterFrameDecoder -> Prop) :
  (forall d fs d', outer_wf d -> push_turn d = TurnBreak d' -> P d fs (Ok fs, d')) ->
  (forall d fs e d', outer_wf d -> push_turn d = TurnReturn e d' -> P d fs (Err e, d')) ->
  (forall d fs f d' x, outer_wf d -> push_turn d = TurnFrame f d' ->
     evals d' (fs ++ [f]) x -> P d' (fs ++ [f]) x -> P d fs x) ->
  forall d fs x, outer_wf d -> evals d fs x -> P d fs x.
Proof.
  intros Hb Hr Hf d fs x Hwf [n Hn]. revert d fs Hwf Hn.
  induction n as [|n IH]; intros d fs Hwf Hn; [done|]. cbn [push_loop] in Hn.
  pose proof (turn_ok d Hwf) as Hok.
  destruct (push_turn d) as [d'|e d'|f d'] eqn:Ht; [simplify_eq; eauto..|].
  apply (Hf _ _ f d'); [done|done|by exists n|]. apply IH; [|done].
  inversion Hok as [| |p ? ? ? ? He]; subst. unfold outer_wf. by rewrite He.
Qed.

Lemma evals_acc d fs x :
  outer_wf d -> evals d fs x ->
  forall gs, evals d (gs ++ fs)
    (match x.1 with Ok hs => Ok (gs ++ hs) | Err e => Err e end, x.2).
Proof.
  revert d fs x. refine (evals_ind_turns _ _ _ _).
  - intros d fs d' _ Ht gs. apply evals_turn. by rewrite Ht.
  - intros d fs e d' _ Ht gs. apply evals_turn. by rewrite Ht.
  - intros d fs f d' x _ Ht _ IH gs. apply evals_turn. rewrite Ht.
    rewrite <- app_assoc. apply IH.
Qed.

Lemma push_evals b d :
  failed d = false -> outer_wf d -> evals (outer_extend b d) [] (push b d).
Proof.
  intros Hf Hwf. unfold push. rewrite Hf.
  fold (outer_extend b d).
  assert (outer_wf (outer_extend b d)) as Hwf' by done.
  edestruct (push_loop_total (S (length (pending (outer_extend b d)))) _ [] Hwf')
    as [x Hx]; [lia|].
  rewrite Hx. eexists. exact Hx.
Qed.

(** More input behind what a turn looked at changes nothing of what it does. *)
Lemma push_body_extend b n d :
  match push_body n d with
  | TurnBreak d' => d' = d
  | TurnReturn e d' => push_body n (outer_extend b d) = TurnReturn e (outer_extend b d')
  | TurnFrame f d' => push_body n (outer_extend b d) = TurnFrame f (outer_extend b d')
  end.
Proof.
  unfold push_body. cbn. destruct (len (pending d) <? n) eqn:Hlt; [done|]. bool_split.
  assert (Hn : (Z.to_nat n <= length (pending d))%nat) by (unfold len in *; lia).
  autorewrite with len. pose proof (len_nonneg b). decide_cmp.
  rewrite (take_app_le _ _ _ Hn), (drop_app_le _ _ _ Hn).
  by destruct (encode_outer _).
Qed.

Lemma push_turn_extend b d :
  outer_wf d ->
  match push_turn d with
  | TurnBreak d' => push_turn (outer_extend b d) = push_turn (outer_extend b d')
  | TurnReturn e d' => push_turn (outer_extend b d) = TurnReturn e d'
  | TurnFrame f d' => push_turn (outer_extend b d) = TurnFrame f (outer_extend b d')
  end.
Proof.
  intros Hwf. unfold push_turn. cbn [expected outer_extend set_pending pending].
  destruct (expected d) as [n|] eqn:He.
  - pose proof (push_body_extend b n d) as Hx.
    destruct (push_body n d) eqn:Hb; subst; cbn; rewrite ?He; [done| |done].
    apply push_body_total in Hb; [done|]. unfold outer_wf in Hwf. by rewrite He in Hwf.
  - destruct (len (pending d) <? 2) eqn:Hlt; bool_split; [cbn; by rewrite He|].
    destruct (pending d) as [|x [|y rest]] eqn:Hp; [done|done|].
    cbn [app take drop]. rewrite ?take_0, ?drop_0. autorewrite with len.
    pose proof (len_nonneg (rest ++ b)). autorewrite with len in *. decide_cmp.
    destruct (be_decode [x; y] =? 0) eqn:Hz; [done|]. bool_split.
    set (d1 := set_expected _ _).
    pose proof (push_body_extend b (be_decode [x; y]) d1) as Hx.
    destruct (push_body _ d1) eqn:Hb; subst; cbn; [done| |done].
    pose proof (header_range x y). apply push_body_total in Hb; [done|lia].
Qed.

Lemma evals_extend b d fs x :
  outer_wf d -> evals d fs x ->
  match x with
  | (Ok gs, d') => forall y, evals (outer_extend b d') gs y -> evals (outer_extend b d) fs y
  | (Err e, d') => evals (outer_extend b d) fs (Err e, d')
  end.
Proof.
  revert d fs x. refine (evals_ind_turns _ _ _ _).
  - intros d fs d' Hwf Ht y. pose proof (push_turn_extend b d Hwf) as Hx.
    rewrite Ht in Hx. by rewrite !evals_turn, Hx.
  - intros d fs e d' Hwf Ht. pose proof (push_turn_extend b d Hwf) as Hx.
    rewrite Ht in Hx. by rewrite evals_turn, Hx.
  - intros d fs f d' [[gs|e] d1] Hwf Ht _ IH;
      pose proof (push_turn_extend b d Hwf) as Hx; rewrite Ht in Hx;
      [intros y Hy|]; rewrite evals_turn, Hx; auto.
Qed.


(** What the [loop] did to the stream: the frames it added are envelopes taken off the
    front, and it ended at an incomplete envelope or at an empty one. *)
Definition outer_frame (f : bytes) : Prop := exists p, encode_outer p = Ok f.

Definition outer_incomplete (l : bytes) : Prop :=
  forall f rest, outer_frame f -> l <> f ++ rest.

Lemma evals_stream d fs x :
  outer_wf d -> evals d fs x ->
  exists new rest, Forall outer_frame new /\ residue d = concat new ++ rest /\
    match x with
    | (Ok gs, d') => gs = fs ++ new /\ rest = residue d' /\ outer_wf d' /\
        failed d' = failed d /\ outer_incomplete (residue d')
    | (Err e, d') => e = Error_new Malformed /\
        d' = {| pending := []; expected := None; failed := true |} /\
        exists tail, rest = be_encode 2 0 ++ tail
    end.
Proof.
  revert d fs x. refine (evals_ind_turns _ _ _ _).
  - intros d fs d' Hwf Ht. pose proof (turn_ok d Hwf) as Hok. rewrite Ht in Hok.
    inversion Hok as [? Hres Hwf' Hf Hinc| |]; subst.
    exists [], (residue d). split; [done|]. split; [done|].
    rewrite app_nil_r. repeat split; try done.
    intros f rest [p Hp]. by eapply Hinc.
  - intros d fs e d' Hwf Ht. pose proof (turn_ok d Hwf) as Hok. rewrite Ht in Hok.
    inversion Hok as [|rest Hres|]; subst.
    exists [], (residue d). split; [done|]. split; [done|].
    repeat split; try done. by exists rest.
  - intros d fs f d' x Hwf Ht _ (new & rest & Hnew & Hres & Hx).
    pose proof (turn_ok d Hwf) as Hok. rewrite Ht in Hok.
    inversion Hok as [| |p ? ? Hp Hd He Hf]; subst.
    exists (f :: new), rest. split; [constructor; [by exists p|done]|].
    split; [by rewrite Hd, Hres; cbn; rewrite app_assoc|].
    destruct x as [[gs|e] d1]; [|done]. rewrite <- app_assoc in Hx.
    destruct Hx as (-> & -> & ? & Hf1 & ?). rewrite Hf1, Hf. done.
Qed.

Lemma residue_extend b d : residue (outer_extend b d) = residue d ++ b.
Proof. unfold residue. cbn. case_match; by rewrite <- ?app_assoc. Qed.

Lemma push_failed b d : failed d = true -> push b d = (err SequenceViolation, d).
Proof. unfold push. by intros ->. Qed.

Lemma push_stream b d r d' :
  outer_wf d -> failed d = false -> push b d = (r, d') ->
  exists new rest, Forall outer_frame new /\ residue d ++ b = concat new ++ rest /\
    match r with
    | Ok gs => gs = new /\ rest = residue d' /\ outer_wf d' /\
        failed d' = false /\ outer_incomplete (residue d')
    | Err e => e = Error_new Malformed /\
        d' = {| pending := []; expected := None; failed := true |} /\
        exists tail, rest = be_encode 2 0 ++ tail
    end.
Proof.
  intros Hwf Hf Hp. pose proof (push_evals b d Hf Hwf) as He. rewrite Hp in He.
  apply evals_stream in He; [|done]. rewrite residue_extend in He.
  destruct He as (new & rest & Hnew & Hres & Hr). exists new, rest.
  split; [done|]. split; [done|]. destruct r; [|done].
  destruct Hr as (-> & -> & ? & Hf1 & ?). rewrite Hf1. done.
Qed.

Lemma outer_wf_new : outer_wf OuterFrameDecoder_new.
Proof. done. Qed.

Lemma push_wf b d r d' : outer_wf d -> push b d = (r, d') -> outer_wf d'.
Proof.
  intros Hwf Hp. destruct (failed d) eqn:Hf.
  - rewrite push_failed in Hp by done. by simplify_eq.
  - apply push_stream in Hp as (? & ? & _ & _ & Hr); [|done..].
    destruct r; [naive_solver|]. by destruct Hr as (_ & -> & _).
Qed.

Lemma push_single p f : encode_outer p = Ok f ->
  push f OuterFrameDecoder_new = (Ok [f], OuterFrameDecoder_new).
Proof.
  intros Hp. pose proof (push_evals f OuterFrameDecoder_new eq_refl outer_wf_new) as He.
  eapply evals_det; [exact He|]. apply encode_outer_ok in Hp as Hlen.
  destruct Hlen as [Hlen Hf]. apply evals_turn. clear He. subst f.
  assert (Hb : be_decode (be_encode 2 (len p)) = len p).
  { apply be_decode_encode. change (256 ^ Z.of_nat 2) with 65536. unfold OUTER_MAX in *. lia. }
  unfold push_turn, outer_extend. cbn [OuterFrameDecoder_new set_pending expected pending app].
  autorewrite with len. decide_cmp.
  rewrite take_app_length', drop_app_length' by by rewrite length_be_encode.
  rewrite Hb. decide_cmp. unfold push_body. cbn. decide_cmp.
  rewrite to_nat_len, firstn_all, Hp. apply evals_turn.
  by rewrite skipn_all.
Qed.

(** ** Properties *)

(** Chunking does not matter.  Giving the parser [a ++ b] at once is giving it [a]
    and then [b]: the same frames in the same order, the same error, the same state. *)
Theorem push_app (a b : bytes) (d : OuterFrameDecoder) (Hwf : outer_wf d) :
  push (a ++ b) d =
  match push a d with
  | (Ok fs, d1) =>
      match push b d1 with
      | (Ok gs, d2) => (Ok (fs ++ gs), d2)
      | (Err e, d2) => (Err e, d2)
      end
  | (Err e, d1) => (Err e, d1)
  end.
Proof.
  destruct (failed d) eqn:Hf; [by rewrite !push_failed|].
  pose proof (push_evals (a ++ b) d Hf Hwf) as Hab.
  pose proof (push_evals a d Hf Hwf) as Ha.
  replace (outer_extend (a ++ b) d) with (outer_extend b (outer_extend a d)) in Hab
    by (unfold outer_extend, set_pending; cbn; by rewrite app_assoc).
  eapply evals_det; [exact Hab|].
  destruct (push a d) as [[fs|e] d1] eqn:Hpa; apply (evals_extend b) in Ha; try done.
  apply Ha. apply push_stream in Hpa as (new & ? & _ & _ & -> & _ & Hwf1 & Hf1 & _);
    [|done..].
  pose proof (push_evals b d1 Hf1 Hwf1) as Hb.
  apply (evals_acc (outer_extend b d1) [] _ Hwf1) with (gs := new) in Hb.
  rewrite app_nil_r in Hb. by destruct (push b d1) as [[gs|e] d2].
Qed.

Lemma push_app_witness :
  push ([x00; x02; x61] ++ [x62; x00]) OuterFrameDecoder_new
  = (Ok [[x00; x02; x61; x62]], set_pending [x00] OuterFrameDecoder_new).
Proof.
  rewrite (push_app [x00; x02; x61] [x62; x00] OuterFrameDecoder_new I).
  vm_compute. reflexivity.
Defined.

(** Nothing is lost, added or reordered.  When [push] succeeds, the bytes held before
    and the new input are exactly the frames returned, in order, followed by the bytes
    held after; every frame is an envelope of a payload, and what is held back is the
    start of an incomplete envelope, so no frame is returned late. *)
Theorem push_faithful (b : bytes) (d d' : OuterFrameDecoder) (fs : list bytes)
    (Hwf : outer_wf d) (Hp : push b d = (Ok fs, d')) :
  residue d ++ b = concat fs ++ residue d' /\
  Forall (fun f => exists p, one_outer f = Ok p) fs /\
  (forall f rest, outer_frame f -> residue d' <> f ++ rest) /\
  outer_wf d' /\ failed d' = false.
Proof.
  destruct (failed d) eqn:Hf; [by rewrite push_failed in Hp|].
  apply push_stream in Hp as (new & rest & Hnew & Hres & -> & -> & Hwf' & Hf' & Hinc);
    [|done..].
  split; [done|]. split; [|done].
  eapply Forall_impl; [exact Hnew|]. intros f [p Hp]. exists p. by apply one_outer_ok.
Qed.

Lemma push_faithful_witness :
  residue OuterFrameDecoder_new ++ [x00; x01; x61; x00] =
  concat [[x00; x01; x61]] ++ residue (set_pending [x00] OuterFrameDecoder_new).
Proof.
  apply (push_faithful [x00; x01; x61; x00] OuterFrameDecoder_new
    (set_pending [x00] OuterFrameDecoder_new) [[x00; x01; x61]] I).
  vm_compute. reflexivity.
Defined.

(** The parser fails only on an empty envelope, and fails closed.  An error of [push]
    is either the refusal of a parser that already failed, or [Malformed] for a zero
    length announced at an envelope boundary of the stream; the parser then holds no
    byte, is failed, and refuses everything that follows. *)
Theorem push_error (b : bytes) (d d' : OuterFrameDecoder) (e : Error)
    (Hwf : outer_wf d) (Hp : push b d = (Err e, d')) :
  failed d' = true /\
  (forall c, push c d' = (err SequenceViolation, d')) /\
  outer_timeout d' = (err SequenceViolation, d') /\
  outer_eof d' = (err SequenceViolation, d') /\
  (failed d = false ->
     reason e = Malformed /\ residue d' = [] /\
     exists fs rest, Forall outer_frame fs /\
       residue d ++ b = concat fs ++ be_encode 2 0 ++ rest).
Proof.
  assert (Hf' : failed d' = true).
  { destruct (failed d) eqn:Hf; [rewrite push_failed in Hp by done; by simplify_eq|].
    by apply push_stream in Hp as (? & ? & _ & _ & _ & -> & _). }
  split; [done|]. split; [intros c; by apply push_failed|].
  unfold outer_timeout, outer_eof. rewrite Hf'. split; [done|]. split; [done|].
  intros Hf. apply push_stream in Hp as (new & rest & Hnew & Hres & -> & -> & tail & ->);
    [|done..].
  split; [done|]. split; [done|]. by exists new, tail.
Qed.

Lemma push_error_witness :
  failed (push [x00; x01; x61; x00; x00] OuterFrameDecoder_new).2 = true.
Proof.
  apply (push_error [x00; x01; x61; x00; x00] OuterFrameDecoder_new _ (Error_new Malformed) I).
  vm_compute. reflexivity.
Defined.

(** Round trip.  The envelopes of any payloads, concatenated, come back one by one,
    and the parser is left empty. *)
Theorem push_roundtrip (ps fs : list bytes)
    (Henc : Forall2 (fun p f => encode_outer p = Ok f) ps fs) :
  push (concat fs) OuterFrameDecoder_new = (Ok fs, OuterFrameDecoder_new) /\
  Forall2 (fun p f => one_outer f = Ok p) ps fs.
Proof.
  split.
  - induction Henc as [|p f ps fs Hp _ IH]; [done|]. cbn [concat].
    rewrite push_app, (push_single p f Hp), IH by done. done.
  - eapply Forall2_impl; [exact Henc|]. intros p f Hp. by apply one_outer_ok.
Qed.

Lemma push_roundtrip_witness :
  push (concat [[x00; x01; x61]; [x00; x02; x62; x63]]) OuterFrameDecoder_new =
  (Ok [[x00; x01; x61]; [x00; x02; x62; x63]], OuterFrameDecoder_new).
Proof.
  apply (push_roundtrip [[x61]; [x62; x63]]).
  repeat constructor; vm_compute; reflexivity.
Defined.
