(* ===== verification/Records.v ===== *)
(** The 12-byte-header records of the transport ([Record], [complete_record],
    [validate_complete_record], [fragment_records] of [crypto-core/src/lib.rs]). *)

From Stdlib Require Import Init.Byte.
From S2P Require Import Prelude Errors.

Definition RECORD_HEADER_LEN : Z := 12.
Definition RECORD_DATA_MAX : Z := 65507.
Definition RECORD_LIMIT : Z := 2 ^ 32.
Definition BYTE_LIMIT : Z := 2 ^ 40.
Definition U32_MAX : Z := 2 ^ 32 - 1.

Inductive RecordKind : Set := Application | Finished | Heartbeat | Close.

#[export] Instance RecordKind_eq_dec : EqDecision RecordKind.
Proof. solve_decision. Defined.

Definition RecordKind_wire (k : RecordKind) : Z :=
  match k with Application => 1 | Finished => 2 | Heartbeat => 3 | Close => 4 end.

Definition RecordKind_from_wire (v : Z) : Res RecordKind :=
  match v with
  | 1 => Ok Application
  | 2 => Ok Finished
  | 3 => Ok Heartbeat
  | 4 => Ok Close
  | _ => err Malformed
  end.

(** [total_len] and [offset] are [u32]s. *)
Record WireRecord := mkRecord {
  kind : RecordKind;
  start : bool;
  end_ : bool;
  total_len : Z;
  offset : Z;
  data : bytes
}.

Definition record_wf (r : WireRecord) : Prop :=
  0 <= total_len r <= U32_MAX /\ 0 <= offset r <= U32_MAX.

Definition Record_encode (r : WireRecord) : Res bytes :=
  check len (data r) <=? RECORD_DATA_MAX else Error_new Oversize in
  let flags := Z.lor (Z.b2z (start r)) (Z.shiftl (Z.b2z (end_ r)) 1) in
  Ok ([b8 (RecordKind_wire (kind r))] ++ [b8 flags] ++ be_encode 2 0
        ++ be_encode 4 (total_len r) ++ be_encode 4 (offset r) ++ data r).

(** [bytes[i]] and [bytes[i..j]], below the length. *)
Definition byte_at (i : nat) (l : bytes) : Z := u8 (nth i l x00).
Definition slice (i j : nat) (l : bytes) : bytes := take (j - i) (drop i l).

Definition Record_decode (l : bytes) : Res WireRecord :=
  check RECORD_HEADER_LEN <=? len l else Error_new Malformed in
  check len l - RECORD_HEADER_LEN <=? RECORD_DATA_MAX else Error_new Oversize in
  let flags := byte_at 1 l in
  check negb (negb (Z.land flags 252 =? 0) || negb (byte_at 2 l =? 0)
              || negb (byte_at 3 l =? 0)) else Error_new SequenceViolation in
  let? k := RecordKind_from_wire (byte_at 0 l) in
  Ok {| kind := k;
        start := negb (Z.land flags 1 =? 0);
        end_ := negb (Z.land flags 2 =? 0);
        total_len := be_decode (slice 4 8 l);
        offset := be_decode (slice 8 12 l);
        data := drop 12 l |}.

(** [u32::try_from(payload.len())]. *)
Definition complete_record (k : RecordKind) (payload : bytes) : Res WireRecord :=
  check len payload <=? U32_MAX else Error_new Oversize in
  Ok {| kind := k; start := true; end_ := true; total_len := len payload;
        offset := 0; data := payload |}.

Definition validate_complete_record (r : WireRecord) (k : RecordKind) : Res unit :=
  check bool_decide (kind r = k) && start r && end_ r && (offset r =? 0)
    else Error_new SequenceViolation in
  check total_len r =? len (data r) else Error_new Malformed in
  Ok tt.

(** ** Fragmentation *)

(** [slice::chunks(n)]. *)
Fixpoint chunks_fuel (fuel n : nat) (l : bytes) : list bytes :=
  match fuel, l with
  | _, [] => []
  | O, _ => []
  | S fuel, _ => take n l :: chunks_fuel fuel n (drop n l)
  end.
Definition chunks (n : nat) (l : bytes) : list bytes := chunks_fuel (length l) n l.

(** [iter.map(f).collect::<Result<Vec<_>, _>>()]. *)
Fixpoint res_traverse {E A B} (f : A -> result E B) (l : list A) : result E (list B) :=
  match l with
  | [] => Ok []
  | a :: l => let? b := f a in let? bs := res_traverse f l in Ok (b :: bs)
  end.

(** [iter.enumerate()], from index [i]. *)
Fixpoint enumerate_from {A} (i : Z) (l : list A) : list (Z * A) :=
  match l with [] => [] | a :: l => (i, a) :: enumerate_from (i + 1) l end.
Definition enumerate {A} (l : list A) : list (Z * A) := enumerate_from 0 l.

(** The record of one chunk; the multiplication is checked in 64 bits. *)
Definition fragment (k : RecordKind) (payload : bytes) (ic : Z * bytes) : Res WireRecord :=
  let '(index, chunk) := ic in
  check index * RECORD_DATA_MAX <=? U64_MAX else Error_new Oversize in
  let off := index * RECORD_DATA_MAX in
  Ok {| kind := k;
        start := index =? 0;
        end_ := off + len chunk =? len payload;
        total_len := if index =? 0 then len payload mod 2 ^ 32 else 0;
        offset := off mod 2 ^ 32;
        data := chunk |}.

Definition fragment_records (k : RecordKind) (payload : bytes) : Res (list bytes) :=
  check negb (is_empty payload) && (len payload <=? U32_MAX) else Error_new Oversize in
  res_traverse (fun ic => let? r := fragment k payload ic in Record_encode r)
    (enumerate (chunks (Z.to_nat RECORD_DATA_MAX) payload)).

(** ** Lemmas *)

Lemma RecordKind_from_wire_roundtrip k : RecordKind_from_wire (RecordKind_wire k) = Ok k.
Proof. by destruct k. Qed.

Lemma RecordKind_from_wire_ok v k : RecordKind_from_wire v = Ok k -> v = RecordKind_wire k.
Proof.
  unfold RecordKind_from_wire.
  destruct v as [|[[]|[[]|[]|]|]|]; by intros [= <-].
Qed.

Lemma RecordKind_wire_range k : 1 <= RecordKind_wire k <= 4.
Proof. destruct k; cbn; lia. Qed.

#[export] Hint Resolve RecordKind_wire_range : model.

Lemma Record_encode_len r l : Record_encode r = Ok l -> len l = 12 + len (data r).
Proof.
  unfold Record_encode. intros H. res_inv H. injection H as <-.
  autorewrite with len. change (Z.of_nat 2) with 2. change (Z.of_nat 4) with 4. lia.
Qed.

Lemma Record_encode_ok r :
  len (data r) <= RECORD_DATA_MAX -> exists l, Record_encode r = Ok l.
Proof. intros H. unfold Record_encode, ensure. decide_cmp. cbn. eauto. Qed.

(** A 12-byte header, byte by byte. *)
Lemma header_cons (l : bytes) :
  12 <= len l -> exists k f a b t o rest,
    l = [k] ++ [f] ++ [a; b] ++ t ++ o ++ rest /\ length t = 4%nat /\ length o = 4%nat.
Proof.
  intros Hl. do 12 (destruct l as [|? l]; [unfold len in Hl; cbn in Hl; lia|]).
  do 4 eexists. exists [b3; b4; b5; b6], [b7; b8; b9; b10], l. done.
Qed.

Lemma header_at (k f a b : byte) (t o rest : bytes) :
  length t = 4%nat -> length o = 4%nat ->
  let l := [k] ++ [f] ++ [a; b] ++ t ++ o ++ rest in
  byte_at 0 l = u8 k /\ byte_at 1 l = u8 f /\ byte_at 2 l = u8 a /\ byte_at 3 l = u8 b /\
  slice 4 8 l = t /\ slice 8 12 l = o /\ drop 12 l = rest /\ len l = 12 + len rest.
Proof.
  intros Ht Ho. destruct t as [|t0 [|t1 [|t2 [|t3 []]]]]; try done.
  destruct o as [|o0 [|o1 [|o2 [|o3 []]]]]; try done.
  cbn. autorewrite with len. repeat split. lia.
Qed.

(** The flag byte: two bits, and the six others zero. *)
Lemma flags_encode s e :
  let f := u8 (b8 (Z.lor (Z.b2z s) (Z.shiftl (Z.b2z e) 1))) in
  Z.land f 252 = 0 /\ negb (Z.land f 1 =? 0) = s /\ negb (Z.land f 2 =? 0) = e.
Proof. by destruct s, e. Qed.

Lemma flags_decode f :
  0 <= f < 256 -> Z.land f 252 = 0 ->
  Z.lor (Z.b2z (negb (Z.land f 1 =? 0))) (Z.shiftl (Z.b2z (negb (Z.land f 2 =? 0))) 1) = f.
Proof.
  intros Hf H. assert (Hsmall : f < 4).
  { destruct (Z.lt_ge_cases f 4) as [|Hge]; [done|exfalso].
    assert (Hlog : 2 <= Z.log2 f < 8).
    { split; [apply (Z.log2_le_mono 4) in Hge; cbn in Hge; lia|].
      apply Z.log2_lt_pow2; lia. }
    assert (Hb : Z.testbit (Z.land f 252) (Z.log2 f) = true).
    { rewrite Z.land_spec, Z.bit_log2 by lia.
      assert (Z.log2 f = 2 \/ Z.log2 f = 3 \/ Z.log2 f = 4 \/ Z.log2 f = 5 \/
              Z.log2 f = 6 \/ Z.log2 f = 7) as Hc by lia.
      by destruct Hc as [->|[->|[->|[->|[->| ->]]]]]. }
    by rewrite H, Z.bits_0 in Hb. }
  assert (f = 0 \/ f = 1 \/ f = 2 \/ f = 3) as Hc by lia.
  by destruct Hc as [->|[->|[->| ->]]].
Qed.

Lemma u32_be n : 0 <= n <= U32_MAX -> be_decode (be_encode 4 n) = n.
Proof.
  intros H. apply be_decode_encode. change (256 ^ Z.of_nat 4) with (2 ^ 32).
  unfold U32_MAX in H. lia.
Qed.

Lemma Record_decode_header (k f a b : byte) (t o rest : bytes) :
  length t = 4%nat -> length o = 4%nat -> len rest <= RECORD_DATA_MAX ->
  Record_decode ([k] ++ [f] ++ [a; b] ++ t ++ o ++ rest) =
  (check negb (negb (Z.land (u8 f) 252 =? 0) || negb (u8 a =? 0) || negb (u8 b =? 0))
     else Error_new SequenceViolation in
   let? k := RecordKind_from_wire (u8 k) in
   Ok {| kind := k; start := negb (Z.land (u8 f) 1 =? 0);
         end_ := negb (Z.land (u8 f) 2 =? 0);
         total_len := be_decode t; offset := be_decode o; data := rest |}).
Proof.
  intros Ht Ho Hr. pose proof (header_at k f a b t o rest Ht Ho) as Hat. cbn zeta in Hat.
  set (l := [k] ++ _) in *. clearbody l.
  destruct Hat as (H0 & H1 & H2 & H3 & H4 & H8 & Hd & Hl).
  pose proof (len_nonneg rest). unfold Record_decode, RECORD_HEADER_LEN.
  rewrite H0, H1, H2, H3, H4, H8, Hd, Hl. decide_cmp. done.
Qed.

Lemma record_decode_encode r l :
  record_wf r -> Record_encode r = Ok l -> Record_decode l = Ok r.
Proof.
  intros [Ht Ho] H. unfold Record_encode in H. res_inv H. apply Ok_inj in H as <-. bool_split.
  destruct (flags_encode (start r) (end_ r)) as (H252 & H1 & H2).
  change (be_encode 2 0) with [x00; x00]. change (u8 x00) with 0.
  rewrite Record_decode_header by (done || apply length_be_encode).
  rewrite H252, H1, H2, !u32_be by done. cbn.
  rewrite u8_b8_small by (pose proof (RecordKind_wire_range (kind r)); lia).
  rewrite RecordKind_from_wire_roundtrip. by destruct r.
Qed.

Lemma record_encode_decode l r :
  Record_decode l = Ok r -> Record_encode r = Ok l /\ record_wf r.
Proof.
  intros H. assert (Hl : 12 <= len l /\ len l - 12 <= RECORD_DATA_MAX).
  { unfold Record_decode in H. res_inv H. bool_split. unfold RECORD_HEADER_LEN in *. lia. }
  destruct Hl as [Hl Hmax].
  destruct (header_cons l Hl) as (k & f & a & b & t & o & rest & -> & Ht & Ho).
  autorewrite with len in Hmax. unfold len in Hmax at 1 2. rewrite Ht, Ho in Hmax.
  rewrite Record_decode_header in H by (done || lia). res_inv H. injection H as <-.
  bool_split. apply RecordKind_from_wire_ok in Hr.
  assert (Hab : a = x00 /\ b = x00) by (split; apply u8_inj; done). destruct Hab as [-> ->].
  assert (Hrange : forall x : bytes, length x = 4%nat -> 0 <= be_decode x <= U32_MAX).
  { intros x Hx. pose proof (be_decode_range x) as Hb. unfold len in Hb. rewrite Hx in Hb.
    change (256 ^ Z.of_nat 4) with (2 ^ 32) in Hb. unfold U32_MAX. lia. }
  split; [|split; cbn; auto].
  unfold Record_encode, ensure. cbn. decide_cmp. cbn.
  rewrite <- Hr, flags_decode by (done || apply u8_range). rewrite !b8_u8.
  rewrite <- Ht at 1. rewrite be_encode_decode. rewrite <- Ho at 1.
  rewrite be_encode_decode. done.
Qed.

(** The record codec is a bijection between well-formed records and the byte strings
    it accepts: decoding gives back the record that was encoded, and re-encoding a decoded
    record gives back the very bytes, so no two byte strings decode to one record. *)
Theorem record_codec_bijective (r : WireRecord) (l : bytes) (Hwf : record_wf r) :
  Record_encode r = Ok l <-> Record_decode l = Ok r.
Proof.
  split; [by apply record_decode_encode|]. intros H. by apply record_encode_decode.
Qed.

Lemma record_codec_bijective_witness :
  Record_decode [x01; x03; x00; x00; x00; x00; x00; x01; x00; x00; x00; x00; x2a]
  = Ok {| kind := Application; start := true; end_ := true; total_len := 1;
          offset := 0; data := [x2a] |}.
Proof.
  apply (record_codec_bijective
    {| kind := Application; start := true; end_ := true; total_len := 1;
       offset := 0; data := [x2a] |}).
  - split; cbn; unfold U32_MAX; lia.
  - vm_compute. reflexivity.
Defined.

(** ** Fragments *)

Lemma chunks_fuel_concat fuel n l :
  (length l <= fuel)%nat -> (0 < n)%nat -> concat (chunks_fuel fuel n l) = l.
Proof.
  revert l. induction fuel as [|fuel IH]; intros l Hf Hn.
  - destruct l; [done|cbn in Hf; lia].
  - destruct l as [|x l]; [done|]. cbn [chunks_fuel concat].
    rewrite IH; [apply take_drop|rewrite length_drop; cbn in *; lia|done].
Qed.

(** Every chunk but the last is full, and none is empty. *)
Fixpoint chunked (n : Z) (cs : list bytes) : Prop :=
  match cs with
  | [] => True
  | [c] => 1 <= len c <= n
  | c :: cs => len c = n /\ chunked n cs
  end.

Lemma chunks_fuel_chunked fuel n l :
  (0 < n)%nat -> chunked (Z.of_nat n) (chunks_fuel fuel n l).
Proof.
  revert l. induction fuel as [|fuel IH]; intros l Hn; [by destruct l|].
  destruct l as [|x l]; [done|]. cbn [chunks_fuel chunked].
  specialize (IH (drop n (x :: l)) Hn).
  assert (Hl : len (take n (x :: l)) = Z.min (Z.of_nat n) (len (x :: l))).
  { unfold len. rewrite length_take. lia. }
  pose proof (len_nonneg l). rewrite len_cons in Hl.
  destruct (chunks_fuel fuel n (drop n (x :: l))) as [|c cs] eqn:Hc; [lia|].
  split; [|done]. destruct (decide (n < length (x :: l))%nat) as [|Hge].
  - unfold len. rewrite length_take. lia.
  - rewrite drop_ge in Hc by lia. by destruct fuel.
Qed.

Lemma chunks_nil fuel n l : chunks_fuel fuel n l = [] -> (length l <= fuel)%nat -> l = [].
Proof. destruct fuel, l; cbn; intros; try done; lia. Qed.

Lemma res_traverse_ok {E A B} (f : A -> result E B) l bs :
  res_traverse f l = Ok bs <-> Forall2 (fun a b => f a = Ok b) l bs.
Proof.
  revert bs. induction l as [|a l IH]; intros bs; cbn [res_traverse].
  - split; [intros [= <-]; constructor|by inversion 1].
  - rewrite res_bind_ok. setoid_rewrite res_bind_ok. setoid_rewrite IH. split.
    + intros (b & Hb & bs' & Hbs & [= <-]). by constructor.
    + inversion 1; subst. eauto.
Qed.

Lemma Forall2_res_bind {E A B C} (f : A -> result E B) (g : B -> result E C) l m n :
  Forall2 (fun a b => f a = Ok b) l m -> Forall2 (fun b c => g b = Ok c) m n ->
  Forall2 (fun a c => res_bind (f a) g = Ok c) l n.
Proof.
  intros Hf. revert n. induction Hf as [|a b l m Hab _ IH]; inversion 1; subst;
    constructor; [by rewrite Hab|by apply IH].
Qed.

(** The records of a payload, fragment by fragment from byte [off] on. *)
Fixpoint fragments_from (k : RecordKind) (total off : Z) (cs : list bytes)
    : list WireRecord :=
  match cs with
  | [] => []
  | c :: cs =>
      {| kind := k; start := off =? 0; end_ := off + len c =? total;
         total_len := if off =? 0 then total else 0; offset := off; data := c |}
      :: fragments_from k total (off + len c) cs
  end.

Lemma chunked_cons n c cs :
  chunked n (c :: cs) -> 1 <= n ->
  1 <= len c <= n /\ (cs <> [] -> len c = n) /\ chunked n cs.
Proof. destruct cs; cbn; intros; naive_solver lia. Qed.

Lemma fragment_map k payload cs i :
  chunked RECORD_DATA_MAX cs -> 0 <= i ->
  i * RECORD_DATA_MAX + len (concat cs) = len payload -> len payload <= U32_MAX ->
  Forall2 (fun ic r => fragment k payload ic = Ok r) (enumerate_from i cs)
    (fragments_from k (len payload) (i * RECORD_DATA_MAX) cs).
Proof.
  revert i. induction cs as [|c cs IH]; intros i Hch Hi Htot Hmax; [constructor|].
  apply chunked_cons in Hch as (Hc & Hfull & Hch); [|unfold RECORD_DATA_MAX; lia].
  cbn [concat] in Htot. autorewrite with len in Htot.
  pose proof (len_nonneg (concat cs)).
  cbn [enumerate_from fragments_from]. constructor.
  - unfold fragment, U32_MAX, U64_MAX, RECORD_DATA_MAX in *.
    unfold ensure. decide_cmp. cbn [res_bind].
    rewrite (Z.mod_small (len payload)), (Z.mod_small (i * 65507)) by lia.
    replace (i * 65507 =? 0) with (i =? 0); [done|].
    destruct (Z.eqb_spec i 0), (Z.eqb_spec (i * 65507) 0); lia.
  - destruct cs as [|c' cs]; [constructor|].
    specialize (Hfull ltac:(done)).
    replace (i * RECORD_DATA_MAX + len c) with ((i + 1) * RECORD_DATA_MAX) by lia.
    apply IH; [done|lia|lia|done].
Qed.

Lemma fragments_encode k total off cs :
  chunked RECORD_DATA_MAX cs ->
  exists parts, Forall2 (fun r l => Record_encode r = Ok l)
    (fragments_from k total off cs) parts /\
    map len parts = map (fun c => 12 + len c) cs.
Proof.
  revert off. induction cs as [|c cs IH]; intros off Hch; [by exists []|].
  apply chunked_cons in Hch as (Hc & _ & Hch); [|unfold RECORD_DATA_MAX; lia].
  destruct (IH (off + len c) Hch) as (parts & Hparts & Hlen).
  cbn [fragments_from].
  destruct (Record_encode_ok {| kind := k; start := off =? 0;
    end_ := off + len c =? total; total_len := if off =? 0 then total else 0;
    offset := off; data := c |}) as [l Hl]; [cbn; lia|].
  exists (l :: parts). split; [by constructor|]. cbn [map]. f_equal; [|done].
  apply Record_encode_len in Hl. exact Hl.
Qed.

(** The first record of a payload opens it, and the chunks are what [slice::chunks] gives:
    every payload of 1 to 2{^32} - 1 bytes is fragmented, and the records of the result are
    those of [fragments_from]. *)
Lemma fragment_records_ok k payload :
  0 < len payload <= U32_MAX ->
  let cs := chunks (Z.to_nat RECORD_DATA_MAX) payload in
  exists parts,
    fragment_records k payload = Ok parts /\
    chunked RECORD_DATA_MAX cs /\ concat cs = payload /\
    Forall2 (fun r l => Record_encode r = Ok l)
      (fragments_from k (len payload) 0 cs) parts /\
    map len parts = map (fun c => 12 + len c) cs.
Proof.
  intros Hlen cs.
  assert (Hconcat : concat cs = payload)
    by (apply chunks_fuel_concat; [done|unfold RECORD_DATA_MAX; lia]).
  assert (Hch : chunked RECORD_DATA_MAX cs).
  { apply (chunks_fuel_chunked _ (Z.to_nat RECORD_DATA_MAX)).
    unfold RECORD_DATA_MAX; lia. }
  destruct (fragments_encode k (len payload) 0 cs Hch) as (parts & Hparts & Hlens).
  exists parts. split_and!; try done.
  unfold fragment_records. fold cs.
  assert (Hne : is_empty payload = false) by (apply is_empty_false; lia).
  rewrite Hne. unfold ensure. decide_cmp. cbn [negb andb res_bind].
  apply res_traverse_ok.
  pose proof (fragment_map k payload cs 0 Hch ltac:(lia)
    ltac:(rewrite Hconcat; lia) ltac:(lia)) as Hf.
  rewrite Z.mul_0_l in Hf. fold (enumerate cs) in Hf.
  by eapply Forall2_res_bind.
Qed.

Lemma fragment_records_nonempty k payload parts :
  fragment_records k payload = Ok parts -> parts <> [].
Proof.
  unfold fragment_records, chunks. intros Hf. res_inv Hf. bool_split.
  apply res_traverse_ok in Hf. destruct payload as [|x payload]; [done|].
  revert Hf. generalize (Z.to_nat RECORD_DATA_MAX) as n. intros n Hf.
  cbn [length chunks_fuel enumerate enumerate_from] in Hf. by inversion Hf.
Qed.
