(* ===== verification/Payloads.v ===== *)
(** The deterministic CBOR payloads of the transport core and their parsers
    ([crypto-core/src/lib.rs]): prologues, NK bootstrap messages, the bootstrap ACK,
    Finished, heartbeat and Close.  A parser accepts exactly the canonical bytes of the
    value it returns. *)

From S2P Require Import Prelude Errors Crates CratesRef Cbor Records.

(** ** Bindings

    A Rust array [[u8; n]] is a byte string; [_wf] states its length, which the type
    fixes in the code. *)

Record SessionLimits := mkSessionLimits {
  request_bytes : Z;
  response_bytes : Z;
  first_open_bytes : Z
}.
#[export] Instance SessionLimits_eq_dec : EqDecision SessionLimits.
Proof. solve_decision. Defined.

Definition SessionLimits_default : SessionLimits :=
  {| request_bytes := 16 * 1024 * 1024;
     response_bytes := 64 * 1024 * 1024;
     first_open_bytes := 64 * 1024 |}.

Record SessionBinding := mkSessionBinding {
  sb_lease_id : bytes;
  sb_process_generation : Z;
  sb_listener_epoch : Z;
  sb_nk_handshake_hash : bytes
}.

Definition valid_generation (v : Z) : bool := (1 <=? v) && (v <=? JSON_SAFE_MAX).

Definition SessionBinding_valid (b : SessionBinding) : bool :=
  valid_generation (sb_process_generation b) && valid_generation (sb_listener_epoch b).

Record BootstrapBinding := mkBootstrapBinding {
  target_reference_digest : bytes;
  bb_lease_id : bytes;
  target_nonce : bytes;
  app_artifact_digest : bytes;
  expiry_ms : Z
}.

Record TargetBootstrapAck := mkTargetBootstrapAck {
  ack_target_reference_digest : bytes;
  ack_lease_id : bytes;
  ack_process_generation : Z;
  ack_listener_epoch : Z;
  ack_nk_handshake_hash : bytes
}.

Record LeaseBinding := mkLeaseBinding {
  lb_lease_id : bytes;
  lb_process_generation : Z;
  lb_listener_epoch : Z
}.

Definition LeaseBinding_from_ack (ack : TargetBootstrapAck) : LeaseBinding :=
  {| lb_lease_id := ack_lease_id ack;
     lb_process_generation := ack_process_generation ack;
     lb_listener_epoch := ack_listener_epoch ack |}.

Definition is_u64 (z : Z) : Prop := 0 <= z <= U64_MAX.

Record SessionBinding_wf (b : SessionBinding) : Prop := {
  sb_lease_len : len (sb_lease_id b) = 16;
  sb_hash_len : len (sb_nk_handshake_hash b) = 32;
  sb_generation_u64 : is_u64 (sb_process_generation b);
  sb_epoch_u64 : is_u64 (sb_listener_epoch b)
}.

Record BootstrapBinding_wf (b : BootstrapBinding) : Prop := {
  bb_digest_len : len (target_reference_digest b) = 32;
  bb_lease_len : len (bb_lease_id b) = 16;
  bb_nonce_len : len (target_nonce b) = 32;
  bb_artifact_len : len (app_artifact_digest b) = 32;
  bb_expiry_u64 : is_u64 (expiry_ms b)
}.

Record LeaseBinding_wf (b : LeaseBinding) : Prop := {
  lb_lease_len : len (lb_lease_id b) = 16;
  lb_generation_u64 : is_u64 (lb_process_generation b);
  lb_epoch_u64 : is_u64 (lb_listener_epoch b)
}.

(** [array32], [array16] and [ProcessBootstrapSecret::from_slice]. *)
Definition array32 (b : bytes) : Res bytes :=
  check len b =? 32 else Error_new Malformed in Ok b.
Definition array16 (b : bytes) : Res bytes :=
  check len b =? 16 else Error_new Malformed in Ok b.
Definition ProcessBootstrapSecret_from_slice (b : bytes) : Res bytes :=
  check len b =? 32 else Error_new Malformed in Ok b.

(** [Option<u64>] against the number of entries a map must have. *)
Definition is_map (n : Z) (o : option Z) : bool := bool_decide (o = Some n).

Definition mal : Error := Error_new Malformed.
Definition mismatch : Error := Error_new BindingMismatch.

Section Payloads.
Context `{Minicbor}.

(** [if d.u8()? != k { return Err(Malformed) }]. *)
Definition d_key (k : Z) : M Decoder Error unit :=
  do v <- d_u8; d_ensure (v =? k) mal.
(** [if d.map()? != Some(n) { return Err(Malformed) }]. *)
Definition d_map_of (n : Z) : M Decoder Error unit :=
  do o <- d_map; d_ensure (is_map n o) mal.
Definition d_array32 : M Decoder Error bytes := do b <- d_bytes; lift (array32 b).
Definition d_array16 : M Decoder Error bytes := do b <- d_bytes; lift (array16 b).
(** [if d.position() != bytes.len() { return Err(Malformed) }]. *)
Definition d_at_end (b : bytes) : M Decoder Error unit :=
  do p <- d_position; d_ensure (p =? len b) mal.
(** [if payload? != bytes { return Err(Malformed) }]. *)
Definition d_canonical (payload : Res bytes) (b : bytes) : M Decoder Error unit :=
  do c <- lift payload; d_ensure (bytes_eqb c b) mal.

(** *** Prologues *)

Definition session_prologue (b : SessionBinding) (l : SessionLimits) : Res bytes :=
  check SessionBinding_valid b else Error_new BindingMismatch in
  enc_seq [enc_array 12; enc_str (str "apppilotkit.transport"); enc_u8 1;
           enc_str (str "session"); enc_u8 0; enc_u8 1; enc_bytes (sb_lease_id b);
           enc_u64 (sb_process_generation b); enc_u64 (sb_listener_epoch b);
           enc_u64 (request_bytes l); enc_u64 (response_bytes l); enc_u64 8192;
           enc_bytes (sb_nk_handshake_hash b)].

Definition bootstrap_prologue (b : BootstrapBinding) : Res bytes :=
  enc_seq [enc_array 10; enc_str (str "apppilotkit.transport"); enc_u8 1;
           enc_str (str "bootstrap"); enc_u8 0; enc_u8 1;
           enc_bytes (target_reference_digest b); enc_bytes (bb_lease_id b);
           enc_bytes (target_nonce b); enc_bytes (app_artifact_digest b);
           enc_u64 (expiry_ms b)].

(** *** NK bootstrap *)

Definition m1_payload (b : BootstrapBinding) : Res bytes :=
  enc_seq [enc_map 4; enc_u8 0; enc_u8 1;
           enc_u8 1; enc_bytes (target_reference_digest b);
           enc_u8 2; enc_bytes (bb_lease_id b);
           enc_u8 3; enc_bytes (target_nonce b)].

Definition expected_m2 (b : BootstrapBinding) (secret : bytes) : Res bytes :=
  enc_seq [enc_map 7; enc_u8 0; enc_u8 1;
           enc_u8 1; enc_bytes secret;
           enc_u8 2; enc_bytes (target_reference_digest b);
           enc_u8 3; enc_bytes (bb_lease_id b);
           enc_u8 4; enc_bytes (target_nonce b);
           enc_u8 5; enc_u64 (expiry_ms b);
           enc_u8 6; enc_bytes (app_artifact_digest b)].

Definition parse_m2 (binding : BootstrapBinding) (b : bytes) : Res bytes :=
  decode_with (
    run d_map_of 7;
    run d_key 0; do version <- d_u8;
    run d_key 1; do raw <- d_bytes;
    do secret <- lift (ProcessBootstrapSecret_from_slice raw);
    run d_key 2; do digest <- d_array32;
    run d_key 3; do lease <- d_array16;
    run d_key 4; do nonce <- d_array32;
    run d_key 5; do expiry <- d_u64;
    run d_key 6; do artifact <- d_array32;
    run d_at_end b;
    run d_ensure (version =? 1) mal;
    run d_ensure (bytes_eqb digest (target_reference_digest binding)
                  && bytes_eqb lease (bb_lease_id binding)
                  && bytes_eqb nonce (target_nonce binding)
                  && (expiry =? expiry_ms binding)
                  && bytes_eqb artifact (app_artifact_digest binding)) mismatch;
    run d_canonical (expected_m2 binding secret) b;
    ret secret) b.

Definition bootstrap_ack_payload (ack : TargetBootstrapAck) : Res bytes :=
  enc_seq [enc_map 6; enc_u8 0; enc_u8 1;
           enc_u8 1; enc_bytes (ack_target_reference_digest ack);
           enc_u8 2; enc_bytes (ack_lease_id ack);
           enc_u8 3; enc_u64 (ack_process_generation ack);
           enc_u8 4; enc_u64 (ack_listener_epoch ack);
           enc_u8 5; enc_bytes (ack_nk_handshake_hash ack)].

Definition parse_bootstrap_ack (b : bytes) (binding : BootstrapBinding) (hash : bytes)
    : Res TargetBootstrapAck :=
  decode_with (
    run d_map_of 6; run d_key 0; run d_key 1;
    run d_key 1; do digest <- d_array32;
    run d_key 2; do lease <- d_array16;
    run d_key 3; do generation <- d_u64;
    run d_key 4; do epoch <- d_u64;
    run d_key 5; do received_hash <- d_array32;
    run d_at_end b;
    run d_ensure (bytes_eqb digest (target_reference_digest binding)
                  && bytes_eqb lease (bb_lease_id binding)
                  && bytes_eqb received_hash hash
                  && valid_generation generation
                  && (epoch =? 1)) mismatch;
    let ack := {| ack_target_reference_digest := digest; ack_lease_id := lease;
                  ack_process_generation := generation; ack_listener_epoch := epoch;
                  ack_nk_handshake_hash := hash |} in
    run d_canonical (bootstrap_ack_payload ack) b;
    ret ack) b.

(** *** Session Finished *)

Definition finished (binding : SessionBinding) (role : Z) (session_hash : bytes)
    : Res bytes :=
  enc_seq [enc_map 6; enc_u8 0; enc_u8 1;
           enc_u8 1; enc_u8 role;
           enc_u8 2; enc_bytes (sb_lease_id binding);
           enc_u8 3; enc_u64 (sb_process_generation binding);
           enc_u8 4; enc_u64 (sb_listener_epoch binding);
           enc_u8 5; enc_bytes session_hash].

Definition parse_finished (b : bytes) (binding : SessionBinding) (session_hash : bytes)
    : Res Z :=
  decode_with (
    run d_map_of 6;
    run d_key 0; run d_key 1;
    run d_key 1; do role <- d_u8;
    run d_key 2; do lease <- d_array16;
    run d_ensure (bytes_eqb lease (sb_lease_id binding)) mismatch;
    run d_key 3; do generation <- d_u64;
    run d_ensure (generation =? sb_process_generation binding) mismatch;
    run d_key 4; do epoch <- d_u64;
    run d_ensure (epoch =? sb_listener_epoch binding) mismatch;
    run d_key 5; do hash <- d_array32;
    run d_ensure (bytes_eqb hash session_hash) mismatch;
    run d_at_end b;
    run d_canonical (finished binding role session_hash) b;
    run d_ensure ((role =? 0) || (role =? 1)) mal;
    ret role) b.

(** *** Heartbeat *)

Definition heartbeat_payload (role : Z) (binding : LeaseBinding) (counter : Z)
    : Res bytes :=
  check negb (negb ((role =? 1) || (role =? 2)) || (counter =? 0))
    else Error_new SequenceViolation in
  enc_seq [enc_map 5; enc_u8 0; enc_u8 role;
           enc_u8 1; enc_bytes (lb_lease_id binding);
           enc_u8 2; enc_u64 (lb_process_generation binding);
           enc_u8 3; enc_u64 (lb_listener_epoch binding);
           enc_u8 4; enc_u64 counter].

Definition parse_heartbeat (b : bytes) (role : Z) (binding : LeaseBinding) : Res Z :=
  decode_with (
    run d_map_of 5; run d_key 0; run d_key role;
    run d_key 1; do lease_id <- d_array16;
    run d_key 2; do generation <- d_u64;
    run d_key 3; do epoch <- d_u64;
    run d_key 4; do counter <- d_u64;
    run d_ensure (bytes_eqb lease_id (lb_lease_id binding)
                  && (generation =? lb_process_generation binding)
                  && (epoch =? lb_listener_epoch binding)) mismatch;
    run d_ensure (negb (counter =? 0)) mal;
    run d_at_end b;
    run d_canonical (heartbeat_payload role binding counter) b;
    ret counter) b.

(** *** Close *)

Definition close_payload (reason : CloseReason) (handoff : HandoffState) : Res bytes :=
  enc_seq [enc_map 3; enc_u8 0; enc_u8 1; enc_u8 1; enc_u8 (CloseReason_wire reason);
           enc_u8 2; enc_u8 (HandoffState_wire handoff)].

Definition parse_close (b : bytes) : Res (CloseReason * HandoffState) :=
  decode_with (
    run d_map_of 3; run d_key 0; run d_key 1; run d_key 1;
    do r <- d_u8; do reason <- lift (CloseReason_from_wire r);
    run d_key 2;
    do h <- d_u8; do handoff <- lift (HandoffState_from_wire h);
    run d_at_end b;
    run d_canonical (close_payload reason handoff) b;
    ret (reason, handoff)) b.

Definition validate_control_record (k : RecordKind) (b : bytes) : Res unit :=
  if bool_decide (k = Close) then let? _ := parse_close b in Ok tt else Ok tt.

Definition limit_close_plaintext (handoff : HandoffState) : Res bytes :=
  let? p := close_payload RecordLimit handoff in
  let? r := complete_record Close p in
  Record_encode r.
End Payloads.

(** ** A parser accepts only the canonical bytes

    These facts need no law of the CBOR crate: each parser compares its input with the
    re-encoding of what it read. *)

Ltac u64_solve := unfold is_u64, U64_MAX, JSON_SAFE_MAX in *; lia.

Lemma array32_ok b c : array32 b = Ok c <-> c = b /\ len b = 32.
Proof. unfold array32, ensure. destruct (Z.eqb_spec (len b) 32); cbn; naive_solver. Qed.
Lemma array16_ok b c : array16 b = Ok c <-> c = b /\ len b = 16.
Proof. unfold array16, ensure. destruct (Z.eqb_spec (len b) 16); cbn; naive_solver. Qed.

Section Canonical.
Context `{Minicbor}.

Lemma d_canonical_ok payload b d u d' :
  d_canonical payload b d = (Ok u, d') -> payload = Ok b.
Proof.
  unfold d_canonical, d_ensure. intros Hm. apply lift_bind_ok in Hm as (c & -> & Hm).
  injection Hm as Hm _. apply ensure_ok in Hm. by apply bytes_eqb_eq in Hm as ->.
Qed.

Ltac canonical Hp :=
  apply decode_with_ok in Hp as [? Hp]; unfold d_ensure in Hp; m_inv Hp;
  repeat match goal with
  | Hd : d_canonical _ _ _ = _ |- _ => apply d_canonical_ok in Hd
  end; bool_split; subst.

Lemma parse_close_canonical b r h : parse_close b = Ok (r, h) -> close_payload r h = Ok b.
Proof. unfold parse_close. intros Hp. canonical Hp. simplify_eq. done. Qed.

Lemma parse_heartbeat_canonical b role binding c :
  parse_heartbeat b role binding = Ok c -> heartbeat_payload role binding c = Ok b.
Proof. unfold parse_heartbeat. intros Hp. canonical Hp. done. Qed.

Lemma parse_finished_canonical b binding hash role :
  parse_finished b binding hash = Ok role ->
  finished binding role hash = Ok b /\ (role = 0 \/ role = 1).
Proof.
  unfold parse_finished. intros Hp. canonical Hp. split; [done|].
  match goal with Hr : _ || _ = true |- _ => apply orb_true_iff in Hr as [Hr|Hr] end;
    bool_split; auto.
Qed.

Lemma parse_m2_canonical b binding secret :
  parse_m2 binding b = Ok secret ->
  expected_m2 binding secret = Ok b /\ len secret = 32.
Proof.
  unfold parse_m2. intros Hp. canonical Hp. split; [done|].
  match goal with Hs : ProcessBootstrapSecret_from_slice _ = _ |- _ =>
    unfold ProcessBootstrapSecret_from_slice in Hs; res_inv Hs; simplify_eq end.
  by bool_split.
Qed.

(** What the acknowledgement of a lease must be: the two bindings agree on it. *)
Record ack_binds (binding : BootstrapBinding) (hash : bytes) (ack : TargetBootstrapAck)
    : Prop := {
  binds_digest : ack_target_reference_digest ack = target_reference_digest binding;
  binds_lease : ack_lease_id ack = bb_lease_id binding;
  binds_generation : 1 <= ack_process_generation ack <= JSON_SAFE_MAX;
  binds_epoch : ack_listener_epoch ack = 1;
  binds_hash : ack_nk_handshake_hash ack = hash
}.

Lemma parse_bootstrap_ack_canonical b binding hash ack :
  parse_bootstrap_ack b binding hash = Ok ack ->
  bootstrap_ack_payload ack = Ok b /\ ack_binds binding hash ack.
Proof.
  unfold parse_bootstrap_ack. intros Hp. canonical Hp. split; [done|].
  match goal with Hg : valid_generation _ = true |- _ =>
    unfold valid_generation in Hg end.
  bool_split. split; cbn; congruence || lia.
Qed.
End Canonical.

(** ** A parser accepts every canonical payload *)

Section Reads.
Context `{Minicbor} `{!MinicborLaws}.

Lemma reads_all_end {B} (k : unit -> M Decoder Error B) b c :
  reads_all (k tt) b [] c -> reads_all (mbind_M (d_at_end b) k) b [] c.
Proof.
  intros Hk d Hd. unfold d_at_end, mbind_M, d_position, d_ensure, lift, ensure.
  rewrite (at_rest_pos _ _ _ Hd), len_nil, Z.sub_0_r, Z.eqb_refl. by apply Hk.
Qed.

Lemma reads_all_canonical {B} p (k : unit -> M Decoder Error B) b x c :
  p = Ok b -> reads_all (k tt) b x c -> reads_all (mbind_M (d_canonical p b) k) b x c.
Proof.
  intros -> Hk d Hd. unfold d_canonical, mbind_M, d_ensure, lift, ensure.
  rewrite bytes_eqb_refl. by apply Hk.
Qed.

Lemma reads_u8 n x : 0 <= n < 256 -> enc_u8 n = Some x -> reads d_u8 x n.
Proof. intros Hn Hx. exact (reads_item _ _ _ _ _ _ _ (u8_ok n Hn) Hx). Qed.
Lemma reads_u64 n x : is_u64 n -> enc_u64 n = Some x -> reads d_u64 x n.
Proof. intros Hn Hx. exact (reads_item _ _ _ _ _ _ _ (u64_ok n Hn) Hx). Qed.
Lemma reads_bytes n x : len n <= U64_MAX -> enc_bytes n = Some x -> reads d_bytes x n.
Proof. intros Hn Hx. exact (reads_item _ _ _ _ _ _ _ (bytes_ok n Hn) Hx). Qed.

Lemma reads_key k x : 0 <= k < 256 -> enc_u8 k = Some x -> reads (d_key k) x tt.
Proof.
  intros Hk Hx. eapply reads_check; [by apply reads_u8|].
  unfold ensure. by rewrite Z.eqb_refl.
Qed.
Lemma reads_map k x : 0 <= k <= U64_MAX -> enc_map k = Some x -> reads (d_map_of k) x tt.
Proof.
  intros Hk Hx. eapply reads_check; [exact (reads_item _ _ _ _ _ _ _ (map_ok k Hk) Hx)|].
  unfold is_map. by rewrite bool_decide_eq_true_2.
Qed.
Lemma reads_array32 n x : len n = 32 -> enc_bytes n = Some x -> reads d_array32 x n.
Proof.
  intros Hn Hx. eapply reads_check; [apply (reads_bytes n); [u64_solve|done]|].
  by apply array32_ok.
Qed.
Lemma reads_array16 n x : len n = 16 -> enc_bytes n = Some x -> reads d_array16 x n.
Proof.
  intros Hn Hx. eapply reads_check; [apply (reads_bytes n); [u64_solve|done]|].
  by apply array16_ok.
Qed.
Lemma reads_secret n : len n = 32 -> ProcessBootstrapSecret_from_slice n = Ok n.
Proof. intros Hn. unfold ProcessBootstrapSecret_from_slice, ensure. by rewrite Hn. Qed.
End Reads.

(** Runs a parser over the parts of a payload, item by item. *)
Ltac read_item :=
  first
  [ eapply reads_key; [|eassumption] | eapply reads_map; [|eassumption]
  | eapply reads_array32; [|eassumption] | eapply reads_array16; [|eassumption]
  | eapply reads_u8; [|eassumption] | eapply reads_u64; [|eassumption]
  | eapply reads_bytes; [|eassumption] ].
Ltac read_all :=
  repeat first
  [ apply reads_all_ret | apply reads_all_end
  | eapply reads_all_canonical; [eassumption|]
  | eapply reads_all_ensure | eapply reads_all_lift
  | eapply reads_all_bind; [read_item|] ].

Ltac complete Hp :=
  eapply decode_with_reads; [eassumption|]; read_all;
  try match goal with
  | |- 0 <= CloseReason_wire ?r < _ => pose proof (CloseReason_wire_range r); lia
  | |- 0 <= HandoffState_wire ?h < _ => pose proof (HandoffState_wire_range h); lia
  end; try (u64_solve || done).

Section Complete.
Context `{Minicbor} `{!MinicborLaws}.

Lemma parse_close_complete b r h : close_payload r h = Ok b -> parse_close b = Ok (r, h).
Proof.
  intros Hp. pose proof Hp as Hc. unfold close_payload, enc_seq in Hp. chain_items Hp.
  complete Hp.
  - apply CloseReason_from_wire_roundtrip.
  - apply HandoffState_from_wire_roundtrip.
Qed.

Lemma parse_heartbeat_complete b role binding c :
  LeaseBinding_wf binding -> is_u64 c ->
  heartbeat_payload role binding c = Ok b -> parse_heartbeat b role binding = Ok c.
Proof.
  intros [] Hu Hp. pose proof Hp as Hc. unfold heartbeat_payload in Hp. res_inv Hp.
  unfold enc_seq in Hp. chain_items Hp. bool_split.
  assert (role = 1 \/ role = 2) by (match goal with Hr : _ || _ = true |- _ =>
    apply orb_true_iff in Hr as [Hr|Hr]; bool_split; auto end).
  complete Hp. by rewrite !Z.eqb_refl, bytes_eqb_refl.
Qed.

Lemma parse_finished_complete b binding role hash :
  SessionBinding_wf binding -> len hash = 32 -> role = 0 \/ role = 1 ->
  finished binding role hash = Ok b -> parse_finished b binding hash = Ok role.
Proof.
  intros [] Hh Hr Hp. pose proof Hp as Hc. unfold finished, enc_seq in Hp. chain_items Hp.
  complete Hp; by rewrite ?Z.eqb_refl, ?bytes_eqb_refl.
Qed.

Lemma parse_m2_complete b binding secret :
  BootstrapBinding_wf binding -> len secret = 32 ->
  expected_m2 binding secret = Ok b -> parse_m2 binding b = Ok secret.
Proof.
  intros [] Hs Hp. pose proof Hp as Hc. unfold expected_m2, enc_seq in Hp.
  chain_items Hp. complete Hp.
  - by apply reads_secret.
  - by rewrite !Z.eqb_refl, !bytes_eqb_refl.
Qed.

Lemma parse_bootstrap_ack_complete b binding hash ack :
  BootstrapBinding_wf binding -> len hash = 32 -> ack_binds binding hash ack ->
  bootstrap_ack_payload ack = Ok b -> parse_bootstrap_ack b binding hash = Ok ack.
Proof.
  intros [] Hh [Hd Hl Hg He Hn] Hp. pose proof Hp as Hc.
  unfold bootstrap_ack_payload, enc_seq in Hp. chain_items Hp.
  destruct ack as [digest lease gen epoch hash'].
  cbn [ack_target_reference_digest ack_lease_id ack_process_generation
       ack_listener_epoch ack_nk_handshake_hash] in *. subst digest lease epoch hash'.
  complete Hp. unfold valid_generation. rewrite !bytes_eqb_refl. decide_cmp. done.
Qed.
End Complete.

(** ** The payloads of well-formed values exist and are short *)

Section Encodable.
Context `{Minicbor} `{!MinicborLaws}.

Definition within_u8 n (Hn : 0 <= n < 256) : within 2 (enc_u8 n) :=
  item_ok_within _ _ _ _ _ (u8_ok n Hn).
Definition within_u64 n (Hn : is_u64 n) : within 9 (enc_u64 n) :=
  item_ok_within _ _ _ _ _ (u64_ok n Hn).
Definition within_map n (Hn : 0 <= n <= U64_MAX) : within 9 (enc_map n) :=
  item_ok_within _ _ _ _ _ (map_ok n Hn).
Definition within_array n (Hn : 0 <= n <= U64_MAX) : within 9 (enc_array n) :=
  item_ok_within _ _ _ _ _ (array_ok n Hn).
Lemma within_bytes n b (Hn : len b = n) (Hmax : n <= 64) : within (9 + n) (enc_bytes b).
Proof. rewrite <- Hn. apply (item_ok_within _ dec_bytes id), bytes_ok. u64_solve. Qed.
Lemma within_str n b (Hu : valid_utf8 b = true) (Hn : len b = n) (Hmax : n <= 64) :
  within (9 + n) (enc_str b).
Proof. rewrite <- Hn. apply (item_ok_within _ dec_str id), str_ok; [done|u64_solve]. Qed.

Lemma enc_seq_within o items bounds n :
  Forall2 within bounds (o :: items) -> foldr Z.add 0 bounds <= n ->
  exists out, enc_seq (o :: items) = Ok out /\ 1 <= len out <= n.
Proof.
  intros Hi Hb. destruct (enc_chain_within cbor_encode_error _ _ Hi) as (out & Ho & Hl).
  rewrite len_cons in Hl. pose proof (len_nonneg items).
  exists out. split; [exact Ho|lia].
Qed.

Ltac encodable :=
  eapply enc_seq_within;
  [ repeat (apply List.Forall2_cons || apply List.Forall2_nil);
    first [ apply within_u8; lia | apply within_map; u64_solve
          | apply within_array; u64_solve | apply within_u64; u64_solve
          | eapply within_bytes; [eassumption|lia]
          | apply (within_str 21); [reflexivity|reflexivity|lia] | apply (within_str 7); [reflexivity|reflexivity|lia]
          | apply (within_str 9); [reflexivity|reflexivity|lia] ]
  | cbn; lia ].

Lemma heartbeat_payload_ok role binding c :
  LeaseBinding_wf binding -> role = 1 \/ role = 2 -> 1 <= c <= U64_MAX ->
  exists b, heartbeat_payload role binding c = Ok b /\ 1 <= len b <= 128.
Proof.
  intros [] Hr Hc. unfold heartbeat_payload, ensure.
  replace (negb _) with true by (destruct Hr as [-> | ->]; cbn; lia).
  cbn [res_bind]. assert (0 <= role < 256) by lia. encodable.
Qed.

Lemma finished_ok binding role hash :
  SessionBinding_wf binding -> len hash = 32 -> role = 0 \/ role = 1 ->
  exists b, finished binding role hash = Ok b /\ 1 <= len b <= 256.
Proof. intros [] Hh Hr. assert (0 <= role < 256) by lia. encodable. Qed.

Lemma m1_payload_ok binding :
  BootstrapBinding_wf binding ->
  exists b, m1_payload binding = Ok b /\ 1 <= len b <= 256.
Proof. intros []. encodable. Qed.

Lemma expected_m2_ok binding secret :
  BootstrapBinding_wf binding -> len secret = 32 ->
  exists b, expected_m2 binding secret = Ok b /\ 1 <= len b <= 512.
Proof. intros [] Hs. encodable. Qed.

Lemma bootstrap_ack_payload_ok binding hash ack :
  BootstrapBinding_wf binding -> len hash = 32 -> ack_binds binding hash ack ->
  exists b, bootstrap_ack_payload ack = Ok b /\ 1 <= len b <= 256.
Proof.
  intros [] Hh []. destruct ack as [digest lease gen epoch hash'].
  cbn [ack_target_reference_digest ack_lease_id ack_process_generation
       ack_listener_epoch ack_nk_handshake_hash] in *. subst digest lease epoch hash'.
  unfold bootstrap_ack_payload. cbn [ack_target_reference_digest ack_lease_id
    ack_process_generation ack_listener_epoch ack_nk_handshake_hash]. encodable.
Qed.

Lemma bootstrap_prologue_ok binding :
  BootstrapBinding_wf binding -> exists b, bootstrap_prologue binding = Ok b.
Proof.
  intros []. enough (exists b, bootstrap_prologue binding = Ok b /\ 1 <= len b <= 512)
    by naive_solver. encodable.
Qed.

Lemma session_prologue_ok binding :
  SessionBinding_wf binding -> SessionBinding_valid binding = true ->
  exists b, session_prologue binding SessionLimits_default = Ok b.
Proof.
  intros [] Hv. unfold session_prologue. rewrite Hv. cbn [ensure res_bind].
  enough (forall r, r = _ -> exists b, r = Ok b /\ 1 <= len b <= 512) as He
    by (edestruct He as (b & ? & ?); [reflexivity|by exists b]).
  intros r ->. cbn [request_bytes response_bytes SessionLimits_default]. encodable.
Qed.

Lemma close_payload_ok r h : exists b, close_payload r h = Ok b /\ len b = 7.
Proof.
  unfold close_payload. pose proof (CloseReason_wire_range r).
  pose proof (HandoffState_wire_range h).
  rewrite map_small, !u8_small by lia. unfold enc_seq, enc_chain. cbn. eauto.
Qed.

(** The Close frame a limit transition needs: 19 bytes, whatever the hand-off state. *)
Lemma limit_close_ok h : exists p, limit_close_plaintext h = Ok p /\ len p = 19.
Proof.
  destruct (close_payload_ok RecordLimit h) as (b & Hb & Hl).
  unfold limit_close_plaintext. rewrite Hb. cbn [res_bind].
  unfold complete_record, ensure, U32_MAX. rewrite Hl. cbn [res_bind].
  destruct (Record_encode_ok (mkRecord Close true true 7 0 b)) as [p Hp].
  { cbn. rewrite Hl. unfold RECORD_DATA_MAX. lia. }
  exists p. split; [exact Hp|]. apply Record_encode_len in Hp. cbn in Hp. lia.
Qed.
End Encodable.

(** ** Properties *)

Section Properties.
Context `{Minicbor} `{!MinicborLaws}.

(** A Close record's body is accepted as [(r, h)] exactly when it is the canonical
    encoding of [(r, h)]: nothing is lost on the way, and no second spelling (a longer
    integer, a trailing byte) is accepted. *)
Theorem parse_close_exact b r h :
  parse_close b = Ok (r, h) <-> close_payload r h = Ok b.
Proof. split; [apply parse_close_canonical|apply parse_close_complete]. Qed.

(** A heartbeat body is accepted with counter [c] exactly when it is the canonical
    encoding of [c] for that role and that lease. *)
Theorem parse_heartbeat_exact b role binding c
    (Hb : LeaseBinding_wf binding) (Hc : is_u64 c) :
  parse_heartbeat b role binding = Ok c <-> heartbeat_payload role binding c = Ok b.
Proof. split; [apply parse_heartbeat_canonical|by apply parse_heartbeat_complete]. Qed.

(** A Finished body is accepted with a role exactly when it is the canonical encoding
    of that role, 0 or 1, for this binding and this session hash. *)
Theorem parse_finished_exact b binding role hash
    (Hb : SessionBinding_wf binding) (Hh : len hash = 32) :
  parse_finished b binding hash = Ok role <->
  finished binding role hash = Ok b /\ (role = 0 \/ role = 1).
Proof.
  split; [apply parse_finished_canonical|]. intros [Hf Hr].
  by apply parse_finished_complete.
Qed.

(** The second NK message yields a secret exactly when it is the canonical encoding
    of that 32-byte secret for the binding the target expects. *)
Theorem parse_m2_exact b binding secret (Hb : BootstrapBinding_wf binding) :
  parse_m2 binding b = Ok secret <->
  expected_m2 binding secret = Ok b /\ len secret = 32.
Proof.
  split; [apply parse_m2_canonical|]. intros [Hm Hs]. by apply parse_m2_complete.
Qed.

(** A bootstrap acknowledgement is accepted exactly when it is the canonical encoding
    of one that repeats the binding's digest and lease, the handshake's hash, epoch 1 and
    a generation in range. *)
Theorem parse_bootstrap_ack_exact b binding hash ack
    (Hb : BootstrapBinding_wf binding) (Hh : len hash = 32) :
  parse_bootstrap_ack b binding hash = Ok ack <->
  bootstrap_ack_payload ack = Ok b /\ ack_binds binding hash ack.
Proof.
  split; [apply parse_bootstrap_ack_canonical|]. intros [Hp Ha].
  by apply parse_bootstrap_ack_complete.
Qed.
End Properties.

(** *** Concrete inputs *)

Definition ex_lease_binding : LeaseBinding :=
  {| lb_lease_id := repeat (b8 7) 16; lb_process_generation := 5; lb_listener_epoch := 1 |}.
Definition ex_session_binding : SessionBinding :=
  {| sb_lease_id := repeat (b8 7) 16; sb_process_generation := 5; sb_listener_epoch := 1;
     sb_nk_handshake_hash := repeat (b8 9) 32 |}.
Definition ex_bootstrap_binding : BootstrapBinding :=
  {| target_reference_digest := repeat (b8 1) 32; bb_lease_id := repeat (b8 7) 16;
     target_nonce := repeat (b8 2) 32; app_artifact_digest := repeat (b8 3) 32;
     expiry_ms := 60000 |}.
Definition ex_ack : TargetBootstrapAck :=
  {| ack_target_reference_digest := repeat (b8 1) 32; ack_lease_id := repeat (b8 7) 16;
     ack_process_generation := 5; ack_listener_epoch := 1;
     ack_nk_handshake_hash := repeat (b8 9) 32 |}.

Lemma ex_lease_binding_wf : LeaseBinding_wf ex_lease_binding.
Proof. split; vm_compute; done. Qed.
Lemma ex_session_binding_wf : SessionBinding_wf ex_session_binding.
Proof. split; vm_compute; done. Qed.
Lemma ex_bootstrap_binding_wf : BootstrapBinding_wf ex_bootstrap_binding.
Proof. split; vm_compute; done. Qed.

(** The bytes an encoder gives, at a concrete input. *)
Definition bytes_of (r : Res bytes) : bytes := match r with Ok b => b | Err _ => [] end.

Lemma parse_close_exact_witness :
  parse_close (bytes_of (close_payload Timeout NotHandedOff)) = Ok (Timeout, NotHandedOff).
Proof. apply parse_close_exact. vm_compute. reflexivity. Defined.

Lemma parse_heartbeat_exact_witness :
  parse_heartbeat (bytes_of (heartbeat_payload 1 ex_lease_binding 300)) 1 ex_lease_binding
  = Ok 300.
Proof.
  apply (parse_heartbeat_exact _ 1 ex_lease_binding 300).
  - exact ex_lease_binding_wf.
  - split; vm_compute; discriminate.
  - vm_compute. reflexivity.
Defined.

Lemma parse_finished_exact_witness :
  parse_finished (bytes_of (finished ex_session_binding 1 (repeat (b8 9) 32)))
    ex_session_binding (repeat (b8 9) 32) = Ok 1.
Proof.
  apply (parse_finished_exact _ ex_session_binding 1 (repeat (b8 9) 32)).
  - exact ex_session_binding_wf.
  - reflexivity.
  - split; [vm_compute; reflexivity|right; reflexivity].
Defined.

Lemma parse_m2_exact_witness :
  parse_m2 ex_bootstrap_binding
    (bytes_of (expected_m2 ex_bootstrap_binding (repeat (b8 4) 32)))
  = Ok (repeat (b8 4) 32).
Proof.
  apply (parse_m2_exact _ ex_bootstrap_binding (repeat (b8 4) 32)).
  - exact ex_bootstrap_binding_wf.
  - split; vm_compute; reflexivity.
Defined.

Lemma parse_bootstrap_ack_exact_witness :
  parse_bootstrap_ack (bytes_of (bootstrap_ack_payload ex_ack)) ex_bootstrap_binding
    (repeat (b8 9) 32) = Ok ex_ack.
Proof.
  apply (parse_bootstrap_ack_exact _ ex_bootstrap_binding (repeat (b8 9) 32) ex_ack).
  - exact ex_bootstrap_binding_wf.
  - reflexivity.
  - split; [vm_compute; reflexivity|]. split; vm_compute; split || reflexivity; discriminate.
Defined.
