(* ===== verification/Reassembly.v ===== *)
(** Record reassembly and the half-duplex application turn ([RecordReassembler] and
    [HalfDuplex] of [crypto-core/src/lib.rs]). *)

From Stdlib Require Import Init.Byte.
From S2P Require Import Prelude Errors Crates CratesRef Cbor Records Payloads.

(** [records] and [bytes] are [u64] counters, [cap] a [usize]. *)
Record RecordReassembler := mkReassembler {
  cap : Z;
  active : option (RecordKind * Z * bytes);
  ra_records : Z;
  ra_bytes : Z;
  ra_failed : bool
}.

Definition with_active (a : option (RecordKind * Z * bytes)) (s : RecordReassembler) :=
  {| cap := cap s; active := a; ra_records := ra_records s; ra_bytes := ra_bytes s;
     ra_failed := ra_failed s |}.
Definition with_usage (n b : Z) (s : RecordReassembler) :=
  {| cap := cap s; active := active s; ra_records := n; ra_bytes := b;
     ra_failed := ra_failed s |}.
Definition with_failed (s : RecordReassembler) :=
  {| cap := cap s; active := active s; ra_records := ra_records s; ra_bytes := ra_bytes s;
     ra_failed := true |}.
Definition with_cap (c : Z) (s : RecordReassembler) :=
  {| cap := c; active := active s; ra_records := ra_records s; ra_bytes := ra_bytes s;
     ra_failed := ra_failed s |}.

Definition RecordReassembler_new (max_message_bytes : Z) : Res RecordReassembler :=
  check negb (max_message_bytes =? 0) else Error_new InternalError in
  Ok {| cap := max_message_bytes; active := None; ra_records := 0; ra_bytes := 0;
        ra_failed := false |}.

(** [clear]: the active message is dropped, the counters and the failure flag stay. *)
Definition ra_clear (s : RecordReassembler) : RecordReassembler := with_active None s.

Abbreviation Message := (option (RecordKind * bytes)).

Section Reassembler.
Context `{Minicbor}.

Definition R := M RecordReassembler Error.

(** The record and byte counters; a limit clears the active message at once. *)
Definition account (r : WireRecord) : R unit :=
  do s <- get;
  do n <- lift (res_of_option (Error_new RecordLimit) (checked_add (ra_records s) 1));
  run modify (with_usage n (ra_bytes s));
  do b <- lift (res_of_option (Error_new RecordLimit)
                  (checked_add (ra_bytes s) (RECORD_HEADER_LEN + len (data r))));
  run modify (with_usage n b);
  if (RECORD_LIMIT <=? n) || (BYTE_LIMIT <=? b)
  then run modify ra_clear; throw (Error_new RecordLimit)
  else ret tt.

(** A record that starts a message. *)
Definition accept_start (r : WireRecord) : R Message :=
  do s <- get;
  run lift (ensure (total_len r <=? cap s) (Error_new Oversize));
  run lift (ensure (negb (is_Some_b (active s) || negb (offset r =? 0)))
              (Error_new SequenceViolation));
  run lift (ensure (negb ((total_len r =? 0) && negb (end_ r))) (Error_new Malformed));
  run lift (ensure (len (data r) <=? total_len r) (Error_new Malformed));
  if end_ r
  then run lift (ensure (len (data r) =? total_len r) (Error_new Malformed));
       run lift (validate_control_record (kind r) (data r));
       ret (Some (kind r, data r))
  else run modify (with_active (Some (kind r, total_len r, data r)));
       ret None.

(** A record that continues one: the active message is taken out of the state first. *)
Definition accept_continuation (r : WireRecord) : R Message :=
  do s <- get;
  do ' (k, total, assembled) <- lift (res_of_option (Error_new SequenceViolation) (active s));
  run modify (with_active None);
  run lift (ensure (bool_decide (k = kind r) && (total_len r =? 0)
                    && (offset r =? len assembled)) (Error_new SequenceViolation));
  run lift (ensure (Z.min (len assembled + len (data r)) U64_MAX <=? total)
              (Error_new Malformed));
  let assembled := assembled ++ data r in
  if end_ r
  then run lift (ensure (len assembled =? total) (Error_new Malformed));
       run lift (validate_control_record k assembled);
       ret (Some (k, assembled))
  else run modify (with_active (Some (k, total, assembled)));
       ret None.

Definition accept_body (r : WireRecord) : R Message :=
  run account r;
  if start r then accept_start r else accept_continuation r.

Definition accept (r : WireRecord) : R Message := fun s =>
  if ra_failed s then (err SequenceViolation, s)
  else match accept_body r s with
       | (Err e, s') => (Err e, with_failed (ra_clear s'))
       | (Ok m, s') => (Ok m, s')
       end.

Definition ra_eof : R unit := fun s =>
  if ra_failed s then (err SequenceViolation, s)
  else if is_Some_b (active s) then (err Malformed, with_failed (ra_clear s))
  else (Ok tt, s).

Definition set_cap (c : Z) : R unit := fun s =>
  if ra_failed s || (c =? 0) || is_Some_b (active s) then (err SequenceViolation, s)
  else (Ok tt, with_cap c s).
End Reassembler.

(** ** The application turn *)

Inductive ApplicationTurn : Set := Local | Peer.
#[export] Instance ApplicationTurn_eq_dec : EqDecision ApplicationTurn.
Proof. solve_decision. Defined.

Definition HalfDuplex := ApplicationTurn.

Definition local_message_sent : M HalfDuplex Error unit := fun t =>
  if bool_decide (t = Local) then (Ok tt, Peer) else (err SequenceViolation, t).

Definition accept_peer_record `{Minicbor} (r : WireRecord)
    : M (HalfDuplex * RecordReassembler) Error Message := fun '(t, s) =>
  if bool_decide (t = Peer)
  then match accept r s with
       | (Err e, s') => (Err e, (t, s'))
       | (Ok m, s') => (Ok m, (if is_Some_b m then Local else t, s'))
       end
  else (err SequenceViolation, (t, s)).

(** ** What one record does *)

(** The invariant: the active message fits its announced length, which fits the cap, and
    a failed reassembler holds nothing. *)
Record ra_inv (s : RecordReassembler) : Prop := {
  ra_counts : 0 <= ra_records s /\ 0 <= ra_bytes s;
  ra_active_fits : forall k total assembled, active s = Some (k, total, assembled) ->
    1 <= total <= cap s /\ total <= U32_MAX /\ len assembled <= total;
  ra_failed_empty : ra_failed s = true -> active s = None
}.

(** The counters leave room for one more record [r]. *)
Definition quota (s : RecordReassembler) (r : WireRecord) : Prop :=
  ra_records s + 1 < RECORD_LIMIT /\
  ra_bytes s + (RECORD_HEADER_LEN + len (data r)) < BYTE_LIMIT.

Definition used (s : RecordReassembler) (r : WireRecord) : RecordReassembler :=
  with_usage (ra_records s + 1) (ra_bytes s + (RECORD_HEADER_LEN + len (data r))) s.

(** The records an unfailed reassembler accepts, and what it answers. *)
Inductive accepts `{Minicbor} (s : RecordReassembler) (r : WireRecord)
    : Message -> RecordReassembler -> Prop :=
| accepts_single :
    active s = None -> start r = true -> end_ r = true -> offset r = 0 ->
    total_len r <= cap s -> len (data r) = total_len r ->
    validate_control_record (kind r) (data r) = Ok tt ->
    accepts s r (Some (kind r, data r)) (used s r)
| accepts_first :
    active s = None -> start r = true -> end_ r = false -> offset r = 0 ->
    total_len r <= cap s -> total_len r <> 0 -> len (data r) <= total_len r ->
    accepts s r None (with_active (Some (kind r, total_len r, data r)) (used s r))
| accepts_middle total assembled :
    active s = Some (kind r, total, assembled) -> start r = false -> end_ r = false ->
    total_len r = 0 -> offset r = len assembled ->
    len assembled + len (data r) <= total ->
    accepts s r None (with_active (Some (kind r, total, assembled ++ data r)) (used s r))
| accepts_last total assembled :
    active s = Some (kind r, total, assembled) -> start r = false -> end_ r = true ->
    total_len r = 0 -> offset r = len assembled ->
    len assembled + len (data r) = total ->
    validate_control_record (kind r) (assembled ++ data r) = Ok tt ->
    accepts s r (Some (kind r, assembled ++ data r)) (with_active None (used s r)).

Section AcceptSpec.
Context `{Minicbor}.
Implicit Types (s : RecordReassembler) (r : WireRecord).

Lemma account_ok s r u s' :
  0 <= ra_records s -> 0 <= ra_bytes s ->
  account r s = (Ok u, s') <-> quota s r /\ s' = used s r.
Proof.
  intros Hn Hb. pose proof (len_nonneg (data r)).
  unfold account, quota, used, RECORD_HEADER_LEN, checked_add, U64_MAX,
    RECORD_LIMIT, BYTE_LIMIT, mbind_M, get, lift, modify, throw, ret. destruct u.
  destruct (Z.leb_spec (ra_records s + 1) (2 ^ 64 - 1)); cbn; [|naive_solver lia].
  destruct (Z.leb_spec (ra_bytes s + (12 + len (data r))) (2 ^ 64 - 1)); cbn;
    [|naive_solver lia].
  destruct (Z.leb_spec (2 ^ 32) (ra_records s + 1)),
    (Z.leb_spec (2 ^ 40) (ra_bytes s + (12 + len (data r)))); cbn; naive_solver lia.
Qed.

Lemma accept_start_ok s r m s' :
  accept_start r s = (Ok m, s') <->
  total_len r <= cap s /\ active s = None /\ offset r = 0 /\
  (total_len r = 0 -> end_ r = true) /\ len (data r) <= total_len r /\
  if end_ r
  then len (data r) = total_len r /\ validate_control_record (kind r) (data r) = Ok tt /\
       m = Some (kind r, data r) /\ s' = s
  else m = None /\ s' = with_active (Some (kind r, total_len r, data r)) s.
Proof.
  unfold accept_start. split.
  - intros Ha. m_inv Ha. destruct (end_ r) eqn:He; m_inv Ha; bool_split;
      (split_and!; try done; try lia).
    match goal with u : unit |- _ => by destruct u end.
  - intros (Hcap & Hact & Hoff & Hend & Hlen & Hr).
    rewrite get_bind, Hact, Hoff.
    destruct (end_ r); m_run ltac:(cbn; lia); [|destruct Hr as [-> ->]; done].
    destruct Hr as (Hl & Hv & -> & ->). m_run lia. by rewrite (lift_bind _ _ _ _ Hv).
Qed.

Lemma accept_continuation_ok s r m s' :
  (forall k total assembled, active s = Some (k, total, assembled) -> total <= U32_MAX) ->
  accept_continuation r s = (Ok m, s') <->
  exists total assembled,
    active s = Some (kind r, total, assembled) /\ total_len r = 0 /\
    offset r = len assembled /\ len assembled + len (data r) <= total /\
    let msg := assembled ++ data r in
    if end_ r
    then len msg = total /\ validate_control_record (kind r) msg = Ok tt /\
         m = Some (kind r, msg) /\ s' = with_active None s
    else m = None /\ s' = with_active (Some (kind r, total, msg)) s.
Proof.
  intros Hfit. unfold accept_continuation, U32_MAX in *. split.
  - intros Ha. m_inv Ha. destruct a as [[k total] assembled].
    apply res_of_option_ok in Hr. specialize (Hfit _ _ _ Hr). rewrite Hr.
    destruct (end_ r) eqn:He; m_inv Ha; bool_split; subst k;
      exists total, assembled; unfold U64_MAX in *; (split_and!; try done; try lia).
    match goal with u : unit |- _ => by destruct u end.
  - intros (total & assembled & Hact & Htl & Hoff & Hlen & Hr).
    specialize (Hfit _ _ _ Hact).
    rewrite get_bind, Hact. cbn [res_of_option]. rewrite (lift_bind _ _ _ _ eq_refl).
    rewrite modify_bind, Htl, Hoff. unfold U64_MAX.
    m_run ltac:(rewrite ?bool_decide_eq_true_2 by done; cbn; lia). cbn zeta in Hr.
    destruct (end_ r); [|destruct Hr as [-> ->]; done].
    destruct Hr as (Hl & Hv & -> & ->). m_run lia. by rewrite (lift_bind _ _ _ _ Hv).
Qed.

Lemma accept_ok s r m s' :
  ra_inv s ->
  accept r s = (Ok m, s') <-> ra_failed s = false /\ quota s r /\ accepts s r m s'.
Proof.
  intros [[Hn Hb] Hact _]. unfold accept, accept_body.
  assert (Hfit : forall k total assembled, active (used s r) = Some (k, total, assembled) ->
    total <= U32_MAX) by (intros k t a Ha; by destruct (Hact k t a Ha) as (_ & ? & _)).
  destruct (ra_failed s); [naive_solver|].
  transitivity (mbind_M (account r)
    (fun _ => if start r then accept_start r else accept_continuation r) s = (Ok m, s')).
  { destruct (mbind_M _ _ s) as [[] ?]; naive_solver. }
  rewrite mbind_M_ok. setoid_rewrite (account_ok s r _ _ Hn Hb).
  transitivity (quota s r /\
    (if start r then accept_start r else accept_continuation r) (used s r) = (Ok m, s')).
  { naive_solver. }
  destruct (start r) eqn:Hs; [rewrite accept_start_ok|
    rewrite (accept_continuation_ok _ _ _ _ Hfit)]; cbn [cap active used with_usage].
  - split.
    + intros (Hq & Hcap & Hnone & Hoff & Hend & Hlen & Hr). split_and!; [done..|].
      destruct (end_ r) eqn:He; destruct_and! Hr; subst;
        econstructor; try done; try lia.
    + intros (_ & Hq & Ha). destruct Ha; try congruence;
        match goal with He : end_ r = _ |- _ => rewrite He end; split_and!; done || lia.
  - split.
    + intros (Hq & total & assembled & Ha & Htl & Hoff & Hlen & Hr). split_and!; [done..|].
      cbn zeta in Hr. destruct (end_ r) eqn:He; destruct_and! Hr; subst; autorewrite with len in *;
        econstructor; try done; try lia.
    + intros (_ & Hq & Ha). split; [done|].
      destruct Ha; try congruence; exists total, assembled;
        match goal with He : end_ r = _ |- _ => rewrite He end;
        autorewrite with len; split_and!; done || lia.
Qed.
End AcceptSpec.

(** ** The invariant and failing closed *)

Section Invariant.
Context `{Minicbor}.
Implicit Types (s : RecordReassembler) (r : WireRecord).

Lemma accept_body_counts r s :
  0 <= ra_records s -> 0 <= ra_bytes s ->
  0 <= ra_records (snd (accept_body r s)) /\ 0 <= ra_bytes (snd (accept_body r s)).
Proof.
  intros Hn Hb. pose proof (len_nonneg (data r)).
  unfold accept_body, account, accept_start, accept_continuation, mbind_M, get, lift,
    modify, throw, ret, RECORD_HEADER_LEN, ensure, checked_add, res_of_option.
  repeat (case_goal; cbn in *; try lia; simplify_eq).
Qed.

Lemma accept_err r s e s' :
  accept r s = (Err e, s') ->
  ra_failed s' = true /\ (ra_failed s = false -> active s' = None) /\
  (ra_failed s = true -> s' = s).
Proof.
  unfold accept. destruct (ra_failed s) eqn:Hf; [naive_solver|].
  destruct (accept_body r s) as [[] ?]; naive_solver.
Qed.

Lemma accept_inv r s : record_wf r -> ra_inv s -> ra_inv (snd (accept r s)).
Proof.
  intros [Htl _] Hinv. pose proof Hinv as [[Hn Hb] Hact Hf].
  destruct (accept r s) as [[m|e] s'] eqn:Ha; cbn.
  - apply (accept_ok _ _ _ _ Hinv) in Ha as (Hnf & _ & Ha).
    pose proof (len_nonneg (data r)).
    destruct Ha; (split; cbn; [unfold RECORD_HEADER_LEN; lia| |congruence]);
      intros k0 t a Hk; simplify_eq; try congruence; try lia.
    match goal with Hs : active s = _ |- _ => specialize (Hact _ _ _ Hs) end.
    autorewrite with len. lia.
  - pose proof (accept_err _ _ _ _ Ha) as (Hf' & Hnone & Hsame).
    destruct (ra_failed s) eqn:Hfs; [by rewrite Hsame|].
    unfold accept in Ha. rewrite Hfs in Ha.
    pose proof (accept_body_counts r s Hn Hb).
    destruct (accept_body r s) as [[] s1]; simplify_eq. by split.
Qed.

(** What an accepted record leaves: nothing active exactly when it completed a message,
    which then fits the cap. *)
Lemma accept_facts r s m s' :
  record_wf r -> ra_inv s -> accept r s = (Ok m, s') ->
  ra_inv s' /\ ra_failed s' = false /\ cap s' = cap s /\
  match m with
  | Some (k, b) => active s' = None /\ len b <= cap s /\ k = kind r
  | None => active s' <> None
  end.
Proof.
  intros Hwf Hinv Ha. split.
  { pose proof (accept_inv r s Hwf Hinv) as Hi. by rewrite Ha in Hi. }
  pose proof Hinv as [_ Hact _].
  apply (accept_ok _ _ _ _ Hinv) in Ha as (Hnf & _ & Ha).
  destruct Ha; (split_and!; [done|done|..]); try done; try lia.
  match goal with Hs : active s = _ |- _ => specialize (Hact _ _ _ Hs) end.
  autorewrite with len. lia.
Qed.

Lemma set_cap_inv c s : ra_inv s -> ra_inv (snd (set_cap c s)).
Proof.
  intros Hinv. unfold set_cap. destruct (_ || _) eqn:Hg; [done|]. bool_split.
  destruct Hinv as [Hc Ha Hf]. split; cbn; [done|congruence|done].
Qed.

Lemma ra_eof_inv s : ra_inv s -> ra_inv (snd (ra_eof s)).
Proof.
  intros Hinv. unfold ra_eof. destruct (ra_failed s); [done|].
  destruct (is_Some_b (active s)); [|done]. destruct Hinv. by split.
Qed.
End Invariant.

(** ** Whole messages *)

Section Messages.
Context `{Minicbor}.
Implicit Types (s : RecordReassembler) (r : WireRecord).

Fixpoint accept_all (rs : list WireRecord) : M RecordReassembler Error (list Message) :=
  match rs with
  | [] => ret []
  | r :: rs => do m <- accept r; do ms <- accept_all rs; ret (m :: ms)
  end.

(** The records of one message: one kind, consecutive offsets, the start flag and the
    total on the first record only, the end flag on the last only. *)
Fixpoint message_records (k : RecordKind) (total : Z) (first : bool) (off : Z)
    (rs : list WireRecord) : Prop :=
  match rs with
  | [] => False
  | r :: rest =>
      kind r = k /\ start r = first /\ offset r = off /\
      total_len r = (if first then total else 0) /\ end_ r = is_empty rest /\
      match rest with
      | [] => off + len (data r) = total
      | _ => message_records k total false (off + len (data r)) rest
      end
  end.

Definition records_bytes (rs : list WireRecord) : Z :=
  foldr (fun r n => RECORD_HEADER_LEN + len (data r) + n) 0 rs.

(** The state after a whole message. *)
Definition after (rs : list WireRecord) s : RecordReassembler :=
  with_active None
    (with_usage (ra_records s + len rs) (ra_bytes s + records_bytes rs) s).
Definition quota_all s (rs : list WireRecord) : Prop :=
  ra_records s + len rs < RECORD_LIMIT /\ ra_bytes s + records_bytes rs < BYTE_LIMIT.

(** Nothing for every record but the last. *)
Definition answers (n : nat) (k : RecordKind) (msg : bytes) : list Message :=
  replicate n None ++ [Some (k, msg)].

Lemma accept_all_length rs s ms s' :
  accept_all rs s = (Ok ms, s') -> length ms = length rs.
Proof.
  revert s ms. induction rs as [|r rs IH]; intros s ms Ha; cbn in Ha; m_inv Ha; [done|].
  cbn. f_equal. by eapply IH.
Qed.

Lemma answers_length n k msg : length (answers n k msg) = S n.
Proof. unfold answers. rewrite length_app, length_replicate. cbn. lia. Qed.

Lemma records_bytes_nonneg rs : 0 <= records_bytes rs.
Proof.
  induction rs as [|r rs IH]; [done|]. cbn [records_bytes foldr].
  fold (records_bytes rs). pose proof (len_nonneg (data r)). unfold RECORD_HEADER_LEN. lia.
Qed.

Lemma message_records_total k total first off rs :
  message_records k total first off rs -> off + len (concat (data <$> rs)) = total.
Proof.
  revert first off. induction rs as [|r rs IH]; intros first off Hm; [done|].
  destruct Hm as (_ & _ & _ & _ & _ & Hm). cbn [fmap list_fmap concat].
  autorewrite with len. destruct rs; [cbn; autorewrite with len; lia|].
  apply IH in Hm. lia.
Qed.

Lemma quota_cons s r rs s' :
  ra_records s' = ra_records s + 1 ->
  ra_bytes s' = ra_bytes s + (RECORD_HEADER_LEN + len (data r)) ->
  quota_all s (r :: rs) <-> quota s r /\ quota_all s' rs.
Proof.
  intros Hn Hb. unfold quota_all, quota. rewrite Hn, Hb, len_cons.
  cbn [records_bytes foldr]. fold (records_bytes rs).
  pose proof (len_nonneg rs). pose proof (records_bytes_nonneg rs). lia.
Qed.

Lemma after_cons s r rs s' :
  ra_records s' = ra_records s + 1 ->
  ra_bytes s' = ra_bytes s + (RECORD_HEADER_LEN + len (data r)) ->
  cap s' = cap s -> ra_failed s' = ra_failed s -> after rs s' = after (r :: rs) s.
Proof.
  intros Hn Hb Hc Hf. unfold after, with_active, with_usage. cbn.
  rewrite Hn, Hb, Hc, Hf, len_cons. fold (records_bytes rs). f_equal; lia.
Qed.

Lemma after_inv rs s : ra_inv s -> ra_inv (after rs s).
Proof.
  intros [[Hn Hb] _ _]. pose proof (records_bytes_nonneg rs). pose proof (len_nonneg rs).
  by split; cbn; [lia|..].
Qed.

Lemma quota_one s r : quota_all s [r] <-> quota s r.
Proof.
  unfold quota_all, quota. rewrite len_cons, len_nil. cbn [records_bytes foldr]. lia.
Qed.

Lemma after_one s r : after [r] s = with_active None (used s r).
Proof.
  unfold after, used, with_active, with_usage. cbn [records_bytes foldr cap active
    ra_records ra_bytes ra_failed]. rewrite len_cons, len_nil. f_equal; lia.
Qed.

(** One record, with and without an active message. *)
Lemma accept_active s r m s' k total assembled :
  ra_inv s -> ra_failed s = false -> active s = Some (k, total, assembled) ->
  accept r s = (Ok m, s') <->
  kind r = k /\ start r = false /\ offset r = len assembled /\ total_len r = 0 /\
  quota s r /\ len assembled + len (data r) <= total /\
  if end_ r
  then len assembled + len (data r) = total /\
       validate_control_record k (assembled ++ data r) = Ok tt /\
       m = Some (k, assembled ++ data r) /\ s' = with_active None (used s r)
  else m = None /\
       s' = with_active (Some (k, total, assembled ++ data r)) (used s r).
Proof.
  intros Hinv Hnf Hact. rewrite (accept_ok _ _ _ _ Hinv). split.
  - intros (_ & Hq & Ha). destruct Ha; simplify_eq; try congruence;
      match goal with He : end_ r = _ |- _ => rewrite He end; split_and!; done || lia.
  - intros (<- & Hs & Hoff & Htl & Hq & Hlen & Hr). split_and!; [done..|].
    destruct (end_ r) eqn:He; destruct_and! Hr; subst;
      [eapply accepts_last|eapply accepts_middle]; done.
Qed.

Lemma accept_idle s r m s' :
  ra_inv s -> ra_failed s = false -> active s = None ->
  accept r s = (Ok m, s') <->
  start r = true /\ offset r = 0 /\ total_len r <= cap s /\ quota s r /\
  len (data r) <= total_len r /\
  if end_ r
  then len (data r) = total_len r /\
       validate_control_record (kind r) (data r) = Ok tt /\
       m = Some (kind r, data r) /\ s' = used s r
  else total_len r <> 0 /\ m = None /\
       s' = with_active (Some (kind r, total_len r, data r)) (used s r).
Proof.
  intros Hinv Hnf Hact. rewrite (accept_ok _ _ _ _ Hinv). split.
  - intros (_ & Hq & Ha). destruct Ha; simplify_eq; try congruence;
      match goal with He : end_ r = _ |- _ => rewrite He end; split_and!; done || lia.
  - intros (Hs & Hoff & Hcap & Hq & Hlen & Hr). split_and!; [done..|].
    destruct (end_ r) eqn:He; destruct_and! Hr; subst;
      [eapply accepts_single|eapply accepts_first]; done.
Qed.

Lemma accept_all_cons s r rs n k msg s' :
  accept_all (r :: rs) s = (Ok (answers n k msg), s') <->
  match n with
  | O => rs = [] /\ accept r s = (Ok (Some (k, msg)), s')
  | S n => exists s1, accept r s = (Ok None, s1) /\
                      accept_all rs s1 = (Ok (answers n k msg), s')
  end.
Proof.
  cbn [accept_all]. rewrite mbind_M_ok. split.
  - intros (m & s1 & Ha & Hr). m_inv Hr. destruct n as [|n]; cbn in Hr; simplify_eq.
    + pose proof (accept_all_length _ _ _ _ Hm). destruct rs; [|done].
      cbn in Hm. unfold ret in Hm. by simplify_eq.
    + exists s1. done.
  - destruct n as [|n].
    + intros [-> Ha]. by exists (Some (k, msg)), s'.
    + intros (s1 & Ha & Hr). exists None, s1. split; [done|].
      by rewrite (mbind_M_step _ _ _ _ _ Hr).
Qed.

Lemma active_inv s r k total a :
  ra_inv s -> ra_failed s = false -> 1 <= total <= cap s -> total <= U32_MAX ->
  len a <= total -> ra_inv (with_active (Some (k, total, a)) (used s r)).
Proof.
  intros [[? ?] _ _] Hf ? ? ?. pose proof (len_nonneg (data r)).
  split; cbn; [unfold RECORD_HEADER_LEN; lia| |congruence].
  intros k' t a' ?. by simplify_eq.
Qed.

(** The rest of a message already begun. *)
Lemma accept_all_rest rs s n k msg k' total assembled s' :
  ra_inv s -> ra_failed s = false -> active s = Some (k, total, assembled) ->
  Forall record_wf rs ->
  accept_all rs s = (Ok (answers n k' msg), s') <->
  k' = k /\ length rs = S n /\ message_records k total false (len assembled) rs /\
  msg = assembled ++ concat (data <$> rs) /\ validate_control_record k msg = Ok tt /\
  quota_all s rs /\ s' = after rs s.
Proof.
  revert s n assembled s'. induction rs as [|r rs IH];
    intros s n assembled s' Hinv Hnf Hact Hwf.
  { split; [|naive_solver]. intros [= Ha _]. by destruct n. }
  inversion_clear Hwf as [|? ? Hwr Hwrs]. rewrite accept_all_cons.
  destruct n as [|n].
  - rewrite (accept_active _ _ _ _ _ _ _ Hinv Hnf Hact). split.
    + intros (-> & Hk & Hs & Hoff & Htl & Hq & Hlen & Hr).
      destruct (end_ r) eqn:He; destruct_and! Hr; [|done]. simplify_eq.
      cbn [message_records fmap list_fmap concat length is_empty].
      rewrite app_nil_r, quota_one, after_one. done.
    + intros (-> & Hlen & Hm & -> & Hv & Hq & ->). destruct rs; [|done].
      destruct Hm as (-> & Hs & Hoff & Htl & -> & Hl). cbn in Hv |- *.
      rewrite app_nil_r, quota_one, after_one in *. split_and!; done || lia.
  - setoid_rewrite (accept_active _ _ _ _ _ _ _ Hinv Hnf Hact).
    pose proof (ra_active_fits _ Hinv _ _ _ Hact) as (Hcap & Hmax & _). split.
    + intros (s1 & (Hk & Hs & Hoff & Htl & Hq & Hlen & Hr) & Ha).
      destruct (end_ r) eqn:He; destruct_and! Hr; [done|]. subst s1.
      rewrite (IH _ _ (assembled ++ data r)) in Ha;
        [|apply active_inv; autorewrite with len; done|done..].
      destruct Ha as (-> & Hl & Hm & -> & Hv & Hqs & ->).
      destruct rs as [|r' rs]; [done|]. autorewrite with len in Hm.
      rewrite (after_cons s r (r' :: rs)) by done.
      rewrite (quota_cons s r (r' :: rs)
        (with_active (Some (k, total, assembled ++ data r)) (used s r))) by done.
      cbn [message_records fmap list_fmap concat length is_empty].
      rewrite <- app_assoc in *. split_and!; try done; first [by f_equal|by destruct Hm as (? & ? & ? & ? & ? & ?)].
    + intros (-> & Hlen & Hm & -> & Hv & Hq & ->). destruct rs as [|r' rs]; [done|].
      pose proof (message_records_total _ _ _ _ _ Hm) as Htot.
      destruct Hm as (<- & Hs & Hoff & Htl & -> & Hl). cbn [is_empty].
      cbn [fmap list_fmap concat] in *. autorewrite with len in Htot.
      pose proof (len_nonneg (concat (data <$> rs))). pose proof (len_nonneg (data r')).
      eexists. split; [split_and!; try done|].
      * by apply (quota_cons s r (r' :: rs) (used s r)) in Hq as [? _].
      * autorewrite with len in Htot. lia.
      * rewrite <- (after_cons s r (r' :: rs)
          (with_active (Some (kind r, total, assembled ++ data r)) (used s r))) by done.
        apply (IH _ _ (assembled ++ data r)); try done.
        { apply active_inv; autorewrite with len; try done; lia. }
        autorewrite with len. rewrite <- app_assoc.
        apply (quota_cons s r (r' :: rs) (with_active
          (Some (kind r, total, assembled ++ data r)) (used s r))) in Hq as [_ ?]; [|done..].
        refine (conj _ (conj _ (conj _ _))); [done|cbn in *; lia|done..].
Qed.

Lemma used_idle s r : active s = None -> used s r = after [r] s.
Proof. intros Ha. rewrite after_one. unfold used, with_active, with_usage. cbn. by rewrite Ha. Qed.

Lemma reassembly_one r rs s k msg s' :
  ra_inv s -> ra_failed s = false -> active s = None -> record_wf r ->
  (rs = [] /\ accept r s = (Ok (Some (k, msg)), s')) <->
  length (r :: rs) = S 0 /\ message_records k (len msg) true 0 (r :: rs) /\
  concat (data <$> (r :: rs)) = msg /\ len msg <= cap s /\ (msg = [] -> 0%nat = 0%nat) /\
  validate_control_record k msg = Ok tt /\ quota_all s (r :: rs) /\
  s' = after (r :: rs) s.
Proof.
  intros Hinv Hnf Hidle [Htl _].
  rewrite (accept_idle _ _ _ _ Hinv Hnf Hidle). split.
  - intros (-> & Hs & Hoff & Hcap & Hq & Hlen & Hr).
    destruct (end_ r) eqn:He; destruct_and! Hr; [|done]. simplify_eq.
    cbn [message_records fmap list_fmap concat length is_empty].
    rewrite app_nil_r, quota_one, (used_idle _ _ Hidle). split_and!; done || lia.
  - intros (Hlen & Hm & <- & Hcap & _ & Hv & Hq & ->). destruct rs; [|done].
    destruct Hm as (-> & Hs & Hoff & Htl' & -> & Hl). cbn in Hv, Htl', Hcap |- *.
    rewrite app_nil_r, quota_one in *. rewrite (used_idle _ _ Hidle).
    split_and!; done || lia.
Qed.

Lemma reassembly_more r rs s n k msg s' :
  ra_inv s -> ra_failed s = false -> active s = None -> Forall record_wf (r :: rs) ->
  (exists s1, accept r s = (Ok None, s1) /\
              accept_all rs s1 = (Ok (answers n k msg), s')) <->
  length (r :: rs) = S (S n) /\ message_records k (len msg) true 0 (r :: rs) /\
  concat (data <$> (r :: rs)) = msg /\ len msg <= cap s /\ (msg = [] -> S n = 0%nat) /\
  validate_control_record k msg = Ok tt /\ quota_all s (r :: rs) /\
  s' = after (r :: rs) s.
Proof.
  intros Hinv Hnf Hidle Hwf. inversion_clear Hwf as [|? ? [Htl _] Hwrs].
  setoid_rewrite (accept_idle _ _ _ _ Hinv Hnf Hidle). split.
  - intros (s1 & (Hs & Hoff & Hcap & Hq & Hlen & Hr) & Ha).
    destruct (end_ r) eqn:He; destruct_and! Hr; [done|]. subst s1.
    rewrite (accept_all_rest _ _ _ (kind r) _ _ (total_len r) (data r)) in Ha;
      [|apply active_inv; lia || done|done..].
    destruct Ha as (-> & Hl & Hm & -> & Hv & Hqs & ->).
    destruct rs as [|r' rs]; [done|].
    rewrite (after_cons s r (r' :: rs)) by done.
    rewrite (quota_cons s r (r' :: rs)
      (with_active (Some (kind r, total_len r, data r)) (used s r))) by done.
    pose proof (message_records_total _ _ _ _ _ Hm) as Htot.
    cbn [message_records fmap list_fmap concat length is_empty] in *.
    autorewrite with len in *. rewrite Htot.
    refine (conj _ (conj (conj _ (conj _ (conj _ (conj _ (conj _ _)))))
      (conj _ (conj _ (conj _ (conj _ (conj _ _))))))); try done; [by f_equal|].
    intros Hnil. assert (Hz : len (data r ++ data r' ++ concat (data <$> rs)) = 0)
      by (by rewrite Hnil). autorewrite with len in Hz. lia.
  - intros (Hlen & Hm & <- & Hcap & Hne & Hv & Hq & ->).
    destruct rs as [|r' rs]; [done|].
    destruct Hm as (<- & Hs & Hoff & Htl' & -> & Hl). cbn [is_empty].
    cbn [fmap list_fmap concat] in *. autorewrite with len in *.
    pose proof (len_nonneg (concat (data <$> rs))). pose proof (len_nonneg (data r')).
    assert (Hpos : total_len r <> 0).
    { intros Hz. discriminate Hne. apply len_0. autorewrite with len. lia. }
    apply (quota_cons s r (r' :: rs) (with_active
      (Some (kind r, total_len r, data r)) (used s r))) in Hq as [Hq1 Hq]; [|done..].
    eexists. split; [split_and!; done || lia|].
    rewrite <- (after_cons s r (r' :: rs)
      (with_active (Some (kind r, total_len r, data r)) (used s r))) by done.
    apply (accept_all_rest _ _ _ (kind r) _ _ (total_len r) (data r)); try done.
    { apply active_inv; try done; lia. }
    rewrite Htl'. refine (conj _ (conj _ (conj _ _))); [done|cbn in *; lia|done..].
Qed.

(** What a whole message is, exactly. *)
Lemma accept_all_exact rs s n k msg s'
    (Hinv : ra_inv s) (Hnf : ra_failed s = false) (Hidle : active s = None)
    (Hwf : Forall record_wf rs) :
  accept_all rs s = (Ok (answers n k msg), s') <->
  length rs = S n /\ message_records k (len msg) true 0 rs /\
  concat (data <$> rs) = msg /\ len msg <= cap s /\ (msg = [] -> n = 0%nat) /\
  validate_control_record k msg = Ok tt /\ quota_all s rs /\ s' = after rs s.
Proof.
  destruct rs as [|r rs]; [split; [|naive_solver]; intros [= Ha _]; by destruct n|].
  rewrite accept_all_cons. destruct n; [|by apply reassembly_more].
  inversion_clear Hwf. by apply reassembly_one.
Qed.

(** C12: an idle reassembler that is fed [n + 1] records answers nothing [n] times and
    then the message [(k, msg)] exactly when the records are the fragments of [msg] in
    order (one kind, consecutive offsets, flags and total where they belong), [msg] fits
    the cap and the counters, and a Close body parses; it is then idle again.  So no
    message is delivered early, late, truncated, interleaved or over the cap. *)
Theorem reassembly_exact rs s n k msg s'
    (Hinv : ra_inv s) (Hnf : ra_failed s = false) (Hidle : active s = None)
    (Hwf : Forall record_wf rs) :
  accept_all rs s = (Ok (answers n k msg), s') <->
  length rs = S n /\ message_records k (len msg) true 0 rs /\
  concat (data <$> rs) = msg /\ len msg <= cap s /\ (msg = [] -> n = 0%nat) /\
  validate_control_record k msg = Ok tt /\ quota_all s rs /\ s' = after rs s.
Proof. by apply accept_all_exact. Qed.
End Messages.

(** ** Fragmentation is undone by reassembly *)

Section Roundtrip.
Context `{Minicbor}.

Lemma fragments_message k total off cs :
  chunked RECORD_DATA_MAX cs -> cs <> [] -> 0 <= off ->
  off + len (concat cs) = total ->
  message_records k total (off =? 0) off (fragments_from k total off cs).
Proof.
  revert off. induction cs as [|c cs IH]; intros off Hch Hne Hoff Htot; [done|].
  apply chunked_cons in Hch as (Hc & _ & Hch); [|unfold RECORD_DATA_MAX; lia].
  cbn [concat] in Htot. autorewrite with len in Htot. pose proof (len_nonneg (concat cs)).
  cbn [fragments_from message_records kind start offset total_len end_ data].
  destruct cs as [|c' cs].
  - cbn in *. autorewrite with len in Htot. split_and!; try done; lia.
  - pose proof Hch as Hch'. apply chunked_cons in Hch' as (Hc' & _ & _);
      [|unfold RECORD_DATA_MAX; lia].
    cbn [concat] in Htot. autorewrite with len in Htot. pose proof (len_nonneg (concat cs)).
    specialize (IH (off + len c) Hch ltac:(done) ltac:(lia)).
    cbn [concat] in IH. autorewrite with len in IH. specialize (IH ltac:(lia)).
    replace (off + len c =? 0) with false in IH by lia.
    refine (conj _ (conj _ (conj _ (conj _ (conj _ _))))); try done; cbn; lia.
Qed.

Lemma fragments_from_data k total off cs : data <$> fragments_from k total off cs = cs.
Proof. revert off. induction cs as [|c cs IH]; intros; cbn; [done|by f_equal]. Qed.

Lemma fragments_from_wf k total off cs :
  0 <= total <= U32_MAX -> 0 <= off -> off + len (concat cs) <= U32_MAX ->
  Forall record_wf (fragments_from k total off cs).
Proof.
  intros Ht. revert off. induction cs as [|c cs IH]; intros off Ho Hc; constructor;
    cbn [concat] in Hc; autorewrite with len in Hc;
    pose proof (len_nonneg c); pose proof (len_nonneg (concat cs)).
  - split; cbn; [destruct (off =? 0); unfold U32_MAX in *|]; lia.
  - apply IH; lia.
Qed.

Lemma fragments_from_bytes k total off cs parts :
  map len (parts : list bytes) = map (fun c => 12 + len c) cs ->
  records_bytes (fragments_from k total off cs) = len (concat parts) /\
  length (fragments_from k total off cs) = length parts.
Proof.
  revert off parts. induction cs as [|c cs IH]; intros off [|p parts] Hl; try done.
  injection Hl as Hp Hl. destruct (IH (off + len c) parts Hl) as [Hb Hn].
  cbn [records_bytes foldr fragments_from concat length data]. autorewrite with len.
  fold (records_bytes (fragments_from k total (off + len c) cs)).
  unfold RECORD_HEADER_LEN. split; [lia|by f_equal].
Qed.

Lemma fragments_from_kind k total off cs :
  Forall (fun r => kind r = k) (fragments_from k total off cs).
Proof. revert off. induction cs as [|c cs IH]; intros off; constructor; [done|apply IH]. Qed.

(** The records of a payload, decoded, are accepted by an idle reassembler. *)
Lemma fragments_accepted k payload parts s
    (Hinv : ra_inv s) (Hnf : ra_failed s = false) (Hidle : active s = None)
    (Hf : fragment_records k payload = Ok parts) (Hcap : len payload <= cap s)
    (Hv : validate_control_record k payload = Ok tt)
    (Hrec : ra_records s + len parts < RECORD_LIMIT)
    (Hbytes : ra_bytes s + len (concat parts) < BYTE_LIMIT) :
  exists rs, Forall2 (fun l r => Record_decode l = Ok r) parts rs /\
    Forall (fun r => kind r = k) rs /\
    accept_all rs s = (Ok (answers (pred (length parts)) k payload), after rs s) /\
    len rs = len parts /\ records_bytes rs = len (concat parts).
Proof.
  assert (Hlen : 0 < len payload <= U32_MAX).
  { unfold fragment_records in Hf. res_inv Hf. bool_split. lia. }
  destruct (fragment_records_ok k payload Hlen) as (parts' & Hf' & Hch & Hcat & He & Hl).
  set (cs := chunks _ _) in *. assert (parts' = parts) as -> by congruence.
  assert (Hne : cs <> []) by (intros Hnil; rewrite Hnil in Hcat; by subst payload).
  exists (fragments_from k (len payload) 0 cs).
  pose proof (fragments_from_wf k (len payload) 0 cs ltac:(lia) ltac:(lia)
    ltac:(rewrite Hcat; lia)) as Hwf.
  destruct (fragments_from_bytes k (len payload) 0 cs parts Hl) as [Hb Hn].
  assert (Hpos : length parts <> 0%nat) by (rewrite <- Hn; by destruct cs).
  assert (Hnl : len (fragments_from k (len payload) 0 cs) = len parts)
    by exact (f_equal Z.of_nat Hn).
  split_and!; [| | |done|done].
  - clear -He Hwf. induction He as [|r l rs ls Hrl _ IH]; inversion_clear Hwf;
      constructor; [by apply record_decode_encode|by apply IH].
  - apply fragments_from_kind.
  - apply accept_all_exact; try done. split_and!; try done.
    + lia.
    + apply (fragments_message k (len payload) 0 cs); try done; rewrite Hcat; lia.
    + by rewrite fragments_from_data.
    + intros Hnil. apply len_0 in Hnil. lia.
    + unfold quota_all. by rewrite Hnl, Hb.
Qed.

(** C18: fragmenting then reassembling is the identity: the wire records of a payload,
    decoded and fed in order to an idle reassembler whose cap and counters have room,
    answer nothing until the last one answers the whole payload, and leave it idle. *)
Theorem fragments_reassemble k payload parts s
    (Hinv : ra_inv s) (Hnf : ra_failed s = false) (Hidle : active s = None)
    (Hf : fragment_records k payload = Ok parts) (Hcap : len payload <= cap s)
    (Hv : validate_control_record k payload = Ok tt)
    (Hrec : ra_records s + len parts < RECORD_LIMIT)
    (Hbytes : ra_bytes s + len (concat parts) < BYTE_LIMIT) :
  exists rs, Forall2 (fun l r => Record_decode l = Ok r) parts rs /\
    accept_all rs s = (Ok (answers (pred (length parts)) k payload), after rs s).
Proof.
  destruct (fragments_accepted k payload parts s) as (rs & ? & _ & ? & _); try done.
  by exists rs.
Qed.
End Roundtrip.

(** ** Failing closed, and the turn *)

Section Closed.
Context `{Minicbor}.

(** Every call on a failed reassembler, or an error of one on an open one. *)
Inductive RaOp := OpAccept (r : WireRecord) | OpEof | OpSetCap (c : Z).
Definition ra_step (o : RaOp) (s : RecordReassembler) : bool * RecordReassembler :=
  match o with
  | OpAccept r => let '(x, s') := accept r s in (is_ok x, s')
  | OpEof => let '(x, s') := ra_eof s in (is_ok x, s')
  | OpSetCap c => let '(x, s') := set_cap c s in (is_ok x, s')
  end.

Lemma failed_absorbing o s : ra_failed s = true -> ra_step o s = (false, s).
Proof.
  intros Hf. destruct o; unfold ra_step, accept, ra_eof, set_cap; by rewrite Hf.
Qed.

(** A reassembler fails closed: a record it refuses leaves it holding no bytes, and
    from then on every record, end-of-stream and cap change is refused and changes
    nothing. *)
Theorem reassembler_fails_closed r s e s' ops
    (Hinv : ra_inv s) (He : accept r s = (Err e, s')) :
  active s' = None /\
  foldl (fun '(oks, t) o => let '(ok, t') := ra_step o t in (oks ++ [ok], t'))
    ([], s') ops = (replicate (length ops) false, s').
Proof.
  destruct (accept_err _ _ _ _ He) as (Hf & Hopen & Hsame). split.
  - destruct (ra_failed s) eqn:Hfs; [|by apply Hopen].
    rewrite (Hsame eq_refl). by apply ra_failed_empty.
  - induction ops as [|o ops IH] using rev_ind; [done|].
    rewrite foldl_app, IH. cbn. rewrite (failed_absorbing _ _ Hf), length_app.
    cbn. by rewrite Nat.add_1_r, replicate_S_end.
Qed.

(** The turn alternates: a peer record is accepted only on the peer's turn, which ends
    with the record that completes a message and at no other; a local message is accepted
    only on the local turn, which it ends. *)
Theorem half_duplex_alternates r t s :
  (accept_peer_record r (Local, s) = (err SequenceViolation, (Local, s))) /\
  (fst (snd (accept_peer_record r (t, s))) <> t <->
     exists m, t = Peer /\ fst (accept_peer_record r (t, s)) = Ok (Some m)) /\
  (local_message_sent Local = (Ok tt, Peer)) /\
  (local_message_sent Peer = (err SequenceViolation, Peer)).
Proof.
  split_and!; try done. unfold accept_peer_record.
  destruct t; cbn; [naive_solver|].
  destruct (accept r s) as [[[m|]|e] s']; cbn; naive_solver.
Qed.
End Closed.

(** *** Concrete inputs *)

Definition ex_reassembler : RecordReassembler :=
  {| cap := 65536; active := None; ra_records := 3; ra_bytes := 100; ra_failed := false |}.

Lemma ex_reassembler_inv : ra_inv ex_reassembler.
Proof. by split. Qed.

Definition ex_payload : bytes := repeat x2a 40.
Definition ex_fragments : list bytes :=
  match fragment_records Application ex_payload with Ok l => l | Err _ => [] end.

Lemma fragments_reassemble_witness :
  exists rs, Forall2 (fun l r => Record_decode l = Ok r) ex_fragments rs /\
    accept_all rs ex_reassembler
    = (Ok (answers 0 Application ex_payload), after rs ex_reassembler).
Proof.
  apply (fragments_reassemble Application ex_payload ex_fragments ex_reassembler).
  - exact ex_reassembler_inv.
  - reflexivity.
  - reflexivity.
  - vm_compute. reflexivity.
  - vm_compute. discriminate.
  - reflexivity.
  - vm_compute. reflexivity.
  - vm_compute. reflexivity.
Defined.

Definition ex_records : list WireRecord :=
  [ {| kind := Application; start := true; end_ := false; total_len := 3; offset := 0;
       data := [x01; x02] |};
    {| kind := Application; start := false; end_ := true; total_len := 0; offset := 2;
       data := [x03] |} ].

Lemma reassembly_exact_witness :
  accept_all ex_records ex_reassembler
  = (Ok (answers 1 Application [x01; x02; x03]), after ex_records ex_reassembler).
Proof.
  apply (reassembly_exact ex_records ex_reassembler 1 Application [x01; x02; x03]).
  - exact ex_reassembler_inv.
  - reflexivity.
  - reflexivity.
  - repeat constructor; vm_compute; discriminate.
  - vm_compute. repeat split; try reflexivity; discriminate.
Defined.

(** The second fragment alone is refused, and the reassembler stays closed. *)
Lemma reassembler_fails_closed_witness :
  let s' := snd (accept (nth 1 ex_records (mkRecord Close false false 0 0 []))
                   ex_reassembler) in
  active s' = None /\
  foldl (fun '(oks, t) o => let '(ok, t') := ra_step o t in (oks ++ [ok], t'))
    ([], s') [OpEof; OpSetCap 4] = (replicate 2 false, s').
Proof.
  apply (reassembler_fails_closed
           (nth 1 ex_records (mkRecord Close false false 0 0 []))
           ex_reassembler (Error_new SequenceViolation) _ [OpEof; OpSetCap 4]).
  - exact ex_reassembler_inv.
  - vm_compute. reflexivity.
Defined.
