(* ===== verification/NoiseIO.v ===== *)
(** Noise messages in outer envelopes: the four helpers of [crypto-core/src/lib.rs] that
    drive a [snow] state, and what they do on two linked ends. *)

From S2P Require Import Prelude Errors Crates Outer.

Section NoiseIO.
Context `{Snow}.

(** [SnowResultExt::core]: a [snow::Error] is [AuthenticationFailed]. *)
Definition core {A} (o : option A) : Res A :=
  res_of_option (Error_new AuthenticationFailed) o.

Definition write_handshake (payload : bytes) : M HandshakeState Error bytes := fun h =>
  let '(o, h') := hs_write_message h payload OUTER_MAX in
  (let? m := core o in encode_outer m, h').

Definition read_handshake_mut (outer : bytes) : M HandshakeState Error bytes := fun h =>
  match one_outer outer with
  | Ok payload => let '(o, h') := hs_read_message h payload OUTER_MAX in (core o, h')
  | Err e => (Err e, h)
  end.

Definition encrypt_transport (plaintext : bytes) : M TransportState Error bytes := fun t =>
  let '(o, t') := ts_write_message t plaintext (len plaintext + 16) in
  (let? c := core o in encode_outer c, t').

Definition decrypt_transport (outer : bytes) : M TransportState Error bytes := fun t =>
  match one_outer outer with
  | Ok c => let '(o, t') := ts_read_message t c (len c) in (core o, t')
  | Err e => (Err e, t)
  end.
End NoiseIO.

(** The largest plaintext of a transport message: a Noise message less its tag. *)
Definition PLAINTEXT_MAX : Z := 65519.

Section Linked.
Context `{SnowLaws}.

(** One message from a linked end to the other. *)
Lemma transport_delivers k a b p :
  linked k a b -> 0 < k -> len p <= PLAINTEXT_MAX ->
  exists f a' b',
    encrypt_transport p a = (Ok f, a') /\ decrypt_transport f b = (Ok p, b') /\
    linked (k - 1) a' b'.
Proof.
  intros Hl Hk Hp. unfold PLAINTEXT_MAX in Hp. pose proof (len_nonneg p).
  destruct (linked_send k a b p Hl Hk) as (c & a' & b' & Hw & Hc & Hr & Hl').
  { unfold NOISE_MAX. lia. }
  assert (Hf : encode_outer c = Ok (be_encode 2 (len c) ++ c)).
  { apply encode_outer_ok. unfold OUTER_MAX. split; [lia|done]. }
  exists (be_encode 2 (len c) ++ c), a', b'. split_and!; [| |done].
  - unfold encrypt_transport. rewrite Hw. cbn. by rewrite Hf.
  - unfold decrypt_transport. apply one_outer_ok in Hf as ->. by rewrite Hr.
Qed.
End Linked.

(** The two messages of a handshake, in their envelopes. *)
Lemma handshake_delivers `{Snow} i r p1 p2 :
  handshake_completes i r -> len p1 <= 65000 -> len p2 <= 65000 ->
  exists f1 i1 r1 f2 i2 r2 ti tr,
    write_handshake p1 i = (Ok f1, i1) /\
    read_handshake_mut f1 r = (Ok p1, r1) /\
    write_handshake p2 r1 = (Ok f2, r2) /\
    read_handshake_mut f2 i1 = (Ok p2, i2) /\
    get_handshake_hash i2 = get_handshake_hash r2 /\
    len (get_handshake_hash i2) = 32 /\
    into_transport_mode i2 = Some ti /\ into_transport_mode r2 = Some tr /\
    linked NONCES ti tr.
Proof.
  intros Hh H1 H2. destruct (Hh p1 p2) as (m1 & i1 & r1 & m2 & i2 & r2 & ti & tr & Hw1 & Hm1
    & Hr1 & Hw2 & Hm2 & Hr2 & Hhash & Hlen & Hti & Htr & Hlink);
    [unfold NOISE_MAX; lia..|].
  change NOISE_MAX with OUTER_MAX in *.
  assert (He : forall m, 1 <= len m <= OUTER_MAX ->
    encode_outer m = Ok (be_encode 2 (len m) ++ m)) by (intros; by apply encode_outer_ok).
  exists (be_encode 2 (len m1) ++ m1), i1, r1, (be_encode 2 (len m2) ++ m2), i2, r2, ti, tr.
  unfold write_handshake, read_handshake_mut.
  assert (Ho : forall m, 1 <= len m <= OUTER_MAX ->
    one_outer (be_encode 2 (len m) ++ m) = Ok m)
    by (intros; apply one_outer_ok; by apply He).
  rewrite !Ho, Hw1, Hr1, Hw2, Hr2 by done. cbn. rewrite !He by done. done.
Qed.
