(* ===== verification/Lease.v ===== *)
(** The post-acknowledgement lease-control connection ([LeaseCore],
    [TargetLeaseConnection], [BrokerLeaseConnection] of [crypto-core/src/lib.rs]):
    heartbeats and an authenticated Close over one NK transport. *)

From S2P Require Import Prelude Errors Crates CratesRef Cbor Outer Records Payloads NoiseIO.

Section Core.
Context `{Minicbor} `{Snow}.

(** The counters are [u64]s. *)
Record LeaseCore := mkLease {
  l_transport : option TransportState;
  l_binding : LeaseBinding;
  l_closed : bool;
  l_sent_records : Z;
  l_sent_plaintext : Z;
  l_received_records : Z;
  l_received_plaintext : Z;
  pending_heartbeat : option Z;
  last_heartbeat : Z
}.

Definition LeaseCore_new (t : TransportState) (b : LeaseBinding) (sr sp rr rp : Z)
    : LeaseCore :=
  {| l_transport := Some t; l_binding := b; l_closed := false; l_sent_records := sr;
     l_sent_plaintext := sp; l_received_records := rr; l_received_plaintext := rp;
     pending_heartbeat := None; last_heartbeat := 0 |}.

Definition l_set_transport (t : option TransportState) (s : LeaseCore) : LeaseCore :=
  {| l_transport := t; l_binding := l_binding s; l_closed := l_closed s;
     l_sent_records := l_sent_records s; l_sent_plaintext := l_sent_plaintext s;
     l_received_records := l_received_records s;
     l_received_plaintext := l_received_plaintext s;
     pending_heartbeat := pending_heartbeat s; last_heartbeat := last_heartbeat s |}.
Definition l_set_sent (r p : Z) (s : LeaseCore) : LeaseCore :=
  {| l_transport := l_transport s; l_binding := l_binding s; l_closed := l_closed s;
     l_sent_records := r; l_sent_plaintext := p;
     l_received_records := l_received_records s;
     l_received_plaintext := l_received_plaintext s;
     pending_heartbeat := pending_heartbeat s; last_heartbeat := last_heartbeat s |}.
Definition l_set_received (r p : Z) (s : LeaseCore) : LeaseCore :=
  {| l_transport := l_transport s; l_binding := l_binding s; l_closed := l_closed s;
     l_sent_records := l_sent_records s; l_sent_plaintext := l_sent_plaintext s;
     l_received_records := r; l_received_plaintext := p;
     pending_heartbeat := pending_heartbeat s; last_heartbeat := last_heartbeat s |}.
Definition l_set_heartbeat (p : option Z) (last : Z) (s : LeaseCore) : LeaseCore :=
  {| l_transport := l_transport s; l_binding := l_binding s; l_closed := l_closed s;
     l_sent_records := l_sent_records s; l_sent_plaintext := l_sent_plaintext s;
     l_received_records := l_received_records s;
     l_received_plaintext := l_received_plaintext s;
     pending_heartbeat := p; last_heartbeat := last |}.

Definition L := M LeaseCore Error.

Definition close_state (s : LeaseCore) : LeaseCore :=
  {| l_transport := None; l_binding := l_binding s; l_closed := true;
     l_sent_records := l_sent_records s; l_sent_plaintext := l_sent_plaintext s;
     l_received_records := l_received_records s;
     l_received_plaintext := l_received_plaintext s;
     pending_heartbeat := pending_heartbeat s; last_heartbeat := last_heartbeat s |}.

Definition finish_result {A} (m : L A) : L A := fun s =>
  match m s with
  | (Err e, s') => (Err e, close_state s')
  | (Ok a, s') => (Ok a, s')
  end.

(** [f(self.transport()?)]. *)
Definition on_transport {A} (f : M TransportState Error A) : L A := fun s =>
  if l_closed s then (err SequenceViolation, s)
  else match l_transport s with
       | None => (err SequenceViolation, s)
       | Some t => let '(r, t') := f t in (r, l_set_transport (Some t') s)
       end.

Definition over_records (o : option Z) : bool := is_none_or (fun n => RECORD_LIMIT <=? n) o.
Definition over_bytes (o : option Z) : bool := is_none_or (fun n => BYTE_LIMIT <=? n) o.

(** Encrypts [plaintext] and books it; the usage was computed by the caller and both
    sums are [Some] on the path that gets here. *)
Definition send_booked (plaintext : bytes) (records bytes_ : option Z) : L bytes :=
  do frame <- on_transport (encrypt_transport plaintext);
  run modify (fun s => l_set_sent (default 0 records) (default 0 bytes_) s);
  ret frame.

(** The closure of [limit_error]: the one Close frame, if the counters have room. *)
Definition limit_close : L bytes :=
  do plaintext <- lift (limit_close_plaintext NotHandedOff);
  do s <- get;
  let next_records := checked_add (l_sent_records s) 1 in
  let next_bytes := checked_add (l_sent_plaintext s) (len plaintext) in
  if over_records next_records || over_bytes next_bytes
  then throw (Error_new RecordLimit)
  else send_booked plaintext next_records next_bytes.

Definition limit_error (s : LeaseCore) : Error * LeaseCore :=
  let '(r, s') := limit_close s in
  (Error_record_limit (match r with Ok f => Some f | Err _ => None end), close_state s').

Definition throw_limit {A} : L A := fun s => let '(e, s') := limit_error s in (Err e, s').

Definition write_record (k : RecordKind) (data : bytes) : L bytes :=
  do record <- lift (complete_record k data);
  do plaintext <- lift (Record_encode record);
  do s <- get;
  let next_records := checked_add (l_sent_records s) 1 in
  let next_bytes := checked_add (l_sent_plaintext s) (len plaintext) in
  do close <- lift (limit_close_plaintext NotHandedOff);
  let limit_reached :=
    if bool_decide (k = Close)
    then over_records next_records || over_bytes next_bytes
    else over_records (next_records ≫= (fun r => checked_add r 1))
         || over_bytes (next_bytes ≫= (fun b => checked_add b (len close))) in
  if limit_reached then throw_limit
  else send_booked plaintext next_records next_bytes.

Definition decrypt_counted (outer : bytes) : L bytes :=
  do plaintext <- on_transport (decrypt_transport outer);
  do s <- get;
  let next_records := checked_add (l_received_records s) 1 in
  let next_bytes := checked_add (l_received_plaintext s) (len plaintext) in
  if over_records next_records || over_bytes next_bytes then throw_limit
  else run modify (l_set_received (default 0 next_records) (default 0 next_bytes));
       ret plaintext.

Definition write_heartbeat (role counter : Z) : L bytes :=
  do s <- get;
  do payload <- lift (heartbeat_payload role (l_binding s) counter);
  write_record Heartbeat payload.

Definition read_heartbeat (outer : bytes) (role : Z) : L Z :=
  do plaintext <- decrypt_counted outer;
  do record <- lift (Record_decode plaintext);
  if bool_decide (kind record = Close)
  then run lift (validate_complete_record record Close);
       do ' (reason, handoff) <- lift (parse_close (data record));
       throw (Error_peer_close reason handoff)
  else run lift (validate_complete_record record Heartbeat);
       do s <- get;
       lift (parse_heartbeat (data record) role (l_binding s)).

Definition core_write_close (reason : CloseReason) (handoff : HandoffState) : L bytes :=
  do payload <- lift (close_payload reason handoff);
  do frame <- write_record Close payload;
  run modify close_state;
  ret frame.

Definition core_read_close (outer : bytes) : L (CloseReason * HandoffState) :=
  do plaintext <- decrypt_counted outer;
  do record <- lift (Record_decode plaintext);
  run lift (validate_complete_record record Close);
  do close <- lift (parse_close (data record));
  run modify close_state;
  ret close.

(** ** The two roles *)

Definition lease_write_close (reason : CloseReason) (handoff : HandoffState) : L bytes :=
  finish_result (core_write_close reason handoff).
Definition lease_read_close (outer : bytes) : L (CloseReason * HandoffState) :=
  finish_result (core_read_close outer).

Definition read_heartbeat_request (outer : bytes) : L Z := finish_result (
  do s <- get;
  run lift (ensure (negb (is_Some_b (pending_heartbeat s))) (Error_new SequenceViolation));
  do counter <- read_heartbeat outer 1;
  do s <- get;
  run lift (ensure (negb (counter <=? last_heartbeat s)) (Error_new SequenceViolation));
  run modify (fun s => l_set_heartbeat (Some counter) (last_heartbeat s) s);
  ret counter).

Definition write_heartbeat_reply (counter : Z) : L bytes := finish_result (
  do s <- get;
  run lift (ensure (bool_decide (pending_heartbeat s = Some counter))
              (Error_new SequenceViolation));
  do frame <- write_heartbeat 2 counter;
  run modify (l_set_heartbeat None counter);
  ret frame).

Definition write_heartbeat_request (counter : Z) : L bytes := finish_result (
  do s <- get;
  run lift (ensure (negb (is_Some_b (pending_heartbeat s)
                          || (counter <=? last_heartbeat s))) (Error_new SequenceViolation));
  do frame <- write_heartbeat 1 counter;
  run modify (fun s => l_set_heartbeat (Some counter) (last_heartbeat s) s);
  ret frame).

Definition read_heartbeat_reply (outer : bytes) : L Z := finish_result (
  do counter <- read_heartbeat outer 2;
  do s <- get;
  run lift (ensure (bool_decide (pending_heartbeat s = Some counter))
              (Error_new SequenceViolation));
  run modify (l_set_heartbeat None counter);
  ret counter).
End Core.

(** ** Inversion of the successful steps *)

(** The Close record's plaintext: 19 bytes, which the send counters keep in reserve. *)
Definition CLOSE_LEN : Z := 19.

Section Steps.
Context `{Minicbor} `{Snow}.
Implicit Types (s : LeaseCore).

Lemma on_transport_ok {A} (f : M TransportState Error A) s a s' :
  on_transport f s = (Ok a, s') <->
  l_closed s = false /\ exists t t', l_transport s = Some t /\ f t = (Ok a, t') /\
    s' = l_set_transport (Some t') s.
Proof.
  unfold on_transport. destruct (l_closed s); [by split; [|intros [? _]]|].
  destruct (l_transport s) as [t|]; [|by split; [|intros (_ & ? & ? & ? & _)]].
  destruct (f t) as [r t'] eqn:Hf. split.
  - intros [= -> <-]. eauto 6.
  - intros (_ & ? & ? & [= <-] & Hf2 & ->). congruence.
Qed.

Lemma on_transport_closed {A} (f : M TransportState Error A) s :
  l_closed s = true -> on_transport f s = (err SequenceViolation, s).
Proof. unfold on_transport. by intros ->. Qed.

Lemma over_records_false o :
  over_records o = false <-> exists n, o = Some n /\ n < RECORD_LIMIT.
Proof.
  unfold over_records. destruct o; cbn; [|naive_solver]. rewrite Z.leb_gt. naive_solver.
Qed.
Lemma over_bytes_false o :
  over_bytes o = false <-> exists n, o = Some n /\ n < BYTE_LIMIT.
Proof.
  unfold over_bytes. destruct o; cbn; [|naive_solver]. rewrite Z.leb_gt. naive_solver.
Qed.

(** Sums below a limit, computed with [checked_add]. *)
Lemma checked_below limit a b :
  limit <= U64_MAX ->
  (exists n, checked_add a b = Some n /\ n < limit) <-> a + b < limit.
Proof.
  intros Hl. split.
  - intros (n & Hn & Hlt). apply checked_add_some in Hn. lia.
  - intros Hlt. exists (a + b). split; [apply checked_add_some; lia|done].
Qed.

Lemma throw_limit_err {A} s : exists e s', @throw_limit _ _ A s = (Err e, s').
Proof. unfold throw_limit. destruct (limit_error s). eauto. Qed.
End Steps.

Section Inversion.
Context `{Minicbor} `{!MinicborLaws} `{Snow}.
Implicit Types (s : LeaseCore).

Lemma limit_close_plaintext_len h p : limit_close_plaintext h = Ok p -> len p = CLOSE_LEN.
Proof.
  intros Hp. destruct (limit_close_ok h) as (q & Hq & Hl). unfold CLOSE_LEN. congruence.
Qed.

(** What a record written successfully did to the core. *)
Record sent_as (s s' : LeaseCore) (plaintext frame : bytes) : Prop := {
  sent_open : l_closed s = false;
  sent_by : exists t t', l_transport s = Some t /\
    encrypt_transport plaintext t = (Ok frame, t') /\
    s' = l_set_sent (l_sent_records s + 1) (l_sent_plaintext s + len plaintext)
           (l_set_transport (Some t') s)
}.

Lemma send_booked_ok plaintext s frame s' :
  l_sent_records s + 1 <= U64_MAX -> l_sent_plaintext s + len plaintext <= U64_MAX ->
  send_booked plaintext (checked_add (l_sent_records s) 1)
    (checked_add (l_sent_plaintext s) (len plaintext)) s = (Ok frame, s') <->
  sent_as s s' plaintext frame.
Proof.
  intros Hr Hb. unfold send_booked.
  rewrite (proj2 (checked_add_some _ _ _) (conj eq_refl Hr)),
    (proj2 (checked_add_some _ _ _) (conj eq_refl Hb)). cbn [default from_option id].
  rewrite mbind_M_ok. setoid_rewrite on_transport_ok. split.
  - intros (f & s1 & (Hc & t & t' & Ht & Hf & ->) & Hs). m_inv Hs.
    split; [done|]. by exists t, t'.
  - intros [Hc (t & t' & Ht & Hf & ->)]. exists frame, (l_set_transport (Some t') s).
    split; [eauto 6|done].
Qed.

(** The room a record of [n] plaintext bytes needs: its own, and a Close's after it unless
    it is the Close. *)
Definition room (k : RecordKind) (s : LeaseCore) (n : Z) : Prop :=
  if decide (k = Close)
  then l_sent_records s + 1 < RECORD_LIMIT /\ l_sent_plaintext s + n < BYTE_LIMIT
  else l_sent_records s + 2 < RECORD_LIMIT /\
       l_sent_plaintext s + n + CLOSE_LEN < BYTE_LIMIT.

Lemma room_close s n :
  room Close s n <-> l_sent_records s + 1 < RECORD_LIMIT /\
                     l_sent_plaintext s + n < BYTE_LIMIT.
Proof. unfold room. by rewrite decide_True. Qed.

Lemma room_other k s n :
  k <> Close ->
  room k s n <-> l_sent_records s + 2 < RECORD_LIMIT /\
                 l_sent_plaintext s + n + CLOSE_LEN < BYTE_LIMIT.
Proof. intros Hk. unfold room. by rewrite decide_False. Qed.

Lemma bind_checked_add a b c :
  0 <= a -> 0 <= b -> 0 <= c -> (checked_add a b ≫= fun x => checked_add x c) = checked_add a (b + c).
Proof.
  intros. unfold checked_add. destruct (Z.leb_spec (a + b) U64_MAX); cbn.
  - by rewrite Z.add_assoc.
  - destruct (Z.leb_spec (a + (b + c)) U64_MAX); [lia|done].
Qed.

Lemma limit_reached_false k s (plaintext close : bytes) :
  0 <= l_sent_records s -> 0 <= l_sent_plaintext s -> len close = CLOSE_LEN ->
  let next_records := checked_add (l_sent_records s) 1 in
  let next_bytes := checked_add (l_sent_plaintext s) (len plaintext) in
  (if bool_decide (k = Close)
   then over_records next_records || over_bytes next_bytes
   else over_records (next_records ≫= (fun r => checked_add r 1))
        || over_bytes (next_bytes ≫= (fun b => checked_add b (len close)))) = false <->
  room k s (len plaintext).
Proof.
  intros Hr Hb Hc. cbn zeta. pose proof (len_nonneg plaintext). unfold room.
  rewrite Hc, !bind_checked_add by (unfold CLOSE_LEN; lia).
  case_bool_decide; [rewrite decide_True by done|rewrite decide_False by done];
    rewrite orb_false_iff, over_records_false, over_bytes_false, !checked_below
      by (unfold RECORD_LIMIT, BYTE_LIMIT, U64_MAX; lia); lia.
Qed.

Lemma write_record_ok k d s frame s' :
  0 <= l_sent_records s -> 0 <= l_sent_plaintext s ->
  write_record k d s = (Ok frame, s') <->
  exists r plaintext, complete_record k d = Ok r /\ Record_encode r = Ok plaintext /\
    room k s (len plaintext) /\ sent_as s s' plaintext frame.
Proof.
  intros Hr Hb. unfold write_record. destruct (limit_close_ok NotHandedOff) as (c & Hc & Hl).
  split.
  - intros Hw. m_inv Hw. assert (a1 = c) as -> by congruence. exists a, a0.
    destruct (if bool_decide _ then _ else _) eqn:Hlim.
    { destruct (@throw_limit_err _ _ bytes s) as (? & ? & ?). congruence. }
    apply limit_reached_false in Hlim; [|done..]. split_and!; [done..|].
    apply send_booked_ok; [..|done]; unfold room in Hlim; destruct (decide _);
      unfold RECORD_LIMIT, BYTE_LIMIT, U64_MAX, CLOSE_LEN in *; lia.
  - intros (r & plaintext & Hrec & Henc & Hroom & Hs).
    rewrite (lift_bind _ _ _ _ Hrec), (lift_bind _ _ _ _ Henc), get_bind,
      (lift_bind _ _ _ _ Hc).
    rewrite (proj2 (limit_reached_false k s plaintext c Hr Hb Hl) Hroom).
    apply send_booked_ok; [..|done]; unfold room in Hroom; destruct (decide _);
      unfold RECORD_LIMIT, BYTE_LIMIT, U64_MAX, CLOSE_LEN in *; lia.
Qed.

(** What a record received successfully did. *)
Lemma decrypt_counted_ok outer s plaintext s' :
  decrypt_counted outer s = (Ok plaintext, s') <->
  l_closed s = false /\
  l_received_records s + 1 < RECORD_LIMIT /\
  l_received_plaintext s + len plaintext < BYTE_LIMIT /\
  exists t t', l_transport s = Some t /\ decrypt_transport outer t = (Ok plaintext, t') /\
    s' = l_set_received (l_received_records s + 1) (l_received_plaintext s + len plaintext)
           (l_set_transport (Some t') s).
Proof.
  unfold decrypt_counted. rewrite mbind_M_ok. setoid_rewrite on_transport_ok.
  assert (Hlim : forall t' (p : bytes), let s1 := l_set_transport (Some t') s in
    over_records (checked_add (l_received_records s1) 1)
      || over_bytes (checked_add (l_received_plaintext s1) (len p)) = false <->
    l_received_records s + 1 < RECORD_LIMIT /\
    l_received_plaintext s + len p < BYTE_LIMIT).
  { intros t' p. cbn. rewrite orb_false_iff, over_records_false, over_bytes_false,
      !checked_below by (unfold RECORD_LIMIT, BYTE_LIMIT, U64_MAX; lia). done. }
  assert (Hadd : forall a b, a + b < BYTE_LIMIT -> default 0 (checked_add a b) = a + b).
  { intros a b Hab. unfold checked_add.
    destruct (Z.leb_spec (a + b) U64_MAX); [done|unfold BYTE_LIMIT, U64_MAX in *; lia]. }
  assert (Hll : RECORD_LIMIT < BYTE_LIMIT) by (unfold RECORD_LIMIT, BYTE_LIMIT; lia).
  split.
  - intros (p & s1 & (Hc & t & t' & Ht & Hd & ->) & Hs). rewrite get_bind in Hs.
    destruct (over_records _ || over_bytes _) eqn:Ho.
    { edestruct (@throw_limit_err _ _ bytes) as (? & ? & He). rewrite He in Hs. done. }
    apply Hlim in Ho as [Hr Hb]. m_inv Hs. cbn. rewrite !Hadd by lia. eauto 10.
  - intros (Hc & Hr & Hb & t & t' & Ht & Hd & ->).
    exists plaintext, (l_set_transport (Some t') s). split; [eauto 6|].
    rewrite get_bind, (proj2 (Hlim t' plaintext) (conj Hr Hb)), modify_bind. cbn.
    rewrite !Hadd by lia. done.
Qed.
End Inversion.

(** ** The invariant of a lease connection *)

(** The calls of the two roles and what they return. *)
Inductive LeaseOp : Type :=
| ReadRequest (outer : bytes)
| WriteReply (counter : Z)
| WriteRequest (counter : Z)
| ReadReply (outer : bytes)
| WriteClose (reason : CloseReason) (handoff : HandoffState)
| ReadClose (outer : bytes).

Inductive LeaseEvent : Type :=
| Frame (f : bytes)
| Beat (counter : Z)
| PeerClose (reason : CloseReason) (handoff : HandoffState).

Section Invariant.
Context `{Minicbor} `{Snow}.
Implicit Types (s : LeaseCore).

Definition lease_step (op : LeaseOp) : L LeaseEvent :=
  match op with
  | ReadRequest o => do c <- read_heartbeat_request o; ret (Beat c)
  | WriteReply c => do f <- write_heartbeat_reply c; ret (Frame f)
  | WriteRequest c => do f <- write_heartbeat_request c; ret (Frame f)
  | ReadReply o => do c <- read_heartbeat_reply o; ret (Beat c)
  | WriteClose r h => do f <- lease_write_close r h; ret (Frame f)
  | ReadClose o => do ' (r, h) <- lease_read_close o; ret (PeerClose r h)
  end.

(** An open connection has its transport, room for a Close in both send counters, and a
    pending counter above the last one completed. *)
Record lease_open (s : LeaseCore) : Prop := {
  lo_open : l_closed s = false;
  lo_transport : exists t, l_transport s = Some t;
  lo_counts : 0 <= l_sent_records s /\ 0 <= l_sent_plaintext s;
  lo_reserve : room Close s CLOSE_LEN;
  lo_received : 0 <= l_received_records s < RECORD_LIMIT /\
                0 <= l_received_plaintext s < BYTE_LIMIT;
  lo_pending : forall c, pending_heartbeat s = Some c -> last_heartbeat s < c
}.

Definition lease_inv (s : LeaseCore) : Prop :=
  if l_closed s then l_transport s = None else lease_open s.

Lemma lease_inv_close s : lease_inv (close_state s).
Proof. done. Qed.

Lemma finish_result_ok {A} (m : L A) s a s' :
  finish_result m s = (Ok a, s') <-> m s = (Ok a, s').
Proof. unfold finish_result. destruct (m s) as [[] ?]; naive_solver. Qed.

Lemma finish_result_inv {A} (m : L A) s :
  (forall a s', m s = (Ok a, s') -> lease_inv s') -> lease_inv (snd (finish_result m s)).
Proof.
  intros Hm. unfold finish_result. destruct (m s) as [[a|e] s']; cbn; [by eapply Hm|done].
Qed.
End Invariant.

Section Preservation.
Context `{Minicbor} `{!MinicborLaws} `{Snow}.
Implicit Types (s : LeaseCore).

Lemma sent_open_inv k s s' plaintext frame :
  lease_open s -> k <> Close -> room k s (len plaintext) ->
  sent_as s s' plaintext frame -> lease_open s'.
Proof.
  intros [Ho Ht Hc _ Hr Hp] Hk Hroom [_ (t & t' & _ & _ & ->)].
  unfold room in Hroom. rewrite decide_False in Hroom by done.
  pose proof (len_nonneg plaintext).
  split; cbn; try done; [eauto|lia|]. unfold room. rewrite decide_True by done. cbn. lia.
Qed.

Lemma received_open_inv outer s s' plaintext :
  lease_open s -> decrypt_counted outer s = (Ok plaintext, s') ->
  lease_open s' /\ pending_heartbeat s' = pending_heartbeat s /\
  last_heartbeat s' = last_heartbeat s /\ l_binding s' = l_binding s.
Proof.
  intros [Ho Ht Hc Hres Hr Hp] Hd.
  apply decrypt_counted_ok in Hd as (_ & Hr1 & Hr2 & t & t' & _ & _ & ->).
  pose proof (len_nonneg plaintext). split; [|done].
  split; cbn; try done; [eauto|lia].
Qed.

Lemma set_heartbeat_open p last s :
  lease_open s -> (forall c, p = Some c -> last < c) ->
  lease_open (l_set_heartbeat p last s).
Proof. intros [Ho Ht Hc Hres Hr _] Hp. by split. Qed.

Lemma write_heartbeat_open role c s f s' :
  lease_open s -> write_heartbeat role c s = (Ok f, s') ->
  lease_open s' /\ pending_heartbeat s' = pending_heartbeat s /\
  last_heartbeat s' = last_heartbeat s.
Proof.
  intros Ho Hw. unfold write_heartbeat in Hw. m_inv Hw.
  apply write_record_ok in Hw as (r & p & _ & _ & Hroom & Hs); [|apply Ho..].
  split; [by eapply (sent_open_inv Heartbeat)|].
  by destruct Hs as [_ (? & ? & _ & _ & ->)].
Qed.

Lemma read_heartbeat_ok outer role s c s' :
  read_heartbeat outer role s = (Ok c, s') ->
  exists p r, decrypt_counted outer s = (Ok p, s') /\ Record_decode p = Ok r /\
    validate_complete_record r Heartbeat = Ok tt /\
    parse_heartbeat (data r) role (l_binding s') = Ok c.
Proof.
  unfold read_heartbeat. intros Hr. m_inv Hr.
  case_bool_decide; m_inv Hr; [by destruct a2|].
  unfold lift in Hr. injection Hr as Hp <-. destruct a1. eauto 10.
Qed.

Lemma read_heartbeat_open outer role s c s' :
  lease_open s -> read_heartbeat outer role s = (Ok c, s') ->
  lease_open s' /\ pending_heartbeat s' = pending_heartbeat s /\
  last_heartbeat s' = last_heartbeat s.
Proof.
  intros Ho Hr. apply read_heartbeat_ok in Hr as (p & r & Hd & _).
  destruct (received_open_inv _ _ _ _ Ho Hd) as (? & ? & ? & _). done.
Qed.
End Preservation.

Section Steps.
Context `{Minicbor} `{!MinicborLaws} `{Snow}.
Implicit Types (s : LeaseCore).

(** A call returns its event exactly when its operation does. *)
Lemma step_inv {A} (m : L A) (k : A -> LeaseEvent) s :
  lease_inv (snd (m s)) -> lease_inv (snd ((do a <- m; ret (k a)) s)).
Proof. unfold mbind_M. by destruct (m s) as [[] ?]. Qed.

Lemma read_request_open o s c s' :
  lease_open s -> read_heartbeat_request o s = (Ok c, s') ->
  lease_open s' /\ last_heartbeat s < c /\ last_heartbeat s' = last_heartbeat s /\
  pending_heartbeat s = None /\ pending_heartbeat s' = Some c.
Proof.
  unfold read_heartbeat_request. rewrite finish_result_ok. intros Ho Hr. m_inv Hr.
  destruct (read_heartbeat_open _ _ _ _ _ Ho Hm) as (Ho' & Hp & Hl). bool_split.
  split_and!; cbn; try done; try lia.
  apply set_heartbeat_open; [done|]. intros c' [= <-]. done.
Qed.

Lemma write_reply_open c s f s' :
  lease_open s -> write_heartbeat_reply c s = (Ok f, s') ->
  lease_open s' /\ pending_heartbeat s = Some c /\ last_heartbeat s' = c /\
  pending_heartbeat s' = None.
Proof.
  unfold write_heartbeat_reply. rewrite finish_result_ok. intros Ho Hr. m_inv Hr.
  destruct (write_heartbeat_open _ _ _ _ _ Ho Hm) as (Ho' & _). bool_split.
  split_and!; try done. by apply set_heartbeat_open.
Qed.

Lemma write_request_open c s f s' :
  lease_open s -> write_heartbeat_request c s = (Ok f, s') ->
  lease_open s' /\ last_heartbeat s < c /\ last_heartbeat s' = last_heartbeat s /\
  pending_heartbeat s = None /\ pending_heartbeat s' = Some c.
Proof.
  unfold write_heartbeat_request. rewrite finish_result_ok. intros Ho Hr. m_inv Hr.
  destruct (write_heartbeat_open _ _ _ _ _ Ho Hm) as (Ho' & Hp & Hl). bool_split.
  split_and!; cbn; try done; try lia.
  apply set_heartbeat_open; [done|]. intros c' [= <-]. lia.
Qed.

Lemma read_reply_open o s c s' :
  lease_open s -> read_heartbeat_reply o s = (Ok c, s') ->
  lease_open s' /\ pending_heartbeat s = Some c /\ last_heartbeat s' = c /\
  pending_heartbeat s' = None.
Proof.
  unfold read_heartbeat_reply. rewrite finish_result_ok. intros Ho Hr. m_inv Hr.
  destruct (read_heartbeat_open _ _ _ _ _ Ho Hm) as (Ho' & Hp & Hl). bool_split.
  split_and!; try done; [by apply set_heartbeat_open|congruence].
Qed.

Lemma write_close_closed r h s f s' :
  lease_write_close r h s = (Ok f, s') -> l_closed s' = true /\ l_transport s' = None.
Proof.
  unfold lease_write_close, core_write_close. rewrite finish_result_ok. intros Hw.
  m_inv Hw. done.
Qed.

Lemma read_close_closed o s e s' :
  lease_read_close o s = (Ok e, s') -> l_closed s' = true /\ l_transport s' = None.
Proof.
  unfold lease_read_close, core_read_close. rewrite finish_result_ok. intros Hr.
  m_inv Hr. done.
Qed.

(** What a call needs of the state: every call of the core goes through the transport, so
    none succeeds on a closed connection. *)
Lemma encrypt_needs_open k d s f s' :
  write_record k d s = (Ok f, s') -> l_closed s = false.
Proof.
  unfold write_record. intros Hw. m_inv Hw.
  destruct (if bool_decide _ then _ else _).
  { destruct (@throw_limit_err _ _ bytes s) as (? & ? & ?). congruence. }
  unfold send_booked in Hw. m_inv Hw. by apply on_transport_ok in Hm as [? _].
Qed.

Lemma write_heartbeat_needs_open role c s f s' :
  write_heartbeat role c s = (Ok f, s') -> l_closed s = false.
Proof. unfold write_heartbeat. intros Hw. m_inv Hw. by eapply encrypt_needs_open. Qed.

Lemma lease_step_needs_open op s e s' :
  lease_step op s = (Ok e, s') -> l_closed s = false.
Proof.
  destruct op; cbn; intros Hs; m_inv Hs;
    unfold read_heartbeat_request, write_heartbeat_reply, write_heartbeat_request,
      read_heartbeat_reply, lease_write_close, lease_read_close, core_write_close,
      core_read_close in *;
    rewrite finish_result_ok in Hm; m_inv Hm;
    repeat match goal with
    | Hw : write_record _ _ _ = _ |- _ => apply encrypt_needs_open in Hw
    | Hw : write_heartbeat _ _ _ = _ |- _ => apply write_heartbeat_needs_open in Hw
    | Hr : read_heartbeat _ _ _ = _ |- _ =>
        apply read_heartbeat_ok in Hr as (? & ? & Hr & _)
    | Hd : decrypt_counted _ _ = _ |- _ => apply decrypt_counted_ok in Hd as [? _]
    end; done.
Qed.
End Steps.

Section Delivery.
Context `{Minicbor} `{!MinicborLaws} `{Snow} `{!SnowLaws}.

(** Two ends of one lease: linked transports, one binding, mirrored counters. *)
Record lease_pair (k : Z) (a b : LeaseCore) : Prop := {
  lp_left : lease_open a;
  lp_right : lease_open b;
  lp_linked : exists ta tb, l_transport a = Some ta /\ l_transport b = Some tb /\
                            linked k ta tb;
  lp_binding : l_binding a = l_binding b /\ LeaseBinding_wf (l_binding a);
  lp_forth : l_sent_records a = l_received_records b /\
             l_sent_plaintext a = l_received_plaintext b;
  lp_back : l_sent_records b = l_received_records a /\
            l_sent_plaintext b = l_received_plaintext a
}.

Lemma lease_pair_sym k a b : lease_pair k a b -> lease_pair k b a.
Proof.
  intros [Ha Hb (ta & tb & Hta & Htb & Hl) [Hbind Hwf] Hf Hk]. split; try done.
  - exists tb, ta. split_and!; try done. by apply linked_sym.
  - by rewrite <- Hbind.
Qed.

(** The plaintext of a complete record and the states after it was sent and received. *)
Definition sent_state (s : LeaseCore) (n : Z) (t : TransportState) : LeaseCore :=
  l_set_sent (l_sent_records s + 1) (l_sent_plaintext s + n)
    (l_set_transport (Some t) s).
Definition received_state (s : LeaseCore) (n : Z) (t : TransportState) : LeaseCore :=
  l_set_received (l_received_records s + 1) (l_received_plaintext s + n)
    (l_set_transport (Some t) s).

(** One complete record from an end to the other. *)
Lemma record_delivers k a b kd d :
  lease_pair k a b -> 0 < k -> len d <= 512 -> room kd a (RECORD_HEADER_LEN + len d) ->
  exists f p ta tb,
    let r := mkRecord kd true true (len d) 0 d in
    write_record kd d a = (Ok f, sent_state a (RECORD_HEADER_LEN + len d) ta) /\
    decrypt_counted f b = (Ok p, received_state b (RECORD_HEADER_LEN + len d) tb) /\
    Record_decode p = Ok r /\ validate_complete_record r kd = Ok tt /\
    linked (k - 1) ta tb.
Proof.
  intros [Ha Hb (ta & tb & Hta & Htb & Hl) _ [Hf1 Hf2] _] Hk Hd Hroom.
  pose proof (len_nonneg d). unfold RECORD_HEADER_LEN in *.
  set (r := mkRecord kd true true (len d) 0 d).
  destruct (Record_encode_ok r) as [p Hp]; [cbn; unfold RECORD_DATA_MAX; lia|].
  pose proof (Record_encode_len _ _ Hp) as Hlen. cbn in Hlen.
  destruct (transport_delivers k ta tb p Hl Hk) as (f & ta' & tb' & He & Hdec & Hl').
  { unfold PLAINTEXT_MAX. lia. }
  exists f, p, ta', tb'. cbn zeta. split_and!; try done.
  - apply write_record_ok; [apply Ha..|]. exists r, p. split_and!; [|done|by rewrite Hlen|].
    + unfold complete_record, ensure, U32_MAX. decide_cmp. done.
    + split; [apply Ha|]. exists ta, ta'. rewrite Hlen. done.
  - apply decrypt_counted_ok. rewrite Hlen, <- Hf1, <- Hf2.
    assert (l_sent_records a + 1 < RECORD_LIMIT /\
            l_sent_plaintext a + (12 + len d) < BYTE_LIMIT) as [??]
      by (unfold room, CLOSE_LEN in Hroom; destruct (decide _); lia).
    split_and!; [apply Hb|done..|]. exists tb, tb'.
    unfold received_state. rewrite Hf1, Hf2. done.
  - apply record_decode_encode; [|done]. split; cbn; unfold U32_MAX; lia.
  - unfold validate_complete_record. rewrite bool_decide_eq_true_2 by done.
    cbn. by rewrite Z.eqb_refl.
Qed.

Lemma pair_advances k a b kd n ta tb :
  lease_pair k a b -> kd <> Close -> 0 <= n -> room kd a n -> linked (k - 1) ta tb ->
  lease_pair (k - 1) (sent_state a n ta) (received_state b n tb).
Proof.
  intros [Ha Hb _ Hbind [Hf1 Hf2] Hk] Hkd Hn Hroom Hl.
  unfold room in Hroom. rewrite decide_False in Hroom by done.
  pose proof Ha as [? _ ? _ ? ?]. pose proof Hb as [? _ ? Hres ? ?].
  unfold CLOSE_LEN in *. split; cbn.
  - split; cbn; try done; [eauto|lia|]. apply room_close. cbn. unfold CLOSE_LEN. lia.
  - split; cbn; try done; [eauto|lia].
  - exists ta, tb. done.
  - done.
  - by rewrite Hf1, Hf2.
  - done.
Qed.

(** Room for [j] heartbeats and the Close after them. *)
Definition BEAT_MAX : Z := 140.
Definition beats_room (s : LeaseCore) (j : Z) : Prop :=
  l_sent_records s + j + 1 < RECORD_LIMIT /\
  l_sent_plaintext s + BEAT_MAX * j + CLOSE_LEN < BYTE_LIMIT.

Lemma heartbeat_sent k a b role c d :
  lease_pair k a b -> 0 < k -> 1 <= c <= U64_MAX -> len d <= 128 ->
  heartbeat_payload role (l_binding a) c = Ok d ->
  room Heartbeat a (RECORD_HEADER_LEN + len d) ->
  exists f ta tb, let n := RECORD_HEADER_LEN + len d in
    write_heartbeat role c a = (Ok f, sent_state a n ta) /\
    read_heartbeat f role b = (Ok c, received_state b n tb) /\
    linked (k - 1) ta tb.
Proof.
  intros Hpair Hk Hc Hlen Hd Hroom. destruct (lp_binding _ _ _ Hpair) as [Hbind Hwf].
  destruct (record_delivers k a b Heartbeat d Hpair Hk ltac:(lia) Hroom)
    as (f & p & ta & tb & Hw & Hdec & Hrec & Hval & Hl).
  exists f, ta, tb. cbn zeta. split_and!; [| |done].
  - unfold write_heartbeat. by rewrite get_bind, (lift_bind _ _ _ _ Hd).
  - unfold read_heartbeat. rewrite (mbind_M_step _ _ _ _ _ Hdec), (lift_bind _ _ _ _ Hrec).
    cbn [kind data]. rewrite bool_decide_eq_false_2 by done.
    rewrite (lift_bind _ _ _ _ Hval), get_bind. unfold lift.
    cbn [received_state l_set_received l_set_transport l_binding]. rewrite <- Hbind.
    rewrite (parse_heartbeat_complete d role (l_binding a) c);
      [done|done|unfold is_u64; lia|done].
Qed.

Lemma heartbeat_delivers k a b role c j :
  lease_pair k a b -> 0 < k -> role = 1 \/ role = 2 -> 1 <= c <= U64_MAX ->
  1 <= j -> beats_room a j ->
  exists f n ta tb,
    write_heartbeat role c a = (Ok f, sent_state a n ta) /\
    read_heartbeat f role b = (Ok c, received_state b n tb) /\
    lease_pair (k - 1) (sent_state a n ta) (received_state b n tb) /\
    beats_room (sent_state a n ta) (j - 1).
Proof.
  intros Hpair Hk Hrole Hc Hj [Hr1 Hr2]. pose proof (lp_binding _ _ _ Hpair) as [_ Hwf].
  unfold BEAT_MAX in *.
  destruct (heartbeat_payload_ok role (l_binding a) c Hwf Hrole Hc) as (d & Hd & Hlen).
  assert (Hroom : room Heartbeat a (RECORD_HEADER_LEN + len d)).
  { apply room_other; [done|]. unfold RECORD_HEADER_LEN. lia. }
  destruct (heartbeat_sent k a b role c d Hpair Hk Hc ltac:(lia) Hd Hroom)
    as (f & ta & tb & Hw & Hr & Hl).
  exists f, (RECORD_HEADER_LEN + len d), ta, tb. unfold RECORD_HEADER_LEN in *.
  split_and!; [done|done| |split; cbn; unfold BEAT_MAX; lia].
  apply (pair_advances k a b Heartbeat); [done|done|lia|done|done].
Qed.

(** One heartbeat and its reply, as the two processes exchange them. *)
Definition exchange (c : Z) : M (LeaseCore * LeaseCore) Error Z := fun '(b, t) =>
  match write_heartbeat_request c b with
  | (Err e, b) => (Err e, (b, t))
  | (Ok request, b) =>
      match read_heartbeat_request request t with
      | (Err e, t) => (Err e, (b, t))
      | (Ok c', t) =>
          match write_heartbeat_reply c' t with
          | (Err e, t) => (Err e, (b, t))
          | (Ok reply, t) =>
              let '(r, b) := read_heartbeat_reply reply b in (r, (b, t))
          end
      end
  end.

Fixpoint exchange_all (cs : list Z) : M (LeaseCore * LeaseCore) Error unit :=
  match cs with
  | [] => ret tt
  | c :: cs => run exchange c; exchange_all cs
  end.

Definition lease_idle (last : Z) (s : LeaseCore) : Prop :=
  pending_heartbeat s = None /\ last_heartbeat s = last.

Lemma pair_heartbeat k a b p q last last' :
  lease_pair k a b -> (forall c, p = Some c -> last < c) ->
  (forall c, q = Some c -> last' < c) ->
  lease_pair k (l_set_heartbeat p last a) (l_set_heartbeat q last' b).
Proof.
  intros [Ha Hb Hl Hbind Hf Hk] Hp Hq.
  split; try done; by apply set_heartbeat_open.
Qed.

Lemma set_heartbeat_twice p q l l' s :
  l_set_heartbeat p l (l_set_heartbeat q l' s) = l_set_heartbeat p l s.
Proof. done. Qed.

Lemma exchange_ok k b t last c j :
  lease_pair k b t -> lease_idle last b -> lease_idle last t ->
  last < c -> 1 <= c <= U64_MAX -> 2 <= k -> 1 <= j -> beats_room b j -> beats_room t j ->
  exists b' t', exchange c (b, t) = (Ok c, (b', t')) /\ lease_pair (k - 2) b' t' /\
    lease_idle c b' /\ lease_idle c t' /\ beats_room b' (j - 1) /\ beats_room t' (j - 1).
Proof.
  intros Hpair [Hpb Hlb] [Hpt Hlt] Hlast Hc Hk Hj Hrb Hrt.
  destruct (heartbeat_delivers k b t 1 c j Hpair ltac:(lia) ltac:(auto) Hc Hj Hrb)
    as (f & n & tb & tt' & Hw & Hr & Hpair1 & Hrb1).
  set (b1 := l_set_heartbeat (Some c) last (sent_state b n tb)).
  set (t1 := l_set_heartbeat (Some c) last (received_state t n tt')).
  assert (Hpair2 : lease_pair (k - 1) t1 b1).
  { apply lease_pair_sym, pair_heartbeat; [done| |]; by intros ? [= <-]. }
  destruct (heartbeat_delivers (k - 1) t1 b1 2 c j Hpair2 ltac:(lia) ltac:(auto) Hc Hj)
    as (g & m & tt2 & tb2 & Hw2 & Hr2 & Hpair3 & Hrt1); [done|].
  exists (l_set_heartbeat None c (received_state b1 m tb2)),
    (l_set_heartbeat None c (sent_state t1 m tt2)).
  assert (Hreq : write_heartbeat_request c b = (Ok f, b1)).
  { apply finish_result_ok. rewrite get_bind, Hpb, Hlb. m_run ltac:(cbn; lia).
    rewrite (mbind_M_step _ _ _ _ _ Hw), modify_bind. cbn. by rewrite Hlb. }
  assert (Hread : read_heartbeat_request f t = (Ok c, t1)).
  { apply finish_result_ok. rewrite get_bind, Hpt. m_run ltac:(cbn; lia).
    rewrite (mbind_M_step _ _ _ _ _ Hr), get_bind. cbn [received_state l_set_received
      l_set_transport last_heartbeat]. rewrite Hlt. m_run lia.
    unfold ret. cbn. by rewrite Hlt. }
  assert (Hreply : write_heartbeat_reply c t1 = (Ok g, l_set_heartbeat None c (sent_state t1 m tt2))).
  { apply finish_result_ok. rewrite get_bind.
    m_run ltac:(cbn; by rewrite bool_decide_eq_true_2).
    by rewrite (mbind_M_step _ _ _ _ _ Hw2), modify_bind. }
  assert (Hback : read_heartbeat_reply g b1
    = (Ok c, l_set_heartbeat None c (received_state b1 m tb2))).
  { apply finish_result_ok. rewrite (mbind_M_step _ _ _ _ _ Hr2), get_bind.
    m_run ltac:(cbn; by rewrite bool_decide_eq_true_2). done. }
  unfold exchange. rewrite Hreq, Hread, Hreply, Hback. split_and!; try done.
  replace (k - 2) with (k - 1 - 1) by lia. by apply lease_pair_sym, pair_heartbeat.
Qed.
End Delivery.

(** ** A closed connection is silent *)

Section Silence.
Context `{Minicbor} `{!MinicborLaws} `{Snow}.
Implicit Types (s : LeaseCore).

Lemma quiet_enc_seq items : quiet (enc_seq items).
Proof.
  unfold enc_seq. induction items as [|[]]; [done| |by intros e [= <-]].
  apply quiet_bind; [done|]. intros. apply quiet_ok.
Qed.
Hint Resolve quiet_enc_seq : model.

Lemma quiet_complete_record k d : quiet (complete_record k d).
Proof. apply quiet_bind; auto with model. Qed.
Lemma quiet_Record_encode r : quiet (Record_encode r).
Proof. apply quiet_bind; auto with model. Qed.
Lemma quiet_heartbeat_payload role b c : quiet (heartbeat_payload role b c).
Proof. apply quiet_bind; auto with model. Qed.
Lemma quiet_close_payload r h : quiet (close_payload r h).
Proof. apply quiet_enc_seq. Qed.
Lemma quiet_limit_close h : quiet (limit_close_plaintext h).
Proof. apply quiet_bind; [apply quiet_close_payload|]. intros.
  apply quiet_bind; [apply quiet_complete_record|]. intros. apply quiet_Record_encode. Qed.

Lemma dead_finish {A} (m : L A) : dead l_closed m -> dead l_closed (finish_result m).
Proof.
  intros Hm s Hs. destruct (Hm s Hs) as (e & s' & He & Hq & Hs').
  exists e, (close_state s'). unfold finish_result. by rewrite He.
Qed.
Lemma dead_on_transport {A} (f : M TransportState Error A) : dead l_closed (on_transport f).
Proof. intros s Hs. rewrite (on_transport_closed _ _ Hs). by exists (Error_new SequenceViolation), s. Qed.
Lemma dead_send_booked p r b : dead l_closed (send_booked p r b).
Proof. apply dead_bind_l, dead_on_transport. Qed.

Lemma dead_limit_close : dead l_closed limit_close.
Proof.
  apply dead_bind_r; [apply shut_lift, quiet_limit_close|]. intros p.
  apply dead_bind_r; [apply shut_get|]. intros s0. cbv zeta.
  destruct (over_records _ || over_bytes _); [|apply dead_send_booked].
  intros s Hs. by exists (Error_new RecordLimit), s.
Qed.
Lemma dead_throw_limit {A} : dead l_closed (@throw_limit _ _ A).
Proof.
  intros s Hs. destruct (dead_limit_close s Hs) as (e & s' & He & _ & _).
  exists (Error_record_limit None), (close_state s').
  unfold throw_limit, limit_error. by rewrite He.
Qed.
Lemma dead_write_record k d : dead l_closed (write_record k d).
Proof.
  apply dead_bind_r; [apply shut_lift, quiet_complete_record|]. intros r.
  apply dead_bind_r; [apply shut_lift, quiet_Record_encode|]. intros p.
  apply dead_bind_r; [apply shut_get|]. intros s0.
  apply dead_bind_r; [apply shut_lift, quiet_limit_close|]. intros c. cbv zeta.
  destruct (if bool_decide _ then _ else _); [apply dead_throw_limit|apply dead_send_booked].
Qed.
Lemma dead_write_heartbeat role c : dead l_closed (write_heartbeat role c).
Proof.
  apply dead_bind_r; [apply shut_get|]. intros s0.
  apply dead_bind_r; [apply shut_lift, quiet_heartbeat_payload|]. intros.
  apply dead_write_record.
Qed.
Lemma dead_read_heartbeat o role : dead l_closed (read_heartbeat o role).
Proof. apply dead_bind_l, dead_bind_l, dead_on_transport. Qed.
Hint Resolve dead_write_heartbeat dead_read_heartbeat : model.

Lemma dead_lease_step op : dead l_closed (lease_step op).
Proof.
  destruct op; apply dead_bind_l, dead_finish;
    try (apply dead_bind_r; [apply shut_get|]; intros s0;
         apply dead_bind_r; [apply shut_lift, quiet_ensure|]; intros []).
  - apply dead_bind_l; auto with model.
  - apply dead_bind_l; auto with model.
  - apply dead_bind_l; auto with model.
  - apply dead_bind_l; auto with model.
  - apply dead_bind_r; [apply shut_lift, quiet_close_payload|]. intros.
    apply dead_bind_l, dead_write_record.
  - apply dead_bind_l, dead_bind_l, dead_on_transport.
Qed.
End Silence.

(** ** Properties *)

Fixpoint increasing (last : Z) (cs : list Z) : Prop :=
  match cs with
  | [] => True
  | c :: cs => last < c <= U64_MAX /\ increasing c cs
  end.

Section Properties.
Context `{Minicbor} `{!MinicborLaws} `{Snow}.

(** A sequence of calls: the events of those that succeed. *)
Fixpoint lease_run (ops : list LeaseOp) (s : LeaseCore) : list LeaseEvent * LeaseCore :=
  match ops with
  | [] => ([], s)
  | op :: ops =>
      let '(r, s1) := lease_step op s in
      let '(es, s2) := lease_run ops s1 in
      (match r with Ok e => e :: es | Err _ => es end, s2)
  end.

Lemma lease_step_err op s e s' :
  lease_step op s = (Err e, s') -> l_closed s' = true /\ l_transport s' = None.
Proof.
  destruct op; cbn; unfold mbind_M; intros Hs;
    match type of Hs with context [match ?m ?t with _ => _ end] =>
      destruct (m t) as [[[]|] ?] eqn:Hm; try done end;
    unfold read_heartbeat_request, write_heartbeat_reply, write_heartbeat_request,
      read_heartbeat_reply, lease_write_close, lease_read_close, finish_result in Hm;
    case_match; case_match; simplify_eq; done.
Qed.

Lemma lease_step_open op s e s' :
  lease_open s -> lease_step op s = (Ok e, s') ->
  match op, e with
  | ReadRequest _, Beat c =>
      lease_open s' /\ last_heartbeat s < c /\ last_heartbeat s' = last_heartbeat s /\
      pending_heartbeat s = None /\ pending_heartbeat s' = Some c
  | WriteReply c, Frame _ =>
      lease_open s' /\ pending_heartbeat s = Some c /\ last_heartbeat s' = c /\
      pending_heartbeat s' = None
  | WriteRequest c, Frame _ =>
      lease_open s' /\ last_heartbeat s < c /\ last_heartbeat s' = last_heartbeat s /\
      pending_heartbeat s = None /\ pending_heartbeat s' = Some c
  | ReadReply _, Beat c =>
      lease_open s' /\ pending_heartbeat s = Some c /\ last_heartbeat s' = c /\
      pending_heartbeat s' = None
  | WriteClose _ _, Frame _ | ReadClose _, PeerClose _ _ =>
      l_closed s' = true /\ l_transport s' = None
  | _, _ => False
  end.
Proof.
  intros Ho. destruct op; cbn; intros Hs; m_inv Hs.
  - by eapply read_request_open.
  - by eapply write_reply_open.
  - by eapply write_request_open.
  - by eapply read_reply_open.
  - by eapply write_close_closed.
  - destruct a. m_inv Hs. by eapply read_close_closed.
Qed.

Lemma lease_step_inv op s : lease_inv s -> lease_inv (snd (lease_step op s)).
Proof.
  intros Hinv. destruct (lease_step op s) as [[e|e] s'] eqn:Hs; cbn.
  - pose proof (lease_step_needs_open _ _ _ _ Hs) as Hc.
    unfold lease_inv in Hinv. rewrite Hc in Hinv.
    pose proof (lease_step_open _ _ _ _ Hinv Hs) as Hop. unfold lease_inv.
    destruct op, e; try done; destruct Hop as [Ho Hrest];
      try (by rewrite (lo_open _ Ho)); by rewrite Ho.
  - destruct (lease_step_err _ _ _ _ Hs) as [Hc Ht]. unfold lease_inv. by rewrite Hc.
Qed.

(** Whatever calls are made on a lease connection, in any order and with any input, it
    is either closed, with its transport gone, or open with its transport, room in both send
    counters for one more Close, and a pending counter above the last completed one. *)
Theorem lease_run_inv ops s (Hinv : lease_inv s) : lease_inv (snd (lease_run ops s)).
Proof.
  revert s Hinv. induction ops as [|op ops IH]; intros s Hinv; [done|].
  cbn [lease_run]. pose proof (lease_step_inv op s Hinv) as Hinv1.
  destruct (lease_step op s) as [r s1]. specialize (IH s1 Hinv1).
  by destruct (lease_run ops s1).
Qed.

(** A lease connection that failed or closed is silent for good: the call that failed
    closed it, and every later call returns an error that carries no frame and leaves it
    closed. *)
Theorem lease_closed_silent op s e s' ops (He : lease_step op s = (Err e, s')) :
  l_closed s' = true /\ l_transport s' = None /\
  fst (lease_run ops s') = [] /\ l_closed (snd (lease_run ops s')) = true /\
  forall op', exists e', fst (lease_step op' s') = Err e' /\ close_frame e' = None.
Proof.
  destruct (lease_step_err _ _ _ _ He) as [Hc Ht].
  assert (Hrun : forall t, l_closed t = true ->
    fst (lease_run ops t) = [] /\ l_closed (snd (lease_run ops t)) = true).
  { induction ops as [|o os IH]; intros t Hct; [done|]. cbn [lease_run].
    destruct (dead_lease_step o t Hct) as (e' & t' & -> & _ & Hct').
    specialize (IH t' Hct'). by destruct (lease_run os t'). }
  split_and!; [done|done|apply Hrun, Hc..|].
  intros op'. destruct (dead_lease_step op' s' Hc) as (e' & t' & -> & ? & _). eauto.
Qed.

(** The counters a run of one role completed. *)
Definition beats (es : list LeaseEvent) : list Z :=
  omap (fun e => match e with Beat c => Some c | _ => None end) es.
Definition target_op (op : LeaseOp) : bool :=
  match op with WriteRequest _ | ReadReply _ => false | _ => true end.
Definition broker_op (op : LeaseOp) : bool :=
  match op with ReadRequest _ | WriteReply _ => false | _ => true end.

Fixpoint rising (last : Z) (cs : list Z) : Prop :=
  match cs with [] => True | c :: cs => last < c /\ rising c cs end.

Lemma rising_weaken a b cs : a <= b -> rising b cs -> rising a cs.
Proof. destruct cs; [done|]. cbn. intros ? []. split; [lia|done]. Qed.

(** A closed connection completes nothing, so a run's beats are those before it closes. *)
Lemma lease_run_closed ops s : l_closed s = true -> fst (lease_run ops s) = [].
Proof.
  revert s. induction ops as [|o os IH]; intros s Hc; [done|]. cbn [lease_run].
  destruct (dead_lease_step o s Hc) as (e' & t' & -> & _ & Hct').
  specialize (IH t' Hct'). by destruct (lease_run os t').
Qed.

Definition floor (s : LeaseCore) : Z := default (last_heartbeat s) (pending_heartbeat s).

Lemma run_cons op ops s e s1 :
  lease_step op s = (Ok e, s1) ->
  fst (lease_run (op :: ops) s) = e :: fst (lease_run ops s1).
Proof. cbn [lease_run]. intros ->. by destruct (lease_run ops s1). Qed.

Lemma run_cons_err op ops s e s1 :
  lease_step op s = (Err e, s1) -> fst (lease_run (op :: ops) s) = [].
Proof.
  intros Hs. destruct (lease_step_err _ _ _ _ Hs) as [Hc _].
  cbn [lease_run]. rewrite Hs. pose proof (lease_run_closed ops s1 Hc) as Hd.
  destruct (lease_run ops s1). by cbn in *.
Qed.

Lemma step_open op s e s1 :
  lease_inv s -> lease_step op s = (Ok e, s1) -> lease_open s.
Proof.
  intros Hinv Hs. unfold lease_inv in Hinv.
  by rewrite (lease_step_needs_open _ _ _ _ Hs) in Hinv.
Qed.

Lemma target_beats_rise ops s :
  lease_inv s -> forallb target_op ops = true ->
  rising (floor s) (beats (fst (lease_run ops s))).
Proof.
  revert s. induction ops as [|op ops IH]; intros s Hinv Hops; [done|].
  cbn in Hops. apply andb_true_iff in Hops as [Hop Hops].
  pose proof (lease_step_inv op s Hinv) as Hinv1.
  destruct (lease_step op s) as [[e|e] s1] eqn:Hs; [|by rewrite (run_cons_err _ _ _ _ _ Hs)].
  rewrite (run_cons _ _ _ _ _ Hs). specialize (IH s1 Hinv1 Hops).
  pose proof (lease_step_open _ _ _ _ (step_open _ _ _ _ Hinv Hs) Hs) as Hst.
  unfold floor in *. destruct op, e; try done.
  - destruct Hst as (_ & Hl & _ & Hp & Hp'). rewrite Hp. rewrite Hp' in IH. by split.
  - destruct Hst as (_ & Hp & Hl & Hp'). rewrite Hp. by rewrite Hp', Hl in IH.
  - by rewrite lease_run_closed by apply Hst.
  - by rewrite lease_run_closed by apply Hst.
Qed.

Lemma broker_beats_rise ops s :
  lease_inv s -> forallb broker_op ops = true ->
  rising (last_heartbeat s) (beats (fst (lease_run ops s))).
Proof.
  revert s. induction ops as [|op ops IH]; intros s Hinv Hops; [done|].
  cbn in Hops. apply andb_true_iff in Hops as [Hop Hops].
  pose proof (lease_step_inv op s Hinv) as Hinv1.
  destruct (lease_step op s) as [[e|e] s1] eqn:Hs; [|by rewrite (run_cons_err _ _ _ _ _ Hs)].
  rewrite (run_cons _ _ _ _ _ Hs). specialize (IH s1 Hinv1 Hops).
  pose proof (step_open _ _ _ _ Hinv Hs) as Ho.
  pose proof (lease_step_open _ _ _ _ Ho Hs) as Hst.
  destruct op, e; try done.
  - destruct Hst as (_ & _ & Hl & _). by rewrite Hl in IH.
  - destruct Hst as (_ & Hp & Hl & _). rewrite Hl in IH.
    split; [by apply (lo_pending _ Ho)|done].
  - by rewrite lease_run_closed by apply Hst.
  - by rewrite lease_run_closed by apply Hst.
Qed.

(** Heartbeats are never replayed or reordered: the counters a target accepts, and the
    counters a broker sees answered, rise strictly above the last completed one, whatever
    bytes the peer sends and whatever calls are made in between. *)
Theorem heartbeats_rise ops s (Hinv : lease_inv s)
    (Hrole : forallb target_op ops = true \/ forallb broker_op ops = true) :
  rising (last_heartbeat s) (beats (fst (lease_run ops s))).
Proof.
  destruct Hrole; [|by apply broker_beats_rise].
  destruct (l_closed s) eqn:Hc; [by rewrite lease_run_closed|].
  eapply rising_weaken, target_beats_rise; [|done|done].
  unfold lease_inv in Hinv. rewrite Hc in Hinv. unfold floor.
  destruct (pending_heartbeat s) as [c|] eqn:Hp; cbn; [|lia].
  pose proof (lo_pending _ Hinv c Hp). lia.
Qed.
End Properties.

Section EndToEnd.
Context `{Minicbor} `{!MinicborLaws} `{Snow} `{!SnowLaws}.

(** Heartbeats are delivered and answered: on two linked ends that agree and are idle,
    any rising run of counters, within the counters' room, is exchanged without an error,
    each request reaching the target and each reply the broker, and leaves both ends idle at
    the last counter, still agreeing. *)
Theorem heartbeats_complete cs k b t last
    (Hpair : lease_pair k b t) (Hb : lease_idle last b) (Ht : lease_idle last t)
    (Hlast : 0 <= last) (Hcs : increasing last cs) (Hk : 2 * len cs <= k)
    (Hrb : beats_room b (len cs)) (Hrt : beats_room t (len cs)) :
  exists b' t', exchange_all cs (b, t) = (Ok tt, (b', t')) /\
    lease_pair (k - 2 * len cs) b' t' /\
    lease_idle (List.last cs last) b' /\ lease_idle (List.last cs last) t'.
Proof.
  revert k b t last Hpair Hb Ht Hlast Hcs Hk Hrb Hrt.
  induction cs as [|c cs IH]; intros k b t last Hpair Hb Ht Hlast Hcs Hk Hrb Hrt.
  { exists b, t. rewrite (@len_nil Z), Z.mul_0_r, Z.sub_0_r. done. }
  destruct Hcs as [Hc Hcs]. rewrite len_cons in *. pose proof (len_nonneg cs).
  destruct (exchange_ok k b t last c (1 + len cs) Hpair Hb Ht)
    as (b1 & t1 & He & Hpair1 & Hb1 & Ht1 & Hrb1 & Hrt1); try done; try lia.
  replace (1 + len cs - 1) with (len cs) in * by lia.
  destruct (IH (k - 2) b1 t1 c) as (b' & t' & Hall & Hpair' & Hb' & Ht'); try done; try lia.
  exists b', t'. cbn [exchange_all]. rewrite (mbind_M_step _ _ _ _ _ He).
  replace (k - 2 * (1 + len cs)) with (k - 2 - 2 * len cs) by lia.
  by rewrite last_cons.
Qed.

(** A Close is always possible and always understood: on an open connection linked to
    its peer the reserve pays for it, whatever was sent before; the peer's [read_close]
    returns its reason and hand-off state, a pending heartbeat read reports it as the peer's
    close, and both ends are closed. *)
Theorem lease_close_delivers k a b r h (Hpair : lease_pair k a b) (Hk : 0 < k) :
  exists f a', lease_write_close r h a = (Ok f, a') /\ l_closed a' = true /\
    (exists b', lease_read_close f b = (Ok (r, h), b') /\ l_closed b' = true) /\
    fst (read_heartbeat_reply f b) = Err (Error_peer_close r h) /\
    (pending_heartbeat b = None ->
     fst (read_heartbeat_request f b) = Err (Error_peer_close r h)).
Proof.
  destruct (close_payload_ok r h) as (d & Hd & Hlen).
  destruct (record_delivers k a b Close d Hpair Hk ltac:(lia)) as
    (f & p & ta & tb & Hw & Hdec & Hrec & Hval & _).
  { rewrite Hlen. apply (lo_reserve _ (lp_left _ _ _ Hpair)). }
  pose proof (parse_close_complete _ _ _ Hd) as Hp.
  assert (Hbeat : forall role, fst (read_heartbeat f role b) = Err (Error_peer_close r h)).
  { intros role. unfold read_heartbeat.
    rewrite (mbind_M_step _ _ _ _ _ Hdec), (lift_bind _ _ _ _ Hrec). cbn [kind data].
    rewrite bool_decide_eq_true_2 by done.
    by rewrite (lift_bind _ _ _ _ Hval), (lift_bind _ _ _ _ Hp). }
  exists f. eexists. split_and!.
  - apply finish_result_ok. unfold core_write_close.
    by rewrite (lift_bind _ _ _ _ Hd), (mbind_M_step _ _ _ _ _ Hw), modify_bind.
  - done.
  - exists (close_state (received_state b (RECORD_HEADER_LEN + len d) tb)).
    split; [|done]. apply finish_result_ok. unfold core_read_close.
    rewrite (mbind_M_step _ _ _ _ _ Hdec), (lift_bind _ _ _ _ Hrec).
    rewrite (lift_bind _ _ _ _ Hval). cbn [data]. by rewrite (lift_bind _ _ _ _ Hp).
  - specialize (Hbeat 2). unfold read_heartbeat_reply, finish_result, mbind_M.
    destruct (read_heartbeat f 2 b) as [[] ?]; by cbn in *.
  - intros Hnone. specialize (Hbeat 1). unfold read_heartbeat_request, finish_result.
    rewrite get_bind, Hnone. m_run ltac:(done). unfold mbind_M.
    destruct (read_heartbeat f 1 b) as [[] ?]; by cbn in *.
Qed.

(** The Close a limit transition sends reaches the peer. *)
Lemma limit_delivers k a b :
  lease_pair k a b -> 0 < k ->
  exists f a' b', limit_error a = (Error_record_limit (Some f), close_state a') /\
    lease_read_close f b = (Ok (RecordLimit, NotHandedOff), b').
Proof.
  intros Hpair Hk. destruct (close_payload_ok RecordLimit NotHandedOff) as (d & Hd & Hlen).
  destruct (record_delivers k a b Close d Hpair Hk ltac:(lia)) as
    (f & p & ta & tb & Hw & Hdec & Hrec & Hval & _).
  { rewrite Hlen. apply (lo_reserve _ (lp_left _ _ _ Hpair)). }
  pose proof (lo_counts _ (lp_left _ _ _ Hpair)) as [Hr Hb].
  pose proof (parse_close_complete _ _ _ Hd) as Hp.
  exists f, (sent_state a (RECORD_HEADER_LEN + len d) ta),
    (close_state (received_state b (RECORD_HEADER_LEN + len d) tb)). split.
  - pose proof Hw as Hsent. apply write_record_ok in Hsent as
      (r & q & Hcr & Hre & Hroom & Hs); [|done..].
    assert (Hlim : limit_close_plaintext NotHandedOff = Ok q).
    { unfold limit_close_plaintext. rewrite Hd. cbn. by rewrite Hcr. }
    enough (limit_close a = (Ok f, sent_state a (RECORD_HEADER_LEN + len d) ta)) as Hc
      by (unfold limit_error; by rewrite Hc).
    unfold limit_close. rewrite (lift_bind _ _ _ _ Hlim), get_bind.
    pose proof (proj2 (limit_reached_false Close a q q Hr Hb
      (limit_close_plaintext_len _ _ Hlim)) Hroom) as Hover.
    rewrite bool_decide_eq_true_2 in Hover by done. rewrite Hover.
    apply room_close in Hroom as [Hr1 Hb1]. pose proof (len_nonneg q).
    apply send_booked_ok; [unfold RECORD_LIMIT, BYTE_LIMIT, U64_MAX in *; lia..|done].
  - apply finish_result_ok. unfold core_read_close.
    rewrite (mbind_M_step _ _ _ _ _ Hdec), (lift_bind _ _ _ _ Hrec).
    rewrite (lift_bind _ _ _ _ Hval). cbn [data]. by rewrite (lift_bind _ _ _ _ Hp).
Qed.

(** Reaching a record or byte limit is announced, never silent: on two linked idle ends
    a broker's heartbeat either arrives at the target, or fails with the limit as its reason
    and carries a Close frame from which the target reads the same limit, and the broker's
    end is closed. *)
Theorem limit_is_announced k b t c last
    (Hpair : lease_pair k b t) (Hk : 0 < k) (Hb : lease_idle last b)
    (Ht : lease_idle last t) (Hlast : 0 <= last) (Hc : last < c <= U64_MAX) :
  match write_heartbeat_request c b with
  | (Ok f, _) => fst (read_heartbeat_request f t) = Ok c
  | (Err e, b') =>
      reason e = RecordLimit /\ l_closed b' = true /\
      exists f, close_frame e = Some f /\
                fst (lease_read_close f t) = Ok (RecordLimit, NotHandedOff)
  end.
Proof.
  destruct Hb as [Hpb Hlb], Ht as [Hpt Hlt].
  pose proof (lp_binding _ _ _ Hpair) as [_ Hwf].
  pose proof (lo_counts _ (lp_left _ _ _ Hpair)) as [Hr Hbb].
  destruct (heartbeat_payload_ok 1 (l_binding b) c Hwf ltac:(auto) ltac:(lia))
    as (d & Hd & Hlen).
  unfold write_heartbeat_request, finish_result.
  rewrite get_bind, Hpb, Hlb. m_run ltac:(cbn; lia).
  destruct (decide (room Heartbeat b (RECORD_HEADER_LEN + len d))) as [Hroom|Hroom].
  - destruct (heartbeat_sent k b t 1 c d Hpair Hk ltac:(lia) ltac:(lia) Hd Hroom)
      as (f & ta & tb & Hw & Hrd & _).
    rewrite (mbind_M_step _ _ _ _ _ Hw). cbn [mbind_M modify ret].
    unfold read_heartbeat_request, finish_result. rewrite get_bind, Hpt. m_run ltac:(done).
    rewrite (mbind_M_step _ _ _ _ _ Hrd), get_bind. cbn [received_state l_set_received
      l_set_transport last_heartbeat]. rewrite Hlt. m_run lia. done.
  - destruct (limit_delivers k b t Hpair Hk) as (f & b' & t' & He & Hread).
    assert (Hw : write_heartbeat 1 c b = (Err (Error_record_limit (Some f)), close_state b')).
    { unfold write_heartbeat. rewrite get_bind, (lift_bind _ _ _ _ Hd).
      unfold write_record.
      assert (Hcr : complete_record Heartbeat d = Ok (mkRecord Heartbeat true true (len d) 0 d))
        by (unfold complete_record, ensure, U32_MAX; decide_cmp; done).
      destruct (Record_encode_ok (mkRecord Heartbeat true true (len d) 0 d)) as [q Hq];
        [cbn; unfold RECORD_DATA_MAX; lia|].
      destruct (limit_close_ok NotHandedOff) as (pc & Hpc & Hpl).
      rewrite (lift_bind _ _ _ _ Hcr), (lift_bind _ _ _ _ Hq), get_bind,
        (lift_bind _ _ _ _ Hpc).
      pose proof (Record_encode_len _ _ Hq) as Hql. cbn [data] in Hql.
      destruct (if bool_decide _ then _ else _) eqn:Hlim.
      { unfold throw_limit. by rewrite He. }
      apply limit_reached_false in Hlim; [|done..].
      unfold RECORD_HEADER_LEN in Hroom. by rewrite Hql in Hlim. }
    rewrite (mbind_M_fail _ _ _ _ _ Hw). cbn. split_and!; [done|done|].
    exists f. by rewrite Hread.
Qed.
End EndToEnd.

(** *** Concrete inputs: the two ends after a bootstrap *)

Definition ex_broker_lease : LeaseCore :=
  LeaseCore_new (RefTransport [] false 0 1 : TransportState) ex_lease_binding 0 0 1 150.
Definition ex_target_lease : LeaseCore :=
  LeaseCore_new (RefTransport [] true 1 0 : TransportState) ex_lease_binding 1 150 0 0.

Lemma ex_lease_open s :
  s = ex_broker_lease \/ s = ex_target_lease -> lease_open s.
Proof.
  intros [-> | ->]; split; try (vm_compute; intuition congruence); try (by eexists);
    try (vm_compute; split; congruence); done.
Qed.

Lemma ex_lease_pair : lease_pair 100 ex_broker_lease ex_target_lease.
Proof.
  split; [apply ex_lease_open; auto..| | |done|done].
  - do 2 eexists. split_and!; [done|done|]. by repeat split.
  - split; [done|exact ex_lease_binding_wf].
Qed.

Lemma lease_run_inv_witness :
  lease_inv (snd (lease_run [WriteRequest 1; ReadReply []; WriteRequest 2] ex_broker_lease)).
Proof.
  apply lease_run_inv. unfold lease_inv. cbn. apply ex_lease_open. by left.
Defined.

Lemma lease_closed_silent_witness :
  let s' := snd (lease_step (WriteReply 3) ex_target_lease) in
  l_closed s' = true /\ l_transport s' = None /\
  fst (lease_run [WriteClose Normal NotHandedOff] s') = [] /\
  l_closed (snd (lease_run [WriteClose Normal NotHandedOff] s')) = true /\
  forall op', exists e', fst (lease_step op' s') = Err e' /\ close_frame e' = None.
Proof.
  exact (lease_closed_silent (WriteReply 3) ex_target_lease (Error_new SequenceViolation)
    (snd (lease_step (WriteReply 3) ex_target_lease)) [WriteClose Normal NotHandedOff]
    eq_refl).
Defined.

Lemma heartbeats_rise_witness :
  rising 0 (beats (fst (lease_run [ReadRequest []; WriteReply 1] ex_target_lease))).
Proof.
  apply (heartbeats_rise [ReadRequest []; WriteReply 1] ex_target_lease).
  - unfold lease_inv. cbn. apply ex_lease_open. by right.
  - left. reflexivity.
Defined.

Lemma heartbeats_complete_witness :
  exists b' t', exchange_all [1; 2; 5] (ex_broker_lease, ex_target_lease)
    = (Ok tt, (b', t')) /\
    lease_pair (100 - 2 * len [1; 2; 5]) b' t' /\ lease_idle 5 b' /\ lease_idle 5 t'.
Proof.
  apply (heartbeats_complete [1; 2; 5] 100 ex_broker_lease ex_target_lease 0).
  - exact ex_lease_pair.
  - done.
  - done.
  - lia.
  - cbn. unfold U64_MAX. lia.
  - vm_compute. discriminate.
  - split; vm_compute; reflexivity.
  - split; vm_compute; reflexivity.
Defined.

Lemma lease_close_delivers_witness :
  exists f a', lease_write_close Stale HandoffPossibleOrConfirmed ex_broker_lease
      = (Ok f, a') /\ l_closed a' = true /\
    (exists b', lease_read_close f ex_target_lease
        = (Ok (Stale, HandoffPossibleOrConfirmed), b') /\ l_closed b' = true) /\
    fst (read_heartbeat_reply f ex_target_lease)
      = Err (Error_peer_close Stale HandoffPossibleOrConfirmed) /\
    (pending_heartbeat ex_target_lease = None ->
     fst (read_heartbeat_request f ex_target_lease)
       = Err (Error_peer_close Stale HandoffPossibleOrConfirmed)).
Proof.
  apply (lease_close_delivers 100); [exact ex_lease_pair|lia].
Defined.

Lemma limit_is_announced_witness :
  match write_heartbeat_request 7 ex_broker_lease with
  | (Ok f, _) => fst (read_heartbeat_request f ex_target_lease) = Ok 7
  | (Err e, b') =>
      reason e = RecordLimit /\ l_closed b' = true /\
      exists f, close_frame e = Some f /\
                fst (lease_read_close f ex_target_lease) = Ok (RecordLimit, NotHandedOff)
  end.
Proof.
  apply (limit_is_announced 100 _ _ _ 0).
  - exact ex_lease_pair.
  - lia.
  - done.
  - done.
  - lia.
  - unfold U64_MAX. lia.
Defined.
