(* ===== verification/Bootstrap.v ===== *)
(** The NK bootstrap ([TargetBootstrap], [TargetBootstrapAckSender], [BrokerBootstrap],
    [BrokerBootstrapAckReceiver] of [crypto-core/src/lib.rs]): the target initiates, the
    broker answers with the process secret, the target acknowledges, and both keep the
    transport as a lease connection. *)

From S2P Require Import Prelude Errors Crates CratesRef Cbor Outer Records Payloads NoiseIO Lease.

Section Bootstrap.
Context `{Minicbor} `{Snow}.

Record TargetBootstrap := mkTargetBootstrap {
  tb_state : HandshakeState;
  tb_binding : BootstrapBinding
}.

Record TargetBootstrapAckSender := mkAckSender {
  as_transport : option TransportState;
  as_ack : TargetBootstrapAck
}.

Record BrokerBootstrap := mkBrokerBootstrap {
  brb_state : HandshakeState;
  brb_binding : BootstrapBinding;
  brb_secret : bytes
}.

Record BrokerBootstrapAckReceiver := mkAckReceiver {
  ar_transport : option TransportState;
  ar_binding : BootstrapBinding;
  ar_nk_handshake_hash : bytes
}.

(** [fixed_ephemeral_key_for_testing_only], when a key is given. *)
Definition with_ephemeral (ephemeral : option bytes) (b : Builder) : Builder :=
  match ephemeral with Some k => builder_fixed_ephemeral_key k b | None => b end.

(** The protocol name is a literal that parses; [entropy] is what the builder draws. *)
Definition parse_name (name : bytes) : Res Builder :=
  res_of_option (Error_new InternalError) (builder_new name).

Definition TargetBootstrap_build (binding : BootstrapBinding) (broker_static_public : bytes)
    (ephemeral : option bytes) (entropy : bytes) : Res TargetBootstrap :=
  let? prologue := bootstrap_prologue binding in
  let? b := parse_name NK_NAME in
  let? b := core (builder_remote_public_key broker_static_public b) in
  let? b := core (builder_prologue prologue b) in
  let? state := core (build_initiator entropy (with_ephemeral ephemeral b)) in
  Ok {| tb_state := state; tb_binding := binding |}.

Definition TargetBootstrap_new (binding : BootstrapBinding) (broker_static_public : bytes)
    (entropy : bytes) : Res TargetBootstrap :=
  TargetBootstrap_build binding broker_static_public None entropy.

Definition tb_write_m1 : M TargetBootstrap Error bytes := fun s =>
  match m1_payload (tb_binding s) with
  | Err e => (Err e, s)
  | Ok p => let '(r, st) := write_handshake p (tb_state s) in
            (r, {| tb_state := st; tb_binding := tb_binding s |})
  end.

(** [read_m2] consumes the initiator. *)
Definition read_m2 (s : TargetBootstrap) (outer : bytes)
    (process_generation listener_epoch : Z) : Res (TargetBootstrapAckSender * bytes) :=
  check negb (negb (valid_generation process_generation) || negb (listener_epoch =? 1))
    else Error_new BindingMismatch in
  let '(payload, st) := read_handshake_mut outer (tb_state s) in
  let? payload := payload in
  let hash := get_handshake_hash st in
  let? secret := parse_m2 (tb_binding s) payload in
  let ack := {| ack_target_reference_digest := target_reference_digest (tb_binding s);
                ack_lease_id := bb_lease_id (tb_binding s);
                ack_process_generation := process_generation;
                ack_listener_epoch := listener_epoch;
                ack_nk_handshake_hash := hash |} in
  let? transport := core (into_transport_mode st) in
  Ok ({| as_transport := Some transport; as_ack := ack |}, secret).

Definition write_ack (s : TargetBootstrapAckSender) : Res (bytes * LeaseCore) :=
  let? payload := bootstrap_ack_payload (as_ack s) in
  let? record := complete_record Finished payload in
  let? plaintext := Record_encode record in
  let? transport := res_of_option (Error_new SequenceViolation) (as_transport s) in
  let '(frame, transport) := encrypt_transport plaintext transport in
  let? frame := frame in
  Ok (frame, LeaseCore_new transport (LeaseBinding_from_ack (as_ack s)) 1 (len plaintext) 0 0).

Definition BrokerBootstrap_build (binding : BootstrapBinding) (broker_static_private : bytes)
    (secret : bytes) (ephemeral : option bytes) (entropy : bytes) : Res BrokerBootstrap :=
  let? prologue := bootstrap_prologue binding in
  let? b := parse_name NK_NAME in
  let? b := core (builder_local_private_key broker_static_private b) in
  let? b := core (builder_prologue prologue b) in
  let? state := core (build_responder entropy (with_ephemeral ephemeral b)) in
  Ok {| brb_state := state; brb_binding := binding; brb_secret := secret |}.

Definition BrokerBootstrap_new (binding : BootstrapBinding) (broker_static_private : bytes)
    (secret : bytes) (entropy : bytes) : Res BrokerBootstrap :=
  BrokerBootstrap_build binding broker_static_private secret None entropy.

Definition bootstrap_read_m1_write_m2 (s : BrokerBootstrap) (outer : bytes)
    : Res (bytes * BrokerBootstrapAckReceiver) :=
  let '(payload, st) := read_handshake_mut outer (brb_state s) in
  let? payload := payload in
  let? expected := m1_payload (brb_binding s) in
  check bytes_eqb payload expected else Error_new AuthenticationFailed in
  let? m2_payload := expected_m2 (brb_binding s) (brb_secret s) in
  let '(m2, st) := write_handshake m2_payload st in
  let? m2 := m2 in
  let hash := get_handshake_hash st in
  let? transport := core (into_transport_mode st) in
  Ok (m2, {| ar_transport := Some transport; ar_binding := brb_binding s;
             ar_nk_handshake_hash := hash |}).

Definition read_ack (s : BrokerBootstrapAckReceiver) (outer : bytes)
    : Res (TargetBootstrapAck * LeaseCore) :=
  let? transport := res_of_option (Error_new SequenceViolation) (ar_transport s) in
  let '(plaintext, transport) := decrypt_transport outer transport in
  let? plaintext := plaintext in
  let? record := Record_decode plaintext in
  let? _ := validate_complete_record record Finished in
  let? ack := parse_bootstrap_ack (data record) (ar_binding s) (ar_nk_handshake_hash s) in
  Ok (ack, LeaseCore_new transport (LeaseBinding_from_ack ack) 0 0 1 (len plaintext)).
End Bootstrap.

(** ** Properties *)

Section BootstrapProperties.
Context `{Minicbor} `{!MinicborLaws} `{Snow} `{!SnowLaws}.

Lemma new_lease_open t b sr sp rr rp :
  0 <= sr -> 0 <= sp -> room Close (LeaseCore_new t b sr sp rr rp) CLOSE_LEN ->
  0 <= rr < RECORD_LIMIT -> 0 <= rp < BYTE_LIMIT ->
  lease_open (LeaseCore_new t b sr sp rr rp).
Proof. intros. by split; try (by exists t). Qed.

(** The broker hands out a lease only on an acknowledgement that binds: whatever bytes
    arrive, if [read_ack] succeeds then the acknowledgement repeats the expected digest and
    lease, the hash of this very handshake, epoch 1 and a generation in range; the lease is
    bound to exactly that, open, and has counted that one record. *)
Theorem read_ack_binds r outer ack lease (Hr : read_ack r outer = Ok (ack, lease)) :
  ack_binds (ar_binding r) (ar_nk_handshake_hash r) ack /\
  l_binding lease = LeaseBinding_from_ack ack /\ lease_open lease /\ lease_idle 0 lease /\
  l_sent_records lease = 0 /\ l_received_records lease = 1.
Proof.
  unfold read_ack in Hr. res_inv Hr.
  destruct (decrypt_transport outer a) as [[p|] t'] eqn:Hd; [|done]. cbn [res_bind] in Hr.
  res_inv Hr. simplify_eq.
  match goal with Hp : parse_bootstrap_ack _ _ _ = _ |- _ =>
    apply parse_bootstrap_ack_canonical in Hp as [_ Hb] end.
  assert (Hlen : 0 <= len p <= 70000).
  { pose proof (len_nonneg p). match goal with Hp : Record_decode p = _ |- _ =>
      unfold Record_decode in Hp; res_inv Hp end. bool_split.
    unfold RECORD_HEADER_LEN, RECORD_DATA_MAX in *. lia. }
  split_and!; try done.
  apply new_lease_open; try lia; [apply room_close; cbn|..];
    unfold CLOSE_LEN, RECORD_LIMIT, BYTE_LIMIT; lia.
Qed.

(** The target's side of the same contract. *)
Lemma read_m2_binds s outer g e sender secret :
  read_m2 s outer g e = Ok (sender, secret) ->
  len secret = 32 /\ ack_process_generation (as_ack sender) = g /\
  ack_binds (tb_binding s) (ack_nk_handshake_hash (as_ack sender)) (as_ack sender).
Proof.
  unfold read_m2. intros Hr. res_inv Hr.
  destruct (read_handshake_mut outer (tb_state s)) as [[p|] st]; [|done]. cbn [res_bind] in Hr.
  res_inv Hr. simplify_eq.
  match goal with Hp : parse_m2 _ _ = _ |- _ =>
    apply parse_m2_canonical in Hp as [_ Hs] end. bool_split.
  unfold valid_generation in *. bool_split. split_and!; [done|done|]. split; cbn; done || lia.
Qed.

Lemma core_ok {A} (o : option A) a : core o = Ok a <-> o = Some a.
Proof. apply res_of_option_ok. Qed.

(** Two bootstraps built for one binding and one broker key complete each other. *)
Lemma bootstraps_complete binding sk secret ei er t b :
  TargetBootstrap_new binding (x25519_public sk) ei = Ok t ->
  BrokerBootstrap_new binding sk secret er = Ok b ->
  handshake_completes (tb_state t) (brb_state b) /\
  tb_binding t = binding /\ brb_binding b = binding /\ brb_secret b = secret.
Proof.
  unfold TargetBootstrap_new, TargetBootstrap_build, BrokerBootstrap_new,
    BrokerBootstrap_build, with_ephemeral, parse_name.
  intros Ht Hb. res_inv Ht. res_inv Hb. simplify_eq. cbn.
  repeat match goal with Hc : core _ = Ok _ |- _ => apply core_ok in Hc end.
  simplify_eq. split_and!; try done. assert (a4 = a) as -> by congruence.
  by eapply nk_completes.
Qed.

Lemma read_back {A} (m : M HandshakeState Error bytes) st p st' (k : bytes -> Res A) :
  m st = (Ok p, st') -> (let '(r, _) := m st in res_bind r k) = k p.
Proof. by intros ->. Qed.

(** The acknowledgement of a lease, from one linked transport to the other. *)
Lemma ack_delivers k ti tr binding hash ack :
  BootstrapBinding_wf binding -> len hash = 32 -> ack_binds binding hash ack ->
  linked k ti tr -> 0 < k ->
  exists f lt lb,
    write_ack {| as_transport := Some ti; as_ack := ack |} = Ok (f, lt) /\
    read_ack {| ar_transport := Some tr; ar_binding := binding;
                ar_nk_handshake_hash := hash |} f = Ok (ack, lb) /\
    lease_pair (k - 1) lb lt /\ lease_idle 0 lb /\ lease_idle 0 lt.
Proof.
  intros Hwf Hh Hack Hl Hk.
  destruct (bootstrap_ack_payload_ok binding hash ack Hwf Hh Hack) as (d & Hd & Hdl).
  set (r := mkRecord Finished true true (len d) 0 d).
  destruct (Record_encode_ok r) as [p Hp]; [cbn; unfold RECORD_DATA_MAX; lia|].
  pose proof (Record_encode_len _ _ Hp) as Hpl. cbn in Hpl.
  destruct (transport_delivers k ti tr p Hl Hk) as (f & ti' & tr' & He & Hdec & Hl').
  { unfold PLAINTEXT_MAX. lia. }
  exists f, (LeaseCore_new ti' (LeaseBinding_from_ack ack) 1 (len p) 0 0),
    (LeaseCore_new tr' (LeaseBinding_from_ack ack) 0 0 1 (len p)).
  pose proof Hack as [_ Hlease Hg Hepoch _]. pose proof (bb_lease_len _ Hwf).
  split_and!; try done.
  - unfold write_ack. cbn [as_transport as_ack]. rewrite Hd. cbn [res_bind].
    unfold complete_record, ensure, U32_MAX. decide_cmp. cbn [res_bind]. fold r.
    rewrite Hp. cbn [res_bind res_of_option]. by rewrite He.
  - unfold read_ack. cbn [ar_transport ar_binding ar_nk_handshake_hash].
    cbn [res_bind res_of_option]. rewrite Hdec. cbn [res_bind].
    rewrite (record_decode_encode r p); [|split; cbn; unfold U32_MAX; lia|done].
    cbn [res_bind]. unfold validate_complete_record.
    rewrite bool_decide_eq_true_2 by done. cbn. rewrite Z.eqb_refl. cbn.
    by rewrite (parse_bootstrap_ack_complete d binding hash ack).
  - assert (Hwfl : LeaseBinding_wf (LeaseBinding_from_ack ack)).
    { split; cbn; [congruence|unfold is_u64, U64_MAX, JSON_SAFE_MAX in *; lia..]. }
    split; try done; [| |by exists tr', ti'; split_and!; try apply linked_sym];
      (apply new_lease_open; [lia|lia|apply room_close; cbn|..]);
      unfold CLOSE_LEN, RECORD_LIMIT, BYTE_LIMIT; lia.
Qed.

(** The three messages of a bootstrap, end to end. *)
Lemma bootstrap_messages binding sk secret g ei er t b
    (Hwf : BootstrapBinding_wf binding) (Hs : len secret = 32)
    (Hg : 1 <= g <= JSON_SAFE_MAX)
    (Ht : TargetBootstrap_new binding (x25519_public sk) ei = Ok t)
    (Hb : BrokerBootstrap_new binding sk secret er = Ok b) :
  exists m1 t1 m2 receiver sender f lt ack lb,
    tb_write_m1 t = (Ok m1, t1) /\
    bootstrap_read_m1_write_m2 b m1 = Ok (m2, receiver) /\
    read_m2 t1 m2 g 1 = Ok (sender, secret) /\
    write_ack sender = Ok (f, lt) /\ read_ack receiver f = Ok (ack, lb) /\
    ack_process_generation ack = g /\
    ack_binds binding (ar_nk_handshake_hash receiver) ack /\
    lease_pair (NONCES - 1) lb lt /\ lease_idle 0 lb /\ lease_idle 0 lt /\
    as_ack sender = ack.
Proof.
  destruct (bootstraps_complete _ _ _ _ _ _ _ Ht Hb) as (Hc & Htb & Hbb & Hbs).
  destruct (m1_payload_ok binding Hwf) as (p1 & Hp1 & Hl1).
  destruct (expected_m2_ok binding secret Hwf Hs) as (p2 & Hp2 & Hl2).
  destruct (handshake_delivers _ _ p1 p2 Hc ltac:(lia) ltac:(lia)) as
    (m1 & i1 & r1 & m2 & i2 & r2 & ti & tr & Hw1 & Hr1 & Hw2 & Hr2 & Hh & Hhl & Hti & Htr
     & Hlink).
  set (hash := get_handshake_hash r2) in *. rewrite Hh in Hhl.
  set (ack := {| ack_target_reference_digest := target_reference_digest binding;
                 ack_lease_id := bb_lease_id binding; ack_process_generation := g;
                 ack_listener_epoch := 1; ack_nk_handshake_hash := hash |}).
  assert (Hack : ack_binds binding hash ack) by (by split).
  destruct (ack_delivers NONCES ti tr binding hash ack Hwf Hhl Hack Hlink) as
    (f & lt & lb & Hwa & Hra & Hpair & Hib & Hit); [unfold NONCES; lia|].
  exists m1, {| tb_state := i1; tb_binding := binding |}, m2,
    {| ar_transport := Some tr; ar_binding := binding; ar_nk_handshake_hash := hash |},
    {| as_transport := Some ti; as_ack := ack |}, f, lt, ack, lb.
  split_and!; try done.
  - unfold tb_write_m1. by rewrite Htb, Hp1, Hw1.
  - unfold bootstrap_read_m1_write_m2. rewrite Hr1, Hbb, Hbs. cbn [res_bind].
    rewrite Hp1. cbn [res_bind]. rewrite bytes_eqb_refl. cbn [ensure res_bind].
    rewrite Hp2. cbn [res_bind]. rewrite Hw2. cbn [res_bind]. by rewrite Htr.
  - unfold read_m2. cbn [tb_state tb_binding].
    replace (valid_generation g) with true
      by (unfold valid_generation; symmetry; apply andb_true_iff; lia).
    cbn [ensure negb orb Z.eqb Pos.eqb res_bind]. rewrite Hr2. cbn [res_bind].
    rewrite (parse_m2_complete p2 binding secret Hwf Hs Hp2). cbn [res_bind].
    rewrite Hti, Hh. done.
Qed.

(** The bootstrap completes: a target and a broker built for one binding, with the
    broker's public key known to the target, exchange three messages after which the target
    holds the broker's secret, the broker holds the target's acknowledgement of the chosen
    generation, and the two hold the ends of one lease: linked transports, one binding,
    mirrored counters, no heartbeat pending. *)
Theorem bootstrap_completes binding sk secret g ei er t b
    (Hwf : BootstrapBinding_wf binding) (Hs : len secret = 32)
    (Hg : 1 <= g <= JSON_SAFE_MAX)
    (Ht : TargetBootstrap_new binding (x25519_public sk) ei = Ok t)
    (Hb : BrokerBootstrap_new binding sk secret er = Ok b) :
  exists m1 t1 m2 receiver sender f lt ack lb,
    tb_write_m1 t = (Ok m1, t1) /\
    bootstrap_read_m1_write_m2 b m1 = Ok (m2, receiver) /\
    read_m2 t1 m2 g 1 = Ok (sender, secret) /\
    write_ack sender = Ok (f, lt) /\ read_ack receiver f = Ok (ack, lb) /\
    ack_process_generation ack = g /\
    ack_binds binding (ar_nk_handshake_hash receiver) ack /\
    lease_pair (NONCES - 1) lb lt /\ lease_idle 0 lb /\ lease_idle 0 lt.
Proof.
  destruct (bootstrap_messages binding sk secret g ei er t b) as
    (m1 & t1 & m2 & receiver & sender & f & lt & ack & lb & Hx); try done.
  exists m1, t1, m2, receiver, sender, f, lt, ack, lb. naive_solver.
Qed.
End BootstrapProperties.

(** *** Concrete inputs *)

Definition ex_broker_key : bytes := repeat (b8 6) 32.
Definition ex_secret : bytes := repeat (b8 4) 32.

Definition ex_hs_state (name key prologue : bytes) (role : bool) : HandshakeState :=
  RefHandshake key (name ++ key ++ prologue) role.
Definition ex_target_bootstrap : TargetBootstrap :=
  {| tb_state := ex_hs_state NK_NAME ex_broker_key
                   (bytes_of (bootstrap_prologue ex_bootstrap_binding)) true;
     tb_binding := ex_bootstrap_binding |}.
Definition ex_broker_bootstrap : BrokerBootstrap :=
  {| brb_state := ex_hs_state NK_NAME ex_broker_key
                    (bytes_of (bootstrap_prologue ex_bootstrap_binding)) false;
     brb_binding := ex_bootstrap_binding; brb_secret := ex_secret |}.

Lemma bootstrap_completes_witness :
  exists m1 t1 m2 receiver sender f lt ack lb,
    tb_write_m1 ex_target_bootstrap = (Ok m1, t1) /\
    bootstrap_read_m1_write_m2 ex_broker_bootstrap m1 = Ok (m2, receiver) /\
    read_m2 t1 m2 5 1 = Ok (sender, ex_secret) /\
    write_ack sender = Ok (f, lt) /\ read_ack receiver f = Ok (ack, lb) /\
    ack_process_generation ack = 5 /\
    ack_binds ex_bootstrap_binding (ar_nk_handshake_hash receiver) ack /\
    lease_pair (NONCES - 1) lb lt /\ lease_idle 0 lb /\ lease_idle 0 lt.
Proof.
  apply (bootstrap_completes ex_bootstrap_binding ex_broker_key ex_secret 5 [] []).
  - exact ex_bootstrap_binding_wf.
  - reflexivity.
  - unfold JSON_SAFE_MAX. lia.
  - reflexivity.
  - reflexivity.
Defined.

(** An acknowledgement as the target would send it. *)
Definition ex_receiver : BrokerBootstrapAckReceiver :=
  {| ar_transport := Some (RefTransport [] false 0 0 : TransportState);
     ar_binding := ex_bootstrap_binding; ar_nk_handshake_hash := repeat (b8 9) 32 |}.
Definition ex_ack_frame : bytes :=
  match write_ack {| as_transport := Some (RefTransport [] true 0 0 : TransportState);
                     as_ack := ex_ack |} with
  | Ok (f, _) => f
  | Err _ => []
  end.

Lemma read_ack_binds_witness :
  match read_ack ex_receiver ex_ack_frame with
  | Ok (ack, lease) =>
      ack_binds ex_bootstrap_binding (repeat (b8 9) 32) ack /\
      l_binding lease = LeaseBinding_from_ack ack /\ lease_open lease /\ lease_idle 0 lease
  | Err _ => False
  end.
Proof.
  destruct (read_ack ex_receiver ex_ack_frame) as [[ack lease]|e] eqn:Hr.
  - destruct (read_ack_binds ex_receiver ex_ack_frame ack lease Hr) as (? & ? & ? & ? & _).
    split_and!; assumption.
  - assert (Hok : is_ok (read_ack ex_receiver ex_ack_frame) = true)
      by (vm_compute; reflexivity).
    rewrite Hr in Hok. discriminate Hok.
Defined.
