(* ===== verification/Session.v ===== *)
(** The NNpsk0 session ([SessionCore], [TargetSession], [BrokerSession] of
    [crypto-core/src/lib.rs]): handshake, Finished exchange, half-duplex application
    messages and Close over one counted transport. *)

From S2P Require Import Prelude Errors Crates CratesRef Cbor Outer Records Payloads Reassembly NoiseIO Lease Bootstrap.

Section Core.
Context `{Minicbor} `{Snow}.

Record SessionCore := mkSession {
  s_handshake : option HandshakeState;
  s_transport : option TransportState;
  s_binding : SessionBinding;
  session_hash : option bytes;
  s_limits : SessionLimits;
  s_reassembly : RecordReassembler;
  sent_finished : bool;
  got_finished : bool;
  peer_turn : bool;
  first_application : bool;
  s_closed : bool;
  s_sent_records : Z;
  s_sent_plaintext : Z;
  s_received_records : Z;
  s_received_plaintext : Z;
  s_handoff : HandoffState
}.

(** Field updates; [upd_keys] covers the handshake, transport and session hash. *)
Definition upd_keys (h : option HandshakeState) (t : option TransportState)
    (k : option bytes) (s : SessionCore) : SessionCore :=
  mkSession h t (s_binding s) k (s_limits s) (s_reassembly s) (sent_finished s)
    (got_finished s) (peer_turn s) (first_application s) (s_closed s) (s_sent_records s)
    (s_sent_plaintext s) (s_received_records s) (s_received_plaintext s) (s_handoff s).
Definition upd_reassembly (r : RecordReassembler) (s : SessionCore) : SessionCore :=
  mkSession (s_handshake s) (s_transport s) (s_binding s) (session_hash s) (s_limits s) r
    (sent_finished s) (got_finished s) (peer_turn s) (first_application s) (s_closed s)
    (s_sent_records s) (s_sent_plaintext s) (s_received_records s)
    (s_received_plaintext s) (s_handoff s).
Definition upd_flags (sent got turn first closed : bool) (s : SessionCore) : SessionCore :=
  mkSession (s_handshake s) (s_transport s) (s_binding s) (session_hash s) (s_limits s)
    (s_reassembly s) sent got turn first closed (s_sent_records s) (s_sent_plaintext s)
    (s_received_records s) (s_received_plaintext s) (s_handoff s).
Definition upd_usage (sr sp rr rp : Z) (s : SessionCore) : SessionCore :=
  mkSession (s_handshake s) (s_transport s) (s_binding s) (session_hash s) (s_limits s)
    (s_reassembly s) (sent_finished s) (got_finished s) (peer_turn s)
    (first_application s) (s_closed s) sr sp rr rp (s_handoff s).
Definition upd_handoff (h : HandoffState) (s : SessionCore) : SessionCore :=
  mkSession (s_handshake s) (s_transport s) (s_binding s) (session_hash s) (s_limits s)
    (s_reassembly s) (sent_finished s) (got_finished s) (peer_turn s)
    (first_application s) (s_closed s) (s_sent_records s) (s_sent_plaintext s)
    (s_received_records s) (s_received_plaintext s) h.

Definition set_transport (t : option TransportState) (s : SessionCore) : SessionCore :=
  upd_keys (s_handshake s) t (session_hash s) s.
Definition set_handshake (h : option HandshakeState) (s : SessionCore) : SessionCore :=
  upd_keys h (s_transport s) (session_hash s) s.
Definition set_hash (k : option bytes) (s : SessionCore) : SessionCore :=
  upd_keys (s_handshake s) (s_transport s) k s.
Definition set_sent_finished (s : SessionCore) : SessionCore :=
  upd_flags true (got_finished s) (peer_turn s) (first_application s) (s_closed s) s.
Definition set_got_finished (s : SessionCore) : SessionCore :=
  upd_flags (sent_finished s) true (peer_turn s) (first_application s) (s_closed s) s.
Definition set_peer_turn (b : bool) (s : SessionCore) : SessionCore :=
  upd_flags (sent_finished s) (got_finished s) b (first_application s) (s_closed s) s.
Definition set_first_application (s : SessionCore) : SessionCore :=
  upd_flags (sent_finished s) (got_finished s) (peer_turn s) true (s_closed s) s.
Definition set_closed (s : SessionCore) : SessionCore :=
  upd_flags (sent_finished s) (got_finished s) (peer_turn s) (first_application s) true s.
Definition set_sent (r p : Z) (s : SessionCore) : SessionCore :=
  upd_usage r p (s_received_records s) (s_received_plaintext s) s.
Definition set_received (r p : Z) (s : SessionCore) : SessionCore :=
  upd_usage (s_sent_records s) (s_sent_plaintext s) r p s.

Definition SM := M SessionCore Error.

(** Zeroizing the [Option] of the hash leaves [None]. *)
Definition session_close_state (s : SessionCore) : SessionCore :=
  upd_reassembly (ra_clear (s_reassembly s)) (upd_keys None None None (set_closed s)).

(** What [read_close] and [write_close] do: the hash stays. *)
Definition session_end (s : SessionCore) : SessionCore :=
  upd_reassembly (ra_clear (s_reassembly s))
    (upd_keys None None (session_hash s) (set_closed s)).

Definition finish {A} (m : SM A) : SM A := fun s =>
  match m s with
  | (Err e, s') => (Err e, session_close_state s')
  | (Ok a, s') => (Ok a, s')
  end.

Definition SessionCore_new (binding : SessionBinding) (pbs : bytes) (limits : SessionLimits)
    (initiator : bool) (inbound_cap : Z) (turn : bool) (ephemeral : option bytes)
    (entropy : bytes) : Res SessionCore :=
  check bool_decide (limits = SessionLimits_default) else Error_new BindingMismatch in
  let? prologue := session_prologue binding limits in
  let? b := parse_name NNPSK0_NAME in
  let? b := core (builder_psk 0 pbs b) in
  let? b := core (builder_prologue prologue b) in
  let b := with_ephemeral ephemeral b in
  let? handshake := core (if initiator then build_initiator entropy b
                          else build_responder entropy b) in
  let? reassembly := RecordReassembler_new inbound_cap in
  Ok (mkSession (Some handshake) None binding None limits reassembly false false turn false
        false 0 0 0 0 NotHandedOff).

(** [f(self.handshake.as_mut().ok_or(..)?)]. *)
Definition on_handshake {A} (f : M HandshakeState Error A) : SM A := fun s =>
  match s_handshake s with
  | None => (err SequenceViolation, s)
  | Some h => let '(r, h') := f h in (r, set_handshake (Some h') s)
  end.

Definition s_write_handshake (payload : bytes) : SM bytes :=
  on_handshake (write_handshake payload).

Definition s_read_handshake (outer : bytes) : SM unit :=
  do payload <- on_handshake (read_handshake_mut outer);
  lift (ensure (is_empty payload) (Error_new AuthenticationFailed)).

Definition finish_handshake : SM unit :=
  do s <- get;
  do h <- lift (res_of_option (Error_new SequenceViolation) (s_handshake s));
  run modify (set_handshake None);
  run modify (set_hash (Some (get_handshake_hash h)));
  do t <- lift (core (into_transport_mode h));
  modify (set_transport (Some t)).

Definition read_handshake_finish (outer : bytes) : SM unit :=
  run s_read_handshake outer; finish_handshake.

(** [f(self.transport()?)]. *)
Definition s_on_transport {A} (f : M TransportState Error A) : SM A := fun s =>
  if s_closed s then (err SequenceViolation, s)
  else match s_transport s with
       | None => (err SequenceViolation, s)
       | Some t => let '(r, t') := f t in (r, set_transport (Some t') s)
       end.

Definition send_usage_after (s : SessionCore) (additional_records additional_bytes : Z)
    (reserve_close : bool) : Res (option (Z * Z)) :=
  match checked_add (s_sent_records s) additional_records with
  | None => Ok None
  | Some next_records =>
      match checked_add (s_sent_plaintext s) additional_bytes with
      | None => Ok None
      | Some next_bytes =>
          let? '(records_with_reserve, bytes_with_reserve) :=
            if reserve_close
            then let? c := limit_close_plaintext (s_handoff s) in
                 Ok (checked_add next_records 1, checked_add next_bytes (len c))
            else Ok (Some next_records, Some next_bytes) in
          if over_records records_with_reserve || over_bytes bytes_with_reserve
          then Ok None
          else Ok (Some (next_records, next_bytes))
      end
  end.

(** Encrypts one plaintext and books the usage computed before. *)
Definition s_send_booked (plaintext : bytes) (usage : Z * Z) : SM bytes :=
  do frame <- s_on_transport (encrypt_transport plaintext);
  run modify (fun s => set_sent (fst usage) (snd usage) s);
  ret frame.

(** The closure of [record_limit_error_with_handoff]. *)
Definition record_limit_close (handoff : HandoffState) : SM bytes :=
  do plaintext <- lift (limit_close_plaintext handoff);
  do s <- get;
  do usage <- lift (send_usage_after s 1 (len plaintext) false);
  do usage <- lift (res_of_option (Error_new RecordLimit) usage);
  s_send_booked plaintext usage.

Definition record_limit_error_with_handoff (handoff : HandoffState) (s : SessionCore)
    : Error * SessionCore :=
  let '(r, s') := record_limit_close handoff s in
  (Error_record_limit (match r with Ok f => Some f | Err _ => None end),
   session_close_state s').

Definition throw_record_limit {A} (handoff : HandoffState) : SM A := fun s =>
  let '(e, s') := record_limit_error_with_handoff handoff s in (Err e, s').

(** [record_limit_error()]: with the session's own hand-off state. *)
Definition throw_own_limit {A} : SM A :=
  do s <- get; throw_record_limit (s_handoff s).

Definition encrypt_counted (plaintext : bytes) : SM bytes :=
  do s <- get;
  do usage <- lift (send_usage_after s 1 (len plaintext) true);
  match usage with
  | None => throw_own_limit
  | Some usage => s_send_booked plaintext usage
  end.

Definition s_write_record (k : RecordKind) (payload : bytes) : SM bytes :=
  do record <- lift (complete_record k payload);
  do plaintext <- lift (Record_encode record);
  encrypt_counted plaintext.

Definition s_decrypt_counted (outer : bytes) : SM bytes :=
  do plaintext <- s_on_transport (decrypt_transport outer);
  do s <- get;
  let next_records := checked_add (s_received_records s) 1 in
  let next_bytes := checked_add (s_received_plaintext s) (len plaintext) in
  if over_records next_records || over_bytes next_bytes then throw_own_limit
  else run modify (set_received (default 0 next_records) (default 0 next_bytes));
       ret plaintext.
End Core.

(** ** The operations of the core *)

Section Operations.
Context `{Minicbor} `{Snow}.

Definition seq_violation : Error := Error_new SequenceViolation.

Definition core_write_finished (role : Z) : SM bytes :=
  do s <- get;
  run lift (ensure (negb (sent_finished s)) seq_violation);
  do hash <- lift (res_of_option seq_violation (session_hash s));
  do body <- lift (finished (s_binding s) role hash);
  do frame <- s_write_record Finished body;
  run modify set_sent_finished;
  ret frame.

Definition core_read_finished (outer : bytes) (role : Z) : SM unit :=
  do s <- get;
  if got_finished s
  then run modify set_closed; throw (Error_new AuthenticationFailed)
  else
    do expected_hash <- lift (res_of_option seq_violation (session_hash s));
    do plain <- s_decrypt_counted outer;
    do record <- lift (Record_decode plain);
    run lift (validate_complete_record record Finished);
    do s <- get;
    do r <- lift (parse_finished (data record) (s_binding s) expected_hash);
    run lift (ensure (r =? role) (Error_new AuthenticationFailed));
    modify set_got_finished.

(** The [for] over the plaintexts of a message. *)
Fixpoint encrypt_all (plaintexts : list bytes) : SM (list bytes) :=
  match plaintexts with
  | [] => ret []
  | p :: ps =>
      do f <- s_on_transport (encrypt_transport p);
      do fs <- encrypt_all ps;
      ret (f :: fs)
  end.

(** [try_fold] of the lengths with [checked_add]. *)
Definition message_bytes (plaintexts : list bytes) : option Z :=
  foldl (fun total p => total ≫= fun t => checked_add t (len p)) (Some 0) plaintexts.

Definition write_application (payload : bytes) (cap : Z) : SM (list bytes) :=
  do s <- get;
  run lift (ensure (negb (negb (sent_finished s) || negb (got_finished s) || peer_turn s
                          || is_empty payload)) seq_violation);
  run lift (ensure (len payload <=? cap) (Error_new Oversize));
  do plaintexts <- lift (fragment_records Application payload);
  do usage <- lift (match message_bytes plaintexts with
                    | Some b => send_usage_after s (len plaintexts) b true
                    | None => Ok None
                    end);
  match usage with
  | None => throw_own_limit
  | Some (next_records, next_bytes) =>
      do frames <- encrypt_all plaintexts;
      run modify (set_sent next_records next_bytes);
      run modify (set_peer_turn true);
      ret frames
  end.

(** Runs the reassembler of the session. *)
Definition on_reassembly {A} (m : M RecordReassembler Error A) : SM A := fun s =>
  let '(r, ra) := m (s_reassembly s) in (r, upd_reassembly ra s).

Definition core_read_application (outer : bytes) : SM (option bytes) :=
  do s <- get;
  run lift (ensure (sent_finished s && got_finished s) seq_violation);
  do plain <- s_decrypt_counted outer;
  do record <- lift (Record_decode plain);
  if bool_decide (kind record = Close)
  then run lift (validate_complete_record record Close);
       do ' (reason, handoff) <- lift (parse_close (data record));
       run modify set_closed;
       throw (Error_peer_close reason handoff)
  else
    do s <- get;
    run lift (ensure (peer_turn s) seq_violation);
    run lift (ensure (bool_decide (kind record = Application)) seq_violation);
    do message <- on_reassembly (accept record);
    match message with
    | Some (_, b) =>
        run lift (ensure (negb (is_empty b)) (Error_new Malformed));
        run modify (set_peer_turn false);
        ret (Some b)
    | None => ret None
    end.

Definition s_eof : SM unit := fun s =>
  if s_closed s then (err SequenceViolation, s)
  else
    let '(r, s') := on_reassembly ra_eof s in
    (match r with Ok _ => err PeerClosed | Err e => Err e end, session_close_state s').

Definition s_core_read_close (outer : bytes) : SM (CloseReason * HandoffState) :=
  do s <- get;
  run lift (ensure (sent_finished s && got_finished s) seq_violation);
  do plaintext <- s_decrypt_counted outer;
  do record <- lift (Record_decode plaintext);
  run lift (validate_complete_record record Close);
  do close <- lift (parse_close (data record));
  run modify session_end;
  ret close.

Definition s_core_write_close (reason : CloseReason) (handoff : HandoffState) : SM bytes :=
  do s <- get;
  let effective_handoff := conservative_max (s_handoff s) handoff in
  do payload <- lift (close_payload reason effective_handoff);
  do record <- lift (complete_record Close payload);
  do plaintext <- lift (Record_encode record);
  do usage <- lift (send_usage_after s 1 (len plaintext) false);
  match usage with
  | None => throw_record_limit effective_handoff
  | Some usage =>
      do frame <- s_send_booked plaintext usage;
      run modify session_end;
      ret frame
  end.

Definition validate_binding (process_generation listener_epoch : Z) : SM unit := fun s =>
  if (process_generation =? sb_process_generation (s_binding s))
     && (listener_epoch =? sb_listener_epoch (s_binding s))
  then (Ok tt, s)
  else (err BindingMismatch, session_close_state s).

(** ** The two roles *)

Definition TargetSession_new (binding : SessionBinding) (pbs entropy : bytes)
    : Res SessionCore :=
  let limits := SessionLimits_default in
  SessionCore_new binding pbs limits true (first_open_bytes limits) true None entropy.

Definition BrokerSession_new (binding : SessionBinding) (pbs entropy : bytes)
    : Res SessionCore :=
  let limits := SessionLimits_default in
  SessionCore_new binding pbs limits false (response_bytes limits) false None entropy.

Definition t_write_m1 : SM bytes := finish (s_write_handshake []).
Definition t_read_m2 (outer : bytes) : SM unit := finish (read_handshake_finish outer).
Definition t_write_finished : SM bytes := finish (core_write_finished 0).
Definition t_read_finished (outer : bytes) : SM unit := finish (
  do s <- get;
  if negb (sent_finished s) then throw seq_violation else core_read_finished outer 1).

(** The cap of the first message is replaced after it; a refusal of [set_cap] would return
    past [finish_result]. *)
Definition t_read_application (outer : bytes) : SM (option bytes) := fun s =>
  match core_read_application outer s with
  | (Ok (Some m), s1) =>
      let s2 := upd_handoff HandoffPossibleOrConfirmed s1 in
      if first_application s2 then (Ok (Some m), s2)
      else
        let s3 := set_first_application s2 in
        match on_reassembly (set_cap (request_bytes (s_limits s3))) s3 with
        | (Ok _, s4) => (Ok (Some m), s4)
        | (Err e, s4) => (Err e, s4)
        end
  | (Ok None, s1) => (Ok None, s1)
  | (Err e, s1) => (Err e, session_close_state s1)
  end.

Definition t_write_application_response (payload : bytes) : SM (list bytes) := finish (
  do s <- get;
  if negb (first_application s) then throw seq_violation
  else write_application payload (response_bytes (s_limits s))).

Definition b_read_m1_write_m2 (outer : bytes) : SM bytes := finish (
  run s_read_handshake outer;
  do message <- s_write_handshake [];
  run finish_handshake;
  ret message).
Definition b_write_finished : SM bytes := finish (
  do s <- get;
  if negb (got_finished s) then throw seq_violation else core_write_finished 1).
Definition b_read_finished (outer : bytes) : SM unit := finish (core_read_finished outer 0).

(** [if result.is_ok() { self.core.handoff = .. }]. *)
Definition handing_off {A} (m : SM A) : SM A :=
  do a <- m; run modify (upd_handoff HandoffPossibleOrConfirmed); ret a.

Definition b_write_session_open (payload : bytes) : SM (list bytes) := finish (handing_off (
  do s <- get;
  if first_application s || is_empty payload then throw seq_violation
  else if first_open_bytes (s_limits s) <? len payload then throw (Error_new Oversize)
  else run modify set_first_application;
       write_application payload (request_bytes (s_limits s)))).
Definition b_write_application_request (payload : bytes) : SM (list bytes) :=
  finish (handing_off (
    do s <- get;
    if negb (first_application s) then throw seq_violation
    else write_application payload (request_bytes (s_limits s)))).
Definition b_read_application_response (outer : bytes) : SM (option bytes) :=
  finish (core_read_application outer).

Definition session_write_close (reason : CloseReason) (handoff : HandoffState) : SM bytes :=
  finish (s_core_write_close reason handoff).
Definition session_read_close (outer : bytes) : SM (CloseReason * HandoffState) :=
  finish (s_core_read_close outer).
End Operations.

(** ** Inversion of the successful steps *)

Section Inversion.
Context `{Minicbor} `{!MinicborLaws} `{Snow}.
Implicit Types (s : SessionCore).

(** Room in the send counters for [n] records of [b] bytes, and a Close after them. *)
Definition s_room (s : SessionCore) (n b : Z) (reserve : bool) : Prop :=
  s_sent_records s + n + Z.b2z reserve < RECORD_LIMIT /\
  s_sent_plaintext s + b + (if reserve then CLOSE_LEN else 0) < BYTE_LIMIT.

Lemma send_usage_after_spec s n b reserve :
  0 <= s_sent_records s -> 0 <= s_sent_plaintext s -> 0 <= n -> 0 <= b ->
  (s_room s n b reserve /\
   send_usage_after s n b reserve
     = Ok (Some (s_sent_records s + n, s_sent_plaintext s + b))) \/
  (~ s_room s n b reserve /\ send_usage_after s n b reserve = Ok None).
Proof.
  intros Hr Hp Hn Hb. destruct (limit_close_ok (s_handoff s)) as (c & Hc & Hcl).
  unfold send_usage_after, s_room. rewrite Hc.
  destruct (checked_add (s_sent_records s) n) as [r|] eqn:Hcr;
    [apply checked_add_some in Hcr as [-> Hcr]|apply checked_add_none in Hcr; right; split;
       [unfold RECORD_LIMIT, U64_MAX in *; destruct reserve; cbn; lia|done]].
  destruct (checked_add (s_sent_plaintext s) b) as [p|] eqn:Hcp;
    [apply checked_add_some in Hcp as [-> Hcp]|apply checked_add_none in Hcp; right; split;
       [unfold BYTE_LIMIT, CLOSE_LEN, U64_MAX in *; destruct reserve; cbn; lia|done]].
  destruct reserve; cbn [res_bind Z.b2z]; rewrite ?Hcl.
  - destruct (over_records _ || over_bytes _) eqn:Ho.
    + right. split; [|done]. intros Hroom. apply not_false_iff_true in Ho. apply Ho.
      rewrite orb_false_iff, over_records_false, over_bytes_false, !checked_below
        by (unfold RECORD_LIMIT, BYTE_LIMIT, U64_MAX; lia). exact Hroom.
    + left. split; [|done]. rewrite orb_false_iff, over_records_false, over_bytes_false,
        !checked_below in Ho by (unfold RECORD_LIMIT, BYTE_LIMIT, U64_MAX; lia). exact Ho.
  - cbn. rewrite Z.add_0_r.
    destruct (Z.leb_spec RECORD_LIMIT (s_sent_records s + n)), (Z.leb_spec BYTE_LIMIT
      (s_sent_plaintext s + b)); cbn; [right|right|right|left]; split; lia || done.
Qed.

Lemma s_on_transport_ok {A} (f : M TransportState Error A) s a s' :
  s_on_transport f s = (Ok a, s') <->
  s_closed s = false /\ exists t t', s_transport s = Some t /\ f t = (Ok a, t') /\
    s' = set_transport (Some t') s.
Proof.
  unfold s_on_transport. destruct (s_closed s); [by split; [|intros [? _]]|].
  destruct (s_transport s) as [t|]; [|by split; [|intros (_ & ? & ? & ? & _)]].
  destruct (f t) as [r t'] eqn:Hf. split.
  - intros [= -> <-]. eauto 6.
  - intros (_ & ? & ? & [= <-] & Hf2 & ->). congruence.
Qed.

(** One record written: the counters and the transport advance. *)
Record wrote (s s' : SessionCore) (plaintext frame : bytes) : Prop := {
  wrote_was_open : s_closed s = false;
  wrote_by : exists t t', s_transport s = Some t /\
    encrypt_transport plaintext t = (Ok frame, t') /\
    s' = set_sent (s_sent_records s + 1) (s_sent_plaintext s + len plaintext)
           (set_transport (Some t') s)
}.

Lemma s_send_booked_ok plaintext r p s frame s' :
  r = s_sent_records s + 1 -> p = s_sent_plaintext s + len plaintext ->
  s_send_booked plaintext (r, p) s = (Ok frame, s') <-> wrote s s' plaintext frame.
Proof.
  intros -> ->. unfold s_send_booked. rewrite mbind_M_ok. setoid_rewrite s_on_transport_ok.
  split.
  - intros (f & s1 & (Hc & t & t' & Ht & Hf & ->) & Hs). m_inv Hs.
    split; [done|]. by exists t, t'.
  - intros [Hc (t & t' & Ht & Hf & ->)]. exists frame, (set_transport (Some t') s).
    split; [eauto 6|done].
Qed.

Lemma throw_own_limit_err {A} s : exists e s', @throw_own_limit _ _ A s = (Err e, s').
Proof.
  unfold throw_own_limit, throw_record_limit. rewrite get_bind.
  destruct (record_limit_error_with_handoff _ s). eauto.
Qed.

Lemma encrypt_counted_ok plaintext s frame s' :
  0 <= s_sent_records s -> 0 <= s_sent_plaintext s ->
  encrypt_counted plaintext s = (Ok frame, s') <->
  s_room s 1 (len plaintext) true /\ wrote s s' plaintext frame.
Proof.
  intros Hr Hp. unfold encrypt_counted. rewrite get_bind. pose proof (len_nonneg plaintext).
  destruct (send_usage_after_spec s 1 (len plaintext) true) as [[Hroom Hu]|[Hroom Hu]];
    try done; rewrite (lift_bind _ _ _ _ Hu).
  - rewrite s_send_booked_ok by done. tauto.
  - split; [|tauto]. destruct (@throw_own_limit_err bytes s) as (? & ? & ->). done.
Qed.

Lemma s_write_record_ok k d s frame s' :
  0 <= s_sent_records s -> 0 <= s_sent_plaintext s ->
  s_write_record k d s = (Ok frame, s') <->
  exists r plaintext, complete_record k d = Ok r /\ Record_encode r = Ok plaintext /\
    s_room s 1 (len plaintext) true /\ wrote s s' plaintext frame.
Proof.
  intros Hr Hp. unfold s_write_record. rewrite lift_bind_ok.
  setoid_rewrite lift_bind_ok. setoid_rewrite encrypt_counted_ok; [|done..]. naive_solver.
Qed.

Lemma s_decrypt_counted_ok outer s plaintext s' :
  s_decrypt_counted outer s = (Ok plaintext, s') <->
  s_closed s = false /\
  s_received_records s + 1 < RECORD_LIMIT /\
  s_received_plaintext s + len plaintext < BYTE_LIMIT /\
  exists t t', s_transport s = Some t /\ decrypt_transport outer t = (Ok plaintext, t') /\
    s' = set_received (s_received_records s + 1) (s_received_plaintext s + len plaintext)
           (set_transport (Some t') s).
Proof.
  unfold s_decrypt_counted. rewrite mbind_M_ok. setoid_rewrite s_on_transport_ok.
  assert (Hlim : forall t' (p : bytes), let s1 := set_transport (Some t') s in
    over_records (checked_add (s_received_records s1) 1)
      || over_bytes (checked_add (s_received_plaintext s1) (len p)) = false <->
    s_received_records s + 1 < RECORD_LIMIT /\
    s_received_plaintext s + len p < BYTE_LIMIT).
  { intros t' p. cbn. rewrite orb_false_iff, over_records_false, over_bytes_false,
      !checked_below by (unfold RECORD_LIMIT, BYTE_LIMIT, U64_MAX; lia). done. }
  assert (Hadd : forall a b, a + b < BYTE_LIMIT -> default 0 (checked_add a b) = a + b).
  { intros a b Hab. unfold checked_add.
    destruct (Z.leb_spec (a + b) U64_MAX); [done|unfold BYTE_LIMIT, U64_MAX in *; lia]. }
  assert (Hll : RECORD_LIMIT < BYTE_LIMIT) by (unfold RECORD_LIMIT, BYTE_LIMIT; lia).
  split.
  - intros (p & s1 & (Hc & t & t' & Ht & Hd & ->) & Hs). rewrite get_bind in Hs.
    destruct (over_records _ || over_bytes _) eqn:Ho.
    { edestruct (@throw_own_limit_err bytes) as (? & ? & He). rewrite He in Hs. done. }
    apply Hlim in Ho as [Hr Hb]. m_inv Hs. cbn. rewrite !Hadd by lia. eauto 10.
  - intros (Hc & Hr & Hb & t & t' & Ht & Hd & ->).
    exists plaintext, (set_transport (Some t') s). split; [eauto 6|].
    rewrite get_bind, (proj2 (Hlim t' plaintext) (conj Hr Hb)), modify_bind. cbn.
    rewrite !Hadd by lia. done.
Qed.
End Inversion.

(** ** The calls of a session and its invariant *)

Inductive Role : Set := Target | Broker.

Inductive SessionOp : Type :=
| OpWriteM1
| OpReadM1 (outer : bytes)
| OpReadM2 (outer : bytes)
| OpWriteFinished
| OpReadFinished (outer : bytes)
| OpOpen (payload : bytes)
| OpRequest (payload : bytes)
| OpResponse (payload : bytes)
| OpReadApplication (outer : bytes)
| OpEndOfStream
| OpWriteClose (reason : CloseReason) (handoff : HandoffState)
| OpReadClose (outer : bytes)
| OpValidate (process_generation listener_epoch : Z).

Inductive SessionEvent : Type :=
| EDone
| EFrame (f : bytes)
| ESent (frames : list bytes)
| EPartial
| EReceived (m : bytes)
| EClosed (reason : CloseReason) (handoff : HandoffState).

(** [result.map(..)]. *)
Definition m_map {S E A B} (f : A -> B) (m : M S E A) : M S E B := do a <- m; ret (f a).

Section Calls.
Context `{Minicbor} `{Snow}.

Definition read_event (o : option bytes) : SessionEvent :=
  match o with Some m => EReceived m | None => EPartial end.

(** The public calls of [TargetSession] and of [BrokerSession]; [None] where the type has no
    such method. *)
Definition session_step (role : Role) (op : SessionOp) : option (SM SessionEvent) :=
  match role, op with
  | Target, OpWriteM1 => Some (m_map EFrame t_write_m1)
  | Target, OpReadM2 o => Some (m_map (fun _ => EDone) (t_read_m2 o))
  | Target, OpWriteFinished => Some (m_map EFrame t_write_finished)
  | Target, OpReadFinished o => Some (m_map (fun _ => EDone) (t_read_finished o))
  | Target, OpReadApplication o => Some (m_map read_event (t_read_application o))
  | Target, OpResponse p => Some (m_map ESent (t_write_application_response p))
  | Broker, OpReadM1 o => Some (m_map EFrame (b_read_m1_write_m2 o))
  | Broker, OpWriteFinished => Some (m_map EFrame b_write_finished)
  | Broker, OpReadFinished o => Some (m_map (fun _ => EDone) (b_read_finished o))
  | Broker, OpOpen p => Some (m_map ESent (b_write_session_open p))
  | Broker, OpRequest p => Some (m_map ESent (b_write_application_request p))
  | Broker, OpReadApplication o => Some (m_map read_event (b_read_application_response o))
  | _, OpEndOfStream => Some (m_map (fun _ => EDone) s_eof)
  | _, OpWriteClose r h => Some (m_map EFrame (session_write_close r h))
  | _, OpReadClose o =>
      Some (m_map (fun e => EClosed (fst e) (snd e)) (session_read_close o))
  | _, OpValidate g e => Some (m_map (fun _ => EDone) (validate_binding g e))
  | _, _ => None
  end.

(** Before the handshake is finished there is a handshake state and nothing else; after it
    a transport and the session hash. *)
Definition keys_ok (s : SessionCore) : Prop :=
  match s_handshake s with
  | Some _ => s_transport s = None /\ session_hash s = None /\
              sent_finished s = false /\ got_finished s = false
  | None => is_Some (s_transport s) /\ is_Some (session_hash s)
  end.

Record session_open (s : SessionCore) : Prop := {
  so_open : s_closed s = false;
  so_keys : keys_ok s;
  so_counts : 0 <= s_sent_records s /\ 0 <= s_sent_plaintext s;
  so_reserve : s_room s 1 CLOSE_LEN false;
  so_received : 0 <= s_received_records s < RECORD_LIMIT /\
                0 <= s_received_plaintext s < BYTE_LIMIT;
  so_limits : s_limits s = SessionLimits_default;
  so_reassembly : ra_inv (s_reassembly s) /\ ra_failed (s_reassembly s) = false;
  so_active : active (s_reassembly s) <> None -> peer_turn s = true
}.

(** What each role adds: the inbound cap, who speaks first, and when the hand-off state may
    still be [NotHandedOff]. *)
Definition role_ok (role : Role) (s : SessionCore) : Prop :=
  match role with
  | Target =>
      if first_application s
      then cap (s_reassembly s) = request_bytes SessionLimits_default /\
           s_handoff s = HandoffPossibleOrConfirmed
      else cap (s_reassembly s) = first_open_bytes SessionLimits_default /\
           peer_turn s = true
  | Broker =>
      cap (s_reassembly s) = response_bytes SessionLimits_default /\
      if first_application s then s_handoff s = HandoffPossibleOrConfirmed
      else peer_turn s = false
  end.

Definition session_inv (role : Role) (s : SessionCore) : Prop :=
  if s_closed s
  then s_transport s = None /\ s_handshake s = None /\ active (s_reassembly s) = None
  else session_open s /\ role_ok role s.
End Calls.

Section Preservation.
Context `{Minicbor} `{!MinicborLaws} `{Snow}.
Implicit Types (s : SessionCore).

Lemma finish_ok {A} (m : SM A) s a s' : finish m s = (Ok a, s') <-> m s = (Ok a, s').
Proof. unfold finish. destruct (m s) as [[] ?]; naive_solver. Qed.

Lemma close_state_inv role s : session_inv role (session_close_state s).
Proof. done. Qed.

Lemma session_end_inv role s : session_inv role (session_end s).
Proof. done. Qed.

Lemma finish_inv {A} role (m : SM A) s :
  (forall a s', m s = (Ok a, s') -> session_inv role s') ->
  session_inv role (snd (finish m s)).
Proof.
  intros Hm. unfold finish. destruct (m s) as [[a|e] s'] eqn:He; cbn; [by eapply Hm|].
  apply (close_state_inv role s').
Qed.

Lemma open_inv role s : session_open s -> role_ok role s -> session_inv role s.
Proof. intros Ho Hr. unfold session_inv. by rewrite (so_open _ Ho). Qed.

Lemma keys_transport s t :
  keys_ok s -> s_transport s = Some t -> s_handshake s = None /\ is_Some (session_hash s).
Proof. unfold keys_ok. destruct (s_handshake s); [|tauto]. intros [-> _]. done. Qed.

Lemma wrote_open s s' p f :
  session_open s -> wrote s s' p f -> s_room s 1 (len p) true ->
  session_open s' /\ s_handshake s' = None.
Proof.
  intros [Ho Hk [Hc1 Hc2] _ Hr Hl Hra Ha] [_ (t & t' & Ht & _ & ->)] [Hr1 Hr2].
  destruct (keys_transport _ _ Hk Ht) as [Hh Hkey]. pose proof (len_nonneg p).
  cbn [Z.b2z] in Hr1. split; [|done]. split; cbn; try done.
  - unfold keys_ok. cbn. rewrite Hh. split; [by eexists|done].
  - lia.
  - split; cbn; lia.
Qed.

Lemma decrypted_open s s' o p :
  session_open s -> s_decrypt_counted o s = (Ok p, s') ->
  session_open s' /\ s_handshake s' = None /\ s_reassembly s' = s_reassembly s /\
  exists t r b, s' = set_received r b (set_transport (Some t) s).
Proof.
  intros [Ho Hk [Hc1 Hc2] Hres Hr Hl Hra Ha] Hd.
  apply s_decrypt_counted_ok in Hd as (_ & Hr1 & Hr2 & t & t' & Ht & _ & ->).
  destruct (keys_transport _ _ Hk Ht) as [Hh Hkey]. pose proof (len_nonneg p).
  split_and!; [|done|done|by do 3 eexists]. split; cbn; try done.
  - unfold keys_ok. cbn. rewrite Hh. split; [by eexists|done].
  - lia.
Qed.

Lemma set_sent_finished_open s :
  session_open s -> s_handshake s = None -> session_open (set_sent_finished s).
Proof.
  intros [Ho Hk Hc Hres Hr Hl Hra Ha] Hh. split; cbn; try done.
  unfold keys_ok in *. cbn. by rewrite Hh in *.
Qed.

Lemma set_got_finished_open s :
  session_open s -> s_handshake s = None -> session_open (set_got_finished s).
Proof.
  intros [Ho Hk Hc Hres Hr Hl Hra Ha] Hh. split; cbn; try done.
  unfold keys_ok in *. cbn. by rewrite Hh in *.
Qed.

Lemma on_handshake_ok {A} (f : M HandshakeState Error A) s a s' :
  on_handshake f s = (Ok a, s') ->
  exists h h', s_handshake s = Some h /\ f h = (Ok a, h') /\ s' = set_handshake (Some h') s.
Proof.
  unfold on_handshake. destruct (s_handshake s) as [h|]; [|done].
  destruct (f h) as [r h'] eqn:Hf. intros [= -> <-]. eauto 6.
Qed.

Lemma handshaking_open s h h' :
  session_open s -> s_handshake s = Some h -> session_open (set_handshake (Some h') s).
Proof.
  intros [Ho Hk Hc Hres Hr Hl Hra Ha] Hh. split; cbn; try done.
  unfold keys_ok in *. cbn. by rewrite Hh in Hk.
Qed.

Lemma finish_handshake_open s s' :
  session_open s -> finish_handshake s = (Ok tt, s') ->
  session_open s' /\ exists t k,
    s' = set_transport (Some t) (set_hash (Some k) (set_handshake None s)).
Proof.
  intros [Ho Hk Hc Hres Hr Hl Hra Ha] Hf. unfold finish_handshake in Hf. m_inv Hf.
  unfold modify in Hf. injection Hf as <-. split; [|by do 2 eexists].
  by split.
Qed.

Lemma read_handshake_open o s u s' :
  session_open s -> s_read_handshake o s = (Ok u, s') ->
  session_open s' /\ exists h, s' = set_handshake (Some h) s.
Proof.
  intros Ho Hr. unfold s_read_handshake in Hr. m_inv Hr.
  apply on_handshake_ok in Hm as (h & h' & Hh & _ & ->).
  unfold lift in Hr. injection Hr as _ <-.
  split; [by eapply handshaking_open|by eexists].
Qed.

Lemma write_finished_open role s f s' :
  session_open s -> core_write_finished role s = (Ok f, s') ->
  session_open s' /\ exists t r p,
    s' = set_sent_finished (set_sent r p (set_transport (Some t) s)).
Proof.
  intros Ho Hw. unfold core_write_finished in Hw. m_inv Hw.
  apply s_write_record_ok in Hm as (r & p & _ & _ & Hroom & Hs); [|apply Ho..].
  destruct (wrote_open _ _ _ _ Ho Hs Hroom) as [Ho' Hh].
  split; [by apply set_sent_finished_open|].
  destruct Hs as [_ (t & t' & _ & _ & ->)]. by do 3 eexists.
Qed.

Lemma read_finished_open o role s s' :
  session_open s -> core_read_finished o role s = (Ok tt, s') ->
  session_open s' /\ exists t r p,
    s' = set_got_finished (set_received r p (set_transport (Some t) s)).
Proof.
  intros Ho Hr. unfold core_read_finished in Hr. rewrite get_bind in Hr.
  destruct (got_finished s); [m_inv Hr; done|]. m_inv Hr.
  destruct (decrypted_open _ _ _ _ Ho Hm) as (Ho' & Hh & _ & t & r & p & Hs').
  unfold modify in Hr. injection Hr as <-.
  split; [by apply set_got_finished_open|]. subst. by do 3 eexists.
Qed.

Lemma message_bytes_spec ps : message_bytes ps = checked_add 0 (len (concat ps)).
Proof.
  unfold message_bytes. assert (Hnone : forall l : list bytes,
    foldl (fun total p => total ≫= fun t => checked_add t (len p)) None l = None)
    by (induction l; done).
  enough (Hgen : forall t, 0 <= t -> foldl (fun total p => total ≫= fun t =>
    checked_add t (len p)) (checked_add 0 t) ps = checked_add 0 (t + len (concat ps))).
  { specialize (Hgen 0 ltac:(lia)). unfold checked_add in Hgen at 2. exact Hgen. }
  induction ps as [|p ps IH]; intros t Ht; cbn [foldl concat].
  { change (len []) with 0. by replace (t + 0) with t by lia. }
  pose proof (len_nonneg p). pose proof (len_nonneg (concat ps)). autorewrite with len.
  replace (checked_add 0 t ≫= fun t => checked_add t (len p)) with (checked_add 0 (t + len p)).
  - rewrite IH by lia. f_equal. lia.
  - unfold checked_add. destruct (Z.leb_spec (0 + t) U64_MAX); cbn; [done|].
    destruct (Z.leb_spec (0 + (t + len p)) U64_MAX); [lia|done].
Qed.

(** The loop over the plaintexts only moves the transport. *)
Lemma encrypt_all_ok ps s fs s' :
  encrypt_all ps s = (Ok fs, s') ->
  length fs = length ps /\ s' = set_transport (s_transport s') s /\
  (s_transport s' <> None \/ s' = s).
Proof.
  revert s fs. induction ps as [|p ps IH]; intros s fs Hs; cbn in Hs; m_inv Hs.
  { split_and!; [done|by destruct s'|by right]. }
  apply s_on_transport_ok in Hm as (_ & t & t' & _ & _ & ->).
  destruct (IH _ _ Hm0) as (Hl & Hs & Ht). cbn. split_and!; [by f_equal|done|].
  left. destruct Ht as [?| ->]; [done|]. done.
Qed.

Lemma write_application_open payload c s fs s' :
  session_open s -> write_application payload c s = (Ok fs, s') ->
  session_open s' /\ peer_turn s = false /\ peer_turn s' = true /\ 0 < len payload <= c /\
  exists t r p, s' = set_peer_turn true (set_sent r p (set_transport t s)).
Proof.
  intros Ho Hw. unfold write_application in Hw. m_inv Hw.
  pose proof (so_counts _ Ho) as [Hc1 Hc2].
  destruct a0 as [[r p]|];
    [|destruct (throw_own_limit_err (A:=list bytes) s) as (? & ? & ?); congruence].
  m_inv Hw. apply encrypt_all_ok in Hm as (Hlen & Hs & Ht). bool_split.
  destruct (message_bytes a) as [b|] eqn:Hb; [|done].
  rewrite message_bytes_spec in Hb. apply checked_add_some in Hb as [-> _].
  pose proof (len_nonneg (concat a)).
  pose proof (len_nonneg a).
  destruct (send_usage_after_spec s (len a) (0 + len (concat a)) true) as [[Hroom Hu]|[Hroom Hu]];
    try done; try lia; rewrite Hu in *; simplify_eq. destruct Hroom as [Hr1 Hr2]. cbn [Z.b2z] in Hr1.
  pose proof Ho as [Hop Hk _ Hres Hrec Hl Hra Ha].
  split_and!; [|done|done|lia|lia|by rewrite Hs; do 3 eexists].
  rewrite Hs. split; cbn; try done.
  - unfold keys_ok in *. cbn. destruct (s_handshake s) eqn:Hh.
    + destruct Hk as (_ & _ & ? & ?). congruence.
    + destruct Hk as [Htr Hh']. split; [|done]. destruct Ht as [Ht| ->]; [|done].
      by destruct (s_transport s0); [eexists|].
  - lia.
  - split; cbn; unfold CLOSE_LEN in *; lia.
Qed.

Lemma read_application_ok o s res s' :
  core_read_application o s = (Ok res, s') ->
  exists p s1 r m ra,
    sent_finished s = true /\ got_finished s = true /\ peer_turn s = true /\
    s_decrypt_counted o s = (Ok p, s1) /\ Record_decode p = Ok r /\ kind r = Application /\
    accept r (s_reassembly s1) = (Ok m, ra) /\ res = snd <$> m /\
    s' = (if m is Some _ then set_peer_turn false else id) (upd_reassembly ra s1) /\
    (forall b, res = Some b -> 0 < len b).
Proof.
  unfold core_read_application. intros Hr. m_inv Hr. bool_split.
  case_bool_decide; [m_inv Hr; by destruct a2|]. m_inv Hr. bool_split.
  pose proof Hm as Hdec. apply s_decrypt_counted_ok in Hdec as (_ & _ & _ & t & t' & _ & _ & Hs0).
  unfold on_reassembly in Hm0. destruct (accept a0 (s_reassembly s0)) as [r ra] eqn:Hacc.
  simplify_eq. exists a. do 2 eexists. exists a1, ra.
  split_and!; [done|done|by subst|done|done|done|done| | |];
    (destruct a1 as [[k b]|]; m_inv Hr; bool_split; try done).
  by intros ? [= <-].
Qed.

Lemma read_application_open o s res s' :
  session_open s -> core_read_application o s = (Ok res, s') ->
  session_open s' /\ peer_turn s = true /\ peer_turn s' = negb (is_Some_b res) /\
  first_application s' = first_application s /\ s_handoff s' = s_handoff s /\
  cap (s_reassembly s') = cap (s_reassembly s) /\
  (forall b, res = Some b -> active (s_reassembly s') = None /\
     0 < len b <= cap (s_reassembly s)).
Proof.
  intros Ho Hr. apply read_application_ok in Hr as
    (p & s1 & r & m & ra & Hsf & Hgf & Hpt & Hd & Hrec & Hk & Hacc & Hres & -> & Hpos).
  destruct (decrypted_open _ _ _ _ Ho Hd) as (Ho1 & Hh & Hra & t & rr & b & Hs1).
  apply record_encode_decode in Hrec as [_ Hwf].
  destruct (so_reassembly _ Ho1) as [Hri Hrf].
  destruct (accept_facts _ _ _ _ Hwf Hri Hacc) as (Hi & Hf & Hc & Hm).
  rewrite Hra in *. pose proof Ho1 as [? ? ? ? ? ? ? ?].
  assert (Hpt1 : peer_turn s1 = true) by (by subst s1).
  split_and!.
  - destruct m as [[k b']|]; split; cbn; try done.
    by destruct Hm as [-> _].
  - done.
  - subst res. destruct m as [[]|]; cbn; done.
  - subst s1. by destruct m.
  - subst s1. by destruct m.
  - destruct m; exact Hc.
  - intros b' ->. destruct m as [[k b'']|]; [|done]. injection Hres as ->.
    destruct Hm as (? & ? & _). specialize (Hpos _ eq_refl). split; [done|lia].
Qed.
End Preservation.

(** ** What a successful call does *)

Section StepsOpen.
Context `{Minicbor} `{!MinicborLaws} `{Snow}.
Implicit Types (s : SessionCore).

(** The longest message a role may receive, now and at most. *)
Definition inbound_cap (role : Role) (s : SessionCore) : Z :=
  match role with
  | Target => if first_application s then request_bytes SessionLimits_default
              else first_open_bytes SessionLimits_default
  | Broker => response_bytes SessionLimits_default
  end.

(** The effect of an event on the turn, the hand-off state and the connection. *)
Definition event_effect (role : Role) (s : SessionCore) (e : SessionEvent) (s' : SessionCore)
    : Prop :=
  match e with
  | ESent _ =>
      s_closed s' = false /\ peer_turn s = false /\ peer_turn s' = true /\
      (role = Broker -> s_handoff s' = HandoffPossibleOrConfirmed)
  | EReceived m =>
      s_closed s' = false /\ peer_turn s = true /\ peer_turn s' = false /\
      0 < len m <= inbound_cap role s /\
      (role = Target -> s_handoff s' = HandoffPossibleOrConfirmed)
  | EClosed _ _ => s_closed s' = true
  | EPartial => s_closed s' = false /\ peer_turn s = true /\ peer_turn s' = true
  | EFrame _ | EDone => s_closed s' = true \/ peer_turn s' = peer_turn s
  end.

Definition step_good (role : Role) (s : SessionCore) (e : SessionEvent) (s' : SessionCore)
    : Prop :=
  session_inv role s' /\ handoff_le (s_handoff s) (s_handoff s') /\ event_effect role s e s'.

Lemma m_map_ok {S E A B} (f : A -> B) (m : M S E A) (t : S) e t' :
  m_map f m t = (Ok e, t') <-> exists a, m t = (Ok a, t') /\ e = f a.
Proof.
  unfold m_map. rewrite mbind_M_ok. split.
  - intros (a & t1 & Hm & Hr). m_inv Hr. by exists a.
  - intros (a & Hm & ->). by exists a, t'.
Qed.

Lemma inbound_cap_ok role s : role_ok role s -> cap (s_reassembly s) = inbound_cap role s.
Proof. unfold role_ok, inbound_cap. destruct role; [destruct (first_application s)|]; tauto. Qed.

(** A call that keeps what [role_ok] and the events look at. *)
Lemma step_quiet role s s' e :
  session_open s' -> role_ok role s' -> s_handoff s' = s_handoff s ->
  peer_turn s' = peer_turn s -> (e = EDone \/ exists f, e = EFrame f) ->
  step_good role s e s'.
Proof.
  intros Ho Hr Hh Hp He. split_and!; [by apply open_inv|by rewrite Hh|].
  destruct He as [-> |[f ->]]; cbn; auto.
Qed.

(** A call that ends the session. *)
Lemma step_ended role s s' e :
  s_closed s' = true -> s_transport s' = None -> s_handshake s' = None ->
  active (s_reassembly s') = None -> s_handoff s' = s_handoff s ->
  (exists f, e = EFrame f) \/ (exists r h, e = EClosed r h) ->
  step_good role s e s'.
Proof.
  intros Hc Ht Hk Ha Hh He. split_and!.
  - unfold session_inv. by rewrite Hc.
  - by rewrite Hh.
  - destruct He as [[f ->]|(r & h & ->)]; cbn; auto.
Qed.

Lemma t_write_m1_good s f s' :
  session_open s -> role_ok Target s -> t_write_m1 s = (Ok f, s') ->
  step_good Target s (EFrame f) s'.
Proof.
  unfold t_write_m1. rewrite finish_ok. intros Ho Hr Hw.
  apply on_handshake_ok in Hw as (h & h' & Hh & _ & ->).
  apply step_quiet; eauto using handshaking_open.
Qed.

Lemma t_read_m2_good o s u s' :
  session_open s -> role_ok Target s -> t_read_m2 o s = (Ok u, s') ->
  step_good Target s EDone s'.
Proof.
  unfold t_read_m2, read_handshake_finish. rewrite finish_ok. intros Ho Hr Hw. m_inv Hw.
  destruct (read_handshake_open _ _ _ _ Ho Hm) as (Ho1 & h & ->). destruct u.
  destruct (finish_handshake_open _ _ Ho1 Hw) as (Ho2 & t & k & ->).
  apply step_quiet; auto.
Qed.

Lemma b_read_m1_good o s f s' :
  session_open s -> role_ok Broker s -> b_read_m1_write_m2 o s = (Ok f, s') ->
  step_good Broker s (EFrame f) s'.
Proof.
  unfold b_read_m1_write_m2. rewrite finish_ok. intros Ho Hr Hw. m_inv Hw.
  destruct (read_handshake_open _ _ _ _ Ho Hm) as (Ho1 & h & ->).
  apply on_handshake_ok in Hm0 as (h1 & h2 & Hh1 & _ & ->).
  pose proof (handshaking_open _ _ h2 Ho1 Hh1) as Ho2.
  match goal with u : unit |- _ => destruct u end.
  match goal with Hf : finish_handshake _ = (Ok ?u, _) |- _ => destruct u end.
  destruct (finish_handshake_open _ _ Ho2 Hm1) as (Ho3 & t & k & ->).
  apply step_quiet; eauto.
Qed.

Lemma write_finished_good role rl s f s' :
  session_open s -> role_ok role s -> core_write_finished rl s = (Ok f, s') ->
  step_good role s (EFrame f) s'.
Proof.
  intros Ho Hr Hw. destruct (write_finished_open _ _ _ _ Ho Hw) as (Ho1 & t & r & p & ->).
  apply step_quiet; eauto.
Qed.

Lemma read_finished_good role rl o s s' :
  session_open s -> role_ok role s -> core_read_finished o rl s = (Ok tt, s') ->
  step_good role s EDone s'.
Proof.
  intros Ho Hr Hw. destruct (read_finished_open _ _ _ _ Ho Hw) as (Ho1 & t & r & p & ->).
  apply step_quiet; eauto.
Qed.

Lemma t_read_application_good o s res s' :
  session_open s -> role_ok Target s -> t_read_application o s = (Ok res, s') ->
  step_good Target s (read_event res) s'.
Proof.
  intros Ho Hr. pose proof (inbound_cap_ok Target s Hr) as Hcap.
  unfold t_read_application.
  destruct (core_read_application o s) as [[[m|]|] s1] eqn:Hc; [| |done].
  - destruct (read_application_open _ _ _ _ Ho Hc) as (Ho1 & Hp & Hp' & Hf & Hh & Hcp & Hm).
    destruct (Hm m eq_refl) as [Hact Hlen]. rewrite Hcap in Hlen, Hcp.
    cbn [upd_handoff first_application]. rewrite Hf.
    pose proof (so_reassembly _ Ho1) as [Hri Hrf]. pose proof (so_limits _ Ho1) as Hlim.
    destruct Ho1 as [? ? ? ? ? ? ? ?].
    destruct (first_application s) eqn:Hfa.
    + intros [= <- <-]. unfold inbound_cap in Hcp. rewrite Hfa in Hcp. split_and!.
      * apply open_inv; [by split|]. unfold role_ok. cbn. by rewrite Hf.
      * apply handoff_le_top.
      * cbn. unfold inbound_cap in *. rewrite Hfa in *. done.
    + unfold on_reassembly, set_cap.
      cbn [set_first_application upd_flags upd_handoff s_limits s_reassembly].
      rewrite Hlim, Hrf, Hact. cbn [is_Some_b orb Z.eqb request_bytes SessionLimits_default].
      intros [= <- <-]. split_and!.
      * apply open_inv; [|done]. split; try done. cbn. split; [|done].
        destruct Hri as [? ? ?]. split; cbn; try done. by rewrite Hact.
      * apply handoff_le_top.
      * cbn. unfold inbound_cap in *. rewrite Hfa in *. done.
  - intros [= <- <-].
    destruct (read_application_open _ _ _ _ Ho Hc) as (Ho1 & Hp & Hp' & Hf & Hh & Hcp & _).
    split_and!; [|by rewrite Hh|by cbn in *; rewrite (so_open _ Ho1)].
    apply open_inv; [done|]. unfold role_ok in *. rewrite Hf, Hh, Hcp.
    cbn in Hp'. destruct (first_application s); [done|]. by destruct Hr.
Qed.

Lemma t_write_response_good p s fs s' :
  session_open s -> role_ok Target s -> t_write_application_response p s = (Ok fs, s') ->
  step_good Target s (ESent fs) s'.
Proof.
  unfold t_write_application_response. rewrite finish_ok, get_bind. intros Ho Hr Hw.
  destruct (first_application s) eqn:Hf; [|done]. cbn [negb] in Hw.
  destruct (write_application_open _ _ _ _ _ Ho Hw) as (Ho1 & Hp & Hp' & _ & t & r & b & ->).
  split_and!; [by apply open_inv; [done|]; unfold role_ok in *; cbn; rewrite Hf in *|done|].
  cbn. split_and!; try done. apply (so_open _ Ho).
Qed.

Lemma b_write_good (m : SM (list bytes)) p c s fs s' :
  session_open s -> role_ok Broker s ->
  (forall fs s1, m s = (Ok fs, s1) ->
     exists s0, (s0 = s \/ s0 = set_first_application s) /\ first_application s0 = true /\
       write_application p c s0 = (Ok fs, s1)) ->
  finish (handing_off m) s = (Ok fs, s') -> step_good Broker s (ESent fs) s'.
Proof.
  rewrite finish_ok. intros Ho Hr Hm Hw. unfold handing_off in Hw. m_inv Hw.
  destruct (Hm _ _ Hm0) as (s1 & Hs1 & Hf & Hwa).
  assert (Ho1 : session_open s1 /\ peer_turn s1 = peer_turn s /\
    s_reassembly s1 = s_reassembly s).
  { destruct Hs1 as [-> | ->]; [done|]. split; [|done]. by destruct Ho; split. }
  destruct Ho1 as (Ho1 & Hpt & Hra).
  destruct (write_application_open _ _ _ _ _ Ho1 Hwa) as
    (Ho2 & Hp & Hp' & _ & t & r & b & ->).
  split_and!; [|apply handoff_le_top|].
  - apply open_inv; [by destruct Ho2; split|]. destruct Hr as [Hcap _]. unfold role_ok.
    cbn. by rewrite Hra, Hf.
  - cbn. split_and!; try done; [apply (so_open _ Ho1)|congruence].
Qed.

Lemma b_write_open_good p s fs s' :
  session_open s -> role_ok Broker s -> b_write_session_open p s = (Ok fs, s') ->
  step_good Broker s (ESent fs) s'.
Proof.
  intros Ho Hr. apply (b_write_good _ p (request_bytes SessionLimits_default)); try done.
  intros fs' s1. rewrite get_bind, (so_limits _ Ho).
  destruct (first_application s || is_empty p); [done|]. destruct (_ <? _); [done|].
  rewrite modify_bind. intros Hw. eexists. by split_and!; [right|..].
Qed.

Lemma b_write_request_good p s fs s' :
  session_open s -> role_ok Broker s -> b_write_application_request p s = (Ok fs, s') ->
  step_good Broker s (ESent fs) s'.
Proof.
  intros Ho Hr. apply (b_write_good _ p (request_bytes SessionLimits_default)); try done.
  intros fs' s1. rewrite get_bind, (so_limits _ Ho).
  destruct (first_application s) eqn:Hf; [|done]. cbn [negb]. intros Hw.
  exists s. by split_and!; [left|..].
Qed.

Lemma b_read_response_good o s res s' :
  session_open s -> role_ok Broker s -> b_read_application_response o s = (Ok res, s') ->
  step_good Broker s (read_event res) s'.
Proof.
  unfold b_read_application_response. rewrite finish_ok. intros Ho Hr Hc.
  pose proof (inbound_cap_ok Broker s Hr) as Hcap.
  destruct (read_application_open _ _ _ _ Ho Hc) as (Ho1 & Hp & Hp' & Hf & Hh & Hcp & Hm).
  destruct Hr as [Hcap' Hfirst]. rewrite Hp in Hfirst.
  split_and!; [|by rewrite Hh|].
  - apply open_inv; [done|]. unfold role_ok. rewrite Hf, Hh, Hcp.
    by destruct (first_application s).
  - destruct res as [m|]; cbn in *; [|by rewrite (so_open _ Ho1)].
    destruct (Hm m eq_refl) as [_ Hlen]. rewrite Hcap in Hlen. cbn in Hlen.
    split_and!; try done; try lia. apply (so_open _ Ho1).
Qed.

Lemma write_close_good role r h s f s' :
  session_open s -> session_write_close r h s = (Ok f, s') ->
  step_good role s (EFrame f) s'.
Proof.
  unfold session_write_close, s_core_write_close. rewrite finish_ok. intros Ho Hw.
  m_inv Hw. destruct a2 as [[n b]|].
  2:{ unfold throw_record_limit in Hw.
      by destruct (record_limit_error_with_handoff _ s). }
  m_inv Hw. unfold s_send_booked in Hm. m_inv Hm.
  apply s_on_transport_ok in Hm0 as (_ & t & t' & _ & _ & ->).
  apply step_ended; eauto.
Qed.

Lemma read_close_good role o s e s' :
  session_open s -> session_read_close o s = (Ok e, s') ->
  step_good role s (EClosed (fst e) (snd e)) s'.
Proof.
  unfold session_read_close, s_core_read_close. rewrite finish_ok. intros Ho Hr. m_inv Hr.
  destruct (decrypted_open _ _ _ _ Ho Hm) as (_ & _ & _ & t & r & b & ->).
  apply step_ended; eauto.
Qed.

Lemma s_eof_err s : exists e, fst (s_eof s) = Err e /\ close_frame e = None.
Proof.
  unfold s_eof, on_reassembly, ra_eof. destruct (s_closed s); [by eexists|].
  destruct (ra_failed _); [by eexists|]. destruct (is_Some_b _); by eexists.
Qed.

Lemma validate_ok g e s u s' : validate_binding g e s = (Ok u, s') -> s' = s.
Proof. unfold validate_binding. destruct (_ && _); by intros [= _ <-]. Qed.

(** Every successful call on an open session. *)
Lemma step_open_good role op m s e s' :
  session_step role op = Some m -> session_open s -> role_ok role s ->
  m s = (Ok e, s') -> step_good role s e s'.
Proof.
  intros Hop Ho Hr Hm.
  destruct role, op; try discriminate Hop; injection Hop as <-; apply m_map_ok in Hm as (a & Hm & ->);
    first [ by eapply write_close_good | by eapply read_close_good
          | by edestruct s_eof_err as (? & He & _); rewrite Hm in He
          | by apply validate_ok in Hm as ->; apply step_quiet; auto
          | by eapply t_write_m1_good | by eapply t_read_m2_good | by eapply b_read_m1_good
          | by eapply t_read_application_good | by eapply t_write_response_good
          | by eapply b_write_open_good | by eapply b_write_request_good
          | by eapply b_read_response_good
          | idtac ].
  - unfold t_write_finished in Hm. rewrite finish_ok in Hm. by eapply write_finished_good.
  - unfold t_read_finished in Hm. rewrite finish_ok, get_bind in Hm. destruct a.
    destruct (negb _); [done|]. by eapply read_finished_good.
  - unfold b_write_finished in Hm. rewrite finish_ok, get_bind in Hm.
    destruct (negb _); [done|]. by eapply write_finished_good.
  - unfold b_read_finished in Hm. rewrite finish_ok in Hm. destruct a.
    by eapply read_finished_good.
Qed.
End StepsOpen.

(** ** A closed session is silent *)

Section Silence.
Context `{Minicbor} `{!MinicborLaws} `{Snow}.
Implicit Types (s : SessionCore).

Definition gone (s : SessionCore) : bool :=
  s_closed s && negb (is_Some_b (s_handshake s)).

Lemma gone_spec s : gone s = true <-> s_closed s = true /\ s_handshake s = None.
Proof.
  unfold gone. rewrite andb_true_iff, negb_true_iff, is_Some_b_false. done.
Qed.

Lemma gone_close_state s : gone (session_close_state s) = true.
Proof. done. Qed.

Lemma quiet_finished b r h : quiet (finished b r h).
Proof. apply quiet_enc_seq. Qed.

Lemma dead_s_finish {A} (m : SM A) : dead gone m -> dead gone (finish m).
Proof.
  intros Hm s Hs. destruct (Hm s Hs) as (e & s' & He & Hq & _).
  exists e, (session_close_state s'). unfold finish. by rewrite He.
Qed.

Lemma dead_on_handshake {A} (f : M HandshakeState Error A) : dead gone (on_handshake f).
Proof.
  intros s Hs. pose proof Hs as Hg. apply gone_spec in Hg as [_ Hh].
  unfold on_handshake. rewrite Hh. by exists seq_violation, s.
Qed.

Lemma dead_s_on_transport {A} (f : M TransportState Error A) : dead gone (s_on_transport f).
Proof.
  intros s Hs. pose proof Hs as Hg. apply gone_spec in Hg as [Hc _].
  unfold s_on_transport. rewrite Hc. by exists seq_violation, s.
Qed.

Lemma dead_s_send_booked p u : dead gone (s_send_booked p u).
Proof. apply dead_bind_l, dead_s_on_transport. Qed.

Lemma quiet_send_usage s n b r : quiet (send_usage_after s n b r).
Proof.
  unfold send_usage_after. destruct (checked_add _ n); [|done].
  destruct (checked_add _ b); [|done]. apply quiet_bind.
  - destruct r; [|done]. apply quiet_bind; [apply quiet_limit_close|done].
  - intros [x y]. by destruct (over_records x || over_bytes y).
Qed.

Lemma dead_s_throw_limit {A} h : dead gone (@throw_record_limit _ _ A h).
Proof.
  assert (Hd : dead gone (record_limit_close h)).
  { apply dead_bind_r; [apply shut_lift, quiet_limit_close|]. intros p.
    apply dead_bind_r; [apply shut_get|]. intros s0.
    apply dead_bind_r; [apply shut_lift, quiet_send_usage|]. intros u.
    apply dead_bind_r; [apply shut_lift, quiet_of_option|]. intros u'.
    apply dead_s_send_booked. }
  intros s Hs. destruct (Hd s Hs) as (e & s' & He & _ & _).
  exists (Error_record_limit None), (session_close_state s').
  unfold throw_record_limit, record_limit_error_with_handoff. by rewrite He.
Qed.

Lemma dead_own_limit {A} : dead gone (@throw_own_limit _ _ A).
Proof. apply dead_bind_r; [apply shut_get|]. intros. apply dead_s_throw_limit. Qed.

Lemma dead_decrypt o : dead gone (s_decrypt_counted o).
Proof. apply dead_bind_l, dead_s_on_transport. Qed.

Lemma dead_s_write_record k d : dead gone (s_write_record k d).
Proof.
  apply dead_bind_r; [apply shut_lift, quiet_complete_record|]. intros r.
  apply dead_bind_r; [apply shut_lift, quiet_Record_encode|]. intros p.
  apply dead_bind_r; [apply shut_get|]. intros s0.
  apply dead_bind_r; [apply shut_lift, quiet_send_usage|]. intros [u|];
    [apply dead_s_send_booked|apply dead_own_limit].
Qed.

Ltac dead_guard :=
  repeat first
  [ apply dead_throw
  | apply dead_bind_r; [apply shut_get|intros ?]
  | apply dead_bind_r; [apply shut_lift; solve [auto with model]|intros ?]
  | apply dead_bind_l; apply dead_decrypt
  | apply dead_bind_l; apply dead_s_write_record ].

Lemma dead_write_finished r : dead gone (core_write_finished r).
Proof.
  unfold core_write_finished, seq_violation. dead_guard.
  apply dead_bind_r; [apply shut_lift, quiet_finished|]. intros ?.
  apply dead_bind_l, dead_s_write_record.
Qed.

Lemma dead_read_finished o r : dead gone (core_read_finished o r).
Proof.
  unfold core_read_finished, seq_violation. apply dead_bind_r; [apply shut_get|]. intros s0.
  destruct (got_finished s0); [|dead_guard].
  apply dead_bind_r; [apply shut_modify|intros; apply dead_throw].
  intros s. rewrite !gone_spec. by intros [? ?].
Qed.

Lemma quiet_fragment k p : quiet (fragment_records k p).
Proof.
  apply quiet_bind; [auto with model|]. intros _.
  generalize (enumerate (chunks (Z.to_nat RECORD_DATA_MAX) p)).
  induction l as [|[i c] l IH]; [done|]. cbn [res_traverse].
  apply quiet_bind; [|intros; apply quiet_bind; [done|done]].
  apply quiet_bind; [|intros; apply quiet_Record_encode].
  apply quiet_bind; auto with model.
Qed.

Lemma dead_write_application p c : dead gone (write_application p c).
Proof.
  unfold write_application, seq_violation. dead_guard.
  apply dead_bind_lift; [apply quiet_fragment|]. intros ps Hps.
  apply dead_bind_r; [apply shut_lift|].
  { destruct (message_bytes ps); [apply quiet_send_usage|done]. }
  intros [[r b]|]; [|apply dead_own_limit].
  apply fragment_records_nonempty in Hps.
  destruct ps as [|x ps]; [done|]. apply dead_bind_l, dead_bind_l, dead_s_on_transport.
Qed.

Lemma dead_read_application o : dead gone (core_read_application o).
Proof. unfold core_read_application, seq_violation. dead_guard. Qed.

Lemma dead_read_close o : dead gone (s_core_read_close o).
Proof. unfold s_core_read_close, seq_violation. dead_guard. Qed.

Lemma dead_write_close r h : dead gone (s_core_write_close r h).
Proof.
  unfold s_core_write_close. apply dead_bind_r; [apply shut_get|]. intros s0. cbv zeta.
  apply dead_bind_r; [apply shut_lift, quiet_close_payload|]. intros p.
  apply dead_bind_r; [apply shut_lift, quiet_complete_record|]. intros rec.
  apply dead_bind_r; [apply shut_lift, quiet_Record_encode|]. intros pt.
  apply dead_bind_r; [apply shut_lift, quiet_send_usage|]. intros [u|];
    [apply dead_bind_l, dead_s_send_booked|apply dead_s_throw_limit].
Qed.

Lemma dead_gate {A} (p : SessionCore -> bool) (k : SessionCore -> SM A) r :
  (forall s, dead gone (k s)) ->
  dead gone (do s <- get; if p s then throw (Error_new r) else k s).
Proof.
  intros Hk. apply dead_bind_r; [apply shut_get|]. intros s0.
  destruct (p s0); [apply dead_throw|apply Hk].
Qed.

Lemma dead_b_open p : dead gone (b_write_session_open p).
Proof.
  apply dead_s_finish, dead_bind_l, dead_gate. intros s0.
  destruct (_ <? _); [apply dead_throw|].
  apply dead_bind_r; [|intros; apply dead_write_application].
  apply shut_modify. intros s. rewrite !gone_spec. by intros [? ?].
Qed.

Lemma dead_eof : dead gone s_eof.
Proof.
  intros s Hs. pose proof Hs as Hg. apply gone_spec in Hg as [Hc _].
  exists seq_violation, s. unfold s_eof. by rewrite Hc.
Qed.

Lemma dead_t_read o : dead gone (t_read_application o).
Proof.
  intros s Hs. destruct (dead_read_application o s Hs) as (e & s' & He & Hq & _).
  exists e, (session_close_state s'). unfold t_read_application. by rewrite He.
Qed.

Lemma validate_gone g e s :
  gone s = true ->
  validate_binding g e s = (Ok tt, s) \/
  validate_binding g e s = (err BindingMismatch, session_close_state s).
Proof. unfold validate_binding. destruct (_ && _); auto. Qed.

(** On a closed session a call fails without a frame, or is a [validate_binding] that finds
    the binding unchanged. *)
Lemma step_gone role op m s :
  session_step role op = Some m -> gone s = true ->
  (exists e s', m s = (Err e, s') /\ close_frame e = None /\ gone s' = true) \/
  (exists g e, op = OpValidate g e /\ m s = (Ok EDone, s)).
Proof.
  intros Hop Hs.
  assert (Hmap : forall A (f : A -> SessionEvent) (x : SM A),
    dead gone x -> dead gone (m_map f x)) by (intros; by apply dead_bind_l).
  destruct role, op; try discriminate Hop; injection Hop as <-;
    try (left; apply Hmap; [|exact Hs]; clear Hs;
         first [ by apply dead_s_finish, dead_on_handshake
               | by apply dead_s_finish, dead_bind_l, dead_bind_l, dead_on_handshake
               | by apply dead_s_finish, dead_write_finished
               | by apply dead_s_finish, dead_read_finished
               | by apply dead_s_finish, dead_gate; intros; apply dead_read_finished
               | by apply dead_s_finish, dead_gate; intros; apply dead_write_finished
               | by apply dead_s_finish, dead_gate; intros; apply dead_write_application
               | by apply dead_s_finish, dead_bind_l, dead_gate; intros;
                    apply dead_write_application
               | by apply dead_s_finish, dead_read_application
               | by apply dead_s_finish, dead_read_close
               | by apply dead_s_finish, dead_write_close
               | apply dead_b_open | apply dead_eof | apply dead_t_read ]);
    (destruct (validate_gone process_generation listener_epoch s Hs) as [Hv|Hv];
     unfold m_map, mbind_M; rewrite Hv; [right|left]; [by do 2 eexists|]);
    by exists (Error_new BindingMismatch), (session_close_state s).
Qed.
End Silence.

(** ** The hand-off state and failed calls *)

Section Handoff.
Context `{Minicbor} `{!MinicborLaws} `{Snow}.
Implicit Types (s : SessionCore).

Lemma frame_s_on_transport {A} (f : M TransportState Error A) :
  frame s_handoff (s_on_transport f).
Proof.
  intros s. unfold s_on_transport. destruct (s_closed s); [done|].
  destruct (s_transport s) as [t|]; [|done]. by destruct (f t).
Qed.
Lemma frame_on_handshake {A} (f : M HandshakeState Error A) :
  frame s_handoff (on_handshake f).
Proof.
  intros s. unfold on_handshake. destruct (s_handshake s) as [h|]; [|done].
  by destruct (f h).
Qed.
Lemma frame_on_reassembly {A} (m : M RecordReassembler Error A) :
  frame s_handoff (on_reassembly m).
Proof. intros s. unfold on_reassembly. by destruct (m _). Qed.
Lemma frame_finish {A} (m : SM A) : frame s_handoff m -> frame s_handoff (finish m).
Proof. intros Hm s. unfold finish. specialize (Hm s). by destruct (m s) as [[] ?]. Qed.

Ltac framed :=
  repeat first
  [ apply frame_lift | apply frame_get | apply frame_ret | apply frame_throw
  | apply frame_s_on_transport | apply frame_on_handshake | apply frame_on_reassembly
  | apply frame_finish | apply frame_modify; done
  | apply frame_bind; [|intros ?]
  | progress cbv zeta | progress cbn beta
  | match goal with
    | |- frame _ (match ?x with _ => _ end) => destruct x
    end ].

Lemma frame_limit_close h : frame s_handoff (record_limit_close h).
Proof. unfold record_limit_close, s_send_booked. framed. Qed.
Lemma frame_throw_limit {A} h : frame s_handoff (@throw_record_limit _ _ A h).
Proof.
  intros s. unfold throw_record_limit, record_limit_error_with_handoff.
  pose proof (frame_limit_close h s). by destruct (record_limit_close h s).
Qed.
Lemma frame_own_limit {A} : frame s_handoff (@throw_own_limit _ _ A).
Proof. unfold throw_own_limit. framed. apply frame_throw_limit. Qed.
Lemma frame_write_record k d : frame s_handoff (s_write_record k d).
Proof.
  unfold s_write_record, encrypt_counted, s_send_booked. framed. apply frame_throw_limit.
Qed.
Lemma frame_decrypt o : frame s_handoff (s_decrypt_counted o).
Proof. unfold s_decrypt_counted. framed. apply frame_throw_limit. Qed.
Lemma frame_encrypt_all ps : frame s_handoff (encrypt_all ps).
Proof. induction ps; cbn [encrypt_all]; framed. done. Qed.
Lemma frame_write_application p c : frame s_handoff (write_application p c).
Proof.
  unfold write_application. framed; [apply frame_encrypt_all|apply frame_throw_limit].
Qed.
Lemma frame_read_application o : frame s_handoff (core_read_application o).
Proof. unfold core_read_application. framed; apply frame_throw_limit. Qed.

Lemma t_read_err_handoff o s e s' :
  t_read_application o s = (Err e, s') -> session_inv Target s ->
  s_handoff s' = s_handoff s /\ gone s' = true.
Proof.
  unfold t_read_application. pose proof (frame_read_application o s) as Hf.
  intros Hr Hinv. unfold session_inv in Hinv.
  destruct (core_read_application o s) as [[[m|]|] s1] eqn:Hc; cbn in Hf; [|done|].
  - exfalso. destruct (s_closed s) eqn:Hcl.
    { destruct Hinv as (_ & Hh & _).
      destruct (dead_read_application o s) as (? & ? & Hd & _);
        [by apply gone_spec|congruence]. }
    destruct Hinv as [Ho Hrole].
    pose proof (read_application_open _ _ _ _ Ho Hc) as (Ho1 & _ & _ & _ & _ & _ & Hm).
    destruct (Hm m eq_refl) as [Hact _]. cbn in Hr.
    pose proof (so_reassembly _ Ho1) as [_ Hrf].
    unfold on_reassembly, set_cap in Hr. cbn in Hr.
    rewrite (so_limits _ Ho1), Hrf, Hact in Hr. cbn in Hr.
    by destruct (first_application s1).
  - injection Hr as <- <-. done.
Qed.

Lemma t_read_err_inv o s e s' :
  t_read_application o s = (Err e, s') -> session_inv Target s -> session_inv Target s'.
Proof.
  intros Hr Hinv. unfold t_read_application in Hr.
  destruct (core_read_application o s) as [[[m|]|] s1] eqn:Hc; [|done|by injection Hr as _ <-].
  assert (Hr' : t_read_application o s = (Err e, s')) by (unfold t_read_application; by rewrite Hc).
  destruct (t_read_err_handoff _ _ _ _ Hr' Hinv) as [_ Hg]. apply gone_spec in Hg as [Hg _].
  exfalso. cbn in Hr. destruct (first_application s1); [done|].
  unfold on_reassembly, set_cap in Hr. destruct (_ || _); injection Hr as _ <-; cbn in Hg;
    apply read_application_ok in Hc as (p & s2 & r & m' & ra & _ & _ & _ & Hd & _ & _ & _ & _
      & Hs1 & _); apply s_decrypt_counted_ok in Hd as (Hcl & _ & _ & t & t' & _ & _ & ->);
    subst s1; destruct m'; cbn in Hg; congruence.
Qed.

Lemma eof_err role s e s' :
  session_inv role s -> m_map (fun _ : unit => EDone) s_eof s = (Err e, s') ->
  gone s' = true /\ session_inv role s' /\ s_handoff s' = s_handoff s.
Proof.
  intros Hinv. unfold m_map, mbind_M, s_eof. destruct (s_closed s) eqn:Hc.
  - intros [= _ <-]. split_and!; [|done|done]. apply gone_spec.
    unfold session_inv in Hinv. rewrite Hc in Hinv. by split; [|apply Hinv].
  - destruct (on_reassembly ra_eof s) as [r s1] eqn:Hr.
    pose proof (frame_on_reassembly ra_eof s) as Hf. rewrite Hr in Hf. cbn in Hf.
    destruct r; by intros [= _ <-].
Qed.

Lemma validate_err role g k s e s' :
  m_map (fun _ : unit => EDone) (validate_binding g k) s = (Err e, s') ->
  gone s' = true /\ session_inv role s' /\ s_handoff s' = s_handoff s.
Proof.
  unfold m_map, mbind_M, validate_binding. destruct (_ && _); [done|]. by intros [= _ <-].
Qed.

(** A failed call closes the session for good and keeps the hand-off state. *)
Lemma step_err role op m s e s' :
  session_step role op = Some m -> session_inv role s -> m s = (Err e, s') ->
  gone s' = true /\ session_inv role s' /\ s_handoff s' = s_handoff s.
Proof.
  intros Hop Hinv Hm.
  assert (Hfin : forall A (x : SM A) (f : A -> SessionEvent), frame s_handoff x ->
    m_map f (finish x) s = (Err e, s') ->
    gone s' = true /\ session_inv role s' /\ s_handoff s' = s_handoff s).
  { intros A x f Hx Hs. specialize (Hx s). unfold m_map, mbind_M, finish in Hs.
    destruct (x s) as [[] s1]; [done|]. injection Hs as _ <-. done. }
  assert (Hoff : forall A (x : SM A) (f : A -> SessionEvent), frame s_handoff x ->
    m_map f (finish (handing_off x)) s = (Err e, s') ->
    gone s' = true /\ session_inv role s' /\ s_handoff s' = s_handoff s).
  { intros A x f Hx Hs. specialize (Hx s). unfold m_map, mbind_M, finish, handing_off in Hs.
    unfold mbind_M in Hs. destruct (x s) as [[] s1]; [done|]. injection Hs as _ <-. done. }
  destruct role, op; try discriminate Hop; injection Hop as <-;
    first
    [ eapply Hfin; [|exact Hm]; framed;
      solve [ apply frame_throw_limit | apply frame_encrypt_all ]
    | eapply Hoff; [|exact Hm]; framed;
      solve [ apply frame_throw_limit | apply frame_encrypt_all ]
    | idtac ]; unfold m_map, mbind_M in Hm.
  - destruct (t_read_application outer s) as [[|] s1] eqn:Ht; [done|].
    injection Hm as <- <-. destruct (t_read_err_handoff _ _ _ _ Ht Hinv) as [Hh Hg].
    split_and!; [done| |done]. by eapply t_read_err_inv.
  - by apply (eof_err Target s e s').
  - by apply (validate_err Target _ _ s e s' Hm).
  - by apply (eof_err Broker s e s').
  - by apply (validate_err Broker _ _ s e s' Hm).
Qed.
End Handoff.

(** ** Properties of every run *)

Section Runs.
Context `{Minicbor} `{!MinicborLaws} `{Snow}.
Implicit Types (s : SessionCore).

(** A sequence of calls on one session: the events of those that succeed. *)
Fixpoint session_run (role : Role) (ops : list SessionOp) (s : SessionCore)
    : list SessionEvent * SessionCore :=
  match ops with
  | [] => ([], s)
  | op :: ops =>
      match session_step role op with
      | None => session_run role ops s
      | Some m =>
          let '(r, s1) := m s in
          let '(es, s2) := session_run role ops s1 in
          (match r with Ok e => e :: es | Err _ => es end, s2)
      end
  end.

(** One call: its event, if it succeeds, has its effect; if it fails, the session is gone. *)
Lemma step_cases role op m s :
  session_step role op = Some m -> session_inv role s ->
  session_inv role (snd (m s)) /\ handoff_le (s_handoff s) (s_handoff (snd (m s))) /\
  match fst (m s) with
  | Ok e => if s_closed s then e = EDone /\ snd (m s) = s
            else event_effect role s e (snd (m s))
  | Err _ => gone (snd (m s)) = true
  end.
Proof.
  intros Hop Hinv. destruct (m s) as [[e|e] s'] eqn:Hm; cbn.
  - destruct (s_closed s) eqn:Hc.
    + assert (Hg : gone s = true).
      { apply gone_spec. unfold session_inv in Hinv. rewrite Hc in Hinv.
        by split; [|apply Hinv]. }
      destruct (step_gone _ _ _ _ Hop Hg) as [(e' & s1 & Hm' & _)|(g & k & _ & Hm')];
        [congruence|]. rewrite Hm in Hm'. injection Hm' as -> ->.
      by split_and!.
    + unfold session_inv in Hinv. rewrite Hc in Hinv. destruct Hinv as [Ho Hr].
      by apply (step_open_good _ _ _ _ _ _ Hop Ho Hr Hm).
  - destruct (step_err _ _ _ _ _ _ Hop Hinv Hm) as (Hg & Hi & Hh).
    split_and!; [done| |done]. by rewrite Hh.
Qed.

Lemma session_run_ind role (P : SessionCore -> list SessionEvent -> SessionCore -> Prop) :
  (forall s, session_inv role s -> P s [] s) ->
  (forall s op m es s2, session_step role op = Some m -> session_inv role s ->
     P (snd (m s)) es s2 ->
     P s (match fst (m s) with Ok e => e :: es | Err _ => es end) s2) ->
  forall ops s, session_inv role s ->
    P s (fst (session_run role ops s)) (snd (session_run role ops s)).
Proof.
  intros Hnil Hcons. induction ops as [|op ops IH]; intros s Hinv; [by apply Hnil|].
  cbn [session_run]. destruct (session_step role op) as [m|] eqn:Hop; [|by apply IH].
  destruct (step_cases _ _ _ s Hop Hinv) as [Hi _].
  specialize (Hcons s op m). destruct (m s) as [r s1]. cbn in *.
  specialize (IH s1 Hi). destruct (session_run role ops s1) as [es s2]. cbn in *.
  by apply Hcons.
Qed.

(** C15: whatever calls are made on a session, in any order and with any input, it is either
    closed, with its keys gone and no partial message kept, or open and consistent: a
    handshake state or a transport with its session hash, room in both send counters for
    one more Close, a partial message only on the peer's turn, and the inbound cap of its
    role: 64 KiB for a target's first message and 16 MiB after it, 64 MiB for a broker. *)
Theorem session_run_inv role ops s (Hinv : session_inv role s) :
  session_inv role (snd (session_run role ops s)).
Proof.
  revert ops s Hinv. apply (session_run_ind role (fun _ _ s' => session_inv role s'));
    intros; done.
Qed.

(** The messages of a run: [true] for one received, [false] for one sent. *)
Definition turns (es : list SessionEvent) : list bool :=
  omap (fun e => match e with
                 | ESent _ => Some false | EReceived _ => Some true | _ => None end) es.
Fixpoint alternates (peer : bool) (l : list bool) : Prop :=
  match l with [] => True | x :: l => x = peer /\ alternates (negb peer) l end.

Lemma run_closed_turns role ops s :
  session_inv role s -> s_closed s = true -> turns (fst (session_run role ops s)) = [].
Proof.
  intros Hinv. revert ops s Hinv.
  apply (session_run_ind role (fun s es _ => s_closed s = true -> turns es = [])); [done|].
  intros s op m es s2 Hop Hinv IH Hc.
  destruct (step_cases _ _ _ s Hop Hinv) as (_ & _ & He). rewrite Hc in He.
  destruct (m s) as [[e|e] s1]; cbn in *.
  - destruct He as [-> ->]. by apply IH.
  - apply gone_spec in He as [He _]. by apply IH.
Qed.

(** The session is half duplex in every run: messages sent and received alternate,
    starting with the side whose turn it is: a target's first message is one it receives, a
    broker's one it sends, and neither a second send nor a second delivery ever happens
    before the other side has spoken. *)
Theorem session_alternates role ops s
    (Hinv : session_inv role s) (Hopen : s_closed s = false) :
  alternates (peer_turn s) (turns (fst (session_run role ops s))).
Proof.
  revert ops s Hinv Hopen.
  enough (Hgen : forall ops s, session_inv role s ->
    (s_closed s = true -> turns (fst (session_run role ops s)) = []) /\
    (s_closed s = false -> alternates (peer_turn s) (turns (fst (session_run role ops s))))).
  { intros ops s Hinv. by apply Hgen. }
  apply (session_run_ind role (fun s es _ => (s_closed s = true -> turns es = []) /\
    (s_closed s = false -> alternates (peer_turn s) (turns es)))); [done|].
  intros s op m es s2 Hop Hinv [IHc IHo].
  destruct (step_cases _ _ _ s Hop Hinv) as (_ & _ & He).
  destruct (m s) as [[e|e] s1]; cbn [fst snd] in *.
  2:{ apply gone_spec in He as [He _]. by rewrite IHc. }
  destruct (s_closed s) eqn:Hcl.
  { destruct He as [-> ->]. split; [intros _; by apply IHc|done]. }
  split; [done|]. intros _.
  assert (Hsame : (s_closed s1 = true \/ peer_turn s1 = peer_turn s) ->
    alternates (peer_turn s) (turns es)).
  { intros [Hc|Hp]; [by rewrite IHc|]. destruct (s_closed s1); [by rewrite IHc|].
    rewrite <- Hp. by apply IHo. }
  destruct e; cbn [event_effect] in He.
  - by apply Hsame.
  - by apply Hsame.
  - destruct He as (Hc & Hp & Hp' & _). split; [done|]. rewrite Hp. rewrite Hp' in IHo.
    by apply IHo.
  - destruct He as (_ & Hp & Hp'). apply Hsame. right. congruence.
  - destruct He as (Hc & Hp & Hp' & _). split; [done|]. rewrite Hp. rewrite Hp' in IHo.
    by apply IHo.
  - apply Hsame. by left.
Qed.

(** C13: the hand-off evidence is conservative in every run: it never goes back, and once a
    broker's message was encrypted, or a message delivered to a target, it is
    [HandoffPossibleOrConfirmed], whatever happens afterwards. *)
Theorem handoff_is_conservative role ops s (Hinv : session_inv role s) :
  handoff_le (s_handoff s) (s_handoff (snd (session_run role ops s))) /\
  (In (match role with Target => true | Broker => false end)
     (turns (fst (session_run role ops s))) ->
   s_handoff (snd (session_run role ops s)) = HandoffPossibleOrConfirmed).
Proof.
  revert ops s Hinv. apply (session_run_ind role (fun s es s' =>
    handoff_le (s_handoff s) (s_handoff s') /\
    (In (match role with Target => true | Broker => false end) (turns es) ->
     s_handoff s' = HandoffPossibleOrConfirmed))); [done|].
  intros s op m es s2 Hop Hinv [IHle IHin].
  destruct (step_cases _ _ _ s Hop Hinv) as (_ & Hle & He).
  destruct (m s) as [[e|e] s1]; cbn [fst snd] in *; (split; [by etrans|]); [|done].
  assert (Htop : s_handoff s1 = HandoffPossibleOrConfirmed ->
    s_handoff s2 = HandoffPossibleOrConfirmed).
  { intros H1'. rewrite H1' in IHle. unfold handoff_le in IHle.
    destruct (s_handoff s2); [cbn in IHle; lia|done]. }
  destruct (s_closed s); [destruct He as [-> _]; exact IHin|].
  destruct e; cbn [event_effect] in He; try exact IHin.
  - destruct He as (_ & _ & _ & Hh). intros [Hr|Hin]; [|by apply IHin].
    apply Htop, Hh. by destruct role.
  - destruct He as (_ & _ & _ & _ & Hh). intros [Hr|Hin]; [|by apply IHin].
    apply Htop, Hh. by destruct role.
Qed.

(** No message over its cap is delivered in any run: what a target receives is at most
    16 MiB, and 64 KiB if it is the first, and what a broker receives at most 64 MiB; none
    is empty. *)
Theorem received_within_cap role ops s (Hinv : session_inv role s) m
    (Hm : In (EReceived m) (fst (session_run role ops s))) :
  0 < len m <= match role with
               | Target => request_bytes SessionLimits_default
               | Broker => response_bytes SessionLimits_default
               end.
Proof.
  revert Hm. revert ops s Hinv. apply (session_run_ind role (fun s es s' =>
    In (EReceived m) es -> 0 < len m <= match role with
      | Target => request_bytes SessionLimits_default
      | Broker => response_bytes SessionLimits_default end)); [done|].
  intros s op f es s2 Hop Hinv IH.
  destruct (step_cases _ _ _ s Hop Hinv) as (_ & _ & He).
  destruct (f s) as [[e|e] s1]; cbn [fst snd] in *; [|done].
  intros [->|Hin]; [|by apply IH].
  destruct (s_closed s); [by destruct He|]. cbn [event_effect] in He.
  destruct He as (_ & _ & _ & Hl & _). unfold inbound_cap in Hl.
  destruct role; [|done]. destruct (first_application s); [done|]. cbn in *. lia.
Qed.

(** A session that failed is silent for good: the failed call closed it, and in any run
    after it no message is sent or received, no frame is produced, and every error is
    without one; only a [validate_binding] may still succeed. *)
Theorem session_closed_silent role op m s e s' ops
    (Hinv : session_inv role s) (Hop : session_step role op = Some m)
    (He : m s = (Err e, s')) :
  s_closed s' = true /\ s_transport s' = None /\ s_handshake s' = None /\
  (forall ev, In ev (fst (session_run role ops s')) -> ev = EDone) /\
  forall op' m', session_step role op' = Some m' ->
    match fst (m' (snd (session_run role ops s'))) with
    | Ok ev => ev = EDone
    | Err e' => close_frame e' = None
    end.
Proof.
  destruct (step_err _ _ _ _ _ _ Hop Hinv He) as (Hg & Hi & _).
  pose proof Hg as Hg'. apply gone_spec in Hg' as [Hc Hh].
  assert (Ht : s_transport s' = None).
  { unfold session_inv in Hi. rewrite Hc in Hi. apply Hi. }
  assert (Hrun : forall ev, In ev (fst (session_run role ops s')) -> ev = EDone).
  2: assert (Hend : gone (snd (session_run role ops s')) = true).
  - revert Hi Hg. clear -H0. revert ops s'. intros ops s' Hi Hg ev.
    revert Hg. revert ops s' Hi. apply (session_run_ind role (fun s es _ =>
      gone s = true -> In ev es -> ev = EDone)); [done|].
    intros s op m es s2 Hop Hinv IH Hg.
    destruct (step_gone _ _ _ _ Hop Hg) as [(e & s1 & Hm & _ & Hg1)|(g & k & _ & Hm)];
      rewrite Hm in *; cbn in *; [by apply IH|]. intros [<-|Hin]; [done|by apply IH].
  - revert Hi Hg. clear -H0. revert ops s'. intros ops s' Hi Hg.
    revert Hg. revert ops s' Hi. apply (session_run_ind role (fun s _ s2 =>
      gone s = true -> gone s2 = true)); [done|].
    intros s op m es s2 Hop Hinv IH Hg.
    destruct (step_gone _ _ _ _ Hop Hg) as [(e & s1 & Hm & _ & Hg1)|(g & k & _ & Hm)];
      rewrite Hm in *; cbn in *; by apply IH.
  - split_and!; try done. intros op' m' Hop'.
    destruct (step_gone _ _ _ _ Hop' Hend) as [(e' & s1 & Hm & Hq & _)|(g & k & _ & Hm)];
      by rewrite Hm.
Qed.
End Runs.

(** *** Concrete inputs: the two ends of an established session *)

Definition ex_session (role : bool) (sent received : Z) (c : Z) (turn : bool) : SessionCore :=
  mkSession None (Some (RefTransport [] role sent received : TransportState))
    ex_session_binding (Some (repeat (b8 8) 32)) SessionLimits_default
    {| cap := c; active := None; ra_records := 0; ra_bytes := 0; ra_failed := false |}
    true true turn false false 1 140 1 140 NotHandedOff.
Definition ex_target_session : SessionCore :=
  ex_session true 1 1 (first_open_bytes SessionLimits_default) true.
Definition ex_broker_session : SessionCore :=
  ex_session false 1 1 (response_bytes SessionLimits_default) false.

Lemma ex_session_open role n m c turn : 1 <= c -> session_open (ex_session role n m c turn).
Proof.
  intros Hc. by split.
Qed.

Lemma ex_target_inv : session_inv Target ex_target_session.
Proof. apply open_inv; [by apply ex_session_open|done]. Qed.
Lemma ex_broker_inv : session_inv Broker ex_broker_session.
Proof. apply open_inv; [by apply ex_session_open|done]. Qed.

(** An open, the end of the stream, and a request on the closed session. *)
Definition ex_ops : list SessionOp := [OpOpen [b8 1; b8 2]; OpEndOfStream; OpRequest [b8 3]].

Lemma session_run_inv_witness :
  session_inv Broker (snd (session_run Broker ex_ops ex_broker_session)).
Proof. apply session_run_inv. exact ex_broker_inv. Defined.

Lemma session_alternates_witness :
  alternates false (turns (fst (session_run Broker ex_ops ex_broker_session))).
Proof.
  apply (session_alternates Broker ex_ops ex_broker_session);
    [exact ex_broker_inv|reflexivity].
Defined.

Lemma handoff_is_conservative_witness :
  handoff_le NotHandedOff (s_handoff (snd (session_run Broker ex_ops ex_broker_session))) /\
  (In false (turns (fst (session_run Broker ex_ops ex_broker_session))) ->
   s_handoff (snd (session_run Broker ex_ops ex_broker_session))
     = HandoffPossibleOrConfirmed).
Proof.
  apply (handoff_is_conservative Broker ex_ops ex_broker_session). exact ex_broker_inv.
Defined.

(** The frame of the message [1; 2] from the broker's session. *)
Definition ex_open_frame : bytes :=
  match b_write_session_open [b8 1; b8 2] ex_broker_session with
  | (Ok (f :: _), _) => f
  | _ => []
  end.

Lemma received_within_cap_witness :
  0 < len [b8 1; b8 2] <= request_bytes SessionLimits_default.
Proof.
  apply (received_within_cap Target [OpReadApplication ex_open_frame] ex_target_session
    ex_target_inv [b8 1; b8 2]).
  assert (He : fst (session_run Target [OpReadApplication ex_open_frame] ex_target_session)
    = [EReceived [b8 1; b8 2]]) by (vm_compute; reflexivity).
  rewrite He. apply in_eq.
Defined.

Lemma session_closed_silent_witness :
  let s' := snd (b_write_application_request [b8 1] ex_broker_session) in
  s_closed s' = true /\ s_transport s' = None /\ s_handshake s' = None /\
  (forall ev, In ev (fst (session_run Broker ex_ops s')) -> ev = EDone) /\
  forall op' m', session_step Broker op' = Some m' ->
    match fst (m' (snd (session_run Broker ex_ops s'))) with
    | Ok ev => ev = EDone
    | Err e' => close_frame e' = None
    end.
Proof.
  exact (session_closed_silent Broker (OpRequest [b8 1]) _ ex_broker_session seq_violation
    (snd (b_write_application_request [b8 1] ex_broker_session)) ex_ops ex_broker_inv eq_refl
    eq_refl).
Defined.
