(* ===== verification/Channel.v ===== *)
(** Two linked sessions: what the ends of one NNpsk0 session do together, from the
    handshake of [TargetSession]/[BrokerSession] to the last Close. *)

From S2P Require Import Prelude Errors Crates CratesRef Cbor Outer Records Payloads Reassembly NoiseIO Lease Bootstrap Session.

(** ** The frames of one message *)

(** Records of a message, and their plaintext bytes. *)
Definition parts_of (m : bytes) : Z := (len m + 65506) / 65507.
Definition cost_of (m : bytes) : Z := len m + RECORD_HEADER_LEN * parts_of m.

Lemma parts_of_pos m : 0 < len m -> 1 <= parts_of m.
Proof. intros Hm. unfold parts_of. apply Z.div_le_lower_bound; lia. Qed.

Lemma parts_of_nonneg m : 0 <= parts_of m.
Proof. unfold parts_of. pose proof (len_nonneg m). apply Z.div_pos; lia. Qed.

Lemma chunked_count (cs : list bytes) :
  chunked RECORD_DATA_MAX cs -> cs <> [] ->
  65507 * (len cs - 1) < len (concat cs) <= 65507 * len cs.
Proof.
  induction cs as [|c cs IH]; intros Hch Hne; [done|].
  apply chunked_cons in Hch as (Hc & Hfull & Hch); [|unfold RECORD_DATA_MAX; lia].
  unfold RECORD_DATA_MAX in *. cbn [concat]. autorewrite with len.
  destruct cs as [|c' cs]; [cbn; autorewrite with len; lia|].
  specialize (IH Hch ltac:(done)). specialize (Hfull ltac:(done)).
  autorewrite with len in *. lia.
Qed.

Lemma fragments_cost `{Minicbor} k payload parts :
  0 < len payload -> fragment_records k payload = Ok parts ->
  len parts = parts_of payload /\ len (concat parts) = cost_of payload /\
  Forall (fun p : bytes => len p <= PLAINTEXT_MAX) parts.
Proof.
  intros Hpos Hf.
  assert (Hlen : 0 < len payload <= U32_MAX)
    by (unfold fragment_records in Hf; res_inv Hf; bool_split; lia).
  destruct (fragment_records_ok k payload Hlen) as (ps & Hf' & Hch & Hcat & _ & Hl).
  assert (ps = parts) as -> by congruence. set (cs := chunks _ _) in *.
  assert (Hne : cs <> []) by (intros Hnil; rewrite Hnil in Hcat; by subst payload).
  pose proof (chunked_count cs Hch Hne) as Hn. rewrite Hcat in Hn.
  assert (Hcount : len parts = len cs).
  { unfold len. f_equal. apply (f_equal length) in Hl. by rewrite !length_map in Hl. }
  assert (Hparts : len parts = parts_of payload).
  { unfold parts_of. rewrite Hcount.
    apply (Z.div_unique _ _ _ (len payload - 1 - 65507 * (len cs - 1))); lia. }
  split_and!; [done| |].
  - unfold cost_of. rewrite <- Hparts, <- Hcat. clear -Hl. unfold RECORD_HEADER_LEN.
    revert parts Hl. generalize cs. clear cs.
    induction cs as [|c cs IH]; intros [|p parts] Hl; try done.
    injection Hl as Hp Hl. specialize (IH _ Hl). cbn [concat]. autorewrite with len. lia.
  - clear -Hl Hch. revert parts Hl Hch. generalize cs. clear cs.
    induction cs as [|c cs IH]; intros [|p parts] Hl Hch; try done.
    apply chunked_cons in Hch as (Hc & _ & Hch); [|unfold RECORD_DATA_MAX; lia].
    injection Hl as Hp Hl. constructor; [|by apply IH].
    unfold PLAINTEXT_MAX, RECORD_DATA_MAX in *. lia.
Qed.

(** ** Two ends *)

Section Pair.
Context `{Minicbor} `{!MinicborLaws} `{Snow} `{!SnowLaws}.
Implicit Types (a b s : SessionCore).

(** What [b] received is what [a] sent, and [b]'s reassembler is idle. *)
Record one_way (a b : SessionCore) : Prop := {
  ow_records : s_sent_records a = s_received_records b;
  ow_plaintext : s_sent_plaintext a = s_received_plaintext b;
  ow_reassembled : ra_records (s_reassembly b) <= s_received_records b /\
                   ra_bytes (s_reassembly b) <= s_received_plaintext b;
  ow_idle : active (s_reassembly b) = None
}.

Record session_pair (k : Z) (a b : SessionCore) : Prop := {
  sp_left : session_open a;
  sp_right : session_open b;
  sp_linked : exists ta tb, s_transport a = Some ta /\ s_transport b = Some tb /\
                            linked k ta tb;
  sp_binding : s_binding a = s_binding b /\ SessionBinding_wf (s_binding a);
  sp_hash : exists h, session_hash a = Some h /\ session_hash b = Some h /\ len h = 32;
  sp_forth : one_way a b;
  sp_back : one_way b a
}.

Lemma session_pair_sym k a b : session_pair k a b -> session_pair k b a.
Proof.
  intros [Ha Hb (ta & tb & Hta & Htb & Hl) [Hbind Hwf] (h & Hh1 & Hh2 & Hh3) Hf Hk].
  split; try done.
  - exists tb, ta. split_and!; try done. by apply linked_sym.
  - by rewrite <- Hbind.
  - by exists h.
Qed.

(** The states after [n] records of [p] bytes were sent and received. *)
Definition ss_sent (n p : Z) (t : TransportState) (s : SessionCore) : SessionCore :=
  set_sent (s_sent_records s + n) (s_sent_plaintext s + p) (set_transport (Some t) s).
Definition ss_received (n p : Z) (t : TransportState) (s : SessionCore) : SessionCore :=
  set_received (s_received_records s + n) (s_received_plaintext s + p)
    (set_transport (Some t) s).

Lemma keys_sent s t : keys_ok s -> is_Some (s_transport s) -> keys_ok (set_transport (Some t) s).
Proof.
  unfold keys_ok. cbn. intros Hk [t0 Ht]. destruct (s_handshake s).
  - rewrite Ht in Hk. by destruct Hk.
  - destruct Hk as [_ Hk]. split; [by eexists|done].
Qed.

Lemma ss_sent_open n p t s :
  session_open s -> is_Some (s_transport s) -> 0 <= n -> 0 <= p -> s_room s n p true ->
  session_open (ss_sent n p t s).
Proof.
  intros [Ho Hk [Hc1 Hc2] _ Hr Hl Hra Ha] Ht Hn Hp [Hr1 Hr2]. cbn [Z.b2z] in Hr1.
  split; cbn; try done; [by apply keys_sent|lia|split; cbn; lia].
Qed.

Lemma ss_received_open n p t s :
  session_open s -> is_Some (s_transport s) -> 0 <= n -> 0 <= p ->
  s_received_records s + n < RECORD_LIMIT -> s_received_plaintext s + p < BYTE_LIMIT ->
  session_open (ss_received n p t s).
Proof.
  intros [Ho Hk [Hc1 Hc2] Hres Hr Hl Hra Ha] Ht Hn Hp Hr1 Hr2.
  split; cbn; try done; [by apply keys_sent|lia].
Qed.

Lemma pair_moves k j a b n p ta tb :
  session_pair k a b -> 0 <= n -> 0 <= p -> s_room a n p true -> linked j ta tb ->
  session_pair j (ss_sent n p ta a) (ss_received n p tb b).
Proof.
  intros [Ha Hb (ta0 & tb0 & Hta & Htb & _) Hbind Hh [Hf1 Hf2 Hf3 Hf4] [Hk1 Hk2 Hk3 Hk4]]
    Hn Hp Hroom Hl. pose proof Hroom as [Hr1 Hr2]. cbn [Z.b2z] in Hr1.
  unfold CLOSE_LEN in Hr2. split; try done.
  - by apply ss_sent_open.
  - apply ss_received_open; try done; lia.
  - by exists ta, tb.
  - split; cbn; [lia..|done].
Qed.

(** ** One complete record *)

Lemma session_record_delivers k a b kd d reserve :
  session_pair k a b -> 0 < k -> len d <= 512 ->
  s_room a 1 (RECORD_HEADER_LEN + len d) reserve ->
  exists f p ta tb,
    let r := mkRecord kd true true (len d) 0 d in
    let n := RECORD_HEADER_LEN + len d in
    (reserve = true -> s_write_record kd d a = (Ok f, ss_sent 1 n ta a)) /\
    s_decrypt_counted f b = (Ok p, ss_received 1 n tb b) /\
    complete_record kd d = Ok r /\ Record_encode r = Ok p /\
    Record_decode p = Ok r /\ validate_complete_record r kd = Ok tt /\
    s_send_booked p (s_sent_records a + 1, s_sent_plaintext a + len p) a
      = (Ok f, ss_sent 1 n ta a) /\
    linked (k - 1) ta tb.
Proof.
  intros [Ha Hb (ta & tb & Hta & Htb & Hl) _ _ [Hf1 Hf2 _ _] _] Hk Hd Hroom.
  pose proof (len_nonneg d). unfold RECORD_HEADER_LEN in *.
  set (r := mkRecord kd true true (len d) 0 d).
  destruct (Record_encode_ok r) as [p Hp]; [cbn; unfold RECORD_DATA_MAX; lia|].
  pose proof (Record_encode_len _ _ Hp) as Hlen. cbn in Hlen.
  destruct (transport_delivers k ta tb p Hl Hk) as (f & ta' & tb' & He & Hdec & Hl').
  { unfold PLAINTEXT_MAX. lia. }
  assert (Hcr : complete_record kd d = Ok r)
    by (unfold complete_record, ensure, U32_MAX; decide_cmp; done).
  assert (Hw : wrote a (ss_sent 1 (12 + len d) ta' a) p f).
  { split; [apply Ha|]. exists ta, ta'. rewrite Hlen. done. }
  exists f, p, ta', tb'. cbn zeta. pose proof Hroom as [Hr1 Hr2].
  assert (s_sent_records a + 1 < RECORD_LIMIT /\
          s_sent_plaintext a + (12 + len d) < BYTE_LIMIT) as [Hr1' Hr2']
    by (unfold CLOSE_LEN in Hr2; destruct reserve; cbn [Z.b2z] in Hr1; lia).
  split_and!; try done.
  - intros ->. apply s_write_record_ok; [apply Ha..|]. exists r, p. by rewrite Hlen.
  - apply s_decrypt_counted_ok. rewrite Hlen, <- Hf1, <- Hf2.
    split_and!; [apply Hb|lia|lia|]. exists tb, tb'.
    unfold ss_received. rewrite Hf1, Hf2. done.
  - apply record_decode_encode; [|done]. split; cbn; unfold U32_MAX; lia.
  - unfold validate_complete_record. rewrite bool_decide_eq_true_2 by done.
    cbn. by rewrite Z.eqb_refl.
  - by apply s_send_booked_ok.
Qed.
End Pair.

(** ** Establishing a session *)

Section Establish.
Context `{Minicbor} `{!MinicborLaws} `{Snow} `{!SnowLaws}.
Implicit Types (a b s t : SessionCore).

(** A core before its handshake. *)
Definition fresh_core (h : HandshakeState) (binding : SessionBinding) (c : Z) (turn : bool)
    : SessionCore :=
  mkSession (Some h) None binding None SessionLimits_default
    {| cap := c; active := None; ra_records := 0; ra_bytes := 0; ra_failed := false |}
    false false turn false false 0 0 0 0 NotHandedOff.

Lemma fresh_open h binding c turn : 1 <= c -> session_open (fresh_core h binding c turn).
Proof.
  intros Hc. by split.
Qed.

Lemma sessions_complete binding pbs ei er t b :
  TargetSession_new binding pbs ei = Ok t -> BrokerSession_new binding pbs er = Ok b ->
  exists i r, handshake_completes i r /\
    t = fresh_core i binding (first_open_bytes SessionLimits_default) true /\
    b = fresh_core r binding (response_bytes SessionLimits_default) false.
Proof.
  unfold TargetSession_new, BrokerSession_new, SessionCore_new, with_ephemeral, parse_name.
  cbn zeta. intros Ht Hb. res_inv Ht. res_inv Hb.
  repeat match goal with Hc : core _ = Ok _ |- _ => apply core_ok in Hc end.
  repeat match goal with Hc : RecordReassembler_new _ = Ok _ |- _ => injection Hc as <- end.
  rewrite Hr in *. simplify_eq. do 2 eexists. split_and!; [|reflexivity..]. by eapply nnpsk0_completes.
Qed.

(** The end of a handshake in a core. *)
Definition keyed (h : HandshakeState) (ts : TransportState) (s : SessionCore) : SessionCore :=
  set_transport (Some ts) (set_hash (Some (get_handshake_hash h)) (set_handshake None
    (set_handshake (Some h) s))).

Lemma finish_handshake_keyed h ts s :
  into_transport_mode h = Some ts ->
  finish_handshake (set_handshake (Some h) s) = (Ok tt, keyed h ts s).
Proof.
  intros Ht. unfold finish_handshake. rewrite get_bind. cbn [set_handshake upd_keys
    s_handshake res_of_option]. unfold mbind_M, lift, modify. by rewrite Ht.
Qed.

Lemma on_handshake_run {A} (f : M HandshakeState Error A) s h r h' :
  s_handshake s = Some h -> f h = (r, h') ->
  on_handshake f s = (r, set_handshake (Some h') s).
Proof. intros Hh Hf. unfold on_handshake. by rewrite Hh, Hf. Qed.

Lemma read_handshake_run o s h h' :
  s_handshake s = Some h -> read_handshake_mut o h = (Ok [], h') ->
  s_read_handshake o s = (Ok tt, set_handshake (Some h') s).
Proof.
  intros Hh Hr. unfold s_read_handshake.
  by rewrite (mbind_M_step _ _ _ _ _ (on_handshake_run _ _ _ _ _ Hh Hr)).
Qed.

(** The handshake, from two fresh cores. *)
Lemma handshake_establishes binding i r :
  handshake_completes i r -> SessionBinding_wf binding ->
  let t := fresh_core i binding (first_open_bytes SessionLimits_default) true in
  let b := fresh_core r binding (response_bytes SessionLimits_default) false in
  exists m1 t1 m2 i2 r2 ti tr,
    t_write_m1 t = (Ok m1, t1) /\
    b_read_m1_write_m2 m1 b = (Ok m2, keyed r2 tr b) /\
    t_read_m2 m2 t1 = (Ok tt, keyed i2 ti t) /\
    session_pair NONCES (keyed r2 tr b) (keyed i2 ti t).
Proof.
  intros Hc Hwf t b.
  destruct (handshake_delivers i r [] [] Hc) as (m1 & i1 & r1 & m2 & i2 & r2 & ti & tr & Hw1
    & Hr1 & Hw2 & Hr2 & Hh & Hhl & Hti & Htr & Hlink); [rewrite len_nil; lia..|].
  exists m1, (set_handshake (Some i1) t), m2, i2, r2, ti, tr. split_and!.
  - apply finish_ok. unfold s_write_handshake. by apply (on_handshake_run _ _ i).
  - apply finish_ok.
    rewrite (mbind_M_step _ _ _ _ _ (read_handshake_run m1 b r r1 eq_refl Hr1)).
    rewrite (mbind_M_step _ _ _ _ _ (on_handshake_run (write_handshake [])
      (set_handshake (Some r1) b) r1 _ r2 eq_refl Hw2)).
    change (set_handshake (Some r2) (set_handshake (Some r1) b))
      with (set_handshake (Some r2) b).
    by rewrite (mbind_M_step _ _ _ _ _ (finish_handshake_keyed r2 tr b Htr)).
  - apply finish_ok. unfold read_handshake_finish.
    rewrite (mbind_M_step _ _ _ _ _ (read_handshake_run m2 (set_handshake (Some i1) t)
      i1 i2 eq_refl Hr2)).
    by apply (finish_handshake_keyed i2 ti t).
  - split; try done.
    + exists tr, ti. split_and!; [done|done|by apply linked_sym].
    + exists (get_handshake_hash i2). cbn. by rewrite Hh in *.
Qed.

(** A Finished record, either way. *)
Lemma finished_delivers k a b role :
  session_pair k a b -> 0 < k -> role = 0 \/ role = 1 ->
  sent_finished a = false -> got_finished b = false -> s_room a 1 512 true ->
  exists f n ta tb,
    core_write_finished role a = (Ok f, set_sent_finished (ss_sent 1 n ta a)) /\
    core_read_finished f role b = (Ok tt, set_got_finished (ss_received 1 n tb b)) /\
    0 <= n <= 300 /\
    session_pair (k - 1) (set_sent_finished (ss_sent 1 n ta a))
      (set_got_finished (ss_received 1 n tb b)).
Proof.
  intros Hpair Hk Hrole Hsf Hgf [Hr1 Hr2].
  destruct (sp_binding _ _ _ Hpair) as [Hbind Hwf].
  destruct (sp_hash _ _ _ Hpair) as (h & Hha & Hhb & Hhl).
  destruct (finished_ok (s_binding a) role h Hwf Hhl Hrole) as (d & Hd & Hlen).
  set (n := RECORD_HEADER_LEN + len d). unfold RECORD_HEADER_LEN in n.
  assert (Hroom : s_room a 1 n true) by (split; [done|]; unfold n; lia).
  destruct (session_record_delivers k a b Finished d true Hpair Hk ltac:(lia) Hroom)
    as (f & p & ta & tb & Hw & Hdec & _ & _ & Hrec & Hval & _ & Hl).
  specialize (Hw eq_refl). exists f, n, ta, tb. split_and!; [| |unfold n; lia|unfold n; lia|].
  - unfold core_write_finished. m_run ltac:(by rewrite Hsf).
    rewrite Hha. cbn [res_of_option]. rewrite (lift_bind (Ok h) _ _ h eq_refl).
    rewrite (lift_bind _ _ _ _ Hd). by rewrite (mbind_M_step _ _ _ _ _ Hw), modify_bind.
  - unfold core_read_finished. rewrite get_bind, Hgf, Hhb. cbn [res_of_option].
    rewrite (lift_bind (Ok h) _ _ h eq_refl), (mbind_M_step _ _ _ _ _ Hdec).
    rewrite (lift_bind _ _ _ _ Hrec), (lift_bind _ _ _ _ Hval), get_bind.
    cbn [data ss_received set_received set_transport upd_usage upd_keys s_binding].
    rewrite <- Hbind.
    rewrite (lift_bind _ _ _ _ (parse_finished_complete d (s_binding a) role h Hwf Hhl Hrole Hd)).
    m_run ltac:(by rewrite Z.eqb_refl). done.
  - destruct (pair_moves k (k - 1) a b 1 n ta tb Hpair) as
      [Ha Hb Hlk Hbd Hh [? ? ? ?] [? ? ? ?]]; [lia|unfold n; lia|done|done|].
    destruct (sp_linked _ _ _ Hpair) as (ta0 & tb0 & Hta & Htb & _).
    destruct (keys_transport _ _ (so_keys _ (sp_left _ _ _ Hpair)) Hta) as [Hka _].
    destruct (keys_transport _ _ (so_keys _ (sp_right _ _ _ Hpair)) Htb) as [Hkb _].
    split; try done; [by apply set_sent_finished_open|by apply set_got_finished_open].
Qed.

(** Two sessions that may converse: both Finished exchanged, and whose turn it is. *)
Record session_ready (k : Z) (first broker_turn : bool) (b t : SessionCore) : Prop := {
  sr_pair : session_pair k b t;
  sr_broker : role_ok Broker b;
  sr_target : role_ok Target t;
  sr_finished : sent_finished b = true /\ got_finished b = true /\
                sent_finished t = true /\ got_finished t = true;
  sr_first : first_application b = negb first /\ first_application t = negb first;
  sr_turn : peer_turn b = negb broker_turn /\ peer_turn t = broker_turn
}.

(** A session is established: a target and a broker built with one binding and one
    bootstrap secret exchange the two handshake messages and a Finished each way, every call
    succeeds, and they end linked: equal bindings and session hashes, mirrored counters,
    both sides with the two Finished done, the broker to speak. *)
Theorem session_establishes binding pbs et eb t b
    (Hwf : SessionBinding_wf binding)
    (Ht : TargetSession_new binding pbs et = Ok t)
    (Hb : BrokerSession_new binding pbs eb = Ok b) :
  exists m1 t1 m2 b1 t2 f t3 b2 g b3 t4,
    t_write_m1 t = (Ok m1, t1) /\
    b_read_m1_write_m2 m1 b = (Ok m2, b1) /\
    t_read_m2 m2 t1 = (Ok tt, t2) /\
    t_write_finished t2 = (Ok f, t3) /\
    b_read_finished f b1 = (Ok tt, b2) /\
    b_write_finished b2 = (Ok g, b3) /\
    t_read_finished g t3 = (Ok tt, t4) /\
    session_ready (NONCES - 2) true true b3 t4 /\
    s_handoff b3 = NotHandedOff /\ s_handoff t4 = NotHandedOff.
Proof.
  destruct (sessions_complete _ _ _ _ _ _ Ht Hb) as (i & r & Hc & -> & ->).
  destruct (handshake_establishes binding i r Hc Hwf) as
    (m1 & t1 & m2 & i2 & r2 & ti & tr & Hm1 & Hm2 & Hread & Hpair). cbn zeta in *.
  set (t2 := keyed i2 ti _) in *. set (b1 := keyed r2 tr _) in *.
  apply session_pair_sym in Hpair.
  destruct (finished_delivers NONCES t2 b1 0 Hpair) as (f & n & ta & tb & Hf1 & Hf2 & Hn & Hp2);
    [unfold NONCES; lia|by left|done|done| |].
  { split; cbn; unfold CLOSE_LEN, RECORD_LIMIT, BYTE_LIMIT; lia. }
  set (t3 := set_sent_finished _) in *. set (b2 := set_got_finished _) in *.
  apply session_pair_sym in Hp2.
  destruct (finished_delivers (NONCES - 1) b2 t3 1 Hp2) as (g & n' & ta' & tb' & Hg1 & Hg2 & Hn' & Hp3);
    [unfold NONCES; lia|by right|done|done| |].
  { split; cbn; unfold CLOSE_LEN, RECORD_LIMIT, BYTE_LIMIT; lia. }
  exists m1, t1, m2, b1, t2, f, t3, b2, g. do 2 eexists.
  split_and!; try done; try (apply finish_ok; eassumption).
Qed.
End Establish.

(** ** Messages *)

Section Messages.
Context `{Minicbor} `{!MinicborLaws} `{Snow} `{!SnowLaws}.
Implicit Types (a b s : SessionCore).

(** The calls that read the frames of a message, one each. *)
Fixpoint read_frames (f : bytes -> SM (option bytes)) (frames : list bytes)
    : SM (list (option bytes)) :=
  match frames with
  | [] => ret []
  | x :: xs => do m <- f x; do ms <- read_frames f xs; ret (m :: ms)
  end.

(** What they answer: nothing until the last frame. *)
Definition delivery (m : bytes) : list (option bytes) :=
  replicate (pred (Z.to_nat (parts_of m))) None ++ [Some m].

(** A session that may read one more frame of [p] bytes of plaintext. *)
Record reading (s : SessionCore) (t : TransportState) (p : Z) : Prop := {
  rd_open : s_closed s = false;
  rd_transport : s_transport s = Some t;
  rd_finished : sent_finished s = true /\ got_finished s = true;
  rd_turn : peer_turn s = true;
  rd_counts : s_received_records s + 1 < RECORD_LIMIT /\
              s_received_plaintext s + p < BYTE_LIMIT
}.

Lemma read_one s t t' f p r m ra :
  reading s t (len p) -> decrypt_transport f t = (Ok p, t') -> Record_decode p = Ok r ->
  kind r = Application -> accept r (s_reassembly s) = (Ok m, ra) ->
  (forall x, m = Some x -> 0 < len (snd x)) ->
  core_read_application f s
    = (Ok (snd <$> m), (if m is Some _ then set_peer_turn false else id)
                         (upd_reassembly ra (ss_received 1 (len p) t' s))).
Proof.
  intros [Ho Ht [Hsf Hgf] Hpt [Hr Hp]] Hd Hrec Hk Hacc Hpos.
  assert (Hdec : s_decrypt_counted f s = (Ok p, ss_received 1 (len p) t' s))
    by (apply s_decrypt_counted_ok; eauto 8).
  unfold core_read_application. m_run ltac:(by rewrite Hsf, Hgf).
  rewrite (mbind_M_step _ _ _ _ _ Hdec), (lift_bind _ _ _ _ Hrec), Hk.
  rewrite bool_decide_eq_false_2 by done.
  m_run ltac:(first [exact Hpt | by apply bool_decide_eq_true_2]).
  assert (Hon : on_reassembly (accept r) (ss_received 1 (len p) t' s)
    = (Ok m, upd_reassembly ra (ss_received 1 (len p) t' s)))
    by (unfold on_reassembly; cbn [ss_received set_received set_transport upd_usage upd_keys
          s_reassembly]; by rewrite Hacc).
  rewrite (mbind_M_step _ _ _ _ _ Hon). destruct m as [[kd x]|]; [|done].
  m_run ltac:(apply negb_true_iff, is_empty_false, (Hpos (kd, x) eq_refl)). done.
Qed.

(** The state of the reader after a whole message. *)
Definition after_message (n p : Z) (t : TransportState) (ra : RecordReassembler)
    (s : SessionCore) : SessionCore :=
  set_peer_turn false (upd_reassembly ra (ss_received n p t s)).

Lemma after_message_step n p q t t0 ra ra0 s :
  after_message n p t ra (upd_reassembly ra0 (ss_received 1 q t0 s))
    = after_message (1 + n) (q + p) t ra s.
Proof.
  unfold after_message, ss_received. cbn [upd_reassembly set_received set_transport upd_usage
    upd_keys s_received_records s_received_plaintext]. rewrite !Z.add_assoc. reflexivity.
Qed.

(** The writer's loop and the reader's calls, frame by frame. *)
Lemma frames_deliver parts : forall rs k a b ta tb payload ra,
  parts <> [] -> linked k ta tb -> len parts <= k ->
  Forall (fun p : bytes => len p <= PLAINTEXT_MAX) parts ->
  Forall2 (fun l r => Record_decode l = Ok r) parts rs ->
  Forall (fun r => kind r = Application) rs ->
  accept_all rs (s_reassembly b)
    = (Ok (answers (pred (length parts)) Application payload), ra) ->
  0 < len payload ->
  s_closed a = false -> s_transport a = Some ta -> s_closed b = false ->
  s_transport b = Some tb -> sent_finished b = true -> got_finished b = true ->
  peer_turn b = true ->
  s_received_records b + len parts < RECORD_LIMIT ->
  s_received_plaintext b + len (concat parts) < BYTE_LIMIT ->
  exists frames ta' tb',
    encrypt_all parts a = (Ok frames, set_transport (Some ta') a) /\
    read_frames core_read_application frames b
      = (Ok (replicate (pred (length parts)) None ++ [Some payload]),
         after_message (len parts) (len (concat parts)) tb' ra b) /\
    linked (k - len parts) ta' tb'.
Proof.
  induction parts as [|p parts IH]; [done|].
  intros rs k a b ta tb payload ra _ Hl Hk Hmax Hdec Hkind Hacc Hpos Hao Hta Hbo Htb Hsf Hgf
    Hpt Hrr Hrp.
  inversion Hmax as [|? ? Hp Hmax']; subst. inversion Hdec as [|? r ? rs' Hr Hdec']; subst.
  inversion Hkind as [|? ? Hkr Hkind']; subst. cbn [concat] in Hrp. rewrite len_cons in *.
  rewrite len_app in Hrp. pose proof (len_nonneg parts). pose proof (len_nonneg (concat parts)).
  destruct (transport_delivers k ta tb p Hl ltac:(lia) Hp) as (f & ta1 & tb1 & He & Hd & Hl1).
  assert (Hrd : reading b tb (len p)) by (split; try done; lia).
  assert (Hena : s_on_transport (encrypt_transport p) a = (Ok f, set_transport (Some ta1) a))
    by (apply s_on_transport_ok; eauto 8).
  cbn [encrypt_all]. rewrite (mbind_M_step _ _ _ _ _ Hena).
  cbn [accept_all] in Hacc. m_inv Hacc. cbn [length pred] in *. unfold answers in *.
  destruct parts as [|q parts].
  - inversion Hdec'; subst. cbn in Hm0. injection Hm0 as <- <-. cbn in Hacc.
    injection Hacc as ->.
    pose proof (read_one b tb tb1 f p r _ _ Hrd Hd Hr Hkr Hm) as Hread.
    specialize (Hread ltac:(by intros ? [= <-])).
    exists [f], ta1, tb1. split_and!; [done| |].
    + cbn [read_frames]. rewrite (mbind_M_step _ _ _ _ _ Hread).
      cbn [concat]. by rewrite app_nil_r.
    + by replace (k - (1 + len [])) with (k - 1) by (rewrite len_nil; lia).
  - cbn [length replicate app] in *. simplify_eq.
    pose proof (read_one b tb tb1 f p r None _ Hrd Hd Hr Hkr Hm ltac:(done)) as Hread.
    cbn [option_fmap option_map fmap] in Hread. unfold id in Hread.
    set (b1 := upd_reassembly _ _) in Hread.
    destruct (IH rs' (k - 1) (set_transport (Some ta1) a) b1 ta1 tb1 payload ra)
      as (fs & ta2 & tb2 & Hw & Hread' & Hl2);
      [done|done|lia|assumption|assumption|assumption|exact Hm0|assumption|assumption
      |reflexivity|assumption|reflexivity|assumption|assumption|assumption
      |change (s_received_records b1) with (s_received_records b + 1); lia
      |change (s_received_plaintext b1) with (s_received_plaintext b + len p); lia|].
    exists (f :: fs), ta2, tb2. split_and!.
    + by rewrite (mbind_M_step _ _ _ _ _ Hw).
    + cbn [read_frames]. rewrite (mbind_M_step _ _ _ _ _ Hread).
      rewrite (mbind_M_step _ _ _ _ _ Hread'). unfold ret, b1.
      change (concat (p :: q :: parts)) with (p ++ concat (q :: parts)).
      rewrite len_app. f_equal. apply after_message_step.
    + replace (k - (1 + len (q :: parts))) with (k - 1 - len (q :: parts)) by lia. done.
Qed.

(** A message written with [write_application] and read by the other core. *)
Lemma message_delivers k a b payload c :
  session_pair k a b ->
  sent_finished a = true -> got_finished a = true ->
  sent_finished b = true -> got_finished b = true ->
  peer_turn a = false -> peer_turn b = true ->
  0 < len payload <= c -> len payload <= cap (s_reassembly b) -> len payload <= U32_MAX ->
  parts_of payload <= k -> s_room a (parts_of payload) (cost_of payload) true ->
  exists frames ta tb ra,
    let n := parts_of payload in let p := cost_of payload in
    write_application payload c a = (Ok frames, set_peer_turn true (ss_sent n p ta a)) /\
    read_frames core_read_application frames b
      = (Ok (delivery payload), after_message n p tb ra b) /\
    cap ra = cap (s_reassembly b) /\ ra_failed ra = false /\ active ra = None /\
    session_pair (k - n) (set_peer_turn true (ss_sent n p ta a)) (after_message n p tb ra b).
Proof.
  intros Hpair Hsa Hga Hsb Hgb Hta Htb Hc Hcap Hmax Hk Hroom.
  pose proof (sp_left _ _ _ Hpair) as Ha. pose proof (sp_right _ _ _ Hpair) as Hb.
  destruct (sp_linked _ _ _ Hpair) as (ta & tb & Htra & Htrb & Hl).
  destruct (sp_forth _ _ _ Hpair) as [Hf1 Hf2 [Hf3 Hf4] Hidle].
  destruct (so_reassembly _ Hb) as [Hri Hrf]. destruct (so_counts _ Ha) as [Hn1 Hn2].
  destruct (fragment_records_ok Application payload ltac:(lia)) as (parts & Hf & _).
  destruct (fragments_cost Application payload parts ltac:(lia) Hf) as (Hn & Hp & Hsmall).
  pose proof (parts_of_pos payload ltac:(lia)) as Hpos.
  pose proof Hroom as [Hr1 Hr2]. cbn [Z.b2z] in Hr1. unfold CLOSE_LEN in Hr2.
  destruct (fragments_accepted Application payload parts (s_reassembly b) Hri Hrf Hidle Hf
    Hcap eq_refl) as (rs & Hdec & Hkind & Hacc & Hrn & Hrb); [lia|lia|].
  destruct (frames_deliver parts rs k a b ta tb payload _
    (fragment_records_nonempty _ _ _ Hf) Hl ltac:(lia) Hsmall Hdec Hkind Hacc ltac:(lia)
    (so_open _ Ha) Htra (so_open _ Hb) Htrb Hsb Hgb Htb ltac:(lia) ltac:(lia))
    as (frames & ta' & tb' & Hw & Hread & Hl').
  rewrite Hn, Hp in *. exists frames, ta', tb', (after rs (s_reassembly b)). cbn zeta.
  split_and!; [| |done|done|done|].
  - unfold write_application. m_run ltac:(rewrite ?Hsa, ?Hga, ?Hta; cbn;
      first [lia | apply negb_true_iff, is_empty_false; lia]).
    rewrite (lift_bind _ _ _ _ Hf), message_bytes_spec, Hn, Hp.
    assert (Hadd : checked_add 0 (cost_of payload) = Some (cost_of payload))
      by (apply checked_add_some; unfold U64_MAX, BYTE_LIMIT in *; lia).
    rewrite Hadd. destruct (send_usage_after_spec a (parts_of payload) (cost_of payload) true)
      as [[_ Hu]|[Hno _]]; [lia|lia|lia|unfold cost_of, RECORD_HEADER_LEN; lia| |done].
    rewrite (lift_bind _ _ _ _ Hu). by rewrite (mbind_M_step _ _ _ _ _ Hw), !modify_bind.
  - rewrite Hread. unfold delivery. do 3 f_equal. rewrite <- Hn. by rewrite to_nat_len.
  - destruct (pair_moves k (k - parts_of payload) a b (parts_of payload) (cost_of payload) ta' tb'
      Hpair) as [Ha' Hb' Hlk Hbd Hh [? ? [? ?] ?] [? ? [? ?] ?]];
      [lia|unfold cost_of, RECORD_HEADER_LEN; lia|done|done|].
    split; try done.
    + by destruct Ha'; split.
    + destruct Hb'. split; try done. split; [|exact Hrf]. by apply after_inv.
    + split; try done. cbn. rewrite Hrn, Hrb. lia.
Qed.
End Messages.

(** ** Conversations *)

Section Conversation.
Context `{Minicbor} `{!MinicborLaws} `{Snow} `{!SnowLaws}.
Implicit Types (a b s t : SessionCore).

(** The broker's first message opens the session, the others are requests. *)
Definition broker_write (m : bytes) : SM (list bytes) := fun s =>
  if first_application s then b_write_application_request m s else b_write_session_open m s.

(** What [t_read_application] does after a whole message. *)
Definition target_after (s : SessionCore) : SessionCore :=
  let s := upd_handoff HandoffPossibleOrConfirmed s in
  if first_application s then s
  else upd_reassembly (with_cap (request_bytes SessionLimits_default) (s_reassembly s))
         (set_first_application s).

Lemma target_after_eq s :
  target_after s = if first_application s then upd_handoff HandoffPossibleOrConfirmed s
    else upd_reassembly (with_cap (request_bytes SessionLimits_default) (s_reassembly s))
           (set_first_application (upd_handoff HandoffPossibleOrConfirmed s)).
Proof. reflexivity. Qed.

Lemma target_after_sent s :
  s_sent_records (target_after s) = s_sent_records s /\
  s_sent_plaintext (target_after s) = s_sent_plaintext s.
Proof. rewrite target_after_eq. by destruct (first_application s). Qed.

(** Neither end's last step disturbs the pair. *)
Lemma pair_after_message k b t :
  session_pair k b t ->
  session_pair k (upd_handoff HandoffPossibleOrConfirmed b) (target_after t).
Proof.
  intros [Hb Ht Hl Hbind Hh Hf [? ? ? ?]]. pose proof Hf as [? ? ? Hidle].
  rewrite target_after_eq. destruct Hb. destruct (first_application t).
  - destruct Ht. split; try done; by split.
  - destruct Ht as [? ? ? ? ? ? [[? ? ?] ?] ?].
    split; try done; split; try done. split; [|done]. split; try done. cbn. by rewrite Hidle.
Qed.

Lemma t_read_last f s m s1 :
  core_read_application f s = (Ok (Some m), s1) -> session_open s1 ->
  active (s_reassembly s1) = None ->
  t_read_application f s = (Ok (Some m), target_after s1).
Proof.
  intros Hc Ho Ha. unfold t_read_application, target_after. rewrite Hc.
  change (first_application (upd_handoff HandoffPossibleOrConfirmed s1))
    with (first_application s1).
  destruct (first_application s1); [done|]. unfold on_reassembly, set_cap.
  cbn [set_first_application upd_flags upd_handoff s_limits s_reassembly].
  destruct (so_reassembly _ Ho) as [_ ->]. by rewrite (so_limits _ Ho), Ha.
Qed.

Lemma t_read_frames fs n m : forall s s1,
  read_frames core_read_application fs s = (Ok (replicate n None ++ [Some m]), s1) ->
  session_open s1 -> active (s_reassembly s1) = None ->
  read_frames t_read_application fs s = (Ok (replicate n None ++ [Some m]), target_after s1).
Proof.
  revert n. induction fs as [|f fs IH]; intros n s s1 Hr Ho Ha; cbn [read_frames] in *;
    m_inv Hr; [by destruct n|].
  destruct n as [|n]; cbn [replicate app] in *; simplify_eq.
  - destruct fs; [|cbn in Hm0; m_inv Hm0; done]. injection Hm0 as ->.
    by rewrite (mbind_M_step _ _ _ _ _ (t_read_last f s m s1 Hm Ho Ha)).
  - assert (Ht : t_read_application f s = (Ok None, s0))
      by (unfold t_read_application; by rewrite Hm).
    rewrite (mbind_M_step _ _ _ _ _ Ht).
    by rewrite (mbind_M_step _ _ _ _ _ (IH _ _ _ Hm0 Ho Ha)).
Qed.

Lemma b_read_frames fs : forall ms s s1,
  read_frames core_read_application fs s = (Ok ms, s1) ->
  read_frames b_read_application_response fs s = (Ok ms, s1).
Proof.
  induction fs as [|f fs IH]; intros ms s s1 Hr; cbn [read_frames] in *; m_inv Hr; [done|].
  assert (Hb : b_read_application_response f s = (Ok a, s0)) by (by apply finish_ok).
  rewrite (mbind_M_step _ _ _ _ _ Hb). by rewrite (mbind_M_step _ _ _ _ _ (IH _ _ _ Hm0)).
Qed.

(** Counters and caps leave room on a side for [n] records of [p] bytes. *)
Definition side_room (s : SessionCore) (n p : Z) : Prop := s_room s n p true.

Lemma side_room_sent s n p n' p' tr :
  side_room (ss_sent n p tr s) n' p' <-> side_room s (n + n') (p + p').
Proof. unfold side_room, s_room. cbn. lia. Qed.

Definition broker_cap (first : bool) : Z :=
  if first then first_open_bytes SessionLimits_default
  else request_bytes SessionLimits_default.

Lemma broker_delivers k first b t m :
  session_ready k first true b t -> 0 < len m <= broker_cap first -> parts_of m <= k ->
  s_room b (parts_of m) (cost_of m) true ->
  exists frames b' t' tr,
    broker_write m b = (Ok frames, b') /\
    read_frames t_read_application frames t = (Ok (delivery m), t') /\
    session_ready (k - parts_of m) false false b' t' /\
    s_sent_records b' = s_sent_records (ss_sent (parts_of m) (cost_of m) tr b) /\
    s_sent_plaintext b' = s_sent_plaintext (ss_sent (parts_of m) (cost_of m) tr b) /\
    s_sent_records t' = s_sent_records t /\ s_sent_plaintext t' = s_sent_plaintext t.
Proof.
  intros [Hpair Hrb Hrt (Hbs & Hbg & Hts & Htg) [Hf1 Hf2] [Hp1 Hp2]] Hm Hk Hroom.
  pose proof (sp_left _ _ _ Hpair) as Hb. pose proof (sp_right _ _ _ Hpair) as Ht.
  assert (Hcap : cap (s_reassembly t) = broker_cap first).
  { unfold role_ok in Hrt. rewrite Hf2 in Hrt. by destruct first, Hrt. }
  assert (Hle : broker_cap first <= request_bytes SessionLimits_default <= U32_MAX)
    by (destruct first; cbn; unfold U32_MAX; lia).
  set (b0 := if first then set_first_application b else b).
  assert (Hpair0 : session_pair k b0 t).
  { unfold b0. destruct first; [|done]. destruct Hpair as [Hpl ? ? ? ? [] []].
    split; try done. by destruct Hpl; split. }
  destruct (message_delivers k b0 t m (request_bytes SessionLimits_default) Hpair0)
    as (frames & tb & tt' & ra & Hw & Hread & Hcr & Hfr & Har & Hpair');
    [by unfold b0; destruct first..|done|done|by unfold b0; destruct first|done|lia|lia|lia
    |done|by unfold b0; destruct first|]. cbn zeta in *.
  set (b1 := set_peer_turn true _) in *. set (t1 := after_message _ _ _ _ _) in *.
  pose proof (sp_left _ _ _ Hpair') as Hb1. pose proof (sp_right _ _ _ Hpair') as Ht1.
  exists frames, (upd_handoff HandoffPossibleOrConfirmed b1), (target_after t1), tb.
  assert (Hfb1 : first_application b1 = true) by (unfold b1, b0; by destruct first).
  assert (Hafter : first_application (target_after t1) = true /\
    cap (s_reassembly (target_after t1)) = request_bytes SessionLimits_default /\
    s_handoff (target_after t1) = HandoffPossibleOrConfirmed /\
    peer_turn (target_after t1) = false /\
    sent_finished (target_after t1) = true /\ got_finished (target_after t1) = true).
  { rewrite target_after_eq. change (first_application t1) with (first_application t).
    rewrite Hf2. destruct first; cbn [negb]; split_and!; try done.
    exact (eq_trans Hcr Hcap). }
  split_and!.
  - assert (Hsent : forall x : SM (list bytes), x b = (Ok frames, b1) ->
      finish (handing_off x) b
        = (Ok frames, upd_handoff HandoffPossibleOrConfirmed b1)).
    { intros x Hx. apply finish_ok. unfold handing_off.
      by rewrite (mbind_M_step _ _ _ _ _ Hx), modify_bind. }
    unfold broker_write. rewrite Hf1. destruct first; cbn [negb]; apply Hsent;
      rewrite get_bind, Hf1, (so_limits _ Hb); cbn [negb orb].
    + rewrite (proj2 (is_empty_false m)) by lia. cbn [broker_cap] in Hm.
      rewrite (proj2 (Z.ltb_ge _ _)) by lia. rewrite modify_bind. exact Hw.
    + exact Hw.
  - by apply t_read_frames.
  - split.
    + by apply pair_after_message.
    + unfold role_ok. cbn [upd_handoff first_application s_reassembly s_handoff].
      rewrite Hfb1. split; [|done]. destruct Hrb as [Hrb _]. by unfold b1, b0; destruct first.
    + unfold role_ok. destruct Hafter as (-> & -> & -> & _). done.
    + destruct Hafter as (_ & _ & _ & _ & -> & ->). by unfold b1, b0; destruct first.
    + split; [exact Hfb1|]. by destruct Hafter as (-> & _).
    + split; [done|]. by destruct Hafter as (_ & _ & _ & -> & _).
  - by unfold b1, b0; destruct first.
  - by unfold b1, b0; destruct first.
  - exact (proj1 (target_after_sent t1)).
  - exact (proj2 (target_after_sent t1)).
Qed.

Lemma target_delivers k b t m :
  session_ready k false false b t -> 0 < len m <= response_bytes SessionLimits_default ->
  parts_of m <= k -> s_room t (parts_of m) (cost_of m) true ->
  exists frames b' t' tr,
    t_write_application_response m t = (Ok frames, t') /\
    read_frames b_read_application_response frames b = (Ok (delivery m), b') /\
    session_ready (k - parts_of m) false true b' t' /\
    s_sent_records t' = s_sent_records (ss_sent (parts_of m) (cost_of m) tr t) /\
    s_sent_plaintext t' = s_sent_plaintext (ss_sent (parts_of m) (cost_of m) tr t) /\
    s_sent_records b' = s_sent_records b /\ s_sent_plaintext b' = s_sent_plaintext b.
Proof.
  intros [Hpair Hrb Hrt (Hbs & Hbg & Hts & Htg) [Hf1 Hf2] [Hp1 Hp2]] Hm Hk Hroom.
  cbn [negb] in *. pose proof (sp_right _ _ _ Hpair) as Ht.
  destruct (message_delivers k t b m (response_bytes SessionLimits_default)
    (session_pair_sym _ _ _ Hpair)) as (frames & tt' & tb & ra & Hw & Hread & Hcr & Hfr & Har
    & Hpair'); [done..| |by cbn in *; unfold U32_MAX; lia|done|done|].
  { destruct Hrb as [-> _]. apply Hm. }
  cbn zeta in *. apply session_pair_sym in Hpair'. pose proof Hrb as [Hcap Hh].
  rewrite Hf1 in Hh. exists frames, (after_message (parts_of m) (cost_of m) tb ra b),
    (set_peer_turn true (ss_sent (parts_of m) (cost_of m) tt' t)), tt'. split_and!; [| | |done..].
  - apply finish_ok. rewrite get_bind, Hf2, (so_limits _ Ht). exact Hw.
  - by apply b_read_frames.
  - split; [exact Hpair'| | |done|done|done].
    + unfold role_ok. cbn. by rewrite Hf1, Hcr.
    + unfold role_ok in *. cbn. by rewrite Hf2 in *.
Qed.

(** One message between the two processes: written by one, its frames read by the other. *)
Definition says (w : SM (list bytes)) (r : bytes -> SM (option bytes))
    (x y : SessionCore) : result Error (list (option bytes)) * (SessionCore * SessionCore) :=
  match w x with
  | (Ok frames, x') => let '(d, y') := read_frames r frames y in (d, (x', y'))
  | (Err e, x') => (Err e, (x', y))
  end.

(** A conversation: the messages alternate, the broker or the target first; the answers of
    the reader's calls are collected. *)
Fixpoint converse (broker_turn : bool) (msgs : list bytes)
    : M (SessionCore * SessionCore) Error (list (list (option bytes))) :=
  match msgs with
  | [] => ret []
  | m :: msgs =>
      do d <- (fun '(b, t) =>
        if broker_turn then says (broker_write m) t_read_application b t
        else let '(d, (t', b')) :=
               says (t_write_application_response m) b_read_application_response t b in
             (d, (b', t')));
      do ds <- converse (negb broker_turn) msgs;
      ret (d :: ds)
  end.

Fixpoint caps_ok (first broker_turn : bool) (msgs : list bytes) : Prop :=
  match msgs with
  | [] => True
  | m :: msgs =>
      0 < len m <= (if broker_turn then broker_cap first
                    else response_bytes SessionLimits_default) /\
      caps_ok false (negb broker_turn) msgs
  end.

Definition total (f : bytes -> Z) (msgs : list bytes) : Z := foldr (fun m n => f m + n) 0 msgs.

Lemma total_nonneg f msgs : (forall m, 0 <= f m) -> 0 <= total f msgs.
Proof.
  intros Hf. unfold total. induction msgs as [|m msgs IH]; cbn; [lia|].
  specialize (Hf m). lia.
Qed.

Lemma cost_of_nonneg m : 0 <= cost_of m.
Proof.
  unfold cost_of, RECORD_HEADER_LEN. pose proof (len_nonneg m).
  pose proof (parts_of_nonneg m). lia.
Qed.

Lemma room_less s n p n' p' :
  s_room s n p true -> n' <= n -> p' <= p -> s_room s n' p' true.
Proof. unfold s_room. lia. Qed.

(** C14: conversations go through: on two ready sessions, whoever's turn it is, any sequence
    of non-empty messages within the caps (64 KiB for the broker's first, 16 MiB for its
    others, 64 MiB for the target's) and within the record and byte budgets is delivered,
    each message by the last of its frames, in order, once and unchanged, and the sessions
    are ready again. *)
Theorem conversation_delivers msgs k first turn b t
    (Hready : session_ready k first turn b t) (Hopen : first = true -> turn = true)
    (Hcaps : caps_ok first turn msgs) (Hk : total parts_of msgs <= k)
    (Hb : s_room b (total parts_of msgs) (total cost_of msgs) true)
    (Ht : s_room t (total parts_of msgs) (total cost_of msgs) true) :
  exists b' t', converse turn msgs (b, t) = (Ok (map delivery msgs), (b', t')) /\
    exists first' turn', session_ready (k - total parts_of msgs) first' turn' b' t'.
Proof.
  revert k first turn b t Hready Hopen Hcaps Hk Hb Ht.
  induction msgs as [|m msgs IH]; intros k first turn b t Hready Hopen Hcaps Hk Hb Ht.
  { exists b, t. split; [done|]. exists first, turn. cbn. by rewrite Z.sub_0_r. }
  cbn [total foldr] in *. fold (total parts_of msgs) (total cost_of msgs) in *.
  pose proof (total_nonneg parts_of msgs parts_of_nonneg).
  pose proof (total_nonneg cost_of msgs cost_of_nonneg).
  pose proof (parts_of_nonneg m). pose proof (cost_of_nonneg m).
  destruct Hcaps as [Hm Hcaps].
  assert (Hone : exists b' t',
    (if turn then says (broker_write m) t_read_application b t
     else let '(d, (t', b')) :=
            says (t_write_application_response m) b_read_application_response t b in
          (d, (b', t'))) = (Ok (delivery m), (b', t')) /\
    session_ready (k - parts_of m) false (negb turn) b' t' /\
    s_room b' (total parts_of msgs) (total cost_of msgs) true /\
    s_room t' (total parts_of msgs) (total cost_of msgs) true).
  { destruct turn.
    - destruct (broker_delivers k first b t m Hready Hm) as
        (fs & b' & t' & tr & Hw & Hr & Hready' & Hb1 & Hb2 & Ht1 & Ht2);
        [lia|eapply room_less; [exact Hb|lia|lia]|].
      exists b', t'. unfold says. rewrite Hw, Hr. split_and!; [done|done| |];
        unfold s_room in *; rewrite ?Hb1, ?Hb2, ?Ht1, ?Ht2; cbn in *; lia.
    - destruct first; [by specialize (Hopen eq_refl)|].
      destruct (target_delivers k b t m Hready Hm) as
        (fs & b' & t' & tr & Hw & Hr & Hready' & Ht1 & Ht2 & Hb1 & Hb2);
        [lia|eapply room_less; [exact Ht|lia|lia]|].
      exists b', t'. unfold says. rewrite Hw, Hr. split_and!; [done|done| |];
        unfold s_room in *; rewrite ?Hb1, ?Hb2, ?Ht1, ?Ht2; cbn in *; lia. }
  destruct Hone as (b1 & t1 & Hsays & Hready1 & Hb1 & Ht1).
  destruct (IH _ _ _ _ _ Hready1 ltac:(done) Hcaps ltac:(lia) Hb1 Ht1) as
    (b2 & t2 & Hconv & first' & turn' & Hready2).
  exists b2, t2. cbn [converse map]. split.
  - rewrite (mbind_M_step _ _ (b, t) _ (b1, t1) Hsays).
    by rewrite (mbind_M_step _ _ _ _ _ Hconv).
  - exists first', turn'. by replace (k - (parts_of m + total parts_of msgs))
      with (k - parts_of m - total parts_of msgs) by lia.
Qed.
End Conversation.

(** ** Closing *)

Section Closing.
Context `{Minicbor} `{!MinicborLaws} `{Snow} `{!SnowLaws}.
Implicit Types (a b s t : SessionCore).

(** A Close written by one core, read by the other's two readers. *)
Lemma close_record_delivers k a b r h :
  session_pair k a b -> 0 < k -> sent_finished b = true -> got_finished b = true ->
  exists d p f ta tb s1,
    close_payload r h = Ok d /\ complete_record Close d = Ok (mkRecord Close true true 7 0 d) /\
    Record_encode (mkRecord Close true true 7 0 d) = Ok p /\ len p = CLOSE_LEN /\
    s_send_booked p (s_sent_records a + 1, s_sent_plaintext a + len p) a
      = (Ok f, ss_sent 1 CLOSE_LEN ta a) /\
    s_core_read_close f b = (Ok (r, h), session_end (ss_received 1 CLOSE_LEN tb b)) /\
    core_read_application f b = (Err (Error_peer_close r h), s1).
Proof.
  intros Hpair Hk Hsf Hgf. destruct (close_payload_ok r h) as (d & Hd & Hlen).
  destruct (session_record_delivers k a b Close d false Hpair Hk ltac:(lia)) as
    (f & p & ta & tb & _ & Hdec & Hcr & Henc & Hrec & Hval & Hsend & _).
  { rewrite Hlen. apply (so_reserve _ (sp_left _ _ _ Hpair)). }
  rewrite Hlen in *. change (RECORD_HEADER_LEN + 7) with CLOSE_LEN in *.
  pose proof (parse_close_complete _ _ _ Hd) as Hp.
  exists d, p, f, ta, tb. eexists. split_and!; try done.
  - apply Record_encode_len in Henc. cbn [data] in Henc. unfold CLOSE_LEN. lia.
  - unfold s_core_read_close. m_run ltac:(by rewrite Hsf, Hgf).
    rewrite (mbind_M_step _ _ _ _ _ Hdec), (lift_bind _ _ _ _ Hrec).
    rewrite (lift_bind _ _ _ _ Hval). cbn [data]. by rewrite (lift_bind _ _ _ _ Hp).
  - unfold core_read_application. m_run ltac:(by rewrite Hsf, Hgf).
    rewrite (mbind_M_step _ _ _ _ _ Hdec), (lift_bind _ _ _ _ Hrec). cbn [kind data].
    rewrite bool_decide_eq_true_2 by done.
    by rewrite (lift_bind _ _ _ _ Hval), (lift_bind _ _ _ _ Hp).
Qed.

(** Either side can always close, whatever its budgets, and the other side learns why
    and the worse of the two hand-off states, the one of the closer and the one it names:
    from its close reader, or as the error of its next application read. *)
Theorem session_close_delivers k a b r h
    (Hpair : session_pair k a b) (Hk : 0 < k)
    (Hb : sent_finished b = true /\ got_finished b = true) :
  let h' := conservative_max (s_handoff a) h in
  exists f a', session_write_close r h a = (Ok f, a') /\ s_closed a' = true /\
    (exists b', session_read_close f b = (Ok (r, h'), b') /\ s_closed b' = true) /\
    (forall g, g = t_read_application \/ g = b_read_application_response ->
       fst (g f b) = Err (Error_peer_close r h') /\ s_closed (snd (g f b)) = true).
Proof.
  intros h'. destruct Hb as [Hsf Hgf].
  destruct (close_record_delivers k a b r h' Hpair Hk Hsf Hgf) as
    (d & p & f & ta & tb & s1 & Hd & Hcr & Henc & Hlen & Hsend & Hread & Happ).
  exists f. eexists. split_and!.
  - apply finish_ok. unfold s_core_write_close. rewrite get_bind. fold h'.
    rewrite (lift_bind _ _ _ _ Hd), (lift_bind _ _ _ _ Hcr), (lift_bind _ _ _ _ Henc).
    destruct (so_counts _ (sp_left _ _ _ Hpair)) as [Hc1 Hc2].
    destruct (send_usage_after_spec a 1 (len p) false Hc1 Hc2) as [[_ Hu]|[Hno _]];
      [lia|rewrite Hlen; unfold CLOSE_LEN; lia| |].
    + by rewrite (lift_bind _ _ _ _ Hu), (mbind_M_step _ _ _ _ _ Hsend), modify_bind.
    + destruct Hno. rewrite Hlen. apply (so_reserve _ (sp_left _ _ _ Hpair)).
  - done.
  - eexists. split; [by apply finish_ok|done].
  - intros g [-> | ->]; [unfold t_read_application|unfold b_read_application_response, finish];
      by rewrite Happ.
Qed.

(** The Close of a limit transition. *)
Lemma throw_limit_delivers {A} k a b :
  session_pair k a b -> 0 < k -> sent_finished b = true -> got_finished b = true ->
  exists f a' s1, @throw_own_limit _ _ A a = (Err (Error_record_limit (Some f)), a') /\
    core_read_application f b = (Err (Error_peer_close RecordLimit (s_handoff a)), s1).
Proof.
  intros Hpair Hk Hsf Hgf.
  destruct (close_record_delivers k a b RecordLimit (s_handoff a) Hpair Hk Hsf Hgf) as
    (d & p & f & ta & tb & s1 & Hd & Hcr & Henc & Hlen & Hsend & _ & Happ).
  exists f. do 2 eexists. split; [|exact Happ].
  unfold throw_own_limit, throw_record_limit, record_limit_error_with_handoff.
  rewrite get_bind.
  assert (Hc : limit_close_plaintext (s_handoff a) = Ok p)
    by (unfold limit_close_plaintext; rewrite Hd; cbn [res_bind]; rewrite Hcr; exact Henc).
  destruct (so_counts _ (sp_left _ _ _ Hpair)) as [Hc1 Hc2].
  destruct (send_usage_after_spec a 1 (len p) false Hc1 Hc2) as [[_ Hu]|[Hno _]];
    [lia|rewrite Hlen; unfold CLOSE_LEN; lia| |].
  2:{ destruct Hno. rewrite Hlen. apply (so_reserve _ (sp_left _ _ _ Hpair)). }
  assert (Hrun : record_limit_close (s_handoff a) a = (Ok f, ss_sent 1 CLOSE_LEN ta a)).
  { unfold record_limit_close. rewrite (lift_bind _ _ _ _ Hc), get_bind,
      (lift_bind _ _ _ _ Hu). cbn [res_of_option].
    rewrite (lift_bind (Ok _) _ _ _ eq_refl). exact Hsend. }
  by rewrite Hrun.
Qed.

(** Running out of budget is announced, never silent: on ready sessions, a message the
    target writes within its cap is delivered whole, or the write fails with the limit as
    its reason, closes the target, and carries a Close frame from which the broker's next
    read learns the limit and the target's hand-off state. *)
Theorem session_limit_is_announced k b t m
    (Hready : session_ready k false false b t)
    (Hm : 0 < len m <= response_bytes SessionLimits_default) (Hk : parts_of m <= k) :
  match t_write_application_response m t with
  | (Ok frames, _) => fst (read_frames b_read_application_response frames b) = Ok (delivery m)
  | (Err e, t') =>
      reason e = RecordLimit /\ s_closed t' = true /\
      exists f, close_frame e = Some f /\ fst (b_read_application_response f b)
                  = Err (Error_peer_close RecordLimit (s_handoff t))
  end.
Proof.
  pose proof (parts_of_pos m ltac:(lia)) as Hpos.
  destruct (decide (s_sent_records t + parts_of m + 1 < RECORD_LIMIT /\
    s_sent_plaintext t + cost_of m + CLOSE_LEN < BYTE_LIMIT)) as [Hroom|Hroom].
  { destruct (target_delivers k b t m Hready Hm Hk Hroom) as
      (fs & b' & t' & tr & -> & -> & _). done. }
  destruct Hready as [Hpair Hrb Hrt (Hbs & Hbg & Hts & Htg) [Hf1 Hf2] [Hp1 Hp2]].
  cbn [negb] in *. pose proof (sp_right _ _ _ Hpair) as Ht.
  destruct (throw_limit_delivers (A:=list bytes) k t b (session_pair_sym _ _ _ Hpair)
    ltac:(lia) Hbs Hbg) as (f & t' & s1 & Hthrow & Hread).
  enough (Hw : write_application m (response_bytes (s_limits t)) t
            = (Err (Error_record_limit (Some f)), t')).
  { unfold t_write_application_response, finish. rewrite get_bind, Hf2. cbn [negb].
    rewrite Hw. split_and!; [done|done|]. exists f. split; [done|].
    unfold b_read_application_response, finish. by rewrite Hread. }
  rewrite (so_limits _ Ht).
  cbn in Hm. assert (Hmax : 0 < len m <= U32_MAX) by (unfold U32_MAX; lia).
  destruct (fragment_records_ok Application m Hmax) as (parts & Hf & _).
  destruct (fragments_cost Application m parts ltac:(lia) Hf) as (Hn & Hp & _).
  unfold write_application. m_run ltac:(rewrite ?Hts, ?Htg, ?Hp2; cbn;
    first [lia | apply negb_true_iff, is_empty_false; lia]).
  rewrite (lift_bind _ _ _ _ Hf), message_bytes_spec, Hn, Hp.
  pose proof (cost_of_nonneg m). destruct (so_counts _ Ht) as [Hc1 Hc2].
  rewrite (proj2 (checked_add_some 0 (cost_of m) (cost_of m))).
  2:{ split; [done|]. unfold cost_of, RECORD_HEADER_LEN, parts_of, U64_MAX, U32_MAX in *.
      assert ((len m + 65506) / 65507 <= len m + 65506) by (apply Z.div_le_upper_bound; lia).
      lia. }
  destruct (send_usage_after_spec t (parts_of m) (cost_of m) true Hc1 Hc2)
    as [[Hr _]|[_ Hu]]; [lia|done|done|].
  by rewrite (lift_bind _ _ _ _ Hu).
Qed.
End Closing.

(** *** Concrete inputs *)

Definition ex_prologue : bytes :=
  bytes_of (session_prologue ex_session_binding SessionLimits_default).
Definition ex_fresh_target : SessionCore :=
  fresh_core (ex_hs_state NNPSK0_NAME ex_secret ex_prologue true) ex_session_binding
    (first_open_bytes SessionLimits_default) true.
Definition ex_fresh_broker : SessionCore :=
  fresh_core (ex_hs_state NNPSK0_NAME ex_secret ex_prologue false) ex_session_binding
    (response_bytes SessionLimits_default) false.

Lemma session_establishes_witness :
  exists m1 t1 m2 b1 t2 f t3 b2 g b3 t4,
    t_write_m1 ex_fresh_target = (Ok m1, t1) /\
    b_read_m1_write_m2 m1 ex_fresh_broker = (Ok m2, b1) /\
    t_read_m2 m2 t1 = (Ok tt, t2) /\
    t_write_finished t2 = (Ok f, t3) /\
    b_read_finished f b1 = (Ok tt, b2) /\
    b_write_finished b2 = (Ok g, b3) /\
    t_read_finished g t3 = (Ok tt, t4) /\
    session_ready (NONCES - 2) true true b3 t4 /\
    s_handoff b3 = NotHandedOff /\ s_handoff t4 = NotHandedOff.
Proof.
  apply (session_establishes ex_session_binding ex_secret [] []).
  - exact ex_session_binding_wf.
  - reflexivity.
  - reflexivity.
Defined.

Lemma ex_session_ready : session_ready 100 true true ex_broker_session ex_target_session.
Proof.
  split; try done. split; try (by apply ex_session_open); try done.
  - exists (RefTransport [] false 1 1 : @TransportState ref_snow),
      (RefTransport [] true 1 1 : @TransportState ref_snow). by repeat split.
  - by exists (repeat (b8 8) 32).
Qed.

Definition ex_messages : list bytes := [[b8 1]; repeat (b8 2) 300; [b8 3]; [b8 4; b8 5]].

Lemma conversation_delivers_witness :
  exists b' t', converse true ex_messages (ex_broker_session, ex_target_session)
      = (Ok (map delivery ex_messages), (b', t')) /\
    exists first' turn', session_ready (100 - total parts_of ex_messages) first' turn' b' t'.
Proof.
  apply (conversation_delivers ex_messages 100 true true); [exact ex_session_ready|done|..].
  - repeat split; vm_compute; congruence.
  - vm_compute. discriminate.
  - split; vm_compute; reflexivity.
  - split; vm_compute; reflexivity.
Defined.

Lemma session_close_delivers_witness :
  let h' := conservative_max NotHandedOff HandoffPossibleOrConfirmed in
  exists f a', session_write_close Stale HandoffPossibleOrConfirmed ex_broker_session
      = (Ok f, a') /\ s_closed a' = true /\
    (exists b', session_read_close f ex_target_session = (Ok (Stale, h'), b') /\
       s_closed b' = true) /\
    (forall g, g = t_read_application \/ g = b_read_application_response ->
       fst (g f ex_target_session) = Err (Error_peer_close Stale h') /\
       s_closed (snd (g f ex_target_session)) = true).
Proof.
  apply (session_close_delivers 100 ex_broker_session ex_target_session Stale
    HandoffPossibleOrConfirmed).
  - exact (sr_pair _ _ _ _ _ ex_session_ready).
  - lia.
  - done.
Defined.

(** After an open, whose answer the target writes. *)
Definition ex_opened (role : bool) : SessionCore :=
  let s := ex_session role 1 1
    (if role then request_bytes SessionLimits_default
     else response_bytes SessionLimits_default) (negb role) in
  upd_handoff HandoffPossibleOrConfirmed (set_first_application s).

Lemma ex_opened_ready : session_ready 100 false false (ex_opened false) (ex_opened true).
Proof.
  split; try done. split; try done.
  - exists (RefTransport [] false 1 1 : @TransportState ref_snow),
      (RefTransport [] true 1 1 : @TransportState ref_snow). by repeat split.
  - by exists (repeat (b8 8) 32).
Qed.

Lemma session_limit_is_announced_witness :
  match t_write_application_response [b8 6; b8 7] (ex_opened true) with
  | (Ok frames, _) =>
      fst (read_frames b_read_application_response frames (ex_opened false))
        = Ok (delivery [b8 6; b8 7])
  | (Err e, t') =>
      reason e = RecordLimit /\ s_closed t' = true /\
      exists f, close_frame e = Some f /\ fst (b_read_application_response f (ex_opened false))
                  = Err (Error_peer_close RecordLimit (s_handoff (ex_opened true)))
  end.
Proof.
  apply (session_limit_is_announced 100).
  - exact ex_opened_ready.
  - split; vm_compute; congruence.
  - vm_compute. discriminate.
Defined.
