(* ===== verification/Descriptor.v ===== *)
(** The launch descriptor a target is given and the process generation it draws
    ([crypto-core/src/target_transport.rs]: [parse_descriptor], [encode_descriptor],
    [generate_process_generation]). *)

From S2P Require Import Prelude Errors Crates CratesRef Cbor Records Payloads.

Inductive SupervisorError : Set := InvalidArgument | WrongPhase | Internal.

#[export] Instance SupervisorError_eq_dec : EqDecision SupervisorError.
Proof. solve_decision. Defined.

Definition DESCRIPTOR_MAX : Z := 8192.

(** [Ios(port)] and [Android(name)], the name as its UTF-8 bytes. *)
Inductive Endpoint : Type := Ios (port : Z) | Android (name : bytes).

#[export] Instance Endpoint_eq_dec : EqDecision Endpoint.
Proof. solve_decision. Defined.

Record ParsedDescriptor := {
  pd_binding : BootstrapBinding;
  broker_public_key : bytes;
  endpoint : Endpoint
}.

Definition invalid : SupervisorError := InvalidArgument.
Definition LOOPBACK : bytes := str "127.0.0.1".

(** A decoder of the descriptor; every decode error is [InvalidArgument]. *)
Definition DM := M Decoder SupervisorError.

Section Descriptor.
Context `{Minicbor}.

Definition expect_key (key : Z) : DM unit :=
  do k <- d_item invalid dec_u8; lift (ensure (k =? key) invalid).

(** [decoder.bytes()?.try_into()] for [[u8; N]]. *)
Definition fixed_bytes (n : Z) : DM bytes :=
  do b <- d_item invalid dec_bytes; lift (check len b =? n else invalid in Ok b).

Definition expect_map (n : Z) : DM unit :=
  do m <- d_item invalid dec_map; lift (ensure (bool_decide (m = Some n)) invalid).

Definition parse_endpoint (platform : Z) : DM Endpoint :=
  if platform =? 0 then
    run expect_map 2;
    run expect_key 0;
    do host <- d_item invalid dec_str;
    run d_ensure (bytes_eqb host LOOPBACK) invalid;
    run expect_key 1;
    do port <- d_item invalid dec_u16;
    run d_ensure ((49152 <=? port) && (port <=? 65535)) invalid;
    ret (Ios port)
  else if platform =? 1 then
    run expect_map 1;
    run expect_key 0;
    do name <- d_item invalid dec_str;
    run d_ensure (negb (negb ((32 <=? len name) && (len name <=? 96))
                        || existsb (fun b => u8 b =? 0) name)) invalid;
    ret (Android name)
  else throw invalid.

Definition platform_code (e : Endpoint) : Z := match e with Ios _ => 0 | Android _ => 1 end.

Definition encode_descriptor (p : ParsedDescriptor) : result SupervisorError bytes :=
  let b := pd_binding p in
  enc_chain Internal
    ([enc_map 9; enc_u8 0; enc_u8 1; enc_u8 1; enc_u8 (platform_code (endpoint p));
      enc_u8 2; enc_bytes (bb_lease_id b);
      enc_u8 3; enc_bytes (target_nonce b);
      enc_u8 4; enc_bytes (app_artifact_digest b);
      enc_u8 5; enc_bytes (broker_public_key p);
      enc_u8 6]
     ++ match endpoint p with
        | Ios port => [enc_map 2; enc_u8 0; enc_str LOOPBACK; enc_u8 1; enc_u16 port]
        | Android name => [enc_map 1; enc_u8 0; enc_str name]
        end
     ++ [enc_u8 7; enc_u64 (expiry_ms b);
         enc_u8 8; enc_bytes (target_reference_digest b)]).

(** The last comparison of [parse_descriptor], where an encode error is returned. *)
Definition expect_canonical (p : ParsedDescriptor) (b : bytes) : DM unit :=
  do e <- lift (encode_descriptor p); lift (ensure (bytes_eqb e b) invalid).

Definition parse_descriptor (b : bytes) : result SupervisorError ParsedDescriptor :=
  check negb (is_empty b || (DESCRIPTOR_MAX <? len b)) else invalid in
  decode_with (
    run expect_map 9;
    run expect_key 0;
    do version <- d_item invalid dec_u8;
    run d_ensure (version =? 1) invalid;
    run expect_key 1;
    do platform <- d_item invalid dec_u8;
    run d_ensure ((platform =? 0) || (platform =? 1)) invalid;
    run expect_key 2; do lease_id <- fixed_bytes 16;
    run expect_key 3; do nonce <- fixed_bytes 32;
    run expect_key 4; do artifact <- fixed_bytes 32;
    run expect_key 5; do key <- fixed_bytes 32;
    run expect_key 6; do e <- parse_endpoint platform;
    run expect_key 7; do expiry <- d_item invalid dec_u64;
    run d_ensure ((1 <=? expiry) && (expiry <=? JSON_SAFE_MAX)) invalid;
    run expect_key 8; do digest <- fixed_bytes 32;
    do position <- d_position;
    run d_ensure (position =? len b) invalid;
    let p := {| pd_binding :=
                  {| target_reference_digest := digest; bb_lease_id := lease_id;
                     target_nonce := nonce; app_artifact_digest := artifact;
                     expiry_ms := expiry |};
                broker_public_key := key; endpoint := e |} in
    run expect_canonical p b;
    ret p) b.
End Descriptor.

(** ** The process generation *)

(** [u64::from_le_bytes]. *)
Definition le_decode (b : bytes) : Z := be_decode (rev b).

Definition generation_zone : Z := U64_MAX - U64_MAX mod JSON_SAFE_MAX.

(** The rejection loop over the 8-byte draws of the resolver's generator, [None] for a draw
    that fails; it is still drawing when the draws given here are used up. *)
Fixpoint draw_generation (draws : list (option bytes)) : option (result SupervisorError Z) :=
  match draws with
  | [] => None
  | None :: _ => Some (Err Internal)
  | Some b :: draws =>
      let value := le_decode b in
      if value <? generation_zone then Some (Ok (value mod JSON_SAFE_MAX + 1))
      else draw_generation draws
  end.

(** [rng]: the draws of the generator the resolver gives, if it gives one. *)
Definition generate_process_generation (rng : option (list (option bytes)))
    : option (result SupervisorError Z) :=
  match rng with
  | None => Some (Err Internal)
  | Some draws => draw_generation draws
  end.

(** ** Well-formed descriptors *)

Definition endpoint_wf (e : Endpoint) : Prop :=
  match e with
  | Ios port => 49152 <= port <= 65535
  | Android name =>
      32 <= len name <= 96 /\ Forall (fun b => u8 b <> 0) name /\ valid_utf8 name = true
  end.

Record descriptor_wf (p : ParsedDescriptor) : Prop := {
  pd_binding_wf : BootstrapBinding_wf (pd_binding p);
  pd_expiry : 1 <= expiry_ms (pd_binding p) <= JSON_SAFE_MAX;
  pd_key : len (broker_public_key p) = 32;
  pd_endpoint : endpoint_wf (endpoint p)
}.

(** ** Descriptors are accepted exactly in their canonical encoding *)

Section Codec.
Context `{Minicbor} `{!MinicborLaws}.

Lemma reads_all_assoc {E A B C} (m : M Decoder E A) (k : A -> M Decoder E B)
    (f : B -> M Decoder E C) b x c :
  reads_all (mbind_M m (fun a => mbind_M (k a) f)) b x c ->
  reads_all (mbind_M (mbind_M m k) f) b x c.
Proof.
  intros Hm d Hd. destruct (Hm d Hd) as [d' Hs]. exists d'. rewrite <- Hs.
  unfold mbind_M. by destruct (m d) as [[a|e] d1].
Qed.

Lemma reads_all_ret_bind {E A B} (a : A) (k : A -> M Decoder E B) b x c :
  reads_all (k a) b x c -> reads_all (mbind_M (ret a) k) b x c.
Proof. done. Qed.

Lemma reads_expect_key k x : 0 <= k < 256 -> enc_u8 k = Some x -> reads (expect_key k) x tt.
Proof.
  intros Hk Hx. eapply reads_check; [exact (reads_item _ _ _ _ _ _ _ (u8_ok k Hk) Hx)|].
  unfold ensure. by rewrite Z.eqb_refl.
Qed.
Lemma reads_expect_map k x : 0 <= k <= U64_MAX -> enc_map k = Some x -> reads (expect_map k) x tt.
Proof.
  intros Hk Hx. eapply reads_check; [exact (reads_item _ _ _ _ _ _ _ (map_ok k Hk) Hx)|].
  by rewrite bool_decide_eq_true_2.
Qed.
Lemma reads_fixed n b x : len b = n -> n <= 64 -> enc_bytes b = Some x -> reads (fixed_bytes n) x b.
Proof.
  intros Hn Hmax Hx. assert (Hb : len b <= U64_MAX) by u64_solve.
  eapply reads_check; [exact (reads_item _ _ _ _ _ _ _ (bytes_ok b Hb) Hx)|].
  cbn. by rewrite (proj2 (Z.eqb_eq _ _) Hn).
Qed.
Lemma reads_platform k x :
  0 <= k < 256 -> enc_u8 k = Some x -> reads (d_item invalid dec_u8) x k.
Proof. intros Hk Hx. exact (reads_item _ _ _ _ _ _ _ (u8_ok k Hk) Hx). Qed.
Lemma reads_port k x :
  0 <= k < 65536 -> enc_u16 k = Some x -> reads (d_item invalid dec_u16) x k.
Proof. intros Hk Hx. exact (reads_item _ _ _ _ _ _ _ (u16_ok k Hk) Hx). Qed.
Lemma reads_expiry k x : is_u64 k -> enc_u64 k = Some x -> reads (d_item invalid dec_u64) x k.
Proof. intros Hk Hx. exact (reads_item _ _ _ _ _ _ _ (u64_ok k Hk) Hx). Qed.
Lemma reads_name b x :
  valid_utf8 b = true -> len b <= 96 -> enc_str b = Some x -> reads (d_item invalid dec_str) x b.
Proof.
  intros Hu Hl Hx. assert (Hb : len b <= U64_MAX) by u64_solve.
  exact (reads_item _ _ _ _ _ _ _ (str_ok b Hu Hb) Hx).
Qed.

Ltac read_descriptor :=
  repeat first
  [ eapply reads_all_bind;
    [first [ eapply reads_expect_key; [|eassumption] | eapply reads_expect_map; [|eassumption]
           | eapply reads_fixed; [| |eassumption] | eapply reads_platform; [|eassumption]
           | eapply reads_expiry; [|eassumption] | eapply reads_port; [|eassumption]
           | eapply reads_name; [| |eassumption] ]|]
  | apply reads_all_ret_bind | apply reads_all_ret | apply reads_all_ensure
  | progress (unfold parse_endpoint; cbn [platform_code Z.eqb Pos.eqb])
  | apply reads_all_assoc ].

(** The end of the parser: the position and the comparison. *)
Lemma descriptor_end {B} p b (k : unit -> DM B) c :
  encode_descriptor p = Ok b -> reads_all (k tt) b [] c ->
  reads_all (do position <- d_position; run d_ensure (position =? len b) invalid;
             run expect_canonical p b; k tt) b [] c.
Proof.
  intros He Hk d Hd. unfold mbind_M, d_position, d_ensure, expect_canonical, lift, ensure.
  rewrite (at_rest_pos _ _ _ Hd), len_nil, Z.sub_0_r, Z.eqb_refl, He. cbn.
  rewrite bytes_eqb_refl. by apply Hk.
Qed.

Lemma name_ok name :
  endpoint_wf (Android name) ->
  negb (negb ((32 <=? len name) && (len name <=? 96)) || existsb (fun b => u8 b =? 0) name)
    = true.
Proof.
  intros ([Hl1 Hl2] & Hz & _). apply negb_true_iff, orb_false_iff. split.
  - apply negb_false_iff, andb_true_iff. lia.
  - apply not_true_iff_false. rewrite existsb_exists. intros (x & Hx & H0').
    rewrite Forall_forall in Hz. apply (Hz x); [by apply list_elem_of_In|lia].
Qed.

Lemma parse_encoded p b :
  descriptor_wf p -> encode_descriptor p = Ok b -> 0 < len b <= DESCRIPTOR_MAX ->
  parse_descriptor b = Ok p.
Proof.
  intros [[] ? ? He] Hp Hlen. unfold parse_descriptor.
  assert (Hne : is_empty b = false) by (apply is_empty_false; lia).
  rewrite Hne. unfold ensure. decide_cmp. cbn [orb negb res_bind].
  pose proof Hp as Hc. unfold encode_descriptor in Hc.
  destruct p as [[digest lease nonce artifact expiry] key e]. cbn in *.
  destruct e as [port|name]; cbn [app] in Hc; chain_items Hc; (eapply decode_with_reads;
    [eassumption|]); read_descriptor; try (u64_solve || done);
    try (apply (descriptor_end _ _ (fun _ => _)); [exact Hp|]; apply reads_all_ret).
  all: try (cbn in He; lia); try apply He. by apply name_ok.
Qed.

(** The encoding of a well-formed descriptor exists and fits. *)
Lemma encode_descriptor_len p :
  descriptor_wf p -> exists b, encode_descriptor p = Ok b /\ 0 < len b <= DESCRIPTOR_MAX.
Proof.
  intros [[] ? ? He].
  enough (exists bs out, encode_descriptor p = Ok out /\ 0 < len out <= foldr Z.add 0 bs /\
    foldr Z.add 0 bs <= DESCRIPTOR_MAX) as (bs & out & ? & ? & ?) by (exists out; split; [done|lia]).
  assert (Hstr : forall n, valid_utf8 n = true -> len n <= 96 -> within 105 (enc_str n)).
  { intros n Hu Hn. destruct (item_ok_within _ _ _ _ _ (str_ok n Hu ltac:(u64_solve)))
      as (x & ? & ?). exists x. split; [done|lia]. }
  assert (Hu16 : forall n, 0 <= n < 65536 -> within 3 (enc_u16 n))
    by (intros n Hn; exact (item_ok_within _ _ _ _ _ (u16_ok n Hn))).
  assert (Hcode : 0 <= platform_code (endpoint p) < 256) by (destruct (endpoint p); cbn; lia).
  assert (Hwithin : forall items bs, Forall2 within bs items -> items <> [] ->
    foldr Z.add 0 bs <= DESCRIPTOR_MAX -> exists bs out, enc_chain Internal items = Ok out /\
    0 < len out <= foldr Z.add 0 bs /\ foldr Z.add 0 bs <= DESCRIPTOR_MAX).
  { intros items bs Hi Hne Hb. destruct (enc_chain_within Internal _ _ Hi) as (out & Ho & Hl).
    exists bs, out. split_and!; [done| |lia|lia]. destruct items; [done|].
    rewrite len_cons in Hl. pose proof (len_nonneg items). lia. }
  unfold encode_descriptor. destruct (endpoint p) as [port|name]; cbn [app endpoint_wf] in *;
    (eapply Hwithin;
     [ repeat (apply List.Forall2_cons || apply List.Forall2_nil);
       first [ apply within_u8; lia | apply within_map; u64_solve | apply within_u64; u64_solve
             | eapply within_bytes; [eassumption|lia] | apply Hu16; lia
             | apply Hstr; [reflexivity|by vm_compute] | apply Hstr; [apply He|lia] ]
     | done | by vm_compute ]).
Qed.

Lemma d_item_str d b d' :
  d_item invalid dec_str d = (Ok b, d') -> valid_utf8 b = true.
Proof.
  unfold d_item. destruct (dec_str _) as [[x n]|] eqn:Hd; [|done].
  intros [= <- _]. by eapply dec_str_utf8.
Qed.

Lemma parse_endpoint_ok platform d e d' :
  parse_endpoint platform d = (Ok e, d') -> platform = platform_code e /\ endpoint_wf e.
Proof.
  unfold parse_endpoint, d_ensure. destruct (Z.eqb_spec platform 0) as [->|_];
    [|destruct (Z.eqb_spec platform 1) as [->|_]; [|done]]; intros Hp; m_inv Hp; bool_split.
  - split; [done|]. cbn. lia.
  - split; [done|]. cbn. split_and!; [lia|lia| |by eapply d_item_str].
    rewrite Forall_forall. intros x Hx Hz.
    match goal with Hf : existsb _ _ = false |- _ =>
      apply not_true_iff_false in Hf; apply Hf end.
    apply existsb_exists. exists x. split; [by apply list_elem_of_In|lia].
Qed.

Lemma fixed_bytes_ok n d b d' : fixed_bytes n d = (Ok b, d') -> len b = n.
Proof.
  unfold fixed_bytes. intros Hf. m_inv Hf. unfold lift in Hf. injection Hf as Hf _.
  res_inv Hf. bool_split. by simplify_eq.
Qed.

Lemma expect_canonical_ok p b d u d' :
  expect_canonical p b d = (Ok u, d') -> encode_descriptor p = Ok b.
Proof.
  unfold expect_canonical. intros Hc. m_inv Hc. unfold lift in Hc. injection Hc as Hc _.
  apply ensure_ok, bytes_eqb_eq in Hc. by subst.
Qed.

Lemma parse_canonical b p :
  parse_descriptor b = Ok p -> encode_descriptor p = Ok b /\ descriptor_wf p.
Proof.
  unfold parse_descriptor. intros Hp. res_inv Hp. apply decode_with_ok in Hp as [d Hp].
  unfold d_ensure in Hp. m_inv Hp.
  repeat match goal with
  | Hf : fixed_bytes _ _ = _ |- _ => apply fixed_bytes_ok in Hf
  | He : parse_endpoint _ _ = _ |- _ => apply parse_endpoint_ok in He as [-> ?]
  | Hc : expect_canonical _ _ _ = _ |- _ => apply expect_canonical_ok in Hc
  end.
  bool_split. split; [done|].
  split; cbn; try done; try lia. split; cbn; try done. u64_solve.
Qed.

(** C35: a launch descriptor is accepted exactly when it is the canonical encoding of a
    well-formed one: version 1, keys 0 to 8 in order, digests and keys of their lengths, an
    expiry in 1..2{^53}-1, and an endpoint of its platform, a loopback port in 49152..65535
    or an Android socket name of 32 to 96 UTF-8 bytes without NUL; nothing else parses, and
    every well-formed descriptor has such an encoding. *)
Theorem descriptor_exact p :
  (forall b, parse_descriptor b = Ok p <-> encode_descriptor p = Ok b /\ descriptor_wf p) /\
  (descriptor_wf p -> exists b, parse_descriptor b = Ok p).
Proof.
  assert (Hback : forall b, encode_descriptor p = Ok b -> descriptor_wf p ->
    parse_descriptor b = Ok p).
  { intros b He Hwf. destruct (encode_descriptor_len p Hwf) as (b' & He' & Hl).
    assert (b' = b) as -> by congruence. by apply parse_encoded. }
  split; [split; [apply parse_canonical|intros []; by apply Hback]|].
  intros Hwf. destruct (encode_descriptor_len p Hwf) as (b & He & _). eauto.
Qed.
End Codec.

(** ** Generations are uniform *)

Lemma generation_zone_eq : generation_zone = 2048 * JSON_SAFE_MAX.
Proof. reflexivity. Qed.

(** The draws of which the loop keeps the first that lies in the zone. *)
Definition rejected (d : option bytes) : Prop :=
  exists b, d = Some b /\ generation_zone <= le_decode b.

Lemma draw_rejected pre draws :
  Forall rejected pre -> draw_generation (pre ++ draws) = draw_generation draws.
Proof.
  induction 1 as [|d pre (b & -> & Hz) _ IH]; [done|]. cbn [app draw_generation]. cbv zeta.
  destruct (Z.ltb_spec (le_decode b) generation_zone); [lia|done].
Qed.

Lemma draw_generation_ok draws g :
  draw_generation draws = Some (Ok g) <->
  exists pre b rest, draws = pre ++ Some b :: rest /\ Forall rejected pre /\
    le_decode b < generation_zone /\ g = le_decode b mod JSON_SAFE_MAX + 1.
Proof.
  split.
  - induction draws as [|[b|] draws IH]; [done| |done]. cbn [draw_generation]. cbv zeta.
    destruct (Z.ltb_spec (le_decode b) generation_zone) as [Hlt|Hge].
    + intros [= <-]. by exists [], b, draws.
    + intros Hd. destruct (IH Hd) as (pre & b' & rest & -> & Hpre & ? & ?).
      exists (Some b :: pre), b', rest. split_and!; try done. constructor; [by exists b|done].
  - intros (pre & b & rest & -> & Hpre & Hlt & ->). rewrite draw_rejected by done.
    cbn [draw_generation]. cbv zeta. by destruct (Z.ltb_spec (le_decode b) generation_zone); [|lia].
Qed.

(** A process generation is drawn without bias: the loop stops at the first draw below
    the zone, whatever the draws before it, and answers a generation in 1..2{^53}-1; and
    every generation is the answer for exactly 2048 of the 64-bit draws, those of one residue
    class, so no generation is likelier than another. *)
Theorem generation_uniform draws g :
  (draw_generation draws = Some (Ok g) -> 1 <= g <= JSON_SAFE_MAX) /\
  (forall pre b rest, draws = pre ++ Some b :: rest -> Forall rejected pre ->
     le_decode b < generation_zone -> exists g', draw_generation draws = Some (Ok g')) /\
  (1 <= g <= JSON_SAFE_MAX -> forall v, 0 <= v ->
     (v < generation_zone /\ v mod JSON_SAFE_MAX + 1 = g <->
      exists k, 0 <= k < 2048 /\ v = (g - 1) + JSON_SAFE_MAX * k)).
Proof.
  assert (Hm : 0 < JSON_SAFE_MAX) by done. split_and!.
  - intros (pre & b & rest & -> & _ & _ & ->)%draw_generation_ok.
    pose proof (Z.mod_pos_bound (le_decode b) JSON_SAFE_MAX Hm). lia.
  - intros pre b rest -> Hpre Hlt. eexists. apply draw_generation_ok.
    exists pre, b, rest. by split_and!.
  - intros Hg v Hv. rewrite generation_zone_eq.
    pose proof (Z.div_mod v JSON_SAFE_MAX ltac:(lia)) as Hdm.
    pose proof (Z.mod_pos_bound v JSON_SAFE_MAX Hm) as Hb. split.
    + intros [Hlt Hr]. exists (v / JSON_SAFE_MAX). split; [|lia]. split.
      * apply Z.div_pos; lia.
      * apply Z.div_lt_upper_bound; lia.
    + intros (k & Hk & ->). split; [nia|].
      rewrite Z.mul_comm, Z_mod_plus_full, Z.mod_small; lia.
Qed.

(** ** Concrete inputs *)

Definition ex_parsed : ParsedDescriptor :=
  {| pd_binding := ex_bootstrap_binding; broker_public_key := repeat (b8 6) 32;
     endpoint := Ios 50000 |}.
Definition ex_descriptor : bytes :=
  match encode_descriptor ex_parsed with Ok b => b | Err _ => [] end.

Lemma descriptor_exact_witness :
  parse_descriptor ex_descriptor = Ok ex_parsed /\ exists b, parse_descriptor b = Ok ex_parsed.
Proof.
  assert (Hwf : descriptor_wf ex_parsed).
  { split; [exact ex_bootstrap_binding_wf|cbn; unfold JSON_SAFE_MAX; lia|reflexivity|cbn; lia]. }
  destruct (descriptor_exact ex_parsed) as [Hiff Hex]. split; [|apply (Hex Hwf)].
  apply Hiff. split; [vm_compute; reflexivity|exact Hwf].
Defined.

Lemma generation_uniform_witness :
  let g := le_decode (repeat (b8 1) 8) mod JSON_SAFE_MAX + 1 in
  1 <= g <= JSON_SAFE_MAX /\
  (exists k, 0 <= k < 2048 /\ le_decode (repeat (b8 1) 8) = (g - 1) + JSON_SAFE_MAX * k) /\
  exists g', draw_generation [Some (repeat (b8 255) 8); Some (repeat (b8 1) 8)] = Some (Ok g').
Proof.
  intros g.
  destruct (generation_uniform [Some (repeat (b8 255) 8); Some (repeat (b8 1) 8)] g)
    as (Hrange & Htotal & Huni).
  assert (Hg : 1 <= g <= JSON_SAFE_MAX) by (apply Hrange; vm_compute; reflexivity).
  split; [exact Hg|]. split.
  - apply (Huni Hg); [vm_compute; discriminate|]. split; [vm_compute; reflexivity|reflexivity].
  - apply (Htotal [Some (repeat (b8 255) 8)] (repeat (b8 1) 8) []); [reflexivity| |].
    + repeat constructor. exists (repeat (b8 255) 8). split; [reflexivity|vm_compute; discriminate].
    + vm_compute. reflexivity.
Defined.
