(* ===== verification/Supervisor.v ===== *)
(** The target's transport supervisor ([TargetTransport] of
    [crypto-core/src/target_transport.rs]): one event in, one outcome out, over the
    bootstrap, the lease connection and the sessions of the target, with their write tokens
    and timers. *)

From stdpp Require Import gmap.
From S2P Require Import Prelude Errors Crates Cbor Outer Records Payloads Reassembly NoiseIO Lease Bootstrap Session Descriptor.

(** ** Events and outcomes *)

Definition BOOTSTRAP_DEADLINE_MS : Z := 10000.
Definition SESSION_HANDSHAKE_DEADLINE_MS : Z := 1000.
Definition SESSION_OPEN_RESPONSE_DEADLINE_MS : Z := 2000.
Definition FRAME_DEADLINE_MS : Z := 2000.
Definition SESSION_IDLE_DEADLINE_MS : Z := 30000.
Definition LEASE_TICK_MS : Z := 30000.

Inductive EventTag : Set :=
| BootstrapConnected | StreamBytes | FullWriteCommitted | SessionAccepted | RuntimeResponse
| StreamEof | StreamIoFailed | StreamCloseNormal | TimerFired | EvEligibilityLost
| EvCleanupFailed | EvInternalError.

Record Event := mkEvent {
  tag : EventTag;
  ev_flags : Z;
  ev_stream : Z;
  ev_token : Z;
  ev_bytes : bytes
}.

Inductive OutcomeKind : Set :=
| EndpointReady | WriteFrames | OutApplication | LeaseReady | NeedInput | SessionTerminal
| LeaseTerminal | Closed.

#[export] Instance OutcomeKind_eq_dec : EqDecision OutcomeKind.
Proof. solve_decision. Defined.

Record Outcome := mkOutcome {
  o_kind : OutcomeKind;
  o_flags : Z;
  o_stream : Z;
  o_token : Z;
  o_bytes : option bytes;
  value0 : Z;
  value1 : Z;
  next_deadline_ms : Z;
  o_reason : CloseReason;
  o_handoff : HandoffState;
  o_peer : option (CloseReason * HandoffState)
}.

Definition Outcome_new (k : OutcomeKind) : Outcome :=
  mkOutcome k 0 0 0 None 0 0 0 Normal NotHandedOff None.

Definition o_with_stream (s : Z) (o : Outcome) : Outcome :=
  mkOutcome (o_kind o) (o_flags o) s (o_token o) (o_bytes o) (value0 o) (value1 o)
    (next_deadline_ms o) (o_reason o) (o_handoff o) (o_peer o).
Definition o_with_values (v0 v1 : Z) (o : Outcome) : Outcome :=
  mkOutcome (o_kind o) (o_flags o) (o_stream o) (o_token o) (o_bytes o) v0 v1
    (next_deadline_ms o) (o_reason o) (o_handoff o) (o_peer o).
Definition o_with_bytes (b : option bytes) (o : Outcome) : Outcome :=
  mkOutcome (o_kind o) (o_flags o) (o_stream o) (o_token o) b (value0 o) (value1 o)
    (next_deadline_ms o) (o_reason o) (o_handoff o) (o_peer o).
Definition o_with_token (t : Z) (o : Outcome) : Outcome :=
  mkOutcome (o_kind o) (o_flags o) (o_stream o) t (o_bytes o) (value0 o) (value1 o)
    (next_deadline_ms o) (o_reason o) (o_handoff o) (o_peer o).
Definition o_with_close (r : CloseReason) (h : HandoffState)
    (p : option (CloseReason * HandoffState)) (o : Outcome) : Outcome :=
  mkOutcome (o_kind o) (o_flags o) (o_stream o) (o_token o) (o_bytes o) (value0 o) (value1 o)
    (next_deadline_ms o) r h p.
Definition o_or_flags (f : Z) (o : Outcome) : Outcome :=
  mkOutcome (o_kind o) (Z.lor (o_flags o) f) (o_stream o) (o_token o) (o_bytes o) (value0 o)
    (value1 o) (next_deadline_ms o) (o_reason o) (o_handoff o) (o_peer o).

(** A timer goes to the token field of an outcome without a write, and to [value0] of one
    with a write. *)
Definition o_deadline (timer milliseconds : Z) (o : Outcome) : Outcome :=
  if o_token o =? 0 then
    mkOutcome (o_kind o) (Z.lor (o_flags o) (Z.shiftl 1 2)) (o_stream o) timer (o_bytes o)
      (value0 o) (value1 o) milliseconds (o_reason o) (o_handoff o) (o_peer o)
  else
    mkOutcome (o_kind o) (Z.lor (o_flags o) (Z.shiftl 1 1)) (o_stream o) (o_token o)
      (o_bytes o) timer (value1 o) milliseconds (o_reason o) (o_handoff o) (o_peer o).

Definition o_write (stream token : Z) (b : bytes) : Outcome :=
  o_with_bytes (Some b) (o_with_token token (o_with_stream stream (Outcome_new WriteFrames))).

Definition o_application (stream : Z) (b : bytes) : Outcome :=
  o_with_bytes (Some b) (o_with_close Normal HandoffPossibleOrConfirmed None
    (o_with_stream stream (Outcome_new OutApplication))).

Definition o_terminal (k : OutcomeKind) (stream : Z) (r : CloseReason) (h : HandoffState)
    (p : option (CloseReason * HandoffState)) : Outcome :=
  o_with_close r h p (o_with_stream stream (Outcome_new k)).

Definition o_need_input (stream : Z) : Outcome :=
  o_with_stream stream (Outcome_new NeedInput).

(** [match frame_deadline { Some(timer) => outcome.deadline(timer, ..), None => outcome }]. *)
Definition o_frame_deadline (timer : option Z) (o : Outcome) : Outcome :=
  match timer with Some t => o_deadline t FRAME_DEADLINE_MS o | None => o end.

(** [concat_frames]. *)
Definition concat_frames (frames : list bytes) : bytes := concat frames.

(** ** Tokens and timers *)

Inductive TimerAction : Set :=
| TBootstrap | TBootstrapFrame | TLeaseTick | TLeaseFrame
| TSessionPhase (stream : Z) | TSessionIdle (stream : Z) | TSessionFrame (stream : Z).

#[export] Instance TimerAction_eq_dec : EqDecision TimerAction.
Proof. solve_decision. Defined.

(** [next_token] and [timers] of the transport, which the helpers borrow together. *)
Record Tokens := mkTokens { next_token : Z; timers : gmap Z TimerAction }.

Definition KM := M Tokens SupervisorError.

Definition cancel_timer (t : Z) (k : Tokens) : Tokens :=
  mkTokens (next_token k) (delete t (timers k)).

Definition cancel_slot (slot : option Z) (k : Tokens) : Tokens :=
  match slot with Some t => cancel_timer t k | None => k end.

Definition allocate_token : KM Z := fun k =>
  match checked_add (next_token k) 1 with
  | None => (Err Internal, k)
  | Some next =>
      (if next_token k =? 0 then Err Internal else Ok (next_token k),
       mkTokens next (timers k))
  end.

Definition schedule_timer (action : TimerAction) : KM Z :=
  do token <- allocate_token;
  run modify (fun k => mkTokens (next_token k) (<[token := action]> (timers k)));
  ret token.

(** The slot afterwards, and the timer to announce. *)
Definition update_frame_timer (incomplete : bool) (slot : option Z) (action : TimerAction)
    : KM (option Z * option Z) :=
  if incomplete then
    match slot with
    | None => do timer <- schedule_timer action; ret (Some timer, Some timer)
    | Some _ => ret (slot, None)
    end
  else run modify (cancel_slot slot); ret (None, None).

(** ** The state *)

Record Terminal := mkTerminal {
  t_reason : CloseReason;
  t_handoff : HandoffState;
  t_peer : option (CloseReason * HandoffState)
}.

Definition Terminal_internal : Terminal := mkTerminal InternalError NotHandedOff None.

Section State.
Context `{Snow}.

Inductive ChildPhase : Type :=
| M1Pending (session : SessionCore) (write_token : Z)
| AwaitM2 (session : SessionCore)
| FinishedPending (session : SessionCore) (write_token : Z)
| AwaitFinished (session : SessionCore)
| AwaitApplication (session : SessionCore)
| AwaitRuntime (session : SessionCore)
| ResponsePending (session : SessionCore) (write_token : Z)
| TerminalPending (write_token : Z) (terminal : Terminal)
| ChildTerminal.

Record Child := mkChild {
  c_phase : ChildPhase;
  c_decoder : OuterFrameDecoder;
  phase_timer : option Z;
  frame_timer : option Z;
  applications : Z
}.

Definition c_with_phase (p : ChildPhase) (c : Child) : Child :=
  mkChild p (c_decoder c) (phase_timer c) (frame_timer c) (applications c).
Definition c_with_decoder (d : OuterFrameDecoder) (c : Child) : Child :=
  mkChild (c_phase c) d (phase_timer c) (frame_timer c) (applications c).
Definition c_with_phase_timer (t : option Z) (c : Child) : Child :=
  mkChild (c_phase c) (c_decoder c) t (frame_timer c) (applications c).
Definition c_with_frame_timer (t : option Z) (c : Child) : Child :=
  mkChild (c_phase c) (c_decoder c) (phase_timer c) t (applications c).
Definition c_with_applications (n : Z) (c : Child) : Child :=
  mkChild (c_phase c) (c_decoder c) (phase_timer c) (frame_timer c) n.

Record Eligible := mkEligible {
  lease_stream : Z;
  lease : LeaseCore;
  e_pbs : bytes;
  e_binding : SessionBinding;
  lease_decoder : OuterFrameDecoder;
  lease_write : option (Z * Z);
  lease_frame_timer : option Z;
  lease_tick_timer : option Z;
  lease_ticks : Z;
  missed_ticks : Z;
  children : gmap Z Child
}.

Definition e_with_lease (l : LeaseCore) (e : Eligible) : Eligible :=
  mkEligible (lease_stream e) l (e_pbs e) (e_binding e) (lease_decoder e) (lease_write e)
    (lease_frame_timer e) (lease_tick_timer e) (lease_ticks e) (missed_ticks e) (children e).
Definition e_with_binding (b : SessionBinding) (e : Eligible) : Eligible :=
  mkEligible (lease_stream e) (lease e) (e_pbs e) b (lease_decoder e) (lease_write e)
    (lease_frame_timer e) (lease_tick_timer e) (lease_ticks e) (missed_ticks e) (children e).
Definition e_with_decoder (d : OuterFrameDecoder) (e : Eligible) : Eligible :=
  mkEligible (lease_stream e) (lease e) (e_pbs e) (e_binding e) d (lease_write e)
    (lease_frame_timer e) (lease_tick_timer e) (lease_ticks e) (missed_ticks e) (children e).
Definition e_with_write (w : option (Z * Z)) (e : Eligible) : Eligible :=
  mkEligible (lease_stream e) (lease e) (e_pbs e) (e_binding e) (lease_decoder e) w
    (lease_frame_timer e) (lease_tick_timer e) (lease_ticks e) (missed_ticks e) (children e).
Definition e_with_frame_timer (t : option Z) (e : Eligible) : Eligible :=
  mkEligible (lease_stream e) (lease e) (e_pbs e) (e_binding e) (lease_decoder e)
    (lease_write e) t (lease_tick_timer e) (lease_ticks e) (missed_ticks e) (children e).
Definition e_with_ticks (timer : option Z) (ticks missed : Z) (e : Eligible) : Eligible :=
  mkEligible (lease_stream e) (lease e) (e_pbs e) (e_binding e) (lease_decoder e)
    (lease_write e) (lease_frame_timer e) timer ticks missed (children e).
Definition e_with_children (cs : gmap Z Child) (e : Eligible) : Eligible :=
  mkEligible (lease_stream e) (lease e) (e_pbs e) (e_binding e) (lease_decoder e)
    (lease_write e) (lease_frame_timer e) (lease_tick_timer e) (lease_ticks e)
    (missed_ticks e) cs.

Inductive Phase : Type :=
| AwaitBootstrap (binding : BootstrapBinding) (broker_public_key : bytes)
| BootstrapM1Pending (stream : Z) (bootstrap : TargetBootstrap) (write_token : Z)
    (decoder : OuterFrameDecoder) (frame_timer : option Z)
| BootstrapM2 (stream : Z) (bootstrap : TargetBootstrap) (decoder : OuterFrameDecoder)
    (frame_timer : option Z)
| BootstrapAckPending (stream : Z) (lease : LeaseCore) (pbs : bytes)
    (session_binding : SessionBinding) (write_token : Z) (decoder : OuterFrameDecoder)
    (frame_timer : option Z)
| PhEligible (e : Eligible)
| PhTerminal (t : Terminal).

Record TargetTransport := mkTransport {
  phase : Phase;
  generation : Z;
  tokens : Tokens
}.

Definition tt_with_phase (p : Phase) (s : TargetTransport) : TargetTransport :=
  mkTransport p (generation s) (tokens s).
Definition tt_with_tokens (k : Tokens) (s : TargetTransport) : TargetTransport :=
  mkTransport (phase s) (generation s) k.

Definition TM := M TargetTransport SupervisorError.

(** A helper that borrows [next_token] and [timers]. *)
Definition on_tokens {A} (m : KM A) : TM A := fun s =>
  let '(r, k) := m (tokens s) in (r, tt_with_tokens k s).

Definition set_phase (p : Phase) : TM unit := modify (tt_with_phase p).

(** [let Phase::Eligible(eligible) = &mut self.phase else { return Err(WrongPhase) }]. *)
Definition get_eligible : TM Eligible := fun s =>
  match phase s with PhEligible e => (Ok e, s) | _ => (Err WrongPhase, s) end.

Definition set_eligible (e : Eligible) : TM unit := set_phase (PhEligible e).

(** [eligible.children.get_mut(&stream).ok_or(WrongPhase)?]. *)
Definition get_child (stream : Z) : TM Child :=
  do e <- get_eligible;
  lift (res_of_option WrongPhase (children e !! stream)).

Definition e_put_child (stream : Z) (c : Child) (e : Eligible) : Eligible :=
  e_with_children (<[stream := c]> (children e)) e.

(** Writing through the borrow of a child. *)
Definition put_child (stream : Z) (c : Child) : TM unit := fun s =>
  match phase s with
  | PhEligible e => (Ok tt, tt_with_phase (PhEligible (e_put_child stream c e)) s)
  | _ => (Ok tt, s)
  end.

(** A total handler, as [Ok(self.handler(..))]. *)
Definition answer (f : TargetTransport -> Outcome * TargetTransport) : TM Outcome := fun s =>
  let '(o, s') := f s in (Ok o, s').
End State.

(** ** Ending a session and ending the lease *)

Section Terminals.
Context `{Snow}.

Definition child_handed_off (c : Child) : bool := 0 <? applications c.

Definition child_terminal (stream : Z) (r : CloseReason)
    (peer : option (CloseReason * HandoffState)) (s : TargetTransport)
    : Outcome * TargetTransport :=
  match phase s with
  | PhEligible e =>
      match children e !! stream with
      | Some c =>
          (o_terminal SessionTerminal stream r
             (if child_handed_off c then HandoffPossibleOrConfirmed else NotHandedOff) peer,
           tt_with_tokens (cancel_slot (frame_timer c) (cancel_slot (phase_timer c) (tokens s)))
             (tt_with_phase (PhEligible (e_with_children (delete stream (children e)) e)) s))
      | None => (o_terminal SessionTerminal stream r NotHandedOff peer, s)
      end
  | _ => (o_terminal SessionTerminal stream r NotHandedOff peer, s)
  end.

Definition lease_handoff (p : Phase) : HandoffState :=
  match p with
  | PhEligible e =>
      if existsb (fun kc => child_handed_off (snd kc)) (map_to_list (children e))
      then HandoffPossibleOrConfirmed else NotHandedOff
  | PhTerminal t => t_handoff t
  | _ => NotHandedOff
  end.

Definition lease_terminal (r : CloseReason) (peer : option (CloseReason * HandoffState))
    (s : TargetTransport) : Outcome * TargetTransport :=
  let h := lease_handoff (phase s) in
  (o_terminal LeaseTerminal 0 r h peer,
   mkTransport (PhTerminal (mkTerminal r h peer)) (generation s)
     (mkTokens (next_token (tokens s)) ∅)).

Definition core_lease_error (e : Error) : TargetTransport -> Outcome * TargetTransport :=
  lease_terminal (reason e) (peer_close e).

Definition child_core_error (stream : Z) (error : Error) (s : TargetTransport)
    : Outcome * TargetTransport :=
  let peer := peer_close error in
  let r := reason error in
  match fst (take_close_frame error) with
  | None => child_terminal stream r peer s
  | Some frame =>
      let h := match phase s with
               | PhEligible e =>
                   match children e !! stream with
                   | Some c => if child_handed_off c then HandoffPossibleOrConfirmed
                               else NotHandedOff
                   | None => NotHandedOff
                   end
               | _ => NotHandedOff
               end in
      match on_tokens allocate_token s with
      | (Err _, s) => child_terminal stream InternalError None s
      | (Ok token, s) =>
          match phase s with
          | PhEligible e =>
              match children e !! stream with
              | Some c =>
                  let p := TerminalPending token (mkTerminal r h peer) in
                  (o_with_close r h peer
                     (o_or_flags (Z.shiftl 1 3) (o_write stream token frame)),
                   tt_with_phase (PhEligible (e_put_child stream (c_with_phase p c) e)) s)
              | None => child_terminal stream r peer s
              end
          | _ => child_terminal stream r peer s
          end
      end
  end.

(** [match r { Ok(value) => value, Err(error) => return Ok(self.core_lease_error(error)) }],
    and the same with [child_core_error]. *)
Definition or_lease {A} (r : Res A) (k : A -> TM Outcome) : TM Outcome :=
  match r with
  | Ok a => k a
  | Err e => answer (core_lease_error e)
  end.
Definition or_child {A} (stream : Z) (r : Res A) (k : A -> TM Outcome) : TM Outcome :=
  match r with
  | Ok a => k a
  | Err e => answer (child_core_error stream e)
  end.

Definition eligibility_lost (s : TargetTransport) : Outcome * TargetTransport :=
  match phase s with
  | PhEligible e =>
      let b := e_binding e in
      match checked_add (sb_listener_epoch b) 1 with
      | None => lease_terminal InternalError None s
      | Some next_epoch =>
          if JSON_SAFE_MAX <? next_epoch then lease_terminal InternalError None s
          else
            let b' := {| sb_lease_id := sb_lease_id b;
                         sb_process_generation := sb_process_generation b;
                         sb_listener_epoch := next_epoch;
                         sb_nk_handshake_hash := sb_nk_handshake_hash b |} in
            lease_terminal EligibilityLost None
              (tt_with_phase (PhEligible (e_with_binding b' e)) s)
      end
  | _ => lease_terminal EligibilityLost None s
  end.
End Terminals.

(** ** The bootstrap *)

Section Handlers.
Context `{Minicbor} `{Snow}.

(** The argument checks every handler starts with. *)
Definition event_args (stream_set token_set bytes_set : bool) (ev : Event) : bool :=
  Bool.eqb (negb (ev_stream ev =? 0)) stream_set
  && Bool.eqb (negb (ev_token ev =? 0)) token_set
  && Bool.eqb (negb (is_empty (ev_bytes ev))) bytes_set.

Definition bootstrap_connected (entropy : bytes) (ev : Event) : TM Outcome :=
  run lift (ensure (event_args true false false ev) InvalidArgument);
  do s <- get;
  match phase s with
  | AwaitBootstrap binding key =>
      run set_phase (PhTerminal Terminal_internal);
      or_lease (TargetBootstrap_new binding key entropy) (fun bootstrap =>
      let '(frames, bootstrap) := tb_write_m1 bootstrap in
      or_lease frames (fun frames =>
      do write_token <- on_tokens allocate_token;
      do timer <- on_tokens (schedule_timer TBootstrap);
      run set_phase (BootstrapM1Pending (ev_stream ev) bootstrap write_token
                       OuterFrameDecoder_new None);
      ret (o_deadline timer BOOTSTRAP_DEADLINE_MS
             (o_write (ev_stream ev) write_token frames))))
  | _ => throw WrongPhase
  end.

Definition bootstrap_bytes (ev : Event) : TM Outcome :=
  do s <- get;
  match phase s with
  | BootstrapM2 stream bootstrap decoder ft =>
      run set_phase (PhTerminal Terminal_internal);
      let '(frames, decoder) := push (ev_bytes ev) decoder in
      or_lease frames (fun frames =>
      do ' (ft, frame_deadline) <-
        on_tokens (update_frame_timer (is_incomplete decoder) ft TBootstrapFrame);
      match frames with
      | [] =>
          run set_phase (BootstrapM2 stream bootstrap decoder ft);
          ret (o_frame_deadline frame_deadline (o_need_input stream))
      | [frame] =>
          or_lease (read_m2 bootstrap frame (generation s) 1) (fun '(sender, pbs) =>
          let ack := as_ack sender in
          let session_binding :=
            {| sb_lease_id := ack_lease_id ack;
               sb_process_generation := ack_process_generation ack;
               sb_listener_epoch := ack_listener_epoch ack;
               sb_nk_handshake_hash := ack_nk_handshake_hash ack |} in
          or_lease (write_ack sender) (fun '(ack, lease) =>
          do write_token <- on_tokens allocate_token;
          run set_phase (BootstrapAckPending stream lease pbs session_binding write_token
                           decoder ft);
          ret (o_frame_deadline frame_deadline (o_write stream write_token ack))))
      | _ => answer (lease_terminal SequenceViolation None)
      end)
  | _ => throw WrongPhase
  end.

(** ** Sessions *)

Definition session_accepted (entropy : bytes) (ev : Event) : TM Outcome :=
  run lift (ensure (event_args true false false ev) InvalidArgument);
  let stream := ev_stream ev in
  do e <- get_eligible;
  run lift (ensure (negb ((stream =? lease_stream e) || is_Some_b (children e !! stream)))
              WrongPhase);
  do session <- lift (res_map_err (fun _ => Internal)
                        (TargetSession_new (e_binding e) (e_pbs e) entropy));
  let '(frames, session) := t_write_m1 session in
  do frames <- lift (res_map_err (fun _ => Internal) frames);
  do token <- on_tokens allocate_token;
  do timer <- on_tokens (schedule_timer (TSessionPhase stream));
  run put_child stream (mkChild (M1Pending session token) OuterFrameDecoder_new (Some timer)
                          None 0);
  ret (o_deadline timer SESSION_HANDSHAKE_DEADLINE_MS (o_write stream token frames)).

Definition runtime_response (ev : Event) : TM Outcome :=
  run lift (ensure (event_args true false true ev) InvalidArgument);
  let stream := ev_stream ev in
  do c <- get_child stream;
  match c_phase c with
  | AwaitRuntime session =>
      run put_child stream (c_with_phase ChildTerminal c);
      let '(frame_parts, session) := t_write_application_response (ev_bytes ev) session in
      or_child stream frame_parts (fun frame_parts =>
      do token <- on_tokens allocate_token;
      run put_child stream (c_with_phase (ResponsePending session token) c);
      ret (o_write stream token (concat_frames frame_parts)))
  | _ => throw WrongPhase
  end.

(** Over the eligible state and the tokens it is called with. *)
Definition replace_child_timer (stream : Z) (action : TimerAction)
    : M (Eligible * Tokens) SupervisorError Z := fun '(e, k) =>
  match children e !! stream with
  | None => (Err WrongPhase, (e, k))
  | Some c =>
      let e := e_put_child stream (c_with_phase_timer None c) e in
      let '(r, k) := schedule_timer action (cancel_slot (phase_timer c) k) in
      match r with
      | Err err => (Err err, (e, k))
      | Ok timer =>
          (Ok timer, (e_put_child stream (c_with_phase_timer (Some timer) c) e, k))
      end
  end.

Definition reset_child_phase_timer (stream deadline : Z)
    : M (Eligible * Tokens) SupervisorError Outcome :=
  do timer <- replace_child_timer stream (TSessionIdle stream);
  ret (o_deadline timer deadline (o_need_input stream)).

(** Called with [self.phase] as the eligible state. *)
Definition in_eligible {A} (m : M (Eligible * Tokens) SupervisorError A) : TM A :=
  do e <- get_eligible; fun s =>
  let '(r, (e', k)) := m (e, tokens s) in
  (r, tt_with_phase (PhEligible e') (tt_with_tokens k s)).

(** The session of a child after a write of its was committed.  The eligible state is out of
    [self.phase] meanwhile: [child_terminal] sees the internal terminal there. *)
Definition commit_child_write (stream token : Z)
    : M (TargetTransport * Eligible) SupervisorError Outcome := fun '(s, e) =>
  match children e !! stream with
  | None => (Err WrongPhase, (s, e))
  | Some c =>
      let to p := e_put_child stream (c_with_phase p c) e in
      let wrong := (Err WrongPhase, (s, e)) in
      match c_phase c with
      | M1Pending session t =>
          if t =? token then (Ok (o_need_input stream), (s, to (AwaitM2 session))) else wrong
      | FinishedPending session t =>
          if t =? token then (Ok (o_need_input stream), (s, to (AwaitFinished session)))
          else wrong
      | ResponsePending session t =>
          if t =? token then
            let '(r, (e, k)) := reset_child_phase_timer stream SESSION_IDLE_DEADLINE_MS
                                  (to (AwaitApplication session), tokens s) in
            (r, (tt_with_tokens k s, e))
          else wrong
      | TerminalPending t terminal =>
          if t =? token then
            let '(o, s) := child_terminal stream (t_reason terminal) (t_peer terminal) s in
            (Ok o, (s, to ChildTerminal))
          else wrong
      | _ => wrong
      end
  end.

Definition full_write_committed (ev : Event) : TM Outcome :=
  run lift (ensure (event_args true true false ev) InvalidArgument);
  do s <- get;
  run set_phase (PhTerminal Terminal_internal);
  let wrong := run set_phase (phase s); throw WrongPhase in
  match phase s with
  | BootstrapM1Pending stream bootstrap token decoder ft =>
      if (stream =? ev_stream ev) && (token =? ev_token ev) then
        run set_phase (BootstrapM2 stream bootstrap decoder ft);
        ret (o_need_input stream)
      else wrong
  | BootstrapAckPending stream lease pbs binding token decoder ft =>
      if (stream =? ev_stream ev) && (token =? ev_token ev) then
        run on_tokens (modify (fun k => mkTokens (next_token k)
              (filter (fun ta => snd ta <> TBootstrap) (timers k))));
        do tick <- on_tokens (schedule_timer TLeaseTick);
        run set_eligible (mkEligible stream lease pbs binding decoder None ft (Some tick) 0 0 ∅);
        ret (o_deadline tick LEASE_TICK_MS
               (o_with_values (sb_process_generation binding) (sb_listener_epoch binding)
                  (o_with_stream stream (Outcome_new LeaseReady))))
      else wrong
  | PhEligible e =>
      if lease_stream e =? ev_stream ev then
        match lease_write e with
        | Some (token, _) =>
            if token =? ev_token ev then
              run set_eligible (e_with_write None e); ret (o_need_input (ev_stream ev))
            else wrong
        | None => wrong
        end
      else
        fun s => let '(r, (s, e)) := commit_child_write (ev_stream ev) (ev_token ev) (s, e) in
                 (r, tt_with_phase (PhEligible e) s)
  | _ => wrong
  end.
End Handlers.

(** ** Bytes of the lease and of the sessions *)

Section Streams.
Context `{Minicbor} `{Snow}.

Definition lease_bytes (ev : Event) : TM Outcome :=
  do e <- get_eligible;
  run lift (ensure (negb (is_Some_b (lease_write e))) WrongPhase);
  let '(frames, decoder) := push (ev_bytes ev) (lease_decoder e) in
  let e := e_with_decoder decoder e in
  run set_eligible e;
  or_lease frames (fun frames =>
  do ' (ft, frame_deadline) <-
    on_tokens (update_frame_timer (is_incomplete decoder) (lease_frame_timer e) TLeaseFrame);
  let e := e_with_frame_timer ft e in
  run set_eligible e;
  match frames with
  | [] => ret (o_frame_deadline frame_deadline (o_need_input (ev_stream ev)))
  | [frame] =>
      let '(counter, l) := read_heartbeat_request frame (lease e) in
      run set_eligible (e_with_lease l e);
      or_lease counter (fun counter =>
      let '(reply, l) := write_heartbeat_reply counter l in
      run set_eligible (e_with_lease l e);
      or_lease reply (fun reply =>
      let e := e_with_ticks (lease_tick_timer e) (lease_ticks e) 0 (e_with_lease l e) in
      run set_eligible e;
      do token <- on_tokens allocate_token;
      run set_eligible (e_with_write (Some (token, counter)) e);
      ret (o_frame_deadline frame_deadline (o_write (ev_stream ev) token reply))))
  | _ => answer (lease_terminal SequenceViolation None)
  end).

(** The loop over the application frames of one event; [Err None] where a second message
    completes. *)
Fixpoint read_applications (frames : list bytes) (application : option bytes)
    : M SessionCore (option Error) (option bytes) := fun session =>
  match frames with
  | [] => (Ok application, session)
  | frame :: frames =>
      match t_read_application frame session with
      | (Err e, session) => (Err (Some e), session)
      | (Ok None, session) => read_applications frames application session
      | (Ok (Some b), session) =>
          if is_Some_b application then (Err None, session)
          else read_applications frames (Some b) session
      end
  end.

(** What follows the loop in both arms of [session_bytes]. *)
Definition after_applications (stream : Z) (frame_deadline : option Z)
    (r : result (option Error) (option bytes) * SessionCore) : TM Outcome :=
  match r with
  | (Err None, _) => answer (child_terminal stream SequenceViolation None)
  | (Err (Some e), _) => answer (child_core_error stream e)
  | (Ok None, session) =>
      do c <- get_child stream;
      run put_child stream (c_with_phase (AwaitApplication session) c);
      ret (o_frame_deadline frame_deadline (o_need_input stream))
  | (Ok (Some b), session) =>
      do c <- get_child stream;
      do n <- lift (res_of_option Internal (checked_add (applications c) 1));
      let c := c_with_phase (AwaitRuntime session) (c_with_applications n c) in
      run put_child stream c;
      let deadline := if n =? 1 then SESSION_OPEN_RESPONSE_DEADLINE_MS
                      else SESSION_IDLE_DEADLINE_MS in
      match frame_deadline with
      | Some timer =>
          run put_child stream (c_with_phase_timer None c);
          run on_tokens (modify (cancel_slot (phase_timer c)));
          ret (o_deadline timer FRAME_DEADLINE_MS (o_application stream b))
      | None =>
          do timer <- in_eligible (replace_child_timer stream (TSessionPhase stream));
          ret (o_deadline timer deadline (o_application stream b))
      end
  end.

Definition session_bytes (ev : Event) : TM Outcome :=
  let stream := ev_stream ev in
  do c <- get_child stream;
  let '(frames, decoder) := push (ev_bytes ev) (c_decoder c) in
  let c := c_with_decoder decoder c in
  run put_child stream c;
  or_child stream frames (fun frames =>
  do ' (ft, frame_deadline) <-
    on_tokens (update_frame_timer (is_incomplete decoder) (frame_timer c)
                 (TSessionFrame stream));
  let c := c_with_frame_timer ft c in
  run put_child stream c;
  match frames with
  | [] => ret (o_frame_deadline frame_deadline (o_need_input stream))
  | frame :: rest =>
      match c_phase c with
      | AwaitM2 session =>
          run put_child stream (c_with_phase ChildTerminal c);
          if negb (is_empty rest)
          then answer (child_terminal stream SequenceViolation None)
          else
            let '(r, session) := t_read_m2 frame session in
            or_child stream r (fun _ =>
            let '(finished, session) := t_write_finished session in
            or_child stream finished (fun finished =>
            do token <- on_tokens allocate_token;
            run put_child stream (c_with_phase (FinishedPending session token) c);
            ret (o_frame_deadline frame_deadline (o_write stream token finished))))
      | AwaitFinished session =>
          run put_child stream (c_with_phase ChildTerminal c);
          let '(r, session) := t_read_finished frame session in
          or_child stream r (fun _ =>
          after_applications stream frame_deadline (read_applications rest None session))
      | AwaitApplication session =>
          run put_child stream (c_with_phase ChildTerminal c);
          after_applications stream frame_deadline
            (read_applications (frame :: rest) None session)
      | _ => throw WrongPhase
      end
  end).

Definition stream_bytes (ev : Event) : TM Outcome :=
  run lift (ensure (event_args true false true ev) InvalidArgument);
  do s <- get;
  match phase s with
  | BootstrapM2 stream _ _ _ =>
      if stream =? ev_stream ev then bootstrap_bytes ev else throw WrongPhase
  | PhEligible e =>
      if lease_stream e =? ev_stream ev then lease_bytes ev
      else if is_Some_b (children e !! ev_stream ev) then session_bytes ev
      else throw WrongPhase
  | _ => throw WrongPhase
  end.

(** ** The end of a stream *)

(** [session.eof()], where the phase holds a session. *)
Definition phase_eof (p : ChildPhase) : option (Res unit) * ChildPhase :=
  match p with
  | M1Pending s t => let '(r, s) := s_eof s in (Some r, M1Pending s t)
  | AwaitM2 s => let '(r, s) := s_eof s in (Some r, AwaitM2 s)
  | FinishedPending s t => let '(r, s) := s_eof s in (Some r, FinishedPending s t)
  | AwaitFinished s => let '(r, s) := s_eof s in (Some r, AwaitFinished s)
  | AwaitApplication s => let '(r, s) := s_eof s in (Some r, AwaitApplication s)
  | AwaitRuntime s => let '(r, s) := s_eof s in (Some r, AwaitRuntime s)
  | ResponsePending s t => let '(r, s) := s_eof s in (Some r, ResponsePending s t)
  | TerminalPending _ _ | ChildTerminal => (None, p)
  end.

Definition eof_error (c : Child) : option Error * Child :=
  let '(r, d) := outer_eof (c_decoder c) in
  let c := c_with_decoder d c in
  match r with
  | Err e => (Some e, c)
  | Ok _ =>
      let '(r, p) := phase_eof (c_phase c) in
      let c := c_with_phase p c in
      match r with
      | Some (Err e) => (if bool_decide (reason e = PeerClosed) then None else Some e, c)
      | _ => (None, c)
      end
  end.

(** The check of the stream's decoder and session, which may already answer. *)
Definition eof_check (ev : Event) : TM (option Outcome) :=
  do s <- get;
  let lease_eof r := match r with
    | Ok _ => ret None
    | Err e => do o <- answer (core_lease_error e); ret (Some o)
    end in
  match phase s with
  | BootstrapM1Pending stream b t d ft =>
      if stream =? ev_stream ev then
        let '(r, d) := outer_eof d in
        run set_phase (BootstrapM1Pending stream b t d ft); lease_eof r
      else ret None
  | BootstrapM2 stream b d ft =>
      if stream =? ev_stream ev then
        let '(r, d) := outer_eof d in
        run set_phase (BootstrapM2 stream b d ft); lease_eof r
      else ret None
  | BootstrapAckPending stream l pbs sb t d ft =>
      if stream =? ev_stream ev then
        let '(r, d) := outer_eof d in
        run set_phase (BootstrapAckPending stream l pbs sb t d ft); lease_eof r
      else ret None
  | PhEligible e =>
      if lease_stream e =? ev_stream ev then
        let '(r, d) := outer_eof (lease_decoder e) in
        run set_eligible (e_with_decoder d e); lease_eof r
      else
        match children e !! ev_stream ev with
        | None => ret None
        | Some c =>
            let '(error, c) := eof_error c in
            run put_child (ev_stream ev) c;
            match error with
            | None => ret None
            | Some error => do o <- answer (child_core_error (ev_stream ev) error); ret (Some o)
            end
        end
  | _ => ret None
  end.

Definition stream_closed (ev : Event) : TM Outcome :=
  run lift (ensure (event_args true false false ev) InvalidArgument);
  let r := match tag ev with StreamCloseNormal => Normal | _ => PeerClosed end in
  do early <- match tag ev with StreamIoFailed => ret None | _ => eof_check ev end;
  match early with
  | Some o => ret o
  | None =>
      do s <- get;
      match phase s with
      | BootstrapM1Pending stream _ _ _ _ | BootstrapM2 stream _ _ _
      | BootstrapAckPending stream _ _ _ _ _ _ =>
          if stream =? ev_stream ev then answer (lease_terminal r None)
          else throw WrongPhase
      | PhEligible e =>
          if lease_stream e =? ev_stream ev then answer (lease_terminal BrokerLost None)
          else if is_Some_b (children e !! ev_stream ev)
          then answer (child_terminal (ev_stream ev) r None)
          else throw WrongPhase
      | _ => throw WrongPhase
      end
  end.

(** ** Timers *)

(** [u8::saturating_add(1)]. *)
Definition saturating_inc8 (n : Z) : Z := Z.min (n + 1) 255.

Definition tick (token : Z) : TM Outcome :=
  do s <- get;
  match phase s with
  | PhEligible e =>
      if negb (bool_decide (lease_tick_timer e = Some token)) then ret (Outcome_new NeedInput)
      else
        let ticks := saturating_inc8 (lease_ticks e) in
        let missed := saturating_inc8 (missed_ticks e) in
        run set_eligible (e_with_ticks (lease_tick_timer e) ticks missed e);
        if 30 <=? ticks then answer (lease_terminal Stale None)
        else if 4 <=? missed then answer (lease_terminal BrokerLost None)
        else
          do timer <- on_tokens (schedule_timer TLeaseTick);
          run set_eligible (e_with_ticks (Some timer) ticks missed e);
          ret (o_deadline timer LEASE_TICK_MS (Outcome_new NeedInput))
  | _ => ret (Outcome_new NeedInput)
  end.

Definition session_timeout (stream : Z) (r : CloseReason) : TM Outcome :=
  do s <- get;
  match phase s with
  | PhEligible e =>
      if is_Some_b (children e !! stream) then answer (child_terminal stream r None)
      else ret (Outcome_new NeedInput)
  | _ => ret (Outcome_new NeedInput)
  end.

Definition timer_fired (ev : Event) : TM Outcome :=
  run lift (ensure (event_args false true false ev) InvalidArgument);
  do s <- get;
  match timers (tokens s) !! ev_token ev with
  | None => ret (Outcome_new NeedInput)
  | Some action =>
      run on_tokens (modify (cancel_timer (ev_token ev)));
      match action with
      | TBootstrap | TBootstrapFrame | TLeaseFrame => answer (lease_terminal Timeout None)
      | TLeaseTick => tick (ev_token ev)
      | TSessionPhase stream | TSessionFrame stream => session_timeout stream Timeout
      | TSessionIdle stream => session_timeout stream Stale
      end
  end.

(** ** The transport *)

Definition create (descriptor_cbor : bytes) (rng : option (list (option bytes)))
    : option (result SupervisorError (TargetTransport * Outcome)) :=
  match parse_descriptor descriptor_cbor with
  | Err e => Some (Err e)
  | Ok parsed =>
      match generate_process_generation rng with
      | None => None
      | Some (Err e) => Some (Err e)
      | Some (Ok g) =>
          let '(value, name) := match endpoint parsed with
            | Ios port => (port, None)
            | Android name => (0, Some name)
            end in
          Some (Ok (mkTransport (AwaitBootstrap (pd_binding parsed) (broker_public_key parsed))
                      g (mkTokens 1 ∅),
                    o_with_bytes name (o_with_values (platform_code (endpoint parsed)) value
                      (Outcome_new EndpointReady))))
      end
  end.

(** [entropy]: what the operating system gives to the handshake an event may start. *)
Definition dispatch (entropy : bytes) (ev : Event) : TM Outcome :=
  let plain f := run lift (ensure (event_args false false false ev) InvalidArgument); answer f in
  match tag ev with
  | EvEligibilityLost => plain eligibility_lost
  | EvCleanupFailed => plain (lease_terminal CleanupFailed None)
  | EvInternalError => plain (lease_terminal InternalError None)
  | TimerFired => timer_fired ev
  | BootstrapConnected => bootstrap_connected entropy ev
  | FullWriteCommitted => full_write_committed ev
  | SessionAccepted => session_accepted entropy ev
  | RuntimeResponse => runtime_response ev
  | StreamBytes => stream_bytes ev
  | StreamEof | StreamIoFailed | StreamCloseNormal => stream_closed ev
  end.

Definition drive (entropy : bytes) (ev : Event) : TM Outcome := fun s =>
  match phase s with
  | PhTerminal t => (Ok (o_terminal LeaseTerminal 0 (t_reason t) (t_handoff t) (t_peer t)), s)
  | _ =>
      if negb (ev_flags ev =? 0) then (Err InvalidArgument, s)
      else dispatch entropy ev s
  end.

Definition close (s : TargetTransport) : Outcome * TargetTransport :=
  (Outcome_new Closed,
   mkTransport (PhTerminal (mkTerminal Normal NotHandedOff None)) (generation s)
     (mkTokens (next_token (tokens s)) ∅)).

Definition terminate_internal_error (s : TargetTransport) : TargetTransport :=
  snd (lease_terminal InternalError None s).

Definition terminal_reason (s : TargetTransport) : option CloseReason :=
  match phase s with PhTerminal t => Some (t_reason t) | _ => None end.

(** The timers whose firing ends a session or the lease. *)
Definition terminal_timer (p : Phase) (token : Z) (action : TimerAction) : bool :=
  match action with
  | TLeaseTick =>
      match p with
      | PhEligible e =>
          bool_decide (lease_tick_timer e = Some token)
          && ((30 <=? saturating_inc8 (lease_ticks e))
              || (4 <=? saturating_inc8 (missed_ticks e)))
      | _ => false
      end
  | _ => true
  end.
Definition terminal_timer_tokens (s : TargetTransport) : gset Z :=
  dom (filter (fun ta => terminal_timer (phase s) (fst ta) (snd ta) = true)
         (timers (tokens s))).
End Streams.
