(* ===== verification/Supervision.v ===== *)
(** What the supervisor keeps and promises: its timers and tokens, the abstract lifecycle
    of a lease and its sessions that [drive] refines, and the properties of every run. *)

From stdpp Require Import gmap.
From S2P Require Import Prelude Errors Crates CratesRef Cbor Outer Records Payloads Reassembly NoiseIO Lease Bootstrap Session Descriptor Supervisor.

(** ** Timers belong to slots *)

(** Where the state keeps the token of a timer. *)
Inductive slot : Set := SlBootstrap | SlFrame | SlTick | SlPhase (id : Z) | SlChildFrame (id : Z).

#[export] Instance slot_eq_dec : EqDecision slot.
Proof. solve_decision. Defined.

Definition slot_of (a : TimerAction) : slot :=
  match a with
  | TBootstrap => SlBootstrap
  | TBootstrapFrame | TLeaseFrame => SlFrame
  | TLeaseTick => SlTick
  | TSessionPhase id | TSessionIdle id => SlPhase id
  | TSessionFrame id => SlChildFrame id
  end.

Section Slots.
Context `{Snow}.

(** The token a slot of the phase holds. *)
Definition stored (p : Phase) (sl : slot) : option Z :=
  match p, sl with
  | BootstrapM1Pending _ _ _ _ ft, SlFrame | BootstrapM2 _ _ _ ft, SlFrame
  | BootstrapAckPending _ _ _ _ _ _ ft, SlFrame => ft
  | PhEligible e, SlFrame => lease_frame_timer e
  | PhEligible e, SlTick => lease_tick_timer e
  | PhEligible e, SlPhase id => children e !! id ≫= phase_timer
  | PhEligible e, SlChildFrame id => children e !! id ≫= frame_timer
  | _, _ => None
  end.

Definition bootstrapping (p : Phase) : Prop :=
  match p with
  | BootstrapM1Pending _ _ _ _ _ | BootstrapM2 _ _ _ _ | BootstrapAckPending _ _ _ _ _ _ _ => True
  | _ => False
  end.

Definition live (p : Phase) : Prop := match p with PhTerminal _ => False | _ => True end.

Definition holds (p : Phase) (sl : slot) (t : Z) : Prop :=
  live p -> match sl with SlBootstrap => bootstrapping p | _ => stored p sl = Some t end.

(** Every timer is that of the slot of its action, and a slot never names the timer of
    another; tokens are below the next one. *)
Record timers_ok (p : Phase) (k : Tokens) : Prop := {
  tk_next : 1 <= next_token k <= U64_MAX;
  tk_held : forall t a, timers k !! t = Some a -> 1 <= t < next_token k /\ holds p (slot_of a) t;
  tk_stored : forall sl t, stored p sl = Some t ->
    t < next_token k /\ forall a, timers k !! t = Some a -> slot_of a = sl
}.

Lemma holds_weaken (p p' : Phase) sl t :
  live p -> (bootstrapping p -> bootstrapping p') ->
  (stored p sl = Some t -> stored p' sl = Some t) -> holds p sl t -> holds p' sl t.
Proof. unfold holds. intros Hp Hb Hs Hold _. specialize (Hold Hp). destruct sl; auto. Qed.

(** A change of the phase that keeps the slots. *)
Lemma timers_ok_keep (p p' : Phase) k :
  live p -> (forall sl, stored p' sl = stored p sl) -> (bootstrapping p -> bootstrapping p') ->
  timers_ok p k -> timers_ok p' k.
Proof.
  intros Hp Hs Hb [Hn Hh Hst]. split; [done| |].
  - intros t a Ht. destruct (Hh t a Ht) as [? Hold]. split; [done|].
    eapply holds_weaken; [done|done| |exact Hold]. by rewrite Hs.
  - intros sl t. rewrite Hs. apply Hst.
Qed.

(** A terminal phase owns nothing and answers to nothing. *)
Lemma timers_ok_terminal (p : Phase) t k : timers_ok p k -> timers_ok (PhTerminal t) k.
Proof. intros [Hn Hh Hst]. split; [done| |done]. intros t' a Ha. split; [by eapply Hh|by intros []]. Qed.

(** Cancelling a slot: its timer goes, the others stay. *)
Lemma timers_ok_cancel (p p' : Phase) k sl :
  live p -> (forall sl', sl' <> sl -> stored p' sl' = stored p sl') ->
  (bootstrapping p -> bootstrapping p') -> sl <> SlBootstrap -> stored p' sl = None ->
  timers_ok p k -> timers_ok p' (cancel_slot (stored p sl) k).
Proof.
  intros Hp Hs Hb Hsl Hnone [Hn Hh Hst].
  assert (Hnext : next_token (cancel_slot (stored p sl) k) = next_token k)
    by (by destruct (stored p sl)).
  assert (Hlook : forall t a, timers (cancel_slot (stored p sl) k) !! t = Some a ->
    timers k !! t = Some a /\ stored p sl <> Some t).
  { intros t a. destruct (stored p sl) as [t0|]; cbn; [|done].
    rewrite lookup_delete_Some. intros [? ?]. split; [done|congruence]. }
  split.
  - by rewrite Hnext.
  - intros t a Ht. rewrite Hnext. apply Hlook in Ht as [Ht Hnot].
    destruct (Hh t a Ht) as [? Hold]. split; [done|].
    eapply holds_weaken; [done|done| |exact Hold]. destruct (decide (slot_of a = sl)) as [->|Hd].
    + done.
    + by rewrite Hs.
  - intros sl' t Hst'. rewrite Hnext. assert (Hd : sl' <> sl) by congruence.
    rewrite Hs in Hst' by done. destruct (Hst _ _ Hst') as [? Ha]. split; [done|].
    intros a Hl. apply Ha. by apply Hlook in Hl as [? _].
Qed.

(** Allocating a token changes no timer. *)
Lemma allocate_spec k :
  1 <= next_token k <= U64_MAX ->
  (next_token k < U64_MAX /\ allocate_token k
     = (Ok (next_token k), mkTokens (next_token k + 1) (timers k))) \/
  (next_token k = U64_MAX /\ allocate_token k = (Err Internal, k)).
Proof.
  intros Hn. unfold allocate_token.
  destruct (checked_add (next_token k) 1) as [n|] eqn:Hc.
  - apply checked_add_some in Hc as [-> Hc]. left. split; [lia|].
    by destruct (Z.eqb_spec (next_token k) 0); [lia|].
  - apply checked_add_none in Hc. right. split; [lia|done].
Qed.

Lemma timers_ok_allocate (p : Phase) k : timers_ok p k -> next_token k < U64_MAX ->
  timers_ok p (mkTokens (next_token k + 1) (timers k)).
Proof.
  intros [Hn Hh Hst] Hlt. split; cbn.
  - lia.
  - intros t a Ht. destruct (Hh t a Ht). split; [lia|done].
  - intros sl t Hs. destruct (Hst sl t Hs). split; [lia|done].
Qed.

Lemma schedule_spec a k :
  1 <= next_token k <= U64_MAX ->
  (next_token k < U64_MAX /\ schedule_timer a k
     = (Ok (next_token k), mkTokens (next_token k + 1) (<[next_token k := a]> (timers k)))) \/
  (next_token k = U64_MAX /\ schedule_timer a k = (Err Internal, k)).
Proof.
  intros Hn. unfold schedule_timer. destruct (allocate_spec k Hn) as [[Hlt Ha]|[Hlt Ha]].
  - left. split; [done|]. by rewrite (mbind_M_step _ _ _ _ _ Ha), modify_bind.
  - right. split; [done|]. by rewrite (mbind_M_fail _ _ _ _ _ Ha).
Qed.

(** A new timer in an empty slot. *)
Lemma timers_ok_schedule (p p' : Phase) k a :
  live p -> (forall sl, sl <> slot_of a -> stored p' sl = stored p sl) ->
  (bootstrapping p -> bootstrapping p') -> stored p (slot_of a) = None ->
  stored p' (slot_of a) = (if decide (slot_of a = SlBootstrap) then None else Some (next_token k)) ->
  (slot_of a = SlBootstrap -> bootstrapping p') ->
  timers_ok p k -> next_token k < U64_MAX ->
  timers_ok p' (mkTokens (next_token k + 1) (<[next_token k := a]> (timers k))).
Proof.
  intros Hp Hs Hb Hnone Hnew Hboot [Hn Hh Hst] Hlt. split; cbn.
  - lia.
  - intros t b. rewrite lookup_insert_Some. intros [[<- <-]|[Hne Ht]].
    + split; [lia|]. intros _. rewrite Hnew. destruct (decide _) as [Hd|Hd].
      * rewrite Hd. by apply Hboot.
      * by destruct (slot_of a).
    + destruct (Hh t b Ht) as [? Hold]. split; [lia|].
      eapply holds_weaken; [done|done| |exact Hold].
      destruct (decide (slot_of b = slot_of a)) as [->|Hd]; [congruence|by rewrite Hs].
  - intros sl t Hst'. destruct (decide (sl = slot_of a)) as [->|Hd].
    + rewrite Hnew in Hst'. destruct (decide _); [done|]. injection Hst' as <-. split; [lia|].
      intros b. rewrite lookup_insert_Some. intros [[_ <-]|[? Hb']]; done.
    + rewrite Hs in Hst' by done. destruct (Hst _ _ Hst') as [? Ha]. split; [lia|].
      intros b. rewrite lookup_insert_Some. intros [[<- _]|[_ Hb']]; [lia|by apply Ha].
Qed.

(** [update_frame_timer] with the write of its slot. *)
Lemma update_frame_spec (p : Phase) (p' : option Z -> Phase) incomplete a k :
  live p -> timers_ok p k -> slot_of a <> SlBootstrap ->
  (forall ft sl, sl <> slot_of a -> stored (p' ft) sl = stored p sl) ->
  (forall ft, stored (p' ft) (slot_of a) = ft) ->
  (forall ft, bootstrapping p -> bootstrapping (p' ft)) ->
  match update_frame_timer incomplete (stored p (slot_of a)) a k with
  | (Ok (ft, fd), k') =>
      timers_ok (p' ft) k' /\ next_token k <= next_token k' /\
      (forall t b, slot_of b <> slot_of a -> timers k !! t = Some b ->
         timers k' !! t = Some b) /\
      match fd with
      | Some t => t = next_token k /\ next_token k' = t + 1
      | None => next_token k' = next_token k
      end
  | (Err e, k') => e = Internal /\ k' = k /\ next_token k = U64_MAX
  end.
Proof.
  intros Hp Hok Hsl Hother Hset Hb. unfold update_frame_timer. destruct incomplete.
  - destruct (stored p (slot_of a)) as [t|] eqn:Ht.
    + cbn. split_and!; [|lia|done|done]. eapply timers_ok_keep; [done| |by apply Hb|done].
      intros sl. destruct (decide (sl = slot_of a)) as [->|Hd]; [by rewrite Hset|by apply Hother].
    + destruct (schedule_spec a k) as [[Hlt Hs]|[Hlt Hs]]; [apply Hok| |].
      * rewrite (mbind_M_step _ _ _ _ _ Hs). cbn. split_and!; [|lia| |done|done].
        -- apply (timers_ok_schedule p); try done; [by apply Hother|by apply Hb|].
           rewrite Hset. by rewrite decide_False.
        -- intros t b _ Hk. rewrite lookup_insert_ne; [done|].
           destruct (tk_held _ _ Hok _ _ Hk). lia.
      * by rewrite (mbind_M_fail _ _ _ _ _ Hs).
  - rewrite modify_bind. cbn. split_and!.
    + apply (timers_ok_cancel p); try done; [by apply Hother|by apply Hb].
    + by destruct (stored p (slot_of a)).
    + intros t b Hd Hk. destruct (stored p (slot_of a)) as [t'|] eqn:Hst; [|done]. cbn.
      rewrite lookup_delete_ne; [done|]. intros ->.
      destruct (tk_stored _ _ Hok _ _ Hst) as [_ Ha]. by apply Hd, Ha.
    + by destruct (stored p (slot_of a)).
Qed.
End Slots.

(** ** The lifecycle of a lease

    The specification a host of the transport may rely on: before the lease is ready there
    are no sessions; then the lease lives for fewer than thirty ticks, a session begins with a write of its first message, is live until
    it is reported terminal, and the end of a session or of the lease reports whether an
    application message may have been handed off. *)

Inductive Lifecycle : Type := SBoot | SLive (ticks : Z) (sessions : gmap Z bool) | SDead.

Definition handed (b : bool) : HandoffState :=
  if b then HandoffPossibleOrConfirmed else NotHandedOff.

Definition any_handed (m : gmap Z bool) : bool := bool_decide (map_Exists (fun _ b => b = true) m).

Definition lease_evidence (l : Lifecycle) : HandoffState :=
  match l with SLive _ m => handed (any_handed m) | _ => NotHandedOff end.

Definition io (o : Outcome) : Prop := o_kind o = WriteFrames \/ o_kind o = NeedInput.

Inductive lifecycle_step : Lifecycle -> Outcome -> Lifecycle -> Prop :=
| life_boot o : io o -> lifecycle_step SBoot o SBoot
| life_ready o : o_kind o = LeaseReady -> lifecycle_step SBoot o (SLive 0 ∅)
| life_io nt m o : io o -> lifecycle_step (SLive nt m) o (SLive nt m)
| life_tick nt m o :
    o_kind o = NeedInput -> nt + 1 < 30 -> lifecycle_step (SLive nt m) o (SLive (nt + 1) m)
| life_accept nt m id o :
    o_kind o = WriteFrames -> o_stream o = id -> m !! id = None ->
    lifecycle_step (SLive nt m) o (SLive nt (<[id := false]> m))
| life_application nt m id b o :
    o_kind o = OutApplication -> o_stream o = id -> o_handoff o = HandoffPossibleOrConfirmed ->
    m !! id = Some b -> lifecycle_step (SLive nt m) o (SLive nt (<[id := true]> m))
| life_session_end nt m id b o :
    o_kind o = SessionTerminal -> o_stream o = id -> m !! id = Some b ->
    o_handoff o = handed b -> lifecycle_step (SLive nt m) o (SLive nt (delete id m))
| life_limit_committed nt m id o :
    (* the commit of a limit Close: the session stays, the evidence is lost *)
    o_kind o = SessionTerminal -> o_stream o = id -> is_Some (m !! id) ->
    o_handoff o = NotHandedOff -> lifecycle_step (SLive nt m) o (SLive nt m)
| life_lease_end l o :
    l <> SDead -> o_kind o = LeaseTerminal -> o_handoff o = lease_evidence l ->
    lifecycle_step l o SDead
| life_dead o : o_kind o = LeaseTerminal -> lifecycle_step SDead o SDead.

(** What an error leaves: a misused event changes nothing of the lifecycle; running out of
    tokens may end the lease, or lose an application that was counted already. *)
Inductive lifecycle_err : SupervisorError -> Lifecycle -> Lifecycle -> Prop :=
| err_same e l : lifecycle_err e l l
| err_dead l : lifecycle_err Internal l SDead
| err_tick nt m : lifecycle_err Internal (SLive nt m) (SLive (nt + 1) m)
| err_counted nt m id b :
    m !! id = Some b -> lifecycle_err Internal (SLive nt m) (SLive nt (<[id := true]> m)).

(** The tokens an outcome hands out: a write token, and a timer. *)
Definition issued (o : Outcome) : list Z :=
  match o_kind o with
  | WriteFrames => o_token o :: if Z.testbit (o_flags o) 1 then [value0 o] else []
  | _ => if Z.testbit (o_flags o) 2 then [o_token o] else []
  end.

Section Steps.
Context `{Snow}.
Implicit Types (s : TargetTransport) (c : Child).

Definition lifecycle (p : Phase) : Lifecycle :=
  match p with
  | PhEligible e => SLive (lease_ticks e) (child_handed_off <$> children e)
  | PhTerminal _ => SDead
  | _ => SBoot
  end.

Definition phase_ok (p : Phase) (k : Tokens) : Prop :=
  match p with
  | PhEligible e =>
      0 <= lease_ticks e < 30 /\ 0 <= missed_ticks e < 4 /\
      children e !! lease_stream e = None /\
      (next_token k < U64_MAX ->
       exists t, lease_tick_timer e = Some t /\ timers k !! t = Some TLeaseTick) /\
      map_Forall (fun _ c => 0 <= applications c) (children e)
  | BootstrapM1Pending _ _ _ _ _ | BootstrapM2 _ _ _ _ | BootstrapAckPending _ _ _ _ _ _ _ =>
      next_token k < U64_MAX -> exists t, timers k !! t = Some TBootstrap
  | _ => True
  end.

(** The invariant: timers are those of live slots, the ticks below their limits, and while
    tokens last a lease has its tick, and a bootstrap its deadline, scheduled. *)
Record tt_inv s : Prop := {
  inv_timers : timers_ok (phase s) (tokens s);
  inv_phase : phase_ok (phase s) (tokens s)
}.

Definition next s : Z := next_token (tokens s).

(** What a terminal phase answers, to the event that ended the lease and ever after. *)
Definition terminal_outcome (t : Terminal) : Outcome :=
  o_terminal LeaseTerminal 0 (t_reason t) (t_handoff t) (t_peer t).

Definition reported (r : result SupervisorError Outcome) (p : Phase) : Prop :=
  match r, p with Ok o, PhTerminal t => o = terminal_outcome t | _, _ => True end.

Record step_post s (r : result SupervisorError Outcome) s' : Prop := {
  po_inv : tt_inv s';
  po_next : next s <= next s';
  po_out : match r with
    | Ok o => lifecycle_step (lifecycle (phase s)) o (lifecycle (phase s')) /\
              Forall (fun t => next s <= t < next s') (issued o) /\ NoDup (issued o)
    | Err e => lifecycle_err e (lifecycle (phase s)) (lifecycle (phase s'))
    end;
  po_end : reported r (phase s')
}.

(** Weakest preconditions of the handlers. *)
Definition wp {A} (m : TM A) s (Q : A -> TargetTransport -> Prop)
    (E : SupervisorError -> TargetTransport -> Prop) : Prop :=
  match m s with (Ok a, s') => Q a s' | (Err e, s') => E e s' end.

Definition good (m : TM Outcome) s0 s : Prop :=
  wp m s (fun o s' => step_post s0 (Ok o) s') (fun e s' => step_post s0 (Err e) s').

Lemma wp_bind {A B} (m : TM A) (k : A -> TM B) s Q E :
  wp m s (fun a s1 => wp (k a) s1 Q E) E -> wp (mbind_M m k) s Q E.
Proof. unfold wp, mbind_M. by destruct (m s) as [[a|e] s1]. Qed.
Lemma wp_lift {A} (r : result SupervisorError A) s (Q : A -> TargetTransport -> Prop) E :
  (forall a, r = Ok a -> Q a s) -> (forall e, r = Err e -> E e s) -> wp (lift r) s Q E.
Proof. unfold wp, lift. destruct r; auto. Qed.
Lemma wp_ensure b err s (Q : unit -> TargetTransport -> Prop) E :
  (b = true -> Q tt s) -> (b = false -> E err s) -> wp (lift (ensure b err)) s Q E.
Proof. unfold wp, lift, ensure. destruct b; auto. Qed.
Lemma wp_get s (Q : TargetTransport -> TargetTransport -> Prop) E : Q s s -> wp get s Q E.
Proof. done. Qed.
Lemma wp_set_phase p s (Q : unit -> TargetTransport -> Prop) E :
  Q tt (tt_with_phase p s) -> wp (set_phase p) s Q E.
Proof. done. Qed.
Lemma wp_on_tokens {A} (m : KM A) s (Q : A -> TargetTransport -> Prop) E :
  (forall a k, m (tokens s) = (Ok a, k) -> Q a (tt_with_tokens k s)) ->
  (forall e k, m (tokens s) = (Err e, k) -> E e (tt_with_tokens k s)) -> wp (on_tokens m) s Q E.
Proof. unfold wp, on_tokens. destruct (m (tokens s)) as [[a|e] k]; auto. Qed.
Lemma wp_answer f s (Q : Outcome -> TargetTransport -> Prop) E :
  Q (fst (f s)) (snd (f s)) -> wp (answer f) s Q E.
Proof. unfold wp, answer. by destruct (f s). Qed.
End Steps.

(** ** A session in the middle of a handler *)

Section AtChild.
Context `{Snow}.
Implicit Types (s : TargetTransport) (c : Child).

(** Since [s0] tokens only rose; the invariant holds, the sessions are [m], and [id] has
    the child [c]. *)
Record at_child s0 (nt : Z) (m : gmap Z bool) s id c : Prop := {
  ac_inv : tt_inv s;
  ac_next : next s0 <= next s;
  ac_phase : exists e, phase s = PhEligible e /\ children e !! id = Some c /\
                       child_handed_off <$> children e = m /\ lease_ticks e = nt
}.

Lemma at_child_lookup s0 nt m s id c : at_child s0 nt m s id c -> m !! id = Some (child_handed_off c).
Proof. intros [_ _ (e & _ & Hc & <- & _)]. by rewrite lookup_fmap, Hc. Qed.

Lemma stored_put id c' (e : Eligible) sl :
  (forall id', sl <> SlPhase id' /\ sl <> SlChildFrame id') \/
  (exists id', id' <> id /\ (sl = SlPhase id' \/ sl = SlChildFrame id')) ->
  stored (PhEligible (e_put_child id c' e)) sl = stored (PhEligible e) sl.
Proof.
  intros [Hn|(id' & Hne & [-> | ->])]; cbn; rewrite ?lookup_insert_ne by done; try done.
  destruct sl; try done; by destruct (Hn id0).
Qed.

Lemma stored_put_phase id c' (e : Eligible) :
  stored (PhEligible (e_put_child id c' e)) (SlPhase id) = phase_timer c'.
Proof. cbn. by rewrite lookup_insert_eq. Qed.
Lemma stored_put_frame id c' (e : Eligible) :
  stored (PhEligible (e_put_child id c' e)) (SlChildFrame id) = frame_timer c'.
Proof. cbn. by rewrite lookup_insert_eq. Qed.
Lemma stored_child_phase id c (e : Eligible) :
  children e !! id = Some c -> stored (PhEligible e) (SlPhase id) = phase_timer c.
Proof. intros Hc. cbn. by rewrite Hc. Qed.
Lemma stored_child_frame id c (e : Eligible) :
  children e !! id = Some c -> stored (PhEligible e) (SlChildFrame id) = frame_timer c.
Proof. intros Hc. cbn. by rewrite Hc. Qed.

(** The slots other than those of [id]. *)
Lemma stored_put_other id c' (e : Eligible) sl :
  sl <> SlPhase id -> sl <> SlChildFrame id ->
  stored (PhEligible (e_put_child id c' e)) sl = stored (PhEligible e) sl.
Proof.
  intros Hp Hf. apply stored_put. destruct sl as [| | |id'|id']; try (left; by split); right;
    exists id'; (split; [congruence|auto]).
Qed.

Lemma phase_ok_put id c c' (e : Eligible) k k' :
  children e !! id = Some c -> 0 <= applications c' -> next_token k <= next_token k' ->
  (forall t, timers k !! t = Some TLeaseTick -> timers k' !! t = Some TLeaseTick) ->
  phase_ok (PhEligible e) k -> phase_ok (PhEligible (e_put_child id c' e)) k'.
Proof.
  intros Hc Ha Hn Ht (H1 & H2 & Hl & Htick & Hall). cbn. split_and!; try done; try lia.
  - rewrite lookup_insert_ne; [done|]. intros ->. congruence.
  - intros Hlt. destruct Htick as (t & ? & ?); [lia|]. exists t. auto.
  - apply map_Forall_insert_2; [done|exact Hall].
Qed.

(** Writing through the borrow of the child, its timers untouched. *)
Lemma at_child_put s0 nt m s id c c' :
  at_child s0 nt m s id c -> phase_timer c' = phase_timer c -> frame_timer c' = frame_timer c ->
  0 <= applications c' ->
  at_child s0 nt (<[id := child_handed_off c']> m) (snd (put_child id c' s)) id c' /\
  fst (put_child id c' s) = Ok tt /\ next (snd (put_child id c' s)) = next s.
Proof.
  intros [[Hti Hph] Hn (e & He & Hc & <- & <-)] Hp Hf Ha. unfold put_child, next. rewrite He in *. cbn.
  split_and!; [|done|done]. split; cbn; [|done|].
  - split; cbn.
    + apply (timers_ok_keep (PhEligible e)); [done| |done|done]. intros sl.
      destruct (decide (sl = SlPhase id)) as [->|Hd1].
      { by rewrite stored_put_phase, (stored_child_phase id c). }
      destruct (decide (sl = SlChildFrame id)) as [->|Hd2].
      { by rewrite stored_put_frame, (stored_child_frame id c). }
      by apply stored_put_other.
    + by eapply (phase_ok_put id c c' e (tokens s)).
  - exists (e_put_child id c' e). split_and!; [done| | |done]; cbn.
    + by rewrite lookup_insert_eq.
    + by rewrite fmap_insert.
Qed.

Lemma wp_put s0 nt m s id c c' (Q : unit -> TargetTransport -> Prop) E :
  at_child s0 nt m s id c -> phase_timer c' = phase_timer c -> frame_timer c' = frame_timer c ->
  child_handed_off c' = child_handed_off c -> 0 <= applications c' ->
  (forall s', at_child s0 nt m s' id c' -> next s' = next s -> Q tt s') ->
  wp (put_child id c') s Q E.
Proof.
  intros Hat Hp Hf Hh Ha HQ.
  destruct (at_child_put s0 nt m s id c c' Hat Hp Hf Ha) as (Hat' & Hok & Hn).
  unfold wp. destruct (put_child id c' s) as [r s']. cbn in *. subst r.
  apply HQ; [|done]. pose proof (at_child_lookup _ _ _ _ _ _ Hat) as Hm.
  rewrite Hh, insert_id in Hat'; done.
Qed.

Lemma wp_get_child s0 nt m s id c (Q : Child -> TargetTransport -> Prop) E :
  at_child s0 nt m s id c -> Q c s -> wp (get_child id) s Q E.
Proof.
  intros [_ _ (e & He & Hc & _)] HQ. apply wp_bind. unfold wp, get_eligible. rewrite He.
  unfold lift. by rewrite Hc.
Qed.

Lemma at_child_tokens s0 nt m s id c k :
  at_child s0 nt m s id c -> next_token (tokens s) <= next_token k -> timers_ok (phase s) k ->
  (forall t, timers (tokens s) !! t = Some TLeaseTick -> timers k !! t = Some TLeaseTick) ->
  at_child s0 nt m (tt_with_tokens k s) id c.
Proof.
  intros [[Hti Hph] Hn (e & He & Hc & Hm & Hnt)] Hk Hok Ht. split; cbn; [|unfold next in *; cbn; lia|by exists e].
  split; [done|]. cbn. rewrite He in *. destruct Hph as (H1 & H2 & Hl & Htick & Hall).
  split_and!; try done; try lia. intros Hlt. destruct Htick as (t & ? & ?); [lia|]. eauto.
Qed.

Lemma wp_allocate s0 nt m s id c (Q : Z -> TargetTransport -> Prop) E :
  at_child s0 nt m s id c ->
  (forall s', at_child s0 nt m s' id c -> next s' = next s + 1 -> Q (next s) s') ->
  (forall s', at_child s0 nt m s' id c -> E Internal s') ->
  wp (on_tokens allocate_token) s Q E.
Proof.
  intros Hat HQ HE. pose proof (inv_timers _ (ac_inv _ _ _ _ _ _ Hat)) as Hti.
  destruct (allocate_spec (tokens s) (tk_next _ _ Hti)) as [[Hlt Ha]|[Hlt Ha]];
    apply wp_on_tokens; rewrite Ha; intros ? ? [= <- <-].
  - apply HQ; [|done]. apply at_child_tokens; cbn; try done; [lia|by apply timers_ok_allocate].
  - by apply HE; destruct s.
Qed.

(** The frame timer of a child: the tokens move first, then the slot is written. *)
Definition fresh_in s0 s (fd : option Z) : Prop :=
  match fd with Some t => next s0 <= t < next s | None => True end.

Record framed s0 (nt : Z) (m : gmap Z bool) s id c (ft fd : option Z) : Prop := {
  fr_child : at_child s0 nt m (snd (put_child id (c_with_frame_timer ft c) s)) id
               (c_with_frame_timer ft c);
  fr_ok : fst (put_child id (c_with_frame_timer ft c) s) = Ok tt;
  fr_next : next (snd (put_child id (c_with_frame_timer ft c) s)) = next s;
  fr_fresh : fresh_in s0 s fd
}.

Lemma wp_frame_timer s0 nt m s id c incomplete (Q : option Z * option Z -> TargetTransport -> Prop) E :
  at_child s0 nt m s id c ->
  (forall ft fd s', framed s0 nt m s' id c ft fd -> Q (ft, fd) s') ->
  (forall s', at_child s0 nt m s' id c -> E Internal s') ->
  wp (on_tokens (update_frame_timer incomplete (frame_timer c) (TSessionFrame id))) s Q E.
Proof.
  intros Hat HQ HE. pose proof Hat as [[Hti Hph] Hn (e & He & Hc & Hm & Hnt)].
  rewrite He in Hti, Hph.
  pose proof (update_frame_spec (PhEligible e)
    (fun ft => PhEligible (e_put_child id (c_with_frame_timer ft c) e)) incomplete
    (TSessionFrame id) (tokens s)) as Hu.
  cbn [slot_of] in Hu. rewrite (stored_child_frame id c e Hc) in Hu.
  unfold wp, on_tokens. destruct (update_frame_timer _ _ _ _) as [[[ft fd]|err] k] eqn:Hup.
  - destruct Hu as (Hok & Hle & Htick & Hfd); try done.
    { intros ft' sl Hsl. destruct (decide (sl = SlPhase id)) as [->|Hd].
      - by rewrite stored_put_phase, (stored_child_phase id c).
      - by apply stored_put_other. }
    { intros ft'. apply stored_put_frame. }
    apply HQ. split; unfold put_child; cbn; rewrite ?He; cbn.
    + split; cbn; [|unfold next in *; cbn in *; lia|].
      * split; cbn; [exact Hok|]. eapply (phase_ok_put id c); try done.
        -- destruct Hph as (_ & _ & _ & _ & Hall). apply (Hall id c Hc).
        -- intros t Ht. by apply (Htick t TLeaseTick).
      * exists (e_put_child id (c_with_frame_timer ft c) e). split_and!; [done| | |done]; cbn.
        -- by rewrite lookup_insert_eq.
        -- rewrite fmap_insert, Hm. apply insert_id. rewrite <- Hm, lookup_fmap, Hc. done.
    + done.
    + done.
    + unfold fresh_in, next in *. cbn. destruct fd; [|done]. lia.
  - destruct Hu as (-> & -> & _); try done.
    { intros ft' sl Hsl. destruct (decide (sl = SlPhase id)) as [->|Hd].
      - by rewrite stored_put_phase, (stored_child_phase id c).
      - by apply stored_put_other. }
    { intros ft'. apply stored_put_frame. }
    apply HE. by destruct s.
Qed.

Lemma wp_put_framed s0 nt m s id c ft fd (Q : unit -> TargetTransport -> Prop) E :
  framed s0 nt m s id c ft fd ->
  (forall s', at_child s0 nt m s' id (c_with_frame_timer ft c) -> fresh_in s0 s' fd -> Q tt s') ->
  wp (put_child id (c_with_frame_timer ft c)) s Q E.
Proof.
  intros [Hat Hok Hn Hf] HQ. unfold wp. destruct (put_child _ _ s) as [r s']. cbn in *. subst r.
  apply HQ; [done|]. unfold fresh_in in *. destruct fd; [by rewrite Hn|done].
Qed.

(** *** Where handlers end *)

Lemma step_quiet_err s0 nt m s id c e :
  lifecycle (phase s0) = SLive nt m -> at_child s0 nt m s id c -> step_post s0 (Err e) s.
Proof.
  intros Hl [Hi Hn (el & He & _ & Hm & Hnt)]. split; [done|done| |done]. rewrite Hl, He. cbn. rewrite Hm, Hnt.
  constructor.
Qed.

Lemma step_io s0 nt m s id c o :
  lifecycle (phase s0) = SLive nt m -> at_child s0 nt m s id c -> io o ->
  Forall (fun t => next s0 <= t < next s) (issued o) -> NoDup (issued o) ->
  step_post s0 (Ok o) s.
Proof.
  intros Hl [Hi Hn (el & He & _ & Hm & Hnt)] Ho Hf Hd. split; [done|done| |by rewrite He]. split_and!; try done.
  rewrite Hl, He. cbn. rewrite Hm, Hnt. by apply life_io.
Qed.

Lemma issued_need_input id fd :
  issued (o_frame_deadline fd (o_need_input id)) = option_list fd.
Proof. by destruct fd. Qed.
Lemma issued_write id w b fd :
  w <> 0 -> issued (o_frame_deadline fd (o_write id w b)) = w :: option_list fd.
Proof.
  intros Hw. destruct fd; [|done]. cbn. unfold o_deadline. cbn. by destruct (Z.eqb_spec w 0).
Qed.
Lemma issued_write_deadline id w b t ms :
  w <> 0 -> issued (o_deadline t ms (o_write id w b)) = [w; t].
Proof. intros Hw. unfold o_deadline. cbn. by destruct (Z.eqb_spec w 0). Qed.
Lemma io_frame_deadline fd o : io o -> io (o_frame_deadline fd o).
Proof.
  unfold io. destruct fd; [|done]. cbn. unfold o_deadline. by destruct (o_token o =? 0).
Qed.

(** [child_terminal], on a session that is there. *)
Lemma child_terminal_post s0 nt m s id c r peer :
  lifecycle (phase s0) = SLive nt m -> at_child s0 nt m s id c ->
  step_post s0 (Ok (fst (child_terminal id r peer s))) (snd (child_terminal id r peer s)).
Proof.
  intros Hl Hat. pose proof (at_child_lookup _ _ _ _ _ _ Hat) as Hmid.
  destruct Hat as [[Hti Hph] Hn (e & He & Hc & Hm & Hnt)]. rewrite He in Hti, Hph.
  unfold child_terminal. rewrite He, Hc. cbn [fst snd].
  set (e1 := e_put_child id (c_with_phase_timer None c) e).
  set (e2 := e_with_children (delete id (children e)) e).
  assert (Hti1 : timers_ok (PhEligible e1) (cancel_slot (phase_timer c) (tokens s))).
  { rewrite <- (stored_child_phase id c e Hc).
    apply (timers_ok_cancel (PhEligible e)); try done.
    - intros sl Hsl. unfold e1. destruct (decide (sl = SlChildFrame id)) as [->|Hd].
      + by rewrite stored_put_frame, (stored_child_frame id c).
      + by apply stored_put_other.
    - unfold e1. by rewrite stored_put_phase. }
  assert (Hother : forall sl, sl <> SlChildFrame id ->
    stored (PhEligible e2) sl = stored (PhEligible e1) sl).
  { intros sl Hsl. unfold e1. destruct (decide (sl = SlPhase id)) as [->|Hd].
    - rewrite stored_put_phase. cbn. by rewrite lookup_delete_eq.
    - rewrite stored_put_other by done.
      destruct sl; try done; cbn; rewrite lookup_delete_ne by congruence; done. }
  assert (Hti2 : timers_ok (PhEligible e2)
    (cancel_slot (frame_timer c) (cancel_slot (phase_timer c) (tokens s)))).
  { assert (Hfr : stored (PhEligible e1) (SlChildFrame id) = frame_timer c)
      by (unfold e1; by rewrite stored_put_frame).
    rewrite <- Hfr. apply (timers_ok_cancel (PhEligible e1)); try done.
    cbn. by rewrite lookup_delete_eq. }
  assert (Hnext : next_token (cancel_slot (frame_timer c) (cancel_slot (phase_timer c)
    (tokens s))) = next s) by (by destruct (frame_timer c), (phase_timer c)).
  assert (Htick : forall t, timers (tokens s) !! t = Some TLeaseTick ->
    timers (cancel_slot (frame_timer c) (cancel_slot (phase_timer c) (tokens s))) !! t
      = Some TLeaseTick).
  { intros t Ht.
    assert (Hne : forall sl t', stored (PhEligible e) sl = Some t' -> sl <> SlTick -> t' <> t).
    { intros sl t' Hst Hsl ->. destruct (tk_stored _ _ Hti _ _ Hst) as [_ Ha].
      specialize (Ha _ Ht). by apply Hsl. }
    assert (Hp : forall t', phase_timer c = Some t' -> t' <> t)
      by (intros t' Ht'; apply (Hne (SlPhase id)); [by rewrite (stored_child_phase id c)|done]).
    assert (Hf : forall t', frame_timer c = Some t' -> t' <> t)
      by (intros t' Ht'; apply (Hne (SlChildFrame id)); [by rewrite (stored_child_frame id c)|done]).
    destruct (frame_timer c), (phase_timer c); cbn; rewrite ?lookup_delete_ne by auto; done. }
  split.
  - split; cbn; [done|]. destruct Hph as (Htk & Hms & Hls & Hti' & Hall).
    refine (conj Htk (conj Hms (conj _ (conj _ _)))).
    + cbn. apply lookup_delete_None. by right.
    + rewrite Hnext. intros Hlt. destruct (Hti' Hlt) as (t & ? & ?). eauto.
    + by apply map_Forall_delete.
  - unfold next at 2. cbn. by rewrite Hnext.
  - cbn. rewrite Hl, fmap_delete, Hm, Hnt. split_and!; [|constructor|constructor].
    apply (life_session_end _ _ _ (child_handed_off c)); try done.
  - done.
Qed.
End AtChild.

Section Ends.
Context `{Snow}.
Implicit Types (s : TargetTransport) (c : Child).

Lemma child_core_error_post s0 nt m s id c err :
  lifecycle (phase s0) = SLive nt m -> at_child s0 nt m s id c -> 0 <= applications c ->
  step_post s0 (Ok (fst (child_core_error id err s))) (snd (child_core_error id err s)).
Proof.
  intros Hl Hat Happ. unfold child_core_error. cbn [take_close_frame fst].
  destruct (close_frame err) as [frame|]; [|by eapply child_terminal_post].
  pose proof Hat as [Hi Hn (e & He & Hc & Hm & Hnt)]. rewrite He, Hc.
  pose proof (inv_timers _ Hi) as Hti. unfold on_tokens.
  destruct (allocate_spec (tokens s) (tk_next _ _ Hti)) as [[Hlt Ha]|[_ Ha]]; rewrite Ha.
  2:{ replace (tt_with_tokens (tokens s) s) with s by (by destruct s).
      by eapply child_terminal_post. }
  cbn [phase tt_with_tokens]. rewrite He, Hc. cbn [fst snd].
  set (k := mkTokens _ _). set (p := TerminalPending _ _).
  assert (Hat1 : at_child s0 nt m (tt_with_tokens k s) id c).
  { apply at_child_tokens; cbn; try done; [lia|by apply timers_ok_allocate]. }
  destruct (at_child_put s0 nt m _ id c (c_with_phase p c) Hat1) as (Hat2 & _ & _); try done.
  unfold put_child in Hat2. cbn [phase tt_with_tokens] in Hat2. rewrite He in Hat2. cbn [snd] in Hat2.
  change (child_handed_off (c_with_phase p c)) with (child_handed_off c) in Hat2.
  rewrite insert_id in Hat2 by (by eapply at_child_lookup).
  assert (Hpos : 1 <= next_token (tokens s)) by apply Hti.
  eapply step_io; try done; cbn.
  - by left.
  - constructor; [unfold next in *; cbn; lia|constructor].
  - apply NoDup_singleton.
Qed.

Lemma any_handed_spec (cs : gmap Z Child) :
  existsb (fun kc => child_handed_off (snd kc)) (map_to_list cs)
    = any_handed (child_handed_off <$> cs).
Proof.
  apply eq_true_iff_eq. unfold any_handed. rewrite existsb_exists, bool_decide_eq_true. split.
  - intros ([id c] & Hin & Hh). apply list_elem_of_In, elem_of_map_to_list in Hin.
    exists id, true. split; [|done]. cbn in Hh. by rewrite lookup_fmap, Hin, <- Hh.
  - intros (id & b & Hb & ->). rewrite lookup_fmap in Hb.
    destruct (cs !! id) as [c|] eqn:Hc; [|done]. injection Hb as Hb.
    exists (id, c). split; [|done]. by apply list_elem_of_In, elem_of_map_to_list.
Qed.

Lemma lease_handoff_spec (p : Phase) : live p -> lease_handoff p = lease_evidence (lifecycle p).
Proof. destruct p; try done. intros _. cbn. rewrite any_handed_spec. by destruct (any_handed _). Qed.

Lemma lease_terminal_post s0 s r peer :
  1 <= next s <= U64_MAX -> next s0 <= next s -> live (phase s0) ->
  lease_handoff (phase s) = lease_evidence (lifecycle (phase s0)) ->
  step_post s0 (Ok (fst (lease_terminal r peer s))) (snd (lease_terminal r peer s)).
Proof.
  intros Hn Hle Hlive Hh. unfold lease_terminal. cbn [fst snd]. split.
  - split; [|done]. split; cbn; [done| |done]. intros t a. by rewrite lookup_empty.
  - done.
  - cbn. split_and!; [|constructor|constructor]. apply life_lease_end; [|done|exact Hh].
    by destruct (phase s0).
  - done.
Qed.

(** Ending the lease from a state that still has its sessions. *)
Lemma lease_terminal_at s0 s r peer :
  1 <= next s <= U64_MAX -> next s0 <= next s -> live (phase s0) -> live (phase s) ->
  lifecycle (phase s) = lifecycle (phase s0) ->
  step_post s0 (Ok (fst (lease_terminal r peer s))) (snd (lease_terminal r peer s)).
Proof. intros ? ? ? Hs Hl. apply lease_terminal_post; try done. by rewrite lease_handoff_spec, Hl. Qed.

(** Cancelling the phase timer of a child. *)
Lemma child_timer_cancelled id c (e : Eligible) k :
  timers_ok (PhEligible e) k -> phase_ok (PhEligible e) k -> children e !! id = Some c ->
  let e1 := e_put_child id (c_with_phase_timer None c) e in
  timers_ok (PhEligible e1) (cancel_slot (phase_timer c) k) /\
  phase_ok (PhEligible e1) (cancel_slot (phase_timer c) k) /\
  next_token (cancel_slot (phase_timer c) k) = next_token k.
Proof.
  intros Hti Hph Hc e1.
  assert (Hnext : next_token (cancel_slot (phase_timer c) k) = next_token k)
    by (by destruct (phase_timer c)).
  split_and!; [| |done].
  - rewrite <- (stored_child_phase id c e Hc). apply (timers_ok_cancel (PhEligible e)); try done.
    + intros sl Hsl. unfold e1. destruct (decide (sl = SlChildFrame id)) as [->|Hd].
      * by rewrite stored_put_frame, (stored_child_frame id c).
      * by apply stored_put_other.
    + unfold e1. by rewrite stored_put_phase.
  - apply (phase_ok_put id c _ e k); try done; try lia.
    + destruct Hph as (_ & _ & _ & _ & Hall). apply (Hall id c Hc).
    + intros t Ht. destruct (phase_timer c) as [t'|] eqn:Hp; [|done]. cbn.
      rewrite lookup_delete_ne; [done|]. intros ->.
      assert (Hst : stored (PhEligible e) (SlPhase id) = Some t) by (by rewrite (stored_child_phase id c)).
      destruct (tk_stored _ _ Hti _ _ Hst) as [_ Hx]. by specialize (Hx _ Ht).
Qed.

(** Replacing the phase timer of a child, over the eligible state and the tokens. *)
Lemma replace_child_timer_spec id c a (e : Eligible) k :
  timers_ok (PhEligible e) k -> phase_ok (PhEligible e) k -> children e !! id = Some c ->
  slot_of a = SlPhase id ->
  match replace_child_timer id a (e, k) with
  | (Ok t, (e', k')) =>
      t = next_token k /\ next_token k' = t + 1 /\ next_token k < U64_MAX /\
      e' = e_put_child id (c_with_phase_timer (Some t) c)
             (e_put_child id (c_with_phase_timer None c) e) /\
      timers_ok (PhEligible e') k' /\ phase_ok (PhEligible e') k'
  | (Err err, (e', k')) =>
      err = Internal /\ e' = e_put_child id (c_with_phase_timer None c) e /\
      next_token k' = next_token k /\
      timers_ok (PhEligible e') k' /\ phase_ok (PhEligible e') k'
  end.
Proof.
  intros Hti Hph Hc Ha. unfold replace_child_timer. rewrite Hc.
  destruct (child_timer_cancelled id c e k Hti Hph Hc) as (Hti1 & Hph1 & Hnext).
  set (e1 := e_put_child id (c_with_phase_timer None c) e) in *.
  assert (Happ : 0 <= applications c) by (destruct Hph as (_ & _ & _ & _ & Hall); apply (Hall id c Hc)).
  destruct (schedule_spec a (cancel_slot (phase_timer c) k)) as [[Hlt Hs]|[Hlt Hs]];
    [apply Hti1| |]; rewrite Hs; cbv zeta.
  - split_and!; try done; try (cbn; rewrite Hnext; done); try lia.
    + apply (timers_ok_schedule (PhEligible e1)); try done; rewrite ?Ha.
      * intros sl Hsl. destruct (decide (sl = SlChildFrame id)) as [->|Hd].
        -- rewrite stored_put_frame. unfold e1. by rewrite stored_put_frame.
        -- by apply stored_put_other.
      * unfold e1. by rewrite stored_put_phase.
      * rewrite stored_put_phase. by rewrite decide_False.
      * done.
    + apply (phase_ok_put id (c_with_phase_timer None c) _ e1 (cancel_slot (phase_timer c) k));
        try done; [by cbn; rewrite lookup_insert_eq|cbn; lia|].
      intros t Ht. cbn. rewrite lookup_insert_ne; [done|].
      destruct (tk_held _ _ Hti1 _ _ Ht). lia.
  - by split_and!.
Qed.

Lemma at_child_replaced s0 nt m s id c (e e' : Eligible) k' t :
  at_child s0 nt m s id c -> phase s = PhEligible e ->
  (e' = e_put_child id (c_with_phase_timer t c) e \/
   e' = e_put_child id (c_with_phase_timer t c) (e_put_child id (c_with_phase_timer None c) e)) ->
  timers_ok (PhEligible e') k' -> phase_ok (PhEligible e') k' -> next s <= next_token k' ->
  at_child s0 nt m (tt_with_phase (PhEligible e') (tt_with_tokens k' s)) id (c_with_phase_timer t c).
Proof.
  intros Hat He He' Hti Hph Hn. pose proof (at_child_lookup _ _ _ _ _ _ Hat) as Hmid.
  destruct Hat as [_ Hle (e2 & He2 & Hc & Hm & Hnt)]. rewrite He in He2. injection He2 as <-.
  split; [by split|unfold next in *; cbn; lia|]. exists e'. split_and!; [done| | |by destruct He' as [-> | ->]].
  - destruct He' as [-> | ->]; cbn; by rewrite lookup_insert_eq.
  - destruct He' as [-> | ->]; cbn; rewrite ?insert_insert_eq, fmap_insert, Hm; by apply insert_id.
Qed.

Lemma wp_replace s0 nt m s id c a (Q : Z -> TargetTransport -> Prop) E :
  at_child s0 nt m s id c -> slot_of a = SlPhase id ->
  (forall s', at_child s0 nt m s' id (c_with_phase_timer (Some (next s)) c) ->
     next s' = next s + 1 -> Q (next s) s') ->
  (forall s', at_child s0 nt m s' id (c_with_phase_timer None c) -> E Internal s') ->
  wp (in_eligible (replace_child_timer id a)) s Q E.
Proof.
  intros Hat Ha HQ HE. pose proof Hat as [[Hti Hph] _ (e & He & Hc & _)].
  rewrite He in Hti, Hph.
  pose proof (replace_child_timer_spec id c a e (tokens s) Hti Hph Hc Ha) as Hspec.
  unfold wp, in_eligible, mbind_M, get_eligible. rewrite He.
  destruct (replace_child_timer id a (e, tokens s)) as [[t|err] [e' k']].
  - destruct Hspec as (-> & Hk & _ & He' & Hti' & Hph'). apply HQ; [|done].
    apply (at_child_replaced s0 nt m s id c e); auto. unfold next. lia.
  - destruct Hspec as (-> & He' & Hk & Hti' & Hph'). apply HE.
    apply (at_child_replaced s0 nt m s id c e); auto. unfold next. lia.
Qed.
End Ends.
