(* ===== verification/Drive.v ===== *)
(** Every handler of the supervisor keeps its invariant and takes one step of the lifecycle
    ([Supervision]), and so does [drive]. *)

From stdpp Require Import gmap.
From S2P Require Import Prelude Errors Crates CratesRef Cbor Outer Records Payloads Reassembly NoiseIO Lease Bootstrap Session Descriptor Supervisor Supervision.

(** ** A handler between two of its writes *)

Section Still.
Context `{Snow}.
Implicit Types (s : TargetTransport) (c : Child).

(** Nothing a host can see has happened since [s0]. *)
Record still s0 s : Prop := {
  qt_inv : tt_inv s;
  qt_next : next s0 <= next s;
  qt_life : lifecycle (phase s) = lifecycle (phase s0)
}.

Lemma still_refl s : tt_inv s -> still s s.
Proof. by split. Qed.

Lemma still_err s0 s e : still s0 s -> step_post s0 (Err e) s.
Proof. intros [Hi Hn Hl]. split; [done|done| |done]. rewrite Hl. constructor. Qed.

Lemma still_live s0 s : still s0 s -> live (phase s) -> live (phase s0).
Proof. intros [_ _ Hl]. by destruct (phase s), (phase s0). Qed.

Lemma still_lease_terminal s0 s r peer :
  still s0 s -> live (phase s) ->
  step_post s0 (Ok (fst (lease_terminal r peer s))) (snd (lease_terminal r peer s)).
Proof.
  intros Hq Hlive. pose proof (still_live _ _ Hq Hlive) as Hl0. destruct Hq as [[Hti _] Hn Hl].
  apply lease_terminal_at; try done. apply Hti.
Qed.

Lemma still_io s0 s o :
  still s0 s -> live (phase s) -> io o ->
  Forall (fun t => next s0 <= t < next s) (issued o) -> NoDup (issued o) ->
  step_post s0 (Ok o) s.
Proof.
  intros Hq Hlive Ho Hf Hd. pose proof (still_live _ _ Hq Hlive) as Hl0.
  destruct Hq as [Hi Hn Hl]. split; [done|done| |by destruct (phase s)].
  split_and!; try done. rewrite Hl.
  destruct (phase s0); try done; cbn; by constructor.
Qed.

Lemma still_child s0 s id c (e : Eligible) :
  still s0 s -> phase s = PhEligible e -> children e !! id = Some c ->
  exists nt m, lifecycle (phase s0) = SLive nt m /\ at_child s0 nt m s id c.
Proof.
  intros [Hi Hn Hl] He Hc. exists (lease_ticks e), (child_handed_off <$> children e). split.
  - by rewrite <- Hl, He.
  - split; [done|done|]. by exists e.
Qed.

Lemma at_child_still s0 nt m s id c :
  lifecycle (phase s0) = SLive nt m -> at_child s0 nt m s id c -> still s0 s.
Proof. intros Hl [Hi Hn (e & He & _ & Hm & Hnt)]. split; [done|done|]. rewrite Hl, He. cbn. by rewrite Hm, Hnt. Qed.

Lemma at_child_apps s0 nt m s id c : at_child s0 nt m s id c -> 0 <= applications c.
Proof.
  intros [[_ Hph] _ (e & He & Hc & _)]. rewrite He in Hph.
  destruct Hph as (_ & _ & _ & _ & Hall). by apply (Hall id c).
Qed.

(** A change of the phase that keeps what the invariant speaks of. *)
Lemma still_phase s0 s p :
  still s0 s -> live (phase s) -> (forall sl, stored p sl = stored (phase s) sl) ->
  (bootstrapping (phase s) -> bootstrapping p) -> lifecycle p = lifecycle (phase s) ->
  phase_ok p (tokens s) -> still s0 (tt_with_phase p s).
Proof.
  intros [[Hti Hph] Hn Hl] Hlive Hs Hb Hlife Hok. split; [|done|by cbn; rewrite Hlife].
  split; cbn; [|done]. by apply (timers_ok_keep (phase s)).
Qed.

Lemma good_throw s0 s err : still s0 s -> good (throw err) s0 s.
Proof. intros Hq. by apply still_err. Qed.

Lemma good_ensure b err (k : TM Outcome) s0 s :
  still s0 s -> good k s0 s -> good (mbind_M (lift (ensure b err)) (fun _ => k)) s0 s.
Proof. intros Hq Hk. apply wp_bind, wp_ensure; [done|]. intros _. by apply still_err. Qed.

Lemma good_or_lease {A} (r : Res A) k s0 s :
  still s0 s -> live (phase s) -> (forall a, r = Ok a -> good (k a) s0 s) ->
  good (or_lease r k) s0 s.
Proof.
  intros Hq Hlive Hk. destruct r as [a|e]; [by apply Hk|]. apply wp_answer.
  by apply still_lease_terminal.
Qed.

Lemma good_or_child {A} (r : Res A) k s0 nt m s id c :
  lifecycle (phase s0) = SLive nt m -> at_child s0 nt m s id c ->
  (forall a, r = Ok a -> good (k a) s0 s) -> good (or_child id r k) s0 s.
Proof.
  intros Hl Hat Hk. destruct r as [a|e]; [by apply Hk|]. apply wp_answer.
  eapply child_core_error_post; [done|done|by eapply at_child_apps].
Qed.

Lemma good_child_terminal s0 nt m s id c r peer :
  lifecycle (phase s0) = SLive nt m -> at_child s0 nt m s id c ->
  good (answer (child_terminal id r peer)) s0 s.
Proof. intros Hl Hat. apply wp_answer. by eapply child_terminal_post. Qed.

(** An outcome that hands out a new write token and perhaps a frame timer. *)
Lemma issued_frame_write s0 s w id b fd :
  1 <= next s0 -> fresh_in s0 s fd -> next s0 <= next s ->
  w = next s ->
  Forall (fun t => next s0 <= t < next s + 1) (issued (o_frame_deadline fd (o_write id w b))) /\
  NoDup (issued (o_frame_deadline fd (o_write id w b))).
Proof.
  intros Hpos Hf Hn ->. rewrite issued_write by lia. destruct fd as [t|]; cbn in *.
  - split; [repeat constructor; lia|]. apply NoDup_cons. split; [|apply NoDup_singleton].
    rewrite list_elem_of_singleton. lia.
  - split; [repeat constructor; lia|apply NoDup_singleton].
Qed.
Lemma issued_frame_input s0 s id fd :
  fresh_in s0 s fd ->
  Forall (fun t => next s0 <= t < next s) (issued (o_frame_deadline fd (o_need_input id))) /\
  NoDup (issued (o_frame_deadline fd (o_need_input id))).
Proof.
  intros Hf. rewrite issued_need_input. destruct fd; cbn in *.
  - split; [repeat constructor; lia|apply NoDup_singleton].
  - split; constructor.
Qed.
End Still.

(** ** The sessions *)

Section Sessions.
Context `{Minicbor} `{Snow}.
Implicit Types (s : TargetTransport) (c : Child).

(** A message for the application: the session is handed off from now on. *)
Lemma step_application s0 nt m s id c o :
  lifecycle (phase s0) = SLive nt m -> is_Some (m !! id) ->
  at_child s0 nt (<[id := true]> m) s id c ->
  o_kind o = OutApplication -> o_stream o = id -> o_handoff o = HandoffPossibleOrConfirmed ->
  Forall (fun t => next s0 <= t < next s) (issued o) -> NoDup (issued o) ->
  step_post s0 (Ok o) s.
Proof.
  intros Hl [b Hb] [Hi Hn (e & He & _ & Hm & Hnt)] Hk Hs Hh Hf Hd. split; [done|done| |by rewrite He].
  split_and!; try done. rewrite Hl, He. cbn. rewrite Hm, Hnt. by eapply life_application.
Qed.

Lemma step_counted s0 nt m s id c :
  lifecycle (phase s0) = SLive nt m -> is_Some (m !! id) ->
  at_child s0 nt (<[id := true]> m) s id c -> step_post s0 (Err Internal) s.
Proof.
  intros Hl [b Hb] [Hi Hn (e & He & _ & Hm & Hnt)]. split; [done|done| |done]. rewrite Hl, He. cbn.
  rewrite Hm, Hnt. by eapply err_counted.
Qed.

Lemma wp_cancel_phase s0 nt m s id c (k : TM Outcome) (Q : Outcome -> TargetTransport -> Prop) E :
  at_child s0 nt m s id c ->
  (forall s', at_child s0 nt m s' id (c_with_phase_timer None c) -> next s' = next s -> wp k s' Q E) ->
  wp (run put_child id (c_with_phase_timer None c);
      run on_tokens (modify (cancel_slot (phase_timer c))); k) s Q E.
Proof.
  intros Hat Hk. pose proof Hat as [[Hti Hph] Hn (e & He & Hc & Hm & Hnt)]. rewrite He in Hti, Hph.
  destruct (child_timer_cancelled id c e _ Hti Hph Hc) as (Hti' & Hph' & Hnx).
  apply wp_bind. unfold wp, put_child. rewrite He. apply wp_bind.
  unfold wp, on_tokens, modify. cbn [tokens tt_with_phase].
  apply Hk; [|exact Hnx].
  pose proof (at_child_replaced s0 nt m s id c e _ (cancel_slot (phase_timer c) (tokens s)) None
    Hat He (or_introl eq_refl) Hti' Hph') as Hgoal. apply Hgoal. unfold next. lia.
Qed.

Lemma good_after_applications s0 nt m s id c fd r :
  lifecycle (phase s0) = SLive nt m -> at_child s0 nt m s id c -> fresh_in s0 s fd ->
  good (after_applications id fd r) s0 s.
Proof.
  intros Hl Hat Hf. pose proof (at_child_apps _ _ _ _ _ _ Hat) as Happ.
  destruct r as [[[b|]|[e|]] session]; cbn [after_applications].
  2:{ apply wp_bind. eapply wp_get_child; [done|]. apply wp_bind.
      eapply wp_put; try done. intros s' Hat' Hn.
      destruct (issued_frame_input s0 s' id fd); [destruct fd; cbn in *; [by rewrite Hn|done]|].
      eapply step_io; try done. apply io_frame_deadline. by right. }
  2:{ apply wp_answer. eapply child_core_error_post; done. }
  2:{ by eapply good_child_terminal. }
  apply wp_bind. eapply wp_get_child; [done|]. apply wp_bind, wp_lift.
  2:{ intros e He. destruct (checked_add (applications c) 1); [done|]. injection He as <-.
      by eapply still_err, at_child_still. }
  intros n Hn. destruct (checked_add (applications c) 1) as [n'|] eqn:Hadd; [|done].
  injection Hn as ->. apply checked_add_some in Hadd as [-> Hadd].
  set (c1 := c_with_phase (AwaitRuntime session) (c_with_applications (applications c + 1) c)).
  destruct (at_child_put s0 nt m s id c c1 Hat) as (Hat1 & Hok & Hn1); try done.
  { cbn. lia. }
  assert (Hm : is_Some (m !! id)) by (rewrite (at_child_lookup _ _ _ _ _ _ Hat); eauto).
  replace (child_handed_off c1) with true in Hat1
    by (symmetry; unfold child_handed_off; apply Z.ltb_lt; cbn; lia).
  apply wp_bind. unfold wp. destruct (put_child id c1 s) as [r s1]. cbn [fst snd] in *. subst r.
  destruct fd as [t|]; cbn in Hf.
  - eapply wp_cancel_phase; [done|]. intros s2 Hat2 Hn2.
    eapply step_application; try done; cbn.
    + repeat constructor; lia.
    + apply NoDup_singleton.
  - apply wp_bind. eapply wp_replace; [done|done| |].
    + intros s2 Hat2 Hn2. pose proof (ac_next _ _ _ _ _ _ Hat1).
      eapply step_application; try done; cbn.
      * repeat constructor; lia.
      * apply NoDup_singleton.
    + intros s2 Hat2. by eapply step_counted.
Qed.

Lemma step_child_write s0 nt m s s' id c fd w b :
  lifecycle (phase s0) = SLive nt m -> at_child s0 nt m s' id c -> 1 <= next s0 ->
  next s0 <= next s -> fresh_in s0 s fd -> w = next s -> next s' = next s + 1 ->
  step_post s0 (Ok (o_frame_deadline fd (o_write id w b))) s'.
Proof.
  intros Hl Hat Hpos Hn Hf Hw Hn'.
  destruct (issued_frame_write s0 s w id b fd) as [HF Hd]; try done.
  eapply step_io; try done; [apply io_frame_deadline; by left|]. by rewrite Hn'.
Qed.

Lemma good_session_bytes s0 nt m s id c ev :
  1 <= next s0 -> lifecycle (phase s0) = SLive nt m -> at_child s0 nt m s id c -> ev_stream ev = id ->
  good (session_bytes ev) s0 s.
Proof.
  intros Hpos Hl Hat Hid. unfold session_bytes. rewrite Hid. apply wp_bind. eapply wp_get_child; [done|].
  destruct (push (ev_bytes ev) (c_decoder c)) as [frames decoder].
  apply wp_bind. eapply wp_put; try done; [cbn; by eapply at_child_apps|].
  intros s' Hat' _. clear s Hat. rename s' into s, Hat' into Hat.
  eapply good_or_child; try done. intros frames' _.
  clear frames. rename frames' into frames. apply wp_bind.
  eapply (wp_frame_timer s0 nt m s id (c_with_decoder decoder c)); [done| |].
  2:{ intros s' Hat'. by eapply step_quiet_err. }
  intros ft fd s1 Hfr. apply wp_bind. eapply wp_put_framed; [exact Hfr|].
  intros s2 Hat2 Hf2. clear s1 Hfr s Hat. pose proof (ac_next _ _ _ _ _ _ Hat2) as Hn2.
  destruct frames as [|frame rest].
  { destruct (issued_frame_input s0 s2 id fd Hf2). eapply step_io; try done.
    apply io_frame_deadline. by right. }
  pose proof (at_child_apps _ _ _ _ _ _ Hat2) as Happ.
  change (c_phase (c_with_frame_timer ft (c_with_decoder decoder c))) with (c_phase c).
  destruct (c_phase c); try (by eapply step_quiet_err).
  - apply wp_bind. eapply wp_put; try done. intros s3 Hat3 Hn3.
    destruct (negb (is_empty rest)); [by eapply good_child_terminal|].
    destruct (t_read_m2 frame session) as [r session1]. eapply good_or_child; try done.
    intros _ _. destruct (t_write_finished session1) as [fin session2].
    eapply good_or_child; try done. intros b _. apply wp_bind.
    eapply wp_allocate; [done| |].
    2:{ intros s4 Hat4. by eapply step_quiet_err. }
    intros s4 Hat4 Hn4. apply wp_bind. eapply wp_put; try done. intros s5 Hat5 Hn5.
    eapply (step_child_write s0 nt m s3 s5); try done; rewrite ?Hn5, ?Hn4, ?Hn3; try done.
    unfold fresh_in in *. by rewrite Hn3.
  - apply wp_bind. eapply wp_put; try done. intros s3 Hat3 Hn3.
    destruct (t_read_finished frame session) as [r session1]. eapply good_or_child; try done.
    intros _ _. eapply good_after_applications; try done. unfold fresh_in in *. by rewrite Hn3.
  - apply wp_bind. eapply wp_put; try done. intros s3 Hat3 Hn3.
    eapply good_after_applications; try done. unfold fresh_in in *. by rewrite Hn3.
Qed.

Lemma good_runtime_response s ev : tt_inv s -> good (runtime_response ev) s s.
Proof.
  intros Hi. pose proof (still_refl _ Hi) as Hq. pose proof (tk_next _ _ (inv_timers _ Hi)) as Hpos.
  apply good_ensure; [done|]. apply wp_bind. unfold get_child. apply wp_bind.
  unfold wp, get_eligible. destruct (phase s) as [| | | |e|] eqn:He; try by apply still_err.
  unfold lift. destruct (children e !! ev_stream ev) as [c|] eqn:Hc; [|by apply still_err].
  destruct (still_child s s _ _ _ Hq He Hc) as (nt & m & Hl & Hat). cbn [res_of_option].
  pose proof (at_child_apps _ _ _ _ _ _ Hat) as Happ.
  destruct (c_phase c); try (by apply still_err).
  apply wp_bind. eapply wp_put; try done. intros s1 Hat1 Hn1.
  destruct (t_write_application_response (ev_bytes ev) session) as [r session'].
  eapply good_or_child; try done. intros parts _. apply wp_bind. eapply wp_allocate; [done| |].
  2:{ intros s2 Hat2. by eapply step_quiet_err. }
  intros s2 Hat2 Hn2. apply wp_bind. eapply wp_put; try done. intros s3 Hat3 Hn3.
  eapply (step_child_write s nt m s1 s3 _ _ None); try done; unfold next in *; lia.
Qed.

(** *** A new session *)

Lemma still_tokens s0 s k :
  still s0 s -> next s <= next_token k -> timers_ok (phase s) k ->
  (forall t a, a = TLeaseTick \/ a = TBootstrap -> timers (tokens s) !! t = Some a ->
     timers k !! t = Some a) ->
  still s0 (tt_with_tokens k s).
Proof.
  intros [[Hti Hph] Hn Hl] Hle Hok Ht. unfold next in *. split; [|unfold next; cbn; lia|done].
  split; cbn; [done|].
  destruct (phase s) as [| | | |e|]; try done; try (intros Hlt; destruct Hph as [t ?]; [lia|]; eauto).
  destruct Hph as (H1 & H2 & H3 & Htick & H4). split_and!; try done; try lia.
  intros Hlt. destruct Htick as (t & ? & ?); [lia|]. eauto.
Qed.

Lemma wp_allocate_still s0 s (Q : Z -> TargetTransport -> Prop) E :
  still s0 s ->
  (forall s', still s0 s' -> next s' = next s + 1 -> phase s' = phase s -> Q (next s) s') ->
  (forall s', still s0 s' -> E Internal s') ->
  wp (on_tokens allocate_token) s Q E.
Proof.
  intros Hq HQ HE. pose proof (inv_timers _ (qt_inv _ _ Hq)) as Hti.
  destruct (allocate_spec (tokens s) (tk_next _ _ Hti)) as [[Hlt Ha]|[Hlt Ha]];
    apply wp_on_tokens; rewrite Ha; intros ? ? [= <- <-].
  - apply HQ; [|done|done]. apply still_tokens; cbn; try done; [unfold next; lia|].
    by apply timers_ok_allocate.
  - by apply HE; destruct s.
Qed.

Lemma session_accepted_post s0 s id c0 (e : Eligible) b :
  still s0 s -> phase s = PhEligible e -> id <> lease_stream e -> children e !! id = None ->
  applications c0 = 0 -> phase_timer c0 = Some (next s) -> frame_timer c0 = None ->
  next s0 < next s < U64_MAX -> 1 <= next s0 ->
  let k := mkTokens (next s + 1) (<[next s := TSessionPhase id]> (timers (tokens s))) in
  step_post s0
    (Ok (o_deadline (next s) SESSION_HANDSHAKE_DEADLINE_MS (o_write id (next s0) b)))
    (tt_with_phase (PhEligible (e_put_child id c0 e)) (tt_with_tokens k s)).
Proof.
  intros [[Hti Hph] Hn Hl] He Hid Hnone Ha Hpt Hft Hlt Hpos k.
  rewrite He in Hti, Hph, Hl.
  split; [|cbn; unfold next in *; cbn; lia| |done].
  - split; cbn [phase tokens tt_with_phase tt_with_tokens].
    + apply (timers_ok_schedule (PhEligible e)); try done; cbn [slot_of].
      * intros sl Hsl. destruct (decide (sl = SlChildFrame id)) as [->|Hd].
        -- rewrite stored_put_frame, Hft. cbn. by rewrite Hnone.
        -- by apply stored_put_other.
      * cbn. by rewrite Hnone.
      * rewrite stored_put_phase, Hpt. by rewrite decide_False.
      * unfold next in *. lia.
    + destruct Hph as (H1 & H2 & H3 & Htick & H4). split_and!; try apply H1; try apply H2.
      * cbn. by rewrite lookup_insert_ne.
      * cbn. intros Hlt'. destruct Htick as (t & Ht & Hta); [unfold next in *; lia|].
        exists t. split; [done|]. rewrite lookup_insert_ne; [done|].
        destruct (tk_held _ _ Hti _ _ Hta). unfold next. lia.
      * apply map_Forall_insert_2; [lia|exact H4].
  - rewrite issued_write_deadline by lia. cbn [phase tt_with_phase lifecycle e_put_child children
      e_with_children]. rewrite <- Hl. cbn [lifecycle]. rewrite fmap_insert. split_and!.
    + replace (child_handed_off c0) with false
        by (unfold child_handed_off; rewrite Ha; done).
      apply life_accept; [| |by rewrite lookup_fmap, Hnone];
        unfold o_deadline; cbn; by destruct (_ =? _).
    + repeat constructor; unfold next in *; cbn; lia.
    + apply NoDup_cons. split; [|apply NoDup_singleton]. rewrite list_elem_of_singleton. lia.
Qed.

Lemma good_session_accepted entropy ev s : tt_inv s -> good (session_accepted entropy ev) s s.
Proof.
  intros Hi. pose proof (still_refl _ Hi) as Hq. pose proof (tk_next _ _ (inv_timers _ Hi)) as Hpos.
  apply good_ensure; [done|]. apply wp_bind. unfold wp, get_eligible.
  destruct (phase s) as [| | | |e|] eqn:He; try by apply still_err.
  apply wp_bind, wp_ensure; intros Hfree; [|by apply still_err].
  apply negb_true_iff, orb_false_iff in Hfree as [Hls Hnone].
  apply Z.eqb_neq in Hls. destruct (children e !! ev_stream ev) eqn:Hc; [done|].
  apply wp_bind, wp_lift; [|intros; by apply still_err]. intros session _.
  destruct (t_write_m1 session) as [frames session'].
  apply wp_bind, wp_lift; [|intros; by apply still_err]. intros b _.
  apply wp_bind, wp_allocate_still with (s0 := s); [done| |intros; by apply still_err].
  intros s1 Hq1 Hn1 Hp1. rewrite He in Hp1.
  destruct (schedule_spec (TSessionPhase (ev_stream ev)) (tokens s1)) as [[Hlt Hs]|[Hlt Hs]];
    [apply (tk_next _ _ (inv_timers _ (qt_inv _ _ Hq1)))| |].
  2:{ apply wp_bind, wp_on_tokens; rewrite Hs; intros ? ? [= <- <-]. apply still_err.
      by destruct s1. }
  apply wp_bind, wp_on_tokens; rewrite Hs; intros ? ? [= <- <-].
  apply wp_bind. unfold wp, put_child. cbn [phase tt_with_tokens]. rewrite Hp1.
  apply session_accepted_post; try done; unfold next in *; lia.
Qed.

(** *** A committed write of a session *)

Lemma tt_phase_back s p : tt_with_phase (phase s) (tt_with_phase p s) = s.
Proof. by destruct s. Qed.

(** What [commit_child_write] answers, with the eligible state back in place. *)
Definition committed (id token : Z) (e : Eligible) : TM Outcome := fun s =>
  let '(r, (s', e')) := commit_child_write id token (tt_with_phase (PhTerminal Terminal_internal) s, e) in
  (r, tt_with_phase (PhEligible e') s').

Lemma step_child_input s0 nt m s id c : 
  lifecycle (phase s0) = SLive nt m -> at_child s0 nt m s id c -> step_post s0 (Ok (o_need_input id)) s.
Proof. intros Hl Hat. eapply step_io; try done; [by right|cbn; constructor..]. Qed.

Lemma good_committed id token (e : Eligible) s :
  tt_inv s -> phase s = PhEligible e -> good (committed id token e) s s.
Proof.
  intros Hi He. pose proof (still_refl _ Hi) as Hq.
  assert (Hback : tt_with_phase (PhEligible e) (tt_with_phase (PhTerminal Terminal_internal) s) = s)
    by (rewrite <- He; apply tt_phase_back).
  unfold good, wp, committed, commit_child_write.
  destruct (children e !! id) as [c|] eqn:Hc; [|rewrite Hback; by apply still_err].
  destruct (still_child s s _ _ _ Hq He Hc) as (nt & m & Hl & Hat).
  assert (Hput : forall p, at_child s nt m (tt_with_phase (PhEligible
    (e_put_child id (c_with_phase p c) e)) s) id (c_with_phase p c)).
  { intros p. destruct (at_child_put s nt m s id c (c_with_phase p c) Hat) as (Hat1 & _ & _); try done.
    { cbn. by eapply at_child_apps. }
    unfold put_child in Hat1. rewrite He in Hat1. cbn [snd] in Hat1.
    change (child_handed_off (c_with_phase p c)) with (child_handed_off c) in Hat1.
    rewrite insert_id in Hat1; [done|]. by eapply at_child_lookup. }
  destruct (c_phase c); try (rewrite Hback; by apply still_err);
    (destruct (write_token =? token); [|rewrite Hback; by apply still_err]).
  - eapply step_child_input; [done|apply Hput].
  - eapply step_child_input; [done|apply Hput].
  - specialize (Hput (AwaitApplication session)).
    pose proof (wp_replace s nt m _ id _ (TSessionIdle id)
      (fun t s' => step_post s (Ok (o_deadline t SESSION_IDLE_DEADLINE_MS (o_need_input id))) s')
      (fun err s' => step_post s (Err err) s') Hput eq_refl) as Hr.
    unfold reset_child_phase_timer, mbind_M, ret.
    unfold wp, in_eligible, mbind_M, get_eligible in Hr. cbn [phase tokens tt_with_phase] in Hr |- *.
    destruct (replace_child_timer id _ _) as [[t|err] [e' k']]; apply Hr.
    + intros s1 Hat1 Hn1. pose proof (tk_next _ _ (inv_timers _ Hi)).
      eapply step_io; try done; [by right| |apply NoDup_singleton].
      repeat constructor; unfold next in *; cbn in *; lia.
    + intros s1 Hat1. by eapply step_quiet_err.
    + intros s1 Hat1 Hn1. pose proof (tk_next _ _ (inv_timers _ Hi)).
      eapply step_io; try done; [by right| |apply NoDup_singleton].
      repeat constructor; unfold next in *; cbn in *; lia.
    + intros s1 Hat1. by eapply step_quiet_err.
  - specialize (Hput ChildTerminal). destruct Hput as [Hi' Hn' (e1 & He1 & Hc1 & Hm1 & Hnt1)].
    unfold child_terminal. cbn [phase tt_with_phase]. split; [exact Hi'|exact Hn'| |done].
    cbn [phase tt_with_phase] in He1 |- *. rewrite Hl. injection He1 as He1.
    cbn [lifecycle]. rewrite He1, Hm1, Hnt1. split_and!; [|constructor|constructor].
    apply (life_limit_committed nt m id); try done. rewrite (at_child_lookup _ _ _ _ _ _ Hat). eauto.
Qed.

End Sessions.

(** ** The bootstrap and the lease *)

Section Leases.
Context `{Minicbor} `{Snow}.
Implicit Types (s : TargetTransport) (c : Child).

(** A bootstrap handler has taken the phase and left the internal terminal in its place. *)
Record parked s0 s : Prop := {
  pk_phase : phase s = PhTerminal Terminal_internal;
  pk_timers : timers_ok (PhTerminal Terminal_internal) (tokens s);
  pk_next : next s0 <= next s;
  pk_boot : lifecycle (phase s0) = SBoot
}.

Lemma parked_refl s : tt_inv s -> lifecycle (phase s) = SBoot ->
  parked s (tt_with_phase (PhTerminal Terminal_internal) s).
Proof. intros [Hti _] Hb. split; try done. by eapply timers_ok_terminal. Qed.

Lemma parked_lease_terminal s0 s r peer :
  parked s0 s -> step_post s0 (Ok (fst (lease_terminal r peer s))) (snd (lease_terminal r peer s)).
Proof.
  intros [Hp Hti Hn Hb]. apply lease_terminal_post; try done.
  - apply Hti.
  - by destruct (phase s0).
  - by rewrite Hp, Hb.
Qed.

Lemma parked_err s0 s : parked s0 s -> step_post s0 (Err Internal) s.
Proof. intros [Hp Hti Hn Hb]. split; [split; by rewrite Hp|done| |done]. rewrite Hp, Hb. constructor. Qed.

Lemma good_or_parked {A} (r : Res A) k s0 s :
  parked s0 s -> (forall a, r = Ok a -> good (k a) s0 s) -> good (or_lease r k) s0 s.
Proof.
  intros Hq Hk. destruct r as [a|e]; [by apply Hk|]. apply wp_answer. by apply parked_lease_terminal.
Qed.

Lemma wp_allocate_parked s0 s (Q : Z -> TargetTransport -> Prop) :
  parked s0 s ->
  (next s < U64_MAX -> Q (next s) (tt_with_tokens (mkTokens (next s + 1) (timers (tokens s))) s)) ->
  wp (on_tokens allocate_token) s Q (fun e s' => step_post s0 (Err e) s').
Proof.
  intros Hq HQ. pose proof (tk_next _ _ (pk_timers _ _ Hq)) as Hn.
  destruct (allocate_spec (tokens s) Hn) as [[Hlt Ha]|[Hlt Ha]]; apply wp_on_tokens; rewrite Ha;
    intros ? ? [= <- <-].
  - by apply HQ.
  - destruct s. by apply parked_err.
Qed.

Lemma good_bootstrap_connected entropy ev s : tt_inv s -> good (bootstrap_connected entropy ev) s s.
Proof.
  intros Hi. pose proof (still_refl _ Hi) as Hq. apply good_ensure; [done|].
  apply wp_bind, wp_get. pose proof Hi as [Hti Hph].
  destruct (phase s) as [b key| | | | |] eqn:Hp; try by apply still_err.
  assert (Hpk : parked s (tt_with_phase (PhTerminal Terminal_internal) s))
    by (apply parked_refl; [done|by rewrite Hp]).
  apply wp_bind, wp_set_phase, good_or_parked; [done|]. intros boot _.
  destruct (tb_write_m1 boot) as [frames boot']. apply good_or_parked; [done|]. intros bs _.
  apply wp_bind, wp_allocate_parked; [done|]. cbn [next tokens tt_with_phase].
  intros Hlt. apply wp_bind. set (k := mkTokens _ _).
  assert (Hti1 : timers_ok (AwaitBootstrap b key) k) by by apply timers_ok_allocate.
  destruct (schedule_spec TBootstrap k (tk_next _ _ Hti1)) as [[Hlt' Hs]|[Hlt' Hs]];
    apply wp_on_tokens; cbn [tokens tt_with_tokens]; fold k; rewrite Hs; intros ? ? [= <- <-].
  2:{ apply parked_err. split; cbn; try done; [by eapply timers_ok_terminal|unfold next; cbn; lia|
        by rewrite Hp]. }
  apply wp_bind, wp_set_phase. pose proof (tk_next _ _ Hti) as Hpos. cbn [next_token k] in *.
  split; [|unfold next; cbn; lia| |done].
  - split; cbn.
    + apply (timers_ok_schedule (AwaitBootstrap b key) _ k TBootstrap); try done. by intros [].
    + intros _. exists (next s + 1). apply lookup_insert_eq.
  - unfold next in *. rewrite issued_write_deadline by (cbn; lia). rewrite Hp. cbn. split_and!.
    + constructor. unfold io, o_deadline. cbn. destruct (_ =? _); by left.
    + repeat constructor; unfold next; cbn; lia.
    + apply NoDup_cons. split; [|apply NoDup_singleton]. rewrite list_elem_of_singleton. lia.
Qed.

(** The frame timer of the bootstrap stream. *)
Lemma wp_boot_frame_timer s0 s stream boot d d' ft incomplete
    (Q : option Z * option Z -> TargetTransport -> Prop) :
  tt_inv s0 -> phase s0 = BootstrapM2 stream boot d ft -> parked s0 s -> tokens s = tokens s0 ->
  (forall ft' fd k, timers_ok (BootstrapM2 stream boot d' ft') k ->
     phase_ok (BootstrapM2 stream boot d' ft') k ->
     parked s0 (tt_with_tokens k s) -> fresh_in s0 (tt_with_tokens k s) fd ->
     Q (ft', fd) (tt_with_tokens k s)) ->
  wp (on_tokens (update_frame_timer incomplete ft TBootstrapFrame)) s Q
    (fun e s' => step_post s0 (Err e) s').
Proof.
  intros [Hti Hph] Hp0 Hpk Htok HQ. rewrite Hp0 in Hti, Hph.
  pose proof (update_frame_spec (BootstrapM2 stream boot d ft)
    (fun ft => BootstrapM2 stream boot d' ft) incomplete TBootstrapFrame (tokens s0)) as Hu.
  cbn [slot_of stored] in Hu. unfold wp, on_tokens. rewrite Htok.
  destruct (update_frame_timer _ _ _ _) as [[[ft' fd]|err] k].
  - destruct Hu as (Hok & Hle & Hkeep & Hfd); try done.
    { by intros ? []. }
    apply HQ; [done| | |].
    + intros Hlt. destruct Hph as [t Ht]; [lia|]. exists t. by apply Hkeep.
    + destruct Hpk as [Hp Ht Hn Hb]. split; cbn; try done; by eapply timers_ok_terminal.
    + unfold fresh_in, next. cbn. destruct fd; [lia|done].
  - destruct Hu as (-> & -> & _); try done; [by intros ? []|].
    apply parked_err. rewrite <- Htok. by destruct s.
Qed.

Lemma good_bootstrap_bytes ev s : tt_inv s -> good (bootstrap_bytes ev) s s.
Proof.
  intros Hi. pose proof (still_refl _ Hi) as Hq. apply wp_bind, wp_get.
  destruct (phase s) as [| |stream boot d ft| | |] eqn:Hp; try by apply still_err.
  apply wp_bind, wp_set_phase. destruct (push (ev_bytes ev) d) as [r d'].
  assert (Hpk : parked s (tt_with_phase (PhTerminal Terminal_internal) s))
    by (apply parked_refl; [done|by rewrite Hp]).
  apply good_or_parked; [done|]. intros frames _. apply wp_bind.
  eapply (wp_boot_frame_timer s _ stream boot d d'); [done|done|done|done|].
  intros ft' fd k Hti Hph Hpk1 Hf. set (s1 := tt_with_tokens k _) in *.
  destruct frames as [|frame [|? ?]].
  - apply wp_bind, wp_set_phase. destruct (issued_frame_input s s1 stream fd Hf) as [HF Hd].
    split; [by split|apply (pk_next _ _ Hpk1)| |done]. rewrite Hp. split_and!; [|exact HF|exact Hd].
    constructor. apply io_frame_deadline. by right.
  - apply good_or_parked; [done|]. intros [sender pbs] _. apply good_or_parked; [done|].
    intros [ack l] _. apply wp_bind, wp_allocate_parked; [done|]. intros Hlt.
    apply wp_bind, wp_set_phase. set (k' := mkTokens _ _).
    pose proof (tk_next _ _ (inv_timers _ Hi)) as Hpos.
    pose proof (pk_next _ _ Hpk1) as Hn.
    destruct (issued_frame_write s s1 (next s1) stream ack fd) as [HF Hd]; [apply Hpos|done..|].
    split; [|unfold next in *; cbn in *; lia| |done].
    + split; cbn.
      * apply (timers_ok_keep (BootstrapM2 stream boot d' ft')); try done. by apply timers_ok_allocate.
      * intros Hlt'. apply Hph. unfold next in *. cbn in *. lia.
    + rewrite Hp. cbn. split_and!; [|exact HF|exact Hd].
      constructor. apply io_frame_deadline. by left.
  - apply wp_answer. by apply parked_lease_terminal.
Qed.

(** *** The lease *)

Lemma still_eligible s0 s (e e' : Eligible) :
  still s0 s -> phase s = PhEligible e ->
  lease_stream e' = lease_stream e -> children e' = children e ->
  lease_frame_timer e' = lease_frame_timer e -> lease_tick_timer e' = lease_tick_timer e ->
  lease_ticks e' = lease_ticks e -> 0 <= missed_ticks e' < 4 ->
  still s0 (tt_with_phase (PhEligible e') s).
Proof.
  intros Hq He Hls Hc Hft Htt H1 H2. pose proof Hq as [[_ Hph] _ _]. rewrite He in Hph.
  destruct Hph as (H0' & _ & H3 & H4 & H5).
  apply still_phase; rewrite ?He; try done.
  - intros []; cbn; by rewrite ?Hft, ?Htt, ?Hc.
  - cbn. by rewrite Hc, H1.
  - cbn. rewrite Hc, Hls, Htt, H1. split_and!; try done; lia.
Qed.

Lemma wp_set_eligible s0 s (e e' : Eligible) (Q : unit -> TargetTransport -> Prop) E :
  still s0 s -> phase s = PhEligible e ->
  lease_stream e' = lease_stream e -> children e' = children e ->
  lease_frame_timer e' = lease_frame_timer e -> lease_tick_timer e' = lease_tick_timer e ->
  lease_ticks e' = lease_ticks e -> 0 <= missed_ticks e' < 4 ->
  (still s0 (tt_with_phase (PhEligible e') s) -> Q tt (tt_with_phase (PhEligible e') s)) ->
  wp (set_eligible e') s Q E.
Proof. intros Hq He ? ? ? ? ? ? HQ. apply wp_set_phase, HQ. by apply (still_eligible s0 s e). Qed.

Lemma still_ticks s0 s (e : Eligible) : still s0 s -> phase s = PhEligible e ->
  0 <= lease_ticks e < 30 /\ 0 <= missed_ticks e < 4.
Proof. intros [[_ Hph] _ _] He. rewrite He in Hph. by destruct Hph as (? & ? & _). Qed.

Lemma good_lease_frame_timer s0 s (e : Eligible) incomplete (k : option Z -> option Z -> TM Outcome) :
  still s0 s -> phase s = PhEligible e ->
  (forall ft fd s', still s0 s' -> phase s' = PhEligible (e_with_frame_timer ft e) ->
     fresh_in s0 s' fd -> good (k ft fd) s0 s') ->
  good (do ' (ft, fd) <- on_tokens (update_frame_timer incomplete (lease_frame_timer e) TLeaseFrame);
        run set_eligible (e_with_frame_timer ft e); k ft fd) s0 s.
Proof.
  intros Hq He Hk. pose proof Hq as [[Hti Hph] Hn Hl]. rewrite He in Hti, Hph, Hl.
  pose proof (update_frame_spec (PhEligible e) (fun ft => PhEligible (e_with_frame_timer ft e))
    incomplete TLeaseFrame (tokens s)) as Hu.
  cbn [slot_of stored] in Hu. apply wp_bind. unfold wp, on_tokens.
  destruct (update_frame_timer _ _ _ _) as [[[ft fd]|err] k'].
  - destruct Hu as (Hok & Hle & Hkeep & Hfd); try done; [by intros ? []|].
    apply wp_bind, wp_set_phase, Hk.
    + split; [|unfold next in *; cbn in *; lia|done]. split; cbn; [done|].
      destruct Hph as (H1 & H2 & H3 & H4 & H5). split_and!; try done; try lia.
      intros Hlt. destruct H4 as (t & ? & ?); [lia|]. exists t. split; [done|].
      by apply Hkeep.
    + done.
    + unfold fresh_in, next in *. cbn. destruct fd; [lia|done].
  - destruct Hu as (-> & -> & _); try done; [by intros ? []|].
    replace (tt_with_tokens (tokens s) s) with s by (by destruct s). by apply still_err.
Qed.

Lemma good_lease_bytes ev s : tt_inv s -> good (lease_bytes ev) s s.
Proof.
  intros Hi. pose proof (still_refl _ Hi) as Hq. pose proof (tk_next _ _ (inv_timers _ Hi)) as Hpos.
  apply wp_bind. unfold wp, get_eligible.
  destruct (phase s) as [| | | |e|] eqn:He; try by apply still_err.
  apply good_ensure; [done|]. destruct (push (ev_bytes ev) (lease_decoder e)) as [frames d].
  destruct (still_ticks _ _ _ Hq He) as [Ht1 Ht2].
  apply wp_bind, (wp_set_eligible s s e); try done. clear Hq. intros Hq.
  set (s1 := tt_with_phase _ s) in *. set (e1 := e_with_decoder d e) in *.
  apply good_or_lease; [done|done|]. intros fs _. cbv zeta.
  apply (good_lease_frame_timer s s1 e1); [done|done|]. clear Hq. intros ft fd s2 Hq Hp2 Hf.
  set (e2 := e_with_frame_timer ft e1) in *.
  destruct fs as [|frame [|? ?]].
  - destruct (issued_frame_input s s2 (ev_stream ev) fd Hf). apply still_io; try done.
    + by rewrite Hp2.
    + apply io_frame_deadline. by right.
  - destruct (read_heartbeat_request frame (lease e2)) as [counter l].
    apply wp_bind, (wp_set_eligible s s2 e2); try done. clear Hq. intros Hq.
    apply good_or_lease; [done|done|]. intros ctr _.
    destruct (write_heartbeat_reply ctr l) as [reply l'].
    apply wp_bind. eapply wp_set_eligible; [exact Hq|done..|]. clear Hq. intros Hq.
    apply good_or_lease; [done|done|]. intros b _.
    apply wp_bind. eapply wp_set_eligible; [exact Hq|done..|]. clear Hq. intros Hq.
    match type of Hq with still _ ?x => set (s3 := x) in * end.
    apply wp_bind. apply (wp_allocate_still s s3); [done| |intros; by apply still_err].
    intros s4 Hq4 Hn4 Hp4. apply wp_bind. eapply wp_set_eligible; [exact Hq4|exact Hp4|done..|].
    clear Hq4. intros Hq4.
    destruct (issued_frame_write s s3 (next s3) (ev_stream ev) b fd) as [HF Hd];
      [apply Hpos|exact Hf|apply Hq|done|].
    apply still_io; try done.
    + apply io_frame_deadline. by left.
    + unfold next at 2. cbn [tokens tt_with_phase]. fold (next s4). by rewrite Hn4.
  - apply wp_answer. apply still_lease_terminal; [done|]. by rewrite Hp2.
Qed.

(** *** Committed writes *)

(** The bootstrap timer goes, the other timers of the bootstrap stay. *)
Lemma timers_ok_ready stream l pbs sb t d ft lw k :
  timers_ok (BootstrapAckPending stream l pbs sb t d ft) k ->
  timers_ok (PhEligible (mkEligible stream l pbs sb d lw ft None 0 0 ∅))
    (mkTokens (next_token k) (filter (fun ta => snd ta <> TBootstrap) (timers k))).
Proof.
  intros [Hn Hh Hst]. split; cbn; [done| |].
  - intros t' a Ha. apply map_lookup_filter_Some in Ha as [Ha Hne]. cbn in Hne.
    destruct (Hh _ _ Ha) as [? Hold]. split; [done|]. unfold holds in *. cbn in *. intros _.
    specialize (Hold I). destruct a; try done.
  - intros sl t' Hs. assert (Hs' : stored (BootstrapAckPending stream l pbs sb t d ft) sl = Some t').
    { destruct sl; cbn in *; try done; by rewrite lookup_empty in Hs. }
    destruct (Hst _ _ Hs') as [? Ha]. split; [done|]. intros a Hl.
    apply map_lookup_filter_Some in Hl as [Hl _]. by apply Ha.
Qed.

Lemma good_lease_ready s stream l pbs sb t d ft :
  tt_inv s -> phase s = BootstrapAckPending stream l pbs sb t d ft ->
  good (run on_tokens (modify (fun k => mkTokens (next_token k)
              (filter (fun ta => snd ta <> TBootstrap) (timers k))));
        do tick <- on_tokens (schedule_timer TLeaseTick);
        run set_eligible (mkEligible stream l pbs sb d None ft (Some tick) 0 0 ∅);
        ret (o_deadline tick LEASE_TICK_MS
               (o_with_values (sb_process_generation sb) (sb_listener_epoch sb)
                  (o_with_stream stream (Outcome_new LeaseReady)))))
    s (tt_with_phase (PhTerminal Terminal_internal) s).
Proof.
  intros [Hti Hph] Hp. rewrite Hp in Hti. pose proof (timers_ok_ready _ _ _ _ _ _ _ None _ Hti) as Hti1.
  apply wp_bind. unfold wp, on_tokens, modify. cbn [tokens tt_with_phase].
  set (k := mkTokens _ _) in *. apply wp_bind.
  destruct (schedule_spec TLeaseTick k (tk_next _ _ Hti1)) as [[Hlt Hs]|[Hlt Hs]];
    apply wp_on_tokens; cbn [tokens tt_with_tokens]; rewrite Hs; intros ? ? [= <- <-].
  - apply wp_bind, wp_set_phase. set (e := mkEligible _ _ _ _ _ _ _ _ _ _ _).
    split; [|unfold next; cbn; lia| |done].
    + split; cbn [phase tokens tt_with_phase tt_with_tokens].
      * apply (timers_ok_schedule _ _ k TLeaseTick) with (7 := Hti1); try done.
        by intros [].
      * split_and!; try done; cbn; try lia.
        intros _. exists (next_token k). split; [done|]. apply lookup_insert_eq.
    + rewrite Hp. cbn. rewrite fmap_empty. split_and!.
      * by apply life_ready.
      * repeat constructor; unfold next; cbn; lia.
      * apply NoDup_singleton.
  - apply parked_err. split; cbn; try done; [by eapply timers_ok_terminal|by rewrite Hp].
Qed.

Lemma good_full_write_committed ev s : tt_inv s -> good (full_write_committed ev) s s.
Proof.
  intros Hi. pose proof (still_refl _ Hi) as Hq. apply good_ensure; [done|].
  apply wp_bind, wp_get. apply wp_bind, wp_set_phase.
  assert (Hwrong : good (run set_phase (phase s); throw WrongPhase) s
    (tt_with_phase (PhTerminal Terminal_internal) s)).
  { apply wp_bind, wp_set_phase. rewrite tt_phase_back. by apply still_err. }
  destruct (phase s) as [|stream b t d ft| |stream l pbs sb t d ft|e|] eqn:Hp; try done.
  - destruct (_ && _); [|done]. apply wp_bind, wp_set_phase.
    assert (Hq1 : still s (tt_with_phase (BootstrapM2 stream b d ft) s)).
    { pose proof (inv_phase _ Hi) as Hph. apply still_phase; rewrite ?Hp; try done.
      by rewrite Hp in Hph. }
    apply (still_io s _ _ Hq1); cbn; try done; [by right|constructor..].
  - destruct (_ && _); [|done]. by eapply good_lease_ready.
  - destruct (lease_stream e =? ev_stream ev).
    + destruct (lease_write e) as [[t c]|]; [|done]. destruct (t =? ev_token ev); [|done].
      destruct (still_ticks _ _ _ Hq Hp) as [Ht1 Ht2]. apply wp_bind, wp_set_phase.
      assert (Hq1 : still s (tt_with_phase (PhEligible (e_with_write None e)) s))
        by (by apply (still_eligible s s e)).
      apply (still_io s _ _ Hq1); cbn; try done; [by right|constructor..].
    + by apply good_committed.
Qed.

(** *** The end of a stream, and timers *)

Lemma stored_child_same id c c' (e : Eligible) sl :
  children e !! id = Some c -> phase_timer c' = phase_timer c -> frame_timer c' = frame_timer c ->
  stored (PhEligible (e_put_child id c' e)) sl = stored (PhEligible e) sl.
Proof.
  intros Hc Hp Hf. destruct (decide (sl = SlPhase id)) as [->|Hd1].
  { by rewrite stored_put_phase, (stored_child_phase id c). }
  destruct (decide (sl = SlChildFrame id)) as [->|Hd2].
  { by rewrite stored_put_frame, (stored_child_frame id c). }
  by apply stored_put_other.
Qed.

Lemma eof_error_same c : let c' := snd (eof_error c) in
  phase_timer c' = phase_timer c /\ frame_timer c' = frame_timer c /\ applications c' = applications c.
Proof.
  unfold eof_error. destruct (outer_eof _) as [[|e] d]; [|done].
  destruct (phase_eof _) as [[[?|?]|] p]; done.
Qed.

(** The check answers for good, or leaves the state as it was. *)
Lemma eof_check_spec ev s :
  tt_inv s ->
  wp (eof_check ev) s
    (fun o s' => match o with Some o => step_post s (Ok o) s' | None => still s s' end)
    (fun e s' => False).
Proof.
  intros Hi. pose proof (still_refl _ Hi) as Hq. pose proof (inv_phase _ Hi) as Hph.
  apply wp_bind, wp_get. cbv zeta.
  assert (Hend : forall s' (r : Res unit), still s s' -> live (phase s') ->
    wp (match r with Ok _ => ret None
        | Err e => do o <- answer (core_lease_error e); ret (Some o) end : TM (option Outcome)) s'
    (fun o s' => match o with Some o => step_post s (Ok o) s' | None => still s s' end)
    (fun e s' => False)).
  { intros s' [u|e] Hq' Hlive; [done|]. apply wp_bind, wp_answer. cbn.
    by apply still_lease_terminal. }
  destruct (phase s) as [|stream b t d ft|stream b d ft|stream l pbs sb t d ft|e|] eqn:Hp; try done;
    try (destruct (stream =? ev_stream ev); [|done]; destruct (outer_eof d) as [r d'];
         apply wp_bind, wp_set_phase, Hend; [|done]; apply still_phase; by rewrite ?Hp).
  destruct (still_ticks _ _ _ Hq Hp) as [Ht1 Ht2].
  destruct (lease_stream e =? ev_stream ev).
  { destruct (outer_eof _) as [r d']. apply wp_bind, wp_set_phase, Hend; [|done].
    by apply (still_eligible s s e). }
  destruct (children e !! ev_stream ev) as [c|] eqn:Hc; [|done].
  destruct (still_child s s _ _ _ Hq Hp Hc) as (nt & m & Hl & Hat).
  pose proof (at_child_apps _ _ _ _ _ _ Hat) as Happ.
  pose proof (eof_error_same c) as (Hs1 & Hs2 & Hs3). destruct (eof_error c) as [error c'].
  cbn in Hs1, Hs2, Hs3. apply wp_bind. eapply wp_put; try done.
  { unfold child_handed_off. by rewrite Hs3. }
  { by rewrite Hs3. }
  intros s1 Hat1 Hn1. destruct error as [err|].
  - apply wp_bind, wp_answer. eapply child_core_error_post; try done. by rewrite Hs3.
  - by eapply at_child_still.
Qed.

Lemma good_stream_closed ev s : tt_inv s -> good (stream_closed ev) s s.
Proof.
  intros Hi. pose proof (still_refl _ Hi) as Hq. apply good_ensure; [done|]. cbv zeta. apply wp_bind.
  set (r := match tag ev with StreamCloseNormal => Normal | _ => PeerClosed end).
  assert (Hrest : wp (match tag ev with StreamIoFailed => ret None | _ => eof_check ev end) s
    (fun o s' => match o with Some o => step_post s (Ok o) s' | None => still s s' end)
    (fun e s' => False)) by (destruct (tag ev); first [by apply eof_check_spec|exact Hq]).
  unfold wp in Hrest |- *. destruct (_ s) as [[early|err] s1]; [|done].
  destruct early as [o|]; [done|]. apply wp_bind, wp_get.
  destruct (phase s1) as [|stream b t d ft|stream b d ft|stream l pbs sb t d ft|e|] eqn:Hp;
    try (by apply still_err);
    try (destruct (stream =? ev_stream ev); [|by apply still_err]; apply wp_answer;
         apply still_lease_terminal; [done|by rewrite Hp]).
  destruct (lease_stream e =? ev_stream ev).
  { apply wp_answer, still_lease_terminal; [done|by rewrite Hp]. }
  destruct (children e !! ev_stream ev) as [c|] eqn:Hc; [|by apply still_err].
  destruct (still_child s s1 _ _ _ Hrest Hp Hc) as (nt & m & Hl & Hat).
  by eapply good_child_terminal.
Qed.

Lemma timers_ok_fired (p : Phase) t k : timers_ok p k -> timers_ok p (cancel_timer t k).
Proof.
  intros [Hn Hh Hst]. split; cbn; [done| |].
  - intros t' a. rewrite lookup_delete_Some. intros [_ Ha]. by apply Hh.
  - intros sl t' Hs. destruct (Hst _ _ Hs) as [? Ha]. split; [done|]. intros a.
    rewrite lookup_delete_Some. intros [_ Hl]. by apply Ha.
Qed.

Lemma tick_schedule_ok (e : Eligible) token k ticks missed :
  timers_ok (PhEligible e) k -> phase_ok (PhEligible e) k ->
  lease_tick_timer e = Some token -> timers k !! token = Some TLeaseTick ->
  0 <= ticks < 30 -> 0 <= missed < 4 -> next_token k < U64_MAX ->
  let e' := e_with_ticks (Some (next_token k)) ticks missed e in
  let k' := mkTokens (next_token k + 1)
              (<[next_token k := TLeaseTick]> (delete token (timers k))) in
  timers_ok (PhEligible e') k' /\ phase_ok (PhEligible e') k'.
Proof.
  intros Hti (_ & _ & H3 & _ & H5) Htt Hta Ht Hm Hlt e' k'. split.
  - pose proof (timers_ok_cancel (PhEligible e) (PhEligible (e_with_ticks None ticks missed e))
      k SlTick) as Hc. cbn [stored] in Hc. rewrite Htt in Hc.
    apply (timers_ok_schedule (PhEligible (e_with_ticks None ticks missed e)) _
      (cancel_timer token k) TLeaseTick); try done.
    + by intros [].
    + apply Hc; try done. by intros [].
  - split_and!; try done; cbn; try lia. intros _. exists (next_token k).
    split; [done|apply lookup_insert_eq].
Qed.

Lemma tick_post s e token :
  tt_inv s -> phase s = PhEligible e -> lease_tick_timer e = Some token ->
  timers (tokens s) !! token = Some TLeaseTick ->
  good (tick token) s (tt_with_tokens (cancel_timer token (tokens s)) s).
Proof.
  intros Hi He Htt Hta. pose proof Hi as [Hti Hph]. rewrite He in Hti, Hph.
  pose proof (still_ticks _ _ _ (still_refl _ Hi) He) as [H1 H2].
  pose proof (timers_ok_fired _ token _ Hti) as Hti1.
  apply wp_bind, wp_get. cbn [phase tt_with_tokens]. rewrite He, bool_decide_true by done.
  cbn [negb]. apply wp_bind, wp_set_phase.
  replace (saturating_inc8 (lease_ticks e)) with (lease_ticks e + 1)
    by (unfold saturating_inc8; lia).
  replace (saturating_inc8 (missed_ticks e)) with (missed_ticks e + 1)
    by (unfold saturating_inc8; lia).
  assert (Hend : forall r, good (answer (lease_terminal r None)) s
    (tt_with_phase (PhEligible (e_with_ticks (lease_tick_timer e) (lease_ticks e + 1)
       (missed_ticks e + 1) e)) (tt_with_tokens (cancel_timer token (tokens s)) s))).
  { intros r. apply wp_answer, lease_terminal_post; try done.
    - apply Hti.
    - by rewrite He.
    - rewrite lease_handoff_spec by done. by rewrite He. }
  destruct (Z.leb_spec 30 (lease_ticks e + 1)); [by apply Hend|].
  destruct (Z.leb_spec 4 (missed_ticks e + 1)); [by apply Hend|].
  apply wp_bind. destruct (schedule_spec TLeaseTick (cancel_timer token (tokens s)))
    as [[Hlt Hs]|[Hlt Hs]]; [apply Hti| |]; apply wp_on_tokens; cbn [tokens tt_with_phase
    tt_with_tokens]; rewrite Hs; intros ? ? [= <- <-].
  - apply wp_bind, wp_set_phase. pose proof (tk_next _ _ Hti) as Hpos.
    destruct (tick_schedule_ok e token (tokens s) (lease_ticks e + 1) (missed_ticks e + 1))
      as [Ht Hp]; try done; try lia.
    split; [by split|unfold next; cbn; lia| |done]. rewrite He. cbn. split_and!.
    + by apply life_tick.
    + repeat constructor; unfold next; cbn; lia.
    + apply NoDup_singleton.
  - split; [|done| |done].
    + split; cbn [phase tokens tt_with_phase tt_with_tokens].
      * apply (timers_ok_keep (PhEligible e)); try done; by intros [].
      * destruct Hph as (_ & _ & Hls & _ & Hall). split_and!; try done; cbn; try lia.
        cbn in Hlt. lia.
    + rewrite He. cbn. constructor.
Qed.

Lemma good_timer_fired ev s : tt_inv s -> live (phase s) -> good (timer_fired ev) s s.
Proof.
  intros Hi Hlive. pose proof (still_refl _ Hi) as Hq. pose proof Hi as [Hti Hph].
  apply good_ensure; [done|]. apply wp_bind, wp_get.
  assert (Hni : forall s', still s s' -> live (phase s') -> good (ret (Outcome_new NeedInput)) s s')
    by (intros; apply still_io; try done; [by right|constructor..]).
  destruct (timers (tokens s) !! ev_token ev) as [a|] eqn:Ha; [|by apply Hni].
  apply wp_bind. unfold wp, on_tokens, modify.
  destruct (tk_held _ _ Hti _ _ Ha) as [Hr Hh]. specialize (Hh Hlive).
  set (s1 := tt_with_tokens (cancel_timer (ev_token ev) (tokens s)) s).
  assert (Hend : forall r, good (answer (lease_terminal r None)) s s1).
  { intros r. apply wp_answer, lease_terminal_at; try done. apply Hti. }
  assert (Hq1 : a <> TLeaseTick -> a <> TBootstrap -> still s s1).
  { intros Hn1 Hn2. apply still_tokens; [done|done|by apply timers_ok_fired|].
    intros t b Hb Ht. cbn. rewrite lookup_delete_ne; [done|]. intros <-.
    rewrite Ha in Ht. injection Ht as ->. by destruct Hb. }
  assert (Hto : forall id r, still s s1 -> good (session_timeout id r) s s1).
  { intros id r Hq'. apply wp_bind, wp_get.
    destruct (phase s1) as [| | | |e|] eqn:Hp;
      try (by apply Hni; [exact Hq'|exact Hlive]).
    destruct (children e !! id) as [c|] eqn:Hc; [|by apply Hni; [exact Hq'|exact Hlive]].
    destruct (still_child s s1 _ _ _ Hq' Hp Hc) as (nt & m & Hl & Hat).
    by eapply good_child_terminal. }
  destruct a; try apply Hend; try (apply Hto, Hq1; done).
  destruct (phase s) as [| | | |e|] eqn:Hp; try done.
  by apply (tick_post s e).
Qed.

(** *** One event *)

Lemma good_stream_bytes ev s : tt_inv s -> good (stream_bytes ev) s s.
Proof.
  intros Hi. pose proof (still_refl _ Hi) as Hq. apply good_ensure; [done|]. apply wp_bind, wp_get.
  destruct (phase s) as [| |stream b d ft| |e|] eqn:Hp; try by apply still_err.
  - destruct (stream =? ev_stream ev); [by apply good_bootstrap_bytes|by apply still_err].
  - destruct (lease_stream e =? ev_stream ev); [by apply good_lease_bytes|].
    destruct (children e !! ev_stream ev) as [c|] eqn:Hc; [|by apply still_err].
    destruct (still_child s s _ _ _ Hq Hp Hc) as (nt & m & Hl & Hat).
    eapply good_session_bytes; try done. apply (tk_next _ _ (inv_timers _ Hi)).
Qed.

Lemma eligibility_lost_post s :
  tt_inv s -> live (phase s) ->
  step_post s (Ok (fst (eligibility_lost s))) (snd (eligibility_lost s)).
Proof.
  intros Hi Hlive. pose proof (still_refl _ Hi) as Hq. unfold eligibility_lost.
  destruct (phase s) as [| | | |e|] eqn:Hp; try (apply still_lease_terminal; by rewrite ?Hp).
  destruct (checked_add _ 1) as [n|]; [|apply still_lease_terminal; by rewrite ?Hp].
  destruct (_ <? n); [apply still_lease_terminal; by rewrite ?Hp|].
  destruct (still_ticks _ _ _ Hq Hp) as [Ht1 Ht2].
  apply still_lease_terminal; [|done]. by apply (still_eligible s s e).
Qed.

Lemma good_dispatch entropy ev s :
  tt_inv s -> live (phase s) -> good (dispatch entropy ev) s s.
Proof.
  intros Hi Hlive. pose proof (still_refl _ Hi) as Hq. unfold dispatch. destruct (tag ev).
  - by apply good_bootstrap_connected.
  - by apply good_stream_bytes.
  - by apply good_full_write_committed.
  - by apply good_session_accepted.
  - by apply good_runtime_response.
  - by apply good_stream_closed.
  - by apply good_stream_closed.
  - by apply good_stream_closed.
  - by apply good_timer_fired.
  - by apply good_ensure, wp_answer, eligibility_lost_post.
  - by apply good_ensure, wp_answer, still_lease_terminal.
  - by apply good_ensure, wp_answer, still_lease_terminal.
Qed.

Lemma drive_post entropy ev s :
  tt_inv s -> step_post s (fst (drive entropy ev s)) (snd (drive entropy ev s)).
Proof.
  intros Hi. pose proof (good_dispatch entropy ev s Hi) as Hg. unfold good, wp in Hg.
  assert (Hbad : step_post s (Err InvalidArgument) s) by by apply still_err, still_refl.
  assert (Hlive : live (phase s) -> let r := if negb (ev_flags ev =? 0)
    then (Err InvalidArgument, s) else dispatch entropy ev s in step_post s (fst r) (snd r)).
  { intros Hl. specialize (Hg Hl). destruct (negb _); [done|].
    by destruct (dispatch entropy ev s) as [[o|e] s']. }
  unfold drive. destruct (phase s) as [| | | | |t] eqn:Hp; try exact (Hlive I).
  split; [done|done| |by cbn; rewrite Hp]. cbn. rewrite Hp. split_and!; [by apply life_dead|constructor..].
Qed.

End Leases.
