(* ===== verification/Runs.v ===== *)
(** The properties of the supervisor's runs: what the host sees of [drive] over any sequence
    of events, and the bootstrap of a target by a broker through its supervisor. *)

From stdpp Require Import gmap.
From S2P Require Import Prelude Errors Crates CratesRef Cbor Outer Records Payloads Reassembly NoiseIO Lease Bootstrap Session Descriptor Supervisor Supervision Drive.

(** ** Runs *)

Section Runs.
Context `{Minicbor} `{Snow}.
Implicit Types (s : TargetTransport) (c : Child).

(** The host's loop: events with the entropy the system gives, and every answer. *)
Fixpoint drive_all (evs : list (bytes * Event)) s
    : list (result SupervisorError Outcome) * TargetTransport :=
  match evs with
  | [] => ([], s)
  | (entropy, ev) :: evs =>
      let '(r, s) := drive entropy ev s in
      let '(rs, s) := drive_all evs s in (r :: rs, s)
  end.

Inductive lifecycle_run : Lifecycle -> list (result SupervisorError Outcome) -> Lifecycle -> Prop :=
| run_nil l : lifecycle_run l [] l
| run_ok l o l1 rs l2 :
    lifecycle_step l o l1 -> lifecycle_run l1 rs l2 -> lifecycle_run l (Ok o :: rs) l2
| run_err l e l1 rs l2 :
    lifecycle_err e l l1 -> lifecycle_run l1 rs l2 -> lifecycle_run l (Err e :: rs) l2.

Definition handed_out (rs : list (result SupervisorError Outcome)) : list Z :=
  rs ≫= fun r => match r with Ok o => issued o | Err _ => [] end.

Record run_post s (rs : list (result SupervisorError Outcome)) s' : Prop := {
  rp_inv : tt_inv s';
  rp_next : next s <= next s';
  rp_life : lifecycle_run (lifecycle (phase s)) rs (lifecycle (phase s'));
  rp_fresh : Forall (fun t => next s <= t < next s') (handed_out rs);
  rp_nodup : NoDup (handed_out rs)
}.

Lemma drive_all_post evs s :
  tt_inv s -> run_post s (fst (drive_all evs s)) (snd (drive_all evs s)).
Proof.
  revert s. induction evs as [|[entropy ev] evs IH]; intros s Hi; cbn.
  { split; [done|done|constructor|constructor|constructor]. }
  pose proof (drive_post entropy ev s Hi) as Hd. destruct (drive entropy ev s) as [r s1].
  cbn in Hd. specialize (IH s1 (po_inv _ _ _ Hd)). destruct (drive_all evs s1) as [rs s2].
  cbn in *. destruct Hd as [Hi1 Hn1 Hout _], IH as [Hi2 Hn2 Hl2 Hf2 Hd2].
  split; [done|lia| | |].
  - destruct r as [o|e]; econstructor; try done; apply Hout.
  - apply Forall_app. split.
    + destruct r as [o|e]; [|constructor]. destruct Hout as (_ & Hf & _).
      eapply Forall_impl; [exact Hf|]. cbn. lia.
    + eapply Forall_impl; [exact Hf2|]. cbn. lia.
  - apply NoDup_app. split_and!; [|  |done].
    + destruct r as [o|e]; [apply Hout|constructor].
    + intros t Ht Ht2. rewrite Forall_forall in Hf2. specialize (Hf2 t Ht2).
      destruct r as [o|e]; [|by apply elem_of_nil in Ht]. destruct Hout as (_ & Hf & _).
      rewrite Forall_forall in Hf. specialize (Hf t Ht). cbn in *. lia.
Qed.

Lemma create_inv d rng s o : create d rng = Some (Ok (s, o)) -> tt_inv s /\ lifecycle (phase s) = SBoot.
Proof.
  unfold create. destruct (parse_descriptor d) as [p|]; [|done].
  destruct (generate_process_generation rng) as [[g|]|]; [|done|done].
  destruct (endpoint p); intros [= <- <-]; (split; [|done]); (split; [|done]);
    (split; cbn; [by vm_compute| |done]); intros t a; by rewrite lookup_empty.
Qed.

(** C1: whatever the host feeds it, the supervisor implements the lifecycle: its answers are
    those of a run of the specification (sessions begin with their first write, applications
    mark them handed off, the end of a session or of the lease carries the evidence, and
    after the lease nothing but its end is answered), and the state ends where that run
    ends. *)
Theorem supervisor_refines_lifecycle d rng s o evs :
  create d rng = Some (Ok (s, o)) ->
  lifecycle_run SBoot (fst (drive_all evs s)) (lifecycle (phase (snd (drive_all evs s)))).
Proof.
  intros Hc. destruct (create_inv _ _ _ _ Hc) as [Hi <-].
  apply (rp_life _ _ _ (drive_all_post evs s Hi)).
Qed.

(** C37: every state of the supervisor is well formed: a scheduled timer is the one its slot
    of the phase, the lease or the session names, slots never name each other's timers,
    tokens stay within a machine word, a live lease has its next tick scheduled and fewer
    than 30 ticks, 4 of them missed, and the lease's stream is not a session's. *)
Theorem supervisor_well_formed d rng s o evs :
  create d rng = Some (Ok (s, o)) -> tt_inv (snd (drive_all evs s)).
Proof.
  intros Hc. destruct (create_inv _ _ _ _ Hc) as [Hi _]. apply (rp_inv _ _ _ (drive_all_post evs s Hi)).
Qed.

(** C16: no token is handed out twice: the write tokens and timers of all the outcomes of a
    run are pairwise distinct, nonzero, and below the token the supervisor gives next. *)
Theorem tokens_never_reused d rng s o evs :
  create d rng = Some (Ok (s, o)) ->
  let '(rs, s') := drive_all evs s in
  NoDup (handed_out rs) /\ Forall (fun t => 0 < t < next_token (tokens s')) (handed_out rs).
Proof.
  intros Hc. destruct (create_inv _ _ _ _ Hc) as [Hi _].
  pose proof (drive_all_post evs s Hi) as Hr. pose proof (tk_next _ _ (inv_timers _ Hi)).
  destruct (drive_all evs s) as [rs s']. cbn in Hr. destruct Hr as [_ _ _ Hf Hd].
  split; [done|]. eapply Forall_impl; [exact Hf|]. unfold next. cbn. lia.
Qed.

(** The end of the lease is final: after an outcome that ends it, every later event,
    whatever it is, gets that same outcome and changes nothing. *)
Theorem lease_end_is_final d rng s o evs entropy ev o' s' evs' :
  create d rng = Some (Ok (s, o)) ->
  drive entropy ev (snd (drive_all evs s)) = (Ok o', s') -> o_kind o' = LeaseTerminal ->
  drive_all evs' s' = (repeat (Ok o') (length evs'), s').
Proof.
  intros Hc Hdr Hk. destruct (create_inv _ _ _ _ Hc) as [Hi _].
  pose proof (drive_post entropy ev _ (rp_inv _ _ _ (drive_all_post evs s Hi))) as Hp.
  rewrite Hdr in Hp. cbn in Hp. destruct Hp as [_ _ (Hl & _) Hend].
  assert (Ht : exists t, phase s' = PhTerminal t).
  { destruct (phase s'); eauto; exfalso; cbn in Hl; inversion Hl; subst;
      unfold io in *; try congruence; intuition congruence. }
  destruct Ht as [t Ht]. cbn in Hend. rewrite Ht in Hend. subst o'.
  induction evs' as [|[en ev'] evs' IH]; [done|]. cbn.
  assert (drive en ev' s' = (Ok (terminal_outcome t), s')) as -> by (unfold drive; by rewrite Ht).
  by rewrite IH.
Qed.

(** *** The lease ends *)

(** The event that fires a timer. *)
Definition fire (t : Z) : Event := mkEvent TimerFired 0 0 t [].

(** An event that fires the scheduled tick of a lease. *)
Definition lease_tick s (ev : Event) : bool :=
  match tag ev with
  | TimerFired =>
      (ev_flags ev =? 0) && event_args false true false ev
      && bool_decide (timers (tokens s) !! ev_token ev = Some TLeaseTick)
  | _ => false
  end.

Fixpoint ticks_fired (evs : list (bytes * Event)) s : Z :=
  match evs with
  | [] => 0
  | (entropy, ev) :: evs =>
      (if lease_tick s ev then 1 else 0) + ticks_fired evs (snd (drive entropy ev s))
  end.

Definition age (l : Lifecycle) : Z := match l with SLive n _ => n | _ => 0 end.

Lemma step_age l o l' : lifecycle_step l o l' -> 0 <= age l -> l' = SDead \/ age l <= age l'.
Proof. intros []; cbn; lia || auto. Qed.
Lemma err_age e l l' : lifecycle_err e l l' -> 0 <= age l -> l' = SDead \/ age l <= age l'.
Proof. intros []; cbn; lia || auto. Qed.

Lemma inv_age s : tt_inv s -> 0 <= age (lifecycle (phase s)) < 30.
Proof. intros [_ Hph]. destruct (phase s); cbn in *; lia. Qed.

Lemma drive_fire entropy t s :
  live (phase s) -> drive entropy (fire t) s = timer_fired (fire t) s.
Proof. unfold drive, dispatch. cbn. by destruct (phase s). Qed.

(** What a firing does, in one step. *)
Lemma timer_fired_eq ev s :
  event_args false true false ev = true ->
  timer_fired ev s =
  match timers (tokens s) !! ev_token ev with
  | None => (Ok (Outcome_new NeedInput), s)
  | Some action =>
      match action with
      | TBootstrap | TBootstrapFrame | TLeaseFrame => answer (lease_terminal Timeout None)
      | TLeaseTick => tick (ev_token ev)
      | TSessionPhase stream | TSessionFrame stream => session_timeout stream Timeout
      | TSessionIdle stream => session_timeout stream Stale
      end (tt_with_tokens (cancel_timer (ev_token ev) (tokens s)) s)
  end.
Proof.
  intros Ha. unfold timer_fired. rewrite Ha. unfold lift, ensure, mbind_M, get, on_tokens, modify.
  by destruct (timers (tokens s) !! ev_token ev).
Qed.

Lemma tick_spec t (e : Eligible) s :
  phase s = PhEligible e -> lease_tick_timer e = Some t ->
  if terminal_timer (phase s) t TLeaseTick
  then exists r s2, tick t s = answer (lease_terminal r None) s2
  else age (lifecycle (phase (snd (tick t s)))) = saturating_inc8 (lease_ticks e) /\
       forall o, fst (tick t s) = Ok o -> o_kind o = NeedInput.
Proof.
  intros He Ht. destruct s as [p g k]. cbn [phase] in *. subst p. unfold terminal_timer.
  rewrite bool_decide_true by done. cbn [andb].
  set (e' := e_with_ticks (lease_tick_timer e) (saturating_inc8 (lease_ticks e))
               (saturating_inc8 (missed_ticks e)) e).
  assert (Heq : tick t (mkTransport (PhEligible e) g k) =
    (if 30 <=? saturating_inc8 (lease_ticks e) then answer (lease_terminal Stale None)
     else if 4 <=? saturating_inc8 (missed_ticks e) then answer (lease_terminal BrokerLost None)
     else do timer <- on_tokens (schedule_timer TLeaseTick);
          run set_eligible (e_with_ticks (Some timer) (saturating_inc8 (lease_ticks e))
                              (saturating_inc8 (missed_ticks e)) e);
          ret (o_deadline timer LEASE_TICK_MS (Outcome_new NeedInput)))
    (mkTransport (PhEligible e') g k))
    by (unfold tick, mbind_M at 1, get; cbn [phase]; by rewrite bool_decide_true).
  rewrite Heq. clear Heq. destruct (30 <=? _); cbn [orb]; [by eauto|].
  destruct (4 <=? _); [by eauto|]. unfold mbind_M, on_tokens. cbn [tokens].
  destruct (schedule_timer TLeaseTick k) as [[t'|err] k']; cbn; (split; [done|]); [|done].
  by intros o [= <-].
Qed.

Lemma tick_ages entropy ev s :
  tt_inv s -> live (phase s) -> lease_tick s ev = true ->
  let s' := snd (drive entropy ev s) in
  lifecycle (phase s') = SDead \/ age (lifecycle (phase s)) + 1 <= age (lifecycle (phase s')).
Proof.
  intros Hi Hlive Ht. unfold lease_tick in Ht. destruct (tag ev) eqn:Htag; try done.
  apply andb_prop in Ht as [[Hf Ha]%andb_prop Hl]. apply bool_decide_eq_true in Hl.
  assert (drive entropy ev s = timer_fired ev s) as ->
    by (unfold drive, dispatch; rewrite Hf, Htag; by destruct (phase s)).
  destruct (tk_held _ _ (inv_timers _ Hi) _ _ Hl) as [_ Hh]. specialize (Hh Hlive). cbn in Hh.
  rewrite timer_fired_eq, Hl by done. cbv zeta.
  destruct (phase s) as [| | | |e|] eqn:He; try done. cbn in Hh.
  pose proof (still_ticks _ _ _ (still_refl _ Hi) He) as [H1 H2].
  pose proof (tick_spec (ev_token ev) e
    (tt_with_tokens (cancel_timer (ev_token ev) (tokens s)) s) He Hh) as Hs.
  destruct (terminal_timer _ _ _).
  - destruct Hs as (r & s2 & ->). by left.
  - destruct Hs as [-> _]. right. unfold saturating_inc8. cbn. lia.
Qed.

Lemma drive_ages entropy ev s :
  tt_inv s -> lifecycle (phase s) <> SDead ->
  let s' := snd (drive entropy ev s) in
  lifecycle (phase s') = SDead \/
  age (lifecycle (phase s)) + (if lease_tick s ev then 1 else 0) <= age (lifecycle (phase s')).
Proof.
  intros Hi Hd. cbv zeta. assert (Hlive : live (phase s)) by (by destruct (phase s)).
  destruct (lease_tick s ev) eqn:Ht; [by apply tick_ages|].
  pose proof (drive_post entropy ev s Hi) as [_ _ Ho _]. pose proof (inv_age _ Hi) as [Ha _].
  rewrite Z.add_0_r. destruct (fst (drive entropy ev s)) as [o|e].
  - destruct Ho as (Ho & _). by apply (step_age _ _ _ Ho).
  - by apply (err_age _ _ _ Ho).
Qed.

Lemma dead_stays rs l : lifecycle_run SDead rs l -> l = SDead.
Proof.
  remember SDead as l0 eqn:Hl. induction 1 as [|l o l1 rs l2 Hs _ IH|l e l1 rs l2 Hs _ IH];
    subst; [done| |]; assert (l1 = SDead) as -> by (by inversion Hs); by apply IH.
Qed.

Lemma drive_all_ages evs s :
  tt_inv s -> let s' := snd (drive_all evs s) in
  lifecycle (phase s') = SDead \/
  age (lifecycle (phase s)) + ticks_fired evs s <= age (lifecycle (phase s')).
Proof.
  revert s. induction evs as [|[entropy ev] evs IH]; intros s Hi; [right; cbn; lia|].
  pose proof (po_inv _ _ _ (drive_post entropy ev s Hi)) as Hi1.
  assert (Hdead : lifecycle (phase (snd (drive entropy ev s))) = SDead ->
    lifecycle (phase (snd (drive_all evs (snd (drive entropy ev s))))) = SDead).
  { intros Hl. eapply dead_stays. rewrite <- Hl. apply (rp_life _ _ _ (drive_all_post evs _ Hi1)). }
  assert (Hrun : snd (drive_all ((entropy, ev) :: evs) s) =
    snd (drive_all evs (snd (drive entropy ev s)))).
  { cbn. destruct (drive entropy ev s) as [r s1]. cbn. by destruct (drive_all evs s1). }
  cbv zeta. rewrite Hrun. cbn [ticks_fired].
  destruct (lifecycle (phase s)) eqn:Hl.
  - destruct (drive_ages entropy ev s Hi) as [Hx|Hx]; [by rewrite Hl|left; by apply Hdead|].
    destruct (IH _ Hi1) as [?|?]; [by left|right; rewrite Hl in Hx; lia].
  - destruct (drive_ages entropy ev s Hi) as [Hx|Hx]; [by rewrite Hl|left; by apply Hdead|].
    destruct (IH _ Hi1) as [?|?]; [by left|right; rewrite Hl in Hx; lia].
  - left. apply Hdead. unfold drive. destruct (phase s) eqn:Hp; try done. cbn. by rewrite Hp.
Qed.

(** C17: a lease ends: whatever else happens in between, once thirty of its ticks have fired
    the supervisor is terminal; and while the lease lives and tokens last, there is a timer
    whose firing is the next tick, so that a host whose timers fire ends it. *)
Theorem lease_ends d rng s o evs :
  create d rng = Some (Ok (s, o)) ->
  let s' := snd (drive_all evs s) in
  (30 <= ticks_fired evs s -> exists t, phase s' = PhTerminal t) /\
  (forall e, phase s' = PhEligible e -> next_token (tokens s') < U64_MAX ->
     exists t, lease_tick s' (fire t) = true).
Proof.
  intros Hc s'. destruct (create_inv _ _ _ _ Hc) as [Hi Hl].
  pose proof (rp_inv _ _ _ (drive_all_post evs s Hi)) as Hi'. split.
  - intros Ht. pose proof (inv_age _ Hi') as Ha. rewrite <- (Z.add_0_l 30) in Ht.
    destruct (drive_all_ages evs s Hi) as [Hd|Hx]; [|rewrite Hl in Hx; cbn in Hx, Ha; lia].
    fold s' in Hd. destruct (phase s'); eauto; done.
  - intros e He Hlt. destruct Hi' as [Hti Hph]. fold s' in Hti, Hph. rewrite He in Hph.
    destruct Hph as (_ & _ & _ & Htick & _). destruct (Htick Hlt) as (t & _ & Ha).
    exists t. unfold lease_tick, event_args. cbn. rewrite Ha.
    destruct (tk_held _ _ Hti _ _ Ha) as [Hr _].
    rewrite (proj2 (Z.eqb_neq t 0)) by lia. by rewrite bool_decide_true.
Qed.

(** ** The timers that end something *)

Definition ends (o : Outcome) : Prop := o_kind o = SessionTerminal \/ o_kind o = LeaseTerminal.

Lemma elem_of_terminal_timers t s :
  t ∈ terminal_timer_tokens s <->
  exists a, timers (tokens s) !! t = Some a /\ terminal_timer (phase s) t a = true.
Proof.
  unfold terminal_timer_tokens. rewrite elem_of_dom. split.
  - intros [a Ha]. apply map_lookup_filter_Some in Ha. eauto.
  - intros (a & Ha & Ht). exists a. by apply map_lookup_filter_Some.
Qed.

(** The tokens the supervisor names as ending something are exactly those whose firing
    does: for every state of a run that is not terminal yet, a timer is in
    [terminal_timer_tokens] just when firing it answers the end of a session or of the
    lease. *)
Theorem terminal_timers_exact d rng s o evs entropy t :
  create d rng = Some (Ok (s, o)) ->
  let s' := snd (drive_all evs s) in
  live (phase s') -> t <> 0 ->
  t ∈ terminal_timer_tokens s' <->
  exists o', fst (drive entropy (fire t) s') = Ok o' /\ ends o'.
Proof.
  intros Hc s' Hlive Ht. destruct (create_inv _ _ _ _ Hc) as [Hi _].
  pose proof (rp_inv _ _ _ (drive_all_post evs s Hi)) as Hi'. fold s' in Hi'. clearbody s'.
  rewrite elem_of_terminal_timers, drive_fire by done.
  rewrite timer_fired_eq
    by (unfold event_args; cbn; by rewrite (proj2 (Z.eqb_neq t 0))).
  cbn [ev_token fire]. destruct (timers (tokens s') !! t) as [a|] eqn:Ha.
  2:{ split; [by intros (? & ? & _)|]. by intros (o' & [= <-] & [Ho|Ho]). }
  assert (Hex : forall P : TimerAction -> Prop,
    (exists a', Some a = Some a' /\ P a') <-> P a) by (intros P; split; [by intros (? & [= <-] & ?)|eauto]).
  rewrite Hex. destruct (tk_held _ _ (inv_timers _ Hi') _ _ Ha) as [_ Hh]. specialize (Hh Hlive).
  set (s1 := tt_with_tokens _ s').
  assert (Hend : forall r, exists o', fst (answer (lease_terminal r None) s1) = Ok o' /\ ends o')
    by (intros r; eexists; split; [done|by right]).
  assert (Hto : forall id r, is_Some (match phase s' with PhEligible e => children e !! id | _ => None end) ->
    exists o', fst (session_timeout id r s1) = Ok o' /\ ends o').
  { intros id r [c Hchild]. unfold session_timeout, mbind_M, get. cbn [phase tt_with_tokens s1].
    destruct (phase s') as [| | | |e|] eqn:Hp; try done. rewrite Hchild.
    unfold answer, child_terminal. cbn [is_Some_b].
    assert (phase s1 = PhEligible e) as -> by exact Hp. rewrite Hchild.
    eexists. split; [done|by left]. }
  destruct a; cbn in Hh; cbn [terminal_timer]; try (split; [intros _; apply Hend|done]);
    try (split; [intros _; apply Hto|done]; destruct (phase s') as [| | | |e|]; try done;
         cbn in Hh; destruct (children e !! stream); [eauto|done]).
  destruct (phase s') as [| | | |e|] eqn:Hp; try done. cbn in Hh.
  assert (Hp1 : phase s1 = PhEligible e) by exact Hp.
  pose proof (tick_spec t e s1 Hp1 Hh) as Hs. rewrite Hp1 in Hs. cbn [terminal_timer] in Hs.
  destruct (_ && _).
  - destruct Hs as (r & s2 & ->). split; [|done]. intros _. eexists. split; [done|by right].
  - split; [done|]. intros (o' & Ho & Hk). destruct Hs as [_ Hn]. specialize (Hn o' Ho).
    destruct Hk; congruence.
Qed.

End Runs.

(** ** A bootstrap through the supervisor *)

Section Startup.
Context `{Minicbor} `{!MinicborLaws} `{Snow} `{!SnowLaws}.
Implicit Types (s : TargetTransport).

Definition connected (stream : Z) : Event := mkEvent BootstrapConnected 0 stream 0 [].
Definition received (stream : Z) (b : bytes) : Event := mkEvent StreamBytes 0 stream 0 b.
Definition written (stream token : Z) : Event := mkEvent FullWriteCommitted 0 stream token [].

Definition session_binding_of (ack : TargetBootstrapAck) : SessionBinding :=
  {| sb_lease_id := ack_lease_id ack; sb_process_generation := ack_process_generation ack;
     sb_listener_epoch := ack_listener_epoch ack;
     sb_nk_handshake_hash := ack_nk_handshake_hash ack |}.

Lemma create_ok d rng s o p :
  create d rng = Some (Ok (s, o)) -> parse_descriptor d = Ok p ->
  exists g, 1 <= g <= JSON_SAFE_MAX /\
    s = mkTransport (AwaitBootstrap (pd_binding p) (broker_public_key p)) g (mkTokens 1 ∅).
Proof.
  unfold create, generate_process_generation. intros Hc Hp. rewrite Hp in Hc.
  destruct rng as [draws|]; [|done]. destruct (draw_generation draws) as [[g|]|] eqn:Hg; try done.
  apply draw_generation_ok in Hg as (_ & b & _ & _ & _ & _ & ->).
  pose proof (Z.mod_pos_bound (le_decode b) JSON_SAFE_MAX ltac:(done)).
  exists (le_decode b mod JSON_SAFE_MAX + 1). split; [lia|]. by destruct (endpoint p); injection Hc as <- _.
Qed.

Lemma read_m2_framed t m2 g e x : read_m2 t m2 g e = Ok x -> outer_frame m2.
Proof.
  unfold read_m2. intros Hr. res_inv Hr. unfold read_handshake_mut in Hr.
  destruct (one_outer m2) as [p|] eqn:Ho; [|done]. exists p. by apply one_outer_ok.
Qed.

Lemma drive_connected binding key g ei stream t m1 t1 :
  stream <> 0 -> TargetBootstrap_new binding key ei = Ok t -> tb_write_m1 t = (Ok m1, t1) ->
  drive ei (connected stream) (mkTransport (AwaitBootstrap binding key) g (mkTokens 1 ∅))
  = (Ok (o_deadline 2 BOOTSTRAP_DEADLINE_MS (o_write stream 1 m1)),
     mkTransport (BootstrapM1Pending stream t1 1 OuterFrameDecoder_new None) g
       (mkTokens 3 {[2 := TBootstrap]})).
Proof.
  intros Hs Ht Hm. unfold drive, dispatch, bootstrap_connected, event_args, connected.
  cbn [phase tag ev_flags ev_stream ev_token ev_bytes Z.eqb negb].
  rewrite (proj2 (Z.eqb_neq _ _) Hs).
  unfold mbind_M, lift, ensure, get, set_phase, modify. cbn [negb Bool.eqb is_empty andb phase].
  rewrite Ht. cbn [or_lease]. rewrite Hm. reflexivity.
Qed.

Lemma drive_m1_written g stream t1 d ft k :
  stream <> 0 ->
  drive [] (written stream 1) (mkTransport (BootstrapM1Pending stream t1 1 d ft) g k)
  = (Ok (o_need_input stream), mkTransport (BootstrapM2 stream t1 d ft) g k).
Proof.
  intros Hs. unfold drive, dispatch, full_write_committed, event_args, written.
  cbn [phase tag ev_flags ev_stream ev_token ev_bytes Z.eqb negb].
  rewrite (proj2 (Z.eqb_neq _ _) Hs).
  unfold mbind_M, lift, ensure, get, set_phase, modify. cbn [negb Bool.eqb is_empty andb phase].
  cbn. by rewrite Z.eqb_refl.
Qed.

Lemma drive_m2_received g stream t1 m2 k sender secret f l :
  stream <> 0 -> 1 <= next_token k < U64_MAX ->
  read_m2 t1 m2 g 1 = Ok (sender, secret) -> write_ack sender = Ok (f, l) ->
  drive [] (received stream m2) (mkTransport (BootstrapM2 stream t1 OuterFrameDecoder_new None) g k)
  = (Ok (o_write stream (next_token k) f),
     mkTransport (BootstrapAckPending stream l secret (session_binding_of (as_ack sender))
                    (next_token k) OuterFrameDecoder_new None) g
       (mkTokens (next_token k + 1) (timers k))).
Proof.
  intros Hs Hk Hr Hw. destruct (read_m2_framed _ _ _ _ _ Hr) as [p Hp].
  assert (Hne : is_empty m2 = false)
    by (destruct m2; [by apply encode_outer_ok in Hp as [? Hx]|done]).
  unfold drive, dispatch, stream_bytes, event_args, received.
  cbn [phase tag ev_flags ev_stream ev_token ev_bytes Z.eqb negb].
  rewrite (proj2 (Z.eqb_neq _ _) Hs), Hne.
  unfold mbind_M at 1, lift at 1, ensure at 1. cbn [negb Bool.eqb andb].
  unfold mbind_M at 1, get at 1. cbn [phase]. rewrite Z.eqb_refl.
  unfold bootstrap_bytes, mbind_M at 1, get at 1. cbn [phase ev_bytes].
  unfold mbind_M at 1, set_phase at 1, modify at 1.
  rewrite (push_single p m2 Hp). cbn [or_lease].
  change (is_incomplete OuterFrameDecoder_new) with false.
  unfold mbind_M at 1, on_tokens at 1. cbn [update_frame_timer]. rewrite modify_bind.
  cbn [ret generation tt_with_phase tt_with_tokens]. rewrite Hr. cbn [or_lease]. rewrite Hw.
  cbn [or_lease]. unfold mbind_M at 1, on_tokens at 1.
  cbn [tokens tt_with_phase tt_with_tokens cancel_slot].
  destruct (allocate_spec k ltac:(lia)) as [[_ ->]|[? _]]; [|lia]. by destruct sender.
Qed.

Lemma drive_ack_written g stream l pbs sb w d ft k :
  stream <> 0 -> w <> 0 -> 1 <= next_token k < U64_MAX ->
  drive [] (written stream w) (mkTransport (BootstrapAckPending stream l pbs sb w d ft) g k)
  = (Ok (o_deadline (next_token k) LEASE_TICK_MS
          (o_with_values (sb_process_generation sb) (sb_listener_epoch sb)
             (o_with_stream stream (Outcome_new LeaseReady)))),
     mkTransport (PhEligible (mkEligible stream l pbs sb d None ft (Some (next_token k)) 0 0 ∅)) g
       (mkTokens (next_token k + 1) (<[next_token k := TLeaseTick]>
          (filter (fun ta => snd ta <> TBootstrap) (timers k))))).
Proof.
  intros Hs Hw Hk. unfold drive, dispatch, full_write_committed, event_args, written.
  cbn [phase tag ev_flags ev_stream ev_token ev_bytes Z.eqb negb].
  rewrite (proj2 (Z.eqb_neq _ _) Hs), (proj2 (Z.eqb_neq _ _) Hw).
  unfold mbind_M at 1, lift at 1, ensure at 1. cbn [negb Bool.eqb andb is_empty].
  unfold mbind_M at 1, get at 1, mbind_M at 1, set_phase at 1, modify at 1. cbn [phase].
  rewrite !Z.eqb_refl. cbn [andb]. unfold mbind_M at 1, on_tokens at 1, modify at 1.
  unfold mbind_M at 1, on_tokens at 1. cbn [tokens tt_with_phase tt_with_tokens].
  set (k1 := mkTokens _ _).
  destruct (schedule_spec TLeaseTick k1 ltac:(cbn; lia)) as [[_ ->]|[Hx _]]; [done|cbn in Hx; lia].
Qed.

(** C36: a bootstrap reaches the lease: a supervisor created from a descriptor with the
    broker's key, connected to that broker and told of its own full writes, answers the
    broker's message with its acknowledgement and then that the lease is ready, with the
    generation it drew; the broker accepts the acknowledgement, the supervisor holds the
    broker's secret and its lease is the other end of the broker's; of its timers only the
    first tick of the lease remains. *)
Theorem supervised_bootstrap d rng s o p sk secret ei er stream t b
    (Hc : create d rng = Some (Ok (s, o))) (Hp : parse_descriptor d = Ok p)
    (Hkey : broker_public_key p = x25519_public sk) (Hsec : len secret = 32)
    (Hstream : stream <> 0)
    (Ht : TargetBootstrap_new (pd_binding p) (x25519_public sk) ei = Ok t)
    (Hb : BrokerBootstrap_new (pd_binding p) sk secret er = Ok b) :
  exists m1 m2 receiver f ack lb lt,
    bootstrap_read_m1_write_m2 b m1 = Ok (m2, receiver) /\ read_ack receiver f = Ok (ack, lb) /\
    drive_all [(ei, connected stream); ([], written stream 1); ([], received stream m2);
               ([], written stream 3)] s
    = ([Ok (o_deadline 2 BOOTSTRAP_DEADLINE_MS (o_write stream 1 m1));
        Ok (o_need_input stream);
        Ok (o_write stream 3 f);
        Ok (o_deadline 4 LEASE_TICK_MS
              (o_with_values (generation s) 1 (o_with_stream stream (Outcome_new LeaseReady))))],
       mkTransport (PhEligible (mkEligible stream lt secret (session_binding_of ack)
                                  OuterFrameDecoder_new None None (Some 4) 0 0 ∅))
         (generation s) (mkTokens 5 {[4 := TLeaseTick]})) /\
    ack_process_generation ack = generation s /\ ack_listener_epoch ack = 1 /\
    lease_pair (NONCES - 1) lb lt /\ lease_idle 0 lb /\ lease_idle 0 lt.
Proof.
  destruct (create_ok _ _ _ _ _ Hc Hp) as (g & Hg & ->). rewrite Hkey.
  destruct (parse_canonical _ _ Hp) as [_ [Hwf _ _ _]]. cbn [generation].
  destruct (bootstrap_messages _ _ _ g _ _ _ _ Hwf Hsec Hg Ht Hb) as
    (m1 & t1 & m2 & receiver & sender & f & lt & ack & lb & Hm1 & Hbr & Hm2 & Hwa & Hra & Hag
     & Hbind & Hpair & Hib & Hit & Hack).
  exists m1, m2, receiver, f, ack, lb, lt. destruct Hbind as [_ _ _ Hepoch _].
  split_and!; try done. cbn [drive_all].
  rewrite (drive_connected _ _ _ _ _ t m1 t1), drive_m1_written by done.
  rewrite (drive_m2_received _ _ _ _ _ sender secret f lt) by (done || (cbn; lia)). rewrite Hack.
  cbn [next_token timers]. rewrite drive_ack_written by (done || (cbn; lia)).
  cbn [next_token timers session_binding_of sb_process_generation sb_listener_epoch].
  by rewrite Hag, Hepoch.
Qed.

End Startup.

(** ** The commit of a limit Close *)

Section LimitClose.
Context `{Minicbor} `{Snow}.
Implicit Types (s : TargetTransport) (c : Child).

(** C40: what follows a record limit: the error's Close is announced with the session's true
    evidence, possible handoff, but when its write is committed the session's end is
    reported with none, and the session stays behind in the state, terminal, with its timers
    still scheduled: the eligible state is out of the phase while the commit looks the
    session up there. *)
Theorem limit_commit_forgets_handoff s (e : Eligible) id c err frame entropy
    (He : phase s = PhEligible e) (Hc : children e !! id = Some c)
    (Ha : 0 < applications c) (Hf : close_frame err = Some frame)
    (Hid : id <> 0) (Hls : id <> lease_stream e) (Hn : 1 <= next s < U64_MAX) :
  let '(o1, s1) := child_core_error id err s in
  let '(r2, s2) := drive entropy (written id (o_token o1)) s1 in
  o_kind o1 = WriteFrames /\ o_handoff o1 = HandoffPossibleOrConfirmed /\
  r2 = Ok (o_terminal SessionTerminal id (reason err) NotHandedOff (peer_close err)) /\
  (exists e2, phase s2 = PhEligible e2 /\
     children e2 !! id = Some (c_with_phase ChildTerminal c)) /\
  timers (tokens s2) = timers (tokens s).
Proof.
  unfold child_core_error. cbn [take_close_frame fst]. rewrite Hf, He, Hc.
  unfold on_tokens. destruct (allocate_spec (tokens s)) as [[_ ->]|[Hx _]];
    [unfold next in Hn; lia| |unfold next in Hn; lia].
  cbn [phase tt_with_tokens]. rewrite He, Hc.
  replace (child_handed_off c) with true by (symmetry; by apply Z.ltb_lt).
  set (p := TerminalPending _ _). set (s1 := tt_with_phase _ _).
  unfold next in Hn. cbn [o_token o_with_close o_or_flags o_write o_with_bytes o_with_token].
  unfold drive, dispatch, full_write_committed, event_args, written.
  cbn [phase s1 tt_with_phase tag ev_flags ev_stream ev_token ev_bytes Z.eqb negb].
  rewrite (proj2 (Z.eqb_neq id 0)), (proj2 (Z.eqb_neq (next_token (tokens s)) 0)) by lia.
  unfold mbind_M at 1, lift at 1, ensure at 1. cbn [negb Bool.eqb andb is_empty].
  unfold mbind_M at 1, get at 1, mbind_M at 1, set_phase at 1, modify at 1.
  cbn [phase s1 tt_with_phase e_put_child lease_stream e_with_children].
  rewrite (proj2 (Z.eqb_neq (lease_stream e) id)) by done.
  unfold commit_child_write. cbn [children e_with_children e_put_child].
  rewrite lookup_insert_eq.
  cbn [c_phase c_with_phase p]. rewrite Z.eqb_refl. unfold child_terminal.
  cbn [phase tt_with_phase]. split_and!; try done.
  eexists. split; [done|]. cbn. by rewrite lookup_insert_eq.
Qed.

End LimitClose.

(** ** Concrete inputs *)

Definition ex_rng : option (list (option bytes)) := Some [Some (repeat (b8 1) 8)].

Definition ex_transport : TargetTransport :=
  mkTransport (AwaitBootstrap ex_bootstrap_binding (x25519_public ex_broker_key))
    (le_decode (repeat (b8 1) 8) mod JSON_SAFE_MAX + 1) (mkTokens 1 ∅).
Definition ex_ready : Outcome :=
  o_with_bytes None (o_with_values 0 50000 (Outcome_new EndpointReady)).

Lemma ex_created : create ex_descriptor ex_rng = Some (Ok (ex_transport, ex_ready)).
Proof. reflexivity. Qed.

Definition ex_events : list (bytes * Event) :=
  [([], connected 7); ([], written 7 1); ([], fire 9); ([], mkEvent EvInternalError 0 0 0 [])].

Lemma supervisor_refines_lifecycle_witness :
  lifecycle_run SBoot (fst (drive_all ex_events ex_transport))
    (lifecycle (phase (snd (drive_all ex_events ex_transport)))).
Proof. exact (supervisor_refines_lifecycle _ _ _ _ ex_events ex_created). Defined.

Lemma supervisor_well_formed_witness : tt_inv (snd (drive_all ex_events ex_transport)).
Proof. exact (supervisor_well_formed _ _ _ _ ex_events ex_created). Defined.

Lemma tokens_never_reused_witness :
  let '(rs, s') := drive_all ex_events ex_transport in
  NoDup (handed_out rs) /\ Forall (fun t => 0 < t < next_token (tokens s')) (handed_out rs).
Proof. exact (tokens_never_reused _ _ _ _ ex_events ex_created). Defined.

Lemma lease_end_is_final_witness :
  let t := mkTerminal InternalError NotHandedOff None in
  let s' := snd (drive_all ex_events ex_transport) in
  drive_all ex_events s' = (repeat (Ok (terminal_outcome t)) (length ex_events), s').
Proof.
  cbv zeta. apply (lease_end_is_final _ _ _ _ (removelast ex_events) []
    (mkEvent EvInternalError 0 0 0 []) (terminal_outcome (mkTerminal InternalError NotHandedOff None))
    (snd (drive_all ex_events ex_transport)) ex_events ex_created); reflexivity.
Defined.

(** A host that plays the broker: it brings a supervisor to its lease, lets the tick of the lease
    fire, and sends a heartbeat after every third tick, so that no four are missed. *)
Record Play := mkPlay { pl_target : TargetTransport; pl_broker : LeaseCore; pl_events : list (bytes * Event) }.

Definition play (ev : Event) (p : Play) : option bytes * Play :=
  let '(r, s) := drive [] ev (pl_target p) in
  (match r with Ok o => o_bytes o | Err _ => None end, mkPlay s (pl_broker p) (pl_events p ++ [([], ev)])).
(** The write token is the one that was given out last. *)
Definition play_written (p : Play) : Play :=
  snd (play (written 7 (next_token (tokens (pl_target p)) - 1)) p).
Definition play_tick (p : Play) : Play :=
  match phase (pl_target p) with
  | PhEligible e => match lease_tick_timer e with Some t => snd (play (fire t) p) | None => p end
  | _ => p
  end.
Definition play_beat (counter : Z) (p : Play) : Play :=
  match write_heartbeat_request counter (pl_broker p) with
  | (Ok f, lb) =>
      let '(reply, p) := play (received 7 f) (mkPlay (pl_target p) lb (pl_events p)) in
      mkPlay (pl_target (play_written p)) (snd (read_heartbeat_reply (default [] reply) lb)) (pl_events (play_written p))
  | (Err _, _) => p
  end.
Fixpoint play_rounds (n : nat) (counter : Z) (p : Play) : Play :=
  match n with
  | O => p
  | S n => play_rounds n (counter + 1) (play_beat counter (play_tick (play_tick (play_tick p))))
  end.

Definition ex_play_lease : option Play :=
  let '(m1, p) := play (connected 7) (mkPlay ex_transport ex_target_lease []) in
  let p := snd (play (written 7 1) p) in
  match bootstrap_read_m1_write_m2 ex_broker_bootstrap (default [] m1) with
  | Ok (m2, receiver) =>
      let '(f, p) := play (received 7 m2) p in
      match read_ack receiver (default [] f) with
      | Ok (_, lb) =>
          let p := snd (play (written 7 3) p) in Some (mkPlay (pl_target p) lb (pl_events p))
      | Err _ => None
      end
  | Err _ => None
  end.
Definition ex_played (rounds : nat) : list (bytes * Event) :=
  from_option (fun p => pl_events (play_rounds rounds 1 p)) [] ex_play_lease.

Definition lives (s : TargetTransport) : bool :=
  match phase s with PhEligible _ => next_token (tokens s) <? U64_MAX | _ => false end.
Lemma lives_spec s : lives s = true -> exists e, phase s = PhEligible e /\ next_token (tokens s) < U64_MAX.
Proof. unfold lives. destruct (phase s); try done. intros Hn%Z.ltb_lt. eauto. Qed.
(** After twenty-seven ticks the lease lives. *)
Example ex_played_lives :
  (ticks_fired (ex_played 9) ex_transport, lives (snd (drive_all (ex_played 9) ex_transport))) = (27, true).
Proof. vm_compute. reflexivity. Qed.

(** After nine rounds, 27 ticks, the lease lives and its next tick is scheduled; after ten, 30
    ticks, it has ended. *)
Lemma lease_ends_witness :
  (ticks_fired (ex_played 10) ex_transport = 30 /\
   exists t, phase (snd (drive_all (ex_played 10) ex_transport)) = PhTerminal t) /\
  (exists e, phase (snd (drive_all (ex_played 9) ex_transport)) = PhEligible e) /\
  exists t, lease_tick (snd (drive_all (ex_played 9) ex_transport)) (fire t) = true.
Proof.
  assert (Ht : ticks_fired (ex_played 10) ex_transport = 30) by (vm_compute; reflexivity).
  assert (Hl : lives (snd (drive_all (ex_played 9) ex_transport)) = true) by (vm_compute; reflexivity).
  destruct (lives_spec _ Hl) as (e & He & Hn).
  split; [split; [exact Ht|]|split; [exists e; exact He|]].
  - apply (proj1 (lease_ends _ _ _ _ (ex_played 10) ex_created)). rewrite Ht. lia.
  - exact (proj2 (lease_ends _ _ _ _ (ex_played 9) ex_created) e He Hn).
Defined.

Lemma terminal_timers_exact_witness :
  let s' := snd (drive_all [([], connected 7)] ex_transport) in
  (2 ∈ terminal_timer_tokens s') /\
  exists o', fst (drive [] (fire 2) s') = Ok o' /\ ends o'.
Proof.
  assert (Hx : exists o', fst (drive [] (fire 2) (snd (drive_all [([], connected 7)] ex_transport)))
    = Ok o' /\ ends o') by (eexists; split; [reflexivity|by right]).
  split; [|exact Hx]. by apply (terminal_timers_exact _ _ _ _ [([], connected 7)] [] 2 ex_created).
Defined.

Lemma supervised_bootstrap_witness :
  exists m1 m2 receiver f ack lb lt,
    bootstrap_read_m1_write_m2 ex_broker_bootstrap m1 = Ok (m2, receiver) /\
    read_ack receiver f = Ok (ack, lb) /\
    drive_all [([], connected 7); ([], written 7 1); ([], received 7 m2); ([], written 7 3)]
      ex_transport
    = ([Ok (o_deadline 2 BOOTSTRAP_DEADLINE_MS (o_write 7 1 m1));
        Ok (o_need_input 7);
        Ok (o_write 7 3 f);
        Ok (o_deadline 4 LEASE_TICK_MS
              (o_with_values (generation ex_transport) 1 (o_with_stream 7 (Outcome_new LeaseReady))))],
       mkTransport (PhEligible (mkEligible 7 lt ex_secret (session_binding_of ack)
                                  OuterFrameDecoder_new None None (Some 4) 0 0 ∅))
         (generation ex_transport) (mkTokens 5 {[4 := TLeaseTick]})) /\
    ack_process_generation ack = generation ex_transport /\ ack_listener_epoch ack = 1 /\
    lease_pair (NONCES - 1) lb lt /\ lease_idle 0 lb /\ lease_idle 0 lt.
Proof.
  apply (supervised_bootstrap ex_descriptor ex_rng ex_transport ex_ready ex_parsed ex_broker_key
    ex_secret [] [] 7 ex_target_bootstrap).
  - exact ex_created.
  - reflexivity.
  - reflexivity.
  - reflexivity.
  - discriminate.
  - reflexivity.
  - reflexivity.
Defined.

(** A session that has handed an application message off, and meets its record limit. *)
Definition ex_child : Child := mkChild ChildTerminal OuterFrameDecoder_new (Some 5) None 1.
Definition ex_eligible : Eligible :=
  mkEligible 7 ex_target_lease ex_secret ex_session_binding OuterFrameDecoder_new None None
    (Some 4) 0 0 {[11 := ex_child]}.
Definition ex_eligible_transport : TargetTransport :=
  mkTransport (PhEligible ex_eligible) 5 (mkTokens 6 {[4 := TLeaseTick; 5 := TSessionPhase 11]}).
Definition ex_limit : Error :=
  Error_record_limit (Some [b8 0; b8 1; b8 2]).

Lemma limit_commit_forgets_handoff_witness :
  let '(o1, s1) := child_core_error 11 ex_limit ex_eligible_transport in
  let '(r2, s2) := drive [] (written 11 (o_token o1)) s1 in
  o_kind o1 = WriteFrames /\ o_handoff o1 = HandoffPossibleOrConfirmed /\
  r2 = Ok (o_terminal SessionTerminal 11 (reason ex_limit) NotHandedOff (peer_close ex_limit)) /\
  (exists e2, phase s2 = PhEligible e2 /\
     children e2 !! 11 = Some (c_with_phase ChildTerminal ex_child)) /\
  timers (tokens s2) = timers (tokens ex_eligible_transport).
Proof.
  apply (limit_commit_forgets_handoff ex_eligible_transport ex_eligible 11 ex_child ex_limit
    [b8 0; b8 1; b8 2] []).
  - reflexivity.
  - reflexivity.
  - reflexivity.
  - reflexivity.
  - discriminate.
  - discriminate.
  - split; [discriminate|reflexivity].
Defined.
