(* ===== verification/Control.v ===== *)
(** The broker's control channel ([src/cli/crates/host-runtime/src/control.rs]): requests
    and results as deterministic CBOR in length-prefixed packets, the incremental decoder of
    one request, and the references by which a client names a prepared target.  The feature
    [internal-diagnostics], off by default, is not modelled. *)

From Stdlib Require Import Init.Byte.
From S2P Require Import Prelude Errors Crates Cbor Records.

Definition GLOBAL_CBOR_CAP : Z := 67109120.
Definition GLOBAL_PACKET_CAP : Z := 67109124.
Definition OPEN_SESSION_CBOR_CAP : Z := 73728.
Definition EXCHANGE_REQUEST_CBOR_CAP : Z := 16777480.
Definition NON_EXCHANGE_CBOR_CAP : Z := 8192.
Definition READY_REFERENCE_TTL_MS : Z := 30000.
Definition MAX_SAFE_INTEGER : Z := 9007199254740991.

(** ** Failures *)

Inductive ErrorKind : Set :=
| TargetSelectionRequired | SessionExpired | TransportAuthenticationRequired | KindTimeout
| KindInternalError.
Definition ErrorKind_wire (k : ErrorKind) : Z :=
  match k with
  | TargetSelectionRequired => 0 | SessionExpired => 1 | TransportAuthenticationRequired => 2
  | KindTimeout => 3 | KindInternalError => 4
  end.

Inductive ErrorStage : Set :=
| Ipc | StPrepare | StBootstrap | SessionHandshake | StSessionOpen | StExchange | StClose
| Cleanup.
Definition ErrorStage_wire (s : ErrorStage) : Z :=
  match s with
  | Ipc => 0 | StPrepare => 1 | StBootstrap => 2 | SessionHandshake => 3 | StSessionOpen => 4
  | StExchange => 5 | StClose => 6 | Cleanup => 7
  end.

#[export] Instance ErrorKind_eq_dec : EqDecision ErrorKind.
Proof. solve_decision. Defined.
#[export] Instance ErrorStage_eq_dec : EqDecision ErrorStage.
Proof. solve_decision. Defined.

(** The message is a [&'static str]. *)
Record ControlFailure := mkFailure {
  f_kind : ErrorKind;
  f_message : bytes;
  f_retryable : bool;
  f_stage : ErrorStage;
  f_handoff : HandoffState;
  f_close_reason : CloseReason
}.

#[export] Instance ControlFailure_eq_dec : EqDecision ControlFailure.
Proof. solve_decision. Defined.

Definition ipc (r : CloseReason) : ControlFailure :=
  let '(kind, message) := match r with
    | Timeout => (KindTimeout, str "Broker control deadline expired")
    | AuthenticationFailed =>
        (TransportAuthenticationRequired, str "Broker control authentication failed")
    | InternalError | CleanupFailed => (KindInternalError, str "Broker control failed")
    | _ => (SessionExpired, str "Broker control packet rejected")
    end in
  mkFailure kind message false Ipc NotHandedOff r.

Definition selection_failure : ControlFailure :=
  mkFailure TargetSelectionRequired (str "Target selection is invalid") false Ipc NotHandedOff
    BindingMismatch.

Definition CRes := result ControlFailure.

(** ** Characters *)

Definition in_range (lo hi : Z) (b : byte) : bool := (lo <=? u8 b) && (u8 b <=? hi).
Definition is_lower : byte -> bool := in_range 97 122.
Definition is_upper : byte -> bool := in_range 65 90.
Definition is_digit : byte -> bool := in_range 48 57.
Definition is_alphanumeric (b : byte) : bool := is_lower b || is_upper b || is_digit b.
(** [matches!(byte, c1 | c2 | ..)] on characters. *)
Definition one_of (cs : bytes) (b : byte) : bool := existsb (fun c => u8 c =? u8 b) cs.
(** 0, CR, LF. *)
Definition is_break (b : byte) : bool := one_of [b8 0; b8 13; b8 10] b.

(** ** Ready references *)

Definition ReadyReference : Type := bytes.

Definition strip_prefix (p s : bytes) : option bytes :=
  if bytes_eqb (take (length p) s) p then Some (drop (length p) s) else None.

Section References.
Context `{Base64}.

Definition REFERENCE_PREFIX : bytes := str "target_".

Definition reference_parse (value : bytes) : CRes ReadyReference :=
  let? encoded := res_of_option selection_failure (strip_prefix REFERENCE_PREFIX value) in
  check negb (negb (len encoded =? 43) || existsb (one_of (str "=")) encoded
              || negb (forallb (fun b => is_alphanumeric b || one_of (str "_-") b) encoded))
    else selection_failure in
  let? decoded := res_of_option selection_failure (b64_decode encoded) in
  check len decoded =? 32 else selection_failure in
  check bytes_eqb (b64_encode decoded) encoded else selection_failure in
  Ok decoded.

Definition reference_display (token : ReadyReference) : bytes :=
  REFERENCE_PREFIX ++ b64_encode token.
End References.

(** ** Requests and results *)

Inductive Platform : Set := IosSimulator | AndroidEmulator.
Definition Platform_wire (p : Platform) : Z :=
  match p with IosSimulator => 0 | AndroidEmulator => 1 end.

Inductive SideEffect : Set := ReadOnly | LocalWrite | AppMutation | DeviceMutation.
Definition SideEffect_wire (s : SideEffect) : Z :=
  match s with ReadOnly => 0 | LocalWrite => 1 | AppMutation => 2 | DeviceMutation => 3 end.

Record PrepareBody := mkPrepare {
  platform : Platform;
  device_selector : bytes;
  app_id : bytes;
  app_artifact : bytes;
  app_artifact_sha256 : bytes
}.

Record OpenSessionBody := mkOpen {
  o_target_token : bytes;
  o_session_id : option bytes;
  required_capabilities : list bytes;
  session_open_request : option bytes;
  session_open_request_sha256 : option bytes
}.

Record ExchangeBody := mkExchange {
  x_target_token : bytes;
  x_session_id : bytes;
  x_process_generation : Z;
  x_listener_epoch : Z;
  x_message : bytes;
  x_message_sha256 : bytes;
  side_effect : SideEffect
}.

Record CloseSessionBody := mkCloseSession {
  cs_target_token : bytes;
  cs_session_id : bytes;
  cs_process_generation : Z;
  cs_listener_epoch : Z;
  cs_reason : CloseReason
}.

Record CloseLeaseBody := mkCloseLease {
  cl_target_token : bytes;
  cl_reason : CloseReason
}.

Record Request (T : Type) := mkRequest {
  request_id : bytes;
  deadline_unix_ms : Z;
  body : T
}.
Arguments mkRequest {T}.
Arguments request_id {T}.
Arguments deadline_unix_ms {T}.
Arguments body {T}.

Inductive ControlRequest : Type :=
| RPrepare (r : Request PrepareBody)
| ROpenSession (r : Request OpenSessionBody)
| RExchange (r : Request ExchangeBody)
| RCloseSession (r : Request CloseSessionBody)
| RCloseLease (r : Request CloseLeaseBody).

Definition control_request_id (r : ControlRequest) : bytes :=
  match r with
  | RPrepare r => request_id r | ROpenSession r => request_id r | RExchange r => request_id r
  | RCloseSession r => request_id r | RCloseLease r => request_id r
  end.
Definition control_deadline_unix_ms (r : ControlRequest) : Z :=
  match r with
  | RPrepare r => deadline_unix_ms r | ROpenSession r => deadline_unix_ms r
  | RExchange r => deadline_unix_ms r | RCloseSession r => deadline_unix_ms r
  | RCloseLease r => deadline_unix_ms r
  end.

Record ReadyTarget := mkReady {
  rt_target_token : bytes;
  rt_process_generation : Z;
  rt_listener_epoch : Z;
  issued_at_unix_ms : Z;
  expires_at_unix_ms : Z
}.

Record SessionOpened := mkOpened {
  so_target_token : bytes;
  response : bytes;
  response_sha256 : bytes;
  so_process_generation : Z;
  so_listener_epoch : Z;
  so_handoff : HandoffState
}.

Record ExchangeComplete := mkComplete {
  ec_target_token : bytes;
  ec_session_id : bytes;
  ec_process_generation : Z;
  ec_listener_epoch : Z;
  ec_message : bytes;
  ec_message_sha256 : bytes;
  ec_handoff : HandoffState
}.

Record Closed := mkClosed {
  cd_target_token : bytes;
  cd_session_id : option bytes;
  cd_handoff : HandoffState
}.

Inductive ControlSuccess : Type :=
| TargetReady (r : ReadyTarget)
| SOpened (o : SessionOpened)
| SExchangeComplete (x : ExchangeComplete)
| SClosed (c : Closed).

Inductive ControlResult : Type :=
| Success (request_id : bytes) (result : ControlSuccess)
| Failure (request_id : bytes) (error : ControlFailure).

#[export] Instance ControlRequest_eq_dec : EqDecision ControlRequest.
Proof.
  assert (EqDecision Platform) by solve_decision. assert (EqDecision SideEffect) by solve_decision.
  assert (EqDecision PrepareBody) by solve_decision.
  assert (EqDecision OpenSessionBody) by solve_decision.
  assert (EqDecision ExchangeBody) by solve_decision.
  assert (EqDecision CloseSessionBody) by solve_decision.
  assert (EqDecision CloseLeaseBody) by solve_decision.
  assert (forall T, EqDecision T -> EqDecision (Request T)) by (intros; solve_decision).
  solve_decision.
Defined.

#[export] Instance ControlResult_eq_dec : EqDecision ControlResult.
Proof.
  assert (EqDecision ReadyTarget) by solve_decision.
  assert (EqDecision SessionOpened) by solve_decision.
  assert (EqDecision ExchangeComplete) by solve_decision.
  assert (EqDecision Closed) by solve_decision.
  assert (EqDecision ControlSuccess) by solve_decision.
  solve_decision.
Defined.

(** ** Deterministic CBOR

    The validator walks the items of a buffer with an offset.  Its recursion is on fuel;
    [Err None] is running out of it, which [validate_deterministic_cbor] never does. *)

Definition VM := M Z (option ControlFailure).

Definition vfail {A} (r : CloseReason) : VM A := throw (Some (ipc r)).

(** [take]. *)
Definition take_byte (b : bytes) : VM Z := fun off =>
  match b !! Z.to_nat off with
  | Some x => (Ok (u8 x), off + 1)
  | None => (Err (Some (ipc Malformed)), off)
  end.

Fixpoint take_bytes (n : nat) (b : bytes) : VM bytes :=
  match n with
  | O => ret []
  | S n => do x <- take_byte b; do l <- take_bytes n b; ret (b8 x :: l)
  end.

Definition read_argument (b : bytes) (info : Z) : VM Z :=
  if info <=? 23 then ret info
  else
    do ' (value, minimum) <-
      if info =? 24 then do raw <- take_bytes 1 b; ret (be_decode raw, 24)
      else if info =? 25 then do raw <- take_bytes 2 b; ret (be_decode raw, 256)
      else if info =? 26 then do raw <- take_bytes 4 b; ret (be_decode raw, 65536)
      else if info =? 27 then do raw <- take_bytes 8 b; ret (be_decode raw, 4294967296)
      else vfail Malformed;
    if value <? minimum then vfail Malformed else ret value.

(** [for _ in 0..count]: a state of the loop, and fuel for its turns. *)
Fixpoint for_loop {A} (fuel : nat) (count : Z) (turn : A -> VM A) (a : A) : VM A :=
  match fuel with
  | O => throw None
  | S fuel =>
      if count <=? 0 then ret a
      else do a <- turn a; for_loop fuel (count - 1) turn a
  end.

(** The value of a string: [bytes.get(offset..end)]. *)
Definition string_item (b : bytes) (major length : Z) : VM unit :=
  do off <- get;
  match checked_add off length with
  | None => vfail Oversize
  | Some end_ =>
      if len b <? end_ then vfail Malformed
      else if (major =? 3) && negb (valid_utf8 (take (Z.to_nat length) (drop (Z.to_nat off) b)))
      then vfail Malformed
      else modify (fun _ => end_)
  end.

Fixpoint validate_item (fuel : nat) (b : bytes) (depth : Z) : VM unit :=
  match fuel with
  | O => throw None
  | S fuel =>
      if 64 <=? depth then vfail Malformed
      else
        do initial <- take_byte b;
        let major := Z.shiftr initial 5 in
        let info := Z.land initial 31 in
        if major =? 0 then do _ <- read_argument b info; ret tt
        else if (major =? 2) || (major =? 3) then
          do length <- read_argument b info; string_item b major length
        else if major =? 4 then
          do count <- read_argument b info;
          for_loop fuel count (fun _ => validate_item fuel b (depth + 1)) tt
        else if major =? 5 then
          do count <- read_argument b info;
          do _ <- for_loop fuel count (fun previous =>
            do key_initial <- take_byte b;
            run lift (ensure (Z.shiftr key_initial 5 =? 0) (Some (ipc Malformed)));
            do key <- read_argument b (Z.land key_initial 31);
            run lift (ensure (negb (match previous with Some old => key <=? old | None => false end))
                        (Some (ipc Malformed)));
            run validate_item fuel b (depth + 1);
            ret (Some key)) None;
          ret tt
        else if (major =? 7) && ((info =? 20) || (info =? 21)) then ret tt
        else vfail Malformed
  end.

(** An item takes at least one byte, so that the bytes bound its depth and its turns. *)
Definition validate (b : bytes) : result (option ControlFailure) unit :=
  fst ((run validate_item (S (length b)) b 0;
        do off <- get;
        if negb (off =? len b) then vfail Malformed else ret tt) 0).

Definition validate_deterministic_cbor (b : bytes) : CRes unit :=
  res_map_err (fun e => match e with Some e => e | None => ipc Malformed end) (validate b).

(** ** Reading *)

Section Decoding.
Context `{Minicbor}.

Definition CM := M Decoder ControlFailure.

Definition decode_error : ControlFailure := ipc Malformed.
Definition encode_error : ControlFailure := ipc InternalError.

Definition c_u8 : CM Z := d_item decode_error dec_u8.
Definition c_u64 : CM Z := d_item decode_error dec_u64.
Definition c_bytes : CM bytes := d_item decode_error dec_bytes.
Definition c_str : CM bytes := d_item decode_error dec_str.
Definition c_bool : CM bool := d_item decode_error dec_bool.

(** [.ok_or_else(..)] on the length of a map or an array. *)
Definition definite (rd : bytes -> option (option Z * nat)) : CM Z :=
  do n <- d_item decode_error rd; lift (res_of_option (ipc Malformed) n).

Definition require_map (expected : Z) : CM unit :=
  do n <- d_item decode_error dec_map;
  d_ensure (bool_decide (n = Some expected)) (ipc Malformed).

Definition require_key (key : Z) : CM unit :=
  do k <- c_u8; d_ensure (k =? key) (ipc Malformed).

Definition require_safe_integer (value : Z) : CRes unit :=
  ensure ((1 <=? value) && (value <=? MAX_SAFE_INTEGER)) (ipc Malformed).

Definition fixed (n : Z) (b : bytes) : CRes bytes :=
  let? _ := ensure (len b =? n) (ipc Malformed) in Ok b.

Definition require_session_id (value : bytes) : CRes unit :=
  ensure (negb (negb ((16 <=? len value) && (len value <=? 128))
                || negb (forallb (fun b => is_alphanumeric b || one_of (str "._~-") b) value)))
    (ipc Malformed).

Definition valid_selector_byte (b : byte) : bool := is_alphanumeric b || one_of (str "._:-") b.

Definition opt_all (p : byte -> bool) (o : option byte) : bool :=
  match o with Some b => p b | None => false end.

Definition valid_app_id (value : bytes) : bool :=
  ((3 <=? len value) && (len value <=? 255))
  && forallb (fun b => is_alphanumeric b || one_of (str "._-") b) value
  && opt_all is_alphanumeric (head value)
  && opt_all is_alphanumeric (last value).

(** The order of byte slices: [a <= b]. *)
Fixpoint bytes_leb (a b : bytes) : bool :=
  match a, b with
  | [], _ => true
  | _ :: _, [] => false
  | x :: a, y :: b => if u8 x =? u8 y then bytes_leb a b else u8 x <? u8 y
  end.

(** [str::split] on a character. *)
Fixpoint split_on (c : byte) (l : bytes) : list bytes :=
  match l with
  | [] => [[]]
  | b :: l =>
      if u8 b =? u8 c then [] :: split_on c l
      else match split_on c l with
           | p :: ps => (b :: p) :: ps
           | [] => [[b]]
           end
  end.

Definition valid_part (part : bytes) : bool :=
  (2 <=? len part) && opt_all is_lower (head part)
  && forallb (fun b => is_lower b || is_digit b) part.

Definition valid_capability (value : bytes) : bool :=
  ((3 <=? len value) && (len value <=? 128))
  && (2 <=? len (split_on (b8 46) value))
  && forallb valid_part (split_on (b8 46) value).

Definition close_reason (value : Z) : CRes CloseReason :=
  match value with
  | 0 => Ok Normal | 1 => Ok AuthenticationFailed | 2 => Ok BindingMismatch | 3 => Ok Stale
  | 4 => Ok Timeout | 5 => Ok Oversize | 6 => Ok Malformed | 7 => Ok SequenceViolation
  | 8 => Ok RecordLimit | 9 => Ok PeerClosed | 10 => Ok BrokerLost | 11 => Ok EligibilityLost
  | 12 => Ok CleanupFailed | 13 => Ok InternalError
  | _ => Err (ipc Malformed)
  end.

Definition decode_handoff (value : Z) : CRes HandoffState :=
  match value with
  | 0 => Ok NotHandedOff | 1 => Ok HandoffPossibleOrConfirmed | _ => Err (ipc Malformed)
  end.

Definition decode_platform (value : Z) : CRes Platform :=
  match value with 0 => Ok IosSimulator | 1 => Ok AndroidEmulator | _ => Err (ipc Malformed) end.

Definition decode_side_effect (value : Z) : CRes SideEffect :=
  match value with
  | 0 => Ok ReadOnly | 1 => Ok LocalWrite | 2 => Ok AppMutation | 3 => Ok DeviceMutation
  | _ => Err (ipc Malformed)
  end.

Definition decode_kind (value : Z) : CRes ErrorKind :=
  match value with
  | 0 => Ok TargetSelectionRequired | 1 => Ok SessionExpired
  | 2 => Ok TransportAuthenticationRequired | 3 => Ok KindTimeout | 4 => Ok KindInternalError
  | _ => Err (ipc Malformed)
  end.

Definition decode_stage (value : Z) : CRes ErrorStage :=
  match value with
  | 0 => Ok Ipc | 1 => Ok StPrepare | 2 => Ok StBootstrap | 3 => Ok SessionHandshake
  | 4 => Ok StSessionOpen | 5 => Ok StExchange | 6 => Ok StClose | 7 => Ok Cleanup
  | _ => Err (ipc Malformed)
  end.

(** The fields that recur: a token of [n] bytes, an integer in 1..2{^53}-1, a session id, a
    message within a cap, and an enumeration. *)
Definition c_fixed (n : Z) : CM bytes := do b <- c_bytes; lift (fixed n b).
Definition c_safe : CM Z :=
  do v <- c_u64; run lift (require_safe_integer v); ret v.
Definition c_session_id : CM bytes :=
  do v <- c_str; run lift (require_session_id v); ret v.
Definition c_message (cap : Z) : CM bytes :=
  do m <- c_bytes; run d_ensure (negb (is_empty m || (cap <? len m))) (ipc Oversize); ret m.
Definition c_enum {A} (f : Z -> CRes A) : CM A := do v <- c_u8; lift (f v).

Definition decode_prepare : CM PrepareBody :=
  run require_map 5;
  run require_key 0; do platform <- c_enum decode_platform;
  run require_key 1; do device_selector <- c_str;
  run d_ensure (negb (negb ((1 <=? len device_selector) && (len device_selector <=? 256))
                || negb (forallb valid_selector_byte device_selector))) (ipc Malformed);
  run require_key 2; do app_id <- c_str;
  run d_ensure (valid_app_id app_id) (ipc Malformed);
  run require_key 3; do app_artifact <- c_str;
  run d_ensure (negb ((4096 <? len app_artifact)
                || negb (opt_all (one_of (str "/")) (head app_artifact))
                || (len app_artifact <? 2)
                || existsb is_break app_artifact)) (ipc Malformed);
  run require_key 4; do sha <- c_fixed 32;
  ret (mkPrepare platform device_selector app_id app_artifact sha).

Definition capability_after (previous : list bytes) (capability : bytes) : bool :=
  valid_capability capability
  && negb (match last previous with
           | Some p => bytes_leb capability p
           | None => false
           end).

Fixpoint decode_capabilities_loop (n : nat) (capabilities : list bytes) : CM (list bytes) :=
  match n with
  | O => ret capabilities
  | S n =>
      do capability <- c_str;
      run d_ensure (capability_after capabilities capability) (ipc Malformed);
      decode_capabilities_loop n (capabilities ++ [capability])
  end.

Definition decode_capabilities : CM (list bytes) :=
  do count <- definite dec_array;
  run d_ensure ((1 <=? count) && (count <=? 32)) (ipc Malformed);
  decode_capabilities_loop (Z.to_nat count) [].

Definition decode_open : CM OpenSessionBody :=
  do count <- definite dec_map;
  run d_ensure ((count =? 3) || (count =? 4)) (ipc Malformed);
  run require_key 0; do target_token <- c_fixed 32;
  do next_key <- c_u8;
  do ' (session_id, next_key) <-
    if next_key =? 1
    then do session <- c_session_id; do next_key <- c_u8; ret (Some session, next_key)
    else ret (None, next_key);
  run d_ensure (next_key =? 2) (ipc Malformed);
  do required_capabilities <- decode_capabilities;
  match session_id with
  | None =>
      run require_key 3; do request <- c_message 65536;
      run require_key 4; do sha <- c_fixed 32;
      ret (mkOpen target_token None required_capabilities (Some request) (Some sha))
  | Some _ => ret (mkOpen target_token session_id required_capabilities None None)
  end.

Definition decode_exchange : CM ExchangeBody :=
  run require_map 7;
  run require_key 0; do target_token <- c_fixed 32;
  run require_key 1; do session_id <- c_session_id;
  run require_key 2; do process_generation <- c_safe;
  run require_key 3; do listener_epoch <- c_safe;
  run require_key 4; do message <- c_message 16777216;
  run require_key 5; do sha <- c_fixed 32;
  run require_key 6; do side_effect <- c_enum decode_side_effect;
  ret (mkExchange target_token session_id process_generation listener_epoch message sha
         side_effect).

Definition decode_close_session : CM CloseSessionBody :=
  run require_map 5;
  run require_key 0; do target_token <- c_fixed 32;
  run require_key 1; do session_id <- c_session_id;
  run require_key 2; do process_generation <- c_safe;
  run require_key 3; do listener_epoch <- c_safe;
  run require_key 4; do reason <- c_enum close_reason;
  ret (mkCloseSession target_token session_id process_generation listener_epoch reason).

Definition decode_close_lease : CM CloseLeaseBody :=
  run require_map 2;
  run require_key 0; do target_token <- c_fixed 32;
  run require_key 1; do reason <- c_enum close_reason;
  ret (mkCloseLease target_token reason).
End Decoding.

(** ** Packets *)

Section Packets.
Context `{Minicbor}.

Definition c_chain (items : list (option bytes)) : CRes bytes := enc_chain encode_error items.

Definition unframe (packet : bytes) : CRes bytes :=
  if len packet <? 4 then Err (ipc Malformed)
  else
    let declared := be_decode (take 4 packet) in
    if declared =? 0 then Err (ipc Malformed)
    else if (GLOBAL_CBOR_CAP <? declared)
            || match checked_add declared 4 with
               | None => true
               | Some n => GLOBAL_PACKET_CAP <? n
               end
    then Err (ipc Oversize)
    else if negb (len packet =? declared + 4) then Err (ipc Malformed)
    else Ok (drop 4 packet).

Definition frame (cbor : bytes) (cap : Z) : CRes bytes :=
  if is_empty cbor then Err (ipc InternalError)
  else if (cap <? len cbor) || (GLOBAL_CBOR_CAP <? len cbor) then Err (ipc Oversize)
  else Ok (be_encode 4 (len cbor) ++ cbor).

Definition request_operation (cbor : bytes) : CRes Z :=
  decode_with (
    run require_map 5;
    run require_key 0; do version <- c_u8;
    run d_ensure (version =? 1) (ipc Malformed);
    run require_key 1; do request_id <- c_bytes;
    run d_ensure (len request_id =? 16) (ipc Malformed);
    run require_key 2; do deadline <- c_u64;
    run lift (require_safe_integer deadline);
    run require_key 3; do operation <- c_u8;
    run d_ensure (operation <=? 4) (ipc Malformed);
    ret operation) cbor.

Definition decode_body (operation : Z) (request_id : bytes) (deadline : Z)
    : M Decoder ControlFailure ControlRequest :=
  match operation with
  | 0 => do body <- decode_prepare; ret (RPrepare (mkRequest request_id deadline body))
  | 1 => do body <- decode_open; ret (ROpenSession (mkRequest request_id deadline body))
  | 2 => do body <- decode_exchange; ret (RExchange (mkRequest request_id deadline body))
  | 3 => do body <- decode_close_session; ret (RCloseSession (mkRequest request_id deadline body))
  | 4 => do body <- decode_close_lease; ret (RCloseLease (mkRequest request_id deadline body))
  | _ => throw (ipc Malformed)
  end.

Definition decode_request (cbor : bytes) (operation : Z) : CRes ControlRequest :=
  decode_with (
    run require_map 5;
    run require_key 0; do version <- c_u8;
    run d_ensure (version =? 1) (ipc Malformed);
    run require_key 1; do request_id <- c_fixed 16;
    run require_key 2; do deadline <- c_safe;
    run require_key 3; do op <- c_u8;
    run d_ensure (op =? operation) (ipc Malformed);
    run require_key 4;
    do request <- decode_body operation request_id deadline;
    do position <- d_position;
    run d_ensure (position =? len cbor) (ipc Malformed);
    ret request) cbor.

Definition request_cap (operation : Z) : Z :=
  match operation with
  | 1 => OPEN_SESSION_CBOR_CAP
  | 2 => EXCHANGE_REQUEST_CBOR_CAP
  | _ => NON_EXCHANGE_CBOR_CAP
  end.

Definition decode_request_packet (packet : bytes) : CRes ControlRequest :=
  let? cbor := unframe packet in
  let? _ := validate_deterministic_cbor cbor in
  let? operation := request_operation cbor in
  check negb (request_cap operation <? len cbor) else ipc Oversize in
  decode_request cbor operation.

(** *** Encoding a request *)

Definition encode_prepare (b : PrepareBody) : CRes bytes :=
  c_chain [enc_map 5; enc_u8 0; enc_u8 (Platform_wire (platform b)); enc_u8 1;
           enc_str (device_selector b); enc_u8 2; enc_str (app_id b); enc_u8 3;
           enc_str (app_artifact b); enc_u8 4; enc_bytes (app_artifact_sha256 b)].

Definition encode_open (b : OpenSessionBody) : CRes bytes :=
  let? token := c_chain [enc_map (if is_Some_b (o_session_id b) then 3 else 4); enc_u8 0;
                         enc_bytes (o_target_token b)] in
  let? session := match o_session_id b with
    | Some session_id => c_chain [enc_u8 1; enc_str session_id]
    | None => Ok []
    end in
  let? capabilities := c_chain ([enc_u8 2; enc_array (len (required_capabilities b))]
                                ++ map enc_str (required_capabilities b)) in
  let? request := match o_session_id b with
    | Some _ => Ok []
    | None =>
        let? k := c_chain [enc_u8 3] in
        let? request := res_of_option (ipc Malformed) (session_open_request b) in
        let? r := c_chain [enc_bytes request; enc_u8 4] in
        let? sha := res_of_option (ipc Malformed) (session_open_request_sha256 b) in
        let? h := c_chain [enc_bytes sha] in
        Ok (k ++ r ++ h)
    end in
  Ok (token ++ session ++ capabilities ++ request).

Definition encode_exchange (b : ExchangeBody) : CRes bytes :=
  c_chain [enc_map 7; enc_u8 0; enc_bytes (x_target_token b); enc_u8 1;
           enc_str (x_session_id b); enc_u8 2; enc_u64 (x_process_generation b); enc_u8 3;
           enc_u64 (x_listener_epoch b); enc_u8 4; enc_bytes (x_message b); enc_u8 5;
           enc_bytes (x_message_sha256 b); enc_u8 6; enc_u8 (SideEffect_wire (side_effect b))].

Definition encode_close_session (b : CloseSessionBody) : CRes bytes :=
  c_chain [enc_map 5; enc_u8 0; enc_bytes (cs_target_token b); enc_u8 1;
           enc_str (cs_session_id b); enc_u8 2; enc_u64 (cs_process_generation b); enc_u8 3;
           enc_u64 (cs_listener_epoch b); enc_u8 4; enc_u8 (CloseReason_wire (cs_reason b))].

Definition encode_close_lease (b : CloseLeaseBody) : CRes bytes :=
  c_chain [enc_map 2; enc_u8 0; enc_bytes (cl_target_token b); enc_u8 1;
           enc_u8 (CloseReason_wire (cl_reason b))].

Definition operation_of (r : ControlRequest) : Z :=
  match r with
  | RPrepare _ => 0 | ROpenSession _ => 1 | RExchange _ => 2 | RCloseSession _ => 3
  | RCloseLease _ => 4
  end.

Definition encode_body (r : ControlRequest) : CRes bytes :=
  match r with
  | RPrepare v => encode_prepare (body v)
  | ROpenSession v => encode_open (body v)
  | RExchange v => encode_exchange (body v)
  | RCloseSession v => encode_close_session (body v)
  | RCloseLease v => encode_close_lease (body v)
  end.

Definition encode_request_packet (r : ControlRequest) : CRes bytes :=
  let? header := c_chain [enc_map 5; enc_u8 0; enc_u8 1; enc_u8 1; enc_bytes (control_request_id r);
                          enc_u8 2; enc_u64 (control_deadline_unix_ms r); enc_u8 3;
                          enc_u8 (operation_of r); enc_u8 4] in
  let? body := encode_body r in
  let? packet := frame (header ++ body) (request_cap (operation_of r)) in
  let? r' := decode_request_packet packet in
  check bool_decide (r' = r) else ipc InternalError in
  Ok packet.
End Packets.

(** ** Results *)

Section Results.
Context `{Minicbor} `{Sha2}.

(** The messages that pass unchanged; any other harmless one is replaced. *)
Definition STOCK_MESSAGES : list bytes :=
  [str "expired"; str "Broker control deadline expired";
   str "Broker control authentication failed"; str "Broker control failed";
   str "Broker control packet rejected"; str "Target selection is invalid";
   str "Target session expired"; str "Target transport authentication failed";
   str "Broker operation timed out"; str "Broker operation failed"].
Definition SAFE_MESSAGE : bytes := str "Peer returned a safe Broker failure".

Definition stock_message (message : bytes) : CRes bytes :=
  if existsb (bytes_eqb message) STOCK_MESSAGES then Ok message
  else if negb (is_empty message) && (len message <=? 256) && negb (existsb is_break message)
  then Ok SAFE_MESSAGE
  else Err (ipc Malformed).

Definition c_digest (message : bytes) : CM bytes :=
  do d <- c_fixed 32; run d_ensure (bytes_eqb d (sha256 message)) (ipc BindingMismatch); ret d.

Definition valid_ttl (issued expires : Z) : bool :=
  match checked_add issued READY_REFERENCE_TTL_MS with
  | Some e => e =? expires
  | None => false
  end.

Definition decode_ready : CM ControlSuccess :=
  run require_key 1; do target_token <- c_fixed 32;
  run require_key 3; do process_generation <- c_safe;
  run require_key 4; do listener_epoch <- c_safe;
  run require_key 5; do issued <- c_safe;
  run require_key 6; do expires <- c_safe;
  run d_ensure (valid_ttl issued expires) (ipc InternalError);
  ret (TargetReady (mkReady target_token process_generation listener_epoch issued expires)).

Definition decode_opened : CM ControlSuccess :=
  run require_key 1; do target_token <- c_fixed 32;
  run require_key 2; do response <- c_message 65536;
  run require_key 3; do sha <- c_digest response;
  run require_key 4; do process_generation <- c_safe;
  run require_key 5; do listener_epoch <- c_safe;
  run require_key 6; do handoff <- c_enum decode_handoff;
  ret (SOpened (mkOpened target_token response sha process_generation listener_epoch handoff)).

Definition decode_exchange_complete : CM ControlSuccess :=
  run require_key 1; do target_token <- c_fixed 32;
  run require_key 2; do session_id <- c_session_id;
  run require_key 3; do process_generation <- c_safe;
  run require_key 4; do listener_epoch <- c_safe;
  run require_key 5; do message <- c_message 67108864;
  run require_key 6; do sha <- c_digest message;
  run require_key 7; do handoff <- c_enum decode_handoff;
  ret (SExchangeComplete (mkComplete target_token session_id process_generation listener_epoch
         message sha handoff)).

Definition decode_closed : CM ControlSuccess :=
  run require_key 1; do target_token <- c_fixed 32;
  do key <- c_u8;
  do ' (session_id, key) <-
    if key =? 2
    then do value <- c_session_id; do key <- c_u8; ret (Some value, key)
    else ret (None, key);
  run d_ensure (key =? 7) (ipc Malformed);
  do handoff <- c_enum decode_handoff;
  ret (SClosed (mkClosed target_token session_id handoff)).

Definition decode_success_body : CM ControlSuccess :=
  do count <- definite dec_map;
  run require_key 0; do kind <- c_u8;
  if (kind =? 0) && (count =? 6) then decode_ready
  else if (kind =? 1) && (count =? 7) then decode_opened
  else if (kind =? 2) && (count =? 8) then decode_exchange_complete
  else if (kind =? 3) && ((count =? 3) || (count =? 4)) then decode_closed
  else throw (ipc Malformed).

Definition decode_failure_body : CM ControlFailure :=
  run require_map 6;
  run require_key 0; do kind <- c_enum decode_kind;
  run require_key 1; do message <- (do m <- c_str; lift (stock_message m));
  run require_key 2; do retryable <- c_bool;
  run require_key 3; do stage <- c_enum decode_stage;
  run require_key 4; do handoff <- c_enum decode_handoff;
  run require_key 5; do reason <- c_enum close_reason;
  ret (mkFailure kind message retryable stage handoff reason).

Definition decode_result (cbor : bytes) : CRes ControlResult :=
  decode_with (
    run require_map 4;
    run require_key 0; do version <- c_u8;
    run d_ensure (version =? 1) (ipc Malformed);
    run require_key 1; do request_id <- c_fixed 16;
    run require_key 2; do succeeded <- c_bool;
    run require_key 3;
    do result <-
      (if succeeded : bool then do r <- decode_success_body; ret (Success request_id r)
       else do e <- decode_failure_body; ret (Failure request_id e));
    do position <- d_position;
    run d_ensure (position =? len cbor) (ipc Malformed);
    ret result) cbor.

Definition decode_result_packet (packet : bytes) : CRes ControlResult :=
  let? cbor := unframe packet in
  let? _ := validate_deterministic_cbor cbor in
  decode_result cbor.

(** *** Encoding a result *)

Definition validate_success (success : ControlSuccess) : CRes unit :=
  match success with
  | TargetReady r =>
      let? _ := require_safe_integer (rt_process_generation r) in
      let? _ := require_safe_integer (rt_listener_epoch r) in
      let? _ := require_safe_integer (issued_at_unix_ms r) in
      let? _ := require_safe_integer (expires_at_unix_ms r) in
      ensure (valid_ttl (issued_at_unix_ms r) (expires_at_unix_ms r)) (ipc BindingMismatch)
  | SOpened o =>
      check negb (is_empty (response o) || (65536 <? len (response o))) else ipc Oversize in
      check bytes_eqb (response_sha256 o) (sha256 (response o)) else ipc BindingMismatch in
      let? _ := require_safe_integer (so_process_generation o) in
      require_safe_integer (so_listener_epoch o)
  | SExchangeComplete x =>
      let? _ := require_session_id (ec_session_id x) in
      let? _ := require_safe_integer (ec_process_generation x) in
      let? _ := require_safe_integer (ec_listener_epoch x) in
      check negb (is_empty (ec_message x) || (67108864 <? len (ec_message x))) else ipc Oversize in
      ensure (bytes_eqb (ec_message_sha256 x) (sha256 (ec_message x))) (ipc BindingMismatch)
  | SClosed c =>
      match cd_session_id c with Some s => require_session_id s | None => Ok tt end
  end.

Definition encode_success_body (success : ControlSuccess) : CRes bytes :=
  match success with
  | TargetReady r =>
      c_chain [enc_map 6; enc_u8 0; enc_u8 0; enc_u8 1; enc_bytes (rt_target_token r);
               enc_u8 3; enc_u64 (rt_process_generation r); enc_u8 4;
               enc_u64 (rt_listener_epoch r); enc_u8 5; enc_u64 (issued_at_unix_ms r); enc_u8 6;
               enc_u64 (expires_at_unix_ms r)]
  | SOpened o =>
      c_chain [enc_map 7; enc_u8 0; enc_u8 1; enc_u8 1; enc_bytes (so_target_token o);
               enc_u8 2; enc_bytes (response o); enc_u8 3; enc_bytes (response_sha256 o);
               enc_u8 4; enc_u64 (so_process_generation o); enc_u8 5;
               enc_u64 (so_listener_epoch o); enc_u8 6; enc_u8 (HandoffState_wire (so_handoff o))]
  | SExchangeComplete x =>
      c_chain [enc_map 8; enc_u8 0; enc_u8 2; enc_u8 1; enc_bytes (ec_target_token x);
               enc_u8 2; enc_str (ec_session_id x); enc_u8 3;
               enc_u64 (ec_process_generation x); enc_u8 4; enc_u64 (ec_listener_epoch x);
               enc_u8 5; enc_bytes (ec_message x); enc_u8 6; enc_bytes (ec_message_sha256 x);
               enc_u8 7; enc_u8 (HandoffState_wire (ec_handoff x))]
  | SClosed c =>
      let? h := c_chain [enc_map (if is_Some_b (cd_session_id c) then 4 else 3); enc_u8 0;
                         enc_u8 3; enc_u8 1; enc_bytes (cd_target_token c)] in
      let? s := match cd_session_id c with
        | Some session_id => c_chain [enc_u8 2; enc_str session_id]
        | None => Ok []
        end in
      let? t := c_chain [enc_u8 7; enc_u8 (HandoffState_wire (cd_handoff c))] in
      Ok (h ++ s ++ t)
  end.

Definition success_cap (success : ControlSuccess) : Z :=
  match success with
  | SOpened _ => OPEN_SESSION_CBOR_CAP
  | SExchangeComplete _ => GLOBAL_CBOR_CAP
  | _ => NON_EXCHANGE_CBOR_CAP
  end.

(** The header both kinds of result share. *)
Definition result_header (request_id : bytes) (succeeded : bool) : CRes bytes :=
  c_chain [enc_map 4; enc_u8 0; enc_u8 1; enc_u8 1; enc_bytes request_id; enc_u8 2;
           enc_bool succeeded; enc_u8 3].

Definition encode_success_packet (request_id : bytes) (success : ControlSuccess) : CRes bytes :=
  let? _ := validate_success success in
  let? header := result_header request_id true in
  let? body := encode_success_body success in
  let? packet := frame (header ++ body) (success_cap success) in
  let? r := decode_result_packet packet in
  check bool_decide (r = Success request_id success) else ipc InternalError in
  Ok packet.

Definition encode_failure_packet (request_id : bytes) (failure : ControlFailure) : CRes bytes :=
  check negb (is_empty (f_message failure) || (256 <? len (f_message failure))
              || existsb is_break (f_message failure)) else ipc InternalError in
  let? header := result_header request_id false in
  let? body := c_chain [enc_map 6; enc_u8 0; enc_u8 (ErrorKind_wire (f_kind failure)); enc_u8 1;
                        enc_str (f_message failure); enc_u8 2; enc_bool (f_retryable failure);
                        enc_u8 3; enc_u8 (ErrorStage_wire (f_stage failure)); enc_u8 4;
                        enc_u8 (HandoffState_wire (f_handoff failure)); enc_u8 5;
                        enc_u8 (CloseReason_wire (f_close_reason failure))] in
  frame (header ++ body) NON_EXCHANGE_CBOR_CAP.
End Results.

(** ** The incremental decoder of one request *)

Record ControlPacketDecoder := mkPacketDecoder {
  cpd_pending : bytes;
  expected_total : option Z;
  finished : bool
}.

Definition ControlPacketDecoder_new : ControlPacketDecoder := mkPacketDecoder [] None false.

Section Stream.
Context `{Minicbor}.

Definition PM := M ControlPacketDecoder ControlFailure.

(** The operation, when the header is complete; the errors are dropped by [.ok()?]. *)
Definition request_operation_prefix (cbor : bytes) : option Z :=
  let no := ipc Malformed in
  match decode_with (
    do n <- d_item no dec_map; run d_ensure (bool_decide (n = Some 5)) no;
    do k <- d_item no dec_u8; run d_ensure (k =? 0) no;
    do k <- d_item no dec_u8; run d_ensure (k =? 1) no;
    do k <- d_item no dec_u8; run d_ensure (k =? 1) no;
    do b <- d_item no dec_bytes; run d_ensure (len b =? 16) no;
    do k <- d_item no dec_u8; run d_ensure (k =? 2) no;
    do _ <- d_item no dec_u64;
    do k <- d_item no dec_u8; run d_ensure (k =? 3) no;
    d_item no dec_u8) cbor with
  | Ok operation => Some operation
  | Err _ => None
  end.

Definition cpd_reject {A} (reason : CloseReason) : PM A := fun d =>
  (Err (ipc reason), mkPacketDecoder [] (expected_total d) true).

(** The first 64 bytes of what has arrived. *)
Definition packet_prefix (pending input : bytes) : bytes :=
  let prefix := take 64 pending in
  if len prefix <? 64 then prefix ++ take (64 - length prefix) input else prefix.

(** The checks of [push] before the input is kept. *)
Definition prefix_check (prefix : bytes) (prospective : Z) : PM unit :=
  if 4 <=? len prefix then
    let declared := be_decode (take 4 prefix) in
    if declared =? 0 then cpd_reject Malformed
    else if EXCHANGE_REQUEST_CBOR_CAP <? declared then cpd_reject Oversize
    else
      run modify (fun d => mkPacketDecoder (cpd_pending d) (Some (declared + 4)) (finished d));
      if declared + 4 <? prospective then cpd_reject Malformed
      else
        match request_operation_prefix (drop 4 prefix) with
        | Some operation =>
            if negb (operation <=? 4) then cpd_reject Malformed
            else if request_cap operation <? declared then cpd_reject Oversize
            else ret tt
        | None => if len prefix =? 64 then cpd_reject Malformed else ret tt
        end
  else if 64 <? prospective then cpd_reject Malformed
  else ret tt.

Definition cpd_push (input : bytes) : PM (option ControlRequest) :=
  do d <- get;
  if finished d then throw (ipc SequenceViolation)
  else
    let prospective := Z.min (len (cpd_pending d) + len input) U64_MAX in
    run prefix_check (packet_prefix (cpd_pending d) input) prospective;
    run modify (fun d => mkPacketDecoder (cpd_pending d ++ input) (expected_total d) (finished d));
    do d <- get;
    match expected_total d with
    | None => ret None
    | Some expected =>
        if len (cpd_pending d) <? expected then ret None
        else if negb (len (cpd_pending d) =? expected) then cpd_reject Malformed
        else
          run modify (fun d => mkPacketDecoder (cpd_pending d) (expected_total d) true);
          lift (let? r := decode_request_packet (cpd_pending d) in Ok (Some r))
    end.

Definition cpd_timeout : PM unit :=
  do d <- get;
  if finished d then throw (ipc SequenceViolation)
  else if is_empty (cpd_pending d) then ret tt
  else cpd_reject Timeout.

Definition cpd_eof : PM unit :=
  do d <- get;
  if finished d then throw (ipc SequenceViolation)
  else if is_empty (cpd_pending d)
  then modify (fun d => mkPacketDecoder (cpd_pending d) (expected_total d) true)
  else cpd_reject Malformed.
End Stream.
