(* ===== verification/Names.v ===== *)
(** The texts of the control channel as grammars, independent of the code's checks: session
    ids, device selectors, application ids, artifact paths and capabilities, with the
    equivalence of each check of [control.rs] and its grammar. *)

From Stdlib Require Import Sorting.Sorted.
From S2P Require Import Prelude Errors Crates Cbor Records Control.

(** ** Grammars *)

Definition lower (b : byte) : Prop := 97 <= u8 b <= 122.
Definition upper (b : byte) : Prop := 65 <= u8 b <= 90.
Definition digit (b : byte) : Prop := 48 <= u8 b <= 57.
Definition alphanumeric (b : byte) : Prop := lower b \/ upper b \/ digit b.

(** Letters, digits and the characters of [cs]. *)
Definition word_char (cs : bytes) (b : byte) : Prop := alphanumeric b \/ In b cs.

Definition session_name (s : bytes) : Prop :=
  16 <= len s <= 128 /\ Forall (word_char (str "._~-")) s.
Definition selector_name (s : bytes) : Prop :=
  1 <= len s <= 256 /\ Forall (word_char (str "._:-")) s.
(** Starts and ends with a letter or a digit. *)
Definition app_name (s : bytes) : Prop :=
  3 <= len s <= 255 /\ Forall (word_char (str "._-")) s /\
  (exists a r, s = a :: r /\ alphanumeric a) /\ (exists r z, s = r ++ [z] /\ alphanumeric z).
(** An absolute path on one line. *)
Definition artifact_path (s : bytes) : Prop :=
  2 <= len s <= 4096 /\ (exists r, s = b8 47 :: r) /\
  Forall (fun b => ~ In b [b8 0; b8 10; b8 13]) s.

Definition capability_part (p : bytes) : Prop :=
  exists a r, p = a :: r /\ r <> [] /\ lower a /\ Forall (fun b => lower b \/ digit b) r.
Fixpoint dotted (parts : list bytes) : bytes :=
  match parts with
  | [] => []
  | [p] => p
  | p :: parts => p ++ b8 46 :: dotted parts
  end.
(** Two or more parts, joined by dots. *)
Definition capability_name (s : bytes) : Prop :=
  3 <= len s <= 128 /\
  exists parts, (2 <= length parts)%nat /\ Forall capability_part parts /\ s = dotted parts.

(** Strict lexicographic order. *)
Fixpoint lex_lt (a b : bytes) : Prop :=
  match a, b with
  | _, [] => False
  | [], _ :: _ => True
  | x :: a, y :: b => u8 x < u8 y \/ (x = y /\ lex_lt a b)
  end.

Definition capability_list (l : list bytes) : Prop :=
  1 <= len l <= 32 /\ Forall capability_name l /\ StronglySorted lex_lt l.

(** ** The checks of characters *)

Lemma is_lower_iff b : is_lower b = true <-> lower b.
Proof. unfold is_lower, in_range, lower. rewrite andb_true_iff, !Z.leb_le. done. Qed.
Lemma is_upper_iff b : is_upper b = true <-> upper b.
Proof. unfold is_upper, in_range, upper. rewrite andb_true_iff, !Z.leb_le. done. Qed.
Lemma is_digit_iff b : is_digit b = true <-> digit b.
Proof. unfold is_digit, in_range, digit. rewrite andb_true_iff, !Z.leb_le. done. Qed.
Lemma is_alphanumeric_iff b : is_alphanumeric b = true <-> alphanumeric b.
Proof.
  unfold is_alphanumeric, alphanumeric.
  rewrite !orb_true_iff, is_lower_iff, is_upper_iff, is_digit_iff. intuition.
Qed.
Lemma one_of_iff cs b : one_of cs b = true <-> In b cs.
Proof.
  unfold one_of. rewrite existsb_exists. setoid_rewrite Z.eqb_eq. split.
  - intros (c & Hc & He). by apply u8_inj in He as <-.
  - intros Hb. by exists b.
Qed.
Lemma word_char_iff cs b : is_alphanumeric b || one_of cs b = true <-> word_char cs b.
Proof. by rewrite orb_true_iff, is_alphanumeric_iff, one_of_iff. Qed.

Lemma forallb_Forall {A} (p : A -> bool) (P : A -> Prop) l :
  (forall a, p a = true <-> P a) -> forallb p l = true <-> Forall P l.
Proof.
  intros HP. rewrite forallb_forall, List.Forall_forall. by setoid_rewrite HP.
Qed.

Lemma word_chars_iff cs l :
  forallb (fun b => is_alphanumeric b || one_of cs b) l = true <-> Forall (word_char cs) l.
Proof. apply forallb_Forall, word_char_iff. Qed.

(** ** The checks of names *)

Lemma session_name_iff s u : require_session_id s = Ok u <-> session_name s.
Proof.
  unfold require_session_id, session_name, CRes.
  by rewrite ensure_ok, negb_true_iff, orb_false_iff, !negb_false_iff, andb_true_iff, !Z.leb_le,
    word_chars_iff.
Qed.

Lemma selector_name_iff s :
  negb (negb ((1 <=? len s) && (len s <=? 256)) || negb (forallb valid_selector_byte s)) = true
  <-> selector_name s.
Proof.
  unfold selector_name, valid_selector_byte.
  by rewrite negb_true_iff, orb_false_iff, !negb_false_iff, andb_true_iff, !Z.leb_le, word_chars_iff.
Qed.

Lemma opt_head (p : byte -> bool) s :
  opt_all p (head s) = true <-> exists a r, s = a :: r /\ p a = true.
Proof. destruct s as [|a s]; cbn; naive_solver. Qed.
Lemma opt_last (p : byte -> bool) s :
  opt_all p (last s) = true <-> exists r z, s = r ++ [z] /\ p z = true.
Proof.
  destruct s as [|z s _] using rev_ind; [split; [done|by intros ([] & ? & ? & _)]|].
  rewrite last_snoc. cbn. split; [by eauto|]. by intros (r & y & [_ <-]%app_inj_tail & ?).
Qed.

Lemma app_name_iff s : valid_app_id s = true <-> app_name s.
Proof.
  unfold valid_app_id, app_name.
  rewrite !andb_true_iff, !Z.leb_le, word_chars_iff, opt_head, opt_last.
  setoid_rewrite is_alphanumeric_iff. tauto.
Qed.

Lemma artifact_path_iff s :
  negb ((4096 <? len s) || negb (opt_all (one_of (str "/")) (head s)) || (len s <? 2)
        || existsb is_break s) = true <-> artifact_path s.
Proof.
  unfold artifact_path.
  rewrite negb_true_iff, !orb_false_iff, negb_false_iff, !Z.ltb_ge, opt_head.
  assert (Hb : existsb is_break s = false <-> Forall (fun b => ~ In b [b8 0; b8 10; b8 13]) s).
  { rewrite <- not_true_iff_false, existsb_exists, List.Forall_forall. unfold is_break.
    setoid_rewrite one_of_iff. cbn. firstorder. }
  rewrite Hb. setoid_rewrite one_of_iff. split.
  - intros (((Hl & a & r & -> & [<-|[]]) & H2) & Hf). split_and!; eauto; lia.
  - intros ((H2 & Hl) & (r & ->) & Hf). split_and!; try lia; [|done]. exists (b8 47), r. cbn. auto.
Qed.

(** ** Capabilities *)

Lemma valid_part_iff p : valid_part p = true <-> capability_part p.
Proof.
  unfold valid_part, capability_part.
  rewrite !andb_true_iff, opt_head, Z.leb_le.
  rewrite (forallb_Forall _ (fun b => lower b \/ digit b))
    by (intros b; by rewrite orb_true_iff, is_lower_iff, is_digit_iff).
  setoid_rewrite is_lower_iff. split.
  - intros [[Hl (a & r & -> & Ha)] Hf]. exists a, r. apply Forall_cons in Hf as [_ Hf].
    split_and!; auto. intros ->. by rewrite len_cons, len_nil in Hl.
  - intros (a & r & -> & Hr & Ha & Hf). split_and!; [|eauto|by constructor; auto].
    rewrite len_cons. destruct r; [done|]. rewrite len_cons. pose proof (len_nonneg r). lia.
Qed.

Lemma split_on_spec c l parts :
  split_on c l = parts -> parts <> [] /\ Forall (Forall (fun b => b <> c)) parts.
Proof.
  intros <-. induction l as [|b l [Hn IH]]; cbn [split_on]; [by repeat constructor|].
  destruct (Z.eqb_spec (u8 b) (u8 c)) as [Hb|Hb]; [by repeat constructor|].
  destruct (split_on c l) as [|p ps]; [done|]. split; [done|].
  apply Forall_cons in IH as [Hp Hps]. repeat constructor; auto. by intros ->.
Qed.

Lemma dotted_cons b p ps : dotted ((b :: p) :: ps) = b :: dotted (p :: ps).
Proof. by destruct ps. Qed.

Lemma dotted_split l : dotted (split_on (b8 46) l) = l.
Proof.
  induction l as [|b l IH]; cbn [split_on]; [done|].
  destruct (split_on_spec (b8 46) l _ eq_refl) as [Hn _].
  destruct (Z.eqb_spec (u8 b) (u8 (b8 46))) as [Hb|_].
  - apply u8_inj in Hb as ->. destruct (split_on _ l) as [|p ps]; [done|]. cbn in *. by rewrite IH.
  - destruct (split_on _ l) as [|p ps]; [done|]. by rewrite dotted_cons, IH.
Qed.

Lemma split_part c p l :
  Forall (fun b => b <> c) p -> split_on c (p ++ c :: l) = p :: split_on c l.
Proof.
  induction 1 as [|b p Hb _ IH]; cbn [app split_on]; [by rewrite Z.eqb_refl|].
  destruct (Z.eqb_spec (u8 b) (u8 c)) as [He|_]; [by apply u8_inj in He|]. by rewrite IH.
Qed.
Lemma split_last c p : Forall (fun b => b <> c) p -> split_on c p = [p].
Proof.
  induction 1 as [|b p Hb _ IH]; cbn [split_on]; [done|].
  destruct (Z.eqb_spec (u8 b) (u8 c)) as [He|_]; [by apply u8_inj in He|]. by rewrite IH.
Qed.
Lemma split_dotted parts :
  parts <> [] -> Forall (Forall (fun b => b <> b8 46)) parts -> split_on (b8 46) (dotted parts) = parts.
Proof.
  intros Hn Hf. induction Hf as [|p ps Hp Hps IH]; [done|]. destruct ps as [|q ps].
  - by apply split_last.
  - change (dotted (p :: q :: ps)) with (p ++ b8 46 :: dotted (q :: ps)).
    rewrite split_part by done. by rewrite IH.
Qed.

Lemma part_no_dot p : capability_part p -> Forall (fun b => b <> b8 46) p.
Proof.
  assert (Hd : u8 (b8 46) = 46) by done.
  intros (a & r & -> & _ & Ha & Hr). constructor.
  - intros ->. unfold lower in Ha. lia.
  - eapply Forall_impl; [exact Hr|]. intros b Hb ->. unfold lower, digit in Hb. lia.
Qed.

Lemma capability_name_iff s : valid_capability s = true <-> capability_name s.
Proof.
  unfold valid_capability, capability_name. rewrite !andb_true_iff, !Z.leb_le.
  rewrite (forallb_Forall _ capability_part) by apply valid_part_iff. split.
  - intros ((Hl & Hn) & Hp). split; [done|]. exists (split_on (b8 46) s).
    split_and!; [unfold len in Hn; lia|done|by rewrite dotted_split].
  - intros (Hl & parts & Hn & Hp & ->).
    assert (Hs : split_on (b8 46) (dotted parts) = parts).
    { apply split_dotted; [by intros ->; cbn in Hn; lia|].
      eapply Forall_impl; [exact Hp|]. apply part_no_dot. }
    rewrite Hs. split; [split; [done|unfold len; lia]|done].
Qed.

(** ** The order of capabilities *)

Lemma lex_lt_iff a b : bytes_leb b a = false <-> lex_lt a b.
Proof.
  revert b. induction a as [|x a IH]; intros [|y b]; cbn; try done.
  destruct (Z.eqb_spec (u8 y) (u8 x)) as [He|He].
  - apply u8_inj in He as ->. rewrite IH. split; [auto|]. intros [?|[_ ?]]; [lia|done].
  - rewrite Z.ltb_ge. split; [left; lia|]. intros [?|[-> _]]; [lia|done].
Qed.

Lemma lex_lt_trans a b c : lex_lt a b -> lex_lt b c -> lex_lt a c.
Proof.
  revert b c. induction a as [|x a IH]; intros [|y b] [|z c]; cbn; try done.
  intros [Hxy|[-> Hab]] [Hyz|[-> Hbc]]; [lia|auto|auto|]. right. split; [done|]. eauto.
Qed.

Lemma lex_lt_irrefl a : ~ lex_lt a a.
Proof. induction a as [|x a IH]; cbn; [tauto|]. intros [?|[_ ?]]; [lia|auto]. Qed.

(** The loop's check of each capability against the one before it. *)
Fixpoint capabilities_rise (previous : list bytes) (l : list bytes) : Prop :=
  match l with
  | [] => True
  | c :: l => capability_after previous c = true /\ capabilities_rise (previous ++ [c]) l
  end.

Lemma capability_after_iff previous c :
  capability_after previous c = true <->
  capability_name c /\ match last previous with Some p => lex_lt p c | None => True end.
Proof.
  unfold capability_after. rewrite andb_true_iff, capability_name_iff.
  destruct (last previous) as [p|]; [|cbn; tauto]. by rewrite negb_true_iff, lex_lt_iff.
Qed.

Lemma capabilities_rise_after previous l :
  capabilities_rise previous l <->
  Forall capability_name l /\ StronglySorted lex_lt l /\
  match last previous with Some p => Forall (lex_lt p) l | None => True end.
Proof.
  revert previous. induction l as [|c l IH]; intros previous; cbn [capabilities_rise].
  - split; [|done]. intros _. split_and!; [constructor..|]. destruct (last previous); constructor.
  - rewrite capability_after_iff, IH, last_snoc, Forall_cons. split.
    + intros ([Hc Hp] & Hl & Hs & Hcl). split_and!; [done..|by constructor|].
      destruct (last previous) as [p|]; [|done]. constructor; [done|].
      eapply Forall_impl; [exact Hcl|]. eauto using lex_lt_trans.
    + intros ([Hc Hl] & Hs & Hp). apply StronglySorted_inv in Hs as [Hs Hcl]. split_and!; [done| |done..].
      destruct (last previous) as [p|]; [|done]. by apply Forall_cons in Hp as [? _].
Qed.

Lemma capability_list_iff l :
  capability_list l <-> 1 <= len l <= 32 /\ capabilities_rise [] l.
Proof. unfold capability_list. rewrite capabilities_rise_after. cbn. tauto. Qed.
