(* ===== verification/Deterministic.v ===== *)
(** The deterministic CBOR the control channel accepts, as trees with a printer, and the
    validator of [control.rs] against them: it accepts exactly what the printer writes, and
    it ends on every input. *)

From S2P Require Import Prelude Errors Crates Wire Cbor Records Control.

(** ** Trees *)

Inductive cbor : Type :=
| CUint (n : Z)
| CBytes (b : bytes)
| CStr (b : bytes)
| CArray (l : list cbor)
| CMap (l : list (Z * cbor))
| CBool (v : bool).

(** The shortest encoding (RFC 8949, 4.2.1). *)
Fixpoint cbor_bytes (c : cbor) : bytes :=
  match c with
  | CUint n => cbor_head 0 n
  | CBytes b => cbor_head 2 (len b) ++ b
  | CStr b => cbor_head 3 (len b) ++ b
  | CArray l => cbor_head 4 (len l) ++ concat (map cbor_bytes l)
  | CMap l =>
      cbor_head 5 (len l) ++ concat (map (fun e => cbor_head 0 (fst e) ++ cbor_bytes (snd e)) l)
  | CBool v => cbor_head 7 (if v then 21 else 20)
  end.
Definition entry_bytes (e : Z * cbor) : bytes := cbor_head 0 (fst e) ++ cbor_bytes (snd e).

(** The keys rise, from above [previous]. *)
Fixpoint rising (previous : option Z) (keys : list Z) : Prop :=
  match keys with
  | [] => True
  | k :: keys =>
      match previous with Some p => p < k | None => True end /\ rising (Some k) keys
  end.

(** A tree below [depth] levels: nothing is nested 64 deep, integers and lengths are u64,
    strings are UTF-8, and the keys of a map are unsigned integers in rising order. *)
Fixpoint cbor_ok (depth : Z) (c : cbor) : Prop :=
  depth < 64 /\
  match c with
  | CUint n => 0 <= n <= U64_MAX
  | CBytes b => len b <= U64_MAX
  | CStr b => len b <= U64_MAX /\ valid_utf8 b = true
  | CArray l => len l <= U64_MAX /\ foldr (fun c P => cbor_ok (depth + 1) c /\ P) True l
  | CMap l =>
      len l <= U64_MAX /\ rising None (map fst l) /\
      foldr (fun e P => 0 <= fst e <= U64_MAX /\ cbor_ok (depth + 1) (snd e) /\ P) True l
  | CBool _ => True
  end.

(** ** Stretches of the buffer *)

(** [x] is what [b] holds between the offsets. *)
Definition spans (b : bytes) (off : Z) (x : bytes) (off' : Z) : Prop :=
  exists pre post, b = pre ++ x ++ post /\ off = len pre /\ off' = len pre + len x.

Lemma spans_app b off x y off2 :
  spans b off (x ++ y) off2 <-> exists off1, spans b off x off1 /\ spans b off1 y off2.
Proof.
  split.
  - intros (pre & post & Hb & -> & ->). exists (len pre + len x). autorewrite with len. split.
    + exists pre, (y ++ post). split_and!; [by rewrite Hb, <- app_assoc|done|done].
    + exists (pre ++ x), post. autorewrite with len.
      split_and!; [by rewrite Hb, <- !app_assoc|done|lia].
  - intros (off1 & (pre & post & Hb & -> & ->) & (pre' & post' & Hb' & Hp & ->)).
    assert (pre' = pre ++ x) as ->.
    { rewrite Hb, app_assoc in Hb'. apply app_inj_1 in Hb' as [? _]; [done|].
      unfold len in Hp. rewrite length_app. lia. }
    exists pre, post'. autorewrite with len. split_and!; [by rewrite Hb', <- !app_assoc|done|lia].
Qed.

Lemma spans_range b off x off' : spans b off x off' -> 0 <= off /\ off' = off + len x /\ off' <= len b.
Proof.
  intros (pre & post & -> & -> & ->). autorewrite with len.
  pose proof (len_nonneg pre). pose proof (len_nonneg post). lia.
Qed.

(** The range of a stretch, in terms [lia] understands. *)
Ltac span_range H :=
  let Hr := fresh "Hr" in
  pose proof (spans_range _ _ _ _ H) as Hr; autorewrite with len in Hr;
  repeat match goal with
  | _ : context [len ?l] |- _ =>
      lazymatch goal with
      | _ : 0 <= len l |- _ => fail
      | _ => pose proof (len_nonneg l)
      end
  end.

Lemma spans_nil b off : 0 <= off <= len b -> spans b off [] off.
Proof.
  intros Ho. exists (take (Z.to_nat off) b), (drop (Z.to_nat off) b).
  unfold len in *. rewrite length_take. cbn [length app]. rewrite take_drop. split_and!; lia || done.
Qed.

Lemma spans_full b : spans b 0 b (len b).
Proof. exists [], []. by rewrite app_nil_r. Qed.

Lemma spans_inv_full b x : spans b 0 x (len b) -> x = b.
Proof.
  intros (pre & post & -> & Hp & Hl). autorewrite with len in Hl. symmetry in Hp.
  apply len_0 in Hp as ->. assert (Hq : len post = 0) by (cbn in *; rewrite len_nil in *; lia).
  apply len_0 in Hq as ->. by rewrite app_nil_r.
Qed.

(** ** What the validator accepts *)

(** From [off], [m] either fails, without running out of fuel, or takes a stretch that
    satisfies [Q]. *)
Definition parses {A} (b : bytes) (m : VM A) (off : Z) (Q : A -> bytes -> Prop) : Prop :=
  match m off with
  | (Ok a, off') => exists x, spans b off x off' /\ Q a x
  | (Err e, _) => e <> None
  end.

Lemma parses_bind {A B} b (m : VM A) (k : A -> VM B) off Q R :
  parses b m off Q ->
  (forall a x off', spans b off x off' -> Q a x -> parses b (k a) off' (fun c y => R c (x ++ y))) ->
  parses b (mbind_M m k) off R.
Proof.
  unfold parses, mbind_M. intros Hm Hk. destruct (m off) as [[a|e] off']; [|done].
  destruct Hm as (x & Hs & HQ). specialize (Hk _ _ _ Hs HQ).
  destruct (k a off') as [[c|e] off2]; [|done]. destruct Hk as (y & Hy & HR).
  exists (x ++ y). split; [apply spans_app; eauto|done].
Qed.

Lemma parses_conseq {A} b (m : VM A) off (Q R : A -> bytes -> Prop) :
  parses b m off Q -> (forall a x, Q a x -> R a x) -> parses b m off R.
Proof.
  unfold parses. intros Hm HQ. destruct (m off) as [[a|e] off']; [|done].
  destruct Hm as (x & ? & ?). eauto.
Qed.

Lemma parses_ret {A} b off (a : A) (Q : A -> bytes -> Prop) :
  0 <= off <= len b -> Q a [] -> parses b (ret a) off Q.
Proof. intros Ho HQ. exists []. split; [by apply spans_nil|done]. Qed.

Lemma parses_fail {A} b off r (Q : A -> bytes -> Prop) : parses b (vfail r) off Q.
Proof. done. Qed.

Lemma parses_ensure b off p r (Q : unit -> bytes -> Prop) :
  0 <= off <= len b -> (p = true -> Q tt []) ->
  parses b (lift (ensure p (Some (ipc r)))) off Q.
Proof. intros Ho HQ. destruct p; [by apply parses_ret; auto|done]. Qed.

Lemma parses_byte b off :
  0 <= off <= len b -> parses b (take_byte b) off (fun z x => 0 <= z < 256 /\ x = [b8 z]).
Proof.
  intros Ho. unfold parses, take_byte. destruct (b !! Z.to_nat off) as [c|] eqn:Hc; [|done].
  exists [c]. split; [|split; [apply u8_range|by rewrite b8_u8]].
  apply list_elem_of_split_length in Hc as (pre & post & -> & Hp). exists pre, post.
  split_and!; [done|unfold len; lia|rewrite len_cons, len_nil; unfold len; lia].
Qed.

Lemma parses_bytes b n off :
  0 <= off <= len b -> parses b (take_bytes n b) off (fun l x => l = x /\ length x = n).
Proof.
  revert off. induction n as [|n IH]; intros off Ho; cbn [take_bytes].
  { by apply parses_ret. }
  eapply parses_bind; [by apply parses_byte|]. intros z x off1 Hs [Hz ->].
  span_range Hs. eapply parses_bind; [apply IH; lia|]. intros l y off2 Hs2 [-> Hy].
  span_range Hs2.
  apply parses_ret; [lia|]. cbn [app length]. rewrite app_nil_r. by split; [|lia].
Qed.

(** The argument of a head is the shortest one. *)
Definition short_arg (info v : Z) (x : bytes) : Prop :=
  0 <= v <= U64_MAX /\ info = info_of (width_of v) v /\ x = arg_of (width_of v) v.

Lemma short_arg_head m info v x : short_arg info v x -> cbor_head m v = b8 (m * 32 + info) :: x.
Proof. intros (_ & -> & ->). unfold cbor_head. by rewrite wide_head_eq. Qed.

Lemma parses_wide b n off (minimum : Z) info :
  0 <= off <= len b ->
  (forall v, 0 <= v < 256 ^ Z.of_nat n -> minimum <= v -> short_arg info v (be_encode n v)) ->
  parses b (do ' (value, minimum) <- (do raw <- take_bytes n b; ret (be_decode raw, minimum));
            if value <? minimum then vfail Malformed else ret value) off (short_arg info).
Proof.
  intros Ho Hv. eapply parses_bind with (Q := fun r x => r = (be_decode x, minimum) /\ length x = n).
  - eapply parses_bind; [by apply parses_bytes|]. intros l x off1 Hs [-> Hx].
    span_range Hs. apply parses_ret; [lia|].
    by rewrite app_nil_r.
  - intros [v mn] x off1 Hs [[= -> ->] Hx]. span_range Hs.
    destruct (Z.ltb_spec (be_decode x) minimum); [done|]. apply parses_ret; [lia|].
    rewrite app_nil_r. pose proof (be_decode_range x) as Hd. pose proof (be_encode_decode x) as He.
    unfold len in Hd. rewrite Hx in Hd, He. rewrite <- He. rewrite He at 1. auto.
Qed.

Ltac wide_case :=
  apply parses_wide; [done|]; unfold short_arg, width_of, U64_MAX; intros v Hv Hm;
  cbn in *; decide_cmp; split_and!; done || lia.

Lemma parses_argument b info off :
  0 <= info < 32 -> 0 <= off <= len b -> parses b (read_argument b info) off (short_arg info).
Proof.
  intros Hi Ho. unfold read_argument. unfold short_arg, width_of, U64_MAX.
  destruct (Z.leb_spec info 23).
  { apply parses_ret; [done|]. by destruct (Z.ltb_spec info 24); cbn; split_and!; try lia. }
  destruct (Z.eqb_spec info 24) as [->|]; [by wide_case|].
  destruct (Z.eqb_spec info 25) as [->|]; [by wide_case|].
  destruct (Z.eqb_spec info 26) as [->|]; [by wide_case|].
  destruct (Z.eqb_spec info 27) as [->|]; [by wide_case|].
  eapply parses_bind; [apply parses_fail with (Q := fun _ _ => False)|]. intros ? ? ? _ [].
Qed.

Lemma parses_string b major length off :
  0 <= off <= len b -> 0 <= length ->
  parses b (string_item b major length) off
    (fun _ x => len x = length /\ (major = 3 -> valid_utf8 x = true)).
Proof.
  intros Ho Hl. unfold parses, string_item. rewrite get_bind.
  destruct (checked_add off length) as [e|] eqn:He; [|done].
  apply checked_add_some in He as [-> He]. destruct (Z.ltb_spec (len b) (off + length)); [done|].
  set (x := take (Z.to_nat length) (drop (Z.to_nat off) b)).
  destruct ((major =? 3) && negb (valid_utf8 x)) eqn:Hu; [done|].
  assert (Hx : len x = length).
  { unfold x, len in *. rewrite length_take, length_drop. lia. }
  exists x. split_and!; [|done|].
  - exists (take (Z.to_nat off) b), (drop (Z.to_nat length) (drop (Z.to_nat off) b)).
    unfold x. rewrite !take_drop. fold x. unfold len in *. rewrite length_take. split_and!; lia || done.
  - intros ->. by destruct (valid_utf8 x).
Qed.

(** A loop parses the concatenation of what its turns parse. *)
Section Loop.
Context {A : Type} (b : bytes) (turn : A -> VM A) (lo : Z)
  (T : A -> A -> bytes -> Prop) (J : Z -> A -> A -> bytes -> Prop).
Hypothesis turn_parses : forall a off, lo <= off <= len b ->
  parses b (turn a) off (fun a' x => 1 <= len x /\ T a a' x).
Hypothesis J_nil : forall a, J 0 a a [].
Hypothesis J_cons : forall n a a1 a2 x y,
  0 <= n -> T a a1 x -> J n a1 a2 y -> J (n + 1) a a2 (x ++ y).

Lemma parses_loop fuel count a off :
  0 <= lo <= off -> off <= len b -> len b - off < Z.of_nat fuel -> 0 <= count ->
  parses b (for_loop fuel count turn a) off (J count a).
Proof using All.
  revert count a off. induction fuel as [|fuel IH]; intros count a off Hlo Ho Hf Hc; [lia|].
  cbn [for_loop]. destruct (Z.leb_spec count 0).
  { apply parses_ret; [lia|]. by replace count with 0 by lia. }
  eapply parses_bind; [apply turn_parses; lia|]. intros a1 x off1 Hs [Hx HT]. span_range Hs.
  eapply parses_conseq; [apply IH; lia|]. intros a2 y HJ. cbn beta.
  replace count with (count - 1 + 1) by lia. apply J_cons with a1; [lia|done..].
Qed.
End Loop.

Lemma cbor_bytes_len c : 1 <= len (cbor_bytes c).
Proof.
  destruct c as [n|x|x|l|l|v]; cbn [cbor_bytes]; autorewrite with len.
  all: lazymatch goal with |- context [cbor_head ?m ?n] => pose proof (cbor_head_len m n) end.
  all: repeat match goal with |- context [len ?x] => lazymatch x with cbor_head _ _ => fail
                | _ => pose proof (len_nonneg x); generalize dependent (len x); intros end end.
  all: lia.
Qed.

Definition parsed (depth : Z) (x : bytes) : Prop :=
  exists c, cbor_ok depth c /\ x = cbor_bytes c.
Definition items_parsed (depth n : Z) (x : bytes) : Prop :=
  exists l, len l = n /\ foldr (fun c P => cbor_ok depth c /\ P) True l /\
    x = concat (map cbor_bytes l).
Definition entries_parsed (depth : Z) (previous : option Z) (n : Z) (x : bytes) : Prop :=
  exists l, len l = n /\ rising previous (map fst l) /\
    foldr (fun e P => 0 <= fst e <= U64_MAX /\ cbor_ok depth (snd e) /\ P) True l /\
    x = concat (map entry_bytes l).

Lemma items_parsed_cons depth n x y :
  parsed depth x -> items_parsed depth n y -> items_parsed depth (n + 1) (x ++ y).
Proof.
  intros (c & Hc & ->) (l & <- & Hl & ->). exists (c :: l). rewrite len_cons. cbn.
  split_and!; done || lia.
Qed.

Lemma entries_parsed_cons depth previous k n x y :
  0 <= k <= U64_MAX -> match previous with Some p => p < k | None => True end ->
  parsed depth x -> entries_parsed depth (Some k) n y ->
  entries_parsed depth previous (n + 1) ((cbor_head 0 k ++ x) ++ y).
Proof.
  intros Hk Hp (c & Hc & ->) (l & <- & Hr & Hl & ->). exists ((k, c) :: l). rewrite len_cons. cbn.
  split_and!; done || lia.
Qed.

(** The initial byte of an item. *)
Lemma initial_of m i :
  0 <= i < 32 -> Z.shiftr (m * 32 + i) 5 = m /\ Z.land (m * 32 + i) 31 = i.
Proof.
  intros Hi. change 31 with (Z.ones 5). rewrite Z.land_ones, Z.shiftr_div_pow2 by lia.
  change (2 ^ 5) with 32. rewrite Z.div_add_l, Z.div_small, Z.add_0_r by lia.
  by rewrite Z.add_comm, Z.mod_add, Z.mod_small by lia.
Qed.

Lemma split_initial z :
  0 <= z < 256 -> exists m i, 0 <= m < 8 /\ 0 <= i < 32 /\ z = m * 32 + i.
Proof.
  intros Hz. exists (z / 32), (z mod 32). pose proof (Z.div_mod z 32).
  pose proof (Z.mod_pos_bound z 32). split_and!; lia.
Qed.

(** [do initial <- take_byte]: the major type and the additional information. *)
Lemma parses_initial {A} b (k : Z -> VM A) off Q :
  0 <= off <= len b ->
  (forall m i, 0 <= m < 8 -> 0 <= i < 32 -> off + 1 <= len b ->
    Z.shiftr (m * 32 + i) 5 = m -> Z.land (m * 32 + i) 31 = i ->
    parses b (k (m * 32 + i)) (off + 1) (fun a x => Q a (b8 (m * 32 + i) :: x))) ->
  parses b (do z <- take_byte b; k z) off Q.
Proof.
  intros Ho Hk. eapply parses_bind; [by apply parses_byte|]. intros z x off1 Hs [Hz ->].
  span_range Hs. destruct (split_initial z Hz) as (m & i & Hm & Hi & ->).
  destruct (initial_of m i Hi). replace off1 with (off + 1) by lia. apply Hk; auto; lia.
Qed.

(** [do n <- read_argument]: the head is complete, and is the shortest. *)
Lemma parses_head {A} b m i (k : Z -> VM A) off Q :
  0 <= i < 32 -> 0 <= off <= len b ->
  (forall n off1, 0 <= n <= U64_MAX -> off <= off1 <= len b ->
    parses b (k n) off1 (fun a x => Q a (cbor_head m n ++ x))) ->
  parses b (do n <- read_argument b i; k n) off (fun a x => Q a (b8 (m * 32 + i) :: x)).
Proof.
  intros Hi Ho Hk. eapply parses_bind; [by apply parses_argument|]. intros n x off1 Hs Hn.
  span_range Hs. eapply parses_conseq; [apply Hk; [apply Hn|lia]|]. intros a y. cbn beta.
  by rewrite (short_arg_head m i n x Hn).
Qed.

Section Items.
Context (b : bytes) (fuel : nat) (depth : Z).
Hypothesis IH : forall off, 0 <= off <= len b -> len b - off < Z.of_nat fuel ->
  parses b (validate_item fuel b (depth + 1)) off (fun _ => parsed (depth + 1)).

Lemma parses_array count off :
  0 <= off <= len b -> len b - off < Z.of_nat fuel -> 0 <= count ->
  parses b (for_loop fuel count (fun _ => validate_item fuel b (depth + 1)) tt) off
    (fun _ => items_parsed (depth + 1) count).
Proof using All.
  intros Ho Hf Hc.
  apply (parses_loop b _ off (fun _ _ => parsed (depth + 1))
           (fun n _ _ => items_parsed (depth + 1) n)); [| | |lia..].
  - intros _ off1 Ho1. eapply parses_conseq; [apply IH; lia|]. intros _ x (c & Hok & ->).
    split; [apply cbor_bytes_len|by exists c].
  - intros _. by exists [].
  - intros n _ _ _ x y _ Hx Hy. by apply items_parsed_cons.
Qed.

Definition turn_entry (previous next : option Z) (x : bytes) : Prop :=
  exists k y, next = Some k /\ 0 <= k <= U64_MAX /\
    match previous with Some p => p < k | None => True end /\
    x = cbor_head 0 k ++ y /\ parsed (depth + 1) y.

Lemma parses_map count off :
  0 <= off <= len b -> len b - off < Z.of_nat fuel -> 0 <= count ->
  parses b (for_loop fuel count (fun previous =>
            do key_initial <- take_byte b;
            run lift (ensure (Z.shiftr key_initial 5 =? 0) (Some (ipc Malformed)));
            do key <- read_argument b (Z.land key_initial 31);
            run lift (ensure (negb (match previous with Some old => key <=? old | None => false end))
                        (Some (ipc Malformed)));
            run validate_item fuel b (depth + 1);
            ret (Some key)) None) off
    (fun _ => entries_parsed (depth + 1) None count).
Proof using All.
  intros Ho Hf Hc.
  apply (parses_loop b _ off turn_entry (fun n p _ => entries_parsed (depth + 1) p n));
    [| | |lia..].
  - intros p off1 Ho1. apply parses_initial; [lia|]. intros m i Hm Hi Hl -> ->.
    eapply parses_bind with (Q := fun _ x => m = 0 /\ x = []).
    { apply parses_ensure; [lia|]. intros ?. by bool_split. }
    intros _ x off2 Hs [-> ->]. span_range Hs. cbn [app].
    apply (parses_head b 0 i _ _ (fun a x => 1 <= len x /\ turn_entry p a x)); [lia..|].
    intros key off3 Hkey Ho3.
    eapply parses_bind with (Q := fun _ x =>
      match p with Some old => old < key | None => True end /\ x = []).
    { apply parses_ensure; [lia|]. intros ?. destruct p; bool_split; split; done || lia. }
    intros _ x off4 Hs4 [Hp ->]. span_range Hs4. cbn [app].
    eapply parses_bind; [apply IH; lia|]. intros ? y off5 Hs5 Hy. span_range Hs5.
    apply parses_ret; [lia|]. rewrite app_nil_r. split; [|by exists key, y].
    autorewrite with len. pose proof (cbor_head_len 0 key). lia.
  - intros p. by exists [].
  - intros n p q r x y Hn (k & z & -> & Hk & Hp & -> & Hz) Hy. by apply entries_parsed_cons.
Qed.
End Items.

Lemma parses_item b fuel depth off :
  0 <= off <= len b -> len b - off < Z.of_nat fuel ->
  parses b (validate_item fuel b depth) off (fun _ => parsed depth).
Proof.
  revert depth off. induction fuel as [|fuel IH]; intros depth off Ho Hf; [lia|].
  cbn [validate_item]. destruct (Z.leb_spec 64 depth); [done|].
  apply parses_initial; [lia|]. intros m i Hm Hi Hl -> ->. cbv zeta.
  destruct (Z.eqb_spec m 0) as [->|].
  { apply (parses_head b 0 i _ _ (fun _ => parsed depth)); [lia..|]. intros k off1 Hk Ho1.
    apply parses_ret; [lia|]. exists (CUint k). cbn. by rewrite app_nil_r. }
  destruct ((m =? 2) || (m =? 3)) eqn:Hm23.
  { apply (parses_head b m i _ _ (fun _ => parsed depth)); [lia..|]. intros k off1 Hk Ho1.
    eapply parses_conseq; [apply parses_string; lia|]. intros _ x [<- Hu]. cbn beta.
    apply orb_true_iff in Hm23 as [Hm2|Hm3]; bool_split; subst m.
    - exists (CBytes x). cbn. split_and!; done || lia.
    - exists (CStr x). cbn. split_and!; done || lia || auto. }
  destruct (Z.eqb_spec m 4) as [->|].
  { apply (parses_head b 4 i _ _ (fun _ => parsed depth)); [lia..|]. intros k off1 Hk Ho1.
    eapply parses_conseq; [apply parses_array; auto; lia|].
    intros ? x (l & <- & Hl' & ->). exists (CArray l). cbn. split_and!; done || lia. }
  destruct (Z.eqb_spec m 5) as [->|].
  { apply (parses_head b 5 i _ _ (fun _ => parsed depth)); [lia..|]. intros k off1 Hk Ho1.
    eapply parses_bind; [apply parses_map; auto; lia|].
    intros ? x off2 Hs (l & <- & Hr' & Hl' & ->). span_range Hs. apply parses_ret; [lia|].
    rewrite app_nil_r. exists (CMap l). cbn. split_and!; done || lia. }
  destruct ((m =? 7) && ((i =? 20) || (i =? 21))) eqn:H7; [|done].
  apply parses_ret; [lia|]. bool_split. subst m.
  match goal with H : _ || _ = true |- _ => apply orb_true_iff in H as [?|?] end; bool_split; subst i.
  - by exists (CBool false).
  - by exists (CBool true).
Qed.

Lemma validate_parses b :
  match validate b with
  | Ok _ => exists c, cbor_ok 0 c /\ cbor_bytes c = b
  | Err e => e <> None
  end.
Proof.
  unfold validate.
  assert (Hp : parses b (run validate_item (S (length b)) b 0;
        do off <- get; if negb (off =? len b) then vfail Malformed else ret tt) 0
        (fun _ x => x = b /\ parsed 0 x)).
  { eapply parses_bind; [apply parses_item; pose proof (len_nonneg b); unfold len in *; lia|].
    intros ? x off Hs Hx. span_range Hs. unfold parses. rewrite get_bind.
    destruct (Z.eqb_spec off (len b)) as [->|]; [|done]. apply parses_ret; [lia|].
    rewrite app_nil_r. split; [|done]. by apply spans_inv_full in Hs. }
  unfold parses in Hp.
  lazymatch goal with |- context [fst ?r] => destruct r as [[u|e] off] end; cbn; [|done].
  destruct Hp as (x & _ & -> & c & Hc & Hb). by exists c.
Qed.

(** ** What it accepts, completely *)

(** From [off], [m] takes the stretch [x] and returns [a]. *)
Definition takes {A} (b : bytes) (m : VM A) (x : bytes) (a : A) : Prop :=
  forall off off', spans b off x off' -> m off = (Ok a, off').

Lemma takes_bind {A B} b (m : VM A) (k : A -> VM B) x y a c :
  takes b m x a -> takes b (k a) y c -> takes b (mbind_M m k) (x ++ y) c.
Proof.
  intros Hm Hk off off' (off1 & Hx & Hy)%spans_app.
  rewrite (mbind_M_step _ _ _ _ _ (Hm _ _ Hx)). by apply Hk.
Qed.

Lemma takes_bind_nil {A B} b (m : VM A) (k : A -> VM B) x a c :
  takes b m x a -> takes b (k a) [] c -> takes b (mbind_M m k) x c.
Proof. intros. rewrite <- (app_nil_r x). by eapply takes_bind. Qed.

Lemma takes_ret {A} b (a : A) : takes b (ret a) [] a.
Proof.
  intros off off' (pre & post & _ & -> & ->). rewrite len_nil, Z.add_0_r. done.
Qed.

Lemma takes_lift {A B} b (r : result (option ControlFailure) A) (k : A -> VM B) x a c :
  r = Ok a -> takes b (k a) x c -> takes b (mbind_M (lift r) k) x c.
Proof. intros -> Hk. exact Hk. Qed.

Lemma takes_byte b z : 0 <= z < 256 -> takes b (take_byte b) [b8 z] z.
Proof.
  intros Hz off off' (pre & post & -> & -> & ->). unfold take_byte. cbn [app].
  rewrite to_nat_len, list_lookup_middle by done. by rewrite u8_b8_small.
Qed.

Lemma takes_bytes b x : takes b (take_bytes (length x) b) x x.
Proof.
  induction x as [|c x IH]; cbn [length take_bytes]; [apply takes_ret|].
  eapply (takes_bind b _ _ [c] _ (u8 c)).
  { rewrite <- (b8_u8 c) at 1. apply takes_byte, u8_range. }
  eapply takes_bind_nil; [exact IH|]. rewrite b8_u8. apply takes_ret.
Qed.

Lemma takes_argument b n :
  0 <= n <= U64_MAX ->
  takes b (read_argument b (info_of (width_of n) n)) (arg_of (width_of n) n) n.
Proof.
  intros Hn.
  assert (Hk : forall k minimum, 0 <= n < 256 ^ Z.of_nat k -> minimum <= n ->
    takes b (do ' (value, minimum) <- (do raw <- take_bytes k b; ret (be_decode raw, minimum));
             if value <? minimum then vfail Malformed else ret value) (be_encode k n) n).
  { intros k mn Hk Hm. eapply takes_bind_nil.
    - eapply takes_bind_nil; [|apply takes_ret].
      rewrite <- (length_be_encode k n) at 1. apply takes_bytes.
    - cbn beta iota. rewrite be_decode_encode by done.
      destruct (Z.ltb_spec n mn); [lia|]. apply takes_ret. }
  unfold U64_MAX, width_of in *.
  destruct (Z.ltb_spec n 24).
  { cbn [info_of arg_of]. unfold read_argument. decide_cmp. apply takes_ret. }
  destruct (Z.ltb_spec n (2 ^ 8)); [apply Hk; cbn; lia|].
  destruct (Z.ltb_spec n (2 ^ 16)); [apply Hk; cbn; lia|].
  destruct (Z.ltb_spec n (2 ^ 32)); [apply Hk; cbn; lia|].
  apply Hk; cbn; lia.
Qed.

(** The two halves of a head. *)
Lemma takes_initial {A} b m n (k : Z -> VM A) y c :
  0 <= m < 8 -> 0 <= n <= U64_MAX ->
  (forall z, Z.shiftr z 5 = m -> Z.land z 31 = info_of (width_of n) n ->
    takes b (k z) (arg_of (width_of n) n ++ y) c) ->
  takes b (do z <- take_byte b; k z) (cbor_head m n ++ y) c.
Proof.
  intros Hm Hn Hk. unfold cbor_head. rewrite wide_head_eq.
  pose proof (info_range _ _ (width_of_ok _ Hn)).
  destruct (initial_of m (info_of (width_of n) n)) as [Hs Hl]; [lia|].
  eapply (takes_bind b _ _ [_]); [by apply takes_byte; lia|auto].
Qed.

Lemma takes_rest {A} b n (k : Z -> VM A) y c :
  0 <= n <= U64_MAX -> takes b (k n) y c ->
  takes b (do v <- read_argument b (info_of (width_of n) n); k v) (arg_of (width_of n) n ++ y) c.
Proof. intros Hn Hk. eapply takes_bind; [by apply takes_argument|done]. Qed.

Lemma takes_string b major (x : bytes) :
  len b <= U64_MAX -> (major = 3 -> valid_utf8 x = true) ->
  takes b (string_item b major (len x)) x tt.
Proof.
  intros Hb Hu off off' Hs. unfold string_item. rewrite get_bind. span_range Hs.
  destruct Hs as (pre & post & -> & -> & ->).
  unfold checked_add. decide_cmp. rewrite !to_nat_len, drop_app_length, take_app_length.
  destruct (Z.eqb_spec major 3); cbn [andb]; [rewrite Hu by done|]; done.
Qed.

Lemma takes_loop_nil {A} b (turn : A -> VM A) fuel a :
  (0 < fuel)%nat -> takes b (for_loop fuel 0 turn a) [] a.
Proof. intros Hf. destruct fuel; [lia|]. apply takes_ret. Qed.

Lemma takes_loop_cons {A} b (turn : A -> VM A) fuel n a a1 z x y :
  0 <= n -> takes b (turn a) x a1 -> takes b (for_loop fuel n turn a1) y z ->
  takes b (for_loop (S fuel) (1 + n) turn a) (x ++ y) z.
Proof.
  intros Hn Ht Hl. cbn [for_loop]. decide_cmp. eapply takes_bind; [done|].
  by replace (1 + n - 1) with n by lia.
Qed.

Section TakesItems.
Context (b : bytes) (fuel : nat) (depth : Z).
Hypothesis IH : forall c, cbor_ok depth c -> len (cbor_bytes c) < Z.of_nat fuel ->
  takes b (validate_item fuel b depth) (cbor_bytes c) tt.

Lemma takes_items l turns :
  foldr (fun c P => cbor_ok depth c /\ P) True l ->
  len (concat (map cbor_bytes l)) < Z.of_nat fuel ->
  len (concat (map cbor_bytes l)) < Z.of_nat turns ->
  takes b (for_loop turns (len l) (fun _ => validate_item fuel b depth) tt)
    (concat (map cbor_bytes l)) tt.
Proof using All.
  revert turns. induction l as [|c l IHl]; intros turns Hok Hf Ht; cbn [map concat] in *.
  - apply takes_loop_nil. rewrite len_nil in Ht. lia.
  - destruct Hok as [Hc Hok]. autorewrite with len in *. pose proof (cbor_bytes_len c).
    pose proof (len_nonneg (concat (map cbor_bytes l))). pose proof (len_nonneg l).
    destruct turns as [|turns]; [lia|].
    apply takes_loop_cons with tt; [lia|apply IH; [done|lia]|apply IHl; auto; lia].
Qed.

Lemma takes_entries l previous turns :
  rising previous (map fst l) ->
  foldr (fun e P => 0 <= fst e <= U64_MAX /\ cbor_ok depth (snd e) /\ P) True l ->
  len (concat (map entry_bytes l)) < Z.of_nat fuel ->
  len (concat (map entry_bytes l)) < Z.of_nat turns ->
  exists z, takes b (for_loop turns (len l) (fun previous =>
            do key_initial <- take_byte b;
            run lift (ensure (Z.shiftr key_initial 5 =? 0) (Some (ipc Malformed)));
            do key <- read_argument b (Z.land key_initial 31);
            run lift (ensure (negb (match previous with Some old => key <=? old | None => false end))
                        (Some (ipc Malformed)));
            run validate_item fuel b depth;
            ret (Some key)) previous)
    (concat (map entry_bytes l)) z.
Proof using All.
  revert turns previous.
  induction l as [|[k c] l IHl]; intros turns previous Hr Hok Hf Ht; cbn [map concat] in *.
  - exists previous. apply takes_loop_nil. rewrite len_nil in Ht. lia.
  - destruct Hok as (Hk & Hc & Hok), Hr as [Hp Hr]. unfold entry_bytes at 1 in Hf.
    unfold entry_bytes at 1 in Ht. cbn [fst snd] in *. autorewrite with len in *. pose proof (cbor_bytes_len c).
    pose proof (cbor_head_len 0 k). pose proof (len_nonneg l).
    pose proof (len_nonneg (concat (map entry_bytes l))).
    destruct turns as [|turns]; [lia|]. destruct (IHl turns (Some k)) as [z Hz]; [auto; lia..|].
    exists z. apply takes_loop_cons with (Some k); [lia| |done].
    unfold entry_bytes. cbn [fst snd]. apply takes_initial; [lia|done|]. intros i -> ->.
    apply takes_lift with tt; [done|]. apply takes_rest; [done|].
    apply takes_lift with tt; [by destruct previous; decide_cmp|].
    eapply takes_bind_nil; [apply IH; [done|lia]|apply takes_ret].
Qed.
End TakesItems.

Lemma takes_item b fuel c depth :
  len b <= U64_MAX -> cbor_ok depth c -> len (cbor_bytes c) < Z.of_nat fuel ->
  takes b (validate_item fuel b depth) (cbor_bytes c) tt.
Proof.
  intros Hb. revert c depth. induction fuel as [|fuel IH]; intros c depth Hc Hf.
  { pose proof (len_nonneg (cbor_bytes c)). lia. }
  assert (Hd : depth < 64) by (by destruct c, Hc). cbn [validate_item]. decide_cmp.
  destruct c as [n|x|x|l|l|v]; destruct Hc as [_ Hc]; cbn [cbor_bytes] in *;
    autorewrite with len in Hf.
  - rewrite <- (app_nil_r (cbor_head 0 n)). apply takes_initial; [lia|done|].
    intros z -> ->. apply takes_rest; [done|apply takes_ret].
  - pose proof (len_nonneg x). apply takes_initial; [lia|done|].
    intros z -> ->. apply takes_rest; [done|by apply takes_string].
  - pose proof (len_nonneg x). destruct Hc as [Hx Hu]. apply takes_initial; [lia|done|].
    intros z -> ->. apply takes_rest; [done|by apply takes_string].
  - pose proof (len_nonneg l). destruct Hc as [Hl Hc]. apply takes_initial; [lia|done|].
    pose proof (cbor_head_len 4 (len l)).
    intros z -> ->. apply takes_rest; [done|]. apply takes_items; auto; lia.
  - pose proof (len_nonneg l). destruct Hc as (Hl & Hr & Hc). apply takes_initial; [lia|done|].
    fold entry_bytes in *. pose proof (cbor_head_len 5 (len l)).
    intros z -> ->. apply takes_rest; [done|].
    destruct (takes_entries b fuel (depth + 1)) with (l := l) (previous := @None Z) (turns := fuel)
      as [y Hy]; auto; try lia.
    eapply takes_bind_nil; [exact Hy|apply takes_ret].
  - rewrite <- (app_nil_r (cbor_head _ _)). apply takes_initial; [lia|by destruct v|].
    intros z -> ->. destruct v; apply takes_ret.
Qed.

(** ** The validator is exact *)

Lemma deterministic_iff (b : bytes) :
  len b <= U64_MAX ->
  validate_deterministic_cbor b = Ok tt <-> exists c, cbor_ok 0 c /\ cbor_bytes c = b.
Proof.
  intros Hb. pose proof (validate_parses b) as Hp. unfold validate_deterministic_cbor. split.
  - destruct (validate b) as [u|[e|]]; [done|by intros [=]..].
  - intros (c & Hc & <-). unfold validate.
    assert (Ht : takes (cbor_bytes c) (run validate_item (S (length (cbor_bytes c))) (cbor_bytes c) 0;
        do off <- get; if negb (off =? len (cbor_bytes c)) then vfail Malformed else ret tt)
        (cbor_bytes c) tt).
    { intros off off' Hs.
      assert (Hf : len (cbor_bytes c) < Z.of_nat (S (length (cbor_bytes c)))) by (unfold len; lia).
      rewrite (mbind_M_step _ _ _ _ _ (takes_item _ _ _ _ Hb Hc Hf _ _ Hs)), get_bind.
      span_range Hs. by replace (off' =? len (cbor_bytes c)) with true
        by (symmetry; apply Z.eqb_eq; lia). }
    by rewrite (Ht _ _ (spans_full _)).
Qed.

(** C20: the validator of control packets ends on every input, and on anything a buffer can
    hold it accepts exactly the shortest encodings of the trees whose maps have rising
    unsigned keys, whose strings are UTF-8, and which are nested less than 64 deep. *)
Theorem deterministic_exact (b : bytes) :
  validate b <> Err None /\
  (len b <= U64_MAX ->
   validate_deterministic_cbor b = Ok tt <-> exists c, cbor_ok 0 c /\ cbor_bytes c = b).
Proof.
  split; [|apply deterministic_iff]. intros Hv. pose proof (validate_parses b) as Hp.
  by rewrite Hv in Hp.
Qed.

(** [{0: h'01', 1: [true]}]; the same with its keys in the wrong order is refused. *)
Lemma deterministic_exact_witness :
  let good := map b8 [162; 0; 65; 1; 1; 129; 245] in
  let bad := map b8 [162; 1; 129; 245; 0; 65; 1] in
  len good <= U64_MAX /\ validate_deterministic_cbor good = Ok tt /\
  validate_deterministic_cbor bad = Err (ipc Malformed) /\
  (exists c, cbor_ok 0 c /\ cbor_bytes c = good) /\ validate bad <> Err None.
Proof.
  cbv zeta. split; [by vm_compute|]. split; [by vm_compute|]. split; [by vm_compute|]. split.
  - apply (deterministic_exact (map b8 [162; 0; 65; 1; 1; 129; 245])); by vm_compute.
  - apply (deterministic_exact (map b8 [162; 1; 129; 245; 0; 65; 1])).
Defined.
