(* ===== verification/Tokens.v ===== *)
(** Deterministic CBOR as tokens: a tree is the list of its tokens, the decoders of
    [Control.v] read tokens off the front, and a decoder is described by the relation
    between its results and the tokens it takes. *)

From S2P Require Import Prelude Errors Crates Wire Cbor Records Control Names Deterministic.

Inductive token : Type :=
| TUint (n : Z)
| TBytes (b : bytes)
| TStr (b : bytes)
| TArray (n : Z)
| TMap (n : Z)
| TBool (v : bool).

Definition tok_major (t : token) : Z :=
  match t with
  | TUint _ => 0 | TBytes _ => 2 | TStr _ => 3 | TArray _ => 4 | TMap _ => 5 | TBool _ => 7
  end.
Definition tok_arg (t : token) : Z :=
  match t with
  | TUint n | TArray n | TMap n => n
  | TBytes b | TStr b => len b
  | TBool v => if v then 21 else 20
  end.
Definition tok_body (t : token) : bytes :=
  match t with TBytes b | TStr b => b | _ => [] end.
Definition tok_bytes (t : token) : bytes := cbor_head (tok_major t) (tok_arg t) ++ tok_body t.

Definition tok_ok (t : token) : Prop :=
  0 <= tok_arg t <= U64_MAX /\
  match t with TStr b => valid_utf8 b = true | _ => True end.

(** How many items a token promises, less the one it is. *)
Definition weight (t : token) : Z :=
  match t with TArray n => n - 1 | TMap n => 2 * n - 1 | _ => -1 end.

Definition toks_bytes (ts : list token) : bytes := concat (map tok_bytes ts).
Definition weights (ts : list token) : Z := foldr (fun t n => weight t + n) 0 ts.

Lemma toks_bytes_cons t ts : toks_bytes (t :: ts) = tok_bytes t ++ toks_bytes ts.
Proof. done. Qed.
Lemma toks_bytes_app ts us : toks_bytes (ts ++ us) = toks_bytes ts ++ toks_bytes us.
Proof. unfold toks_bytes. by rewrite map_app, concat_app. Qed.
Lemma weights_app ts us : weights (ts ++ us) = weights ts + weights us.
Proof. unfold weights. induction ts as [|t ts IH]; cbn in *; [done|]. rewrite IH. lia. Qed.

(** ** Trees and their tokens *)

Fixpoint flatten (c : cbor) : list token :=
  match c with
  | CUint n => [TUint n]
  | CBytes b => [TBytes b]
  | CStr b => [TStr b]
  | CArray l => TArray (len l) :: concat (map flatten l)
  | CMap l => TMap (len l) :: concat (map (fun e => TUint (fst e) :: flatten (snd e)) l)
  | CBool v => [TBool v]
  end.

Section CborInd.
Context (P : cbor -> Prop)
  (HU : forall n, P (CUint n)) (HB : forall b, P (CBytes b)) (HS : forall b, P (CStr b))
  (HA : forall l, Forall P l -> P (CArray l))
  (HM : forall l, Forall (fun e => P (snd e)) l -> P (CMap l))
  (HV : forall v, P (CBool v)).

Fixpoint cbor_nested_ind (c : cbor) : P c :=
  match c with
  | CUint n => HU n
  | CBytes b => HB b
  | CStr b => HS b
  | CArray l =>
      HA l ((fix go l := match l return Forall P l with
                         | [] => Forall_nil_2 _
                         | c :: l => Forall_cons_2 _ _ _ (cbor_nested_ind c) (go l)
                         end) l)
  | CMap l =>
      HM l ((fix go l := match l return Forall (fun e => P (snd e)) l with
                         | [] => Forall_nil_2 _
                         | e :: l => Forall_cons_2 _ _ _ (cbor_nested_ind (snd e)) (go l)
                         end) l)
  | CBool v => HV v
  end.
End CborInd.

Lemma flatten_bytes c : toks_bytes (flatten c) = cbor_bytes c.
Proof.
  induction c as [n|b|b|l IH|l IH|v] using cbor_nested_ind; cbn [flatten cbor_bytes];
    rewrite toks_bytes_cons; unfold tok_bytes; cbn [tok_major tok_arg tok_body];
    rewrite ?app_nil_r; try done.
  - f_equal. induction IH as [|c l Hc _ IHl]; [done|]. cbn [map concat].
    by rewrite toks_bytes_app, Hc, IHl.
  - f_equal. induction IH as [|e l Hc _ IHl]; [done|]. cbn [map concat].
    rewrite toks_bytes_app, toks_bytes_cons, Hc, IHl. unfold tok_bytes. cbn.
    by rewrite app_nil_r.
Qed.

Lemma flatten_ok c depth : cbor_ok depth c -> Forall tok_ok (flatten c).
Proof.
  revert depth. induction c as [n|b|b|l IH|l IH|v] using cbor_nested_ind; intros depth [_ Hc];
    cbn [flatten]; constructor; unfold tok_ok; cbn [tok_arg]; try constructor.
  all: try (pose proof (len_nonneg b)); try (pose proof (len_nonneg l)).
  all: try (split; done || lia).
  - unfold U64_MAX in *. intuition lia.
  - destruct Hc as [_ Hc]. induction IH as [|c l Hc' _ IHl]; cbn in *; [done|].
    apply Forall_app. split; [eapply Hc', Hc|apply IHl; [apply Hc|apply len_nonneg]].
  - destruct Hc as (_ & _ & Hc). induction IH as [|e l Hc' _ IHl]; cbn in *; [done|].
    constructor; [unfold tok_ok; cbn; split; [apply Hc|done]|].
    apply Forall_app. split; [eapply Hc', Hc|apply IHl; [apply Hc|apply len_nonneg]].
  - by destruct v.
Qed.

(** The promises of a whole tree come to nothing but itself. *)
Lemma flatten_weights c : weights (flatten c) = -1.
Proof.
  induction c as [n|b|b|l IH|l IH|v] using cbor_nested_ind; try done; cbn [flatten].
  - change (len l - 1 + weights (concat (map flatten l)) = -1).
    induction IH as [|c l Hc _ IHl]; [done|]. cbn [map concat].
    rewrite weights_app, Hc, len_cons. lia.
  - change (2 * len l - 1 + weights (concat (map (fun e => TUint (fst e) :: flatten (snd e)) l)) = -1).
    induction IH as [|e l Hc _ IHl]; [done|]. cbn [map concat].
    rewrite weights_app, len_cons. change (weights (TUint (fst e) :: flatten (snd e))) with
      (-1 + weights (flatten (snd e))). rewrite Hc. lia.
Qed.

(** ** Reading tokens *)

Definition at_toks (d : Decoder) (b : bytes) (ts : list token) : Prop :=
  at_rest d b (toks_bytes ts) /\ Forall tok_ok ts.

(** [m] returns [a] exactly over the tokens [R a], which it takes. *)
Record denotes {A} (m : CM A) (R : A -> list token -> Prop) : Prop := {
  den_reads : forall a ts, Forall tok_ok ts -> R a ts -> reads m (toks_bytes ts) a;
  den_read : forall d b ts a d', at_toks d b ts -> m d = (Ok a, d') ->
    exists t r, ts = t ++ r /\ R a t /\ at_toks d' b r
}.

(** [m] takes one token. *)
Definition field {A} (m : CM A) (P : A -> token -> Prop) : Prop :=
  denotes m (fun a ts => exists t, ts = [t] /\ P a t).

(** Over the buffer [b], [m] returns [a] exactly when the tokens that are left are [Q a]. *)
Definition finishes {A} (b : bytes) (m : CM A) (Q : A -> list token -> Prop) : Prop :=
  forall d ts a, at_toks d b ts -> (exists d', m d = (Ok a, d')) <-> Q a ts.

Lemma den_conseq {A} (m : CM A) (R R' : A -> list token -> Prop) :
  denotes m R -> (forall a ts, R a ts <-> R' a ts) -> denotes m R'.
Proof.
  intros [Hf Hb] HR. split.
  - intros a ts Hts ?%HR. by apply Hf.
  - intros d b ts a d' Hd Hm. destruct (Hb _ _ _ _ _ Hd Hm) as (t & r & ? & ?%HR & ?). eauto.
Qed.

Lemma den_ret {A} (a : A) : denotes (ret a) (fun c ts => c = a /\ ts = []).
Proof.
  split.
  - intros c ts _ [-> ->] d b rest Hd. by exists d.
  - intros d b ts c d' Hd [= <- <-]. by exists [], ts.
Qed.

Lemma den_throw {A} e (R : A -> list token -> Prop) :
  (forall a ts, ~ R a ts) -> denotes (throw e) R.
Proof.
  intros HR. split; [intros a ts _ []%HR|]. by intros d b ts a d' _ [=].
Qed.

(** What the tokens are well formed for may be used. *)
Lemma den_iff {A} (m : CM A) (R R' : A -> list token -> Prop) :
  denotes m R -> (forall a ts, Forall tok_ok ts -> R a ts <-> R' a ts) -> denotes m R'.
Proof.
  intros [Hf Hb] HR. split.
  - intros a ts Hts ?%HR; auto.
  - intros d b ts a d' Hd Hm. destruct (Hb _ _ _ _ _ Hd Hm) as (t & r & -> & HRt & Hd').
    exists t, r. split_and!; [done| |done]. apply HR; [|done]. by destruct Hd as [_ [? _]%Forall_app].
Qed.

Lemma den_bind {A B} (m : CM A) (k : A -> CM B) R S :
  denotes m R -> (forall a, denotes (k a) (S a)) ->
  denotes (mbind_M m k) (fun c ts => exists a t r, ts = t ++ r /\ R a t /\ S a c r).
Proof.
  intros [Hf Hb] Hk. split.
  - intros c ts Hts (a & t & r & -> & HR & HS) d b rest Hd. apply Forall_app in Hts as [Ht Hr].
    rewrite toks_bytes_app, <- app_assoc in Hd. destruct (Hf a t Ht HR _ _ _ Hd) as (d' & Hm & Hd').
    rewrite (mbind_M_step _ _ _ _ _ Hm). by apply (den_reads _ _ (Hk a) c r).
  - intros d b ts c d' Hd Hm. apply mbind_M_ok in Hm as (a & d1 & Hm & Hkm).
    destruct (Hb _ _ _ _ _ Hd Hm) as (t & r & -> & HR & Hd1).
    destruct (den_read _ _ (Hk a) _ _ _ _ _ Hd1 Hkm) as (t' & r' & -> & HS & Hd').
    exists (t ++ t'), r'. rewrite <- app_assoc. split_and!; eauto 6.
Qed.

Lemma den_pair {A1 A2 B} (m : CM (A1 * A2)) (k : A1 * A2 -> CM B) R S :
  denotes m R -> (forall a b, denotes (k (a, b)) (S a b)) ->
  denotes (mbind_M m k)
    (fun c ts => exists a b t r, ts = t ++ r /\ R (a, b) t /\ S a b c r).
Proof.
  intros Hm Hk. eapply den_conseq.
  { eapply (den_bind m k R (fun p => S (fst p) (snd p))); [done|]. intros [a b]. apply Hk. }
  intros c ts. cbn beta. split; [intros ([a b] & ?); eauto|]. intros (a & b & ?).
  by exists (a, b).
Qed.

Lemma den_lift {A B} (r : CRes A) (k : A -> CM B) S :
  (forall a, denotes (k a) (S a)) ->
  denotes (mbind_M (lift r) k) (fun c ts => exists a, r = Ok a /\ S a c ts).
Proof.
  intros Hk. split.
  - intros c ts Hts (a & -> & HS). by apply (den_reads _ _ (Hk a)).
  - intros d b ts c d' Hd (a & -> & Hm)%lift_bind_ok.
    destruct (den_read _ _ (Hk a) _ _ _ _ _ Hd Hm) as (t & r & -> & HS & Hd'). eauto 8.
Qed.

Lemma den_ensure {B} (p : bool) e (k : unit -> CM B) S :
  denotes (k tt) S ->
  denotes (mbind_M (d_ensure p e) k) (fun c ts => p = true /\ S c ts).
Proof.
  intros Hk. split.
  - intros c ts Hts [-> HS]. by apply (den_reads _ _ Hk).
  - intros d b ts c d' Hd ([] & Hp%ensure_ok & Hm)%lift_bind_ok.
    destruct (den_read _ _ Hk _ _ _ _ _ Hd Hm) as (t & r & -> & HS & Hd'). eauto 8.
Qed.

Lemma den_field {A B} (m : CM A) (k : A -> CM B) P S :
  field m P -> (forall a, denotes (k a) (S a)) ->
  denotes (mbind_M m k) (fun c ts => exists a t r, ts = t :: r /\ P a t /\ S a c r).
Proof.
  intros Hm Hk. eapply den_conseq; [by eapply den_bind|]. intros c ts. cbn beta. split.
  - intros (a & ? & r & -> & (t & -> & HP) & HS). by exists a, t, r.
  - intros (a & t & r & -> & HP & HS). exists a, [t], r. eauto.
Qed.

Lemma field_check {A B} (m : CM A) P (f : A -> CRes B) :
  field m P -> field (do v <- m; lift (f v)) (fun b t => exists a, P a t /\ f a = Ok b).
Proof.
  intros Hm. eapply den_conseq.
  { eapply (den_bind m (fun v => lift (f v)) _ (fun a b ts => f a = Ok b /\ ts = []));
      [exact Hm|]. intros a. split.
    - intros b ts _ [Ha ->] d buf rest Hd. exists d. unfold lift. by rewrite Ha.
    - intros d buf ts b d' Hd [= Ha <-]. exists [], ts. auto. }
  intros b ts. cbn beta. split.
  - intros (a & ? & r & -> & (t & -> & HP) & Hf & ->). exists t. split; [done|eauto].
  - intros (t & -> & a & HP & Hf). exists a, [t], []. eauto 8.
Qed.

Lemma field_ensure {A} (m : CM A) P (p : A -> bool) (e : ControlFailure) :
  field m P -> field (do v <- m; run d_ensure (p v) e; ret v) (fun a t => P a t /\ p a = true).
Proof.
  intros Hm. eapply den_conseq.
  { eapply den_bind; [exact Hm|]. intros a. apply den_ensure, den_ret. }
  intros a ts. cbn beta. split.
  - intros (? & ? & r & -> & (t & -> & HP) & Hp & -> & ->). exists t. eauto.
  - intros (t & -> & HP & Hp). exists a, [t], []. eauto 8.
Qed.
Lemma tok_bytes_pos t : 1 <= len (tok_bytes t).
Proof.
  unfold tok_bytes. rewrite len_app. pose proof (cbor_head_len (tok_major t) (tok_arg t)).
  pose proof (len_nonneg (tok_body t)). lia.
Qed.
Lemma toks_bytes_nil ts : len (toks_bytes ts) = 0 <-> ts = [].
Proof.
  split; [|by intros ->]. destruct ts as [|t ts]; [done|]. rewrite toks_bytes_cons, len_app.
  pose proof (tok_bytes_pos t). pose proof (len_nonneg (toks_bytes ts)). lia.
Qed.

Section Finishes.
Context (b : bytes).

Lemma fin_bind {A B} (m : CM A) (k : A -> CM B) R Q :
  denotes m R -> (forall a, finishes b (k a) (Q a)) ->
  finishes b (mbind_M m k) (fun c ts => exists a t r, ts = t ++ r /\ R a t /\ Q a c r).
Proof.
  intros Hm Hk d ts c Hd. split.
  - intros (d' & (a & d1 & Ha & Hc)%mbind_M_ok).
    destruct (den_read _ _ Hm _ _ _ _ _ Hd Ha) as (t & r & -> & HR & Hd1).
    exists a, t, r. split_and!; [done..|]. apply (Hk a d1); eauto.
  - intros (a & t & r & -> & HR & HQ). destruct Hd as [Hd Hts]. apply Forall_app in Hts as [Ht Hr].
    rewrite toks_bytes_app in Hd. destruct (den_reads _ _ Hm a t Ht HR _ _ _ Hd) as (d' & Ha & Hd').
    destruct (Hk a d' r c) as [_ [d2 Hc]]; [done|done|]. exists d2.
    by rewrite (mbind_M_step _ _ _ _ _ Ha).
Qed.

Lemma fin_field {A B} (m : CM A) (k : A -> CM B) P Q :
  field m P -> (forall a, finishes b (k a) (Q a)) ->
  finishes b (mbind_M m k) (fun c ts => exists a t r, ts = t :: r /\ P a t /\ Q a c r).
Proof.
  intros Hm Hk d ts c Hd. rewrite (fin_bind m k _ _ Hm Hk d ts c Hd). split.
  - intros (a & ? & r & -> & (t & -> & HP) & HS). by exists a, t, r.
  - intros (a & t & r & -> & HP & HS). exists a, [t], r. eauto.
Qed.

Lemma fin_ensure {B} (p : bool) e (k : unit -> CM B) Q :
  finishes b (k tt) Q ->
  finishes b (mbind_M (d_ensure p e) k) (fun c ts => p = true /\ Q c ts).
Proof.
  intros Hk d ts c Hd. rewrite <- (Hk d ts c Hd). unfold d_ensure. setoid_rewrite lift_bind_ok.
  setoid_rewrite ensure_ok. split; [intros (d' & [] & Hp & Hm)|intros (Hp & d' & Hm)]; eauto.
Qed.

Lemma fin_lift {A B} (r : CRes A) (k : A -> CM B) Q :
  (forall a, finishes b (k a) (Q a)) ->
  finishes b (mbind_M (lift r) k) (fun c ts => exists a, r = Ok a /\ Q a c ts).
Proof.
  intros Hk d ts c Hd. setoid_rewrite lift_bind_ok. split.
  - intros (d' & a & Hr & Hm). exists a. split; [done|]. apply (Hk a d); eauto.
  - intros (a & Hr & HQ). apply (Hk a d) in HQ as [d' Hm]; [|done]. eauto.
Qed.

Lemma fin_ret {A} (a : A) : finishes b (ret a) (fun c ts => c = a).
Proof. intros d ts c Hd. split; [by intros (d' & [= <- _])|]. intros ->. by exists d. Qed.

Lemma fin_throw {A} e : finishes b (throw e) (fun (_ : A) _ => False).
Proof. intros d ts c Hd. by split; [intros (d' & ?)|]. Qed.

(** The check that nothing is left. *)
Lemma fin_end {A} (a : A) e :
  finishes b (do position <- d_position; run d_ensure (position =? len b) e; ret a)
    (fun c ts => c = a /\ ts = []).
Proof.
  intros d ts c [Hd _]. pose proof (at_rest_pos _ _ _ Hd) as Hp. pose proof (toks_bytes_nil ts) as Hn.
  rewrite (mbind_M_step _ _ _ (Z.of_nat (d_pos d)) d) by done. rewrite Hp.
  unfold d_ensure. setoid_rewrite lift_bind_ok. setoid_rewrite ensure_ok. split.
  - intros (d' & u & Hc & [= <- <-]). bool_split. split; [done|]. apply Hn. lia.
  - intros [-> Hts]. exists d, tt. split; [|done]. apply Hn in Hts. apply Z.eqb_eq. lia.
Qed.

Lemma fin_decode {A} (m : CM A) Q ts :
  finishes b m Q -> b = toks_bytes ts -> Forall tok_ok ts ->
  forall a, decode_with m b = Ok a <-> Q a ts.
Proof.
  intros Hm Hb Hts a. rewrite decode_with_ok. apply Hm. split; [|done]. rewrite <- Hb.
  apply at_rest_new.
Qed.
End Finishes.

Lemma den_decode {A} (m : CM A) R a ts rest :
  denotes m R -> Forall tok_ok ts -> R a ts -> decode_with m (toks_bytes ts ++ rest) = Ok a.
Proof.
  intros Hm Hts HR. destruct (den_reads _ _ Hm a ts Hts HR _ _ rest (at_rest_new _)) as (d & Hd & _).
  apply decode_with_ok. by exists d.
Qed.

(** ** The primitive reads *)

Lemma tok_major_range t : 0 <= tok_major t < 8.
Proof. destruct t; cbn; lia. Qed.

(** Over tokens, a head of any width is the shortest. *)
Lemma wide_front w m n r ts :
  0 <= m < 8 -> wide_ok w n -> Forall tok_ok ts -> toks_bytes ts = wide_head w m n ++ r ->
  exists t us, ts = t :: us /\ tok_major t = m /\ tok_arg t = n /\
    wide_head w m n = cbor_head m n /\ r = tok_body t ++ toks_bytes us.
Proof.
  intros Hm Hw Hts He. destruct ts as [|t ts].
  { pose proof (wide_head_len w m n) as Hl. apply (f_equal len) in He.
    rewrite len_app in He. pose proof (len_nonneg r). cbn in He. rewrite len_nil in He. lia. }
  apply Forall_cons in Hts as [[Ht _] _]. rewrite toks_bytes_cons in He. unfold tok_bytes in He.
  rewrite <- app_assoc in He. symmetry in He.
  apply wide_head_short in He as (Hh & -> & -> & ->); auto using tok_major_range.
  exists t, ts. auto.
Qed.

Lemma at_toks_step d b t r :
  at_toks d b (t :: r) ->
  at_toks {| d_buf := d_buf d; d_pos := d_pos d + length (tok_bytes t) |} b r.
Proof.
  intros [(pre & Hb & ->) Hts]. apply Forall_cons in Hts as [_ Hr]. split; [|done].
  exists (pre ++ tok_bytes t). rewrite length_app. split; [|done].
  by rewrite Hb, toks_bytes_cons, <- app_assoc.
Qed.

Lemma field_item {A} e (rd : bytes -> option (A * nat)) (P : A -> token -> Prop) :
  (forall a t rest, tok_ok t -> P a t ->
    rd (tok_bytes t ++ rest) = Some (a, length (tok_bytes t))) ->
  (forall ts a k, Forall tok_ok ts -> rd (toks_bytes ts) = Some (a, k) ->
    exists t r, ts = t :: r /\ P a t /\ k = length (tok_bytes t)) ->
  field (d_item e rd) P.
Proof.
  intros Hf Hb. split.
  - intros a ts Hts (t & -> & HP) d b rest Hd. apply Forall_cons in Hts as [Ht _].
    rewrite toks_bytes_cons in Hd. cbn in Hd. rewrite app_nil_r in Hd. unfold d_item.
    rewrite (at_rest_drop _ _ _ Hd), (Hf a t rest Ht HP). eexists. split; [done|].
    destruct Hd as (pre & -> & ->). exists (pre ++ tok_bytes t).
    rewrite <- app_assoc, length_app. done.
  - intros d b ts a d' Hd Hm. unfold d_item in Hm. rewrite (at_rest_drop _ _ _ (proj1 Hd)) in Hm.
    destruct (rd (toks_bytes ts)) as [[a' k]|] eqn:Hrd; [|done]. injection Hm as <- <-.
    destruct (Hb ts a' k (proj2 Hd) Hrd) as (t & r & -> & HP & ->).
    exists [t], r. split_and!; eauto using at_toks_step.
Qed.

Section Primitives.
Context `{MinicborWire} (e : ControlFailure).

(** The initial byte of an indefinite map or array starts no token. *)
Lemma indefinite_front m r ts :
  0 <= m < 8 -> Forall tok_ok ts -> toks_bytes ts <> b8 (m * 32 + 31) :: r.
Proof.
  intros Hm Hts He. destruct ts as [|t ts]; [done|]. apply Forall_cons in Hts as [[Ht _] _].
  rewrite toks_bytes_cons in He. unfold tok_bytes, cbor_head in He. rewrite wide_head_eq in He.
  injection He as He _. pose proof (info_range _ _ (width_of_ok _ Ht)).
  pose proof (tok_major_range t). apply initial_inj in He as [_ ?]; lia.
Qed.

Ltac front He :=
  apply wide_front in He as (t & us & -> & Hmaj & Harg & Hh & Hr); [|lia|assumption|assumption].
Ltac tok_case t Hmaj Harg := destruct t; try discriminate Hmaj; cbn in Harg; subst.

Lemma field_u64 : field (d_item e dec_u64) (fun n t => t = TUint n).
Proof.
  apply field_item.
  - intros n t rest [Ht _] ->. apply wire_dec_u64. cbn in Ht. unfold tok_bytes, cbor_head. cbn.
    exists (width_of n), rest. rewrite app_nil_r. split_and!; auto using width_of_ok.
  - intros ts n k Hts (w & r & Hw & He & ->)%wire_dec_u64. front He.
    tok_case t Hmaj Harg. exists (TUint n), us. split_and!; [done..|].
    unfold tok_bytes. cbn. by rewrite app_nil_r, Hh.
Qed.

Lemma field_u8 : field (d_item e dec_u8) (fun n t => t = TUint n /\ n < 256).
Proof.
  apply field_item.
  - intros n t rest [Ht _] [-> Hn]. apply wire_dec_u8. cbn in Ht. unfold tok_bytes, cbor_head. cbn.
    split; [done|]. exists (width_of n), rest. rewrite app_nil_r.
    split_and!; auto using width_of_ok.
  - intros ts n k Hts (Hn & w & r & Hw & He & ->)%wire_dec_u8. front He.
    tok_case t Hmaj Harg. exists (TUint n), us. split_and!; [done..|].
    unfold tok_bytes. cbn. by rewrite app_nil_r, Hh.
Qed.

Lemma field_map : field (d_item e dec_map) (fun o t => exists n, o = Some n /\ t = TMap n).
Proof.
  apply field_item.
  - intros o t rest [Ht _] (n & -> & ->). apply wire_dec_map. cbn in Ht.
    unfold tok_bytes, cbor_head. cbn.
    exists (width_of n), rest. rewrite app_nil_r. split_and!; auto using width_of_ok.
  - intros ts [n|] k Hts Hd.
    + apply wire_dec_map in Hd as (w & r & Hw & He & ->). front He.
      tok_case t Hmaj Harg. exists (TMap n), us. split_and!; [done|eauto|].
      unfold tok_bytes. cbn. by rewrite app_nil_r, Hh.
    + apply wire_dec_map_indefinite in Hd as [r He]. by apply indefinite_front in He; [|lia|].
Qed.

Lemma field_array : field (d_item e dec_array) (fun o t => exists n, o = Some n /\ t = TArray n).
Proof.
  apply field_item.
  - intros o t rest [Ht _] (n & -> & ->). apply wire_dec_array. cbn in Ht.
    unfold tok_bytes, cbor_head. cbn.
    exists (width_of n), rest. rewrite app_nil_r. split_and!; auto using width_of_ok.
  - intros ts [n|] k Hts Hd.
    + apply wire_dec_array in Hd as (w & r & Hw & He & ->). front He.
      tok_case t Hmaj Harg. exists (TArray n), us. split_and!; [done|eauto|].
      unfold tok_bytes. cbn. by rewrite app_nil_r, Hh.
    + apply wire_dec_array_indefinite in Hd as [r He]. by apply indefinite_front in He; [|lia|].
Qed.

Lemma string_front (b body r rest : bytes) : len body = len b -> b ++ r = body ++ rest -> body = b.
Proof. intros Hl He. apply app_inj_1 in He as [-> _]; [done|]. unfold len in Hl. lia. Qed.

Lemma field_bytes : field (d_item e dec_bytes) (fun b t => t = TBytes b).
Proof.
  apply field_item.
  - intros b t rest [Ht _] ->. apply wire_dec_bytes. cbn in Ht. unfold tok_bytes, cbor_head. cbn.
    exists (width_of (len b)), rest. rewrite <- app_assoc, length_app.
    split_and!; auto using width_of_ok.
  - intros ts b k Hts (w & r & Hw & He & ->)%wire_dec_bytes. front He. rewrite Hh.
    destruct t; try discriminate Hmaj. cbn in Harg, Hr. apply string_front in Hr as ->; [|done].
    exists (TBytes b), us. unfold tok_bytes. cbn. rewrite length_app. auto.
Qed.

Lemma field_str : field (d_item e dec_str) (fun b t => t = TStr b).
Proof.
  apply field_item.
  - intros b t rest [Ht Hu] ->. apply wire_dec_str. cbn in Ht. unfold tok_bytes, cbor_head. cbn.
    split; [done|]. exists (width_of (len b)), rest. rewrite <- app_assoc, length_app.
    split_and!; auto using width_of_ok.
  - intros ts b k Hts (Hu & w & r & Hw & He & ->)%wire_dec_str. front He. rewrite Hh.
    destruct t; try discriminate Hmaj. cbn in Harg, Hr. apply string_front in Hr as ->; [|done].
    exists (TStr b), us. unfold tok_bytes. cbn. rewrite length_app. auto.
Qed.

Lemma field_bool : field (d_item e dec_bool) (fun v t => t = TBool v).
Proof.
  apply field_item.
  - intros v t rest _ ->. apply wire_dec_bool. exists rest. unfold tok_bytes. cbn.
    rewrite app_nil_r. by destruct v.
  - intros ts v k Hts (r & He & ->)%wire_dec_bool. unfold cbor_head in He.
    apply wide_front in He as (t & us & -> & Hmaj & Harg & _ & Hr);
      [|lia|apply width_of_ok; destruct v; unfold U64_MAX; lia|done].
    destruct t as [| | | | |v']; try discriminate Hmaj. exists (TBool v'), us.
    destruct v, v'; cbn in Harg; done.
Qed.
End Primitives.

(** ** The fields of the control messages *)

Section Fields.
Context `{MinicborWire}.

Lemma field_iff {A} (m : CM A) P P' :
  field m P -> (forall a t, P a t <-> P' a t) -> field m P'.
Proof.
  intros Hm HP. eapply den_conseq; [exact Hm|]. intros a ts. cbn beta.
  by setoid_rewrite HP.
Qed.

Lemma field_eta {A} (m m' : CM A) P : field m P -> (forall d, m d = m' d) -> field m' P.
Proof.
  intros [Hf Hb] He. split.
  - intros a ts Hts HP d b rest Hd. rewrite <- He. by apply (Hf a ts).
  - intros d b ts a d' Hd Hm. rewrite <- He in Hm. by eapply Hb.
Qed.

Lemma field_require_map n : field (require_map n) (fun _ t => t = TMap n).
Proof.
  eapply field_iff.
  { eapply (field_check (d_item decode_error dec_map) _
             (fun o => ensure (bool_decide (o = Some n)) (ipc Malformed))). apply field_map. }
  intros [] t. cbn beta. setoid_rewrite ensure_ok. setoid_rewrite bool_decide_eq_true. split.
  - by intros (? & (k & -> & ->) & [= ->]).
  - intros ->. eauto 6.
Qed.

Lemma field_require_key k : k < 256 -> field (require_key k) (fun _ t => t = TUint k).
Proof.
  intros Hk. eapply field_iff.
  { eapply (field_check c_u8 _ (fun n => ensure (n =? k) (ipc Malformed))). apply field_u8. }
  intros [] t. cbn beta. setoid_rewrite ensure_ok. setoid_rewrite Z.eqb_eq. split.
  - by intros (? & [-> _] & ->).
  - intros ->. eauto.
Qed.

Lemma field_definite_map : field (definite dec_map) (fun n t => t = TMap n).
Proof.
  eapply field_iff; [apply field_check, field_map|]. intros n t. cbn beta.
  setoid_rewrite res_of_option_ok. split; [by intros (? & (k & -> & ->) & [= ->])|].
  intros ->. eauto 6.
Qed.

Lemma field_definite_array : field (definite dec_array) (fun n t => t = TArray n).
Proof.
  eapply field_iff; [apply field_check, field_array|]. intros n t. cbn beta.
  setoid_rewrite res_of_option_ok. split; [by intros (? & (k & -> & ->) & [= ->])|].
  intros ->. eauto 6.
Qed.

Lemma field_fixed n : field (c_fixed n) (fun b t => t = TBytes b /\ len b = n).
Proof.
  eapply field_iff; [apply (field_check c_bytes), field_bytes|]. intros b t. cbn beta. unfold fixed.
  setoid_rewrite res_bind_ok. setoid_rewrite ensure_ok. setoid_rewrite Z.eqb_eq. split.
  - intros (b' & -> & [] & Hb & [= ->]). auto.
  - intros [-> Hb]. exists b. split; [done|]. by exists tt.
Qed.

Definition safe_integer (n : Z) : Prop := 1 <= n <= MAX_SAFE_INTEGER.
Lemma require_safe_ok n u : require_safe_integer n = Ok u <-> safe_integer n.
Proof.
  unfold require_safe_integer, safe_integer, CRes. rewrite ensure_ok, andb_true_iff, !Z.leb_le. done.
Qed.

Lemma field_safe : field c_safe (fun n t => t = TUint n /\ safe_integer n).
Proof.
  eapply field_iff.
  { eapply (field_ensure c_u64 _ (fun n => (1 <=? n) && (n <=? MAX_SAFE_INTEGER)) (ipc Malformed)).
    apply field_u64. }
  intros n t. cbn beta. by rewrite andb_true_iff, !Z.leb_le.
Qed.

Lemma field_session_id : field c_session_id (fun s t => t = TStr s /\ session_name s).
Proof.
  eapply field_iff; [apply (field_ensure c_str), field_str|]. intros s t. cbn beta.
  rewrite <- (session_name_iff s tt). unfold require_session_id, CRes. by rewrite ensure_ok.
Qed.

Definition message_ok (cap : Z) (m : bytes) : Prop := 1 <= len m <= cap.
Lemma field_message cap : field (c_message cap) (fun m t => t = TBytes m /\ message_ok cap m).
Proof.
  eapply field_iff; [apply (field_ensure c_bytes), field_bytes|]. intros m t. cbn beta.
  unfold message_ok. split; intros [-> Hm]; (split; [done|]).
  - bool_split. lia.
  - apply negb_true_iff, orb_false_iff. rewrite is_empty_false, Z.ltb_ge. lia.
Qed.

(** An enumeration: [f] is the inverse of the numbers [w]. *)
Lemma field_enum {A} (f : Z -> CRes A) (w : A -> Z) :
  (forall n a, f n = Ok a <-> n = w a) -> (forall a, w a < 256) ->
  field (c_enum f) (fun a t => t = TUint (w a)).
Proof.
  intros Hf Hw. eapply field_iff; [apply (field_check c_u8), field_u8|]. intros a t. cbn beta.
  setoid_rewrite Hf. split; [by intros (? & [-> _] & ->)|]. intros ->. eauto.
Qed.

Ltac enum := intros n a; split; [|intros ->; by destruct a];
  repeat (destruct n as [|n|n]; try done); by intros [= <-].

Lemma field_platform : field (c_enum decode_platform) (fun a t => t = TUint (Platform_wire a)).
Proof. apply field_enum; [enum|by intros []]. Qed.
Lemma field_side_effect :
  field (c_enum decode_side_effect) (fun a t => t = TUint (SideEffect_wire a)).
Proof. apply field_enum; [enum|by intros []]. Qed.
Lemma field_close_reason :
  field (c_enum close_reason) (fun a t => t = TUint (CloseReason_wire a)).
Proof. apply field_enum; [enum|by intros []]. Qed.
Lemma field_handoff :
  field (c_enum decode_handoff) (fun a t => t = TUint (HandoffState_wire a)).
Proof. apply field_enum; [enum|by intros []]. Qed.
Lemma field_kind : field (c_enum decode_kind) (fun a t => t = TUint (ErrorKind_wire a)).
Proof. apply field_enum; [enum|by intros []]. Qed.
Lemma field_stage : field (c_enum decode_stage) (fun a t => t = TUint (ErrorStage_wire a)).
Proof. apply field_enum; [enum|by intros []]. Qed.
End Fields.

(** ** Writing tokens *)

Section Writing.
Context `{MinicborWire}.

Lemma enc_map_tok n : 0 <= n <= U64_MAX -> enc_map n = Some (tok_bytes (TMap n)).
Proof. intros. unfold tok_bytes. cbn. rewrite app_nil_r. by apply wire_enc_map. Qed.
Lemma enc_array_tok n : 0 <= n <= U64_MAX -> enc_array n = Some (tok_bytes (TArray n)).
Proof. intros. unfold tok_bytes. cbn. rewrite app_nil_r. by apply wire_enc_array. Qed.
Lemma enc_u8_tok n : 0 <= n < 256 -> enc_u8 n = Some (tok_bytes (TUint n)).
Proof. intros. unfold tok_bytes. cbn. rewrite app_nil_r. by apply wire_enc_u8. Qed.
Lemma enc_u64_tok n : 0 <= n <= U64_MAX -> enc_u64 n = Some (tok_bytes (TUint n)).
Proof. intros. unfold tok_bytes. cbn. rewrite app_nil_r. by apply wire_enc_u64. Qed.
Lemma enc_bytes_tok (b : bytes) : len b <= U64_MAX -> enc_bytes b = Some (tok_bytes (TBytes b)).
Proof. apply wire_enc_bytes. Qed.
Lemma enc_str_tok (b : bytes) : len b <= U64_MAX -> enc_str b = Some (tok_bytes (TStr b)).
Proof. apply wire_enc_str. Qed.
Lemma enc_bool_tok v : enc_bool v = Some (tok_bytes (TBool v)).
Proof. unfold tok_bytes. cbn. rewrite app_nil_r. apply wire_enc_bool. Qed.

(** A chain of encoders writes the tokens. *)
Definition writes (items : list (option bytes)) (ts : list token) : Prop :=
  Forall2 (fun o t => o = Some (tok_bytes t)) items ts.

Lemma c_chain_tokens items ts : writes items ts -> c_chain items = Ok (toks_bytes ts).
Proof.
  unfold c_chain, writes. induction 1 as [|o t items ts -> _ IH]; [done|].
  change (enc_chain encode_error (Some (tok_bytes t) :: items)) with
    (res_bind (enc_chain encode_error items) (fun l => Ok (tok_bytes t ++ l))).
  by rewrite IH.
Qed.
End Writing.

(** Solves [writes] with the tokens of the encoders, whose arguments are in range by [lia]. *)
Ltac write_tokens :=
  unfold writes;
  repeat first
  [ apply Forall2_nil_2
  | apply Forall2_cons_2;
    [first [ apply enc_map_tok; lia | apply enc_array_tok; lia | apply enc_u8_tok; lia
           | apply enc_u64_tok; lia | apply enc_bytes_tok; lia | apply enc_str_tok; lia
           | apply enc_bool_tok ]|] ].

#[export] Hint Resolve field_platform field_side_effect field_close_reason field_handoff
  field_kind field_stage field_require_map field_definite_map field_definite_array field_fixed
  field_safe field_session_id field_message field_u64 field_u8 field_bytes field_str
  field_bool : codec.
#[export] Hint Extern 1 (field (require_key _) _) => apply field_require_key; lia : codec.

(** ** Automation *)

(** Describes a decoder made of fields. *)
Ltac den :=
  repeat lazymatch goal with
  | |- denotes (mbind_M (d_ensure _ _) _) _ => eapply den_ensure
  | |- denotes (mbind_M (lift _) _) _ => eapply den_lift; intros ?
  | |- denotes (mbind_M _ _) _ => eapply den_field; [solve [eauto with codec]|intros ?]
  | |- denotes (ret _) _ => apply den_ret
  end.
Ltac den_inv :=
  repeat match goal with
  | H : ex _ |- _ => destruct H
  | H : _ /\ _ |- _ => destruct H
  end; subst.
(** Matches the tokens of a tree with a description. *)
Ltac den_token :=
  split; [reflexivity|]; split; [first [reflexivity|split; [reflexivity|first [eassumption|lia]]]|].
Ltac den_build :=
  repeat lazymatch goal with
  | |- exists (_ : unit) _ _, _ :: _ = _ :: _ /\ _ => exists tt; do 2 eexists; den_token
  | |- exists _ _ _, _ :: _ = _ :: _ /\ _ => do 3 eexists; den_token
  | |- _ /\ (exists _ _ _, _ :: _ = _ :: _ /\ _) => split; [auto using Z.eqb_refl|]
  end.

Ltac fin :=
  repeat lazymatch goal with
  | |- finishes _ (mbind_M d_position _) _ => apply fin_end
  | |- finishes _ (mbind_M (d_ensure _ _) _) _ => eapply fin_ensure
  | |- finishes _ (mbind_M (lift _) _) _ => eapply fin_lift; intros ?
  | |- finishes _ (mbind_M _ _) _ => eapply fin_field; [solve [eauto with codec]|intros ?]
  | |- finishes _ (ret _) _ => apply fin_ret
  end.

(** Rewrites the first encoder chain of the goal to the bytes of its tokens. *)
Ltac chain_step :=
  match goal with
  | |- context [c_chain ?items] =>
      erewrite (c_chain_tokens items) by (write_tokens); cbn [res_bind]
  end.

(** The bodies whose decoders are fields with no guards between them. *)
Ltac fields_denote :=
  eapply den_iff; [den|];
  let b := fresh "b" in let ts := fresh "ts" in
  intros b ts _; cbn beta; split;
  [intros Hx; den_inv; cbn; split_and!; done
  |intros [Hb ->]; destruct b; cbn in *; destruct_and?; den_build; done].

(** The optional session id, and the key after it. *)
Lemma optional_session_denotes `{MinicborWire} (wanted key : Z) :
  denotes (if key =? wanted
           then do session <- c_session_id; do next_key <- c_u8; ret (Some session, next_key)
           else ret (None, key))
    (fun p ts => match fst p with
                 | Some s => key = wanted /\ session_name s /\ snd p < 256 /\
                             ts = [TStr s; TUint (snd p)]
                 | None => key <> wanted /\ snd p = key /\ ts = []
                 end).
Proof.
  destruct (Z.eqb_spec key wanted).
  - eapply den_conseq; [unfold c_u8; den|]. intros [[s|] k] ts; cbn; split.
    + intros Hx. den_inv. by simplify_eq.
    + intros (_ & Hs & Hk & ->). den_build. done.
    + intros Hx. den_inv. by simplify_eq.
    + by intros [? _].
  - eapply den_conseq; [apply den_ret|]. intros [[s|] k] ts; cbn; split; try naive_solver.
Qed.
