(* ===== verification/Sizes.v ===== *)
(** What the texts and the sizes of control messages amount to: names are ASCII, and the
    length of a tree is within what its fields allow. *)

From S2P Require Import Prelude Errors Crates Wire Cbor Records Control Names Deterministic Tokens.

(** ** Names are UTF-8 *)

Lemma ascii_utf8 (l : bytes) : forallb (fun b => u8 b <? 128) l = true -> valid_utf8 l = true.
Proof.
  induction l as [|b l IH]; cbn; [done|]. intros [Hb Hl]%andb_true_iff. rewrite Hb. auto.
Qed.

Lemma ascii_class (p : byte -> bool) (l : bytes) :
  (forall b, p b = true -> (u8 b <? 128) = true) -> forallb p l = true -> valid_utf8 l = true.
Proof.
  intros Hp Hl. apply ascii_utf8. rewrite forallb_forall in *. auto.
Qed.

Lemma selector_utf8 l : selector_name l -> valid_utf8 l = true.
Proof.
  intros [_ Hl]. apply word_chars_iff in Hl. eapply ascii_class; [|exact Hl]. by intros [].
Qed.
Lemma app_utf8 l : app_name l -> valid_utf8 l = true.
Proof.
  intros (_ & Hl & _). apply word_chars_iff in Hl. eapply ascii_class; [|exact Hl]. by intros [].
Qed.
Lemma session_utf8 l : session_name l -> valid_utf8 l = true.
Proof.
  intros [_ Hl]. apply word_chars_iff in Hl. eapply ascii_class; [|exact Hl]. by intros [].
Qed.

Lemma capability_utf8 l : capability_name l -> valid_utf8 l = true.
Proof.
  intros (_ & parts & _ & Hp & ->). apply ascii_utf8.
  induction Hp as [|p ps Hp _ IH]; [done|].
  assert (Ha : forallb (fun b => u8 b <? 128) p = true).
  { apply (forallb_Forall _ (fun b => u8 b < 128)); [intros b; apply Z.ltb_lt|].
    destruct Hp as (a & r & -> & _ & Ha & Hr). unfold lower, digit in *. constructor; [lia|].
    eapply Forall_impl; [exact Hr|]. cbn. lia. }
  destruct ps as [|q ps]; [done|]. change (dotted (p :: q :: ps)) with (p ++ b8 46 :: dotted (q :: ps)).
  rewrite forallb_app, Ha. done.
Qed.

(** ** Sizes *)

Lemma head_len_le n :
  1 <= head_len n <= 9 /\ (n < 24 -> head_len n = 1) /\ (n < 256 -> head_len n <= 2) /\
  (n < 65536 -> head_len n <= 3) /\ (n < 4294967296 -> head_len n <= 5).
Proof.
  unfold head_len, width_of. change (2 ^ 8) with 256. change (2 ^ 16) with 65536.
  change (2 ^ 32) with 4294967296. repeat case_match; bool_split; split_and!; intros; try lia; done.
Qed.

(** The length of a tree, as the sum of what its heads and strings take. *)
Fixpoint cbor_size (c : cbor) : Z :=
  match c with
  | CUint n => head_len n
  | CBytes b | CStr b => head_len (len b) + len b
  | CArray l => head_len (len l) + foldr (fun c n => cbor_size c + n) 0 l
  | CMap l =>
      head_len (len l) + foldr (fun e n => head_len (fst e) + cbor_size (snd e) + n) 0 l
  | CBool _ => 1
  end.

Lemma cbor_bytes_size c : len (cbor_bytes c) = cbor_size c.
Proof.
  induction c as [n|b|b|l IH|l IH|v] using cbor_nested_ind; cbn [cbor_bytes cbor_size];
    autorewrite with len; rewrite ?len_cbor_head; try done.
  - f_equal. induction IH as [|c l Hc _ IHl]; [done|]. cbn. autorewrite with len. by rewrite Hc, IHl.
  - f_equal. induction IH as [|e l Hc _ IHl]; [done|]. cbn. autorewrite with len.
    by rewrite len_cbor_head, Hc, IHl.
  - by destruct v.
Qed.

Lemma strings_size (P : bytes -> Prop) n l :
  (forall s, P s -> head_len (len s) + len s <= n) -> Forall P l ->
  foldr (fun c m => cbor_size c + m) 0 (map CStr l) <= n * len l.
Proof.
  intros HP. induction 1 as [|s l Hs _ IH]; [rewrite (len_nil (A := bytes)); cbn; lia|]. cbn [map foldr cbor_size].
  rewrite len_cons, Z.mul_add_distr_l. apply HP in Hs. lia.
Qed.

#[global] Arguments head_len : simpl never.

Lemma head_len_range n : 1 <= head_len n <= 9.
Proof. apply head_len_le. Qed.

(** Bounds the heads of the goal, each by the least bound that holds. *)
Ltac head_bounds :=
  repeat match goal with
  | |- context [head_len ?n] =>
      let h := fresh "h" in let Hh := fresh "Hh" in let He := fresh "He" in
      first [ assert (Hh : head_len n = 1) by (apply head_len_le; lia); rewrite Hh; clear Hh
            | first [ assert (Hh : head_len n <= 2) by (apply head_len_le; lia)
                    | assert (Hh : head_len n <= 3) by (apply head_len_le; lia)
                    | assert (Hh : head_len n <= 5) by (apply head_len_le; lia)
                    | idtac ];
              pose proof (head_len_range n); generalize dependent (head_len n); intros h ? ]
  end.

(** Evaluates the heads of literals. *)
Ltac const_heads :=
  repeat match goal with
  | |- context [head_len (len (?a :: ?l))] =>
      let v := eval vm_compute in (head_len (len (a :: l))) in
      lazymatch v with Zpos _ => change (head_len (len (a :: l))) with v end
  | |- context [head_len Z0] => change (head_len 0) with 1
  | |- context [head_len (Zpos ?p)] =>
      let v := eval vm_compute in (head_len (Zpos p)) in change (head_len (Zpos p)) with v
  end.

(** ** Facts about fields *)

Lemma Platform_wire_range p : 0 <= Platform_wire p < 2.
Proof. destruct p; cbn; lia. Qed.
Lemma SideEffect_wire_range s : 0 <= SideEffect_wire s < 4.
Proof. destruct s; cbn; lia. Qed.
Lemma ErrorKind_wire_range k : 0 <= ErrorKind_wire k < 5.
Proof. destruct k; cbn; lia. Qed.
Lemma ErrorStage_wire_range s : 0 <= ErrorStage_wire s < 8.
Proof. destruct s; cbn; lia. Qed.

(** What is known of the names in the context. *)
Ltac name_fact s H := lazymatch goal with _ : valid_utf8 s = true |- _ => fail | _ => pose proof H end.
Ltac name_facts :=
  repeat match goal with
  | H : session_name ?s |- _ => name_fact s (session_utf8 s H); pose proof (proj1 H)
  | H : app_name ?s |- _ => name_fact s (app_utf8 s H); pose proof (proj1 H)
  | H : selector_name ?s |- _ => name_fact s (selector_utf8 s H); pose proof (proj1 H)
  | H : artifact_path ?s |- _ =>
      lazymatch goal with _ : 2 <= len s <= 4096 |- _ => fail | _ => pose proof (proj1 H) end
  end.

(** Replaces the numbers of enumerations in the goal by numbers in their ranges. *)
Ltac wire_fact n H := pose proof H; generalize dependent n; intros.
Ltac wire_facts :=
  repeat match goal with
  | |- context [Platform_wire ?p] => wire_fact (Platform_wire p) (Platform_wire_range p)
  | |- context [SideEffect_wire ?s] => wire_fact (SideEffect_wire s) (SideEffect_wire_range s)
  | |- context [CloseReason_wire ?r] => wire_fact (CloseReason_wire r) (CloseReason_wire_range r)
  | |- context [HandoffState_wire ?h] => wire_fact (HandoffState_wire h) (HandoffState_wire_range h)
  | |- context [ErrorKind_wire ?k] => wire_fact (ErrorKind_wire k) (ErrorKind_wire_range k)
  | |- context [ErrorStage_wire ?s] => wire_fact (ErrorStage_wire s) (ErrorStage_wire_range s)
  end.

(** ** Frames *)

Lemma unframe_ok packet cbor :
  unframe packet = Ok cbor <->
  packet = be_encode 4 (len cbor) ++ cbor /\ 1 <= len cbor <= GLOBAL_CBOR_CAP.
Proof.
  unfold unframe, GLOBAL_CBOR_CAP, GLOBAL_PACKET_CAP. split.
  - destruct (Z.ltb_spec (len packet) 4); [done|]. pose proof (be_decode_range (take 4 packet)) as Hr.
    assert (Ht : len (take 4 packet) = 4) by (unfold len in *; rewrite length_take; lia).
    pose proof (be_encode_decode (take 4 packet)) as He.
    replace (length (take 4 packet)) with 4%nat in He by (unfold len in Ht; lia).
    destruct (Z.eqb_spec (be_decode (take 4 packet)) 0); [done|].
    destruct (_ || _) eqn:Hc; [done|]. bool_split.
    destruct (Z.eqb_spec (len packet) (be_decode (take 4 packet) + 4)) as [Hl|]; [|done].
    cbn [negb]. intros [= <-].
    assert (Hd : len (drop 4 packet) = be_decode (take 4 packet)).
    { unfold len in *. rewrite length_drop. lia. }
    rewrite Hd, He, take_drop. split; [done|]. lia.
  - intros [-> Hl]. rewrite len_app, len_be_encode, <- (length_be_encode 4 (len cbor)).
    rewrite take_app_length, drop_app_length, length_be_encode, be_decode_encode by (cbn; lia).
    unfold checked_add, U64_MAX. by decide_cmp.
Qed.

Lemma frame_ok cbor cap packet :
  frame cbor cap = Ok packet <->
  packet = be_encode 4 (len cbor) ++ cbor /\ 1 <= len cbor <= Z.min cap GLOBAL_CBOR_CAP.
Proof.
  unfold frame. destruct (is_empty cbor) eqn:He.
  { apply is_empty_true in He as ->. rewrite len_nil. split; [done|lia]. }
  apply is_empty_false in He. destruct (_ || _) eqn:Hc.
  - split; [done|]. intros [_ Hl]. apply orb_true_iff in Hc as [Hc|Hc]; bool_split; lia.
  - bool_split. split; [intros [= <-]; split; [done|lia]|]. by intros [-> _].
Qed.
