(* ===== verification/Requests.v ===== *)
(** Control requests as trees: which requests are well formed, the tree of each, the
    decoders of [Control.v] against the tokens of the tree, and the theorems that encoder
    and decoder are inverse and total on well-formed requests, within the caps. *)

From S2P Require Import Prelude Errors Crates Wire CratesRef Cbor Records Control Names Deterministic Tokens Sizes.

(** ** Well-formed requests *)

Definition prepare_ok (b : PrepareBody) : Prop :=
  selector_name (device_selector b) /\ app_name (app_id b) /\ artifact_path (app_artifact b) /\
  valid_utf8 (app_artifact b) = true /\ len (app_artifact_sha256 b) = 32.

(** A request of a new session has a message, one of an existing session has none. *)
Definition open_ok (b : OpenSessionBody) : Prop :=
  len (o_target_token b) = 32 /\ capability_list (required_capabilities b) /\
  match o_session_id b, session_open_request b, session_open_request_sha256 b with
  | Some s, None, None => session_name s
  | None, Some r, Some h => message_ok 65536 r /\ len h = 32
  | _, _, _ => False
  end.

Definition exchange_ok (b : ExchangeBody) : Prop :=
  len (x_target_token b) = 32 /\ session_name (x_session_id b) /\
  safe_integer (x_process_generation b) /\ safe_integer (x_listener_epoch b) /\
  message_ok 16777216 (x_message b) /\ len (x_message_sha256 b) = 32.

Definition close_session_ok (b : CloseSessionBody) : Prop :=
  len (cs_target_token b) = 32 /\ session_name (cs_session_id b) /\
  safe_integer (cs_process_generation b) /\ safe_integer (cs_listener_epoch b).

Definition close_lease_ok (b : CloseLeaseBody) : Prop := len (cl_target_token b) = 32.

Definition body_ok (r : ControlRequest) : Prop :=
  match r with
  | RPrepare r => prepare_ok (body r)
  | ROpenSession r => open_ok (body r)
  | RExchange r => exchange_ok (body r)
  | RCloseSession r => close_session_ok (body r)
  | RCloseLease r => close_lease_ok (body r)
  end.
Definition request_ok (r : ControlRequest) : Prop :=
  len (control_request_id r) = 16 /\ safe_integer (control_deadline_unix_ms r) /\ body_ok r.

(** ** The tree of a request *)

Definition prepare_tree (b : PrepareBody) : cbor :=
  CMap [(0, CUint (Platform_wire (platform b))); (1, CStr (device_selector b));
        (2, CStr (app_id b)); (3, CStr (app_artifact b)); (4, CBytes (app_artifact_sha256 b))].

Definition open_tree (b : OpenSessionBody) : cbor :=
  CMap ([(0, CBytes (o_target_token b))]
        ++ (match o_session_id b with Some s => [(1, CStr s)] | None => [] end)
        ++ [(2, CArray (map CStr (required_capabilities b)))]
        ++ (match o_session_id b, session_open_request b, session_open_request_sha256 b with
            | None, Some r, Some h => [(3, CBytes r); (4, CBytes h)]
            | _, _, _ => []
            end)).

Definition exchange_tree (b : ExchangeBody) : cbor :=
  CMap [(0, CBytes (x_target_token b)); (1, CStr (x_session_id b));
        (2, CUint (x_process_generation b)); (3, CUint (x_listener_epoch b));
        (4, CBytes (x_message b)); (5, CBytes (x_message_sha256 b));
        (6, CUint (SideEffect_wire (side_effect b)))].

Definition close_session_tree (b : CloseSessionBody) : cbor :=
  CMap [(0, CBytes (cs_target_token b)); (1, CStr (cs_session_id b));
        (2, CUint (cs_process_generation b)); (3, CUint (cs_listener_epoch b));
        (4, CUint (CloseReason_wire (cs_reason b)))].

Definition close_lease_tree (b : CloseLeaseBody) : cbor :=
  CMap [(0, CBytes (cl_target_token b)); (1, CUint (CloseReason_wire (cl_reason b)))].

Definition body_tree (r : ControlRequest) : cbor :=
  match r with
  | RPrepare r => prepare_tree (body r)
  | ROpenSession r => open_tree (body r)
  | RExchange r => exchange_tree (body r)
  | RCloseSession r => close_session_tree (body r)
  | RCloseLease r => close_lease_tree (body r)
  end.

Definition request_tree (r : ControlRequest) : cbor :=
  CMap [(0, CUint 1); (1, CBytes (control_request_id r)); (2, CUint (control_deadline_unix_ms r));
        (3, CUint (operation_of r)); (4, body_tree r)].

(** The packet: the length in four bytes, and the shortest encoding of the tree. *)
Definition request_packet (r : ControlRequest) : bytes :=
  be_encode 4 (len (cbor_bytes (request_tree r))) ++ cbor_bytes (request_tree r).

(** ** Decoders against tokens *)

Section Bodies.
Context `{MinicborWire}.

Lemma prepare_denotes :
  denotes decode_prepare (fun b ts => prepare_ok b /\ ts = flatten (prepare_tree b)).
Proof.
  eapply den_iff; [unfold decode_prepare, c_str; den|].
  intros b ts Ht. cbn beta. setoid_rewrite selector_name_iff. setoid_rewrite app_name_iff.
  setoid_rewrite artifact_path_iff.
  unfold prepare_ok. split.
  - intros Hx. den_inv. cbn. split_and!; try done.
    repeat (apply Forall_cons in Ht as [? Ht]).
    by match goal with H : tok_ok (TStr ?x) |- valid_utf8 ?x = _ => apply H end.
  - intros [Hb ->]. destruct b as [p s a r h], Hb as (Hs & Ha & Hr & Hu & Hh).
    cbn in *. den_build. done.
Qed.

Lemma exchange_denotes :
  denotes decode_exchange (fun b ts => exchange_ok b /\ ts = flatten (exchange_tree b)).
Proof. unfold decode_exchange, exchange_ok. fields_denote. Qed.

Lemma close_session_denotes :
  denotes decode_close_session
    (fun b ts => close_session_ok b /\ ts = flatten (close_session_tree b)).
Proof. unfold decode_close_session, close_session_ok. fields_denote. Qed.

Lemma close_lease_denotes :
  denotes decode_close_lease (fun b ts => close_lease_ok b /\ ts = flatten (close_lease_tree b)).
Proof. unfold decode_close_lease, close_lease_ok. fields_denote. Qed.

Lemma capabilities_loop_denotes n previous :
  denotes (decode_capabilities_loop n previous) (fun l ts =>
    exists l', l = previous ++ l' /\ length l' = n /\ capabilities_rise previous l' /\
      ts = map TStr l').
Proof.
  revert previous. induction n as [|n IH]; intros previous; cbn [decode_capabilities_loop].
  - eapply den_conseq; [apply den_ret|]. intros l ts. cbn beta. split.
    + intros [-> ->]. exists []. by rewrite app_nil_r.
    + intros ([|] & -> & ? & _ & ->); [|done]. by rewrite app_nil_r.
  - eapply den_conseq.
    { eapply den_field; [apply field_str|]. intros c. eapply den_ensure, IH. }
    intros l ts. cbn beta. split.
    + intros (c & ? & r & -> & -> & Hc & l' & -> & <- & Hr & ->). exists (c :: l').
      rewrite <- app_assoc. done.
    + intros ([|c l'] & -> & Hn & Hr & ->); [done|]. destruct Hr as [Hc Hr].
      exists c, (TStr c), (map TStr l'). split_and!; [done..|]. exists l'.
      rewrite <- app_assoc. by injection Hn.
Qed.

Lemma names_flatten l : concat (map flatten (map CStr l)) = map TStr l.
Proof. induction l as [|c l IHl]; cbn; [done|]. by rewrite IHl. Qed.

Lemma capabilities_denotes :
  denotes decode_capabilities
    (fun l ts => capability_list l /\ ts = flatten (CArray (map CStr l))).
Proof.
  eapply den_conseq.
  { unfold decode_capabilities. eapply den_field; [apply field_definite_array|]. intros n.
    eapply den_ensure, capabilities_loop_denotes. }
  intros l ts. cbn beta. rewrite capability_list_iff. cbn [flatten]. rewrite names_flatten.
  replace (len (map CStr l)) with (len l) by (unfold len; by rewrite length_map). split.
  - intros (n & ? & r & -> & -> & Hn & l' & -> & Hl & Hr & ->). cbn [app]. bool_split.
    replace n with (len l') by (unfold len; lia). split_and!; done || (unfold len; lia).
  - intros [[Hl Hr] ->]. exists (len l). do 2 eexists. split_and!; [done..| |].
    { apply andb_true_iff. rewrite !Z.leb_le. lia. }
    exists l. by rewrite to_nat_len.
Qed.

(** The number of entries an open request announces is not checked against its form here,
    but by the validator. *)
Definition open_tokens (n : Z) (b : OpenSessionBody) : list token :=
  TMap n :: tail (flatten (open_tree b)).

(** The message of a new session. *)
Lemma open_request_denotes token session capabilities :
  denotes
    (match session with
     | None =>
         run require_key 3; do request <- c_message 65536;
         run require_key 4; do sha <- c_fixed 32;
         ret (mkOpen token None capabilities (Some request) (Some sha))
     | Some _ => ret (mkOpen token session capabilities None None)
     end)
    (fun b ts => match session with
                 | None => exists r h, b = mkOpen token None capabilities (Some r) (Some h) /\
                     message_ok 65536 r /\ len h = 32 /\
                     ts = [TUint 3; TBytes r; TUint 4; TBytes h]
                 | Some _ => b = mkOpen token session capabilities None None /\ ts = []
                 end).
Proof.
  destruct session; [apply den_ret|]. eapply den_conseq; [den|]. intros b ts. cbn beta. split.
  - intros Hx. den_inv. eauto 8.
  - intros (r & h & -> & Hr & Hh & ->). den_build. done.
Qed.

Lemma open_denotes :
  denotes decode_open (fun b ts => open_ok b /\ exists n, (n = 3 \/ n = 4) /\ ts = open_tokens n b).
Proof.
  eapply den_conseq.
  { unfold decode_open, c_u8. eapply den_field; [apply field_definite_map|]. intros n.
    eapply den_ensure, den_field; [auto with codec|]. intros ?.
    eapply den_field; [auto with codec|]. intros token.
    eapply den_field; [auto with codec|]. intros key.
    eapply den_pair; [apply (optional_session_denotes 1)|]. intros session next.
    eapply den_ensure, den_bind; [apply capabilities_denotes|]. intros capabilities.
    apply open_request_denotes. }
  intros b ts. cbn [fst snd]. unfold open_ok, open_tokens. split.
  - intros (n & ? & ? & -> & -> & Hn & _ & ? & ? & -> & -> & token & ? & ? & -> & [-> Ht] & key & ? &
      ? & -> & [-> Hk] & session & next & ? & ? & -> & Hs & Hnext & caps & ? & ? & -> & [Hc ->] & Hb).
    apply orb_true_iff in Hn. rewrite !Z.eqb_eq in Hn. bool_split. subst next.
    destruct session as [s|]; [destruct Hs as (-> & Hs & _ & ->), Hb as [-> ->]
                              |destruct Hs as (_ & <- & ->), Hb as (r & h & -> & Hr & Hh & ->)]; cbn.
    + split_and!; try done. exists n. rewrite !app_nil_r. done.
    + split_and!; try done. exists n. done.
  - intros [(Ht & Hc & Hb) (n & Hn & ->)]. destruct b as [token session caps r h]. cbn in *.
    assert (Hn' : (n =? 3) || (n =? 4) = true) by (by destruct Hn as [->| ->]).
    exists n. do 2 eexists. split_and!; [done..|]. exists tt. do 2 eexists. split_and!; [done..|].
    exists token. do 2 eexists. split_and!; [done..|].
    destruct session as [s|], r as [r|], h as [h|]; try done; cbn [app tail flatten fst snd map concat].
    + exists 1. do 2 eexists. split_and!; [done..|]. exists (Some s), 2, [TStr s; TUint 2].
      eexists. split_and!; [done..|].
      by exists caps, (flatten (CArray (map CStr caps))), [].
    + exists 2. do 2 eexists. split_and!; [done..|]. exists None, 2, []. eexists.
      split_and!; [done..|]. destruct Hb as [Hr Hh].
      exists caps, (flatten (CArray (map CStr caps))), [TUint 3; TBytes r; TUint 4; TBytes h].
      split_and!; [done..|]. eauto 8.
Qed.
End Bodies.

(** ** The trees are deterministic CBOR of bounded size *)

Lemma names_short l : capability_list l -> Forall (fun s => len s <= 128) l.
Proof. intros (_ & Hl & _). eapply Forall_impl; [exact Hl|]. intros s [Hs _]. lia. Qed.

Lemma capabilities_size l :
  capability_list l -> foldr (fun c m => cbor_size c + m) 0 (map CStr l) <= 130 * len l.
Proof.
  intros Hl. apply (strings_size (fun s => len s <= 128)); [|by apply names_short].
  intros s Hs. pose proof (len_nonneg s). head_bounds. lia.
Qed.

Lemma foldr_nonneg l : 0 <= foldr (fun c m => cbor_size c + m) 0 (map CStr l).
Proof.
  induction l as [|s l IH]; cbn; [done|]. pose proof (head_len_le (len s)). pose proof (len_nonneg s).
  lia.
Qed.

Lemma capabilities_cbor_ok l :
  capability_list l ->
  foldr (fun c P => cbor_ok 3 c /\ P) True (map CStr l).
Proof.
  intros (_ & Hl & _). induction Hl as [|s l Hs _ IH]; cbn; [done|].
  pose proof (capability_utf8 s Hs). destruct Hs as [Hs _]. unfold U64_MAX. split_and!; auto; lia.
Qed.

Lemma operation_range r : 0 <= operation_of r <= 4.
Proof. destruct r; cbn; lia. Qed.

(** What a well-formed request's fields are, for [lia] and the trees. *)
Ltac request_facts :=
  unfold prepare_ok, open_ok, exchange_ok, close_session_ok, close_lease_ok, safe_integer,
    message_ok, MAX_SAFE_INTEGER, capability_list in *; destruct_and?; name_facts.

Lemma request_size r :
  request_ok r -> 1 <= cbor_size (request_tree r) <= request_cap (operation_of r).
Proof.
  intros (Hid & Hd & Hb). destruct r as [[id d b]|[id d b]|[id d b]|[id d b]|[id d b]]; cbn in *.
  all: unfold NON_EXCHANGE_CBOR_CAP, OPEN_SESSION_CBOR_CAP, EXCHANGE_REQUEST_CBOR_CAP.
  - request_facts. wire_facts. const_heads. head_bounds. lia.
  - unfold open_ok in Hb. destruct b as [token [session|] caps [r|] [h|]]; cbn in *; destruct Hb as (Ht & Hc & Hb);
      try contradiction.
    all: pose proof (capabilities_size caps Hc).
    all: replace (len (map CStr caps)) with (len caps) by (unfold len; by rewrite length_map).
    all: pose proof (foldr_nonneg caps).
    all: request_facts; const_heads; head_bounds; lia.
  - request_facts. wire_facts. const_heads. head_bounds. lia.
  - request_facts. wire_facts. const_heads. head_bounds. lia.
  - request_facts. wire_facts. const_heads. head_bounds. lia.
Qed.

Lemma request_cbor_ok r : request_ok r -> cbor_ok 0 (request_tree r).
Proof.
  intros (Hid & Hd & Hb). pose proof (operation_range r) as Ho.
  assert (Hbody : cbor_ok 1 (body_tree r)).
  { destruct r as [[id d b]|[id d b]|[id d b]|[id d b]|[id d b]]; cbn in *.
    2: pose proof (capabilities_cbor_ok (required_capabilities b) ltac:(apply Hb)); unfold open_ok in Hb;
       destruct b as [token [session|] caps [r|] [h|]]; cbn in *; destruct Hb as (Ht & Hc & Hb);
       try contradiction; replace (len (map CStr caps)) with (len caps)
         by (unfold len; by rewrite length_map).
    all: request_facts; wire_facts; autorewrite with len; unfold U64_MAX; split_and!; auto; lia. }
  cbn. autorewrite with len. unfold U64_MAX. request_facts. split_and!; auto; lia.
Qed.

(** ** Requests against tokens *)

Definition header_tokens (id : bytes) (deadline operation : Z) : list token :=
  [TMap 5; TUint 0; TUint 1; TUint 1; TBytes id; TUint 2; TUint deadline; TUint 3;
   TUint operation].

Definition body_tokens (r : ControlRequest) (ts : list token) : Prop :=
  match r with
  | ROpenSession v => exists n, (n = 3 \/ n = 4) /\ ts = open_tokens n (body v)
  | _ => ts = flatten (body_tree r)
  end.

Lemma request_tokens r :
  flatten (request_tree r) =
  header_tokens (control_request_id r) (control_deadline_unix_ms r) (operation_of r)
  ++ TUint 4 :: flatten (body_tree r).
Proof. cbn. by rewrite app_nil_r. Qed.

Section Packets.
Context `{MinicborWire}.

Lemma body_denotes operation id deadline :
  denotes (decode_body operation id deadline) (fun r ts =>
    operation_of r = operation /\ control_request_id r = id /\
    control_deadline_unix_ms r = deadline /\ body_ok r /\ body_tokens r ts).
Proof.
  assert (Hn : 5 <= operation \/ operation < 0 -> decode_body operation id deadline = throw (ipc Malformed)).
  { intros Ho. destruct operation as [|p|p]; [lia| |done].
    destruct p as [[[?|?|]|[?|?|]|]|[[?|?|]|[?|?|]|]|]; done || lia. }
  destruct (decide (0 <= operation <= 4)) as [Ho|Ho].
  2:{ rewrite Hn by lia. apply den_throw. intros r ts (<- & _). pose proof (operation_range r). lia. }
  assert (Hc : operation = 0 \/ operation = 1 \/ operation = 2 \/ operation = 3 \/ operation = 4) by lia.
  assert (Hmap : forall (A : Type) (m : CM A) (f : A -> ControlRequest) R, denotes m R ->
    denotes (do b <- m; ret (f b)) (fun r ts => exists b, r = f b /\ R b ts)).
  { intros A m f R Hm. eapply den_conseq; [eapply den_bind; [exact Hm|intros b; apply den_ret]|].
    intros r ts. cbn beta. split.
    - intros (b & ? & ? & -> & HR & -> & ->). rewrite app_nil_r. eauto.
    - intros (b & -> & HR). exists b, ts, []. by rewrite app_nil_r. }
  destruct Hc as [->|[->|[->|[->| ->]]]]; cbn [decode_body];
    (eapply den_conseq; [apply Hmap; auto using prepare_denotes, open_denotes, exchange_denotes,
       close_session_denotes, close_lease_denotes|]); intros r ts; cbn beta.
  all: split; [by intros (b & -> & Hb & Hts); split_and!|].
  all: intros (Hr & <- & <- & Hb & Hts); destruct r as [[]|[]|[]|[]|[]]; try done; by eexists.
Qed.

Lemma decode_request_tokens b operation ts r :
  b = toks_bytes ts -> Forall tok_ok ts ->
  decode_request b operation = Ok r <->
  request_ok r /\ operation_of r = operation /\
  exists bt, body_tokens r bt /\
    ts = header_tokens (control_request_id r) (control_deadline_unix_ms r) operation
         ++ TUint 4 :: bt.
Proof.
  intros Hb Hts. etransitivity.
  { eapply (fin_decode b _ _ ts); [|done..]. unfold c_u8. fin.
    eapply fin_bind; [apply body_denotes|intros ?; fin]. }
  unfold request_ok, header_tokens. cbn beta. split.
  - intros Hx. den_inv. bool_split. subst. rewrite app_nil_r. cbn. eauto 8.
  - intros ((Hid & Hd & Hbody) & <- & bt & Hbt & ->). cbn [app]. pose proof (operation_range r).
    assert (operation_of r < 256) by lia.
    den_build. exists r, bt, []. rewrite app_nil_r. split_and!; done || apply Z.eqb_refl.
Qed.

Lemma request_operation_tokens b ts operation :
  b = toks_bytes ts -> Forall tok_ok ts ->
  request_operation b = Ok operation <->
  operation <= 4 /\ exists id deadline r, len id = 16 /\ safe_integer deadline /\
    ts = header_tokens id deadline operation ++ r.
Proof.
  intros Hb Hts. etransitivity.
  { eapply (fin_decode b _ _ ts); [|done..]. unfold c_u8, c_bytes, c_u64. fin. }
  unfold header_tokens. cbn beta. setoid_rewrite require_safe_ok. split.
  - intros Hx. den_inv. bool_split. subst. cbn. eauto 8.
  - intros (Ho & id & deadline & r & Hid & Hd & ->). cbn [app].
    assert (Hid' : (len id =? 16) = true) by (by rewrite Hid).
    assert (Ho' : (operation <=? 4) = true) by (by apply Z.leb_le).
    assert (operation < 256) by lia. den_build. exists tt. split; [done|]. den_build. done.
Qed.

(** ** Packets *)

Lemma request_cap_le operation : request_cap operation <= GLOBAL_CBOR_CAP.
Proof.
  unfold request_cap, GLOBAL_CBOR_CAP, OPEN_SESSION_CBOR_CAP, EXCHANGE_REQUEST_CBOR_CAP,
    NON_EXCHANGE_CBOR_CAP. repeat case_match; lia.
Qed.

(** The tokens a decoder accepted, being those of a tree, announce the right entries. *)
Lemma body_tokens_tree r bt c :
  request_ok r ->
  flatten c = header_tokens (control_request_id r) (control_deadline_unix_ms r) (operation_of r)
              ++ TUint 4 :: bt ->
  body_tokens r bt -> bt = flatten (body_tree r).
Proof.
  intros (_ & _ & Hb) Hc. pose proof (flatten_weights c) as Hw. rewrite Hc, weights_app in Hw.
  destruct r as [r|r|r|r|r]; try done. intros (n & Hn & ->).
  pose proof (flatten_weights (body_tree (ROpenSession r))) as Hw'.
  unfold open_tokens in *. unfold body_ok, open_ok in Hb. destruct Hb as (_ & _ & Hb). cbn in *.
  destruct (o_session_id (body r)), (session_open_request (body r)),
    (session_open_request_sha256 (body r)); try contradiction; cbn in *; autorewrite with len in *;
    do 2 f_equal; lia.
Qed.

Lemma body_tokens_self r : body_ok r -> body_tokens r (flatten (body_tree r)).
Proof.
  destruct r as [r|[id d b]|r|r|r]; try done. cbn. intros (_ & _ & Hb).
  destruct b as [token [session|] caps [q|] [h|]]; try contradiction; cbn in *.
  - exists 3. auto.
  - exists 4. auto.
Qed.

Lemma decode_request_packet_ok packet r :
  decode_request_packet packet = Ok r <-> request_ok r /\ packet = request_packet r.
Proof.
  unfold decode_request_packet, request_packet. split.
  - intros Hd. res_inv Hd. apply unframe_ok in Hr as [-> Hl].
    destruct a0. apply (deterministic_iff a) in Hr0 as (c & Hcb & Hb);
      [|unfold GLOBAL_CBOR_CAP, U64_MAX in *; lia].
    pose proof (flatten_ok _ _ Hcb) as Hts. pose proof (flatten_bytes c) as Hf. rewrite Hb in Hf.
    apply (decode_request_tokens a a1 (flatten c)) in Hd as (Hok & <- & bt & Hbt & Hfl); [|done..].
    assert (a = cbor_bytes (request_tree r)) as <-; [|done].
    rewrite <- Hf, <- flatten_bytes, request_tokens, Hfl.
    by rewrite (body_tokens_tree r bt c).
  - intros [Hok ->]. set (cbor := cbor_bytes (request_tree r)).
    pose proof (request_size r Hok) as Hs. rewrite <- cbor_bytes_size in Hs. fold cbor in Hs.
    pose proof (request_cap_le (operation_of r)) as Hcap. pose proof (request_cbor_ok r Hok) as Hc.
    pose proof (flatten_ok _ _ Hc) as Hts. pose proof (flatten_bytes (request_tree r)) as Hf.
    assert (Hu : unframe (be_encode 4 (len cbor) ++ cbor) = Ok cbor) by (apply unframe_ok; split; [done|lia]).
    assert (Hv : validate_deterministic_cbor cbor = Ok tt).
    { apply deterministic_iff; [unfold GLOBAL_CBOR_CAP, U64_MAX in *; lia|]. by eexists. }
    assert (Ho : request_operation cbor = Ok (operation_of r)).
    { apply (request_operation_tokens _ (flatten (request_tree r))); [done..|].
      pose proof (operation_range r). split; [lia|]. rewrite request_tokens.
      destruct Hok as (Hid & Hd & _). do 3 eexists. eauto. }
    rewrite Hu. cbn [res_bind]. rewrite Hv. cbn [res_bind]. rewrite Ho. cbn [res_bind].
    replace (request_cap (operation_of r) <? len cbor) with false by (symmetry; apply Z.ltb_ge; lia).
    cbn. apply (decode_request_tokens _ _ (flatten (request_tree r))); [done..|].
    split_and!; [done|done|]. exists (flatten (body_tree r)). split; [|apply request_tokens].
    apply body_tokens_self, Hok.
Qed.

(** ** Encoding *)

Lemma writes_names l : Forall (fun s => len s <= 128) l -> writes (map enc_str l) (map TStr l).
Proof.
  unfold writes. induction 1 as [|s l Hs _ IH]; cbn; [constructor|]. constructor; [|done].
  apply enc_str_tok. unfold U64_MAX. lia.
Qed.

Lemma encode_open_ok b :
  open_ok b -> encode_open b = Ok (toks_bytes (flatten (open_tree b))).
Proof.
  intros (Ht & Hc & Hb). assert (65536 <= U64_MAX) by (unfold U64_MAX; lia).
  assert (Hcaps : forall l, capability_list l ->
    c_chain ([enc_u8 2; enc_array (len l)] ++ map enc_str l)
    = Ok (toks_bytes (TUint 2 :: flatten (CArray (map CStr l))))).
  { intros l Hl. pose proof (names_short l Hl) as Hs. destruct Hl as [Hn _]. cbn [flatten]. rewrite names_flatten.
    replace (len (map CStr l)) with (len l) by (unfold len; by rewrite length_map).
    apply c_chain_tokens, Forall2_cons_2; [apply enc_u8_tok; lia|].
    apply Forall2_cons_2; [apply enc_array_tok; lia|]. by apply writes_names. }
  unfold encode_open. rewrite Hcaps by done.
  destruct b as [token [session|] caps [q|] [h|]]; try contradiction; cbn in Ht, Hc, Hb;
    cbn [o_target_token o_session_id required_capabilities session_open_request
         session_open_request_sha256 is_Some_b res_of_option]; request_facts; repeat chain_step;
    rewrite ?app_nil_l, ?app_nil_r, <- !toks_bytes_app; apply f_equal.
  - cbn [flatten open_tree app fst snd map concat o_session_id required_capabilities o_target_token
         session_open_request session_open_request_sha256]. by rewrite app_nil_r.
  - apply f_equal. done.
Qed.

Lemma encode_body_ok r : body_ok r -> encode_body r = Ok (cbor_bytes (body_tree r)).
Proof.
  rewrite <- flatten_bytes. destruct r as [[id d b]|[id d b]|[id d b]|[id d b]|[id d b]]; cbn [encode_body body];
    intros Hb; cbn in Hb.
  - unfold encode_prepare. request_facts. pose proof (Platform_wire_range (platform b)).
    assert (5 <= U64_MAX /\ 4096 <= U64_MAX) by (unfold U64_MAX; lia). chain_step. done.
  - by apply encode_open_ok.
  - unfold encode_exchange. request_facts. pose proof (SideEffect_wire_range (side_effect b)).
    assert (9007199254740991 <= U64_MAX) by (unfold U64_MAX; lia). chain_step. done.
  - unfold encode_close_session. request_facts. pose proof (CloseReason_wire_range (cs_reason b)).
    assert (9007199254740991 <= U64_MAX) by (unfold U64_MAX; lia). chain_step. done.
  - unfold encode_close_lease. request_facts. pose proof (CloseReason_wire_range (cl_reason b)).
    assert (9007199254740991 <= U64_MAX) by (unfold U64_MAX; lia). chain_step. done.
Qed.

Lemma encode_request_packet_ok packet r :
  encode_request_packet r = Ok packet <-> request_ok r /\ packet = request_packet r.
Proof.
  split.
  - intros He. unfold encode_request_packet in He. res_inv He. bool_split. subst.
    injection He as <-. by apply decode_request_packet_ok.
  - intros [Hok ->]. pose proof Hok as (Hid & Hd & Hb).
    pose proof (request_size r Hok) as Hs. rewrite <- cbor_bytes_size in Hs.
    pose proof (request_cap_le (operation_of r)) as Hcap. pose proof (operation_range r) as Ho.
    unfold encode_request_packet. unfold safe_integer, MAX_SAFE_INTEGER in Hd.
    assert (9007199254740991 <= U64_MAX) by (unfold U64_MAX; lia). chain_step.
    rewrite (encode_body_ok r Hb). cbn [res_bind]. rewrite <- flatten_bytes, <- toks_bytes_app.
    assert (Hf : frame (cbor_bytes (request_tree r)) (request_cap (operation_of r))
                 = Ok (request_packet r)).
    { apply frame_ok. split; [done|]. lia. }
    rewrite <- flatten_bytes, request_tokens in Hf. unfold header_tokens in Hf. cbn [app] in Hf |- *.
    rewrite Hf. cbn [res_bind]. assert (Hdec : decode_request_packet (request_packet r) = Ok r)
      by (by apply decode_request_packet_ok).
    rewrite Hdec. cbn [res_bind]. by rewrite bool_decide_eq_true_2.
Qed.
End Packets.

(** C19: the control packet of a request is exact both ways: a packet decodes to a request, and a
    request encodes to a packet, exactly when the request is well formed and the packet is the
    length-prefixed shortest encoding of its tree.  So decoding and encoding are inverse, every
    well-formed request encodes within the cap of its operation, and nothing else decodes. *)
Theorem request_packets_exact `{MinicborWire} packet r :
  (decode_request_packet packet = Ok r <-> request_ok r /\ packet = request_packet r) /\
  (encode_request_packet r = Ok packet <-> request_ok r /\ packet = request_packet r).
Proof. split; [apply decode_request_packet_ok|apply encode_request_packet_ok]. Qed.

(** A request for a new session with two capabilities. *)
Definition sample_request : ControlRequest :=
  ROpenSession (mkRequest (repeat (b8 7) 16) 1700000000000
    (mkOpen (repeat (b8 1) 32) None [str "app.launch"; str "ui.tap"] (Some (str "open"))
       (Some (repeat (b8 2) 32)))).

Lemma sample_request_ok : request_ok sample_request.
Proof.
  apply (proj1 (decode_request_packet_ok (request_packet sample_request) sample_request)).
  by vm_compute.
Qed.

Lemma request_packets_exact_witness :
  decode_request_packet (request_packet sample_request) = Ok sample_request /\
  encode_request_packet sample_request = Ok (request_packet sample_request) /\
  request_ok sample_request.
Proof.
  split; [by vm_compute|]. split; [by vm_compute|].
  apply (proj1 (request_packets_exact (request_packet sample_request) sample_request)).
  by vm_compute.
Defined.
