(* ===== verification/Results.v ===== *)
(** Control results as trees: the counterpart of [Requests.v] for what the broker answers.
    A success decodes exactly from its packet; a failure arrives with its message replaced
    by a stock one. *)

From S2P Require Import Prelude Errors Crates Wire CratesRef Cbor Records Control Names Deterministic Tokens Sizes.

(** ** Well-formed results *)

Section Ok.
Context `{Sha2}.

Definition ready_ok (r : ReadyTarget) : Prop :=
  len (rt_target_token r) = 32 /\ safe_integer (rt_process_generation r) /\
  safe_integer (rt_listener_epoch r) /\ safe_integer (issued_at_unix_ms r) /\
  safe_integer (expires_at_unix_ms r) /\
  expires_at_unix_ms r = issued_at_unix_ms r + READY_REFERENCE_TTL_MS.

Definition digest_ok (digest message : bytes) : Prop :=
  len digest = 32 /\ digest = sha256 message.

Definition opened_ok (o : SessionOpened) : Prop :=
  len (so_target_token o) = 32 /\ message_ok 65536 (response o) /\
  digest_ok (response_sha256 o) (response o) /\
  safe_integer (so_process_generation o) /\ safe_integer (so_listener_epoch o).

Definition complete_ok (x : ExchangeComplete) : Prop :=
  len (ec_target_token x) = 32 /\ session_name (ec_session_id x) /\
  safe_integer (ec_process_generation x) /\ safe_integer (ec_listener_epoch x) /\
  message_ok 67108864 (ec_message x) /\ digest_ok (ec_message_sha256 x) (ec_message x).

Definition closed_ok (c : Closed) : Prop :=
  len (cd_target_token c) = 32 /\
  match cd_session_id c with Some s => session_name s | None => True end.

Definition success_ok (s : ControlSuccess) : Prop :=
  match s with
  | TargetReady r => ready_ok r
  | SOpened o => opened_ok o
  | SExchangeComplete x => complete_ok x
  | SClosed c => closed_ok c
  end.
End Ok.

(** ** The trees *)

Definition success_tree (s : ControlSuccess) : cbor :=
  match s with
  | TargetReady r =>
      CMap [(0, CUint 0); (1, CBytes (rt_target_token r)); (3, CUint (rt_process_generation r));
            (4, CUint (rt_listener_epoch r)); (5, CUint (issued_at_unix_ms r));
            (6, CUint (expires_at_unix_ms r))]
  | SOpened o =>
      CMap [(0, CUint 1); (1, CBytes (so_target_token o)); (2, CBytes (response o));
            (3, CBytes (response_sha256 o)); (4, CUint (so_process_generation o));
            (5, CUint (so_listener_epoch o)); (6, CUint (HandoffState_wire (so_handoff o)))]
  | SExchangeComplete x =>
      CMap [(0, CUint 2); (1, CBytes (ec_target_token x)); (2, CStr (ec_session_id x));
            (3, CUint (ec_process_generation x)); (4, CUint (ec_listener_epoch x));
            (5, CBytes (ec_message x)); (6, CBytes (ec_message_sha256 x));
            (7, CUint (HandoffState_wire (ec_handoff x)))]
  | SClosed c =>
      CMap ([(0, CUint 3); (1, CBytes (cd_target_token c))]
            ++ (match cd_session_id c with Some s => [(2, CStr s)] | None => [] end)
            ++ [(7, CUint (HandoffState_wire (cd_handoff c)))])
  end.

(** A failure, with the message as it was sent. *)
Definition failure_tree (message : bytes) (f : ControlFailure) : cbor :=
  CMap [(0, CUint (ErrorKind_wire (f_kind f))); (1, CStr message); (2, CBool (f_retryable f));
        (3, CUint (ErrorStage_wire (f_stage f))); (4, CUint (HandoffState_wire (f_handoff f)));
        (5, CUint (CloseReason_wire (f_close_reason f)))].

Definition result_tree (id : bytes) (succeeded : bool) (body : cbor) : cbor :=
  CMap [(0, CUint 1); (1, CBytes id); (2, CBool succeeded); (3, body)].

Definition result_packet (id : bytes) (succeeded : bool) (body : cbor) : bytes :=
  be_encode 4 (len (cbor_bytes (result_tree id succeeded body)))
  ++ cbor_bytes (result_tree id succeeded body).

(** ** Decoders against tokens *)

Section Bodies.
Context `{MinicborWire} `{Sha2}.

Lemma field_digest message :
  field (c_digest message) (fun d t => t = TBytes d /\ digest_ok d message).
Proof.
  eapply field_iff; [apply (field_ensure (c_fixed 32)), field_fixed|]. intros d t. cbn beta.
  unfold digest_ok. rewrite bytes_eqb_eq. intuition.
Qed.
#[local] Hint Resolve field_digest : codec.

Lemma valid_ttl_ok issued expires :
  safe_integer issued ->
  valid_ttl issued expires = true <-> expires = issued + READY_REFERENCE_TTL_MS.
Proof.
  unfold valid_ttl, safe_integer, MAX_SAFE_INTEGER, READY_REFERENCE_TTL_MS. intros Hi.
  destruct (checked_add issued 30000) as [e|] eqn:He.
  - apply checked_add_some in He as [-> _]. rewrite Z.eqb_eq. intuition.
  - apply checked_add_none in He. unfold U64_MAX in He. lia.
Qed.

(** The tokens after the number of entries and the kind. *)
Definition success_rest (s : ControlSuccess) : list token := drop 3 (flatten (success_tree s)).

Lemma ready_denotes :
  denotes decode_ready (fun s ts => exists r, s = TargetReady r /\ ready_ok r /\
    ts = success_rest s).
Proof.
  eapply den_conseq; [unfold decode_ready; den|]. intros s ts. cbn beta. unfold ready_ok. split.
  - intros Hx. den_inv. eexists. split; [done|]. cbn. split_and!; try done. by apply valid_ttl_ok.
  - intros (r & -> & Hr & ->). destruct r; cbn in *; destruct_and?. den_build.
    split; [by apply valid_ttl_ok|done].
Qed.

Lemma opened_denotes :
  denotes decode_opened (fun s ts => exists o, s = SOpened o /\ opened_ok o /\
    ts = success_rest s).
Proof.
  eapply den_conseq; [unfold decode_opened; den|]. intros s ts. cbn beta. unfold opened_ok. split.
  - intros Hx. den_inv. by eexists.
  - intros (o & -> & Ho & ->). destruct o; cbn in *; destruct_and?. den_build. done.
Qed.

Lemma complete_denotes :
  denotes decode_exchange_complete (fun s ts => exists x, s = SExchangeComplete x /\ complete_ok x /\
    ts = success_rest s).
Proof.
  eapply den_conseq; [unfold decode_exchange_complete; den|]. intros s ts. cbn beta.
  unfold complete_ok. split.
  - intros Hx. den_inv. by eexists.
  - intros (x & -> & Hx & ->). destruct x; cbn in *; destruct_and?. den_build. done.
Qed.

Lemma closed_denotes :
  denotes decode_closed (fun s ts => exists c, s = SClosed c /\ closed_ok c /\
    ts = success_rest s).
Proof.
  eapply den_conseq.
  { unfold decode_closed, c_u8. eapply den_field; [auto with codec|]. intros ?.
    eapply den_field; [auto with codec|]. intros token.
    eapply den_field; [auto with codec|]. intros key.
    eapply den_pair; [apply (optional_session_denotes 2)|]. intros session next. den. }
  intros s ts. cbn [fst snd]. unfold closed_ok. split.
  - intros (? & ? & ? & -> & -> & token & ? & ? & -> & [-> Ht] & key & ? & ? & -> & [-> Hk] &
      session & next & ? & ? & -> & Hs & Hnext & Hb). den_inv. bool_split. subst next.
    destruct session as [id|]; [destruct Hs as (-> & Hs & _ & ->)|destruct Hs as (_ & <- & ->)];
      by eexists.
  - intros (c & -> & [Ht Hc] & ->). destruct c as [token session handoff]. cbn in *.
    exists tt. do 2 eexists. split_and!; [done..|]. exists token. do 2 eexists. split_and!; [done..|].
    destruct session as [id|]; unfold success_rest; cbn.
    + exists 2. do 2 eexists. split_and!; [done..|].
      exists (Some id), 7, [TStr id; TUint 7]. eexists. split_and!; [done..|]. den_build. done.
    + exists 7. do 2 eexists. split_and!; [done..|].
      exists None, 7, []. eexists. split_and!; [done..|]. den_build. done.
Qed.

(** The number of entries announced: free for [Closed], where the validator settles it. *)
Definition success_tokens (n : Z) (s : ControlSuccess) : list token :=
  TMap n :: tail (flatten (success_tree s)).
Definition entries_ok (s : ControlSuccess) (n : Z) : Prop :=
  match s with
  | TargetReady _ => n = 6 | SOpened _ => n = 7 | SExchangeComplete _ => n = 8
  | SClosed _ => n = 3 \/ n = 4
  end.

Definition success_kind (s : ControlSuccess) : Z :=
  match s with
  | TargetReady _ => 0 | SOpened _ => 1 | SExchangeComplete _ => 2 | SClosed _ => 3
  end.

Lemma success_tokens_rest n s :
  success_tokens n s = TMap n :: TUint 0 :: TUint (success_kind s) :: success_rest s.
Proof. by destruct s. Qed.

Lemma success_case count kind :
  denotes (if (kind =? 0) && (count =? 6) then decode_ready
           else if (kind =? 1) && (count =? 7) then decode_opened
           else if (kind =? 2) && (count =? 8) then decode_exchange_complete
           else if (kind =? 3) && ((count =? 3) || (count =? 4)) then decode_closed
           else throw (ipc Malformed))
    (fun s ts => success_ok s /\ entries_ok s count /\ kind = success_kind s /\ ts = success_rest s).
Proof.
  destruct (_ && _) eqn:Hq1; [|destruct (_ && _) eqn:Hq2 in |- *;
    [|destruct (_ && _) eqn:Hq3 in |- *; [|destruct (_ && _) eqn:Hq4 in |- *]]].
  5:{ apply den_throw. intros s ts (_ & He & -> & _). destruct s; cbn in *.
      all: try (subst count; done). destruct He as [->| ->]; done. }
  all: eapply den_conseq; [auto using ready_denotes, opened_denotes, complete_denotes, closed_denotes|].
  all: intros s ts; cbn beta; bool_split; subst; split;
    [intros (x & -> & Hx & ->); cbn; auto|intros (Hs & He & Hk & ->); destruct s; try done; by eexists].
  match goal with H : _ || _ = true |- _ => apply orb_true_iff in H; rewrite !Z.eqb_eq in H end.
  auto.
Qed.

Lemma success_denotes :
  denotes decode_success_body (fun s ts => success_ok s /\ exists n, entries_ok s n /\
    ts = success_tokens n s).
Proof.
  eapply den_conseq.
  { unfold decode_success_body, c_u8. eapply den_field; [apply field_definite_map|]. intros count.
    eapply den_field; [auto with codec|]. intros ?.
    eapply den_field; [auto with codec|]. intros kind. apply success_case. }
  intros s ts. cbn beta. setoid_rewrite success_tokens_rest. split.
  - intros Hx. den_inv. split; [done|]. by eexists.
  - intros (Hs & n & Hn & ->). assert (success_kind s < 256) by (by destruct s). den_build. done.
Qed.

Lemma failure_denotes :
  denotes decode_failure_body (fun f ts => exists m, stock_message m = Ok (f_message f) /\
    ts = flatten (failure_tree m f)).
Proof.
  eapply den_conseq.
  { unfold decode_failure_body. eapply den_field; [auto with codec|]. intros ?.
    eapply den_field; [auto with codec|]. intros ?. eapply den_field; [auto with codec|]. intros kind.
    eapply den_field; [auto with codec|]. intros ?.
    eapply den_field; [apply field_check, field_str|]. intros message. den. }
  intros f ts. cbn beta. split.
  - intros Hx. den_inv. by eexists.
  - intros (m & Hm & ->). destruct f. cbn in *. den_build.
    do 3 eexists. split; [reflexivity|]. split; [eexists; split; [reflexivity|exact Hm]|]. den_build. done.
Qed.
End Bodies.

(** ** The trees are deterministic CBOR of bounded size *)

Section Trees.
Context `{Sha2}.

Ltac success_facts :=
  unfold ready_ok, opened_ok, complete_ok, closed_ok, digest_ok, safe_integer, message_ok,
    MAX_SAFE_INTEGER in *; destruct_and?; name_facts.

Lemma success_size id s :
  len id = 16 -> success_ok s ->
  1 <= cbor_size (result_tree id true (success_tree s)) <= success_cap s.
Proof.
  intros Hid Hs. unfold success_cap, NON_EXCHANGE_CBOR_CAP, OPEN_SESSION_CBOR_CAP, GLOBAL_CBOR_CAP.
  destruct s as [r|o|x|c]; cbn in *.
  1-3: success_facts; wire_facts; const_heads; head_bounds; lia.
  unfold closed_ok in Hs. destruct c as [token [id'|] handoff]; cbn in *; success_facts;
    wire_facts; const_heads; head_bounds; lia.
Qed.

Lemma success_cap_le s : success_cap s <= GLOBAL_CBOR_CAP.
Proof.
  unfold success_cap, NON_EXCHANGE_CBOR_CAP, OPEN_SESSION_CBOR_CAP, GLOBAL_CBOR_CAP.
  by destruct s.
Qed.

Lemma success_cbor_ok id s :
  len id = 16 -> success_ok s -> cbor_ok 0 (result_tree id true (success_tree s)).
Proof.
  intros Hid Hs.
  assert (Hb : cbor_ok 1 (success_tree s)).
  { destruct s as [r|o|x|c]; cbn in *.
    4: unfold closed_ok in Hs; destruct c as [token [id'|] handoff]; cbn in *.
    all: success_facts; wire_facts; autorewrite with len; unfold U64_MAX; split_and!; auto; lia. }
  cbn. autorewrite with len. unfold U64_MAX. split_and!; auto; lia.
Qed.

(** A message that [stock_message] takes is short. *)
Lemma stock_message_len m k : stock_message m = Ok k -> 1 <= len m <= 256.
Proof.
  unfold stock_message. destruct (existsb (bytes_eqb m) STOCK_MESSAGES) eqn:He.
  - intros _. apply existsb_exists in He as (k' & Hk & He). apply bytes_eqb_eq in He as ->.
    repeat (destruct Hk as [<-|Hk]; [by vm_compute|]). destruct Hk.
  - destruct (_ && _) eqn:Hg; [|done]. bool_split. intros _.
    lia.
Qed.

Lemma failure_size id m f :
  len id = 16 -> len m <= 256 ->
  1 <= cbor_size (result_tree id false (failure_tree m f)) <= NON_EXCHANGE_CBOR_CAP.
Proof.
  intros Hid Hm. unfold NON_EXCHANGE_CBOR_CAP. pose proof (len_nonneg m). cbn. wire_facts.
  const_heads. head_bounds. lia.
Qed.

Lemma failure_cbor_ok id m f :
  len id = 16 -> len m <= 256 -> valid_utf8 m = true ->
  cbor_ok 0 (result_tree id false (failure_tree m f)).
Proof.
  intros Hid Hm Hu. cbn. wire_facts. autorewrite with len. unfold U64_MAX. split_and!; auto; lia.
Qed.
End Trees.

(** ** Packets *)

Definition result_header_tokens (id : bytes) (succeeded : bool) : list token :=
  [TMap 4; TUint 0; TUint 1; TUint 1; TBytes id; TUint 2; TBool succeeded; TUint 3].

Lemma result_tokens id succeeded body :
  flatten (result_tree id succeeded body) = result_header_tokens id succeeded ++ flatten body.
Proof. cbn. by rewrite app_nil_r. Qed.

Section Packets.
Context `{MinicborWire} `{Sha2}.

(** What a result's tokens are, but for the entries of [Closed]. *)
Definition reads_as (res : ControlResult) (ts : list token) : Prop :=
  match res with
  | Success id s => len id = 16 /\ success_ok s /\
      exists n, entries_ok s n /\ ts = result_header_tokens id true ++ success_tokens n s
  | Failure id f => len id = 16 /\
      exists m, stock_message m = Ok (f_message f) /\
        ts = result_header_tokens id false ++ flatten (failure_tree m f)
  end.

Lemma outcome_denotes id succeeded :
  denotes (if succeeded : bool then do r <- decode_success_body; ret (Success id r)
           else do e <- decode_failure_body; ret (Failure id e))
    (fun res ts => match res with
      | Success id' s => id' = id /\ succeeded = true /\ success_ok s /\
          exists n, entries_ok s n /\ ts = success_tokens n s
      | Failure id' f => id' = id /\ succeeded = false /\
          exists m, stock_message m = Ok (f_message f) /\ ts = flatten (failure_tree m f)
      end).
Proof.
  destruct succeeded.
  - eapply den_conseq; [eapply den_bind; [apply success_denotes|intros ?; apply den_ret]|].
    intros res ts. cbn beta. split.
    + intros (s & ? & ? & -> & (Hs & n & Hn & ->) & -> & ->). rewrite app_nil_r. split_and!; eauto.
    + destruct res as [id' s|id' f]; [|by intros (_ & ? & _)].
      intros (-> & _ & Hs & n & Hn & ->). exists s, (success_tokens n s), [].
      rewrite app_nil_r. split_and!; eauto.
  - eapply den_conseq; [eapply den_bind; [apply failure_denotes|intros ?; apply den_ret]|].
    intros res ts. cbn beta. split.
    + intros (f & ? & ? & -> & (m & Hm & ->) & -> & ->). rewrite app_nil_r. split_and!; eauto.
    + destruct res as [id' s|id' f]; [by intros (_ & ? & _)|].
      intros (-> & _ & m & Hm & ->). exists f, (flatten (failure_tree m f)), [].
      rewrite app_nil_r. split_and!; eauto.
Qed.

Lemma decode_result_tokens b ts res :
  b = toks_bytes ts -> Forall tok_ok ts -> decode_result b = Ok res <-> reads_as res ts.
Proof.
  intros Hb Hts. etransitivity.
  { eapply (fin_decode b _ _ ts); [|done..]. unfold c_u8, c_bool. fin.
    eapply fin_bind; [apply outcome_denotes|intros ?; fin]. }
  unfold reads_as, result_header_tokens. cbn beta. split.
  - intros Hx. den_inv. bool_split. subst. rewrite app_nil_r.
    match goal with |- match ?r with _ => _ end => destruct r end; den_inv; cbn; eauto 6.
  - destruct res as [id s|id f].
    + intros (Hid & Hs & n & Hn & ->). cbn [app]. den_build.
      exists (Success id s), (success_tokens n s), []. rewrite app_nil_r. split_and!; eauto 6.
    + intros (Hid & m & Hm & ->). cbn [app]. den_build.
      exists (Failure id f), (flatten (failure_tree m f)), []. rewrite app_nil_r.
      split_and!; eauto 6.
Qed.

Lemma success_tokens_tree id n s c :
  flatten c = result_header_tokens id true ++ success_tokens n s -> entries_ok s n ->
  success_tokens n s = flatten (success_tree s).
Proof.
  intros Hc Hn. pose proof (flatten_weights c) as Hw. rewrite Hc, weights_app in Hw.
  pose proof (flatten_weights (success_tree s)) as Hw'.
  destruct s as [r|o|x|[token [id'|] handoff]]; cbn in Hn; try (by subst n).
  all: unfold success_tokens in *; cbn in *; autorewrite with len in *; do 2 f_equal; lia.
Qed.

Lemma packet_parts cbor c :
  1 <= len cbor <= GLOBAL_CBOR_CAP -> cbor_ok 0 c -> cbor = cbor_bytes c ->
  forall res, decode_result_packet (be_encode 4 (len cbor) ++ cbor) = Ok res <->
    reads_as res (flatten c).
Proof.
  intros Hl Hc -> res. unfold decode_result_packet.
  assert (Hu : unframe (be_encode 4 (len (cbor_bytes c)) ++ cbor_bytes c) = Ok (cbor_bytes c))
    by (by apply unframe_ok).
  assert (Hv : validate_deterministic_cbor (cbor_bytes c) = Ok tt).
  { apply deterministic_iff; [unfold GLOBAL_CBOR_CAP, U64_MAX in *; lia|]. by eexists. }
  rewrite Hu. cbn [res_bind]. rewrite Hv. cbn [res_bind].
  apply decode_result_tokens; [by rewrite flatten_bytes|by eapply flatten_ok].
Qed.

Lemma decode_result_parts packet res :
  decode_result_packet packet = Ok res ->
  exists c, cbor_ok 0 c /\ packet = be_encode 4 (len (cbor_bytes c)) ++ cbor_bytes c /\
    reads_as res (flatten c).
Proof.
  unfold decode_result_packet. intros Hd. res_inv Hd. apply unframe_ok in Hr as [-> Hl].
  destruct a0. apply (deterministic_iff a) in Hr0 as (c & Hcb & Hb);
    [|unfold GLOBAL_CBOR_CAP, U64_MAX in *; lia]. exists c. subst a. split_and!; [done..|].
  eapply decode_result_tokens; [by rewrite flatten_bytes|by eapply flatten_ok|done].
Qed.

Lemma decode_success_ok packet id s :
  decode_result_packet packet = Ok (Success id s) <->
  len id = 16 /\ success_ok s /\ packet = result_packet id true (success_tree s).
Proof.
  split.
  - intros (c & Hc & -> & Hid & Hs & n & Hn & Hf)%decode_result_parts. split_and!; [done..|].
    unfold result_packet. assert (He : cbor_bytes c = cbor_bytes (result_tree id true (success_tree s))).
    { rewrite <- !flatten_bytes, result_tokens, Hf. by erewrite success_tokens_tree. }
    by rewrite He.
  - intros (Hid & Hs & ->). pose proof (success_size id s Hid Hs) as Hl.
    rewrite <- cbor_bytes_size in Hl. pose proof (success_cap_le s).
    apply (packet_parts _ (result_tree id true (success_tree s)));
      [lia|by apply success_cbor_ok|done|].
    rewrite result_tokens. split_and!; [done..|].
    destruct s as [r|o|x|[token [id'|] handoff]]; eexists; (split; [|reflexivity]); cbn; auto.
Qed.

Lemma decode_failure_ok packet id f :
  decode_result_packet packet = Ok (Failure id f) <->
  len id = 16 /\ exists m, valid_utf8 m = true /\ stock_message m = Ok (f_message f) /\
    packet = result_packet id false (failure_tree m f).
Proof.
  split.
  - intros (c & Hc & -> & Hid & m & Hm & Hf)%decode_result_parts. split; [done|]. exists m.
    assert (Hu : valid_utf8 m = true).
    { pose proof (flatten_ok _ _ Hc) as Ht. rewrite Hf in Ht. apply Forall_app in Ht as [_ Ht].
      do 4 apply Forall_cons in Ht as [_ Ht]. by apply Forall_cons in Ht as [[_ ?] _]. }
    split_and!; [done..|]. unfold result_packet.
    assert (He : cbor_bytes c = cbor_bytes (result_tree id false (failure_tree m f)))
      by (by rewrite <- !flatten_bytes, result_tokens, Hf).
    by rewrite He.
  - intros (Hid & m & Hu & Hm & ->). pose proof (stock_message_len _ _ Hm).
    pose proof (failure_size id m f Hid ltac:(lia)) as Hl. rewrite <- cbor_bytes_size in Hl.
    unfold NON_EXCHANGE_CBOR_CAP in Hl.
    apply (packet_parts _ (result_tree id false (failure_tree m f)));
      [unfold GLOBAL_CBOR_CAP; lia|apply failure_cbor_ok; auto; lia|done|].
    rewrite result_tokens. split; [done|]. by exists m.
Qed.

(** ** Encoding *)

Ltac success_facts :=
  unfold ready_ok, opened_ok, complete_ok, closed_ok, digest_ok, safe_integer, message_ok,
    MAX_SAFE_INTEGER in *; destruct_and?; name_facts.

Lemma encode_success_body_ok s :
  success_ok s -> encode_success_body s = Ok (cbor_bytes (success_tree s)).
Proof.
  rewrite <- flatten_bytes. intros Hs.
  assert (9007199254740991 <= U64_MAX) by (unfold U64_MAX; lia).
  destruct s as [r|o|x|c]; cbn [encode_success_body success_ok] in *.
  - success_facts. chain_step. done.
  - success_facts. pose proof (HandoffState_wire_range (so_handoff o)). chain_step. done.
  - success_facts. pose proof (HandoffState_wire_range (ec_handoff x)). chain_step. done.
  - unfold closed_ok in Hs. pose proof (HandoffState_wire_range (cd_handoff c)).
    destruct c as [token [id|] handoff]; cbn [cd_target_token cd_session_id cd_handoff is_Some_b] in *;
      success_facts; repeat chain_step; by rewrite ?app_nil_l, <- ?toks_bytes_app.
Qed.

Lemma validate_success_ok s : success_ok s -> validate_success s = Ok tt.
Proof.
  assert (Hm : forall cap (m : bytes), message_ok cap m -> negb (is_empty m || (cap <? len m)) = true).
  { intros cap m Hm. unfold message_ok in Hm. apply negb_true_iff, orb_false_iff.
    rewrite is_empty_false, Z.ltb_ge. lia. }
  destruct s as [r|o|x|c]; cbn [success_ok validate_success].
  - intros (_ & Hp & Hl & Hi & He & Ht). apply (valid_ttl_ok _ _ Hi) in Ht.
    apply (require_safe_ok _ tt) in Hp as ->, Hl as ->, Hi as ->, He as ->. cbn. by rewrite Ht.
  - intros (_ & Hr & [_ ->] & Hp & Hl). rewrite (Hm _ _ Hr), bytes_eqb_refl.
    apply (require_safe_ok _ tt) in Hp as ->, Hl as ->. done.
  - intros (_ & Hs & Hp & Hl & Hr & [_ ->]). rewrite (Hm _ _ Hr), bytes_eqb_refl.
    apply (session_name_iff _ tt) in Hs as ->. apply (require_safe_ok _ tt) in Hp as ->, Hl as ->. done.
  - intros [_ Hs]. destruct (cd_session_id c); [by apply session_name_iff|done].
Qed.

Lemma result_header_ok id succeeded :
  len id = 16 -> result_header id succeeded = Ok (toks_bytes (result_header_tokens id succeeded)).
Proof.
  intros Hid. assert (65536 <= U64_MAX) by (unfold U64_MAX; lia). unfold result_header.
  by apply c_chain_tokens; write_tokens.
Qed.

Lemma frame_result id succeeded body cap :
  1 <= cbor_size (result_tree id succeeded body) <= cap -> cap <= GLOBAL_CBOR_CAP ->
  frame (toks_bytes (result_header_tokens id succeeded) ++ cbor_bytes body) cap
  = Ok (result_packet id succeeded body).
Proof.
  intros Hs Hc. rewrite <- (flatten_bytes body), <- toks_bytes_app, <- result_tokens, flatten_bytes.
  apply frame_ok. rewrite <- cbor_bytes_size in Hs. split; [done|lia].
Qed.

Lemma encode_success_ok packet id s :
  encode_success_packet id s = Ok packet <->
  len id = 16 /\ success_ok s /\ packet = result_packet id true (success_tree s).
Proof.
  split.
  - intros He. unfold encode_success_packet in He. res_inv He. bool_split. subst.
    injection He as <-. by apply decode_success_ok.
  - intros (Hid & Hs & ->). unfold encode_success_packet.
    rewrite (validate_success_ok s Hs), (result_header_ok id true Hid). cbn [res_bind].
    rewrite (encode_success_body_ok s Hs). cbn [res_bind].
    rewrite (frame_result _ _ _ _ (success_size _ _ Hid Hs) (success_cap_le s)). cbn [res_bind].
    assert (Hd : decode_result_packet (result_packet id true (success_tree s)) = Ok (Success id s))
      by (by apply decode_success_ok).
    rewrite Hd. cbn [res_bind]. by rewrite bool_decide_eq_true_2.
Qed.

Lemma encode_failure_ok packet id f :
  len id = 16 ->
  encode_failure_packet id f = Ok packet <->
  1 <= len (f_message f) <= 256 /\ existsb is_break (f_message f) = false /\
  packet = result_packet id false (failure_tree (f_message f) f).
Proof.
  intros Hid. unfold encode_failure_packet.
  destruct (ensure _ _) eqn:Hg.
  - apply ensure_ok in Hg. bool_split. cbn [res_bind]. rewrite (result_header_ok id false Hid).
    cbn [res_bind]. pose proof (ErrorKind_wire_range (f_kind f)).
    pose proof (ErrorStage_wire_range (f_stage f)). pose proof (HandoffState_wire_range (f_handoff f)).
    pose proof (CloseReason_wire_range (f_close_reason f)).
    assert (65536 <= U64_MAX) by (unfold U64_MAX; lia). chain_step.
    change (toks_bytes [TMap 6; TUint 0; TUint (ErrorKind_wire (f_kind f)); TUint 1;
      TStr (f_message f); TUint 2; TBool (f_retryable f); TUint 3;
      TUint (ErrorStage_wire (f_stage f)); TUint 4; TUint (HandoffState_wire (f_handoff f)); TUint 5;
      TUint (CloseReason_wire (f_close_reason f))])
      with (toks_bytes (flatten (failure_tree (f_message f) f))).
    rewrite flatten_bytes, frame_result; [|by apply failure_size|done]. split.
    + intros [= <-]. split_and!; done || lia.
    + by intros (_ & _ & ->).
  - apply ensure_err in Hg as [Hg _]. cbn [res_bind]. split; [done|]. intros (Hl & Hbr & _).
    apply negb_false_iff in Hg. rewrite Hbr, orb_false_r in Hg.
    apply orb_true_iff in Hg as [Hg|Hg]; bool_split; [|lia].
    rewrite Hg, len_nil in Hl. lia.
Qed.

Definition with_message (m : bytes) (f : ControlFailure) : ControlFailure :=
  mkFailure (f_kind f) m (f_retryable f) (f_stage f) (f_handoff f) (f_close_reason f).
End Packets.

(** C38: a success is exact both ways, like a request: it decodes from, and encodes to, exactly
    the shortest encoding of its tree, when its fields are in range, its digest is that of its
    message and a reference expires thirty seconds after it was issued. *)
Theorem success_packets_exact `{MinicborWire} `{Sha2} packet id s :
  (decode_result_packet packet = Ok (Success id s) <->
   len id = 16 /\ success_ok s /\ packet = result_packet id true (success_tree s)) /\
  (encode_success_packet id s = Ok packet <->
   len id = 16 /\ success_ok s /\ packet = result_packet id true (success_tree s)).
Proof. split; [apply decode_success_ok|apply encode_success_ok]. Qed.

(** A failure is sent exactly when its message has 1 to 256 bytes and no NUL or line break,
    and then it arrives with everything but the message unchanged, and the message replaced by
    what [stock_message] makes of it. *)
Theorem failure_packets_arrive `{MinicborWire} `{Sha2} id f :
  len id = 16 -> valid_utf8 (f_message f) = true ->
  ((exists packet, encode_failure_packet id f = Ok packet) <->
   1 <= len (f_message f) <= 256 /\ existsb is_break (f_message f) = false) /\
  forall packet, encode_failure_packet id f = Ok packet ->
    exists m, stock_message (f_message f) = Ok m /\
      decode_result_packet packet = Ok (Failure id (with_message m f)).
Proof.
  intros Hid Hu. pose proof (fun p => encode_failure_ok p id f Hid) as He.
  setoid_rewrite He. split; [naive_solver|].
  intros packet (Hl & Hb & ->).
  assert (Hs : exists m, stock_message (f_message f) = Ok m).
  { unfold stock_message. destruct (existsb (bytes_eqb _) _); [eauto|]. rewrite Hb.
    assert (is_empty (f_message f) = false) as -> by (apply is_empty_false; lia).
    decide_cmp. by eexists. }
  destruct Hs as [m Hm]. exists m. split; [done|]. apply decode_failure_ok. eauto.
Qed.

Definition sample_ready : ControlSuccess :=
  TargetReady (mkReady (repeat (b8 1) 32) 3 4 1700000000000 1700000030000).
Definition sample_id : bytes := repeat (b8 7) 16.

Lemma success_packets_exact_witness :
  decode_result_packet (result_packet sample_id true (success_tree sample_ready))
    = Ok (Success sample_id sample_ready) /\
  encode_success_packet sample_id sample_ready
    = Ok (result_packet sample_id true (success_tree sample_ready)) /\
  success_ok sample_ready.
Proof.
  split; [by vm_compute|]. split; [by vm_compute|].
  apply (proj1 (success_packets_exact (result_packet sample_id true (success_tree sample_ready))
                  sample_id sample_ready)).
  by vm_compute.
Defined.

Definition sample_failure : ControlFailure :=
  mkFailure KindTimeout (str "the device is busy") true StPrepare NotHandedOff Timeout.

Lemma failure_packets_arrive_witness :
  len sample_id = 16 /\ valid_utf8 (f_message sample_failure) = true /\
  exists packet m, encode_failure_packet sample_id sample_failure = Ok packet /\
    stock_message (f_message sample_failure) = Ok m /\ m <> f_message sample_failure /\
    decode_result_packet packet = Ok (Failure sample_id (with_message m sample_failure)).
Proof.
  split; [done|]. split; [by vm_compute|].
  destruct (failure_packets_arrive sample_id sample_failure) as [Hs Hd]; [done|by vm_compute|].
  destruct (proj2 Hs) as [packet Hp]; [by vm_compute|].
  destruct (Hd packet Hp) as (m & Hm & Hr). exists packet, m. split_and!; [done..| |done].
  assert (stock_message (f_message sample_failure) = Ok SAFE_MESSAGE) as Hsafe by (by vm_compute).
  rewrite Hsafe in Hm. injection Hm as <-. by vm_compute.
Defined.
