(* ===== verification/Stream.v ===== *)
(** The incremental decoder of one request: however a packet is cut into chunks, it is
    decoded when its last byte arrives and not before, nothing else is, what it holds is
    bounded, and it fails closed.  Ready references are here too. *)

From S2P Require Import Prelude Errors Crates Wire CratesRef Cbor Records Control Names Deterministic Tokens Sizes Requests.

(** ** Ready references *)

Lemma strip_prefix_ok p s r : strip_prefix p s = Some r <-> s = p ++ r.
Proof.
  unfold strip_prefix. split.
  - destruct (bytes_eqb _ _) eqn:He; [|done]. intros [= <-]. apply bytes_eqb_eq in He.
    rewrite <- He at 1. by rewrite take_drop.
  - intros ->. by rewrite take_app_length, drop_app_length, bytes_eqb_refl.
Qed.

Lemma reference_parse_ok `{Base64Laws} value token :
  reference_parse value = Ok token <-> len token = 32 /\ value = reference_display token.
Proof.
  unfold reference_parse, reference_display. split.
  - intros Hp. res_inv Hp. injection Hp as <-. apply strip_prefix_ok in Ho as ->. bool_split.
    by subst.
  - intros [Hl ->]. assert (Hs : strip_prefix REFERENCE_PREFIX (REFERENCE_PREFIX ++ b64_encode token)
      = Some (b64_encode token)) by (by apply strip_prefix_ok).
    rewrite Hs. cbn [res_of_option res_bind]. rewrite b64_encode_len, Hl.
    pose proof (b64_encode_alphabet token) as Ha. rewrite forallb_forall in Ha.
    assert (He : existsb (one_of (str "=")) (b64_encode token) = false).
    { apply not_true_is_false. intros (b & Hb & Hq)%existsb_exists. apply Ha in Hb. by destruct b. }
    assert (Hf : forallb (fun b => is_alphanumeric b || one_of (str "_-") b) (b64_encode token) = true).
    { apply forallb_forall. intros b Hb. apply Ha in Hb. by destruct b. }
    rewrite He, Hf. cbn [negb orb Z.eqb ensure res_bind]. rewrite b64_decode_encode. cbn.
    by rewrite Hl, bytes_eqb_refl.
Qed.

(** A client's reference parses to a token exactly when the token has 32 bytes and the text
    is the one the broker displays for it. *)
Theorem references_exact `{Base64Laws} value token :
  reference_parse value = Ok token <-> len token = 32 /\ value = reference_display token.
Proof. apply reference_parse_ok. Qed.

Lemma references_exact_witness :
  let token := repeat (b8 200) 32 in
  reference_parse (reference_display token) = Ok token /\ len token = 32.
Proof.
  cbv zeta. split; [by vm_compute|].
  apply (references_exact (reference_display (repeat (b8 200) 32)) (repeat (b8 200) 32)).
  by vm_compute.
Defined.

(** ** Decoders on a longer buffer *)

Definition longer (d : Decoder) (y : bytes) : Decoder :=
  {| d_buf := d_buf d ++ y; d_pos := d_pos d |}.

(** What [m] returns does not depend on what follows the bytes it took. *)
Definition grows {E A} (m : M Decoder E A) : Prop :=
  forall d a d' y, (d_pos d <= length (d_buf d))%nat -> m d = (Ok a, d') ->
  m (longer d y) = (Ok a, longer d' y) /\ (d_pos d' <= length (d_buf d'))%nat.

Lemma grows_bind {E A B} (m : M Decoder E A) (k : A -> M Decoder E B) :
  grows m -> (forall a, grows (k a)) -> grows (mbind_M m k).
Proof.
  intros Hm Hk d b d' y Hd (a & d1 & Ha & Hb)%mbind_M_ok.
  destruct (Hm _ _ _ y Hd Ha) as [Hm' Hd1]. destruct (Hk a _ _ _ y Hd1 Hb) as [Hk' Hd'].
  split; [|done]. by rewrite (mbind_M_step _ _ _ _ _ Hm').
Qed.

Lemma grows_ensure {E} p (e : E) : grows (d_ensure p e).
Proof. intros d [] d' y Hd Hm. unfold d_ensure, lift in *. by injection Hm as -> <-. Qed.

Lemma grows_item {E A} (e : E) (rd : bytes -> option (A * nat)) :
  (forall l a k y, rd l = Some (a, k) -> rd (l ++ y) = Some (a, k) /\ (k <= length l)%nat) ->
  grows (d_item e rd).
Proof.
  intros Hrd d a d' y Hd Hm. unfold d_item in *. cbn [longer d_buf d_pos].
  rewrite drop_app_le by done. destruct (rd (drop (d_pos d) (d_buf d))) as [[a' k]|] eqn:Hr; [|done].
  injection Hm as <- <-. destruct (Hrd _ _ _ y Hr) as [-> Hk]. rewrite length_drop in Hk.
  split; [done|]. cbn. lia.
Qed.

Section Grow.
Context `{MinicborWire} (e : ControlFailure).

Lemma grows_u8 : grows (d_item e dec_u8).
Proof.
  apply grows_item. intros l a k y (Ha & w & r & Hw & -> & ->)%wire_dec_u8.
  split; [|rewrite length_app; lia]. apply wire_dec_u8. rewrite <- app_assoc. eauto 6.
Qed.
Lemma grows_u64 : grows (d_item e dec_u64).
Proof.
  apply grows_item. intros l a k y (w & r & Hw & -> & ->)%wire_dec_u64.
  split; [|rewrite length_app; lia]. apply wire_dec_u64. rewrite <- app_assoc. eauto 6.
Qed.
Lemma grows_bytes : grows (d_item e dec_bytes).
Proof.
  apply grows_item. intros l a k y (w & r & Hw & -> & ->)%wire_dec_bytes.
  split; [|rewrite !length_app; lia]. apply wire_dec_bytes. rewrite <- !app_assoc. eauto 6.
Qed.

Lemma grows_map_of {A} n (k : CM A) :
  grows k ->
  grows (do o <- d_item e dec_map; run d_ensure (bool_decide (o = Some n)) e; k).
Proof.
  intros Hk d a d' y Hd (o & d1 & Ho & Ha)%mbind_M_ok. unfold d_ensure in Ha.
  apply lift_bind_ok in Ha as (u & Hc%ensure_ok & Ha). apply bool_decide_eq_true in Hc as ->.
  assert (Hm : d_item e dec_map (longer d y) = (Ok (Some n), longer d1 y) /\
               (d_pos d1 <= length (d_buf d1))%nat).
  { revert Ho. unfold d_item. cbn [longer d_buf d_pos]. rewrite drop_app_le by done.
    destruct (dec_map _) as [[o j]|] eqn:Hr; [|done]. intros [= -> <-].
    apply wire_dec_map in Hr as (w & r & Hw & Hr & ->).
    assert (Hy : dec_map (drop (d_pos d) (d_buf d) ++ y)
      = Some (Some n, length (wide_head w 5 n))).
    { apply wire_dec_map. rewrite Hr, <- app_assoc. eauto. }
    rewrite Hy. split; [done|]. cbn. apply (f_equal length) in Hr.
    rewrite length_drop, length_app in Hr. lia. }
  destruct Hm as [Hm Hd1]. destruct (Hk _ _ _ y Hd1 Ha) as [Ha' Hd'].
  split; [|done]. rewrite (mbind_M_step _ _ _ _ _ Hm). unfold d_ensure.
  by rewrite (lift_bind _ _ _ tt) by (apply ensure_ok, bool_decide_eq_true; done).
Qed.
End Grow.

Ltac grow :=
  repeat first
  [ apply grows_map_of
  | apply grows_bind; [first [apply grows_u8|apply grows_u64|apply grows_bytes|apply grows_ensure]|intros ?]
  | apply grows_u8 ].

(** ** The operation in the first bytes *)

Section Prefix.
Context `{MinicborWire}.

Lemma operation_prefix_more x y operation :
  request_operation_prefix x = Some operation ->
  request_operation_prefix (x ++ y) = Some operation.
Proof.
  unfold request_operation_prefix. lazymatch goal with |- context [decode_with ?m x] =>
    assert (Hg : grows m) by grow; generalize dependent m end.
  intros m Hg Hx. destruct (decode_with m x) as [a|] eqn:Hd; [|done]. injection Hx as ->.
  apply decode_with_ok in Hd as [d Hd]. apply (Hg _ _ _ y) in Hd as [Hd _]; [|cbn; lia].
  assert (Hy : decode_with m (x ++ y) = Ok operation) by (apply decode_with_ok; by eexists).
  by rewrite Hy.
Qed.

#[local] Hint Resolve field_map : codec.

Lemma operation_prefix_header id deadline operation rest :
  len id = 16 -> 0 <= deadline <= U64_MAX -> 0 <= operation < 256 ->
  request_operation_prefix (toks_bytes (header_tokens id deadline operation) ++ rest)
  = Some operation.
Proof.
  intros Hid Hd Ho. assert (Hid' : (len id =? 16) = true) by (by rewrite Hid).
  unfold request_operation_prefix. lazymatch goal with |- context [decode_with ?m ?x] =>
    assert (Hm : exists R, denotes m R /\ R operation (header_tokens id deadline operation)) end.
  { eexists. split; [den; apply field_u8|].
    cbn beta. unfold header_tokens.
    den_build.
    do 3 eexists. split; [reflexivity|]. split; [eauto|]. den_build. split; [done|]. eexists. split; [reflexivity|].
    split; [reflexivity|lia]. }
  destruct Hm as (R & Hm & HR). assert (Hts : Forall tok_ok (header_tokens id deadline operation)).
  { unfold header_tokens. repeat constructor; unfold U64_MAX in *; cbn; rewrite ?Hid; done || lia. }
  by rewrite (den_decode _ _ _ _ rest Hm Hts HR).
Qed.

Lemma header_len id deadline operation :
  len id = 16 -> 0 <= operation < 256 -> len (toks_bytes (header_tokens id deadline operation)) <= 34.
Proof.
  intros Hid Ho. unfold header_tokens, toks_bytes, tok_bytes. cbn [map concat tok_major tok_arg tok_body].
  autorewrite with len. rewrite !len_cbor_head, Hid, ?(len_nil (A := byte)). const_heads. head_bounds. lia.
Qed.

(** Over the first bytes of a well-formed request: its operation, if any, and for certain once
    sixty bytes are there. *)
Lemma operation_prefix_request r x y :
  request_ok r -> cbor_bytes (request_tree r) = x ++ y ->
  match request_operation_prefix x with
  | Some operation => operation = operation_of r
  | None => len x < 60
  end.
Proof.
  intros (Hid & Hd & _) Hx. pose proof (operation_range r) as Ho.
  rewrite <- flatten_bytes, request_tokens, toks_bytes_app in Hx.
  set (h := header_tokens (control_request_id r) (control_deadline_unix_ms r) (operation_of r)) in Hx.
  assert (Hh : forall rest, request_operation_prefix (toks_bytes h ++ rest) = Some (operation_of r)).
  { intros rest. unfold safe_integer, MAX_SAFE_INTEGER in Hd.
    apply operation_prefix_header; unfold U64_MAX; auto; lia. }
  destruct (request_operation_prefix x) as [operation|] eqn:Hp.
  - apply (operation_prefix_more _ y) in Hp. rewrite <- Hx, Hh in Hp. by injection Hp.
  - destruct (decide (len x < 60)) as [|Hl]; [done|].
    pose proof (header_len (control_request_id r) (control_deadline_unix_ms r) (operation_of r) Hid
      ltac:(lia)) as Hlen. fold h in Hlen.
    assert (Hxh : x = toks_bytes h ++ drop (length (toks_bytes h)) x).
    { rewrite <- (take_drop (length (toks_bytes h)) x) at 1. f_equal.
      rewrite <- (take_app_le x y) by (unfold len in *; lia). rewrite <- Hx. apply take_app_length. }
    rewrite Hxh, Hh in Hp. done.
Qed.
End Prefix.

(** ** Pushing *)

Section Push.
Context `{MinicborWire}.

(** Chunks in turn, up to the first error. *)
Fixpoint cpd_feed (chunks : list bytes) : M ControlPacketDecoder ControlFailure (list (option ControlRequest)) :=
  match chunks with
  | [] => ret []
  | c :: chunks => do o <- cpd_push c; do os <- cpd_feed chunks; ret (o :: os)
  end.

Lemma packet_prefix_take q input : packet_prefix q input = take 64 (q ++ input).
Proof.
  unfold packet_prefix. rewrite take_app. rewrite length_take. destruct (Z.ltb_spec (len (take 64 q)) 64) as [Hl|Hl];
    unfold len in Hl; rewrite length_take in Hl.
  - do 2 f_equal. lia.
  - replace (64 - length q)%nat with 0%nat by lia. by rewrite take_0, app_nil_r.
Qed.

(** What [push] checks, on all that has arrived. *)
Lemma prefix_check_ok d arrived d' :
  prefix_check (take 64 arrived) (Z.min (len arrived) U64_MAX) d = (Ok tt, d') ->
  cpd_pending d' = cpd_pending d /\ finished d' = finished d /\
  ((len arrived < 4 /\ d' = d) \/
   4 <= len arrived <= be_decode (take 4 arrived) + 4 /\
   1 <= be_decode (take 4 arrived) <= EXCHANGE_REQUEST_CBOR_CAP /\
   expected_total d' = Some (be_decode (take 4 arrived) + 4) /\
   match request_operation_prefix (drop 4 (take 64 arrived)) with
   | Some operation => operation <= 4 /\ be_decode (take 4 arrived) <= request_cap operation
   | None => len arrived < 64
   end).
Proof.
  assert (Hl : len (take 64 arrived) = Z.min 64 (len arrived)).
  { unfold len. rewrite length_take. lia. }
  unfold prefix_check. rewrite Hl. destruct (Z.leb_spec 4 (Z.min 64 (len arrived))) as [H4|H4].
  - rewrite take_take. change (4 `min` 64)%nat with 4%nat. cbv zeta.
    pose proof (be_decode_range (take 4 arrived)) as Hr. set (n := be_decode (take 4 arrived)) in *.
    destruct (Z.eqb_spec n 0); [done|]. destruct (Z.ltb_spec EXCHANGE_REQUEST_CBOR_CAP n); [done|].
    rewrite modify_bind. cbn beta. destruct (Z.ltb_spec (n + 4) (Z.min (len arrived) U64_MAX)); [done|].
    unfold EXCHANGE_REQUEST_CBOR_CAP, U64_MAX in *.
    destruct (request_operation_prefix _) as [operation|] eqn:Hp.
    + destruct (Z.leb_spec operation 4); [|done]. cbn [negb].
      destruct (Z.ltb_spec (request_cap operation) n); [done|]. intros [= <-]. cbn.
      split_and!; [done..|]. right. split_and!; done || lia.
    + destruct (Z.eqb_spec (Z.min 64 (len arrived)) 64); [done|]. intros [= <-]. cbn.
      split_and!; [done..|]. right. split_and!; done || lia.
  - destruct (Z.ltb_spec 64 (Z.min (len arrived) U64_MAX)); [done|]. intros [= <-].
    split_and!; [done..|]. left. split; [lia|done].
Qed.

(** The decoder after a part [q] of a packet of [n] bytes. *)
Definition held (n : Z) (q : bytes) : ControlPacketDecoder :=
  mkPacketDecoder q (if len q <? 4 then None else Some n) false.

Section Valid.
Context (r : ControlRequest) (Hok : request_ok r).
Abbreviation encoded := (cbor_bytes (request_tree r)).
Abbreviation packet := (request_packet r).

Lemma packet_len : len packet = len encoded + 4 /\ 1 <= len encoded <= request_cap (operation_of r).
Proof using All.
  unfold request_packet. rewrite len_app, len_be_encode, cbor_bytes_size.
  pose proof (request_size r Hok). lia.
Qed.

Lemma packet_declared arrived y :
  packet = arrived ++ y -> 4 <= len arrived ->
  be_decode (take 4 arrived) = len encoded /\ encoded = drop 4 arrived ++ y.
Proof using All.
  intros Hp Hl. pose proof packet_len as [_ Hc]. pose proof (request_cap_le (operation_of r)) as Hcap.
  assert (Ht : take 4 arrived ++ drop 4 arrived ++ y = be_encode 4 (len encoded) ++ encoded).
  { rewrite app_assoc, take_drop. by rewrite <- Hp. }
  apply app_inj_1 in Ht as [-> ->].
  - split; [|done]. apply be_decode_encode. unfold GLOBAL_CBOR_CAP in Hcap.
    change (256 ^ Z.of_nat 4) with 4294967296. lia.
  - rewrite length_be_encode, length_take. unfold len in Hl. lia.
Qed.

(** The checks pass over every part of the packet. *)
Lemma prefix_check_valid q input y :
  packet = (q ++ input) ++ y ->
  prefix_check (take 64 (q ++ input)) (Z.min (len q + len input) U64_MAX) (held (len packet) q)
  = (Ok tt, mkPacketDecoder q (if len (q ++ input) <? 4 then None else Some (len packet)) false).
Proof using All.
  intros Hp. pose proof packet_len as [Hlen Hc]. pose proof (request_cap_le (operation_of r)) as Hcap.
  rewrite <- len_app. set (arrived := q ++ input) in *.
  assert (Hle : len arrived <= len packet) by (rewrite Hp, len_app; pose proof (len_nonneg y); lia).
  assert (Hq : len q <= len arrived) by (unfold arrived; rewrite len_app; pose proof (len_nonneg input); lia).
  assert (Hl : len (take 64 arrived) = Z.min 64 (len arrived)).
  { unfold len. rewrite length_take. lia. }
  unfold prefix_check, GLOBAL_CBOR_CAP, U64_MAX in *. rewrite Hl.
  destruct (Z.leb_spec 4 (Z.min 64 (len arrived))) as [H4|H4].
  - destruct (packet_declared arrived y Hp ltac:(lia)) as [Hd Hcb].
    rewrite take_take. change (4 `min` 64)%nat with 4%nat. cbv zeta. rewrite Hd.
    assert (Hex : len encoded <= EXCHANGE_REQUEST_CBOR_CAP).
    { unfold request_cap, OPEN_SESSION_CBOR_CAP, EXCHANGE_REQUEST_CBOR_CAP, NON_EXCHANGE_CBOR_CAP in *.
      repeat case_match; lia. }
    destruct (Z.eqb_spec (len encoded) 0); [lia|]. destruct (Z.ltb_spec EXCHANGE_REQUEST_CBOR_CAP (len encoded)); [lia|].
    rewrite modify_bind. cbn beta.
    destruct (Z.ltb_spec (len encoded + 4) (Z.min (len arrived) (2 ^ 64 - 1))); [lia|].
    assert (Hx : encoded = drop 4 (take 64 arrived) ++ drop 64 arrived ++ y).
    { rewrite Hcb, app_assoc. f_equal. rewrite <- (take_drop 60 (drop 4 arrived)).
      by rewrite skipn_firstn_comm, drop_drop. }
    pose proof (operation_prefix_request r _ _ Hok Hx) as Hop.
    destruct (request_operation_prefix _) as [operation|].
    + subst operation. pose proof (operation_range r). cbn [held cpd_pending finished expected_total].
      decide_cmp. cbn [negb]. by rewrite Hlen.
    + assert (Hd' : len (drop 4 (take 64 arrived)) = Z.min 64 (len arrived) - 4).
      { rewrite <- Hl. unfold len in *. rewrite length_drop. lia. }
      destruct (Z.eqb_spec (Z.min 64 (len arrived)) 64); [lia|].
      cbn [held cpd_pending finished expected_total]. decide_cmp. by rewrite Hlen.
  - destruct (Z.ltb_spec 64 (Z.min (len arrived) (2 ^ 64 - 1))); [lia|]. unfold held.
    decide_cmp. done.
Qed.

Lemma push_part q input y :
  packet = (q ++ input) ++ y -> y <> [] ->
  cpd_push input (held (len packet) q) = (Ok None, held (len packet) (q ++ input)).
Proof using All.
  intros Hp Hy. unfold cpd_push. rewrite get_bind. cbn [held finished cpd_pending]. cbv zeta.
  rewrite packet_prefix_take, (mbind_M_step _ _ _ _ _ (prefix_check_valid q input y Hp)).
  rewrite modify_bind. cbn beta. rewrite get_bind. cbn [cpd_pending expected_total finished].
  unfold held. destruct (Z.ltb_spec (len (q ++ input)) 4); [done|].
  assert (len (q ++ input) < len packet).
  { rewrite Hp, (len_app _ y). destruct y; [done|]. rewrite len_cons. pose proof (len_nonneg y). lia. }
  by decide_cmp.
Qed.

Lemma push_last q input :
  packet = q ++ input ->
  cpd_push input (held (len packet) q) = (Ok (Some r), mkPacketDecoder packet (Some (len packet)) true).
Proof using All.
  intros Hp. unfold cpd_push. rewrite get_bind. cbn [held finished cpd_pending]. cbv zeta.
  rewrite packet_prefix_take, (mbind_M_step _ _ _ _ _ (prefix_check_valid q input [] ltac:(by rewrite app_nil_r))).
  rewrite modify_bind. cbn beta. rewrite get_bind. cbn [cpd_pending expected_total finished].
  rewrite <- Hp. pose proof packet_len as [Hlen _]. pose proof (len_nonneg encoded).
  destruct (Z.ltb_spec (len packet) 4); [lia|]. rewrite Z.ltb_irrefl, Z.eqb_refl. cbn [negb].
  rewrite modify_bind. cbn [cpd_pending expected_total finished].
  assert (Hd : decode_request_packet packet = Ok r) by (by apply decode_request_packet_ok).
  unfold lift. by rewrite Hd.
Qed.

Lemma feed_valid chunks q last :
  packet = q ++ concat chunks ++ last -> last <> [] ->
  cpd_feed (chunks ++ [last]) (held (len packet) q)
  = (Ok (map (fun _ => None) chunks ++ [Some r]), mkPacketDecoder packet (Some (len packet)) true).
Proof using All.
  revert q. induction chunks as [|c chunks IH]; intros q Hp Hl; cbn [app concat map cpd_feed].
  - by rewrite (mbind_M_step _ _ _ _ _ (push_last q last Hp)).
  - cbn [concat] in Hp. rewrite <- app_assoc, app_assoc in Hp.
    rewrite (mbind_M_step _ _ _ _ _ (push_part q c (concat chunks ++ last) Hp ltac:(by destruct (concat chunks)))).
    by rewrite (mbind_M_step _ _ _ _ _ (IH (q ++ c) Hp Hl)).
Qed.
End Valid.

(** ** What a push returns *)

Lemma push_some d input r d' :
  cpd_push input d = (Ok (Some r), d') -> decode_request_packet (cpd_pending d ++ input) = Ok r.
Proof.
  unfold cpd_push. rewrite get_bind. destruct (finished d); [done|]. cbv zeta.
  rewrite packet_prefix_take, <- len_app. intros (u & d1 & Hp & Hd)%mbind_M_ok. destruct u.
  apply prefix_check_ok in Hp as (Hpend & _). rewrite modify_bind in Hd. cbn beta in Hd.
  rewrite get_bind in Hd. cbn [cpd_pending expected_total finished] in Hd. rewrite Hpend in Hd.
  destruct (expected_total d1); [|done]. destruct (_ <? _); [done|]. destruct (_ =? _); [|done].
  cbn [negb] in Hd. rewrite modify_bind in Hd. cbn [cpd_pending] in Hd. unfold lift in Hd.
  destruct (decode_request_packet _); [|done]. by injection Hd as -> _.
Qed.

Lemma push_none d input d' :
  cpd_push input d = (Ok None, d') -> cpd_pending d' = cpd_pending d ++ input.
Proof.
  unfold cpd_push. rewrite get_bind. destruct (finished d); [done|]. cbv zeta.
  rewrite packet_prefix_take, <- len_app. intros (u & d1 & Hp & Hd)%mbind_M_ok. destruct u.
  apply prefix_check_ok in Hp as (Hpend & _). rewrite modify_bind in Hd. cbn beta in Hd.
  rewrite get_bind in Hd. cbn [cpd_pending expected_total finished] in Hd. rewrite Hpend in Hd.
  destruct (expected_total d1); [|by injection Hd as <-].
  destruct (_ <? _); [by injection Hd as <-|]. destruct (_ =? _); [|done].
  cbn [negb] in Hd. rewrite modify_bind in Hd. unfold lift in Hd.
  by destruct (decode_request_packet _).
Qed.

Lemma feed_sound chunks last d r d' :
  cpd_feed (chunks ++ [last]) d = (Ok (map (fun _ => None) chunks ++ [Some r]), d') ->
  decode_request_packet (cpd_pending d ++ concat chunks ++ last) = Ok r.
Proof.
  revert d. induction chunks as [|c chunks IH]; intros d; cbn [app concat map cpd_feed].
  - intros (o & d1 & Ho & Hr)%mbind_M_ok. injection Hr as -> _. by eapply push_some.
  - intros (o & d1 & Ho & Hr)%mbind_M_ok. apply mbind_M_ok in Hr as (os & d2 & Hos & Hr).
    injection Hr as -> -> <-. apply push_none in Ho. apply IH in Hos.
    rewrite Ho, <- app_assoc in Hos. by rewrite <- app_assoc.
Qed.

(** ** Bounds, and failing closed *)

Inductive cpd_event := EPush (input : bytes) | ETimeout | EEof.

Definition cpd_step (e : cpd_event) : M ControlPacketDecoder ControlFailure unit :=
  match e with
  | EPush input => do _ <- cpd_push input; ret tt
  | ETimeout => cpd_timeout
  | EEof => cpd_eof
  end.

(** The decoder after any calls, whatever they returned. *)
Definition cpd_run (es : list cpd_event) : ControlPacketDecoder :=
  fold_left (fun d e => snd (cpd_step e d)) es ControlPacketDecoder_new.

(** At most 64 bytes, or what the operation in the first bytes allows. *)
Definition pending_bounded (pending : bytes) : Prop :=
  len pending <= 64 \/
  exists operation, operation <= 4 /\
    request_operation_prefix (drop 4 (take 64 pending)) = Some operation /\
    len pending <= request_cap operation + 4.

(** An error ends the decoder, and one that has ended answers and changes nothing more. *)
Definition closes {A} (m : M ControlPacketDecoder ControlFailure A) : Prop :=
  forall d, match m d with
            | (Err e, d') => finished d' = true /\ (finished d = true -> d' = d /\ e = ipc SequenceViolation)
            | (Ok _, d') => finished d = false
            end.

Lemma prefix_check_err p n d e d' :
  prefix_check p n d = (Err e, d') -> finished d' = true /\ cpd_pending d' = [].
Proof.
  unfold prefix_check, cpd_reject. cbv zeta.
  repeat (case_match || rewrite modify_bind); intros Hx; by simplify_eq.
Qed.

Lemma push_bounded d input :
  pending_bounded (cpd_pending d) -> pending_bounded (cpd_pending (snd (cpd_push input d))).
Proof.
  intros Hb. unfold cpd_push. rewrite get_bind. destruct (finished d); [done|]. cbv zeta.
  rewrite packet_prefix_take, <- len_app.
  assert (Hnil : pending_bounded []) by (left; rewrite len_nil; lia).
  destruct (prefix_check (take 64 (cpd_pending d ++ input))
    (Z.min (len (cpd_pending d ++ input)) U64_MAX) d) as [[[]|e] d1] eqn:Hp.
  2:{ rewrite (mbind_M_fail _ _ _ _ _ Hp). apply prefix_check_err in Hp as [_ Hp]. cbn. by rewrite Hp. }
  rewrite (mbind_M_step _ _ _ _ _ Hp). apply prefix_check_ok in Hp as (Hpend & _ & Hp).
  assert (Hall : pending_bounded (cpd_pending d ++ input)).
  { destruct Hp as [[Hl _]|(Hl & Hc & _ & Ho)]; [left; lia|].
    destruct (request_operation_prefix _) as [operation|] eqn:He; [|left; lia].
    right. exists operation. split_and!; [apply Ho|done|lia]. }
  rewrite modify_bind. cbn beta. rewrite get_bind. cbn [cpd_pending expected_total finished].
  rewrite Hpend. destruct (expected_total d1); [|done]. destruct (_ <? _); [done|].
  destruct (_ =? _); [|done]. cbn [negb]. rewrite modify_bind. unfold lift.
  by destruct (decode_request_packet _).
Qed.

Lemma push_closes input : closes (cpd_push input).
Proof.
  intros d. unfold cpd_push. rewrite get_bind. destruct (finished d) eqn:Hf; [done|]. cbv zeta.
  rewrite packet_prefix_take, <- len_app.
  destruct (prefix_check (take 64 (cpd_pending d ++ input))
    (Z.min (len (cpd_pending d ++ input)) U64_MAX) d) as [[[]|e] d1] eqn:Hp.
  2:{ rewrite (mbind_M_fail _ _ _ _ _ Hp). by apply prefix_check_err in Hp as [-> _]. }
  rewrite (mbind_M_step _ _ _ _ _ Hp), modify_bind. cbn beta. rewrite get_bind.
  cbn [cpd_pending expected_total finished]. destruct (expected_total d1); [|done].
  destruct (_ <? _); [done|]. destruct (_ =? _); [|done]. cbn [negb]. rewrite modify_bind. unfold lift.
  by destruct (decode_request_packet _).
Qed.

Lemma step_closes e : closes (cpd_step e).
Proof.
  destruct e as [input| |]; cbn [cpd_step].
  - intros d. pose proof (push_closes input d) as Hp. unfold mbind_M.
    by destruct (cpd_push input d) as [[]].
  - intros d. unfold cpd_timeout. rewrite get_bind. destruct (finished d) eqn:Hf; [done|].
    by destruct (is_empty _).
  - intros d. unfold cpd_eof. rewrite get_bind. destruct (finished d) eqn:Hf; [done|].
    by destruct (is_empty _).
Qed.

Lemma step_bounded e d :
  pending_bounded (cpd_pending d) -> pending_bounded (cpd_pending (snd (cpd_step e d))).
Proof.
  assert (Hnil : pending_bounded []) by (left; rewrite len_nil; lia).
  destruct e as [input| |]; cbn [cpd_step].
  - intros Hb. pose proof (push_bounded d input Hb) as Hp. unfold mbind_M.
    by destruct (cpd_push input d) as [[]].
  - intros Hb. unfold cpd_timeout. rewrite get_bind. destruct (finished d); [done|].
    by destruct (is_empty _).
  - intros Hb. unfold cpd_eof. rewrite get_bind. destruct (finished d); [done|].
    by destruct (is_empty _).
Qed.

Lemma run_bounded es : pending_bounded (cpd_pending (cpd_run es)).
Proof.
  unfold cpd_run. assert (Hn : pending_bounded (cpd_pending ControlPacketDecoder_new)) by (by left).
  revert Hn. generalize ControlPacketDecoder_new. induction es as [|e es IH]; intros d Hd; cbn; [done|].
  by apply IH, step_bounded.
Qed.
End Push.

(** C21: however the bytes are cut into chunks, the last of them not empty, the incremental
    decoder waits through all but the last and then returns a request exactly when they
    are that request's packet. *)
Theorem stream_exact `{MinicborWire} chunks last r :
  last <> [] ->
  fst (cpd_feed (chunks ++ [last]) ControlPacketDecoder_new)
    = Ok (map (fun _ => None) chunks ++ [Some r]) <->
  request_ok r /\ concat chunks ++ last = request_packet r.
Proof.
  intros Hl. split.
  - intros Hf. destruct (cpd_feed _ _) as [res d'] eqn:Hc. cbn in Hf. subst res.
    apply feed_sound, decode_request_packet_ok in Hc. done.
  - intros [Hok Hp]. assert (Hh : held (len (request_packet r)) [] = ControlPacketDecoder_new) by done.
    rewrite <- Hh. by rewrite (feed_valid r Hok chunks [] last).
Qed.

(** C39: in every sequence of pushes, timeouts and ends of file, the decoder holds at most 64
    bytes or what the cap of the operation in its first bytes allows; an error ends it; and
    once it has ended every call fails with a sequence violation and changes nothing. *)
Theorem stream_bounded_and_closed `{MinicborWire} es e :
  let d := cpd_run es in
  pending_bounded (cpd_pending d) /\
  match cpd_step e d with
  | (Err err, d') => finished d' = true /\ (finished d = true -> d' = d /\ err = ipc SequenceViolation)
  | (Ok _, d') => finished d = false
  end.
Proof. split; [apply run_bounded|apply step_closes]. Qed.

(** The sample in three chunks, the first within the length prefix. *)
Lemma stream_exact_witness :
  let p := request_packet sample_request in
  drop 50 p <> [] /\
  fst (cpd_feed [take 3 p; take 47 (drop 3 p); drop 50 p] ControlPacketDecoder_new)
    = Ok [None; None; Some sample_request].
Proof.
  cbv zeta. split; [by vm_compute|].
  apply (stream_exact [take 3 (request_packet sample_request);
    take 47 (drop 3 (request_packet sample_request))] (drop 50 (request_packet sample_request))
    sample_request); [by vm_compute|]. split; [apply sample_request_ok|by vm_compute].
Defined.

(** A timeout in the middle of a packet ends the decoder. *)
Lemma stream_bounded_and_closed_witness :
  let p := request_packet sample_request in
  let d := cpd_run [EPush (take 40 p); ETimeout] in
  finished d = true /\ pending_bounded (cpd_pending d) /\
  cpd_step (EPush (drop 40 p)) d = (Err (ipc SequenceViolation), d).
Proof.
  cbv zeta. split; [by vm_compute|].
  destruct (stream_bounded_and_closed [EPush (take 40 (request_packet sample_request)); ETimeout]
              (EPush (drop 40 (request_packet sample_request)))) as [Hb _].
  split; [exact Hb|by vm_compute].
Defined.
