(* ===== verification/OwnedOp.v ===== *)
(** The single-result hand-off of [host-runtime/src/owned_op.rs]: one producer publishes a
    value that is owned, consumers take it, wait for it or abandon it.

    The threads interleave at the operations on what they share: the atomic state word, the
    mutex of the cell with its condition variable, and the cancellation flag.  Orderings of
    memory are sequentially consistent here.  Each method is split at those operations; a
    value of [Producer] or [Consumer] says which one is next. *)

From S2P Require Import Prelude.

(** The values of the [AtomicU8]. *)
Inductive OpState : Set :=
| PRODUCING | READY | TAKEN | ABANDONED | REAPING | REAPED | CLEANUP_FAILED.

#[export] Instance OpState_eq_dec : EqDecision OpState.
Proof. solve_decision. Defined.

Inductive PublishResult : Set := Published | Reaped | PublishCleanupFailed.

(** Who holds the mutex of the cell. *)
Inductive Holder : Set := ByProducer | ByConsumer (i : nat).

#[export] Instance Holder_eq_dec : EqDecision Holder.
Proof. solve_decision. Defined.

Section OwnedOp.
Context {T : Type}.

(** [Shared<T>]; [lock] is the state of the mutex around [cell].  The reaper's mutex is only
    ever taken by the producer. *)
Record Shared := mkShared {
  state : OpState;
  lock : option Holder;
  cell : option T;
  reaper : option (T -> bool);
  cancelled : bool
}.

Definition set_state (w : OpState) (s : Shared) : Shared :=
  mkShared w (lock s) (cell s) (reaper s) (cancelled s).
Definition set_lock (h : option Holder) (s : Shared) : Shared :=
  mkShared (state s) h (cell s) (reaper s) (cancelled s).
Definition set_cell (c : option T) (s : Shared) : Shared :=
  mkShared (state s) (lock s) c (reaper s) (cancelled s).
Definition set_reaper (r : option (T -> bool)) (s : Shared) : Shared :=
  mkShared (state s) (lock s) (cell s) r (cancelled s).
Definition cancel (s : Shared) : Shared :=
  mkShared (state s) (lock s) (cell s) (reaper s) true.

(** [compare_exchange(old, new, ..)]. *)
Definition compare_exchange (old new : OpState) (s : Shared) : result OpState unit * Shared :=
  if decide (state s = old) then (Ok tt, set_state new s) else (Err (state s), s).

(** Taking the mutex, for which a thread waits while another one holds it. *)
Definition acquire (h : Holder) (s : Shared) : option Shared :=
  match lock s with None => Some (set_lock (Some h) s) | Some _ => None end.

(** ** [publish] *)

Inductive Producer :=
| PubLock (v : T)
| PubWrite (v : T)
| PubUnlock
| PubSwap
| PubNotify
| LateStore
| LateLock
| LateTake
| LateUnlock (v : T)
| LateReaper (v : T)
| LateReap (v : T) (f : T -> bool)
| LateFinish (reaped : bool)
| LateNotify (reaped : bool)
| PubDone (r : PublishResult)
| PubPanic.

(** Whether the step is [notify_all], and the values given to the reaper by it. *)
Record Effect := mkEffect { notifies : bool; reaps : list T }.
Definition quietly : Effect := mkEffect false [].

Definition publish_step (p : Producer) (s : Shared) : option (Producer * Shared * Effect) :=
  match p with
  | PubLock v => s' ← acquire ByProducer s; Some (PubWrite v, s', quietly)
  | PubWrite v => Some (PubUnlock, set_cell (Some v) s, quietly)
  | PubUnlock => Some (PubSwap, set_lock None s, quietly)
  | PubSwap =>
      match compare_exchange PRODUCING READY s with
      | (Ok _, s') => Some (PubNotify, s', quietly)
      | (Err ABANDONED, s') => Some (LateStore, s', quietly)
      | (Err _, s') => Some (PubPanic, s', quietly)
      end
  | PubNotify => Some (PubDone Published, s, mkEffect true [])
  | LateStore => Some (LateLock, set_state REAPING s, quietly)
  | LateLock => s' ← acquire ByProducer s; Some (LateTake, s', quietly)
  | LateTake =>
      match cell s with
      | Some v => Some (LateUnlock v, set_cell None s, quietly)
      | None => Some (PubPanic, s, quietly)
      end
  | LateUnlock v => Some (LateReaper v, set_lock None s, quietly)
  | LateReaper v =>
      match reaper s with
      | Some f => Some (LateReap v f, set_reaper None s, quietly)
      | None => Some (PubPanic, s, quietly)
      end
  | LateReap v f => Some (LateFinish (f v), s, mkEffect false [v])
  | LateFinish true => Some (LateNotify true, set_state REAPED s, quietly)
  | LateFinish false => Some (LateNotify false, set_state CLEANUP_FAILED s, quietly)
  | LateNotify b => Some (PubDone (if b then Reaped else PublishCleanupFailed), s, mkEffect true [])
  | PubDone _ | PubPanic => None
  end.

(** ** [take], [abandon] and [wait_until] *)

Inductive Consumer :=
| TakeSwap
| TakeLock
| TakeCell
| TakeUnlock (r : option T)
| AbandonSwap
| AbandonCancel
| WaitLock (deadline : Z)
| WaitSwap (deadline : Z)
| WaitCell
| WaitClock (deadline : Z)
| WaitAbandon (deadline : Z)
| WaitCancel
| WaitRemaining (deadline : Z)
| WaitPark (deadline remaining : Z)
| Parked (deadline until : Z)
| WaitUnlock (r : option T)
| Took (r : option T)
| Abandoned (b : bool).

(** Consumer [i] at the time [now]; a parked one goes on when its time is up. *)
Definition consumer_step (i : nat) (now : Z) (c : Consumer) (s : Shared)
    : option (Consumer * Shared) :=
  match c with
  | TakeSwap =>
      match compare_exchange READY TAKEN s with
      | (Ok _, s') => Some (TakeLock, s')
      | (Err _, s') => Some (Took None, s')
      end
  | TakeLock => s' ← acquire (ByConsumer i) s; Some (TakeCell, s')
  | TakeCell => Some (TakeUnlock (cell s), set_cell None s)
  | TakeUnlock r => Some (Took r, set_lock None s)
  | AbandonSwap =>
      match compare_exchange PRODUCING ABANDONED s with
      | (Ok _, s') => Some (AbandonCancel, s')
      | (Err _, s') => Some (Abandoned false, s')
      end
  | AbandonCancel => Some (Abandoned true, cancel s)
  | WaitLock d => s' ← acquire (ByConsumer i) s; Some (WaitSwap d, s')
  | WaitSwap d =>
      match compare_exchange READY TAKEN s with
      | (Ok _, s') => Some (WaitCell, s')
      | (Err _, s') => Some (WaitClock d, s')
      end
  | WaitCell => Some (WaitUnlock (cell s), set_cell None s)
  | WaitClock d => Some (if d <=? now then WaitAbandon d else WaitRemaining d, s)
  | WaitAbandon d =>
      match compare_exchange PRODUCING ABANDONED s with
      | (Ok _, s') => Some (WaitCancel, s')
      | (Err _, s') => Some (WaitSwap d, s')
      end
  | WaitCancel => Some (WaitUnlock None, cancel s)
  | WaitRemaining d => Some (WaitPark d (Z.max 0 (d - now)), s)
  | WaitPark d r => Some (Parked d (now + r), set_lock None s)
  | Parked d u => if u <=? now then Some (WaitLock d, s) else None
  | WaitUnlock r => Some (Took r, set_lock None s)
  | Took _ | Abandoned _ => None
  end.

(** What a notification, or a spurious wake-up, does to a consumer. *)
Definition wake (c : Consumer) : Consumer :=
  match c with Parked d _ => WaitLock d | _ => c end.

(** ** The system *)

Record System := mkSystem {
  shared : Shared;
  clock : Z;
  producer : Producer;
  consumers : list Consumer;
  given : list T
}.

(** [OwnedOp::new(reaper)], with the call of [publish] the producer is there for. *)
Definition new (f : T -> bool) (v : T) (now : Z) : System :=
  {| shared := mkShared PRODUCING None None (Some f) false; clock := now;
     producer := PubLock v; consumers := []; given := [] |}.

(** A method a consumer calls. *)
Definition call (c : Consumer) : Prop :=
  match c with TakeSwap | AbandonSwap | WaitLock _ => True | _ => False end.

(** Who moves. *)
Inductive Label :=
| LProducer | LConsumer (i : nat) | LSpurious (i : nat) | LCall (c : Consumer) | LTime (t : Z).

Inductive op_step (y : System) : Label -> System -> Prop :=
| step_producer p s e :
    publish_step (producer y) (shared y) = Some (p, s, e) ->
    op_step y LProducer
      {| shared := s; clock := clock y; producer := p;
         consumers := if notifies e then wake <$> consumers y else consumers y;
         given := given y ++ reaps e |}
| step_consumer i c c' s :
    consumers y !! i = Some c -> consumer_step i (clock y) c (shared y) = Some (c', s) ->
    op_step y (LConsumer i)
      {| shared := s; clock := clock y; producer := producer y;
         consumers := <[i := c']> (consumers y); given := given y |}
| step_spurious i c :
    consumers y !! i = Some c ->
    op_step y (LSpurious i)
      {| shared := shared y; clock := clock y; producer := producer y;
         consumers := <[i := wake c]> (consumers y); given := given y |}
| step_call c :
    call c ->
    op_step y (LCall c)
      {| shared := shared y; clock := clock y; producer := producer y;
         consumers := consumers y ++ [c]; given := given y |}
| step_time t :
    clock y <= t ->
    op_step y (LTime t)
      {| shared := shared y; clock := t; producer := producer y;
         consumers := consumers y; given := given y |}.

(** The step with a label, as a function. *)
Definition op_exec (y : System) (l : Label) : option System :=
  match l with
  | LProducer =>
      '(p, s, e) ← publish_step (producer y) (shared y);
      Some {| shared := s; clock := clock y; producer := p;
              consumers := if notifies e then wake <$> consumers y else consumers y;
              given := given y ++ reaps e |}
  | LConsumer i =>
      c ← consumers y !! i;
      '(c', s) ← consumer_step i (clock y) c (shared y);
      Some {| shared := s; clock := clock y; producer := producer y;
              consumers := <[i := c']> (consumers y); given := given y |}
  | LSpurious i =>
      c ← consumers y !! i;
      Some {| shared := shared y; clock := clock y; producer := producer y;
              consumers := <[i := wake c]> (consumers y); given := given y |}
  | LCall c =>
      if match c with TakeSwap | AbandonSwap | WaitLock _ => true | _ => false end then
        Some {| shared := shared y; clock := clock y; producer := producer y;
                consumers := consumers y ++ [c]; given := given y |}
      else None
  | LTime t =>
      if clock y <=? t then
        Some {| shared := shared y; clock := t; producer := producer y;
                consumers := consumers y; given := given y |}
      else None
  end.
Definition op_execs : list Label -> System -> option System :=
  fix go ls y := match ls with [] => Some y | l :: ls => op_exec y l ≫= go ls end.

(** A run, with the labels of its steps. *)
Inductive op_run : System -> list Label -> System -> Prop :=
| run_nil y : op_run y [] y
| run_cons y l y1 ls y2 : op_step y l y1 -> op_run y1 ls y2 -> op_run y (l :: ls) y2.

Lemma op_exec_step y l y' : op_exec y l = Some y' -> op_step y l y'.
Proof.
  destruct l as [|i|i|c|t]; cbn.
  - destruct (publish_step _ _) as [[[p s] e]|] eqn:Hs; cbn; [|done]. intros [= <-].
    by constructor.
  - destruct (consumers y !! i) as [c|] eqn:Hc; cbn; [|done].
    destruct (consumer_step _ _ _ _) as [[c' s]|] eqn:Hs; cbn; [|done]. intros [= <-].
    by econstructor.
  - destruct (consumers y !! i) as [c|] eqn:Hc; cbn; [|done]. intros [= <-]. by econstructor.
  - destruct c; try done; intros [= <-]; by constructor.
  - destruct (Z.leb_spec (clock y) t); [|done]. intros [= <-]. by constructor.
Qed.
Lemma op_execs_run ls y y' : op_execs ls y = Some y' -> op_run y ls y'.
Proof.
  revert y. induction ls as [|l ls IH]; intros y; cbn; [intros [= ->]; constructor|].
  destruct (op_exec y l) as [y1|] eqn:Hl; [|done]. cbn. intros Hr.
  econstructor; [by apply op_exec_step|by apply IH].
Qed.
End OwnedOp.

(** ** The invariant *)

Section Invariant.
Context {T : Type} (f : T -> bool) (v : T).
Implicit Types (p : Producer (T:=T)) (c : Consumer (T:=T)) (s : Shared (T:=T))
  (y : System (T:=T)).

(** What a method between two of its steps has: a right to the cell, the cell's mutex, the
    duty to signal cancellation, the value. *)
Definition claims c : nat :=
  match c with TakeLock | TakeCell | WaitCell => 1 | _ => 0 end.
Definition c_locked c : bool :=
  match c with
  | TakeCell | TakeUnlock _ | WaitSwap _ | WaitCell | WaitClock _ | WaitAbandon _ | WaitCancel
  | WaitRemaining _ | WaitPark _ _ | WaitUnlock _ => true
  | _ => false
  end.
Definition cancels c : bool :=
  match c with AbandonCancel | WaitCancel => true | _ => false end.
Definition c_value c : list T :=
  match c with TakeUnlock r | WaitUnlock r | Took r => option_list r | _ => [] end.

Definition p_locked p : bool :=
  match p with PubWrite _ | PubUnlock | LateTake | LateUnlock _ => true | _ => false end.
Definition p_value p : list T :=
  match p with
  | PubLock v | PubWrite v | LateUnlock v | LateReaper v | LateReap v _ => [v]
  | _ => []
  end.
(** The producer has found the operation wanted. *)
Definition p_published p : bool :=
  match p with PubNotify | PubDone Published => true | _ => false end.
(** The cell of an operation that is not published. *)
Definition p_stored p : bool :=
  match p with PubUnlock | PubSwap | LateStore | LateLock | LateTake => true | _ => false end.
Definition p_reaper p : option (T -> bool) :=
  match p with
  | LateReap _ _ | LateFinish _ | LateNotify _ | PubDone Reaped
  | PubDone PublishCleanupFailed => None
  | _ => Some f
  end.

(** The state word at each point of [publish]. *)
Definition p_word p (w : OpState) : Prop :=
  match p with
  | PubLock _ | PubWrite _ | PubUnlock | PubSwap => w = PRODUCING \/ w = ABANDONED
  | PubNotify | PubDone Published => w = READY \/ w = TAKEN
  | LateStore => w = ABANDONED
  | LateLock | LateTake | LateUnlock _ | LateReaper _ | LateReap _ _ | LateFinish _ =>
      w = REAPING
  | LateNotify true | PubDone Reaped => w = REAPED
  | LateNotify false | PubDone PublishCleanupFailed => w = CLEANUP_FAILED
  | PubPanic => False
  end.

(** What the reaper was given and what it answered, at the points after its call. *)
Definition p_given p : list T :=
  match p with
  | LateFinish _ | LateNotify _ | PubDone Reaped | PubDone PublishCleanupFailed => [v]
  | _ => []
  end.
Definition p_result p : option bool :=
  match p with
  | LateFinish b | LateNotify b => Some b
  | PubDone Reaped => Some true
  | PubDone PublishCleanupFailed => Some false
  | _ => None
  end.

(** The consumers among which the one is that abandoned the operation. *)
Definition withdrew c : bool :=
  match c with
  | AbandonCancel | WaitCancel | WaitUnlock None | Took None | Abandoned true => true
  | _ => false
  end.

Definition abandoned (w : OpState) : bool :=
  match w with PRODUCING | READY | TAKEN => false | _ => true end.

(** The rights to the cell: the word's, or those of the consumers that won it. *)
Definition rights y : nat :=
  ((if decide (state (shared y) = READY) then 1 else 0)
   + sum_list_with claims (consumers y))%nat.

(** Everything that is the value, wherever it is. *)
Definition values y : list T :=
  p_value (producer y) ++ option_list (cell (shared y)) ++ (consumers y ≫= c_value) ++ given y.

Record op_inv y : Prop := {
  inv_word : p_word (producer y) (state (shared y));
  inv_cell : p_published (producer y) = false ->
    is_Some_b (cell (shared y)) = p_stored (producer y);
  inv_rights : rights y =
    if p_published (producer y) then length (option_list (cell (shared y))) else 0%nat;
  inv_reaper : reaper (shared y) = p_reaper (producer y);
  inv_reap : forall x g, producer y = LateReap x g -> g = f;
  inv_producer_lock : lock (shared y) = Some ByProducer <-> p_locked (producer y) = true;
  inv_consumer_lock : forall i, lock (shared y) = Some (ByConsumer i) <->
    exists c, consumers y !! i = Some c /\ c_locked c = true;
  inv_cancelled : abandoned (state (shared y)) = true <->
    cancelled (shared y) = true \/ Exists (fun c => cancels c = true) (consumers y);
  inv_given : given y = p_given (producer y);
  inv_result : forall b, p_result (producer y) = Some b -> f v = b;
  inv_abandoner : abandoned (state (shared y)) = true ->
    Exists (fun c => withdrew c = true) (consumers y);
  inv_values : values y ≡ₚ [v]
}.

Lemma inv_new now : op_inv (new f v now).
Proof.
  split; cbn; try done; try naive_solver.
  split; [done|]. intros [?|H]; [done|by inversion H].
Qed.

(** *** A consumer replaced by another *)

Lemma replace_split {A} (l : list A) i a :
  l !! i = Some a -> exists l1 l2, l = l1 ++ a :: l2 /\ forall b, <[i:=b]> l = l1 ++ b :: l2.
Proof.
  intros Hi. exists (take i l), (drop (S i) l). split; [by rewrite take_drop_middle|].
  intros b. apply insert_take_drop. by eapply lookup_lt_Some.
Qed.

Lemma replace_claims (l : list (Consumer (T:=T))) i c c' :
  l !! i = Some c ->
  (sum_list_with claims (<[i := c']> l) + claims c = sum_list_with claims l + claims c')%nat.
Proof.
  intros (l1 & l2 & -> & ->)%replace_split. rewrite !sum_list_with_app. cbn. lia.
Qed.

Lemma replace_values (l : list (Consumer (T:=T))) i c c' :
  l !! i = Some c ->
  c_value c ++ (<[i := c']> l ≫= c_value) ≡ₚ c_value c' ++ (l ≫= c_value).
Proof.
  intros (l1 & l2 & -> & ->)%replace_split. rewrite !bind_app. cbn. solve_Permutation.
Qed.

Lemma replace_exists (P : Consumer -> Prop) (l : list (Consumer (T:=T))) i c c' :
  l !! i = Some c ->
  (Exists P l <-> P c \/ exists j d, j <> i /\ l !! j = Some d /\ P d) /\
  (Exists P (<[i := c']> l) <-> P c' \/ exists j d, j <> i /\ l !! j = Some d /\ P d).
Proof.
  intros Hi. assert (Hlt : (i < length l)%nat) by by eapply lookup_lt_Some.
  rewrite !Exists_exists. setoid_rewrite list_elem_of_lookup. split; split.
  - intros (d & [j Hj] & Hd). destruct (decide (j = i)) as [->|]; [|by eauto 6].
    rewrite Hi in Hj. injection Hj as ->. by left.
  - intros [?|(j & d & _ & ? & ?)]; eauto.
  - intros (d & [j Hj] & Hd). destruct (decide (j = i)) as [->|].
    + rewrite list_lookup_insert_eq in Hj by done. injection Hj as ->. by left.
    + rewrite list_lookup_insert_ne in Hj by done. by eauto 6.
  - intros [?|(j & d & ? & ? & ?)].
    + exists c'. split; [|done]. exists i. by rewrite list_lookup_insert_eq.
    + exists d. split; [|done]. exists j. by rewrite list_lookup_insert_ne.
Qed.

(** The word's right. *)
Definition ready s : nat := if decide (state s = READY) then 1 else 0.

(** What a consumer's step owes the invariant. *)
Record replaced (i : nat) p s c s' c' : Prop := {
  rp_word : p_word p (state s');
  rp_cell : p_published p = false -> cell s' = cell s;
  rp_rights : p_published p = true ->
    (ready s' + claims c' + length (option_list (cell s))
     = ready s + claims c + length (option_list (cell s')))%nat;
  rp_unpublished : p_published p = false -> (ready s' + claims c' = ready s + claims c)%nat;
  rp_reaper : reaper s' = reaper s;
  rp_lock : lock s' = Some (ByConsumer i) <-> c_locked c' = true;
  rp_others : forall h, h <> ByConsumer i -> lock s' = Some h <-> lock s = Some h;
  rp_cancelled : forall Q : Prop,
    (abandoned (state s) = true <-> cancelled s = true \/ cancels c = true \/ Q) ->
    (abandoned (state s') = true <-> cancelled s' = true \/ cancels c' = true \/ Q);
  rp_withdrew : abandoned (state s') = true ->
    withdrew c' = true \/ (abandoned (state s) = true /\ withdrew c = false);
  rp_values : c_value c' ++ option_list (cell s') ≡ₚ c_value c ++ option_list (cell s)
}.

Definition with_consumer i c s y : System :=
  {| shared := s; clock := clock y; producer := producer y;
     consumers := <[i := c]> (consumers y); given := given y |}.

Lemma inv_replaced y i c s' c' :
  op_inv y -> consumers y !! i = Some c ->
  replaced i (producer y) (shared y) c s' c' -> op_inv (with_consumer i c' s' y).
Proof.
  intros [] Hc []. split; cbn; try done.
  - intros Hp. by rewrite rp_cell0, inv_cell0.
  - pose proof (replace_claims _ _ _ c' Hc) as Hr. unfold rights in *. cbn.
    fold (ready s'). fold (ready (shared y)) in inv_rights0.
    destruct (p_published (producer y)); [specialize (rp_rights0 eq_refl)|
      specialize (rp_unpublished0 eq_refl)]; lia.
  - congruence.
  - by rewrite rp_others0.
  - intros j. destruct (decide (j = i)) as [->|Hj].
    + rewrite list_lookup_insert_eq by by eapply lookup_lt_Some. rewrite rp_lock0. naive_solver.
    + rewrite list_lookup_insert_ne, rp_others0 by congruence. apply inv_consumer_lock0.
  - destruct (replace_exists (fun c => cancels c = true) _ _ _ c' Hc) as [Hold Hnew].
    rewrite Hnew. apply rp_cancelled0. by rewrite <- Hold.
  - destruct (replace_exists (fun c => withdrew c = true) _ _ _ c' Hc) as [Hold Hnew].
    rewrite Hnew. intros [?|[Ha Hn]]%rp_withdrew0; [by left|]. right.
    apply inv_abandoner0, Hold in Ha as [?|?]; [congruence|done].
  - pose proof (replace_values _ _ _ c' Hc) as Hv. unfold values in *. cbn.
    rewrite <- inv_values0. apply (Permutation_app_inv_l (c_value c)).
    trans (p_value (producer y) ++ option_list (cell s') ++
      (c_value c ++ (<[i:=c']> (consumers y) ≫= c_value)) ++ given y); [solve_Permutation|].
    rewrite Hv. trans (p_value (producer y) ++ (c_value c' ++ option_list (cell s')) ++
      (consumers y ≫= c_value) ++ given y); [solve_Permutation|].
    rewrite rp_values0. solve_Permutation.
Qed.

(** A consumer with a right to the cell finds the value in it. *)
Lemma claims_le (l : list (Consumer (T:=T))) i c :
  l !! i = Some c -> (claims c <= sum_list_with claims l)%nat.
Proof. intros (l1 & l2 & -> & _)%replace_split. rewrite sum_list_with_app. cbn. lia. Qed.

Lemma claim_cell y i c :
  op_inv y -> consumers y !! i = Some c -> claims c = 1%nat ->
  p_published (producer y) = true /\ exists x, cell (shared y) = Some x.
Proof.
  intros [] Hc Hcl. pose proof (claims_le _ _ _ Hc) as Hle. unfold rights in inv_rights0.
  destruct (p_published (producer y)); [|lia]. split; [done|].
  destruct (cell (shared y)) as [x|]; [by exists x|]. cbn in *. lia.
Qed.

Lemma words_swap p w :
  p_word p w -> (w = READY -> p_word p TAKEN /\ p_published p = true) /\
  (w = PRODUCING -> p_word p ABANDONED /\ p_published p = false).
Proof.
  intros Hw. destruct p as [| | | | | | | | | | | |[]|[]|]; cbn in *;
    split; intros ->; naive_solver.
Qed.

Lemma words_ready y : op_inv y -> state (shared y) = READY -> p_word (producer y) TAKEN.
Proof. intros Hi Hw. apply (words_swap _ _ (inv_word _ Hi)), Hw. Qed.
Lemma words_producing y :
  op_inv y -> state (shared y) = PRODUCING -> p_word (producer y) ABANDONED.
Proof. intros Hi Hw. apply (words_swap _ _ (inv_word _ Hi)), Hw. Qed.
Lemma ready_published y :
  op_inv y -> state (shared y) = READY -> p_published (producer y) = true.
Proof. intros Hi Hw. apply (words_swap _ _ (inv_word _ Hi)), Hw. Qed.
Lemma producing_unpublished y :
  op_inv y -> state (shared y) = PRODUCING -> p_published (producer y) = false.
Proof. intros Hi Hw. apply (words_swap _ _ (inv_word _ Hi)), Hw. Qed.

(** The ways a consumer's step changes what is shared. *)
Section Kinds.
Context (y : System (T:=T)) (i : nat) (c c' : Consumer (T:=T)) (Hi : op_inv y)
  (Hc : consumers y !! i = Some c).
Local Abbreviation s := (shared y).
Local Abbreviation rep := (replaced i (producer y) s c).

Lemma own_lock : lock s = Some (ByConsumer i) <-> c_locked c = true.
Proof. rewrite (inv_consumer_lock _ Hi). naive_solver. Qed.

Lemma withdrew_kept :
  (withdrew c = true -> withdrew c' = true) -> abandoned (state s) = true ->
  withdrew c' = true \/ (abandoned (state s) = true /\ withdrew c = false).
Proof. destruct (withdrew c); auto. Qed.

Lemma replaced_quiet :
  claims c' = claims c -> c_locked c' = c_locked c -> cancels c' = cancels c ->
  c_value c' = c_value c ->
  (withdrew c = true -> withdrew c' = true) -> rep s c'.
Proof.
  intros Hcl Hlk Hca Hv Hwd. pose proof own_lock. pose proof (inv_word _ Hi).
  pose proof (withdrew_kept Hwd). split; try done; rewrite ?Hcl, ?Hlk, ?Hca, ?Hv; done.
Qed.

Lemma replaced_acquire s' :
  acquire (ByConsumer i) s = Some s' -> claims c' = claims c -> c_locked c' = true ->
  cancels c' = cancels c -> c_value c' = c_value c ->
  (withdrew c = true -> withdrew c' = true) -> rep s' c'.
Proof.
  unfold acquire. destruct (lock s) eqn:Hl; [done|]. intros [= <-] Hcl Hlk Hca Hv Hwd.
  pose proof (inv_word _ Hi). pose proof (withdrew_kept Hwd).
  split; cbn; try done; rewrite ?Hcl, ?Hlk, ?Hca, ?Hv; try done.
  intros h Hh. rewrite Hl. naive_solver.
Qed.

Lemma replaced_release :
  c_locked c = true -> claims c' = claims c -> c_locked c' = false -> cancels c' = cancels c ->
  c_value c' = c_value c ->
  (withdrew c = true -> withdrew c' = true) -> rep (set_lock None s) c'.
Proof.
  intros Hl Hcl Hlk Hca Hv Hwd. pose proof (inv_word _ Hi). pose proof (withdrew_kept Hwd).
  apply own_lock in Hl.
  split; cbn; try done; rewrite ?Hcl, ?Hlk, ?Hca, ?Hv; try done.
  intros h Hh. rewrite Hl. naive_solver.
Qed.

Lemma replaced_take :
  state s = READY -> claims c = 0%nat -> claims c' = 1%nat -> c_locked c' = c_locked c ->
  cancels c' = cancels c -> c_value c' = c_value c -> rep (set_state TAKEN s) c'.
Proof.
  intros Hw Hcl Hcl' Hlk Hca Hv. pose proof own_lock. pose proof (ready_published _ Hi Hw).
  pose proof (words_ready _ Hi Hw).
  split; cbn; try done; unfold ready; rewrite ?Hcl, ?Hcl', ?Hlk, ?Hca, ?Hv, ?Hw; done.
Qed.

Lemma replaced_abandon :
  state s = PRODUCING -> claims c' = claims c -> c_locked c' = c_locked c ->
  cancels c' = true -> withdrew c' = true -> c_value c' = c_value c ->
  rep (set_state ABANDONED s) c'.
Proof.
  intros Hw Hcl Hlk Hca Hwd Hv. pose proof own_lock. pose proof (producing_unpublished _ Hi Hw).
  pose proof (words_producing _ Hi Hw).
  split; cbn; try done; unfold ready; rewrite ?Hcl, ?Hlk, ?Hca, ?Hv, ?Hw; try done.
  - intros Q _. split; [|done]. intros _. by right; left.
  - by left.
Qed.

Lemma replaced_cell :
  claims c = 1%nat -> claims c' = 0%nat -> withdrew c = false -> c_locked c' = c_locked c ->
  cancels c' = cancels c -> c_value c = [] -> c_value c' = option_list (cell s) ->
  rep (set_cell None s) c'.
Proof.
  intros Hcl Hcl' Hwd Hlk Hca Hv Hv'. pose proof own_lock. pose proof (inv_word _ Hi).
  destruct (claim_cell _ _ _ Hi Hc Hcl) as [Hp [x Hx]].
  split; cbn; try done; unfold ready; rewrite ?Hcl, ?Hcl', ?Hlk, ?Hca, ?Hv, ?Hv', ?Hx, ?Hp; cbn;
    try done; try lia. auto.
Qed.

Lemma replaced_cancel :
  claims c' = claims c -> c_locked c' = c_locked c -> cancels c = true -> cancels c' = false ->
  c_value c' = c_value c ->
  (withdrew c = true -> withdrew c' = true) -> rep (cancel s) c'.
Proof.
  intros Hcl Hlk Hca Hca' Hv Hwd. pose proof own_lock. pose proof (inv_word _ Hi).
  pose proof (withdrew_kept Hwd).
  split; cbn; try done; rewrite ?Hcl, ?Hlk, ?Hca, ?Hv; try done.
  intros Q HQ. split; [naive_solver|]. intros _. apply HQ. by right; left.
Qed.
End Kinds.

(** A [compare_exchange] that wins, and one that does not. *)
Lemma compare_exchange_cases old new s :
  (state s = old /\ compare_exchange old new s = (Ok tt, set_state new s)) \/
  (state s <> old /\ compare_exchange old new s = (Err (state s), s)).
Proof. unfold compare_exchange. case_decide; auto. Qed.

Lemma consumer_replaced y i c c' s :
  op_inv y -> consumers y !! i = Some c ->
  consumer_step i (clock y) c (shared y) = Some (c', s) ->
  replaced i (producer y) (shared y) c s c'.
Proof.
  intros Hi Hc Hs. destruct c; cbn [consumer_step] in Hs; try done;
    repeat match type of Hs with
    | context [compare_exchange ?a ?b ?x] =>
        destruct (compare_exchange_cases a b x) as [[? Hx]|[? Hx]];
        rewrite Hx in Hs; clear Hx; cbn in Hs
    | context [acquire ?a ?b] => destruct (acquire a b) eqn:?; cbn in Hs; [|done]
    | context [if ?b then _ else _] => destruct b
    end; try done; simplify_eq;
    first [ by apply replaced_quiet | by eapply replaced_acquire | by apply replaced_release
          | by apply replaced_take | by apply replaced_abandon | by apply replaced_cell
          | by apply replaced_cancel ].
Qed.

Lemma inv_consumer y i c c' s :
  op_inv y -> consumers y !! i = Some c ->
  consumer_step i (clock y) c (shared y) = Some (c', s) -> op_inv (with_consumer i c' s y).
Proof. intros Hi Hc Hs. eapply inv_replaced; [done..|]. by apply consumer_replaced. Qed.

Lemma inv_spurious y i c :
  op_inv y -> consumers y !! i = Some c -> op_inv (with_consumer i (wake c) (shared y) y).
Proof.
  intros Hi Hc. eapply inv_replaced; [done..|]. apply replaced_quiet; by try destruct c.
Qed.

Lemma inv_call y c :
  op_inv y -> call c ->
  op_inv {| shared := shared y; clock := clock y; producer := producer y;
            consumers := consumers y ++ [c]; given := given y |}.
Proof.
  intros [] Hc. assert (Hr : claims c = 0%nat /\ c_locked c = false /\ cancels c = false /\
    c_value c = []) by by destruct c. destruct Hr as (Hcl & Hlk & Hca & Hv).
  split; cbn; try done.
  - unfold rights in *. cbn. rewrite sum_list_with_app. cbn. rewrite Hcl. lia.
  - intros i. rewrite inv_consumer_lock0. split; intros (d & Hd & Hl); exists d; (split; [|done]).
    + by apply lookup_app_l_Some.
    + apply lookup_app_Some in Hd as [?|[_ Hd]]; [done|].
      apply list_lookup_singleton_Some in Hd as [_ <-]. congruence.
  - rewrite Exists_app, Exists_cons, Exists_nil, Hca. naive_solver.
  - intros Ha. apply Exists_app. auto.
  - unfold values in *. cbn. rewrite bind_app. cbn. by rewrite Hv, !app_nil_r.
Qed.

Lemma inv_time y t :
  op_inv y -> op_inv {| shared := shared y; clock := t; producer := producer y;
                        consumers := consumers y; given := given y |}.
Proof. by intros []. Qed.

(** Waking everyone changes nobody's part. *)
Lemma wake_part c :
  claims (wake c) = claims c /\ c_locked (wake c) = c_locked c /\
  cancels (wake c) = cancels c /\ c_value (wake c) = c_value c.
Proof. by destruct c. Qed.
Lemma wake_claims (l : list (Consumer (T:=T))) :
  sum_list_with claims (wake <$> l) = sum_list_with claims l.
Proof. induction l as [|c l IH]; [done|]. cbn. destruct (wake_part c) as (-> & _). auto. Qed.
Lemma wake_values (l : list (Consumer (T:=T))) : (wake <$> l) ≫= c_value = l ≫= c_value.
Proof. induction l as [|c l IH]; [done|]. cbn. destruct (wake_part c) as (_ & _ & _ & ->). by f_equal. Qed.

Lemma inv_wake y b :
  op_inv y ->
  op_inv {| shared := shared y; clock := clock y; producer := producer y;
            consumers := if b : bool then wake <$> consumers y else consumers y;
            given := given y |}.
Proof.
  intros Hi. destruct b; [|by destruct y]. destruct Hi.
  split; cbn; try done.
  - unfold rights in *. cbn. by rewrite wake_claims.
  - intros i. rewrite inv_consumer_lock0, list_lookup_fmap. split.
    + intros (c & -> & Hl). exists (wake c). by destruct (wake_part c) as (_ & -> & _).
    + intros (d & Hd & Hl). destruct (consumers y !! i) as [c|]; [|done].
      injection Hd as <-. exists c. by rewrite (proj1 (proj2 (wake_part c))) in Hl.
  - rewrite Exists_fmap. rewrite inv_cancelled0. f_equiv. apply Exists_proper; [|done].
    intros c. cbn. by destruct (wake_part c) as (_ & _ & -> & _).
  - intros Ha%inv_abandoner0. apply Exists_fmap. eapply Exists_impl; [exact Ha|]. by intros [].
  - unfold values in *. cbn. by rewrite wake_values.
Qed.

(** What a step of [publish] owes the invariant. *)
Record advanced p s p' s' e : Prop := {
  ad_word : p_word p' (state s');
  ad_cell : p_published p' = false -> is_Some_b (cell s') = p_stored p';
  ad_rights : (if p_published p' then length (option_list (cell s')) else 0)%nat
    = ((if p_published p then length (option_list (cell s)) else 0) + ready s' - ready s)%nat;
  ad_ready : (ready s <= ready s')%nat;
  ad_reaper : reaper s' = p_reaper p';
  ad_reap : forall x g, p' = LateReap x g -> g = f;
  ad_lock : lock s' = Some ByProducer <-> p_locked p' = true;
  ad_others : forall i, lock s' = Some (ByConsumer i) <-> lock s = Some (ByConsumer i);
  ad_abandoned : abandoned (state s') = abandoned (state s);
  ad_cancelled : cancelled s' = cancelled s;
  ad_given : p_given p' = p_given p ++ reaps e;
  ad_result : forall b, p_result p' = Some b -> f v = b;
  ad_values : p_value p' ++ option_list (cell s') ++ reaps e ≡ₚ p_value p ++ option_list (cell s)
}.

Lemma inv_advanced y p s e :
  op_inv y -> advanced (producer y) (shared y) p s e ->
  op_inv {| shared := s; clock := clock y; producer := p;
            consumers := if notifies e then wake <$> consumers y else consumers y;
            given := given y ++ reaps e |}.
Proof.
  intros Hi []. pose proof (inv_wake y (notifies e) Hi) as [].
  set (l := if notifies e then _ else _) in *. clearbody l. clear Hi.
  split; cbn in *; try done.
  - unfold rights in *. cbn in *. unfold ready in *. rewrite ad_rights0, <- inv_rights0. lia.
  - intros i. by rewrite ad_others0.
  - by rewrite ad_abandoned0, ad_cancelled0.
  - by rewrite inv_given0, ad_given0.
  - by rewrite ad_abandoned0.
  - unfold values in *. cbn in *. rewrite <- inv_values0.
    trans ((p_value p ++ option_list (cell s) ++ reaps e) ++ (l ≫= c_value) ++ given y);
      [solve_Permutation|]. rewrite ad_values0. solve_Permutation.
Qed.

Lemma publish_advanced y p s e :
  op_inv y -> publish_step (producer y) (shared y) = Some (p, s, e) ->
  advanced (producer y) (shared y) p s e.
Proof.
  intros [Hw Hc Hr Hre Hg Hl _ _ _ Hres _ Hv] Hs. unfold rights in Hr. cbn in Hr.
  assert (Hpv : forall x, x ∈ p_value (producer y) -> x = v).
  { intros x Hx. apply list_elem_of_singleton. rewrite <- Hv. apply elem_of_app. by left. }
  clear Hv.
  destruct (shared y) as [w l ce re ca], (producer y) as [| | | | | | | | | | | |[]|[]|];
    cbn in *; try done; unfold acquire in Hs; cbn in *;
    try (destruct Hw as [Hw | Hw]); try subst w;
    try (specialize (Hc eq_refl)); unfold compare_exchange in Hs; cbn in *;
    try (destruct ce; cbn in Hc; [|done]); try (destruct l; cbn in Hs; [done|]); simplify_eq/=;
    try (destruct ce; cbn in Hc; [done|]); try (destruct reaped; simplify_eq/=);
    try rewrite (Hg _ _ eq_refl);
    split; cbn; unfold ready; cbn; try done; try (by left); try (by right); try lia.
  all: try (pose proof (Hpv _ (list_elem_of_here _ _)); subst).
  all: first [ done | by rewrite app_nil_r | by intros x g [= _ <-] | congruence
             | intros j; rewrite (proj2 Hl eq_refl); split; discriminate ].
Qed.

(** Every step keeps the invariant. *)
Lemma inv_step y l y' : op_inv y -> op_step y l y' -> op_inv y'.
Proof.
  intros Hi. destruct 1.
  - apply inv_advanced; [done|]. by apply publish_advanced.
  - by eapply inv_consumer.
  - by apply inv_spurious.
  - by apply inv_call.
  - by apply inv_time.
Qed.

Lemma inv_run y ls y' : op_inv y -> op_run y ls y' -> op_inv y'.
Proof. intros Hi Hr. induction Hr; eauto using inv_step. Qed.
End Invariant.

(** ** The value goes to exactly one place *)

Section Values.
Context {T : Type} (f : T -> bool) (v : T).
Implicit Types (y : System (T:=T)).

(** A consumer whose method has returned. *)
Definition finished (c : Consumer (T:=T)) : bool :=
  match c with Took _ | Abandoned _ => true | _ => false end.

Lemma bind_one (l : list (Consumer (T:=T))) i c :
  l !! i = Some c -> (length (c_value c) <= length (l ≫= c_value))%nat.
Proof.
  intros (l1 & l2 & -> & _)%replace_split. rewrite bind_app. cbn. rewrite !length_app. lia.
Qed.
Lemma bind_two (l : list (Consumer (T:=T))) i j c d :
  l !! i = Some c -> l !! j = Some d -> i <> j ->
  (length (c_value c) + length (c_value d) <= length (l ≫= c_value))%nat.
Proof.
  revert i j. induction l as [|x l IH]; intros [|i] [|j] Hi Hj Hij; try done; cbn in *;
    rewrite length_app; simplify_eq.
  - pose proof (bind_one _ _ _ Hj). unfold mbind in *. lia.
  - pose proof (bind_one _ _ _ Hi). unfold mbind in *. lia.
  - specialize (IH i j Hi Hj ltac:(congruence)). unfold mbind in *. lia.
Qed.

Lemma finished_value (l : list (Consumer (T:=T))) :
  Forall (fun c => finished c = true) l -> l ≫= c_value = [v] ->
  exists i, l !! i = Some (Took (Some v)).
Proof.
  induction l as [|c l IH]; intros Hf Hb; [done|]. inversion_clear Hf.
  destruct c as [| | | | | | | | | | | | | | | |[x|]|]; try done; cbn in Hb.
  - injection Hb as -> _. by exists 0%nat.
  - destruct IH as [i Hi]; try done. by exists (S i).
  - destruct IH as [i Hi]; try done. by exists (S i).
Qed.

Lemma finished_claims (l : list (Consumer (T:=T))) :
  Forall (fun c => finished c = true) l -> sum_list_with claims l = 0%nat.
Proof. induction 1 as [|c l Hc _ IH]; [done|]. cbn. destruct c; try done; exact IH. Qed.

(** C25: whatever the schedule, no panic of [publish] is reached; at most one call returns the
    value, and then the reaper was never given anything; the answer of [publish] says what
    became of the value; and when every call has returned, a published value has been
    returned by one of them or still waits in the cell. *)
Theorem op_exactly_once now ls y :
  op_run (new f v now) ls y ->
  producer y <> PubPanic /\
  (forall i r, consumers y !! i = Some (Took (Some r)) -> r = v /\ given y = [] /\
     forall j r', consumers y !! j = Some (Took (Some r')) -> j = i) /\
  match producer y with
  | PubDone Reaped => given y = [v] /\ f v = true
  | PubDone PublishCleanupFailed => given y = [v] /\ f v = false
  | PubDone Published => given y = [] /\
      (Forall (fun c => finished c = true) (consumers y) ->
       state (shared y) = READY /\ cell (shared y) = Some v \/
       state (shared y) = TAKEN /\ exists i, consumers y !! i = Some (Took (Some v)))
  | _ => True
  end.
Proof.
  intros Hr. pose proof (inv_run f v _ _ _ (inv_new f v now) Hr) as [Hw _ Hri _ _ _ _ _ Hg Hres _ Hv].
  split_and!.
  - intros Hp. by rewrite Hp in Hw.
  - intros i r Hi. pose proof (bind_one _ _ _ Hi) as Hone. cbn in Hone.
    pose proof (Permutation_length Hv) as Hlen. unfold values in *. rewrite !length_app in Hlen.
    cbn in Hlen. split_and!.
    + apply list_elem_of_singleton. rewrite <- Hv, !elem_of_app. right; right; left.
      apply list_elem_of_bind. exists (Took (Some r)). split; [by left|].
      by apply list_elem_of_lookup_2 in Hi.
    + apply length_zero_iff_nil. lia.
    + intros j r' Hj. destruct (decide (j = i)) as [|Hij]; [done|].
      pose proof (bind_two _ _ _ _ _ Hj Hi Hij) as H2. cbn in H2. lia.
  - unfold values in Hv. destruct (producer y) as [| | | | | | | | | | | | |[]|]; cbn in *; auto.
    split; [done|]. intros Hf. unfold rights in Hri. rewrite (finished_claims _ Hf) in Hri.
    rewrite Hg, app_nil_r in Hv. cbn in Hri, Hv.
    destruct (cell (shared y)) as [x|] eqn:Hc; cbn in Hri, Hv; case_decide; try lia.
    + left. apply Permutation_singleton_r in Hv. by injection Hv as -> _.
    + right. split; [naive_solver|]. apply Permutation_singleton_r in Hv.
      by apply finished_value.
Qed.
End Values.

(** ** Waiting ends *)

Section Liveness.
Context {T : Type} (f : T -> bool) (v : T).
Implicit Types (p : Producer (T:=T)) (c : Consumer (T:=T)) (y : System (T:=T))
  (l : Label (T:=T)).

(** The labels of a step of a thread. *)
Definition works l : bool :=
  match l with LProducer | LConsumer _ => true | _ => false end.
Definition is_call l : bool := match l with LCall _ => true | _ => false end.

Definition can_work y : Prop := exists l y', works l = true /\ op_step y l y'.

Lemma producer_works y x : publish_step (producer y) (shared y) = Some x -> can_work y.
Proof. destruct x as [[p s] e]. intros Hs. exists LProducer. eexists. split; [done|by constructor]. Qed.
Lemma consumer_works y i c x :
  consumers y !! i = Some c -> consumer_step i (clock y) c (shared y) = Some x -> can_work y.
Proof.
  destruct x as [c' s]. intros Hc Hs. exists (LConsumer i). eexists. split; [done|].
  by econstructor.
Qed.

(** Whoever holds the mutex moves. *)
Lemma holder_works y h : op_inv f v y -> lock (shared y) = Some h -> can_work y.
Proof.
  intros Hi Hl. destruct h as [|i].
  - apply (inv_producer_lock _ _ _ Hi) in Hl. pose proof (inv_cell _ _ _ Hi) as Hc.
    destruct (publish_step (producer y) (shared y)) eqn:Hs; [by eapply producer_works|].
    destruct (producer y); try done. cbn in *. by destruct (cell (shared y)).
  - apply (inv_consumer_lock _ _ _ Hi) in Hl as (c & Hc & Hl).
    destruct (consumer_step i (clock y) c (shared y)) eqn:Hs; [by eapply consumer_works|].
    destruct c; try done; cbn in Hs; unfold compare_exchange in Hs; by case_decide.
Qed.

(** No deadlock: a consumer that has not returned is parked for a time, or some thread moves. *)
Lemma consumer_progress y i c :
  op_inv f v y -> consumers y !! i = Some c ->
  finished c = true \/ (exists d u, c = Parked d u /\ clock y < u) \/ can_work y.
Proof.
  intros Hi Hc. destruct (consumer_step i (clock y) c (shared y)) eqn:Hs;
    [right; right; by eapply consumer_works|].
  destruct (lock (shared y)) as [h|] eqn:Hl; [right; right; by eapply holder_works|].
  destruct c; try (by left); cbn in Hs; unfold compare_exchange, acquire in Hs; rewrite ?Hl in Hs;
    try case_decide; try done.
  case_match; [done|]. bool_split. right; left. eauto.
Qed.

(** A wait whose end is open. *)
Definition unresolved (d : Z) c : bool :=
  match c with
  | WaitLock d' | WaitSwap d' | WaitClock d' | WaitAbandon d' | WaitRemaining d' | WaitPark d' _
  | Parked d' _ => d' =? d
  | _ => false
  end.

(** With no other consumer the operation is not abandoned and not taken meanwhile. *)
Lemma unresolved_word y c d :
  op_inv f v y -> consumers y = [c] -> unresolved d c = true ->
  state (shared y) = PRODUCING \/ state (shared y) = READY.
Proof.
  intros [Hw _ Hr _ _ _ _ _ Hg _ Hab Hv] Hc Hu. unfold rights, values in *. rewrite Hc in *.
  assert (Hcl : claims c = 0%nat /\ c_value c = [] /\ withdrew c = false) by by destruct c.
  destruct Hcl as (Hcl & Hcv & Hwd). cbn in Hr, Hv. rewrite Hcl in Hr. rewrite Hcv in Hv.
  assert (Hna : abandoned (state (shared y)) = true -> False).
  { intros Ha%Hab. apply Exists_cons in Ha as [?|Ha]; [congruence|]. by inversion Ha. }
  destruct (state (shared y)) eqn:Hst; auto; try (by destruct (Hna eq_refl)).
  destruct (producer y) as [| | | | | | | | | | | |[]|[]|]; cbn in Hw; try done;
    try (by destruct Hw); cbn in *; rewrite Hg in Hv;
    destruct (cell (shared y)); cbn in *; try done; by apply Permutation_nil_cons in Hv.
Qed.

(** The wait of the only consumer, with what it has come to. *)
Definition outcome (r : option T) y : Prop :=
  r = Some v /\ state (shared y) = TAKEN \/
  r = None /\ abandoned (state (shared y)) = true /\ cancelled (shared y) = true.
Definition waits (d : Z) c y : Prop :=
  consumers y = [c] /\ d <= clock y /\
  match c with
  | WaitCell => state (shared y) = TAKEN
  | WaitCancel => abandoned (state (shared y)) = true
  | WaitUnlock r | Took r => outcome r y
  | _ => unresolved d c = true
  end.

Definition p_rank p : nat :=
  match p with
  | PubLock _ => 12 | PubWrite _ => 11 | PubUnlock => 10 | PubSwap => 9 | PubNotify => 1
  | LateStore => 8 | LateLock => 7 | LateTake => 6 | LateUnlock _ => 5 | LateReaper _ => 4
  | LateReap _ _ => 3 | LateFinish _ => 2 | LateNotify _ => 1 | PubDone _ | PubPanic => 0
  end.
Definition c_rank (w : OpState) c : nat :=
  match c with
  | WaitRemaining _ => 9 | WaitPark _ _ => 8 | Parked _ _ => 7 | WaitLock _ => 6
  | WaitSwap _ => if decide (w = READY) then 3 else 5
  | WaitClock _ => if decide (w = READY) then 5 else 4
  | WaitAbandon _ => if decide (w = READY) then 4 else 3
  | WaitCell | WaitCancel => 2 | WaitUnlock _ => 1 | _ => 0
  end.
Definition wait_rank c y : nat := (2 * p_rank (producer y) + c_rank (state (shared y)) c)%nat.

(** A step of the wait itself. *)
Lemma waits_consumer d c y c' s :
  op_inv f v y -> waits d c y -> consumer_step 0 (clock y) c (shared y) = Some (c', s) ->
  waits d c' (with_consumer 0 c' s y) /\ (wait_rank c' (with_consumer 0 c' s y) < wait_rank c y)%nat.
Proof.
  intros Hi (Hc & Hd & Hw) Hs. unfold waits, wait_rank, outcome in *. cbn. rewrite Hc. cbn.
  assert (Hword : unresolved d c = true -> state (shared y) = PRODUCING \/ state (shared y) = READY)
    by (intros; by eapply unresolved_word).
  assert (Hcell : c = WaitCell -> cell (shared y) = Some v).
  { intros ->. destruct (claim_cell f v y 0 WaitCell Hi) as (_ & x & Hx); [by rewrite Hc|done|].
    rewrite Hx. pose proof (inv_values _ _ _ Hi) as Hv. unfold values in Hv. rewrite Hx in Hv.
    f_equal. apply list_elem_of_singleton. rewrite <- Hv, !elem_of_app. right; left.
    by apply list_elem_of_here. }
  clear Hi Hc. destruct c; try done; cbn [consumer_step unresolved] in *;
    repeat match type of Hs with
    | context [compare_exchange ?a ?b ?x] =>
        destruct (compare_exchange_cases a b x) as [[Hst Hx]|[Hst Hx]];
        rewrite Hx in Hs; clear Hx; cbn in Hs
    | context [acquire ?a ?b] => unfold acquire in Hs; destruct (lock b); cbn in Hs; [done|]
    | context [if ?b then _ else _] => destruct b eqn:?
    end; try done; simplify_eq/=; bool_split; subst; try (specialize (Hword ltac:(lia)));
    rewrite ?Z.eqb_refl; split_and!; try done; try lia; try (by rewrite Hcell; auto); auto;
    try (repeat case_decide; lia || tauto).
Qed.

Lemma waits_producer d c y p s e :
  op_inv f v y -> waits d c y -> publish_step (producer y) (shared y) = Some (p, s, e) ->
  exists c', let y' := {| shared := s; clock := clock y; producer := p;
         consumers := if notifies e then wake <$> consumers y else consumers y;
         given := given y ++ reaps e |} in
  waits d c' y' /\ (wait_rank c' y' < wait_rank c y)%nat.
Proof.
  intros Hi (Hc & Hd & Hw) Hs.
  assert (Hword : unresolved d c = true -> state (shared y) = PRODUCING \/ state (shared y) = READY)
    by (intros; by eapply unresolved_word).
  destruct (publish_advanced f v y p s e Hi Hs) as [_ _ _ _ _ _ _ _ Hab Hca _ _ _].
  assert (Hpw := inv_word _ _ _ Hi).
  assert (Hrank : (p_rank p < p_rank (producer y))%nat /\
    (state s = state (shared y) \/ state (shared y) <> READY /\ state (shared y) <> TAKEN)).
  { clear -Hs Hpw. destruct (producer y) as [| | | | | | | | | | | |[]|[]|]; cbn in *; try done;
      unfold acquire, compare_exchange in Hs;
      repeat (case_match || case_decide); simplify_eq/=; (split; [lia|]);
      first [ by left | right; rewrite ?Hpw; by destruct Hpw as [Hpw|Hpw]; rewrite ?Hpw
            | right; by rewrite ?Hpw | by right; destruct (state (shared y)) ]. }
  destruct Hrank as [Hrank Hst]. exists (if notifies e then wake c else c).
  unfold waits, wait_rank, outcome. cbn. rewrite Hc, Hab, Hca.
  assert (Hcr : forall b : bool, (c_rank (state s) (if b then wake c else c) <=
    c_rank (state (shared y)) c + 1)%nat) by
    (intros b; destruct Hst as [->|[Hst _]], b, c; cbn; rewrite ?(decide_False Hst);
      repeat case_decide; lia || done).
  specialize (Hcr (notifies e)).
  split_and!; [by destruct (notifies e)|done| |lia].
  destruct c, (notifies e); cbn in *; try done; unfold outcome in *;
    destruct Hst as [->|[? ?]]; naive_solver.
Qed.

(** What a step leaves of the wait, and how many steps of threads are left. *)
Lemma waits_step d c y l y' :
  op_inv f v y -> waits d c y -> op_step y l y' -> is_call l = false ->
  exists c', waits d c' y' /\
    (wait_rank c' y' + (if works l then 1 else 0) <= wait_rank c y)%nat.
Proof.
  intros Hi Hw Hs Hl. destruct Hs as [p s e Hs|i c1 c' s Hc Hs|i c1 Hc| |t Ht]; cbn [works]; try done.
  - destruct (waits_producer _ _ _ _ _ _ Hi Hw Hs) as (c' & Hw' & Hr). exists c'.
    split; [done|]. cbn in *. lia.
  - destruct Hw as (Hcs & Hw). rewrite Hcs in Hc.
    apply list_lookup_singleton_Some in Hc as [-> <-].
    destruct (waits_consumer d c y c' s Hi (conj Hcs Hw) Hs) as [Hw' Hr].
    exists c'. unfold with_consumer in *. split; [done|lia].
  - destruct Hw as (Hcs & Hd & Hw). rewrite Hcs in Hc.
    apply list_lookup_singleton_Some in Hc as [-> <-]. exists (wake c). split.
    + split_and!; [cbn; by rewrite Hcs|done|]. by destruct c.
    + unfold wait_rank. cbn. destruct c; cbn; lia.
  - exists c. destruct Hw as (Hcs & Hd & Hw). split; [|unfold wait_rank; cbn; lia].
    split_and!; [done|cbn; lia|done].
Qed.

Lemma waits_run d c y ls y' :
  op_inv f v y -> waits d c y -> op_run y ls y' -> Forall (fun l => is_call l = false) ls ->
  exists c', waits d c' y' /\
    (wait_rank c' y' + length (List.filter works ls) <= wait_rank c y)%nat.
Proof.
  intros Hi Hw Hr. revert c Hi Hw. induction Hr as [y|y l y1 ls y2 Hs Hr IH]; intros c Hi Hw Hl.
  { exists c. split; [done|]. cbn. lia. }
  inversion_clear Hl. destruct (waits_step _ _ _ _ _ Hi Hw Hs) as (c1 & Hw1 & Hr1); [done|].
  destruct (IH c1) as (c2 & Hw2 & Hr2); [by eapply inv_step|done|done|].
  exists c2. split; [done|]. cbn. destruct (works l); cbn in *; lia.
Qed.

(** A wait for an operation that nobody else consumes ends once its deadline has passed,
    however the threads are scheduled: from then on at most 33 steps of threads are possible;
    until it has returned some thread can move, or its own time-out is still to come; and what
    it returns is the value, or nothing from an operation that is abandoned and cancelled. *)
Theorem wait_returns now ls y c d ls' y' :
  op_run (new f v now) ls y -> consumers y = [c] -> unresolved d c = true -> d <= clock y ->
  op_run y ls' y' -> Forall (fun l => is_call l = false) ls' ->
  (length (List.filter works ls') <= 33)%nat /\
  ((exists r, consumers y' = [Took r] /\
      (r = Some v /\ state (shared y') = TAKEN \/
       r = None /\ abandoned (state (shared y')) = true /\ cancelled (shared y') = true)) \/
   can_work y' \/
   exists u, consumers y' = [Parked d u] /\ clock y' < u).
Proof.
  intros Hr Hc Hu Hd Hr' Hl.
  pose proof (inv_run f v _ _ _ (inv_new f v now) Hr) as Hi.
  assert (Hw : waits d c y) by (split_and!; [done|done|by destruct c]).
  destruct (waits_run _ _ _ _ _ Hi Hw Hr' Hl) as (c' & (Hc' & Hd' & Hw') & Hrank).
  pose proof (inv_run f v _ _ _ Hi Hr') as Hi'. split.
  - assert (wait_rank c y <= 33)%nat; [|lia].
    assert (p_rank (producer y) <= 12)%nat by (destruct (producer y); cbn; lia).
    assert (c_rank (state (shared y)) c <= 9)%nat
      by (destruct c; cbn; repeat case_decide; lia). unfold wait_rank. lia.
  - destruct (consumer_progress y' 0 c' Hi') as [Hf|[(d' & u & -> & Hlt)|?]]; auto.
    + by rewrite Hc'.
    + left. destruct c'; try done. by exists r.
    + right; right. cbn in Hw'. bool_split. subst. eauto.
Qed.

(** The condition variable is notified without its mutex, and the word changes without it, so
    a consumer that has looked at the word and is about to park misses both: the value is
    there and the producer gone, and no thread moves until the deadline. *)
Theorem wake_lost :
  exists ls y, op_run (new f v 0) ls y /\ producer y = PubDone Published /\
    state (shared y) = READY /\ cell (shared y) = Some v /\
    consumers y = [Parked 1000 1000] /\ clock y = 0 /\ ~ can_work y.
Proof.
  exists ([LProducer; LProducer; LProducer; LCall (WaitLock 1000); LConsumer 0; LConsumer 0;
    LProducer; LProducer; LConsumer 0; LConsumer 0; LConsumer 0]).
  exists {| shared := mkShared READY None (Some v) (Some f) false; clock := 0;
            producer := PubDone Published; consumers := [Parked 1000 1000]; given := [] |}.
  split; [apply op_execs_run; reflexivity|]. do 5 (split; [reflexivity|]).
  intros (l & y' & Hl & Hs). inversion Hs; subst; try done.
  match goal with Hc : _ !! _ = Some _ |- _ => cbn in Hc;
    apply list_lookup_singleton_Some in Hc as [-> <-] end. done.
Qed.

(** A consumer past its deadline that finds the operation abandoned or taken by another one
    turns around for ever, with the mutex. *)
Definition spins (d : Z) c : bool :=
  match c with WaitSwap d' | WaitClock d' | WaitAbandon d' => d' =? d | _ => false end.
Definition settled (w : OpState) : Prop := abandoned w = true \/ w = TAKEN.
Definition spinning (d : Z) (i : nat) y : Prop :=
  d <= clock y /\ settled (state (shared y)) /\
  exists c, consumers y !! i = Some c /\ spins d c = true.

Lemma settled_step i now c c' s s' :
  settled (state s) -> consumer_step i now c s = Some (c', s') ->
  state s' = state s /\ forall d, d <= now -> spins d c = true -> spins d c' = true.
Proof.
  intros Hw Hs. assert (Hne : state s <> READY /\ state s <> PRODUCING).
  { destruct Hw as [Hw|Hw]; split; intros He; by rewrite He in Hw. }
  destruct Hne as [Hr Hp]. destruct c; cbn [consumer_step] in Hs; try done;
    repeat match type of Hs with
    | context [compare_exchange ?a ?b ?x] =>
        destruct (compare_exchange_cases a b x) as [[? Hx]|[? Hx]];
        rewrite Hx in Hs; clear Hx; cbn in Hs
    | context [acquire ?a ?b] => unfold acquire in Hs; destruct (lock b); cbn in Hs; [done|]
    | context [if ?b then _ else _] => destruct b eqn:?
    end; simplify_eq/=; split; try done.
  intros d ? ?. bool_split. lia.
Qed.

Theorem wait_spins d i y ls y' :
  op_inv f v y -> spinning d i y -> op_run y ls y' -> spinning d i y'.
Proof.
  intros Hi Hsp Hr. induction Hr as [|y l y1 ls y2 Hs _ IH]; [done|].
  apply IH; [by eapply inv_step|]. clear IH. destruct Hsp as (Hd & Hw & c & Hc & Hsp).
  destruct Hs as [p s e Hs|j c1 c' s Hc1 Hs|j c1 Hc1|c1 Hc1|t Ht].
  - destruct (publish_advanced f v y p s e Hi Hs) as [_ _ _ _ _ _ _ _ Hab _ _ _ _].
    split_and!; [done| |].
    + unfold settled. cbn. rewrite Hab. destruct Hw as [?|Hw]; [by left|]. right.
      pose proof (inv_word _ _ _ Hi) as Hpw. rewrite Hw in Hpw.
      destruct (producer y) as [| | | | | | | | | | | |[]|[]|]; cbn in Hs, Hpw; try done;
        try (by destruct Hpw). by injection Hs as _ <- _.
    + exists (if notifies e then wake c else c). split; [|by destruct (notifies e), c].
      cbn. destruct (notifies e); [|done]. by rewrite list_lookup_fmap, Hc.
  - destruct (settled_step _ _ _ _ _ _ Hw Hs) as [Hst Hk]. split_and!; cbn; [done|by rewrite Hst|].
    destruct (decide (j = i)) as [->|Hj].
    + rewrite Hc in Hc1. injection Hc1 as <-. exists c'.
      rewrite list_lookup_insert_eq by by eapply lookup_lt_Some. auto.
    + exists c. by rewrite list_lookup_insert_ne.
  - split_and!; [done|done|]. destruct (decide (j = i)) as [->|Hj]; cbn.
    + rewrite Hc in Hc1. injection Hc1 as <-. exists c.
      rewrite list_lookup_insert_eq by by eapply lookup_lt_Some. by destruct c.
    + exists c. by rewrite list_lookup_insert_ne.
  - split_and!; [done|done|]. exists c. split; [|done]. by apply lookup_app_l_Some.
  - split_and!; [cbn; lia|done|]. by exists c.
Qed.
End Liveness.

(** ** Concrete runs *)

(** A result published before the deadline and taken by a wait that was parked. *)
Definition ex_taken_run : list (Label (T:=Z)) :=
  [LCall (WaitLock 1000); LConsumer 0; LConsumer 0; LConsumer 0; LConsumer 0; LConsumer 0]
  ++ repeat LProducer 5 ++ [LTime 1000] ++ repeat (LConsumer 0) 4.
(** A result that comes after the deadline, and the reaper fails on it. *)
Definition ex_late_run : list (Label (T:=Z)) :=
  [LTime 1000; LCall (WaitLock 1000)] ++ repeat (LConsumer 0) 6 ++ repeat LProducer 12.

Definition ex_reaper (x : Z) : bool := x =? 0.
Definition ex_system (ls : list (Label (T:=Z))) : System (T:=Z) :=
  match op_execs ls (new ex_reaper 7 0) with Some y => y | None => new ex_reaper 7 0 end.

Lemma op_exactly_once_witness :
  consumers (ex_system ex_taken_run) = [Took (Some 7)] /\
  producer (ex_system ex_late_run) = PubDone PublishCleanupFailed /\
  (given (ex_system ex_late_run) = [7] /\ ex_reaper 7 = false) /\
  given (ex_system ex_taken_run) = [].
Proof.
  split; [vm_compute; reflexivity|]. split; [vm_compute; reflexivity|]. split.
  - assert (Hr : op_run (new ex_reaper 7 0) ex_late_run (ex_system ex_late_run))
      by (apply op_execs_run; vm_compute; reflexivity).
    exact (proj2 (proj2 (op_exactly_once _ _ _ _ _ Hr))).
  - assert (Hr : op_run (new ex_reaper 7 0) ex_taken_run (ex_system ex_taken_run))
      by (apply op_execs_run; vm_compute; reflexivity).
    exact (proj1 (proj2 (proj1 (proj2 (op_exactly_once _ _ _ _ _ Hr)) 0%nat 7 eq_refl))).
Defined.

Definition ex_waiting : list (Label (T:=Z)) :=
  [LCall (WaitLock 1000); LConsumer 0; LConsumer 0; LTime 1000].
Definition ex_after : list (Label (T:=Z)) := repeat (LConsumer 0) 4 ++ repeat LProducer 12.

Lemma wait_returns_witness :
  let y := ex_system ex_waiting in
  (length (List.filter works ex_after) <= 33)%nat /\
  exists y', op_execs ex_after y = Some y' /\
    consumers y' = [Took None] /\ producer y' = PubDone PublishCleanupFailed.
Proof.
  intros y.
  assert (Hr : op_run (new ex_reaper 7 0) ex_waiting y)
    by (apply op_execs_run; vm_compute; reflexivity).
  destruct (op_execs ex_after y) as [y'|] eqn:He; [|vm_compute in He; discriminate He].
  split.
  - refine (proj1 (wait_returns ex_reaper 7 0 ex_waiting y (WaitClock 1000) 1000 ex_after y' Hr
      eq_refl eq_refl _ _ _)).
    + vm_compute. discriminate.
    + apply op_execs_run. exact He.
    + repeat constructor.
  - exists y'. split; [reflexivity|]. vm_compute in He. injection He as <-. split; reflexivity.
Defined.
