(* ===== verification/Adapter.v ===== *)
(** The platform seam of [host-runtime/src/adapter.rs]: the failures, deadlines and launch
    data that cross it, and its traits as a class of operations on a world. *)

From S2P Require Import Prelude Control.

(** ** Failures *)

(** [CleanupFailed] and [Internal] are names of other enumerations too. *)
Inductive PlatformFailureKind : Set :=
| TimedOut | Cancelled | Eof | Unavailable | Rejected | PlatformCleanupFailed
| PlatformInternal.

#[export] Instance PlatformFailureKind_eq_dec : EqDecision PlatformFailureKind.
Proof. solve_decision. Defined.

Record PlatformFailure : Set := mkPlatformFailure {
  pf_kind : PlatformFailureKind;
  primary_kind : PlatformFailureKind
}.

#[export] Instance PlatformFailure_eq_dec : EqDecision PlatformFailure.
Proof. solve_decision. Defined.

Definition PlatformFailure_new (kind : PlatformFailureKind) : PlatformFailure :=
  {| pf_kind := kind; primary_kind := kind |}.
Definition cleanup_failed_after (primary : PlatformFailureKind) : PlatformFailure :=
  {| pf_kind := PlatformCleanupFailed; primary_kind := primary |}.
Definition pf_cleanup_failed (f : PlatformFailure) : bool :=
  bool_decide (pf_kind f = PlatformCleanupFailed).

Abbreviation PRes := (result PlatformFailure).

Definition pf_rejected : PlatformFailure := PlatformFailure_new Rejected.

(** ** Deadlines *)

Record AbsoluteDeadline : Set := mkDeadline { dl_value : Z }.

Definition AbsoluteDeadline_new (value : Z) : PRes AbsoluteDeadline :=
  check negb (value =? 0) else pf_rejected in Ok {| dl_value := value |}.

(** ** What a launch is given *)

Record TargetSelection := mkSelection {
  ts_platform : Platform;
  ts_device_selector : bytes;
  ts_app_id : bytes;
  ts_artifact_path : bytes;
  ts_artifact_digest : bytes
}.

Definition TargetSelection_new (platform : Platform) (device_selector app_id artifact_path
    artifact_digest : bytes) : PRes TargetSelection :=
  check negb (is_empty device_selector || is_empty app_id || is_empty artifact_path)
    else pf_rejected in
  Ok (mkSelection platform device_selector app_id artifact_path artifact_digest).

(** [LaunchEndpoint] with its private [LaunchEndpointKind]. *)
Inductive LaunchEndpoint : Type := IosLoopback (port : Z) | AndroidLocalAbstract (name : bytes).

Definition ios_loopback (port : Z) : PRes LaunchEndpoint :=
  check (49152 <=? port) && (port <=? 65535) else pf_rejected in Ok (IosLoopback port).
Definition android_local_abstract (name : bytes) : PRes LaunchEndpoint :=
  check (32 <=? len name) && (len name <=? 96) else pf_rejected in
  Ok (AndroidLocalAbstract name).

Definition ios_port (e : LaunchEndpoint) : option Z :=
  match e with IosLoopback port => Some port | AndroidLocalAbstract _ => None end.
Definition android_name (e : LaunchEndpoint) : option bytes :=
  match e with IosLoopback _ => None | AndroidLocalAbstract name => Some name end.

(** [PublicLaunchDescriptor] holds its bytes. *)
Definition from_d2_canonical_bytes (canonical_bytes : bytes) : PRes bytes :=
  check negb (is_empty canonical_bytes) else pf_rejected in Ok canonical_bytes.

(** ** The traits

    [RawDuplex], [RawConnector] and [CleanupReceipt], with the system clock, as operations on
    a world [W] of which nothing is assumed: every call may change it and its answer may
    depend on it in any way.  A read is given the buffer and leaves it with its bytes
    overwritten, so that its length stays ([raw_read_len]); [system_ms] is the time since the
    Unix epoch, if it is past. *)
Class PlatformIo (W : Type) := {
  RawDuplex : Type;
  RawConnector : Type;
  CleanupReceipt : Type;
  Cancellation : Type;
  raw_read : RawDuplex -> bytes -> AbsoluteDeadline -> W -> (PRes Z * bytes) * W;
  raw_write : RawDuplex -> bytes -> AbsoluteDeadline -> W -> PRes Z * W;
  raw_cancel : RawDuplex -> W -> W;
  raw_connect : RawConnector -> Cancellation -> AbsoluteDeadline -> W -> PRes RawDuplex * W;
  raw_cleanup : CleanupReceipt -> Cancellation -> AbsoluteDeadline -> W -> PRes unit * W;
  Cancellation_new : W -> Cancellation * W;
  system_ms : W -> option Z * W;
  raw_read_len : forall r b d w, len (snd (fst (raw_read r b d w))) = len b;
  raw_read_usize : forall r b d w n, fst (fst (raw_read r b d w)) = Ok n -> 0 <= n;
  raw_write_usize : forall r b d w n, fst (raw_write r b d w) = Ok n -> 0 <= n;
  system_ms_unsigned : forall w n, fst (system_ms w) = Some n -> 0 <= n
}.

(** [LaunchedTargetIo] with its constructor and [into_parts]. *)
Record LaunchedTargetIo `{PlatformIo W} := mkLaunched {
  lt_bootstrap : RawDuplex;
  lt_connector : RawConnector;
  lt_cleanup : CleanupReceipt
}.
