(* ===== verification/RawTransport.v ===== *)
(** The broker's side of a raw stream ([host-runtime/src/raw_transport.rs]): the incremental
    frame reader with its deadlines, and the bootstrap, session and lease exchanges that run
    the transport core over it. *)

From S2P Require Import Prelude Errors Crates Outer Records Payloads Reassembly NoiseIO Lease Bootstrap Session Control Adapter.

Definition SESSION_TOTAL_MS : Z := 4000.
Definition SESSION_CONNECT_MS : Z := 1000.
Definition SESSION_HANDSHAKE_MS : Z := 1000.
Definition SESSION_OPEN_RESPONSE_MS : Z := 2000.
Definition INCOMPLETE_OUTER_MS : Z := 2000.
Definition CLEANUP_MS : Z := 2000.

(** ** Failures *)

Record TransportFailure : Set := mkFailure {
  tf_close_reason : CloseReason;
  tf_handoff : HandoffState;
  tf_cleanup_failed : bool
}.

#[export] Instance TransportFailure_eq_dec : EqDecision TransportFailure.
Proof. solve_decision. Defined.

Definition TransportFailure_new (reason : CloseReason) : TransportFailure :=
  mkFailure reason NotHandedOff false.
Definition TransportFailure_cleanup_failed (reason : CloseReason) : TransportFailure :=
  mkFailure reason NotHandedOff true.
Definition with_handoff (handoff : HandoffState) (f : TransportFailure) : TransportFailure :=
  mkFailure (tf_close_reason f)
    match tf_handoff f, handoff with
    | HandoffPossibleOrConfirmed, _ | _, HandoffPossibleOrConfirmed =>
        HandoffPossibleOrConfirmed
    | _, _ => NotHandedOff
    end (tf_cleanup_failed f).
Definition with_cleanup_failed (f : TransportFailure) : TransportFailure :=
  mkFailure (tf_close_reason f) (tf_handoff f) true.

Abbreviation TRes := (result TransportFailure).

Definition platform_failure (failure : PlatformFailure) : TransportFailure :=
  let reason := match pf_kind failure with
    | TimedOut | Cancelled => Timeout
    | Eof => PeerClosed
    | Rejected => BindingMismatch
    | PlatformCleanupFailed => CleanupFailed
    | Unavailable | PlatformInternal => InternalError
    end in
  if bool_decide (pf_kind failure = PlatformCleanupFailed)
  then TransportFailure_cleanup_failed reason
  else TransportFailure_new reason.

Definition core_failure (error : Error) : TransportFailure :=
  with_handoff (match peer_close error with Some (_, h) => h | None => NotHandedOff end)
    (TransportFailure_new (reason error)).

(** ** Deadlines *)

Definition deadline_expired_at (now deadline : Z) : bool := deadline <=? now.

(** [u64::saturating_add]. *)
Definition saturating_add (a b : Z) : Z := Z.min (a + b) U64_MAX.

Definition phase_deadline_value (command started budget_ms : Z) : Z :=
  let budget_deadline := saturating_add started budget_ms in
  if command <? budget_deadline then command else budget_deadline.

Definition phase_deadline (command : AbsoluteDeadline) (started budget_ms : Z)
    : TRes AbsoluteDeadline :=
  res_map_err platform_failure
    (AbsoluteDeadline_new (phase_deadline_value (dl_value command) started budget_ms)).

Definition ensure_deadline_at (now : Z) (deadline : AbsoluteDeadline) : TRes unit :=
  if deadline_expired_at now (dl_value deadline) then Err (TransportFailure_new Timeout)
  else Ok tt.

(** ** The reader *)

Record OuterProgress := mkProgress {
  op_header : bytes;
  op_expected : option Z;
  op_payload_len : Z
}.

Definition OuterProgress_default : OuterProgress := mkProgress [] None 0.

Definition op_is_incomplete (p : OuterProgress) : bool :=
  negb (is_empty (op_header p)) || is_Some_b (op_expected p).

(** One turn of the [for] of [OuterProgress::push]. *)
Definition op_push_byte (p : OuterProgress) (b : byte) : OuterProgress :=
  match op_expected p with
  | None =>
      let header := op_header p ++ [b] in
      if len header =? 2
      then mkProgress [] (Some (be_decode (take 2 header))) 0
      else mkProgress header None (op_payload_len p)
  | Some expected =>
      let payload_len := op_payload_len p + 1 in
      if payload_len =? expected then mkProgress (op_header p) None 0
      else mkProgress (op_header p) (Some expected) payload_len
  end.
Definition op_push (input : bytes) (p : OuterProgress) : OuterProgress :=
  foldl op_push_byte p input.

Record RawFrameReader := mkReader {
  rd_decoder : OuterFrameDecoder;
  ready_frames : list bytes;
  outer_progress : OuterProgress;
  incomplete_deadline : option AbsoluteDeadline;
  terminal : option TransportFailure
}.

Definition RawFrameReader_new : RawFrameReader :=
  mkReader OuterFrameDecoder_new [] OuterProgress_default None None.

Definition rd_set_decoder (d : OuterFrameDecoder) (r : RawFrameReader) : RawFrameReader :=
  mkReader d (ready_frames r) (outer_progress r) (incomplete_deadline r) (terminal r).
Definition rd_set_ready (l : list bytes) (r : RawFrameReader) : RawFrameReader :=
  mkReader (rd_decoder r) l (outer_progress r) (incomplete_deadline r) (terminal r).
Definition rd_set_progress (p : OuterProgress) (r : RawFrameReader) : RawFrameReader :=
  mkReader (rd_decoder r) (ready_frames r) p (incomplete_deadline r) (terminal r).
Definition rd_set_incomplete (d : option AbsoluteDeadline) (r : RawFrameReader) : RawFrameReader :=
  mkReader (rd_decoder r) (ready_frames r) (outer_progress r) d (terminal r).
Definition rd_set_terminal (f : TransportFailure) (r : RawFrameReader) : RawFrameReader :=
  mkReader (rd_decoder r) (ready_frames r) (outer_progress r) (incomplete_deadline r) (Some f).

(** ** The world, with a record of the calls made to it

    [log] is a history: no definition reads it. *)

Section Io.
Context `{PlatformIo W}.

Inductive Event : Type :=
| EvTime (ms : option Z)
| EvRead (raw : RawDuplex) (deadline : AbsoluteDeadline) (answer : PRes bytes)
| EvWrite (raw : RawDuplex) (input : bytes) (deadline : AbsoluteDeadline) (answer : PRes Z)
| EvCancel (raw : RawDuplex)
| EvConnect (connector : RawConnector) (deadline : AbsoluteDeadline) (answer : PRes RawDuplex)
| EvCleanup (receipt : CleanupReceipt) (deadline : AbsoluteDeadline) (answer : PRes unit).

Record Io := mkIo { world : W; log : list Event }.

Definition io_event (e : Event) (w : W) (s : Io) : Io := mkIo w (log s ++ [e]).

Definition IO := M Io TransportFailure.

Definition now_unix_ms : IO Z := fun s =>
  let '(o, w) := system_ms (world s) in
  let s' := io_event (EvTime o) w s in
  match o with
  | Some ms => if ms <=? U64_MAX then (Ok ms, s')
               else (Err (TransportFailure_new InternalError), s')
  | None => (Err (TransportFailure_new InternalError), s')
  end.

Definition ensure_deadline (deadline : AbsoluteDeadline) : IO unit :=
  do now <- now_unix_ms; lift (ensure_deadline_at now deadline).

Definition cleanup_deadline : IO AbsoluteDeadline :=
  do now <- now_unix_ms;
  lift (res_map_err platform_failure (AbsoluteDeadline_new (saturating_add now CLEANUP_MS))).

(** [raw.read(&mut chunk, deadline)]: the number of bytes, and the buffer. *)
Definition io_read (raw : RawDuplex) (chunk : bytes) (deadline : AbsoluteDeadline)
    : M Io PlatformFailure (Z * bytes) := fun s =>
  let '(r, chunk', w) := raw_read raw chunk deadline (world s) in
  match r with
  | Ok n => (Ok (n, chunk'),
             io_event (EvRead raw deadline (Ok (take (Z.to_nat n) chunk'))) w s)
  | Err e => (Err e, io_event (EvRead raw deadline (Err e)) w s)
  end.

Definition io_write (raw : RawDuplex) (input : bytes) (deadline : AbsoluteDeadline) : IO Z :=
  fun s => let '(r, w) := raw_write raw input deadline (world s) in
           (res_map_err platform_failure r, io_event (EvWrite raw input deadline r) w s).

Definition io_cancel (raw : RawDuplex) (s : Io) : Io :=
  io_event (EvCancel raw) (raw_cancel raw (world s)) s.

Definition io_connect (connector : RawConnector) (cancellation : Cancellation)
    (deadline : AbsoluteDeadline) : IO RawDuplex := fun s =>
  let '(r, w) := raw_connect connector cancellation deadline (world s) in
  (res_map_err platform_failure r, io_event (EvConnect connector deadline r) w s).

Definition io_cleanup (receipt : CleanupReceipt) (cancellation : Cancellation)
    (deadline : AbsoluteDeadline) : IO unit := fun s =>
  let '(r, w) := raw_cleanup receipt cancellation deadline (world s) in
  (res_map_err platform_failure r, io_event (EvCleanup receipt deadline r) w s).

Definition io_cancellation (s : Io) : Cancellation * Io :=
  let '(c, w) := Cancellation_new (world s) in (c, mkIo w (log s)).

(** One turn of the [while] of [write_all]. *)
Definition write_turn (raw : RawDuplex) (deadline : AbsoluteDeadline)
    : M (bytes * Io) TransportFailure (option unit) := fun '(b, s) =>
  if is_empty b then (Ok (Some tt), (b, s))
  else
    match (run ensure_deadline deadline; io_write raw b deadline) s with
    | (Ok written, s') =>
        if (written =? 0) || (len b <? written)
        then (Err (TransportFailure_new PeerClosed), (b, s'))
        else (Ok None, (drop (Z.to_nat written) b, s'))
    | (Err e, s') => (Err e, (b, s'))
    end.

(** A turn that goes on takes at least one byte of what is left ([write_all_ends]). *)
Definition write_all (raw : RawDuplex) (b : bytes) (deadline : AbsoluteDeadline) : IO unit :=
  fun s =>
    let '(r, (_, s')) := loop_ (Pos.of_succ_nat (length b)) (TransportFailure_new InternalError)
                           (write_turn raw deadline) (b, s) in (r, s').

Fixpoint write_frames (raw : RawDuplex) (frames : list bytes) (deadline : AbsoluteDeadline)
    : IO unit :=
  match frames with
  | [] => ret tt
  | f :: fs => run write_all raw f deadline; write_frames raw fs deadline
  end.

Definition return_after_reserved_close (raw : RawDuplex) (failure : TransportFailure)
    (close_frame : option bytes) (deadline : AbsoluteDeadline) (s : Io)
    : TransportFailure * Io :=
  match close_frame with
  | Some frame => (failure, snd (write_all raw frame deadline s))
  | None => (failure, s)
  end.

Definition c1_failure_after_close (raw : RawDuplex) (error : Error)
    (deadline : AbsoluteDeadline) (s : Io) : TransportFailure * Io :=
  return_after_reserved_close raw (core_failure error) (fst (take_close_frame error)) deadline s.

(** [.map_err(|error| c1_failure_after_close(raw, error, deadline))?] on a value. *)
Definition or_c1 {A} (raw : RawDuplex) (deadline : AbsoluteDeadline) (r : Res A) : IO A :=
  fun s => match r with
           | Ok a => (Ok a, s)
           | Err e => let '(f, s') := c1_failure_after_close raw e deadline s in (Err f, s')
           end.
End Io.

(** ** Reading *)

Definition RM := M RawFrameReader TransportFailure.

Definition ensure_not_terminal : RM unit := fun rd =>
  match terminal rd with Some f => (Err f, rd) | None => (Ok tt, rd) end.

Definition terminate (failure : TransportFailure) (rd : RawFrameReader)
    : TransportFailure * RawFrameReader := (failure, rd_set_terminal failure rd).

(** [r.map_err(core_failure).err()]. *)
Definition core_err {A} (r : Res A) : option TransportFailure :=
  match r with Ok _ => None | Err e => Some (core_failure e) end.

Definition read_deadline (command_deadline : AbsoluteDeadline) (rd : RawFrameReader)
    : TRes AbsoluteDeadline :=
  match incomplete_deadline rd with
  | Some incomplete =>
      res_map_err platform_failure
        (AbsoluteDeadline_new (Z.min (dl_value command_deadline) (dl_value incomplete)))
  | None => Ok command_deadline
  end.

Definition track_outer_progress (input : bytes) (command_deadline : AbsoluteDeadline) (now : Z)
    : RM unit := fun rd =>
  let rd := rd_set_progress (op_push input (outer_progress rd)) rd in
  if op_is_incomplete (outer_progress rd) then
    if is_Some_b (incomplete_deadline rd) then (Ok tt, rd)
    else match phase_deadline command_deadline now INCOMPLETE_OUTER_MS with
         | Ok d => (Ok tt, rd_set_incomplete (Some d) rd)
         | Err f => (Err f, rd)
         end
  else (Ok tt, rd_set_incomplete None rd).

Definition expire_incomplete_at (now : Z) : RM unit :=
  run ensure_not_terminal;
  fun rd =>
    match incomplete_deadline rd with
    | Some deadline =>
        if deadline_expired_at now (dl_value deadline) then
          let '(r, d) := outer_timeout (rd_decoder rd) in
          let failure := default (TransportFailure_new Timeout) (core_err r) in
          (Err failure, rd_set_terminal failure (rd_set_decoder d rd))
        else (Ok tt, rd)
    | None => (Ok tt, rd)
    end.

Section Reading.
Context `{PlatformIo W}.

(** A reader at a stream, with [C], the core that is at the other end of the caller. *)
Record Conn {C : Type} := mkConn { reader : RawFrameReader; core_of : C; io : Io }.
Arguments Conn : clear implicits.
Arguments mkConn {C} reader core_of io.

Definition on_reader {C A} (m : RM A) : M (Conn C) TransportFailure A := fun s =>
  let '(r, rd) := m (reader s) in (r, mkConn rd (core_of s) (io s)).
Definition on_io {C A} (m : IO A) : M (Conn C) TransportFailure A := fun s =>
  let '(r, w) := m (io s) in (r, mkConn (reader s) (core_of s) w).
(** A call of the core, whose error is mapped by [c1_failure_after_close]. *)
Definition on_core {C A} (raw : RawDuplex) (deadline : AbsoluteDeadline) (m : M C Error A)
    : M (Conn C) TransportFailure A := fun s =>
  let '(r, c) := m (core_of s) in
  let '(r, w) := or_c1 raw deadline r (io s) in (r, mkConn (reader s) c w).

(** [return Err(self.terminate(failure))]. *)
Definition throw_terminal {C A} (failure : TransportFailure) : M (Conn C) TransportFailure A :=
  on_reader (fun rd => let '(f, rd) := terminate failure rd in (Err f, rd)).

Definition eof_from_outer {C A} : M (Conn C) TransportFailure A :=
  on_reader (fun rd =>
    let '(r, d) := outer_eof (rd_decoder rd) in
    let '(f, rd) := terminate (default (TransportFailure_new PeerClosed) (core_err r))
                      (rd_set_decoder d rd) in
    (Err f, rd)).

(** The outer envelope's error has precedence over the session's. *)
Definition eof_from_session `{Minicbor} `{Snow} {A} (raw : RawDuplex) (deadline : AbsoluteDeadline)
    : M (Conn SessionCore) TransportFailure A := fun s =>
  let '(outer, d) := outer_eof (rd_decoder (reader s)) in
  let outer_failure := core_err outer in
  let '(r, c) := s_eof (core_of s) in
  let '(session_failure, w) :=
    match r with
    | Ok _ => (None, io s)
    | Err e => let '(f, w) := c1_failure_after_close raw e deadline (io s) in (Some f, w)
    end in
  let failure :=
    default (TransportFailure_new PeerClosed)
      (match outer_failure with Some f => Some f | None => session_failure end) in
  let '(f, rd) := terminate failure (rd_set_decoder d (reader s)) in
  (Err f, mkConn rd c w).

(** The checks before a read and before a frame that is ready. *)
Definition check_deadlines {C} (deadline : AbsoluteDeadline) : M (Conn C) TransportFailure unit :=
  do current <- on_io now_unix_ms;
  run on_reader (expire_incomplete_at current);
  lift (ensure_deadline_at current deadline).

Definition pop_front {C} : M (Conn C) TransportFailure (option bytes) :=
  on_reader (fun rd => match ready_frames rd with
                       | f :: fs => (Ok (Some f), rd_set_ready fs rd)
                       | [] => (Ok None, rd)
                       end).

(** [self.decoder.push(input)] with the error of the arm. *)
Definition push_or_terminate {C} (input : bytes) : M (Conn C) TransportFailure (list bytes) :=
  on_reader (fun rd =>
    let '(r, d) := push input (rd_decoder rd) in
    let rd := rd_set_decoder d rd in
    match r with
    | Ok frames => (Ok frames, rd)
    | Err e => let '(f, rd) := terminate (core_failure e) rd in (Err f, rd)
    end).

(** The failure of a read, and of the end of the stream: [at_eof] is the one operation the two
    readers do not share. *)
Definition read_failed {C} (at_eof : M (Conn C) TransportFailure (option bytes))
    (failure : PlatformFailure) : M (Conn C) TransportFailure (option bytes) :=
  do n <- on_io now_unix_ms;
  run on_reader (expire_incomplete_at n);
  if bool_decide (pf_kind failure = Eof) then at_eof else throw (platform_failure failure).

(** What is done with the bytes of a read. *)
Definition received {C} (deadline : AbsoluteDeadline) (input : bytes)
    : M (Conn C) TransportFailure (option bytes) :=
  do frames <- push_or_terminate input;
  do n <- on_io now_unix_ms;
  run on_reader (track_outer_progress input deadline n);
  run on_reader (modify (fun rd => rd_set_ready (ready_frames rd ++ frames) rd));
  pop_front.

(** One turn of the [loop], on the buffer and the rest of the state. *)
Definition read_turn {C} (at_eof : M (Conn C) TransportFailure (option bytes)) (raw : RawDuplex)
    (deadline : AbsoluteDeadline) : M (bytes * Conn C) TransportFailure (option bytes) :=
  fun '(chunk, s) =>
    let stays (p : result TransportFailure (option bytes) * Conn C) chunk :=
      (fst p, (chunk, snd p)) in
    match (run check_deadlines deadline;
           do s <- get; lift (read_deadline deadline (reader s))) s with
    | (Err f, s1) => (Err f, (chunk, s1))
    | (Ok read_deadline, s1) =>
        let '(r, w) := io_read raw chunk read_deadline (io s1) in
        let s2 := mkConn (reader s1) (core_of s1) w in
        match r with
        | Err failure => stays (read_failed at_eof failure s2) chunk
        | Ok (read, chunk) =>
            stays (if len chunk <? read then throw_terminal (TransportFailure_new InternalError) s2
                   else if read =? 0 then at_eof s2
                   else received deadline (take (Z.to_nat read) chunk) s2) chunk
        end
    end.

(** The longest frame takes 65537 bytes, and a turn that goes on one of them
    ([read_outer_ends]). *)
Definition READ_TURNS : positive := 65538.
Definition READ_CHUNK : nat := 4096.

Definition read_outer_with {C} (at_eof : M (Conn C) TransportFailure (option bytes))
    (raw : RawDuplex) (deadline : AbsoluteDeadline) : M (Conn C) TransportFailure bytes :=
  run on_reader ensure_not_terminal;
  run check_deadlines deadline;
  do first <- pop_front;
  match first with
  | Some frame => ret frame
  | None => fun s =>
      let '(r, (_, s')) := loop_ READ_TURNS (TransportFailure_new InternalError)
        (read_turn at_eof raw deadline) (repeat (b8 0) READ_CHUNK, s) in (r, s')
  end.

Definition read_outer {C} (raw : RawDuplex) (deadline : AbsoluteDeadline)
    : M (Conn C) TransportFailure bytes := read_outer_with eof_from_outer raw deadline.

Definition read_outer_for_session `{Minicbor} `{Snow} (raw : RawDuplex)
    (deadline : AbsoluteDeadline) : M (Conn SessionCore) TransportFailure bytes :=
  read_outer_with (eof_from_session raw deadline) raw deadline.
End Reading.
Arguments Conn W {H} C : rename.
Arguments mkConn {W H C} reader core_of io : rename.

(** ** Lease and session exchanges *)

Section Exchanges.
Context `{Minicbor} `{Snow} `{PlatformIo W}.

Definition heartbeat_reply (raw : RawDuplex) (deadline : AbsoluteDeadline)
    : M (Conn W LeaseCore) TransportFailure Z :=
  do reply <- read_outer raw deadline;
  on_core raw deadline (read_heartbeat_reply reply).

Definition heartbeat (raw : RawDuplex) (counter : Z) (deadline : AbsoluteDeadline)
    : M (Conn W LeaseCore) TransportFailure unit :=
  do request <- on_core raw deadline (write_heartbeat_request counter);
  run on_io (write_all raw request deadline);
  do received <- heartbeat_reply raw deadline;
  lift (ensure (received =? counter) (TransportFailure_new SequenceViolation)).

(** One turn of the [loop] of [read_response]. *)
Definition response_turn (raw : RawDuplex) (deadline : AbsoluteDeadline)
    : M (Conn W SessionCore) TransportFailure (option bytes) :=
  do outer <- read_outer_for_session raw deadline;
  on_core raw deadline (b_read_application_response outer).

(** Every turn that goes on counts one received record ([read_response_ends]). *)
Definition RESPONSE_TURNS : positive := 4294967297.

Definition read_response (raw : RawDuplex) (deadline : AbsoluteDeadline)
    : M (Conn W SessionCore) TransportFailure bytes :=
  loop_ RESPONSE_TURNS (TransportFailure_new InternalError) (response_turn raw deadline).

(** [.map_err(|failure| failure.with_handoff(..))]. *)
Definition map_failure {S A} (f : TransportFailure -> TransportFailure)
    (m : M S TransportFailure A) : M S TransportFailure A := fun s =>
  let '(r, s') := m s in (res_map_err f r, s').

Definition exchange (raw : RawDuplex) (request : bytes) (deadline : AbsoluteDeadline)
    : M (Conn W SessionCore) TransportFailure bytes :=
  do request_frames <- on_core raw deadline (b_write_application_request request);
  run on_io (write_frames raw request_frames deadline);
  map_failure (with_handoff HandoffPossibleOrConfirmed) (read_response raw deadline).

(** [close_session] and [close_lease] differ in the core and its [write_close]. *)
Definition close_with {C} (write_close : M C Error bytes) (raw : RawDuplex)
    (handoff : HandoffState) (deadline : AbsoluteDeadline) : M (C * Io (W:=W)) TransportFailure unit :=
  fun '(c, s) =>
    let '(r, c) := write_close c in
    let '(r, s) :=
      map_failure (with_handoff handoff)
        (do frame <- or_c1 raw deadline r; write_all raw frame deadline) s in
    (r, (c, io_cancel raw s)).
Definition close_session (raw : RawDuplex) (reason : CloseReason) (handoff : HandoffState)
    (deadline : AbsoluteDeadline) : M (SessionCore * Io (W:=W)) TransportFailure unit :=
  close_with (session_write_close reason handoff) raw handoff deadline.
Definition close_lease (raw : RawDuplex) (reason : CloseReason) (handoff : HandoffState)
    (deadline : AbsoluteDeadline) : M (LeaseCore * Io (W:=W)) TransportFailure unit :=
  close_with (lease_write_close reason handoff) raw handoff deadline.

(** ** Opening a session *)

Record OpenedSession := mkOpened {
  os_raw : RawDuplex;
  os_session : SessionCore;
  os_response : bytes;
  os_handoff : HandoffState;
  os_reader : RawFrameReader
}.

(** A part of a function that owns a reader and a core. *)
Definition with_conn {C A} (rd : RawFrameReader) (c : C) (m : M (Conn W C) TransportFailure A)
    : IO (W:=W) (A * RawFrameReader * C) := fun s =>
  let '(r, s') := m (mkConn rd c s) in
  (let? a := r in Ok (a, reader s', core_of s'), io s').

(** From M1 to the first response. *)
Definition handshake_and_open (raw : RawDuplex) (m1 request : bytes)
    (overall_deadline handshake_deadline : AbsoluteDeadline)
    : M (Conn W SessionCore) TransportFailure bytes :=
  do m2 <- on_core raw handshake_deadline (b_read_m1_write_m2 m1);
  run on_io (write_all raw m2 handshake_deadline);
  do target_finished <- read_outer_for_session raw handshake_deadline;
  run on_core raw handshake_deadline (b_read_finished target_finished);
  do broker_finished <- on_core raw handshake_deadline b_write_finished;
  run on_io (write_all raw broker_finished handshake_deadline);
  do n <- on_io now_unix_ms;
  do open_deadline <- lift (phase_deadline overall_deadline n SESSION_OPEN_RESPONSE_MS);
  do open_frames <- on_core raw open_deadline (b_write_session_open request);
  run on_io (write_frames raw open_frames open_deadline);
  map_failure (with_handoff HandoffPossibleOrConfirmed) (read_response raw open_deadline).

(** The closure; [entropy] is what the session's handshake draws. *)
Definition open_on (raw : RawDuplex) (binding : SessionBinding) (pbs entropy request : bytes)
    (overall_deadline : AbsoluteDeadline) : IO (W:=W) OpenedSession :=
  do n <- now_unix_ms;
  do handshake_deadline <- lift (phase_deadline overall_deadline n SESSION_HANDSHAKE_MS);
  do ' (m1, rd, _) <- with_conn RawFrameReader_new tt (read_outer raw handshake_deadline);
  do session <- or_c1 raw handshake_deadline (BrokerSession_new binding pbs entropy);
  do ' (response, rd, session) <- with_conn rd session
    (handshake_and_open raw m1 request overall_deadline handshake_deadline);
  ret (mkOpened raw session response HandoffPossibleOrConfirmed rd).

(** [if result.is_err() { raw.cancel() }]. *)
Definition or_cancel {A} (raw : RawDuplex) (m : IO (W:=W) A) : IO (W:=W) A := fun s =>
  match m s with
  | (Ok a, s') => (Ok a, s')
  | (Err f, s') => (Err f, io_cancel raw s')
  end.

Definition open_session (connector : RawConnector) (cancellation : Cancellation)
    (binding : SessionBinding) (pbs entropy request : bytes) (deadline : AbsoluteDeadline)
    : IO (W:=W) OpenedSession :=
  do started <- now_unix_ms;
  do overall_deadline <- lift (phase_deadline deadline started SESSION_TOTAL_MS);
  do connect_deadline <- lift (phase_deadline overall_deadline started SESSION_CONNECT_MS);
  run ensure_deadline connect_deadline;
  do raw <- io_connect connector cancellation connect_deadline;
  or_cancel raw (open_on raw binding pbs entropy request overall_deadline).

(** ** The bootstrap *)

Record BootstrapSuccess := mkSuccess {
  bs_ack : TargetBootstrapAck;
  bs_lease : LeaseCore;
  bs_bootstrap : RawDuplex;
  bs_connector : RawConnector;
  bs_cleanup : CleanupReceipt;
  bs_reader : RawFrameReader
}.

(** The closure: exactly M1, M2 and the acknowledgement. *)
Definition bootstrap_on (raw : RawDuplex) (broker_static_private pbs entropy : bytes)
    (binding : BootstrapBinding) (deadline : AbsoluteDeadline)
    : M (Conn W unit) TransportFailure (TargetBootstrapAck * LeaseCore) :=
  do m1 <- read_outer raw deadline;
  do responder <- on_io (or_c1 raw deadline
                    (BrokerBootstrap_new binding broker_static_private pbs entropy));
  do ' (m2, ack_receiver) <- on_io (or_c1 raw deadline (bootstrap_read_m1_write_m2 responder m1));
  run on_io (write_all raw m2 deadline);
  do ack_outer <- read_outer raw deadline;
  on_io (or_c1 raw deadline (read_ack ack_receiver ack_outer)).

(** What a failure leaves to do. *)
Definition bootstrap_failed {A} (raw : RawDuplex) (cleanup : CleanupReceipt)
    (failure : TransportFailure) : IO (W:=W) A := fun s =>
  let s := io_cancel raw s in
  let '(cancellation, s) := io_cancellation s in
  match (do deadline <- cleanup_deadline;
         run ensure_deadline deadline;
         io_cleanup cleanup cancellation deadline) s with
  | (Ok _, s) => (Err failure, s)
  | (Err _, s) => (Err (with_cleanup_failed failure), s)
  end.

Definition bootstrap (raw : RawDuplex) (connector : RawConnector) (cleanup : CleanupReceipt)
    (broker_static_private pbs entropy : bytes) (binding : BootstrapBinding)
    (deadline : AbsoluteDeadline) : IO (W:=W) BootstrapSuccess := fun s =>
  match with_conn RawFrameReader_new tt
          (bootstrap_on raw broker_static_private pbs entropy binding deadline) s with
  | (Ok (ack, lease, rd, _), s) => (Ok (mkSuccess ack lease raw connector cleanup rd), s)
  | (Err failure, s) => bootstrap_failed raw cleanup failure s
  end.
End Exchanges.

(** ** The launch descriptor *)

Definition endpoint_matches_platform (platform : Platform) (endpoint : LaunchEndpoint) : bool :=
  match platform with
  | IosSimulator => is_Some_b (ios_port endpoint)
  | AndroidEmulator => is_Some_b (android_name endpoint)
  end.

(** The encoder of this file, [_ as u8] and [to_be_bytes] included. *)
Definition cbor_major_len (major value : Z) : bytes :=
  if value <=? 23 then [b8 (Z.lor (Z.shiftl major 5) value)]
  else if value <=? 255 then [b8 (Z.lor (Z.shiftl major 5) 24); b8 value]
  else if value <=? 65535 then b8 (Z.lor (Z.shiftl major 5) 25) :: be_encode 2 value
  else if value <=? 4294967295 then b8 (Z.lor (Z.shiftl major 5) 26) :: be_encode 4 value
  else b8 (Z.lor (Z.shiftl major 5) 27) :: be_encode 8 value.
Definition raw_cbor_bytes (b : bytes) : bytes := cbor_major_len 2 (len b) ++ b.
Definition raw_cbor_text (b : bytes) : bytes := cbor_major_len 3 (len b) ++ b.
Definition raw_cbor_uint (value : Z) : bytes := cbor_major_len 0 value.

Definition encode_launch_descriptor (platform : Platform) (endpoint : LaunchEndpoint)
    (lease_id target_nonce app_artifact_digest broker_static_public : bytes) (expiry_ms : Z)
    (target_reference_digest : bytes) : TRes bytes :=
  check negb ((expiry_ms =? 0) || negb (endpoint_matches_platform platform endpoint))
    else TransportFailure_new BindingMismatch in
  Ok ([b8 0xa9]
      ++ raw_cbor_uint 0 ++ raw_cbor_uint 1
      ++ raw_cbor_uint 1 ++ raw_cbor_uint (match platform with IosSimulator => 0 | AndroidEmulator => 1 end)
      ++ raw_cbor_uint 2 ++ raw_cbor_bytes lease_id
      ++ raw_cbor_uint 3 ++ raw_cbor_bytes target_nonce
      ++ raw_cbor_uint 4 ++ raw_cbor_bytes app_artifact_digest
      ++ raw_cbor_uint 5 ++ raw_cbor_bytes broker_static_public
      ++ raw_cbor_uint 6
      ++ match platform with
         | IosSimulator =>
             [b8 0xa2] ++ raw_cbor_uint 0 ++ raw_cbor_text (str "127.0.0.1")
             ++ raw_cbor_uint 1 ++ raw_cbor_uint (default 0 (ios_port endpoint))
         | AndroidEmulator =>
             [b8 0xa1] ++ raw_cbor_uint 0 ++ raw_cbor_text (default [] (android_name endpoint))
         end
      ++ raw_cbor_uint 7 ++ raw_cbor_uint expiry_ms
      ++ raw_cbor_uint 8 ++ raw_cbor_bytes target_reference_digest).
