(* ===== verification/Launch.v ===== *)
(** The launch descriptor from the broker to the target: what [encode_launch_descriptor] of
    the host runtime writes with its own encoder is what [parse_descriptor] of the transport
    core reads. *)

From S2P Require Import Prelude Errors Crates Wire CratesRef Cbor Records Payloads Descriptor Control Adapter RawTransport.

(** ** The host's encoder writes shortest heads *)

Lemma lor_shifted m v : 0 <= v < 32 -> Z.lor (Z.shiftl m 5) v = m * 32 + v.
Proof.
  intros Hv. rewrite <- Z.add_nocarry_lor; [by rewrite Z.shiftl_mul_pow2|].
  apply Z.bits_inj'. intros n Hn. rewrite Z.land_spec, Z.shiftl_spec, Z.bits_0 by done.
  destruct (Z.lt_ge_cases n 5).
  - by rewrite Z.testbit_neg_r by lia.
  - replace v with (v mod 2 ^ 5) by (apply Z.mod_small; lia).
    rewrite (Z.mod_pow2_bits_high v 5 n) by lia. by rewrite andb_false_r.
Qed.

Lemma cbor_major_len_head m v :
  0 <= v <= U64_MAX -> cbor_major_len m v = cbor_head m v.
Proof.
  intros Hv. unfold cbor_major_len. rewrite cbor_head_if.
  destruct (Z.leb_spec v 23), (Z.ltb_spec v 24); try lia; [by rewrite lor_shifted by lia|].
  destruct (Z.leb_spec v 255), (Z.ltb_spec v (2 ^ 8)); try lia.
  { rewrite lor_shifted by lia. do 2 f_equal. unfold be_encode. by rewrite Z.div_1_r. }
  destruct (Z.leb_spec v 65535), (Z.ltb_spec v (2 ^ 16)); try lia; [by rewrite lor_shifted by lia|].
  destruct (Z.leb_spec v 4294967295), (Z.ltb_spec v (2 ^ 32)); try lia;
    by rewrite lor_shifted by lia.
Qed.

(** ** The descriptor on the wire *)

Definition wire_bytes (b : bytes) : bytes := cbor_head 2 (len b) ++ b.
Definition wire_text (b : bytes) : bytes := cbor_head 3 (len b) ++ b.

Definition wire_endpoint (e : Endpoint) : bytes :=
  match e with
  | Ios port =>
      cbor_head 5 2 ++ cbor_head 0 0 ++ wire_text LOOPBACK ++ cbor_head 0 1 ++ cbor_head 0 port
  | Android name => cbor_head 5 1 ++ cbor_head 0 0 ++ wire_text name
  end.

Definition wire_descriptor (p : ParsedDescriptor) : bytes :=
  let b := pd_binding p in
  cbor_head 5 9 ++ cbor_head 0 0 ++ cbor_head 0 1
  ++ cbor_head 0 1 ++ cbor_head 0 (platform_code (endpoint p))
  ++ cbor_head 0 2 ++ wire_bytes (bb_lease_id b)
  ++ cbor_head 0 3 ++ wire_bytes (target_nonce b)
  ++ cbor_head 0 4 ++ wire_bytes (app_artifact_digest b)
  ++ cbor_head 0 5 ++ wire_bytes (broker_public_key p)
  ++ cbor_head 0 6 ++ wire_endpoint (endpoint p)
  ++ cbor_head 0 7 ++ cbor_head 0 (expiry_ms b)
  ++ cbor_head 0 8 ++ wire_bytes (target_reference_digest b).

(** The values the types of the fields hold: arrays of their lengths, a [u16] and a [u64]. *)
Record descriptor_typed (p : ParsedDescriptor) : Prop := {
  ty_digest : len (target_reference_digest (pd_binding p)) = 32;
  ty_lease : len (bb_lease_id (pd_binding p)) = 16;
  ty_nonce : len (target_nonce (pd_binding p)) = 32;
  ty_artifact : len (app_artifact_digest (pd_binding p)) = 32;
  ty_key : len (broker_public_key p) = 32;
  ty_expiry : is_u64 (expiry_ms (pd_binding p));
  ty_endpoint : match endpoint p with
                | Ios port => 0 <= port < 65536
                | Android name => len name <= U64_MAX
                end
}.

Lemma descriptor_wf_typed p : descriptor_wf p -> descriptor_typed p.
Proof.
  intros [[] He ? Hp]. split; try done.
  destruct (endpoint p); cbn in Hp; [lia|]. unfold U64_MAX. lia.
Qed.

(** Takes the same head, or the same field, off both sides. *)
Ltac peel He :=
  first
  [ apply cbor_head_inj in He as (? & ? & He); [|solve [u64_solve]..]
  | apply app_inj_1 in He as [? He]; [|unfold len in *; lia] ].

Lemma wire_descriptor_inj p q :
  descriptor_typed p -> descriptor_typed q -> wire_descriptor p = wire_descriptor q -> p = q.
Proof.
  intros [] []. destruct p as [[d1 l1 n1 a1 x1] k1 e1], q as [[d2 l2 n2 a2 x2] k2 e2].
  cbn in * |-. unfold wire_descriptor, wire_bytes.
  cbn [pd_binding bb_lease_id target_nonce app_artifact_digest broker_public_key endpoint
    expiry_ms target_reference_digest]. intros He.
  assert (Hc1 : 0 <= platform_code e1 <= U64_MAX) by by destruct e1.
  assert (Hc2 : 0 <= platform_code e2 <= U64_MAX) by by destruct e2.
  destruct e1 as [port1|name1], e2 as [port2|name2]; cbn [platform_code wire_endpoint] in *;
    unfold wire_text in He; rewrite <- ?app_assoc in He.
  all: do 5 peel He; try done.
  2: pose proof (len_nonneg name1); pose proof (len_nonneg name2).
  all: repeat peel He; congruence.
Qed.

Section Arrives.
Context `{MinicborWire} `{!MinicborLaws}.

Lemma enc_chain_step {E} (e : E) b rest l :
  enc_chain e rest = Ok l -> enc_chain e (Some b :: rest) = Ok (b ++ l).
Proof. intros Hr. change (res_bind (enc_chain e rest) (fun l => Ok (b ++ l)) = Ok (b ++ l)). by rewrite Hr. Qed.
Lemma enc_chain_last {E} (e : E) b : enc_chain e [Some b] = Ok b.
Proof. rewrite <- (app_nil_r b) at 2. by apply enc_chain_step. Qed.

Lemma raw_uint_head v : is_u64 v -> raw_cbor_uint v = cbor_head 0 v.
Proof. intros. by apply cbor_major_len_head. Qed.
Lemma raw_bytes_wire b : len b <= U64_MAX -> raw_cbor_bytes b = wire_bytes b.
Proof.
  intros. unfold raw_cbor_bytes. rewrite cbor_major_len_head; [done|]. split; [apply len_nonneg|done].
Qed.
Lemma raw_text_wire b : len b <= U64_MAX -> raw_cbor_text b = wire_text b.
Proof.
  intros. unfold raw_cbor_text. rewrite cbor_major_len_head; [done|]. split; [apply len_nonneg|done].
Qed.

(** Both encoders write the descriptor that way. *)
Lemma encode_descriptor_wire p :
  descriptor_typed p -> encode_descriptor p = Ok (wire_descriptor p).
Proof.
  intros [Hd Hl Hn Ha Hk Hx He]. unfold encode_descriptor, wire_descriptor.
  assert (Hc : 0 <= platform_code (endpoint p) < 256) by by destruct (endpoint p).
  destruct (endpoint p) as [port|name]; cbn [app wire_endpoint platform_code] in *;
    rewrite !wire_enc_map, !wire_enc_u8, !wire_enc_u64, !wire_enc_bytes by u64_solve;
    try rewrite wire_enc_u16 by lia; rewrite wire_enc_str by (done || u64_solve);
    rewrite <- ?app_assoc; repeat (apply enc_chain_last || apply enc_chain_step).
Qed.

Definition target_endpoint (e : LaunchEndpoint) : Endpoint :=
  match e with IosLoopback port => Ios port | AndroidLocalAbstract name => Android name end.

Definition sent_descriptor (e : LaunchEndpoint) (lease_id nonce artifact key : bytes)
    (expiry : Z) (digest : bytes) : ParsedDescriptor :=
  {| pd_binding := {| target_reference_digest := digest; bb_lease_id := lease_id;
                      target_nonce := nonce; app_artifact_digest := artifact;
                      Payloads.expiry_ms := expiry |};
     broker_public_key := key; endpoint := target_endpoint e |}.

Lemma encode_launch_descriptor_wire platform e lease_id nonce artifact key expiry digest :
  descriptor_typed (sent_descriptor e lease_id nonce artifact key expiry digest) ->
  endpoint_matches_platform platform e = true -> expiry <> 0 ->
  encode_launch_descriptor platform e lease_id nonce artifact key expiry digest
  = Ok (wire_descriptor (sent_descriptor e lease_id nonce artifact key expiry digest)).
Proof.
  intros [Hd Hl Hn Ha Hk Hx He] Hm Hz. cbn in * |-.
  unfold encode_launch_descriptor. rewrite Hm. destruct (Z.eqb_spec expiry 0); [done|].
  cbn [orb negb ensure res_bind]. f_equal.
  unfold wire_descriptor, sent_descriptor.
  cbn [pd_binding bb_lease_id target_nonce app_artifact_digest broker_public_key endpoint
    Payloads.expiry_ms target_reference_digest].
  rewrite !raw_bytes_wire by u64_solve.
  destruct platform, e as [port|name]; try done; cbn in He;
    cbn [ios_port android_name default from_option id platform_code target_endpoint wire_endpoint];
    rewrite !raw_uint_head by u64_solve; rewrite raw_text_wire by (done || u64_solve);
    rewrite <- !app_assoc; reflexivity.
Qed.

(** An endpoint as the two constructors make it, the name a [String]. *)
Definition endpoint_made (e : LaunchEndpoint) : Prop :=
  match e with
  | IosLoopback port => ios_loopback port = Ok e
  | AndroidLocalAbstract name => android_local_abstract name = Ok e /\ valid_utf8 name = true
  end.

Lemma endpoint_made_range e :
  endpoint_made e ->
  match e with
  | IosLoopback port => 49152 <= port <= 65535
  | AndroidLocalAbstract name => 32 <= len name <= 96 /\ valid_utf8 name = true
  end.
Proof.
  destruct e as [port|name]; cbn; unfold ios_loopback, android_local_abstract.
  - intros Hp. res_inv Hp. bool_split. lia.
  - intros [Hn ?]. res_inv Hn. bool_split. split; [lia|done].
Qed.

(** C34: whatever the broker encodes for a launch, the target reads as exactly the values it
    was given, and refuses exactly when the deadline is beyond what JSON carries or the name
    of an Android socket holds a NUL; and the broker refuses to encode exactly a zero
    deadline or an endpoint of the other platform. *)
Theorem launch_descriptor_arrives platform e lease_id nonce artifact key expiry digest :
  len lease_id = 16 -> len nonce = 32 -> len artifact = 32 -> len key = 32 -> len digest = 32 ->
  is_u64 expiry -> endpoint_made e ->
  let p := sent_descriptor e lease_id nonce artifact key expiry digest in
  match encode_launch_descriptor platform e lease_id nonce artifact key expiry digest with
  | Ok b =>
      (forall q, parse_descriptor b = Ok q <-> q = p /\ expiry <= JSON_SAFE_MAX /\
         match e with
         | IosLoopback _ => True
         | AndroidLocalAbstract name => Forall (fun c => u8 c <> 0) name
         end)
  | Err f => f = TransportFailure_new BindingMismatch /\
      (expiry = 0 \/ endpoint_matches_platform platform e = false)
  end.
Proof.
  intros Hl Hn Ha Hk Hd Hx Hm p. pose proof (endpoint_made_range _ Hm) as Hr.
  assert (Hty : descriptor_typed p).
  { split; cbn; try done. destruct e; cbn; [lia|u64_solve]. }
  destruct (decide (expiry = 0)) as [->|Hz]; [by split; [|left]|].
  destruct (endpoint_matches_platform platform e) eqn:Hp.
  2:{ unfold encode_launch_descriptor. rewrite Hp, orb_true_r. by split; [|right]. }
  rewrite encode_launch_descriptor_wire by done. fold p. intros q. split.
  - intros [He Hwf]%parse_canonical. pose proof (descriptor_wf_typed _ Hwf) as Hq.
    rewrite (encode_descriptor_wire q Hq) in He. apply Ok_inj in He.
    apply wire_descriptor_inj in He as ->; [|done..]. destruct Hwf as [_ Hexp _ Hend].
    cbn in *. split_and!; [done|lia|]. destruct e; [done|apply Hend].
  - intros (-> & Hmax & Hnul). destruct (encode_descriptor_len p) as (b & Hb & Hlen).
    { split; cbn; [split; done| |done|]; [u64_solve|]. destruct e; cbn; [lia|naive_solver]. }
    assert (b = wire_descriptor p) as -> by (rewrite encode_descriptor_wire in Hb; [congruence|done]).
    apply parse_encoded; [|done|done].
    split; cbn; [split; done| |done|]; [u64_solve|]. destruct e; cbn; [lia|naive_solver].
Qed.
End Arrives.

(** ** Concrete inputs *)

Definition ex_socket : bytes := str "apppilotkit-0123456789abcdef0123456789abcdef".
Definition ex_launch : bytes :=
  match encode_launch_descriptor AndroidEmulator (AndroidLocalAbstract ex_socket)
          (repeat (b8 1) 16) (repeat (b8 2) 32) (repeat (b8 3) 32) (repeat (b8 4) 32) 1000
          (repeat (b8 5) 32) with Ok b => b | Err _ => [] end.

Lemma launch_descriptor_arrives_witness :
  parse_descriptor ex_launch =
  Ok (sent_descriptor (AndroidLocalAbstract ex_socket) (repeat (b8 1) 16) (repeat (b8 2) 32)
        (repeat (b8 3) 32) (repeat (b8 4) 32) 1000 (repeat (b8 5) 32)).
Proof.
  assert (Hx : is_u64 1000) by (vm_compute; split; discriminate).
  assert (Hm : endpoint_made (AndroidLocalAbstract ex_socket)) by (split; reflexivity).
  pose proof (launch_descriptor_arrives AndroidEmulator (AndroidLocalAbstract ex_socket)
    (repeat (b8 1) 16) (repeat (b8 2) 32) (repeat (b8 3) 32) (repeat (b8 4) 32) 1000
    (repeat (b8 5) 32) eq_refl eq_refl eq_refl eq_refl eq_refl Hx Hm) as Ht.
  assert (He : encode_launch_descriptor AndroidEmulator (AndroidLocalAbstract ex_socket)
    (repeat (b8 1) 16) (repeat (b8 2) 32) (repeat (b8 3) 32) (repeat (b8 4) 32) 1000
    (repeat (b8 5) 32) = Ok ex_launch) by (vm_compute; reflexivity).
  rewrite He in Ht. cbv zeta in Ht. apply Ht. split; [reflexivity|].
  split; [vm_compute; discriminate|].
  let l := eval vm_compute in ex_socket in change ex_socket with l.
  repeat constructor; vm_compute; discriminate.
Defined.
