(* ===== verification/RawReads.v ===== *)
(** The frame reader of the raw transport: what it has taken of the stream is what it gave
    out, what is ready and what is incomplete; its own count of an incomplete envelope is the
    decoder's; it waits no longer than it may, and always comes back. *)

From S2P Require Import Prelude Errors Crates Outer Records Payloads Reassembly NoiseIO Lease Bootstrap Session Control Adapter RawTransport.

(** ** What a decoder holds *)

(** Less than a header, or less than the payload announced. *)
Definition held (d : OuterFrameDecoder) : Prop :=
  match expected d with
  | Some n => 1 <= n <= OUTER_MAX /\ len (pending d) < n
  | None => len (pending d) < 2
  end.

Lemma held_residue d : held d -> len (residue d) < 65537.
Proof.
  unfold held, residue, OUTER_MAX. destruct (expected d); autorewrite with len; lia.
Qed.
Lemma held_wf d : held d -> outer_wf d.
Proof. unfold held, outer_wf. destruct (expected d); naive_solver. Qed.

Lemma push_turn_held d d' : outer_wf d -> push_turn d = TurnBreak d' -> held d'.
Proof.
  unfold outer_wf, push_turn, push_body, held. intros Hwf.
  destruct (expected d) as [n|] eqn:He.
  - destruct (Z.ltb_spec (len (pending d)) n); [|by destruct (encode_outer _)].
    intros [= <-]. by rewrite He.
  - destruct (Z.ltb_spec (len (pending d)) 2); [intros [= <-]; by rewrite He|].
    destruct (Z.eqb_spec (be_decode (take 2 (pending d))) 0) as [|Hz]; [done|]. cbn.
    destruct (Z.ltb_spec (len (drop 2 (pending d))) (be_decode (take 2 (pending d)))) as [Hlt|];
      [|by destruct (encode_outer _)].
    intros [= <-]. cbn. split; [|done].
    pose proof (be_decode_range (take 2 (pending d))) as Hr.
    assert (len (take 2 (pending d)) = 2) as Hl by (unfold len in *; rewrite length_take; lia).
    rewrite Hl in Hr. change (256 ^ 2) with 65536 in Hr. unfold OUTER_MAX. lia.
Qed.

Lemma push_held b d gs d' :
  outer_wf d -> failed d = false -> push b d = (Ok gs, d') -> held d'.
Proof.
  intros Hwf Hf Hp. pose proof (push_evals b d Hf Hwf) as He. rewrite Hp in He.
  assert (Hi : forall d fs x, outer_wf d -> evals d fs x ->
    match x with (Ok _, d') => held d' | _ => True end).
  { refine (evals_ind_turns _ _ _ _); try done.
    intros d0 fs d1 Hwf0 Ht. by eapply push_turn_held. }
  exact (Hi (outer_extend b d) [] _ Hwf He).
Qed.

(** ** The reader's own count *)

Lemma op_push_app a b p : op_push (a ++ b) p = op_push b (op_push a p).
Proof. apply foldl_app. Qed.

(** Inside a payload. *)
Lemma op_push_payload b h n k :
  k + len b < n -> op_push b (mkProgress h (Some n) k) = mkProgress h (Some n) (k + len b).
Proof.
  revert k. induction b as [|x b IH]; intros k Hn; [by rewrite len_nil, Z.add_0_r|].
  rewrite len_cons in *. pose proof (len_nonneg b). cbn [op_push foldl op_push_byte op_expected
    op_payload_len op_header]. destruct (Z.eqb_spec (k + 1) n); [lia|].
  change (op_push b (mkProgress h (Some n) (k + 1)) = mkProgress h (Some n) (k + (1 + len b))).
  rewrite IH by lia. f_equal. lia.
Qed.

Lemma op_push_header a b :
  op_push [a; b] OuterProgress_default = mkProgress [] (Some (be_decode [a; b])) 0.
Proof. done. Qed.

Lemma be_encode_2 n : exists a b, be_encode 2 n = [a; b].
Proof. by exists (b8 (n / 256 ^ Z.of_nat 1)), (b8 (n / 256 ^ Z.of_nat 0)). Qed.

Lemma op_push_length n :
  0 <= n <= OUTER_MAX ->
  op_push (be_encode 2 n) OuterProgress_default = mkProgress [] (Some n) 0.
Proof.
  intros Hn. destruct (be_encode_2 n) as (a & b & He). rewrite He, op_push_header, <- He.
  rewrite be_decode_encode; [done|]. unfold OUTER_MAX in Hn. change (256 ^ Z.of_nat 2) with 65536.
  lia.
Qed.

(** A whole frame leaves nothing counted. *)
Lemma op_push_frame f : outer_frame f -> op_push f OuterProgress_default = OuterProgress_default.
Proof.
  intros [p [Hp ->]%encode_outer_ok]. rewrite op_push_app, op_push_length by lia.
  destruct p as [|x p _] using rev_ind; [rewrite len_nil in Hp; lia|].
  rewrite len_app, len_cons, len_nil in *. rewrite op_push_app, op_push_payload by lia.
  cbn [op_push foldl op_push_byte op_expected op_payload_len op_header].
  destruct (Z.eqb_spec (0 + len p + 1) (len p + (1 + 0))); [done|lia].
Qed.
Lemma op_push_frames fs :
  Forall outer_frame fs -> op_push (concat fs) OuterProgress_default = OuterProgress_default.
Proof.
  induction 1 as [|f fs Hf _ IH]; [done|]. cbn [concat]. by rewrite op_push_app, op_push_frame.
Qed.

(** The flag of the code is the decoder's. *)
Lemma op_incomplete_residue d :
  held d ->
  op_is_incomplete (op_push (residue d) OuterProgress_default) = Outer.is_incomplete d.
Proof.
  unfold held, residue, Outer.is_incomplete. destruct (expected d) as [n|] eqn:He.
  - intros [Hn Hl]. rewrite op_push_app, op_push_length, op_push_payload by lia. done.
  - destruct (pending d) as [|a [|b l]]; [done|done|]. rewrite !len_cons.
    pose proof (len_nonneg l). lia.
Qed.

(** ** The reader's invariant *)

(** The part of the stream a reader has taken in and not given out. *)
Definition in_hand (rd : RawFrameReader) : bytes :=
  concat (ready_frames rd) ++ residue (rd_decoder rd).

Record reading (rd : RawFrameReader) : Prop := {
  rd_held : held (rd_decoder rd);
  rd_working : failed (rd_decoder rd) = false;
  rd_progress : outer_progress rd = op_push (residue (rd_decoder rd)) OuterProgress_default;
  rd_timed : is_Some_b (incomplete_deadline rd) = Outer.is_incomplete (rd_decoder rd)
}.

Record reader_inv (rd : RawFrameReader) : Prop := {
  ri_reading : terminal rd = None -> reading rd;
  ri_ready : Forall outer_frame (ready_frames rd)
}.

Lemma reader_inv_new : reader_inv RawFrameReader_new.
Proof. split; [intros _; by split|constructor]. Qed.

Lemma reading_terminal rd f d : reader_inv rd -> reader_inv (rd_set_terminal f (rd_set_decoder d rd)).
Proof. intros [_ Hr]. by split. Qed.

(** The clock is past the epoch and its milliseconds fit a word. *)
Class SteadyClock (W : Type) `{PlatformIo W} : Prop :=
  steady : forall w : W, exists n, fst (system_ms w) = Some n /\ n <= U64_MAX.

Section Reads.
Context `{PlatformIo W} `{!SteadyClock W}.
Implicit Types (raw : RawDuplex) (deadline : AbsoluteDeadline) (evs : list (Event (W:=W))).

Definition event_bytes (e : Event (W:=W)) : bytes :=
  match e with EvRead _ _ (Ok b) => b | _ => [] end.
Definition bytes_read evs : bytes := concat (event_bytes <$> evs).

Lemma bytes_read_app a b : bytes_read (a ++ b) = bytes_read a ++ bytes_read b.
Proof. unfold bytes_read. by rewrite fmap_app, concat_app. Qed.

(** A call on the stream [raw] that waits until [deadline] at most. *)
Definition within_deadline raw deadline (e : Event (W:=W)) : Prop :=
  match e with
  | EvTime _ => True
  | EvRead r d _ | EvWrite r _ d _ => r = raw /\ dl_value d <= dl_value deadline
  | _ => False
  end.

Definition calls raw deadline (s s' : Io (W:=W)) evs : Prop :=
  log s' = log s ++ evs /\ Forall (within_deadline raw deadline) evs.

Lemma calls_nil raw deadline s : calls raw deadline s s [].
Proof. split; [by rewrite app_nil_r|constructor]. Qed.
Lemma calls_app raw deadline s1 s2 s3 a b :
  calls raw deadline s1 s2 a -> calls raw deadline s2 s3 b -> calls raw deadline s1 s3 (a ++ b).
Proof. intros [H1 Ha] [H2 Hb]. split; [by rewrite H2, H1, app_assoc|by apply Forall_app]. Qed.
Lemma calls_one raw deadline s e w :
  within_deadline raw deadline e -> calls raw deadline s (io_event e w s) [e].
Proof. intros He. split; [done|]. by constructor. Qed.

Lemma now_ok s :
  exists n w, now_unix_ms s = (Ok n, io_event (EvTime (Some n)) w s) /\ 0 <= n <= U64_MAX.
Proof.
  unfold now_unix_ms. destruct (steady (world s)) as (n & Hn & Hmax).
  pose proof (system_ms_unsigned (world s) n Hn) as Hmin.
  destruct (system_ms (world s)) as [o w]. cbn in Hn. subst o.
  exists n, w. destruct (Z.leb_spec n U64_MAX); [done|lia].
Qed.

(** ** One call *)

(** What a call of a reader has done: it took [f] off the front of what was in hand and what
    it received, or took that in hand, or failed for good. *)
Definition call_ok {C} raw deadline (s : Conn W C) (f : bytes) (s' : Conn W C) : Prop :=
  exists evs, calls raw deadline (io s) (io s') evs /\ reader_inv (reader s') /\
    terminal (reader s') = None /\ outer_frame f /\
    in_hand (reader s) ++ bytes_read evs = f ++ in_hand (reader s').
Definition call_err {C} raw deadline (s : Conn W C) (e : TransportFailure) (s' : Conn W C)
    : Prop :=
  exists evs, calls raw deadline (io s) (io s') evs /\ reader_inv (reader s') /\
    (terminal (reader s') = Some e \/
     terminal (reader s') = None /\
     in_hand (reader s) ++ bytes_read evs = in_hand (reader s')).

(** A state on the way: it has only taken in hand. *)
Definition on_way {C} raw deadline (s0 s : Conn W C) : Prop :=
  exists evs, calls raw deadline (io s0) (io s) evs /\ reader_inv (reader s) /\
    terminal (reader s) = None /\ in_hand (reader s0) ++ bytes_read evs = in_hand (reader s).

Lemma on_way_refl {C} raw deadline (s : Conn W C) :
  reader_inv (reader s) -> terminal (reader s) = None -> on_way raw deadline s s.
Proof. intros. exists []. split_and!; try done; [apply calls_nil|apply app_nil_r]. Qed.

Lemma on_way_err {C} raw deadline (s0 s : Conn W C) e :
  on_way raw deadline s0 s -> call_err raw deadline s0 e s.
Proof. intros (evs & ? & ? & ? & ?). exists evs. split_and!; auto. Qed.

(** A step that reads nothing and keeps the reader. *)
Lemma on_way_time {C} raw deadline (s0 s : Conn W C) n w :
  on_way raw deadline s0 s ->
  on_way raw deadline s0 (mkConn (reader s) (core_of s) (io_event (EvTime n) w (io s))).
Proof.
  intros (evs & Hc & Hi & Ht & Hb). exists (evs ++ [EvTime n]). split_and!; cbn; try done.
  - eapply calls_app; [done|]. by apply calls_one.
  - by rewrite bytes_read_app, app_nil_r.
Qed.

Lemma post_now {C A} raw deadline (s0 s : Conn W C) (k : Z -> M (Conn W C) TransportFailure A)
    (Q : A -> Conn W C -> Prop) X :
  on_way raw deadline s0 s ->
  (forall n s', on_way raw deadline s0 s' -> reader s' = reader s -> core_of s' = core_of s ->
     0 <= n <= U64_MAX -> post (k n) s' Q X) ->
  post (mbind_M (on_io now_unix_ms) k) s Q X.
Proof.
  intros Hw Hk. apply post_bind. unfold post, on_io.
  destruct (now_ok (io s)) as (n & w & -> & Hn). apply Hk; try done. by apply on_way_time.
Qed.

(** *** The steps of a call *)

Section Steps.
Context {C : Type} (raw : RawDuplex) (deadline : AbsoluteDeadline) (s0 : Conn W C).
Local Abbreviation way := (on_way raw deadline s0).
Local Abbreviation X := (call_err raw deadline s0).

Lemma way_terminal (s : Conn W C) f d :
  way s -> X f (mkConn (rd_set_terminal f (rd_set_decoder d (reader s))) (core_of s) (io s)).
Proof.
  intros (evs & Hc & Hi & _). exists evs. split_and!; [done| |by left]. by apply reading_terminal.
Qed.

Lemma rd_set_decoder_same rd : rd_set_decoder (rd_decoder rd) rd = rd.
Proof. by destruct rd. Qed.

Lemma post_terminal {A} (s : Conn W C) f (Q : A -> Conn W C -> Prop) :
  way s -> post (throw_terminal f) s Q X.
Proof.
  intros Hw. unfold post, throw_terminal, on_reader, terminate.
  rewrite <- (rd_set_decoder_same (reader s)) at 1. by apply way_terminal.
Qed.

Lemma post_expire {A} (s : Conn W C) n (k : unit -> M (Conn W C) TransportFailure A)
    (Q : A -> Conn W C -> Prop) :
  way s -> post (k tt) s Q X -> post (mbind_M (on_reader (expire_incomplete_at n)) k) s Q X.
Proof.
  intros Hw Hk. apply post_bind. pose proof Hw as (evs & _ & _ & Ht & _).
  unfold post, on_reader, expire_incomplete_at, mbind_M, ensure_not_terminal. rewrite Ht.
  destruct s as [rd c w]. cbn in *.
  destruct (incomplete_deadline rd) as [d|]; [|exact Hk].
  destruct (deadline_expired_at n (dl_value d)); [|exact Hk].
  destruct (outer_timeout (rd_decoder rd)) as [r d']. exact (way_terminal _ _ d' Hw).
Qed.

Lemma post_check_deadlines {A} (s : Conn W C) (k : unit -> M (Conn W C) TransportFailure A)
    (Q : A -> Conn W C -> Prop) :
  way s -> (forall s', way s' -> reader s' = reader s -> core_of s' = core_of s ->
              0 < dl_value deadline -> post (k tt) s' Q X) ->
  post (mbind_M (check_deadlines deadline) k) s Q X.
Proof.
  intros Hw Hk. apply post_bind. unfold check_deadlines.
  eapply post_now; [exact Hw|]. intros n s' Hw' Hr Hc Hn. apply post_expire; [done|].
  unfold ensure_deadline_at, deadline_expired_at. apply post_lift;
    destruct (Z.leb_spec (dl_value deadline) n); try done.
  - intros [] _. apply Hk; [done..|lia].
  - intros e _. by apply on_way_err.
Qed.

(** Taking a frame that is ready. *)
Lemma post_pop {A} (s : Conn W C) (k : option bytes -> M (Conn W C) TransportFailure A)
    (Q : A -> Conn W C -> Prop) :
  way s ->
  (ready_frames (reader s) = [] -> post (k None) s Q X) ->
  (forall f fs, ready_frames (reader s) = f :: fs ->
     call_ok raw deadline s0 f (mkConn (rd_set_ready fs (reader s)) (core_of s) (io s)) ->
     post (k (Some f)) (mkConn (rd_set_ready fs (reader s)) (core_of s) (io s)) Q X) ->
  post (mbind_M pop_front k) s Q X.
Proof.
  intros (evs & Hc & [Hi Hr] & Ht & Hb) Hnil Hcons. apply post_bind. unfold post, pop_front, on_reader.
  destruct s as [rd c w]. cbn in *. destruct (ready_frames rd) as [|f fs] eqn:Hf; [by apply Hnil|].
  apply Hcons; [done|]. inversion_clear Hr. exists evs. split_and!; try done.
  - split; [|done]. intros Ht'. destruct (Hi Ht). by split.
  - unfold in_hand in *. cbn. rewrite Hb, Hf. cbn. by rewrite app_assoc.
Qed.

Lemma post_pop_last (s : Conn W C) (Q : option bytes -> Conn W C -> Prop) :
  way s ->
  (ready_frames (reader s) = [] -> Q None s) ->
  (forall f s', call_ok raw deadline s0 f s' -> core_of s' = core_of s -> Q (Some f) s') ->
  post pop_front s Q X.
Proof.
  intros Hw Hn Hs. pose proof (post_pop s ret Q Hw) as Hp.
  unfold post in *. unfold mbind_M in Hp. destruct (pop_front s) as [[o|e] s'] eqn:Hpop; apply Hp.
  all: try (by intros; apply Hn). all: intros f fs Hf Hok; by apply Hs.
Qed.

(** The bytes of a read that the reader has still to take in. *)
Definition way_with (input : bytes) (s : Conn W C) : Prop :=
  exists evs, calls raw deadline (io s0) (io s) evs /\ reader_inv (reader s) /\
    terminal (reader s) = None /\ in_hand (reader s0) ++ bytes_read evs = in_hand (reader s) ++ input.

Lemma way_with_terminal input (s : Conn W C) f d :
  way_with input s ->
  X f (mkConn (rd_set_terminal f (rd_set_decoder d (reader s))) (core_of s) (io s)).
Proof.
  intros (evs & Hc & Hi & _). exists evs. split_and!; [done| |by left]. by apply reading_terminal.
Qed.

Lemma post_push {A} input (s : Conn W C) (k : list bytes -> M (Conn W C) TransportFailure A)
    (Q : A -> Conn W C -> Prop) :
  way_with input s ->
  (forall frames d, push input (rd_decoder (reader s)) = (Ok frames, d) ->
     Forall outer_frame frames ->
     residue (rd_decoder (reader s)) ++ input = concat frames ++ residue d ->
     held d -> failed d = false ->
     post (k frames) (mkConn (rd_set_decoder d (reader s)) (core_of s) (io s)) Q X) ->
  post (mbind_M (push_or_terminate input) k) s Q X.
Proof.
  intros Hw Hk. pose proof Hw as (evs & _ & [Hi _] & Ht & _). destruct (Hi Ht) as [Hh Hf _ _].
  apply post_bind. unfold post, push_or_terminate, on_reader.
  destruct s as [rd c w]. cbn in *.
  destruct (push input (rd_decoder rd)) as [r d] eqn:Hp.
  destruct (push_stream _ _ _ _ (held_wf _ Hh) Hf Hp) as (new & rest & Hnew & Hres & Hr).
  destruct r as [frames|e].
  - destruct Hr as (-> & -> & _ & Hf' & _). eapply Hk; try done.
    by eapply (push_held input (rd_decoder rd) new d (held_wf _ Hh)).
  - exact (way_with_terminal input _ _ d Hw).
Qed.

(** The reader's own count after the bytes, and its timer. *)
Lemma track_ok input rd d n :
  0 < dl_value deadline -> 0 <= n -> reading rd -> held d -> failed d = false ->
  residue (rd_decoder rd) ++ input = residue d \/
  (exists fs, Forall outer_frame fs /\ residue (rd_decoder rd) ++ input = concat fs ++ residue d) ->
  exists rd', track_outer_progress input deadline n (rd_set_decoder d rd) = (Ok tt, rd') /\
    rd_decoder rd' = d /\ ready_frames rd' = ready_frames rd /\ terminal rd' = terminal rd /\
    reading rd'.
Proof.
  intros Hd Hn [Hh Hf Hp Ht] Hh' Hf' Hres.
  assert (Hprog : op_push input (outer_progress rd) = op_push (residue d) OuterProgress_default).
  { rewrite Hp, <- op_push_app. destruct Hres as [->|(fs & Hfs & ->)]; [done|].
    by rewrite op_push_app, op_push_frames. }
  unfold track_outer_progress. cbn. rewrite Hprog, op_incomplete_residue by done.
  destruct (Outer.is_incomplete d) eqn:Hinc.
  - destruct (incomplete_deadline rd) as [x|] eqn:Hx; cbn.
    + eexists. split; [done|]. cbn. split_and!; try done. split; cbn; try done. by rewrite Hx.
    + unfold phase_deadline, AbsoluteDeadline_new.
      assert (Hz : phase_deadline_value (dl_value deadline) n INCOMPLETE_OUTER_MS <> 0).
      { unfold phase_deadline_value, saturating_add, INCOMPLETE_OUTER_MS, U64_MAX.
        destruct (Z.ltb_spec (dl_value deadline) (Z.min (n + 2000) (2 ^ 64 - 1))); lia. }
      destruct (Z.eqb_spec (phase_deadline_value (dl_value deadline) n INCOMPLETE_OUTER_MS) 0);
        [done|]. cbn. eexists. split; [done|]. cbn. by split_and!.
  - eexists. split; [done|]. cbn. by split_and!.
Qed.

Lemma post_received input (s : Conn W C) :
  0 < dl_value deadline -> way_with input s -> ready_frames (reader s) = [] ->
  post (received deadline input) s
    (fun o s' => core_of s' = core_of s /\
       match o with
       | Some f => call_ok raw deadline s0 f s'
       | None => way s' /\ ready_frames (reader s') = [] /\
           len (residue (rd_decoder (reader s'))) =
           len (residue (rd_decoder (reader s))) + len input
       end) X.
Proof.
  intros Hd Hw Hready. unfold received. eapply post_push; [exact Hw|].
  intros frames d Hp Hfs Hres Hh Hf. destruct Hw as (evs & Hc & [Hi Hr] & Ht & Hb).
  specialize (Hi Ht). apply post_bind. unfold post at 1, on_io.
  destruct s as [rd c w]. cbn in *.
  destruct (now_ok w) as (n & w' & -> & Hn). apply post_bind. unfold post at 1, on_reader at 1.
  destruct (track_ok input rd d n Hd (proj1 Hn) Hi Hh Hf) as (rd' & Htr & Hd' & Hr' & Ht' & Hrd);
    [by right; exists frames|]. cbn. rewrite Htr. cbn.
  apply post_bind. unfold post at 1, on_reader at 1, modify. cbn.
  set (rd2 := rd_set_ready (ready_frames rd' ++ frames) rd').
  assert (Hw2 : way (mkConn rd2 c (io_event (EvTime (Some n)) w' w))).
  { exists (evs ++ [EvTime (Some n)]). split_and!; cbn.
    - eapply calls_app; [done|]. by apply calls_one.
    - split; cbn; [|by rewrite Hr', Hready]. intros _. by destruct Hrd.
    - by rewrite Ht'.
    - rewrite bytes_read_app, app_nil_r, Hb. unfold in_hand. cbn.
      rewrite Hr', Hready, Hd'. cbn. done. }
  eapply post_pop_last; [exact Hw2| |].
  - cbn. intros Hnil. rewrite Hr', Hready in Hnil. cbn in Hnil. subst frames.
    split; [done|]. split; [done|]. cbn. rewrite Hr', Hready, Hd'. split; [done|].
    cbn in Hres. rewrite <- Hres. autorewrite with len. lia.
  - intros f s' Hok Hcore. done.
Qed.

Lemma post_read_deadline (s : Conn W C) :
  way s ->
  post (run check_deadlines deadline; do s <- get; lift (read_deadline deadline (reader s))) s
    (fun d s' => way s' /\ reader s' = reader s /\ core_of s' = core_of s /\
       0 < dl_value deadline /\ dl_value d <= dl_value deadline) X.
Proof.
  intros Hw. eapply post_check_deadlines; [exact Hw|]. intros s' Hw' Hr Hc Hd.
  apply post_bind. apply (post_lift (Ok s')); [|done]. intros ? [= <-]. apply post_lift.
  - unfold read_deadline, AbsoluteDeadline_new. intros d. rewrite Hr.
    destruct (incomplete_deadline (reader s)) as [x|]; [|by intros [= <-]].
    destruct (Z.min _ _ =? 0); cbn; [done|]. intros [= <-]. cbn. split_and!; [done..|lia].
  - intros e _. by apply on_way_err.
Qed.

(** The end of the stream, as each reader has it, fails for good. *)
Definition eof_fails (at_eof : M (Conn W C) TransportFailure (option bytes)) : Prop :=
  forall s, way s -> post at_eof s (fun _ _ => False) X.

Lemma post_read_failed at_eof failure (s : Conn W C) :
  eof_fails at_eof -> way s -> post (read_failed at_eof failure) s (fun _ _ => False) X.
Proof.
  intros Heof Hw. unfold read_failed. eapply post_now; [exact Hw|]. intros n s' Hw' _ _ _.
  apply post_expire; [done|]. destruct (bool_decide _); [by apply Heof|].
  apply post_throw. by apply on_way_err.
Qed.

(** What a turn leaves: nothing that came in before is lost, and the residue has grown. *)
Definition turn_to (s : Conn W C) (o : option bytes) (s' : Conn W C) : Prop :=
  core_of s' = core_of s /\
  match o with
  | Some f => call_ok raw deadline s0 f s'
  | None => way s' /\ ready_frames (reader s') = [] /\
      len (residue (rd_decoder (reader s))) < len (residue (rd_decoder (reader s')))
  end.

Lemma post_read_turn at_eof chunk (s : Conn W C) :
  eof_fails at_eof -> way s -> ready_frames (reader s) = [] ->
  post (read_turn at_eof raw deadline) (chunk, s)
    (fun o cs => turn_to s o (snd cs)) (fun e cs => X e (snd cs)).
Proof.
  intros Heof Hw Hready. pose proof (post_read_deadline s Hw) as Hpd.
  unfold post, read_turn in *.
  destruct (mbind_M (check_deadlines deadline) _ s) as [[d|e] s1]; [|exact Hpd].
  destruct Hpd as (Hw1 & Hr1 & Hc1 & Hpos & Hd). unfold io_read.
  pose proof (raw_read_usize raw chunk d (world (io s1))) as Hn.
  destruct (raw_read raw chunk d (world (io s1))) as [[[n|failure] chunk'] w']; cbn in Hn.
  - specialize (Hn n eq_refl). set (s2 := mkConn _ _ _).
    assert (Hin : way_with (take (Z.to_nat n) chunk') s2).
    { destruct Hw1 as (evs & Hev & Hi & Ht & Hb).
      exists (evs ++ [EvRead raw d (Ok (take (Z.to_nat n) chunk'))]). split_and!; try done.
      - eapply calls_app; [done|]. apply calls_one. by split.
      - rewrite bytes_read_app, app_assoc, Hb. unfold bytes_read. cbn. by rewrite app_nil_r. }
    destruct (Z.ltb_spec (len chunk') n).
    + pose proof (way_with_terminal _ s2 (TransportFailure_new InternalError)
        (rd_decoder (reader s2)) Hin) as Hx. by rewrite rd_set_decoder_same in Hx.
    + destruct (Z.eqb_spec n 0) as [->|Hz].
      * assert (Hw2 : way s2).
        { destruct Hin as (evs & Hev & Hi & Ht & Hb). exists evs. split_and!; try done.
          cbn in Hb. by rewrite app_nil_r in Hb. }
        specialize (Heof s2 Hw2). unfold post in Heof.
        by destruct (at_eof s2) as [[o|e] s3].
      * pose proof (post_received _ s2 Hpos Hin) as Hp. unfold post in Hp.
        assert (Hlen : len (take (Z.to_nat n) chunk') = n).
        { unfold len in *. rewrite length_take. lia. }
        destruct (received deadline (take (Z.to_nat n) chunk') s2) as [[[f|]|e] s3]; cbn in *.
        -- destruct Hp as [Hcore Hp]; [by rewrite Hr1|]. by split; [congruence|].
        -- destruct Hp as (Hcore & Hp & Hr3 & Hl); [by rewrite Hr1|]. split; [congruence|].
           split_and!; try done. rewrite Hl, Hr1, Hlen. lia.
        -- apply Hp. by rewrite Hr1.
  - set (s2 := mkConn _ _ _).
    assert (Hw2 : way s2).
    { destruct Hw1 as (evs & Hev & Hi & Ht & Hb). exists (evs ++ [EvRead raw d (Err failure)]).
      split_and!; try done.
      - eapply calls_app; [done|]. apply calls_one. by split.
      - by rewrite bytes_read_app, app_nil_r. }
    pose proof (post_read_failed at_eof failure s2 Heof Hw2) as Hp. unfold post in Hp.
    by destruct (read_failed at_eof failure s2) as [[o|e] s3].
Qed.

Lemma post_read_loop at_eof chunk (s : Conn W C) :
  eof_fails at_eof -> way s -> ready_frames (reader s) = [] ->
  post (repeat_until READ_TURNS (read_turn at_eof raw deadline)) (chunk, s)
    (fun o cs => match o with
                 | Some f => call_ok raw deadline s0 f (snd cs) /\ core_of (snd cs) = core_of s
                 | None => False
                 end)
    (fun e cs => X e (snd cs)).
Proof.
  intros Heof Hw Hready.
  apply (post_repeat _
    (fun cs => way (snd cs) /\ ready_frames (reader (snd cs)) = [] /\ core_of (snd cs) = core_of s)
    (fun cs => Z.to_nat (65537 - len (residue (rd_decoder (reader (snd cs)))))) 
    (fun f cs => call_ok raw deadline s0 f (snd cs) /\ core_of (snd cs) = core_of s)).
  - intros [chunk1 s1] (Hw1 & Hr1 & Hc1). cbn [snd] in *.
    eapply post_mono; [by apply post_read_turn| |done].
    intros [f|] [chunk2 s2]; cbn [snd]; intros [Hc2 Ht]; [split; [done|congruence]|].
    destruct Ht as (Hw2 & Hr2 & Hl2). split; [split_and!; [done..|congruence]|].
    destruct Hw2 as (_ & _ & [Hi _] & Ht & _). pose proof (held_residue _ (rd_held _ (Hi Ht))).
    cbn [snd]. lia.
  - done.
  - cbn [snd]. pose proof (len_nonneg (residue (rd_decoder (reader s)))). unfold READ_TURNS. lia.
Qed.
End Steps.

(** A whole call. *)
Lemma post_read_outer_with {C} raw deadline at_eof (s : Conn W C) :
  reader_inv (reader s) -> eof_fails raw deadline s at_eof ->
  post (read_outer_with at_eof raw deadline) s
    (fun f s' => call_ok raw deadline s f s' /\ core_of s' = core_of s)
    (call_err raw deadline s).
Proof.
  intros Hi Heof. unfold read_outer_with. apply post_bind.
  unfold post at 1, on_reader at 1, ensure_not_terminal.
  destruct (terminal (reader s)) as [f|] eqn:Ht; cbn.
  { exists []. split_and!; cbn; [apply calls_nil|done|by left]. }
  assert (Hw : on_way raw deadline s (mkConn (reader s) (core_of s) (io s))).
  { exists []. split_and!; cbn; try done; [apply calls_nil|apply app_nil_r]. }
  eapply post_check_deadlines; [exact Hw|]. intros s1 Hw1 Hr1 Hc1 Hd.
  eapply post_pop; [exact Hw1| |].
  - intros Hnil. pose proof (post_loop _ (fun f cs => call_ok raw deadline s f (snd cs) /\
        core_of (snd cs) = core_of s1) _ _ (TransportFailure_new InternalError) _
      (post_read_loop raw deadline s at_eof (repeat (b8 0) READ_CHUNK) s1 Heof Hw1 Hnil)) as Hp.
    unfold post in *.
    destruct (loop_ _ _ _ _) as [[f|e] [chunk s']]; [|done]. cbn in *.
    destruct Hp as [Hp Hc]. split; [done|congruence].
  - intros f fs Hf Hok. by apply post_ret.
Qed.

Lemma eof_fails_outer {C} raw deadline (s0 : Conn W C) :
  eof_fails raw deadline s0 eof_from_outer.
Proof.
  intros s Hw. unfold post, eof_from_outer, on_reader.
  destruct (outer_eof (rd_decoder (reader s))) as [r d]. by apply way_terminal.
Qed.

Lemma post_read_outer {C} raw deadline (s : Conn W C) :
  reader_inv (reader s) ->
  post (read_outer raw deadline) s
    (fun f s' => call_ok raw deadline s f s' /\ core_of s' = core_of s)
    (call_err raw deadline s).
Proof. intros Hi. apply post_read_outer_with; [done|]. apply eof_fails_outer. Qed.

(** ** Writing *)

(** The bytes the stream took. *)
Definition event_sent (e : Event (W:=W)) : bytes :=
  match e with EvWrite _ input _ (Ok n) => take (Z.to_nat n) input | _ => [] end.
Definition bytes_sent evs : bytes := concat (event_sent <$> evs).

Lemma bytes_sent_app a b : bytes_sent (a ++ b) = bytes_sent a ++ bytes_sent b.
Proof. unfold bytes_sent. by rewrite fmap_app, concat_app. Qed.

(** Calls that send [b] and read nothing. *)
Definition sending raw deadline (b : bytes) (s s' : Io (W:=W)) : Prop :=
  exists evs, calls raw deadline s s' evs /\ bytes_read evs = [] /\ bytes_sent evs = b.

Lemma sending_nil raw deadline s : sending raw deadline [] s s.
Proof. exists []. split_and!; try done. apply calls_nil. Qed.
Lemma sending_app raw deadline s1 s2 s3 a b :
  sending raw deadline a s1 s2 -> sending raw deadline b s2 s3 ->
  sending raw deadline (a ++ b) s1 s3.
Proof.
  intros (e1 & H1 & Hr1 & Hs1) (e2 & H2 & Hr2 & Hs2). exists (e1 ++ e2).
  split_and!; [by eapply calls_app|by rewrite bytes_read_app, Hr1, Hr2|].
  by rewrite bytes_sent_app, Hs1, Hs2.
Qed.
Lemma sending_time raw deadline s n w : sending raw deadline [] s (io_event (EvTime n) w s).
Proof. exists [EvTime n]. split_and!; try done. by apply calls_one. Qed.

Lemma post_ensure_deadline raw deadline s :
  post (ensure_deadline deadline) s (fun _ s' => sending raw deadline [] s s')
    (fun e s' => e = TransportFailure_new Timeout /\ sending raw deadline [] s s').
Proof.
  unfold ensure_deadline. apply post_bind. unfold post at 1.
  destruct (now_ok s) as (n & w & -> & _). apply post_lift; unfold ensure_deadline_at;
    destruct (deadline_expired_at _ _); try done; intros ? [= <-].
  - apply sending_time.
  - split; [done|]. apply sending_time.
Qed.

(** A stream that takes no more than it is given, as its trait says. *)
Definition writes_no_more : Prop :=
  forall raw b d w n, fst (raw_write raw b d w) = Ok n -> n <= len b.

(** A write that failed sent a part, and all of it only if the stream took more. *)
Definition write_cut raw deadline (b : bytes) (s : Io (W:=W)) (e : TransportFailure) (s' : Io)
    : Prop :=
  exists p q, b = p ++ q /\ sending raw deadline p s s' /\ (writes_no_more -> q <> []) /\
    tf_handoff e = NotHandedOff.

Lemma write_cut_app raw deadline a b s1 s2 e s3 :
  sending raw deadline a s1 s2 -> write_cut raw deadline b s2 e s3 ->
  write_cut raw deadline (a ++ b) s1 e s3.
Proof.
  intros Ha (p & q & -> & Hp & Hq & He). exists (a ++ p), q.
  split_and!; [by rewrite app_assoc| |done..]. by eapply sending_app.
Qed.

Lemma post_write_turn raw deadline b s :
  post (write_turn raw deadline) (b, s)
    (fun o bs => match o with
                 | Some _ => b = [] /\ snd bs = s
                 | None => exists p, b = p ++ fst bs /\ p <> [] /\ sending raw deadline p s (snd bs)
                 end)
    (fun e bs => write_cut raw deadline b s e (snd bs)).
Proof.
  unfold post, write_turn. destruct b as [|x b]; [done|]. cbn [is_empty].
  set (xb := x :: b). pose proof (post_ensure_deadline raw deadline s) as He.
  unfold post, mbind_M in *.
  destruct (ensure_deadline deadline s) as [[[]|e] s1]; cbn in He.
  2:{ destruct He as [-> He]. exists [], xb. by split_and!. }
  unfold io_write.
  assert (Hsane : writes_no_more -> forall n, fst (raw_write raw xb deadline (world s1)) = Ok n ->
            n <= len xb) by (intros Hs n; apply Hs).
  pose proof (raw_write_usize raw xb deadline (world s1)) as Hu.
  destruct (raw_write raw xb deadline (world s1)) as [[n|f] w]; cbn in *.
  - specialize (Hu n eq_refl).
    assert (Hsend : sending raw deadline (take (Z.to_nat n) xb) s
              (io_event (EvWrite raw xb deadline (Ok n)) w s1)).
    { change (take (Z.to_nat n) xb) with ([] ++ take (Z.to_nat n) xb).
      eapply sending_app; [exact He|]. eexists. split_and!; [by apply calls_one|done|].
      unfold bytes_sent. cbn. by rewrite app_nil_r. }
    destruct (Z.eqb_spec n 0) as [->|]; cbn.
    { exists [], xb. by split_and!. }
    destruct (Z.ltb_spec (len xb) n); cbn.
    + exists (take (Z.to_nat n) xb), (drop (Z.to_nat n) xb). split_and!; [|done| |done].
      * by rewrite take_drop.
      * intros Hs. specialize (Hsane Hs n eq_refl). lia.
    + exists (take (Z.to_nat n) xb). split_and!; [by rewrite take_drop| |done].
      destruct (Z.to_nat n) eqn:Hz; [lia|done].
  - exists [], xb. split_and!; [done| |done|].
    + change (@nil byte) with ([] ++ [] : bytes). eapply sending_app; [exact He|].
      eexists. split_and!; [by apply calls_one|done|done].
    + unfold platform_failure. by destruct (bool_decide _).
Qed.

(** [write_all] sends everything, or fails having sent a part. *)
Lemma post_write_all raw b deadline s :
  post (write_all raw b deadline) s (fun _ s' => sending raw deadline b s s')
    (fun e s' => write_cut raw deadline b s e s').
Proof.
  assert (Hp : post (loop_ (Pos.of_succ_nat (length b)) (TransportFailure_new InternalError)
                       (write_turn raw deadline)) (b, s)
                 (fun _ bs => sending raw deadline b s (snd bs))
                 (fun e bs => write_cut raw deadline b s e (snd bs))).
  { apply post_loop, (post_repeat _
      (fun bs => exists p, b = p ++ fst bs /\ sending raw deadline p s (snd bs))
      (fun bs => length (fst bs)) (fun _ bs => sending raw deadline b s (snd bs))).
    - intros [b1 s1] (p & Hb & Hs). cbn [fst snd] in *.
      eapply post_mono; [apply post_write_turn| |].
      + intros [u|] [b2 s2]; cbn [fst snd].
        * intros [-> ->]. by rewrite app_nil_r in Hb; subst.
        * intros (p2 & Hb1 & Hne & Hs2). subst b1. split; [|rewrite length_app; destruct p2; [done|cbn; lia]].
          exists (p ++ p2). split; [by rewrite Hb, app_assoc|]. by eapply sending_app.
      + intros e [b2 s2]. cbn [snd]. subst b. by apply write_cut_app.
    - exists []. split; [done|]. apply sending_nil.
    - cbn [fst]. lia. }
  unfold post, write_all in *. by destruct (loop_ _ _ _ _) as [[[]|e] [b' s']].
Qed.

Lemma post_write_frames raw frames deadline s :
  post (write_frames raw frames deadline) s (fun _ s' => sending raw deadline (concat frames) s s')
    (fun e s' => write_cut raw deadline (concat frames) s e s').
Proof.
  revert s. induction frames as [|f fs IH]; intros s; cbn [write_frames concat].
  - apply post_ret, sending_nil.
  - apply post_bind. eapply post_mono; [apply post_write_all| |].
    + intros [] s1 H1. cbn beta. eapply post_mono; [apply IH| |].
      * intros [] s2 H2. by eapply sending_app.
      * intros e s2 H2. by eapply write_cut_app.
    + intros e s1 (p & q & -> & Hp & Hq & He). exists p, (q ++ concat fs).
      rewrite app_assoc. split_and!; [done..| |done]. intros Hs Hnil.
      by apply (Hq Hs); destruct q.
Qed.

(** The one frame an error may still send. *)
Lemma c1_failure_calls raw error deadline s f s' :
  c1_failure_after_close raw error deadline s = (f, s') ->
  f = core_failure error /\
  exists evs, calls raw deadline s s' evs /\ bytes_read evs = [] /\
    match fst (take_close_frame error) with
    | Some frame => bytes_sent evs `prefix_of` frame
    | None => evs = []
    end.
Proof.
  unfold c1_failure_after_close, return_after_reserved_close.
  destruct (fst (take_close_frame error)) as [frame|]; intros [= <- <-].
  - split; [done|]. pose proof (post_write_all raw frame deadline s) as Hp. unfold post in Hp.
    destruct (write_all raw frame deadline s) as [[u|e] s1]; cbn.
    + destruct Hp as (evs & Hc & Hr & Hs). exists evs. by rewrite Hs.
    + destruct Hp as (p & q & Hpq & (evs & Hc & Hr & Hs) & _). exists evs.
      split_and!; [done..|exists q; congruence].
  - split; [done|]. exists []. split_and!; [apply calls_nil|done..].
Qed.

(** ** Any number of reads *)

Fixpoint reads {C} raw (ds : list AbsoluteDeadline) (s : Conn W C)
    : list (TRes bytes) * Conn W C :=
  match ds with
  | [] => ([], s)
  | d :: ds =>
      let '(r, s) := read_outer raw d s in
      let '(rs, s) := reads raw ds s in (r :: rs, s)
  end.

Definition frames_of (rs : list (TRes bytes)) : list bytes :=
  omap (fun r => match r with Ok f => Some f | Err _ => None end) rs.

Lemma read_outer_terminal {C} raw d (s : Conn W C) e :
  terminal (reader s) = Some e -> read_outer raw d s = (Err e, s).
Proof.
  intros Ht. unfold read_outer, read_outer_with, mbind_M, on_reader, ensure_not_terminal.
  rewrite Ht. by destruct s.
Qed.
Lemma reads_terminal {C} raw ds (s : Conn W C) e :
  terminal (reader s) = Some e ->
  frames_of (fst (reads raw ds s)) = [] /\ snd (reads raw ds s) = s.
Proof.
  intros Ht. induction ds as [|d ds IH]; [done|]. cbn [reads].
  rewrite (read_outer_terminal _ _ _ e Ht). by destruct (reads raw ds s).
Qed.

Definition waits raw (ds : list AbsoluteDeadline) (e : Event (W:=W)) : Prop :=
  exists d, d ∈ ds /\ within_deadline raw d e.

Lemma waits_first raw d ds evs :
  Forall (within_deadline raw d) evs -> Forall (waits raw (d :: ds)) evs.
Proof. intros Hf. apply (Forall_impl _ _ _ Hf). intros e He. exists d. split; [by left|done]. Qed.
Lemma waits_cons raw d ds evs : Forall (waits raw ds) evs -> Forall (waits raw (d :: ds)) evs.
Proof. intros Hf. apply (Forall_impl _ _ _ Hf). intros e (x & Hx & He). exists x. split; [by right|done]. Qed.

Lemma reads_spec {C} raw ds (s s' : Conn W C) rs :
  reader_inv (reader s) -> terminal (reader s) = None -> reads raw ds s = (rs, s') ->
  exists evs rest, log (io s') = log (io s) ++ evs /\ Forall (waits raw ds) evs /\
    Forall outer_frame (frames_of rs) /\ reader_inv (reader s') /\
    in_hand (reader s) ++ bytes_read evs = concat (frames_of rs) ++ rest /\
    (terminal (reader s') = None -> rest = in_hand (reader s')).
Proof.
  revert s rs. induction ds as [|d ds IH]; intros s rs Hi Ht.
  { intros [= <- <-]. exists [], (in_hand (reader s)). rewrite !app_nil_r. by split_and!. }
  cbn [reads]. pose proof (post_read_outer raw d s Hi) as Hp. unfold post in Hp.
  destruct (read_outer raw d s) as [[f|e] s1].
  - destruct Hp as [(evs1 & [Hl1 Hw1] & Hi1 & Ht1 & Hf & Hb1) _].
    destruct (reads raw ds s1) as [rs1 s2] eqn:Hrs. intros [= <- <-].
    destruct (IH s1 rs1 Hi1 Ht1 Hrs) as (evs2 & rest & Hl2 & Hw2 & Hf2 & Hi2 & Hb2 & Hr2).
    exists (evs1 ++ evs2), rest. split_and!; [by rewrite Hl2, Hl1, app_assoc| |by constructor|done| |done].
    + apply Forall_app. split; [by apply waits_first|by apply waits_cons].
    + cbn [frames_of omap list_omap concat]. fold (frames_of rs1).
      by rewrite bytes_read_app, app_assoc, Hb1, <- !app_assoc, Hb2.
  - destruct Hp as (evs1 & [Hl1 Hw1] & Hi1 & Hcase).
    destruct (reads raw ds s1) as [rs1 s2] eqn:Hrs. intros [= <- <-].
    destruct Hcase as [Ht1|[Ht1 Hb1]].
    + destruct (reads_terminal raw ds s1 e Ht1) as [Hf Hs]. rewrite Hrs in *. cbn in Hf, Hs. subst s2.
      exists evs1, (in_hand (reader s) ++ bytes_read evs1).
      assert (frames_of (Err e :: rs1) = []) as -> by exact Hf.
      split_and!; try done; [by apply waits_first|by rewrite Ht1].
    + destruct (IH s1 rs1 Hi1 Ht1 Hrs) as (evs2 & rest & Hl2 & Hw2 & Hf2 & Hi2 & Hb2 & Hr2).
      exists (evs1 ++ evs2), rest. split_and!; try done; [by rewrite Hl2, Hl1, app_assoc|..].
      * apply Forall_app. split; [by apply waits_first|by apply waits_cons].
      * cbn [frames_of omap list_omap]. fold (frames_of rs1). by rewrite bytes_read_app, app_assoc, Hb1.
Qed.

(** C26: whatever the stream answers and however it cuts its bytes, after any number of reads
    the frames given out are envelopes, and in order they are what was received, up to what
    the reader still holds; a failure of the stream's contents is final: every later read
    gives it again and makes no call; and no call waits beyond the deadline of a read. *)
Theorem reads_faithful {C} raw ds (c : C) w rs s' :
  reads raw ds (mkConn RawFrameReader_new c (mkIo w [])) = (rs, s') ->
  Forall (waits raw ds) (log (io s')) /\ Forall outer_frame (frames_of rs) /\
  concat (frames_of rs) `prefix_of` bytes_read (log (io s')) /\
  match terminal (reader s') with
  | None => bytes_read (log (io s')) = concat (frames_of rs) ++ in_hand (reader s')
  | Some e => forall d, read_outer raw d s' = (Err e, s')
  end.
Proof.
  intros Hr. destruct (reads_spec raw ds (mkConn RawFrameReader_new c (mkIo w [])) s' rs
    reader_inv_new eq_refl Hr) as (evs & rest & Hl & Hw & Hf & Hi & Hb & Hrest).
  cbn in Hl, Hb. rewrite Hl. split_and!; [done..|by exists rest|].
  destruct (terminal (reader s')) as [e|] eqn:Ht; [|by rewrite Hb, Hrest].
  intros d. by apply read_outer_terminal.
Qed.

Section SessionReads.
Context `{Minicbor} `{Snow}.

Lemma eof_fails_session raw deadline (s0 : Conn W SessionCore) :
  eof_fails raw deadline s0 (eof_from_session raw deadline).
Proof.
  intros s (evs & Hc & Hi & Ht & Hb). unfold post, eof_from_session.
  destruct (outer_eof (rd_decoder (reader s))) as [outer d].
  destruct (s_eof (core_of s)) as [[[]|e] c]; cbn.
  - exists evs. split_and!; [done| |by left]. by apply reading_terminal.
  - destruct (c1_failure_after_close raw e deadline (io s)) as [f w] eqn:Hf.
    destruct (c1_failure_calls _ _ _ _ _ _ Hf) as (_ & evs' & Hc' & Hr' & _). cbn.
    exists (evs ++ evs'). split_and!; [by eapply calls_app| |by left]. by apply reading_terminal.
Qed.

Lemma post_read_outer_for_session raw deadline (s : Conn W SessionCore) :
  reader_inv (reader s) ->
  post (read_outer_for_session raw deadline) s
    (fun f s' => call_ok raw deadline s f s' /\ core_of s' = core_of s)
    (call_err raw deadline s).
Proof. intros Hi. apply post_read_outer_with; [done|]. apply eof_fails_session. Qed.
End SessionReads.
End Reads.

(** ** Concrete inputs: a stream that plays a tape *)

(** The answers of the reads to come; everything written is taken, and the clock stands. *)
Record Tape := mkTape { incoming : list (PRes bytes) }.

Definition tape_read (chunk : bytes) (w : Tape) : (PRes Z * bytes) * Tape :=
  match incoming w with
  | [] => ((Err (PlatformFailure_new TimedOut), chunk), w)
  | Err e :: l => ((Err e, chunk), mkTape l)
  | Ok b :: l =>
      let b := take (length chunk) b in ((Ok (len b), b ++ drop (length b) chunk), mkTape l)
  end.

Lemma tape_read_len chunk w : len (snd (fst (tape_read chunk w))) = len chunk.
Proof.
  destruct w as [[|[x|e] l]]; cbn; try done. unfold len. rewrite length_app, length_drop, length_take.
  lia.
Qed.
Lemma tape_read_usize chunk w n : fst (fst (tape_read chunk w)) = Ok n -> 0 <= n.
Proof. destruct w as [[|[x|e] l]]; cbn; try done. intros [= <-]. apply len_nonneg. Qed.
Lemma tape_write_usize (b : bytes) n : @Ok PlatformFailure Z (len b) = Ok n -> 0 <= n.
Proof. intros [= <-]. apply len_nonneg. Qed.
Lemma tape_ms_unsigned n : Some 1000 = Some n -> 0 <= n.
Proof. by intros [= <-]. Qed.

#[export] Instance tape_io : PlatformIo Tape := {|
  RawDuplex := unit; RawConnector := unit; CleanupReceipt := unit; Cancellation := unit;
  raw_read _ chunk _ w := tape_read chunk w;
  raw_write _ b _ w := (Ok (len b), w);
  raw_cancel _ w := w;
  raw_connect _ _ _ w := (Ok tt, w);
  raw_cleanup _ _ _ w := (Ok tt, w);
  Cancellation_new w := (tt, w);
  system_ms w := (Some 1000, w);
  raw_read_len _ chunk _ w := tape_read_len chunk w;
  raw_read_usize _ chunk _ w n := tape_read_usize chunk w n;
  raw_write_usize _ b _ _ n := tape_write_usize b n;
  system_ms_unsigned _ n := tape_ms_unsigned n
|}.

Definition tape : RawDuplex (W:=Tape) := tt.

#[export] Instance tape_steady : SteadyClock Tape.
Proof. intros w. exists 1000. by split. Qed.

(** Two envelopes in three pieces, and the end of the stream. *)
Definition ex_tape : Tape :=
  mkTape [Ok [b8 0]; Ok [b8 3; b8 7; b8 8]; Ok [b8 9; b8 0; b8 1; b8 5; b8 0]; Ok []].
Definition ex_reads : list (TRes bytes) * Conn Tape unit :=
  reads tape (repeat (mkDeadline 2000) 4) (mkConn RawFrameReader_new tt (mkIo ex_tape [])).

Lemma reads_faithful_witness :
  frames_of (fst ex_reads) = [[b8 0; b8 3; b8 7; b8 8; b8 9]; [b8 0; b8 1; b8 5]] /\
  concat (frames_of (fst ex_reads)) `prefix_of` bytes_read (log (io (snd ex_reads))).
Proof.
  split; [vm_compute; reflexivity|].
  destruct ex_reads as [rs s'] eqn:He.
  apply (reads_faithful tape (repeat (mkDeadline 2000) 4) tt ex_tape rs s' He).
Defined.
