(* ===== verification/RawSessions.v ===== *)
(** The exchanges of the raw transport: where their calls go and how long they may wait, that
    their loops end, what a failure says about what was sent, and what is cancelled and
    cleaned up. *)

From S2P Require Import Prelude Errors Crates CratesRef Outer Records Payloads Reassembly NoiseIO Lease Bootstrap Session Control Adapter RawTransport RawReads.

Section Confined.
Context `{PlatformIo W} `{!SteadyClock W}.
Implicit Types (raw : RawDuplex) (deadline : AbsoluteDeadline).

(** ** Computations that call one stream, within a deadline *)

Definition io_confined {A} raw deadline (m : IO (W:=W) A) : Prop :=
  forall s, exists evs, calls raw deadline s (snd (m s)) evs.
Definition confined {C A} raw deadline (m : M (Conn W C) TransportFailure A) : Prop :=
  forall s, reader_inv (reader s) -> reader_inv (reader (snd (m s))) /\
    exists evs, calls raw deadline (io s) (io (snd (m s))) evs.

Lemma calls_earlier raw d d' s s' evs :
  dl_value d <= dl_value d' -> calls raw d s s' evs -> calls raw d' s s' evs.
Proof.
  intros Hd [Hl Hf]. split; [done|]. apply (Forall_impl _ _ _ Hf).
  intros [] He; cbn in *; try done; split; try apply He; destruct He; lia.
Qed.

Lemma io_confined_bind {A B} raw deadline (m : IO A) (k : A -> IO B) :
  io_confined raw deadline m -> (forall a, io_confined raw deadline (k a)) ->
  io_confined raw deadline (mbind_M m k).
Proof.
  intros Hm Hk s. destruct (Hm s) as [e1 H1]. unfold mbind_M.
  destruct (m s) as [[a|e] s1]; [|by exists e1]. destruct (Hk a s1) as [e2 H2].
  exists (e1 ++ e2). by eapply calls_app.
Qed.
Lemma io_confined_lift {A} raw deadline (r : TRes A) : io_confined raw deadline (lift r).
Proof. intros s. exists []. apply calls_nil. Qed.
Lemma io_confined_ret {A} raw deadline (a : A) : io_confined raw deadline (ret a).
Proof. intros s. exists []. apply calls_nil. Qed.
Lemma io_confined_earlier {A} raw d d' (m : IO A) :
  dl_value d <= dl_value d' -> io_confined raw d m -> io_confined raw d' m.
Proof. intros Hd Hm s. destruct (Hm s) as [evs He]. exists evs. by eapply calls_earlier. Qed.
Lemma io_confined_now raw deadline : io_confined raw deadline now_unix_ms.
Proof.
  intros s. destruct (now_ok s) as (n & w & -> & _). exists [EvTime (Some n)]. by apply calls_one.
Qed.
Lemma io_confined_write_frames raw fs deadline : io_confined raw deadline (write_frames raw fs deadline).
Proof.
  intros s. pose proof (post_write_frames raw fs deadline s) as Hp. unfold post in Hp.
  destruct (write_frames raw fs deadline s) as [[u|e] s'].
  - destruct Hp as (evs & Hc & _). by exists evs.
  - destruct Hp as (p & q & _ & (evs & Hc & _) & _). by exists evs.
Qed.
Lemma io_confined_write raw b deadline : io_confined raw deadline (write_all raw b deadline).
Proof.
  intros s. pose proof (post_write_all raw b deadline s) as Hp. unfold post in Hp.
  destruct (write_all raw b deadline s) as [[u|e] s'].
  - destruct Hp as (evs & Hc & _). by exists evs.
  - destruct Hp as (p & q & _ & (evs & Hc & _) & _). by exists evs.
Qed.
Lemma io_confined_c1 {A} raw deadline (r : Res A) : io_confined raw deadline (or_c1 raw deadline r).
Proof.
  intros s. unfold or_c1. destruct r as [a|e]; [exists []; apply calls_nil|].
  destruct (c1_failure_after_close raw e deadline s) as [f s'] eqn:Hf.
  destruct (c1_failure_calls _ _ _ _ _ _ Hf) as (_ & evs & Hc & _). by exists evs.
Qed.

Lemma confined_bind {C A B} raw deadline (m : M (Conn W C) TransportFailure A)
    (k : A -> M (Conn W C) TransportFailure B) :
  confined raw deadline m -> (forall a, confined raw deadline (k a)) ->
  confined raw deadline (mbind_M m k).
Proof.
  intros Hm Hk s Hi. destruct (Hm s Hi) as [Hi1 [e1 H1]]. unfold mbind_M.
  destruct (m s) as [[a|e] s1]; [|by split; [|exists e1]]. destruct (Hk a s1 Hi1) as [Hi2 [e2 H2]].
  split; [done|]. exists (e1 ++ e2). by eapply calls_app.
Qed.
Lemma confined_lift {C A} raw deadline (r : TRes A) : confined (C:=C) raw deadline (lift r).
Proof. intros s Hi. split; [done|]. exists []. apply calls_nil. Qed.
Lemma confined_earlier {C A} raw d d' (m : M (Conn W C) TransportFailure A) :
  dl_value d <= dl_value d' -> confined raw d m -> confined raw d' m.
Proof.
  intros Hd Hm s Hi. destruct (Hm s Hi) as [Hi' [evs He]]. split; [done|]. exists evs.
  by eapply calls_earlier.
Qed.
Lemma confined_io {C A} raw deadline (m : IO A) :
  io_confined raw deadline m -> confined (C:=C) raw deadline (on_io m).
Proof.
  intros Hm s Hi. destruct (Hm (io s)) as [evs He]. unfold on_io.
  destruct (m (io s)) as [r w]. split; [done|]. by exists evs.
Qed.
Lemma confined_core {C A} raw deadline (m : M C Error A) :
  confined raw deadline (on_core raw deadline m).
Proof.
  intros s Hi. unfold on_core. destruct (m (core_of s)) as [r c].
  destruct (io_confined_c1 raw deadline r (io s)) as [evs He].
  destruct (or_c1 raw deadline r (io s)) as [r' w]. split; [done|]. by exists evs.
Qed.
Lemma confined_map {C A} raw deadline f (m : M (Conn W C) TransportFailure A) :
  confined raw deadline m -> confined raw deadline (map_failure f m).
Proof.
  intros Hm s Hi. specialize (Hm s Hi). unfold map_failure. by destruct (m s).
Qed.
Lemma confined_loop {C A} raw deadline p spent (m : M (Conn W C) TransportFailure (option A)) :
  confined raw deadline m -> confined raw deadline (loop_ p spent m).
Proof.
  intros Hm s Hi.
  assert (Ht : forall n s, reader_inv (reader s) ->
    reader_inv (reader (snd (turns_of m n s))) /\
    exists evs, calls raw deadline (io s) (io (snd (turns_of m n s))) evs).
  { intros n. induction n as [|n IH]; intros s0 Hi0; cbn [turns_of].
    - split; [done|]. exists []. apply calls_nil.
    - destruct (Hm s0 Hi0) as [Hi1 [e1 H1]]. destruct (m s0) as [[[a|]|e] s1];
        [by split; [|exists e1]| |by split; [|exists e1]].
      destruct (IH s1 Hi1) as [Hi2 [e2 H2]]. split; [done|]. exists (e1 ++ e2).
      by eapply calls_app. }
  unfold loop_. rewrite repeat_until_turns. specialize (Ht (Pos.to_nat p) s Hi).
  by destruct (turns_of m (Pos.to_nat p) s) as [[[a|]|e] s'].
Qed.

Lemma confined_post {C A} raw deadline (m : M (Conn W C) TransportFailure A)
    (Q : Conn W C -> A -> Conn W C -> Prop) :
  (forall s, reader_inv (reader s) -> post m s (fun f s' => Q s f s') (call_err raw deadline s)) ->
  (forall s f s', Q s f s' -> reader_inv (reader s') /\
     exists evs, calls raw deadline (io s) (io s') evs) ->
  confined raw deadline m.
Proof.
  intros Hm Hq s Hi. specialize (Hm s Hi). unfold post in Hm. destruct (m s) as [[a|e] s'].
  - by eapply Hq.
  - destruct Hm as (evs & Hc & Hi' & _). split; [done|]. by exists evs.
Qed.
Lemma call_ok_calls {C} raw deadline (s : Conn W C) f s' :
  call_ok raw deadline s f s' ->
  reader_inv (reader s') /\ exists evs, calls raw deadline (io s) (io s') evs.
Proof. intros (evs & Hc & Hi & _). split; [done|]. by exists evs. Qed.
Lemma confined_read_outer {C} raw deadline : confined (C:=C) raw deadline (read_outer raw deadline).
Proof.
  eapply confined_post; [intros s Hi; by apply post_read_outer|].
  intros s f s' [Hc _]. by eapply call_ok_calls.
Qed.

Section WithCore.
Context `{Minicbor} `{Snow}.

Lemma confined_read_session raw deadline : confined raw deadline (read_outer_for_session raw deadline).
Proof.
  eapply confined_post; [intros s Hi; by apply post_read_outer_for_session|].
  intros s f s' [Hc _]. by eapply call_ok_calls.
Qed.
Lemma confined_read_response raw deadline : confined raw deadline (read_response raw deadline).
Proof.
  apply confined_loop, confined_bind; [apply confined_read_session|]. intros o. apply confined_core.
Qed.
Lemma confined_exchange raw request deadline : confined raw deadline (exchange raw request deadline).
Proof.
  apply confined_bind; [apply confined_core|]. intros fs.
  apply confined_bind; [apply confined_io, io_confined_write_frames|]. intros _.
  apply confined_map, confined_read_response.
Qed.
Lemma confined_heartbeat raw counter deadline : confined raw deadline (heartbeat raw counter deadline).
Proof.
  apply confined_bind; [apply confined_core|]. intros request.
  apply confined_bind; [apply confined_io, io_confined_write|]. intros _.
  apply confined_bind; [|intros; apply confined_lift].
  apply confined_bind; [apply confined_read_outer|]. intros reply. apply confined_core.
Qed.
End WithCore.
End Confined.

(** ** The loops end *)

Section Ends.
Context `{PlatformIo W} `{!SteadyClock W} `{Minicbor} `{!MinicborLaws} `{Snow}.
Implicit Types (raw : RawDuplex) (deadline : AbsoluteDeadline).

Lemma b_read_response_counts o s s' :
  b_read_application_response o s = (Ok None, s') ->
  s_received_records s + 1 < RECORD_LIMIT /\
  s_received_records s' = s_received_records s + 1.
Proof.
  unfold b_read_application_response. rewrite finish_ok.
  intros (p & s1 & r & m & ra & _ & _ & _ & Hd & _ & _ & _ & _ & -> & _)%read_application_ok.
  apply s_decrypt_counted_ok in Hd as (_ & Hr & _ & t & t' & _ & _ & ->). by destruct m.
Qed.

Lemma on_core_post {C A} raw deadline (m : M C Error A) (s : Conn W C)
    (Q : A -> Conn W C -> Prop) (X : TransportFailure -> Conn W C -> Prop) :
  post m (core_of s) (fun a c => Q a (mkConn (reader s) c (io s)))
    (fun e c => forall s', reader s' = reader s -> core_of s' = c -> X (core_failure e) s') ->
  post (on_core raw deadline m) s Q X.
Proof.
  unfold post, on_core, or_c1. destruct (m (core_of s)) as [[a|e] c]; [done|].
  destruct (c1_failure_after_close raw e deadline (io s)) as [f w] eqn:Hf.
  apply c1_failure_calls in Hf as [-> _]. intros Hx. by apply Hx.
Qed.

Lemma post_read_response raw deadline (s : Conn W SessionCore) :
  reader_inv (reader s) -> 0 <= s_received_records (core_of s) ->
  post (repeat_until RESPONSE_TURNS (response_turn raw deadline)) s
    (fun o s' => match o with Some _ => reader_inv (reader s') | None => False end)
    (fun _ s' => True).
Proof.
  intros Hi Hr.
  apply (post_repeat _
    (fun s => reader_inv (reader s) /\ 0 <= s_received_records (core_of s))
    (fun s => Z.to_nat (RECORD_LIMIT - s_received_records (core_of s)))
    (fun _ s' => reader_inv (reader s'))); [|done|unfold RECORD_LIMIT, RESPONSE_TURNS; lia].
  clear s Hi Hr. intros s [Hi Hr]. unfold response_turn. apply post_bind.
  eapply post_mono; [by apply post_read_outer_for_session| |done].
  intros f s1 [(evs & _ & Hi1 & _) Hc]. cbn beta. apply on_core_post. unfold post.
  destruct (b_read_application_response f (core_of s1)) as [[[m|]|e] c] eqn:Hb; [done| |done].
  destruct (b_read_response_counts _ _ _ Hb) as [Hlt Hs]. cbn [reader core_of].
  rewrite Hs, Hc in *. split; [split; [done|lia]|lia].
Qed.

(** C28: the reading loops end.  From any reader that earlier reads leave, the loop of a read
    comes back before its 65538 turns are used up, at the end of the stream in either way,
    and the loop that waits for the last record of a response before its 2{^32}+1 turns are:
    the bounds of the model are never met, whatever the stream answers. *)
Theorem reading_ends raw deadline chunk (s : Conn W SessionCore) :
  reader_inv (reader s) -> terminal (reader s) = None -> 0 <= s_received_records (core_of s) ->
  (ready_frames (reader s) = [] ->
   fst (repeat_until READ_TURNS (read_turn eof_from_outer raw deadline) (chunk, s)) <> Ok None /\
   fst (repeat_until READ_TURNS (read_turn (eof_from_session raw deadline) raw deadline) (chunk, s))
     <> Ok None) /\
  fst (repeat_until RESPONSE_TURNS (response_turn raw deadline) s) <> Ok None.
Proof.
  intros Hi Ht Hr. pose proof (on_way_refl raw deadline s Hi Ht) as Hw.
  assert (Hpost : forall {S A} (m : M S TransportFailure (option A)) s (Q : A -> S -> Prop) X p,
    post (repeat_until p m) s (fun o s' => match o with Some a => Q a s' | None => False end) X ->
    fst (repeat_until p m s) <> Ok None).
  { unfold post. intros S A m s0 Q X p Hp. by destruct (repeat_until p m s0) as [[[a|]|e] s']. }
  split; [intros Hready; split|].
  - eapply Hpost, post_read_loop; [apply eof_fails_outer|done..].
  - eapply Hpost, post_read_loop; [apply eof_fails_session|done..].
  - eapply Hpost, post_read_response; done.
Qed.
End Ends.

(** ** What was sent *)

Section Evidence.
Context `{PlatformIo W} `{!SteadyClock W} `{Minicbor} `{Snow}.
Implicit Types (raw : RawDuplex) (deadline : AbsoluteDeadline).

Lemma with_handoff_possible f : tf_handoff (with_handoff HandoffPossibleOrConfirmed f) <> NotHandedOff.
Proof. unfold with_handoff. cbn. by destruct (tf_handoff f). Qed.

(** Frames, then a response: a failure without hand-off means that a part was not sent. *)
Definition sent_cut frames (evs : list (Event (W:=W))) : Prop :=
  exists q, concat frames = bytes_sent evs ++ q /\ (writes_no_more (W:=W) -> q <> []).

Lemma post_send_receive {A} raw frames deadline (m : M (Conn W SessionCore) TransportFailure A)
    (s : Conn W SessionCore) :
  reader_inv (reader s) -> confined raw deadline m ->
  post (run on_io (write_frames raw frames deadline);
        map_failure (with_handoff HandoffPossibleOrConfirmed) m) s
    (fun _ s' => exists evs, calls raw deadline (io s) (io s') evs /\
       concat frames `prefix_of` bytes_sent evs)
    (fun e s' => exists evs, calls raw deadline (io s) (io s') evs /\
       (tf_handoff e = NotHandedOff -> sent_cut frames evs)).
Proof.
  intros Hi Hm. apply post_bind. unfold post at 1, on_io.
  pose proof (post_write_frames raw frames deadline (io s)) as Hw. unfold post in Hw.
  destruct (write_frames raw frames deadline (io s)) as [[u|e] w].
  - destruct Hw as (e1 & Hc1 & _ & Hs1).
    destruct (Hm (mkConn (reader s) (core_of s) w) Hi) as [_ [e2 Hc2]]. unfold post, map_failure.
    destruct (m (mkConn (reader s) (core_of s) w)) as [[b|e] s2]; cbn in *; exists (e1 ++ e2);
      (split; [by eapply calls_app|]).
    + rewrite bytes_sent_app, Hs1. by eexists.
    + intros Hn. by destruct (with_handoff_possible e).
  - destruct Hw as (p & q & Hpq & (e1 & Hc1 & _ & Hs1) & Hq & _). exists e1.
    split; [done|]. intros _. exists q. by rewrite Hs1.
Qed.

(** C27: [exchange] calls its own stream only and waits no longer than its deadline.  When it
    returns a response the whole request was sent; when it fails and says [NotHandedOff], the
    request was not: it was never made, and then nothing of it was sent (at most the Close of a
    limit), or the frames were cut short, so that the target cannot have read the last. *)
Theorem exchange_evidence raw request deadline (s : Conn W SessionCore) :
  reader_inv (reader s) ->
  let '(r, s') := exchange raw request deadline s in
  exists evs, calls raw deadline (io s) (io s') evs /\
    match fst (b_write_application_request request (core_of s)), r with
    | Ok frames, Ok _ => concat frames `prefix_of` bytes_sent evs
    | Ok frames, Err e => tf_handoff e = NotHandedOff -> sent_cut frames evs
    | Err error, Ok _ => False
    | Err error, Err e => e = core_failure error /\
        match fst (take_close_frame error) with
        | Some frame => bytes_sent evs `prefix_of` frame
        | None => evs = []
        end
    end.
Proof.
  intros Hi. unfold exchange, mbind_M at 1, on_core, or_c1.
  destruct (b_write_application_request request (core_of s)) as [[frames|error] c]; cbn [fst].
  - pose proof (post_send_receive raw frames deadline _ (mkConn (reader s) c (io s)) Hi
      (confined_read_response raw deadline)) as Hp.
    revert Hp. generalize (read_response raw deadline). intros m Hp. unfold post in Hp. destruct (mbind_M _ _ _) as [[b|e] s']; apply Hp.
  - destruct (c1_failure_after_close raw error deadline (io s)) as [f w] eqn:Hf.
    destruct (c1_failure_calls _ _ _ _ _ _ Hf) as (-> & evs & Hc & _ & Hs). exists evs.
    by split_and!.
Qed.
End Evidence.

(** ** Opening a session *)

Section Opening.
Context `{PlatformIo W} `{!SteadyClock W} `{Minicbor} `{Snow}.
Implicit Types (raw : RawDuplex) (deadline : AbsoluteDeadline).

Lemma phase_deadline_le command started budget d :
  phase_deadline command started budget = Ok d ->
  dl_value d <= dl_value command /\ dl_value d <= started + budget.
Proof.
  unfold phase_deadline, AbsoluteDeadline_new. destruct (_ =? 0); cbn; [done|]. intros [= <-]. cbn.
  unfold phase_deadline_value, saturating_add.
  destruct (Z.ltb_spec (dl_value command) (Z.min (started + budget) U64_MAX)); lia.
Qed.

Lemma confined_lift_bind {C A B} raw deadline (r : TRes A)
    (k : A -> M (Conn W C) TransportFailure B) :
  (forall a, r = Ok a -> confined raw deadline (k a)) -> confined raw deadline (mbind_M (lift r) k).
Proof.
  intros Hk s Hi. unfold mbind_M, lift. destruct r as [a|e]; [by apply Hk|].
  split; [done|]. exists []. apply calls_nil.
Qed.
Lemma io_confined_lift_bind {A B} raw deadline (r : TRes A) (k : A -> IO B) :
  (forall a, r = Ok a -> io_confined raw deadline (k a)) ->
  io_confined raw deadline (mbind_M (lift r) k).
Proof.
  intros Hk s. unfold mbind_M, lift. destruct r as [a|e]; [by apply Hk|].
  exists []. apply calls_nil.
Qed.

Lemma confined_handshake raw m1 request overall handshake :
  dl_value handshake <= dl_value overall ->
  confined raw overall (handshake_and_open raw m1 request overall handshake).
Proof.
  intros Hd. unfold handshake_and_open.
  apply confined_bind; [apply (confined_earlier _ _ _ _ Hd), confined_core|]. intros m2.
  apply confined_bind; [apply (confined_earlier _ _ _ _ Hd), confined_io, io_confined_write|].
  intros _. apply confined_bind; [apply (confined_earlier _ _ _ _ Hd), confined_read_session|].
  intros fin. apply confined_bind; [apply (confined_earlier _ _ _ _ Hd), confined_core|]. intros _.
  apply confined_bind; [apply (confined_earlier _ _ _ _ Hd), confined_core|]. intros own.
  apply confined_bind; [apply (confined_earlier _ _ _ _ Hd), confined_io, io_confined_write|].
  intros _. apply confined_bind; [apply confined_io, io_confined_now|]. intros n.
  apply confined_lift_bind. intros d [Hle _]%phase_deadline_le.
  apply confined_bind; [apply (confined_earlier _ _ _ _ Hle), confined_core|]. intros fs.
  apply (confined_earlier _ _ _ _ Hle).
  apply confined_bind; [apply confined_io, io_confined_write_frames|]. intros _.
  apply confined_map, confined_read_response.
Qed.

(** A part of a function with a reader of its own: the reader it ends with is in order too. *)
Definition owns {A C} raw deadline (m : IO (W:=W) (A * RawFrameReader * C)) : Prop :=
  forall s, (exists evs, calls raw deadline s (snd (m s)) evs) /\
    match fst (m s) with Ok (_, rd, _) => reader_inv rd | Err _ => True end.

Lemma owns_with_conn {C A} raw deadline rd c (m : M (Conn W C) TransportFailure A) :
  reader_inv rd -> confined raw deadline m -> owns raw deadline (with_conn rd c m).
Proof.
  intros Hi Hm s. destruct (Hm (mkConn rd c s) Hi) as [Hi' [evs Hc]]. unfold with_conn.
  destruct (m (mkConn rd c s)) as [[a|e] s']; cbn in *; by split; [exists evs|].
Qed.
Lemma io_confined_owns {A C B} raw deadline (m : IO (A * RawFrameReader * C))
    (k : A * RawFrameReader * C -> IO B) :
  owns raw deadline m ->
  (forall a rd c, reader_inv rd -> io_confined raw deadline (k (a, rd, c))) ->
  io_confined raw deadline (mbind_M m k).
Proof.
  intros Hm Hk s. destruct (Hm s) as [[e1 G1] Hi]. unfold mbind_M.
  destruct (m s) as [[[[a rd] c]|e] s1]; [|by exists e1]. cbn in Hi.
  destruct (Hk a rd c Hi s1) as [e2 H2]. exists (e1 ++ e2). by eapply calls_app.
Qed.

Lemma confined_open_on raw binding pbs entropy request overall :
  io_confined raw overall (open_on raw binding pbs entropy request overall).
Proof.
  unfold open_on. apply io_confined_bind; [apply io_confined_now|]. intros n.
  apply io_confined_lift_bind. intros d [Hd _]%phase_deadline_le.
  apply io_confined_owns.
  { apply owns_with_conn; [apply reader_inv_new|].
    apply (confined_earlier _ _ _ _ Hd), confined_read_outer. }
  intros m1 rd c Hi. apply io_confined_bind; [by apply (io_confined_earlier _ _ _ _ Hd), io_confined_c1|].
  intros session. apply io_confined_owns; [|intros; apply io_confined_ret].
  apply owns_with_conn; [done|]. by apply confined_handshake.
Qed.

(** *** The calls of an opening *)

Definition cancel_of (e : Event (W:=W)) : option RawDuplex :=
  match e with EvCancel raw => Some raw | _ => None end.
Definition connect_of (e : Event (W:=W)) : option RawDuplex :=
  match e with EvConnect _ _ (Ok raw) => Some raw | _ => None end.
Definition cleanup_of (e : Event (W:=W)) : option (CleanupReceipt * PRes unit) :=
  match e with EvCleanup receipt _ answer => Some (receipt, answer) | _ => None end.
(** No call waits beyond [limit]. *)
Definition until (limit : Z) (e : Event (W:=W)) : Prop :=
  match e with
  | EvRead _ d _ | EvWrite _ _ d _ | EvConnect _ d _ | EvCleanup _ d _ => dl_value d <= limit
  | _ => True
  end.

Lemma calls_only raw deadline s s' evs :
  calls raw deadline s s' evs ->
  omap cancel_of evs = [] /\ omap connect_of evs = [] /\ omap cleanup_of evs = [] /\
  Forall (until (dl_value deadline)) evs.
Proof.
  intros [_ Hf]. induction Hf as [|e evs He _ IH]; [done|].
  destruct IH as (I1 & I2 & I3 & I4). destruct e; cbn in *; try done; split_and!; try done;
    constructor; try done; apply He.
Qed.

(** What a list of calls opens, cancels and cleans up, and how long it waits. *)
Definition does (limit : Z) (opened cancelled : list RawDuplex)
    (cleaned : list (CleanupReceipt * PRes unit)) (evs : list (Event (W:=W))) : Prop :=
  omap connect_of evs = opened /\ omap cancel_of evs = cancelled /\
  omap cleanup_of evs = cleaned /\ Forall (until limit) evs.

Lemma does_app limit o1 o2 c1 c2 k1 k2 e1 e2 :
  does limit o1 c1 k1 e1 -> does limit o2 c2 k2 e2 ->
  does limit (o1 ++ o2) (c1 ++ c2) (k1 ++ k2) (e1 ++ e2).
Proof.
  intros (<- & <- & <- & F1) (<- & <- & <- & F2). unfold does.
  rewrite !omap_app. split_and!; try done. by apply Forall_app.
Qed.
Lemma calls_does raw deadline limit s s' evs :
  calls raw deadline s s' evs -> dl_value deadline <= limit -> does limit [] [] [] evs.
Proof.
  intros (I1 & I2 & I3 & I4)%calls_only Hl. split_and!; try done.
  apply (Forall_impl _ _ _ I4). intros [] He; cbn in *; lia.
Qed.
Lemma until_mono limit limit' e : limit <= limit' -> until limit e -> until limit' e.
Proof. destruct e; cbn; lia. Qed.

(** Connecting, and all that follows, on what was connected. *)
Lemma connect_then {A} connector cancellation (connect_deadline overall : AbsoluteDeadline)
    (body : RawDuplex -> IO (W:=W) A) s :
  dl_value connect_deadline <= dl_value overall ->
  (forall raw, io_confined raw overall (body raw)) ->
  let '(r, s') := (do raw <- io_connect connector cancellation connect_deadline;
                   or_cancel raw (body raw)) s in
  exists evs, log s' = log s ++ evs /\
    match r with
    | Ok a => exists raw s1, body raw s1 = (Ok a, s') /\ does (dl_value overall) [raw] [] [] evs
    | Err _ => exists l, does (dl_value overall) l l [] evs /\
        match l with
        | [] => True
        | [raw] => last evs = Some (EvCancel raw)
        | _ => False
        end
    end.
Proof.
  intros Hd Hbody. unfold mbind_M, io_connect.
  destruct (raw_connect connector cancellation connect_deadline (world s)) as [[raw|e] w]; cbn.
  - set (s1 := io_event _ w s). destruct (Hbody raw s1) as [evs Hc]. unfold or_cancel.
    assert (Hdo : does (dl_value overall) [raw] [] []
                    ([EvConnect connector connect_deadline (Ok raw)] ++ evs)).
    { apply (does_app _ [raw] [] [] [] [] []); [|by eapply calls_does]. by split_and!; constructor. }
    destruct (body raw s1) as [[a|e] s2] eqn:Hb; cbn in Hc; destruct Hc as [Hl _].
    + eexists. split; [by rewrite Hl; cbn; rewrite <- app_assoc|]. by exists raw, s1.
    + eexists. split; [by cbn; rewrite Hl; cbn; rewrite <- !app_assoc|]. exists [raw]. split.
      * rewrite app_assoc. apply (does_app _ [raw] [] [] [raw] [] []); [done|].
        by split_and!; constructor.
      * by rewrite app_assoc, last_snoc.
  - eexists. split; [done|]. exists []. split; [|done]. by split_and!; constructor.
Qed.

(** C29: an opening keeps its time and leaves nothing open.  Every call of [open_session]
    waits no longer than the caller's deadline and four seconds from its start, it connects at
    most once, and the stream it connected is the one it returns, not cancelled, or, when
    anything after that fails, is cancelled, exactly once and as the last thing done. *)
Theorem open_session_cancels connector cancellation binding pbs entropy request deadline s :
  let '(r, s') := open_session connector cancellation binding pbs entropy request deadline s in
  exists n evs, log s' = log s ++ EvTime (Some n) :: evs /\
    let limit := Z.min (dl_value deadline) (n + SESSION_TOTAL_MS) in
    match r with
    | Ok o => does limit [os_raw o] [] [] evs /\ os_handoff o = HandoffPossibleOrConfirmed
    | Err _ => exists l, does limit l l [] evs /\
        match l with
        | [] => True
        | [raw] => last evs = Some (EvCancel raw)
        | _ => False
        end
    end.
Proof.
  unfold open_session. unfold mbind_M at 1. destruct (now_ok s) as (n & w & -> & Hn).
  set (s1 := io_event _ w s).
  assert (Hnone : forall limit, exists l : list RawDuplex, does limit l l [] [] /\
    match l with [] => True | [raw] => last [] = Some (EvCancel raw) | _ => False end).
  { intros limit. exists []. by split_and!. }
  unfold mbind_M at 1, lift at 1. destruct (phase_deadline deadline n _) as [overall|e] eqn:Ho.
  2:{ exists n, []. split; [done|apply Hnone]. }
  unfold mbind_M at 1, lift at 1. destruct (phase_deadline overall n _) as [connect|e] eqn:Hc.
  2:{ exists n, []. split; [done|apply Hnone]. }
  apply phase_deadline_le in Ho as [Ho1 Ho2]. apply phase_deadline_le in Hc as [Hc1 _].
  unfold mbind_M at 1, ensure_deadline, mbind_M at 1.
  destruct (now_ok s1) as (n2 & w2 & -> & _). set (s2 := io_event _ w2 s1). unfold lift.
  destruct (ensure_deadline_at n2 connect) as [[]|e].
  2:{ exists n, [EvTime (Some n2)]. split; [by cbn; rewrite <- app_assoc|].
      exists []. split; [|done]. by split_and!; repeat constructor. }
  pose proof (connect_then connector cancellation connect overall
    (fun raw => open_on raw binding pbs entropy request overall) s2 Hc1
    (fun raw => confined_open_on raw binding pbs entropy request overall)) as Hct.
  cbv beta in Hct. destruct (mbind_M (io_connect _ _ _) _ s2) as [r s3].
  destruct Hct as (evs & Hl & Hr). exists n, (EvTime (Some n2) :: evs).
  split; [by rewrite Hl; cbn; rewrite <- !app_assoc|].
  assert (Hmore : forall o c, does (dl_value overall) o c [] evs ->
    does (Z.min (dl_value deadline) (n + SESSION_TOTAL_MS)) o c [] (EvTime (Some n2) :: evs)).
  { intros o c (D1 & D2 & D3 & D4). split_and!; try done. constructor; [done|].
    apply (Forall_impl _ _ _ D4). intros e. apply until_mono. lia. }
  cbv zeta. destruct r as [o|e].
  - destruct Hr as (raw & s4 & Hb & Hdo). unfold open_on in Hb. m_inv Hb.
    destruct a1 as [[m1 rd1] u1]. m_inv Hb.
    destruct a2 as [[response rd2] session]. m_inv Hb. split; [by apply Hmore|done].
  - destruct Hr as (l & Hdo & Hlast). exists l. split; [by apply Hmore|].
    destruct l as [|raw [|]]; try done. destruct evs; [done|]. exact Hlast.
Qed.

(** ** The bootstrap *)

Lemma confined_bootstrap_on raw key pbs entropy binding deadline :
  confined raw deadline (bootstrap_on raw key pbs entropy binding deadline).
Proof.
  unfold bootstrap_on. apply confined_bind; [apply confined_read_outer|]. intros m1.
  apply confined_bind; [apply confined_io, io_confined_c1|]. intros responder.
  apply confined_bind; [apply confined_io, io_confined_c1|]. intros [m2 receiver].
  apply confined_bind; [apply confined_io, io_confined_write|]. intros _.
  apply confined_bind; [apply confined_read_outer|]. intros ack. apply confined_io, io_confined_c1.
Qed.

(** After a failure: the stream is cancelled, and the cleanup run if its two seconds are not
    already over. *)
Lemma bootstrap_failed_calls {A} raw cleanup failure s :
  let '(r, s') := @bootstrap_failed _ _ A raw cleanup failure s in
  exists f n n2 l, r = Err f /\
    log s' = log s ++ EvCancel raw :: EvTime (Some n) :: EvTime (Some n2) :: l /\
    tf_close_reason f = tf_close_reason failure /\ tf_handoff f = tf_handoff failure /\
    ((l = [] /\ tf_cleanup_failed f = true /\ saturating_add n CLEANUP_MS <= n2) \/
     exists d answer, l = [EvCleanup cleanup d answer] /\ dl_value d <= n + CLEANUP_MS /\
       (tf_cleanup_failed f = false -> answer = Ok tt)).
Proof.
  unfold bootstrap_failed. destruct (io_cancellation (io_cancel raw s)) as [cancellation s1] eqn:Hc.
  assert (Hl1 : log s1 = log s ++ [EvCancel raw]).
  { unfold io_cancellation in Hc. by destruct (Cancellation_new _); simplify_eq/=. }
  unfold cleanup_deadline, mbind_M. destruct (now_ok s1) as (n & w & -> & Hn).
  set (s2 := io_event _ w s1). unfold lift at 1, AbsoluteDeadline_new.
  destruct (Z.eqb_spec (saturating_add n CLEANUP_MS) 0) as [Hz|_].
  { unfold saturating_add, CLEANUP_MS, U64_MAX in Hz. lia. }
  cbn [negb ensure res_bind res_map_err]. set (d := {| dl_value := saturating_add n CLEANUP_MS |}).
  unfold ensure_deadline, mbind_M. destruct (now_ok s2) as (n2 & w2 & -> & _).
  set (s3 := io_event _ w2 s2). unfold lift, ensure_deadline_at, deadline_expired_at.
  cbn [dl_value d].
  assert (Hl3 : log s3 = log s ++ [EvCancel raw; EvTime (Some n); EvTime (Some n2)]).
  { cbn. by rewrite Hl1, <- !app_assoc. }
  destruct (Z.leb_spec (saturating_add n CLEANUP_MS) n2).
  - exists (with_cleanup_failed failure), n, n2, []. split_and!; try done. by left.
  - unfold io_cleanup. destruct (raw_cleanup cleanup cancellation d (world s3)) as [answer w3].
    assert (Hd : dl_value d <= n + CLEANUP_MS) by (cbn; unfold saturating_add; lia).
    destruct answer as [[]|e]; cbn [res_map_err].
    + exists failure, n, n2, [EvCleanup cleanup d (Ok tt)].
      split_and!; try done; [cbn [log io_event]; by rewrite Hl3, <- app_assoc|].
      right. by exists d, (Ok tt).
    + exists (with_cleanup_failed failure), n, n2, [EvCleanup cleanup d (Err e)].
      split_and!; try done; [cbn [log io_event]; by rewrite Hl3, <- app_assoc|].
      right. by exists d, (Err e).
Qed.

(** C30: a bootstrap that succeeds hands over its stream, connector and cleanup, uncancelled
    and not run, with a reader in order; one that fails cancels the stream, then runs the
    cleanup, once, with two seconds to do it, unless these are over before; and a failure that
    is not marked as a failed cleanup means that the cleanup ran and succeeded. *)
Theorem bootstrap_cleans_up raw connector cleanup key pbs entropy binding deadline s :
  let '(r, s') := bootstrap raw connector cleanup key pbs entropy binding deadline s in
  exists evs, does (dl_value deadline) [] [] [] evs /\
    match r with
    | Ok b => log s' = log s ++ evs /\ bs_bootstrap b = raw /\ bs_connector b = connector /\
        bs_cleanup b = cleanup /\ reader_inv (bs_reader b)
    | Err f => exists n n2 l,
        log s' = log s ++ evs ++ EvCancel raw :: EvTime (Some n) :: EvTime (Some n2) :: l /\
        ((l = [] /\ tf_cleanup_failed f = true /\ saturating_add n CLEANUP_MS <= n2) \/
         exists d answer, l = [EvCleanup cleanup d answer] /\ dl_value d <= n + CLEANUP_MS /\
           (tf_cleanup_failed f = false -> answer = Ok tt))
    end.
Proof.
  unfold bootstrap.
  destruct (owns_with_conn raw deadline RawFrameReader_new tt _ reader_inv_new
    (confined_bootstrap_on raw key pbs entropy binding deadline) s) as [[evs Hc] Hi].
  destruct (with_conn _ _ _ s) as [[[[[ack lease] rd] u]|f] s1]; cbn in Hc, Hi.
  - exists evs. split; [by eapply calls_does|]. destruct Hc as [Hl _]. by split_and!.
  - pose proof (@bootstrap_failed_calls BootstrapSuccess raw cleanup f s1) as Hf.
    destruct (bootstrap_failed raw cleanup f s1) as [r s2].
    destruct Hf as (f' & n & n2 & l & -> & Hl2 & _ & _ & Hcase). exists evs.
    split; [by eapply calls_does|]. exists n, n2, l. split; [|done].
    destruct Hc as [Hl _]. by rewrite Hl2, Hl, <- app_assoc.
Qed.
End Opening.

(** ** Concrete inputs *)

Definition ex_conn : Conn Tape SessionCore := mkConn RawFrameReader_new ex_broker_session (mkIo ex_tape []).

Lemma reading_ends_witness :
  fst (repeat_until RESPONSE_TURNS (response_turn tape (mkDeadline 2000)) ex_conn) <> Ok None.
Proof.
  apply (reading_ends tape (mkDeadline 2000) (repeat (b8 0) READ_CHUNK) ex_conn);
    [apply reader_inv_new|reflexivity|vm_compute; discriminate].
Defined.

Lemma exchange_evidence_witness :
  let '(r, s') := exchange tape [b8 1] (mkDeadline 2000) ex_conn in
  exists evs, calls tape (mkDeadline 2000) (io ex_conn) (io s') evs /\
    match fst (b_write_application_request [b8 1] (core_of ex_conn)), r with
    | Ok frames, Ok _ => concat frames `prefix_of` bytes_sent evs
    | Ok frames, Err e => tf_handoff e = NotHandedOff -> sent_cut frames evs
    | Err error, Ok _ => False
    | Err error, Err e => e = core_failure error /\
        match fst (take_close_frame error) with
        | Some frame => bytes_sent evs `prefix_of` frame
        | None => evs = []
        end
    end.
Proof. apply (exchange_evidence tape [b8 1] (mkDeadline 2000) ex_conn), reader_inv_new. Defined.

(** A stream that ends at once. *)
Definition ex_ended : Io (W:=Tape) := mkIo (mkTape [Ok []]) [].

Lemma open_session_cancels_witness :
  let '(r, s') := open_session (W:=Tape) tt tt ex_session_binding [] [] [b8 1]
                    (mkDeadline 9000) ex_ended in
  exists n evs, log s' = log ex_ended ++ EvTime (Some n) :: evs /\
    let limit := Z.min 9000 (n + SESSION_TOTAL_MS) in
    match r with
    | Ok o => does limit [os_raw o] [] [] evs /\ os_handoff o = HandoffPossibleOrConfirmed
    | Err _ => exists l, does limit l l [] evs /\
        match l with
        | [] => True
        | [raw] => last evs = Some (EvCancel raw)
        | _ => False
        end
    end.
Proof. exact (open_session_cancels (W:=Tape) tt tt ex_session_binding [] [] [b8 1] (mkDeadline 9000) ex_ended). Defined.

Lemma bootstrap_cleans_up_witness :
  let '(r, s') := bootstrap (W:=Tape) tape tt tt [] [] [] ex_bootstrap_binding
                    (mkDeadline 9000) ex_ended in
  exists evs, does 9000 [] [] [] evs /\
    match r with
    | Ok b => log s' = log ex_ended ++ evs /\ bs_bootstrap b = tape /\ bs_connector b = tt /\
        bs_cleanup b = tt /\ reader_inv (bs_reader b)
    | Err f => exists n n2 l,
        log s' = log ex_ended ++ evs ++ EvCancel tape :: EvTime (Some n) :: EvTime (Some n2) :: l /\
        ((l = [] /\ tf_cleanup_failed f = true /\ saturating_add n CLEANUP_MS <= n2) \/
         exists d answer, l = [EvCleanup (tt : CleanupReceipt (W:=Tape)) d answer] /\
           dl_value d <= n + CLEANUP_MS /\ (tf_cleanup_failed f = false -> answer = Ok tt))
    end.
Proof.
  exact (bootstrap_cleans_up (W:=Tape) tape tt tt [] [] [] ex_bootstrap_binding (mkDeadline 9000)
    ex_ended).
Defined.
