(* ===== verification/Threads.v ===== *)
(** Threads on a shared state: a thread is what it does next, one atomic step at a time, and
    a scheduler picks whose step is taken.  Programs are written with continuations; however
    their steps are interleaved, they come to an end ([advance_wf]). *)

From S2P Require Import Prelude.

(** ** Threads *)

(** [Step f]: one atomic step, [None] while it has to wait.  [Timed f late]: a wait with a
    deadline, which may also end by [late].  [Halt None] is a panic. *)
Inductive Thread (S L : Type) : Type :=
| Halt (l : option L)
| Step (f : S -> option (S * Thread S L))
| Timed (f : S -> option (S * Thread S L)) (late : S -> S * Thread S L)
| Fork (child next : Thread S L).
Arguments Halt {S L} l.
Arguments Step {S L} f.
Arguments Timed {S L} f late.
Arguments Fork {S L} child next.

(** What a scheduler may choose: to let a thread go on, or to let its deadline pass. *)
Inductive Choice : Set := Go | TimeOut.

Section Running.
Context {S L : Type}.

(** A step: the state, the threads started by it and what is left of the thread. *)
Definition thread_step (ch : Choice) (t : Thread S L) (s : S)
    : option (S * list (Thread S L) * Thread S L) :=
  match t, ch with
  | Step f, Go | Timed f _, Go => '(s', t') ← f s; Some (s', [], t')
  | Timed _ late, TimeOut => let '(s', t') := late s in Some (s', [], t')
  | Fork child next, Go => Some (s, [child], next)
  | _, _ => None
  end.

Definition Config : Type := S * list (Thread S L).

(** A turn of the scheduler; a choice that is not possible does nothing. *)
Definition turn (c : Config) (p : nat * Choice) : Config :=
  let '(s, ts) := c in
  match ts !! fst p with
  | Some t => match thread_step (snd p) t s with
              | Some (s', new, t') => (s', <[fst p := t']> ts ++ new)
              | None => c
              end
  | None => c
  end.
Definition run_threads (schedule : list (nat * Choice)) (c : Config) : Config :=
  foldl turn c schedule.
End Running.
Arguments Config S L : clear implicits.

(** ** Programs

    A program of result [A] is given what to do with its result.  An atomic section is a
    computation of [M] whose error is a failure or a panic. *)

Inductive Stop (E : Type) : Type := Fails (e : E) | Panics.
Arguments Fails {E} e.
Arguments Panics {E}.

Section Programs.
Context {S L E : Type}.

Definition Sec (A : Type) : Type := M S (Stop E) A.
Definition Prog (A : Type) : Type := (result E A -> Thread S L) -> Thread S L.

Definition ended {A} (c : result E A -> Thread S L) (r : result (Stop E) A) : Thread S L :=
  match r with
  | Ok a => c (Ok a)
  | Err (Fails e) => c (Err e)
  | Err Panics => Halt None
  end.

Definition p_ret {A} (a : A) : Prog A := fun c => c (Ok a).
Definition p_throw {A} (e : E) : Prog A := fun c => c (Err e).
Definition p_lift {A} (r : result E A) : Prog A := fun c => c r.
Definition p_panic {A} : Prog A := fun _ => Halt None.
Definition p_bind {A B} (m : Prog A) (k : A -> Prog B) : Prog B := fun c =>
  m (fun r => match r with Ok a => k a c | Err e => c (Err e) end).
Definition atomically {A} (f : Sec A) : Prog A := fun c =>
  Step (fun s => let '(r, s') := f s in Some (s', ended c r)).
(** A program whose failure is a value. *)
Definition attempt {A} (m : Prog A) : Prog (result E A) := fun c => m (fun r => c (Ok r)).
(** What is done last in either case ([Drop]). *)
Definition finally {A} (m : Prog A) (last : Sec unit) : Prog A := fun c =>
  m (fun r => atomically last (fun _ => c r)).
Definition spawn (child : Thread S L) : Prog unit := fun c => Fork child (c (Ok tt)).
(** A wait on a condition variable, without and with a deadline. *)
Definition await {A} (ready : S -> option (A * S)) : Prog A := fun c =>
  Step (fun s => '(a, s') ← ready s; Some (s', c (Ok a))).
Definition await_until {A} (ready : S -> option (A * S)) (late : Sec A) : Prog A := fun c =>
  Timed (fun s => '(a, s') ← ready s; Some (s', c (Ok a)))
    (fun s => let '(r, s') := late s in (s', ended c r)).

Fixpoint for_each {A} (l : list A) (m : A -> Prog unit) : Prog unit :=
  match l with
  | [] => p_ret tt
  | a :: l => p_bind (m a) (fun _ => for_each l m)
  end.
End Programs.
Arguments Sec S E A : clear implicits.
Arguments Prog S L E A : clear implicits.

Arguments atomically {S L E A} f%_model_scope c.
Arguments finally {S L E A} m last%_model_scope c.
Arguments await_until {S L E A} ready late%_model_scope c.

Declare Scope prog_scope.
Delimit Scope prog_scope with prog.
Notation "'do' x <- m ; k" := (p_bind m (fun x => k))
  (at level 10, x name, m at level 100, k at level 200) : prog_scope.
Notation "'do' ' p <- m ; k" := (p_bind m (fun p => k))
  (at level 10, p strict pattern, m at level 100, k at level 200) : prog_scope.
Notation "'run' m ; k" := (p_bind m (fun _ => k))
  (at level 10, m at level 100, k at level 200) : prog_scope.

(** ** Every run comes to an end

    Threads are well founded: whatever is chosen, and whatever the state holds, only so many
    steps can be taken. *)

Section Ending.
Context {S L : Type}.
Implicit Types t : Thread S L.

(** One thread of [ts] takes a step, in some state. *)
Definition advance (ts' ts : list (Thread S L)) : Prop :=
  exists t rest ch s s' new t',
    ts ≡ₚ t :: rest /\ thread_step ch t s = Some (s', new, t') /\ ts' ≡ₚ t' :: new ++ rest.

Lemma advance_perm ts us us' : ts ≡ₚ us -> advance us' us -> advance us' ts.
Proof.
  intros Hp (t & rest & ch & s & s' & new & t' & Hu & Hs & Hu').
  exists t, rest, ch, s, s', new, t'. by rewrite Hp.
Qed.
Lemma acc_perm ts us : ts ≡ₚ us -> Acc advance ts -> Acc advance us.
Proof. intros Hp [H]. constructor. intros us' Ha. apply H. by eapply advance_perm. Qed.

Lemma acc_app l1 : Acc advance l1 -> forall l2, Acc advance l2 -> Acc advance (l1 ++ l2).
Proof.
  induction 1 as [l1 H1 IH1]. induction 1 as [l2 H2 IH2]. constructor.
  intros us (t & rest & ch & s & s' & new & t' & Hp & Hs & Hu).
  assert (t ∈ l1 ++ l2) as [Hin|Hin]%elem_of_app by (rewrite Hp; by left).
  - destruct (proj1 (elem_of_Permutation _ _) Hin) as [l Hl].
    apply (acc_perm ((t' :: new ++ l) ++ l2)).
    + rewrite Hu. assert (rest ≡ₚ l ++ l2) as ->.
      { apply (Permutation_cons_inv (a:=t)). by rewrite <- Hp, Hl. }
      solve_Permutation.
    + apply IH1; [|by constructor]. by exists t, l, ch, s, s', new, t'.
  - destruct (proj1 (elem_of_Permutation _ _) Hin) as [l Hl].
    apply (acc_perm (l1 ++ (t' :: new ++ l))).
    + rewrite Hu. assert (rest ≡ₚ l1 ++ l) as ->.
      { apply (Permutation_cons_inv (a:=t)). rewrite <- Hp, Hl. solve_Permutation. }
      solve_Permutation.
    + apply IH2. by exists t, l, ch, s, s', new, t'.
Qed.

Lemma acc_list ts : Forall (fun t => Acc advance [t]) ts -> Acc advance ts.
Proof.
  induction 1 as [|t ts Ht _ IH].
  - constructor. intros us (t & rest & ch & s & s' & new & t' & Hp & _).
    by apply Permutation_nil_cons in Hp.
  - apply (acc_app [t]); done.
Qed.

(** What one step of a thread leaves is smaller than the thread. *)
Lemma acc_thread : forall t, Acc advance [t].
Proof.
  fix IH 1. intros t.
  assert (Hstep : forall ch s s' new t', thread_step ch t s = Some (s', new, t') ->
            Forall (fun u => Acc advance [u]) (t' :: new)).
  { intros ch s s' new t'. destruct t as [x|f|f late|child next]; cbn.
    - by destruct ch.
    - destruct ch; [|done]. destruct (f s) as [[s1 t1]|]; [|done]. cbn. intros [= <- <- <-].
      constructor; [apply IH|constructor].
    - destruct ch.
      + destruct (f s) as [[s1 t1]|]; [|done]. cbn. intros [= <- <- <-].
        constructor; [apply IH|constructor].
      + destruct (late s) as [s1 t1]. intros [= <- <- <-]. constructor; [apply IH|constructor].
    - destruct ch; [|done]. intros [= <- <- <-].
      constructor; [apply IH|constructor; [apply IH|constructor]]. }
  constructor. intros us (t0 & rest & ch & s & s' & new & t' & Hp & Hs & Hu).
  apply Permutation_singleton_l in Hp. simplify_eq.
  apply (acc_perm (t' :: new)); [rewrite Hu; solve_Permutation|]. apply acc_list. by eapply Hstep.
Qed.

Lemma advance_wf : well_founded advance.
Proof. intros ts. apply acc_list, Forall_forall. intros t _. apply acc_thread. Qed.

Definition halted t : bool := match t with Halt _ => true | _ => false end.
Definition can_move (s : S) t : Prop := exists ch, is_Some (thread_step ch t s).

Lemma turn_advances (c : Config S L) i ch t x :
  snd c !! i = Some t -> thread_step ch t (fst c) = Some x -> advance (snd (turn c (i, ch))) (snd c).
Proof.
  destruct c as [s ts], x as [[s' new] t']. cbn [fst snd turn]. intros Hi Hs. rewrite Hi, Hs.
  exists t, (delete i ts), ch, s, s', new, t'. split_and!; [by apply delete_Permutation|done|].
  cbn [snd]. assert (<[i:=t']> ts ≡ₚ t' :: delete i ts) as ->; [|solve_Permutation].
  rewrite (delete_Permutation (<[i:=t']> ts) i t').
  - f_equiv. revert i Hi. induction ts as [|u ts IH]; intros [|i]; cbn; try done.
    intros Hi. f_equiv. by apply IH.
  - apply list_lookup_insert_eq. by eapply lookup_lt_Some.
Qed.

(** Where some thread can always move on, a schedule completes them all. *)
Lemma run_completes (safe : Config S L -> Prop) :
  (forall c p, safe c -> safe (turn c p)) ->
  (forall c, safe c -> Forall (fun t => halted t = true) (snd c) \/
     exists i t, snd c !! i = Some t /\ can_move (fst c) t) ->
  forall c, safe c -> exists schedule,
    Forall (fun t => halted t = true) (snd (run_threads schedule c)).
Proof.
  intros Hturn Hmove [s ts]. revert s.
  induction (advance_wf ts) as [ts _ IH]. intros s Hs.
  destruct (Hmove _ Hs) as [Hall|(i & t & Hi & ch & x & Hx)]; [by exists []|].
  pose proof (turn_advances _ _ _ _ _ Hi Hx) as Ha. pose proof (Hturn _ (i, ch) Hs) as Hs'.
  destruct (turn (s, ts) (i, ch)) as [s' ts'] eqn:Ht.
  destruct (IH ts' Ha s' Hs') as [schedule Hd]. exists ((i, ch) :: schedule).
  unfold run_threads in *. cbn [foldl]. by rewrite Ht.
Qed.
End Ending.
