(* ===== verification/Interference.v ===== *)
(** A logic of interference for threads on a shared state: what every schedule keeps.  There is
    an invariant of the state, a relation between the states before and after a step, and
    resources that are handed around but never copied or lost. *)

From S2P Require Import Prelude Threads.

(** [inv] is the invariant, [evolves l] what a step of a thread that holds [l] may do to the
    state.  [issued] and [settled] count resources: what is issued and not settled is held by
    the threads, or was dropped, if it is [droppable].  A thread may wait for a resource only
    while all it holds is of a higher [rank].  [final x s]: what a result [x] promises. *)
Class Discipline (S L R : Type) := {
  inv : S -> Prop;
  evolves : list R -> S -> S -> Prop;
  issued_in : S -> list R;
  settled_in : S -> list R;
  droppable : R -> Prop;
  rank : R -> nat;
  final : L -> S -> Prop
}.

Section Logic.
Context {S L R : Type} `{!Discipline S L R}.
Implicit Types (s : S) (l mine others : list R) (r : R) (P F : S -> Prop) (t : Thread S L).

(** The resources [l] are among those that are owed. *)
Definition holds s l : Prop := exists others, issued_in s ≡ₚ settled_in s ++ l ++ others.
Definition owed s r : Prop :=
  ~ droppable r /\ forall l, issued_in s ≡ₚ settled_in s ++ l -> r ∈ l.
Definition waits s l : Prop :=
  exists r, owed s r /\ forall r', r' ∈ l -> droppable r' \/ (rank r < rank r')%nat.

(** What a thread that holds [mine] relies on: the steps of threads that hold the rest. *)
Definition stable mine P : Prop :=
  forall s s' l, P s -> inv s -> holds s (mine ++ l) -> evolves l s s' -> inv s' -> P s'.

(** What a step does: its thread held [l] and holds [l'] after it. *)
Definition moves s l s' l' : Prop :=
  inv s' /\ evolves l s s' /\
  forall others, issued_in s ≡ₚ settled_in s ++ l ++ others ->
    exists dropped, Forall droppable dropped /\
      issued_in s' ≡ₚ settled_in s' ++ l' ++ dropped ++ others.

(** [ok P l t]: the thread [t] holds [l], relies on [P], and keeps the rules. *)
Inductive ok : (S -> Prop) -> list R -> Thread S L -> Prop :=
| ok_here P l t : (forall s, inv s -> P s -> holds s l -> ok P l t) -> ok P l t
| ok_halt P l x :
    stable l P -> Forall droppable l -> (forall s, inv s -> P s -> final x s) ->
    ok P l (Halt (Some x))
| ok_step P l f :
    stable l P ->
    (forall s s' t, inv s -> P s -> holds s l -> f s = Some (s', t) ->
       exists P' l', moves s l s' l' /\ P' s' /\ ok P' l' t) ->
    (forall s, inv s -> P s -> holds s l -> f s = None -> waits s l) ->
    ok P l (Step f)
| ok_timed P l f late :
    stable l P ->
    (forall s s' t, inv s -> P s -> holds s l -> f s = Some (s', t) ->
       exists P' l', moves s l s' l' /\ P' s' /\ ok P' l' t) ->
    (forall s, inv s -> P s -> holds s l ->
       exists P' l', moves s l (fst (late s)) l' /\ P' (fst (late s)) /\ ok P' l' (snd (late s))) ->
    ok P l (Timed f late)
| ok_fork P P1 P2 l l1 l2 child next :
    stable l P -> l ≡ₚ l1 ++ l2 ->
    (forall s, inv s -> P s -> holds s l -> P1 s /\ P2 s) ->
    ok P1 l1 child -> ok P2 l2 next -> ok P l (Fork child next).

Lemma holds_app_l s l1 l2 : holds s (l1 ++ l2) -> holds s l1.
Proof. intros [o Ho]. exists (l2 ++ o). by rewrite Ho, <- app_assoc. Qed.
Lemma holds_app_r s l1 l2 : holds s (l1 ++ l2) -> holds s l2.
Proof. intros [o Ho]. exists (l1 ++ o). rewrite Ho. solve_Permutation. Qed.

Lemma ok_stable P l t : ok P l t -> stable l P.
Proof.
  induction 1 as [P l t _ IH| | | |]; try done. intros s s' l' Hp Hi Hh. 
  eapply (IH s); [done|done|by eapply holds_app_l|done|done|done].
Qed.

(** A thread may rely on more than it needs. *)
Lemma ok_weaken P P' l t : ok P l t -> stable l P' -> (forall s, inv s -> P' s -> P s) -> ok P' l t.
Proof.
  intros Hok. revert P'. induction Hok as [P l t _ IH| | | |]; intros P' Hst Hp.
  - apply ok_here. intros s Hi Hp' Hh. by eapply (IH s); eauto.
  - apply ok_halt; eauto.
  - apply ok_step; eauto.
  - apply ok_timed; eauto.
  - eapply ok_fork; [done|done| |done|done]. eauto.
Qed.
Lemma ok_equiv P P' l t : ok P l t -> (forall s, P s <-> P' s) -> ok P' l t.
Proof.
  intros Hok Hp. eapply ok_weaken; [done| |intros s _; apply Hp].
  intros s s' l' Hp' Hi Hh He Hi'. apply Hp. apply (ok_stable _ _ _ Hok s s' l'); [by apply Hp|done..].
Qed.

(** A thread may hold more than it needs, of what may be dropped. *)
Lemma ok_drop P l l' d t :
  (forall l1 l2 s s', (forall r, r ∈ l1 -> r ∈ l2) -> evolves l1 s s' -> evolves l2 s s') ->
  ok P l t -> l' ≡ₚ l ++ d -> Forall droppable d -> ok P l' t.
Proof.
  intros Hmono Hok Hl Hd.
  assert (Hst : forall l l' d P, l' ≡ₚ l ++ d -> stable l P -> stable l' P).
  { clear - S. intros l l' d P Hl Hst s s' l2 Hp Hi [o Ho] He Hi'. apply (Hst s s' l2); try done.
    exists (d ++ o). rewrite Ho, Hl. solve_Permutation. }
  assert (Hhd : forall s l l' d, l' ≡ₚ l ++ d -> holds s l' -> holds s l).
  { clear - S. intros s l l' d Hl [o Ho]. exists (d ++ o). by rewrite Ho, Hl, <- app_assoc. }
  assert (Hmv : forall s l l' d s' k, l' ≡ₚ l ++ d -> Forall droppable d -> moves s l s' k -> moves s l' s' k).
  { clear - Hmono. intros s l l' d s' k Hl Hd (Hi & He & Hb). split; [done|]. split.
    - eapply Hmono; [|done]. intros r Hr. rewrite Hl. set_solver.
    - intros o Ho. destruct (Hb (d ++ o)) as (d' & Hd' & Ho'); [by rewrite Ho, Hl, <- app_assoc|].
      exists (d' ++ d). split; [by apply Forall_app|]. by rewrite Ho', <- app_assoc. }
  revert l' d Hl Hd. induction Hok as [P l t _ IH|P l x Hs Hdl Hf|P l f Hs Hf Hw|P l f late Hs Hf Hlt|
    P P1 P2 l l1 l2 child next Hs Hl12 Hp12 Hc _ Hn IHn]; intros l' d Hl Hd.
  - apply ok_here. intros s Hi Hp Hh. eapply (IH s); [done|done|by eapply Hhd|done|done].
  - apply ok_halt; [by eapply Hst| |done]. rewrite Hl. by apply Forall_app.
  - apply ok_step; [by eapply Hst| |].
    + intros s s' t Hi Hp Hh He. destruct (Hf s s' t Hi Hp (Hhd _ _ _ _ Hl Hh) He) as (P' & k & Hm & Hp' & Ho).
      exists P', k. split; [by eapply Hmv|done].
    + intros s Hi Hp Hh He. destruct (Hw s Hi Hp (Hhd _ _ _ _ Hl Hh) He) as (r & Hr & Hlow).
      exists r. split; [done|]. intros r'. rewrite Hl, elem_of_app. intros [Hr'|Hr']; [by apply Hlow|].
      left. rewrite Forall_forall in Hd. by apply Hd.
  - apply ok_timed; [by eapply Hst| |].
    + intros s s' t Hi Hp Hh He. destruct (Hf s s' t Hi Hp (Hhd _ _ _ _ Hl Hh) He) as (P' & k & Hm & Hp' & Ho).
      exists P', k. split; [by eapply Hmv|done].
    + intros s Hi Hp Hh. destruct (Hlt s Hi Hp (Hhd _ _ _ _ Hl Hh)) as (P' & k & Hm & Hp' & Ho).
      exists P', k. split; [by eapply Hmv|done].
  - apply (ok_fork _ P1 P2 _ l1 (l2 ++ d)); [by eapply Hst| | |done|by eapply IHn].
    + rewrite Hl, Hl12. by rewrite <- app_assoc.
    + intros s Hi Hp Hh. apply Hp12; [done|done|by eapply Hhd].
Qed.

(** *** Configurations *)

Definition held (specs : list ((S -> Prop) * list R)) : list R := concat (snd <$> specs).
Definition safe_thread s (a : (S -> Prop) * list R) t : Prop := fst a s /\ ok (fst a) (snd a) t.
Definition safe (c : Config S L) : Prop :=
  inv (fst c) /\ exists specs dropped,
    Forall droppable dropped /\ Forall2 (safe_thread (fst c)) specs (snd c) /\
    issued_in (fst c) ≡ₚ settled_in (fst c) ++ held specs ++ dropped.

Lemma delete_insert_list {A} (l : list A) i x : delete i (<[i:=x]> l) = delete i l.
Proof. revert i. induction l as [|y l IH]; intros [|i]; try done. cbn. f_equal. apply IH. Qed.

Lemma held_lookup (specs : list ((S -> Prop) * list R)) i a :
  specs !! i = Some a -> held specs ≡ₚ snd a ++ held (delete i specs).
Proof. intros Hi. unfold held. by rewrite (delete_Permutation _ _ _ Hi) at 1. Qed.
Lemma held_insert (specs : list ((S -> Prop) * list R)) i a b :
  specs !! i = Some a -> held (<[i:=b]> specs) ≡ₚ snd b ++ held (delete i specs).
Proof.
  intros Hi. assert (Hl : (i < length specs)%nat) by (by eapply lookup_lt_Some).
  assert (Hb : <[i:=b]> specs !! i = Some b) by (by apply list_lookup_insert_eq).
  rewrite (held_lookup _ _ _ Hb). f_equiv. unfold held. by rewrite delete_insert_list.
Qed.
(** Two threads hold their resources side by side. *)
Lemma held_two (specs : list ((S -> Prop) * list R)) i j a b :
  i <> j -> specs !! i = Some a -> specs !! j = Some b ->
  exists rest, held specs ≡ₚ snd b ++ snd a ++ rest.
Proof.
  intros Hij Hi Hj. assert (Hk : exists k, delete i specs !! k = Some b).
  { destruct (decide (j < i)%nat).
    - exists j. by rewrite list_lookup_delete_lt.
    - exists (pred j). rewrite list_lookup_delete_ge by lia.
      by replace (Datatypes.S (pred j)) with j by lia. }
  destruct Hk as [k Hk]. exists (held (delete k (delete i specs))).
  rewrite (held_lookup _ _ _ Hi), (held_lookup _ _ _ Hk). solve_Permutation.
Qed.

Context (evolves_refl : forall l s, evolves l s s).

Lemma moves_refl s l : inv s -> moves s l s l.
Proof. intros Hi. split_and!; [done|apply evolves_refl|]. intros o Ho. by exists []. Qed.

(** The step of one thread of a safe configuration. *)
Lemma thread_step_safe P l t : ok P l t -> forall s ch s' new t',
  inv s -> P s -> holds s l -> thread_step ch t s = Some (s', new, t') ->
  exists P' l' specs', moves s l s' (l' ++ held specs') /\ safe_thread s' (P', l') t' /\
    Forall2 (safe_thread s') specs' new.
Proof.
  assert (Hone : forall s s' l l' t' P', moves s l s' l' -> P' s' -> ok P' l' t' ->
    exists P' l' specs', moves s l s' (l' ++ held specs') /\ safe_thread s' (P', l') t' /\
      Forall2 (safe_thread s') specs' []).
  { intros s s' l0 l' t' P' Hm Hp Hok. exists P', l', []. unfold held. cbn. rewrite app_nil_r.
    split; [done|]. by split; [|constructor]. }
  induction 1 as [P l t _ IH|P l x|P l f Hst Hf Hb|P l f late Hst Hf Hl|
    P P1 P2 l l1 l2 child next Hst Hl Hp12 Hc _ Hn _]; intros s ch s' new t' Hi Hp Hh Hs.
  - by eapply (IH s).
  - by destruct ch.
  - destruct ch; [|done]. cbn in Hs. destruct (f s) as [[s1 t1]|] eqn:He; [|done].
    injection Hs as <- <- <-. destruct (Hf s s1 t1 Hi Hp Hh He) as (P' & l' & Hm & Hp' & Hok').
    by eapply Hone.
  - destruct ch; cbn in Hs.
    + destruct (f s) as [[s1 t1]|] eqn:He; [|done].
      injection Hs as <- <- <-. destruct (Hf s s1 t1 Hi Hp Hh He) as (P' & l' & Hm & Hp' & Hok').
      by eapply Hone.
    + destruct (Hl s Hi Hp Hh) as (P' & l' & Hm & Hp' & Hok').
      destruct (late s) as [s1 t1]. injection Hs as <- <- <-. by eapply Hone.
  - destruct ch; [|done]. injection Hs as <- <- <-. destruct (Hp12 s Hi Hp Hh) as [Hp1 Hp2].
    exists P2, l2, [(P1, l1)]. split; [|split; [done|constructor; [done|constructor]]].
    split; [done|]. split; [apply evolves_refl|]. intros others Hio. exists [].
    split; [constructor|]. unfold held. cbn. rewrite Hio, Hl. solve_Permutation.
Qed.

(** A turn keeps a configuration safe, and its step is one that its thread may take. *)
Lemma turn_safe c p : safe c -> safe (turn c p) /\ exists l, evolves l (fst c) (fst (turn c p)).
Proof.
  destruct c as [s ts], p as [i ch]. intros Hsafe. cbn [turn fst snd].
  destruct (ts !! i) as [t|] eqn:Hti; [|split; [done|exists []; apply evolves_refl]].
  destruct (thread_step ch t s) as [[[s' new] t']|] eqn:Hs;
    [|split; [done|exists []; apply evolves_refl]].
  destruct Hsafe as (Hi & specs & dropped & Hdrop & Hall & Hbal). cbn [fst snd] in *.
  destruct (Forall2_lookup_r _ _ _ _ _ Hall Hti) as ([P l] & Hspec & Hp & Hok). cbn in Hp, Hok.
  assert (Hh : holds s l).
  { exists (held (delete i specs) ++ dropped). rewrite Hbal, (held_lookup _ _ _ Hspec).
    by rewrite <- app_assoc. }
  destruct (thread_step_safe P l t Hok s ch s' new t' Hi Hp Hh Hs) as
    (P' & l' & specs' & (Hi' & Hev & Hmove) & Ht' & Hnew).
  split; [|by exists l]. split; [done|]. cbn [fst snd].
  destruct (Hmove (held (delete i specs) ++ dropped)) as (d & Hd & Hbal').
  { rewrite Hbal, (held_lookup _ _ _ Hspec). by rewrite <- app_assoc. }
  exists (<[i:=(P', l')]> specs ++ specs'), (d ++ dropped).
  split; [by apply Forall_app|]. split.
  - apply Forall2_app; [|done]. apply Forall2_same_length_lookup. split.
    { rewrite !length_insert. by eapply Forall2_length. }
    intros j a u Ha Hu. destruct (decide (j = i)) as [->|Hne].
    { rewrite list_lookup_insert_eq in Ha by (by eapply lookup_lt_Some).
      rewrite list_lookup_insert_eq in Hu by (by eapply lookup_lt_Some). by simplify_eq. }
    rewrite list_lookup_insert_ne in Ha by done. rewrite list_lookup_insert_ne in Hu by done.
    destruct (Forall2_lookup_lr _ _ _ _ _ _ Hall Ha Hu) as [Hq Hoku]. split; [|done].
    apply (ok_stable _ _ _ Hoku s s' l Hq Hi); [|done..].
    destruct (held_two specs i j (P, l) a) as [rest Hrest]; [done..|]. cbn in Hrest.
    exists (rest ++ dropped). rewrite Hbal, Hrest. by rewrite <- !app_assoc.
  - rewrite Hbal'. unfold held. rewrite fmap_app, concat_app. fold (held specs').
    change (concat (snd <$> <[i:=(P', l')]> specs)) with (held (<[i:=(P', l')]> specs)).
    rewrite (held_insert _ _ _ (P', l') Hspec). cbn [snd]. solve_Permutation.
Qed.

Lemma run_safe schedule c : safe c -> safe (run_threads schedule c).
Proof.
  unfold run_threads. revert c. induction schedule as [|p ps IH]; intros c Hc; [done|].
  apply IH. by apply turn_safe.
Qed.

(** A reflexive and transitive relation that steps respect relates the ends of a run. *)
Lemma run_history (history : S -> S -> Prop) schedule c :
  (forall s, history s s) ->
  (forall s1 s2 s3, inv s1 -> inv s2 -> history s1 s2 -> history s2 s3 -> history s1 s3) ->
  (forall l s s', inv s -> evolves l s s' -> history s s') ->
  safe c -> history (fst c) (fst (run_threads schedule c)).
Proof.
  intros Hr Ht He. unfold run_threads. revert c.
  induction schedule as [|p ps IH]; intros c Hc; [done|].
  destruct (turn_safe c p Hc) as [Hc' [l Hev]]. cbn [foldl].
  apply (Ht _ (fst (turn c p))); [apply Hc|apply Hc'| |by apply IH].
  eapply He; [apply Hc|done].
Qed.

Lemma ok_no_panic P l t : ok P l t -> forall s, inv s -> P s -> holds s l -> t <> Halt None.
Proof. induction 1 as [P l t _ IH| | | |]; try done. intros s Hi Hp Hh. by eapply (IH s). Qed.

(** What is known of one thread of a safe configuration. *)
Lemma safe_lookup c i t : safe c -> snd c !! i = Some t ->
  exists P l, P (fst c) /\ holds (fst c) l /\ ok P l t.
Proof.
  intros (_ & specs & d & _ & Hall & Hbal) Hi.
  destruct (Forall2_lookup_r _ _ _ _ _ Hall Hi) as ([P l] & Hspec & Hp & Hok). exists P, l.
  split_and!; [done| |done]. exists (held (delete i specs) ++ d).
  rewrite Hbal, (held_lookup _ _ _ Hspec). by rewrite <- app_assoc.
Qed.

Lemma safe_no_panic c : safe c -> Halt None ∉ snd c.
Proof.
  intros Hc [i Hi]%list_elem_of_lookup.
  destruct (safe_lookup c i _ Hc Hi) as (P & l & Hp & Hh & Hok).
  by apply (ok_no_panic _ _ _ Hok (fst c) (proj1 Hc) Hp Hh).
Qed.

Lemma ok_final P l x : ok P l (Halt (Some x)) ->
  forall s, inv s -> P s -> holds s l -> final x s.
Proof.
  remember (Halt (Some x)) as t eqn:Ht. intros Hok. revert x Ht.
  induction Hok as [P l t _ IH|P l y Hst Hd Hf| | |]; intros x Ht; try done.
  - intros s Hi Hp Hh. by eapply (IH s).
  - injection Ht as ->. eauto.
Qed.
Lemma safe_final c x : safe c -> Halt (Some x) ∈ snd c -> final x (fst c).
Proof.
  intros Hc [i Hi]%list_elem_of_lookup.
  destruct (safe_lookup c i _ Hc Hi) as (P & l & Hp & Hh & Hok).
  by apply (ok_final _ _ _ Hok (fst c) (proj1 Hc) Hp Hh).
Qed.

(** *** Progress *)

(** A thread that cannot move has ended, or waits. *)
Lemma ok_stuck P l t : ok P l t -> forall s, inv s -> P s -> holds s l ->
  can_move s t \/ waits s l \/ (halted t = true /\ Forall droppable l).
Proof.
  induction 1 as [P l t _ IH|P l x|P l f Hst Hf Hb|P l f late|P P1 P2 l l1 l2 child next];
    intros s Hi Hp Hh.
  - by eapply (IH s).
  - by right; right.
  - destruct (f s) as [[s' t]|] eqn:He; [|right; left; by apply Hb].
    left. exists Go. cbn. rewrite He. by eexists.
  - left. exists TimeOut. cbn. destruct (late s). by eexists.
  - left. exists Go. by eexists.
Qed.

Lemma owed_moves c n r : safe c -> owed (fst c) r -> (rank r < n)%nat ->
  exists i t, snd c !! i = Some t /\ can_move (fst c) t.
Proof.
  intros Hc. revert r. induction n as [|n IH]; intros r [Hnd Ho] Hn; [lia|].
  pose proof Hc as (Hi & specs & d & Hd & Hall & Hbal).
  apply Ho in Hbal as Hr. apply elem_of_app in Hr as [Hr|Hr].
  2:{ rewrite Forall_forall in Hd. by apply Hd in Hr. }
  unfold held in Hr. apply list_elem_of_In, in_concat in Hr as (l & Hl & Hrl).
  apply list_elem_of_In in Hl, Hrl.
  apply list_elem_of_fmap in Hl as ([P l0] & -> & Hspec). cbn in Hrl.
  apply list_elem_of_lookup in Hspec as [j Hj].
  destruct (Forall2_lookup_l _ _ _ _ _ Hall Hj) as (t & Ht & Hp & Hok). cbn in Hp, Hok.
  destruct (ok_stuck _ _ _ Hok (fst c) Hi Hp) as [Hm|[(r2 & Ho2 & Hlow)|[_ Hdl]]].
  - exists (held (delete j specs) ++ d). rewrite Hbal, (held_lookup _ _ _ Hj).
    by rewrite <- app_assoc.
  - by exists j, t.
  - destruct (Hlow r Hrl) as [?|Hlt]; [done|]. eapply (IH r2); [done|lia].
  - rewrite Forall_forall in Hdl. by apply Hdl in Hrl.
Qed.

(** Some thread can always move, until all have ended. *)
Lemma safe_progress c : safe c -> Forall (fun t => halted t = true) (snd c) \/
  exists i t, snd c !! i = Some t /\ can_move (fst c) t.
Proof.
  intros Hc. destruct (decide (Forall (fun t => halted t = true) (snd c))) as [?|Hn]; [by left|].
  right. apply not_Forall_Exists in Hn; [|intros t; apply _].
  apply Exists_exists in Hn as (t & [i Hi]%list_elem_of_lookup & Ht).
  destruct (safe_lookup c i t Hc Hi) as (P & l & Hp & Hh & Hok).
  destruct (ok_stuck _ _ _ Hok (fst c) (proj1 Hc) Hp Hh) as [Hm|[(r & Ho & _)|[He _]]].
  - by exists i, t.
  - by apply (owed_moves c (Datatypes.S (rank r)) r Hc Ho); lia.
  - by destruct Ht.
Qed.

(** Every safe configuration can be run to the end of all its threads. *)
Lemma safe_completes c : safe c ->
  exists schedule, Forall (fun t => halted t = true) (snd (run_threads schedule c)).
Proof. apply run_completes; [intros ? ? ?; by apply turn_safe|apply safe_progress]. Qed.

(** Where all threads have ended, what is not settled was dropped. *)
Lemma ok_halted P l t : ok P l t -> halted t = true -> forall s, inv s -> P s -> holds s l -> Forall droppable l.
Proof. induction 1 as [P l t _ IH| | | |]; try done. intros Ht s Hi Hp Hh. by eapply (IH s). Qed.
Lemma safe_done c : safe c -> Forall (fun t => halted t = true) (snd c) ->
  exists dropped, Forall droppable dropped /\ issued_in (fst c) ≡ₚ settled_in (fst c) ++ dropped.
Proof.
  intros (Hi & specs & d & Hd & Hall & Hbal) Hend. exists (held specs ++ d). split; [|done].
  apply Forall_app. split; [|done]. unfold held. rewrite Forall_forall. intros r Hr.
  apply list_elem_of_In, in_concat in Hr as (l & Hl & Hr). apply list_elem_of_In in Hl, Hr.
  apply list_elem_of_fmap in Hl as ([P l0] & -> & [i Hs]%list_elem_of_lookup).
  destruct (Forall2_lookup_l _ _ _ _ _ Hall Hs) as (t & Ht & Hp & Hok). cbn in *.
  assert (Hdl : Forall droppable l0).
  { rewrite Forall_forall in Hend. apply (ok_halted _ _ _ Hok (Hend t (list_elem_of_lookup_2 _ _ _ Ht)) (fst c)); [done..|].
    exists (held (delete i specs) ++ d). rewrite Hbal, (held_lookup _ _ _ Hs). by rewrite <- app_assoc. }
  rewrite Forall_forall in Hdl. by apply Hdl.
Qed.
End Logic.

(** ** Rules for programs

    [satisfies P l m Q K]: the program [m], started where [P] holds with the resources [l], ends
    with a result [r] for which [Q r] holds and with the resources [K r]; whatever the others
    leave alone is kept ([satisfies_frame]). *)

Section Rules.
Context {S L R E : Type} `{!Discipline S L R}.
Implicit Types (s : S) (l : list R) (P F : S -> Prop).

Definition satisfies {A} P l (m : Prog S L E A) (Q : result E A -> S -> Prop)
    (K : result E A -> list R) : Prop :=
  forall F c, stable [] F ->
    (forall r, ok (fun s => Q r s /\ F s) (K r) (c r)) -> ok (fun s => P s /\ F s) l (m c).

(** What a section may do on its exits. *)
Definition section_ok {A} P l (f : Sec S E A) (Q : result E A -> S -> Prop)
    (K : result E A -> list R) : Prop :=
  forall s, inv s -> P s -> holds s l ->
    post f s (fun a s' => moves s l s' (K (Ok a)) /\ Q (Ok a) s')
      (fun e s' => match e with
                   | Fails e => moves s l s' (K (Err e)) /\ Q (Err e) s'
                   | Panics => False
                   end).

Lemma stable_true l : stable l (fun _ => True).
Proof. done. Qed.
Lemma stable_pure l (phi : Prop) : stable l (fun _ => phi).
Proof. by intros s s' l' H. Qed.
Lemma stable_and l P F : stable l P -> stable l F -> stable l (fun s => P s /\ F s).
Proof. intros Hp Hf s s' l' [H1 H2] Hi Hh He Hi'. split; [by eapply Hp|by eapply Hf]. Qed.
Lemma stable_forall {A} l (P : A -> S -> Prop) :
  (forall a, stable l (P a)) -> stable l (fun s => forall a, P a s).
Proof. intros Hp s s' l' H Hi Hh He Hi' a. by eapply Hp. Qed.
Lemma stable_impl l (phi : Prop) P : stable l P -> stable l (fun s => phi -> P s).
Proof. intros Hp s s' l' H Hi Hh He Hi' Hphi. eapply Hp; eauto. Qed.
Lemma stable_mono l l' P : stable l P -> stable (l ++ l') P.
Proof.
  intros Hp s s' l2 H Hi Hh He Hi'. eapply Hp; [done|done| |done|done].
  destruct Hh as [o Ho]. exists (l' ++ o). rewrite Ho. solve_Permutation.
Qed.
Lemma stable_nil l P : stable [] P -> stable l P.
Proof. apply (stable_mono []). Qed.
Lemma stable_cons r l P : stable l P -> stable (r :: l) P.
Proof.
  intros Hp s s' l2 H Hi Hh He Hi'. eapply Hp; [done|done| |done|done].
  destruct Hh as [o Ho]. exists (r :: o). rewrite Ho. solve_Permutation.
Qed.

Lemma satisfies_here {A} P l (m : Prog S L E A) Q K :
  (forall s, inv s -> P s -> holds s l -> satisfies P l m Q K) -> satisfies P l m Q K.
Proof.
  intros Hm F c Hf Hc. apply ok_here. intros s Hi [Hp _] Hh. by apply (Hm s Hi Hp Hh F c).
Qed.

Lemma satisfies_pure {A} (phi : Prop) P l (m : Prog S L E A) Q K :
  (phi -> satisfies P l m Q K) -> satisfies (fun s => phi /\ P s) l m Q K.
Proof.
  intros Hm F c Hf Hc. apply ok_here. intros s Hi [[Hphi Hp] _] Hh.
  eapply ok_equiv; [by apply (Hm Hphi F c)|]. cbn. intros s0. tauto.
Qed.

Lemma satisfies_frame {A} P l (m : Prog S L E A) Q K F :
  satisfies P l m Q K -> stable [] F ->
  satisfies (fun s => P s /\ F s) l m (fun r s => Q r s /\ F s) K.
Proof.
  intros Hm Hf F' c Hf' Hc.
  eapply ok_equiv; [apply (Hm (fun s => F s /\ F' s) c)|]; [by apply stable_and| |].
  - intros r. eapply ok_equiv; [apply Hc|]. cbn. intros s. tauto.
  - cbn. intros s. tauto.
Qed.

Lemma satisfies_conseq {A} P P' l (m : Prog S L E A) (Q Q' : result E A -> S -> Prop)
    (K K' : result E A -> list R) :
  satisfies P l m Q K -> stable l P' -> (forall s, inv s -> P' s -> P s) ->
  (forall r, stable (K r) (Q r)) -> (forall r s, inv s -> Q r s -> Q' r s) ->
  (forall r, K' r = K r) -> satisfies P' l m Q' K'.
Proof.
  intros Hm Hst Hp HstQ Hq HK F c Hf Hc. eapply ok_weaken.
  - apply (Hm F c Hf). intros r. rewrite <- HK. eapply ok_weaken; [apply Hc| |]; rewrite ?HK.
    + apply stable_and; [apply HstQ|by apply stable_nil].
    + intros s Hi [H1 H2]. split; [by apply Hq|done].
  - apply stable_and; [done|by apply stable_nil].
  - intros s Hi [H1 H2]. split; [by apply Hp|done].
Qed.
Lemma satisfies_pre {A} P P' l (m : Prog S L E A) Q K :
  satisfies P l m Q K -> stable l P' -> (forall s, inv s -> P' s -> P s) -> satisfies P' l m Q K.
Proof.
  intros Hm Hst Hp F c Hf Hc. eapply ok_weaken; [by apply (Hm F c Hf)| |].
  - apply stable_and; [done|by apply stable_nil].
  - intros s Hi [H1 H2]. split; [by apply Hp|done].
Qed.

Lemma satisfies_lift {A} P l (r : result E A) (Q : result E A -> S -> Prop) (K : result E A -> list R) :
  stable l P -> l = K r -> (forall s, inv s -> P s -> Q r s) -> satisfies P l (p_lift r) Q K.
Proof.
  intros Hst -> Hq F c Hf Hc. eapply ok_weaken; [by apply Hc| |].
  - apply stable_and; [done|by apply stable_nil].
  - intros s Hi [H1 H2]. split; [by apply Hq|done].
Qed.
Lemma satisfies_ret {A} P l (a : A) (Q : result E A -> S -> Prop) (K : result E A -> list R) :
  stable l P -> l = K (Ok a) -> (forall s, inv s -> P s -> Q (Ok a) s) -> satisfies P l (p_ret a) Q K.
Proof. apply satisfies_lift. Qed.
Lemma satisfies_throw {A} P l (e : E) (Q : result E A -> S -> Prop) (K : result E A -> list R) :
  stable l P -> l = K (Err e) -> (forall s, inv s -> P s -> Q (Err e) s) -> satisfies P l (p_throw e) Q K.
Proof. apply satisfies_lift. Qed.

Lemma satisfies_bind {A B} P l (m : Prog S L E A) (k : A -> Prog S L E B)
    (X : A -> S -> Prop) (KX : A -> list R) Q K :
  satisfies P l m (fun r => match r with Ok a => X a | Err e => Q (Err e) end)
    (fun r => match r with Ok a => KX a | Err e => K (Err e) end) ->
  (forall a, satisfies (X a) (KX a) (k a) Q K) ->
  satisfies P l (p_bind m k) Q K.
Proof.
  intros Hm Hk F c Hf Hc. apply (Hm F _ Hf). intros [a|e]; [by apply (Hk a F c)|apply Hc].
Qed.

Lemma satisfies_attempt {A} P l (m : Prog S L E A) (Q : result E (result E A) -> S -> Prop) K :
  satisfies P l m (fun r => Q (Ok r)) (fun r => K (Ok r)) -> satisfies P l (attempt m) Q K.
Proof. intros Hm F c Hf Hc. apply (Hm F _ Hf). intros r. apply Hc. Qed.

Lemma satisfies_finally {A} P l (m : Prog S L E A) (last : Sec S E unit)
    (X : result E A -> S -> Prop) (KX : result E A -> list R) Q K :
  satisfies P l m X KX ->
  (forall r, satisfies (X r) (KX r) (atomically last) (fun _ => Q r) (fun _ => K r)) ->
  satisfies P l (finally m last) Q K.
Proof.
  intros Hm Hl F c Hf Hc. apply (Hm F _ Hf). intros r. apply (Hl r F _ Hf). intros _. apply Hc.
Qed.

(** A section that never panics, and does what it may on both exits. *)
Lemma satisfies_section {A} P l (f : Sec S E A) Q K :
  stable l P -> section_ok P l f Q K -> satisfies P l (atomically f) Q K.
Proof.
  intros Hst Hs F c Hf Hc. apply ok_step.
  - apply stable_and; [done|by apply stable_nil].
  - intros s s' t Hi [Hp HF] Hh He. specialize (Hs s Hi Hp Hh). unfold post in Hs.
    destruct (f s) as [[a|[e|]] s1]; cbn in He; simplify_eq; try done; destruct Hs as [Hm Hq];
      eexists _, _; (split; [done|]); (split; [|apply Hc]); (split; [done|]);
      destruct Hm as (Hi' & Hev & _); by eapply (Hf s _ l).
  - intros s _ _ _ He. by destruct (f s).
Qed.

Lemma satisfies_drop {A} P l l' d (m : Prog S L E A) Q K :
  (forall l1 l2 s s', (forall r, r ∈ l1 -> r ∈ l2) -> evolves l1 s s' -> evolves l2 s s') ->
  satisfies P l m Q K -> l' ≡ₚ l ++ d -> Forall droppable d -> satisfies P l' m Q K.
Proof. intros Hmono Hm Hl Hd F c Hf Hc. eapply ok_drop; [done|by apply Hm|done|done]. Qed.

Lemma satisfies_lift_drop {A} P l d (r : result E A) (Q : result E A -> S -> Prop) (K : result E A -> list R) :
  (forall l1 l2 s s', (forall r, r ∈ l1 -> r ∈ l2) -> evolves l1 s s' -> evolves l2 s s') ->
  stable l P -> l ≡ₚ K r ++ d -> Forall droppable d -> (forall s, inv s -> P s -> Q r s) ->
  satisfies P l (p_lift r) Q K.
Proof.
  intros Hmono Hst Hl Hd Hq F c Hf Hc. eapply ok_weaken; [eapply ok_drop; [done|by apply Hc|done|done]| |].
  - apply stable_and; [done|by apply stable_nil].
  - intros s Hi [H1 H2]. split; [by apply Hq|done].
Qed.

(** What cannot be. *)
Lemma satisfies_false {A} P l (m : Prog S L E A) Q K :
  (forall s, inv s -> P s -> False) -> satisfies P l m Q K.
Proof.
  intros HP F c _ _. apply ok_here. intros s Hi [Hp _] _. by destruct (HP s Hi Hp).
Qed.

(** A section that does not fail. *)
Definition sure {A} P l (f : Sec S E A) (X : A -> S -> Prop) (KX : A -> list R) : Prop :=
  forall s, inv s -> P s -> holds s l ->
    post f s (fun a s' => moves s l s' (KX a) /\ X a s') (fun _ _ => False).
Lemma satisfies_sure {A} P l (f : Sec S E A) X KX (Q : result E A -> S -> Prop) K :
  stable l P -> sure P l f X KX -> (forall a s, inv s -> X a s -> Q (Ok a) s) ->
  (forall a, K (Ok a) = KX a) -> satisfies P l (atomically f) Q K.
Proof.
  intros Hst Hs Hq HK. apply satisfies_section; [done|]. intros s Hi Hp Hh.
  specialize (Hs s Hi Hp Hh). unfold post in *.
  destruct (f s) as [[a|[e|]] s']; try done. rewrite HK. split; [apply Hs|].
  apply Hq; [apply Hs|apply Hs].
Qed.
Lemma satisfies_then {A B} P l (f : Sec S E A) X KX (k : A -> Prog S L E B) Q K :
  stable l P -> sure P l f X KX -> (forall a, satisfies (X a) (KX a) (k a) Q K) ->
  satisfies P l (p_bind (atomically f) k) Q K.
Proof.
  intros Hst Hs Hk. apply (satisfies_bind _ _ _ _ X KX); [|done].
  by apply (satisfies_sure _ _ _ X KX).
Qed.

Lemma satisfies_spawn P P1 P2 l l1 l2 child Q (K : result E unit -> list R) :
  stable l P -> l ≡ₚ l1 ++ l2 -> (forall s, inv s -> P s -> holds s l -> P1 s /\ P2 s) ->
  ok P1 l1 child -> stable l2 P2 -> l2 = K (Ok tt) -> (forall s, inv s -> P2 s -> Q (Ok tt) s) ->
  satisfies P l (spawn child) Q K.
Proof.
  intros Hst Hl Hp Hok Hst2 -> Hq F c Hf Hc.
  eapply (ok_fork _ P1 (fun s => P2 s /\ F s) _ l1 (K (Ok tt))).
  - apply stable_and; [done|by apply stable_nil].
  - done.
  - intros s Hi [H1 H2] Hh. by destruct (Hp s Hi H1 Hh).
  - done.
  - eapply ok_weaken; [apply Hc| |].
    + apply stable_and; [done|by apply stable_nil].
    + intros s Hi [H1 H2]. split; [by apply Hq|done].
Qed.

Lemma satisfies_await {A} P l (ready : S -> option (A * S)) (Q : result E A -> S -> Prop) K :
  stable l P ->
  (forall s a s', inv s -> P s -> holds s l -> ready s = Some (a, s') ->
     moves s l s' (K (Ok a)) /\ Q (Ok a) s') ->
  (forall s, inv s -> P s -> holds s l -> ready s = None -> waits s l) ->
  satisfies P l (await ready) Q K.
Proof.
  intros Hst Hr Hb F c Hf Hc. apply ok_step.
  - apply stable_and; [done|by apply stable_nil].
  - intros s s' t Hi [Hp HF] Hh He. destruct (ready s) as [[a s1]|] eqn:Hre; [|done].
    cbn in He. simplify_eq. destruct (Hr s a s' Hi Hp Hh Hre) as [Hm Hq].
    eexists _, _. split; [done|]. split; [|apply Hc]. split; [done|].
    destruct Hm as (Hi' & Hev & _). by eapply (Hf s _ l).
  - intros s Hi [Hp _] Hh He. apply (Hb s Hi Hp Hh). by destruct (ready s) as [[]|].
Qed.

Lemma satisfies_await_until {A} P l (ready : S -> option (A * S)) (late : Sec S E A) Q K :
  stable l P ->
  (forall s a s', inv s -> P s -> holds s l -> ready s = Some (a, s') ->
     moves s l s' (K (Ok a)) /\ Q (Ok a) s') ->
  section_ok P l late Q K ->
  satisfies P l (await_until ready late) Q K.
Proof.
  intros Hst Hr Hl F c Hf Hc. apply ok_timed.
  - apply stable_and; [done|by apply stable_nil].
  - intros s s' t Hi [Hp HF] Hh He. destruct (ready s) as [[a s1]|] eqn:Hre; [|done].
    cbn in He. simplify_eq. destruct (Hr s a s' Hi Hp Hh Hre) as [Hm Hq].
    eexists _, _. split; [done|]. split; [|apply Hc]. split; [done|].
    destruct Hm as (Hi' & Hev & _). by eapply (Hf s _ l).
  - intros s Hi [Hp HF] Hh. specialize (Hl s Hi Hp Hh). unfold post in Hl.
    destruct (late s) as [[a|[e|]] s1]; cbn; try done; destruct Hl as [Hm Hq];
      eexists _, _; (split; [done|]); (split; [|apply Hc]); (split; [done|]);
      destruct Hm as (Hi' & Hev & _); by eapply (Hf s _ l).
Qed.

Lemma satisfies_for_each {A} P l (xs : list A) (m : A -> Prog S L E unit) (Q : result E unit -> S -> Prop) K :
  stable l P ->
  (forall x, x ∈ xs -> satisfies P l (m x) (fun r => match r with Ok _ => P | Err e => Q (Err e) end)
     (fun r => match r with Ok _ => l | Err e => K (Err e) end)) ->
  (forall s, inv s -> P s -> Q (Ok tt) s) -> l = K (Ok tt) ->
  satisfies P l (for_each xs m) Q K.
Proof.
  intros Hst Hm Hq HK. induction xs as [|x xs IH]; cbn; [by apply satisfies_ret|].
  apply (satisfies_bind _ _ _ _ (fun _ => P) (fun _ => l)); [apply Hm; by left|].
  intros []. apply IH. intros y Hy. apply Hm. by right.
Qed.

(** A program with what comes after it. *)
Lemma satisfies_ok {A} P l (m : Prog S L E A) Q K c :
  satisfies P l m Q K -> (forall r, ok (Q r) (K r) (c r)) -> ok P l (m c).
Proof.
  intros Hm Hc. eapply ok_equiv; [apply (Hm (fun _ => True) c)|].
  - apply stable_true.
  - intros r. eapply ok_equiv; [apply Hc|]. cbn. tauto.
  - cbn. tauto.
Qed.
End Rules.
