(* ===== verification/Broker.v ===== *)
(** The data of the broker ([host-runtime/src/broker.rs]): its leases, references, sessions and
    operation ledgers, the pure decisions on them, and what it asks of the platform. *)

From Stdlib Require Import Init.Byte Strings.Byte.
From S2P Require Import Prelude Errors Crates Outer Records Payloads Reassembly NoiseIO Lease Bootstrap Session Control Adapter RawTransport Threads.

Definition MAX_SAFE : Z := 9007199254740991.
Definition IOS_PREPARE_LAUNCH_MS : Z := 10000.
Definition ANDROID_PREPARE_LAUNCH_MS : Z := 20000.
Definition PREPARE_BOOTSTRAP_MS : Z := 10000.
Definition BROKER_CLEANUP_MS : Z := 2000.
Definition SESSION_IDLE_MS : Z := 30000.
Definition LEASE_IDLE_MS : Z := 120000.
Definition LEASE_ABSOLUTE_MS : Z := 900000.
Definition HEARTBEAT_INTERVAL_MS : Z := 30000.
Definition HEARTBEAT_MISSES : Z := 4.

(** ** Failures *)

Definition fail (stage : ErrorStage) (reason : CloseReason) : ControlFailure :=
  let '(kind, message) := match reason with
    | AuthenticationFailed =>
        (TransportAuthenticationRequired, str "Target transport authentication failed")
    | Timeout => (KindTimeout, str "Broker operation timed out")
    | InternalError | CleanupFailed => (KindInternalError, str "Broker operation failed")
    | _ => (SessionExpired, str "Target session expired")
    end in
  {| f_kind := kind; f_message := message; f_retryable := false; f_stage := stage;
     f_handoff := NotHandedOff; f_close_reason := reason |}.

Definition selection (stage : ErrorStage) : ControlFailure :=
  {| f_kind := TargetSelectionRequired; f_message := str "Target selection is invalid";
     f_retryable := false; f_stage := stage; f_handoff := NotHandedOff;
     f_close_reason := BindingMismatch |}.

Definition with_failure_handoff (h : HandoffState) (f : ControlFailure) : ControlFailure :=
  {| f_kind := f_kind f; f_message := f_message f; f_retryable := f_retryable f;
     f_stage := f_stage f; f_handoff := h; f_close_reason := f_close_reason f |}.

Definition transport_fail (stage : ErrorStage) (error : TransportFailure) : ControlFailure :=
  with_failure_handoff (tf_handoff error) (fail stage (tf_close_reason error)).

Definition platform_launch_reason (kind : PlatformFailureKind) : CloseReason :=
  match kind with
  | PlatformCleanupFailed => CleanupFailed
  | TimedOut | Cancelled => Timeout
  | Rejected => BindingMismatch
  | Eof => PeerClosed
  | Unavailable | PlatformInternal => InternalError
  end.

Definition platform_launch_failure (failure : PlatformFailure) : TransportFailure :=
  {| tf_close_reason := platform_launch_reason (primary_kind failure);
     tf_handoff := NotHandedOff; tf_cleanup_failed := pf_cleanup_failed failure |}.

(** ** Deadlines *)

Definition abs (v : Z) : CRes AbsoluteDeadline :=
  check (1 <=? v) && (v <=? MAX_SAFE) else fail Ipc InternalError in
  res_map_err (fun _ => fail Ipc InternalError) (AbsoluteDeadline_new v).

Definition prepare_launch_budget (p : Platform) : Z :=
  match p with
  | IosSimulator => IOS_PREPARE_LAUNCH_MS
  | AndroidEmulator => ANDROID_PREPARE_LAUNCH_MS
  end.

Definition prepare_deadline (started caller_deadline : Z) (p : Platform) : CRes Z :=
  let? budget := res_of_option (fail StPrepare InternalError)
    (checked_add started (prepare_launch_budget p) ≫= fun d => checked_add d PREPARE_BOOTSTRAP_MS) in
  Ok (Z.min caller_deadline budget).

Definition launch_deadline (started prepare_deadline : Z) (p : Platform) : CRes Z :=
  let? launch_limit := res_of_option (fail StPrepare InternalError)
    (checked_add started (prepare_launch_budget p)) in
  Ok (Z.min prepare_deadline launch_limit).

Definition bootstrap_deadline (connected prepare_deadline : Z) : CRes Z :=
  let? bootstrap_limit := res_of_option (fail StBootstrap InternalError)
    (checked_add connected PREPARE_BOOTSTRAP_MS) in
  Ok (Z.min prepare_deadline bootstrap_limit).

Definition commit_rejection_reason (completed deadline : Z) (binding_matches : bool)
    : option CloseReason :=
  if deadline <=? completed then Some Timeout
  else if negb binding_matches then Some BindingMismatch
  else None.

Definition session_tombstone_expires (now : Z) : CRes Z :=
  match checked_add now SESSION_IDLE_MS with
  | Some expires => if expires <=? MAX_SAFE then Ok expires else Err (fail Cleanup InternalError)
  | None => Err (fail Cleanup InternalError)
  end.

Definition saturating_sub (a b : Z) : Z := Z.max (a - b) 0.
Definition expired_at (current observed ttl : Z) : bool := ttl <=? saturating_sub current observed.
Definition heartbeat_lost (misses : Z) : bool := HEARTBEAT_MISSES <=? misses.

Definition lease_terminal_reason (current created last_client_activity misses : Z)
    : option CloseReason :=
  if expired_at current created LEASE_ABSOLUTE_MS then Some Stale
  else if heartbeat_lost misses then Some BrokerLost
  else if expired_at current last_client_activity LEASE_IDLE_MS then Some Stale
  else None.

Inductive HeartbeatAttempt : Set := RequestAndReply | ReplyOnly.
Definition heartbeat_attempt (misses : Z) : HeartbeatAttempt :=
  if misses =? 0 then RequestAndReply else ReplyOnly.

(** ** Keys *)

#[export] Instance byte_countable : Countable byte :=
  inj_countable Byte.to_N Byte.of_N Byte.of_to_N.
#[export] Instance Platform_eq_dec : EqDecision Platform.
Proof. solve_decision. Defined.

Record SelectionKey := mkSelectionKey {
  sk_platform : Platform;
  sk_device : bytes;
  sk_app : bytes
}.

Record PrepareKey := mkPrepareKey {
  pk_platform : Platform;
  pk_device : bytes;
  pk_app : bytes;
  pk_digest : bytes
}.

#[export] Instance SelectionKey_eq_dec : EqDecision SelectionKey.
Proof. solve_decision. Defined.
#[export] Instance PrepareKey_eq_dec : EqDecision PrepareKey.
Proof. solve_decision. Defined.

Definition SelectionKey_parts (k : SelectionKey) : Z * bytes * bytes :=
  (Platform_wire (sk_platform k), sk_device k, sk_app k).
Definition SelectionKey_of_parts (t : Z * bytes * bytes) : option SelectionKey :=
  let '(p, d, a) := t in
  Some (mkSelectionKey (if p =? 0 then IosSimulator else AndroidEmulator) d a).
Lemma SelectionKey_parts_inj k : SelectionKey_of_parts (SelectionKey_parts k) = Some k.
Proof. by destruct k as [[] d a]. Qed.
#[export] Instance SelectionKey_countable : Countable SelectionKey :=
  inj_countable SelectionKey_parts SelectionKey_of_parts SelectionKey_parts_inj.

Definition PrepareKey_new (b : PrepareBody) : PrepareKey :=
  mkPrepareKey (platform b) (device_selector b) (app_id b) (app_artifact_sha256 b).
Definition key_selection (k : PrepareKey) : SelectionKey :=
  mkSelectionKey (pk_platform k) (pk_device k) (pk_app k).

(** ** Operation ledgers *)

Record OperationState {Cancellation : Type} := mkOperations {
  accepting : bool;
  active_operations : Z;
  completed : option (result CloseReason unit);
  next_id : Z;
  cancellations : gmap Z Cancellation
}.
Arguments OperationState Cancellation : clear implicits.
Arguments mkOperations {Cancellation}.

Section Ledger.
Context {Cancellation : Type}.
Implicit Types o : OperationState Cancellation.

Definition LeaseOperations_new : OperationState Cancellation := mkOperations true 0 None 1 ∅.

Definition enter (cancellation : Cancellation) : M (OperationState Cancellation) CloseReason Z :=
  fun o =>
    if negb (accepting o) then (Err Stale, o)
    else match checked_add (next_id o) 1 with
         | None => (Err InternalError, o)
         | Some next =>
             (Ok (next_id o), mkOperations (accepting o) (active_operations o + 1) (completed o)
                next (<[next_id o := cancellation]> (cancellations o)))
         end.

(** [Drop] of a [LeaseOperation]: [None] where the count would be negative. *)
Definition leave (id : Z) (o : OperationState Cancellation) : option (OperationState Cancellation) :=
  if active_operations o <=? 0 then None
  else Some (mkOperations (accepting o) (active_operations o - 1) (completed o) (next_id o)
               (delete id (cancellations o))).

Definition begin_close (o : OperationState Cancellation)
    : option (list Cancellation) * OperationState Cancellation :=
  if negb (accepting o) then (None, o)
  else (Some (snd <$> map_to_list (cancellations o)),
        mkOperations false (active_operations o) (completed o) (next_id o) (cancellations o)).

Definition finish_close (r : result CloseReason unit) (o : OperationState Cancellation)
    : OperationState Cancellation :=
  mkOperations (accepting o) (active_operations o) (Some r) (next_id o) (cancellations o).
End Ledger.

(** ** The platform *)

(** The adapters and what the libraries draw from the operating system, on the world of
    [PlatformIo]. *)
Class PlatformHost (W : Type) `{PlatformIo W} := {
  PlatformTargetAdapter : Type;
  PendingLaunch : Type;
  begin_launch : PlatformTargetAdapter -> TargetSelection -> AbsoluteDeadline -> W ->
    PendingLaunch * W;
  endpoint_of : PendingLaunch -> LaunchEndpoint;
  pending_launch : PendingLaunch -> bytes -> Cancellation -> AbsoluteDeadline -> W ->
    PRes LaunchedTargetIo * W;
  pending_abort : PendingLaunch -> Cancellation -> AbsoluteDeadline -> W -> PRes unit * W;
  cancel : Cancellation -> W -> W;
  generate_keypair : W -> Res (bytes * bytes) * W;
  generate_pbs : W -> Res bytes * W;
  draw_entropy : W -> bytes * W
}.

(** ** Leases *)

Inductive LeaseState : Set := LeasePreparing | LeaseReady | LeaseStale | LeaseClosing.
Inductive RefState : Set := RefPending | RefMinted | RefRedeeming | RefConsumed | RefStale.

#[export] Instance LeaseState_eq_dec : EqDecision LeaseState.
Proof. solve_decision. Defined.
#[export] Instance RefState_eq_dec : EqDecision RefState.
Proof. solve_decision. Defined.

Record Reference := mkReference {
  ref_state : RefState;
  issued : Z;
  expires : Z;
  session_slot : option Z;
  ref_session_id : option bytes
}.

Definition set_ref_state (s : RefState) (r : Reference) : Reference :=
  mkReference s (issued r) (expires r) (session_slot r) (ref_session_id r).
Definition set_expires (e : Z) (r : Reference) : Reference :=
  mkReference (ref_state r) (issued r) e (session_slot r) (ref_session_id r).
Definition set_session_slot (k : Z) (r : Reference) : Reference :=
  mkReference (ref_state r) (issued r) (expires r) (Some k) (ref_session_id r).
Definition bind_session_id (id : bytes) (r : Reference) : Reference :=
  mkReference (ref_state r) (issued r) (expires r) (session_slot r) (Some id).

Section Leases.
Context `{Minicbor} `{Snow} `{PlatformHost W}.

Record Session := mkSession {
  s_id : option bytes;
  s_raw : RawDuplex;
  s_crypto : option SessionCore;
  s_reader : option RawFrameReader;
  s_response : bytes;
  s_response_digest : bytes;
  session_handoff : HandoffState;
  s_last : Z
}.

Definition bind_id (id : bytes) (s : Session) : Session :=
  mkSession (Some (default id (s_id s))) (s_raw s) (s_crypto s) (s_reader s) (s_response s)
    (s_response_digest s) (session_handoff s) (s_last s).
Definition set_session_io (c : option SessionCore) (r : option RawFrameReader) (s : Session)
    : Session :=
  mkSession (s_id s) (s_raw s) c r (s_response s) (s_response_digest s) (session_handoff s)
    (s_last s).
Definition set_session_used (h : HandoffState) (last : Z) (s : Session) : Session :=
  mkSession (s_id s) (s_raw s) (s_crypto s) (s_reader s) (s_response s) (s_response_digest s) h
    last.

(** What a lease has from its commit on, and what only names it. *)
Record Lease := mkLease {
  key : PrepareKey;
  state : LeaseState;
  lease_id : bytes;
  generation : Z;
  epoch : Z;
  nk_hash : bytes;
  pbs : option bytes;
  control : option RawDuplex;
  lease_crypto : option LeaseCore;
  control_reader : option RawFrameReader;
  connector : option RawConnector;
  cleanup : option CleanupReceipt;
  references : gmap bytes Reference;
  sessions : gmap Z Session;
  next_session : Z;
  created : Z;
  last_heartbeat_attempt : Z;
  last_heartbeat_success : Z;
  heartbeat_counter : Z;
  heartbeat_misses : Z;
  last_client_activity : Z;
  terminal_cleanup_failed : bool;
  terminal_reason : option CloseReason;
  terminal_handoff : HandoffState;
  lease_handoff : HandoffState
}.

Definition set_state (st : LeaseState) (l : Lease) : Lease :=
  mkLease (key l) st (lease_id l) (generation l) (epoch l) (nk_hash l) (pbs l) (control l)
    (lease_crypto l) (control_reader l) (connector l) (cleanup l) (references l) (sessions l)
    (next_session l) (created l) (last_heartbeat_attempt l) (last_heartbeat_success l)
    (heartbeat_counter l) (heartbeat_misses l) (last_client_activity l)
    (terminal_cleanup_failed l) (terminal_reason l) (terminal_handoff l) (lease_handoff l).
Definition set_references (r : gmap bytes Reference) (l : Lease) : Lease :=
  mkLease (key l) (state l) (lease_id l) (generation l) (epoch l) (nk_hash l) (pbs l) (control l)
    (lease_crypto l) (control_reader l) (connector l) (cleanup l) r (sessions l)
    (next_session l) (created l) (last_heartbeat_attempt l) (last_heartbeat_success l)
    (heartbeat_counter l) (heartbeat_misses l) (last_client_activity l)
    (terminal_cleanup_failed l) (terminal_reason l) (terminal_handoff l) (lease_handoff l).
Definition set_sessions (m : gmap Z Session) (l : Lease) : Lease :=
  mkLease (key l) (state l) (lease_id l) (generation l) (epoch l) (nk_hash l) (pbs l) (control l)
    (lease_crypto l) (control_reader l) (connector l) (cleanup l) (references l) m
    (next_session l) (created l) (last_heartbeat_attempt l) (last_heartbeat_success l)
    (heartbeat_counter l) (heartbeat_misses l) (last_client_activity l)
    (terminal_cleanup_failed l) (terminal_reason l) (terminal_handoff l) (lease_handoff l).
Definition set_next_session (n : Z) (l : Lease) : Lease :=
  mkLease (key l) (state l) (lease_id l) (generation l) (epoch l) (nk_hash l) (pbs l) (control l)
    (lease_crypto l) (control_reader l) (connector l) (cleanup l) (references l) (sessions l)
    n (created l) (last_heartbeat_attempt l) (last_heartbeat_success l)
    (heartbeat_counter l) (heartbeat_misses l) (last_client_activity l)
    (terminal_cleanup_failed l) (terminal_reason l) (terminal_handoff l) (lease_handoff l).
Definition set_control_io (c : option LeaseCore) (r : option RawFrameReader) (l : Lease) : Lease :=
  mkLease (key l) (state l) (lease_id l) (generation l) (epoch l) (nk_hash l) (pbs l) (control l)
    c r (connector l) (cleanup l) (references l) (sessions l)
    (next_session l) (created l) (last_heartbeat_attempt l) (last_heartbeat_success l)
    (heartbeat_counter l) (heartbeat_misses l) (last_client_activity l)
    (terminal_cleanup_failed l) (terminal_reason l) (terminal_handoff l) (lease_handoff l).
(** What the reaper takes: the control stream, its core and the cleanup. *)
Definition take_terminal (l : Lease) : Lease :=
  mkLease (key l) (state l) (lease_id l) (generation l) (epoch l) (nk_hash l) (pbs l) None
    None (control_reader l) (connector l) None (references l) (sessions l)
    (next_session l) (created l) (last_heartbeat_attempt l) (last_heartbeat_success l)
    (heartbeat_counter l) (heartbeat_misses l) (last_client_activity l)
    (terminal_cleanup_failed l) (terminal_reason l) (terminal_handoff l) (lease_handoff l).
Definition set_heartbeat (attempt success counter misses : Z) (l : Lease) : Lease :=
  mkLease (key l) (state l) (lease_id l) (generation l) (epoch l) (nk_hash l) (pbs l) (control l)
    (lease_crypto l) (control_reader l) (connector l) (cleanup l) (references l) (sessions l)
    (next_session l) (created l) attempt success counter misses (last_client_activity l)
    (terminal_cleanup_failed l) (terminal_reason l) (terminal_handoff l) (lease_handoff l).
Definition set_activity (n : Z) (l : Lease) : Lease :=
  mkLease (key l) (state l) (lease_id l) (generation l) (epoch l) (nk_hash l) (pbs l) (control l)
    (lease_crypto l) (control_reader l) (connector l) (cleanup l) (references l) (sessions l)
    (next_session l) (created l) (last_heartbeat_attempt l) (last_heartbeat_success l)
    (heartbeat_counter l) (heartbeat_misses l) n
    (terminal_cleanup_failed l) (terminal_reason l) (terminal_handoff l) (lease_handoff l).
(** The terminal fields and the hand-off state. *)
Definition set_terminal (failed : bool) (reason : option CloseReason) (th h : HandoffState)
    (l : Lease) : Lease :=
  mkLease (key l) (state l) (lease_id l) (generation l) (epoch l) (nk_hash l) (pbs l) (control l)
    (lease_crypto l) (control_reader l) (connector l) (cleanup l) (references l) (sessions l)
    (next_session l) (created l) (last_heartbeat_attempt l) (last_heartbeat_success l)
    (heartbeat_counter l) (heartbeat_misses l) (last_client_activity l) failed reason th h.
(** [terminal_reason.get_or_insert(reason)]. *)
Definition insert_terminal_reason (reason : CloseReason) (l : Lease) : Lease :=
  set_terminal (terminal_cleanup_failed l) (Some (default reason (terminal_reason l)))
    (terminal_handoff l) (lease_handoff l) l.
Definition set_lease_handoff (h : HandoffState) (l : Lease) : Lease :=
  set_terminal (terminal_cleanup_failed l) (terminal_reason l) (terminal_handoff l) h l.

Definition terminal_reason_at (current : Z) (l : Lease) : option CloseReason :=
  lease_terminal_reason current (created l) (last_client_activity l) (heartbeat_misses l).

(** The hand-off state of a lease and its sessions. *)
Definition overall_handoff (l : Lease) : HandoffState :=
  if bool_decide (lease_handoff l = HandoffPossibleOrConfirmed)
     || existsb (fun p => bool_decide (session_handoff (snd p) = HandoffPossibleOrConfirmed))
          (map_to_list (sessions l))
  then HandoffPossibleOrConfirmed else NotHandedOff.

Definition matched_session_slot (l : Lease) (token session_id : bytes) (stage : ErrorStage)
    (allow_unbound : bool) : CRes Z :=
  match references l !! token with
  | Some reference =>
      check bool_decide (ref_state reference = RefConsumed) else selection stage in
      let? slot := res_of_option (selection stage) (session_slot reference) in
      check is_none_or (fun bound => bytes_eqb bound session_id) (ref_session_id reference)
        else selection stage in
      match sessions l !! slot with
      | Some session =>
          check is_none_or (fun bound => bytes_eqb bound session_id) (s_id session)
            else selection stage in
          check allow_unbound || is_Some_b (ref_session_id reference) else selection stage in
          Ok slot
      | None =>
          Err (if bool_decide (ref_session_id reference = Some session_id) then fail stage Stale
               else selection stage)
      end
  | None => Err (selection stage)
  end.

(** A reference [prune] keeps. *)
Definition retained (current : Z) (l : Lease) (r : Reference) : bool :=
  (bool_decide (ref_state r = RefConsumed)
   && match session_slot r with
      | Some slot => is_Some_b (sessions l !! slot)
      | None => false
      end)
  || (current <? expires r).
End Leases.
Arguments Session {_} W {_} : rename.
Arguments Lease {_} W {_} : rename.
