(* ===== verification/BrokerOps.v ===== *)
(** The operations of the broker ([SessionBroker] of [host-runtime/src/broker.rs]) as programs
    of threads: each hold of the lock on [Core] is one atomic section, and so is each call of
    the clock, of the platform and of the raw transport between them. *)

From S2P Require Import Prelude Errors Crates Outer Records Payloads Reassembly NoiseIO Lease Bootstrap Session Control Adapter RawTransport Threads Broker.

Section Operations.
Context `{Minicbor} `{Snow} `{Sha2} `{Base64} `{PlatformHost W}.

(** ** The state *)

(** A lease-wide operation: the ledger it is entered in, and its id there. *)
Definition Guard : Type := nat * Z.

Record Prepared := mkPrepared {
  success : BootstrapSuccess;
  prepared_pbs : bytes;
  operation : Guard
}.

(** An owned operation of [owned_op.rs], as its users see it ([OwnedOp]). *)
Inductive OpCell : Type :=
| CellProducing | CellReady (v : result TransportFailure Prepared) | CellTaken | CellAbandoned.

(** A history, which no definition reads: the launches begun and those consumed, the receipts
    that launches gave and those moved into a call, the session slots given to openings, the
    tokens given out, and the lease of each owned operation. *)
Record Books := mkBooks {
  begun : list PendingLaunch;
  consumed : list PendingLaunch;
  launched : list CleanupReceipt;
  spent : list CleanupReceipt;
  reserved : list (nat * Z);
  minted : list bytes;
  owners : list nat
}.

(** [Core] with what its leases share with the threads: the ledgers and probes are those of
    the lease that was pushed at the same index, and outlive it. *)
Record Broker := mkBroker {
  leases : list (option (Lease W));
  failed : gmap SelectionKey (bytes * CloseReason);
  stale_tokens : gmap bytes Z;
  shutting_down : bool;
  ledgers : list (OperationState Cancellation);
  probes : list bool;
  cells : list OpCell;
  pending_reapers : Z;
  entropy : list bytes;
  books : Books;
  bio : Io (W:=W)
}.

Definition set_leases x (s : Broker) := mkBroker x (failed s) (stale_tokens s) (shutting_down s)
  (ledgers s) (probes s) (cells s) (pending_reapers s) (entropy s) (books s) (bio s).
Definition set_failed x (s : Broker) := mkBroker (leases s) x (stale_tokens s) (shutting_down s)
  (ledgers s) (probes s) (cells s) (pending_reapers s) (entropy s) (books s) (bio s).
Definition set_stale_tokens x (s : Broker) := mkBroker (leases s) (failed s) x (shutting_down s)
  (ledgers s) (probes s) (cells s) (pending_reapers s) (entropy s) (books s) (bio s).
Definition set_shutting_down (s : Broker) := mkBroker (leases s) (failed s) (stale_tokens s) true
  (ledgers s) (probes s) (cells s) (pending_reapers s) (entropy s) (books s) (bio s).
Definition set_ledgers x (s : Broker) := mkBroker (leases s) (failed s) (stale_tokens s)
  (shutting_down s) x (probes s) (cells s) (pending_reapers s) (entropy s) (books s) (bio s).
Definition set_probes x (s : Broker) := mkBroker (leases s) (failed s) (stale_tokens s)
  (shutting_down s) (ledgers s) x (cells s) (pending_reapers s) (entropy s) (books s) (bio s).
Definition set_cells x (s : Broker) := mkBroker (leases s) (failed s) (stale_tokens s)
  (shutting_down s) (ledgers s) (probes s) x (pending_reapers s) (entropy s) (books s) (bio s).
Definition add_reapers n (s : Broker) := mkBroker (leases s) (failed s) (stale_tokens s)
  (shutting_down s) (ledgers s) (probes s) (cells s) (pending_reapers s + n) (entropy s) (books s) (bio s).
Definition set_books x (s : Broker) := mkBroker (leases s) (failed s) (stale_tokens s)
  (shutting_down s) (ledgers s) (probes s) (cells s) (pending_reapers s) (entropy s) x (bio s).
Definition set_bio x (s : Broker) := mkBroker (leases s) (failed s) (stale_tokens s)
  (shutting_down s) (ledgers s) (probes s) (cells s) (pending_reapers s) (entropy s) (books s) x.
Definition set_entropy x (s : Broker) := mkBroker (leases s) (failed s) (stale_tokens s)
  (shutting_down s) (ledgers s) (probes s) (cells s) (pending_reapers s) x (books s) (bio s).

Definition Core_new (random : list bytes) (w : W) : Broker :=
  mkBroker [] ∅ ∅ false [] [] [] 0 random (mkBooks [] [] [] [] [] [] []) (mkIo w []).

(** What a thread ends with. *)
Inductive Leaf : Type :=
| Replied (r : CRes ControlSuccess)
| Returned (r : CRes unit)
| ShutDown (r : CRes unit)
| Worker.

Definition BSec := Sec Broker ControlFailure.
Definition BProg := Prog Broker Leaf ControlFailure.

(** ** Sections *)

Definition fails {A} (stage : ErrorStage) (reason : CloseReason) : BSec A :=
  throw (Fails (fail stage reason)).
Definition panics {E A} : Sec Broker E A := throw Panics.
Definition of_res {E A} (r : result E A) : Sec Broker E A := lift (res_map_err Fails r).
Definition or_fail {A} (stage : ErrorStage) (reason : CloseReason) (o : option A) : BSec A :=
  of_res (res_of_option (fail stage reason) o).
(** A section with its failure mapped. *)
Definition map_fails {E F A} (f : E -> F) (m : Sec Broker E A) : Sec Broker F A := fun s =>
  let '(r, s') := m s in
  (res_map_err (fun e => match e with Fails e => Fails (f e) | Panics => Panics end) r, s').

Definition on_world {E A} (f : W -> A * W) : Sec Broker E A := fun s =>
  let '(a, w) := f (world (bio s)) in (Ok a, set_bio (mkIo w (log (bio s))) s).
Definition on_bio {E A} (f : Io (W:=W) -> A * Io (W:=W)) : Sec Broker E A := fun s =>
  let '(a, x) := f (bio s) in (Ok a, set_bio x s).

Definition now : BSec Z := fun s =>
  match now_unix_ms (bio s) with
  | (Ok n, x) => (Ok n, set_bio x s)
  | (Err _, x) => (Err (Fails (fail Ipc InternalError)), set_bio x s)
  end.

Definition cleanup_absolute_deadline : BSec AbsoluteDeadline :=
  do n <- now; of_res (abs (Z.min (saturating_add n BROKER_CLEANUP_MS) MAX_SAFE)).
(** The [Instant] it returns bounds a wait, which may end by its deadline at any time. *)
Definition cleanup_deadline : BSec unit := run cleanup_absolute_deadline; ret tt.

Definition cancel_raw {E} (raw : RawDuplex) : Sec Broker E unit :=
  on_bio (fun x => (tt, io_cancel raw x)).
Definition new_cancellation {E} : Sec Broker E Cancellation := on_world Cancellation_new.

Definition read_exact (n : nat) : BSec (option bytes) := fun s =>
  match entropy s with
  | b :: l => (Ok (if (length b =? n)%nat then Some b else None), set_entropy l s)
  | [] => (Ok None, s)
  end.

(** At most eight draws, none of them all zero. *)
Fixpoint random_tries (tries n : nat) : BSec bytes :=
  match tries with
  | O => fails Ipc InternalError
  | S tries =>
      do b <- read_exact n;
      match b with
      | None => fails Ipc InternalError
      | Some b => if bool_decide (b = repeat (b8 0) n) then random_tries tries n else ret b
      end
  end.
Definition random (n : nat) : BSec bytes := random_tries 8 n.

(** [core.leases.get(index).and_then(Option::as_ref)]. *)
Definition lease_at (s : Broker) (i : nat) : option (Lease W) := leases s !! i ≫= id.
(** [core.leases[index]]. *)
Definition slot_at (i : nat) : BSec (option (Lease W)) :=
  do s <- get; match leases s !! i with Some o => ret o | None => panics end.
(** [core.leases[index].as_mut().expect(..)]. *)
Definition expect_lease (i : nat) : BSec (Lease W) :=
  do o <- slot_at i; match o with Some l => ret l | None => panics end.

Definition put_lease (i : nat) (l : Lease W) (s : Broker) : Broker :=
  set_leases (<[i := Some l]> (leases s)) s.
Definition vacate (i : nat) (s : Broker) : Broker := set_leases (<[i := None]> (leases s)) s.

Fixpoint find_index {A} (p : A -> bool) (l : list A) : option nat :=
  match l with
  | [] => None
  | a :: l => if p a then Some O else S <$> find_index p l
  end.
Definition any_lease (p : Lease W -> bool) (o : option (Lease W)) : bool :=
  match o with Some l => p l | None => false end.

(** The lease that has the token, or [token_failure]. *)
Definition lease_of_token (stage : ErrorStage) (token : bytes) : BSec nat :=
  do s <- get;
  match find_index (any_lease (fun l => is_Some_b (references l !! token))) (leases s) with
  | Some i => ret i
  | None => throw (Fails (if is_Some_b (stale_tokens s !! token) then fail stage Stale
                          else selection stage))
  end.

(** *** Ledgers *)

Definition ledger_at {E} (i : nat) : Sec Broker E (OperationState Cancellation) :=
  do s <- get; match ledgers s !! i with Some o => ret o | None => panics end.
Definition put_ledger (i : nat) (o : OperationState Cancellation) (s : Broker) : Broker :=
  set_ledgers (<[i := o]> (ledgers s)) s.

Definition enter_operation (i : nat) (c : Cancellation) (stage : ErrorStage) : BSec Guard :=
  do o <- ledger_at i;
  match enter c o with
  | (Ok id, o') => run modify (put_ledger i o'); ret (i, id)
  | (Err reason, _) => fails stage reason
  end.
Definition leave_operation {E} (g : Guard) : Sec Broker E unit :=
  do o <- ledger_at (fst g);
  match leave (snd g) o with
  | Some o' => modify (put_ledger (fst g) o')
  | None => panics
  end.
(** A section that enters an operation, and leaves it where it fails. *)
Definition entering {A} (i : nat) (c : Cancellation) (stage : ErrorStage) (k : Guard -> BSec A)
    : BSec A :=
  do g <- enter_operation i c stage;
  fun s => match k g s with
           | (Ok a, s') => (Ok a, s')
           | (Err e, s') => (run leave_operation g; throw e) s'
           end.

(** ** Programs *)

Definition guarded {E A} (g : Guard) (m : Prog Broker Leaf E A) : Prog Broker Leaf E A :=
  finally m (leave_operation g).
Definition p_fail {A} (stage : ErrorStage) (reason : CloseReason) : BProg A :=
  p_throw (fail stage reason).
Definition p_map_err {E F A} (f : E -> F) (m : Prog Broker Leaf E A) : Prog Broker Leaf F A :=
  fun c => m (fun r => c (res_map_err f r)).

(** *** The clean-up of a lease *)

Definition books_spend (r : CleanupReceipt) (b : Books) : Books :=
  mkBooks (begun b) (consumed b) (launched b) (spent b ++ [r]) (reserved b) (minted b) (owners b).
(** [cleanup.cleanup(Cancellation::new(), deadline)]. *)
Definition run_cleanup {E} (receipt : CleanupReceipt) (deadline : AbsoluteDeadline)
    : Sec Broker E (TRes unit) := fun s =>
  let '(c, x) := io_cancellation (bio s) in
  let '(r, x) := io_cleanup receipt c deadline x in
  (Ok r, set_books (books_spend receipt (books s)) (set_bio x s)).

(** What the reaper takes from the lease. *)
Record Taken := mkTaken {
  tk_raw : option RawDuplex;
  tk_crypto : option LeaseCore;
  tk_cleanup : option CleanupReceipt;
  tk_cleanup_failed : bool;
  tk_terminal_failed : bool;
  tk_reason : CloseReason;
  tk_handoff : HandoffState;
  tk_stale_tokens : list (bytes * Z)
}.

Definition reap_take (i : nat) (k : PrepareKey) : Sec Broker CloseReason Taken :=
  do s <- get;
  let terminal_failed := match failed s !! key_selection k with
    | Some (digest, reason) =>
        bool_decide (digest = pk_digest k) && bool_decide (reason = CleanupFailed)
    | None => false
    end in
  match lease_at s i with
  | None => throw (Fails Stale)
  | Some l =>
      if negb (bool_decide (key l = k) && bool_decide (state l = LeaseClosing))
      then throw (Fails Stale)
      else run modify (put_lease i (take_terminal l));
           ret (mkTaken (control l) (lease_crypto l) (cleanup l) (terminal_cleanup_failed l)
                  terminal_failed (default Stale (terminal_reason l)) (terminal_handoff l)
                  ((fun p => (fst p, expires (snd p))) <$> map_to_list (references l)))
  end.

Definition mark_failed (k : PrepareKey) (s : Broker) : Broker :=
  set_failed (<[key_selection k := (pk_digest k, CleanupFailed)]> (failed s)) s.

Definition reap_publish (i : nat) (k : PrepareKey) (tokens : list (bytes * Z))
    (r : result CloseReason unit) : Sec Broker CloseReason unit :=
  modify (fun s =>
    let s := set_stale_tokens (foldl (fun m p => <[fst p := snd p]> m) (stale_tokens s) tokens) s in
    let s := if is_ok r then s else mark_failed k s in
    match lease_at s i with
    | Some l => if bool_decide (key l = k) && bool_decide (state l = LeaseClosing)
                then vacate i s else s
    | None => s
    end).

Definition finish_operations (i : nat) (r : result CloseReason unit) : Sec Broker CloseReason unit :=
  do o <- ledger_at i; modify (put_ledger i (finish_close r o)).

(** [cleanup_absolute_deadline().map_err(|_| CleanupFailed)]. *)
Definition cleanup_limit : Sec Broker CloseReason AbsoluteDeadline :=
  map_fails (fun _ => CleanupFailed) cleanup_absolute_deadline.

Definition reap_terminal_lease (i : nat) (k : PrepareKey) : Prog Broker Leaf CloseReason unit :=
  (do t <- atomically (reap_take i k);
   run match tk_raw t, tk_crypto t with
       | Some raw, Some crypto =>
           do d <- atomically cleanup_limit;
           atomically (on_bio (fun x =>
             let '(_, (_, x)) := close_lease raw (tk_reason t) (tk_handoff t) d (crypto, x) in (tt, x)))
       | _, _ => p_ret tt
       end;
   do cleanup_result <-
     (if tk_cleanup_failed t then p_ret (Err CleanupFailed)
      else match tk_cleanup t with
           | Some receipt =>
               do d <- atomically cleanup_limit;
               do r <- atomically (run_cleanup receipt d);
               p_ret (res_map_err (fun _ => CleanupFailed) r)
           | None => p_ret (Ok tt)
           end);
   let result := if tk_terminal_failed t then Err CleanupFailed else cleanup_result in
   run atomically (reap_publish i k (tk_stale_tokens t) result);
   run atomically (finish_operations i result);
   p_lift result)%prog.

(** *** The end of a lease *)

Definition stale_reference (tombstone : Z) (r : Reference) : Reference :=
  let r := set_ref_state RefStale r in
  if is_Some_b (ref_session_id r) then set_expires tombstone r else r.

(** Seals the lease and cancels what is entered; [None] where another owner closes it. *)
Definition seal (i : nat) (reason : CloseReason) (tombstone : Z)
    : BSec (option (PrepareKey * list RawDuplex)) :=
  do s <- get;
  match lease_at s i with
  | None => fails StClose Stale
  | Some l =>
      do o <- ledger_at i;
      match begin_close o with
      | (None, _) => ret None
      | (Some cs, o') =>
          run modify (put_ledger i o');
          let l := insert_terminal_reason reason (set_state LeaseClosing l) in
          let l := set_terminal (terminal_cleanup_failed l) (terminal_reason l) (overall_handoff l)
                     (lease_handoff l) l in
          let l := set_references (stale_reference tombstone <$> references l) l in
          run modify (put_lease i l);
          run on_world (fun w => (tt, foldl (fun w c => cancel c w) w cs));
          ret (Some (key l, (s_raw ∘ snd <$> map_to_list (sessions l)) ++ option_list (control l)))
      end
  end.

Definition drained (i : nat) (s : Broker) : bool :=
  match ledgers s !! i with Some o => active_operations o =? 0 | None => false end.
Definition closed_as (i : nat) (s : Broker) : option (result CloseReason unit) :=
  ledgers s !! i ≫= completed.

Definition wait_for_drain {E} (i : nat) : Prog Broker Leaf E unit :=
  await (fun s => if drained i s then Some (tt, s) else None).
Definition wait_for_drain_until {E} (i : nat) : Prog Broker Leaf E bool :=
  await_until (fun s => if drained i s then Some (true, s) else None)
    (fun s => (Ok (drained i s), s)).
Definition wait_for_close (i : nat) : Prog Broker Leaf CloseReason unit := fun c =>
  await (fun s => r ← closed_as i s; Some (r, s))
    (fun a => c (match a with Ok r => r | Err e => Err e end)).
Definition wait_for_close_until (i : nat) : Prog Broker Leaf CloseReason unit := fun c =>
  await_until (fun s => r ← closed_as i s; Some (r, s))
    (fun s => (Ok (default (Err CleanupFailed) (closed_as i s)), s))
    (fun a => c (match a with Ok r => r | Err e => Err e end)).

Definition terminalize_lease (i : nat) (reason : CloseReason) : BProg unit :=
  (do n <- atomically now;
   do tombstone <- p_lift (session_tombstone_expires n);
   do sealed <- atomically (seal i reason tombstone);
   match sealed with
   | None =>
       run atomically cleanup_deadline;
       p_map_err (fail Cleanup) (wait_for_close_until i)
   | Some (k, raws) =>
       run for_each raws (fun raw => atomically (cancel_raw raw));
       run atomically cleanup_deadline;
       do over <- wait_for_drain_until i;
       if (over : bool) then p_map_err (fail Cleanup) (reap_terminal_lease i k)
       else
         run atomically (modify (mark_failed k));
         run spawn ((run wait_for_drain i; reap_terminal_lease i k) (fun _ => Halt (Some Worker)));
         p_fail Cleanup CleanupFailed
   end)%prog.
End Operations.
Arguments Broker {_} W {_ _} : rename.
