(* ===== verification/Handlers.v ===== *)
(** The requests of the broker as programs ([SessionBroker::handle], [maintain] and
    [shutdown] of [host-runtime/src/broker.rs]). *)

From S2P Require Import Prelude Errors Crates Outer Records Payloads Reassembly NoiseIO Lease Bootstrap Session Control Adapter RawTransport Threads Broker BrokerOps.

Section Handlers.
Context `{Minicbor} `{Snow} `{Sha2} `{Base64} `{PlatformHost W}.
Context (ios android : PlatformTargetAdapter).

Local Abbreviation BSec := (BSec (W:=W)).
Local Abbreviation BProg := (BProg (W:=W)).

(** A call of the raw transport with a reader and a core. *)
Definition conn_call {E C A} (rd : RawFrameReader) (c : C) (m : M (Conn W C) TransportFailure A)
    : Sec (Broker W) E (TRes A * RawFrameReader * C) := fun s =>
  let '(r, s') := m (mkConn rd c (bio s)) in
  (Ok (r, reader s', core_of s'), set_bio (io s') s).

(** ** Prune *)

Definition prune_lease (current : Z) (l : Lease W) : Lease W :=
  set_references (filter (fun p => retained current l (snd p) = true) (references l)) l.
Definition prune (current : Z) : BSec unit :=
  modify (fun s =>
    set_leases ((fun o : option (Lease W) => prune_lease current <$> o) <$> leases s)
      (set_stale_tokens (filter (fun p => current < snd p) (stale_tokens s)) s)).

(** ** Heartbeats *)

(** [ReadyProbe::enter_until]: it fails where the probe is still active at the deadline. *)
Definition probe_free (i : nat) (s : Broker W) : bool :=
  match probes s !! i with Some active => negb active | None => false end.
Definition set_probe {E} (i : nat) (active : bool) : Sec (Broker W) E unit :=
  modify (fun s => set_probes (<[i := active]> (probes s)) s).
Definition enter_probe (i : nat) : BProg unit :=
  await_until
    (fun s => if probe_free i s then Some (tt, set_probes (<[i := true]> (probes s)) s) else None)
    (do s <- get;
     if probe_free i s then set_probe i true else fails StPrepare Timeout).

(** What a heartbeat takes out of the lease. *)
Record Beat := mkBeat {
  hb_raw : RawDuplex;
  hb_reader : RawFrameReader;
  hb_crypto : LeaseCore;
  hb_counter : Z;
  hb_misses : Z;
  hb_deadline : AbsoluteDeadline;
  hb_operation : Guard
}.

(** The last instant of a lease. *)
Definition lease_limit (l : Lease W) : Z :=
  Z.min (saturating_add (created l) LEASE_ABSOLUTE_MS) MAX_SAFE.

Definition heartbeat_take (i : nat) (deadline_ms : Z) : BSec Beat :=
  do s <- get;
  match lease_at s i with
  | None => fails StClose Stale
  | Some l =>
      if negb (bool_decide (state l = LeaseReady)) then fails StClose Stale
      else
        do c <- new_cancellation;
        entering i c StClose (fun g =>
          do raw <- or_fail StClose Stale (control l);
          run modify (put_lease i (set_control_io (lease_crypto l) None l));
          do rd <- or_fail StClose Stale (control_reader l);
          run modify (put_lease i (set_control_io None None l));
          do crypto <- or_fail StClose Stale (lease_crypto l);
          do d <- of_res (abs (Z.min deadline_ms (lease_limit l)));
          ret (mkBeat raw rd crypto (heartbeat_counter l) (heartbeat_misses l) d g))
  end.

(** The request and its reply, or the reply that is still owed. *)
Definition beat (b : Beat) : M (Conn W LeaseCore) TransportFailure unit :=
  match heartbeat_attempt (hb_misses b) with
  | RequestAndReply => RawTransport.heartbeat (hb_raw b) (hb_counter b) (hb_deadline b)
  | ReplyOnly =>
      do received <- heartbeat_reply (hb_raw b) (hb_deadline b);
      lift (ensure (received =? hb_counter b) (TransportFailure_new SequenceViolation))
  end.

Definition conservative (a b : HandoffState) : HandoffState :=
  if bool_decide (a = HandoffPossibleOrConfirmed) || bool_decide (b = HandoffPossibleOrConfirmed)
  then HandoffPossibleOrConfirmed else NotHandedOff.

(** [core.leases.get_mut(index).and_then(Option::as_mut).ok_or(..)]. *)
Definition live_lease (stage : ErrorStage) (i : nat) : BSec (Lease W) :=
  do s <- get; or_fail stage Stale (lease_at s i).
Definition ready_lease (stage : ErrorStage) (i : nat) : BSec (Lease W) :=
  do l <- live_lease stage i;
  if bool_decide (state l = LeaseReady) then ret l else fails stage Stale.

(** A failure other than a timeout: the lease gets its core back. *)
Definition heartbeat_failed (i : nat) (crypto : LeaseCore) (rd : RawFrameReader)
    (error : TransportFailure) : BSec unit :=
  do l <- live_lease StClose i;
  if bool_decide (state l = LeaseReady)
  then modify (put_lease i (set_lease_handoff (conservative (lease_handoff l) (tf_handoff error))
                              (set_control_io (Some crypto) (Some rd) l)))
  else ret tt.

(** The lease gets its core back, and the reply is booked. *)
Definition heartbeat_replied (i : nat) (b : Beat) (crypto : LeaseCore) (rd : RawFrameReader)
    : BSec (option CloseReason) :=
  do l <- ready_lease StClose i;
  let l := set_control_io (Some crypto) (Some rd) l in
  run modify (put_lease i l);
  do completed <- now;
  match terminal_reason_at completed l with
  | Some reason => ret (Some reason)
  | None =>
      run modify (put_lease i (set_heartbeat completed completed (heartbeat_counter l) 0 l));
      do next <- or_fail StClose InternalError (checked_add (hb_counter b) 1);
      run modify (put_lease i (set_heartbeat completed completed next 0 l));
      ret None
  end.

(** A reply that did not come: whether it is the last that may be missed. *)
Definition heartbeat_missed (i : nat) (deadline_ms : Z) (crypto : LeaseCore) (rd : RawFrameReader)
    : BSec bool :=
  do l <- ready_lease StClose i;
  let misses := Z.min (heartbeat_misses l + 1) 255 in
  run modify (put_lease i
        (set_heartbeat (saturating_sub deadline_ms HEARTBEAT_INTERVAL_MS)
           (last_heartbeat_success l) (heartbeat_counter l) misses
           (set_control_io (Some crypto) (Some rd) l)));
  ret (heartbeat_lost misses).

(** What is left to do when the operation of a heartbeat is over. *)
Inductive BeatEnd : Type := BeatOk (replied : bool) | BeatTerminal (reason : CloseReason) (f : ControlFailure).

Definition heartbeat (i : nat) (deadline_ms : Z) : BProg bool :=
  (run atomically (run ready_lease StClose i; ret tt);
   run enter_probe i;
   finally
     (do b <- atomically (heartbeat_take i deadline_ms);
      do over <- guarded (hb_operation b)
        (do ' (r, rd, crypto) <- atomically (conn_call (hb_reader b) (hb_crypto b) (beat b));
         match r with
         | Ok _ =>
             do terminal <- atomically (heartbeat_replied i b crypto rd);
             p_ret match terminal with
                   | Some reason => BeatTerminal reason (fail StClose reason)
                   | None => BeatOk true
                   end
         | Err error =>
             if bool_decide (tf_close_reason error = Timeout) then
               do lost <- atomically (heartbeat_missed i deadline_ms crypto rd);
               p_ret (if (lost : bool) then BeatTerminal BrokerLost (fail StClose BrokerLost)
                      else BeatOk false)
             else
               run atomically (heartbeat_failed i crypto rd error);
               p_ret (BeatTerminal (tf_close_reason error) (transport_fail StClose error))
         end);
      match over with
      | BeatOk replied => p_ret replied
      | BeatTerminal reason f =>
          do _ <- attempt (terminalize_lease i reason);
          p_throw f
      end)
     (set_probe i false))%prog.

(** ** Prepare *)

Record Reservation := mkReservation {
  r_index : nat;
  r_key : PrepareKey;
  r_body : PrepareBody;
  r_token : bytes;
  r_digest : bytes;
  r_lease_id : bytes;
  r_nonce : bytes;
  r_private : bytes;
  r_public : bytes;
  r_pbs : bytes;
  r_deadline : Z;
  r_launch_deadline : Z;
  r_adapter : PlatformTargetAdapter;
  r_cancel : Cancellation;
  r_operation : Guard
}.

Record CompletionReservation := mkCompletion {
  c_index : nat;
  c_key : PrepareKey;
  c_token : bytes;
  c_digest : bytes;
  c_lease_id : bytes;
  c_deadline : Z
}.

Inductive PrepareRoute : Type :=
| RouteTerminal (i : nat) (reason : CloseReason)
| RouteReuse (i : nat)
| RouteLaunch (r : Reservation).

Definition new_reference (st : RefState) (issued expires : Z) : Reference :=
  mkReference st issued expires None None.

Definition preparing_lease (k : PrepareKey) (id token : bytes) (started deadline : Z) : Lease W :=
  {| key := k; state := LeasePreparing; lease_id := id; generation := 0; epoch := 0;
     nk_hash := repeat (b8 0) 32; pbs := None; control := None; lease_crypto := None;
     control_reader := None; connector := None; cleanup := None;
     references := {[ token := new_reference RefPending 0 deadline ]}; sessions := ∅;
     next_session := 1; created := started; last_heartbeat_attempt := started;
     last_heartbeat_success := started; heartbeat_counter := 1; heartbeat_misses := 0;
     last_client_activity := started; terminal_cleanup_failed := false; terminal_reason := None;
     terminal_handoff := NotHandedOff; lease_handoff := NotHandedOff |}.

Definition push_lease (l : Lease W) (s : Broker W) : Broker W :=
  set_probes (probes s ++ [false])
    (set_ledgers (ledgers s ++ [LeaseOperations_new]) (set_leases (leases s ++ [Some l]) s)).

Definition books_mint (token : bytes) (b : Books) : Books :=
  mkBooks (begun b) (consumed b) (launched b) (spent b) (reserved b) (minted b ++ [token])
    (owners b).

Definition of_core {A} (r : Res A) : BSec A :=
  of_res (res_map_err (fun e => fail StBootstrap (reason e)) r).

Definition new_lease (b : PrepareBody) (started deadline ldeadline : Z) (c : Cancellation)
    : BSec Reservation :=
  do token <- random 32;
  do id <- random 16;
  do nonce <- random 32;
  let digest := sha256 (reference_display token) in
  do kp <- on_world generate_keypair;
  do ' (private, public) <- of_core kp;
  do p <- on_world generate_pbs;
  do pbs <- of_core p;
  let adapter := match platform b with IosSimulator => ios | AndroidEmulator => android end in
  do s <- get;
  let i := length (leases s) in
  run modify (fun s => set_books (books_mint token (books s))
    (push_lease (preparing_lease (PrepareKey_new b) id token started deadline) s));
  do g <- enter_operation i c StPrepare;
  ret (mkReservation i (PrepareKey_new b) b token digest id nonce private public pbs deadline
         ldeadline adapter c g).

(** The decision of [prepare] under one hold of the lock. *)
Definition prepare_route (b : PrepareBody) (started deadline ldeadline : Z) (c : Cancellation)
    : BSec PrepareRoute :=
  let k := PrepareKey_new b in
  do s <- get;
  if existsb (any_lease (fun l => bool_decide (key_selection (key l) = key_selection k)
                                  && negb (bool_decide (pk_digest (key l) = pk_digest k)))) (leases s)
  then fails StPrepare BindingMismatch
  else match failed s !! key_selection k with
  | Some (digest, reason) =>
      fails Cleanup (if bool_decide (digest = pk_digest k) then reason else BindingMismatch)
  | None =>
  if shutting_down s then fails Ipc BrokerLost
  else
  let same := fun l : Lease W => bool_decide (key l = k) in
  match find_index (any_lease (fun l => same l && bool_decide (state l = LeaseReady))) (leases s) with
  | Some i =>
      do o <- slot_at i;
      match o ≫= terminal_reason_at started with
      | Some reason =>
          do l <- expect_lease i;
          let l := set_references (set_ref_state RefStale <$> references l)
                     (set_terminal (terminal_cleanup_failed l) (Some reason) (terminal_handoff l)
                        (lease_handoff l) (set_state LeaseClosing l)) in
          run modify (put_lease i l);
          ret (RouteTerminal i reason)
      | None => ret (RouteReuse i)
      end
  | None =>
      if existsb (any_lease (fun l => same l && bool_decide (state l = LeasePreparing))) (leases s)
      then fails StPrepare BindingMismatch
      else
        match head (omap (fun o => o ≫= fun l =>
                if same l && negb (bool_decide (state l = LeaseReady))
                then Some (default Stale (terminal_reason l)) else None) (leases s)) with
        | Some reason => fails StPrepare reason
        | None => do r <- new_lease b started deadline ldeadline c; ret (RouteLaunch r)
        end
  end
  end.

Definition reference_expiry (n : Z) : CRes Z :=
  res_of_option (fail StPrepare InternalError)
    (checked_add n READY_REFERENCE_TTL_MS ≫= fun v => if v <=? MAX_SAFE then Some v else None).

Definition mint (i : nat) (n : Z) : BSec ControlSuccess :=
  do token <- random 32;
  do expires <- of_res (reference_expiry n);
  do o <- slot_at i;
  do l <- or_fail StPrepare Stale o;
  run modify (fun s => set_books (books_mint token (books s))
    (put_lease i (set_references
       (<[token := new_reference RefMinted n expires]> (references l)) l) s));
  ret (TargetReady (mkReady token (generation l) (epoch l) n expires)).

(** A ready lease that answered: a new reference, or its end. *)
Definition reuse (i : nat) (k : PrepareKey) (current : Z)
    : BSec (CloseReason + ControlSuccess) :=
  do s <- get;
  match lease_at s i with
  | None => fails StPrepare Stale
  | Some l =>
      if negb (bool_decide (key l = k)) then fails StPrepare Stale
      else if negb (bool_decide (state l = LeaseReady)) then fails StPrepare Stale
      else match terminal_reason_at current l with
           | Some reason => ret (inl reason)
           | None => do r <- mint i current; ret (inr r)
           end
  end.

(** *** Rejections *)

Definition reject_with_cleanup (c : CompletionReservation) (reason : CloseReason)
    (cleanup_failed : bool) : BProg ControlSuccess :=
  (run atomically
     (run modify (fun s =>
        match lease_at s (c_index c) with
        | Some l =>
            let l := if bool_decide (state l = LeaseClosing) then l else set_state LeaseStale l in
            let l := insert_terminal_reason reason l in
            put_lease (c_index c) (set_references (delete (c_token c) (references l)) l) s
        | None => s
        end);
      if cleanup_failed then modify (mark_failed (c_key c)) else ret tt);
   p_fail (if bool_decide (reason = CleanupFailed) then Cleanup else StBootstrap) reason)%prog.

Definition reject (c : CompletionReservation) (reason : CloseReason) : BProg ControlSuccess :=
  reject_with_cleanup c reason (bool_decide (reason = CleanupFailed)).

(** The failure of a rejection with the hand-off state of the error; that a rejection
    succeeds is [unreachable!]. *)
Definition with_error_handoff (error : TransportFailure) (m : BProg ControlSuccess)
    : BProg ControlSuccess :=
  (do r <- attempt m;
   match r with
   | Err f => p_throw (with_failure_handoff (tf_handoff error) f)
   | Ok _ => p_panic
   end)%prog.

Definition reject_transport (c : CompletionReservation) (error : TransportFailure)
    : BProg ControlSuccess :=
  with_error_handoff error
    (reject_with_cleanup c (tf_close_reason error) (tf_cleanup_failed error)).

Definition discard_prepared (c : CompletionReservation) (p : Prepared) (reason : CloseReason)
    : BProg ControlSuccess :=
  guarded (operation p)
    (run atomically (cancel_raw (bs_bootstrap (success p)));
     do d <- atomically cleanup_absolute_deadline;
     do r <- atomically (run_cleanup (bs_cleanup (success p)) d);
     run (if is_ok r then p_ret tt
          else atomically (modify (fun s =>
            match lease_at s (c_index c) with
            | Some l => put_lease (c_index c)
                (set_terminal true (terminal_reason l) (terminal_handoff l) (lease_handoff l) l) s
            | None => s
            end)));
     reject_with_cleanup c reason (negb (is_ok r)))%prog.

Definition discard_prepared_transport (c : CompletionReservation) (p : Prepared)
    (error : TransportFailure) : BProg ControlSuccess :=
  with_error_handoff error (discard_prepared c p (tf_close_reason error)).

(** *** Commit *)

Definition binding_matches (c : CompletionReservation) (p : Prepared) : bool :=
  let ack := bs_ack (success p) in
  bool_decide (ack_lease_id ack = c_lease_id c)
  && bool_decide (ack_target_reference_digest ack = c_digest c)
  && (ack_listener_epoch ack =? 1).

(** The lease takes over what the bootstrap gave; [None] where it no longer waits for it. *)
Definition commit_lease (c : CompletionReservation) (p : Prepared) (rd : RawFrameReader)
    (core : LeaseCore) (completed expires : Z) : BSec (option ControlSuccess) :=
  do s <- get;
  match lease_at s (c_index c) with
  | None => ret None
  | Some l =>
      if negb (bool_decide (key l = c_key c) && bool_decide (state l = LeasePreparing)) then ret None
      else match references l !! c_token c with
      | None => ret None
      | Some r =>
          if negb (bool_decide (ref_state r = RefPending)) then ret None
          else
            let ack := bs_ack (success p) in
            let r := mkReference RefMinted completed expires (session_slot r) (ref_session_id r) in
            run modify (put_lease (c_index c)
              {| key := key l; state := LeaseReady; lease_id := lease_id l;
                 generation := ack_process_generation ack; epoch := ack_listener_epoch ack;
                 nk_hash := ack_nk_handshake_hash ack; pbs := Some (prepared_pbs p);
                 control := Some (bs_bootstrap (success p)); lease_crypto := Some core;
                 control_reader := Some rd; connector := Some (bs_connector (success p));
                 cleanup := Some (bs_cleanup (success p));
                 references := <[c_token c := r]> (references l); sessions := sessions l;
                 next_session := next_session l; created := completed;
                 last_heartbeat_attempt := completed; last_heartbeat_success := completed;
                 heartbeat_counter := 2; heartbeat_misses := heartbeat_misses l;
                 last_client_activity := last_client_activity l;
                 terminal_cleanup_failed := terminal_cleanup_failed l;
                 terminal_reason := terminal_reason l; terminal_handoff := terminal_handoff l;
                 lease_handoff := lease_handoff l |});
            run leave_operation (operation p);
            ret (Some (TargetReady (mkReady (c_token c) (ack_process_generation ack)
                   (ack_listener_epoch ack) completed expires)))
      end
  end.

(** A call whose failure drops what holds the guard. *)
Definition dropping {A} (g : Guard) (m : BProg A) : BProg A := fun c =>
  m (fun r => match r with
              | Ok a => c (Ok a)
              | Err f => atomically (E:=ControlFailure) (leave_operation g) (fun _ => c (Err f))
              end).

(** What becomes of a prepared launch: its operation is left when the lease takes over, when it
    is discarded, and where the clock fails. *)
Definition commit (c : CompletionReservation) (p : Prepared) : BProg ControlSuccess :=
  (let g := operation p in
   do completed <- dropping g (atomically now);
   match commit_rejection_reason completed (c_deadline c) (binding_matches c p) with
   | Some reason => discard_prepared c p reason
   | None =>
       do d <- dropping g (p_lift (abs (c_deadline c)));
       do ' (r, rd, core) <- atomically (conn_call (bs_reader (success p)) (bs_lease (success p))
                               (RawTransport.heartbeat (bs_bootstrap (success p)) 1 d));
       match r with
       | Err error => discard_prepared_transport c p error
       | Ok _ =>
           do completed <- dropping g (atomically now);
           match commit_rejection_reason completed (c_deadline c) true with
           | Some reason => discard_prepared c p reason
           | None =>
               do expires <- dropping g (p_lift (reference_expiry completed));
               do ready <- atomically (commit_lease c p rd core completed expires);
               match ready with
               | Some reply => p_ret reply
               | None => discard_prepared c p Stale
               end
           end
       end
   end)%prog.

(** *** The launch *)

Definition books_begin (p : PendingLaunch) (b : Books) : Books :=
  mkBooks (begun b ++ [p]) (consumed b) (launched b) (spent b) (reserved b) (minted b) (owners b).
Definition books_consume (p : PendingLaunch) (r : list CleanupReceipt) (b : Books) : Books :=
  mkBooks (begun b) (consumed b ++ [p]) (launched b ++ r) (spent b) (reserved b) (minted b)
    (owners b).

Definition begin (adapter : PlatformTargetAdapter) (selection : TargetSelection)
    (d : AbsoluteDeadline) : BSec PendingLaunch :=
  do p <- on_world (begin_launch adapter selection d);
  run modify (fun s => set_books (books_begin p (books s)) s);
  ret p.
Definition abort (p : PendingLaunch) (d : AbsoluteDeadline) : BSec (PRes unit) :=
  do c <- new_cancellation;
  do r <- on_world (pending_abort p c d);
  run modify (fun s => set_books (books_consume p [] (books s)) s);
  ret r.
Definition launch (p : PendingLaunch) (descriptor : bytes) (c : Cancellation)
    (d : AbsoluteDeadline) : BSec (PRes LaunchedTargetIo) :=
  do r <- on_world (pending_launch p descriptor c d);
  run modify (fun s => set_books
    (books_consume p match r with Ok t => [lt_cleanup t] | Err _ => [] end (books s)) s);
  ret r.

(** [raw_transport::bootstrap], which takes the receipt and gives it back where it succeeds. *)
Definition run_bootstrap (t : LaunchedTargetIo) (private pbs : bytes) (binding : BootstrapBinding)
    (d : AbsoluteDeadline) : BSec (TRes BootstrapSuccess) := fun s =>
  let '(entropy, w) := draw_entropy (world (bio s)) in
  let '(r, x) := RawTransport.bootstrap (lt_bootstrap t) (lt_connector t) (lt_cleanup t) private
                   pbs entropy binding d (mkIo w (log (bio s))) in
  let s := set_bio x s in
  (Ok r, if is_ok r then s else set_books (books_spend (lt_cleanup t) (books s)) s).

(** *** Owned operations, as their users see them *)

Definition books_own (i : nat) (b : Books) : Books :=
  mkBooks (begun b) (consumed b) (launched b) (spent b) (reserved b) (minted b) (owners b ++ [i]).
Definition new_cell (i : nat) : BSec nat := fun s =>
  (Ok (length (cells s)),
   set_books (books_own i (books s)) (set_cells (cells s ++ [CellProducing]) s)).
Definition set_cell (n : nat) (v : OpCell) (s : Broker W) : Broker W :=
  set_cells (<[n := v]> (cells s)) s.

(** [publish]: the value, where it is left to the reaper. *)
Definition publish (n : nat) (v : result TransportFailure Prepared)
    : BSec (option (result TransportFailure Prepared)) :=
  do s <- get;
  match cells s !! n with
  | Some CellProducing => run modify (set_cell n (CellReady v)); ret None
  | Some CellAbandoned => run modify (set_cell n CellTaken); ret (Some v)
  | _ => panics
  end.
(** [wait_until]: the value, or nothing from an operation that is abandoned. *)
Definition cell_ready (n : nat) (s : Broker W)
    : option (option (result TransportFailure Prepared) * Broker W) :=
  match cells s !! n with
  | Some (CellReady v) => Some (Some v, set_cell n CellTaken s)
  | _ => None
  end.
Definition wait_cell (n : nat) : BProg (option (result TransportFailure Prepared)) :=
  await_until (cell_ready n) (fun s =>
    match cell_ready n s with
    | Some (v, s) => (Ok v, s)
    | None => (Ok None, set_cell n CellAbandoned s)
    end).

(** The reaper of an abandoned launch. *)
Definition reap_slot (c : CompletionReservation) (cleanup_failed : bool) : BSec unit :=
  modify (fun s =>
    let s := match lease_at s (c_index c) with
      | Some l =>
          if bool_decide (state l = LeaseStale) then vacate (c_index c) s
          else put_lease (c_index c) (set_references (set_ref_state RefStale <$> references l) l) s
      | None => s
      end in
    if cleanup_failed then mark_failed (c_key c) s else s).

Definition reap_late (c : CompletionReservation) (v : result TransportFailure Prepared)
    : BProg unit :=
  (do cleanup_failed <-
     match v with
     | Ok p =>
         guarded (operation p)
           (run atomically (cancel_raw (bs_bootstrap (success p)));
            do d <- attempt (atomically cleanup_absolute_deadline);
            match d with
            | Err _ => p_ret true
            | Ok d =>
                do r <- atomically (run_cleanup (bs_cleanup (success p)) d);
                p_ret (negb (is_ok r))
            end)
     | Err e => p_ret (tf_cleanup_failed e)
     end;
   run atomically (reap_slot c cleanup_failed);
   atomically (modify (add_reapers (-1))))%prog.

(** The thread of a launch: its result, published. *)
Definition launch_worker (n : nat) (c : CompletionReservation) (r : Reservation)
    (p : PendingLaunch) (descriptor : bytes) (binding : BootstrapBinding) (d : AbsoluteDeadline)
    : BProg unit :=
  (let failed (e : TransportFailure) : BProg (result TransportFailure Prepared) :=
     guarded (r_operation r) (p_ret (Err e)) in
   do launched <- atomically (launch p descriptor (r_cancel r) d);
   do v <- match launched with
     | Err failure => failed (platform_launch_failure failure)
     | Ok t =>
         do limit <- attempt (do connected <- atomically now;
                              do v <- p_lift (bootstrap_deadline connected (r_deadline r));
                              p_lift (abs v));
         match limit with
         | Err f => failed (TransportFailure_new (f_close_reason f))
         | Ok limit =>
             do b <- atomically (run_bootstrap t (r_private r) (r_pbs r) binding limit);
             match b with
             | Err e => failed e
             | Ok success => p_ret (Ok (mkPrepared success (r_pbs r) (r_operation r)))
             end
         end
     end;
   do left <- atomically (publish n v);
   match left with
   | Some v => reap_late c v
   | None => p_ret tt
   end)%prog.

Definition completion_of (r : Reservation) : CompletionReservation :=
  mkCompletion (r_index r) (r_key r) (r_token r) (r_digest r) (r_lease_id r) (r_deadline r).

(** A launch whose descriptor cannot be made. *)
Definition abort_launch (c : CompletionReservation) (p : PendingLaunch) (reason : CloseReason)
    : BProg ControlSuccess :=
  (do d <- atomically cleanup_absolute_deadline;
   do aborted <- atomically (abort p d);
   reject c (if is_ok aborted then reason else CleanupFailed))%prog.

(** Up to the point where the operation is the worker's. *)
Definition begin_reserved (r : Reservation) : BProg PendingLaunch :=
  (do d <- p_lift (abs (r_launch_deadline r));
   let b := r_body r in
   do selection <- p_lift (res_map_err (fun _ => fail StPrepare BindingMismatch)
     (TargetSelection_new (platform b) (device_selector b) (app_id b) (app_artifact b)
        (app_artifact_sha256 b)));
   atomically (begin (r_adapter r) selection d))%prog.

Definition launch_descriptor (r : Reservation) (p : PendingLaunch) : TRes bytes :=
  let? descriptor := encode_launch_descriptor (platform (r_body r)) (endpoint_of p) (r_lease_id r)
    (r_nonce r) (app_artifact_sha256 (r_body r)) (r_public r) (r_deadline r) (r_digest r) in
  res_map_err (fun _ => TransportFailure_new InternalError) (from_d2_canonical_bytes descriptor).

Definition launch_reserved (r : Reservation) : BProg ControlSuccess :=
  (let c := completion_of r in
   do begun <- attempt (begin_reserved r);
   match begun with
   | Err f => guarded (r_operation r) (p_throw f)
   | Ok p =>
       match launch_descriptor r p with
       | Err error => guarded (r_operation r) (abort_launch c p (tf_close_reason error))
       | Ok descriptor =>
           let binding := mkBootstrapBinding (r_digest r) (r_lease_id r) (r_nonce r)
             (app_artifact_sha256 (r_body r)) (r_deadline r) in
           do n <- atomically (new_cell (r_index r));
           match abs (r_launch_deadline r) with
           | Err f => guarded (r_operation r) (p_throw f)
           | Ok d =>
               run spawn (launch_worker n c r p descriptor binding d (fun _ => Halt (Some Worker)));
               run atomically (modify (add_reapers 1));
               do v <- wait_cell n;
               run (if is_Some_b v then atomically (modify (add_reapers (-1))) else p_ret tt);
               match v with
               | Some (Ok p) => commit c p
               | Some (Err error) => reject_transport c error
               | None =>
                   run atomically (on_world (fun w => (tt, cancel (r_cancel r) w)));
                   reject c Timeout
               end
           end
       end
   end)%prog.

Definition prepare (request : Request PrepareBody) : BProg ControlSuccess :=
  (let b := body request in
   do started <- atomically now;
   do c <- atomically new_cancellation;
   do deadline <- p_lift (prepare_deadline started (deadline_unix_ms request) (platform b));
   do ldeadline <- p_lift (launch_deadline started deadline (platform b));
   do route <- atomically (prepare_route b started deadline ldeadline c);
   match route with
   | RouteTerminal i reason =>
       run terminalize_lease i reason;
       p_fail StPrepare reason
   | RouteReuse i =>
       do replied <- heartbeat i deadline;
       if negb replied then p_fail StPrepare Timeout
       else
         do current <- atomically now;
         if deadline <=? current then p_fail StPrepare Timeout
         else
           do reply <- atomically (reuse i (PrepareKey_new b) current);
           match reply with
           | inr reply => p_ret reply
           | inl reason => run terminalize_lease i reason; p_fail StPrepare reason
           end
   | RouteLaunch r => launch_reserved r
   end)%prog.

(** ** Sessions *)

(** The lease a request names, ready and in time; or why it has to end. *)
Definition lease_for (stage : ErrorStage) (token : bytes) (current : Z)
    : BSec (CloseReason * nat + nat * Lease W) :=
  do i <- lease_of_token stage token;
  do o <- slot_at i;
  match o ≫= terminal_reason_at current with
  | Some reason => ret (inl (reason, i))
  | None =>
      do l <- expect_lease i;
      if bool_decide (state l = LeaseReady) then ret (inr (i, l)) else fails stage Stale
  end.

(** [drop(core); let _ = self.terminalize_lease(..); return Err(fail(stage, reason))]. *)
Definition end_lease {A} (i : nat) (stage : ErrorStage) (reason : CloseReason) : BProg A :=
  (do _ <- attempt (terminalize_lease i reason);
   p_fail stage reason)%prog.

(** The session a request names, bound to its id. *)
Definition bind_session (i : nat) (l : Lease W) (token id : bytes) (slot : Z)
    : BSec (Lease W * Session W) :=
  match sessions l !! slot with
  | None => panics
  | Some session =>
      do l <- (if is_Some_b (s_id session) then ret l
               else match references l !! token with
                    | Some r => ret (set_references (<[token := bind_session_id id r]> (references l)) l)
                    | None => panics
                    end);
      let session := bind_id id session in
      let l := set_sessions (<[slot := session]> (sessions l)) l in
      run modify (put_lease i l);
      ret (l, session)
  end.

Definition deadline_for (deadline : Z) (l : Lease W) : BSec AbsoluteDeadline :=
  of_res (abs (Z.min deadline (lease_limit l))).

(** *** Open *)

Definition opened_reply (token : bytes) (l : Lease W) (response digest : bytes) (h : HandoffState)
    : ControlSuccess :=
  SOpened {| so_target_token := token; Control.response := response; response_sha256 := digest;
             so_process_generation := generation l; so_listener_epoch := epoch l; so_handoff := h |}.

(** A session that is open already is answered with what it was opened with. *)
Definition open_bound (token id : bytes) (current : Z) : BSec (CloseReason * nat + ControlSuccess) :=
  do r <- lease_for StSessionOpen token current;
  match r with
  | inl t => ret (inl t)
  | inr (i, l) =>
      do slot <- of_res (matched_session_slot l token id StSessionOpen false);
      do session <- or_fail StSessionOpen Stale
        (s ← sessions l !! slot;
         if bool_decide (s_id s = Some id) && is_Some_b (s_crypto s) then Some s else None);
      do n <- now;
      run modify (put_lease i (set_activity n l));
      ret (inr (opened_reply token l (s_response session) (s_response_digest session)
                  (session_handoff session)))
  end.

Record Opening := mkOpening {
  og_index : nat;
  og_slot : Z;
  og_connector : RawConnector;
  og_pbs : bytes;
  og_binding : SessionBinding;
  og_cancellation : Cancellation;
  og_deadline : AbsoluteDeadline;
  og_operation : Guard
}.

Definition books_reserve (k : nat * Z) (b : Books) : Books :=
  mkBooks (begun b) (consumed b) (launched b) (spent b) (reserved b ++ [k]) (minted b) (owners b).

(** The reference is redeemed for a slot. *)
Definition redeem (token : bytes) (deadline current : Z) : BSec (CloseReason * nat + Opening) :=
  do r <- lease_for StSessionOpen token current;
  match r with
  | inl t => ret (inl t)
  | inr (i, l) =>
      do r <- or_fail StSessionOpen Stale
        (r ← references l !! token;
         if bool_decide (ref_state r = RefMinted) && (current <? expires r) then Some r else None);
      do c <- new_cancellation;
      entering i c StSessionOpen (fun g =>
        let r := set_ref_state RefRedeeming r in
        let l := set_references (<[token := r]> (references l)) l in
        run modify (put_lease i l);
        let slot := next_session l in
        do next <- or_fail StSessionOpen InternalError (checked_add slot 1);
        let l := set_next_session next
                   (set_references (<[token := set_session_slot slot r]> (references l)) l) in
        run modify (fun s => set_books (books_reserve (i, slot) (books s)) (put_lease i l s));
        do connector <- or_fail SessionHandshake Stale (connector l);
        do pbs <- or_fail SessionHandshake Stale (pbs l);
        do d <- deadline_for deadline l;
        ret (inr (mkOpening i slot connector pbs
               {| sb_lease_id := lease_id l; sb_process_generation := generation l;
                  sb_listener_epoch := epoch l; sb_nk_handshake_hash := nk_hash l |} c d g)))
  end.

Definition set_token_state (i : nat) (l : Lease W) (token : bytes) (st : RefState) : BSec unit :=
  modify (put_lease i (set_references (alter (set_ref_state st) token (references l)) l)).

(** After the raw transport: the session is entered, unless the lease has ended or changed. *)
Definition open_commit (token : bytes) (o : Opening) (opened : TRes OpenedSession)
    : BSec (CloseReason + ControlSuccess) :=
  let i := og_index o in
  do completed <- now;
  do l <- slot_at i;
  match l ≫= terminal_reason_at completed with
  | Some reason =>
      run match opened with Ok s => cancel_raw (os_raw s) | Err _ => ret tt end;
      ret (inl reason)
  | None =>
      do l <- or_fail StSessionOpen Stale l;
      match opened with
      | Ok s =>
          let b := og_binding o in
          if negb (bool_decide (state l = LeaseReady) && bool_decide (lease_id l = sb_lease_id b)
                   && (generation l =? sb_process_generation b)
                   && (epoch l =? sb_listener_epoch b)
                   && bool_decide (nk_hash l = sb_nk_handshake_hash b))
          then run cancel_raw (os_raw s);
               run set_token_state i l token RefStale;
               fails StSessionOpen Stale
          else
            do r <- or_fail StSessionOpen Stale
              (r ← references l !! token;
               if bool_decide (ref_state r = RefRedeeming)
                  && bool_decide (session_slot r = Some (og_slot o)) then Some r else None);
            let l := set_references (<[token := set_ref_state RefConsumed r]> (references l)) l in
            run modify (put_lease i l);
            let digest := sha256 (os_response s) in
            do last <- now;
            let l := set_sessions (<[og_slot o :=
              {| s_id := None; s_raw := os_raw s; s_crypto := Some (os_session s);
                 s_reader := Some (os_reader s); s_response := os_response s;
                 s_response_digest := digest; session_handoff := os_handoff s;
                 s_last := last |}]> (sessions l)) l in
            run modify (put_lease i l);
            do n <- now;
            run modify (put_lease i (set_activity n l));
            ret (inr (opened_reply token l (os_response s) digest (os_handoff s)))
      | Err error =>
          run set_token_state i l token RefStale;
          throw (Fails (transport_fail StSessionOpen error))
      end
  end.

Definition open_raw (o : Opening) (payload : bytes) : BSec (TRes OpenedSession) := fun s =>
  let '(entropy, w) := draw_entropy (world (bio s)) in
  let '(r, x) := open_session (og_connector o) (og_cancellation o) (og_binding o) (og_pbs o)
                   entropy payload (og_deadline o) (mkIo w (log (bio s))) in
  (Ok r, set_bio x s).

Definition open (request : Request OpenSessionBody) : BProg ControlSuccess :=
  (let b := body request in
   let token := o_target_token b in
   do current <- atomically now;
   match o_session_id b with
   | Some id =>
       do r <- atomically (open_bound token id current);
       match r with
       | inr reply => p_ret reply
       | inl (reason, i) => end_lease i StSessionOpen reason
       end
   | None =>
       do payload <- p_lift (res_of_option (fail StSessionOpen Malformed) (session_open_request b));
       if negb (bool_decide (session_open_request_sha256 b = Some (sha256 payload)))
       then p_fail StSessionOpen BindingMismatch
       else
         do current <- atomically now;
         do r <- atomically (redeem token (deadline_unix_ms request) current);
         match r with
         | inl (reason, i) => end_lease i StSessionOpen reason
         | inr o =>
             do over <- guarded (og_operation o)
               (do opened <- atomically (open_raw o payload);
                atomically (open_commit token o opened));
             match over with
             | inr reply => p_ret reply
             | inl reason => end_lease (og_index o) StSessionOpen reason
             end
         end
   end)%prog.

(** *** Exchange *)

Record Exchanging := mkExchanging {
  xg_index : nat;
  xg_slot : Z;
  xg_raw : RawDuplex;
  xg_reader : RawFrameReader;
  xg_crypto : SessionCore;
  xg_deadline : AbsoluteDeadline;
  xg_operation : Guard
}.

Definition put_session (i : nat) (l : Lease W) (slot : Z) (x : Session W) : BSec unit :=
  modify (put_lease i (set_sessions (<[slot := x]> (sessions l)) l)).

Definition same_process (l : Lease W) (generation_ epoch_ : Z) : bool :=
  (generation l =? generation_) && (epoch l =? epoch_).

Definition exchange_take (b : ExchangeBody) (deadline current : Z)
    : BSec (CloseReason * nat + Exchanging) :=
  do r <- lease_for StExchange (x_target_token b) current;
  match r with
  | inl t => ret (inl t)
  | inr (i, l) =>
      if negb (same_process l (x_process_generation b) (x_listener_epoch b))
      then fails StExchange Stale
      else
        do slot <- of_res (matched_session_slot l (x_target_token b) (x_session_id b) StExchange true);
        do c <- new_cancellation;
        entering i c StExchange (fun g =>
          do ' (l, x) <- bind_session i l (x_target_token b) (x_session_id b) slot;
          run put_session i l slot (set_session_io (s_crypto x) None x);
          do rd <- or_fail StExchange Stale (s_reader x);
          run put_session i l slot (set_session_io None None x);
          do crypto <- or_fail StExchange Stale (s_crypto x);
          do d <- deadline_for deadline l;
          ret (inr (mkExchanging i slot (s_raw x) rd crypto d g)))
  end.

(** The tombstone of a session: its reference keeps the id for a while. *)
Definition bury_reference (id : bytes) (tombstone : Z) (r : Reference) : Reference :=
  set_expires tombstone (bind_session_id id r).

Definition exchange_commit (b : ExchangeBody) (x : Exchanging) (rd : RawFrameReader)
    (crypto : SessionCore) (result : TRes bytes) : BSec (CloseReason + ControlSuccess) :=
  let i := xg_index x in
  let token := x_target_token b in
  do o <- slot_at i;
  do l <- or_fail StExchange Stale o;
  do completed <- now;
  match terminal_reason_at completed l with
  | Some reason => run cancel_raw (xg_raw x); ret (inl reason)
  | None =>
      if negb (bool_decide (state l = LeaseReady)
               && same_process l (x_process_generation b) (x_listener_epoch b))
      then run cancel_raw (xg_raw x); fails StExchange Stale
      else
        do session <- or_fail StExchange Stale (sessions l !! xg_slot x);
        match result with
        | Ok message =>
            let session := set_session_used HandoffPossibleOrConfirmed (s_last session)
                             (set_session_io (Some crypto) (Some rd) session) in
            let l := set_lease_handoff HandoffPossibleOrConfirmed l in
            run put_session i l (xg_slot x) session;
            do last <- now;
            let session := set_session_used (session_handoff session) last session in
            let l := set_activity last l in
            run put_session i l (xg_slot x) session;
            ret (inr (SExchangeComplete
              {| ec_target_token := token; ec_session_id := x_session_id b;
                 ec_process_generation := generation l; ec_listener_epoch := epoch l;
                 ec_message := message; ec_message_sha256 := sha256 message;
                 ec_handoff := session_handoff session |}))
        | Err error =>
            run cancel_raw (xg_raw x);
            match references l !! token with
            | None => panics
            | Some r =>
                let r := bind_session_id (x_session_id b) r in
                let l := set_references (<[token := r]> (references l)) l in
                run modify (put_lease i l);
                do n <- now;
                do tombstone <- of_res (session_tombstone_expires n);
                let l := set_references (<[token := set_expires tombstone r]> (references l)) l in
                run modify (put_lease i (set_sessions (delete (xg_slot x) (sessions l)) l));
                throw (Fails (transport_fail StExchange error))
            end
        end
  end.

Definition exchange (request : Request ExchangeBody) : BProg ControlSuccess :=
  (let b := body request in
   if negb (bool_decide (x_message_sha256 b = sha256 (x_message b)))
   then p_fail StExchange BindingMismatch
   else
     do current <- atomically now;
     do r <- atomically (exchange_take b (deadline_unix_ms request) current);
     match r with
     | inl (reason, i) => end_lease i StExchange reason
     | inr x =>
         do over <- guarded (xg_operation x)
           (do ' (result, rd, crypto) <- atomically (conn_call (xg_reader x) (xg_crypto x)
              (RawTransport.exchange (xg_raw x) (x_message b) (xg_deadline x)));
            atomically (exchange_commit b x rd crypto result));
         match over with
         | inr reply => p_ret reply
         | inl reason => end_lease (xg_index x) StExchange reason
         end
     end)%prog.

(** *** Close *)

Record Closing := mkClosing {
  cg_index : nat;
  cg_raw : RawDuplex;
  cg_crypto : SessionCore;
  cg_handoff : HandoffState;
  cg_deadline : AbsoluteDeadline;
  cg_operation : Guard
}.

Definition close_take (b : CloseSessionBody) (deadline current : Z)
    : BSec (CloseReason * nat + Closing) :=
  do r <- lease_for StClose (cs_target_token b) current;
  match r with
  | inl t => ret (inl t)
  | inr (i, l) =>
      if negb (same_process l (cs_process_generation b) (cs_listener_epoch b))
      then fails StClose Stale
      else
        do slot <- of_res (matched_session_slot l (cs_target_token b) (cs_session_id b) StClose true);
        do c <- new_cancellation;
        entering i c StClose (fun g =>
          do ' (l, x) <- bind_session i l (cs_target_token b) (cs_session_id b) slot;
          run put_session i l slot (set_session_io None (s_reader x) x);
          do crypto <- or_fail StClose Stale (s_crypto x);
          do d <- deadline_for deadline l;
          ret (inr (mkClosing i (s_raw x) crypto (session_handoff x) d g)))
  end.

(** [raw_transport::close_session]: its answer. *)
Definition close_raw {E} (raw : RawDuplex) (crypto : SessionCore) (reason : CloseReason)
    (h : HandoffState) (d : AbsoluteDeadline) : Sec (Broker W) E (TRes unit) :=
  on_bio (fun x => let '(r, (_, x)) := RawTransport.close_session raw reason h d (crypto, x) in (r, x)).

Definition close_commit (b : CloseSessionBody) (x : Closing) (result : TRes unit)
    : BSec (CloseReason + ControlSuccess) :=
  let i := cg_index x in
  let token := cs_target_token b in
  do completed <- now;
  do o <- slot_at i;
  match o ≫= terminal_reason_at completed with
  | Some reason => run cancel_raw (cg_raw x); ret (inl reason)
  | None =>
      do l <- or_fail StClose Stale
        (l ← o;
         if bool_decide (state l = LeaseReady)
            && same_process l (cs_process_generation b) (cs_listener_epoch b)
         then Some l else None);
      do slot <- or_fail StClose Stale (references l !! token ≫= session_slot);
      match references l !! token with
      | None => panics
      | Some r =>
          let r := bind_session_id (cs_session_id b) r in
          let l := set_references (<[token := r]> (references l)) l in
          run modify (put_lease i l);
          do n <- now;
          do tombstone <- of_res (session_tombstone_expires n);
          let l := set_references (<[token := set_expires tombstone r]> (references l)) l in
          run modify (put_lease i (set_sessions (delete slot (sessions l)) l));
          match result with
          | Ok _ => ret (inr (SClosed {| cd_target_token := token;
                                         cd_session_id := Some (cs_session_id b);
                                         cd_handoff := cg_handoff x |}))
          | Err error => throw (Fails (transport_fail StClose error))
          end
      end
  end.

Definition close_session (request : Request CloseSessionBody) : BProg ControlSuccess :=
  (let b := body request in
   do current <- atomically now;
   do r <- atomically (close_take b (deadline_unix_ms request) current);
   match r with
   | inl (reason, i) => end_lease i StClose reason
   | inr x =>
       do over <- guarded (cg_operation x)
         (do result <- atomically (close_raw (cg_raw x) (cg_crypto x) (cs_reason b) (cg_handoff x)
                                     (cg_deadline x));
          atomically (close_commit b x result));
       match over with
       | inr reply => p_ret reply
       | inl reason => end_lease (cg_index x) StClose reason
       end
   end)%prog.

Definition close_lease_find (token : bytes) : BSec (nat * HandoffState) :=
  do i <- lease_of_token StClose token;
  do l <- expect_lease i;
  ret (i, overall_handoff l).

Definition close_lease (request : Request CloseLeaseBody) : BProg ControlSuccess :=
  (let b := body request in
   do ' (i, h) <- atomically (close_lease_find (cl_target_token b));
   run terminalize_lease i (cl_reason b);
   p_ret (SClosed {| cd_target_token := cl_target_token b; cd_session_id := None;
                     cd_handoff := h |}))%prog.

(** *** Idle sessions *)

Record Expiring := mkExpiring {
  eg_raw : RawDuplex;
  eg_crypto : SessionCore;
  eg_handoff : HandoffState;
  eg_id : option bytes;
  eg_operation : Guard
}.

Definition expire_take (i : nat) (slot : Z) : BSec Expiring :=
  do l <- ready_lease StClose i;
  do x <- or_fail StClose Stale
    (x ← sessions l !! slot; if is_Some_b (s_crypto x) then Some x else None);
  do c <- new_cancellation;
  do g <- enter_operation i c StClose;
  match s_crypto x with
  | None => panics
  | Some crypto =>
      run put_session i l slot (set_session_io None (s_reader x) x);
      ret (mkExpiring (s_raw x) crypto (session_handoff x) (s_id x) g)
  end.

(** The reference of a slot; at most one has it ([slot_owner_unique]). *)
Definition owner_of_slot (l : Lease W) (slot : Z) : option (bytes * Reference) :=
  head (filter (fun p => session_slot (snd p) = Some slot) (map_to_list (references l))).

Definition expire_commit (i : nat) (slot : Z) (id : option bytes) : BSec unit :=
  do s <- get;
  match lease_at s i with
  | None => ret tt
  | Some l =>
      do l <- match id, owner_of_slot l slot with
              | Some id, Some (token, r) =>
                  let r := bind_session_id id r in
                  let l := set_references (<[token := r]> (references l)) l in
                  run modify (put_lease i l);
                  do n <- now;
                  do tombstone <- of_res (session_tombstone_expires n);
                  ret (set_references (<[token := set_expires tombstone r]> (references l)) l)
              | _, _ => ret l
              end;
      modify (put_lease i (set_sessions (delete slot (sessions l)) l))
  end.

Definition expire_session (i : nat) (slot : Z) : BProg unit :=
  (do x <- atomically (expire_take i slot);
   guarded (eg_operation x)
     (do d <- atomically cleanup_absolute_deadline;
      run atomically (close_raw (eg_raw x) (eg_crypto x) Stale (eg_handoff x) d);
      run atomically (cancel_raw (eg_raw x));
      atomically (expire_commit i slot (eg_id x))))%prog.

(** ** The broker *)

Definition handle (request : ControlRequest) : BProg ControlSuccess :=
  (do current <- atomically now;
   run atomically (prune current);
   if control_deadline_unix_ms request <=? current then p_fail Ipc Timeout
   else match request with
        | RPrepare r => prepare r
        | ROpenSession r => open r
        | RExchange r => exchange r
        | RCloseSession r => close_session r
        | RCloseLease r => close_lease r
        end)%prog.

(** What [maintain] finds due: idle sessions, leases that are over, brokers lost, heartbeats. *)
Record Due := mkDue {
  due_sessions : list (nat * Z);
  due_leases : list nat;
  due_losses : list nat;
  due_heartbeats : list nat
}.

Definition due_at (current : Z) (i : nat) (l : Lease W) (d : Due) : Due :=
  if negb (bool_decide (state l = LeaseReady)) then d
  else match terminal_reason_at current l with
  | Some BrokerLost =>
      mkDue (due_sessions d) (due_leases d) (due_losses d ++ [i]) (due_heartbeats d)
  | Some _ => mkDue (due_sessions d) (due_leases d ++ [i]) (due_losses d) (due_heartbeats d)
  | None =>
      mkDue
        (due_sessions d ++
         (pair i ∘ fst <$> filter (fun p => is_Some_b (s_crypto (snd p)) = true /\
                                     expired_at current (s_last (snd p)) SESSION_IDLE_MS = true)
                         (map_to_list (sessions l))))
        (due_leases d) (due_losses d)
        (if expired_at current (last_heartbeat_attempt l) HEARTBEAT_INTERVAL_MS
         then due_heartbeats d ++ [i] else due_heartbeats d)
  end.

Fixpoint due_from (current : Z) (i : nat) (ls : list (option (Lease W))) (d : Due) : Due :=
  match ls with
  | [] => d
  | o :: ls => due_from current (S i) ls
                 match o with Some l => due_at current i l d | None => d end
  end.

Definition collect_due (current : Z) : BSec Due :=
  do s <- get; ret (due_from current 0 (leases s) (mkDue [] [] [] [])).

(** All are done; the first failure is kept. *)
Fixpoint all_of {A} (l : list A) (m : A -> BProg unit) (first : option ControlFailure)
    : BProg (option ControlFailure) :=
  match l with
  | [] => p_ret first
  | a :: l =>
      (do r <- attempt (m a);
       all_of l m match first, r with
                  | None, Err f => Some f
                  | _, _ => first
                  end)%prog
  end.

Definition first_failure (o : option ControlFailure) : BProg unit :=
  match o with Some f => p_throw f | None => p_ret tt end.

Definition maintain : BProg unit :=
  (do current <- atomically now;
   run atomically (prune current);
   do due <- atomically (collect_due current);
   do f <- all_of (due_sessions due) (fun p => expire_session (fst p) (snd p)) None;
   do f <- all_of (due_leases due) (fun i => terminalize_lease i Stale) f;
   do f <- all_of (due_losses due) (fun i =>
             run terminalize_lease i BrokerLost; p_fail StClose BrokerLost) f;
   do f <- all_of (due_heartbeats due) (fun i =>
             run heartbeat i (Z.min (saturating_add current HEARTBEAT_INTERVAL_MS) MAX_SAFE);
             p_ret tt) f;
   first_failure f)%prog.

Definition seal_admission : BSec (list nat) :=
  run modify set_shutting_down;
  do s <- get;
  ret (omap (fun p => (fun _ => fst p) <$> snd p) (imap pair (leases s))).

(** One lease of [shutdown]: a clean-up that is already somebody's is waited for. *)
Definition shut_lease (reason : CloseReason) (i : nat) : BProg unit :=
  (do present <- atomically (do s <- get; ret (is_Some_b (lease_at s i)));
   do r <- attempt (terminalize_lease i reason);
   match r with
   | Ok _ => p_ret tt
   | Err f =>
       run (if bool_decide (f_close_reason f = CleanupFailed) && (present : bool)
            then do _ <- attempt (p_map_err (fail Cleanup) (wait_for_close i)); p_ret tt
            else p_ret tt);
       if bool_decide (f_close_reason f = Stale) then p_ret tt else p_throw f
   end)%prog.

Definition shutdown (reason : CloseReason) : BProg unit :=
  (do indices <- atomically seal_admission;
   do f <- all_of indices (shut_lease reason) None;
   first_failure f)%prog.

(** ** Threads of the host process *)

Inductive Call : Type :=
| CallHandle (r : ControlRequest) | CallMaintain | CallShutdown (reason : CloseReason).

Definition thread_of (c : Call) : Thread (Broker W) Leaf :=
  match c with
  | CallHandle r => handle r (fun r => Halt (Some (Replied r)))
  | CallMaintain => maintain (fun r => Halt (Some (Returned r)))
  | CallShutdown reason => shutdown reason (fun r => Halt (Some (ShutDown r)))
  end.

(** A broker with calls on threads of their own, run by a schedule. *)
Definition run_broker (random : list bytes) (w : W) (calls : list Call)
    (schedule : list (nat * Choice)) : Config (Broker W) Leaf :=
  run_threads schedule (Core_new random w, thread_of <$> calls).
End Handlers.
