(* ===== verification/Rights.v ===== *)
(** What the threads of the broker may rely on: the rights they hold, the invariant of the
    broker's state and what a step may change of it. *)

From S2P Require Import Prelude Errors Crates Outer Records Payloads Reassembly NoiseIO Lease Bootstrap Session Control Adapter RawTransport Threads Interference Broker BrokerOps Handlers.

(** ** Lists with a share for each index *)

Section Gather.
Context {A B : Type} (f : nat -> A -> list B).
Implicit Types l : list A.

Definition gather l : list B := concat (imap f l).

Lemma gather_app l x : gather (l ++ [x]) = gather l ++ f (length l) x.
Proof. unfold gather. rewrite imap_app, concat_app. cbn. by rewrite Nat.add_0_r, app_nil_r. Qed.

Lemma elem_of_gather l b : b ∈ gather l <-> exists i x, l !! i = Some x /\ b ∈ f i x.
Proof.
  unfold gather. rewrite list_elem_of_In, in_concat. split.
  - intros (l' & Hl & Hb). apply list_elem_of_In in Hl, Hb.
    apply elem_of_lookup_imap in Hl as (i & x & -> & Hi). by exists i, x.
  - intros (i & x & Hi & Hb). exists (f i x). split; [|by apply list_elem_of_In].
    apply list_elem_of_In, elem_of_lookup_imap. by exists i, x.
Qed.
End Gather.
Arguments gather : simpl never.

Lemma gather_insert {A B} (f : nat -> A -> list B) l i x y :
  l !! i = Some x -> gather f (<[i:=y]> l) ++ f i x ≡ₚ gather f l ++ f i y.
Proof.
  unfold gather. revert f i. induction l as [|z l IH]; intros f [|i]; cbn; try done.
  - intros [= ->]. solve_Permutation.
  - intros Hi. specialize (IH (f ∘ Datatypes.S) i Hi). cbn in IH.
    rewrite <- !app_assoc. by rewrite IH.
Qed.
Lemma gather_same {A B} (f : nat -> A -> list B) l i x y :
  l !! i = Some x -> f i y = f i x -> gather f (<[i:=y]> l) = gather f l.
Proof.
  unfold gather. revert f i. induction l as [|z l IH]; intros f [|i]; cbn; try done.
  - by intros [= ->] ->.
  - intros Hi He. f_equal. by apply (IH (f ∘ Datatypes.S) i).
Qed.
Lemma gather_fmap {A B} (f : nat -> A -> list B) (g : A -> A) l :
  (forall i x, f i (g x) = f i x) -> gather f (g <$> l) = gather f l.
Proof.
  intros Hg. unfold gather. f_equal. rewrite imap_fmap. apply imap_ext. intros i x _. apply Hg.
Qed.

Lemma gather_cons {A B} (f : nat -> A -> list B) x l :
  gather f (x :: l) = f O x ++ gather (f ∘ Datatypes.S) l.
Proof. done. Qed.

(** Shares without repetition and without an overlap. *)
Lemma gather_NoDup {A B} (f : nat -> A -> list B) l :
  (forall i x, l !! i = Some x -> NoDup (f i x)) ->
  (forall i j x y b, l !! i = Some x -> l !! j = Some y -> b ∈ f i x -> b ∈ f j y -> i = j) ->
  NoDup (gather f l).
Proof.
  revert f. induction l as [|x l IH]; intros f Hf Hd; [constructor|].
  rewrite gather_cons. apply NoDup_app. split_and!.
  - by apply (Hf O).
  - intros b Hb (i & y & Hi & Hby)%elem_of_gather.
    by specialize (Hd O (S i) x y b eq_refl Hi Hb Hby).
  - apply IH; [intros i y Hi; by apply (Hf (S i))|].
    intros i j y z b Hi Hj Hy Hz. specialize (Hd (S i) (S j) y z b Hi Hj Hy Hz). congruence.
Qed.

Section Rights.
Context `{Minicbor} `{Snow} `{Sha2} `{Base64} `{PlatformHost W}.

(** ** Rights

    A launch that is begun and not consumed; a receipt; the slot of a session to be entered; the
    two rights that make a prepared lease ready, that of the request and that of the thread of
    the launch; an operation that is entered; the end of a lease; the two ends of an owned
    operation. *)
Inductive Right : Type :=
| RPending (p : PendingLaunch)
| RReceipt (r : CleanupReceipt)
| RSlot (k : nat * Z)
| RLaunch (i : nat) (client : bool)
| RGuard (g : Guard)
| RCloser (i : nat)
| RProducer (n : nat)
| RConsumer (n : nat).

Definition launch_rights (i : nat) : list Right := [RLaunch i true; RLaunch i false].
Definition ledger_rights (i : nat) (o : OperationState Cancellation) : list Right :=
  ((RGuard ∘ pair i ∘ fst) <$> map_to_list (cancellations o)) ++
  (if accepting o then [] else [RCloser i]).
Definition ledger_done (i : nat) (o : OperationState Cancellation) : list Right :=
  if is_Some_b (completed o) then [RCloser i] else [].
Definition lease_rights (o : option (Lease W)) : list Right :=
  match o ≫= cleanup with Some r => [RReceipt r] | None => [] end.

Definition prepared_rights (p : Prepared) : list Right :=
  [RGuard (operation p); RReceipt (bs_cleanup (success p)); RLaunch (fst (operation p)) false].
Definition value_rights (v : result TransportFailure Prepared) : list Right :=
  match v with Ok p => prepared_rights p | Err _ => [] end.
Definition cell_done (n : nat) (c : OpCell) : list Right :=
  match c with
  | CellProducing => []
  | CellReady v => RProducer n :: value_rights v
  | CellTaken => [RProducer n; RConsumer n]
  | CellAbandoned => [RConsumer n]
  end.

Definition rights_issued (s : Broker W) : list Right :=
  (RPending <$> begun (books s)) ++ (RReceipt <$> launched (books s)) ++
  (RSlot <$> reserved (books s)) ++
  gather (fun i _ => launch_rights i) (leases s) ++ gather ledger_rights (ledgers s) ++
  gather (fun n _ => [RProducer n; RConsumer n]) (cells s).
Definition rights_settled (s : Broker W) : list Right :=
  (RPending <$> consumed (books s)) ++ (RReceipt <$> spent (books s)) ++
  gather (fun _ => lease_rights) (leases s) ++ gather ledger_done (ledgers s) ++
  gather cell_done (cells s).

Definition right_droppable (r : Right) : Prop :=
  match r with RSlot _ | RLaunch _ _ => True | _ => False end.
Definition right_rank (r : Right) : nat := match r with RCloser _ => 1 | _ => 0 end.

(** ** The invariant *)

Record lease_ok (l : Lease W) : Prop := {
  lo_slot t r k : references l !! t = Some r -> session_slot r = Some k -> k < next_session l;
  lo_owner t1 t2 r1 r2 k : references l !! t1 = Some r1 -> references l !! t2 = Some r2 ->
    session_slot r1 = Some k -> session_slot r2 = Some k -> t1 = t2;
  lo_unused t r : references l !! t = Some r -> ref_state r = RefPending \/ ref_state r = RefMinted ->
    session_slot r = None;
  lo_live k x : state l = LeaseReady -> sessions l !! k = Some x ->
    exists t r, references l !! t = Some r /\ ref_state r = RefConsumed /\ session_slot r = Some k;
  lo_preparing k : state l = LeasePreparing -> sessions l !! k = None;
  lo_sessions k x : sessions l !! k = Some x -> k < next_session l;
  lo_cleanup r : cleanup l = Some r -> state l = LeaseReady \/ state l = LeaseClosing;
  lo_failed : terminal_cleanup_failed l = true -> cleanup l = None
}.

Record ledger_ok (o : OperationState Cancellation) : Prop := {
  le_active : active_operations o = Z.of_nat (size (cancellations o));
  le_ids id : is_Some (cancellations o !! id) -> id < next_id o;
  le_completed r : completed o = Some r -> accepting o = false
}.

Record broker_ok (s : Broker W) : Prop := {
  bo_length : length (ledgers s) = length (leases s);
  bo_ledger i o : ledgers s !! i = Some o -> ledger_ok o;
  bo_lease i l : lease_at s i = Some l -> lease_ok l;
  bo_closing i l o : lease_at s i = Some l -> ledgers s !! i = Some o -> accepting o = false ->
    state l = LeaseClosing /\ completed o = None;
  bo_one i j a b : lease_at s i = Some a -> lease_at s j = Some b ->
    key_selection (key a) = key_selection (key b) -> i = j;
  bo_random : NoDup (entropy s) /\ NoDup (minted (books s)) /\
    forall t, t ∈ entropy s -> t ∉ minted (books s);
  bo_minted i l t : lease_at s i = Some l -> is_Some (references l !! t) -> t ∈ minted (books s);
  bo_tokens i j a b t : lease_at s i = Some a -> lease_at s j = Some b ->
    is_Some (references a !! t) -> is_Some (references b !! t) -> i = j;
  bo_reserved : NoDup (reserved (books s)) /\ forall i k, (i, k) ∈ reserved (books s) ->
    (i < length (leases s))%nat /\ forall l, lease_at s i = Some l -> k < next_session l;
  bo_cells : length (owners (books s)) = length (cells s) /\
    forall n p, cells s !! n = Some (CellReady (Ok p)) ->
      owners (books s) !! n = Some (fst (operation p))
}.

(** ** Steps

    [acts r]: the thread that takes the step holds the right [r]. *)

Definition ref_rank (st : RefState) : Z :=
  match st with
  | RefPending => 0 | RefMinted => 1 | RefRedeeming => 2 | RefConsumed => 3 | RefStale => 4
  end.
Definition state_le (a b : LeaseState) : Prop :=
  match a, b with
  | LeasePreparing, _ => True
  | LeaseReady, (LeaseReady | LeaseClosing) | LeaseStale, (LeaseStale | LeaseClosing)
  | LeaseClosing, LeaseClosing => True
  | _, _ => False
  end.
(** A slot is set once, to one that was not given before. *)
Definition slot_grows (n : Z) (o o' : option Z) : Prop :=
  o' = o \/ (o = None /\ exists k, o' = Some k /\ n <= k).

Definition sealed (s : Broker W) (i : nat) : Prop :=
  exists o, ledgers s !! i = Some o /\ accepting o = false.
Definition over (s : Broker W) (i : nat) : Prop :=
  exists o, ledgers s !! i = Some o /\ accepting o = false /\ active_operations o = 0.

Record lease_evolves (acts : Right -> Prop) (i : nat) (s s' : Broker W) (a b : Lease W) : Prop := {
  lv_key : key b = key a;
  lv_id : lease_id b = lease_id a;
  lv_state : state_le (state a) (state b);
  lv_ready : state a = LeasePreparing -> state b = LeaseReady ->
    acts (RLaunch i true) /\ acts (RLaunch i false);
  lv_next : next_session a <= next_session b;
  lv_cleanup r : cleanup b = Some r ->
    cleanup a = Some r \/ (state a = LeasePreparing /\ acts (RLaunch i true));
  lv_taken r : cleanup a = Some r -> cleanup b = None -> over s' i;
  lv_failed : terminal_cleanup_failed b = true ->
    terminal_cleanup_failed a = true \/ acts (RLaunch i true);
  lv_refs t r' : references b !! t = Some r' ->
    match references a !! t with
    | Some r => ref_rank (ref_state r) <= ref_rank (ref_state r') /\
                slot_grows (next_session a) (session_slot r) (session_slot r')
    | None => t ∉ minted (books s) /\ slot_grows (next_session a) None (session_slot r')
    end;
  lv_sessions k : is_Some (sessions b !! k) -> is_Some (sessions a !! k) \/ acts (RSlot (i, k))
}.

Definition slot_evolves (acts : Right -> Prop) (i : nat) (s s' : Broker W)
    (o o' : option (Lease W)) : Prop :=
  match o, o' with
  | None, None => True
  | None, Some _ => False
  | Some a, None =>
      (state a = LeaseClosing -> acts (RCloser i)) /\ (cleanup a = None \/ over s' i)
  | Some a, Some b => lease_evolves acts i s s' a b
  end.

Record broker_evolves (acts : Right -> Prop) (s s' : Broker W) : Prop := {
  be_leases i o : leases s !! i = Some o ->
    exists o', leases s' !! i = Some o' /\ slot_evolves acts i s s' o o';
  be_sealed i : sealed s i -> sealed s' i;
  be_over i : over s i -> over s' i;
  be_minted t : t ∈ minted (books s) -> t ∈ minted (books s');
  be_owners n i : owners (books s) !! n = Some i -> owners (books s') !! n = Some i;
  be_shut : shutting_down s = true ->
    shutting_down s' = true /\ length (leases s') = length (leases s)
}.

(** What a shutdown leaves: no lease that is still open. *)
Definition shut (s : Broker W) : Prop :=
  shutting_down s = true /\
  forall i, (i < length (leases s))%nat -> lease_at s i = None \/ sealed s i.

#[export] Instance broker_discipline : Discipline (Broker W) Leaf Right := {|
  inv := broker_ok;
  evolves l := broker_evolves (fun r => r ∈ l);
  issued_in := rights_issued;
  settled_in := rights_settled;
  droppable := right_droppable;
  rank := right_rank;
  final x s := match x with ShutDown _ => shut s | _ => True end
|}.
End Rights.
