(* ===== verification/Steps.v ===== *)
(** The steps of the broker's threads, one primitive change of the state at a time: each keeps
    the invariant, changes only what its thread may change, and hands the rights on. *)

From S2P Require Import Prelude Errors Crates Outer Records Payloads Reassembly NoiseIO Lease Bootstrap Session Control Adapter RawTransport RawReads Threads Interference Broker BrokerOps Handlers Rights.

Lemma omap_all {A} (f : A -> option A) (l : list A) : (forall a, a ∈ l -> f a = Some a) -> omap f l = l.
Proof.
  induction l as [|a l IH]; intros Hf; [done|]. cbn. rewrite (Hf a) by (by left).
  f_equal. apply IH. intros b Hb. apply Hf. by right.
Qed.
Lemma omap_none {A B} (f : A -> option B) (l : list A) : (forall a, a ∈ l -> f a = None) -> omap f l = [].
Proof.
  induction l as [|a l IH]; intros Hf; [done|]. cbn. rewrite (Hf a) by (by left).
  apply IH. intros b Hb. apply Hf. by right.
Qed.

Section Steps.
Context `{Minicbor} `{Snow} `{Sha2} `{Base64} `{PlatformHost W}.
Implicit Types (s : Broker W) (l : list Right) (r : Right) (a b : Lease W).

(** ** Rights that are held once *)

Definition plain r : option Right :=
  match r with RPending _ | RReceipt _ => None | _ => Some r end.

Lemma plain_issued s : omap plain (rights_issued s) =
  (RSlot <$> reserved (books s)) ++ gather (fun i _ => launch_rights i) (leases s) ++
  gather ledger_rights (ledgers s) ++ gather (fun n _ => [RProducer n; RConsumer n]) (cells s).
Proof.
  unfold rights_issued. rewrite !omap_app.
  rewrite (omap_none _ (RPending <$> _)) by (by intros r (p & -> & _)%list_elem_of_fmap).
  rewrite (omap_none _ (RReceipt <$> _)) by (by intros r (p & -> & _)%list_elem_of_fmap).
  rewrite (omap_all _ (RSlot <$> _)) by (by intros r (p & -> & _)%list_elem_of_fmap).
  rewrite (omap_all _ (gather (fun i _ => launch_rights i) _)).
  2:{ intros r (i & x & _ & Hr)%elem_of_gather. unfold launch_rights in Hr. set_solver. }
  rewrite (omap_all _ (gather ledger_rights _)).
  2:{ intros r (i & o & _ & [(p & -> & _)%list_elem_of_fmap|Hr]%elem_of_app)%elem_of_gather; [done|].
      destruct (accepting o); set_solver. }
  rewrite (omap_all _ (gather _ (cells s))); [done|].
  intros r (i & x & _ & Hr)%elem_of_gather. set_solver.
Qed.

Lemma ledger_rights_guard i o g : RGuard g ∈ ledger_rights i o <->
  fst g = i /\ is_Some (cancellations o !! snd g).
Proof.
  unfold ledger_rights. rewrite elem_of_app, list_elem_of_fmap. split.
  - intros [([id c] & [= ->] & Hc)|Hr]; [|destruct (accepting o); set_solver].
    apply elem_of_map_to_list in Hc. by cbn; rewrite Hc.
  - destruct g as [i' id]. cbn. intros [-> [c Hc]]. left. exists (id, c).
    by rewrite elem_of_map_to_list.
Qed.
Lemma ledger_rights_closer i o j : RCloser j ∈ ledger_rights i o <-> j = i /\ accepting o = false.
Proof.
  unfold ledger_rights. rewrite elem_of_app, list_elem_of_fmap. split.
  - intros [([id c] & [=] & Hc)|Hr]. destruct (accepting o); set_solver.
  - intros [-> ->]. right. by left.
Qed.
Lemma ledger_rights_kind i o r : r ∈ ledger_rights i o ->
  (exists g, r = RGuard g) \/ exists j, r = RCloser j.
Proof.
  unfold ledger_rights. rewrite elem_of_app, list_elem_of_fmap.
  intros [([id c] & -> & _)|Hr]; [left; by eexists|right].
  destruct (accepting o); [set_solver|]. exists i. set_solver.
Qed.

Lemma plain_NoDup s : NoDup (reserved (books s)) -> NoDup (omap plain (rights_issued s)).
Proof.
  intros Hres. rewrite plain_issued. apply NoDup_app. split_and!.
  { by apply NoDup_fmap; [intros ?? [=]|]. }
  { intros r (k & -> & _)%list_elem_of_fmap. rewrite !elem_of_app, !elem_of_gather.
    intros [(i & x & _ & Hr)|[(i & o & _ & Hr)|(i & c & _ & Hr)]].
    - unfold launch_rights in Hr. set_solver.
    - by destruct (ledger_rights_kind _ _ _ Hr) as [[? [=]]|[? [=]]].
    - set_solver. }
  apply NoDup_app. split_and!.
  { apply gather_NoDup; unfold launch_rights.
    - intros i x _. repeat constructor; set_solver.
    - intros i j x y r _ _ Hx Hy. set_solver. }
  { intros r (i & x & _ & Hx)%elem_of_gather. rewrite !elem_of_app, !elem_of_gather.
    unfold launch_rights in Hx. intros [(j & o & _ & Hr)|(j & c & _ & Hr)]; [|set_solver].
    destruct (ledger_rights_kind _ _ _ Hr) as [[? ->]|[? ->]]; set_solver. }
  apply NoDup_app. split_and!.
  { apply gather_NoDup.
    - intros i o _. apply NoDup_app. split_and!.
      + rewrite list_fmap_compose, list_fmap_compose.
        do 2 (apply NoDup_fmap; [by intros ?? [=]|]). apply NoDup_fst_map_to_list.
      + intros r (p & -> & _)%list_elem_of_fmap. destruct (accepting o); set_solver.
      + destruct (accepting o); repeat constructor. set_solver.
    - intros i j x y r _ _ Hx Hy. destruct (ledger_rights_kind _ _ _ Hx) as [[g ->]|[k ->]].
      + rewrite ledger_rights_guard in Hx, Hy. by destruct Hx as [<- _], Hy as [<- _].
      + rewrite ledger_rights_closer in Hx, Hy. by destruct Hx as [<- _], Hy as [<- _]. }
  { intros r (i & o & _ & Hr)%elem_of_gather (n & c & _ & Hc)%elem_of_gather.
    destruct (ledger_rights_kind _ _ _ Hr) as [[? ->]|[? ->]]; set_solver. }
  apply gather_NoDup; [intros n c _; repeat constructor; set_solver|].
  intros i j x y r _ _ Hx Hy. set_solver.
Qed.

(** A right that is held is held once, and is not settled. *)
Lemma right_once s l1 l2 r : broker_ok s -> holds s (l1 ++ l2) -> plain r = Some r ->
  r ∈ l1 -> r ∈ l2 -> False.
Proof.
  intros Hi [o Ho] Hp Hr1 Hr2. cbn in Ho.
  pose proof (plain_NoDup s (proj1 (bo_reserved s Hi))) as Hn. rewrite Ho in Hn.
  rewrite !omap_app in Hn. apply NoDup_app in Hn as (_ & _ & Hn).
  apply NoDup_app in Hn as (Hn & _ & _). apply NoDup_app in Hn as (_ & Hd & _).
  apply (Hd r); rewrite list_elem_of_omap; by exists r.
Qed.
Lemma right_unsettled s l r : broker_ok s -> holds s l -> plain r = Some r -> r ∈ l ->
  r ∉ rights_settled s.
Proof.
  intros Hi [o Ho] Hp Hr1 Hr2. cbn in Ho.
  pose proof (plain_NoDup s (proj1 (bo_reserved s Hi))) as Hn. rewrite Ho in Hn.
  rewrite !omap_app in Hn. apply NoDup_app in Hn as (_ & Hd & _).
  apply (Hd r); rewrite ?elem_of_app; [|left]; apply list_elem_of_omap; by exists r.
Qed.
Lemma right_issued s l r : holds s l -> r ∈ l -> r ∈ rights_issued s.
Proof. intros [o Ho] Hr. cbn in Ho. rewrite Ho. set_solver. Qed.

Lemma issued_guard s g : RGuard g ∈ rights_issued s ->
  exists o, ledgers s !! fst g = Some o /\ is_Some (cancellations o !! snd g).
Proof.
  unfold rights_issued. rewrite !elem_of_app, !list_elem_of_fmap, !elem_of_gather.
  intros [(?&[=]&_)|[(?&[=]&_)|[(?&[=]&_)|[(?&?&_&Hr)|[(i & o & Hi & Hr)|(?&?&_&Hr)]]]]].
  - unfold launch_rights in Hr. set_solver.
  - apply ledger_rights_guard in Hr as [<- Hc]. by exists o.
  - set_solver.
Qed.
Lemma issued_closer s i : RCloser i ∈ rights_issued s <-> sealed s i.
Proof.
  unfold rights_issued, sealed. rewrite !elem_of_app, !list_elem_of_fmap, !elem_of_gather. split.
  - intros [(?&[=]&_)|[(?&[=]&_)|[(?&[=]&_)|[(?&?&_&Hr)|[(j & o & Hi & Hr)|(?&?&_&Hr)]]]]].
    + unfold launch_rights in Hr. set_solver.
    + apply ledger_rights_closer in Hr as [-> Hc]. by exists o.
    + set_solver.
  - intros (o & Ho & Ha). do 4 right. left. exists i, o. split; [done|].
    by apply ledger_rights_closer.
Qed.
Lemma issued_cell s n r : r = RProducer n \/ r = RConsumer n -> r ∈ rights_issued s <->
  is_Some (cells s !! n).
Proof.
  intros Hrn. unfold rights_issued. rewrite !elem_of_app, !list_elem_of_fmap, !elem_of_gather.
  split.
  - intros [(?&->&_)|[(?&->&_)|[(?&->&_)|[(?&?&_&Hr)|[(j & o & Hi & Hr)|(j&c&Hj&Hr)]]]]];
      try (by destruct Hrn).
    + unfold launch_rights in Hr. destruct Hrn; set_solver.
    + destruct Hrn as [-> | ->];
        by destruct (ledger_rights_kind _ _ _ Hr) as [[? [=]]|[? [=]]].
    + assert (j = n) as <- by (destruct Hrn; set_solver). by exists c.
  - intros [c Hc]. do 5 right. exists n, c. destruct Hrn; set_solver.
Qed.

(** ** Moves

    [moves_by acts s l s' l'] of several primitive changes in one section: what the section as a
    whole may do is judged by the rights its thread had when it began. *)

Definition balanced s l s' l' : Prop :=
  forall others, rights_issued s ≡ₚ rights_settled s ++ l ++ others ->
    exists dropped, Forall right_droppable dropped /\
      rights_issued s' ≡ₚ rights_settled s' ++ l' ++ dropped ++ others.
Definition moves_by (acts : Right -> Prop) s l s' l' : Prop :=
  broker_ok s' /\ broker_evolves acts s s' /\ balanced s l s' l'.

Lemma balanced_flow s l s' l' d gi li gs ls :
  rights_issued s' ++ li ≡ₚ rights_issued s ++ gi ->
  rights_settled s' ++ ls ≡ₚ rights_settled s ++ gs ->
  Forall right_droppable d -> l ++ gi ++ ls ≡ₚ l' ++ d ++ li ++ gs -> balanced s l s' l'.
Proof.
  intros Hi Hs Hd Hl others Ho. exists d. split; [done|].
  apply (Permutation_app_inv_r (li ++ gs)).
  transitivity ((rights_issued s' ++ li) ++ gs); [solve_Permutation|]. rewrite Hi, Ho.
  transitivity ((rights_settled s ++ gs) ++ (l ++ gi) ++ others); [solve_Permutation|].
  rewrite <- Hs.
  transitivity (rights_settled s' ++ (l ++ gi ++ ls) ++ others); [solve_Permutation|].
  rewrite Hl. solve_Permutation.
Qed.
Lemma balanced_same s l s' l' d :
  rights_issued s' = rights_issued s -> rights_settled s' = rights_settled s ->
  Forall right_droppable d -> l ≡ₚ l' ++ d -> balanced s l s' l'.
Proof.
  intros Hi Hs Hd Hl. apply (balanced_flow _ _ _ _ d [] [] [] []); rewrite ?Hi, ?Hs, ?app_nil_r; done.
Qed.
Lemma balanced_trans s l s1 l1 s2 l2 :
  balanced s l s1 l1 -> balanced s1 l1 s2 l2 -> balanced s l s2 l2.
Proof.
  intros B1 B2 others Ho. destruct (B1 _ Ho) as (d1 & Hd1 & Ho1).
  destruct (B2 (d1 ++ others) Ho1) as (d2 & Hd2 & Ho2).
  exists (d2 ++ d1). split; [by apply Forall_app|]. by rewrite Ho2, <- app_assoc.
Qed.
Lemma balanced_holds s l s' l' : balanced s l s' l' -> holds s l -> holds s' l'.
Proof. intros Hb [o Ho]. destruct (Hb o Ho) as (d & _ & Ho'). by exists (d ++ o). Qed.

Lemma slot_grows_trans n n' o o1 o2 : n <= n' ->
  slot_grows n o o1 -> slot_grows n' o1 o2 -> slot_grows n o o2.
Proof.
  intros Hn [->|(-> & k & -> & Hk)] [->|(He & k' & -> & Hk')]; unfold slot_grows; try by left.
  - right. split; [done|]. exists k'. by split; [|lia].
  - right. split; [done|]. by exists k.
Qed.
Lemma slot_grows_refl n o : slot_grows n o o.
Proof. by left. Qed.

Lemma lease_evolves_refl acts i s s' a : lease_evolves acts i s s' a a.
Proof.
  split; try done.
  - by destruct (state a).
  - by intros ->.
  - intros r Hr. by left.
  - intros r. congruence.
  - by left.
  - intros t r ->. split; [done|by left].
  - by left.
Qed.

Lemma slot_evolves_refl acts i s s' o : slot_evolves acts i s s' o o.
Proof. destruct o as [a|]; [apply lease_evolves_refl|done]. Qed.

Lemma broker_evolves_refl acts s : broker_evolves acts s s.
Proof. split; try done. intros i o Hi. exists o. split; [done|apply slot_evolves_refl]. Qed.

Lemma lease_evolves_mono (acts acts' : Right -> Prop) i s s' a b :
  (forall r, acts r -> acts' r) -> lease_evolves acts i s s' a b -> lease_evolves acts' i s s' a b.
Proof.
  intros Ha Hl. split; try by apply Hl.
  - intros Hp Hr. destruct (lv_ready _ _ _ _ _ _ Hl Hp Hr). by split; apply Ha.
  - intros r Hr. destruct (lv_cleanup _ _ _ _ _ _ Hl r Hr) as [|[? ?]]; [by left|right].
    split; [done|by apply Ha].
  - intros Hf. destruct (lv_failed _ _ _ _ _ _ Hl Hf); [by left|right; by apply Ha].
  - intros k Hk. destruct (lv_sessions _ _ _ _ _ _ Hl k Hk); [by left|right; by apply Ha].
Qed.
Lemma broker_evolves_mono (acts acts' : Right -> Prop) s s' :
  (forall r, acts r -> acts' r) -> broker_evolves acts s s' -> broker_evolves acts' s s'.
Proof.
  intros Ha Hb. split; try by apply Hb.
  intros i o Hi. destruct (be_leases _ _ _ Hb i o Hi) as (o' & Ho' & He).
  exists o'. split; [done|]. destruct o as [a|], o' as [b|]; try done.
  - by eapply lease_evolves_mono.
  - destruct He as [He1 He2]. split; [|done]. intros Hc. by apply Ha, He1.
Qed.

Lemma state_le_trans x y z : state_le x y -> state_le y z -> state_le x z.
Proof. by destruct x, y, z. Qed.
Lemma state_le_preparing x : state_le x LeasePreparing -> x = LeasePreparing.
Proof. by destruct x. Qed.

Lemma lease_evolves_trans acts i s s1 s2 a b c :
  (forall t, is_Some (references a !! t) -> t ∈ minted (books s)) ->
  (forall t, t ∈ minted (books s) -> t ∈ minted (books s1)) -> (over s1 i -> over s2 i) ->
  lease_evolves acts i s s1 a b -> lease_evolves acts i s1 s2 b c -> lease_evolves acts i s s2 a c.
Proof.
  intros Hmin Hgrow Hover Ha Hb. split.
  - by rewrite (lv_key _ _ _ _ _ _ Hb), (lv_key _ _ _ _ _ _ Ha).
  - by rewrite (lv_id _ _ _ _ _ _ Hb), (lv_id _ _ _ _ _ _ Ha).
  - eapply state_le_trans; [apply Ha|apply Hb].
  - intros Hp Hr. destruct (decide (state b = LeasePreparing)) as [He|He]; [by apply Hb|].
    pose proof (lv_state _ _ _ _ _ _ Ha) as H1'. pose proof (lv_state _ _ _ _ _ _ Hb) as H2'.
    apply Ha; [done|]. rewrite Hr in H2'. by destruct (state b).
  - pose proof (lv_next _ _ _ _ _ _ Ha). pose proof (lv_next _ _ _ _ _ _ Hb). lia.
  - intros r Hr. destruct (lv_cleanup _ _ _ _ _ _ Hb r Hr) as [Hr'|[Hp Hact]]; [by apply Ha|right].
    split; [|done]. apply state_le_preparing. rewrite <- Hp. apply Ha.
  - intros r Hr Hn. destruct (cleanup b) as [r'|] eqn:Hc; [by eapply (lv_taken _ _ _ _ _ _ Hb)|].
    by eapply Hover, (lv_taken _ _ _ _ _ _ Ha).
  - intros Hf. destruct (lv_failed _ _ _ _ _ _ Hb Hf) as [Hf'|]; [by apply Ha|by right].
  - intros t r' Hr'. pose proof (lv_refs _ _ _ _ _ _ Hb t r' Hr') as Hrb.
    pose proof (lv_next _ _ _ _ _ _ Ha) as Hn.
    destruct (references b !! t) as [rb|] eqn:Hb'.
    + pose proof (lv_refs _ _ _ _ _ _ Ha t rb Hb') as Hra.
      destruct (references a !! t) as [ra|]; destruct Hra as [H1' H2'], Hrb as [H3' H4'].
      * split; [lia|]. by eapply slot_grows_trans.
      * split; [done|]. by eapply slot_grows_trans.
    + destruct (references a !! t) as [ra|] eqn:Ha'.
      * exfalso. apply Hrb, Hgrow, Hmin. by rewrite Ha'.
      * split; [intros Ht; by apply Hrb, Hgrow|].
        eapply slot_grows_trans; [exact Hn|apply slot_grows_refl|apply Hrb].
  - intros k Hk. destruct (lv_sessions _ _ _ _ _ _ Hb k Hk); [by apply Ha|by right].
Qed.

Lemma broker_evolves_trans acts s s1 s2 : broker_ok s ->
  broker_evolves acts s s1 -> broker_evolves acts s1 s2 -> broker_evolves acts s s2.
Proof.
  intros Hi E1 E2. split.
  - intros i o Ho. destruct (be_leases _ _ _ E1 i o Ho) as (o1 & Ho1 & Hs1).
    destruct (be_leases _ _ _ E2 i o1 Ho1) as (o2 & Ho2 & Hs2). exists o2. split; [done|].
    destruct o as [a|], o1 as [b|], o2 as [c|]; try done.
    + eapply lease_evolves_trans; [| | |done|done].
      * intros t Ht. eapply (bo_minted s Hi i a); [|done]. unfold lease_at. by rewrite Ho.
      * apply E1.
      * apply E2.
    + cbn in *. destruct Hs2 as [Hc Hcl]. split.
      * intros Ha. apply Hc. pose proof (lv_state _ _ _ _ _ _ Hs1) as Hle.
        rewrite Ha in Hle. by destruct (state b).
      * destruct (cleanup a) as [r|] eqn:Hr; [right|by left].
        destruct Hcl as [Hcl|?]; [|done]. eapply (be_over _ _ _ E2), (lv_taken _ _ _ _ _ _ Hs1); done.
    + cbn in *. destruct Hs1 as [? [?|?]]; (split; [done|]); [by left|right; by apply E2].
  - intros i Hs. by apply E2, E1.
  - intros i Hs. by apply E2, E1.
  - intros t Ht. by apply E2, E1.
  - intros n i Hn. by apply E2, E1.
  - intros Hs. destruct (be_shut _ _ _ E1 Hs) as [Hs1 Hl1].
    destruct (be_shut _ _ _ E2 Hs1) as [Hs2 Hl2]. split; [done|congruence].
Qed.

Lemma moves_by_refl acts s l : broker_ok s -> moves_by acts s l s l.
Proof.
  intros Hi. split; [done|]. split; [apply broker_evolves_refl|]. intros o Ho. by exists [].
Qed.
Lemma moves_by_trans acts s l s1 l1 s2 l2 : broker_ok s ->
  moves_by acts s l s1 l1 -> moves_by acts s1 l1 s2 l2 -> moves_by acts s l s2 l2.
Proof.
  intros Hi (H1' & E1 & B1) (H2' & E2 & B2). split; [done|].
  split; [by eapply broker_evolves_trans|by eapply balanced_trans].
Qed.
Lemma moves_by_perm acts s l s' l1 l2 : moves_by acts s l s' l1 -> l1 ≡ₚ l2 -> moves_by acts s l s' l2.
Proof.
  intros (Hi & He & Hb) Hp. split; [done|]. split; [done|]. eapply balanced_trans; [done|].
  apply (balanced_same _ _ _ _ []); [done..|]. by rewrite app_nil_r.
Qed.
Lemma moves_by_drop acts s l s' l' d :
  moves_by acts s l s' (l' ++ d) -> Forall right_droppable d -> moves_by acts s l s' l'.
Proof.
  intros (Hi & He & Hb) Hd. split; [done|]. split; [done|]. eapply balanced_trans; [done|].
  by apply (balanced_same _ _ _ _ d).
Qed.
End Steps.
