(* ===== verification/Moves.v ===== *)
(** The primitive changes of the broker's state as moves: each keeps the invariant and hands
    the rights on. *)

From S2P Require Import Prelude Errors Crates Outer Records Payloads Reassembly NoiseIO Lease Bootstrap Session Control Adapter RawTransport RawReads Threads Interference Broker BrokerOps Handlers Rights Steps.

Section Moves.
Context `{Minicbor} `{Snow} `{Sha2} `{Base64} `{PlatformHost W}.
Implicit Types (s : Broker W) (l : list Right) (r : Right) (a b : Lease W) (i j : nat).

Lemma lease_at_lookup s i a : lease_at s i = Some a <-> leases s !! i = Some (Some a).
Proof. unfold lease_at. destruct (leases s !! i) as [[?|]|]; cbn; naive_solver. Qed.
Lemma lease_at_lt s i a : lease_at s i = Some a -> (i < length (leases s))%nat.
Proof. rewrite lease_at_lookup. apply lookup_lt_Some. Qed.
Lemma lease_at_insert s s' i o j : (i < length (leases s))%nat -> leases s' = <[i:=o]> (leases s) ->
  lease_at s' j = if decide (j = i) then o else lease_at s j.
Proof.
  intros Hi Hs. unfold lease_at. rewrite Hs. destruct (decide (j = i)) as [->|Hn].
  - by rewrite list_lookup_insert_eq.
  - by rewrite list_lookup_insert_ne.
Qed.
Lemma ledger_some s i : broker_ok s -> (i < length (leases s))%nat ->
  exists o, ledgers s !! i = Some o /\ ledger_ok o.
Proof.
  intros Hi Hl. rewrite <- (bo_length s Hi) in Hl. apply lookup_lt_is_Some_2 in Hl as [o Ho].
  exists o. split; [done|]. by eapply bo_ledger.
Qed.

(** ** Changes that no thread relies on *)

Record quiet s s' : Prop := {
  q_leases : leases s' = leases s;
  q_ledgers : ledgers s' = ledgers s;
  q_cells : cells s' = cells s;
  q_books : books s' = books s;
  q_shut : shutting_down s' = shutting_down s;
  q_entropy : exists drawn, entropy s = drawn ++ entropy s'
}.

Lemma quiet_refl s : quiet s s.
Proof. split; try done. by exists []. Qed.
Lemma quiet_trans s1 s2 s3 : quiet s1 s2 -> quiet s2 s3 -> quiet s1 s3.
Proof.
  intros [] []. split; try congruence. destruct q_entropy0 as [d1 H1'], q_entropy1 as [d2 H2'].
  exists (d1 ++ d2). rewrite H1', H2'. by rewrite app_assoc.
Qed.
Lemma quiet_lease_at s s' i : quiet s s' -> lease_at s' i = lease_at s i.
Proof. intros []. unfold lease_at. by rewrite q_leases0. Qed.

Lemma moves_quiet acts s l s' : broker_ok s -> quiet s s' -> moves_by acts s l s' l.
Proof.
  intros Hi Hq. pose proof Hq as [Hl Hle Hc Hb Hsh [drawn He]].
  pose proof (quiet_lease_at s s') as Hat. split; [|split].
  - split; rewrite ?Hl, ?Hle, ?Hc, ?Hb; try apply Hi.
    + intros i x. rewrite Hat by done. apply Hi.
    + intros i x o. rewrite Hat by done. apply Hi.
    + intros i j x y. rewrite !Hat by done. apply Hi.
    + destruct (bo_random s Hi) as (Hn & Hm & Hd). rewrite He in Hn, Hd. split_and!; [|done|].
      * by apply NoDup_app in Hn as (_ & _ & Hn).
      * intros t Ht. apply Hd. set_solver.
    + intros i x t. rewrite Hat by done. apply Hi.
    + intros i j x y t. rewrite !Hat by done. apply Hi.
    + split; [apply Hi|]. intros j k Hjk. destruct (proj2 (bo_reserved s Hi) j k Hjk).
      split; [done|]. intros x. rewrite Hat by done. auto.
  - split; unfold sealed, over; rewrite ?Hl, ?Hle, ?Hc, ?Hb, ?Hsh; try done.
    intros i o Ho. exists o. split; [done|apply slot_evolves_refl].
  - apply (balanced_same _ _ _ _ []); [| |done|by rewrite app_nil_r];
      unfold rights_issued, rights_settled; by rewrite Hl, Hle, Hc, Hb.
Qed.

(** ** Changes of one lease *)

Lemma change_ok s s' i a b :
  broker_ok s -> lease_at s i = Some a -> leases s' = <[i:=Some b]> (leases s) ->
  length (ledgers s') = length (ledgers s) ->
  (forall j o, ledgers s' !! j = Some o -> j <> i -> ledgers s !! j = Some o) ->
  (forall o, ledgers s' !! i = Some o ->
     ledger_ok o /\ (accepting o = false -> state b = LeaseClosing /\ completed o = None)) ->
  lease_ok b -> key b = key a -> next_session a <= next_session b ->
  (NoDup (entropy s') /\ NoDup (minted (books s')) /\
     forall t, t ∈ entropy s' -> t ∉ minted (books s')) ->
  (forall t, t ∈ minted (books s) -> t ∈ minted (books s')) ->
  (forall t, is_Some (references b !! t) ->
     is_Some (references a !! t) \/ ((t ∉ minted (books s)) /\ t ∈ minted (books s'))) ->
  NoDup (reserved (books s')) ->
  (forall j k, (j, k) ∈ reserved (books s') ->
     (j, k) ∈ reserved (books s) \/ (j = i /\ k < next_session b)) ->
  owners (books s') = owners (books s) -> cells s' = cells s ->
  broker_ok s'.
Proof.
  intros Hok Ha Hl Hlen Hled Hledi Hb Hk Hn Hr Hm Ht Hrn Hres Ho Hc.
  pose proof (lease_at_lt _ _ _ Ha) as Hi.
  assert (Hat : forall j x, lease_at s' j = Some x ->
            (j = i /\ x = b) \/ (j <> i /\ lease_at s j = Some x)).
  { intros j x. rewrite (lease_at_insert s s' i (Some b) j Hi Hl).
    destruct (decide (j = i)) as [->|]; [intros [= ->]; by left|by right]. }
  split.
  - by rewrite Hlen, Hl, length_insert, (bo_length s Hok).
  - intros j o Hj. destruct (decide (j = i)) as [->|Hne]; [by apply Hledi|].
    by eapply (bo_ledger s Hok), Hled.
  - intros j x [[-> ->]|[_ Hj]]%Hat; [done|by eapply bo_lease].
  - intros j x o [[-> ->]|[Hne Hj]]%Hat Hoj Hacc; [by apply (Hledi o)|].
    eapply (bo_closing s Hok); [done| |done]. by apply Hled.
  - intros j1 j2 x1 x2 [[-> ->]|[Hne1 Hj1]]%Hat [[-> ->]|[Hne2 Hj2]]%Hat; rewrite ?Hk; try done;
      intros He; by eapply (bo_one s Hok).
  - done.
  - intros j x t [[-> ->]|[_ Hj]]%Hat Hx.
    + destruct (Ht t Hx) as [Hx'|[_ ?]]; [|done]. apply Hm. by eapply (bo_minted s Hok).
    + apply Hm. by eapply (bo_minted s Hok).
  - intros j1 j2 x1 x2 t [[-> ->]|[Hne1 Hj1]]%Hat [[-> ->]|[Hne2 Hj2]]%Hat Hx1 Hx2; try done.
    + destruct (Ht t Hx1) as [Hx|[Hx _]]; [by eapply (bo_tokens s Hok)|].
      destruct Hx. by eapply (bo_minted s Hok).
    + destruct (Ht t Hx2) as [Hx|[Hx _]]; [by eapply (bo_tokens s Hok)|].
      destruct Hx. by eapply (bo_minted s Hok).
    + by eapply (bo_tokens s Hok).
  - split; [done|]. intros j k Hjk. rewrite Hl, length_insert.
    destruct (Hres j k Hjk) as [Hold|[-> Hlt]].
    + destruct (proj2 (bo_reserved s Hok) j k Hold) as [Hlj Hnx]. split; [done|].
      intros x [[-> ->]|[_ Hj]]%Hat; [specialize (Hnx a Ha); lia|by apply Hnx].
    + split; [done|]. intros x [[_ ->]|[Hne _]]%Hat; done.
  - rewrite Ho, Hc. apply (bo_cells s Hok).
Qed.

Lemma change_evolves acts s s' i a b :
  lease_at s i = Some a -> leases s' = <[i:=Some b]> (leases s) ->
  lease_evolves acts i s s' a b ->
  (forall j, sealed s j -> sealed s' j) -> (forall j, over s j -> over s' j) ->
  (forall t, t ∈ minted (books s) -> t ∈ minted (books s')) ->
  owners (books s') = owners (books s) -> shutting_down s' = shutting_down s ->
  broker_evolves acts s s'.
Proof.
  intros Ha Hl He Hse Hov Hm Ho Hsh. pose proof (lease_at_lt _ _ _ Ha) as Hi.
  split; try done; rewrite ?Ho, ?Hsh, ?Hl, ?length_insert; try done.
  intros j o Hj. destruct (decide (j = i)) as [->|Hne].
  - exists (Some b). rewrite list_lookup_insert_eq by done. split; [done|].
    apply lease_at_lookup in Ha. rewrite Ha in Hj. by injection Hj as <-.
  - exists o. rewrite list_lookup_insert_ne by done. split; [done|apply slot_evolves_refl].
Qed.

(** A lease whose clean-up, tokens and rights stay. *)
Lemma moves_lease acts s l i a b :
  broker_ok s -> lease_at s i = Some a -> lease_evolves acts i s (put_lease i b s) a b ->
  lease_ok b -> cleanup b = cleanup a ->
  (forall t, is_Some (references b !! t) -> is_Some (references a !! t)) ->
  moves_by acts s l (put_lease i b s) l.
Proof.
  intros Hok Ha He Hb Hc Ht. pose proof (lease_at_lt _ _ _ Ha) as Hi. split; [|split].
  - eapply (change_ok s _ i a b); try done; try apply He; try apply Hok; cbn.
    + intros o Ho. split; [by eapply bo_ledger|]. intros Hacc.
      destruct (bo_closing s Hok i a o Ha Ho Hacc) as [Hst Hco]. split; [|done].
      pose proof (lv_state _ _ _ _ _ _ He) as Hle. rewrite Hst in Hle. by destruct (state b).
    + intros t Hx. left. by apply Ht.
    + intros j k Hjk. by left.
  - by eapply (change_evolves acts s _ i a b).
  - apply (balanced_same _ _ _ _ []); [| |done|by rewrite app_nil_r];
      unfold rights_issued, rights_settled; cbn.
    + rewrite (gather_same _ (leases s) i (Some a)); [done|by apply lease_at_lookup|done].
    + rewrite (gather_same _ (leases s) i (Some a)); [done|by apply lease_at_lookup|].
      unfold lease_rights. cbn. by rewrite Hc.
Qed.

(** *** What a lease may become with its clean-up and its tokens *)

Record lease_goes (acts : Right -> Prop) i a b : Prop := {
  lg_key : key b = key a;
  lg_id : lease_id b = lease_id a;
  lg_state : state_le (state a) (state b);
  lg_ready : state b = LeaseReady -> state a = LeaseReady;
  lg_next : next_session a <= next_session b;
  lg_cleanup : cleanup b = cleanup a;
  lg_failed : terminal_cleanup_failed b = true ->
    terminal_cleanup_failed a = true \/ acts (RLaunch i true);
  lg_refs t (r' : Reference) : references b !! t = Some r' -> exists r : Reference, references a !! t = Some r /\
    ref_rank (ref_state r) <= ref_rank (ref_state r') /\
    slot_grows (next_session a) (session_slot r) (session_slot r');
  lg_sessions k : is_Some (sessions b !! k) -> is_Some (sessions a !! k) \/ acts (RSlot (i, k));
  lg_ok : lease_ok a -> lease_ok b
}.

Lemma goes_refl acts i a : lease_goes acts i a a.
Proof.
  split; try done; try (by left).
  - by destruct (state a).
  - intros t r Hr. exists r. split_and!; [done..|by left].
Qed.
Lemma goes_trans acts i a b c : lease_goes acts i a b -> lease_goes acts i b c -> lease_goes acts i a c.
Proof.
  intros Ha Hb. split.
  - by rewrite (lg_key _ _ _ _ Hb), (lg_key _ _ _ _ Ha).
  - by rewrite (lg_id _ _ _ _ Hb), (lg_id _ _ _ _ Ha).
  - eapply state_le_trans; [apply Ha|apply Hb].
  - intros Hr. by apply Ha, Hb.
  - pose proof (lg_next _ _ _ _ Ha). pose proof (lg_next _ _ _ _ Hb). lia.
  - by rewrite (lg_cleanup _ _ _ _ Hb), (lg_cleanup _ _ _ _ Ha).
  - intros Hf. destruct (lg_failed _ _ _ _ Hb Hf); [by apply Ha|by right].
  - intros t r2 Hr2. destruct (lg_refs _ _ _ _ Hb t r2 Hr2) as (r1 & Hr1 & Hle1 & Hg1).
    destruct (lg_refs _ _ _ _ Ha t r1 Hr1) as (r & Hr & Hle & Hg). exists r.
    split; [done|]. split; [lia|]. eapply slot_grows_trans; [apply Ha|done|done].
  - intros k Hk. destruct (lg_sessions _ _ _ _ Hb k Hk); [by apply Ha|by right].
  - intros Hok. by apply Hb, Ha.
Qed.

Lemma goes_evolves acts i s s' a b : lease_goes acts i a b -> lease_evolves acts i s s' a b.
Proof.
  intros Hg. split; try apply Hg.
  - intros Hp Hr. apply Hg in Hr. congruence.
  - intros r Hr. left. by rewrite <- (lg_cleanup _ _ _ _ Hg).
  - intros r. rewrite (lg_cleanup _ _ _ _ Hg). congruence.
  - intros t r' Hr'. by destruct (lg_refs _ _ _ _ Hg t r' Hr') as (r & -> & Hr).
Qed.

Lemma moves_goes acts s l i a b :
  broker_ok s -> lease_at s i = Some a -> lease_goes acts i a b ->
  moves_by acts s l (put_lease i b s) l.
Proof.
  intros Hok Ha Hg. eapply moves_lease; [done|done|by apply goes_evolves| |by apply Hg|].
  - apply Hg. by eapply bo_lease.
  - intros t [r' Hr']. destruct (lg_refs _ _ _ _ Hg t r' Hr') as (r & -> & _). by eexists.
Qed.

(** What the clean-up, the key, the references and the sessions do not depend on. *)
Record lease_same a b : Prop := {
  ls_key : key b = key a;
  ls_id : lease_id b = lease_id a;
  ls_state : state b = state a;
  ls_cleanup : cleanup b = cleanup a;
  ls_failed : terminal_cleanup_failed b = terminal_cleanup_failed a;
  ls_references : references b = references a;
  ls_sessions : sessions b = sessions a;
  ls_next : next_session b = next_session a
}.

Lemma goes_same acts i a b : lease_same a b -> lease_goes acts i a b.
Proof.
  intros [Hk Hid Hst Hc Hf Hr Hs Hn]. pose proof (goes_refl acts i a) as Ha.
  split; rewrite ?Hk, ?Hid, ?Hst, ?Hc, ?Hf, ?Hr, ?Hs, ?Hn; try apply Ha.
  intros Hok. split; rewrite ?Hst, ?Hc, ?Hf, ?Hr, ?Hs, ?Hn; apply Hok.
Qed.

Lemma goes_state acts i st a : state_le (state a) st -> (st = LeaseReady -> state a = LeaseReady) ->
  lease_goes acts i a (set_state st a).
Proof.
  intros Hle Hr. pose proof (goes_refl acts i a) as Ha. split; try apply Ha; try done.
  intros Hok. split; try apply Hok.
  - intros k x He. apply Hok. by apply Hr.
  - intros k He. cbn in He. subst st. apply Hok. by apply state_le_preparing.
  - intros r Hc. cbn in *. destruct (lo_cleanup _ Hok r Hc) as [He|He]; rewrite He in Hle;
      by destruct st; auto.
Qed.

(** The references change and keep their slots, and those of live sessions stay. *)
Lemma goes_refs (acts : Right -> Prop) i (refs : gmap bytes Reference) a :
  (forall t (r' : Reference), refs !! t = Some r' -> exists r : Reference, references a !! t = Some r /\
     ref_rank (ref_state r) <= ref_rank (ref_state r') /\ session_slot r' = session_slot r) ->
  (state a = LeaseReady -> forall t (r : Reference) k, references a !! t = Some r -> ref_state r = RefConsumed ->
     session_slot r = Some k -> is_Some (sessions a !! k) ->
     exists r' : Reference, refs !! t = Some r' /\ ref_state r' = RefConsumed) ->
  lease_goes acts i a (set_references refs a).
Proof.
  intros Hr Hl. pose proof (goes_refl acts i a) as Ha. split; try apply Ha; try done.
  - intros t r' Ht. destruct (Hr t r' Ht) as (r & Hr' & Hle & Hs). exists r.
    split_and!; [done..|by left].
  - intros Hok. split; cbn; try apply Hok.
    + intros t r' k Ht Hs. destruct (Hr t r' Ht) as (r & Hr' & _ & Hs'). apply (lo_slot a Hok t r k Hr').
      congruence.
    + intros t1 t2 r1' r2' k Ht1 Ht2 Hs1 Hs2. destruct (Hr t1 r1' Ht1) as (r1 & Hr1 & _ & Hs1').
      destruct (Hr t2 r2' Ht2) as (r2 & Hr2 & _ & Hs2').
      apply (lo_owner a Hok t1 t2 r1 r2 k Hr1 Hr2); congruence.
    + intros t r' Ht Hst. destruct (Hr t r' Ht) as (r & Hr' & Hle & Hs). rewrite Hs.
      apply (lo_unused a Hok t r Hr'). destruct Hst as [He|He]; rewrite He in Hle;
        destruct (ref_state r); cbn in Hle; auto; lia.
    + intros k x Hst Hx. destruct (lo_live a Hok k x Hst Hx) as (t & r & Ht & Hc & Hs).
      destruct (Hl Hst t r k Ht Hc Hs) as (r' & Hr' & Hc'); [by eexists|].
      exists t, r'. split_and!; [done..|]. destruct (Hr t r' Hr') as (r0 & Hr0 & _ & ->). congruence.
Qed.

(** One reference changes: an owner of a live session stays consumed. *)
Lemma goes_ref acts i t (r r' : Reference) a :
  references a !! t = Some r -> ref_rank (ref_state r) <= ref_rank (ref_state r') ->
  session_slot r' = session_slot r ->
  (state a = LeaseReady -> ref_state r = RefConsumed -> forall k, session_slot r = Some k ->
     is_Some (sessions a !! k) -> ref_state r' = RefConsumed) ->
  lease_goes acts i a (set_references (<[t:=r']> (references a)) a).
Proof.
  intros Ht Hle Hs Hl. apply goes_refs.
  - intros u x. destruct (decide (u = t)) as [->|Hn].
    + rewrite lookup_insert_eq. intros [= <-]. by exists r.
    + rewrite lookup_insert_ne by done. intros Hx. by exists x.
  - intros Hst u x k Hu Hc Hk Hx. destruct (decide (u = t)) as [->|Hn].
    + rewrite lookup_insert_eq. exists r'. split; [done|]. rewrite Ht in Hu. injection Hu as ->.
      by eapply Hl.
    + rewrite lookup_insert_ne by done. by exists x.
Qed.

Lemma goes_sessions acts i m a :
  (forall k, is_Some (m !! k) -> is_Some (sessions a !! k)) ->
  lease_goes acts i a (set_sessions m a).
Proof.
  intros Hm. pose proof (goes_refl acts i a) as Ha. split; try apply Ha; try done.
  - intros k Hk. left. by apply Hm.
  - intros Hok. split; cbn; try apply Hok.
    + intros k x Hst Hx. destruct (Hm k) as [y Hy]; [by eexists|]. by eapply (lo_live a Hok).
    + intros k Hst. destruct (m !! k) eqn:Hx; [|done]. destruct (Hm k) as [y Hy]; [by eexists|].
      by rewrite (lo_preparing a Hok) in Hy.
    + intros k x Hx. destruct (Hm k) as [y Hy]; [by eexists|]. by eapply (lo_sessions a Hok).
Qed.
Lemma goes_session acts i k x a : is_Some (sessions a !! k) ->
  lease_goes acts i a (set_sessions (<[k:=x]> (sessions a)) a).
Proof.
  intros Hk. apply goes_sessions. intros j. destruct (decide (j = k)) as [->|Hn]; [done|].
  by rewrite lookup_insert_ne.
Qed.
Lemma goes_session_end acts i k a : lease_goes acts i a (set_sessions (delete k (sessions a)) a).
Proof.
  apply goes_sessions. intros j. destruct (decide (j = k)) as [->|Hn].
  - rewrite lookup_delete_eq. by intros [].
  - by rewrite lookup_delete_ne.
Qed.
(** A session enters the slot of its reference. *)
Lemma goes_session_new (acts : Right -> Prop) i k x t (r : Reference) a : acts (RSlot (i, k)) ->
  state a = LeaseReady -> references a !! t = Some r -> ref_state r = RefConsumed -> session_slot r = Some k ->
  lease_goes acts i a (set_sessions (<[k:=x]> (sessions a)) a).
Proof.
  intros Hact Hrdy Ht Hc Hs. pose proof (goes_refl acts i a) as Ha. split; try apply Ha; try done.
  - intros j Hj. destruct (decide (j = k)) as [->|Hn]; [by right|left].
    cbn in Hj. by rewrite lookup_insert_ne in Hj.
  - intros Hok. split; cbn; try apply Hok.
    + intros j y Hst. destruct (decide (j = k)) as [->|Hn]; [by exists t, r|].
      rewrite lookup_insert_ne by done. by apply Hok.
    + intros j. congruence.
    + intros j y. destruct (decide (j = k)) as [->|Hn].
      * intros _. by eapply (lo_slot a Hok).
      * rewrite lookup_insert_ne by done. by apply Hok.
Qed.

Lemma goes_failed (acts : Right -> Prop) i a : acts (RLaunch i true) -> cleanup a = None ->
  lease_goes acts i a
    (set_terminal true (terminal_reason a) (terminal_handoff a) (lease_handoff a) a).
Proof.
  intros Hact Hc. pose proof (goes_refl acts i a) as Ha. split; try apply Ha; try done.
  - by right.
  - intros Hok. split; cbn; try apply Hok. done.
Qed.
End Moves.
