(* ===== verification/Primitives.v ===== *)
(** The changes of the broker's state that give or take rights, as moves. *)

From S2P Require Import Prelude Errors Crates Outer Records Payloads Reassembly NoiseIO Lease Bootstrap Session Control Adapter RawTransport RawReads Threads Interference Broker BrokerOps Handlers Rights Steps Moves.

Section Primitives.
Context `{Minicbor} `{Snow} `{Sha2} `{Base64} `{PlatformHost W}.
Implicit Types (s : Broker W) (l : list Right) (r : Right) (a b : Lease W) (i j n : nat).

(** A change of what no invariant speaks about but the books. *)
Definition with_books (f : Books -> Books) s : Broker W := set_books (f (books s)) s.

(** ** References and sessions *)

Lemma moves_mint acts s l i a t (x : Reference) :
  broker_ok s -> lease_at s i = Some a -> t ∉ minted (books s) -> t ∉ entropy s ->
  session_slot x = None -> 
  moves_by acts s l
    (with_books (books_mint t) (put_lease i (set_references (<[t := x]> (references a)) a) s)) l.
Proof.
  intros Hok Ha Hm He Hx. set (b := set_references _ a).
  assert (Hat : references a !! t = None).
  { destruct (references a !! t) eqn:Hr; [|done]. destruct Hm. by eapply (bo_minted s Hok). }
  pose proof (bo_lease s Hok i a Ha) as La.
  assert (Hb : lease_ok b).
  { split; cbn; try apply La.
    - intros u y k. destruct (decide (u = t)) as [->|Hn].
      + rewrite lookup_insert_eq. intros [= <-]. by rewrite Hx.
      + rewrite lookup_insert_ne by done. apply La.
    - intros u1 u2 y1 y2 k. destruct (decide (u1 = t)) as [->|Hn1].
      { rewrite lookup_insert_eq. intros [= <-] _. by rewrite Hx. }
      destruct (decide (u2 = t)) as [->|Hn2].
      { rewrite lookup_insert_eq. intros _ [= <-] _. by rewrite Hx. }
      rewrite !lookup_insert_ne by done. apply La.
    - intros u y. destruct (decide (u = t)) as [->|Hn].
      + rewrite lookup_insert_eq. by intros [= <-].
      + rewrite lookup_insert_ne by done. apply La.
    - intros k y Hst Hy. destruct (lo_live a La k y Hst Hy) as (u & z & Hu & Hz).
      exists u, z. rewrite lookup_insert_ne; [done|]. by intros ->; congruence. }
  destruct (bo_random s Hok) as (Hn1 & Hn2 & Hd). split; [|split].
  - eapply (change_ok s _ i a b); try done; cbn; try apply Hok.
    + intros o Ho. split; [by eapply bo_ledger|]. by eapply (bo_closing s Hok).
    + split_and!; [done| |].
      * apply NoDup_app. split_and!; [done|set_solver|by apply NoDup_singleton].
      * intros u Hu. rewrite elem_of_app, list_elem_of_singleton. intros [Hu'| ->]; [|done].
        by apply (Hd u).
    + set_solver.
    + intros u Hu. destruct (decide (u = t)) as [->|Hn]; [right; set_solver|left].
      by rewrite lookup_insert_ne in Hu.
    + by left.
  - eapply (change_evolves acts s _ i a b); try done; [|cbn; set_solver].
    pose proof (lease_evolves_refl acts i s
      (with_books (books_mint t) (put_lease i b s)) a) as Hev.
    split; try apply Hev. intros u y. cbn. destruct (decide (u = t)) as [->|Hn].
    + rewrite lookup_insert_eq, Hat. intros [= <-]. rewrite Hx. split; [done|by left].
    + rewrite lookup_insert_ne by done. apply Hev.
  - apply (balanced_same _ _ _ _ []); [| |done|by rewrite app_nil_r];
      unfold rights_issued, rights_settled; cbn; apply lease_at_lookup in Ha.
    + by rewrite (gather_same _ (leases s) i (Some a)).
    + by rewrite (gather_same _ (leases s) i (Some a)).
Qed.

Lemma moves_redeem acts s l i a t (x : Reference) :
  broker_ok s -> lease_at s i = Some a -> references a !! t = Some x ->
  ref_state x = RefRedeeming -> session_slot x = None ->
  let k := next_session a in
  moves_by acts s l
    (with_books (books_reserve (i, k)) (put_lease i (set_next_session (k + 1)
       (set_references (<[t := set_session_slot k x]> (references a)) a)) s)) (RSlot (i, k) :: l).
Proof.
  intros Hok Ha Hx Hst Hsl k. set (b := set_next_session _ _).
  pose proof (bo_lease s Hok i a Ha) as La. destruct (bo_reserved s Hok) as [Hrn Hres].
  assert (Hb : lease_ok b).
  { split; cbn; try apply La.
    - intros u y j. destruct (decide (u = t)) as [->|Hn].
      + rewrite lookup_insert_eq. intros [= <-] [= <-]. subst k. lia.
      + rewrite lookup_insert_ne by done. intros Hy Hj. pose proof (lo_slot a La u y j Hy Hj).
        subst k. lia.
    - intros u1 u2 y1 y2 j. destruct (decide (u1 = t)) as [->|Hn1], (decide (u2 = t)) as [->|Hn2];
        rewrite ?lookup_insert_eq, ?lookup_insert_ne by done; try done.
      + intros [= <-] Hy2 [= <-] Hj. pose proof (lo_slot a La u2 y2 k Hy2 Hj). subst k. lia.
      + intros Hy1 [= <-] Hj [= <-]. pose proof (lo_slot a La u1 y1 k Hy1 Hj). subst k. lia.
      + apply La.
    - intros u y. destruct (decide (u = t)) as [->|Hn].
      + rewrite lookup_insert_eq. intros [= <-]. cbn. rewrite Hst. by intros [|].
      + rewrite lookup_insert_ne by done. apply La.
    - intros j y Hr Hy. destruct (lo_live a La j y Hr Hy) as (u & z & Hu & Hz & Hs).
      exists u, z. rewrite lookup_insert_ne; [done|]. by intros ->; congruence.
    - intros j y Hy. pose proof (lo_sessions a La j y Hy). subst k. lia. }
  split; [|split].
  - eapply (change_ok s _ i a b); try done; cbn; try apply Hok; try lia.
    + intros o Ho. split; [by eapply bo_ledger|]. by eapply (bo_closing s Hok).
    + intros u Hu. left. destruct (decide (u = t)) as [->|Hn]; [by rewrite Hx|].
      by rewrite lookup_insert_ne in Hu.
    + apply NoDup_app. split_and!; [done| |by apply NoDup_singleton].
      intros p Hin ->%list_elem_of_singleton. destruct (Hres i k Hin) as [_ Hlt].
      specialize (Hlt a Ha). subst k. lia.
    + intros j k'. rewrite elem_of_app, list_elem_of_singleton.
      intros [Hin|[= -> ->]]; [by left|right]. split; [done|lia].
  - eapply (change_evolves acts s _ i a b); try done.
    pose proof (lease_evolves_refl acts i s
      (with_books (books_reserve (i, k)) (put_lease i b s)) a) as Hev.
    split; try apply Hev; cbn; [lia|]. intros u y. destruct (decide (u = t)) as [->|Hn].
    + rewrite lookup_insert_eq, Hx. intros [= <-]. split; [done|]. right. split; [done|].
      exists k. split; [done|]. subst k. lia.
    + rewrite lookup_insert_ne by done. apply Hev.
  - apply lease_at_lookup in Ha.
    apply (balanced_flow _ _ _ _ [] [RSlot (i, k)] [] [] []); [| |done|].
    + unfold rights_issued. cbn. rewrite fmap_app. cbn.
      rewrite (gather_same _ (leases s) i (Some a)) by done. solve_Permutation.
    + unfold rights_settled. cbn. by rewrite (gather_same _ (leases s) i (Some a)).
    + solve_Permutation.
Qed.

(** ** Ledgers *)

Lemma ledger_change_ok s i o o' :
  broker_ok s -> ledgers s !! i = Some o -> ledger_ok o' ->
  (forall a, lease_at s i = Some a -> accepting o' = false ->
     state a = LeaseClosing /\ completed o' = None) ->
  broker_ok (put_ledger i o' s).
Proof.
  intros Hok Ho Hl Hc. assert (Hi : (i < length (ledgers s))%nat) by (by eapply lookup_lt_Some).
  split; try apply Hok; cbn.
  - rewrite length_insert. apply Hok.
  - intros j x. destruct (decide (j = i)) as [->|Hn].
    + rewrite list_lookup_insert_eq by done. by intros [= <-].
    + rewrite list_lookup_insert_ne by done. apply Hok.
  - intros j a x Ha. destruct (decide (j = i)) as [->|Hn].
    + rewrite list_lookup_insert_eq by done. intros [= <-]. by apply Hc.
    + rewrite list_lookup_insert_ne by done. by eapply (bo_closing s Hok).
Qed.
Lemma ledger_change_evolves acts s i o o' :
  ledgers s !! i = Some o -> (accepting o = false -> accepting o' = false) ->
  (accepting o = false -> active_operations o = 0 -> active_operations o' = 0) ->
  broker_evolves acts s (put_ledger i o' s).
Proof.
  intros Ho Hacc Hact. assert (Hi : (i < length (ledgers s))%nat) by (by eapply lookup_lt_Some).
  split; try done; cbn.
  - intros j x Hx. exists x. split; [done|apply slot_evolves_refl].
  - intros j (x & Hx & Hs). unfold sealed. cbn. destruct (decide (j = i)) as [->|Hn].
    + rewrite list_lookup_insert_eq by done. exists o'. split; [done|]. apply Hacc. congruence.
    + rewrite list_lookup_insert_ne by done. by exists x.
  - intros j (x & Hx & Hs & Hz). unfold over. cbn. destruct (decide (j = i)) as [->|Hn].
    + rewrite list_lookup_insert_eq by done. exists o'. simplify_eq. auto.
    + rewrite list_lookup_insert_ne by done. by exists x.
Qed.
Lemma ledger_change_flow s i o o' :
  ledgers s !! i = Some o ->
  rights_issued (put_ledger i o' s) ++ ledger_rights i o ≡ₚ rights_issued s ++ ledger_rights i o' /\
  rights_settled (put_ledger i o' s) ++ ledger_done i o ≡ₚ rights_settled s ++ ledger_done i o'.
Proof.
  intros Ho. pose proof (gather_insert ledger_rights _ i o o' Ho) as H1'.
  pose proof (gather_insert ledger_done _ i o o' Ho) as H2'.
  unfold rights_issued, rights_settled. cbn. split; [clear H2'|clear H1'].
  - transitivity ((RPending <$> begun (books s)) ++ (RReceipt <$> launched (books s)) ++
      (RSlot <$> reserved (books s)) ++ gather (fun i0 _ => launch_rights i0) (leases s) ++
      (gather ledger_rights (<[i:=o']> (ledgers s)) ++ ledger_rights i o) ++
      gather (fun n _ => [RProducer n; RConsumer n]) (cells s)); [solve_Permutation|].
    rewrite H1'. solve_Permutation.
  - transitivity ((RPending <$> consumed (books s)) ++ (RReceipt <$> spent (books s)) ++
      gather (fun _ => lease_rights) (leases s) ++
      (gather ledger_done (<[i:=o']> (ledgers s)) ++ ledger_done i o) ++
      gather cell_done (cells s)); [solve_Permutation|].
    rewrite H2'. solve_Permutation.
Qed.

Lemma enter_inv (c : Cancellation) (o o' : OperationState Cancellation) id : ledger_ok o -> enter c o = (Ok id, o') ->
  accepting o = true /\ id = next_id o /\ cancellations o !! id = None /\ ledger_ok o' /\
  o' = mkOperations true (active_operations o + 1) (completed o) (next_id o + 1)
         (<[id := c]> (cancellations o)).
Proof.
  intros Ho. unfold enter. destruct (accepting o) eqn:Ha; [cbn|done].
  destruct (checked_add (next_id o) 1) as [n|] eqn:Hn; [|done]. intros [= <- <-].
  apply checked_add_some in Hn as [-> _].
  assert (Hf : cancellations o !! next_id o = None).
  { destruct (cancellations o !! next_id o) eqn:Hc; [|done].
    pose proof (le_ids o Ho (next_id o) (mk_is_Some _ _ Hc)). lia. }
  split_and!; try done. split; cbn.
  - rewrite map_size_insert_None by done. rewrite (le_active o Ho). lia.
  - intros id. destruct (decide (id = next_id o)) as [->|Hne]; [lia|].
    rewrite lookup_insert_ne by done. intros Hid. pose proof (le_ids o Ho id Hid). lia.
  - intros r Hr. pose proof (le_completed o Ho r Hr). congruence.
Qed.

Lemma moves_enter acts s l i o o' (c : Cancellation) id :
  broker_ok s -> ledgers s !! i = Some o -> enter c o = (Ok id, o') ->
  moves_by acts s l (put_ledger i o' s) (RGuard (i, id) :: l).
Proof.
  intros Hok Ho He. destruct (enter_inv c o o' id (bo_ledger s Hok i o Ho) He) as
    (Ha & -> & Hn & Hl & ->). split; [|split].
  - eapply ledger_change_ok; [done|done|done|]. by intros a _.
  - eapply ledger_change_evolves; [done|cbn; congruence|congruence].
  - destruct (ledger_change_flow s i o (mkOperations true (active_operations o + 1) (completed o)
      (next_id o + 1) (<[next_id o := c]> (cancellations o))) Ho) as [Fi Fs].
    eapply (balanced_flow _ _ _ _ []); [exact Fi|exact Fs|done|].
    unfold ledger_rights, ledger_done. cbn. rewrite Ha, map_to_list_insert by done. cbn.
    solve_Permutation.
Qed.

Lemma moves_leave acts s l g o o' :
  broker_ok s -> ledgers s !! fst g = Some o -> is_Some (cancellations o !! snd g) ->
  leave (snd g) o = Some o' ->
  moves_by acts s (RGuard g :: l) (put_ledger (fst g) o' s) l.
Proof.
  intros Hok Ho [c Hc]. pose proof (bo_ledger s Hok _ o Ho) as Lo. unfold leave.
  destruct (Z.leb_spec (active_operations o) 0) as [Hle|Hlt]; [done|]. intros [= <-].
  split; [|split].
  - eapply ledger_change_ok; [done|done| |].
    + split; cbn; [|intros id|apply Lo].
      * rewrite map_size_delete_Some by (by eexists). pose proof (le_active o Lo).
        assert (size (cancellations o) <> 0%nat); lia.
      * destruct (decide (id = snd g)) as [->|Hn]; [rewrite lookup_delete_eq; by intros []|].
        rewrite lookup_delete_ne by done. apply Lo.
    + intros a Ha. by apply (bo_closing s Hok (fst g) a o).
  - eapply ledger_change_evolves; [done|done|cbn; lia].
  - destruct (ledger_change_flow s (fst g) o (mkOperations (accepting o) (active_operations o - 1)
      (completed o) (next_id o) (delete (snd g) (cancellations o))) Ho) as [Fi Fs].
    eapply (balanced_flow _ _ _ _ []); [exact Fi|exact Fs|done|].
    unfold ledger_rights, ledger_done. cbn.
    rewrite <- (map_to_list_delete (cancellations o) (snd g) c Hc). cbn.
    replace (fst g, snd g) with g by (by destruct g). solve_Permutation.
Qed.

Lemma guard_active s g : broker_ok s -> RGuard g ∈ rights_issued s ->
  exists o, ledgers s !! fst g = Some o /\ is_Some (cancellations o !! snd g) /\
            0 < active_operations o.
Proof.
  intros Hok Hg. destruct (issued_guard s g Hg) as (o & Ho & Hc). exists o. split_and!; [done..|].
  rewrite (le_active o (bo_ledger s Hok _ o Ho)). destruct Hc as [c Hc].
  assert (size (cancellations o) <> 0%nat); [|lia]. intros He%map_size_empty_inv.
  by rewrite He in Hc.
Qed.

(** ** The end of a lease *)

Lemma moves_seal acts s l i a b o :
  broker_ok s -> lease_at s i = Some a -> ledgers s !! i = Some o -> accepting o = true ->
  lease_goes acts i a b -> state b = LeaseClosing ->
  moves_by acts s l (put_lease i b (put_ledger i (snd (begin_close o)) s)) (RCloser i :: l).
Proof.
  intros Hok Ha Ho Hacc Hg Hst. pose proof (bo_ledger s Hok i o Ho) as Lo.
  assert (Hi : (i < length (ledgers s))%nat) by (by eapply lookup_lt_Some).
  unfold begin_close. rewrite Hacc. cbn [negb snd]. set (o' := mkOperations false _ _ _ _).
  assert (Hc : completed o = None).
  { destruct (completed o) as [x|] eqn:Hx; [|done]. pose proof (le_completed o Lo x Hx). congruence. }
  assert (Hsame : forall j, j <> i -> ledgers (put_ledger i o' s) !! j = ledgers s !! j).
  { intros j Hj. cbn. by rewrite list_lookup_insert_ne. }
  split; [|split].
  - eapply (change_ok s _ i a b); try done; try apply Hg; try apply Hok; cbn.
    + by rewrite length_insert.
    + intros j x Hx Hn. by rewrite list_lookup_insert_ne in Hx.
    + intros x. rewrite list_lookup_insert_eq by done. intros [= <-]. split; [|done].
      split; cbn; [apply Lo|apply Lo|done].
    + by eapply bo_lease.
    + intros t [x Hx]. left. by destruct (lg_refs _ _ _ _ Hg t x Hx) as (y & -> & _).
    + by left.
  - eapply (change_evolves acts s _ i a b); try done; [by apply goes_evolves| |].
    + intros j (x & Hx & Hs). assert (j <> i) by congruence. unfold sealed. cbn.
      rewrite list_lookup_insert_ne by done. by exists x.
    + intros j (x & Hx & Hs & Hz). assert (j <> i) by congruence. unfold over. cbn.
      rewrite list_lookup_insert_ne by done. by exists x.
  - destruct (ledger_change_flow s i o o' Ho) as [Fi Fs]. apply lease_at_lookup in Ha.
    assert (Fi' : rights_issued (put_lease i b (put_ledger i o' s)) = rights_issued (put_ledger i o' s)).
    { unfold rights_issued. cbn. by rewrite (gather_same _ (leases s) i (Some a)). }
    assert (Fs' : rights_settled (put_lease i b (put_ledger i o' s)) = rights_settled (put_ledger i o' s)).
    { unfold rights_settled. cbn. rewrite (gather_same _ (leases s) i (Some a)); [done..|].
      unfold lease_rights. cbn. by rewrite (lg_cleanup _ _ _ _ Hg). }
    eapply (balanced_flow _ _ _ _ []); [rewrite Fi'; exact Fi|rewrite Fs'; exact Fs|done|].
    unfold ledger_rights, ledger_done. cbn. rewrite Hacc, Hc. cbn. solve_Permutation.
Qed.

Definition receipt_right (o : option CleanupReceipt) : list Right :=
  match o with Some r => [RReceipt r] | None => [] end.
Lemma lease_rights_some a : lease_rights (Some a) = receipt_right (cleanup a).
Proof. unfold lease_rights. cbn. by destruct (cleanup a). Qed.

(** A lease is changed for one with another receipt, or vacated. *)
Lemma lease_change_flow s i a (o : option (Lease W)) s' : lease_at s i = Some a ->
  s' = set_leases (<[i:=o]> (leases s)) s ->
  rights_issued s' = rights_issued s /\
  rights_settled s' ++ lease_rights (Some a) ≡ₚ rights_settled s ++ lease_rights o.
Proof.
  intros Ha%lease_at_lookup ->. unfold rights_issued, rights_settled. cbn. split.
  - by rewrite (gather_same _ (leases s) i (Some a)).
  - pose proof (gather_insert (fun _ => lease_rights) _ i (Some a) o Ha) as Hg.
    transitivity ((RPending <$> consumed (books s)) ++ (RReceipt <$> spent (books s)) ++
      (gather (fun _ => lease_rights) (<[i:=o]> (leases s)) ++ lease_rights (Some a)) ++
      gather ledger_done (ledgers s) ++ gather cell_done (cells s)); [solve_Permutation|].
    rewrite Hg. solve_Permutation.
Qed.

Lemma moves_take acts s l i a :
  broker_ok s -> lease_at s i = Some a -> over s i ->
  moves_by acts s l (put_lease i (take_terminal a) s) (receipt_right (cleanup a) ++ l).
Proof.
  intros Hok Ha Hov. pose proof (bo_lease s Hok i a Ha) as La. split; [|split].
  - eapply (change_ok s _ i a (take_terminal a)); try done; cbn; try apply Hok; try lia.
    + intros o Ho. split; [by eapply bo_ledger|]. by eapply (bo_closing s Hok).
    + split; cbn; try apply La; done.
    + by left.
    + by left.
  - eapply (change_evolves acts s _ i a (take_terminal a)); try done.
    pose proof (lease_evolves_refl acts i s (put_lease i (take_terminal a) s) a) as Hev.
    by split; try apply Hev.
  - destruct (lease_change_flow s i a (Some (take_terminal a)) _ Ha eq_refl) as [Fi Fs].
    apply (balanced_flow _ _ _ _ [] [] [] (lease_rights (Some (take_terminal a))) (lease_rights (Some a)));
      [unfold put_lease; by rewrite Fi|exact Fs|done|].
    rewrite lease_rights_some. solve_Permutation.
Qed.

Lemma moves_vacate (acts : Right -> Prop) s l i a :
  broker_ok s -> lease_at s i = Some a -> cleanup a = None ->
  (state a = LeaseClosing -> acts (RCloser i)) ->
  moves_by acts s l (vacate i s) l.
Proof.
  intros Hok Ha Hc Hst. pose proof (lease_at_lt _ _ _ Ha) as Hi.
  assert (Hat : forall j x, lease_at (vacate i s) j = Some x -> lease_at s j = Some x).
  { intros j x. rewrite (lease_at_insert s (vacate i s) i None j Hi eq_refl).
    by destruct (decide (j = i)). }
  split; [|split].
  - split; try apply Hok; cbn.
    + rewrite length_insert. apply Hok.
    + intros j x Hx%Hat. by eapply bo_lease.
    + intros j x o Hx%Hat. by eapply (bo_closing s Hok).
    + intros j1 j2 x1 x2 Hx1%Hat Hx2%Hat. by eapply (bo_one s Hok).
    + intros j x t Hx%Hat. by eapply (bo_minted s Hok).
    + intros j1 j2 x1 x2 t Hx1%Hat Hx2%Hat. by eapply (bo_tokens s Hok).
    + split; [apply Hok|]. intros j k Hjk. rewrite length_insert.
      destruct (proj2 (bo_reserved s Hok) j k Hjk) as [? Hlt]. split; [done|].
      intros x Hx%Hat. by apply Hlt.
  - split; try done; cbn; rewrite ?length_insert; try done. intros j o Ho.
    destruct (decide (j = i)) as [->|Hn].
    + exists None. rewrite list_lookup_insert_eq by done. split; [done|].
      apply lease_at_lookup in Ha. rewrite Ha in Ho. injection Ho as <-. cbn. split; [done|by left].
    + exists o. rewrite list_lookup_insert_ne by done. split; [done|apply slot_evolves_refl].
  - destruct (lease_change_flow s i a None _ Ha eq_refl) as [Fi Fs].
    apply (balanced_flow _ _ _ _ [] [] [] (lease_rights None) (lease_rights (Some a)));
      [unfold vacate; by rewrite Fi|exact Fs|done|].
    rewrite lease_rights_some, Hc. solve_Permutation.
Qed.

Lemma moves_finish acts s l i o x :
  broker_ok s -> ledgers s !! i = Some o -> accepting o = false -> completed o = None ->
  lease_at s i = None ->
  moves_by acts s (RCloser i :: l) (put_ledger i (finish_close x o) s) l.
Proof.
  intros Hok Ho Hacc Hc Hn. pose proof (bo_ledger s Hok i o Ho) as Lo. split; [|split].
  - eapply ledger_change_ok; [done|done| |congruence]. split; cbn; [apply Lo|apply Lo|done].
  - by eapply ledger_change_evolves.
  - destruct (ledger_change_flow s i o (finish_close x o) Ho) as [Fi Fs].
    eapply (balanced_flow _ _ _ _ []); [exact Fi|exact Fs|done|].
    unfold ledger_rights, ledger_done. cbn. rewrite Hacc, Hc. cbn. solve_Permutation.
Qed.

(** ** Launches *)

Lemma moves_commit (acts : Right -> Prop) s l i a b t (x y : Reference) (r : CleanupReceipt) :
  broker_ok s -> lease_at s i = Some a -> state a = LeasePreparing ->
  terminal_cleanup_failed a = false -> acts (RLaunch i true) -> acts (RLaunch i false) ->
  references a !! t = Some x -> ref_state x = RefPending ->
  key b = key a -> lease_id b = lease_id a -> state b = LeaseReady -> cleanup b = Some r ->
  sessions b = sessions a -> next_session b = next_session a ->
  terminal_cleanup_failed b = terminal_cleanup_failed a ->
  references b = <[t := y]> (references a) -> ref_state y = RefMinted ->
  session_slot y = session_slot x ->
  moves_by acts s (RReceipt r :: l) (put_lease i b s) l.
Proof.
  intros Hok Ha Hst Hf Ht Hfl Hx Hxs Hk Hid Hstb Hc Hse Hn Hfb Hr Hy Hys.
  pose proof (bo_lease s Hok i a Ha) as La. pose proof (lo_unused a La t x Hx (or_introl Hxs)) as Hsl.
  assert (Hca : cleanup a = None).
  { destruct (cleanup a) as [z|] eqn:Hz; [|done]. destruct (lo_cleanup a La z Hz); congruence. }
  split; [|split].
  - eapply (change_ok s _ i a b); try done; cbn; try apply Hok; try lia.
    + intros o Ho. split; [by eapply bo_ledger|]. intros Hacc.
      destruct (bo_closing s Hok i a o Ha Ho Hacc). congruence.
    + split; rewrite ?Hr, ?Hse, ?Hn; try apply La.
      * intros u z k. destruct (decide (u = t)) as [->|Hne].
        { rewrite lookup_insert_eq. intros [= <-]. congruence. }
        rewrite lookup_insert_ne by done. apply La.
      * intros u1 u2 z1 z2 k. destruct (decide (u1 = t)) as [->|Hn1].
        { rewrite lookup_insert_eq. intros [= <-] _. congruence. }
        destruct (decide (u2 = t)) as [->|Hn2].
        { rewrite lookup_insert_eq. intros _ [= <-] _. congruence. }
        rewrite !lookup_insert_ne by done. apply La.
      * intros u z. destruct (decide (u = t)) as [->|Hne].
        { rewrite lookup_insert_eq. intros [= <-]. congruence. }
        rewrite lookup_insert_ne by done. apply La.
      * intros k z _. by rewrite (lo_preparing a La).
      * intros k. congruence.
      * intros z _. by left.
      * congruence.
    + intros u Hu. left. rewrite Hr in Hu. destruct (decide (u = t)) as [->|Hne]; [by rewrite Hx|].
      by rewrite lookup_insert_ne in Hu.
    + by left.
  - eapply (change_evolves acts s _ i a b); try done. split; try done; rewrite ?Hn, ?Hse; try done.
    + by rewrite Hst.
    + intros z _. by right.
    + by rewrite Hca.
    + congruence.
    + intros u z. rewrite Hr. destruct (decide (u = t)) as [->|Hne].
      * rewrite lookup_insert_eq, Hx. intros [= <-]. rewrite Hys, Hxs, Hy. split; [done|by left].
      * rewrite lookup_insert_ne by done. intros ->. split; [done|by left].
    + by left.
  - destruct (lease_change_flow s i a (Some b) _ Ha eq_refl) as [Fi Fs].
    apply (balanced_flow _ _ _ _ [] [] [] (lease_rights (Some b)) (lease_rights (Some a)));
      [unfold put_lease; by rewrite Fi|exact Fs|done|].
    rewrite !lease_rights_some, Hc, Hca. solve_Permutation.
Qed.

Lemma moves_push acts s l t k id started deadline :
  broker_ok s -> shutting_down s = false -> t ∉ minted (books s) -> t ∉ entropy s ->
  (forall i a, lease_at s i = Some a -> key_selection (key a) <> key_selection k) ->
  moves_by acts s l
    (with_books (books_mint t) (push_lease (preparing_lease k id t started deadline) s))
    (launch_rights (length (leases s)) ++ l).
Proof.
  intros Hok Hsh Hm He Hone. set (a := preparing_lease k id t started deadline).
  set (s' := with_books _ _). pose proof (bo_length s Hok) as Hlen.
  assert (Hat : forall j x, lease_at s' j = Some x ->
            (j = length (leases s) /\ x = a) \/ lease_at s j = Some x).
  { intros j x. unfold lease_at. subst s'. cbn. destruct (decide (j < length (leases s))%nat).
    - rewrite lookup_app_l by done. by right.
    - rewrite lookup_app_r by lia. intros Hx. left.
      destruct (j - length (leases s))%nat as [|m] eqn:Hj; cbn in Hx; [|done].
      injection Hx as <-. split; [lia|done]. }
  assert (La : lease_ok a).
  { split; cbn; try done.
    - intros u x j [-> <-]%lookup_singleton_Some. done.
    - intros u1 u2 x1 x2 j [-> <-]%lookup_singleton_Some. done.
    - by intros u x [-> <-]%lookup_singleton_Some. }
  assert (Hnew : forall u, is_Some (references a !! u) -> u = t).
  { intros u [x Hx]. cbn in Hx. by apply lookup_singleton_Some in Hx as [-> _]. }
  destruct (bo_random s Hok) as (Hn1 & Hn2 & Hd). split; [|split].
  - split.
    + subst s'. cbn. rewrite !length_app. cbn. lia.
    + subst s'. cbn. intros j o [Hj|(Hj & Ho)]%lookup_app_Some; [by eapply bo_ledger|].
      apply list_lookup_singleton_Some in Ho as [_ <-]. split; cbn; try done. intros id0 [? [=]].
    + intros j x [[-> ->]|Hx]%Hat; [done|by eapply bo_lease].
    + subst s'. cbn. intros j x o Hx Ho Hacc. apply lookup_app_Some in Ho as [Ho|(Hj & Ho)].
      * apply Hat in Hx as [[-> ->]|Hx]; [|by eapply (bo_closing s Hok)].
        apply lookup_lt_Some in Ho. lia.
      * apply list_lookup_singleton_Some in Ho as [_ <-]. done.
    + intros j1 j2 x1 x2 [[-> ->]|Hx1]%Hat [[-> ->]|Hx2]%Hat Hk; try done.
      * exfalso. by apply (Hone j2 x2).
      * exfalso. by apply (Hone j1 x1).
      * by eapply (bo_one s Hok).
    + subst s'. cbn. split_and!; [done| |].
      * apply NoDup_app. split_and!; [done|set_solver|by apply NoDup_singleton].
      * intros u Hu. rewrite elem_of_app, list_elem_of_singleton. intros [Hu'| ->]; [|done].
        by apply (Hd u).
    + intros j x u [[-> ->]|Hx]%Hat Hu; subst s'; cbn; [apply Hnew in Hu as ->; set_solver|].
      apply elem_of_app. left. by eapply (bo_minted s Hok).
    + intros j1 j2 x1 x2 u [[-> ->]|Hx1]%Hat [[-> ->]|Hx2]%Hat Hu1 Hu2; try done.
      * apply Hnew in Hu1 as ->. destruct Hm. by eapply (bo_minted s Hok).
      * apply Hnew in Hu2 as ->. destruct Hm. by eapply (bo_minted s Hok).
      * by eapply (bo_tokens s Hok).
    + split; [apply Hok|]. intros j n Hjn. destruct (proj2 (bo_reserved s Hok) j n Hjn) as [Hj Hlt].
      subst s'. cbn. rewrite length_app. cbn. split; [lia|].
      intros x [[-> ->]|Hx]%Hat; [lia|by apply Hlt].
    + apply Hok.
  - split; subst s'; cbn; try congruence.
    + intros j o Hj. exists o. rewrite lookup_app_l by (by eapply lookup_lt_Some).
      split; [done|apply slot_evolves_refl].
    + intros j (o & Ho & Hs). exists o. cbn. by rewrite lookup_app_l by (by eapply lookup_lt_Some).
    + intros j (o & Ho & Hs). exists o. cbn. by rewrite lookup_app_l by (by eapply lookup_lt_Some).
    + set_solver.
  - apply (balanced_flow _ _ _ _ [] (launch_rights (length (leases s))) [] [] []); [| |done|].
    + subst s'. unfold rights_issued. cbn. rewrite !gather_app. cbn. rewrite app_nil_r.
      unfold ledger_rights at 2. cbn. rewrite map_to_list_empty. cbn. solve_Permutation.
    + subst s'. unfold rights_settled. cbn. rewrite !gather_app. cbn. by rewrite !app_nil_r.
    + solve_Permutation.
Qed.

(** ** Books and cells *)

Lemma moves_books acts s l l' f gi gs :
  broker_ok s -> reserved (f (books s)) = reserved (books s) ->
  minted (f (books s)) = minted (books s) -> owners (f (books s)) = owners (books s) ->
  (RPending <$> begun (f (books s))) ++ (RReceipt <$> launched (f (books s))) ≡ₚ
    (RPending <$> begun (books s)) ++ (RReceipt <$> launched (books s)) ++ gi ->
  (RPending <$> consumed (f (books s))) ++ (RReceipt <$> spent (f (books s))) ≡ₚ
    (RPending <$> consumed (books s)) ++ (RReceipt <$> spent (books s)) ++ gs ->
  l ++ gi ≡ₚ l' ++ gs ->
  moves_by acts s l (with_books f s) l'.
Proof.
  intros Hok Hr Hm Ho Hi Hs Hl. split; [|split].
  - split; cbn; rewrite ?Hr, ?Hm, ?Ho; apply Hok.
  - split; cbn; rewrite ?Hm, ?Ho; try done. intros i o Hi'. exists o.
    split; [done|apply slot_evolves_refl].
  - apply (balanced_flow _ _ _ _ [] gi [] gs []); [| |done|].
    + unfold rights_issued. cbn. rewrite Hr.
      rewrite (app_assoc (RPending <$> begun (f (books s)))), Hi. solve_Permutation.
    + unfold rights_settled. cbn.
      rewrite (app_assoc (RPending <$> consumed (f (books s)))), Hs. solve_Permutation.
    + cbn. rewrite ?app_nil_r. done.
Qed.

Lemma moves_begin acts s l p : broker_ok s ->
  moves_by acts s l (with_books (books_begin p) s) (RPending p :: l).
Proof.
  intros Hok. apply (moves_books _ _ _ _ _ [RPending p] []); try done; cbn.
  - rewrite fmap_app. cbn. solve_Permutation.
  - by rewrite app_nil_r.
  - solve_Permutation.
Qed.
Lemma moves_consume acts s l p (rs : list CleanupReceipt) : broker_ok s ->
  moves_by acts s (RPending p :: l) (with_books (books_consume p rs) s) ((RReceipt <$> rs) ++ l).
Proof.
  intros Hok. apply (moves_books _ _ _ _ _ (RReceipt <$> rs) [RPending p]); try done; cbn.
  - by rewrite fmap_app.
  - rewrite fmap_app. cbn. solve_Permutation.
  - solve_Permutation.
Qed.
Lemma moves_spend acts s l (r : CleanupReceipt) : broker_ok s ->
  moves_by acts s (RReceipt r :: l) (with_books (books_spend r) s) l.
Proof.
  intros Hok. apply (moves_books _ _ _ _ _ [] [RReceipt r]); try done; cbn.
  - by rewrite app_nil_r.
  - by rewrite fmap_app.
  - solve_Permutation.
Qed.

Lemma moves_cell_new acts s l i : broker_ok s ->
  moves_by acts s l (with_books (books_own i) (set_cells (cells s ++ [CellProducing]) s))
    (RProducer (length (cells s)) :: RConsumer (length (cells s)) :: l).
Proof.
  intros Hok. destruct (bo_cells s Hok) as [Hlen Hc]. split; [|split].
  - split; try apply Hok; cbn. rewrite !length_app. cbn. split; [lia|].
    intros n p [Hn|(_ & [_ [=]]%list_lookup_singleton_Some)]%lookup_app_Some.
    rewrite lookup_app_l; [by apply Hc|]. rewrite Hlen. by eapply lookup_lt_Some.
  - split; try done; cbn.
    + intros j o Hj. exists o. split; [done|apply slot_evolves_refl].
    + intros n j Hn. by apply lookup_app_l_Some.
  - eapply (balanced_flow _ _ _ _ [] [RProducer _; RConsumer _] [] [] []); [| |done|].
    + unfold rights_issued. cbn. rewrite gather_app. solve_Permutation.
    + unfold rights_settled. cbn. rewrite gather_app. cbn. by rewrite !app_nil_r.
    + solve_Permutation.
Qed.

Lemma moves_cell acts s l l' n c c' :
  broker_ok s -> cells s !! n = Some c ->
  (forall p, c' = CellReady (Ok p) -> owners (books s) !! n = Some (fst (operation p))) ->
  l ++ cell_done n c ≡ₚ l' ++ cell_done n c' -> moves_by acts s l (set_cell n c' s) l'.
Proof.
  intros Hok Hn Hc Hl. destruct (bo_cells s Hok) as [Hlen Hcs]. split; [|split].
  - split; try apply Hok; cbn. rewrite length_insert. split; [done|].
    intros m p. destruct (decide (m = n)) as [->|Hne].
    + rewrite list_lookup_insert_eq by (by eapply lookup_lt_Some). intros [= ->]. by apply Hc.
    + rewrite list_lookup_insert_ne by done. apply Hcs.
  - split; try done; cbn. intros j o Hj. exists o. split; [done|apply slot_evolves_refl].
  - pose proof (gather_insert cell_done _ n c c' Hn) as Hg.
    apply (balanced_flow _ _ _ _ [] [] [] (cell_done n c') (cell_done n c)); [| |done|].
    + unfold rights_issued. cbn.
      by rewrite (gather_same (fun n _ => [RProducer n; RConsumer n]) (cells s) n c).
    + unfold rights_settled. cbn.
      transitivity ((RPending <$> consumed (books s)) ++ (RReceipt <$> spent (books s)) ++
        gather (fun _ => lease_rights) (leases s) ++ gather ledger_done (ledgers s) ++
        (gather cell_done (<[n:=c']> (cells s)) ++ cell_done n c)); [solve_Permutation|].
      rewrite Hg. solve_Permutation.
    + rewrite Hl. solve_Permutation.
Qed.

(** ** Admission and pruning *)

Lemma moves_shut acts s l : broker_ok s -> moves_by acts s l (set_shutting_down s) l.
Proof.
  intros Hok. split; [|split].
  - split; apply Hok.
  - split; try done. intros j o Hj. exists o. split; [done|apply slot_evolves_refl].
  - by apply (balanced_same _ _ _ _ []); [| |done|by rewrite app_nil_r].
Qed.
End Primitives.
