(* ===== verification/Triples.v ===== *)
(** What the sections of the broker do, as rules of their primitives: the moves made so far are
    carried along. *)

From S2P Require Import Prelude Errors Crates Outer Records Payloads Reassembly NoiseIO Lease Bootstrap Session Control Adapter RawTransport RawReads Threads Interference Broker BrokerOps Handlers Rights Steps Moves Primitives.

(** The clock is past the epoch, and far from the last instant of the protocol. *)
Class LongClock (W : Type) `{PlatformIo W} : Prop :=
  long_clock : forall w : W, exists n, fst (system_ms w) = Some n /\ n + 1000000 <= MAX_SAFE.

Definition in_time (n : Z) : Prop := 0 <= n /\ n + 1000000 <= MAX_SAFE.

Section Triples.
Context `{Minicbor} `{Snow} `{Sha2} `{Base64} `{PlatformHost W} `{!LongClock W}.
Implicit Types (s : Broker W) (l : list Right) (i j : nat).

(** ** The clock and the platform *)

Lemma now_spec s : exists n x, now s = (Ok n, set_bio x s) /\ in_time n.
Proof.
  destruct (long_clock (world (bio s))) as (n & Hn & Hlt).
  pose proof (system_ms_unsigned _ _ Hn) as Hge. unfold now, now_unix_ms.
  destruct (system_ms (world (bio s))) as [o w]. cbn in Hn. subst o.
  replace (n <=? U64_MAX) with true by (symmetry; apply Z.leb_le; unfold U64_MAX, MAX_SAFE in *; lia).
  by eexists _, _.
Qed.

Lemma cleanup_deadline_spec s : exists d x, cleanup_absolute_deadline s = (Ok d, set_bio x s).
Proof.
  destruct (now_spec s) as (n & x & Hn & Hge & Hlt). unfold cleanup_absolute_deadline.
  rewrite (mbind_M_step _ _ _ _ _ Hn). unfold of_res, abs, saturating_add, BROKER_CLEANUP_MS.
  assert (Hd : 1 <= Z.min (Z.min (n + 2000) U64_MAX) MAX_SAFE <= MAX_SAFE)
    by (unfold U64_MAX, MAX_SAFE in *; lia).
  destruct (Z.leb_spec 1 (Z.min (Z.min (n + 2000) U64_MAX) MAX_SAFE)); [|lia].
  destruct (Z.leb_spec (Z.min (Z.min (n + 2000) U64_MAX) MAX_SAFE) MAX_SAFE); [|lia]. cbn.
  unfold AbsoluteDeadline_new.
  destruct (Z.eqb_spec (Z.min (Z.min (n + 2000) U64_MAX) MAX_SAFE) 0); [lia|]. cbn.
  by eexists _, _.
Qed.

Lemma tombstone_spec n : in_time n -> session_tombstone_expires n = Ok (n + SESSION_IDLE_MS).
Proof.
  intros [Hge Hlt]. unfold session_tombstone_expires.
  assert (Hc : checked_add n SESSION_IDLE_MS = Some (n + SESSION_IDLE_MS)).
  { apply checked_add_some. unfold U64_MAX, MAX_SAFE, SESSION_IDLE_MS in *. split; [done|lia]. }
  rewrite Hc. destruct (Z.leb_spec (n + SESSION_IDLE_MS) MAX_SAFE) as [|Hc']; [done|].
  unfold SESSION_IDLE_MS in *. lia.
Qed.

(** ** The moves of a section, carried along

    The section began at [s0] with the rights [l0]. *)
Section Carried.
Context (acts : Right -> Prop) (s0 : Broker W) (l0 : list Right).
Context (Hi : broker_ok s0) (Hh : holds s0 l0).
Local Abbreviation reached := (moves_by acts s0 l0).

Lemma reached_then s l s' l' : reached s l -> (broker_ok s -> moves_by acts s l s' l') -> reached s' l'.
Proof. intros Hm Hn. eapply moves_by_trans; [done|done|]. apply Hn, Hm. Qed.
Lemma reached_holds s l : reached s l -> holds s l.
Proof. intros (_ & _ & Hb). by eapply balanced_holds. Qed.
Lemma reached_quiet s l s' : reached s l -> quiet s s' -> reached s' l.
Proof. intros Hm Hq. eapply reached_then; [done|]. intros. by apply moves_quiet. Qed.

Lemma quiet_bio x s : quiet s (set_bio x s).
Proof. split; try done. by exists []. Qed.

Context {E : Type}.
Implicit Types (X : Stop E -> Broker W -> Prop).

Lemma post_get s (Q : Broker W -> Broker W -> Prop) X : Q s s -> post get s Q X.
Proof. done. Qed.
Lemma post_on_bio {A} (f : Io (W:=W) -> A * Io (W:=W)) s l (Q : A -> Broker W -> Prop) X :
  reached s l -> (forall v x, reached (set_bio x s) l -> Q v (set_bio x s)) ->
  post (on_bio f) s Q X.
Proof.
  intros Hm Hq. unfold post, on_bio. destruct (f (bio s)) as [v x]. apply Hq.
  eapply reached_quiet; [done|apply quiet_bio].
Qed.
Lemma post_on_world {A} (f : W -> A * W) s l (Q : A -> Broker W -> Prop) X :
  reached s l -> (forall v x, reached (set_bio x s) l -> Q v (set_bio x s)) ->
  post (on_world f) s Q X.
Proof.
  intros Hm Hq. unfold post, on_world. destruct (f (world (bio s))) as [v w]. apply Hq.
  eapply reached_quiet; [done|apply quiet_bio].
Qed.
Lemma post_conn_call {C A} rd (c : C) (m : M (Conn W C) TransportFailure A) s l
    (Q : TRes A * RawFrameReader * C -> Broker W -> Prop) X :
  reached s l -> (forall v x, reached (set_bio x s) l -> Q v (set_bio x s)) ->
  post (conn_call rd c m) s Q X.
Proof.
  intros Hm Hq. unfold post, conn_call. destruct (m _) as [v x]. apply Hq.
  eapply reached_quiet; [done|apply quiet_bio].
Qed.
Lemma post_modify f s (Q : unit -> Broker W -> Prop) X : Q tt (f s) -> post (modify f) s Q X.
Proof. done. Qed.

(** *** Ledgers *)

Lemma post_leave g s l (Q : unit -> Broker W -> Prop) X :
  reached s (RGuard g :: l) ->
  (forall o', reached (put_ledger (fst g) o' s) l -> Q tt (put_ledger (fst g) o' s)) ->
  post (leave_operation g) s Q X.
Proof.
  intros Hm Hq. pose proof (reached_holds _ _ Hm) as Hho.
  destruct (guard_active s g (proj1 Hm)) as (o & Ho & Hc & Hact).
  { eapply right_issued; [done|by left]. }
  unfold leave_operation, ledger_at. unfold post, mbind_M, get. rewrite Ho. cbn.
  unfold leave at 1. destruct (Z.leb_spec (active_operations o) 0) as [|_]; [lia|]. cbn.
  apply Hq. eapply reached_then; [done|]. intros Hok.
  eapply moves_leave; [done|done|done|]. unfold leave.
  by destruct (Z.leb_spec (active_operations o) 0); [lia|].
Qed.

Lemma ledger_at_spec s i o : ledgers s !! i = Some o -> ledger_at (E:=E) i s = (Ok o, s).
Proof. intros Ho. unfold ledger_at, mbind_M, get. by rewrite Ho. Qed.

(** *** Launches and clean-ups *)

Lemma post_spend (receipt : CleanupReceipt) d s l (Q : TRes unit -> Broker W -> Prop) X :
  reached s (RReceipt receipt :: l) ->
  (forall v x, reached (with_books (books_spend receipt) (set_bio x s)) l ->
     Q v (with_books (books_spend receipt) (set_bio x s))) ->
  post (run_cleanup receipt d) s Q X.
Proof.
  intros Hm Hq. unfold post, run_cleanup. destruct (io_cancellation (bio s)) as [c x].
  destruct (io_cleanup receipt c d x) as [v x']. apply Hq.
  eapply reached_then; [eapply reached_quiet; [done|apply quiet_bio]|].
  intros Hok. by apply moves_spend.
Qed.
End Carried.

(** ** Sections that fail as requests do *)

Section Failing.
Context (acts : Right -> Prop) (s0 : Broker W) (l0 : list Right).
Context (Hi : broker_ok s0) (Hh : holds s0 l0).
Local Abbreviation reached := (moves_by acts s0 l0).
Implicit Types (X : Stop ControlFailure -> Broker W -> Prop).

Lemma post_clock s l (Q : Z -> Broker W -> Prop) X :
  reached s l -> (forall n x, in_time n -> reached (set_bio x s) l -> Q n (set_bio x s)) ->
  post now s Q X.
Proof.
  intros Hm Hq. destruct (now_spec s) as (n & x & Hn & Ht). unfold post. rewrite Hn. apply Hq; [done|].
  eapply reached_quiet; [done|done|apply quiet_bio].
Qed.
Lemma post_cleanup_deadline s l (Q : AbsoluteDeadline -> Broker W -> Prop) X :
  reached s l -> (forall d x, reached (set_bio x s) l -> Q d (set_bio x s)) ->
  post cleanup_absolute_deadline s Q X.
Proof.
  intros Hm Hq. destruct (cleanup_deadline_spec s) as (d & x & Hd). unfold post. rewrite Hd. apply Hq.
  eapply reached_quiet; [done|done|apply quiet_bio].
Qed.

Lemma post_fails {A} stage reason s (Q : A -> Broker W -> Prop) X :
  X (Fails (fail stage reason)) s -> post (fails stage reason) s Q X.
Proof. done. Qed.
Lemma post_of_res {A} (r : CRes A) s (Q : A -> Broker W -> Prop) X :
  (forall x, r = Ok x -> Q x s) -> (forall e, r = Err e -> X (Fails e) s) -> post (of_res r) s Q X.
Proof. intros Hq Hx. destruct r as [x|e]; [by apply Hq|by apply Hx]. Qed.
Lemma post_or_fail {A} stage reason (o : option A) s (Q : A -> Broker W -> Prop) X :
  (forall x, o = Some x -> Q x s) -> (o = None -> X (Fails (fail stage reason)) s) ->
  post (or_fail stage reason o) s Q X.
Proof. intros Hq Hx. destruct o as [x|]; [by apply Hq|by apply Hx]. Qed.

Lemma post_slot_at i s (Q : option (Lease W) -> Broker W -> Prop) X :
  (i < length (leases s))%nat -> (forall o, lease_at s i = o -> Q o s) -> post (slot_at i) s Q X.
Proof.
  intros [o Ho]%lookup_lt_is_Some_2 Hq. unfold post, slot_at, mbind_M, get. rewrite Ho.
  apply Hq. unfold lease_at. by rewrite Ho.
Qed.
Lemma post_expect_lease i a s (Q : Lease W -> Broker W -> Prop) X :
  lease_at s i = Some a -> Q a s -> post (expect_lease i) s Q X.
Proof.
  intros Ha Hq. apply post_bind, post_slot_at; [by eapply lease_at_lt|]. intros o <-. by rewrite Ha.
Qed.
Lemma post_live_lease stage i s (Q : Lease W -> Broker W -> Prop) X :
  (forall a, lease_at s i = Some a -> Q a s) -> (X (Fails (fail stage Stale)) s) ->
  post (live_lease stage i) s Q X.
Proof. intros Hq Hx. apply post_bind, post_get, post_or_fail; [done|by intros _]. Qed.
Lemma post_ready_lease stage i s (Q : Lease W -> Broker W -> Prop) X :
  (forall a, lease_at s i = Some a -> state a = LeaseReady -> Q a s) ->
  (X (Fails (fail stage Stale)) s) -> post (ready_lease stage i) s Q X.
Proof.
  intros Hq Hx. apply post_bind, post_live_lease; [|done]. intros a Ha.
  destruct (bool_decide_reflect (state a = LeaseReady)); [by apply Hq|done].
Qed.

Lemma find_index_some {A} (p : A -> bool) (l : list A) i :
  find_index p l = Some i -> exists x, l !! i = Some x /\ p x = true.
Proof.
  revert i. induction l as [|x l IH]; intros i; cbn; [done|].
  destruct (p x) eqn:Hp; [intros [= <-]; by exists x|].
  destruct (find_index p l) as [j|]; [|done]. intros [= <-]. by apply IH.
Qed.
Lemma find_lease (p : Lease W -> bool) s i :
  find_index (any_lease p) (leases s) = Some i -> exists a, lease_at s i = Some a /\ p a = true.
Proof.
  intros ([a|] & Hl & Hp)%find_index_some; [|done]. exists a. by rewrite lease_at_lookup.
Qed.

Lemma post_lease_of_token stage token s (Q : nat -> Broker W -> Prop) X :
  (forall i a, lease_at s i = Some a -> is_Some (references a !! token) -> Q i s) ->
  (forall f, X (Fails f) s) -> post (lease_of_token stage token) s Q X.
Proof.
  intros Hq Hx. apply post_bind, post_get.
  destruct (find_index _ (leases s)) as [i|] eqn:Hf; [|apply Hx].
  apply find_lease in Hf as (a & Ha & Ht). apply (Hq i a Ha).
  by destruct (references a !! token).
Qed.

Lemma post_lease_for stage token current s (Q : CloseReason * nat + nat * Lease W -> Broker W -> Prop) X :
  (forall reason i, (i < length (leases s))%nat -> Q (inl (reason, i)) s) ->
  (forall i a, lease_at s i = Some a -> is_Some (references a !! token) ->
     state a = LeaseReady -> Q (inr (i, a)) s) ->
  (forall f, X (Fails f) s) -> post (lease_for stage token current) s Q X.
Proof.
  intros Hl Hr Hx. apply post_bind, post_lease_of_token; [|done]. intros i a Ha Ht.
  apply post_bind, post_slot_at; [by eapply lease_at_lt|]. intros o <-. rewrite Ha. cbn.
  destruct (terminal_reason_at current a); [by eapply Hl, lease_at_lt|].
  apply post_bind. apply (post_expect_lease _ a); [done|].
  destruct (bool_decide_reflect (state a = LeaseReady)); [by apply Hr|apply Hx].
Qed.

Lemma matched_slot_inv a token id stage unbound slot :
  matched_session_slot a token id stage unbound = Ok slot ->
  exists x y, references a !! token = Some x /\ ref_state x = RefConsumed /\
    session_slot x = Some slot /\ sessions a !! slot = Some y.
Proof.
  unfold matched_session_slot. destruct (references a !! token) as [x|]; [|done].
  intros Hm. destruct (bool_decide_reflect (ref_state x = RefConsumed)) as [Hc|]; [cbn in Hm|done].
  destruct (session_slot x) as [k|] eqn:Hk; [cbn in Hm|done].
  destruct (is_none_or _ (ref_session_id x)); [cbn in Hm|done].
  destruct (sessions a !! k) as [y|] eqn:Hy; [|done].
  destruct (is_none_or _ (s_id y)); [cbn in Hm|done].
  destruct (unbound || _); [cbn in Hm|done]. injection Hm as <-. by exists x, y.
Qed.

(** *** Randomness *)

Lemma random_spec tries (n : nat) s : exists drawn e, entropy s = drawn ++ e /\
  match random_tries tries n s with
  | (Ok b, s') => s' = set_entropy e s /\ b ∈ drawn
  | (Err x, s') => s' = set_entropy e s /\ exists f, x = Fails f
  end.
Proof.
  revert s. induction tries as [|tries IH]; intros s.
  - exists [], (entropy s). split; [done|]. cbn. split; [by destruct s|by eexists].
  - cbn [random_tries]. unfold mbind_M, read_exact. destruct (entropy s) as [|b e] eqn:He.
    + exists [], []. split; [done|]. cbn. split; [|by eexists].
      destruct s. cbn in *. by rewrite He.
    + destruct (decide (length b = n)) as [->|Hl].
      2:{ replace (length b =? n)%nat with false by (symmetry; by apply Nat.eqb_neq).
          exists [b], e. split; [done|]. cbn. split; [done|by eexists]. }
      rewrite Nat.eqb_refl. case_bool_decide.
      * destruct (IH (set_entropy e s)) as (drawn & e' & Hd & Hr). cbn in Hd.
        exists (b :: drawn), e'. split; [cbn; congruence|].
        destruct (random_tries tries n (set_entropy e s)) as [[b'|x] s']; [|exact Hr].
        destruct Hr as [-> Hin]. split; [done|]. by right.
      * exists [b], e. split; [done|]. cbn. split; [done|]. by left.
Qed.

(** What is drawn is new. *)
Lemma post_random (n : nat) s l (Q : bytes -> Broker W -> Prop) X :
  reached s l ->
  (forall (b : bytes) e, (exists drawn, entropy s = drawn ++ e) -> b ∉ e -> b ∉ minted (books s) ->
     reached (set_entropy e s) l -> Q b (set_entropy e s)) ->
  (forall f e, reached (set_entropy e s) l -> X (Fails f) (set_entropy e s)) ->
  post (random n) s Q X.
Proof.
  intros Hm Hq Hx. destruct (random_spec 8 n s) as (drawn & e & He & Hr).
  assert (Hm' : reached (set_entropy e s) l).
  { eapply reached_quiet; [done|done|]. split; try done. by exists drawn. }
  destruct (bo_random s (proj1 Hm)) as (Hn & _ & Hd). rewrite He in Hn, Hd.
  apply NoDup_app in Hn as (_ & Hn & _). unfold post, random.
  destruct (random_tries 8 n s) as [[b|x] s'].
  - destruct Hr as [-> Hb]. apply Hq; [by exists drawn|by apply Hn|apply Hd; set_solver|done].
  - destruct Hr as [-> [f ->]]. by apply Hx.
Qed.

(** *** Operations *)

Lemma post_enter i (c : Cancellation) stage s l (Q : Guard -> Broker W -> Prop) X :
  (i < length (leases s))%nat -> reached s l ->
  (forall g o', fst g = i -> reached (put_ledger i o' s) (RGuard g :: l) -> Q g (put_ledger i o' s)) ->
  (forall f, X (Fails f) s) -> post (enter_operation i c stage) s Q X.
Proof.
  intros Hv Hm Hq Hx. destruct (ledger_some s i (proj1 Hm) Hv) as (o & Ho & _).
  apply post_bind. unfold post at 1. rewrite (ledger_at_spec s i o Ho).
  destruct (enter c o) as [[id|reason] o'] eqn:He; [|apply Hx].
  apply post_bind, post_modify, post_ret, Hq; [done|].
  eapply reached_then; [done|done|]. intros Hok. by eapply moves_enter.
Qed.

(** A section that enters an operation: what it leaves it leaves without it. *)
Lemma post_entering {A} i (c : Cancellation) stage (k : Guard -> BSec A) s l
    (Q : A -> Broker W -> Prop) X :
  (i < length (leases s))%nat -> reached s l -> (forall f, X (Fails f) s) ->
  (forall g o', fst g = i -> reached (put_ledger i o' s) (RGuard g :: l) ->
     post (k g) (put_ledger i o' s) Q (fun e s' => exists f l', e = Fails f /\
       reached s' (RGuard g :: l') /\
       forall s'', reached s'' l' -> X (Fails f) s'')) ->
  post (entering i c stage k) s Q X.
Proof.
  intros Hv Hm Hx Hk. apply post_bind. eapply post_enter; [done|done| |done].
  intros g o' Hg Hm'. specialize (Hk g o' Hg Hm'). unfold post in *.
  destruct (k g (put_ledger i o' s)) as [[v|e] s']; [done|].
  destruct Hk as (f & l' & -> & Hr & Hlast).
  pose proof (post_leave acts s0 l0 Hi Hh (E:=ControlFailure) g s' l'
    (fun _ s'' => X (Fails f) s'') (fun _ _ => False) Hr) as Hleave.
  unfold post in Hleave. unfold mbind_M.
  destruct (leave_operation g s') as [[[]|e] s'']; [|exfalso; apply Hleave]; cbn.
  - apply Hleave. intros o2 Ho2. by apply Hlast.
  - intros o2 Ho2. by apply Hlast.
Qed.
End Failing.
End Triples.
