(* ===== verification/Reaping.v ===== *)
(** The end of a lease in the logic: the reaper, and the thread that seals a lease. *)

From S2P Require Import Prelude Errors Crates Outer Records Payloads Reassembly NoiseIO Lease Bootstrap Session Control Adapter RawTransport RawReads Threads Interference Broker BrokerOps Handlers Rights Steps Moves Primitives Triples.

Create HintDb stable.

(** Opens a section: its state, what is relied on, and the moves made so far. *)
Ltac open_section :=
  let s := fresh "s" in
  intros s Hok HP Hh; change (broker_ok s) in Hok;
  match type of Hh with
  | holds _ ?l => pose proof (moves_by_refl (fun r => r ∈ l) s l Hok) as Hm
  end.

Section Mapped.
Context {S L R E E' : Type} `{!Discipline S L R}.

(** A program whose result is mapped. *)
Lemma satisfies_map {A B} (f : result E A -> result E' B) P l (m : Prog S L E A) Q K :
  satisfies P l m (fun r => Q (f r)) (fun r => K (f r)) ->
  satisfies P l (fun c => m (fun r => c (f r))) Q K.
Proof. intros Hm F c Hf Hc. apply (Hm F _ Hf). intros r. apply Hc. Qed.
End Mapped.

#[export] Hint Resolve stable_true stable_pure stable_and stable_forall stable_impl : stable.

Section Reaping.
Context `{Minicbor} `{Snow} `{Sha2} `{Base64} `{PlatformHost W} `{!LongClock W}.
Implicit Types (s : Broker W) (l : list Right) (i j : nat).

(** ** What threads rely on *)

Definition valid i s : Prop := (i < length (leases s))%nat.
Definition vacant i s : Prop := valid i s /\ lease_at s i = None.
Definition closing i (k : PrepareKey) s : Prop :=
  exists a, lease_at s i = Some a /\ key a = k /\ state a = LeaseClosing.
Definition taken i (k : PrepareKey) s : Prop :=
  exists a, lease_at s i = Some a /\ key a = k /\ state a = LeaseClosing /\ cleanup a = None.

Lemma lookup_of_lease_at s i a : lease_at s i = Some a -> leases s !! i = Some (Some a).
Proof. apply lease_at_lookup. Qed.
Lemma vacant_lookup s i : vacant i s <-> leases s !! i = Some None.
Proof.
  unfold vacant, valid, lease_at. split.
  - intros [Hv%lookup_lt_is_Some_2 Hn]. destruct Hv as [[a|] Ha]; rewrite Ha in Hn |- *; done.
  - intros Hl. rewrite Hl. split; [by eapply lookup_lt_Some|done].
Qed.

Lemma evolves_slot (acts : Right -> Prop) s s' i o : broker_evolves acts s s' -> leases s !! i = Some o ->
  exists o', leases s' !! i = Some o' /\ slot_evolves acts i s s' o o'.
Proof. intros He. apply He. Qed.

Lemma stable_valid l i : stable l (valid i).
Proof.
  intros s s' l' Hv _ _ He _. apply lookup_lt_is_Some_2 in Hv as [o Ho].
  destruct (evolves_slot _ _ _ _ _ He Ho) as (o' & Ho' & _). by eapply lookup_lt_Some.
Qed.
Lemma stable_vacant l i : stable l (vacant i).
Proof.
  intros s s' l' Hv _ _ He _. apply vacant_lookup in Hv. apply vacant_lookup.
  destruct (evolves_slot _ _ _ _ _ He Hv) as ([b|] & Ho' & Hs); [done|done].
Qed.
Lemma stable_sealed l i : stable l (fun s => sealed s i).
Proof. intros s s' l' Hs _ _ He _. by apply He. Qed.
Lemma stable_over l i : stable l (fun s => over s i).
Proof. intros s s' l' Hs _ _ He _. by apply He. Qed.

Lemma closer_keeps s s' l mine i a :
  RCloser i ∈ mine -> lease_at s i = Some a -> state a = LeaseClosing ->
  broker_ok s -> holds s (mine ++ l) -> broker_evolves (fun r => r ∈ l) s s' ->
  exists b, lease_at s' i = Some b /\ key b = key a /\ state b = LeaseClosing /\
            (cleanup a = None -> cleanup b = None).
Proof.
  intros Hc Ha Hst Hok Hh He. apply lookup_of_lease_at in Ha.
  destruct (evolves_slot _ _ _ _ _ He Ha) as ([b|] & Ho' & Hs).
  - exists b. rewrite lease_at_lookup. split_and!; [done|apply Hs| |].
    + pose proof (lv_state _ _ _ _ _ _ Hs) as Hle. rewrite Hst in Hle. by destruct (state b).
    + intros Hn. destruct (cleanup b) as [x|] eqn:Hx; [|done].
      destruct (lv_cleanup _ _ _ _ _ _ Hs x Hx) as [|[? _]]; congruence.
  - exfalso. destruct Hs as [Hs _]. by eapply (right_once s mine l (RCloser i)); eauto.
Qed.
Lemma stable_closing l i k : RCloser i ∈ l -> stable l (closing i k).
Proof.
  intros Hc s s' l' (a & Ha & Hk & Hst) Hok Hh He _.
  destruct (closer_keeps s s' l' l i a Hc Ha Hst Hok Hh He) as (b & Hb & Hkb & Hsb & _).
  exists b. split_and!; [done|congruence|done].
Qed.
Lemma stable_taken l i k : RCloser i ∈ l -> stable l (taken i k).
Proof.
  intros Hc s s' l' (a & Ha & Hk & Hst & Hn) Hok Hh He _.
  destruct (closer_keeps s s' l' l i a Hc Ha Hst Hok Hh He) as (b & Hb & Hkb & Hsb & Hnb).
  exists b. split_and!; [done|congruence|done|by apply Hnb].
Qed.

Lemma closer_sealed s l i : holds s l -> RCloser i ∈ l -> sealed s i.
Proof. intros Hh Hc. apply issued_closer. by eapply right_issued. Qed.
Lemma closer_open s l i o : broker_ok s -> holds s l -> RCloser i ∈ l -> ledgers s !! i = Some o ->
  completed o = None.
Proof.
  intros Hok Hh Hc Ho. destruct (completed o) as [x|] eqn:Hx; [|done].
  destruct (right_unsettled s l (RCloser i) Hok Hh eq_refl Hc). unfold rights_settled.
  rewrite !elem_of_app. do 3 right. left. apply elem_of_gather. exists i, o. split; [done|].
  unfold ledger_done. rewrite Hx. by left.
Qed.
Lemma sealed_valid s i : broker_ok s -> sealed s i -> valid i s.
Proof. intros Hok (o & Ho & _). unfold valid. rewrite <- (bo_length s Hok). by eapply lookup_lt_Some. Qed.

(** ** Waiting *)

Lemma owed_closer s i : broker_ok s -> sealed s i -> closed_as i s = None -> owed s (RCloser i).
Proof.
  intros Hok (o & Ho & Ha) Hc. split; [by intros []|]. intros l Hl. cbn in Hl.
  assert (Hin : RCloser i ∈ rights_issued s) by (apply issued_closer; by exists o).
  rewrite Hl, elem_of_app in Hin. destruct Hin as [Hin|]; [|done].
  unfold closed_as in Hc. rewrite Ho in Hc. cbn in Hc. exfalso. unfold rights_settled in Hin.
  rewrite !elem_of_app, !list_elem_of_fmap, !elem_of_gather in Hin.
  destruct Hin as [(?&[=]&_)|[(?&[=]&_)|[(?&x&_&Hr)|[(j&x&Hj&Hr)|(?&x&_&Hr)]]]].
  - unfold lease_rights in Hr. destruct (x ≫= cleanup); set_solver.
  - unfold ledger_done in Hr. destruct (completed x) eqn:Hx; cbn in Hr; [|set_solver].
    apply list_elem_of_singleton in Hr as [= <-]. congruence.
  - unfold cell_done, value_rights, prepared_rights in Hr.
    destruct x as [|[p|e]| |]; set_solver.
Qed.

(** A guard that is not settled is owed; one in a cell is owed by who waits for the cell. *)
Lemma owed_guard s i : broker_ok s -> sealed s i -> drained i s = false ->
  exists r, owed s r /\ right_rank r = 0%nat.
Proof.
  intros Hok (o & Ho & Ha) Hd. unfold drained in Hd. rewrite Ho in Hd.
  pose proof (le_active o (bo_ledger s Hok i o Ho)) as Hact.
  assert (Hne : map_to_list (cancellations o) <> []).
  { intros He%map_to_list_empty_iff. rewrite He, map_size_empty in Hact.
    apply Z.eqb_neq in Hd. lia. }
  destruct (map_to_list (cancellations o)) as [|[id c] cs] eqn:Hm; [done|clear Hne].
  assert (Hc : cancellations o !! id = Some c) by (apply elem_of_map_to_list; rewrite Hm; by left).
  assert (Hin : RGuard (i, id) ∈ rights_issued s).
  { unfold rights_issued. rewrite !elem_of_app, !elem_of_gather. do 4 right. left. exists i, o.
    split; [done|]. apply ledger_rights_guard. cbn. by rewrite Hc. }
  destruct (decide (Exists (fun x => match x with
      CellReady (Ok p) => bool_decide (operation p = (i, id)) | _ => false end = true) (cells s))) as [He|Hne].
  - apply Exists_exists in He as (x & [m Hx]%list_elem_of_lookup & Hp).
    destruct x as [|[p|e]| |]; try done. apply bool_decide_eq_true in Hp.
    exists (RConsumer m). split; [|done].
    split; [by intros []|]. intros l Hl. cbn in Hl.
    assert (Hr : RConsumer m ∈ rights_issued s).
    { apply (issued_cell s m (RConsumer m)); [by right|by eexists]. }
    rewrite Hl, elem_of_app in Hr. destruct Hr as [Hr|]; [|done]. exfalso. unfold rights_settled in Hr.
    rewrite !elem_of_app, !list_elem_of_fmap, !elem_of_gather in Hr.
    destruct Hr as [(?&[=]&_)|[(?&[=]&_)|[(?&y&_&Hr)|[(j&y&Hj&Hr)|(j&y&Hj&Hr)]]]].
    + unfold lease_rights in Hr. destruct (y ≫= cleanup); set_solver.
    + unfold ledger_done in Hr. destruct (is_Some_b (completed y)); set_solver.
    + assert (j = m) as -> by (destruct y as [|[]| |]; cbn in Hr; unfold prepared_rights in Hr; set_solver).
      rewrite Hx in Hj. injection Hj as <-. cbn in Hr. unfold prepared_rights in Hr. set_solver.
  - exists (RGuard (i, id)). split; [|done]. split; [by intros []|]. intros l Hl. cbn in Hl.
    rewrite Hl, elem_of_app in Hin. destruct Hin as [Hin|]; [|done]. exfalso. unfold rights_settled in Hin.
    rewrite !elem_of_app, !list_elem_of_fmap, !elem_of_gather in Hin.
    destruct Hin as [(?&[=]&_)|[(?&[=]&_)|[(?&y&_&Hr)|[(j&y&Hj&Hr)|(j&y&Hj&Hr)]]]].
    + unfold lease_rights in Hr. destruct (y ≫= cleanup); set_solver.
    + unfold ledger_done in Hr. destruct (is_Some_b (completed y)); set_solver.
    + apply Hne, Exists_exists. exists y. split; [by eapply list_elem_of_lookup_2|].
      destruct y as [|[p|e]| |]; cbn in Hr; try (by set_solver).
      apply bool_decide_eq_true. unfold prepared_rights in Hr. set_solver.
Qed.

Lemma moves_here s l : broker_ok s -> moves s l s l.
Proof. apply moves_by_refl. Qed.

Lemma drained_over s i : broker_ok s -> sealed s i -> drained i s = true -> over s i.
Proof.
  intros _ (o & Ho & Ha). unfold drained. rewrite Ho. intros Hz%Z.eqb_eq. by exists o.
Qed.

Lemma wait_for_drain_ok {E} i k (Q : result E unit -> Broker W -> Prop) K :
  (forall s, closing i k s -> over s i -> Q (Ok tt) s) -> K (Ok tt) = [RCloser i] ->
  satisfies (closing i k) [RCloser i] (wait_for_drain i) Q K.
Proof.
  intros HQ HK. apply satisfies_await.
  - apply stable_closing. by left.
  - intros s v s' Hok Hc Hh. destruct (drained i s) eqn:Hd; [|done]. intros [= <- <-].
    rewrite HK. split; [by apply moves_here|]. apply HQ; [done|]. apply drained_over; [done| |done].
    eapply closer_sealed; [done|by left].
  - intros s Hok Hc Hh. destruct (drained i s) eqn:Hd; [done|]. intros _.
    destruct (owed_guard s i Hok) as (r & Hr & Hrk); [|done|].
    + eapply closer_sealed; [done|by left].
    + exists r. split; [done|]. intros r' ->%list_elem_of_singleton. right.
      change (rank r) with (right_rank r). rewrite Hrk. cbn. lia.
Qed.

Lemma wait_for_drain_until_ok {E} i k (Q : result E bool -> Broker W -> Prop) K :
  (forall d s, closing i k s -> (d = true -> over s i) -> Q (Ok d) s) ->
  (forall d, K (Ok d) = [RCloser i]) ->
  satisfies (closing i k) [RCloser i] (wait_for_drain_until i) Q K.
Proof.
  intros HQ HK. apply satisfies_await_until.
  - apply stable_closing. by left.
  - intros s v s' Hok Hc Hh. destruct (drained i s) eqn:Hd; [|done]. intros [= <- <-].
    rewrite HK. split; [by apply moves_here|]. apply HQ; [done|]. intros _. apply drained_over; [done| |done].
    eapply closer_sealed; [done|by left].
  - intros s Hok Hc Hh. unfold post. rewrite HK. split; [by apply moves_here|]. apply HQ; [done|].
    intros Hd. apply drained_over; [done| |done]. eapply closer_sealed; [done|by left].
Qed.

Lemma wait_for_close_ok i (Q : result CloseReason unit -> Broker W -> Prop) K :
  (forall v s, sealed s i -> Q v s) -> (forall v, K v = []) ->
  satisfies (fun s => sealed s i) [] (wait_for_close i) Q K.
Proof.
  intros HQ HK. apply (satisfies_map (fun x => match x with Ok v => v | Err e => Err e end)).
  apply satisfies_await.
  - apply stable_sealed.
  - intros s v s' Hok Hs Hh. destruct (closed_as i s) as [x|] eqn:Hc; [|done]. cbn. intros [= <- <-].
    rewrite HK. split; [by apply moves_here|by apply HQ].
  - intros s Hok Hs Hh. destruct (closed_as i s) as [x|] eqn:Hc; [done|]. intros _.
    exists (RCloser i). split; [by apply owed_closer|]. set_solver.
Qed.

Lemma wait_for_close_until_ok i (Q : result CloseReason unit -> Broker W -> Prop) K :
  (forall v s, sealed s i -> Q v s) -> (forall v, K v = []) ->
  satisfies (fun s => sealed s i) [] (wait_for_close_until i) Q K.
Proof.
  intros HQ HK. apply (satisfies_map (fun x => match x with Ok v => v | Err e => Err e end)).
  apply satisfies_await_until.
  - apply stable_sealed.
  - intros s v s' Hok Hs Hh. destruct (closed_as i s) as [x|] eqn:Hc; [|done]. cbn. intros [= <- <-].
    rewrite HK. split; [by apply moves_here|by apply HQ].
  - intros s Hok Hs Hh. unfold post. rewrite HK. split; [by apply moves_here|by apply HQ].
Qed.

(** ** The reaper *)

Lemma post_cleanup_limit acts s0 l0 s l (Q : AbsoluteDeadline -> Broker W -> Prop) X :
  broker_ok s0 -> moves_by acts s0 l0 s l ->
  (forall d x, moves_by acts s0 l0 (set_bio x s) l -> Q d (set_bio x s)) ->
  post cleanup_limit s Q X.
Proof.
  intros Hok Hm Hq. destruct (cleanup_deadline_spec s) as (d & x & Hd).
  unfold post, cleanup_limit, map_fails. rewrite Hd. cbn. apply Hq.
  eapply reached_quiet; [done|done|apply quiet_bio].
Qed.

Lemma reap_take_ok i k :
  sure (fun s => closing i k s /\ over s i) [RCloser i] (reap_take i k)
    (fun t s => (tk_cleanup_failed t = true -> tk_cleanup t = None) /\ taken i k s)
    (fun t => receipt_right (tk_cleanup t) ++ [RCloser i]).
Proof.
  intros s Hok [(a & Ha & Hk & Hst) Hov] Hh. apply post_bind, post_get. rewrite Ha.
  rewrite !bool_decide_true by done. cbn [andb negb].
  apply post_bind, post_modify, post_ret. cbn [tk_cleanup tk_cleanup_failed].
  split; [by apply moves_take|]. split.
  - by apply (bo_lease s Hok i a Ha).
  - exists (take_terminal a). rewrite (lease_at_insert s _ i (Some (take_terminal a)) i);
      [|by eapply lease_at_lt|done]. by rewrite decide_True.
Qed.

(** The lease is gone, whatever its clean-up said. *)
Lemma reap_publish_ok i k tokens v :
  sure (taken i k) [RCloser i] (reap_publish i k tokens v)
    (fun _ s => lease_at s i = None) (fun _ => [RCloser i]).
Proof.
  intros s Hok (a & Ha & Hk & Hst & Hc) Hh. unfold reap_publish. apply post_modify.
  set (s1 := set_stale_tokens _ s). set (s2 := if is_ok v then s1 else _).
  assert (Hq : quiet s s2) by (subst s2 s1; destruct (is_ok v); (split; try done); by exists []).
  pose proof (moves_quiet (fun r => r ∈ [RCloser i]) s [RCloser i] s2 Hok Hq) as Hm.
  assert (Ha2 : lease_at s2 i = Some a) by (by rewrite (quiet_lease_at s s2)).
  rewrite Ha2, !bool_decide_true by done. cbn [andb]. split.
  - eapply reached_then; [done|exact Hm|]. intros Hok2. eapply moves_vacate; [done|done|done|].
    intros _. by left.
  - rewrite (lease_at_insert s2 _ i None i); [|by eapply lease_at_lt|done]. by rewrite decide_True.
Qed.

Lemma finish_operations_ok i v :
  sure (fun s => lease_at s i = None) [RCloser i] (finish_operations i v)
    (fun _ s => sealed s i) (fun _ => []).
Proof.
  intros s Hok Hn Hh. assert (Hc : RCloser i ∈ [RCloser i]) by (by left).
  destruct (closer_sealed s _ i Hh Hc) as (o & Ho & Ha). apply post_bind.
  unfold post at 1. rewrite (ledger_at_spec s i o Ho). apply post_modify. split.
  - eapply moves_finish; [done|done|done|by eapply closer_open|done].
  - exists (finish_close v o). split; [|done]. cbn. apply list_lookup_insert_eq. by eapply lookup_lt_Some.
Qed.

Lemma stable_gone l i : RCloser i ∈ l -> stable l (fun s => lease_at s i = None).
Proof.
  intros Hc s s' l' Hn Hok Hh He Hok'.
  assert (Hv : vacant i s).
  { split; [|done]. apply sealed_valid; [done|]. eapply closer_sealed; [by eapply holds_app_l|done]. }
  by apply (stable_vacant l i s s' l' Hv Hok Hh He Hok').
Qed.

Lemma reap_ok i k :
  satisfies (fun s => closing i k s /\ over s i) [RCloser i] (reap_terminal_lease i k)
    (fun _ s => sealed s i) (fun _ => []).
Proof.
  assert (Hc : RCloser i ∈ [RCloser i]) by (by left).
  eapply satisfies_then; [|apply reap_take_ok|].
  { apply stable_and; [by apply stable_closing|apply stable_over]. }
  intros t. apply satisfies_pure. intros Hfailed.
  set (held_ := receipt_right (tk_cleanup t) ++ [RCloser i]).
  assert (Hst : forall l, stable (l ++ [RCloser i]) (taken i k)).
  { intros l. apply stable_taken. set_solver. }
  assert (Hlimit : forall l, sure (taken i k) (l ++ [RCloser i]) cleanup_limit (fun _ => taken i k)
                     (fun _ => l ++ [RCloser i])).
  { intros l. open_section. eapply post_cleanup_limit; [done|done|]. intros d x Hm'. by split. }
  apply (satisfies_bind _ _ _ _ (fun _ => taken i k) (fun _ => held_)).
  { destruct (tk_raw t) as [raw|]; [destruct (tk_crypto t) as [crypto|]|];
      try (apply satisfies_ret; [apply Hst|done|done]).
    eapply satisfies_then; [apply Hst|apply Hlimit|]. intros d.
    apply (satisfies_sure _ _ _ (fun _ => taken i k) (fun _ => held_)); [apply Hst| |done|done].
    open_section. eapply post_on_bio; [done|done|]. intros v x Hm'. by split. }
  intros _. apply (satisfies_bind _ _ _ _ (fun _ => taken i k) (fun _ => [RCloser i])).
  { subst held_. destruct (tk_cleanup_failed t) eqn:Hf.
    { rewrite (Hfailed eq_refl). apply satisfies_ret; [apply (Hst [])|done|done]. }
    destruct (tk_cleanup t) as [receipt|]; [|apply satisfies_ret; [apply (Hst [])|done|done]].
    eapply satisfies_then; [apply Hst|apply Hlimit|]. intros d.
    apply (satisfies_then _ _ _ (fun _ => taken i k) (fun _ => [RCloser i])); [apply Hst| |].
    - open_section. eapply post_spend; [done|exact Hm|]. intros v x Hm'. by split.
    - intros v. apply satisfies_ret; [apply (Hst [])|done|done]. }
  intros cr. eapply satisfies_then; [apply (Hst [])|apply reap_publish_ok|]. intros [].
  eapply satisfies_then; [by apply stable_gone|apply finish_operations_ok|]. intros [].
  apply satisfies_lift; [apply stable_sealed|done|done].
Qed.

(** ** The seal *)

Definition ended (i : nat) (v : CRes unit) s : Prop :=
  match v with
  | Ok _ => sealed s i
  | Err f => sealed s i \/ (vacant i s /\ f_close_reason f = Stale)
  end.
Lemma stable_ended l i v : stable l (ended i v).
Proof.
  destruct v as [[]|f]; [apply stable_sealed|]. intros s s' l' [Hs|[Hv Hf]] Hok Hh He Hok'.
  - left. by eapply stable_sealed.
  - right. split; [by eapply stable_vacant|done].
Qed.

Definition seal_post (i : nat) (v : CRes (option (PrepareKey * list RawDuplex))) s : Prop :=
  match v with
  | Ok None => sealed s i
  | Ok (Some (k, _)) => closing i k s
  | Err f => vacant i s /\ f_close_reason f = Stale
  end.
Definition seal_rights (i : nat) (v : CRes (option (PrepareKey * list RawDuplex))) : list Right :=
  match v with Ok (Some _) => [RCloser i] | _ => [] end.

Lemma goes_stale acts i tombstone (a : Lease W) : state a = LeaseClosing ->
  lease_goes acts i a (set_references (stale_reference tombstone <$> references a) a).
Proof.
  intros Hst. apply goes_refs; [|congruence]. intros t x'. rewrite lookup_fmap.
  destruct (references a !! t) as [x|]; [|done]. intros [= <-]. exists x. split; [done|].
  unfold stale_reference. destruct (is_Some_b _); cbn; by destruct (ref_state x).
Qed.

Lemma seal_ok i reason tombstone :
  section_ok (valid i) [] (seal i reason tombstone) (seal_post i) (seal_rights i).
Proof.
  open_section. apply post_bind, post_get. destruct (lease_at s i) as [a|] eqn:Ha.
  2:{ apply post_fails. by split. }
  destruct (ledger_some s i Hok HP) as (o & Ho & _). apply post_bind. unfold post at 1.
  rewrite (ledger_at_spec s i o Ho). unfold begin_close. destruct (accepting o) eqn:Hacc; cbn [negb].
  2:{ apply post_ret. split; [done|]. by exists o. }
  apply post_bind, post_modify, post_bind, post_modify.
  set (b := set_references _ _).
  assert (Hg : lease_goes (fun r => r ∈ ([] : list Right)) i a b).
  { eapply goes_trans; [apply (goes_state _ _ LeaseClosing); by destruct (state a)|].
    eapply goes_trans; [|by apply goes_stale]. by apply goes_same. }
  pose proof (moves_seal _ s [] i a b o Hok Ha Ho Hacc Hg eq_refl) as Hs.
  unfold begin_close in Hs. rewrite Hacc in Hs. cbn [negb snd] in Hs.
  apply post_bind. eapply post_on_world; [done|exact Hs|]. intros [] x Hs'. apply post_ret.
  split; [done|]. exists b.
  split; [|split; [by destruct a|done]].
  change (lease_at (put_lease i b (put_ledger i (mkOperations false (active_operations o) (completed o)
    (next_id o) (cancellations o)) s)) i = Some b).
  rewrite (lease_at_insert s _ i (Some b) i); [by rewrite decide_True|by eapply lease_at_lt|done].
Qed.

Lemma sealed_of_closing s l i k : holds s (RCloser i :: l) -> closing i k s -> sealed s i.
Proof. intros Hh _. eapply closer_sealed; [done|by left]. Qed.

(** Whoever ends a lease, it is sealed then. *)
Lemma terminalize_ok i reason :
  satisfies (valid i) [] (terminalize_lease i reason) (ended i) (fun _ => []).
Proof.
  apply (satisfies_then _ _ _ (fun n s => in_time n /\ valid i s) (fun _ => [])).
  { apply stable_valid. }
  { open_section. eapply post_clock; [done|done|]. intros n x Hn Hm'. by split. }
  intros n. apply satisfies_pure. intros Hn.
  apply (satisfies_bind _ _ _ _ (fun _ => valid i) (fun _ => [])).
  { rewrite (tombstone_spec n Hn). apply satisfies_lift; [apply stable_valid|done|done]. }
  intros tombstone. apply (satisfies_bind _ _ _ _ (fun v => seal_post i (Ok v)) (fun v => seal_rights i (Ok v))).
  { apply satisfies_section; [apply stable_valid|]. intros s Hok HP Hh.
    pose proof (seal_ok i reason tombstone s Hok HP Hh) as Hs. unfold post in *.
    destruct (seal i reason tombstone s) as [[v|[f|]] s']; [done| |done].
    destruct Hs as [Hm Hf]. split; [done|by right]. }
  intros [[k raws]|]; cbn [seal_post seal_rights].
  2:{ apply (satisfies_then _ _ _ (fun _ s => sealed s i) (fun _ => [])); [apply stable_sealed| |].
      { open_section. apply post_bind. eapply post_cleanup_deadline; [done|done|]. intros d x Hm'. by split. }
      intros []. apply (satisfies_map (res_map_err (fail Cleanup))). apply wait_for_close_until_ok; [|done].
      intros [v|v] s Hs; [done|by left]. }
  assert (Hc : stable [RCloser i] (closing i k)) by (apply stable_closing; by left).
  apply (satisfies_bind _ _ _ _ (fun _ => closing i k) (fun _ => [RCloser i])).
  { apply satisfies_for_each; [done| |done|done]. intros raw _.
    apply (satisfies_sure _ _ _ (fun _ => closing i k) (fun _ => [RCloser i])); [done| |done|done].
    open_section. eapply post_on_bio; [done|done|]. intros v x Hm'. by split. }
  intros []. apply (satisfies_then _ _ _ (fun _ => closing i k) (fun _ => [RCloser i])); [done| |].
  { open_section. apply post_bind. eapply post_cleanup_deadline; [done|done|]. intros d x Hm'. by split. }
  intros []. apply (satisfies_bind _ _ _ _ (fun d s => closing i k s /\ (d = true -> over s i))
    (fun _ => [RCloser i])).
  { apply wait_for_drain_until_ok; [|done]. intros d s Hcl Ho. by split. }
  intros [|].
  - apply (satisfies_map (res_map_err (fail Cleanup))). eapply satisfies_conseq; [apply reap_ok| | | | |done].
    + apply stable_and; [done|]. apply stable_impl, stable_over.
    + intros s _ [Hcl Ho]. split; [done|by apply Ho].
    + intros v. apply stable_sealed.
    + intros [v|v] s _ Hs; [done|by left].
  - apply (satisfies_then _ _ _ (fun _ => closing i k) (fun _ => [RCloser i])).
    + apply stable_and; [done|]. apply stable_impl, stable_over.
    + open_section. apply post_modify. split; [|by destruct HP].
      eapply reached_quiet; [done|done|]. split; try done. by exists [].
    + intros []. apply (satisfies_bind _ _ _ _ (fun _ s => sealed s i) (fun _ => [])).
      * apply (satisfies_spawn _ (closing i k) (fun s => sealed s i) _ [RCloser i] []); try done.
        -- intros s Hok Hcl Hh. split; [done|]. eapply closer_sealed; [done|by left].
        -- eapply satisfies_ok.
           ++ apply (satisfies_bind _ _ _ _ (fun _ s => closing i k s /\ over s i) (fun _ => [RCloser i]));
                [by apply wait_for_drain_ok|]. intros []. apply reap_ok.
           ++ intros r. apply ok_halt; [apply stable_sealed|done|done].
        -- apply stable_sealed.
      * intros []. apply satisfies_throw; [apply stable_sealed|done|]. intros s _ Hs. by left.
Qed.
End Reaping.
#[export] Hint Resolve stable_valid stable_vacant stable_sealed stable_over : stable.
