(* ===== verification/Serving.v ===== *)
(** The requests on a lease in the logic: heartbeats, and the sessions of a lease. *)

From S2P Require Import Prelude Errors Crates Outer Records Payloads Reassembly NoiseIO Lease Bootstrap Session Control Adapter RawTransport RawReads Threads Interference Broker BrokerOps Handlers Rights Steps Moves Primitives Triples Reaping.

(** ** Sections that keep what is relied on *)

Section Tame.
Context {S L R E : Type} `{!Discipline S L R}.
Implicit Types (s : S) (l : list R) (P F : S -> Prop).

Definition tame {A} P l (f : Sec S E A) (phi : A -> Prop) (KX : A -> list R) (KE : list R) : Prop :=
  forall s, inv s -> P s -> holds s l ->
    post f s (fun a s' => phi a /\ moves s l s' (KX a))
      (fun e s' => exists f, e = Fails f /\ moves s l s' KE).

Lemma moves_stable s l s' l' P : stable [] P -> inv s -> holds s l -> moves s l s' l' -> P s -> P s'.
Proof. intros Hst Hi Hh (Hi' & He & _) Hp. by apply (Hst s s' l Hp Hi Hh He Hi'). Qed.

Lemma satisfies_tame {A} P l (f : Sec S E A) phi KX KE (Q : result E A -> S -> Prop) K :
  stable [] P -> tame P l f phi KX KE -> (forall a s, phi a -> P s -> Q (Ok a) s) ->
  (forall e s, P s -> Q (Err e) s) -> (forall a, K (Ok a) = KX a) -> (forall e, K (Err e) = KE) ->
  satisfies P l (atomically f) Q K.
Proof.
  intros Hst Ht Hq He HK HKE. apply satisfies_section; [by apply stable_nil|].
  intros s Hi Hp Hh. specialize (Ht s Hi Hp Hh). unfold post in *.
  destruct (f s) as [[a|e] s'].
  - destruct Ht as [Hphi Hm]. rewrite HK. split; [done|]. apply Hq; [done|]. by eapply moves_stable.
  - destruct Ht as (x & -> & Hm). rewrite HKE. split; [done|]. apply He. by eapply moves_stable.
Qed.
Lemma satisfies_do {A B} P l (f : Sec S E A) phi KX KE (k : A -> Prog S L E B) Q K :
  stable [] P -> tame P l f phi KX KE -> (forall a, phi a -> satisfies P (KX a) (k a) Q K) ->
  (forall e s, P s -> Q (Err e) s) -> (forall e, K (Err e) = KE) ->
  satisfies P l (p_bind (atomically f) k) Q K.
Proof.
  intros Hst Ht Hk He HKE.
  apply (satisfies_bind _ _ _ _ (fun a s => phi a /\ P s) KX).
  - by eapply satisfies_tame.
  - intros a. apply satisfies_pure. apply Hk.
Qed.
Lemma satisfies_seq {A B} P l l' (m : Prog S L E A) (k : A -> Prog S L E B) Q K :
  satisfies P l m (fun _ => P) (fun _ => l') -> stable [] P -> (forall a, satisfies P l' (k a) Q K) ->
  (forall e s, P s -> Q (Err e) s) -> (forall e, K (Err e) = l') ->
  satisfies P l (p_bind m k) Q K.
Proof.
  intros Hm Hst Hk He HK. apply (satisfies_bind _ _ _ _ (fun _ => P) (fun _ => l')); [|done].
  apply (satisfies_conseq P P l m (fun _ => P) _ (fun _ => l')); [done|by apply stable_nil|done| | |].
  - intros r. by apply stable_nil.
  - intros [a|e] s _ Hp; [done|by apply He].
  - by intros [a|e].
Qed.
(** A section that yields what is relied on next. *)
Definition yields {A} P l (f : Sec S E A) (X : A -> S -> Prop) (KX : A -> list R) (KE : list R) : Prop :=
  forall s, inv s -> P s -> holds s l ->
    post f s (fun a s' => moves s l s' (KX a) /\ X a s')
      (fun e s' => exists f, e = Fails f /\ moves s l s' KE).
Lemma satisfies_yields {A B} P l (f : Sec S E A) X KX KE (k : A -> Prog S L E B) Q K :
  stable l P -> yields P l f X KX KE -> (forall a, satisfies (X a) (KX a) (k a) Q K) ->
  (forall e s, Q (Err e) s) -> (forall e, K (Err e) = KE) ->
  satisfies P l (p_bind (atomically f) k) Q K.
Proof.
  intros Hst Hy Hk He HK. apply (satisfies_bind _ _ _ _ X KX); [|done].
  apply satisfies_section; [done|]. intros s Hi Hp Hh. specialize (Hy s Hi Hp Hh).
  unfold post in *. destruct (f s) as [[a|e] s']; [done|]. destruct Hy as (x & -> & Hm).
  by rewrite HK.
Qed.
(** A program whose outcome does not matter. *)
Lemma satisfies_ignore {A B} P l (m : Prog S L E A) (k : result E A -> Prog S L E B) Q K l' :
  satisfies P l m (fun _ => P) (fun _ => l') -> (forall r, satisfies P l' (k r) Q K) ->
  satisfies P l (p_bind (attempt m) k) Q K.
Proof.
  intros Hm Hk. apply (satisfies_bind _ _ _ _ (fun _ => P) (fun _ => l')); [|done].
  by apply satisfies_attempt.
Qed.
End Tame.

Section Serving.
Context `{Minicbor} `{Snow} `{Sha2} `{Base64} `{PlatformHost W} `{!LongClock W}.
Implicit Types (s : Broker W) (l : list Right) (i j : nat).

Lemma lease_at_put s i (a b : Lease W) : lease_at s i = Some a -> lease_at (put_lease i b s) i = Some b.
Proof.
  intros Ha. rewrite (lease_at_insert s _ i (Some b) i); [by rewrite decide_True|by eapply lease_at_lt|done].
Qed.

Lemma post_put {E} acts s0 l0 i (a b : Lease W) s l (Q : unit -> Broker W -> Prop)
    (X : Stop E -> Broker W -> Prop) :
  broker_ok s0 -> moves_by acts s0 l0 s l -> lease_at s i = Some a -> lease_goes acts i a b ->
  (moves_by acts s0 l0 (put_lease i b s) l -> lease_at (put_lease i b s) i = Some b ->
   Q tt (put_lease i b s)) ->
  post (modify (put_lease i b)) s Q X.
Proof.
  intros Hok Hm Ha Hg Hq. apply post_modify, Hq; [|by eapply lease_at_put].
  eapply reached_then; [done|done|]. intros Hok'. by eapply moves_goes.
Qed.

(** The end of an operation, whatever came before. *)
Lemma leave_sure {E} g l : sure (fun _ : Broker W => True) (RGuard g :: l) (leave_operation (E:=E) g)
  (fun _ _ => True) (fun _ => l).
Proof.
  open_section. eapply post_leave; [done|done|done|]. intros o' Hm'. by split.
Qed.
Lemma satisfies_guarded {E A} P l g (m : Prog (Broker W) Leaf E A) X KX (K : result E A -> list Right) :
  satisfies P l m X KX -> (forall r, KX r = RGuard g :: K r) -> (forall r, stable [] (X r)) ->
  satisfies P l (guarded g m) X K.
Proof.
  intros Hm HK Hst. eapply satisfies_finally; [exact Hm|]. intros r. rewrite HK.
  pose proof (satisfies_frame (fun _ => True) (RGuard g :: K r) (atomically (leave_operation (E:=E) g))
    (fun _ _ => True) (fun _ => K r) (X r)) as Hf.
  eapply satisfies_conseq; [apply Hf; [|apply Hst]| | | | |done].
  - by apply (satisfies_sure _ _ _ (fun _ _ => True) (fun _ => K r)); [|apply leave_sure|..].
  - apply stable_nil, Hst.
  - done.
  - intros r0. by apply stable_and; [|apply stable_nil].
  - by intros _ s _ [_ Hx].
Qed.

(** The same for what ledgers do not touch. *)
Lemma satisfies_guarded_keep {E A} P l g (m : Prog (Broker W) Leaf E A) X (K : result E A -> list Right) :
  satisfies P l m X (fun r => RGuard g :: K r) -> (forall r, stable (RGuard g :: K r) (X r)) ->
  (forall r s j o, X r s -> X r (put_ledger j o s)) -> satisfies P l (guarded g m) X K.
Proof.
  intros Hp Hst Hk. eapply satisfies_finally; [exact Hp|]. intros r.
  apply (satisfies_sure _ _ _ (fun _ => X r) (fun _ => K r)); [apply Hst| |done|done].
  open_section. eapply post_leave; [done|done|done|]. intros o' Hm'. split; [done|]. by apply Hk.
Qed.

(** An exit of a section that has entered an operation. *)
Ltac leaves :=
  eexists _, _; split; [reflexivity|split; [eassumption|intros s_ Hs_; eexists; split; [reflexivity|exact Hs_]]].

(** ** Heartbeats *)

Lemma ready_tame stage i : tame (valid i) [] (run ready_lease (W:=W) stage i; ret tt) (fun _ => True) (fun _ => []) [].
Proof.
  open_section. apply post_bind, post_ready_lease.
  - intros a Ha Hst. apply post_ret. by split.
  - by eexists.
Qed.

Lemma probe_ok i : satisfies (valid i) [] (enter_probe (W:=W) i) (fun _ => valid i) (fun _ => []).
Proof.
  assert (Hq : forall s b, quiet s (set_probes (<[i:=b]> (probes s)) s)).
  { intros s b. split; try done. by exists []. }
  apply satisfies_await_until; [apply stable_valid| |].
  - intros s v s' Hok HP Hh. destruct (probe_free i s); [|done]. intros [= <- <-].
    split; [|done]. by apply moves_quiet.
  - open_section. apply post_bind, post_get. destruct (probe_free i s).
    + apply post_modify. split; [|done]. by apply moves_quiet.
    + by apply post_fails.
Qed.

Lemma heartbeat_take_ok i d :
  tame (valid i) [] (heartbeat_take (W:=W) i d) (fun b => fst (hb_operation b) = i)
    (fun b => [RGuard (hb_operation b)]) [].
Proof.
  open_section. apply post_bind, post_get.
  destruct (lease_at s i) as [a|] eqn:Ha; [|by eexists].
  destruct (bool_decide _); cbn [negb]; [|by eexists].
  apply post_bind. eapply post_on_world; [done|done|]. intros c x Hm1.
  eapply post_entering; [done|done|exact HP|done|by eexists|]. intros g o' Hg Hm2.
  apply post_bind, post_or_fail; [intros raw Hraw|intros _; leaves].
  apply post_bind. eapply post_put; [done|done|exact Ha|by apply goes_same|]. intros Hm3 Ha3.
  apply post_bind, post_or_fail; [intros rd Hrd|intros _; leaves].
  apply post_bind. eapply post_put; [done|done|exact Ha3|by apply goes_same|]. intros Hm4 Ha4.
  apply post_bind, post_or_fail; [intros cr Hcr|intros _; leaves].
  apply post_bind, post_of_res; [intros dl Hdl|intros e _; leaves].
  apply post_ret. by split.
Qed.

Lemma conn_call_ok {C A} P l rd (c : C) (m : M (Conn W C) TransportFailure A) :
  tame P l (conn_call (E:=ControlFailure) rd c m) (fun _ => True) (fun _ => l) l.
Proof. open_section. eapply post_conn_call; [done|done|]. intros v x Hm'. by split. Qed.
Lemma on_bio_ok {E A} P l (f : Io (W:=W) -> A * Io (W:=W)) :
  tame P l (on_bio (E:=E) f) (fun _ => True) (fun _ => l) l.
Proof. open_section. eapply post_on_bio; [done|done|]. intros v x Hm'. by split. Qed.
Lemma on_world_ok {E A} P l (f : W -> A * W) :
  tame P l (on_world (E:=E) f) (fun _ => True) (fun _ => l) l.
Proof. open_section. eapply post_on_world; [done|done|]. intros v x Hm'. by split. Qed.
Lemma now_tame P l : tame P l now in_time (fun _ => l) l.
Proof. open_section. eapply post_clock; [done|done|]. intros n x Hn Hm'. by split. Qed.
Lemma deadline_ok P l : tame P l cleanup_absolute_deadline (fun _ => True) (fun _ => l) l.
Proof. open_section. eapply post_cleanup_deadline; [done|done|]. intros d x Hm'. by split. Qed.
Lemma quiet_tame {E} P l (f : Broker W -> Broker W) : (forall s, quiet s (f s)) ->
  tame P l (modify f : Sec (Broker W) E unit) (fun _ => True) (fun _ => l) l.
Proof. intros Hq. open_section. apply post_modify. split; [done|]. by apply moves_quiet. Qed.

Lemma heartbeat_failed_ok P l i crypto rd error :
  tame P l (heartbeat_failed (W:=W) i crypto rd error) (fun _ => True) (fun _ => l) l.
Proof.
  open_section. apply post_bind, post_live_lease; [intros a Ha|by eexists].
  destruct (bool_decide _); [|by apply post_ret].
  eapply post_put; [done|done|done|by apply goes_same|]. intros Hm1 Ha1. by split.
Qed.
Lemma heartbeat_replied_ok P l i b crypto rd :
  tame P l (heartbeat_replied (W:=W) i b crypto rd) (fun _ => True) (fun _ => l) l.
Proof.
  open_section. apply post_bind, post_ready_lease; [intros a Ha Hst|by eexists].
  apply post_bind. eapply post_put; [done|done|done|by apply goes_same|]. intros Hm1 Ha1.
  apply post_bind. eapply post_clock; [done|done|]. intros n x Hn Hm2.
  destruct (terminal_reason_at _ _) as [reason|]; [by apply post_ret|].
  apply post_bind. eapply post_put; [done|done|exact Ha1|by apply goes_same|]. intros Hm3 Ha3.
  apply post_bind, post_or_fail; [intros next Hnext|by eexists].
  apply post_bind. eapply post_put; [done|done|exact Ha3|by apply goes_same|]. intros Hm4 Ha4.
  by apply post_ret.
Qed.
Lemma heartbeat_missed_ok P l i d crypto rd :
  tame P l (heartbeat_missed (W:=W) i d crypto rd) (fun _ => True) (fun _ => l) l.
Proof.
  open_section. apply post_bind, post_ready_lease; [intros a Ha Hst|by eexists].
  apply post_bind. eapply post_put; [done|done|done|by apply goes_same|]. intros Hm1 Ha1.
  by apply post_ret.
Qed.

Lemma stable_here i : stable [] (valid (W:=W) i).
Proof. apply stable_valid. Qed.
#[local] Hint Resolve stable_here stable_valid : core.

(** The end of a lease, for its own sake. *)
Lemma terminalize_valid i reason :
  satisfies (valid i) [] (terminalize_lease (W:=W) i reason) (fun _ => valid i) (fun _ => []).
Proof.
  pose proof (satisfies_frame _ _ _ _ _ (valid i) (terminalize_ok (W:=W) i reason) (stable_here i)) as Hf.
  eapply satisfies_conseq; [apply Hf|done|done| | |done].
  - intros r. apply stable_and; [apply stable_ended|done].
  - by intros r s _ [_ Hv].
Qed.
Lemma end_lease_ok {A} i stage reason :
  satisfies (valid i) [] (end_lease (W:=W) (A:=A) i stage reason) (fun _ => valid i) (fun _ => []).
Proof.
  eapply satisfies_ignore; [apply terminalize_valid|]. intros r. by apply satisfies_throw.
Qed.

Lemma heartbeat_ok i d :
  satisfies (valid i) [] (heartbeat (W:=W) i d) (fun _ => valid i) (fun _ => []).
Proof.
  eapply satisfies_do; [done|apply ready_tame| |done..]. intros [] _.
  eapply satisfies_seq; [apply probe_ok|done| |done..]. intros []. apply (satisfies_finally _ _ _ _ (fun _ => valid i) (fun _ => [])).
  2:{ intros r. eapply satisfies_tame; [done|apply quiet_tame; intros s|done..].
      split; try done. by exists []. }
  eapply satisfies_do; [done|apply heartbeat_take_ok| |done..]. intros b Hb.
  apply (satisfies_seq _ _ []); [|done| |done..].
  - apply (satisfies_guarded _ _ _ _ (fun _ => valid i) (fun _ => [RGuard (hb_operation b)])); [|done|done].
    eapply satisfies_do; [done|apply conn_call_ok| |done..]. intros [[v rd] cr] _.
    destruct v as [[]|error].
    + eapply satisfies_do; [done|apply heartbeat_replied_ok| |done..]. intros terminal _.
      by apply satisfies_ret.
    + destruct (bool_decide _).
      * eapply satisfies_do; [done|apply heartbeat_missed_ok| |done..]. intros lost _.
        by apply satisfies_ret.
      * eapply satisfies_do; [done|apply heartbeat_failed_ok| |done..]. intros [] _.
        by apply satisfies_ret.
  - intros [replied|reason f]; [by apply satisfies_ret|].
    eapply satisfies_ignore; [apply terminalize_valid|]. intros r. by apply satisfies_throw.
Qed.

(** ** Sessions *)

Definition nothing (_ : Broker W) : Prop := True.

(** What an opening relies on: nobody else enters a session in its slot, and its token names no
    other reference. *)
Definition opening i (t : bytes) (k : Z) s : Prop :=
  valid i s /\ t ∈ minted (books s) /\
  forall a, lease_at s i = Some a -> sessions a !! k = None /\
    forall x, references a !! t = Some x -> session_slot x = Some k.

Lemma valid_lookup i s : valid i s -> exists o, leases s !! i = Some o /\ lease_at s i = o.
Proof. intros [o Ho]%lookup_lt_is_Some_2. exists o. unfold lease_at. by rewrite Ho. Qed.

Lemma stable_opening l i t k : RSlot (i, k) ∈ l -> stable l (opening i t k).
Proof.
  intros Hr s s' l' (Hv & Ht & Ha) Hok Hh He Hok'. split_and!.
  - by eapply stable_valid.
  - by apply (be_minted _ _ _ He).
  - intros b Hb. destruct (valid_lookup i s Hv) as (o & Ho & Hat).
    destruct (evolves_slot _ _ _ _ _ He Ho) as (o' & Ho' & Hs).
    apply lease_at_lookup in Hb. rewrite Hb in Ho'. injection Ho' as <-.
    destruct o as [a|]; [|done]. destruct (Ha a Hat) as [Hn Hx]. split.
    + destruct (sessions b !! k) as [y|] eqn:Hy; [|done]. exfalso.
      destruct (lv_sessions _ _ _ _ _ _ Hs k) as [[z Hz]|Hin]; [by eexists|congruence|].
      by eapply (right_once s l l' (RSlot (i, k))).
    + intros x Hbx. pose proof (lv_refs _ _ _ _ _ _ Hs t x Hbx) as Hrf.
      destruct (references a !! t) as [y|].
      * destruct Hrf as [_ [->|(Hnn & _)]]; [by apply Hx|]. by rewrite (Hx y eq_refl) in Hnn.
      * by destruct Hrf as [[] _].
Qed.

Lemma reached_valid acts s0 l0 s l i : moves_by acts s0 l0 s l -> valid i s0 -> valid i s.
Proof.
  intros (_ & He & _) [o Ho]%lookup_lt_is_Some_2.
  destruct (evolves_slot _ _ _ _ _ He Ho) as (o' & Ho' & _). by eapply lookup_lt_Some.
Qed.

Definition opening_rights (v : CloseReason * nat + Opening) : list Right :=
  match v with inl _ => [] | inr o => [RGuard (og_operation o); RSlot (og_index o, og_slot o)] end.
Definition opening_ready (t : bytes) (v : CloseReason * nat + Opening) s : Prop :=
  match v with inl (_, i) => valid i s | inr o => opening (og_index o) t (og_slot o) s end.

(** An exit that gives up the slot as well. *)
Ltac leaves_slot :=
  eexists _, _; split; [reflexivity|split; [eassumption|intros s_ Hs_; eexists; split;
    [reflexivity|by apply (moves_by_drop _ _ _ _ [] _ Hs_); repeat constructor]]].

Lemma redeem_ok t d n : yields nothing [] (redeem (W:=W) t d n) (opening_ready t) opening_rights [].
Proof.
  open_section. apply post_bind, post_lease_for; [| |by eexists].
  { intros reason i Hv. by apply post_ret. }
  intros i a Ha [y Hy] Hst. rewrite Hy. cbn [mbind option_bind].
  apply post_bind, post_or_fail; [intros x Hx|by eexists].
  destruct (bool_decide_reflect (ref_state y = RefMinted)) as [Hrm|]; [|done].
  destruct (n <? expires y); [|done]. injection Hx as <-.
  pose proof (bo_lease s Hok i a Ha) as La. pose proof (lo_unused a La t y Hy (or_intror Hrm)) as Hsl.
  apply post_bind. eapply post_on_world; [done|done|]. intros c x Hm1.
  eapply post_entering; [done|done|by eapply lease_at_lt|done|by eexists|]. intros g o' Hg Hm2.
  set (y1 := set_ref_state RefRedeeming y). set (a1 := set_references (<[t:=y1]> (references a)) a).
  apply post_bind. eapply (post_put _ _ _ i a a1); [done|exact Hm2|exact Ha| |].
  { apply (goes_ref _ _ t y); [done|by rewrite Hrm|done|]. intros _ Hc. congruence. }
  intros Hm3 Ha3. apply post_bind, post_or_fail; [intros next Hnext|intros _; leaves].
  apply checked_add_some in Hnext as [-> _]. set (k := next_session a1).
  assert (Hy1 : references a1 !! t = Some y1) by apply lookup_insert_eq.
  apply post_bind, post_modify.
  set (a2 := set_next_session _ _). set (s2 := set_books _ _).
  assert (Hm4 : moves_by (fun r => r ∈ []) s [] s2 [RSlot (i, k); RGuard g]).
  { eapply reached_then; [done|exact Hm3|]. intros Hok3.
    exact (moves_redeem _ _ [RGuard g] i a1 t y1 Hok3 Ha3 Hy1 eq_refl Hsl). }
  assert (Hm5 : moves_by (fun r => r ∈ []) s [] s2 [RGuard g; RSlot (i, k)]).
  { eapply reached_then; [done|exact Hm4|]. intros Hok4. split; [done|].
    split; [apply broker_evolves_refl|]. apply (balanced_same _ _ _ _ []); [done..|].
    solve_Permutation. }
  assert (Ha4 : lease_at s2 i = Some a2) by (by eapply lease_at_put).
  apply post_bind, post_or_fail; [intros connector Hcn|intros _; leaves_slot].
  apply post_bind, post_or_fail; [intros pbs Hp|intros _; leaves_slot].
  apply post_bind, post_of_res; [intros dl Hdl|intros e _; leaves_slot].
  apply post_ret. split; [exact Hm5|]. cbn [opening_ready og_index og_slot]. split_and!.
  - by eapply lease_at_lt.
  - change (t ∈ minted (books s)). eapply (bo_minted s Hok i a); [done|by eexists].
  - rewrite Ha4. intros b [= <-]. cbn. split.
    + destruct (sessions a !! k) as [z|] eqn:Hz; [|done].
      pose proof (lo_sessions a La k z Hz) as Hlt. subst k. cbn in Hlt. lia.
    + intros z. rewrite lookup_insert_eq. by intros [= <-].
Qed.

Lemma goes_token_stale acts i t k (a : Lease W) : sessions a !! k = None ->
  (forall x, references a !! t = Some x -> session_slot x = Some k) ->
  lease_goes acts i a (set_references (alter (set_ref_state RefStale) t (references a)) a).
Proof.
  intros Hn Hx. destruct (references a !! t) as [x|] eqn:Ht.
  - rewrite (alter_alt_Some _ _ _ x) by done. apply (goes_ref _ _ t x); try done.
    + cbn. by destruct (ref_state x).
    + intros _ _ j Hj [y Hy]. rewrite (Hx x eq_refl) in Hj. congruence.
  - apply goes_same. split; try done. cbn. apply map_eq. intros u.
    destruct (decide (u = t)) as [->|Hne]; [by rewrite lookup_alter_eq, Ht|by rewrite lookup_alter_ne].
Qed.

Lemma drop_slot s l s' g k : moves s l s' [RGuard g; RSlot k] -> moves s l s' [RGuard g].
Proof. intros Hm. apply (moves_by_drop _ _ _ _ [RGuard g] [RSlot k] Hm). by repeat constructor. Qed.

Definition end_valid i (v : CloseReason + ControlSuccess) s : Prop :=
  match v with inl _ => valid i s | inr _ => True end.

Lemma open_commit_ok t o opened :
  yields (opening (og_index o) t (og_slot o)) [RGuard (og_operation o); RSlot (og_index o, og_slot o)]
    (open_commit (W:=W) t o opened) (end_valid (og_index o)) (fun _ => [RGuard (og_operation o)])
    [RGuard (og_operation o)].
Proof.
  set (i := og_index o). set (k := og_slot o). set (g := og_operation o).
  open_section. destruct HP as (Hv & Ht & Hop). cbn zeta.
  apply post_bind. eapply post_clock; [done|done|]. intros n x Hn Hm1.
  apply post_bind, post_slot_at; [done|]. intros oa Hoa.
  destruct (oa ≫= terminal_reason_at n) as [reason|].
  { apply post_bind. destruct opened as [os|e].
    - eapply post_on_bio; [done|exact Hm1|]. intros v x' Hm2. apply post_ret. by split; [eapply drop_slot|].
    - apply post_ret, post_ret. by split; [eapply drop_slot|]. }
  apply post_bind, post_or_fail; [intros a Ha|intros _; eexists; by split; [|eapply drop_slot]].
  assert (Hat : lease_at s i = Some a) by (by rewrite <- Ha). destruct (Hop a Hat) as [Hnone Hslot].
  assert (Hstale : forall x s', moves_by (fun r => r ∈ [RGuard g; RSlot (i, k)]) s [RGuard g; RSlot (i, k)]
      (set_bio x s) [RGuard g; RSlot (i, k)] -> s' = set_bio x s ->
    forall f, post (run set_token_state i a t RefStale; throw (Fails f) : BSec (CloseReason + ControlSuccess)) s'
      (fun v s' => moves s [RGuard g; RSlot (i, k)] s' [RGuard g] /\ end_valid i v s')
      (fun e s' => exists f, e = Fails f /\ moves s [RGuard g; RSlot (i, k)] s' [RGuard g])).
  { intros x' s' Hmx -> f. apply post_bind. eapply (post_put _ _ _ i a); [done|exact Hmx|exact Hat| |].
    - by apply (goes_token_stale _ _ _ k).
    - intros Hm3 _. apply post_throw. eexists. by split; [|eapply drop_slot]. }
  destruct opened as [os|error].
  2:{ by eapply Hstale. }
  cbn zeta. match goal with |- post (if negb ?c then _ else _) _ _ _ => destruct (negb c) eqn:Hcond end.
  { apply post_bind. eapply post_on_bio; [done|exact Hm1|]. intros v x' Hm2. by eapply Hstale. }
  apply negb_false_iff in Hcond. rewrite !andb_true_iff, !bool_decide_eq_true in Hcond.
  destruct Hcond as ((((Hst & _) & _) & _) & _).
  apply post_bind, post_or_fail; [intros y Hy|intros _; eexists; by split; [|eapply drop_slot]].
  destruct (references a !! t) as [y'|] eqn:Hy'; [cbn in Hy|done].
  destruct (bool_decide_reflect (ref_state y' = RefRedeeming)) as [Hrd|]; [cbn in Hy|done].
  destruct (bool_decide_reflect (session_slot y' = Some (og_slot o))) as [Hsl|]; [|done]. injection Hy as ->.
  apply post_bind. eapply (post_put _ _ _ i a); [done|exact Hm1|exact Hat| |].
  { apply (goes_ref _ _ t y); [done|by rewrite Hrd|done|]. intros _ Hc. congruence. }
  intros Hm2 Ha2. apply post_bind. eapply post_clock; [done|exact Hm2|]. intros n2 x2 Hn2 Hm3.
  apply post_bind. eapply (post_put _ _ _ i); [done|exact Hm3|exact Ha2| |].
  { apply (goes_session_new _ _ _ _ t (set_ref_state RefConsumed y)); cbn; try done.
    - right. by left.
    - apply lookup_insert_eq. }
  intros Hm4 Ha4. apply post_bind. eapply post_clock; [done|exact Hm4|]. intros n3 x3 Hn3 Hm5.
  apply post_bind. eapply (post_put _ _ _ i); [done|exact Hm5|exact Ha4|by apply goes_same|].
  intros Hm6 _. apply post_ret. by split; [eapply drop_slot|].
Qed.

Lemma open_bound_ok t id n :
  yields nothing [] (open_bound (W:=W) t id n)
    (fun v s => match v with inl (_, i) => valid i s | inr _ => True end) (fun _ => []) [].
Proof.
  open_section. apply post_bind, post_lease_for; [| |by eexists].
  { intros reason i Hv. by apply post_ret. }
  intros i a Ha _ Hst. apply post_bind, post_of_res; [intros slot Hsl|by eexists].
  apply post_bind, post_or_fail; [intros y Hy|by eexists].
  apply post_bind. eapply post_clock; [done|done|]. intros n2 x2 Hn2 Hm1.
  apply post_bind. eapply (post_put _ _ _ i a); [done|exact Hm1|exact Ha|by apply goes_same|].
  intros Hm2 _. by apply post_ret.
Qed.

(** A program that may end as it will, and keeps nothing. *)
Definition serves {A} P l (m : Prog (Broker W) Leaf ControlFailure A) : Prop :=
  satisfies P l m (fun _ => nothing) (fun _ => []).

Lemma serves_end {A} i stage reason : serves (valid i) [] (end_lease (W:=W) (A:=A) i stage reason).
Proof.
  eapply satisfies_conseq; [apply end_lease_ok|done|done| |done|done].
  intros r. apply stable_valid.
Qed.
Lemma serves_ret {A} P l (v : result ControlFailure A) : stable l P -> l = [] -> serves P l (p_lift v).
Proof. intros Hst ->. by apply satisfies_lift. Qed.
Lemma stable_nothing l : stable l nothing.
Proof. done. Qed.
Hint Resolve stable_nothing : core.

Lemma open_raw_ok P l o payload : (forall s x, P s -> P (set_bio x s)) ->
  sure P l (open_raw (W:=W) o payload) (fun _ => P) (fun _ => l).
Proof.
  intros HPx. open_section. unfold post, open_raw. destruct (draw_entropy _) as [e w].
  destruct (open_session _ _ _ _ _ _ _ _) as [v x]. split; [|by apply HPx].
  eapply reached_quiet; [done|done|apply quiet_bio].
Qed.

Lemma open_ok r : serves nothing [] (open (W:=W) r).
Proof.
  unfold open. cbn zeta. eapply satisfies_do; [done|apply now_tame| |done..]. intros n Hn.
  destruct (o_session_id _) as [id|].
  { eapply satisfies_yields; [done|apply open_bound_ok| |done..].
    intros [[reason i]|reply]; [apply serves_end|by apply serves_ret]. }
  eapply satisfies_seq; [by apply satisfies_lift|done| |done..]. intros payload.
  destruct (negb _); [by apply serves_ret|].
  eapply satisfies_do; [done|apply now_tame| |done..]. intros n2 Hn2.
  eapply satisfies_yields; [done|apply redeem_ok| |done..].
  intros [[reason i]|o]; [apply serves_end|]. cbn [opening_ready opening_rights].
  set (g := og_operation o). set (t := o_target_token (body r)).
  apply (satisfies_bind _ _ _ _ (end_valid (og_index o)) (fun _ => [])).
  - apply (satisfies_guarded _ _ _ _ (fun v => match v with Ok v => end_valid (og_index o) v | Err _ => nothing end)
      (fun _ => [RGuard g])).
    + eapply satisfies_then; [apply stable_opening; right; by left|apply open_raw_ok; intros s x HP; exact HP|].
      intros opened. apply satisfies_section; [apply stable_opening; right; by left|].
      intros s Hok HP Hh. pose proof (open_commit_ok t o opened s Hok HP Hh) as Hc. unfold post in *.
      destruct (open_commit t o opened s) as [[v|[e|]] s']; [done| |].
      * by destruct Hc as (f & _ & Hc).
      * by destruct Hc as (f & [=] & _).
    + by intros [].
    + intros [[]|]; [apply stable_valid|done|done].
  - intros [reason|reply]; [apply serves_end|by apply serves_ret].
Qed.

(** *** Exchanges and closings *)

(** The token of a session is the only one with its slot. *)
Definition owner_only i (t : bytes) (k : Z) s : Prop :=
  valid i s /\ forall a, lease_at s i = Some a -> k < next_session a /\
    forall u x, references a !! u = Some x -> session_slot x = Some k -> u = t.

Lemma stable_owner l i t k : stable l (owner_only i t k).
Proof.
  intros s s' l' (Hv & Ha) Hok Hh He Hok'. split; [by eapply stable_valid|].
  intros b Hb. destruct (valid_lookup i s Hv) as (o & Ho & Hat).
  destruct (evolves_slot _ _ _ _ _ He Ho) as (o' & Ho' & Hs).
  apply lease_at_lookup in Hb. rewrite Hb in Ho'. injection Ho' as <-.
  destruct o as [a|]; [|done]. destruct (Ha a Hat) as [Hlt Hu].
  pose proof (lv_next _ _ _ _ _ _ Hs). split; [lia|]. intros u x Hx Hk.
  pose proof (lv_refs _ _ _ _ _ _ Hs u x Hx) as Hrf. destruct (references a !! u) as [y|] eqn:Hy.
  - destruct Hrf as [_ [Hsl|(_ & j & Hj & Hle)]]; [|rewrite Hj in Hk; simplify_eq; lia].
    apply (Hu u y Hy). congruence.
  - destruct Hrf as [_ [Hsl|(_ & j & Hj & Hle)]]; rewrite ?Hsl, ?Hj in Hk; simplify_eq. lia.
Qed.
#[local] Hint Resolve stable_owner : core.

Lemma owner_here s i (a : Lease W) t k x : broker_ok s -> lease_at s i = Some a ->
  references a !! t = Some x -> session_slot x = Some k -> owner_only i t k s.
Proof.
  intros Hok Ha Hx Hk. split; [by eapply lease_at_lt|]. rewrite Ha. intros b [= <-].
  pose proof (bo_lease s Hok i a Ha) as La. split; [by eapply lo_slot|]. intros u y Hy Hky.
  by eapply (lo_owner a La).
Qed.

Lemma post_bind_session acts s0 l0 i (a : Lease W) t id k x y s l
    (Q : Lease W * Session W -> Broker W -> Prop) X :
  broker_ok s0 -> moves_by acts s0 l0 s l -> lease_at s i = Some a ->
  references a !! t = Some x -> sessions a !! k = Some y ->
  (forall b z, moves_by acts s0 l0 (put_lease i b s) l -> lease_at (put_lease i b s) i = Some b ->
     is_Some (sessions b !! k) -> Q (b, z) (put_lease i b s)) ->
  post (bind_session i a t id k) s Q X.
Proof.
  intros Hok Hm Ha Hx Hy Hq. unfold bind_session. rewrite Hy.
  assert (Hsome : forall (m : gmap Z (Session W)) z, is_Some (<[k:=z]> m !! k)).
  { intros m z. rewrite lookup_insert_eq. by eexists. }
  apply post_bind. destruct (is_Some_b (s_id y)).
  - apply post_ret, post_bind. eapply (post_put _ _ _ i a); [done|done|done|apply goes_session; by eexists|].
    intros Hm1 Ha1. apply post_ret. apply Hq; [done|done|apply Hsome].
  - rewrite Hx. apply post_ret, post_bind. eapply (post_put _ _ _ i a); [done|done|done| |].
    + eapply goes_trans; [by apply (goes_ref _ _ t x (bind_session_id id x) a)|]. apply goes_session. by eexists.
    + intros Hm1 Ha1. apply post_ret. apply Hq; [done|done|apply Hsome].
Qed.

(** The session in a slot is replaced, in the lease as it was when it was read. *)
Lemma post_put_session acts s0 l0 i (a b : Lease W) (m : gmap Z (Session W)) k z s l
    (Q : unit -> Broker W -> Prop) X :
  broker_ok s0 -> moves_by acts s0 l0 s l -> lease_at s i = Some a -> a = set_sessions m b ->
  is_Some (sessions b !! k) -> (forall j : Z, is_Some (sessions b !! j) -> is_Some (m !! j)) ->
  (forall m', moves_by acts s0 l0 (put_lease i (set_sessions m' b) s) l ->
     lease_at (put_lease i (set_sessions m' b) s) i = Some (set_sessions m' b) ->
     (forall j : Z, is_Some (sessions b !! j) -> is_Some (m' !! j)) ->
     Q tt (put_lease i (set_sessions m' b) s)) ->
  post (put_session i b k z) s Q X.
Proof.
  intros Hok Hm Ha -> Hk Hsub Hq. eapply post_put; [done|done|exact Ha| |].
  - apply (goes_sessions _ _ (<[k:=z]> (sessions b)) (set_sessions m b)). cbn. intros j.
    destruct (decide (j = k)) as [->|Hn]; [by intros _; apply Hsub|].
    rewrite lookup_insert_ne by done. apply Hsub.
  - intros Hm1 Ha1. apply Hq; [done|done|]. intros j Hj. destruct (decide (j = k)) as [->|Hn].
    + rewrite lookup_insert_eq. by eexists.
    + by rewrite lookup_insert_ne.
Qed.
Lemma set_sessions_id (b : Lease W) : b = set_sessions (sessions b) b.
Proof. by destruct b. Qed.

Definition taken_rights {A} (g : A -> Guard) (v : CloseReason * nat + A) : list Right :=
  match v with inl _ => [] | inr x => [RGuard (g x)] end.

Lemma exchange_take_ok b d n :
  yields nothing [] (exchange_take (W:=W) b d n)
    (fun v s => match v with
                | inl (_, i) => valid i s
                | inr x => owner_only (xg_index x) (x_target_token b) (xg_slot x) s
                end) (taken_rights xg_operation) [].
Proof.
  open_section. apply post_bind, post_lease_for; [| |by eexists].
  { intros reason i Hv. by apply post_ret. }
  intros i a Ha _ Hst. destruct (negb _); [by eexists|].
  apply post_bind, post_of_res; [intros k Hk|by eexists].
  destruct (matched_slot_inv _ _ _ _ _ _ Hk) as (x & y & Hx & Hc & Hsl & Hy).
  pose proof (owner_here s i a _ k x Hok Ha Hx Hsl) as Hown.
  apply post_bind. eapply post_on_world; [done|done|]. intros c w Hm1.
  eapply post_entering; [done|done|by eapply lease_at_lt|done|by eexists|]. intros g o' Hg Hm2.
  apply post_bind. eapply post_bind_session; [done|exact Hm2|exact Ha|exact Hx|exact Hy|].
  intros b1 z Hm3 Ha3 Hb1.
  apply post_bind. eapply post_put_session; [done|exact Hm3|exact Ha3|apply set_sessions_id|done|done|].
  intros m4 Hm4 Ha4 Hs4. apply post_bind, post_or_fail; [intros rd Hrd|intros _; leaves].
  apply post_bind. eapply post_put_session; [done|exact Hm4|exact Ha4|reflexivity|done|done|].
  intros m5 Hm5 Ha5 Hs5. apply post_bind, post_or_fail; [intros cr Hcr|intros _; leaves].
  apply post_bind, post_of_res; [intros dl Hdl|intros e _; leaves].
  apply post_ret. split; [exact Hm5|]. cbn [xg_index xg_slot].
  by apply (moves_stable _ _ _ _ _ (stable_owner [] _ _ _) Hok Hh Hm5).
Qed.

Lemma goes_bury acts i t (x : Reference) id e (a : Lease W) : references a !! t = Some x ->
  lease_goes acts i a (set_references (<[t := set_expires e (bind_session_id id x)]> (references a)) a).
Proof. intros Hx. by apply (goes_ref _ _ t x). Qed.
Lemma goes_bind acts i t (x : Reference) id (a : Lease W) : references a !! t = Some x ->
  lease_goes acts i a (set_references (<[t := bind_session_id id x]> (references a)) a).
Proof. intros Hx. by apply (goes_ref _ _ t x). Qed.

(** The session is buried: its reference keeps the id for a while, and its slot is empty. *)
Lemma post_bury {A} acts s0 l0 i t (x : Reference) id (a : Lease W) k s l
    (next : BSec A) (Q : A -> Broker W -> Prop) X :
  broker_ok s0 -> moves_by acts s0 l0 s l -> lease_at s i = Some a -> references a !! t = Some x ->
  (forall s', moves_by acts s0 l0 s' l -> post next s' Q X) ->
  let r := bind_session_id id x in
  let a1 := set_references (<[t:=r]> (references a)) a in
  post (run modify (put_lease i a1);
        do n <- now;
        do tombstone <- of_res (session_tombstone_expires n);
        let a2 := set_references (<[t:=set_expires tombstone r]> (references a1)) a1 in
        run modify (put_lease i (set_sessions (delete k (sessions a2)) a2));
        next) s Q X.
Proof.
  intros Hok Hm Ha Hx Hq r a1. apply post_bind.
  eapply post_put; [done|done|exact Ha|by apply goes_bind|]. intros Hm1 Ha1.
  apply post_bind. eapply post_clock; [done|exact Hm1|]. intros n w Hn Hm2.
  rewrite (tombstone_spec n Hn). apply post_bind, post_ret. cbn zeta.
  apply post_bind. eapply post_put; [done|exact Hm2|exact Ha1| |intros Hm3 _; by apply Hq].
  eapply goes_trans; [|apply goes_session_end].
  apply (goes_ref _ _ t r); [apply lookup_insert_eq|done|done|done].
Qed.

Lemma exchange_commit_ok b x rd cr v :
  yields (owner_only (xg_index x) (x_target_token b) (xg_slot x)) [RGuard (xg_operation x)]
    (exchange_commit (W:=W) b x rd cr v) (end_valid (xg_index x)) (fun _ => [RGuard (xg_operation x)])
    [RGuard (xg_operation x)].
Proof.
  open_section. destruct HP as [Hv Hown]. cbn zeta.
  apply post_bind, post_slot_at; [done|]. intros oa Hoa.
  apply post_bind, post_or_fail; [intros a Ha|by eexists].
  assert (Hat : lease_at s (xg_index x) = Some a) by congruence.
  apply post_bind. eapply post_clock; [done|done|]. intros n w Hn Hm1.
  destruct (terminal_reason_at n a) as [reason|].
  { apply post_bind. eapply post_on_bio; [done|exact Hm1|]. intros u w' Hm2. by apply post_ret. }
  match goal with |- post (if negb ?c then _ else _) _ _ _ => destruct (negb c) eqn:Hcond end.
  { apply post_bind. eapply post_on_bio; [done|exact Hm1|]. intros u w' Hm2. by eexists. }
  apply negb_false_iff, andb_true_iff in Hcond as [Hst%bool_decide_eq_true _].
  apply post_bind, post_or_fail; [intros y Hy|by eexists].
  destruct v as [message|error].
  - apply post_bind. eapply post_put; [done|exact Hm1|exact Hat| |].
    { eapply goes_trans; [by apply (goes_same _ _ a (set_lease_handoff HandoffPossibleOrConfirmed a))|].
      apply goes_session. by eexists. }
    intros Hm2 Ha2. apply post_bind. eapply post_clock; [done|exact Hm2|]. intros n2 w2 Hn2 Hm3.
    apply post_bind. eapply post_put; [done|exact Hm3|exact Ha2| |].
    { set (a2 := set_sessions _ _).
      eapply goes_trans; [by apply (goes_same _ _ a2 (set_activity n2 a2))|].
      apply (goes_sessions _ _ _ (set_activity n2 a2)). cbn. intros j.
      destruct (decide (j = xg_slot x)) as [->|Hne].
      - intros _. rewrite lookup_insert_eq. by eexists.
      - by rewrite !lookup_insert_ne. }
    intros Hm4 _. by apply post_ret.
  - apply post_bind. eapply post_on_bio; [done|exact Hm1|]. intros u w' Hm2.
    pose proof (bo_lease s Hok _ a Hat) as La.
    destruct (lo_live a La _ y Hst Hy) as (tk & r & Hr & _ & Hsl).
    rewrite <- (proj2 (Hown a Hat) tk r Hr Hsl), Hr.
    eapply post_bury; [done|exact Hm2|exact Hat|exact Hr|]. intros s' Hm3. by eexists.
Qed.

(** An operation that is entered, run and committed, and the end of its lease where it is due. *)
Lemma serves_operation {A} P l g i stage (m : BProg (W:=W) (CloseReason + A)) :
  satisfies P l m (fun r => match r with
                            | Ok (inl _) => valid i
                            | _ => nothing
                            end) (fun _ => [RGuard g]) ->
  serves P l (p_bind (guarded g m) (fun over => match over with
                                                | inr reply => p_ret reply
                                                | inl reason => end_lease i stage reason
                                                end)).
Proof.
  intros Hm. apply (satisfies_bind _ _ _ _ (fun v => match v with inl _ => valid i | inr _ => nothing end)
    (fun _ => [])).
  - eapply satisfies_guarded; [exact Hm|by intros [[]|]|by intros [[]|]].
  - intros [reason|reply]; [apply serves_end|by apply serves_ret].
Qed.

Lemma exchange_serves r : serves nothing [] (exchange (W:=W) r).
Proof.
  unfold exchange. cbn zeta. destruct (negb _); [by apply serves_ret|].
  eapply satisfies_do; [done|apply now_tame| |done..]. intros n Hn.
  eapply satisfies_yields; [done|apply exchange_take_ok| |done..].
  intros [[reason i]|x]; [apply serves_end|]. cbn [taken_rights].
  apply serves_operation. eapply satisfies_do; [apply stable_owner|apply conn_call_ok| |done..].
  intros [[v rd] cr] _. apply satisfies_section; [apply stable_owner|].
  intros s Hok HP Hh. pose proof (exchange_commit_ok (body r) x rd cr v s Hok HP Hh) as Hc. unfold post in *.
  destruct (exchange_commit _ _ _ _ _ s) as [[[]|[e|]] s']; [done|done| |].
  - by destruct Hc as (f & _ & Hc).
  - by destruct Hc as (f & [=] & _).
Qed.

Lemma close_take_ok b d n :
  yields nothing [] (close_take (W:=W) b d n)
    (fun v s => match v with inl (_, i) => valid i s | inr x => valid (cg_index x) s end)
    (taken_rights cg_operation) [].
Proof.
  open_section. apply post_bind, post_lease_for; [| |by eexists].
  { intros reason i Hv. by apply post_ret. }
  intros i a Ha _ Hst. destruct (negb _); [by eexists|].
  apply post_bind, post_of_res; [intros k Hk|by eexists].
  destruct (matched_slot_inv _ _ _ _ _ _ Hk) as (x & y & Hx & Hc & Hsl & Hy).
  apply post_bind. eapply post_on_world; [done|done|]. intros c w Hm1.
  eapply post_entering; [done|done|by eapply lease_at_lt|done|by eexists|]. intros g o' Hg Hm2.
  apply post_bind. eapply post_bind_session; [done|exact Hm2|exact Ha|exact Hx|exact Hy|].
  intros b1 z Hm3 Ha3 Hb1.
  apply post_bind. eapply post_put_session; [done|exact Hm3|exact Ha3|apply set_sessions_id|done|done|].
  intros m4 Hm4 Ha4 Hs4. apply post_bind, post_or_fail; [intros cr Hcr|intros _; leaves].
  apply post_bind, post_of_res; [intros dl Hdl|intros e _; leaves].
  apply post_ret. split; [exact Hm4|]. by eapply lease_at_lt.
Qed.

Lemma close_commit_ok b x v :
  yields (valid (cg_index x)) [RGuard (cg_operation x)] (close_commit (W:=W) b x v)
    (end_valid (cg_index x)) (fun _ => [RGuard (cg_operation x)]) [RGuard (cg_operation x)].
Proof.
  open_section. cbn zeta. apply post_bind. eapply post_clock; [done|done|]. intros n w Hn Hm1.
  apply post_bind, post_slot_at; [done|]. intros oa Hoa.
  destruct (oa ≫= terminal_reason_at n) as [reason|].
  { apply post_bind. eapply post_on_bio; [done|exact Hm1|]. intros u w' Hm2. by apply post_ret. }
  apply post_bind, post_or_fail; [intros a Ha|by eexists].
  assert (Hat : lease_at s (cg_index x) = Some a).
  { destruct oa as [a'|]; [cbn in Ha|done]. destruct (_ && _); [|done]. injection Ha as ->. exact Hoa. }
  apply post_bind, post_or_fail; [intros k Hk|by eexists].
  destruct (references a !! cs_target_token b) as [r|] eqn:Hr; [|done].
  eapply post_bury; [done|exact Hm1|exact Hat|exact Hr|]. intros s' Hm2.
  destruct v as [u|e]; [by apply post_ret|by eexists].
Qed.

Lemma close_session_ok r : serves nothing [] (close_session (W:=W) r).
Proof.
  unfold close_session. cbn zeta. eapply satisfies_do; [done|apply now_tame| |done..]. intros n Hn.
  eapply satisfies_yields; [done|apply close_take_ok| |done..].
  intros [[reason i]|x]; [apply serves_end|]. cbn [taken_rights].
  apply serves_operation. eapply satisfies_do; [apply stable_valid|apply on_bio_ok| |done..].
  intros v _. apply satisfies_section; [apply stable_valid|].
  intros s Hok HP Hh. pose proof (close_commit_ok (body r) x v s Hok HP Hh) as Hc. unfold post in *.
  destruct (close_commit _ _ _ s) as [[[]|[e|]] s']; [done|done| |].
  - by destruct Hc as (f & _ & Hc).
  - by destruct Hc as (f & [=] & _).
Qed.

Lemma close_lease_ok r : serves nothing [] (close_lease (W:=W) r).
Proof.
  unfold close_lease. cbn zeta.
  eapply (satisfies_yields _ _ _ (fun p => valid (fst p)) (fun _ => [])); [done| | |done..].
  { open_section. apply post_bind, post_lease_of_token; [intros i a Ha Ht|by eexists].
    apply post_bind. eapply post_expect_lease; [done|]. apply post_ret. split; [done|].
    by eapply lease_at_lt. }
  intros [i h]. eapply satisfies_seq; [apply terminalize_valid|apply stable_valid| |done..].
  intros []. by apply serves_ret.
Qed.

(** *** Idle sessions *)

Lemma expire_take_ok i k : tame (valid i) [] (expire_take (W:=W) i k) (fun _ => True)
  (fun x => [RGuard (eg_operation x)]) [].
Proof.
  open_section. apply post_bind, post_ready_lease; [intros a Ha Hst|by eexists].
  apply post_bind, post_or_fail; [intros x Hx|by eexists].
  destruct (sessions a !! k) as [y|] eqn:Hy; [cbn in Hx|done].
  destruct (s_crypto y) as [c|] eqn:Hc; [cbn in Hx|done]. injection Hx as <-.
  apply post_bind. eapply post_on_world; [done|done|]. intros cn w Hm1.
  apply post_bind. eapply post_enter; [done|exact HP|done| |by eexists]. intros g o' Hg Hm2.
  rewrite Hc. apply post_bind. eapply post_put; [done|exact Hm2|exact Ha| |].
  { apply goes_session. by eexists. }
  intros Hm3 _. by apply post_ret.
Qed.

Lemma owner_of_slot_some (a : Lease W) k t (r : Reference) :
  owner_of_slot a k = Some (t, r) -> references a !! t = Some r.
Proof.
  unfold owner_of_slot. intros Hh. apply elem_of_map_to_list.
  destruct (filter _ _) as [|p l] eqn:Hf; [done|]. injection Hh as ->.
  assert (Hin : (t, r) ∈ filter (fun p => session_slot (snd p) = Some k) (map_to_list (references a))).
  { rewrite Hf. by left. }
  by apply list_elem_of_filter in Hin as [_ Hin].
Qed.

Lemma expire_commit_ok P l i k id : tame P l (expire_commit (W:=W) i k id) (fun _ => True) (fun _ => l) l.
Proof.
  open_section. apply post_bind, post_get. destruct (lease_at s i) as [a|] eqn:Ha; [|by apply post_ret].
  apply post_bind.
  assert (Hplain : post (modify (put_lease i (set_sessions (delete k (sessions a)) a)) : BSec unit) s
    (fun v s' => True /\ moves s l s' l) (fun e s' => exists f, e = Fails f /\ moves s l s' l)).
  { eapply post_put; [done|done|exact Ha|apply goes_session_end|]. by intros Hm1 _. }
  destruct id as [id|]; [|by apply post_ret].
  destruct (owner_of_slot a k) as [[t r]|] eqn:Ho; [|by apply post_ret].
  apply owner_of_slot_some in Ho.
  apply post_bind. eapply post_put; [done|done|exact Ha|by apply goes_bind|]. intros Hm1 Ha1.
  apply post_bind. eapply post_clock; [done|exact Hm1|]. intros n w Hn Hm2.
  rewrite (tombstone_spec n Hn). apply post_bind, post_ret. cbn zeta. apply post_ret.
  eapply post_put; [done|exact Hm2|exact Ha1| |by intros Hm3 _].
  eapply goes_trans; [|apply goes_session_end].
  apply (goes_ref _ _ t (bind_session_id id r)); [apply lookup_insert_eq|done|done|done].
Qed.

Lemma expire_ok i k : satisfies (valid i) [] (expire_session (W:=W) i k) (fun _ => valid i) (fun _ => []).
Proof.
  eapply satisfies_do; [apply stable_valid|apply expire_take_ok| |done..]. intros x _.
  apply (satisfies_guarded _ _ _ _ (fun _ => valid i) (fun _ => [RGuard (eg_operation x)])); [|done|done].
  eapply satisfies_do; [done|apply deadline_ok| |done..]. intros d _.
  eapply satisfies_do; [done|apply on_bio_ok| |done..]. intros v _.
  eapply satisfies_do; [done|apply on_bio_ok| |done..]. intros u _.
  eapply satisfies_tame; [done|apply expire_commit_ok|done..].
Qed.

(** ** Pruning *)

Lemma goes_prune acts i n (a : Lease W) : lease_goes acts i a (prune_lease n a).
Proof.
  apply goes_refs.
  - intros t x [Hx _]%map_lookup_filter_Some. exists x. by split_and!.
  - intros Hst t r k Hr Hc Hk Hse. exists r. split; [|done]. apply map_lookup_filter_Some.
    split; [done|]. cbn. unfold retained. rewrite Hc, Hk. cbn.
    destruct Hse as [y ->]. done.
Qed.

Lemma gather_fmap_lease (f : Lease W -> Lease W) (ls : list (option (Lease W))) :
  (forall a, cleanup (f a) = cleanup a) ->
  gather (fun _ => lease_rights) ((fun o : option (Lease W) => f <$> o) <$> ls) =
  gather (fun _ => lease_rights) ls.
Proof.
  intros Hf. apply gather_fmap. intros i [a|]; [|done]. unfold lease_rights. cbn. by rewrite Hf.
Qed.

(** Every lease changes at once. *)
Lemma moves_all acts s l (f : Lease W -> Lease W) : broker_ok s ->
  (forall i a, lease_goes acts i a (f a)) ->
  moves_by acts s l (set_leases ((fun o : option (Lease W) => f <$> o) <$> leases s) s) l.
Proof.
  intros Hok Hg. set (s' := set_leases _ s).
  assert (Hat : forall i b, lease_at s' i = Some b -> exists a, lease_at s i = Some a /\ b = f a).
  { intros i b. unfold lease_at. subst s'. cbn. rewrite list_lookup_fmap.
    destruct (leases s !! i) as [[a|]|]; cbn; try done. intros [= <-]. by exists a. }
  assert (Hrefs : forall i a t, is_Some (references (f a) !! t) -> is_Some (references a !! t)).
  { intros i a t [x Hx]. destruct (lg_refs _ _ _ _ (Hg i a) t x Hx) as (y & -> & _). by eexists. }
  split; [|split].
  - split; try apply Hok; subst s'; cbn; rewrite ?length_fmap; try apply Hok.
    + intros i b (a & Ha & ->)%Hat. apply (lg_ok _ _ _ _ (Hg i a)). by eapply bo_lease.
    + intros i b o (a & Ha & ->)%Hat Ho Hacc. destruct (bo_closing s Hok i a o Ha Ho Hacc) as [Hst Hc].
      split; [|done]. pose proof (lg_state _ _ _ _ (Hg i a)) as Hle. rewrite Hst in Hle.
      by destruct (state (f a)).
    + intros i j a b (a' & Ha & ->)%Hat (b' & Hb & ->)%Hat.
      rewrite (lg_key _ _ _ _ (Hg i a')), (lg_key _ _ _ _ (Hg j b')). by apply (bo_one s Hok).
    + intros i b t (a & Ha & ->)%Hat Ht. eapply (bo_minted s Hok); [done|by eapply (Hrefs i)].
    + intros i j a b t (a' & Ha & ->)%Hat (b' & Hb & ->)%Hat Hta Htb.
      eapply (bo_tokens s Hok); [done|done|by eapply (Hrefs i)|by eapply (Hrefs j)].
    + split; [apply Hok|]. intros i k Hk. destruct (proj2 (bo_reserved s Hok) i k Hk) as [Hl Hn].
      split; [done|]. intros b (a & Ha & ->)%Hat. pose proof (lg_next _ _ _ _ (Hg i a)).
      specialize (Hn a Ha). lia.
  - split; try done; subst s'; cbn; rewrite ?length_fmap; try done.
    intros i o Ho. rewrite list_lookup_fmap, Ho. eexists. split; [done|].
    destruct o as [a|]; [|done]. by apply goes_evolves.
  - apply (balanced_same _ _ _ _ []); [| |done|by rewrite app_nil_r]; unfold rights_issued, rights_settled;
      subst s'; cbn.
    + by rewrite gather_fmap.
    + rewrite gather_fmap_lease; [done|]. intros a. apply (lg_cleanup _ _ _ _ (Hg 0%nat a)).
Qed.

Lemma prune_ok P l n : tame P l (prune (W:=W) n) (fun _ => True) (fun _ => l) l.
Proof.
  open_section. apply post_modify. split; [done|].
  set (s1 := set_stale_tokens _ s).
  assert (Hm1 : moves_by (fun r => r ∈ l) s l s1 l).
  { apply moves_quiet; [done|]. split; try done. by exists []. }
  eapply reached_then; [done|exact Hm1|]. intros Hok1.
  apply (moves_all _ s1 l (prune_lease n)); [done|]. intros i a. apply goes_prune.
Qed.
End Serving.
