(* ===== verification/Launching.v ===== *)
(** The preparation of a lease in the logic: the route of a request, the launch on its own
    thread, and what becomes of its result. *)

From S2P Require Import Prelude Errors Crates Outer Records Payloads Reassembly NoiseIO Lease Bootstrap Session Control Adapter RawTransport RawReads Threads Interference Broker BrokerOps Handlers Rights Steps Moves Primitives Triples Reaping Serving.

Section Launching.
Context `{Minicbor} `{Snow} `{Sha2} `{Base64} `{PlatformHost W} `{!LongClock W}.
Context (ios android : PlatformTargetAdapter).
Implicit Types (s : Broker W) (l : list Right) (i j : nat).

#[local] Hint Resolve stable_valid stable_nothing : core.

Lemma rights_mono l1 l2 s s' : (forall r, r ∈ l1 -> r ∈ l2) -> evolves l1 s s' -> evolves l2 s s'.
Proof. intros Hl. by apply broker_evolves_mono. Qed.

(** ** What a launch relies on *)

(** The lease of a launch is not made ready by another. *)
Definition launching i s : Prop :=
  valid i s /\ forall a, lease_at s i = Some a ->
    state a <> LeaseReady /\ terminal_cleanup_failed a = false /\ cleanup a = None.
Definition not_ready i s : Prop :=
  valid i s /\ forall a, lease_at s i = Some a -> state a <> LeaseReady.
(** What is known of the end of a launch that failed to clean up. *)
Definition unclean i s : Prop :=
  valid i s /\ forall a, lease_at s i = Some a -> state a <> LeaseReady /\ cleanup a = None.

Lemma lease_before s s' l' i (b : Lease W) : broker_evolves (fun r => r ∈ l') s s' -> valid i s ->
  lease_at s' i = Some b ->
  exists a, lease_at s i = Some a /\ lease_evolves (fun r => r ∈ l') i s s' a b.
Proof.
  intros He Hv Hb. destruct (valid_lookup i s Hv) as (o & Ho & Hat).
  destruct (evolves_slot _ _ _ _ _ He Ho) as (o' & Ho' & Hs).
  apply lease_at_lookup in Hb. rewrite Hb in Ho'. injection Ho' as <-.
  destruct o as [a|]; [by exists a|done].
Qed.

Lemma other_launch s l l' i c : RLaunch i c ∈ l -> broker_ok s -> holds s (l ++ l') -> RLaunch i c ∈ l' -> False.
Proof. intros Hr Hok Hh Hr'. by apply (right_once s l l' (RLaunch i c)). Qed.

Lemma ready_kept s s' l l' i c (a b : Lease W) : RLaunch i c ∈ l -> broker_ok s -> holds s (l ++ l') ->
  lease_evolves (fun r => r ∈ l') i s s' a b -> state a <> LeaseReady -> state b <> LeaseReady.
Proof.
  intros Hr Hok Hh Hs Hn Hb. pose proof (lv_state _ _ _ _ _ _ Hs) as Hle. rewrite Hb in Hle.
  destruct (state a) eqn:Ha; try done. destruct (lv_ready _ _ _ _ _ _ Hs Ha Hb) as [Ht Hf].
  destruct c; [by apply (other_launch s l l' i true)|by apply (other_launch s l l' i false)].
Qed.
Lemma stable_not_ready l i c : RLaunch i c ∈ l -> stable l (not_ready i).
Proof.
  intros Hr s s' l' [Hv Ha] Hok Hh He Hok'. split; [by apply (stable_valid l i s s' l')|]. intros b Hb.
  destruct (lease_before _ _ _ _ _ He Hv Hb) as (a & Hat & Hs).
  apply (ready_kept s s' l l' i c a b); try done. by apply Ha.
Qed.
Lemma cleanup_kept s s' l l' i (a b : Lease W) : RLaunch i true ∈ l -> broker_ok s -> holds s (l ++ l') ->
  lease_evolves (fun r => r ∈ l') i s s' a b -> cleanup a = None -> cleanup b = None.
Proof.
  intros Hr Hok Hh Hs Hn. destruct (cleanup b) as [x|] eqn:Hx; [|done].
  destruct (lv_cleanup _ _ _ _ _ _ Hs x Hx) as [|[_ Ht]]; [congruence|]. exfalso. by apply (other_launch s l l' i true).
Qed.
Lemma stable_unclean l i : RLaunch i true ∈ l -> stable l (unclean i).
Proof.
  intros Hr s s' l' [Hv Ha] Hok Hh He Hok'. split; [by apply (stable_valid l i s s' l')|]. intros b Hb.
  destruct (lease_before _ _ _ _ _ He Hv Hb) as (a & Hat & Hs). destruct (Ha a Hat).
  split; [by apply (ready_kept s s' l l' i true a b)|by apply (cleanup_kept s s' l l' i a b)].
Qed.
Lemma stable_launching l i : RLaunch i true ∈ l -> stable l (launching i).
Proof.
  intros Hr s s' l' [Hv Ha] Hok Hh He Hok'. split; [by apply (stable_valid l i s s' l')|]. intros b Hb.
  destruct (lease_before _ _ _ _ _ He Hv Hb) as (a & Hat & Hs). destruct (Ha a Hat) as (Hn & Hf & Hc).
  split_and!; [by apply (ready_kept s s' l l' i true a b)| |by apply (cleanup_kept s s' l l' i a b)].
  destruct (terminal_cleanup_failed b) eqn:Hb'; [|done].
  destruct (lv_failed _ _ _ _ _ _ Hs Hb'); [congruence|]. exfalso. by apply (other_launch s l l' i true).
Qed.

(** ** Rejections *)

(** A program that always fails, and keeps some rights. *)
Definition fails_with {A} P l (kept : list Right) (m : BProg (W:=W) A) : Prop :=
  satisfies P l m (fun r s => match r with Ok _ => False | Err _ => True end) (fun _ => kept).

Lemma fails_serves {A} P l (m : BProg (W:=W) A) : stable l P -> fails_with P l [] m -> serves P l m.
Proof.
  intros Hst Hm. eapply satisfies_conseq; [exact Hm|done|done| |done|done].
  intros [x|e] s s' l'; done.
Qed.
Lemma fails_throw {A} P l kept d (f : ControlFailure) : stable l P -> l ≡ₚ kept ++ d ->
  Forall right_droppable d -> fails_with (A:=A) P l kept (p_throw f).
Proof. intros Hst Hl Hd. by apply (satisfies_lift_drop _ l d); [apply rights_mono|..]. Qed.
Lemma fails_pre {A} P P' l kept (m : BProg (W:=W) A) : fails_with P l kept m -> stable l P' ->
  (forall s, P' s -> P s) -> fails_with P' l kept m.
Proof. intros Hm Hst Hp. eapply satisfies_pre; [exact Hm|done|]. intros s _. apply Hp. Qed.
Lemma fails_guarded {A} P l g kept (m : BProg (W:=W) A) :
  fails_with P l (RGuard g :: kept) m -> fails_with P l kept (guarded g m).
Proof. intros Hm. eapply satisfies_guarded; [exact Hm|done|intros r; apply stable_pure]. Qed.

(** The failure of a program that is not run for its success. *)
Lemma with_error_handoff_ok P l kept e (m : BProg (W:=W) ControlSuccess) :
  fails_with P l kept m -> fails_with P l kept (with_error_handoff e m).
Proof.
  intros Hm. apply (satisfies_bind _ _ _ _ (fun r _ => match r with Ok _ => False | Err _ => True end) (fun _ => kept)).
  - apply satisfies_attempt. exact Hm.
  - intros [x|f]; [by apply satisfies_false|]. apply (fails_throw _ kept kept []); [done| |done].
    by rewrite app_nil_r.
Qed.

Lemma goes_reject acts i reason t (a : Lease W) : state a <> LeaseReady ->
  lease_goes acts i a
    (let b := insert_terminal_reason reason (if bool_decide (state a = LeaseClosing) then a else set_state LeaseStale a) in
     set_references (delete t (references b)) b).
Proof.
  intros Hn. cbn zeta. set (b0 := if bool_decide _ then _ else _).
  assert (Hg : lease_goes acts i a b0).
  { subst b0. case_bool_decide; [apply goes_refl|]. apply goes_state; [|done]. by destruct (state a). }
  eapply goes_trans; [exact Hg|]. eapply goes_trans; [by apply (goes_same _ _ b0 (insert_terminal_reason reason b0))|].
  apply goes_refs.
  - intros u x [_ Hx]%lookup_delete_Some. by exists x.
  - intros Hst. exfalso. apply Hn, (lg_ready _ _ _ _ Hg). exact Hst.
Qed.

Lemma quiet_mark k s : quiet s (mark_failed k s).
Proof. split; try done. by exists []. Qed.
Lemma quiet_reapers m s : quiet s (add_reapers m s).
Proof. split; try done. by exists []. Qed.

Lemma reject_with_cleanup_ok l kept d c reason cf : stable l (not_ready (c_index c)) ->
  l ≡ₚ kept ++ d -> Forall right_droppable d ->
  fails_with (not_ready (c_index c)) l kept (reject_with_cleanup (W:=W) c reason cf).
Proof.
  intros Hst Hl Hd. apply (satisfies_then _ _ _ (fun _ => nothing) (fun _ => l)); [done| |].
  - open_section. destruct HP as [Hv Hn]. apply post_bind, post_modify.
    set (s1 := match lease_at s (c_index c) with Some _ => _ | None => _ end).
    assert (Hm1 : moves_by (fun r => r ∈ l) s l s1 l).
    { subst s1. destruct (lease_at s (c_index c)) as [a|] eqn:Ha; [|done].
      eapply moves_goes; [done|exact Ha|]. apply goes_reject. by apply Hn. }
    destruct cf; [|by split]. apply post_modify. split; [|done].
    eapply reached_quiet; [done|exact Hm1|apply quiet_mark].
  - intros []. by apply (fails_throw _ _ _ d).
Qed.
Lemma reject_ok l kept d c reason : stable l (not_ready (c_index c)) ->
  l ≡ₚ kept ++ d -> Forall right_droppable d ->
  fails_with (not_ready (c_index c)) l kept (reject (W:=W) c reason).
Proof. apply reject_with_cleanup_ok. Qed.

Lemma unclean_not_ready i s : unclean i s -> not_ready i s.
Proof. intros [Hv Ha]. split; [done|]. intros a Hat. by destruct (Ha a Hat). Qed.
Lemma launching_unclean i s : launching i s -> unclean i s.
Proof. intros [Hv Ha]. split; [done|]. intros a Hat. destruct (Ha a Hat) as (? & _ & ?). done. Qed.

(** ** What is prepared is discarded *)

(** The rights of a prepared launch in the hands of its request. *)
Definition commit_rights (p : Prepared) : list Right :=
  prepared_rights p ++ [RLaunch (fst (operation p)) true].

Lemma quiet_failed {E} P l k : tame P l (modify (mark_failed (W:=W) k) : Sec (Broker W) E unit) (fun _ => True) (fun _ => l) l.
Proof. apply quiet_tame. intros s. apply quiet_mark. Qed.

Lemma discard_prepared_ok c p reason : fst (operation p) = c_index c ->
  fails_with (unclean (c_index c)) (commit_rights p) [] (discard_prepared (W:=W) c p reason).
Proof.
  intros Hc. set (i := c_index c). set (g := operation p). set (receipt := bs_cleanup (success p)).
  set (la := [RLaunch i false; RLaunch i true]).
  replace (commit_rights p) with (RGuard g :: RReceipt receipt :: la)
    by (unfold commit_rights, prepared_rights; by rewrite Hc).
  assert (Hst : forall l, stable (l ++ la) (unclean i)) by (intros l; apply stable_unclean; subst la; set_solver).
  apply fails_guarded.
  apply (satisfies_then _ _ _ (fun _ => unclean i) (fun _ => RGuard g :: RReceipt receipt :: la));
    [apply (Hst [_; _])| |].
  { open_section. eapply post_on_bio; [done|done|]. intros v x Hm'. by split. }
  intros []. apply (satisfies_then _ _ _ (fun _ => unclean i) (fun _ => RGuard g :: RReceipt receipt :: la));
    [apply (Hst [_; _])| |].
  { open_section. eapply post_cleanup_deadline; [done|done|]. intros d x Hm'. by split. }
  intros d. apply (satisfies_then _ _ _ (fun _ => unclean i) (fun _ => RGuard g :: la));
    [apply (Hst [_; _])| |].
  { open_section. eapply post_spend with (l := RGuard g :: la); [exact Hok| |].
    - eapply moves_by_perm; [exact Hm|solve_Permutation].
    - intros v x Hm'. by split. }
  intros v. apply (satisfies_bind _ _ _ _ (fun _ => not_ready i) (fun _ => RGuard g :: la)).
  - destruct (is_ok v).
    { apply satisfies_ret; [apply (Hst [_])|done|]. intros s _. apply unclean_not_ready. }
    apply (satisfies_sure _ _ _ (fun _ => not_ready i) (fun _ => RGuard g :: la)); [apply (Hst [_])| |done|done].
    open_section. apply post_modify. destruct HP as [Hv Hn].
    destruct (lease_at s (c_index c)) as [a|] eqn:Ha.
    + destruct (Hn a Ha) as [Hnr Hcl]. split.
      * eapply moves_goes; [done|exact Ha|]. apply goes_failed; [|done]. subst la. set_solver.
      * split; [by eapply lease_at_lt, lease_at_put|]. intros b Hb.
        rewrite (lease_at_put s i a) in Hb by done. by injection Hb as <-.
    + split; [done|]. split; [done|]. intros b Hb. change (lease_at s (c_index c) = Some b) in Hb. congruence.
  - intros []. apply (reject_with_cleanup_ok _ _ la).
    + apply (stable_not_ready _ _ true). subst la. set_solver.
    + done.
    + by repeat constructor.
Qed.

Lemma discard_transport_ok c p e : fst (operation p) = c_index c ->
  fails_with (unclean (c_index c)) (commit_rights p) [] (discard_prepared_transport (W:=W) c p e).
Proof. intros Hc. apply with_error_handoff_ok. by apply discard_prepared_ok. Qed.

(** ** The commit *)

(** What drops a guard on a failure that cannot be. *)
Lemma satisfies_dropping {A B} P l g (m : BProg (W:=W) A) X KX (k : A -> BProg (W:=W) B) Q K :
  satisfies P l m (fun r s => match r with Ok a => X a s | Err _ => False end)
    (fun r => match r with Ok a => KX a | Err _ => [] end) ->
  (forall a, satisfies (X a) (KX a) (k a) Q K) -> satisfies P l (p_bind (dropping g m) k) Q K.
Proof.
  intros Hm Hk F c Hf Hc. apply (Hm F _ Hf). intros [a|e].
  - by apply (Hk a F c).
  - apply ok_here. by intros s _ [[] _].
Qed.

Lemma commit_rights_perm p : commit_rights p ≡ₚ
  RReceipt (bs_cleanup (success p)) :: RGuard (operation p) :: launch_rights (fst (operation p)).
Proof. unfold commit_rights, prepared_rights, launch_rights. solve_Permutation. Qed.

Lemma commit_stable p i : fst (operation p) = i -> stable (commit_rights p) (launching i).
Proof. intros <-. apply stable_launching. unfold commit_rights. set_solver. Qed.
Lemma commit_unclean p i : fst (operation p) = i -> stable (commit_rights p) (unclean i).
Proof. intros <-. apply stable_unclean. unfold commit_rights. set_solver. Qed.

Lemma commit_lease_ok c p rd core n e : fst (operation p) = c_index c ->
  yields (launching (c_index c)) (commit_rights p) (commit_lease (W:=W) c p rd core n e)
    (fun o => match o with Some _ => nothing | None => unclean (c_index c) end)
    (fun o => match o with Some _ => [] | None => commit_rights p end) [].
Proof.
  intros Hg. open_section. apply post_bind, post_get.
  pose proof (launching_unclean _ _ HP) as Hun. destruct HP as [Hv Hl].
  destruct (lease_at s (c_index c)) as [a|] eqn:Ha; [|by apply post_ret].
  destruct (Hl a eq_refl) as (Hn & Hf & Hcl).
  destruct (bool_decide_reflect (key a = c_key c)) as [Hk|]; [|by apply post_ret].
  destruct (bool_decide_reflect (state a = LeasePreparing)) as [Hst|]; [|by apply post_ret].
  cbn [andb negb]. destruct (references a !! c_token c) as [x|] eqn:Hx; [|by apply post_ret].
  destruct (bool_decide_reflect (ref_state x = RefPending)) as [Hp|]; [|by apply post_ret].
  cbn [negb]. apply post_bind, post_modify. match goal with |- post _ (put_lease _ ?x _) _ _ => set (b := x) end.
  assert (Hacts : forall c0, RLaunch (c_index c) c0 ∈ commit_rights p).
  { intros c0. rewrite commit_rights_perm, Hg. unfold launch_rights. destruct c0; set_solver. }
  assert (Hm1 : moves_by (fun r => r ∈ commit_rights p) s (commit_rights p) (put_lease (c_index c) b s)
                  (RGuard (operation p) :: launch_rights (c_index c))).
  { eapply reached_then; [done|eapply moves_by_perm; [exact Hm|apply commit_rights_perm]|].
    intros _. rewrite Hg. by eapply (moves_commit _ _ _ (c_index c) a b (c_token c) x). }
  apply post_bind. eapply post_leave; [done|done|exact Hm1|]. intros o' Hm2. apply post_ret.
  split; [|done]. apply (moves_by_drop _ _ _ _ [] _ Hm2). by repeat constructor.
Qed.

Lemma reference_expiry_ok n : in_time n -> exists e, reference_expiry n = Ok e.
Proof.
  intros [Hge Hlt]. unfold reference_expiry.
  assert (Hc : checked_add n READY_REFERENCE_TTL_MS = Some (n + READY_REFERENCE_TTL_MS)).
  { apply checked_add_some. unfold U64_MAX, MAX_SAFE, READY_REFERENCE_TTL_MS in *. split; [done|lia]. }
  rewrite Hc. cbn. destruct (Z.leb_spec (n + READY_REFERENCE_TTL_MS) MAX_SAFE); [by eexists|].
  unfold READY_REFERENCE_TTL_MS in *. lia.
Qed.
Lemma abs_ok v : 1 <= v <= MAX_SAFE -> exists d, abs v = Ok d.
Proof.
  intros [Hge Hlt]. unfold abs, AbsoluteDeadline_new.
  destruct (Z.leb_spec 1 v); [|lia]. destruct (Z.leb_spec v MAX_SAFE); [|lia]. cbn.
  destruct (Z.eqb_spec v 0); [lia|]. by eexists.
Qed.
Lemma abs_inv v d : abs v = Ok d -> 1 <= v <= MAX_SAFE.
Proof.
  unfold abs. destruct (Z.leb_spec 1 v), (Z.leb_spec v MAX_SAFE); done.
Qed.

Lemma commit_ok c p : fst (operation p) = c_index c -> 1 <= c_deadline c <= MAX_SAFE ->
  serves (launching (c_index c)) (commit_rights p) (commit (W:=W) c p).
Proof.
  intros Hg Hd. set (i := c_index c). set (l := commit_rights p).
  pose proof (commit_stable p i Hg) as Hst. pose proof (commit_unclean p i Hg) as Hsu.
  assert (Hdis : forall reason, serves (launching i) l (discard_prepared (W:=W) c p reason)).
  { intros reason. apply fails_serves; [done|]. eapply fails_pre; [by apply discard_prepared_ok|done|].
    apply launching_unclean. }
  assert (Hnow : satisfies (launching i) l (atomically now)
    (fun r s => match r with Ok n => in_time n /\ launching i s | Err _ => False end)
    (fun r => match r with Ok _ => l | Err _ => [] end)).
  { apply (satisfies_sure _ _ _ (fun n s => in_time n /\ launching i s) (fun _ => l)); [done| |done|done].
    open_section. eapply post_clock; [done|done|]. intros n x Hn Hm'. by split. }
  unfold commit. cbn zeta.
  eapply (satisfies_dropping _ _ _ _ _ (fun _ => l)); [exact Hnow|]. intros n. apply satisfies_pure. intros Hn.
  destruct (commit_rejection_reason _ _ _) as [reason|]; [apply Hdis|].
  destruct (abs_ok (c_deadline c) Hd) as [d ->].
  eapply (satisfies_dropping _ _ _ _ (fun _ => launching i) (fun _ => l)); [by apply satisfies_lift|]. intros d'.
  apply (satisfies_then _ _ _ (fun _ => launching i) (fun _ => l)); [done| |].
  { open_section. eapply post_conn_call; [done|done|]. intros v x Hm'. by split. }
  intros [[v rd] core]. destruct v as [[]|error].
  2:{ apply fails_serves; [done|]. eapply fails_pre; [by apply discard_transport_ok|done|].
      apply launching_unclean. }
  eapply (satisfies_dropping _ _ _ _ _ (fun _ => l)); [exact Hnow|]. intros n2. apply satisfies_pure. intros Hn2.
  destruct (commit_rejection_reason _ _ _) as [reason|]; [apply Hdis|].
  destruct (reference_expiry_ok n2 Hn2) as [e ->].
  eapply (satisfies_dropping _ _ _ _ (fun _ => launching i) (fun _ => l)); [by apply satisfies_lift|]. intros e'.
  eapply satisfies_yields; [done|by apply commit_lease_ok| |done..].
  intros [reply|]; [by apply serves_ret|]. apply fails_serves; [done|]. by apply discard_prepared_ok.
Qed.

(** ** The thread of a launch *)

(** What its thread holds of a result. *)
Definition worker_rights i (v : result TransportFailure Prepared) : list Right :=
  match v with Ok p => prepared_rights p | Err _ => [RLaunch i false] end.
Definition worker_value i (g : Guard) (v : result TransportFailure Prepared) : Prop :=
  match v with Ok p => operation p = g /\ fst g = i | Err _ => True end.
Definition working n i s : Prop := not_ready i s /\ owners (books s) !! n = Some i.

Lemma stable_working l n i : RLaunch i false ∈ l -> stable l (working n i).
Proof.
  intros Hr. apply stable_and; [by apply (stable_not_ready _ _ false)|].
  intros s s' l' Ho _ _ He _. by apply (be_owners _ _ _ He).
Qed.
Lemma not_ready_same i s s' : leases s' = leases s -> not_ready i s -> not_ready i s'.
Proof. unfold not_ready, valid, lease_at. by intros ->. Qed.

Lemma reap_slot_ok c cf : sure (not_ready (c_index c)) [RLaunch (c_index c) false] (reap_slot (W:=W) c cf)
  (fun _ => nothing) (fun _ => []).
Proof.
  open_section. destruct HP as [Hv Hn]. apply post_modify.
  set (s1 := match lease_at s (c_index c) with Some _ => _ | None => _ end).
  set (l := [RLaunch (c_index c) false]).
  assert (Hm1 : moves_by (fun r => r ∈ l) s l s1 l).
  { subst s1. destruct (lease_at s (c_index c)) as [a|] eqn:Ha; [|done].
    destruct (bool_decide_reflect (state a = LeaseStale)) as [Hst|Hst].
    - eapply moves_vacate; [done|exact Ha| |congruence].
      destruct (cleanup a) as [x|] eqn:Hx; [|done].
      destruct (lo_cleanup a (bo_lease s Hok _ a Ha) x Hx); congruence.
    - eapply moves_goes; [done|exact Ha|]. apply goes_refs.
      + intros t x. rewrite lookup_fmap. destruct (references a !! t) as [y|]; [|done].
        intros [= <-]. exists y. split; [done|]. split; [by destruct (ref_state y)|done].
      + intros Hr. by destruct (Hn a eq_refl). }
  assert (Hm2 : moves_by (fun r => r ∈ l) s l s1 []).
  { apply (moves_by_drop _ _ _ _ [] _ Hm1). by repeat constructor. }
  destruct cf; (split; [|done]); [|done]. eapply reached_quiet; [done|exact Hm2|apply quiet_mark].
Qed.

Lemma reap_late_ok c v g : worker_value (c_index c) g v ->
  serves (not_ready (c_index c)) (worker_rights (c_index c) v) (reap_late (W:=W) c v).
Proof.
  intros Hv. set (i := c_index c).
  assert (Hst : forall l, stable (l ++ [RLaunch i false]) (not_ready i)).
  { intros l. apply (stable_not_ready _ _ false). set_solver. }
  apply (satisfies_bind _ _ _ _ (fun _ => not_ready i) (fun _ => [RLaunch i false])).
  - destruct v as [p|e]; cbn [worker_rights].
    2:{ apply satisfies_ret; [apply (Hst [])|done|done]. }
    destruct Hv as [Hop Hg]. set (receipt := bs_cleanup (success p)).
    replace (prepared_rights p) with ([RGuard (operation p); RReceipt receipt] ++ [RLaunch i false])
      by (unfold prepared_rights; rewrite Hop, Hg; done).
    pose proof (satisfies_guarded_keep (W:=W) (E:=ControlFailure) (A:=bool)) as Hguard.
    apply (Hguard _ _ _ _ (fun r => match r with Ok _ => not_ready i | Err _ => nothing end)
      (fun r => match r with Ok _ => [RLaunch i false] | Err _ => [] end)); clear Hguard.
    + apply (satisfies_then _ _ _ (fun _ => not_ready i)
        (fun _ => [RGuard (operation p); RReceipt receipt] ++ [RLaunch i false])); [apply Hst| |].
      { open_section. eapply post_on_bio; [done|done|]. intros u x Hm'. by split. }
      intros []. apply (satisfies_bind _ _ _ _ (fun d s => is_ok d = true /\ not_ready i s)
        (fun _ => [RGuard (operation p); RReceipt receipt] ++ [RLaunch i false])).
      { apply satisfies_attempt.
        apply (satisfies_sure _ _ _ (fun _ => not_ready i)
          (fun _ => [RGuard (operation p); RReceipt receipt] ++ [RLaunch i false])); [apply Hst| |done|done].
        open_section. eapply post_cleanup_deadline; [done|done|]. intros d x Hm'. by split. }
      intros d. apply satisfies_pure. intros Hd. destruct d as [d|]; [|done].
      apply (satisfies_then _ _ _ (fun _ => not_ready i) (fun _ => [RGuard (operation p)] ++ [RLaunch i false]));
        [apply Hst| |].
      { open_section. eapply post_spend with (l := [RGuard (operation p)] ++ [RLaunch i false]); [exact Hok| |].
        - eapply moves_by_perm; [exact Hm|]. subst receipt. solve_Permutation.
        - intros u x Hm'. by split. }
      intros u. apply satisfies_ret; [apply Hst|done|done].
    + intros [b|e]; [apply (Hst [_])|done].
    + intros [b|e] s j o; [by apply not_ready_same|done].
  - intros cf. eapply satisfies_then; [apply (Hst [])|apply reap_slot_ok|]. intros [].
    eapply satisfies_tame; [done|apply quiet_tame; intros s; apply quiet_reapers|done..].
Qed.

(** The result of a launch is published once: its cell still waits for it, or was abandoned. *)
Lemma publish_ok n i g v : worker_value i g v ->
  sure (working n i) (RProducer n :: worker_rights i v) (publish (W:=W) n v)
    (fun o => match o with Some v' => fun s => v' = v /\ not_ready i s | None => nothing end)
    (fun o => match o with Some _ => worker_rights i v | None => [] end).
Proof.
  intros Hv. open_section. destruct HP as [Hnr Hown].
  assert (Hp : RProducer n ∈ RProducer n :: worker_rights i v) by (by left).
  pose proof (right_unsettled s _ (RProducer n) Hok Hh eq_refl Hp) as Hu.
  destruct (proj1 (issued_cell s n (RProducer n) (or_introl eq_refl)) (right_issued s _ _ Hh Hp)) as [c Hc].
  assert (Hcell : RProducer n ∉ cell_done n c).
  { intros Hin. apply Hu. unfold rights_settled. rewrite !elem_of_app. do 4 right.
    apply elem_of_gather. by exists n, c. }
  apply post_bind, post_get. rewrite Hc. destruct c as [|w| |]; cbn in Hcell; try (by set_solver).
  - apply post_bind, post_modify, post_ret. split; [|done].
    assert (Hm1 : moves_by (fun r => r ∈ RProducer n :: worker_rights i v) s (RProducer n :: worker_rights i v)
      (set_cell n (CellReady v) s) (match v with Ok _ => [] | Err _ => [RLaunch i false] end)).
    { eapply moves_cell; [done|exact Hc| |].
      - intros p [= ->]. destruct Hv as [-> <-]. done.
      - destruct v as [p|e]; cbn; [solve_Permutation|solve_Permutation]. }
    destruct v as [p|e]; [done|]. apply (moves_by_drop _ _ _ _ [] _ Hm1). by repeat constructor.
  - apply post_bind, post_modify, post_ret. split; [|split; [done|by eapply not_ready_same]].
    eapply moves_cell; [done|exact Hc|done|]. cbn. solve_Permutation.
Qed.

(** *** From the launch to its result *)

Section Posts.
Context (acts : Right -> Prop) (s0 : Broker W) (l0 : list Right) (Hi : broker_ok s0).
Local Abbreviation reached := (moves_by acts s0 l0).
Implicit Types (X : Stop ControlFailure -> Broker W -> Prop).

Definition launch_receipts (v : PRes LaunchedTargetIo) : list CleanupReceipt :=
  match v with Ok t => [lt_cleanup t] | Err _ => [] end.
Lemma post_launch p descriptor cn d s l (Q : PRes LaunchedTargetIo -> Broker W -> Prop) X :
  reached s (RPending p :: l) ->
  (forall v x, let s' := with_books (books_consume p (launch_receipts v)) (set_bio x s) in
     reached s' ((RReceipt <$> launch_receipts v) ++ l) -> Q v s') ->
  post (launch p descriptor cn d) s Q X.
Proof.
  intros Hm Hq. apply post_bind. eapply post_on_world; [done|exact Hm|]. intros v x Hm1.
  apply post_bind, post_modify, post_ret. apply (Hq v x).
  eapply reached_then; [done|exact Hm1|]. intros Hok. by apply moves_consume.
Qed.
Lemma post_abort p d s l (Q : PRes unit -> Broker W -> Prop) X :
  reached s (RPending p :: l) ->
  (forall v x x', let s' := with_books (books_consume p []) (set_bio x (set_bio x' s)) in reached s' l -> Q v s') ->
  post (abort p d) s Q X.
Proof.
  intros Hm Hq. apply post_bind. eapply post_on_world; [done|exact Hm|]. intros cn x0 Hm0.
  apply post_bind. eapply post_on_world; [done|exact Hm0|]. intros v x Hm1.
  apply post_bind, post_modify, post_ret. apply (Hq v x).
  eapply reached_then; [done|exact Hm1|]. intros Hok. by apply (moves_consume _ _ l).
Qed.
Lemma bootstrap_receipt raw cn receipt private pbs e b d x v x' :
  bootstrap raw cn receipt private pbs e b d x = (Ok v, x') -> bs_cleanup (W:=W) v = receipt.
Proof.
  unfold bootstrap. destruct (with_conn _ _ _ x) as [[[[[ack lease] rd] u]|f] x1].
  - by intros [= <- _].
  - unfold bootstrap_failed. destruct (io_cancellation _) as [c x2].
    by destruct ((do deadline <- RawTransport.cleanup_deadline; run ensure_deadline deadline; io_cleanup receipt c deadline) x2)
      as [[]].
Qed.
Lemma post_bootstrap t private pbs b d s l (Q : TRes BootstrapSuccess -> Broker W -> Prop) X :
  reached s (RReceipt (lt_cleanup t) :: l) ->
  (forall v x, reached (set_bio x s) (RReceipt (bs_cleanup v) :: l) -> Q (Ok v) (set_bio x s)) ->
  (forall e x, let s' := with_books (books_spend (lt_cleanup t)) (set_bio x s) in reached s' l -> Q (Err e) s') ->
  post (run_bootstrap t private pbs b d) s Q X.
Proof.
  intros Hm Hq He. unfold post, run_bootstrap. destruct (draw_entropy _) as [e w].
  destruct (bootstrap _ _ _ _ _ _ _ _ _) as [[v|f] x] eqn:Hb; cbn [is_ok].
  - apply Hq. rewrite (bootstrap_receipt _ _ _ _ _ _ _ _ _ _ _ Hb).
    eapply reached_quiet; [done|exact Hm|apply quiet_bio].
  - apply (He f x). eapply reached_then; [done|eapply reached_quiet; [done|exact Hm|apply quiet_bio]|].
    intros Hok. by apply moves_spend.
Qed.
End Posts.

Definition reservation_ok (r : Reservation) : Prop :=
  fst (r_operation r) = r_index r /\ 1 <= r_deadline r <= MAX_SAFE.

Lemma working_same n i s s' : leases s' = leases s -> owners (books s') = owners (books s) ->
  working n i s -> working n i s'.
Proof. intros Hl Ho [Hn Hw]. split; [by eapply not_ready_same|by rewrite Ho]. Qed.

(** A result that is known, once its operation is left. *)
Lemma guarded_lift {A} P l g (v : CRes A) (Q : CRes A -> Broker W -> Prop) K :
  stable (RGuard g :: l) P -> (forall s j o, P s -> P (put_ledger j o s)) -> (forall s, P s -> Q v s) ->
  K v = l -> satisfies P (RGuard g :: l) (guarded g (p_lift v : BProg (W:=W) A)) Q K.
Proof.
  intros Hst Hk Hq HK. apply (satisfies_map (fun _ : CRes unit => v)).
  apply (satisfies_sure _ _ _ (fun _ => P) (fun _ => l)); [done| |intros ? s _; apply Hq|intros ?; exact HK].
  open_section. eapply post_leave; [done|done|done|]. intros o' Hm'. split; [done|]. by apply Hk.
Qed.

Lemma bootstrap_limit_ok n v : in_time n -> 1 <= v <= MAX_SAFE ->
  exists w d, bootstrap_deadline n v = Ok w /\ abs w = Ok d.
Proof.
  intros [Hge Hlt] Hv. unfold bootstrap_deadline.
  assert (Hc : checked_add n PREPARE_BOOTSTRAP_MS = Some (n + PREPARE_BOOTSTRAP_MS)).
  { apply checked_add_some. unfold U64_MAX, MAX_SAFE, PREPARE_BOOTSTRAP_MS in *. split; [done|lia]. }
  rewrite Hc. cbn. destruct (abs_ok (Z.min v (n + PREPARE_BOOTSTRAP_MS))) as [d Hd].
  - unfold PREPARE_BOOTSTRAP_MS, MAX_SAFE in *. lia.
  - by exists (Z.min v (n + PREPARE_BOOTSTRAP_MS)), d.
Qed.

Lemma worker_ok n c r p descriptor b d : reservation_ok r -> c_index c = r_index r ->
  serves (working n (r_index r))
    [RPending p; RGuard (r_operation r); RProducer n; RLaunch (r_index r) false]
    (launch_worker (W:=W) n c r p descriptor b d).
Proof.
  intros [Hg Hd] Hc. set (i := r_index r) in *. set (g := r_operation r) in *.
  set (la := [RProducer n; RLaunch i false]).
  assert (Hst : forall l, stable (l ++ la) (working n i)).
  { intros l. apply stable_working. subst la. set_solver. }
  set (X (v : result TransportFailure Prepared) s := worker_value i g v /\ working n i s).
  set (K v := RProducer n :: worker_rights i v).
  set (Q := fun v : CRes (result TransportFailure Prepared) => match v with Ok v => X v | Err _ => nothing end).
  set (KQ := fun v : CRes (result TransportFailure Prepared) => match v with Ok v => K v | Err _ => [] end).
  assert (Hfailed : forall e, satisfies (working n i) (RGuard g :: la) (guarded g (p_lift (Ok (Err e)))) Q KQ).
  { intros e. apply guarded_lift; [apply (Hst [_])| |by intros s Hw|done].
    intros s j o. by apply working_same. }
  unfold launch_worker. cbn zeta.
  apply (satisfies_then _ _ _ (fun _ => working n i)
    (fun v => (RReceipt <$> launch_receipts v) ++ RGuard g :: la)); [apply (Hst [_; _])| |].
  { open_section. eapply post_launch; [done|exact Hm|]. intros v x s' Hm'. by split. }
  intros v. apply (satisfies_bind _ _ _ _ X K).
  - destruct v as [t|failure]; cbn [launch_receipts fmap list_fmap app]; [|apply Hfailed].
    set (lt := RReceipt (lt_cleanup t) :: RGuard g :: la).
    apply (satisfies_bind _ _ _ _ (fun lim s => is_ok lim = true /\ working n i s) (fun _ => lt)).
    + apply satisfies_attempt.
      apply (satisfies_then _ _ _ (fun n' s => in_time n' /\ working n i s) (fun _ => lt)); [apply (Hst [_; _])| |].
      { open_section. eapply post_clock; [done|done|]. intros n' x Hn Hm'. by split. }
      intros n'. apply satisfies_pure. intros Hn. destruct (bootstrap_limit_ok n' (r_deadline r) Hn Hd) as (w & dl & -> & Ha).
      apply (satisfies_bind _ _ _ _ (fun w' s => w' = w /\ working n i s) (fun _ => lt)).
      { by apply satisfies_lift; [apply (Hst [_; _])|..]. }
      intros w'. apply satisfies_pure. intros ->. rewrite Ha. by apply satisfies_lift; [apply (Hst [_; _])|..].
    + intros lim. apply satisfies_pure. intros Hlim. destruct lim as [lim|]; [|done].
      apply (satisfies_then _ _ _ (fun _ => working n i)
        (fun v => match v with Ok v => RReceipt (bs_cleanup v) :: RGuard g :: la | Err _ => RGuard g :: la end));
        [apply (Hst [_; _])| |].
      { open_section. eapply post_bootstrap; [done|exact Hm| |].
        - intros v x Hm'. by split.
        - intros e x s' Hm'. by split. }
      intros [v|e]; [|apply Hfailed].
      apply (satisfies_drop _ (K (Ok (mkPrepared v (r_pbs r) g))) _ []); [apply rights_mono| | |done].
      { apply satisfies_ret; [|done|by intros s _ Hw].
        apply stable_working. subst K. cbn. unfold prepared_rights. cbn. rewrite Hg. set_solver. }
      subst K la. cbn. unfold prepared_rights. cbn. rewrite Hg. solve_Permutation.
  - intros u. subst X. apply satisfies_pure. intros Hu.
    eapply satisfies_then; [|by apply (publish_ok n i g)|].
    { apply stable_working. subst K. destruct u as [q|e]; cbn; [|set_solver].
      destruct Hu as [Hop Hgi]. unfold prepared_rights. rewrite Hop, Hgi. set_solver. }
    intros [u'|]; [|by apply serves_ret]. apply satisfies_pure. intros ->.
    rewrite <- Hc. eapply reap_late_ok. rewrite Hc. exact Hu.
Qed.

(** ** The launch of a reservation *)

Definition launch_held (r : Reservation) : list Right :=
  RGuard (r_operation r) :: launch_rights (r_index r).
Lemma held_stable l r : stable (l ++ launch_held r) (launching (r_index r)).
Proof. apply stable_launching. unfold launch_held, launch_rights. set_solver. Qed.
Lemma launching_same i s s' : leases s' = leases s -> launching i s -> launching i s'.
Proof. unfold launching, valid, lease_at. by intros ->. Qed.
Lemma launching_not_ready i s : launching i s -> not_ready i s.
Proof. intros Hl. by apply unclean_not_ready, launching_unclean. Qed.

Lemma begin_reserved_ok r :
  satisfies (launching (r_index r)) (launch_held r) (begin_reserved (W:=W) r)
    (fun v => match v with
              | Ok p => fun s => (exists d, abs (r_launch_deadline r) = Ok d) /\ launching (r_index r) s
              | Err _ => launching (r_index r)
              end)
    (fun v => match v with Ok p => RPending p :: launch_held r | Err _ => launch_held r end).
Proof.
  set (i := r_index r). set (l := launch_held r). pose proof (held_stable [] r) as Hst.
  apply (satisfies_bind _ _ _ _ (fun d s => (exists d, abs (r_launch_deadline r) = Ok d) /\ launching i s) (fun _ => l)).
  { apply satisfies_lift; [done|by destruct (abs _)|]. intros s _ Hl. destruct (abs (r_launch_deadline r)) as [d|e]; [|done].
    split; [by exists d|done]. }
  intros d. apply satisfies_pure. intros Hd.
  apply (satisfies_bind _ _ _ _ (fun _ => launching i) (fun _ => l)).
  { apply satisfies_lift; [done|by destruct (res_map_err _ _)|]. intros s _ Hl. by destruct (res_map_err _ _). }
  intros sel. apply (satisfies_sure _ _ _ (fun _ => launching i) (fun p => RPending p :: l)); [done| |by intros p s|done].
  open_section. apply post_bind. eapply post_on_world; [done|done|]. intros p x Hm1.
  apply post_bind, post_modify, post_ret. split; [|done].
  eapply reached_then; [done|exact Hm1|]. intros Hok1. by apply moves_begin.
Qed.

Lemma abort_launch_ok r p reason :
  fails_with (launching (r_index r)) (RPending p :: launch_held r) [RGuard (r_operation r)]
    (abort_launch (W:=W) (completion_of r) p reason).
Proof.
  set (i := r_index r).
  apply (satisfies_then _ _ _ (fun _ => launching i) (fun _ => RPending p :: launch_held r));
    [apply (held_stable [_])| |].
  { open_section. eapply post_cleanup_deadline; [done|done|]. intros d x Hm'. by split. }
  intros d. apply (satisfies_then _ _ _ (fun _ => launching i) (fun _ => launch_held r));
    [apply (held_stable [_])| |].
  { open_section. eapply post_abort; [done|exact Hm|]. intros v x x' s' Hm'. by split. }
  intros v. eapply fails_pre; [|apply (held_stable [])|apply launching_not_ready].
  apply (reject_ok (launch_held r) [RGuard (r_operation r)] (launch_rights (r_index r)) (completion_of r));
    [|done|by repeat constructor].
  apply (stable_not_ready _ _ true). unfold launch_held, launch_rights. cbn. set_solver.
Qed.

Lemma new_cell_ok r p :
  sure (launching (r_index r)) (RPending p :: launch_held r) (new_cell (W:=W) (r_index r))
    (fun n s => launching (r_index r) s /\ owners (books s) !! n = Some (r_index r))
    (fun n => RProducer n :: RConsumer n :: RPending p :: launch_held r).
Proof.
  open_section. unfold post, new_cell. split; [by apply moves_cell_new|]. split; [by eapply launching_same|].
  cbn. rewrite <- (proj1 (bo_cells s Hok)). apply list_lookup_middle. done.
Qed.

Definition cell_value i (o : option (result TransportFailure Prepared)) : Prop :=
  match o with Some (Ok p) => fst (operation p) = i | _ => True end.
Definition cell_rights i (o : option (result TransportFailure Prepared)) : list Right :=
  match o with Some v => value_rights v ++ [RLaunch i true] | None => [RLaunch i true] end.
Definition awaiting n i s : Prop := launching i s /\ owners (books s) !! n = Some i.

Lemma stable_awaiting l n i : RLaunch i true ∈ l -> stable l (awaiting n i).
Proof.
  intros Hr. apply stable_and; [by apply stable_launching|].
  intros s s' l' Ho _ _ He _. by apply (be_owners _ _ _ He).
Qed.

Lemma cell_ready_moves n i s v s' : broker_ok s -> awaiting n i s -> holds s [RConsumer n; RLaunch i true] ->
  cell_ready n s = Some (v, s') ->
  moves s [RConsumer n; RLaunch i true] s' (cell_rights i v) /\ cell_value i v /\ launching i s'.
Proof.
  intros Hok [Hl Ho] Hh. unfold cell_ready. destruct (cells s !! n) as [[|w| |]|] eqn:Hc; try done.
  intros [= <- <-]. split; [|split; [|by eapply launching_same]].
  - eapply moves_cell; [done|exact Hc|done|]. cbn. destruct w; cbn; solve_Permutation.
  - destruct w as [p|e]; [cbn|done]. pose proof (proj2 (bo_cells s Hok) n p Hc). congruence.
Qed.
Lemma wait_cell_ok n i :
  satisfies (awaiting n i) [RConsumer n; RLaunch i true] (wait_cell (W:=W) n)
    (fun o => match o with Ok v => fun s => cell_value i v /\ launching i s | Err _ => nothing end)
    (fun o => match o with Ok v => cell_rights i v | Err _ => [] end).
Proof.
  apply satisfies_await_until.
  - apply stable_awaiting. set_solver.
  - intros s v s' Hok HP Hh. by apply cell_ready_moves.
  - open_section. unfold post. destruct (cell_ready n s) as [[v s']|] eqn:Hr; [by apply cell_ready_moves|].
    split; [|split; [done|by eapply launching_same, HP]].
    assert (Hp : RConsumer n ∈ [RConsumer n; RLaunch i true]) by (by left).
    pose proof (right_unsettled s _ (RConsumer n) Hok Hh eq_refl Hp) as Hu.
    destruct (proj1 (issued_cell s n (RConsumer n) (or_intror eq_refl)) (right_issued s _ _ Hh Hp)) as [c Hc].
    assert (Hcell : RConsumer n ∉ cell_done n c).
    { intros Hin. apply Hu. unfold rights_settled. rewrite !elem_of_app. do 4 right.
      apply elem_of_gather. by exists n, c. }
    unfold cell_ready in Hr. rewrite Hc in Hr. destruct c as [|w| |]; cbn in Hcell; try done; try (by set_solver).
    eapply moves_cell; [done|exact Hc|done|]. cbn. solve_Permutation.
Qed.

Lemma launch_reserved_ok r : reservation_ok r ->
  serves (launching (r_index r)) (launch_held r) (launch_reserved (W:=W) r).
Proof.
  intros Hr. destruct (Hr) as [Hg Hd]. set (i := r_index r) in *. set (g := r_operation r) in *.
  pose proof (fun l => held_stable l r) as Hst.
  assert (Hthrow : forall f, serves (launching i) (launch_held r) (guarded (W:=W) g (p_throw (A:=ControlSuccess) f))).
  { intros f. unfold serves. apply (satisfies_guarded _ _ _ _ (fun _ => nothing) (fun _ => [RGuard g])); [|done|done].
    apply (satisfies_lift_drop _ _ (launch_rights i)); [apply rights_mono|apply (Hst [])|done|by repeat constructor|done]. }
  unfold launch_reserved. cbn zeta. set (c := completion_of r).
  eapply satisfies_bind; [apply satisfies_attempt, begin_reserved_ok|]. intros [p|f]; [|apply Hthrow].
  cbn beta iota. apply satisfies_pure. intros [d Hdl].
  destruct (launch_descriptor r p) as [descriptor|error].
  2:{ apply fails_serves; [apply (Hst [_])|]. apply fails_guarded. apply abort_launch_ok. }
  eapply satisfies_then; [apply (Hst [_])|apply new_cell_ok|]. intros n. rewrite Hdl.
  apply (satisfies_bind _ _ _ _ (fun _ => awaiting n i) (fun _ => [RConsumer n; RLaunch i true])).
  { eapply (satisfies_spawn _ (working n i) (awaiting n i) _
      [RPending p; RGuard g; RProducer n; RLaunch i false] [RConsumer n; RLaunch i true]); try done.
    - apply stable_awaiting. unfold launch_held, launch_rights. set_solver.
    - unfold launch_held, launch_rights. fold g i. solve_Permutation.
    - intros s Hok [Hl Ho] Hh. split; [|done]. split; [by apply launching_not_ready|done].
    - eapply satisfies_ok; [by apply worker_ok|]. intros v. by apply ok_halt.
    - apply stable_awaiting. set_solver. }
  intros []. apply (satisfies_then _ _ _ (fun _ => awaiting n i) (fun _ => [RConsumer n; RLaunch i true])).
  { apply stable_awaiting. set_solver. }
  { open_section. apply post_modify. split; [|exact HP]. eapply reached_quiet; [done|exact Hm|apply quiet_reapers]. }
  intros []. apply (satisfies_bind _ _ _ _ (fun v s => cell_value i v /\ launching i s) (cell_rights i)).
  { apply wait_cell_ok. }
  intros v. apply satisfies_pure. intros Hv.
  assert (Hsv : stable (cell_rights i v) (launching i)).
  { apply stable_launching. destruct v as [w|]; cbn; set_solver. }
  apply (satisfies_bind _ _ _ _ (fun _ => launching i) (fun _ => cell_rights i v)).
  { destruct (is_Some_b v); [|by apply satisfies_ret].
    apply (satisfies_sure _ _ _ (fun _ => launching i) (fun _ => cell_rights i v)); [done| |done|done].
    open_section. apply post_modify. split; [|exact HP]. eapply reached_quiet; [done|exact Hm|apply quiet_reapers]. }
  assert (Hrej : forall e, fails_with (launching i) [RLaunch i true] [] (reject (W:=W) c e)).
  { intros e. assert (Hl : stable [RLaunch i true] (launching i)) by (apply stable_launching; set_solver).
    eapply fails_pre; [|exact Hl|apply launching_not_ready].
    apply (reject_ok [RLaunch i true] [] [RLaunch i true] (completion_of r)); [|done|by repeat constructor].
    apply (stable_not_ready _ _ true). cbn. set_solver. }
  intros []. destruct v as [[q|error]|]; cbn [cell_rights value_rights app] in *.
  - replace (prepared_rights q ++ [RLaunch i true]) with (commit_rights q)
      by (unfold commit_rights; by rewrite Hv).
    by apply (commit_ok c q).
  - apply fails_serves; [done|]. apply with_error_handoff_ok.
    assert (Hl : stable [RLaunch i true] (launching i)) by (apply stable_launching; set_solver).
    eapply fails_pre; [|exact Hl|apply launching_not_ready].
    apply (reject_with_cleanup_ok [RLaunch i true] [] [RLaunch i true] (completion_of r)); [|done|by repeat constructor].
    apply (stable_not_ready _ _ true). cbn. set_solver.
  - apply (satisfies_then _ _ _ (fun _ => launching i) (fun _ => [RLaunch i true])); [done| |].
    { open_section. eapply post_on_world; [done|done|]. intros u x Hm'. by split. }
    intros []. by apply fails_serves.
Qed.
End Launching.
