(* ===== verification/Preparing.v ===== *)
(** The route of a prepare request in the logic: a lease that is over, one that is reused, or a
    new one that is launched. *)

From S2P Require Import Prelude Errors Crates Outer Records Payloads Reassembly NoiseIO Lease Bootstrap Session Control Adapter RawTransport RawReads Threads Interference Broker BrokerOps Handlers Rights Steps Moves Primitives Triples Reaping Serving Launching.

Section Preparing.
Context `{Minicbor} `{Snow} `{Sha2} `{Base64} `{PlatformHost W} `{!LongClock W}.
Context (ios android : PlatformTargetAdapter).
Implicit Types (s : Broker W) (l : list Right) (i j : nat).

#[local] Hint Resolve stable_valid stable_nothing : core.

(** ** The route of a request *)

Lemma prepare_deadline_ok n v p d : in_time n -> 1 <= v -> prepare_deadline n v p = Ok d ->
  1 <= d <= MAX_SAFE.
Proof.
  intros [Hge Hlt] Hv. unfold prepare_deadline.
  destruct (checked_add n (prepare_launch_budget p)) as [x|] eqn:Hx; [cbn|done].
  destruct (checked_add x PREPARE_BOOTSTRAP_MS) as [y|] eqn:Hy; [cbn|done]. intros [= <-].
  apply checked_add_some in Hx as [-> _], Hy as [-> _].
  unfold MAX_SAFE, PREPARE_BOOTSTRAP_MS in *. destruct p; cbn; unfold IOS_PREPARE_LAUNCH_MS, ANDROID_PREPARE_LAUNCH_MS in *; lia.
Qed.

(** No lease has the selection of a request. *)
Definition unselected (k : PrepareKey) s : Prop :=
  forall i a, lease_at s i = Some a -> key_selection (key a) <> key_selection k.

Lemma existsb_lease (p : Lease W -> bool) s i (a : Lease W) :
  existsb (any_lease p) (leases s) = false -> lease_at s i = Some a -> p a = false.
Proof.
  intros He Ha%lease_at_lookup. destruct (p a) eqn:Hp; [|done]. rewrite <- He. symmetry.
  apply existsb_exists. exists (Some a). split; [|done]. by eapply list_elem_of_In, list_elem_of_lookup_2.
Qed.
Lemma find_index_none {A} (p : A -> bool) (xs : list A) i x :
  find_index p xs = None -> xs !! i = Some x -> p x = false.
Proof.
  revert i. induction xs as [|y xs IH]; intros i; cbn; [done|].
  destruct (p y) eqn:Hp; [done|]. destruct (find_index p xs); [done|]. intros _.
  destruct i as [|i]; cbn; [by intros [= <-]|by apply IH].
Qed.
Lemma head_omap_none {A B} (f : A -> option B) (xs : list A) i x :
  head (omap f xs) = None -> xs !! i = Some x -> f x = None.
Proof.
  intros Hh Hx. destruct (f x) as [y|] eqn:Hf; [|done].
  assert (Hin : y ∈ omap f xs) by (apply list_elem_of_omap; exists x; split; [by eapply list_elem_of_lookup_2|done]).
  destruct (omap f xs); [by apply not_elem_of_nil in Hin|done].
Qed.

Lemma route_unselected k s :
  existsb (any_lease (fun a : Lease W => bool_decide (key_selection (key a) = key_selection k)
                               && negb (bool_decide (pk_digest (key a) = pk_digest k)))) (leases s) = false ->
  find_index (any_lease (fun a : Lease W => bool_decide (key a = k) && bool_decide (state a = LeaseReady))) (leases s) = None ->
  head (omap (fun o : option (Lease W) => o ≫= fun a =>
     if bool_decide (key a = k) && negb (bool_decide (state a = LeaseReady))
     then Some (default Stale (terminal_reason a)) else None) (leases s)) = None ->
  unselected k s.
Proof.
  intros H1' H2' H3' i a Ha Hk. pose proof (existsb_lease _ s i a H1' Ha) as Hd. cbn in Hd.
  rewrite bool_decide_true in Hd by done. cbn in Hd. apply negb_false_iff, bool_decide_eq_true in Hd.
  assert (key a = k) as Hkey.
  { destruct (key a), k. unfold key_selection in Hk. cbn in *. congruence. }
  apply lease_at_lookup in Ha. pose proof (find_index_none _ _ i _ H2' Ha) as Hr. cbn in Hr.
  pose proof (head_omap_none _ _ i _ H3' Ha) as Hn. cbn in Hn.
  rewrite bool_decide_true in Hr, Hn by done. cbn in Hr, Hn. by rewrite Hr in Hn.
Qed.



(** ** A new lease *)

Lemma post_of_core {A} (r : Res A) s (Q : A -> Broker W -> Prop) X :
  (forall x, Q x s) -> (forall f, X (Fails f) s) -> post (of_core r) s Q X.
Proof. intros Hq Hx. apply post_of_res; [intros x _; apply Hq|intros e _; apply Hx]. Qed.

Lemma new_lease_ok b n d ld c s : broker_ok s -> shutting_down s = false ->
  unselected (PrepareKey_new b) s -> 1 <= d <= MAX_SAFE -> holds s [] ->
  post (new_lease (W:=W) ios android b n d ld c) s
    (fun r s' => moves s [] s' (launch_held r) /\ reservation_ok r /\ launching (r_index r) s')
    (fun e s' => exists f, e = Fails f /\ moves s [] s' []).
Proof.
  intros Hok Hsh Hun Hd Hh. pose proof (moves_by_refl (fun r => r ∈ []) s [] Hok) as Hm.
  apply post_bind. eapply post_random; [done|done|exact Hm| |by eexists].
  intros t e1 _ Ht1 Htm Hm1. apply post_bind. eapply post_random; [done|done|exact Hm1| |by eexists].
  intros id e2 [d2 He2] _ _ Hm2. apply post_bind. eapply post_random; [done|done|exact Hm2| |by eexists].
  intros nonce e3 [d3 He3] _ _ Hm3. cbn zeta. cbn in He2, He3.
  assert (Ht3 : t ∉ e3) by set_solver.
  apply post_bind. eapply post_on_world; [done|exact Hm3|]. intros kp x4 Hm4.
  apply post_bind, post_of_core; [intros [private public]|by eexists].
  apply post_bind. eapply post_on_world; [done|exact Hm4|]. intros pb x5 Hm5.
  apply post_bind, post_of_core; [intros pbs|by eexists].
  apply post_bind, post_get, post_bind, post_modify. cbn [leases set_bio set_entropy].
  set (i := length (leases s)).
  match goal with |- post _ (set_books _ (push_lease ?x ?y)) _ _ => set (a := x); set (s5 := y) in * end.
  assert (Hm6 : moves_by (fun r => r ∈ []) s []
    (with_books (books_mint t) (push_lease a s5)) (launch_rights i)).
  { eapply reached_then; [done|exact Hm5|]. intros Hok5. rewrite <- (app_nil_r (launch_rights i)).
    apply (moves_push _ s5 []); done. }
  set (s6 := with_books _ _) in *.
  assert (Hlast : launching i s6).
  { split; [unfold valid; subst s6; cbn; rewrite length_app; cbn; lia|].
    intros a'. unfold lease_at. subst s6. cbn. rewrite list_lookup_middle by done. by intros [= <-]. }
  apply post_bind. eapply (post_enter _ s []); [done|apply Hlast|exact Hm6| |].
  - intros g o' Hg Hm7. apply post_ret. split; [exact Hm7|]. split; [by split|].
    by eapply launching_same.
  - intros f. eexists. split; [done|]. apply (moves_by_drop _ _ _ _ [] _ Hm6). by repeat constructor.
Qed.

(** ** A new reference *)

Lemma mint_ok acts s0 l0 i n s l (Q : ControlSuccess -> Broker W -> Prop) X :
  broker_ok s0 -> holds s0 l0 -> moves_by acts s0 l0 s l -> valid i s ->
  (forall v s', moves_by acts s0 l0 s' l -> Q v s') ->
  (forall f s', moves_by acts s0 l0 s' l -> X (Fails f) s') ->
  post (mint (W:=W) i n) s Q X.
Proof.
  intros Hok Hh Hm Hv Hq Hx. apply post_bind. eapply post_random; [done|done|exact Hm| |].
  2:{ intros f e Hm1. by apply Hx. }
  intros t e1 _ He Ht Hm1. apply post_bind, post_of_res; [intros exp _|by intros; apply Hx].
  apply post_bind, post_slot_at; [exact Hv|]. intros o Ho.
  apply post_bind, post_or_fail; [intros a Ha|by intros; apply Hx].
  apply post_bind, post_modify, post_ret, Hq. eapply reached_then; [done|exact Hm1|].
  intros Hok1. apply (moves_mint _ (set_entropy e1 s)); try done. by rewrite <- Ha.
Qed.

Lemma reuse_ok i k n : tame (valid i) [] (reuse (W:=W) i k n) (fun _ => True) (fun _ => []) [].
Proof.
  open_section. apply post_bind, post_get. destruct (lease_at s i) as [a|]; [|by eexists].
  destruct (negb _); [by eexists|]. destruct (negb _); [by eexists|].
  destruct (terminal_reason_at n a); [by apply post_ret|].
  apply post_bind. eapply mint_ok; [done|done|exact Hm|exact HP| |by eexists]. intros v s' Hm'. by apply post_ret.
Qed.

(** ** The route *)

Definition route_post (t : PrepareRoute) s : Prop :=
  match t with
  | RouteTerminal i _ | RouteReuse i => valid i s
  | RouteLaunch r => reservation_ok r /\ launching (r_index r) s
  end.
Definition route_rights (t : PrepareRoute) : list Right :=
  match t with RouteLaunch r => launch_held r | _ => [] end.

Lemma goes_terminal acts i cf reason (a : Lease W) :
  cf = terminal_cleanup_failed a ->
  lease_goes acts i a
    (set_references (set_ref_state RefStale <$> references a)
       (set_terminal cf reason (terminal_handoff a) (lease_handoff a) (set_state LeaseClosing a))).
Proof.
  intros ->. eapply goes_trans; [apply (goes_state _ _ LeaseClosing); by destruct (state a)|].
  set (b := set_terminal _ _ _ _ _). eapply goes_trans; [by apply (goes_same _ _ _ b)|].
  apply goes_refs; [|done].
  intros t x'. rewrite lookup_fmap. cbn. destruct (references a !! t) as [x|]; [|done].
  intros [= <-]. exists x. split; [done|]. split; [by destruct (ref_state x)|done].
Qed.

Lemma prepare_route_ok b n d ld c : 1 <= d <= MAX_SAFE ->
  yields nothing [] (prepare_route (W:=W) ios android b n d ld c) route_post route_rights [].
Proof.
  intros Hd. open_section. unfold prepare_route. cbn zeta. apply post_bind, post_get.
  destruct (existsb _ (leases s)) eqn:He; [by eexists|].
  destruct (failed s !! _) as [[dg reason]|]; [by eexists|].
  destruct (shutting_down s) eqn:Hsh; [by eexists|].
  destruct (find_index _ (leases s)) as [i|] eqn:Hf.
  - apply find_lease in Hf as (a & Ha & _). apply post_bind, post_slot_at; [by eapply lease_at_lt|].
    intros o <-. rewrite Ha. change (Some a ≫= terminal_reason_at n) with (terminal_reason_at n a).
    destruct (terminal_reason_at n a) as [reason|].
    2:{ apply post_ret. split; [done|]. by eapply lease_at_lt. }
    apply post_bind. apply (post_expect_lease _ a); [done|]. apply post_bind.
    eapply post_put; [done|exact Hm|exact Ha|by apply goes_terminal|]. intros Hm1 Ha1.
    apply post_ret. split; [done|]. by eapply lease_at_lt.
  - match goal with |- post (if ?c then _ else _) _ _ _ => destruct c; [by eexists|] end.
    destruct (head _) as [reason|] eqn:Hh1; [by eexists|]. apply post_bind.
    pose proof (route_unselected _ _ He Hf Hh1) as Hun.
    pose proof (new_lease_ok b n d ld c s Hok Hsh Hun Hd Hh) as Hn. unfold post in *.
    destruct (new_lease _ _ _ _ _ _ _ s) as [[r|e] s']; cbn; [|done]. by destruct Hn as (? & ? & ?).
Qed.

Lemma prepare_ok r : 1 <= deadline_unix_ms r -> serves nothing [] (prepare (W:=W) ios android r).
Proof.
  intros Hr. unfold prepare. cbn zeta. eapply satisfies_do; [done|apply now_tame| |done..]. intros n Hn.
  eapply satisfies_do; [done|apply on_world_ok| |done..]. intros c _.
  apply (satisfies_bind _ _ _ _ (fun d s => 1 <= d <= MAX_SAFE /\ nothing s) (fun _ => [])).
  { apply satisfies_lift; [done|by destruct (prepare_deadline _ _ _)|]. intros s _ _.
    destruct (prepare_deadline _ _ _) as [d|] eqn:Hd; [|done]. split; [by eapply prepare_deadline_ok|done]. }
  intros d. apply satisfies_pure. intros Hd. apply (satisfies_bind _ _ _ _ (fun _ => nothing) (fun _ => [])).
  { apply satisfies_lift; [done|by destruct (launch_deadline _ _ _)|]. by destruct (launch_deadline _ _ _). }
  intros ld. eapply satisfies_yields; [done|by apply prepare_route_ok| |done..].
  assert (Hend : forall i reason, serves (valid i) []
    (p_bind (terminalize_lease i reason) (fun _ => p_fail (A:=ControlSuccess) (W:=W) StPrepare reason))).
  { intros i reason. eapply satisfies_seq; [apply terminalize_valid|apply stable_valid| |done..].
    intros []. by apply serves_ret. }
  intros [i reason|i|rv]; cbn [route_post route_rights].
  - apply Hend.
  - change (route_post (RouteReuse i)) with (valid (W:=W) i).
    eapply satisfies_seq; [apply heartbeat_ok|apply stable_valid| |done..].
    intros replied. destruct (negb replied); [by apply serves_ret|].
    eapply satisfies_do; [apply stable_valid|apply now_tame| |done..]. intros m Hm.
    destruct (d <=? m); [by apply serves_ret|].
    eapply satisfies_do; [apply stable_valid|apply reuse_ok| |done..].
    intros [reason|reply] _; [apply Hend|by apply serves_ret].
  - apply satisfies_pure. intros Hrv. by apply launch_reserved_ok.
Qed.
End Preparing.
