(* ===== verification/Calls.v ===== *)
(** The calls of a broker in the logic: what a call does is one of its requests, its maintenance,
    or the end of all its leases. *)

From S2P Require Import Prelude Errors Crates Outer Records Payloads Reassembly NoiseIO Lease Bootstrap Session Control Adapter RawTransport RawReads Threads Interference Broker BrokerOps Handlers Rights Steps Moves Primitives Triples Reaping Serving Launching Preparing.

Section Calls.
Context `{Minicbor} `{Snow} `{Sha2} `{Base64} `{PlatformHost W} `{!LongClock W}.
Context (ios android : PlatformTargetAdapter).
Implicit Types (s : Broker W) (l : list Right) (i j : nat).

#[local] Hint Resolve stable_valid stable_nothing stable_sealed stable_vacant : core.

(** ** Everything on a list *)

(** What is done for the elements of a list is done for all of them, whatever fails. *)
Lemma satisfies_all {A} (P : list A -> Broker W -> Prop) (xs : list A) (m : A -> BProg (W:=W) unit) first :
  (forall done, stable [] (P done)) ->
  (forall done x, x ∈ xs -> satisfies (P done) [] (m x) (fun _ => P (done ++ [x])) (fun _ => [])) ->
  satisfies (P []) [] (all_of xs m first)
    (fun r s => match r with Ok _ => P xs s | Err _ => False end) (fun _ => []).
Proof.
  intros Hst Hm. change xs with ([] ++ xs) at 2. generalize (@nil A) as prefix.
  revert first. induction xs as [|x xs IH]; intros first prefix.
  - apply satisfies_ret; [done|done|]. by rewrite app_nil_r.
  - apply (satisfies_bind _ _ _ _ (fun _ => P (prefix ++ [x])) (fun _ => [])).
    + apply satisfies_attempt. apply Hm. by left.
    + intros r. replace (prefix ++ x :: xs) with ((prefix ++ [x]) ++ xs) by (by rewrite <- app_assoc).
      apply IH. intros d y Hy. apply Hm. by right.
Qed.
Lemma satisfies_all_keep {A} P (xs : list A) (m : A -> BProg (W:=W) unit) first :
  stable [] P -> (forall x, x ∈ xs -> satisfies P [] (m x) (fun _ => P) (fun _ => [])) ->
  satisfies P [] (all_of xs m first)
    (fun r s => match r with Ok _ => P s | Err _ => False end) (fun _ => []).
Proof. intros Hst Hm. by apply (satisfies_all (fun _ => P)). Qed.

(** ** Requests *)

Lemma handle_ok r : serves nothing [] (handle (W:=W) ios android r).
Proof.
  unfold handle. eapply satisfies_do; [done|apply now_tame| |done..]. intros n Hn.
  eapply satisfies_do; [done|apply prune_ok| |done..]. intros [] _.
  destruct (Z.leb_spec (control_deadline_unix_ms r) n) as [|Hlt]; [by apply serves_ret|].
  destruct r as [r|r|r|r|r].
  - apply prepare_ok. destruct Hn. cbn in Hlt. lia.
  - apply open_ok.
  - apply exchange_serves.
  - apply close_session_ok.
  - apply close_lease_ok.
Qed.

(** ** Maintenance *)

Definition due_indices (d : Due) : list nat :=
  (fst <$> due_sessions d) ++ due_leases d ++ due_losses d ++ due_heartbeats d.
Definition due_ok (d : Due) s : Prop := forall i, i ∈ due_indices d -> valid i s.

Lemma due_at_indices n i (a : Lease W) d j : j ∈ due_indices (due_at n i a d) -> j = i \/ j ∈ due_indices d.
Proof.
  unfold due_at. destruct (negb _); [by right|].
  destruct (terminal_reason_at n a) as [[]|]; unfold due_indices; cbn; rewrite ?fmap_app, ?elem_of_app;
    try set_solver.
  intros [[Hd|Hj]|[Hd|[Hd|Hd]]]; [tauto| |tauto|tauto|].
  - left. apply list_elem_of_fmap in Hj as (p & -> & Hp). by apply list_elem_of_fmap in Hp as (k & -> & _).
  - destruct (expired_at _ _ _); set_solver.
Qed.
Lemma due_from_indices n i (ls : list (option (Lease W))) d j :
  j ∈ due_indices (due_from n i ls d) -> (i <= j < i + length ls)%nat \/ j ∈ due_indices d.
Proof.
  revert i d. induction ls as [|o ls IH]; intros i d; cbn; [by right|].
  intros [Hj|Hj]%IH; [left; lia|]. destruct o as [a|]; [|by right].
  apply due_at_indices in Hj as [->|Hj]; [left; lia|by right].
Qed.
Lemma collect_due_ok n : yields nothing [] (collect_due (W:=W) n) due_ok (fun _ => []) [].
Proof.
  open_section. apply post_bind, post_get, post_ret. split; [done|].
  intros i [Hi|Hi]%due_from_indices; [unfold valid; lia|]. by apply not_elem_of_nil in Hi.
Qed.

Lemma maintain_ok : serves nothing [] (maintain (W:=W)).
Proof.
  unfold maintain. eapply satisfies_do; [done|apply now_tame| |done..]. intros n Hn.
  eapply satisfies_do; [done|apply prune_ok| |done..]. intros [] _.
  eapply satisfies_yields; [done|apply collect_due_ok| |done..]. intros due.
  assert (Hst : stable [] (due_ok due)).
  { intros s s' l' Hd Hok Hh He Hok' i Hi. by apply (stable_valid [] i s s' l' (Hd i Hi)). }
  assert (Hkeep : forall i (m : BProg (W:=W) unit), i ∈ due_indices due ->
    satisfies (valid i) [] m (fun _ => valid i) (fun _ => []) ->
    satisfies (due_ok due) [] m (fun _ => due_ok due) (fun _ => [])).
  { intros i m Hi Hm. pose proof (satisfies_frame _ _ _ _ _ (due_ok due) Hm Hst) as Hf.
    eapply satisfies_conseq; [apply Hf|done| | | |done].
    - intros s _ Hd. split; [by apply Hd|done].
    - intros r. by apply stable_and.
    - by intros r s _ [_ Hd]. }
  assert (Hall : forall A (xs : list A) (m : A -> BProg (W:=W) unit) first B (k : option ControlFailure -> BProg (W:=W) B),
    (forall x, x ∈ xs -> exists i, i ∈ due_indices due /\ satisfies (valid i) [] (m x) (fun _ => valid i) (fun _ => [])) ->
    (forall f, serves (due_ok due) [] (k f)) -> serves (due_ok due) [] (p_bind (all_of xs m first) k)).
  { intros A xs m first B k Hm Hk. apply (satisfies_bind _ _ _ _ (fun _ => due_ok due) (fun _ => [])); [|done].
    eapply satisfies_conseq; [apply (satisfies_all_keep (due_ok due) xs m first); [done|]|done|done| | |by intros []].
    - intros x Hx. destruct (Hm x Hx) as (i & Hi & Hs). by eapply Hkeep.
    - intros [f|e]; [exact Hst|by intros s s' l' []].
    - by intros [f|e] s _ Hd. }
  apply Hall.
  { intros [i k] Hx. exists i. split; [|apply expire_ok]. unfold due_indices. rewrite elem_of_app. left.
    apply list_elem_of_fmap. by exists (i, k). }
  intros f1. apply Hall.
  { intros i Hx. exists i. split; [unfold due_indices; set_solver|apply terminalize_valid]. }
  intros f2. apply Hall.
  { intros i Hx. exists i. split; [unfold due_indices; set_solver|].
    eapply satisfies_seq; [apply terminalize_valid|done| |done..]. intros []. by apply satisfies_throw. }
  intros f3. apply Hall.
  { intros i Hx. exists i. split; [unfold due_indices; set_solver|].
    eapply satisfies_seq; [apply heartbeat_ok|done| |done..]. intros b. by apply satisfies_ret. }
  intros [f4|]; by apply serves_ret.
Qed.

(** ** Shutdown *)

Definition closed_or_gone i s : Prop := vacant i s \/ sealed s i.
Lemma stable_closed_or_gone i : stable [] (closed_or_gone i).
Proof.
  intros s s' l' [Hv|Hs] Hok Hh He Hok'.
  - left. by apply (stable_vacant [] i s s' l').
  - right. by apply (stable_sealed [] i s s' l').
Qed.

Lemma shut_lease_ok reason i :
  satisfies (valid i) [] (shut_lease (W:=W) reason i) (fun _ => closed_or_gone i) (fun _ => []).
Proof.
  unfold shut_lease. pose proof (stable_closed_or_gone i) as Hst.
  apply (satisfies_then _ _ _ (fun _ => valid i) (fun _ => [])); [done| |].
  { open_section. apply post_bind, post_get. by apply post_ret. }
  intros present. apply (satisfies_bind _ _ _ _ (fun v => ended i v) (fun _ => [])).
  { apply satisfies_attempt. apply terminalize_ok. }
  intros [[]|f]. { apply satisfies_ret; [apply stable_sealed|done|]. intros s _ Hs. by right. }
  assert (Hend : forall s, ended i (Err f) s -> closed_or_gone i s).
  { intros s [Hs|[Hv _]]; [by right|by left]. }
  assert (He : stable [] (ended (W:=W) i (Err f))) by apply stable_ended.
  apply (satisfies_bind _ _ _ _ (fun _ => closed_or_gone i) (fun _ => [])).
  - destruct (bool_decide_reflect (f_close_reason f = CleanupFailed)) as [Hc|_]; cbn [andb].
    2:{ apply satisfies_ret; [done|done|]. intros s _. apply Hend. }
    destruct present. 2:{ apply satisfies_ret; [done|done|]. intros s _. apply Hend. }
    apply (satisfies_bind _ _ _ _ (fun _ => closed_or_gone i) (fun _ => [])).
    + apply satisfies_attempt.
      apply (satisfies_map (fun r : result CloseReason unit => res_map_err (fail Cleanup) r)).
      eapply satisfies_pre; [apply wait_for_close_ok|done|].
      * intros [v|v] s Hs; by right.
      * by intros [v|v].
      * intros s _ [Hs|[_ Hs]]; [done|congruence].
    + intros v. by apply satisfies_ret.
  - intros []. destruct (bool_decide _); [by apply satisfies_ret|by apply satisfies_throw].
Qed.

(** What an admission that is sealed leaves to be done. *)
Definition sealing (indices finished : list nat) s : Prop :=
  shutting_down s = true /\ (forall i, i ∈ indices -> valid i s) /\
  (forall i, valid i s -> i ∈ indices \/ vacant i s) /\
  forall i, i ∈ finished -> closed_or_gone i s.

Lemma stable_sealing indices finished : stable [] (sealing indices finished).
Proof.
  intros s s' l' (Hsh & Hin & Hall & Hf) Hok Hh He Hok'.
  destruct (be_shut _ _ _ He Hsh) as [Hsh' Hlen]. split_and!; [done| | |].
  - intros i Hi. by apply (stable_valid [] i s s' l' (Hin i Hi)).
  - intros i Hi. destruct (Hall i) as [|Hv]; [unfold valid in *; congruence|by left|right].
    by apply (stable_vacant [] i s s' l').
  - intros i Hi. by apply (stable_closed_or_gone i s s' l' (Hf i Hi)).
Qed.

Lemma open_indices s i : i ∈ omap (fun p : nat * option (Lease W) => (fun _ => fst p) <$> snd p) (imap pair (leases s)) <->
  is_Some (lease_at s i).
Proof.
  unfold lease_at. rewrite list_elem_of_omap. split.
  - intros ([j o] & (k & Hk)%list_elem_of_lookup & Ho). rewrite list_lookup_imap in Hk.
    destruct (leases s !! k) as [o'|] eqn:Hl; [|done]. cbn in Hk. simplify_eq. cbn in Ho.
    destruct o as [a|]; [|done]. cbn in Ho. simplify_eq. rewrite Hl. by eexists.
  - intros [a Ha]. destruct (leases s !! i) as [o|] eqn:Hl; [|done]. cbn in Ha. subst o.
    exists (i, Some a). split; [|done]. apply list_elem_of_lookup. exists i.
    by rewrite list_lookup_imap, Hl.
Qed.
Lemma seal_admission_ok :
  sure nothing [] (seal_admission (W:=W)) (fun indices => sealing indices []) (fun _ => []).
Proof.
  open_section. apply post_bind, post_modify, post_bind, post_get, post_ret.
  split; [by apply moves_shut|]. split_and!; [done| | |].
  - intros i [a Ha]%open_indices. by eapply lease_at_lt.
  - intros i Hi. destruct (lease_at (set_shutting_down s) i) as [a|] eqn:Ha.
    + left. apply open_indices. by exists a.
    + right. by split.
  - by intros i Hi%not_elem_of_nil.
Qed.

Lemma shutdown_ok reason :
  satisfies nothing [] (shutdown (W:=W) reason) (fun _ => shut) (fun _ => []).
Proof.
  unfold shutdown. eapply satisfies_then; [done|apply seal_admission_ok|]. intros indices.
  apply (satisfies_bind _ _ _ _ (fun _ => sealing indices indices) (fun _ => [])).
  - eapply satisfies_conseq; [apply (satisfies_all (sealing indices))| | | | |by intros []].
    + apply stable_sealing.
    + intros finished i Hi.
      pose proof (satisfies_frame _ _ _ _ _ (sealing indices finished) (shut_lease_ok reason i)
        (stable_sealing _ _)) as Hf.
      eapply satisfies_conseq; [apply Hf|apply stable_sealing| | | |done].
      * intros s _ Hs. split; [by apply Hs|done].
      * intros r. apply stable_and; [apply stable_closed_or_gone|apply stable_sealing].
      * intros r s _ [Hc (Hsh & Hin & Hall & Hfin)]. split_and!; [done..|].
        intros j [Hj| ->%list_elem_of_singleton]%elem_of_app; [by apply Hfin|done].
    + apply stable_sealing.
    + done.
    + intros [f|e]; [apply stable_sealing|by intros s s' l' []].
    + by intros [f|e] s _ Hs.
  - assert (Hend : forall s, broker_ok s -> sealing indices indices s -> shut s).
    { intros s _ (Hsh & Hin & Hall & Hfin). split; [done|]. intros i Hi.
      destruct (Hall i Hi) as [Hi'|[_ Hv]]; [|by left]. destruct (Hfin i Hi') as [[_ Hv]|Hs]; [by left|by right]. }
    intros [f|]; (apply satisfies_lift; [apply stable_sealing|done|exact Hend]).
Qed.

(** ** Threads *)

Lemma stable_shut : stable [] (shut (W:=W)).
Proof.
  intros s s' l' [Hsh Hall] Hok Hh He Hok'. destruct (be_shut _ _ _ He Hsh) as [Hsh' Hlen].
  split; [done|]. intros i Hi. rewrite Hlen in Hi. destruct (Hall i Hi) as [Hn|Hs].
  - left. by apply (stable_vacant [] i s s' l').
  - right. by apply He.
Qed.

Lemma thread_ok c : ok nothing [] (thread_of (W:=W) ios android c).
Proof.
  destruct c as [r| |reason]; unfold thread_of.
  - eapply satisfies_ok; [apply handle_ok|]. intros v. by apply ok_halt.
  - eapply satisfies_ok; [apply maintain_ok|]. intros v. by apply ok_halt.
  - eapply satisfies_ok; [apply shutdown_ok|]. intros v. apply ok_halt; [apply stable_shut|done|done].
Qed.

Lemma Core_new_ok random (w : W) : NoDup random -> broker_ok (Core_new random w).
Proof.
  intros Hr. split; cbn; try done.
  - split_and!; [done|constructor|]. intros t _. apply not_elem_of_nil.
  - split; [constructor|]. by intros i k Hk%not_elem_of_nil.
Qed.

(** However its calls are interleaved, a broker keeps the rules. *)
Lemma run_broker_safe random w calls schedule : NoDup random ->
  safe (run_broker (W:=W) ios android random w calls schedule).
Proof.
  intros Hr. apply run_safe; [by intros l s; apply (broker_evolves_refl (fun r => r ∈ l))|]. split; [by apply Core_new_ok|].
  exists ((fun _ => (nothing, [])) <$> calls), []. split; [done|]. split.
  - apply Forall2_fmap, Forall_Forall2_diag, Forall_forall. intros c _. split; [done|apply thread_ok].
  - cbn. unfold held. induction calls as [|c cs IH]; [done|exact IH].
Qed.
End Calls.
