(* ===== verification/BrokerSafety.v ===== *)
(** What a broker keeps however the threads of the host process are interleaved: it never panics
    and never deadlocks, its tables stay consistent, no launch and no clean-up is lost or done
    twice, and a shutdown that has returned has left nothing. *)

From S2P Require Import Prelude Errors Crates CratesRef Outer Records Payloads Reassembly NoiseIO Lease Bootstrap Session Control Adapter RawTransport RawReads Threads Interference Broker BrokerOps Handlers Rights Steps Moves Primitives Triples Reaping Serving Launching Preparing Calls.

Section Safety.
Context `{Minicbor} `{Snow} `{Sha2} `{Base64} `{PlatformHost W} `{!LongClock W}.
Context (ios android : PlatformTargetAdapter).
Implicit Types (s : Broker W) (l : list Right) (i j : nat).

(** ** What is issued and settled, by kind *)

Section Kinds.
Context {B : Type} (p : Right -> option B).
Lemma omap_gather_nil {A} (f : nat -> A -> list Right) (xs : list A) :
  (forall i x, xs !! i = Some x -> omap p (f i x) = []) -> omap p (gather f xs) = [].
Proof.
  revert f. induction xs as [|x xs IH]; intros f Hf; [done|]. rewrite gather_cons, omap_app.
  rewrite (Hf O x eq_refl). apply IH. intros i y. apply (Hf (S i)).
Qed.
Lemma omap_fmap_nil {A} (f : A -> Right) (xs : list A) :
  (forall x, p (f x) = None) -> omap p (f <$> xs) = [].
Proof. intros Hf. induction xs as [|x xs IH]; [done|]. cbn. by rewrite Hf. Qed.
Lemma omap_fmap_some (f : B -> Right) (xs : list B) :
  (forall x, p (f x) = Some x) -> omap p (f <$> xs) = xs.
Proof. intros Hf. induction xs as [|x xs IH]; [done|]. cbn. rewrite Hf. cbn. by f_equal. Qed.
End Kinds.

Definition receipt_of (r : Right) : option CleanupReceipt := match r with RReceipt x => Some x | _ => None end.
Definition pending_of (r : Right) : option PendingLaunch := match r with RPending x => Some x | _ => None end.

Lemma ledger_rights_none {B} (p : Right -> option B) i (o : OperationState Cancellation) :
  (forall g, p (RGuard g) = None) -> p (RCloser i) = None -> omap p (ledger_rights i o) = [].
Proof.
  intros Hg Hc. unfold ledger_rights. rewrite omap_app, omap_fmap_nil by (intros x; apply Hg).
  destruct (accepting o); cbn; by rewrite ?Hc.
Qed.

Lemma issued_receipts s : omap receipt_of (rights_issued s) = launched (books s).
Proof.
  unfold rights_issued. rewrite !omap_app.
  rewrite (omap_fmap_nil _ RPending), (omap_fmap_some _ RReceipt), (omap_fmap_nil _ RSlot) by done.
  rewrite !omap_gather_nil; [by rewrite !app_nil_r|done| |done].
  intros i o _. by apply ledger_rights_none.
Qed.
Lemma issued_launches s : omap pending_of (rights_issued s) = begun (books s).
Proof.
  unfold rights_issued. rewrite !omap_app.
  rewrite (omap_fmap_some _ RPending), (omap_fmap_nil _ RReceipt), (omap_fmap_nil _ RSlot) by done.
  rewrite !omap_gather_nil; [by rewrite !app_nil_r|done| |done].
  intros i o _. by apply ledger_rights_none.
Qed.
Lemma settled_receipts s : exists kept, omap receipt_of (rights_settled s) = spent (books s) ++ kept.
Proof.
  unfold rights_settled. rewrite !omap_app.
  rewrite (omap_fmap_nil _ RPending), (omap_fmap_some _ RReceipt) by done. by eexists.
Qed.
Lemma settled_launches s : omap pending_of (rights_settled s) = consumed (books s).
Proof.
  unfold rights_settled. rewrite !omap_app.
  rewrite (omap_fmap_some _ RPending), (omap_fmap_nil _ RReceipt) by done.
  rewrite !omap_gather_nil; [by rewrite !app_nil_r| | |].
  - intros n [|[|]| |] _; done.
  - intros i o _. unfold ledger_done. by destruct (is_Some_b _).
  - intros i o _. unfold lease_rights. by destruct (o ≫= cleanup).
Qed.

Lemma safe_balance {B} (p : Right -> option B) (c : Config (Broker W) Leaf) : safe c ->
  exists rest, omap p (rights_issued (fst c)) ≡ₚ omap p (rights_settled (fst c)) ++ rest.
Proof.
  intros (_ & specs & d & _ & _ & Hbal). cbn in Hbal. exists (omap p (held specs ++ d)).
  by rewrite Hbal, omap_app.
Qed.

(** ** Where all threads have ended *)

Section Done.
Context (c : Config (Broker W) Leaf) (Hsafe : safe c).
Context (Hend : Forall (fun t => halted t = true) (snd c)).
Local Abbreviation s := (fst c).






End Done.


(** ** The calls of a broker *)

Definition ended_all (c : Config (Broker W) Leaf) : Prop := Forall (fun t => halted t = true) (snd c).

Lemma run_broker_app random (w : W) calls schedule1 schedule2 :
  run_broker ios android random w calls (schedule1 ++ schedule2) =
  run_threads schedule2 (run_broker ios android random w calls schedule1).
Proof. unfold run_broker, run_threads. apply foldl_app. Qed.

Lemma evolves_same l s : evolves l s s.
Proof. apply (broker_evolves_refl (fun r => r ∈ l)). Qed.

(** What more turns of the scheduler may change. *)
Lemma broker_history random (w : W) calls schedule1 schedule2 : NoDup random ->
  broker_evolves (fun _ => True) (fst (run_broker ios android random w calls schedule1))
    (fst (run_broker ios android random w calls (schedule1 ++ schedule2))).
Proof.
  intros Hr. rewrite run_broker_app. apply (run_history (L:=Leaf) (R:=Right)).
  - apply evolves_same.
  - intros s. apply broker_evolves_refl.
  - intros s1 s2 s3 H1' _. by apply broker_evolves_trans.
  - intros l s s' _ He. by eapply broker_evolves_mono; [|exact He].
  - by apply run_broker_safe.
Qed.

Lemma later_lease s s' i (b : Lease W) : broker_evolves (fun _ => True) s s' -> (i < length (leases s))%nat ->
  lease_at s' i = Some b -> exists a, lease_at s i = Some a /\ lease_evolves (fun _ => True) i s s' a b.
Proof.
  intros He [o Ho]%lookup_lt_is_Some_2 Hb. destruct (be_leases _ _ _ He i o Ho) as (o' & Ho' & Hs).
  apply lease_at_lookup in Hb. rewrite Hb in Ho'. injection Ho' as <-.
  destruct o as [a|]; [|done]. exists a. split; [by apply lease_at_lookup|done].
Qed.

(** C3: however requests, maintenance and shutdowns are interleaved, each at every hold of the
    lock, and whichever waits end by their deadline, no thread of the host process panics: no
    index is out of range, no [expect] fails, no result of a launch is published twice, and no
    operation is left that was not entered. *)
Theorem broker_never_panics random (w : W) calls schedule : NoDup random ->
  Halt None ∉ snd (run_broker ios android random w calls schedule).
Proof. intros Hr. by eapply safe_no_panic, run_broker_safe. Qed.

(** C7: after any interleaving the broker's tables are consistent: there is one lease at most for
    a selection, a token is a reference of one lease at most, no two references of a lease share a
    session slot, a reference that was not redeemed has none, and each session of a ready lease
    belongs to a consumed reference; the operations counted are those entered and not left; and a
    lease whose operations are sealed is closing and its end was not published. *)
Theorem broker_tables random (w : W) calls schedule : NoDup random ->
  let s := fst (run_broker ios android random w calls schedule) in
  (forall i j a b, lease_at s i = Some a -> lease_at s j = Some b ->
     key_selection (key a) = key_selection (key b) -> i = j) /\
  (forall i j a b t, lease_at s i = Some a -> lease_at s j = Some b ->
     is_Some (references a !! t) -> is_Some (references b !! t) -> i = j) /\
  (forall i a, lease_at s i = Some a ->
     (forall t1 t2 x1 x2 k, references a !! t1 = Some x1 -> references a !! t2 = Some x2 ->
        session_slot x1 = Some k -> session_slot x2 = Some k -> t1 = t2) /\
     (forall t x, references a !! t = Some x -> ref_state x = RefPending \/ ref_state x = RefMinted ->
        session_slot x = None) /\
     (forall k y, state a = LeaseReady -> sessions a !! k = Some y ->
        exists t x, references a !! t = Some x /\ ref_state x = RefConsumed /\ session_slot x = Some k)) /\
  (forall i o, ledgers s !! i = Some o -> active_operations o = Z.of_nat (size (cancellations o)) /\
     (accepting o = false -> forall a, lease_at s i = Some a -> state a = LeaseClosing /\ completed o = None)).
Proof.
  intros Hr s. destruct (run_broker_safe ios android random w calls schedule Hr) as [Hok _].
  change (broker_ok s) in Hok. split_and!.
  - apply Hok.
  - apply Hok.
  - intros i a Ha. pose proof (bo_lease s Hok i a Ha) as La. split_and!; apply La.
  - intros i o Ho. split; [by apply le_active, (bo_ledger s Hok i)|].
    intros Hacc a Ha. by apply (bo_closing s Hok i a o).
Qed.

(** C5: no pending launch is launched or aborted twice, and no clean-up is run twice: the launches
    consumed are among those begun, each as often at most, and the clean-up receipts run are among
    those the platform gave, each as often at most. *)
Theorem receipts_spent_once random (w : W) calls schedule : NoDup random ->
  let b := books (fst (run_broker ios android random w calls schedule)) in
  (exists pending, begun b ≡ₚ consumed b ++ pending) /\
  (exists kept, launched b ≡ₚ spent b ++ kept).
Proof.
  intros Hr b. set (c := run_broker ios android random w calls schedule) in *.
  pose proof (run_broker_safe ios android random w calls schedule Hr) as Hs. fold c in Hs. split.
  - destruct (safe_balance pending_of c Hs) as [rest Hb]. exists rest.
    by rewrite issued_launches, settled_launches in Hb.
  - destruct (safe_balance receipt_of c Hs) as [rest Hb], (settled_receipts (fst c)) as [kept Hk].
    exists (kept ++ rest). by rewrite issued_receipts, Hk, <- app_assoc in Hb.
Qed.

(** C4: no interleaving can get stuck or go on for ever: from wherever a schedule has led, the
    turns that take a step are well founded, and some schedule brings all threads to their end. *)
Theorem broker_completes random (w : W) calls schedule : NoDup random ->
  Acc advance (snd (run_broker ios android random w calls schedule)) /\
  exists more, ended_all (run_broker ios android random w calls (schedule ++ more)).
Proof.
  intros Hr. split; [apply advance_wf|].
  destruct (safe_completes evolves_same _ (run_broker_safe ios android random w calls schedule Hr)) as [more Hm].
  exists more. by rewrite run_broker_app.
Qed.


(** C8: what becomes of a lease and its references while other calls go on: its key and its id
    stay, its state only goes forward, a reference only goes from pending to minted, redeeming,
    consumed and stale, the session slot it was given is never changed, and a reference that
    appears has a token that no reference of any lease then had. *)
Theorem lease_lifecycle random (w : W) calls schedule1 schedule2 i (a b : Lease W) : NoDup random ->
  lease_at (fst (run_broker ios android random w calls schedule1)) i = Some a ->
  lease_at (fst (run_broker ios android random w calls (schedule1 ++ schedule2))) i = Some b ->
  key b = key a /\ lease_id b = lease_id a /\ state_le (state a) (state b) /\
  next_session a <= next_session b /\
  forall t y, references b !! t = Some y ->
    match references a !! t with
    | Some x => ref_rank (ref_state x) <= ref_rank (ref_state y) /\
                (forall k, session_slot x = Some k -> session_slot y = Some k) /\
                (session_slot x = None -> forall k, session_slot y = Some k -> next_session a <= k)
    | None => forall j a', lease_at (fst (run_broker ios android random w calls schedule1)) j = Some a' ->
                references a' !! t = None
    end.
Proof.
  intros Hr Ha Hb. pose proof (broker_history random w calls schedule1 schedule2 Hr) as He.
  destruct (run_broker_safe ios android random w calls schedule1 Hr) as [Hok _].
  set (s := fst (run_broker ios android random w calls schedule1)) in *. change (broker_ok s) in Hok.
  destruct (later_lease _ _ i b He (lease_at_lt _ _ _ Ha) Hb) as (a' & Ha' & Hl).
  rewrite Ha in Ha'. injection Ha' as <-. split_and!; try apply Hl.
  intros t y Hy. pose proof (lv_refs _ _ _ _ _ _ Hl t y Hy) as Hrf.
  destruct (references a !! t) as [x|].
  - destruct Hrf as [Hle Hg]. split_and!; [done| |].
    + intros k Hk. destruct Hg as [->|(Hn & _)]; [done|congruence].
    + intros Hn k Hk. destruct Hg as [Hy'|(_ & k' & Hk' & Hle')]; congruence.
  - destruct Hrf as [Ht _]. intros j a' Ha'. destruct (references a' !! t) eqn:Hx; [|done]. destruct Ht.
    by eapply (bo_minted s Hok j a').
Qed.

(** C6: a lease's clean-up is not begun while a request uses the lease: where a lease had a
    clean-up receipt and has none now, or is gone, its operations are sealed and none is left, and
    that stays so. *)
Theorem cleanup_after_operations random (w : W) calls schedule1 schedule2 schedule3 i (a : Lease W) r :
  NoDup random ->
  lease_at (fst (run_broker ios android random w calls schedule1)) i = Some a -> cleanup a = Some r ->
  lease_at (fst (run_broker ios android random w calls (schedule1 ++ schedule2))) i ≫= cleanup = None ->
  exists o, ledgers (fst (run_broker ios android random w calls ((schedule1 ++ schedule2) ++ schedule3))) !! i = Some o /\
    accepting o = false /\ active_operations o = 0 /\ cancellations o = ∅.
Proof.
  intros Hr Ha Hc Hn. pose proof (broker_history random w calls schedule1 schedule2 Hr) as He.
  pose proof (broker_history random w calls (schedule1 ++ schedule2) schedule3 Hr) as He'.
  destruct (run_broker_safe ios android random w calls ((schedule1 ++ schedule2) ++ schedule3) Hr) as [Hok _].
  set (s := fst (run_broker ios android random w calls schedule1)) in *.
  set (s2 := fst (run_broker ios android random w calls (schedule1 ++ schedule2))) in *.
  assert (Hov : over s2 i).
  { apply lease_at_lookup in Ha. destruct (be_leases _ _ _ He i _ Ha) as ([b|] & Hb & Hs).
    - apply lease_at_lookup in Hb. rewrite Hb in Hn. by apply (lv_taken _ _ _ _ _ _ Hs r).
    - destruct Hs as [_ [Hnone|]]; [congruence|done]. }
  destruct (be_over _ _ _ He' i Hov) as (o & Ho & Hacc & Hz). exists o. split_and!; try done.
  apply map_size_empty_inv. pose proof (le_active o (bo_ledger _ Hok i o Ho)). lia.
Qed.
End Safety.

(** ** Concrete inputs: a host whose target answers

    The target's part of the bootstrap and of one heartbeat, for the token, lease id and nonce that
    the broker draws first. *)

#[export] Instance tape_host : PlatformHost Tape := {|
  PlatformTargetAdapter := unit; PendingLaunch := unit;
  begin_launch _ _ _ w := (tt, w);
  endpoint_of _ := AndroidLocalAbstract (repeat (b8 97) 40);
  pending_launch _ _ _ _ w := (Ok {| lt_bootstrap := tape; lt_connector := tt; lt_cleanup := tt |}, w);
  pending_abort _ _ _ w := (Ok tt, w);
  cancel _ w := w;
  generate_keypair w := (Ok (ex_secret, ex_secret), w);
  generate_pbs w := (Ok ex_secret, w);
  draw_entropy w := ([], w)
|}.
Definition ex_adapter : PlatformTargetAdapter (W:=Tape) := tt.
#[export] Instance tape_long : LongClock Tape.
Proof. intros w. exists 1000. split; [reflexivity|vm_compute; discriminate]. Qed.

Definition ex_random : list bytes :=
  [repeat (b8 1) 32; repeat (b8 2) 16; repeat (b8 3) 32; repeat (b8 4) 32; repeat (b8 5) 16; repeat (b8 6) 32].
Definition ex_launch_binding : BootstrapBinding :=
  mkBootstrapBinding (sha256 (reference_display (repeat (b8 1) 32))) (repeat (b8 2) 16)
    (repeat (b8 3) 32) (repeat (b8 5) 32) 9000.
Definition ex_answers : Res (list bytes) :=
  let? target := TargetBootstrap_new ex_launch_binding ex_secret [] in
  let '(m1, target) := tb_write_m1 target in
  let? m1 := m1 in
  let? broker := BrokerBootstrap_new ex_launch_binding ex_secret ex_secret [] in
  let? ' (m2, receiver) := bootstrap_read_m1_write_m2 broker m1 in
  let? ' (sender, _) := read_m2 target m2 5 1 in
  let? ' (ack, target) := write_ack sender in
  let? ' (_, broker) := read_ack receiver ack in
  let? request := fst (write_heartbeat_request 1 broker) in
  let '(counter, target) := read_heartbeat_request request target in
  let? counter := counter in
  let? reply := fst (write_heartbeat_reply counter target) in
  Ok [m1; ack; reply].
Definition ex_world : Tape := mkTape (map Ok match ex_answers with Ok l => l | Err _ => [] end).

Definition ex_prepare : ControlRequest :=
  RPrepare (mkRequest [] 9000 (mkPrepare AndroidEmulator [b8 1] [b8 2] [b8 3] (repeat (b8 5) 32))).
Definition ex_calls : list Call := [CallHandle ex_prepare; CallHandle ex_prepare; CallShutdown BrokerLost].
Abbreviation ex_run schedule :=
  (run_broker (W:=Tape) ex_adapter ex_adapter ex_random ex_world ex_calls schedule).

(** The lease is being prepared; its launch has answered and the request is served; all is done. *)
Definition ex_reserved : list (nat * Choice) := repeat (0%nat, Go) 8.
Definition ex_served : list (nat * Choice) := repeat (3%nat, Go) 30 ++ repeat (0%nat, Go) 30.
Definition ex_rest : list (nat * Choice) := repeat (1%nat, Go) 30 ++ repeat (2%nat, Go) 30.

Definition leaf_of (t : Thread (Broker Tape) Leaf) : option Leaf := match t with Halt o => o | _ => None end.

Example ex_prepared :
  (snd (ex_run (ex_reserved ++ ex_served)) !! 0%nat) ≫= leaf_of =
  Some (Replied (Ok (TargetReady (mkReady (repeat (b8 1) 32) 5 1 1000 31000)))).
Proof. vm_compute. reflexivity. Qed.

Abbreviation ex_end := (ex_run ((ex_reserved ++ ex_served) ++ ex_rest)).
Lemma ex_random_nodup : NoDup ex_random.
Proof. apply (bool_decide_unpack _). by vm_compute. Qed.

Lemma broker_never_panics_witness :
  forallb halted (snd ex_end) = true /\ Halt None ∉ snd ex_end.
Proof.
  split; [vm_compute; reflexivity|].
  apply (broker_never_panics (W:=Tape) ex_adapter ex_adapter ex_random ex_world ex_calls), ex_random_nodup.
Defined.

(** What a run says of the lease in the first slot. *)
Definition ex_lease (schedule : list (nat * Choice)) : Lease Tape :=
  default (preparing_lease (PrepareKey_new (mkPrepare AndroidEmulator [] [] [] [])) [] [] 0 0)
    (lease_at (fst (ex_run schedule)) 0).
Lemma ex_lease_at schedule : is_Some_b (lease_at (fst (ex_run schedule)) 0) = true ->
  lease_at (fst (ex_run schedule)) 0 = Some (ex_lease schedule).
Proof. unfold ex_lease. by destruct (lease_at _ 0). Qed.

Lemma ex_lease_served : lease_at (fst (ex_run (ex_reserved ++ ex_served))) 0 = Some (ex_lease (ex_reserved ++ ex_served)).
Proof. apply ex_lease_at. vm_compute. reflexivity. Qed.

Lemma broker_tables_witness :
  state (ex_lease (ex_reserved ++ ex_served)) = LeaseReady /\
  forall j b t, lease_at (fst (ex_run (ex_reserved ++ ex_served))) j = Some b ->
    is_Some (references (ex_lease (ex_reserved ++ ex_served)) !! t) -> is_Some (references b !! t) -> 0%nat = j.
Proof.
  split; [vm_compute; reflexivity|]. intros j b t Hb Ha' Hb'.
  destruct (broker_tables (W:=Tape) ex_adapter ex_adapter ex_random ex_world ex_calls (ex_reserved ++ ex_served) ex_random_nodup)
    as (_ & Ht & _).
  exact (Ht 0%nat j _ b t ex_lease_served Hb Ha' Hb').
Defined.

Lemma receipts_spent_once_witness :
  launched (books (fst ex_end)) = [tt] /\ spent (books (fst ex_end)) = [tt] /\
  exists kept, launched (books (fst ex_end)) ≡ₚ spent (books (fst ex_end)) ++ kept.
Proof.
  split; [vm_compute; reflexivity|]. split; [vm_compute; reflexivity|].
  apply (receipts_spent_once (W:=Tape) ex_adapter ex_adapter ex_random ex_world ex_calls), ex_random_nodup.
Defined.

Lemma broker_completes_witness :
  exists more, ended_all (ex_run (ex_reserved ++ more)).
Proof. apply (broker_completes (W:=Tape) ex_adapter ex_adapter ex_random ex_world ex_calls), ex_random_nodup. Defined.


Lemma lease_lifecycle_witness :
  state (ex_lease ex_reserved) = LeasePreparing /\ state (ex_lease (ex_reserved ++ ex_served)) = LeaseReady /\
  key (ex_lease (ex_reserved ++ ex_served)) = key (ex_lease ex_reserved).
Proof.
  split; [vm_compute; reflexivity|]. split; [vm_compute; reflexivity|].
  apply (lease_lifecycle (W:=Tape) ex_adapter ex_adapter ex_random ex_world ex_calls ex_reserved ex_served 0 _ _ ex_random_nodup);
    first [exact ex_lease_served|apply ex_lease_at; vm_compute; reflexivity].
Defined.

Lemma cleanup_after_operations_witness :
  cleanup (ex_lease (ex_reserved ++ ex_served)) = Some tt /\
  exists o, ledgers (fst (ex_run (((ex_reserved ++ ex_served) ++ ex_rest) ++ []))) !! 0%nat = Some o /\
    accepting o = false /\ active_operations o = 0 /\ cancellations o = ∅.
Proof.
  split; [vm_compute; reflexivity|].
  apply (cleanup_after_operations (W:=Tape) ex_adapter ex_adapter ex_random ex_world ex_calls (ex_reserved ++ ex_served) ex_rest [] 0
    (ex_lease (ex_reserved ++ ex_served)) tt ex_random_nodup); [exact ex_lease_served|..];
    vm_compute; reflexivity.
Defined.
