(* ===== verification/Apk.v ===== *)
(** The manifest in an APK ([android-emulator-adapter/src/apk.rs]): the ZIP archive it is
    extracted from, and the parser of Android's binary XML that looks for the bootstrap
    activity.  A [Result] whose error is [()] is an [option]; a file is its bytes. *)

From S2P Require Import Prelude Crates.

Definition MANIFEST_NAME : bytes := str "AndroidManifest.xml".
Definition MANIFEST_LIMIT : Z := 2 * 1024 * 1024.
Definition CENTRAL_DIRECTORY_LIMIT : Z := 8 * 1024 * 1024.
Definition ENTRY_LIMIT : Z := 4096.
Definition STRING_POOL_DECODED_BYTES_LIMIT : Z := 2 * 1024 * 1024.
Definition XML_DEPTH_LIMIT : Z := 256.
Definition NO_INDEX : Z := 4294967295.
Definition ANDROID_NS : bytes := str "http://schemas.android.com/apk/res/android".
Definition BOOTSTRAP_CLASS : bytes := str "AppPilotKitBootstrapActivity".

Definition ZIP_LOCAL : Z := 0x04034b50.
Definition ZIP_CENTRAL : Z := 0x02014b50.
Definition ZIP_EOCD : Z := 0x06054b50.

Definition RES_XML : Z := 0x0003.
Definition RES_STRING_POOL : Z := 0x0001.
Definition RES_XML_START_NAMESPACE : Z := 0x0100.
Definition RES_XML_END_NAMESPACE : Z := 0x0101.
Definition RES_XML_START_ELEMENT : Z := 0x0102.
Definition RES_XML_END_ELEMENT : Z := 0x0103.
Definition RES_XML_RESOURCE_MAP : Z := 0x0180.
Definition STRING_POOL_UTF8 : Z := 0x00000100.
Definition TYPE_STRING : Z := 0x03.
Definition TYPE_INT_BOOLEAN : Z := 0x12.
Definition ANDROID_ATTR_NAME : Z := 0x01010003.
Definition ANDROID_ATTR_ENABLED : Z := 0x0101000e.
Definition ANDROID_ATTR_EXPORTED : Z := 0x01010010.

(** ** Little-endian integers *)

(** [input.get(from..to)]. *)
Definition slice (input : bytes) (from to : Z) : option bytes :=
  if (from <=? to) && (to <=? len input)
  then Some (take (Z.to_nat (to - from)) (drop (Z.to_nat from) input)) else None.

Fixpoint le_decode (l : bytes) : Z :=
  match l with [] => 0 | b :: l => u8 b + 256 * le_decode l end.

Definition le_uint (n : Z) (input : bytes) (offset : Z) : option Z :=
  to ← checked_add offset n; le_decode <$> slice input offset to.
Definition le_u16 : bytes -> Z -> option Z := le_uint 2.
Definition le_u32 : bytes -> Z -> option Z := le_uint 4.

(** [le_u16(..) == Some(n)]. *)
Definition is_at (o : option Z) (n : Z) : bool := bool_decide (o = Some n).

Definition checked_sub (a b : Z) : option Z := if b <=? a then Some (a - b) else None.

(** ** The checksum *)

Definition crc_shift (crc : Z) : Z :=
  Z.lxor (Z.shiftr crc 1) (Z.land 0xedb88320 ((0 - Z.land crc 1) mod 2 ^ 32)).
Definition crc_byte (crc : Z) (b : byte) : Z := Nat.iter 8 crc_shift (Z.lxor crc (u8 b)).
Definition crc32 (input : bytes) : Z :=
  Z.lxor (foldl crc_byte 0xffffffff input) 0xffffffff.

(** ** zlib

    One call sequence [inflateInit2_(-15)], [inflate(Z_FINISH)], [inflateEnd] on an input and
    an output buffer: the three return codes, [total_out] and [avail_in] after it, and the
    buffer. *)

Record Inflated := mkInflated {
  z_initialized : Z;
  z_result : Z;
  z_ended : Z;
  z_total_out : Z;
  z_avail_in : Z;
  z_output : bytes
}.

Class Zlib := { zlib_inflate : bytes -> Z -> Inflated }.

Definition U32_MAX : Z := 2 ^ 32 - 1.

Section Extract.
Context `{Zlib}.

Definition inflate_raw (input : bytes) (output_length : Z) : option bytes :=
  if is_empty input || (output_length =? 0) then None
  else if (U32_MAX <? len input) || (U32_MAX <? output_length) then None
  else
    let z := zlib_inflate input output_length in
    if negb (z_initialized z =? 0) then None
    else if negb (z_result z =? 1) || negb (z_ended z =? 0)
            || negb (z_total_out z =? output_length) || negb (z_avail_in z =? 0)
    then None
    else Some (z_output z).

(** ** The archive *)

(** [seek(Start(offset))], then [read_exact] of [n] bytes. *)
Definition read_at (file : bytes) (offset n : Z) : option bytes :=
  if (n =? 0) || (offset + n <=? len file)
  then Some (take (Z.to_nat n) (drop (Z.to_nat offset) file)) else None.

(** The fields of an entry of the central directory. *)
Record CentralEntry := mkCentralEntry {
  ce_flags : Z;
  ce_method : Z;
  ce_crc : Z;
  ce_compressed : Z;
  ce_uncompressed : Z;
  ce_disk : Z;
  ce_local_offset : Z;
  ce_name : bytes;
  ce_end : Z
}.

Definition read_local_entry (file : bytes) (offset central_offset expected_flags expected_method
    expected_crc compressed_length uncompressed_length : Z) (expected_name : bytes)
    : option bytes :=
  header ← read_at file offset 30;
  if negb (is_at (le_u32 header 0) ZIP_LOCAL) || negb (is_at (le_u16 header 6) expected_flags)
     || negb (is_at (le_u16 header 8) expected_method)
  then None
  else
    name_length ← le_u16 header 26;
    extra_length ← le_u16 header 28;
    if negb (name_length =? len expected_name) then None
    else
      name ← read_at file (offset + 30) name_length;
      if negb (bytes_eqb name expected_name) then None
      else
        data_offset ← (v ← checked_add offset 30; v ← checked_add v name_length;
                       checked_add v extra_length);
        data_end ← (e ← checked_add data_offset compressed_length;
                    if e <=? central_offset then Some e else None);
        if data_end <? data_offset then None
        else
          compressed ← read_at file data_offset compressed_length;
          output ← (if (expected_method =? 0) && (compressed_length =? uncompressed_length)
                    then Some compressed
                    else if expected_method =? 8 then inflate_raw compressed uncompressed_length
                    else None);
          if negb (len output =? uncompressed_length) || negb (crc32 output =? expected_crc)
          then None else Some output.

(** What one turn of the loop reads of the central directory. *)
Definition central_entry (central : bytes) (cursor : Z) : option CentralEntry :=
  if negb (is_at (le_u32 central cursor) ZIP_CENTRAL) then None
  else
    flags ← le_u16 central (cursor + 8);
    method ← le_u16 central (cursor + 10);
    crc ← le_u32 central (cursor + 16);
    compressed ← le_u32 central (cursor + 20);
    uncompressed ← le_u32 central (cursor + 24);
    name_length ← le_u16 central (cursor + 28);
    extra_length ← le_u16 central (cursor + 30);
    comment_length ← le_u16 central (cursor + 32);
    disk ← le_u16 central (cursor + 34);
    local_offset ← le_u32 central (cursor + 42);
    entry_end ← (v ← checked_add cursor 46; v ← checked_add v name_length;
                 v ← checked_add v extra_length; v ← checked_add v comment_length;
                 if v <=? len central then Some v else None);
    let name_start := cursor + 46 in
    name ← slice central name_start (name_start + name_length);
    Some (mkCentralEntry flags method crc compressed uncompressed disk local_offset name
            entry_end).

(** [flags & !0x080e != 0 || flags & 1 != 0]. *)
Definition flags_refused (flags : Z) : bool :=
  negb (Z.land flags (0xffff - 0x080e) =? 0) || negb (Z.land flags 1 =? 0).

Fixpoint central_loop (entries : nat) (file central : bytes) (central_offset cursor : Z)
    (manifest : option bytes) : option (Z * option bytes) :=
  match entries with
  | O => Some (cursor, manifest)
  | S entries =>
      e ← central_entry central cursor;
      if negb (ce_disk e =? 0) || flags_refused (ce_flags e) then None
      else
        manifest ←
          (if bytes_eqb (ce_name e) MANIFEST_NAME then
             if is_Some_b manifest || (MANIFEST_LIMIT <? ce_compressed e)
                || (ce_uncompressed e =? 0) || (MANIFEST_LIMIT <? ce_uncompressed e)
             then None
             else
               m ← read_local_entry file (ce_local_offset e) central_offset (ce_flags e)
                     (ce_method e) (ce_crc e) (ce_compressed e) (ce_uncompressed e) (ce_name e);
               Some (Some m)
           else Some manifest);
        central_loop entries file central central_offset (ce_end e) manifest
  end.

(** The offsets of the tail at which an end record may stand. *)
Definition eocd_candidates (tail : bytes) : list Z :=
  filter (fun offset => is_at (le_u32 tail offset) ZIP_EOCD
            && match le_u16 tail (offset + 20) with
               | Some comment => bool_decide (checked_add offset (22 + comment) = Some (len tail))
               | None => false
               end = true)
    (seqZ 0 (len tail - 22 + 1)).

Definition extract_manifest (file : bytes) : option bytes :=
  let length := len file in
  let tail_length := Z.min length 65557 in
  if tail_length <? 22 then None
  else
    tail ← read_at file (length - tail_length) tail_length;
    match eocd_candidates tail with
    | [eocd_in_tail] =>
        start ← checked_sub length tail_length;
        eocd_absolute ← checked_add start eocd_in_tail;
        if negb (is_at (le_u16 tail (eocd_in_tail + 4)) 0)
           || negb (is_at (le_u16 tail (eocd_in_tail + 6)) 0)
        then None
        else
          disk_entries ← le_u16 tail (eocd_in_tail + 8);
          total_entries ← le_u16 tail (eocd_in_tail + 10);
          if (total_entries =? 0) || (ENTRY_LIMIT <? total_entries)
             || negb (disk_entries =? total_entries) || (total_entries =? 65535)
          then None
          else
            central_size ← le_u32 tail (eocd_in_tail + 12);
            central_offset ← le_u32 tail (eocd_in_tail + 16);
            if (central_size =? 0) || (CENTRAL_DIRECTORY_LIMIT <? central_size)
               || negb (bool_decide (checked_add central_offset central_size = Some eocd_absolute))
            then None
            else
              central ← read_at file central_offset central_size;
              '(cursor, manifest) ←
                central_loop (Z.to_nat total_entries) file central central_offset 0 None;
              if negb (cursor =? len central) then None else manifest
    | _ => None
    end.
End Extract.

