(* ===== verification/Axml.v ===== *)
(** The parser of Android's binary XML in [android-emulator-adapter/src/apk.rs], and what
    [validate_apk_manifest] makes of a manifest.  A [&str] is its UTF-8 bytes. *)

From S2P Require Import Prelude Crates Apk.

Implicit Types input : bytes.

(** [input.get(offset)]. *)
Definition byte_at input (offset : Z) : option Z := u8 <$> input !! Z.to_nat offset.

(** ** Text *)

(** [str::encode_utf16().count()] of valid UTF-8: one unit for a character of up to three
    bytes, two for one of four; a continuation byte begins none. *)
Definition utf16_units_at (b : byte) : Z :=
  if (128 <=? u8 b) && (u8 b <=? 191) then 0 else if 240 <=? u8 b then 2 else 1.
Definition utf16_count (value : bytes) : Z := foldr (fun b n => utf16_units_at b + n) 0 value.

(** [char::len_utf8] and [String::push]. *)
Definition len_utf8 (c : Z) : Z :=
  if c <? 0x80 then 1 else if c <? 0x800 then 2 else if c <? 0x10000 then 3 else 4.
Definition utf8_of_char (c : Z) : bytes :=
  if c <? 0x80 then [b8 c]
  else if c <? 0x800 then [b8 (0xc0 + c / 64); b8 (0x80 + c mod 64)]
  else if c <? 0x10000 then
    [b8 (0xe0 + c / 4096); b8 (0x80 + (c / 64) mod 64); b8 (0x80 + c mod 64)]
  else [b8 (0xf0 + c / 262144); b8 (0x80 + (c / 4096) mod 64); b8 (0x80 + (c / 64) mod 64);
        b8 (0x80 + c mod 64)].

(** [chunks_exact(2)] with [u16::from_le_bytes]. *)
Fixpoint units_of (l : bytes) : list Z :=
  match l with a :: b :: l => le_decode [a; b] :: units_of l | _ => [] end.

(** [char::decode_utf16]: [None] for an unpaired surrogate. *)
Fixpoint decode_utf16 (units : list Z) : list (option Z) :=
  match units with
  | [] => []
  | u :: units =>
      if negb (Z.land u 0xf800 =? 0xd800) then Some u :: decode_utf16 units
      else if 0xdc00 <=? u then None :: decode_utf16 units
      else match units with
           | u2 :: units' =>
               if (u2 <? 0xdc00) || (0xdfff <? u2) then None :: decode_utf16 units
               else Some (Z.lor (Z.shiftl (Z.land u 0x3ff) 10) (Z.land u2 0x3ff) + 0x10000)
                      :: decode_utf16 units'
           | [] => [None]
           end
  end.

(** ** The string pool *)

Definition claim (bytes_ remaining : Z) : option Z := checked_sub remaining bytes_.

Definition length8 input (offset : Z) : option (Z * Z) :=
  first ← byte_at input offset;
  if Z.land first 0x80 =? 0 then Some (first, offset + 1)
  else
    second ← byte_at input (offset + 1);
    Some (Z.lor (Z.shiftl (Z.land first 0x7f) 8) second, offset + 2).

(** The string and the budget that is left. *)
Definition decode_utf8_string input (offset budget : Z) : option (bytes * Z) :=
  '(utf16_length, offset) ← length8 input offset;
  '(byte_length, offset) ← length8 input offset;
  if STRING_POOL_DECODED_BYTES_LIMIT <? byte_length then None
  else
    to ← (e ← checked_add offset byte_length; if e <? len input then Some e else None);
    if negb (is_at (byte_at input to) 0) then None
    else
      value ← slice input offset to;
      if negb (valid_utf8 value) then None
      else if negb (utf16_count value =? utf16_length) then None
      else
        budget ← claim byte_length budget;
        Some (value, budget).

(** The length of the decoded characters in UTF-8, within [remaining]. *)
Fixpoint decoded_length (remaining total : Z) (decoded : list (option Z)) : option Z :=
  match decoded with
  | [] => Some total
  | c :: decoded =>
      character ← c;
      total ← (t ← checked_add total (len_utf8 character);
               if t <=? remaining then Some t else None);
      decoded_length remaining total decoded
  end.
Fixpoint push_all (value : bytes) (decoded : list (option Z)) : option bytes :=
  match decoded with
  | [] => Some value
  | c :: decoded => character ← c; push_all (value ++ utf8_of_char character) decoded
  end.

Definition decode_utf16_string input (offset budget : Z) : option (bytes * Z) :=
  first ← le_u16 input offset;
  '(length, cursor) ←
    (if Z.land first 0x8000 =? 0 then Some (first, offset + 2)
     else
       second ← le_u16 input (offset + 2);
       Some (Z.lor (Z.shiftl (Z.land first 0x7fff) 16) second, offset + 4));
  terminator ← (e ← checked_add cursor (length * 2);
                after ← checked_add e 2;
                if after <=? len input then Some e else None);
  if negb (is_at (le_u16 input terminator) 0) then None
  else
    content ← slice input cursor terminator;
    let units := units_of content in
    decoded_length_ ← decoded_length budget 0 (decode_utf16 units);
    budget ← claim decoded_length_ budget;
    value ← push_all [] (decode_utf16 units);
    Some (value, budget).

Fixpoint pool_strings (count : nat) input (utf8 : bool) (header_size strings_start index budget : Z)
    : option (list bytes) :=
  match count with
  | O => Some []
  | S count =>
      relative ← le_u32 input (header_size + index * 4);
      offset ← checked_add strings_start relative;
      '(value, budget) ← (if utf8 then decode_utf8_string input offset budget
                          else decode_utf16_string input offset budget);
      strings ← pool_strings count input utf8 header_size strings_start (index + 1) budget;
      Some (value :: strings)
  end.

Definition parse_string_pool input : option (list bytes) :=
  if (len input <? 28) || (MANIFEST_LIMIT <? len input)
     || negb (is_at (le_u16 input 0) RES_STRING_POOL)
  then None
  else
    header_size ← le_u16 input 2;
    string_count ← le_u32 input 8;
    style_count ← le_u32 input 12;
    flags ← le_u32 input 16;
    strings_start ← le_u32 input 20;
    styles_start ← le_u32 input 24;
    if negb (header_size =? 28) || (65536 <? string_count) || negb (style_count =? 0)
       || negb (styles_start =? 0) || negb (Z.land flags (U32_MAX - STRING_POOL_UTF8) =? 0)
       || (strings_start <? header_size + string_count * 4) || (len input <? strings_start)
    then None
    else
      pool_strings (Z.to_nat string_count) input (negb (Z.land flags STRING_POOL_UTF8 =? 0))
        header_size strings_start 0 STRING_POOL_DECODED_BYTES_LIMIT.

(** [StringPool::get]. *)
Definition pool_get (strings : list bytes) (index : Z) : option bytes := strings !! Z.to_nat index.

Definition parse_resource_map input (string_count : Z) : option (list Z) :=
  if (len input <? 8) || negb (is_at (le_u16 input 0) RES_XML_RESOURCE_MAP)
     || negb (is_at (le_u16 input 2) 8) || negb (is_at (le_u32 input 4) (len input))
     || negb ((len input - 8) mod 4 =? 0)
  then None
  else
    let count := (len input - 8) / 4 in
    if (count =? 0) || (string_count <? count) then None
    else mapM (fun index => le_u32 input (8 + index * 4)) (seqZ 0 count).

(** ** Elements *)

Inductive AttributeValue : Type := VString (value : bytes) | VBoolean (value : bool) | VOther.

Record Attribute := mkAttribute {
  at_namespace : option bytes;
  at_name : bytes;
  at_resource_id : option Z;
  at_raw : option bytes;
  at_typed : AttributeValue
}.

Record StartElement := mkStartElement {
  el_name_index : Z;
  el_name : bytes;
  el_attributes : list Attribute
}.

(** [None] is the error; [Some None] no such attribute. *)
Definition identity_attribute (e : StartElement) (namespace : option bytes) (name : bytes)
    (resource_id : option Z) : option (option Attribute) :=
  let clash expected_id a :=
    (bytes_eqb (at_name a) name || bool_decide (at_resource_id a = Some expected_id))
    && (negb (bool_decide (at_namespace a = namespace)) || negb (bytes_eqb (at_name a) name)
        || negb (bool_decide (at_resource_id a = Some expected_id))) in
  if match resource_id with
     | Some expected_id => existsb (clash expected_id) (el_attributes e)
     | None => false
     end
  then None
  else
    match filter (fun a => bool_decide (at_namespace a = namespace) && bytes_eqb (at_name a) name
                    && is_none_or (fun expected => bool_decide (at_resource_id a = Some expected))
                         resource_id = true) (el_attributes e) with
    | [] => Some None
    | [first] => Some (Some first)
    | _ => None
    end.

Definition identity_string_attribute (e : StartElement) (namespace : option bytes) (name : bytes)
    (resource_id : option Z) : option (option bytes) :=
  found ← identity_attribute e namespace name resource_id;
  match found with
  | None => Some None
  | Some a =>
      match at_typed a with
      | VString value =>
          if match at_raw a with Some raw => negb (bytes_eqb raw value) | None => false end
          then None else Some (Some value)
      | _ => None
      end
  end.

Definition identity_boolean_attribute (e : StartElement) (namespace : option bytes) (name : bytes)
    (resource_id : Z) : option (option bool) :=
  found ← identity_attribute e namespace name (Some resource_id);
  match found with
  | None => Some None
  | Some a =>
      match at_typed a with
      | VBoolean value =>
          if match at_raw a with
             | Some raw => negb (bytes_eqb raw (if value then str "true" else str "false"))
             | None => false
             end
          then None else Some (Some value)
      | _ => None
      end
  end.

(** An optional string: none for [NO_INDEX]. *)
Definition pool_get_optional (strings : list bytes) (index : Z) : option (option bytes) :=
  if index =? NO_INDEX then Some None else Some <$> pool_get strings index.

Definition attribute_value (strings : list bytes) (data_type data : Z) : option AttributeValue :=
  if data_type =? TYPE_STRING then VString <$> pool_get strings data
  else if data_type =? TYPE_INT_BOOLEAN then Some (VBoolean (negb (data =? 0)))
  else if ((0x00 <=? data_type) && (data_type <=? 0x08))
          || ((0x10 <=? data_type) && (data_type <=? 0x11))
          || ((0x13 <=? data_type) && (data_type <=? 0x1f)) then Some VOther
  else None.

Definition parse_attribute input (strings : list bytes) (resource_map : list Z) (offset : Z)
    : option Attribute :=
  namespace_index ← le_u32 input offset;
  namespace ← pool_get_optional strings namespace_index;
  name_index ← le_u32 input (offset + 4);
  attribute_name ← pool_get strings name_index;
  let resource_id :=
    v ← resource_map !! Z.to_nat name_index; if v =? 0 then None else Some v in
  raw_index ← le_u32 input (offset + 8);
  if negb (is_at (le_u16 input (offset + 12)) 8) || negb (is_at (byte_at input (offset + 14)) 0)
  then None
  else
    data_type ← byte_at input (offset + 15);
    data ← le_u32 input (offset + 16);
    raw ← pool_get_optional strings raw_index;
    typed ← attribute_value strings data_type data;
    Some (mkAttribute namespace attribute_name resource_id raw typed).

Definition parse_start_element input (cursor to header_size : Z) (strings : list bytes)
    (resource_map : list Z) : option StartElement :=
  if negb (header_size =? 16) || (to <? cursor + 36) then None
  else
    name_index ← le_u32 input (cursor + 20);
    name ← pool_get strings name_index;
    attribute_start ← le_u16 input (cursor + 24);
    attribute_size ← le_u16 input (cursor + 26);
    attribute_count ← le_u16 input (cursor + 28);
    if negb (attribute_start =? 20) || negb (attribute_size =? 20) || (1024 <? attribute_count)
    then None
    else
      first ← checked_add cursor (16 + attribute_start);
      attributes_end ← (v ← checked_add first (attribute_count * attribute_size);
                        if v =? to then Some v else None);
      if negb (attributes_end =? to) then None
      else
        attributes ← mapM (fun index => parse_attribute input strings resource_map
                                          (first + index * attribute_size))
                       (seqZ 0 attribute_count);
        Some (mkStartElement name_index name attributes).

Definition is_ascii_graphic (b : byte) : bool := (33 <=? u8 b) && (u8 b <=? 126).
Definition DOT : byte := b8 46.

Definition normalize_activity (package value : bytes) : option bytes :=
  if is_empty value || existsb (fun b => negb (is_ascii_graphic b)) value then None
  else if bool_decide (head value = Some DOT) then Some (package ++ value)
  else if existsb (fun b => bool_decide (b = DOT)) value then Some value
  else Some (package ++ [DOT] ++ value).

(** ** The document *)

Record ManifestFacts := mkManifestFacts {
  mf_package : bytes;
  mf_application_count : Z;
  mf_bootstrap_activity_count : Z;
  mf_bootstrap_exported : bool;
  mf_bootstrap_enabled : bool
}.

(** The variables of [parse_binary_manifest]; the top of the stack is its head. *)
Record Parsing := mkParsing {
  p_strings : option (list bytes);
  p_stack : list Z;
  p_package : option bytes;
  p_application_count : Z;
  p_bootstrap_activity_count : Z;
  p_bootstrap_exported : bool;
  p_bootstrap_enabled : bool;
  p_resource_map : option (list Z)
}.
Definition parsing_new : Parsing := mkParsing None [] None 0 0 false false None.

Definition set_strings x p := mkParsing x (p_stack p) (p_package p) (p_application_count p)
  (p_bootstrap_activity_count p) (p_bootstrap_exported p) (p_bootstrap_enabled p) (p_resource_map p).
Definition set_stack x p := mkParsing (p_strings p) x (p_package p) (p_application_count p)
  (p_bootstrap_activity_count p) (p_bootstrap_exported p) (p_bootstrap_enabled p) (p_resource_map p).
Definition set_package x p := mkParsing (p_strings p) (p_stack p) x (p_application_count p)
  (p_bootstrap_activity_count p) (p_bootstrap_exported p) (p_bootstrap_enabled p) (p_resource_map p).
Definition set_application_count x p := mkParsing (p_strings p) (p_stack p) (p_package p) x
  (p_bootstrap_activity_count p) (p_bootstrap_exported p) (p_bootstrap_enabled p) (p_resource_map p).
Definition set_bootstrap count exported enabled p := mkParsing (p_strings p) (p_stack p)
  (p_package p) (p_application_count p) count exported enabled (p_resource_map p).
Definition set_resource_map x p := mkParsing (p_strings p) (p_stack p) (p_package p)
  (p_application_count p) (p_bootstrap_activity_count p) (p_bootstrap_exported p)
  (p_bootstrap_enabled p) x.

(** An activity below an application: whether it is the bootstrap activity. *)
Definition see_activity (expected_package : bytes) (e : StartElement) (p : Parsing)
    : option Parsing :=
  found ← identity_string_attribute e (Some ANDROID_NS) (str "name") (Some ANDROID_ATTR_NAME);
  match found with
  | None => Some p
  | Some name =>
      normalized ← normalize_activity expected_package name;
      if bytes_eqb normalized (expected_package ++ [DOT] ++ BOOTSTRAP_CLASS) then
        let count := p_bootstrap_activity_count p + 1 in
        if negb (count =? 1) then None
        else
          exported ← identity_boolean_attribute e (Some ANDROID_NS) (str "exported")
                       ANDROID_ATTR_EXPORTED;
          exported ← exported;
          enabled ← identity_boolean_attribute e (Some ANDROID_NS) (str "enabled")
                      ANDROID_ATTR_ENABLED;
          Some (set_bootstrap count exported (default true enabled) p)
      else Some p
  end.

(** The [match element.name]. *)
Definition see_element (expected_package : bytes) (e : StartElement) (parent : option bytes)
    (p : Parsing) : option Parsing :=
  if bytes_eqb (el_name e) (str "manifest") && is_empty (p_stack p) && negb (is_Some_b (p_package p))
  then
    value ← identity_string_attribute e None (str "package") None;
    value ← value;
    if negb (bytes_eqb value expected_package) then None else Some (set_package (Some value) p)
  else if bytes_eqb (el_name e) (str "application") && bool_decide (parent = Some (str "manifest"))
  then Some (set_application_count (p_application_count p + 1) p)
  else if bytes_eqb (el_name e) (str "activity") && bool_decide (parent = Some (str "application"))
  then see_activity expected_package e p
  else if is_empty (p_stack p) then None
  else Some p.

(** One chunk, from [cursor] to [to]. *)
Definition parse_chunk (expected_package : bytes) input (cursor to kind header_size size : Z)
    (p : Parsing) : option Parsing :=
  if (kind =? RES_STRING_POOL) && negb (is_Some_b (p_strings p)) && is_empty (p_stack p) then
    chunk ← slice input cursor to;
    strings ← parse_string_pool chunk;
    Some (set_strings (Some strings) p)
  else if (kind =? RES_XML_RESOURCE_MAP) && is_Some_b (p_strings p)
          && negb (is_Some_b (p_resource_map p)) && is_empty (p_stack p) then
    chunk ← slice input cursor to;
    strings ← p_strings p;
    ids ← parse_resource_map chunk (len strings);
    Some (set_resource_map (Some ids) p)
  else if (kind =? RES_XML_START_NAMESPACE) || (kind =? RES_XML_END_NAMESPACE) then
    if negb (is_Some_b (p_strings p)) || negb (header_size =? 16) || negb (size =? 24) then None
    else Some p
  else if kind =? RES_XML_START_ELEMENT then
    if XML_DEPTH_LIMIT <=? len (p_stack p) then None
    else
      pool ← p_strings p;
      ids ← p_resource_map p;
      element ← parse_start_element input cursor to header_size pool ids;
      parent ← match p_stack p with
               | [] => Some None
               | index :: _ => Some <$> pool_get pool index
               end;
      p ← see_element expected_package element parent p;
      Some (set_stack (el_name_index element :: p_stack p) p)
  else if kind =? RES_XML_END_ELEMENT then
    if negb (header_size =? 16) || negb (size =? 24) then None
    else
      name_index ← le_u32 input (cursor + 20);
      pool ← p_strings p;
      _ ← pool_get pool name_index;
      match p_stack p with
      | index :: stack => if negb (index =? name_index) then None else Some (set_stack stack p)
      | [] => None
      end
  else None.

(** The loop over the chunks.  A chunk has at least eight bytes, so that fuel for each byte is
    enough ([parse_chunks_spec]). *)
Fixpoint parse_chunks (fuel : nat) (expected_package : bytes) input (cursor : Z) (p : Parsing)
    : option (Z * Parsing) :=
  if cursor <? len input then
    match fuel with
    | O => None
    | S fuel =>
        kind ← le_u16 input cursor;
        header_size ← le_u16 input (cursor + 2);
        size ← le_u32 input (cursor + 4);
        to ← (e ← checked_add cursor size;
              if (8 <=? header_size) && (header_size <=? size) && (e <=? len input)
              then Some e else None);
        p ← parse_chunk expected_package input cursor to kind header_size size p;
        parse_chunks fuel expected_package input to p
    end
  else Some (cursor, p).

Definition parse_binary_manifest input (expected_package : bytes) : option ManifestFacts :=
  if (len input <? 8) || negb (is_at (le_u16 input 0) RES_XML) || negb (is_at (le_u16 input 2) 8)
     || negb (is_at (le_u32 input 4) (len input))
  then None
  else
    '(cursor, p) ← parse_chunks (length input) expected_package input 8 parsing_new;
    if negb (cursor =? len input) || negb (is_empty (p_stack p)) then None
    else
      package ← p_package p;
      Some (mkManifestFacts package (p_application_count p) (p_bootstrap_activity_count p)
              (p_bootstrap_exported p) (p_bootstrap_enabled p)).

(** [file]: the bytes of the file, where it can be opened. *)
Definition validate_apk_manifest `{Zlib} (file : option bytes) (expected_package : bytes)
    : option unit :=
  file ← file;
  manifest ← extract_manifest file;
  facts ← parse_binary_manifest manifest expected_package;
  if bytes_eqb (mf_package facts) expected_package && (mf_application_count facts =? 1)
     && (mf_bootstrap_activity_count facts =? 1) && mf_bootstrap_exported facts
     && mf_bootstrap_enabled facts
  then Some tt else None.

#[global] Arguments str : simpl never.
#[global] Arguments ANDROID_NS : simpl never.
#[global] Arguments BOOTSTRAP_CLASS : simpl never.
#[global] Arguments XML_DEPTH_LIMIT : simpl never.
