(* ===== verification/Slices.v ===== *)
(** Reading out of a byte string: what a reader of an archive or of a chunk sees through a
    window of its input, and little-endian integers. *)

From S2P Require Import Prelude Apk.

Implicit Types l a b c : bytes.

Lemma checked_add_fits (a b : Z) : a + b <= U64_MAX -> checked_add a b = Some (a + b).
Proof. intros. by apply checked_add_some. Qed.

(** ** Windows *)

Lemma slice_spec l from to w : 0 <= from ->
  slice l from to = Some w <-> from <= to <= len l /\ exists a b, l = a ++ w ++ b /\ len a = from /\ len w = to - from.
Proof.
  intros Hf. unfold slice. destruct (Z.leb_spec from to), (Z.leb_spec to (len l)); cbn [andb];
    [|naive_solver lia..].
  split.
  - intros [= <-]. split; [done|].
    exists (take (Z.to_nat from) l), (drop (Z.to_nat (to - from)) (drop (Z.to_nat from) l)).
    rewrite !take_drop. unfold len in *. rewrite !length_take, !length_drop. repeat split; lia.
  - intros (_ & a & b & -> & Ha & Hw). f_equal. unfold len in *.
    rewrite drop_app_length' by lia. by rewrite take_app_length' by lia.
Qed.

Lemma slice_len l from to w : 0 <= from -> slice l from to = Some w -> len w = to - from.
Proof. intros Hf. rewrite slice_spec by done. intros (_ & a & b & _ & _ & Hw). done. Qed.

Lemma slice_app l a b : slice (a ++ l ++ b) (len a) (len a + len l) = Some l.
Proof.
  apply slice_spec; [apply len_nonneg|]. rewrite !len_app.
  pose proof (len_nonneg l). pose proof (len_nonneg b). split; [lia|]. exists a, b. repeat split; lia.
Qed.
Lemma slice_all l : slice l 0 (len l) = Some l.
Proof. pose proof (slice_app l [] []) as Hs. by rewrite app_nil_r in Hs. Qed.

Lemma window_bounds l from n w : 0 <= from -> slice l from (from + n) = Some w -> from + n <= len l.
Proof. intros Hf Hs. by apply slice_spec in Hs as ((_ & ?) & _). Qed.

(** A slice of a window is a slice of the whole. *)
Lemma slice_window l from to w i j : 0 <= from -> 0 <= i -> j <= len w ->
  slice l from to = Some w -> slice l (from + i) (from + j) = slice w i j.
Proof.
  intros Hf Hi Hj. rewrite slice_spec by done. intros (_ & a & b & -> & Ha & _).
  unfold slice. rewrite !len_app.
  replace (from + i <=? from + j) with (i <=? j) by (destruct (Z.leb_spec i j); symmetry; [apply Z.leb_le|apply Z.leb_gt]; lia).
  replace (from + j <=? len a + (len w + len b)) with true
    by (symmetry; apply Z.leb_le; pose proof (len_nonneg b); lia).
  replace (j <=? len w) with true by (symmetry; by apply Z.leb_le).
  destruct (Z.leb_spec i j); cbn [andb]; [|done]. f_equal.
  replace (from + j - (from + i)) with (j - i) by lia. unfold len in *.
  rewrite drop_app, drop_ge by lia. rewrite drop_app. cbn [app].
  replace (Z.to_nat (from + i) - length a)%nat with (Z.to_nat i) by lia.
  rewrite take_app_le; [done|]. rewrite length_drop. lia.
Qed.

(** Adjacent slices. *)
Lemma slice_join l i j k a b : 0 <= i -> slice l i j = Some a -> slice l j k = Some b ->
  slice l i k = Some (a ++ b).
Proof.
  intros Hi Ha Hb. apply slice_spec in Ha as (Hij & a1 & a2 & -> & H1 & H2); [|done].
  apply slice_spec in Hb as (Hjk & b1 & b2 & He & H3 & H4); [|lia].
  apply slice_spec; [done|]. split; [lia|]. exists a1, b2. rewrite app_assoc in He.
  apply app_inj_1 in He as [<- ->]; [|rewrite length_app; unfold len in *; lia].
  rewrite <- !app_assoc, len_app. split_and!; [done|done|lia].
Qed.
Lemma slice_exists l i j : 0 <= i -> i <= j -> j <= len l -> exists w, slice l i j = Some w.
Proof. intros. unfold slice. rewrite (proj2 (Z.leb_le _ _)), (proj2 (Z.leb_le _ _)) by lia. by eexists. Qed.
Lemma slice_split l i j a b : 0 <= i -> slice l i j = Some (a ++ b) ->
  slice l i (i + len a) = Some a /\ slice l (i + len a) j = Some b.
Proof.
  intros Hi Hs. apply slice_spec in Hs as (Hij & p & q & -> & Hp & Hl); [|done].
  rewrite len_app in Hl. pose proof (len_nonneg a). pose proof (len_nonneg b). rewrite !len_app in *. split.
  - apply slice_spec; [done|]. rewrite !len_app. split; [lia|]. exists p, (b ++ q).
    rewrite <- !app_assoc. split_and!; [done|done|lia].
  - apply slice_spec; [lia|]. rewrite !len_app. split; [lia|]. exists (p ++ a), q.
    rewrite <- !app_assoc, len_app. split_and!; [done|lia|lia].
Qed.

(** ** Little-endian integers *)

Fixpoint le_encode (n : nat) (z : Z) : bytes :=
  match n with O => [] | S n => b8 z :: le_encode n (z / 256) end.

Lemma length_le_encode n z : length (le_encode n z) = n.
Proof. revert z. induction n as [|n IH]; intros z; cbn; auto. Qed.
Lemma len_le_encode n z : len (le_encode n z) = Z.of_nat n.
Proof. unfold len. by rewrite length_le_encode. Qed.

Lemma le_decode_range l : 0 <= le_decode l < 256 ^ len l.
Proof.
  induction l as [|x l IH]; [change (0 <= 0 < 1); lia|]. cbn [le_decode].
  rewrite len_cons, Z.pow_add_r by (try apply len_nonneg; lia). pose proof (u8_range x). lia.
Qed.
Lemma le_decode_encode n z : 0 <= z < 256 ^ Z.of_nat n -> le_decode (le_encode n z) = z.
Proof.
  revert z. induction n as [|n IH]; intros z Hz; [cbn in *; lia|]. cbn [le_encode le_decode].
  rewrite Nat2Z.inj_succ, Z.pow_succ_r in Hz by lia.
  rewrite IH by (split; [apply Z.div_pos; lia|apply Z.div_lt_upper_bound; lia]).
  rewrite u8_b8. pose proof (Z.div_mod z 256). lia.
Qed.
Lemma le_encode_decode l : le_encode (length l) (le_decode l) = l.
Proof.
  induction l as [|x l IH]; [done|]. cbn [length le_decode le_encode]. pose proof (u8_range x). f_equal.
  - apply u8_inj. rewrite u8_b8, Z.mul_comm, Z.mod_add, Z.mod_small by lia. done.
  - rewrite Z.mul_comm, Z.div_add, Z.div_small, Z.add_0_l by lia. done.
Qed.

Lemma le_uint_spec n l offset v : 0 <= offset -> 0 <= n ->
  le_uint n l offset = Some v <->
  offset + n <= U64_MAX /\ exists w, slice l offset (offset + n) = Some w /\ le_decode w = v.
Proof.
  intros Ho Hn. unfold le_uint, checked_add. destruct (Z.leb_spec (offset + n) U64_MAX); cbn.
  - rewrite fmap_Some. naive_solver.
  - naive_solver lia.
Qed.
Lemma le_uint_range n l offset v : 0 <= offset -> 0 <= n -> le_uint n l offset = Some v -> 0 <= v < 256 ^ n.
Proof.
  intros Ho Hn. rewrite le_uint_spec by done. intros (_ & w & Hw & <-).
  pose proof (le_decode_range w) as Hr. rewrite (slice_len l offset (offset + n) w Ho Hw) in Hr.
  by replace (offset + n - offset) with n in Hr by lia.
Qed.
Lemma le_uint_in n l offset v : 0 <= offset -> 0 <= n -> le_uint n l offset = Some v -> offset + n <= len l.
Proof. intros Ho Hn. rewrite le_uint_spec by done. intros (_ & w & Hw & _). apply slice_spec in Hw; lia. Qed.
Lemma le_u16_range l offset v : 0 <= offset -> le_u16 l offset = Some v -> 0 <= v < 65536.
Proof. intros Ho Hv. by apply (le_uint_range 2 l offset). Qed.
Lemma le_u32_range l offset v : 0 <= offset -> le_u32 l offset = Some v -> 0 <= v <= U32_MAX.
Proof. intros Ho Hv. apply (le_uint_range 4 l offset) in Hv; [|done..]. unfold U32_MAX. lia. Qed.

(** An integer in a window is that of the whole. *)
Lemma le_uint_window n l from to w i : 0 <= from -> 0 <= i -> 0 <= n -> i + n <= len w -> len l <= U64_MAX ->
  slice l from to = Some w -> le_uint n l (from + i) = le_uint n w i.
Proof.
  intros Hf Hi Hn Hw Hl Hs. unfold le_uint.
  pose proof (proj1 (slice_spec l from to w Hf) Hs) as (Hto & _).
  pose proof (slice_len l from to w Hf Hs).
  unfold checked_add. rewrite (proj2 (Z.leb_le _ _)) by lia. rewrite (proj2 (Z.leb_le _ _)) by lia. cbn.
  replace (from + i + n) with (from + (i + n)) by lia. by rewrite (slice_window l from to w).
Qed.

(** An integer written after [a]. *)
Lemma le_uint_app (n : nat) z a b : 0 <= z < 256 ^ Z.of_nat n -> len a + Z.of_nat n <= U64_MAX ->
  le_uint (Z.of_nat n) (a ++ le_encode n z ++ b) (len a) = Some z.
Proof.
  intros Hz Ha. apply le_uint_spec; [apply len_nonneg|lia|]. split; [done|].
  exists (le_encode n z). split; [|by apply le_decode_encode].
  pose proof (slice_app (le_encode n z) a b) as Hs. by rewrite len_le_encode in Hs.
Qed.

Lemma is_at_true o n : is_at o n = true <-> o = Some n.
Proof. apply bool_decide_eq_true. Qed.
Lemma is_at_false o n : is_at o n = false <-> o <> Some n.
Proof. apply bool_decide_eq_false. Qed.

(** ** Inversion of chains of [option]s *)

Lemma if_none {A} (x : bool) (o : option A) v : (if x then None else o) = Some v <-> x = false /\ o = Some v.
Proof. destruct x; naive_solver. Qed.
Lemma if_some {A} (x : bool) (o : option A) v : (if x then o else None) = Some v <-> x = true /\ o = Some v.
Proof. destruct x; naive_solver. Qed.

(** [opt_inv H] splits an equation [_ = Some _] on a chain of binds and tests. *)
Ltac opt_inv H :=
  repeat lazymatch type of H with
  | (_ ≫= _) = Some _ =>
      let x := fresh "x" in let Hx := fresh "Ho" in apply bind_Some in H as (x & Hx & H); cbv beta zeta in H
  | (if _ then None else _) = Some _ =>
      let Hc := fresh "Hc" in apply if_none in H as [Hc H]
  | (if _ then _ else None) = Some _ =>
      let Hc := fresh "Hc" in apply if_some in H as [Hc H]
  end.

(** The tests of the code as propositions. *)
Ltac tests :=
  rewrite ?orb_false_iff, ?andb_true_iff, ?negb_false_iff, ?negb_true_iff, ?is_at_true, ?is_at_false,
    ?Z.eqb_eq, ?Z.eqb_neq, ?Z.leb_le, ?Z.leb_gt, ?Z.ltb_lt, ?Z.ltb_ge, ?bytes_eqb_eq,
    ?bool_decide_eq_true in *.
