(* ===== verification/Chunks.v ===== *)
(** The chunks of a binary XML document: the loop of [parse_binary_manifest] cuts its input
    into chunks, and what it reads of each depends on that chunk alone. *)

From S2P Require Import Prelude Crates Apk Axml Slices.

(** ** A step in a window *)

Section Window.
Context (input : bytes) (from to : Z) (c : bytes).
Context (Hfrom : 0 <= from) (Hlen : len input <= U64_MAX) (Hslice : slice input from to = Some c).

Lemma window_to : to = from + len c /\ to <= len input.
Proof.
  pose proof (slice_len _ _ _ _ Hfrom Hslice).
  pose proof (proj1 (slice_spec _ _ _ _ Hfrom) Hslice) as (? & _). lia.
Qed.

Lemma window_u16 i : 0 <= i -> i + 2 <= len c -> le_u16 input (from + i) = le_u16 c i.
Proof. intros. by apply (le_uint_window 2 input from to). Qed.
Lemma window_u32 i : 0 <= i -> i + 4 <= len c -> le_u32 input (from + i) = le_u32 c i.
Proof. intros. by apply (le_uint_window 4 input from to). Qed.
Lemma window_byte i : 0 <= i < len c -> byte_at input (from + i) = byte_at c i.
Proof.
  intros Hi. unfold byte_at. f_equal. pose proof Hslice as Hs.
  apply slice_spec in Hs as (_ & a & b & -> & Ha & _); [|done]. unfold len in *.
  rewrite lookup_app_r by lia. rewrite lookup_app_l by lia. f_equal. lia.
Qed.

Lemma window_attribute strings ids i : 0 <= i -> i + 20 <= len c ->
  parse_attribute input strings ids (from + i) = parse_attribute c strings ids i.
Proof.
  intros Hi Hc. unfold parse_attribute. rewrite <- !Z.add_assoc.
  by rewrite !window_u32, window_u16, !window_byte by lia.
Qed.

Lemma mapM_ext_in {A B} (f g : A -> option B) xs : (forall x, x ∈ xs -> f x = g x) -> mapM f xs = mapM g xs.
Proof.
  induction xs as [|x xs IH]; intros Hfg; [done|]. cbn. rewrite (Hfg x) by set_solver.
  destruct (g x); [|done]. cbn. rewrite IH; [done|]. set_solver.
Qed.

Lemma window_element header_size strings ids :
  parse_start_element input from to header_size strings ids =
  parse_start_element c 0 (len c) header_size strings ids.
Proof.
  pose proof window_to as [Hto_ Hto]. rewrite Hto_. unfold parse_start_element.
  replace (from + len c <? from + 36) with (len c <? 0 + 36)
    by (destruct (Z.ltb_spec (len c) (0 + 36)); symmetry; [apply Z.ltb_lt|apply Z.ltb_ge]; lia).
  destruct (negb (header_size =? 16) || (len c <? 0 + 36)) eqn:Hg; [done|].
  apply orb_false_iff in Hg as [_ Hg%Z.ltb_ge]. rewrite window_u32 by lia.
  change (0 + 20) with 20. destruct (le_u32 c 20) as [i|]; [|done]. cbn.
  destruct (pool_get strings i) as [name|]; [|done]. cbn. rewrite !window_u16 by lia.
  change (0 + 24) with 24. change (0 + 26) with 26. change (0 + 28) with 28.
  destruct (le_u16 c 24) as [start|]; [|done]. destruct (le_u16 c 26) as [size|]; [|done]. cbn.
  destruct (le_u16 c 28) as [count|] eqn:Hcount; [|done]. cbn. apply le_u16_range in Hcount; [|lia].
  destruct (negb (start =? 20) || negb (size =? 20) || (1024 <? count)) eqn:Hs; [done|].
  apply orb_false_iff in Hs as [[->%negb_false_iff%Z.eqb_eq ->%negb_false_iff%Z.eqb_eq]%orb_false_iff _].
  change (16 + 20) with 36. unfold checked_add.
  rewrite (proj2 (Z.leb_le (from + 36) _)), (proj2 (Z.leb_le (0 + 36) _)) by (unfold U64_MAX in *; lia). cbn.
  change (0 + 36) with 36.
  destruct (Z.leb_spec (36 + count * 20) U64_MAX); [|unfold U64_MAX in *; lia].
  destruct (Z.leb_spec (from + 36 + count * 20) U64_MAX) as [Hle|Hgt]; cbn.
  2:{ by rewrite (proj2 (Z.eqb_neq (36 + count * 20) (len c))) by lia. }
  destruct (Z.eqb_spec (36 + count * 20) (len c)) as [He|He].
  - rewrite (proj2 (Z.eqb_eq _ _)) by lia. cbn. rewrite (proj2 (Z.eqb_eq _ _)), (proj2 (Z.eqb_eq (36 + count * 20) _)) by lia.
    cbn. f_equal. apply mapM_ext_in. intros x Hx%elem_of_seqZ. rewrite <- Z.add_assoc. apply window_attribute; lia.
  - by rewrite (proj2 (Z.eqb_neq _ _)) by lia.
Qed.

Lemma window_chunk package kind header_size p :
  parse_chunk package input from to kind header_size (len c) p =
  parse_chunk package c 0 (len c) kind header_size (len c) p.
Proof.
  unfold parse_chunk. rewrite slice_all, Hslice.
  destruct (p_strings p) as [pool|], (p_resource_map p) as [ids|]; cbn [mbind option_bind];
    rewrite ?window_element;
    (destruct (len c =? 24) eqn:H24; [apply Z.eqb_eq in H24; by rewrite window_u32 by lia|by rewrite !orb_true_r]).
Qed.
End Window.

(** ** Chunks *)

(** A chunk says its kind, the size of its header and its own. *)
Definition framed (c : bytes) : Prop :=
  exists kind header_size, le_u16 c 0 = Some kind /\ le_u16 c 2 = Some header_size /\
    le_u32 c 4 = Some (len c) /\ 8 <= header_size <= len c.

(** What the loop does with a chunk. *)
Definition chunk_step (package : bytes) (c : bytes) (p : Parsing) : option Parsing :=
  kind ← le_u16 c 0; header_size ← le_u16 c 2;
  parse_chunk package c 0 (len c) kind header_size (len c) p.

Fixpoint fold_steps {A S} (step : A -> S -> option S) (l : list A) (s : S) : option S :=
  match l with [] => Some s | a :: l => s' ← step a s; fold_steps step l s' end.

Lemma fold_steps_app {A S} (step : A -> S -> option S) l k s :
  fold_steps step (l ++ k) s = fold_steps step l s ≫= fold_steps step k.
Proof. revert s. induction l as [|a l IH]; intros s; [done|]. cbn. destruct (step a s); [apply IH|done]. Qed.

(** One turn of the loop. *)
Lemma parse_turn fuel package input cursor p r : 0 <= cursor -> len input <= U64_MAX -> cursor < len input ->
  parse_chunks (S fuel) package input cursor p = Some r <->
  exists c p', slice input cursor (cursor + len c) = Some c /\ framed c /\ chunk_step package c p = Some p' /\
    parse_chunks fuel package input (cursor + len c) p' = Some r.
Proof.
  intros Hc Hl Hlt. cbn [parse_chunks]. rewrite (proj2 (Z.ltb_lt _ _)) by done. split.
  - intros Hp. apply bind_Some in Hp as (kind & Hk & Hp). apply bind_Some in Hp as (h & Hh & Hp).
    apply bind_Some in Hp as (size & Hs & Hp). apply bind_Some in Hp as (to & Hto & Hp).
    apply bind_Some in Hto as (e & He & Hto). apply checked_add_some in He as [-> _].
    destruct ((8 <=? h) && (h <=? size) && (cursor + size <=? len input)) eqn:Hg; [|done].
    apply andb_true_iff in Hg as [[Hg1%Z.leb_le Hg2%Z.leb_le]%andb_true_iff Hg3%Z.leb_le].
    injection Hto as <-. apply bind_Some in Hp as (p' & Hp' & Hr).
    assert (Hslice : exists c, slice input cursor (cursor + size) = Some c).
    { unfold slice. rewrite (proj2 (Z.leb_le _ _)), (proj2 (Z.leb_le _ _)) by lia. by eexists. }
    destruct Hslice as [c Hslice]. pose proof (slice_len _ _ _ _ Hc Hslice) as Hlc.
    assert (size = len c) as -> by lia. rewrite (window_chunk input cursor _ c) in Hp' by done.
    rewrite <- (Z.add_0_r cursor), (window_u16 _ _ _ _ Hc Hl Hslice) in Hk by lia.
    rewrite (window_u16 _ _ _ _ Hc Hl Hslice) in Hh by lia.
    rewrite (window_u32 _ _ _ _ Hc Hl Hslice) in Hs by lia.
    exists c, p'. split_and!; [done|by exists kind, h|unfold chunk_step; by rewrite Hk, Hh|done].
  - intros (c & p' & Hslice & (kind & h & Hk & Hh & Hs & Hr) & Hp' & Hrest).
    unfold chunk_step in Hp'. rewrite Hk, Hh in Hp'. cbn in Hp'.
    pose proof (window_to _ _ _ _ Hc Hslice) as [_ Hto].
    rewrite <- (window_u16 _ _ _ _ Hc Hl Hslice), Z.add_0_r in Hk by lia.
    rewrite <- (window_u16 _ _ _ _ Hc Hl Hslice) in Hh by lia.
    rewrite <- (window_u32 _ _ _ _ Hc Hl Hslice) in Hs by lia.
    rewrite Hk, Hh, Hs. cbn. unfold checked_add.
    rewrite (proj2 (Z.leb_le (cursor + len c) _)), (proj2 (Z.leb_le 8 h)) by lia. cbn.
    rewrite (proj2 (Z.leb_le h _)), (proj2 (Z.leb_le (cursor + len c) (len input))) by lia. cbn. rewrite (window_chunk input cursor _ c) by done. by rewrite Hp'.
Qed.

Lemma framed_len c : framed c -> 8 <= len c.
Proof. intros (k & h & _ & _ & _ & Hh). lia. Qed.

(** The loop ends exactly where the rest of the input is a row of chunks that it can take. *)
Lemma parse_chunks_spec fuel package a b p r : len (a ++ b) <= U64_MAX -> (length b <= fuel)%nat ->
  parse_chunks fuel package (a ++ b) (len a) p = Some r <->
  exists cs p', b = concat cs /\ Forall framed cs /\ fold_steps (chunk_step package) cs p = Some p' /\
    r = (len (a ++ b), p').
Proof.
  revert a b p r. induction fuel as [|fuel IH]; intros a b p r Hl Hf.
  - assert (b = []) as -> by (destruct b; cbn in *; [done|lia]). cbn [parse_chunks].
    rewrite app_nil_r, Z.ltb_irrefl. split.
    + intros [= <-]. exists [], p. by repeat constructor.
    + intros (cs & p' & Hb & Hcs & Hp & ->). destruct cs as [|c cs]; [by injection Hp as ->|].
      inversion_clear Hcs as [|? ? Hc _]. apply framed_len in Hc. cbn in Hb. apply symmetry, app_nil in Hb as [-> _].
      change (len (@nil byte)) with 0 in Hc. lia.
  - destruct (decide (b = [])) as [->|Hb].
    { destruct fuel; cbn [parse_chunks]; rewrite app_nil_r, Z.ltb_irrefl; clear IH.
      all: split; [intros [= <-]; exists [], p; by repeat constructor|].
      all: intros (cs & p' & Hb & Hcs & Hp & ->); destruct cs as [|c cs]; [by injection Hp as ->|].
      all: inversion_clear Hcs as [|? ? Hc _]; apply framed_len in Hc; cbn in Hb;
           apply symmetry, app_nil in Hb as [-> _]; change (len (@nil byte)) with 0 in Hc; lia. }
    assert (0 < len b) by (unfold len; destruct b; [done|cbn; lia]).
    rewrite parse_turn by (try apply len_nonneg; rewrite ?len_app; try rewrite len_app in Hl; lia). split.
    + intros (c & p1 & Hs & Hc & Hp & Hr). pose proof (framed_len c Hc).
      apply slice_spec in Hs as (_ & a' & b' & Hab & Ha & _); [|apply len_nonneg].
      assert (a' = a /\ b = c ++ b') as [-> ->].
      { apply app_inj_1 in Hab; [|unfold len in Ha; lia]. destruct Hab as [-> ->]. done. }
      rewrite app_assoc in Hr, Hl |- *. rewrite <- len_app in Hr.
      apply IH in Hr as (cs & p' & -> & Hcs & Hp' & ->); [|done|unfold len in *; rewrite length_app in Hf; lia].
      exists (c :: cs), p'. split_and!; [done|by constructor| |done]. cbn. by rewrite Hp.
    + intros (cs & p' & -> & Hcs & Hp & ->). destruct cs as [|c cs]; [done|]. cbn [concat] in *.
      inversion_clear Hcs as [|? ? Hc Hcs']. cbn in Hp. apply bind_Some in Hp as (p1 & Hp1 & Hp).
      pose proof (framed_len c Hc). exists c, p1. split_and!; [apply slice_app|done|done|].
      rewrite app_assoc in Hl |- *. rewrite <- len_app.
      assert (Hfuel : (length (concat cs) <= fuel)%nat) by (unfold len in *; rewrite length_app in Hf; lia).
      apply (proj2 (IH (a ++ c) (concat cs) p1 _ Hl Hfuel)). by exists cs, p'.
Qed.
