(* ===== verification/Manifest.v ===== *)
(** The parser of binary manifests against trees of elements: it accepts exactly the documents
    that are a string pool, a resource map and one tree, and its facts are those of the tree. *)

From S2P Require Import Prelude Crates Apk Axml Slices Chunks.

(** ** Documents *)

(** What a chunk stands for, in a document with the string pool [pool] and the resource map
    [ids]. *)
Inductive Item : Type :=
| IPool | IMap | INamespace | IStart (e : StartElement) | IEnd (index : Z).

Definition item_of (pool : list bytes) (ids : list Z) (c : bytes) : option Item :=
  kind ← le_u16 c 0; header_size ← le_u16 c 2;
  if kind =? RES_STRING_POOL then
    if bool_decide (parse_string_pool c = Some pool) then Some IPool else None
  else if kind =? RES_XML_RESOURCE_MAP then
    if bool_decide (parse_resource_map c (len pool) = Some ids) then Some IMap else None
  else if (kind =? RES_XML_START_NAMESPACE) || (kind =? RES_XML_END_NAMESPACE) then
    if (header_size =? 16) && (len c =? 24) then Some INamespace else None
  else if kind =? RES_XML_START_ELEMENT then
    IStart <$> parse_start_element c 0 (len c) header_size pool ids
  else if (kind =? RES_XML_END_ELEMENT) && (header_size =? 16) && (len c =? 24) then
    index ← le_u32 c 20; if is_Some_b (pool_get pool index) then Some (IEnd index) else None
  else None.

Definition not_namespace (i : Item) : bool := match i with INamespace => false | _ => true end.
Definition significant (l : list Item) : list Item := List.filter not_namespace l.

(** A tree of elements, and its items. *)
Inductive Node : Type := mkNode (element : StartElement) (children : list Node).
Definition element (n : Node) : StartElement := let '(mkNode e _) := n in e.
Definition children (n : Node) : list Node := let '(mkNode _ l) := n in l.

Fixpoint events (n : Node) : list Item :=
  let '(mkNode e l) := n in IStart e :: concat (map events l) ++ [IEnd (el_name_index e)].
Fixpoint height (n : Node) : Z :=
  let '(mkNode _ l) := n in 1 + foldr Z.max 0 (map height l).
(** The elements in document order, each with the name of its parent. *)
Fixpoint visits (parent : option bytes) (n : Node) : list (option bytes * StartElement) :=
  let '(mkNode e l) := n in (parent, e) :: concat (map (visits (Some (el_name e))) l).

Definition document (pool : list bytes) (ids : list Z) (root : Node) (input : bytes) : Prop :=
  le_u16 input 0 = Some RES_XML /\ le_u16 input 2 = Some 8 /\ le_u32 input 4 = Some (len input) /\
  exists cs items, drop 8 input = concat cs /\ Forall framed cs /\
    mapM (item_of pool ids) cs = Some (IPool :: items) /\ significant items = IMap :: events root.

(** ** The facts of a tree *)

Definition is_application (v : option bytes * StartElement) : bool :=
  bytes_eqb (el_name (snd v)) (str "application") && bool_decide (fst v = Some (str "manifest")).
Definition is_activity (v : option bytes * StartElement) : bool :=
  bytes_eqb (el_name (snd v)) (str "activity") && bool_decide (fst v = Some (str "application")).
Definition applications (root : Node) : list StartElement :=
  snd <$> List.filter is_application (visits None root).
Definition activities (root : Node) : list StartElement :=
  snd <$> List.filter is_activity (visits None root).

(** The name of an activity, if it has one. *)
Definition activity_name (package : bytes) (e : StartElement) : option (option bytes) :=
  found ← identity_string_attribute e (Some ANDROID_NS) (str "name") (Some ANDROID_ATTR_NAME);
  match found with None => Some None | Some name => Some <$> normalize_activity package name end.
Definition is_bootstrap (package : bytes) (e : StartElement) : bool :=
  bool_decide (activity_name package e = Some (Some (package ++ [DOT] ++ BOOTSTRAP_CLASS))).
Definition is_exported (e : StartElement) : option (option bool) :=
  identity_boolean_attribute e (Some ANDROID_NS) (str "exported") ANDROID_ATTR_EXPORTED.
Definition is_enabled (e : StartElement) : option (option bool) :=
  identity_boolean_attribute e (Some ANDROID_NS) (str "enabled") ANDROID_ATTR_ENABLED.

(** How many bootstrap activities there are, and whether it is exported and enabled. *)
Definition bootstrap_facts (package : bytes) (l : list StartElement) : option (Z * bool * bool) :=
  if forallb (fun e => is_Some_b (activity_name package e)) l then
    match List.filter (is_bootstrap package) l with
    | [] => Some (0, false, false)
    | [e] => x ← is_exported e; x ← x; y ← is_enabled e; Some (1, x, default true y)
    | _ => None
    end
  else None.

Definition tree_facts (package : bytes) (root : Node) : option ManifestFacts :=
  if bytes_eqb (el_name (element root)) (str "manifest")
     && bool_decide (identity_string_attribute (element root) None (str "package") None
                     = Some (Some package))
     && (height root <=? XML_DEPTH_LIMIT)
  then
    '(count, exported, enabled) ← bootstrap_facts package (activities root);
    Some (mkManifestFacts package (len (applications root)) count exported enabled)
  else None.

(** ** Trees *)

Section NodeInd.
Context (P : Node -> Prop) (HP : forall e l, Forall P l -> P (mkNode e l)).
Fixpoint node_ind (n : Node) : P n :=
  match n with
  | mkNode e l => HP e l ((fix all (l : list Node) : Forall P l :=
      match l with
      | [] => Forall_nil_2 P
      | n :: l => Forall_cons_2 P n l (node_ind n) (all l)
      end) l)
  end.
End NodeInd.

Lemma height_pos n : 1 <= height n.
Proof.
  destruct n as [e l]. cbn. assert (0 <= foldr Z.max 0 (map height l)); [|lia].
  induction l; cbn; lia.
Qed.

(** ** Elements in sequence *)

Definition see_visit (package : bytes) (v : option bytes * StartElement) (p : Parsing) : option Parsing :=
  if is_application v then Some (set_application_count (p_application_count p + 1) p)
  else if is_activity v then see_activity package (snd v) p
  else Some p.

Section Items.
Context (package : bytes) (pool : list bytes).

Definition item_step (i : Item) (p : Parsing) : option Parsing :=
  match i with
  | INamespace => Some p
  | IStart e =>
      if XML_DEPTH_LIMIT <=? len (p_stack p) then None
      else
        parent ← match p_stack p with
                 | [] => Some None
                 | index :: _ => Some <$> pool_get pool index
                 end;
        p ← see_element package e parent p;
        Some (set_stack (el_name_index e :: p_stack p) p)
  | IEnd index =>
      match p_stack p with
      | top :: stack => if negb (top =? index) then None else Some (set_stack stack p)
      | [] => None
      end
  | _ => None
  end.

(** The name of an element is at its index. *)
Definition named (e : StartElement) : Prop := pool_get pool (el_name_index e) = Some (el_name e).
Definition item_named (i : Item) : Prop := match i with IStart e => named e | _ => True end.

Lemma see_activity_stack e p p' : see_activity package e p = Some p' ->
  p_stack p' = p_stack p /\ p_strings p' = p_strings p /\ p_resource_map p' = p_resource_map p /\
  p_package p' = p_package p /\ p_application_count p' = p_application_count p.
Proof.
  unfold see_activity. intros Hs. apply bind_Some in Hs as ([name|] & _ & Hs); [|by injection Hs as <-].
  apply bind_Some in Hs as (n & _ & Hs). destruct (bytes_eqb n _); [|by injection Hs as <-].
  destruct (negb _); [done|]. apply bind_Some in Hs as (x & _ & Hs). apply bind_Some in Hs as (y & _ & Hs).
  apply bind_Some in Hs as (z & _ & Hs). by injection Hs as <-.
Qed.
Lemma see_activity_with e s p : see_activity package e (set_stack s p) = set_stack s <$> see_activity package e p.
Proof.
  unfold see_activity. destruct (identity_string_attribute e (Some ANDROID_NS) (str "name") (Some ANDROID_ATTR_NAME)) as [[name|]|]; cbn; try done.
  destruct (normalize_activity _ _) as [n|]; cbn; [|done]. destruct (bytes_eqb n _); [|done].
  destruct (negb _); [done|]. destruct (identity_boolean_attribute e (Some ANDROID_NS) (str "exported") ANDROID_ATTR_EXPORTED) as [[x|]|]; cbn; try done.
  by destruct (identity_boolean_attribute e (Some ANDROID_NS) (str "enabled") ANDROID_ATTR_ENABLED).
Qed.

Lemma see_element_frame e parent p p' : see_element package e parent p = Some p' ->
  p_stack p' = p_stack p /\ p_strings p' = p_strings p /\ p_resource_map p' = p_resource_map p.
Proof.
  unfold see_element. destruct (_ && _ && _).
  { intros Hs. apply bind_Some in Hs as (v & _ & Hs). apply bind_Some in Hs as (w & _ & Hs).
    destruct (negb _); [done|]. by injection Hs as <-. }
  destruct (_ && _); [by intros [= <-]|]. destruct (_ && _); [intros Hs%see_activity_stack; tauto|].
  destruct (is_empty _); [done|]. by intros [= <-].
Qed.
Lemma see_element_inner e parent p : p_stack p <> [] -> see_element package e parent p = see_visit package (parent, e) p.
Proof.
  intros Hs. unfold see_element, see_visit, is_application, is_activity. cbn [fst snd].
  destruct (p_stack p); [done|]. cbn [is_empty]. by rewrite andb_false_r.
Qed.
Lemma see_visit_stack v p p' : see_visit package v p = Some p' ->
  p_stack p' = p_stack p /\ p_package p' = p_package p.
Proof.
  unfold see_visit. destruct (is_application v); [by intros [= <-]|]. destruct (is_activity v); [|by intros [= <-]].
  intros Hs%see_activity_stack. tauto.
Qed.
Lemma see_visit_with v s p : see_visit package v (set_stack s p) = set_stack s <$> see_visit package v p.
Proof. unfold see_visit. destruct (is_application v); [done|]. destruct (is_activity v); [apply see_activity_with|done]. Qed.
Lemma see_visits_with vs s p :
  fold_steps (see_visit package) vs (set_stack s p) = set_stack s <$> fold_steps (see_visit package) vs p.
Proof.
  revert p. induction vs as [|v vs IH]; intros p; [done|]. cbn. rewrite see_visit_with.
  destruct (see_visit package v p) as [p'|]; cbn; [apply IH|done].
Qed.
Lemma see_visits_stack vs p p' : fold_steps (see_visit package) vs p = Some p' ->
  p_stack p' = p_stack p /\ p_package p' = p_package p.
Proof.
  revert p. induction vs as [|v vs IH]; intros p; cbn; [by intros [= ->]|].
  intros Hp. apply bind_Some in Hp as (p1 & Hp1%see_visit_stack & Hp%IH). intuition congruence.
Qed.

Lemma set_stack_stack s p : p_stack (set_stack s p) = s.
Proof. done. Qed.
Lemma set_stack_twice s1 s2 p : set_stack s1 (set_stack s2 p) = set_stack s1 p.
Proof. done. Qed.
Lemma set_stack_id p s : p_stack p = s -> set_stack s p = p.
Proof. destruct p. cbn. by intros ->. Qed.

(** *** A tree below an element *)

Definition forest_height (l : list Node) : Z := foldr Z.max 0 (map height l).

(** The items of a tree below [parent]: its elements are seen in order, where it is not too
    deep. *)
Definition runs_below (parent : bytes) (s : list Z) (d : Z) (xs : list Item)
    (vs : list (option bytes * StartElement)) : Prop :=
  forall p, p_stack p = s -> head s ≫= pool_get pool = Some parent ->
    Forall item_named xs ->
    fold_steps item_step xs p =
    if len s + d <=? XML_DEPTH_LIMIT then fold_steps (see_visit package) vs p else None.

Lemma runs_forest l : forall parent s,
  Forall (fun n => forall parent s, runs_below parent s (height n) (events n) (visits (Some parent) n)) l ->
  len s <= XML_DEPTH_LIMIT ->
  runs_below parent s (forest_height l) (concat (map events l)) (concat (map (visits (Some parent)) l)).
Proof.
  induction l as [|n l IH]; intros parent s Hl Hd p Hs Hp Hn.
  - cbn. by rewrite Z.add_0_r, (proj2 (Z.leb_le _ _)) by done.
  - inversion_clear Hl as [|? ? Hhd Htl]. cbn [map concat] in *. apply Forall_app in Hn as [Hn1 Hn2].
    rewrite !fold_steps_app, (Hhd parent s p Hs Hp Hn1).
    change (forest_height (n :: l)) with (Z.max (height n) (forest_height l)).
    destruct (Z.leb_spec (len s + height n) XML_DEPTH_LIMIT) as [H1|H1].
    + destruct (fold_steps (see_visit package) (visits (Some parent) n) p) as [p1|] eqn:Hp1; cbn.
      * pose proof (see_visits_stack _ _ _ Hp1) as [Hs1 _].
        rewrite (IH parent s Htl Hd p1) by (try done; congruence).
        destruct (Z.leb_spec (len s + forest_height l) XML_DEPTH_LIMIT);
          destruct (Z.leb_spec (len s + Z.max (height n) (forest_height l)) XML_DEPTH_LIMIT); done || lia.
      * by destruct (_ <=? _).
    + rewrite (proj2 (Z.leb_gt _ _)) by lia. done.
Qed.

Lemma runs_node n : forall parent s, runs_below parent s (height n) (events n) (visits (Some parent) n).
Proof.
  induction n as [e l IH] using node_ind. intros parent s p Hs Hp Hn. cbn [events visits].
  inversion_clear Hn as [|? ? Hne Hn']. apply Forall_app in Hn' as [Hn _].
  change (height (mkNode e l)) with (1 + forest_height l).
  destruct s as [|i s]; [done|]. cbn in Hp.
  cbn [fold_steps item_step]. rewrite Hs. assert (Hf : 0 <= forest_height l) by (unfold forest_height; clear; induction l; cbn; lia).
  destruct (Z.leb_spec XML_DEPTH_LIMIT (len (i :: s))) as [H1|H1].
  { by rewrite (proj2 (Z.leb_gt _ _)) by lia. }
  rewrite Hp. cbn [fmap option_fmap option_map mbind option_bind].
  rewrite see_element_inner by (by rewrite Hs).
  destruct (see_visit package (Some parent, e) p) as [p1|] eqn:Hp1; cbn [mbind option_bind]; [|by destruct (_ <=? _)].
  rewrite fold_steps_app. pose proof (see_visit_stack _ _ _ Hp1) as [Hs1 _].
  assert (Hlen : len (el_name_index e :: i :: s) = 1 + len (i :: s)) by apply len_cons.
  rewrite (runs_forest l (el_name e) (el_name_index e :: i :: s)); [|exact IH|lia|cbn; congruence|exact Hne|exact Hn].
  rewrite Hlen. replace (len (i :: s) + (1 + forest_height l)) with (1 + len (i :: s) + forest_height l) by lia.
  destruct (_ <=? _); [|done]. rewrite see_visits_with.
  destruct (fold_steps (see_visit package) _ p1) as [p2|] eqn:Hp2; cbn; [|done].
  apply see_visits_stack in Hp2 as [Hs2 _]. rewrite Z.eqb_refl. cbn.
  rewrite set_stack_twice. f_equal. apply set_stack_id. congruence.
Qed.

(** *** A whole tree *)

Lemma see_visit_root e p : see_visit package (None, e) p = Some p.
Proof.
  unfold see_visit, is_application, is_activity. cbn [fst snd].
  by rewrite !(bool_decide_eq_false_2 (None = _)), !andb_false_r by done.
Qed.

Lemma run_root root p : p_stack p = [] -> p_package p = None -> Forall item_named (events root) ->
  fold_steps item_step (events root) p =
  if bytes_eqb (el_name (element root)) (str "manifest")
     && bool_decide (identity_string_attribute (element root) None (str "package") None
                     = Some (Some package))
     && (height root <=? XML_DEPTH_LIMIT)
  then fold_steps (see_visit package) (visits None root) (set_package (Some package) p) else None.
Proof.
  intros Hs Hp Hn. destruct root as [e l]. cbn [element events visits]. inversion_clear Hn as [|? ? Hne Hn'].
  apply Forall_app in Hn' as [Hn _]. change (height (mkNode e l)) with (1 + forest_height l).
  cbn [fold_steps item_step]. rewrite Hs. cbn [mbind option_bind len].
  change (XML_DEPTH_LIMIT <=? len (@nil Z)) with false. cbn iota.
  unfold see_element. rewrite Hs, Hp. cbn [is_empty is_Some_b negb andb].
  destruct (bytes_eqb (el_name e) (str "manifest")) eqn:Hm; cbn [andb].
  2:{ rewrite (bool_decide_eq_false_2 (None = _)), (bool_decide_eq_false_2 (None = _)) by done. by rewrite !andb_false_r. }
  destruct (identity_string_attribute e None (str "package") None) as [[v|]|] eqn:Hi; cbn.
  2,3: by rewrite bool_decide_eq_false_2 by congruence.
  destruct (bytes_eqb v package) eqn:Hv; cbn.
  2:{ rewrite bool_decide_eq_false_2; [done|]. intros [= ->]. by rewrite bytes_eqb_refl in Hv. }
  apply bytes_eqb_eq in Hv as ->. rewrite bool_decide_eq_true_2 by done. cbn.
  rewrite fold_steps_app, Hs.
  rewrite (runs_forest l (el_name e) [el_name_index e]);
    [|apply list.Forall_forall; intros n _; apply runs_node|done|done|done|done].
  cbn [fold_steps]. rewrite see_visit_root. cbn [mbind option_bind].
  change (len [el_name_index e]) with 1. destruct (_ <=? _); [|done]. rewrite see_visits_with.
  destruct (fold_steps (see_visit package) _ (set_package _ p)) as [p2|] eqn:Hp2; cbn; [|done].
  apply see_visits_stack in Hp2 as [Hs2 _]. rewrite Z.eqb_refl. cbn. f_equal. rewrite set_stack_twice.
  apply set_stack_id. by rewrite Hs2.
Qed.

(** Once there is a package, no second tree begins. *)
Lemma no_second_root e xs p : p_stack p = [] -> p_package p <> None -> fold_steps item_step (IStart e :: xs) p = None.
Proof.
  intros Hs Hp. cbn. rewrite Hs. change (XML_DEPTH_LIMIT <=? len (@nil Z)) with false. cbn.
  unfold see_element. rewrite Hs. destruct (p_package p); [|done]. cbn.
  rewrite !(bool_decide_eq_false_2 (None = _)) by done. by rewrite !andb_false_r.
Qed.

(** *** From items to trees *)

(** Items that close the elements of a stack. *)
Fixpoint closes (s : list Z) (xs : list Item) : Prop :=
  match s with
  | [] => exists l, xs = concat (map events l)
  | i :: s => exists l xs', xs = concat (map events l) ++ IEnd i :: xs' /\ closes s xs'
  end.
Lemma closes_node n s xs : closes s xs -> closes s (events n ++ xs).
Proof.
  destruct s as [|i s]; cbn.
  - intros (l & ->). by exists (n :: l).
  - intros (l & xs' & -> & Hc). exists (n :: l), xs'. cbn. by rewrite app_assoc.
Qed.
Lemma items_close xs p p' : forallb not_namespace xs = true -> fold_steps item_step xs p = Some p' ->
  p_stack p' = [] -> closes (p_stack p) xs.
Proof.
  revert p. induction xs as [|i xs IH]; intros p Hns Hp Hs; cbn in Hp.
  { injection Hp as <-. rewrite Hs. by exists []. }
  cbn in Hns. apply andb_true_iff in Hns as [Hi Hns]. apply bind_Some in Hp as (p1 & Hp1 & Hp).
  specialize (IH p1 Hns Hp Hs). destruct i as [| | |e|index]; try done.
  - cbn in Hp1. destruct (XML_DEPTH_LIMIT <=? _); [done|]. apply bind_Some in Hp1 as (parent & _ & Hp1).
    apply bind_Some in Hp1 as (p2 & Hp2 & [= <-]). cbn in IH.
    apply see_element_frame in Hp2 as (Hs2 & _). rewrite Hs2 in IH.
    destruct IH as (l & xs' & -> & Hc). change (IStart e :: concat (map events l) ++ IEnd (el_name_index e) :: xs')
      with ((IStart e :: concat (map events l)) ++ [IEnd (el_name_index e)] ++ xs'). rewrite app_assoc.
    exact (closes_node (mkNode e l) _ _ Hc).
  - cbn in Hp1. destruct (p_stack p) as [|top s] eqn:Hst; [done|]. destruct (Z.eqb_spec top index) as [->|]; [|done].
    injection Hp1 as <-. cbn in IH. by exists [], xs.
Qed.
End Items.

(** ** The facts *)

Lemma application_not_activity v : is_application v = true -> is_activity v = false.
Proof.
  unfold is_application, is_activity. intros [Hn%bytes_eqb_eq _]%andb_true_iff. rewrite Hn.
  by replace (bytes_eqb (str "application") (str "activity")) with false by by vm_compute.
Qed.
Lemma see_activity_count package e n p :
  see_activity package e (set_application_count n p) = set_application_count n <$> see_activity package e p.
Proof.
  unfold see_activity. destruct (identity_string_attribute e (Some ANDROID_NS) (str "name") (Some ANDROID_ATTR_NAME)) as [[name|]|]; cbn; try done.
  destruct (normalize_activity _ _) as [m|]; cbn; [|done]. destruct (bytes_eqb m _); [|done].
  destruct (negb _); [done|]. destruct (identity_boolean_attribute e (Some ANDROID_NS) (str "exported") ANDROID_ATTR_EXPORTED) as [[x|]|]; cbn; try done.
  by destruct (identity_boolean_attribute e (Some ANDROID_NS) (str "enabled") ANDROID_ATTR_ENABLED).
Qed.
Lemma see_activities_count package es n p :
  fold_steps (see_activity package) es (set_application_count n p) =
  set_application_count n <$> fold_steps (see_activity package) es p.
Proof.
  revert p. induction es as [|e es IH]; intros p; [done|]. cbn. rewrite see_activity_count.
  destruct (see_activity package e p); cbn; [apply IH|done].
Qed.

Lemma fold_visits package vs p :
  fold_steps (see_visit package) vs p =
  set_application_count (p_application_count p + len (List.filter is_application vs)) <$>
    fold_steps (see_activity package) (snd <$> List.filter is_activity vs) p.
Proof.
  revert p. induction vs as [|v vs IH]; intros p.
  { cbn. rewrite len_nil, Z.add_0_r. by destruct p. }
  cbn [fold_steps List.filter].
  change (see_visit package v p) with
    (if is_application v then Some (set_application_count (p_application_count p + 1) p)
     else if is_activity v then see_activity package (snd v) p else Some p).
  destruct (is_application v) eqn:Ha.
  - rewrite (application_not_activity v Ha). cbn [mbind option_bind]. rewrite IH, see_activities_count, len_cons.
    destruct (fold_steps (see_activity package) _ p) as [q|]; [|done]. cbn. unfold set_application_count. cbn. do 2 f_equal. lia.
  - destruct (is_activity v); cbn [mbind option_bind fmap list_fmap fold_steps]; [|apply IH].
    destruct (see_activity package (snd v) p) as [p1|] eqn:Hp1; [|done]. cbn. rewrite IH.
    by apply see_activity_stack in Hp1 as (_ & _ & _ & _ & ->).
Qed.

Lemma bootstrap_named package e : is_bootstrap package e = true -> is_Some_b (activity_name package e) = true.
Proof. unfold is_bootstrap. by intros ->%bool_decide_eq_true. Qed.

Lemma see_activity_cases package e p :
  see_activity package e p =
  if is_Some_b (activity_name package e) then
    if is_bootstrap package e then
      if negb (p_bootstrap_activity_count p + 1 =? 1) then None
      else
        x ← is_exported e; x ← x; y ← is_enabled e;
        Some (set_bootstrap (p_bootstrap_activity_count p + 1) x (default true y) p)
    else Some p
  else None.
Proof.
  unfold see_activity, is_bootstrap, activity_name.
  destruct (identity_string_attribute e (Some ANDROID_NS) (str "name") (Some ANDROID_ATTR_NAME)) as [[name|]|];
    cbn [mbind option_bind fmap option_fmap option_map]; try done.
  destruct (normalize_activity package name) as [n|]; cbn; [|done]. destruct (bytes_eqb n _) eqn:Hb.
  - apply bytes_eqb_eq in Hb. by rewrite bool_decide_eq_true_2 by congruence.
  - rewrite bool_decide_eq_false_2; [done|]. intros [= ->]. by rewrite bytes_eqb_refl in Hb.
Qed.

(** A second bootstrap activity is refused. *)
Lemma fold_activities_one package es p : p_bootstrap_activity_count p = 1 ->
  fold_steps (see_activity package) es p =
  if forallb (fun e => is_Some_b (activity_name package e)) es && is_empty (List.filter (is_bootstrap package) es)
  then Some p else None.
Proof.
  intros Hp. induction es as [|e es IH]; [done|]. cbn [fold_steps forallb List.filter].
  rewrite see_activity_cases, Hp. destruct (is_Some_b _) eqn:Hn; [|done]. cbn [andb].
  destruct (is_bootstrap package e); [by rewrite andb_false_r|done].
Qed.
Lemma fold_activities package es p : set_bootstrap 0 false false p = p ->
  fold_steps (see_activity package) es p =
  (fun f : Z * bool * bool => let '(n, x, y) := f in set_bootstrap n x y p) <$> bootstrap_facts package es.
Proof.
  intros Hp. assert (H0 : p_bootstrap_activity_count p = 0) by (by rewrite <- Hp).
  induction es as [|e es IH]; [cbn; by rewrite Hp|]. cbn [fold_steps]. unfold bootstrap_facts in *.
  cbn [forallb List.filter]. rewrite see_activity_cases, H0.
  destruct (is_Some_b (activity_name package e)) eqn:Hn; [|done]. cbn [andb].
  destruct (is_bootstrap package e) eqn:Hb; [|exact IH].
  change (negb (0 + 1 =? 1)) with false. cbn iota.
  destruct (forallb _ es) eqn:Hall.
  - destruct (is_exported e) as [[x|]|]; cbn; [|by destruct (List.filter _ es)..].
    destruct (is_enabled e) as [y|]; cbn; [|by destruct (List.filter _ es)].
    rewrite fold_activities_one, Hall by done. cbn. by destruct (List.filter (is_bootstrap package) es).
  - destruct (is_exported e) as [[x|]|]; cbn; try done. destruct (is_enabled e) as [y|]; cbn; [|done].
    by rewrite fold_activities_one, Hall.
Qed.

(** ** The phases of the loop *)

Ltac kinds := unfold RES_STRING_POOL, RES_XML_RESOURCE_MAP, RES_XML_START_NAMESPACE,
  RES_XML_END_NAMESPACE, RES_XML_START_ELEMENT, RES_XML_END_ELEMENT in *.

Lemma parse_start_named c header_size pool ids e :
  parse_start_element c 0 (len c) header_size pool ids = Some e -> named pool e.
Proof.
  unfold parse_start_element, named. intros Hp. apply if_none in Hp as [_ Hp].
  apply bind_Some in Hp as (i & _ & Hp). apply bind_Some in Hp as (n & Hn & Hp).
  apply bind_Some in Hp as (? & _ & Hp). apply bind_Some in Hp as (? & _ & Hp). apply bind_Some in Hp as (? & _ & Hp).
  apply if_none in Hp as [_ Hp]. apply bind_Some in Hp as (? & _ & Hp). apply bind_Some in Hp as (? & _ & Hp).
  apply if_none in Hp as [_ Hp]. apply bind_Some in Hp as (? & _ & Hp). by injection Hp as <-.
Qed.
Lemma item_of_named pool ids c i : item_of pool ids c = Some i -> item_named pool i.
Proof.
  unfold item_of. intros Hi. apply bind_Some in Hi as (k & _ & Hi). apply bind_Some in Hi as (h & _ & Hi).
  destruct (k =? _). { destruct (bool_decide _); [|done]. by injection Hi as <-. }
  destruct (k =? _). { destruct (bool_decide _); [|done]. by injection Hi as <-. }
  destruct (_ || _). { destruct (_ && _); [|done]. by injection Hi as <-. }
  destruct (k =? _). { apply fmap_Some in Hi as (e & He & ->). by eapply parse_start_named. }
  destruct (_ && _); [|done]. apply bind_Some in Hi as (x & _ & Hi). destruct (is_Some_b _); [|done]. by injection Hi as <-.
Qed.

Section Phases.
Context (package : bytes).

(** With a pool and a map a chunk is taken as its item. *)
Lemma chunk_step_item pool ids c p : p_strings p = Some pool -> p_resource_map p = Some ids ->
  chunk_step package c p = item_of pool ids c ≫= fun i => item_step package pool i p.
Proof.
  intros Hs Hm. unfold chunk_step, item_of, parse_chunk. rewrite Hs, Hm. cbn [is_Some_b negb andb].
  destruct (le_u16 c 0) as [k|]; [|done]. destruct (le_u16 c 2) as [h|]; [|done]. cbn [mbind option_bind].
  rewrite !andb_false_r. cbn [andb].
  destruct (Z.eqb_spec k RES_STRING_POOL) as [->|_].
  { cbn. by destruct (bool_decide _). }
  destruct (Z.eqb_spec k RES_XML_RESOURCE_MAP) as [->|_].
  { cbn. by destruct (bool_decide _). }
  destruct (_ || _). { by destruct (h =? 16), (len c =? 24). }
  destruct (k =? RES_XML_START_ELEMENT).
  { destruct (parse_start_element c 0 (len c) h pool ids) as [e|]; cbn; [|by destruct (_ <=? _)]. done. }
  destruct (k =? RES_XML_END_ELEMENT); [|done]. destruct (h =? 16), (len c =? 24); cbn [andb orb negb]; try done.
  change (0 + 20) with 20. destruct (le_u32 c 20) as [i|]; [|done]. cbn [mbind option_bind].
  by destruct (pool_get pool i).
Qed.

Lemma item_step_frame pool i p p' : item_step package pool i p = Some p' ->
  p_strings p' = p_strings p /\ p_resource_map p' = p_resource_map p.
Proof.
  destruct i as [| | |e|i]; cbn; try done; [by intros [= <-]| |].
  - destruct (_ <=? _); [done|]. intros Hp. apply bind_Some in Hp as (x & _ & Hp).
    apply bind_Some in Hp as (q & Hq%see_element_frame & [= <-]). tauto.
  - destruct (p_stack p); [done|]. destruct (negb _); [done|]. by intros [= <-].
Qed.

Lemma fold_items pool ids cs p p' : p_strings p = Some pool -> p_resource_map p = Some ids ->
  fold_steps (chunk_step package) cs p = Some p' <->
  exists items, mapM (item_of pool ids) cs = Some items /\ fold_steps (item_step package pool) items p = Some p'.
Proof.
  revert p. induction cs as [|c cs IH]; intros p Hs Hm.
  { cbn. split; [by exists []|by intros (items & [= <-] & Hp)]. }
  cbn [fold_steps]. rewrite (chunk_step_item pool ids) by done. cbn [mapM].
  destruct (item_of pool ids c) as [i|]; cbn; [|split; [done|by intros (? & ? & _)]].
  destruct (item_step package pool i p) as [p1|] eqn:Hp1; cbn.
  - pose proof (item_step_frame _ _ _ _ Hp1) as [Hs1 Hm1]. rewrite IH by congruence. split.
    + intros (items & -> & Hp). exists (i :: items). cbn. by rewrite Hp1.
    + intros (items' & Hi & Hp). destruct (mapM (item_of pool ids) cs) as [items|]; [|done]. cbn in Hi.
      injection Hi as <-. cbn in Hp. rewrite Hp1 in Hp. by exists items.
  - split; [done|]. intros (items' & Hi & Hp). destruct (mapM (item_of pool ids) cs) as [items|]; [|done].
    cbn in Hi. injection Hi as <-. cbn in Hp. by rewrite Hp1 in Hp.
Qed.

Lemma fold_significant pool items p :
  fold_steps (item_step package pool) items p = fold_steps (item_step package pool) (significant items) p.
Proof.
  revert p. induction items as [|i items IH]; intros p; [done|]. unfold significant. cbn [List.filter].
  destruct (not_namespace i) eqn:Hi.
  - cbn [fold_steps]. destruct (item_step package pool i p); [apply IH|done].
  - destruct i; try done. apply IH.
Qed.

(** With a pool and no map: namespaces, up to the map. *)
Definition mapless (pool : list bytes) (p : Parsing) : Prop :=
  p_strings p = Some pool /\ p_resource_map p = None /\ p_stack p = [] /\ p_package p = None.

Lemma chunk_step_mapless pool c p p' : mapless pool p -> chunk_step package c p = Some p' ->
  (p' = p /\ forall ids, item_of pool ids c = Some INamespace) \/
  exists ids, p' = set_resource_map (Some ids) p /\ item_of pool ids c = Some IMap.
Proof.
  intros (Hs & Hm & Hst & Hp). unfold chunk_step, item_of, parse_chunk. rewrite Hs, Hm, Hst, slice_all.
  destruct (le_u16 c 0) as [k|]; [|done]. destruct (le_u16 c 2) as [h|]; [|done]. cbn [mbind option_bind is_Some_b negb is_empty andb].
  rewrite !andb_false_r, !andb_true_r. cbn [andb].
  destruct (Z.eqb_spec k RES_STRING_POOL) as [->|_]. { done. }
  destruct (Z.eqb_spec k RES_XML_RESOURCE_MAP) as [->|_].
  { cbn. intros Hr. apply bind_Some in Hr as (ids & Hids & [= <-]). right. exists ids.
    split; [done|]. by rewrite bool_decide_eq_true_2. }
  destruct (_ || _). { destruct (h =? 16), (len c =? 24); cbn; try done. intros [= <-]. by left. }
  destruct (k =? RES_XML_START_ELEMENT). { by destruct (_ <=? _). }
  destruct (k =? RES_XML_END_ELEMENT); [|done]. destruct (negb _ || negb _); [done|].
  intros Hr. apply bind_Some in Hr as (i & _ & Hr). by apply bind_Some in Hr as (x & _ & Hr).
Qed.
Lemma chunk_step_namespace pool ids c p : p_strings p = Some pool ->
  item_of pool ids c = Some INamespace -> chunk_step package c p = Some p.
Proof.
  intros Hs. unfold chunk_step, item_of, parse_chunk. rewrite Hs.
  destruct (le_u16 c 0) as [k|]; [|done]. destruct (le_u16 c 2) as [h|]; [|done]. cbn [mbind option_bind is_Some_b negb andb].
  rewrite andb_false_r. cbn [andb].
  destruct (Z.eqb_spec k RES_STRING_POOL) as [->|_]. { by destruct (bool_decide _). }
  destruct (Z.eqb_spec k RES_XML_RESOURCE_MAP) as [->|_]. { by destruct (bool_decide _). }
  cbn [andb]. destruct (_ || _). { by destruct (h =? 16), (len c =? 24). }
  destruct (k =? RES_XML_START_ELEMENT). { by destruct (parse_start_element _ _ _ _ _ _). }
  destruct (_ && _); [|done]. intros Hi. apply bind_Some in Hi as (x & _ & Hi). by destruct (is_Some_b _).
Qed.
Lemma chunk_step_map pool ids c p : mapless pool p ->
  item_of pool ids c = Some IMap -> chunk_step package c p = Some (set_resource_map (Some ids) p).
Proof.
  intros (Hs & Hm & Hst & Hp). unfold chunk_step, item_of, parse_chunk. rewrite Hs, Hm, Hst, slice_all.
  destruct (le_u16 c 0) as [k|]; [|done]. destruct (le_u16 c 2) as [h|]; [|done]. cbn [mbind option_bind is_Some_b negb is_empty andb].
  rewrite !andb_false_r, !andb_true_r. cbn [andb].
  destruct (Z.eqb_spec k RES_STRING_POOL) as [->|_]. { by destruct (bool_decide _). }
  destruct (Z.eqb_spec k RES_XML_RESOURCE_MAP) as [->|_].
  { destruct (bool_decide _) eqn:Hb; [|done]. apply bool_decide_eq_true in Hb. cbn. by rewrite Hb. }
  destruct (_ || _). { by destruct (h =? 16), (len c =? 24). }
  destruct (k =? RES_XML_START_ELEMENT). { by destruct (parse_start_element _ _ _ _ _ _). }
  destruct (_ && _); [|done]. intros Hi. apply bind_Some in Hi as (x & _ & Hi). by destruct (is_Some_b _).
Qed.

Lemma significant_cons i items : significant (i :: items) = if not_namespace i then i :: significant items else significant items.
Proof. done. Qed.

Lemma fold_mapless pool cs p p' : mapless pool p ->
  fold_steps (chunk_step package) cs p = Some p' /\ p_package p' <> None <->
  exists ids items evs, mapM (item_of pool ids) cs = Some items /\ significant items = IMap :: evs /\
    fold_steps (item_step package pool) evs (set_resource_map (Some ids) p) = Some p' /\ p_package p' <> None.
Proof.
  intros Hml. induction cs as [|c cs IH].
  { split; [intros [[= <-] Hp]; by destruct Hml as (_ & _ & _ & Hn)|by intros (ids & items & evs & [= <-] & ? & _)]. }
  cbn [fold_steps]. split.
  - intros [Hc Hp]. apply bind_Some in Hc as (p1 & Hc & Hcs). apply (chunk_step_mapless pool) in Hc as [[-> Hc]|(ids & -> & Hc)]; [| |done].
    + destruct (proj1 IH (conj Hcs Hp)) as (ids & items & evs & Hi & Hsig & Hev). exists ids, (INamespace :: items), evs.
      cbn [mapM]. rewrite Hc. cbn. by rewrite Hi.
    + apply (fold_items pool ids) in Hcs as (items & Hi & Hf); [|apply Hml|done].
      exists ids, (IMap :: items), (significant items). cbn [mapM]. rewrite Hc. cbn. rewrite Hi.
      split_and!; [done|done|by rewrite <- fold_significant|done].
  - intros (ids & items & evs & Hi & Hsig & Hev & Hp). cbn [mapM] in Hi.
    destruct (item_of pool ids c) as [i|] eqn:Hc; [|done]. cbn in Hi.
    destruct (mapM (item_of pool ids) cs) as [items'|] eqn:Hcs; [|done]. injection Hi as <-.
    rewrite significant_cons in Hsig. destruct i; try done; cbn in Hsig.
    + injection Hsig as <-. rewrite (chunk_step_map pool ids) by done. cbn. split; [|done].
      apply (fold_items pool ids); [apply Hml|done|]. exists items'. by rewrite <- fold_significant in Hev.
    + rewrite (chunk_step_namespace pool ids) by (done || apply Hml). cbn. apply IH. by exists ids, items', evs.
Qed.

(** At first only a pool is taken. *)
Lemma chunk_step_new c p : chunk_step package c parsing_new = Some p <->
  exists pool, p = set_strings (Some pool) parsing_new /\ forall ids, item_of pool ids c = Some IPool.
Proof.
  unfold chunk_step, item_of, parse_chunk. rewrite slice_all. cbn [parsing_new p_strings p_stack p_resource_map is_Some_b negb is_empty].
  destruct (le_u16 c 0) as [k|]; [|split; [done|by intros (? & _ & Hi); specialize (Hi [])]].
  destruct (le_u16 c 2) as [h|]; [|split; [done|by intros (? & _ & Hi); specialize (Hi [])]]. cbn [mbind option_bind].
  rewrite !andb_true_r, !andb_false_r. cbn [andb]. destruct (Z.eqb_spec k RES_STRING_POOL) as [->|_].
  - cbn. split.
    + intros Hp. apply bind_Some in Hp as (pool & Hpool & [= <-]). exists pool. split; [done|]. intros _.
      by rewrite bool_decide_eq_true_2.
    + intros (pool & -> & Hi). specialize (Hi []). destruct (bool_decide _) eqn:Hb; [|done].
      apply bool_decide_eq_true in Hb. by rewrite Hb.
  - split.
    + destruct (_ || _); [by destruct (h =? 16), (len c =? 24)|]. destruct (k =? RES_XML_START_ELEMENT); [by destruct (_ <=? _)|].
      destruct (k =? RES_XML_END_ELEMENT); [|done]. destruct (_ || _); [done|]. intros Hp.
      by apply bind_Some in Hp as (? & _ & Hp).
    + intros (pool & _ & Hi). specialize (Hi []). destruct (Z.eqb_spec k RES_XML_RESOURCE_MAP). { by destruct (bool_decide _). }
      destruct (_ || _). { by destruct (_ && _). } destruct (k =? RES_XML_START_ELEMENT). { by destruct (parse_start_element _ _ _ _ _ _). }
      destruct (_ && _); [|done]. apply bind_Some in Hi as (x & _ & Hi). by destruct (is_Some_b _).
Qed.
End Phases.

(** ** The parser *)

(** The variables of the parser after a document with these facts. *)
Definition parsed (pool : list bytes) (ids : list Z) (f : ManifestFacts) : Parsing :=
  mkParsing (Some pool) [] (Some (mf_package f)) (mf_application_count f)
    (mf_bootstrap_activity_count f) (mf_bootstrap_exported f) (mf_bootstrap_enabled f) (Some ids).
Definition before_tree (pool : list bytes) (ids : list Z) : Parsing :=
  set_resource_map (Some ids) (set_strings (Some pool) parsing_new).

Lemma run_tree package pool ids root : Forall (item_named pool) (events root) ->
  fold_steps (item_step package pool) (events root) (before_tree pool ids) =
  parsed pool ids <$> tree_facts package root.
Proof.
  intros Hn. rewrite run_root by done. unfold tree_facts. destruct (_ && _ && _); [|done].
  rewrite fold_visits, fold_activities by done. fold (activities root).
  destruct (bootstrap_facts package (activities root)) as [[[n x] y]|]; [|done]. cbn. unfold parsed, applications. cbn.
  unfold len. by rewrite length_fmap.
Qed.

Lemma significant_all items evs : significant items = IMap :: evs -> forallb not_namespace evs = true.
Proof.
  intros Hs. assert (Hall : forallb not_namespace (significant items) = true).
  { apply forallb_forall. intros i Hi%List.filter_In. tauto. }
  rewrite Hs in Hall. by apply andb_true_iff in Hall as [_ Hall].
Qed.
Lemma items_named pool ids cs items : mapM (item_of pool ids) cs = Some items -> Forall (item_named pool) items.
Proof.
  intros Hm. apply mapM_Some in Hm. induction Hm as [|c i cs items Hc _ IH]; constructor; [|done].
  by apply item_of_named in Hc.
Qed.
Lemma significant_forall (P : Item -> Prop) items : Forall P items -> Forall P (significant items).
Proof. rewrite !list.Forall_forall. intros HP i Hi%list_elem_of_In%List.filter_In. apply HP, list_elem_of_In. tauto. Qed.

(** A run that ends outside every element, with a package, is that of a tree. *)
Lemma items_tree package pool ids evs p : forallb not_namespace evs = true -> Forall (item_named pool) evs ->
  fold_steps (item_step package pool) evs (before_tree pool ids) = Some p -> p_stack p = [] -> p_package p <> None ->
  exists root f, evs = events root /\ tree_facts package root = Some f /\ p = parsed pool ids f.
Proof.
  intros Hns Hn Hp Hs Hpk. pose proof (items_close package pool _ _ _ Hns Hp Hs) as Hc. cbn in Hc.
  destruct Hc as ([|root l] & ->); [cbn in Hp; injection Hp as <-; done|]. cbn [map concat] in *.
  rewrite fold_steps_app in Hp. apply Forall_app in Hn as [Hn _]. rewrite run_tree in Hp by done.
  destruct (tree_facts package root) as [f|] eqn:Hf; [|done]. cbn [fmap option_fmap option_map mbind option_bind] in Hp.
  destruct l as [|[e l'] l]; cbn [map concat] in *.
  - cbn in Hp. injection Hp as <-. exists root, f. by rewrite app_nil_r.
  - cbn [events app] in Hp. by rewrite no_second_root in Hp.
Qed.

Lemma mapless_new pool : mapless pool (set_strings (Some pool) parsing_new).
Proof. by repeat split. Qed.

Lemma fold_chunks package cs p :
  fold_steps (chunk_step package) cs parsing_new = Some p /\ p_stack p = [] /\ p_package p <> None <->
  exists pool ids items root f, mapM (item_of pool ids) cs = Some (IPool :: items) /\
    significant items = IMap :: events root /\ tree_facts package root = Some f /\ p = parsed pool ids f.
Proof.
  destruct cs as [|c cs]; [split; [by intros ([= <-] & _ & ?)|by intros (? & ? & ? & ? & ? & ? & _)]|].
  cbn [fold_steps]. split.
  - intros (Hp & Hs & Hpk). apply bind_Some in Hp as (p1 & Hp1 & Hp). apply chunk_step_new in Hp1 as (pool & -> & Hc).
    destruct (proj1 (fold_mapless package pool cs _ p (mapless_new pool)) (conj Hp Hpk)) as (ids & items & evs & Hm & Hsig & Hev & _).
    pose proof (significant_forall _ _ (items_named _ _ _ _ Hm)) as Hn. rewrite Hsig in Hn. inversion_clear Hn as [|? ? _ Hn'].
    destruct (items_tree package pool ids evs p (significant_all _ _ Hsig) Hn' Hev Hs Hpk) as (root & f & -> & Hf & ->).
    exists pool, ids, items, root, f. split_and!; try done. cbn [mapM]. rewrite Hc. cbn. by rewrite Hm.
  - intros (pool & ids & items & root & f & Hm & Hsig & Hf & ->). cbn [mapM] in Hm.
    destruct (item_of pool ids c) as [i|] eqn:Hc; [|done]. cbn in Hm.
    destruct (mapM (item_of pool ids) cs) as [items'|] eqn:Hcs; [|done]. injection Hm as -> ->.
    assert (Hc' : chunk_step package c parsing_new = Some (set_strings (Some pool) parsing_new)).
    { clear - Hc. unfold chunk_step, item_of, parse_chunk in *. destruct (le_u16 c 0) as [k|]; [|done].
      destruct (le_u16 c 2) as [h|]; [|done]. cbn [mbind option_bind] in *. rewrite slice_all.
      destruct (Z.eqb_spec k RES_STRING_POOL) as [->|_].
      - destruct (bool_decide _) eqn:Hb; [|done]. apply bool_decide_eq_true in Hb. cbn. by rewrite Hb.
      - exfalso. destruct (k =? RES_XML_RESOURCE_MAP). { by destruct (bool_decide _). }
        destruct (_ || _). { by destruct (_ && _). } destruct (k =? RES_XML_START_ELEMENT). { by destruct (parse_start_element _ _ _ _ _ _). }
        destruct (_ && _); [|done]. apply bind_Some in Hc as (x & _ & Hc). by destruct (is_Some_b _). }
    rewrite Hc'. cbn [mbind option_bind].
    assert (Hn : Forall (item_named pool) (events root)).
    { pose proof (significant_forall _ _ (items_named _ _ _ _ Hcs)) as Hn. rewrite Hsig in Hn. by inversion_clear Hn. }
    pose proof (run_tree package pool ids root Hn) as Hrun. rewrite Hf in Hrun.
    destruct (proj2 (fold_mapless package pool cs _ (parsed pool ids f) (mapless_new pool))) as [Hp Hpk].
    { by exists ids, items, (events root). }
    done.
Qed.

Lemma parse_chunks_header input package r : 8 <= len input -> le_u32 input 4 = Some (len input) ->
  parse_chunks (length input) package input 8 parsing_new = Some r <->
  exists cs, drop 8 input = concat cs /\ Forall framed cs /\
    fold_steps (chunk_step package) cs parsing_new = Some (snd r) /\ fst r = len input.
Proof.
  intros Hlen Hl. apply le_u32_range in Hl; [|done].
  assert (Hsplit : take 8 input ++ drop 8 input = input) by apply take_drop.
  assert (H8 : len (take 8 input) = 8) by (unfold len in *; rewrite length_take; lia).
  pose proof (parse_chunks_spec (length input) package (take 8 input) (drop 8 input) parsing_new r) as Hs.
  rewrite Hsplit, H8 in Hs. rewrite Hs by (rewrite ?length_drop; unfold U32_MAX, U64_MAX in *; lia).
  destruct r as [cursor p]. cbn [fst snd]. naive_solver.
Qed.

Lemma manifest_spec input package f :
  parse_binary_manifest input package = Some f <->
  exists pool ids root, document pool ids root input /\ tree_facts package root = Some f.
Proof.
  unfold parse_binary_manifest, document. split.
  - intros Hp. apply if_none in Hp as [Hg Hp]. rewrite !orb_false_iff, !negb_false_iff, !is_at_true in Hg.
    destruct Hg as [[[Hlen%Z.ltb_ge Hx] Hh] Hl]. apply bind_Some in Hp as ([cursor p] & Hc & Hp).
    apply if_none in Hp as [Hg Hp]. rewrite orb_false_iff, !negb_false_iff, is_empty_true in Hg. destruct Hg as [_ Hs].
    apply bind_Some in Hp as (pk & Hpk & [= <-]).
    apply (parse_chunks_header input) in Hc as (cs & Hcs & Hfr & Hf & _); [|done..].
    destruct (proj1 (fold_chunks package cs p)) as (pool & ids & items & root & f & Hm & Hsig & Hfacts & ->).
    { split_and!; [done..|congruence]. }
    exists pool, ids, root. split; [|cbn in Hpk; injection Hpk as <-; by destruct f].
    split_and!; [done..|]. by exists cs, items.
  - intros (pool & ids & root & (Hx & Hh & Hl & cs & items & Hcs & Hfr & Hm & Hsig) & Hfacts).
    assert (Hlen : 8 <= len input) by (by apply (le_uint_in 4) in Hl).
    rewrite Hx, Hh, Hl. unfold is_at. rewrite !bool_decide_eq_true_2, (proj2 (Z.ltb_ge _ _)) by done. cbn [negb orb].
    destruct (proj2 (fold_chunks package cs (parsed pool ids f))) as (Hf & _).
    { by exists pool, ids, items, root, f. }
    rewrite (proj2 (parse_chunks_header input package (len input, parsed pool ids f) Hlen Hl)) by by exists cs.
    cbn. rewrite Z.eqb_refl. cbn. by destruct f.
Qed.

(** C23: the parser of binary manifests accepts exactly the documents that are, after a correct
    header, a string pool, a resource map and one well-nested tree of elements (with namespace
    declarations anywhere after the pool), and its facts are those of the tree: the root is a
    manifest of the expected package, no element is nested more than 256 deep, every activity of
    an application has a readable name, and at most one of them is the bootstrap activity. *)
Theorem manifest_exact input package f :
  parse_binary_manifest input package = Some f <->
  exists pool ids root, document pool ids root input /\ tree_facts package root = Some f.
Proof. apply manifest_spec. Qed.
