(* ===== verification/Archive.v ===== *)
(** The extraction of the manifest against what an archive is: a front with the data, the
    records of the central directory, and one end record that describes them. *)

From S2P Require Import Prelude Crates Apk Slices.

(** ** The end record *)

(** A signature whose comment ends with the file. *)
Definition end_record (file : bytes) (p : Z) : Prop :=
  le_u32 file p = Some ZIP_EOCD /\
  exists comment, le_u16 file (p + 20) = Some comment /\ p + 22 + comment = len file.

Lemma end_record_bounds file p : 0 <= p -> end_record file p -> len file - 65557 <= p <= len file - 22.
Proof.
  intros Hp (_ & comment & Hc & He). apply (le_u16_range file (p + 20)) in Hc; lia.
Qed.

Lemma candidates_spec tail p : p ∈ eocd_candidates tail <-> 0 <= p <= len tail - 22 /\
  le_u32 tail p = Some ZIP_EOCD /\ exists comment, le_u16 tail (p + 20) = Some comment /\
    checked_add p (22 + comment) = Some (len tail).
Proof.
  unfold eocd_candidates. rewrite list_elem_of_filter, elem_of_seqZ, andb_true_iff, is_at_true.
  split.
  - intros ((Hs & Hc) & Hp). destruct (le_u16 tail (p + 20)) as [c|]; [|done]. apply bool_decide_eq_true in Hc.
    split_and!; [lia|lia|done|by exists c].
  - intros (Hp & Hs & c & Hc & He). rewrite Hc. split_and!; [done|by apply bool_decide_eq_true|lia|lia].
Qed.
Lemma candidates_nodup tail : NoDup (eocd_candidates tail).
Proof. apply NoDup_filter, NoDup_seqZ. Qed.

Lemma unique_list {A} (l : list A) a : NoDup l -> l = [a] <-> a ∈ l /\ forall b, b ∈ l -> b = a.
Proof.
  intros Hl. split.
  - intros ->. split; [by apply list_elem_of_singleton|]. by intros b ->%list_elem_of_singleton.
  - intros [Ha Hu]. destruct l as [|x [|y l]]; [by apply elem_of_nil in Ha| |].
    + f_equal. apply Hu. by left.
    + exfalso. assert (x = a) by (apply Hu; by left). assert (y = a) by (apply Hu; right; by left). subst.
      apply NoDup_cons in Hl as [Hn _]. apply Hn. by left.
Qed.

(** The candidates in the tail are the end records of the file. *)
Lemma candidates_file file start tail p : len file <= U64_MAX -> 0 <= start -> start = len file - Z.min (len file) 65557 ->
  slice file start (len file) = Some tail -> 0 <= p ->
  p ∈ eocd_candidates tail <-> end_record file (start + p).
Proof.
  intros Hl Hs0 Hs Ht Hp. pose proof (slice_len _ _ _ _ Hs0 Ht) as Hlt.
  assert (Hwin : forall n i, 0 <= i -> 0 <= n -> i + n <= len tail -> le_uint n tail i = le_uint n file (start + i)).
  { intros n i Hi Hn Hin. symmetry. by apply (le_uint_window n file start (len file)). }
  rewrite candidates_spec. unfold end_record. split.
  - intros (Hr & He & c & Hc & Ha). apply checked_add_some in Ha as [Ha _].
    unfold le_u32, le_u16 in *. rewrite (Hwin 4) in He by lia. rewrite (Hwin 2) in Hc by lia.
    split; [done|]. exists c. rewrite <- Z.add_assoc. split; [done|lia].
  - intros (He & c & Hc & Ha). pose proof Hc as Hc'. apply (le_u16_range file) in Hc'; [|lia].
    assert (p + 22 <= len tail) by lia. unfold le_u32, le_u16 in *. rewrite <- (Hwin 4) in He by lia.
    rewrite <- Z.add_assoc, <- (Hwin 2) in Hc by lia. split_and!; [lia|lia|done|]. exists c. split; [done|].
    apply checked_add_some. unfold U64_MAX in *. lia.
Qed.

(** ** The central directory *)

Definition shift_entry (d : Z) (e : CentralEntry) : CentralEntry :=
  mkCentralEntry (ce_flags e) (ce_method e) (ce_crc e) (ce_compressed e) (ce_uncompressed e)
    (ce_disk e) (ce_local_offset e) (ce_name e) (ce_end e + d).

Lemma central_entry_spec central cursor e : 0 <= cursor -> len central <= U64_MAX ->
  central_entry central cursor = Some e <->
  exists nl xl cl,
    le_u32 central cursor = Some ZIP_CENTRAL /\ le_u16 central (cursor + 8) = Some (ce_flags e) /\
    le_u16 central (cursor + 10) = Some (ce_method e) /\ le_u32 central (cursor + 16) = Some (ce_crc e) /\
    le_u32 central (cursor + 20) = Some (ce_compressed e) /\
    le_u32 central (cursor + 24) = Some (ce_uncompressed e) /\ le_u16 central (cursor + 28) = Some nl /\
    le_u16 central (cursor + 30) = Some xl /\ le_u16 central (cursor + 32) = Some cl /\
    le_u16 central (cursor + 34) = Some (ce_disk e) /\ le_u32 central (cursor + 42) = Some (ce_local_offset e) /\
    ce_end e = cursor + 46 + nl + xl + cl /\ ce_end e <= len central /\
    slice central (cursor + 46) (cursor + 46 + nl) = Some (ce_name e).
Proof.
  intros Hc Hl. unfold central_entry. split.
  - intros He. opt_inv He. injection He as <-. cbn.
    match goal with H : _ ≫= _ = Some ?v |- _ => rename H into Hend; rename v into to end.
    opt_inv Hend. injection Hend as <-.
    repeat match goal with H : checked_add _ _ = Some _ |- _ => apply checked_add_some in H as [-> _] end.
    tests. do 3 eexists. split_and!; try eassumption; lia.
  - intros (nl & xl & cl & H0 & H8 & H10 & H16 & H20 & H24 & H28 & H30 & H32 & H34 & H42 & He & Hle & Hn).
    rewrite H0, H8, H10, H16, H20, H24, H28, H30, H32, H34, H42. unfold is_at. rewrite bool_decide_eq_true_2 by done. cbn.
    apply (le_u16_range central) in H28, H30, H32; [|lia..]. unfold checked_add.
    rewrite (proj2 (Z.leb_le (cursor + 46) _)) by lia. cbn.
    rewrite (proj2 (Z.leb_le (cursor + 46 + nl) _)) by lia. cbn.
    rewrite (proj2 (Z.leb_le (cursor + 46 + nl + xl) _)) by lia. cbn.
    rewrite (proj2 (Z.leb_le (cursor + 46 + nl + xl + cl) U64_MAX)) by lia. cbn.
    rewrite (proj2 (Z.leb_le (cursor + 46 + nl + xl + cl) _)) by lia. cbn. rewrite Hn. cbn. rewrite <- He. by destruct e.
Qed.

(** An entry in its own bytes. *)
Lemma central_entry_window central cursor raw e : 0 <= cursor -> len central <= U64_MAX ->
  slice central cursor (cursor + len raw) = Some raw -> ce_end e = cursor + len raw ->
  central_entry central cursor = Some e <-> central_entry raw 0 = Some (shift_entry (- cursor) e).
Proof.
  intros Hc Hl Hs He. pose proof (window_bounds central cursor (len raw) raw Hc Hs) as Hb. pose proof (len_nonneg raw).
  rewrite !central_entry_spec by lia. cbn.
  assert (H2 : forall i, 0 <= i -> i + 2 <= len raw -> le_u16 central (cursor + i) = le_u16 raw i).
  { intros. by apply (le_uint_window 2 central cursor (cursor + len raw)). }
  assert (H4 : forall i, 0 <= i -> i + 4 <= len raw -> le_u32 central (cursor + i) = le_u32 raw i).
  { intros. by apply (le_uint_window 4 central cursor (cursor + len raw)). }
  split; intros (nl & xl & cl & H0 & H8 & H10 & H16 & H20 & H24 & H28 & H30 & H32 & H34 & H42 & He' & Hle & Hn);
    exists nl, xl, cl.
  - assert (46 + nl + xl + cl = len raw) by lia.
    apply (le_u16_range central) in H28 as Hr1; [|lia]. apply (le_u16_range central) in H30 as Hr2; [|lia].
    apply (le_u16_range central) in H32 as Hr3; [|lia].
    rewrite <- (Z.add_0_r cursor) in H0. rewrite H4 in H0, H16, H20, H24, H42 by lia.
    rewrite H2 in H8, H10, H28, H30, H32, H34 by lia. split_and!; try done; [lia|lia|].
    rewrite <- Z.add_assoc, (slice_window central cursor (cursor + len raw) raw) in Hn by (done || lia).
    done.
  - apply (le_u16_range raw) in H28 as Hr1; [|lia]. apply (le_u16_range raw) in H30 as Hr2; [|lia].
    apply (le_u16_range raw) in H32 as Hr3; [|lia].
    assert (46 + nl + xl + cl = len raw) by lia.
    rewrite <- (Z.add_0_r cursor) at 1. rewrite !H4, !H2 by lia. split_and!; try done; [lia|lia|].
    rewrite <- Z.add_assoc, (slice_window central cursor (cursor + len raw) raw) by (done || lia). done.
Qed.

(** An entry of an archive that may hold a manifest. *)
Definition record (raw : bytes) (e : CentralEntry) : Prop :=
  central_entry raw 0 = Some e /\ ce_end e = len raw /\ ce_disk e = 0 /\
  flags_refused (ce_flags e) = false.
Definition is_manifest (e : CentralEntry) : bool := bytes_eqb (ce_name e) MANIFEST_NAME.

Section Loop.
Context `{Zlib} (file : bytes) (central_offset : Z).

Definition read_entry (e : CentralEntry) : option bytes :=
  read_local_entry file (ce_local_offset e) central_offset (ce_flags e) (ce_method e) (ce_crc e)
    (ce_compressed e) (ce_uncompressed e) (ce_name e).

(** What a turn does with the manifest. *)
Definition take_manifest (e : CentralEntry) (manifest : option bytes) : option (option bytes) :=
  if is_manifest e then
    if is_Some_b manifest || (MANIFEST_LIMIT <? ce_compressed e)
       || (ce_uncompressed e =? 0) || (MANIFEST_LIMIT <? ce_uncompressed e)
    then None
    else m ← read_entry e; Some (Some m)
  else Some manifest.
Fixpoint take_manifests (es : list CentralEntry) (manifest : option bytes) : option (option bytes) :=
  match es with
  | [] => Some manifest
  | e :: es => manifest ← take_manifest e manifest; take_manifests es manifest
  end.

Lemma central_loop_eq n central cursor manifest :
  central_loop (S n) file central central_offset cursor manifest =
  (e ← central_entry central cursor;
   if negb (ce_disk e =? 0) || flags_refused (ce_flags e) then None
   else m ← take_manifest e manifest; central_loop n file central central_offset (ce_end e) m).
Proof. reflexivity. Qed.
Lemma central_loop_step n central cursor manifest r :
  central_loop (S n) file central central_offset cursor manifest = Some r <->
  exists e m, central_entry central cursor = Some e /\ ce_disk e = 0 /\ flags_refused (ce_flags e) = false /\
    take_manifest e manifest = Some m /\ central_loop n file central central_offset (ce_end e) m = Some r.
Proof.
  rewrite central_loop_eq. split.
  - intros Hr. apply bind_Some in Hr as (e & He & Hr). apply if_none in Hr as [Hc Hr]. tests.
    apply bind_Some in Hr as (m & Hm & Hr). exists e, m. tauto.
  - intros (e & m & He & Hd & Hf & Hm & Hr). rewrite He. cbn [mbind option_bind].
    rewrite Hd, Hf, Z.eqb_refl. cbn [negb orb]. rewrite Hm. exact Hr.
Qed.

Lemma record_cursor central cursor e : 0 <= cursor -> len central <= U64_MAX -> central_entry central cursor = Some e ->
  ce_disk e = 0 -> flags_refused (ce_flags e) = false ->
  exists raw, slice central cursor (cursor + len raw) = Some raw /\ record raw (shift_entry (- cursor) e) /\
    ce_end e = cursor + len raw.
Proof.
  intros Hc Hl He Hd Hf. pose proof (proj1 (central_entry_spec _ _ _ Hc Hl) He) as
    (nl & xl & cl & _ & _ & _ & _ & _ & _ & Hnl & Hxl & Hcl & _ & _ & Hend & Hle & _).
  apply (le_u16_range central) in Hnl, Hxl, Hcl; [|lia..].
  assert (Hs : exists raw, slice central cursor (ce_end e) = Some raw).
  { unfold slice. rewrite (proj2 (Z.leb_le _ _)), (proj2 (Z.leb_le _ _)) by lia. by eexists. }
  destruct Hs as [raw Hs]. pose proof (slice_len _ _ _ _ Hc Hs) as Hr. exists raw.
  assert (Hend' : ce_end e = cursor + len raw) by lia. rewrite Hend' in Hs. split_and!; try done.
  unfold record. split_and!; [by apply (central_entry_window central cursor raw e Hc Hl)|cbn; lia|done|done].
Qed.

Lemma record_len raw e : record raw e -> len raw <= U64_MAX -> 46 <= len raw.
Proof.
  intros (He & Hend & _) Hl. apply central_entry_spec in He as
    (nl & xl & cl & _ & _ & _ & _ & _ & _ & Hnl & Hxl & Hcl & _ & _ & Hend' & _); [|done|done].
  apply (le_u16_range raw) in Hnl, Hxl, Hcl; [|lia..]. lia.
Qed.

(** The loop reads a row of records. *)
Lemma central_loop_spec n a b manifest r : len (a ++ b) <= U64_MAX ->
  central_loop n file (a ++ b) central_offset (len a) manifest = Some r <->
  exists raws es rest m, length raws = n /\ b = concat raws ++ rest /\ Forall2 record raws es /\
    take_manifests es manifest = Some m /\ r = (len (a ++ concat raws), m).
Proof.
  revert a b manifest r. induction n as [|n IH]; intros a b manifest r Hl.
  { cbn. split.
    - intros [= <-]. exists [], [], b, manifest. by rewrite app_nil_r.
    - intros (raws & es & rest & m & Hn & -> & Hes & Hm & ->). destruct raws; [|done].
      apply Forall2_nil_inv_l in Hes as ->. cbn in *. injection Hm as ->. by rewrite app_nil_r. }
  rewrite central_loop_step. split.
  - intros (e & m & He & Hd & Hf & Hm & Hr). pose proof (len_nonneg a).
    destruct (record_cursor _ _ _ (len_nonneg a) Hl He Hd Hf) as (raw & Hs & Hrec & Hend).
    apply slice_spec in Hs as (_ & a' & b' & Hab & Ha & _); [|done].
    apply app_inj_1 in Hab as [<- ->]; [|unfold len in Ha; lia]. rewrite app_assoc in Hl.
    rewrite Hend, <- len_app, app_assoc in Hr.
    apply IH in Hr as (raws & es & rest & m' & <- & -> & Hes & Hm' & ->); [|done].
    exists (raw :: raws), (shift_entry (- len a) e :: es), rest, m'.
    split_and!; [done|by cbn; rewrite <- app_assoc|by constructor| |by cbn; rewrite app_assoc].
    cbn. change (take_manifest (shift_entry (- len a) e) manifest) with (take_manifest e manifest). by rewrite Hm.
  - intros (raws & es & rest & m & Hn & -> & Hes & Hm & ->). destruct raws as [|raw raws]; [done|].
    apply Forall2_cons_inv_l in Hes as (e & es' & Hrec & Hes & ->). cbn [concat] in *. rewrite <- app_assoc in *.
    cbn [take_manifests] in Hm. apply bind_Some in Hm as (m1 & Hm1 & Hm).
    exists (shift_entry (len a) e), m1. destruct Hrec as (He & Hend & Hd & Hf). pose proof (len_nonneg a).
    split_and!; try done.
    + apply (central_entry_window _ _ raw); [done|done|apply slice_app|cbn; lia|].
      rewrite He. destruct e. unfold shift_entry. cbn. do 2 f_equal. lia.
    + cbn. rewrite Hend, Z.add_comm, <- len_app, app_assoc. rewrite app_assoc in Hl. apply IH; [done|].
      exists raws, es', rest, m. rewrite app_assoc. split_and!; try done. cbn in Hn. lia.
Qed.

(** A manifest is found exactly where there is one. *)
Lemma take_manifests_after es m r : take_manifests es (Some m) = Some r <-> List.filter is_manifest es = [] /\ r = Some m.
Proof.
  induction es as [|e es IH]; [cbn; naive_solver|]. cbn. unfold take_manifest at 1. destruct (is_manifest e); cbn; [naive_solver|exact IH].
Qed.
Definition entry_limits (e : CentralEntry) : Prop :=
  ce_compressed e <= MANIFEST_LIMIT /\ 0 < ce_uncompressed e <= MANIFEST_LIMIT.
Lemma take_manifests_none es m : Forall (fun e => 0 <= ce_uncompressed e) es ->
  take_manifests es None = Some (Some m) <->
  exists e, List.filter is_manifest es = [e] /\ entry_limits e /\ read_entry e = Some m.
Proof.
  induction es as [|e es IH]; intros Hes; [cbn; naive_solver|]. inversion_clear Hes as [|? ? He Hes'].
  cbn. unfold take_manifest at 1. destruct (is_manifest e).
  - split.
    + intros Hr. apply bind_Some in Hr as (m' & Hm & Hr). opt_inv Hm. injection Hm as <-.
      apply take_manifests_after in Hr as [Hf [= <-]]. exists e. rewrite Hf. tests. unfold entry_limits. split_and!; try done; lia.
    + intros (e' & [= <- Hf] & (Hc & Hu1 & Hu2) & Hr). cbn.
      rewrite (proj2 (Z.ltb_ge _ _)), (proj2 (Z.ltb_ge _ _)), (proj2 (Z.eqb_neq _ _)) by lia. cbn. rewrite Hr. cbn.
      by apply take_manifests_after.
  - cbn. exact (IH Hes').
Qed.
End Loop.

(** ** The local entry *)

Section Local.
Context `{Zlib}.
Implicit Types file m : bytes.

(** The bytes at the offset of an entry: a local header that repeats its flags, its method and
    its name, and before [limit] its data, stored or compressed, with its length and checksum. *)
Definition local_entry file (limit : Z) (e : CentralEntry) m : Prop :=
  exists header extra data,
    let after := ce_local_offset e + len (header ++ ce_name e ++ extra ++ data) in
    slice file (ce_local_offset e) after = Some (header ++ ce_name e ++ extra ++ data) /\ after <= limit /\
    len header = 30 /\ le_u32 header 0 = Some ZIP_LOCAL /\ le_u16 header 6 = Some (ce_flags e) /\
    le_u16 header 8 = Some (ce_method e) /\ le_u16 header 26 = Some (len (ce_name e)) /\
    le_u16 header 28 = Some (len extra) /\ len data = ce_compressed e /\
    (ce_method e = 0 /\ m = data \/ ce_method e = 8 /\ inflate_raw data (ce_uncompressed e) = Some m) /\
    len m = ce_uncompressed e /\ crc32 m = ce_crc e.

Lemma read_at_slice file o n : 0 <= n -> 0 <= o -> o + n <= len file -> read_at file o n = slice file o (o + n).
Proof.
  intros Hn Ho Hl. unfold read_at, slice. rewrite (proj2 (Z.leb_le (o + n) _)) by done.
  rewrite (proj2 (Z.leb_le o _)), orb_true_r by lia. cbn. do 3 f_equal. lia.
Qed.
Lemma read_at_some file o n w : 0 <= n -> 0 <= o -> read_at file o n = Some w -> n = 0 \/ o + n <= len file.
Proof. intros Hn Ho. unfold read_at. intros Hr. apply if_some in Hr as [Hr _]. rewrite orb_true_iff in Hr. lia. Qed.

Lemma read_entry_spec file limit e m : limit <= len file -> len file <= U64_MAX ->
  0 <= ce_local_offset e -> 0 <= ce_compressed e ->
  read_entry file limit e = Some m <-> local_entry file limit e m.
Proof.
  intros Hlim Hl Ho Hcm. unfold read_entry, read_local_entry, local_entry.
  pose proof (len_nonneg (ce_name e)) as Hne. split.
  - intros Hr. apply bind_Some in Hr as (header & Hh & Hr). destruct (read_at_some file (ce_local_offset e) 30 header) as [?|Hb]; [lia|done|done|lia|].
    rewrite read_at_slice in Hh by lia. pose proof (slice_len _ _ _ _ Ho Hh) as Hlh. opt_inv Hr. tests.
    match goal with H : le_u16 header 28 = Some ?v |- _ => rename v into xl; rename H into Hx end.
    pose proof (le_u16_range header 28 xl ltac:(lia) Hx) as Hxr.
    match goal with H : read_at file (ce_local_offset e + 30) ?n = Some ?v |- _ => rename H into Hn; rename n into nl; rename v into name end.
    assert (name = ce_name e) as -> by tauto. assert (nl = len (ce_name e)) as -> by tauto.
    repeat match goal with
      | H : _ ≫= _ = Some _ |- _ => opt_inv H
      | H : checked_add _ _ = Some _ |- _ => apply checked_add_some in H as [-> ?]
      | H : Some _ = Some _ |- _ => injection H as <-
      end.
    tests.
    match goal with H : read_at file _ (ce_compressed e) = Some ?v |- _ => rename H into Hd; rename v into data end.
    rewrite read_at_slice in Hn, Hd by lia.
    destruct (slice_exists file (ce_local_offset e + 30 + len (ce_name e)) (ce_local_offset e + 30 + len (ce_name e) + xl)) as [extra He]; [lia..|].
    apply slice_len in He as Hle; [|lia]. apply slice_len in Hd as Hld; [|lia].
    exists header, extra, data. cbn zeta. rewrite !len_app.
    replace (ce_local_offset e + (len header + (len (ce_name e) + (len extra + len data))))
      with (ce_local_offset e + 30 + len (ce_name e) + xl + ce_compressed e) by lia.
    assert (xl = len extra) as Hxe by lia. split_and!; try tauto; try lia; [|by rewrite <- Hxe|].
    + eapply slice_join; [done|exact Hh|]. eapply slice_join; [lia|exact Hn|]. by eapply slice_join; [lia|exact He|].
    + match goal with H : (if (ce_method e =? 0) && _ then _ else _) = Some _ |- _ => rename H into Hout end.
      destruct ((ce_method e =? 0) && _) eqn:Hmz; [injection Hout as ->; tests; tauto|].
      destruct (Z.eqb_spec (ce_method e) 8); [|done]. by right.
  - intros (header & extra & data & Hs & Hle & Hlh & H0 & H6 & H8 & H26 & H28 & Hld & Hm & Hlm & Hcrc). cbn zeta in *.
    rewrite !len_app, Hlh in *. apply slice_split in Hs as [Hh Hs]; [|done]. rewrite Hlh in *.
    apply slice_split in Hs as [Hn Hs]; [|lia]. apply slice_split in Hs as [He Hd]; [|lia].
    pose proof (len_nonneg extra).
    rewrite read_at_slice, Hh by lia. cbn [mbind option_bind]. unfold is_at. rewrite H0, H6, H8, H26, H28.
    rewrite !bool_decide_eq_true_2 by done. cbn [negb orb mbind option_bind]. rewrite Z.eqb_refl. cbn [negb].
    rewrite read_at_slice, Hn by lia. cbn [mbind option_bind]. rewrite bytes_eqb_refl. cbn [negb].
    rewrite checked_add_fits by lia. cbn [mbind option_bind].
    rewrite checked_add_fits by lia. cbn [mbind option_bind].
    rewrite checked_add_fits by lia. cbn [mbind option_bind].
    rewrite checked_add_fits by lia. cbn [mbind option_bind].
    rewrite (proj2 (Z.leb_le _ _)) by lia. cbn [mbind option_bind]. rewrite (proj2 (Z.ltb_ge _ _)) by lia.
    rewrite read_at_slice by lia.
    replace (ce_local_offset e + 30 + len (ce_name e) + len extra + ce_compressed e)
      with (ce_local_offset e + (30 + (len (ce_name e) + (len extra + len data)))) by lia.
    rewrite Hd. cbn [mbind option_bind].
    destruct Hm as [[Hm ->]|[Hm Hi]]; rewrite Hm; cbn [Z.eqb andb].
    + rewrite (proj2 (Z.eqb_eq (ce_compressed e) _)) by lia. cbn [mbind option_bind].
      by rewrite Hlm, Hcrc, !Z.eqb_refl.
    + cbn. rewrite Hi. cbn. by rewrite Hlm, Hcrc, !Z.eqb_refl.
Qed.
End Local.

(** ** The archive *)

(** The one end record of the file, at [p], describes the directory of these records behind
    [front]. *)
Definition directory (file : bytes) (p : Z) (front : bytes) (raws : list bytes) : Prop :=
  0 <= p /\ end_record file p /\ (forall q, 0 <= q -> end_record file q -> q = p) /\
  le_u16 file (p + 4) = Some 0 /\ le_u16 file (p + 6) = Some 0 /\
  le_u16 file (p + 8) = Some (len raws) /\ le_u16 file (p + 10) = Some (len raws) /\
  le_u32 file (p + 12) = Some (len (concat raws)) /\ le_u32 file (p + 16) = Some (len front) /\
  slice file 0 p = Some (front ++ concat raws) /\
  len raws <= ENTRY_LIMIT /\ len (concat raws) <= CENTRAL_DIRECTORY_LIMIT.

Lemma record_ranges raw e : len raw <= U64_MAX -> record raw e ->
  0 <= ce_local_offset e /\ 0 <= ce_compressed e /\ 0 <= ce_uncompressed e.
Proof.
  intros Hl (He & _). apply central_entry_spec in He as
    (nl & xl & cl & _ & _ & _ & _ & Hc & Hu & _ & _ & _ & _ & Ho & _); [|done|done].
  apply (le_u32_range raw) in Hc, Hu, Ho; lia.
Qed.
Lemma len_concat_in {A} (x : list A) l : x ∈ l -> len x <= len (concat l).
Proof.
  induction l as [|y l IH]; [by intros ?%elem_of_nil|]. cbn. rewrite len_app.
  pose proof (len_nonneg y). pose proof (len_nonneg (concat l)). intros [->|Hx]%elem_of_cons; [lia|]. specialize (IH Hx). lia.
Qed.
Lemma records_ranges raws es : len (concat raws) <= U64_MAX -> Forall2 record raws es ->
  Forall (fun e => 0 <= ce_local_offset e /\ 0 <= ce_compressed e /\ 0 <= ce_uncompressed e) es.
Proof.
  intros Hl Hes. rewrite list.Forall_forall. intros e (i & He)%list_elem_of_lookup.
  destruct (Forall2_lookup_r _ _ _ _ _ Hes He) as (raw & Hraw & Hrec). apply (record_ranges raw); [|done].
  pose proof (len_concat_in raw raws ltac:(by eapply list_elem_of_lookup_2)). lia.
Qed.

Section Extraction.
Context `{Zlib} (file : bytes) (Hlen : len file <= U64_MAX).

(** From the end record on. *)
Definition extract_at (p : Z) : option bytes :=
  if negb (is_at (le_u16 file (p + 4)) 0) || negb (is_at (le_u16 file (p + 6)) 0) then None
  else
    disk_entries ← le_u16 file (p + 8);
    total_entries ← le_u16 file (p + 10);
    if (total_entries =? 0) || (ENTRY_LIMIT <? total_entries)
       || negb (disk_entries =? total_entries) || (total_entries =? 65535)
    then None
    else
      central_size ← le_u32 file (p + 12);
      central_offset ← le_u32 file (p + 16);
      if (central_size =? 0) || (CENTRAL_DIRECTORY_LIMIT <? central_size)
         || negb (bool_decide (checked_add central_offset central_size = Some p))
      then None
      else
        central ← read_at file central_offset central_size;
        '(cursor, manifest) ←
          central_loop (Z.to_nat total_entries) file central central_offset 0 None;
        if negb (cursor =? len central) then None else manifest.

Lemma extract_at_spec p m : 0 <= p -> p + 22 <= len file ->
  end_record file p -> (forall q, 0 <= q -> end_record file q -> q = p) ->
  extract_at p = Some m <->
  exists front raws es e, directory file p front raws /\ Forall2 record raws es /\
    List.filter is_manifest es = [e] /\ entry_limits e /\ local_entry file (len front) e m.
Proof.
  intros Hp Hp22 Hend Huniq. unfold extract_at. split.
  - intros Hr. opt_inv Hr. tests. destruct_and!.
    match goal with H : le_u16 file (p + 10) = Some ?v |- _ => rename H into H10; rename v into n end.
    match goal with H : le_u32 file (p + 12) = Some ?v |- _ => rename H into H12; rename v into size end.
    match goal with H : le_u32 file (p + 16) = Some ?v |- _ => rename H into H16; rename v into coff end.
    match goal with H : checked_add coff size = _ |- _ => apply checked_add_some in H as [Hpe _] end.
    match goal with H : read_at _ _ _ = Some ?v |- _ => rename H into Hcen; rename v into central end.
    match goal with H : central_loop _ _ _ _ _ _ = Some ?v |- _ => rename H into Hloop; destruct v as [cursor manifest] end.
    apply if_none in Hr as [Hcur ->]. tests. subst.
    apply (le_u16_range file) in H10 as Hn; [|lia]. apply (le_u32_range file) in H12 as Hsz; [|lia].
    apply (le_u32_range file) in H16 as Hco; [|lia].
    rewrite read_at_slice in Hcen by lia. apply slice_len in Hcen as Hlc; [|lia].
    destruct (slice_exists file 0 coff) as [front Hf]; [lia..|]. apply slice_len in Hf as Hlf; [|lia].
    apply (central_loop_spec file coff _ [] central) in Hloop as (raws & es & rest & m' & Hnr & Hc & Hes & Hm & [= Hcur <-]);
      [|cbn; lia].
    assert (rest = []) as ->. { apply len_0. rewrite Hc, !len_app in Hcur. cbn in Hcur. lia. }
    rewrite app_nil_r in Hc. subst central. pose proof (len_nonneg (concat raws)).
    pose proof (records_ranges raws es ltac:(lia) Hes) as Hrg.
    apply take_manifests_none in Hm as (e & Hfe & Hle & Hread); [|eapply Forall_impl; [exact Hrg|cbn; tauto]].
    assert (He : e ∈ es). { apply list_elem_of_In. apply (List.filter_In is_manifest). rewrite Hfe. by left. }
    rewrite list.Forall_forall in Hrg. destruct (Hrg e He) as (Ho1 & Ho2 & _).
    assert (coff = len front) as Hcf by lia. assert (n = len raws) as Hnl by (unfold len; lia).
    assert (size = len (concat raws)) as Hsl by lia. subst n size.
    exists front, raws, es, e. split_and!; try done.
    + unfold directory. split_and!; try done; [by rewrite <- Hcf|]. by eapply slice_join; [lia|exact Hf|].
    + rewrite <- Hcf. apply read_entry_spec; [lia|done..].
  - intros (front & raws & es & e & (_ & _ & _ & H4 & H6 & H8 & H10 & H12 & H16 & Hs & Hn & Hsz) & Hes & Hfe & Hle & Hloc).
    apply slice_len in Hs as Hsl; [|done]. rewrite len_app, Z.sub_0_r in Hsl.
    apply slice_split in Hs as [_ Hcen]; [|done]. rewrite Z.add_0_l in Hcen.
    pose proof (len_nonneg front). pose proof (len_nonneg (concat raws)).
    assert (Hne : exists raw, raw ∈ raws /\ 46 <= len raw).
    { assert (He : e ∈ es). { apply list_elem_of_In. apply (List.filter_In is_manifest). rewrite Hfe. by left. }
      apply list_elem_of_lookup in He as (i & He). destruct (Forall2_lookup_r _ _ _ _ _ Hes He) as (raw & Hraw & Hrec).
      apply list_elem_of_lookup_2 in Hraw. pose proof (len_concat_in raw raws Hraw). exists raw. split; [done|].
      apply (record_len raw e Hrec). lia. }
    destruct Hne as (raw & Hraw & Hr46). pose proof (len_concat_in raw raws Hraw).
    assert (0 < len raws) by (destruct raws; [by apply elem_of_nil in Hraw|rewrite len_cons; pose proof (len_nonneg raws); lia]).
    unfold is_at. rewrite H4, H6, H8, H10, H12, H16, !bool_decide_eq_true_2 by done. cbn [negb orb mbind option_bind].
    rewrite (proj2 (Z.eqb_neq (len raws) 0)), (proj2 (Z.ltb_ge _ _)), Z.eqb_refl, (proj2 (Z.eqb_neq (len raws) 65535))
      by (unfold ENTRY_LIMIT in *; lia). cbn [negb orb].
    rewrite (proj2 (Z.eqb_neq (len (concat raws)) 0)), (proj2 (Z.ltb_ge _ _)), checked_add_fits by (unfold U64_MAX in *; lia).
    rewrite bool_decide_eq_true_2 by (f_equal; lia). cbn [negb orb mbind option_bind].
    rewrite read_at_slice by lia. replace (len front + len (concat raws)) with p by lia. rewrite Hcen. cbn [mbind option_bind].
    pose proof (records_ranges raws es ltac:(lia) Hes) as Hrg.
    assert (Hm : take_manifests file (len front) es None = Some (Some m)).
    { apply take_manifests_none; [eapply Forall_impl; [exact Hrg|cbn; tauto]|]. exists e. split_and!; try done.
      assert (He : e ∈ es). { apply list_elem_of_In. apply (List.filter_In is_manifest). rewrite Hfe. by left. }
      rewrite list.Forall_forall in Hrg. destruct (Hrg e He) as (Ho1 & Ho2 & _). apply read_entry_spec; [lia|done..]. }
    rewrite (proj2 (central_loop_spec file (len front) (Z.to_nat (len raws)) [] (concat raws) None (len (concat raws), Some m) ltac:(cbn; lia))).
    + cbn. by rewrite Z.eqb_refl.
    + exists raws, es, [], (Some m). rewrite app_nil_r. cbn. split_and!; try done. unfold len. lia.
Qed.

(** The code looks for the end record in the last 65557 bytes. *)
Lemma extract_manifest_at m :
  extract_manifest file = Some m <->
  exists p, 0 <= p /\ p + 22 <= len file /\ end_record file p /\
    (forall q, 0 <= q -> end_record file q -> q = p) /\ extract_at p = Some m.
Proof.
  unfold extract_manifest. set (start := len file - Z.min (len file) 65557). pose proof (len_nonneg file) as Hnn.
  destruct (Z.ltb_spec (Z.min (len file) 65557) 22) as [Hs|Hs].
  { split; [done|]. intros (p & Hp & Hp22 & Hend & _). lia. }
  rewrite read_at_slice by lia. replace (start + Z.min (len file) 65557) with (len file) by lia.
  destruct (slice_exists file start (len file)) as [tail Htail]; [lia..|]. rewrite Htail. cbn [mbind option_bind].
  apply slice_len in Htail as Hlt; [|lia].
  assert (Hcand : forall x, 0 <= x -> x ∈ eocd_candidates tail <-> end_record file (start + x)).
  { intros x Hx. by apply candidates_file; [lia|lia|lia|done|]. }
  assert (Hwin : forall n i, 0 <= i -> 0 <= n -> i + n <= len tail -> le_uint n tail i = le_uint n file (start + i)).
  { intros n i Hi Hn Hin. symmetry. apply (le_uint_window n file start (len file)); try done; lia. }
  assert (Hbody : forall x, 0 <= x -> x + 22 <= len tail ->
    (start_ ← checked_sub (len file) (Z.min (len file) 65557);
     eocd_absolute ← checked_add start_ x;
     if negb (is_at (le_u16 tail (x + 4)) 0) || negb (is_at (le_u16 tail (x + 6)) 0) then None
     else
       disk_entries ← le_u16 tail (x + 8);
       total_entries ← le_u16 tail (x + 10);
       if (total_entries =? 0) || (ENTRY_LIMIT <? total_entries)
          || negb (disk_entries =? total_entries) || (total_entries =? 65535)
       then None
       else
         central_size ← le_u32 tail (x + 12);
         central_offset ← le_u32 tail (x + 16);
         if (central_size =? 0) || (CENTRAL_DIRECTORY_LIMIT <? central_size)
            || negb (bool_decide (checked_add central_offset central_size = Some eocd_absolute))
         then None
         else
           central ← read_at file central_offset central_size;
           '(cursor, manifest) ←
             central_loop (Z.to_nat total_entries) file central central_offset 0 None;
           if negb (cursor =? len central) then None else manifest) = extract_at (start + x)).
  { intros x Hx Hx22. unfold checked_sub. rewrite (proj2 (Z.leb_le _ _)) by lia. cbn [mbind option_bind].
    fold start. rewrite checked_add_fits by lia. cbn [mbind option_bind]. unfold extract_at, le_u16, le_u32.
    rewrite !Hwin, !Z.add_assoc by lia. done. }
  split.
  - intros Hm. assert (exists x, eocd_candidates tail = [x]) as [x Hl].
    { clear - Hm. destruct (eocd_candidates tail) as [|x [|y l]]; [done|by exists x|done]. }
    rewrite Hl in Hm.
    pose proof (proj1 (unique_list _ x (candidates_nodup tail)) Hl) as [Hx Hu].
    apply candidates_spec in Hx as Hx'. destruct Hx' as (Hx' & _). rewrite Hbody in Hm by lia.
    exists (start + x). apply Hcand in Hx; [|lia]. split_and!; try done; [lia|lia|].
    intros q Hq Hend. apply end_record_bounds in Hend as Hb; [|done].
    assert (q - start = x); [|lia]. apply Hu, Hcand; [lia|]. by replace (start + (q - start)) with q by lia.
  - intros (p & Hp & Hp22 & Hend & Huniq & Hm). apply end_record_bounds in Hend as Hb; [|done].
    assert (Hx : p - start ∈ eocd_candidates tail). { apply Hcand; [lia|]. by replace (start + (p - start)) with p by lia. }
    rewrite (proj2 (unique_list _ (p - start) (candidates_nodup tail))).
    + rewrite Hbody by lia. by replace (start + (p - start)) with p by lia.
    + split; [done|]. intros b Hb'. apply candidates_spec in Hb' as Hb0. destruct Hb0 as (Hb0 & _).
      apply Hcand in Hb'; [|lia]. apply Huniq in Hb'; lia.
Qed.
End Extraction.

(** C24: a manifest is extracted from exactly the archives whose only end record describes, right
    before itself, a directory of up to 4096 well-formed records of at most 8 MiB, exactly one of
    which is named [AndroidManifest.xml]; and what is extracted has the length, at most 2 MiB,
    and the checksum of that record, and lies, stored or compressed, before the directory behind
    a local header that agrees with it. *)
Theorem archive_exact `{Zlib} file m : len file <= U64_MAX ->
  extract_manifest file = Some m <->
  exists p front raws es e, directory file p front raws /\ Forall2 record raws es /\
    List.filter is_manifest es = [e] /\ entry_limits e /\ local_entry file (len front) e m.
Proof.
  intros Hl. rewrite extract_manifest_at by done. split.
  - intros (p & Hp & Hp22 & Hend & Huniq & Hm). exists p. by apply extract_at_spec.
  - intros (p & front & raws & es & e & Hd & Hrest). exists p. pose proof Hd as (Hp & Hend & Huniq & _).
    apply end_record_bounds in Hend as Hb; [|done]. split_and!; try done; [lia|].
    apply extract_at_spec; try done; [lia|]. by exists front, raws, es, e.
Qed.
