(* ===== verification/Crc.v ===== *)
(** The checksum of the archive: it is linear, and a change of at most four adjacent bytes
    always changes it. *)

From S2P Require Import Prelude Apk Slices.

Implicit Types a b c : Z.

(** ** One bit *)

Definition word32 a : Prop := 0 <= a < 2 ^ 32.

Definition crc_mask a : Z := if Z.testbit a 0 then 0xedb88320 else 0.
Lemma crc_shift_mask a : crc_shift a = Z.lxor (Z.shiftr a 1) (crc_mask a).
Proof.
  unfold crc_shift, crc_mask. f_equal. change 1 with (Z.ones 1) at 1. rewrite Z.land_ones by done.
  change (2 ^ 1) with 2. rewrite <- Z.bit0_mod. by destruct (Z.testbit a 0).
Qed.

Lemma word32_lxor a b : word32 a -> word32 b -> word32 (Z.lxor a b).
Proof.
  unfold word32. intros Ha Hb. split; [apply Z.lxor_nonneg; lia|].
  destruct (Z.eq_dec (Z.lxor a b) 0) as [->|Hz]; [lia|]. assert (0 <= Z.lxor a b) by (apply Z.lxor_nonneg; lia).
  apply Z.log2_lt_pow2; [lia|]. apply Z.le_lt_trans with (Z.max (Z.log2 a) (Z.log2 b)); [apply Z.log2_lxor; lia|].
  assert (forall x, 0 <= x < 2 ^ 32 -> Z.log2 x < 32) as Hlog.
  { intros x Hx. destruct (Z.eq_dec x 0) as [->|]; [done|]. apply Z.log2_lt_pow2; lia. }
  pose proof (Hlog a Ha). pose proof (Hlog b Hb). lia.
Qed.
Lemma word32_high a n : word32 a -> 32 <= n -> Z.testbit a n = false.
Proof.
  unfold word32. intros Ha Hn. destruct (Z.eq_dec a 0) as [->|]; [apply Z.bits_0|].
  apply Z.bits_above_log2; [lia|]. apply Z.lt_le_trans with 32; [|done]. apply Z.log2_lt_pow2; lia.
Qed.
Lemma word32_shift a : word32 a -> word32 (crc_shift a).
Proof.
  intros Ha. rewrite crc_shift_mask. apply word32_lxor.
  - unfold word32 in *. rewrite Z.shiftr_div_pow2 by done. change (2 ^ 1) with 2. split; [apply Z.div_pos; lia|].
    apply Z.div_lt_upper_bound; lia.
  - unfold crc_mask. destruct (Z.testbit a 0); split; done.
Qed.

Lemma crc_shift_lxor a b : crc_shift (Z.lxor a b) = Z.lxor (crc_shift a) (crc_shift b).
Proof.
  rewrite !crc_shift_mask, Z.shiftr_lxor. unfold crc_mask. rewrite Z.lxor_spec.
  apply Z.bits_inj. intros n. rewrite !Z.lxor_spec.
  destruct (Z.testbit a 0), (Z.testbit b 0); cbn [xorb]; rewrite ?Z.bits_0;
    destruct (Z.testbit 0xedb88320 n), (Z.testbit (Z.shiftr a 1) n), (Z.testbit (Z.shiftr b 1) n); done.
Qed.

(** The bit that is shifted out can be seen in the top bit. *)
Lemma crc_shift_inj a b : word32 a -> word32 b -> crc_shift a = crc_shift b -> a = b.
Proof.
  intros Ha Hb He. rewrite !crc_shift_mask in He.
  assert (Htop : forall x, word32 x -> Z.testbit (Z.lxor (Z.shiftr x 1) (crc_mask x)) 31 = Z.testbit x 0).
  { intros x Hx. rewrite Z.lxor_spec, Z.shiftr_spec, (word32_high x) by done. unfold crc_mask.
    by destruct (Z.testbit x 0). }
  assert (H0 : Z.testbit a 0 = Z.testbit b 0) by (rewrite <- (Htop a Ha), He; by apply Htop).
  unfold crc_mask in He. rewrite H0 in He. apply (f_equal (fun x => Z.lxor x (if Z.testbit b 0 then 0xedb88320 else 0))) in He.
  rewrite !Z.lxor_assoc, !Z.lxor_nilpotent, !Z.lxor_0_r in He.
  apply Z.bits_inj'. intros n Hn. destruct (Z.eq_dec n 0) as [->|Hn0]; [done|].
  replace n with (n - 1 + 1) by lia. rewrite <- !Z.shiftr_spec by lia. by rewrite He.
Qed.

(** ** Words *)

Lemma iter_word32 n a : word32 a -> word32 (Nat.iter n crc_shift a).
Proof. intros Ha. induction n; [done|]. by apply word32_shift. Qed.
Lemma iter_inj n a b : word32 a -> word32 b -> Nat.iter n crc_shift a = Nat.iter n crc_shift b -> a = b.
Proof.
  intros Ha Hb. induction n as [|n IH]; [done|]. rewrite !Nat.iter_succ. intros He%crc_shift_inj; [by apply IH|by apply iter_word32..].
Qed.
Lemma iter_lxor n a b : Nat.iter n crc_shift (Z.lxor a b) = Z.lxor (Nat.iter n crc_shift a) (Nat.iter n crc_shift b).
Proof. induction n as [|n IH]; [done|]. by rewrite !Nat.iter_succ, IH, crc_shift_lxor. Qed.
(** Bits that are not yet shifted out are only moved. *)
Lemma iter_moves n a : Nat.iter n crc_shift (a * 2 ^ Z.of_nat n) = a.
Proof.
  revert a. induction n as [|n IH]; intros a; [cbn; lia|]. rewrite Nat2Z.inj_succ, Z.pow_succ_r by lia.
  replace (a * (2 * 2 ^ Z.of_nat n)) with (a * 2 * 2 ^ Z.of_nat n) by lia. rewrite Nat.iter_succ, IH, crc_shift_mask.
  unfold crc_mask. rewrite Z.mul_comm, Z.testbit_even_0, Z.lxor_0_r, Z.shiftr_div_pow2 by done.
  change (2 ^ 1) with 2. by rewrite Z.mul_comm, Z.div_mul.
Qed.

Lemma lxor_high x y : 0 <= x < 256 -> 0 <= y -> Z.lxor x (y * 256) = x + 256 * y.
Proof.
  intros Hx Hy. replace (x + 256 * y) with (x + y * 256) by lia. change 256 with (2 ^ 8) in *. rewrite <- Z.shiftl_mul_pow2 by done. symmetry. apply Z.add_nocarry_lxor.
  apply Z.bits_inj'. intros n Hn. rewrite Z.land_spec, Z.bits_0, Z.shiftl_spec by done.
  destruct (Z.lt_ge_cases n 8); [by rewrite (Z.testbit_neg_r y), andb_false_r by lia|].
  destruct (Z.eq_dec x 0) as [->|]; [by rewrite Z.bits_0|].
  rewrite (Z.bits_above_log2 x); [done|lia|]. apply Z.lt_le_trans with 8; [|done]. apply Z.log2_lt_pow2; lia.
Qed.

(** A string of bytes is shifted in as one number. *)
Lemma fold_number l s : foldl crc_byte s l = Nat.iter (8 * length l) crc_shift (Z.lxor s (le_decode l)).
Proof.
  revert s. induction l as [|x l IH]; intros s; [cbn; by rewrite Z.lxor_0_r|]. cbn [foldl length le_decode].
  rewrite IH. unfold crc_byte. replace (8 * S (length l))%nat with (8 * length l + 8)%nat by lia.
  rewrite Nat.iter_add. f_equal. pose proof (le_decode_range l). pose proof (u8_range x).
  rewrite <- (iter_moves 8 (le_decode l)) at 1. rewrite <- iter_lxor. f_equal.
  change (2 ^ Z.of_nat 8) with 256. by rewrite Z.lxor_assoc, lxor_high by lia.
Qed.

Lemma word32_byte x : word32 (u8 x).
Proof. pose proof (u8_range x). unfold word32. lia. Qed.
Lemma word32_crc_byte s x : word32 s -> word32 (crc_byte s x).
Proof. intros Hs. unfold crc_byte. apply iter_word32, word32_lxor; [done|apply word32_byte]. Qed.
Lemma crc_byte_iter s x : crc_byte s x = Nat.iter 8 crc_shift (Z.lxor s (u8 x)).
Proof. reflexivity. Qed.
Lemma crc_byte_inj s t x : word32 s -> word32 t -> crc_byte s x = crc_byte t x -> s = t.
Proof.
  intros Hs Ht. rewrite !crc_byte_iter. intros He%iter_inj; [|by apply word32_lxor, word32_byte..].
  apply (f_equal (fun z => Z.lxor z (u8 x))) in He. by rewrite !Z.lxor_assoc, !Z.lxor_nilpotent, !Z.lxor_0_r in He.
Qed.
Lemma word32_fold l s : word32 s -> word32 (foldl crc_byte s l).
Proof. revert s. induction l as [|x l IH]; intros s Hs; [done|]. cbn [foldl]. by apply IH, word32_crc_byte. Qed.
Lemma fold_inj l s t : word32 s -> word32 t -> foldl crc_byte s l = foldl crc_byte t l -> s = t.
Proof.
  revert s t. induction l as [|x l IH]; intros s t Hs Ht He; [done|]. cbn [foldl] in He.
  apply IH in He; [|by apply word32_crc_byte..]. by apply crc_byte_inj in He.
Qed.
Lemma le_decode_inj l k : length l = length k -> le_decode l = le_decode k -> l = k.
Proof. intros Hl Hd. rewrite <- (le_encode_decode l), <- (le_encode_decode k). congruence. Qed.

(** The checksum notices every change of up to four adjacent bytes: two strings of the same
    length that differ, but only within four bytes in a row, have different checksums. *)
Theorem crc32_detects_bursts front x y rest : length x = length y -> (length x <= 4)%nat -> x <> y ->
  crc32 (front ++ x ++ rest) <> crc32 (front ++ y ++ rest).
Proof.
  intros Hl H4 Hxy He. apply Hxy. unfold crc32 in He.
  apply (f_equal (fun z => Z.lxor z 0xffffffff)) in He. rewrite !Z.lxor_assoc, !Z.lxor_nilpotent, !Z.lxor_0_r in He.
  rewrite !foldl_app in He. assert (Hs : word32 (foldl crc_byte 0xffffffff front)) by (apply word32_fold; done).
  set (s := foldl crc_byte 0xffffffff front) in *. apply fold_inj in He; [|by apply word32_fold..].
  rewrite !fold_number, Hl in He.
  assert (Hw : forall l : bytes, (length l <= 4)%nat -> word32 (le_decode l)).
  { intros l Hl'. pose proof (le_decode_range l). unfold word32, len in *. change (2 ^ 32) with (256 ^ 4).
    split; [lia|]. apply Z.lt_le_trans with (256 ^ Z.of_nat (length l)); [lia|]. apply Z.pow_le_mono_r; lia. }
  apply iter_inj in He; [|apply word32_lxor; [done|apply Hw; lia]..].
  apply (f_equal (Z.lxor s)) in He. rewrite <- !Z.lxor_assoc, !Z.lxor_nilpotent, !Z.lxor_0_l in He.
  by apply le_decode_inj.
Qed.

(** The check value of the checksum. *)
Example crc32_check : crc32 (str "123456789") = 0xcbf43926.
Proof. vm_compute. reflexivity. Qed.

Lemma crc32_detects_bursts_witness :
  crc32 (str "apk" ++ str "0" ++ str "!") <> crc32 (str "apk" ++ str "1" ++ str "!").
Proof. apply (crc32_detects_bursts (str "apk") (str "0") (str "1") (str "!")); [reflexivity|vm_compute; lia|discriminate]. Defined.
