(* ===== verification/Texts.v ===== *)
(** The strings of a binary manifest: texts as Unicode scalar values, their encodings, and the
    decoders of the string pool against them. *)

From S2P Require Import Prelude Crates Apk Axml Slices.

(** ** Texts *)

Definition scalar (c : Z) : Prop := 0 <= c < 0xd800 \/ 0xe000 <= c < 0x110000.
Definition utf8 (cs : list Z) : bytes := concat (map utf8_of_char cs).
Definition utf16_of_char (c : Z) : list Z :=
  if c <? 0x10000 then [c] else [0xd800 + (c - 0x10000) / 1024; 0xdc00 + (c - 0x10000) mod 1024].
Definition utf16 (cs : list Z) : list Z := concat (map utf16_of_char cs).
Definition le16 (units : list Z) : bytes := concat (map (le_encode 2) units).

(** ** UTF-8 *)

Lemma u8_of z : 0 <= z < 256 -> u8 (b8 z) = z.
Proof. apply u8_b8_small. Qed.

Ltac scalar_bytes c :=
  let q := fresh "q" in let r := fresh "r" in
  pose proof (Z.div_mod c 64 ltac:(lia)); pose proof (Z.mod_pos_bound c 64 ltac:(lia));
  pose proof (Z.div_mod (c / 64) 64 ltac:(lia)); pose proof (Z.mod_pos_bound (c / 64) 64 ltac:(lia));
  pose proof (Z.div_mod (c / 4096) 64 ltac:(lia)); pose proof (Z.mod_pos_bound (c / 4096) 64 ltac:(lia));
  assert (c / 64 / 64 = c / 4096) by (rewrite Z.div_div by lia; f_equal; lia);
  assert (c / 4096 / 64 = c / 262144) by (rewrite Z.div_div by lia; f_equal; lia).

Lemma len_utf8_of_char c : len (utf8_of_char c) = len_utf8 c.
Proof. unfold utf8_of_char, len_utf8. destruct (_ <? _); [done|]. destruct (_ <? _); [done|]. by destruct (_ <? _). Qed.

(** The first bytes of a valid string are those of a scalar value. *)
Lemma utf8_char_valid c l : scalar c -> valid_utf8 (utf8_of_char c ++ l) = valid_utf8 l.
Proof.
  intros Hc. unfold utf8_of_char, scalar in *. scalar_bytes c.
  destruct (Z.ltb_spec c 0x80).
  { cbn. rewrite u8_of by lia. by rewrite (proj2 (Z.ltb_lt _ _)) by lia. }
  destruct (Z.ltb_spec c 0x800).
  { cbn. unfold utf8_tail. rewrite !u8_of by lia. set (h := 192 + c / 64). rewrite (proj2 (Z.ltb_ge h _)) by lia.
    rewrite (proj2 (Z.leb_le 194 h)), (proj2 (Z.leb_le h 223)) by lia. cbn [andb].
    by rewrite (proj2 (Z.leb_le 128 (128 + c mod 64))), (proj2 (Z.leb_le (128 + c mod 64) 191)) by lia. }
  destruct (Z.ltb_spec c 0x10000).
  { cbn. unfold utf8_tail. rewrite !u8_of by lia. set (h := 224 + c / 4096). rewrite (proj2 (Z.ltb_ge h _)) by lia.
    rewrite (proj2 (Z.leb_gt h 223)) by lia. rewrite andb_false_r.
    rewrite (proj2 (Z.leb_le 224 h)), (proj2 (Z.leb_le h 239)) by lia. cbn [andb].
    rewrite (proj2 (Z.leb_le 128 (128 + c mod 64))), (proj2 (Z.leb_le (128 + c mod 64) 191)) by lia. cbn [andb].
    rewrite (proj2 (Z.leb_le _ (128 + (c / 64) mod 64))), (proj2 (Z.leb_le (128 + (c / 64) mod 64) _)); [done| |].
    - destruct (Z.eqb_spec h 237); lia.
    - destruct (Z.eqb_spec h 224); lia. }
  cbn. unfold utf8_tail. rewrite !u8_of by lia. set (h := 240 + c / 262144). rewrite (proj2 (Z.ltb_ge h _)) by lia.
  rewrite (proj2 (Z.leb_gt h 223)), (proj2 (Z.leb_gt h 239)) by lia. rewrite !andb_false_r.
  rewrite (proj2 (Z.leb_le 240 h)), (proj2 (Z.leb_le h 244)) by lia. cbn [andb].
  rewrite (proj2 (Z.leb_le 128 (128 + c mod 64))), (proj2 (Z.leb_le (128 + c mod 64) 191)) by lia. cbn [andb].
  rewrite (proj2 (Z.leb_le 128 (128 + (c / 64) mod 64))), (proj2 (Z.leb_le (128 + (c / 64) mod 64) 191)) by lia. cbn [andb].
  rewrite (proj2 (Z.leb_le _ (128 + (c / 4096) mod 64))), (proj2 (Z.leb_le (128 + (c / 4096) mod 64) _)); [done| |].
  - destruct (Z.eqb_spec h 244); lia.
  - destruct (Z.eqb_spec h 240); lia.
Qed.

Lemma valid_utf8_of cs : Forall scalar cs -> valid_utf8 (utf8 cs) = true.
Proof. induction 1 as [|c cs Hc _ IH]; [done|]. unfold utf8 in *. cbn [map concat]. by rewrite utf8_char_valid. Qed.

Lemma b8_is z b : z = u8 b -> b8 z = b.
Proof. intros ->. apply b8_u8. Qed.
Lemma div_is a b q r : a = b * q + r -> 0 <= r < b -> a / b = q.
Proof. intros -> Hr. rewrite Z.mul_comm, Z.div_add_l by lia. rewrite Z.div_small by lia. lia. Qed.
Lemma mod_is a b q r : a = b * q + r -> 0 <= r < b -> a mod b = r.
Proof. intros -> Hr. rewrite Z.add_comm, Z.mul_comm, Z.mod_add by lia. by apply Z.mod_small. Qed.

Lemma valid_utf8_head a l : valid_utf8 (a :: l) = true ->
  exists c l', scalar c /\ a :: l = utf8_of_char c ++ l' /\ valid_utf8 l' = true.
Proof.
  intros Hv. pose proof (u8_range a) as Ha. cbn in Hv. unfold scalar. destruct (Z.ltb_spec (u8 a) 128).
  { exists (u8 a), l. split_and!; [lia| |done]. unfold utf8_of_char. rewrite (proj2 (Z.ltb_lt _ _)) by lia. by rewrite b8_u8. }
  destruct l as [|b l]; [done|]. pose proof (u8_range b) as Hb. unfold utf8_tail in Hv.
  destruct ((194 <=? u8 a) && (u8 a <=? 223)) eqn:H2.
  { tests. exists ((u8 a - 192) * 64 + (u8 b - 128)), l. set (c := (u8 a - 192) * 64 + (u8 b - 128)).
    split_and!; [lia| |tauto]. unfold utf8_of_char. rewrite (proj2 (Z.ltb_ge c 0x80)), (proj2 (Z.ltb_lt c 0x800)) by lia.
    rewrite (div_is c 64 (u8 a - 192) (u8 b - 128)), (mod_is c 64 (u8 a - 192) (u8 b - 128)) by lia.
    by rewrite (b8_is (0xc0 + (u8 a - 192)) a), (b8_is (0x80 + (u8 b - 128)) b) by lia. }
  destruct l as [|d l]; [done|]. pose proof (u8_range d) as Hd.
  destruct ((224 <=? u8 a) && (u8 a <=? 239)) eqn:H3.
  { tests. exists ((u8 a - 224) * 4096 + (u8 b - 128) * 64 + (u8 d - 128)), l.
    set (c := (u8 a - 224) * 4096 + (u8 b - 128) * 64 + (u8 d - 128)).
    destruct Hv as [[Hv1 Hv2] Hv3].
    assert (Hbr : 128 <= u8 b <= 191 /\ 2048 <= c < 65536 /\ ~ 0xd800 <= c < 0xe000).
    { destruct (Z.eqb_spec (u8 a) 224), (Z.eqb_spec (u8 a) 237); subst c; lia. }
    split_and!; [lia| |done]. unfold utf8_of_char.
    rewrite (proj2 (Z.ltb_ge c 0x80)), (proj2 (Z.ltb_ge c 0x800)), (proj2 (Z.ltb_lt c 0x10000)) by lia.
    rewrite (div_is c 4096 (u8 a - 224) ((u8 b - 128) * 64 + (u8 d - 128))) by lia.
    rewrite (div_is c 64 ((u8 a - 224) * 64 + (u8 b - 128)) (u8 d - 128)) by lia.
    rewrite (mod_is c 64 ((u8 a - 224) * 64 + (u8 b - 128)) (u8 d - 128)) by lia.
    rewrite (mod_is _ 64 (u8 a - 224) (u8 b - 128)) by lia.
    by rewrite (b8_is (0xe0 + (u8 a - 224)) a), (b8_is (0x80 + (u8 b - 128)) b), (b8_is (0x80 + (u8 d - 128)) d) by lia. }
  destruct l as [|e l]; [done|]. pose proof (u8_range e) as He. tests.
  exists ((u8 a - 240) * 262144 + (u8 b - 128) * 4096 + (u8 d - 128) * 64 + (u8 e - 128)), l.
  set (c := (u8 a - 240) * 262144 + (u8 b - 128) * 4096 + (u8 d - 128) * 64 + (u8 e - 128)).
  destruct Hv as [[[[Hva Hvb] Hvd] Hve] Hvl].
  assert (Hbr : 128 <= u8 b <= 191 /\ 65536 <= c < 0x110000).
  { destruct (Z.eqb_spec (u8 a) 240), (Z.eqb_spec (u8 a) 244); subst c; lia. }
  split_and!; [lia| |done]. unfold utf8_of_char.
  rewrite (proj2 (Z.ltb_ge c 0x80)), (proj2 (Z.ltb_ge c 0x800)), (proj2 (Z.ltb_ge c 0x10000)) by lia.
  rewrite (div_is c 262144 (u8 a - 240) ((u8 b - 128) * 4096 + (u8 d - 128) * 64 + (u8 e - 128))) by lia.
  rewrite (div_is c 4096 ((u8 a - 240) * 64 + (u8 b - 128)) ((u8 d - 128) * 64 + (u8 e - 128))) by lia.
  rewrite (div_is c 64 ((u8 a - 240) * 4096 + (u8 b - 128) * 64 + (u8 d - 128)) (u8 e - 128)) by lia.
  rewrite (mod_is c 64 ((u8 a - 240) * 4096 + (u8 b - 128) * 64 + (u8 d - 128)) (u8 e - 128)) by lia.
  rewrite (mod_is _ 64 (u8 a - 240) (u8 b - 128)) by lia.
  rewrite (mod_is _ 64 ((u8 a - 240) * 64 + (u8 b - 128)) (u8 d - 128)) by lia.
  by rewrite (b8_is (0xf0 + (u8 a - 240)) a), (b8_is (0x80 + (u8 b - 128)) b), (b8_is (0x80 + (u8 d - 128)) d),
    (b8_is (0x80 + (u8 e - 128)) e) by lia.
Qed.

(** Valid UTF-8 is the encoding of a text. *)
Lemma valid_utf8_spec v : valid_utf8 v = true <-> exists cs, Forall scalar cs /\ v = utf8 cs.
Proof.
  split; [|intros (cs & Hcs & ->); by apply valid_utf8_of].
  remember (length v) as n eqn:Hn. revert v Hn. induction n as [n IH] using lt_wf_ind. intros v Hn Hv.
  destruct v as [|a v]; [exists []; by split|]. destruct (valid_utf8_head a v Hv) as (c & l & Hc & Hl & Hv').
  destruct (IH (length l)) with (v := l) as (cs & Hcs & ->); [|done|done|].
  - rewrite Hn, Hl, length_app. assert (0 < len (utf8_of_char c)); [|unfold len in *; lia].
    rewrite len_utf8_of_char. unfold len_utf8. destruct (_ <? _); [lia|]. destruct (_ <? _); [lia|]. destruct (_ <? _); lia.
  - exists (c :: cs). split; [by constructor|]. by rewrite Hl.
Qed.

(** [encode_utf16().count()] is the number of units. *)
Lemma utf16_count_app a b : utf16_count (a ++ b) = utf16_count a + utf16_count b.
Proof. unfold utf16_count. induction a as [|x a IH]; [done|]. cbn. rewrite IH. lia. Qed.
Lemma utf16_count_char c : scalar c -> utf16_count (utf8_of_char c) = len (utf16_of_char c).
Proof.
  intros Hc. unfold utf8_of_char, utf16_of_char, scalar in *. scalar_bytes c.
  destruct (Z.ltb_spec c 0x10000) as [H16|H16]; destruct (Z.ltb_spec c 0x80); try lia;
    try (destruct (Z.ltb_spec c 0x800); try lia);
    cbn; unfold utf16_units_at; rewrite !u8_of by lia;
    repeat match goal with |- context [if ?x then _ else _] =>
      let H := fresh in destruct x eqn:H; tests; rewrite ?andb_false_iff in H end; try done; unfold len; cbn;
    tests; lia.
Qed.
Lemma utf16_count_utf8 cs : Forall scalar cs -> utf16_count (utf8 cs) = len (utf16 cs).
Proof.
  induction 1 as [|c cs Hc _ IH]; [done|]. unfold utf8, utf16 in *. cbn [map concat].
  by rewrite utf16_count_app, len_app, IH, utf16_count_char.
Qed.

(** ** UTF-16 *)

Lemma lor_concat h l n : 0 <= n -> 0 <= l < 2 ^ n -> Z.lor (Z.shiftl h n) l = h * 2 ^ n + l.
Proof.
  intros Hn Hl. rewrite <- Z.add_nocarry_lor; [by rewrite Z.shiftl_mul_pow2|].
  apply Z.bits_inj'. intros i Hi. rewrite Z.land_spec, Z.shiftl_spec, Z.bits_0 by done.
  destruct (Z.lt_ge_cases i n); [by rewrite Z.testbit_neg_r by lia|].
  destruct (Z.eq_dec l 0) as [->|]; [by rewrite Z.bits_0, andb_false_r|].
  rewrite (Z.bits_above_log2 l); [by rewrite andb_false_r|lia|].
  apply Z.lt_le_trans with n; [|done]. apply Z.log2_lt_pow2; lia.
Qed.
(** The low bits, and one bit above them. *)
Lemma land_low u n : 0 <= n -> Z.land u (Z.ones n) = u mod 2 ^ n.
Proof. intros. by apply Z.land_ones. Qed.
Lemma land_bit u n : 0 <= n -> 0 <= u < 2 ^ (n + 1) -> (Z.land u (2 ^ n) =? 0) = (u <? 2 ^ n).
Proof.
  intros Hn Hu. assert (Hp : 2 ^ (n + 1) = 2 * 2 ^ n) by (rewrite Z.pow_add_r by lia; lia).
  assert (Hb : Z.testbit u n = negb (u <? 2 ^ n)).
  { destruct (Z.ltb_spec u (2 ^ n)) as [Hlt|Hge]; cbn.
    - destruct (Z.eq_dec u 0) as [->|]; [apply Z.bits_0|]. apply Z.bits_above_log2; [lia|]. apply Z.log2_lt_pow2; lia.
    - apply Z.testbit_true; [done|]. assert (u / 2 ^ n = 1) as ->; [|done].
      symmetry. apply Z.div_unique with (u - 2 ^ n); lia. }
  destruct (Z.ltb_spec u (2 ^ n)) as [Hlt|Hge]; cbn in Hb.
  - apply Z.eqb_eq. apply Z.bits_inj'. intros i Hi. rewrite Z.land_spec, Z.bits_0, Z.pow2_bits_eqb by done.
    destruct (Z.eqb_spec n i) as [<-|]; [by rewrite Hb|by rewrite andb_false_r].
  - apply Z.eqb_neq. intros He. apply (f_equal (fun z => Z.testbit z n)) in He.
    by rewrite Z.land_spec, Hb, Z.pow2_bits_true, Z.bits_0 in He.
Qed.

Definition unit16 (u : Z) : Prop := 0 <= u < 65536.
Lemma land_surrogate u : unit16 u -> (Z.land u 0xf800 =? 0xd800) = (0xd800 <=? u) && (u <=? 0xdfff).
Proof.
  unfold unit16. intros Hu. assert (Hl : Z.land u 0xf800 = u / 2048 * 2048).
  { change 0xf800 with (Z.shiftl (Z.ones 5) 11). transitivity (Z.shiftl (Z.land (Z.shiftr u 11) (Z.ones 5)) 11).
    - apply Z.bits_inj'. intros i Hi. rewrite Z.land_spec, !Z.shiftl_spec by done.
      destruct (Z.lt_ge_cases i 11); [by rewrite !(Z.testbit_neg_r _ (i - 11)), andb_false_r by lia|].
      rewrite Z.land_spec, Z.shiftr_spec by lia. do 2 f_equal. lia.
    - rewrite Z.land_ones, Z.shiftr_div_pow2, Z.shiftl_mul_pow2 by done. change (2 ^ 11) with 2048. change (2 ^ 5) with 32.
      rewrite Z.mod_small by (split; [apply Z.div_pos|apply Z.div_lt_upper_bound]; lia). done. }
  rewrite Hl. pose proof (Z.div_mod u 2048 ltac:(done)). pose proof (Z.mod_pos_bound u 2048 ltac:(done)).
  destruct (Z.eqb_spec (u / 2048 * 2048) 0xd800), (Z.leb_spec 0xd800 u), (Z.leb_spec u 0xdfff); cbn; try done; lia.
Qed.

Lemma utf16_char_units c : scalar c -> Forall unit16 (utf16_of_char c).
Proof.
  intros Hc. unfold utf16_of_char, scalar, unit16 in *. destruct (Z.ltb_spec c 0x10000); repeat constructor; try lia.
  all: pose proof (Z.div_mod (c - 0x10000) 1024 ltac:(lia)); pose proof (Z.mod_pos_bound (c - 0x10000) 1024 ltac:(lia)); lia.
Qed.

Lemma decode_utf16_char c units : scalar c -> decode_utf16 (utf16_of_char c ++ units) = Some c :: decode_utf16 units.
Proof.
  intros Hc. pose proof (utf16_char_units c Hc) as Hu. unfold utf16_of_char, scalar in *.
  destruct (Z.ltb_spec c 0x10000).
  - inversion_clear Hu as [|? ? Hu1 _]. cbn [app decode_utf16]. rewrite land_surrogate by done.
    destruct ((0xd800 <=? c) && (c <=? 0xdfff)) eqn:Hs; [tests; lia|done].
  - set (h := (c - 0x10000) / 1024) in *. set (l := (c - 0x10000) mod 1024) in *.
    inversion_clear Hu as [|? ? Hu1 Hu']. inversion_clear Hu' as [|? ? Hu2 _].
    pose proof (Z.div_mod (c - 0x10000) 1024 ltac:(lia)) as Hd. fold h in Hd. fold l in Hd.
    pose proof (Z.mod_pos_bound (c - 0x10000) 1024 ltac:(lia)) as Hl. fold l in Hl.
    cbn [app decode_utf16]. rewrite land_surrogate by done.
    rewrite (proj2 (Z.leb_le 0xd800 _)), (proj2 (Z.leb_le (0xd800 + h) 0xdfff)), (proj2 (Z.leb_gt 0xdc00 (0xd800 + h))) by lia.
    cbn [negb andb]. rewrite (proj2 (Z.ltb_ge (0xdc00 + l) _)), (proj2 (Z.ltb_ge 0xdfff _)) by lia. cbn [orb].
    change 0x3ff with (Z.ones 10). rewrite !land_low by done. change (2 ^ 10) with 1024.
    rewrite (mod_is _ 1024 54 h), (mod_is _ 1024 55 l) by lia. rewrite lor_concat by lia. do 2 f_equal. lia.
Qed.

Lemma decode_utf16_of cs : Forall scalar cs -> decode_utf16 (utf16 cs) = Some <$> cs.
Proof.
  induction 1 as [|c cs Hc _ IH]; [done|]. unfold utf16 in *. cbn [map concat]. by rewrite decode_utf16_char, IH.
Qed.

Lemma decode_utf16_head u units c l : unit16 u -> Forall unit16 units -> decode_utf16 (u :: units) = Some c :: l ->
  exists units', scalar c /\ u :: units = utf16_of_char c ++ units' /\ decode_utf16 units' = l.
Proof.
  intros Hu Hus. cbn [decode_utf16]. rewrite land_surrogate by done. unfold scalar, utf16_of_char, unit16 in *.
  destruct ((0xd800 <=? u) && (u <=? 0xdfff)) eqn:Hs; cbn [negb].
  - tests. destruct (Z.leb_spec 0xdc00 u); [done|]. destruct units as [|u2 units]; [done|].
    inversion_clear Hus as [|? ? Hu2 _]. destruct ((u2 <? 0xdc00) || (0xdfff <? u2)) eqn:Hr; [done|]. tests.
    intros Hd. injection Hd as Hd Hl. exists units. change 0x3ff with (Z.ones 10) in Hd.
    rewrite !land_low in Hd by done. change (2 ^ 10) with 1024 in Hd.
    rewrite (mod_is u 1024 54 (u - 0xd800)), (mod_is u2 1024 55 (u2 - 0xdc00)), lor_concat in Hd by lia.
    change (2 ^ 10) with 1024 in Hd. rewrite (proj2 (Z.ltb_ge c _)) by lia.
    rewrite (div_is _ 1024 (u - 0xd800) (u2 - 0xdc00)), (mod_is _ 1024 (u - 0xd800) (u2 - 0xdc00)) by lia.
    replace (0xd800 + (u - 0xd800)) with u by lia. replace (0xdc00 + (u2 - 0xdc00)) with u2 by lia.
    split_and!; [lia|done|done].
  - intros [= <- <-]. exists units. rewrite (proj2 (Z.ltb_lt u _)) by lia. split_and!; [|done|done].
    apply andb_false_iff in Hs. rewrite !Z.leb_gt in Hs. lia.
Qed.

(** A text is decoded from its units only. *)
Lemma decode_utf16_spec units cs : Forall unit16 units ->
  decode_utf16 units = Some <$> cs <-> Forall scalar cs /\ units = utf16 cs.
Proof.
  intros Hu. split; [|intros [Hcs ->]; by apply decode_utf16_of].
  revert units Hu. induction cs as [|c cs IH]; intros units Hu Hd.
  - destruct units as [|u units]; [by repeat constructor|]. exfalso. cbn in Hd. destruct (negb _); [done|].
    destruct (_ <=? _); [done|]. destruct units as [|u2 units]; [done|]. by destruct (_ || _).
  - destruct units as [|u units]; [done|]. inversion_clear Hu as [|? ? Hu1 Hus].
    destruct (decode_utf16_head u units c _ Hu1 Hus Hd) as (units' & Hc & Hun & Hd').
    destruct (IH units') as [Hcs Hun']; [|done|].
    + assert (Hall : Forall unit16 (u :: units)) by by constructor. rewrite Hun in Hall. by apply Forall_app in Hall as [_ ?].
    + split; [by constructor|]. rewrite Hun, Hun'. done.
Qed.

(** ** Units in bytes *)

Lemma le_encode_pair u : unit16 u -> exists a b, le_encode 2 u = [a; b] /\ le_decode [a; b] = u.
Proof.
  intros Hu. exists (b8 u), (b8 (u / 256)). split; [done|]. apply (le_decode_encode 2). unfold unit16 in Hu. cbn. lia.
Qed.
Lemma units_of_le16 units : Forall unit16 units -> units_of (le16 units) = units.
Proof.
  induction 1 as [|u units Hu _ IH]; [done|]. unfold le16 in *. cbn [map concat].
  destruct (le_encode_pair u Hu) as (a & b & -> & Hd). cbn [app units_of]. by rewrite Hd, IH.
Qed.
Lemma len_le16 units : len (le16 units) = 2 * len units.
Proof.
  unfold le16. induction units as [|u units IH]; [done|]. cbn [map concat]. rewrite len_app, len_le_encode, IH, len_cons. lia.
Qed.
Lemma le16_units_of k l : length l = (2 * k)%nat ->
  le16 (units_of l) = l /\ Forall unit16 (units_of l) /\ length (units_of l) = k.
Proof.
  revert l. induction k as [|k IH]; intros l Hl; [by destruct l|]. destruct l as [|a [|b l]]; [done|cbn in Hl; lia|].
  destruct (IH l) as (H1 & H2 & H3); [cbn in Hl; lia|]. cbn [units_of]. unfold le16 in *. cbn [map concat length].
  pose proof (le_encode_decode [a; b]) as He. change (length [a; b]) with 2%nat in He. rewrite He, H1.
  pose proof (le_decode_range [a; b]) as Hr. split_and!; [done|by constructor|by rewrite H3].
Qed.

(** ** Integers as slices *)

Lemma le_u16_slice input offset v : 0 <= offset -> len input <= U64_MAX ->
  le_u16 input offset = Some v <-> unit16 v /\ slice input offset (offset + 2) = Some (le_encode 2 v).
Proof.
  intros Ho Hl. unfold le_u16. rewrite le_uint_spec by done. split.
  - intros (_ & w & Hw & <-). apply slice_len in Hw as Hlw; [|done].
    assert (Hw2 : length w = 2%nat) by (unfold len in *; lia). rewrite <- Hw2, le_encode_decode. split; [|done].
    pose proof (le_decode_range w) as Hr. unfold len in Hr. rewrite Hw2 in Hr. exact Hr.
  - intros [Hv Hs]. apply window_bounds in Hs as Hb; [|done]. split; [lia|]. exists (le_encode 2 v). split; [done|].
    by apply (le_decode_encode 2).
Qed.
Lemma byte_at_slice input offset v : 0 <= offset ->
  byte_at input offset = Some v <-> 0 <= v < 256 /\ slice input offset (offset + 1) = Some [b8 v].
Proof.
  intros Ho. unfold byte_at. rewrite fmap_Some. split.
  - intros (x & Hx & ->). split; [apply u8_range|]. rewrite b8_u8. apply slice_spec; [done|].
    apply list_elem_of_split_length in Hx as (a & b & -> & Ha). rewrite len_app, len_cons.
    pose proof (len_nonneg b). unfold len in *. split; [lia|]. exists a, b. split_and!; [done|lia|cbn; lia].
  - intros [Hv Hs]. apply slice_spec in Hs as (_ & a & b & -> & Ha & _); [|done]. exists (b8 v).
    split; [|by rewrite u8_b8_small]. apply list_lookup_middle. unfold len in Ha. lia.
Qed.

(** ** Decoded strings *)

Lemma len_utf8_text cs : len (utf8 cs) = foldr (fun c n => len_utf8 c + n) 0 cs.
Proof. unfold utf8. induction cs as [|c cs IH]; [done|]. cbn. by rewrite len_app, len_utf8_of_char, IH. Qed.
Lemma len_utf8_pos c : 1 <= len_utf8 c.
Proof. unfold len_utf8. destruct (_ <? _); [lia|]. destruct (_ <? _); [lia|]. destruct (_ <? _); lia. Qed.

Lemma decoded_length_spec remaining total items r : 0 <= total <= remaining -> remaining <= U64_MAX ->
  decoded_length remaining total items = Some r <->
  exists cs, items = Some <$> cs /\ r = total + len (utf8 cs) /\ r <= remaining.
Proof.
  intros Ht Hr. revert total Ht. induction items as [|[c|] items IH]; intros total Ht; cbn [decoded_length mbind option_bind].
  - split; [intros [= <-]; exists []; change (len (utf8 [])) with 0; split_and!; [done|lia|lia]|].
    intros ([|? ?] & ? & -> & _); [|done]. f_equal. change (len (utf8 [])) with 0. lia.
  - pose proof (len_utf8_pos c). split.
    + intros Hd. opt_inv Hd. opt_inv Ho. injection Ho as <-. apply checked_add_some in Ho0 as [-> _]. tests.
      apply IH in Hd as (cs & -> & -> & Hle); [|lia]. exists (c :: cs). unfold utf8 in *. cbn [map concat].
      rewrite len_app, len_utf8_of_char. split_and!; [done|lia|lia].
    + intros (cs' & Hcs & -> & Hle). destruct cs' as [|c' cs]; [done|]. injection Hcs as <- Hcs.
      unfold utf8 in *. cbn [map concat] in *. rewrite len_app, len_utf8_of_char in *. pose proof (len_nonneg (concat (map utf8_of_char cs))).
      rewrite checked_add_fits by lia. cbn [mbind option_bind]. rewrite (proj2 (Z.leb_le _ _)) by lia. cbn [mbind option_bind].
      apply IH; [lia|]. exists cs. split_and!; [done|lia|lia].
  - split; [done|]. by intros ([|? ?] & ? & _).
Qed.
Lemma push_all_spec v cs : push_all v (Some <$> cs) = Some (v ++ utf8 cs).
Proof.
  revert v. induction cs as [|c cs IH]; intros v; [cbn; by rewrite app_nil_r|].
  cbn. rewrite IH. unfold utf8. cbn. by rewrite app_assoc.
Qed.

(** A length in front of a string: one or two units, or one or two bytes. *)
Definition prefix16 (n : Z) (p : bytes) : Prop :=
  0 <= n < 0x8000 /\ p = le_encode 2 n \/
  0 <= n < 2 ^ 31 /\ p = le_encode 2 (0x8000 + n / 65536) ++ le_encode 2 (n mod 65536).
Definition prefix8 (n : Z) (p : bytes) : Prop :=
  0 <= n < 0x80 /\ p = [b8 n] \/ 0 <= n < 2 ^ 15 /\ p = [b8 (0x80 + n / 256); b8 (n mod 256)].

(** A text with its lengths and its terminator. *)
Definition coded16 (cs : list Z) (x : bytes) : Prop :=
  exists p, prefix16 (len (utf16 cs)) p /\ x = p ++ le16 (utf16 cs) ++ le_encode 2 0.
Definition coded8 (cs : list Z) (x : bytes) : Prop :=
  exists p q, prefix8 (len (utf16 cs)) p /\ prefix8 (len (utf8 cs)) q /\ x = p ++ q ++ utf8 cs ++ [b8 0].
Definition coded (is_utf8 : bool) : list Z -> bytes -> Prop := if is_utf8 then coded8 else coded16.
Definition string_at (is_utf8 : bool) (input : bytes) (offset : Z) (cs : list Z) : Prop :=
  Forall scalar cs /\ exists x, coded is_utf8 cs x /\ slice input offset (offset + len x) = Some x.

Lemma prefix16_len n p : prefix16 n p -> 0 <= n < 2 ^ 31 /\ 2 <= len p <= 4.
Proof. intros [[Hn ->]|[Hn ->]]; rewrite ?len_app, !len_le_encode; lia. Qed.
Lemma utf16_units cs : Forall scalar cs -> Forall unit16 (utf16 cs).
Proof. unfold utf16. induction 1 as [|c cs Hc _ IH]; cbn; [done|]. apply Forall_app. split; [by apply utf16_char_units|done]. Qed.

(** The length of a UTF-16 string, as the code reads it. *)
Definition read_length16 (input : bytes) (offset : Z) : option (Z * Z) :=
  first ← le_u16 input offset;
  if Z.land first 0x8000 =? 0 then Some (first, offset + 2)
  else
    second ← le_u16 input (offset + 2);
    Some (Z.lor (Z.shiftl (Z.land first 0x7fff) 16) second, offset + 4).
Lemma decode_utf16_string_eq input offset budget :
  decode_utf16_string input offset budget =
  ('(length, cursor) ← read_length16 input offset;
   terminator ← (e ← checked_add cursor (length * 2);
                 after ← checked_add e 2;
                 if after <=? len input then Some e else None);
   if negb (is_at (le_u16 input terminator) 0) then None
   else
     content ← slice input cursor terminator;
     let units := units_of content in
     decoded_length_ ← decoded_length budget 0 (decode_utf16 units);
     budget ← claim decoded_length_ budget;
     value ← push_all [] (decode_utf16 units);
     Some (value, budget)).
Proof. unfold decode_utf16_string, read_length16. by destruct (le_u16 input offset). Qed.

Lemma read_length16_spec input offset n cursor : 0 <= offset -> len input <= U64_MAX ->
  read_length16 input offset = Some (n, cursor) <->
  exists p, prefix16 n p /\ slice input offset (offset + len p) = Some p /\ cursor = offset + len p.
Proof.
  intros Ho Hl. unfold read_length16, prefix16. change 0x8000 with (2 ^ 15). change 0x7fff with (Z.ones 15). split.
  - intros Hr. apply bind_Some in Hr as (u & Hu & Hr). apply le_u16_slice in Hu as [Hu Hs]; [|done..]. unfold unit16 in Hu.
    rewrite land_bit in Hr by lia. destruct (Z.ltb_spec u (2 ^ 15)).
    + injection Hr as <- <-. exists (le_encode 2 u). rewrite len_le_encode. split_and!; [left; split; [lia|done]|done|done].
    + apply bind_Some in Hr as (w & Hw & Hr). apply le_u16_slice in Hw as [Hw Hs2]; [|lia|done]. unfold unit16 in Hw.
      rewrite land_low, (mod_is u _ 1 (u - 2 ^ 15)), lor_concat in Hr by lia. injection Hr as <- <-.
      exists (le_encode 2 u ++ le_encode 2 w). rewrite len_app, !len_le_encode.
      replace (offset + (Z.of_nat 2 + Z.of_nat 2)) with (offset + 4) by lia.
      replace (offset + 2 + 2) with (offset + 4) in Hs2 by lia. split_and!; [right|by eapply slice_join, Hs2|done].
      * split; [lia|]. rewrite (div_is _ 65536 (u - 2 ^ 15) w), (mod_is _ 65536 (u - 2 ^ 15) w) by lia. do 2 f_equal. lia.
  - intros (p & [[Hn ->]|[Hn ->]] & Hs & ->).
    + rewrite len_le_encode in *. rewrite (proj2 (le_u16_slice input offset n Ho Hl)) by (split; [unfold unit16; lia|done]).
      cbn [mbind option_bind]. by rewrite land_bit, (proj2 (Z.ltb_lt _ _)) by lia.
    + pose proof (Z.div_mod n 65536 ltac:(lia)). pose proof (Z.mod_pos_bound n 65536 ltac:(lia)).
      set (h := n / 65536) in *. set (l := n mod 65536) in *. rewrite len_app, !len_le_encode in *.
      apply slice_split in Hs as [Hs1 Hs2]; [|done]. rewrite len_le_encode in *.
      replace (offset + (Z.of_nat 2 + Z.of_nat 2)) with (offset + 2 + 2) in Hs2 by lia.
      rewrite (proj2 (le_u16_slice input offset (2 ^ 15 + h) Ho Hl)) by (split; [unfold unit16; lia|done]).
      cbn [mbind option_bind]. rewrite land_bit, (proj2 (Z.ltb_ge _ _)) by lia.
      rewrite (proj2 (le_u16_slice input (offset + 2) l ltac:(lia) Hl)) by (split; [unfold unit16; lia|done]).
      cbn [mbind option_bind]. rewrite land_low, (mod_is _ _ 1 h), lor_concat by lia. do 2 f_equal; lia.
Qed.

Lemma decode_utf16_string_spec input offset budget v rest :
  0 <= offset -> len input <= U64_MAX -> 0 <= budget <= U64_MAX ->
  decode_utf16_string input offset budget = Some (v, rest) <->
  exists cs, string_at false input offset cs /\ v = utf8 cs /\ rest = budget - len v /\ 0 <= rest.
Proof.
  intros Ho Hl Hb. rewrite decode_utf16_string_eq. split.
  - intros Hd. apply bind_Some in Hd as ([n cursor] & Hn & Hd).
    apply read_length16_spec in Hn as (p & Hp & Hs & ->); [|done..]. pose proof (prefix16_len n p Hp) as [Hnr Hpl].
    opt_inv Hd. injection Hd as <- <-. opt_inv Ho0. injection Ho0 as <-. tests.
    match goal with H : checked_add (offset + len p) (n * 2) = Some _ |- _ => apply checked_add_some in H as [-> _] end.
    match goal with H : checked_add _ 2 = Some _ |- _ => apply checked_add_some in H as [-> _] end.
    match goal with H : slice input (offset + len p) _ = Some ?c |- _ => rename H into Hcont; rename c into content end.
    match goal with H : le_u16 input _ = Some 0 |- _ => apply le_u16_slice in H as [_ Hz]; [|lia|done] end.
    apply slice_len in Hcont as Hlc; [|lia].
    destruct (le16_units_of (Z.to_nat n) content) as (Hu1 & Hu2 & Hu3); [unfold len in *; lia|].
    match goal with H : decoded_length _ _ _ = Some _ |- _ => apply decoded_length_spec in H as (cs & Hcs & -> & Hle); [|lia..] end.
    rewrite Hcs in *. rewrite push_all_spec in *.
    match goal with H : Some _ = Some _ |- _ => injection H as <- end.
    match goal with H : claim _ _ = Some _ |- _ => unfold claim, checked_sub in H; apply if_some in H as [_ [= <-]] end.
    apply decode_utf16_spec in Hcs as [Hcs Hu]; [|done]. cbn [app]. exists cs. split_and!; [|done|lia|lia].
    assert (Hnn : n = len (utf16 cs)) by (rewrite <- Hu; unfold len in *; lia). split; [done|].
    exists (p ++ le16 (utf16 cs) ++ le_encode 2 0). split; [exists p; by rewrite <- Hnn|].
    rewrite <- Hu, Hu1. rewrite !len_app, len_le_encode.
    replace (offset + (len p + (len content + Z.of_nat 2))) with (offset + len p + n * 2 + 2) by lia.
    eapply slice_join; [done|exact Hs|]. by eapply slice_join; [lia|exact Hcont|].
  - intros (cs & (Hcs & x & (p & Hp & ->) & Hs) & -> & -> & Hr). pose proof (prefix16_len _ _ Hp) as [Hnr Hpl].
    pose proof (utf16_units cs Hcs) as Hu. rewrite !len_app, len_le_encode in Hs. pose proof (len_nonneg (utf8 cs)).
    apply slice_split in Hs as [Hs1 Hs]; [|done]. apply slice_split in Hs as [Hs2 Hs3]; [|lia].
    pose proof (len_le16 (utf16 cs)) as Hl16. apply window_bounds in Hs2 as Hb2; [|lia].
    rewrite (proj2 (read_length16_spec input offset (len (utf16 cs)) (offset + len p) Ho Hl)) by by exists p.
    cbn [mbind option_bind]. rewrite checked_add_fits by lia. cbn [mbind option_bind].
    replace (offset + (len p + (len (le16 (utf16 cs)) + Z.of_nat 2))) with (offset + len p + len (le16 (utf16 cs)) + 2) in Hs3 by lia.
    apply window_bounds in Hs3 as Hb3; [|lia].
    rewrite checked_add_fits by lia. cbn [mbind option_bind]. rewrite (proj2 (Z.leb_le _ _)) by lia. cbn [mbind option_bind].
    replace (offset + len p + len (utf16 cs) * 2) with (offset + len p + len (le16 (utf16 cs))) by lia.
    rewrite (proj2 (le_u16_slice input (offset + len p + len (le16 (utf16 cs))) 0 ltac:(lia) Hl)) by (split; [unfold unit16; lia|done]). cbn [is_at negb].
    unfold is_at. rewrite bool_decide_eq_true_2 by done. cbn [negb]. rewrite Hs2. cbn [mbind option_bind].
    rewrite units_of_le16, decode_utf16_of by done.
    rewrite (proj2 (decoded_length_spec budget 0 (Some <$> cs) (len (utf8 cs)) ltac:(lia) ltac:(lia))) by (exists cs; split_and!; [done|lia|lia]).
    cbn [mbind option_bind]. unfold claim, checked_sub. rewrite (proj2 (Z.leb_le _ _)) by lia. cbn [mbind option_bind].
    by rewrite push_all_spec.
Qed.

Lemma prefix8_len n p : prefix8 n p -> 0 <= n < 2 ^ 15 /\ 1 <= len p <= 2.
Proof. unfold len. intros [[Hn ->]|[Hn ->]]; cbn; lia. Qed.
Lemma length8_spec input offset n cursor : 0 <= offset ->
  length8 input offset = Some (n, cursor) <->
  exists p, prefix8 n p /\ slice input offset (offset + len p) = Some p /\ cursor = offset + len p.
Proof.
  intros Ho. unfold length8, prefix8. change 0x80 with (2 ^ 7). change 0x7f with (Z.ones 7). split.
  - intros Hr. apply bind_Some in Hr as (u & Hu & Hr). apply byte_at_slice in Hu as [Hu Hs]; [|done].
    rewrite land_bit in Hr by lia. destruct (Z.ltb_spec u (2 ^ 7)).
    + injection Hr as <- <-. exists [b8 u]. split_and!; [left; split; [lia|done]|done|done].
    + apply bind_Some in Hr as (w & Hw & Hr). apply byte_at_slice in Hw as [Hw Hs2]; [|lia].
      rewrite land_low, (mod_is u _ 1 (u - 2 ^ 7)), lor_concat in Hr by lia. injection Hr as <- <-.
      exists ([b8 u] ++ [b8 w]). change (len ([b8 u] ++ [b8 w])) with 2.
      replace (offset + 1 + 1) with (offset + 2) in Hs2 by lia. split_and!; [right|by eapply slice_join, Hs2|done].
      split; [lia|]. rewrite (div_is _ 256 (u - 2 ^ 7) w), (mod_is _ 256 (u - 2 ^ 7) w) by lia. cbn. do 2 f_equal. lia.
  - intros (p & [[Hn ->]|[Hn ->]] & Hs & ->).
    + change (len [b8 n]) with 1 in *. rewrite (proj2 (byte_at_slice input offset n Ho)) by (split; [lia|done]).
      cbn [mbind option_bind]. by rewrite land_bit, (proj2 (Z.ltb_lt _ _)) by lia.
    + pose proof (Z.div_mod n 256 ltac:(lia)). pose proof (Z.mod_pos_bound n 256 ltac:(lia)).
      set (h := n / 256) in *. set (l := n mod 256) in *.
      change [b8 (2 ^ 7 + h); b8 l] with ([b8 (2 ^ 7 + h)] ++ [b8 l]) in *. change (len ([b8 (2 ^ 7 + h)] ++ [b8 l])) with 2 in *.
      apply slice_split in Hs as [Hs1 Hs2]; [|done]. change (len [b8 (2 ^ 7 + h)]) with 1 in *.
      replace (offset + 2) with (offset + 1 + 1) in Hs2 by lia.
      rewrite (proj2 (byte_at_slice input offset (2 ^ 7 + h) Ho)) by (split; [lia|done]).
      cbn [mbind option_bind]. rewrite land_bit, (proj2 (Z.ltb_ge _ _)) by lia.
      rewrite (proj2 (byte_at_slice input (offset + 1) l ltac:(lia))) by (split; [lia|done]).
      cbn [mbind option_bind]. rewrite land_low, (mod_is _ _ 1 h), lor_concat by lia. do 2 f_equal; lia.
Qed.

Lemma decode_utf8_string_spec input offset budget v rest :
  0 <= offset -> len input <= U64_MAX ->
  decode_utf8_string input offset budget = Some (v, rest) <->
  exists cs, string_at true input offset cs /\ v = utf8 cs /\ rest = budget - len v /\ 0 <= rest.
Proof.
  intros Ho Hl. unfold decode_utf8_string, STRING_POOL_DECODED_BYTES_LIMIT. split.
  - intros Hd. apply bind_Some in Hd as ([n o1] & Hn & Hd). apply length8_spec in Hn as (p & Hp & Hs & ->); [|done].
    pose proof (prefix8_len n p Hp) as [Hnr Hpl]. apply bind_Some in Hd as ([k o2] & Hk & Hd).
    apply length8_spec in Hk as (q & Hq & Hs2 & ->); [|lia]. pose proof (prefix8_len k q Hq) as [Hkr Hql].
    opt_inv Hd. injection Hd as <- <-. opt_inv Ho0. injection Ho0 as <-. tests.
    match goal with H : checked_add _ k = Some _ |- _ => apply checked_add_some in H as [-> _] end.
    match goal with H : slice input _ _ = Some ?c |- string_at _ _ _ _ => idtac | H : slice input (offset + len p + len q) _ = Some ?c |- _ => rename H into Hcont; rename c into content end.
    match goal with H : byte_at input _ = Some 0 |- _ => apply byte_at_slice in H as [_ Hz]; [|lia] end.
    match goal with H : claim _ _ = Some _ |- _ => unfold claim, checked_sub in H; apply if_some in H as [Hbud [= <-]] end. tests.
    apply slice_len in Hcont as Hlc; [|lia].
    match goal with H : valid_utf8 content = true |- _ => apply valid_utf8_spec in H as (cs & Hcs & ->) end.
    match goal with H : utf16_count _ = n |- _ => rewrite utf16_count_utf8 in H by done; rename H into Hcount end.
    exists cs. assert (k = len (utf8 cs)) as -> by lia. split_and!; [split; [done|]|done|lia|lia].
    exists (p ++ q ++ utf8 cs ++ [b8 0]). split; [exists p, q; by rewrite Hcount|]. rewrite !len_app. change (len [b8 0]) with 1.
    replace (offset + (len p + (len q + (len (utf8 cs) + 1)))) with (offset + len p + len q + len (utf8 cs) + 1) by lia.
    eapply slice_join; [done|exact Hs|]. eapply slice_join; [lia|exact Hs2|]. by eapply slice_join; [lia|exact Hcont|].
  - intros (cs & (Hcs & x & (p & q & Hp & Hq & ->) & Hs) & -> & -> & Hr). pose proof (prefix8_len _ _ Hp) as [Hnr Hpl].
    pose proof (prefix8_len _ _ Hq) as [Hkr Hql]. rewrite !len_app in Hs. change (len [b8 0]) with 1 in Hs.
    apply slice_split in Hs as [Hs1 Hs]; [|done]. apply slice_split in Hs as [Hs2 Hs]; [|lia]. apply slice_split in Hs as [Hs3 Hs4]; [|lia].
    replace (offset + (len p + (len q + (len (utf8 cs) + 1)))) with (offset + len p + len q + len (utf8 cs) + 1) in Hs4 by lia.
    apply window_bounds in Hs4 as Hb4; [|lia].
    rewrite (proj2 (length8_spec input offset (len (utf16 cs)) (offset + len p) Ho)) by by exists p. cbn [mbind option_bind].
    rewrite (proj2 (length8_spec input (offset + len p) (len (utf8 cs)) (offset + len p + len q) ltac:(lia))) by by exists q.
    cbn [mbind option_bind]. rewrite (proj2 (Z.ltb_ge _ _)), checked_add_fits by lia. cbn [mbind option_bind].
    rewrite (proj2 (Z.ltb_lt _ _)) by lia. cbn [mbind option_bind].
    rewrite (proj2 (byte_at_slice input (offset + len p + len q + len (utf8 cs)) 0 ltac:(lia))) by (split; [lia|done]).
    unfold is_at. rewrite bool_decide_eq_true_2 by done. cbn [negb]. rewrite Hs3. cbn [mbind option_bind].
    rewrite valid_utf8_of, utf16_count_utf8, Z.eqb_refl by done. cbn [negb]. unfold claim, checked_sub.
    by rewrite (proj2 (Z.leb_le _ _)) by lia.
Qed.

(** ** The pool *)

(** The strings of a table of offsets from [index] on. *)
Definition table (is_utf8 : bool) (input : bytes) (start index : Z) (texts : list (list Z)) : Prop :=
  forall i cs, texts !! i = Some cs -> exists relative,
    le_u32 input (28 + (index + Z.of_nat i) * 4) = Some relative /\ string_at is_utf8 input (start + relative) cs.

Lemma table_cons is_utf8 input start index cs texts :
  table is_utf8 input start index (cs :: texts) <->
  (exists relative, le_u32 input (28 + index * 4) = Some relative /\ string_at is_utf8 input (start + relative) cs) /\
  table is_utf8 input start (index + 1) texts.
Proof.
  unfold table. split.
  - intros Ht. split; [specialize (Ht O cs eq_refl); by rewrite Z.add_0_r in Ht|]. intros i c Hi.
    specialize (Ht (S i) c Hi). by replace (index + 1 + Z.of_nat i) with (index + Z.of_nat (S i)) by lia.
  - intros [H0 Ht] [|i] c Hi; [injection Hi as <-; by rewrite Z.add_0_r|].
    replace (index + Z.of_nat (S i)) with (index + 1 + Z.of_nat i) by lia. by apply Ht.
Qed.

Lemma pool_strings_spec is_utf8 input start n : 0 <= start <= len input -> len input <= U32_MAX ->
  forall index budget ss, 0 <= index -> 0 <= budget <= U32_MAX ->
  pool_strings n input is_utf8 28 start index budget = Some ss <->
  exists texts, length texts = n /\ table is_utf8 input start index texts /\ ss = utf8 <$> texts /\
    len (concat ss) <= budget.
Proof.
  intros Hst Hl. assert (Hl64 : len input <= U64_MAX) by (unfold U32_MAX, U64_MAX in *; lia).
  assert (Hdec : forall offset budget v rest, 0 <= offset -> 0 <= budget <= U32_MAX ->
    (if is_utf8 then decode_utf8_string input offset budget else decode_utf16_string input offset budget) = Some (v, rest) <->
    exists cs, string_at is_utf8 input offset cs /\ v = utf8 cs /\ rest = budget - len v /\ 0 <= rest).
  { intros. destruct is_utf8; [by apply decode_utf8_string_spec|]. apply decode_utf16_string_spec; try done.
    unfold U32_MAX, U64_MAX in *; lia. }
  induction n as [|n IH]; intros index budget ss Hi Hb; cbn [pool_strings].
  { split; [intros [= <-]; exists []; split_and!; [done|by intros i|done|change (len (concat (@nil bytes))) with 0; lia]|].
    by intros ([|? ?] & ? & _ & -> & _). }
  split.
  - intros Hp. apply bind_Some in Hp as (relative & Hrel & Hp). apply bind_Some in Hp as (offset & Hoff & Hp).
    apply checked_add_some in Hoff as [-> _]. apply bind_Some in Hp as ([v rest] & Hv & Hp).
    apply (le_u32_range input) in Hrel as Hr; [|lia]. apply Hdec in Hv as (cs & Hcs & -> & -> & Hrest); [|lia..].
    apply bind_Some in Hp as (ss' & Hss & [= <-]). pose proof (len_nonneg (utf8 cs)).
    apply IH in Hss as (texts & <- & Ht & -> & Hle); [|lia..]. exists (cs :: texts).
    split_and!; [done|apply table_cons; by split; [exists relative|]|done|]. cbn [fmap list_fmap concat]. rewrite len_app.
    change (concat (utf8 <$> texts)) with (concat (map utf8 texts)) in *. lia.
  - intros (texts & Hn & Ht & -> & Hle). destruct texts as [|cs texts]; [done|].
    apply table_cons in Ht as [(relative & Hrel & Hs) Ht]. rewrite Hrel. cbn [mbind option_bind].
    apply (le_u32_range input) in Hrel as Hr; [|lia]. rewrite checked_add_fits by (unfold U32_MAX, U64_MAX in *; lia).
    cbn [mbind option_bind]. cbn [fmap list_fmap concat] in *. rewrite len_app in Hle. pose proof (len_nonneg (utf8 cs)).
    pose proof (len_nonneg (concat (map utf8 texts))). change (concat (utf8 <$> texts)) with (concat (map utf8 texts)) in *.
    rewrite (proj2 (Hdec (start + relative) budget (utf8 cs) (budget - len (utf8 cs)) ltac:(lia) Hb))
      by (exists cs; split_and!; [done|done|done|lia]).
    cbn [mbind option_bind]. rewrite (proj2 (IH (index + 1) (budget - len (utf8 cs)) (utf8 <$> texts) ltac:(lia) ltac:(lia))); [done|].
    exists texts. split_and!; [cbn in Hn; lia|done|done|]. change (concat (utf8 <$> texts)) with (concat (map utf8 texts)). lia.
Qed.

Lemma pool_flags flags : 0 <= flags <= U32_MAX ->
  Z.land flags (U32_MAX - STRING_POOL_UTF8) = 0 <-> flags = 0 \/ flags = 256.
Proof.
  intros Hf. split; [|by intros [-> | ->]]. intros Hz.
  assert (Hsplit : flags = Z.lor (Z.land flags 256) (Z.land flags (U32_MAX - STRING_POOL_UTF8))).
  { rewrite <- Z.land_lor_distr_r. change (Z.lor 256 (U32_MAX - STRING_POOL_UTF8)) with (Z.ones 32).
    rewrite land_low by done. symmetry. apply Z.mod_small. unfold U32_MAX in Hf. lia. }
  rewrite Hz, Z.lor_0_r in Hsplit.
  assert (Hland : Z.land flags (2 ^ 8) = if Z.testbit flags 8 then 2 ^ 8 else 0).
  { apply Z.bits_inj'. intros i Hi. rewrite Z.land_spec, Z.pow2_bits_eqb by done.
    destruct (Z.eqb_spec 8 i) as [<-|Hne]; [rewrite andb_true_r|rewrite andb_false_r];
      destruct (Z.testbit flags 8); rewrite ?Z.pow2_bits_true, ?Z.pow2_bits_false, ?Z.bits_0 by done; done. }
  change 256 with (2 ^ 8) in Hsplit. rewrite Hland in Hsplit. destruct (Z.testbit flags 8); [by right|by left].
Qed.

(** The strings of a pool are exactly the texts that its table of offsets leads to, each of
    them with correct lengths and its terminator, in UTF-16 or UTF-8 as the flags say; they are
    valid UTF-8 of at most 2 MiB in all, whatever the encoding was. *)
Theorem string_pool_exact input ss :
  parse_string_pool input = Some ss <->
  exists (is_utf8 : bool) start texts,
    28 <= len input <= MANIFEST_LIMIT /\ le_u16 input 0 = Some RES_STRING_POOL /\ le_u16 input 2 = Some 28 /\
    le_u32 input 8 = Some (len texts) /\ len texts <= 65536 /\ le_u32 input 12 = Some 0 /\
    le_u32 input 16 = Some (if is_utf8 then STRING_POOL_UTF8 else 0) /\ le_u32 input 20 = Some start /\
    28 + len texts * 4 <= start <= len input /\ le_u32 input 24 = Some 0 /\
    table is_utf8 input start 0 texts /\ ss = utf8 <$> texts /\
    len (concat ss) <= STRING_POOL_DECODED_BYTES_LIMIT.
Proof.
  unfold parse_string_pool. split.
  - intros Hp. opt_inv Hp. tests. destruct_and!. subst.
    match goal with H : le_u32 input 8 = Some ?v |- _ => rename v into n; apply (le_u32_range input) in H as Hn; [|lia] end.
    match goal with H : le_u32 input 16 = Some ?v |- _ => rename v into flags; apply (le_u32_range input) in H as Hflags; [|lia] end.
    match goal with H : le_u32 input 20 = Some ?v |- _ => rename v into start; apply (le_u32_range input) in H as Hstart; [|lia] end.
    match goal with H : Z.land flags _ = 0 |- _ => apply pool_flags in H; [|done]; rename H into Hfl end.
    assert (Hbase : exists is_utf8 : bool, flags = (if is_utf8 then STRING_POOL_UTF8 else 0) /\
      negb (Z.land flags STRING_POOL_UTF8 =? 0) = is_utf8).
    { destruct Hfl as [-> | ->]; [by exists false|by exists true]. }
    destruct Hbase as (is_utf8 & Hf & Hu). rewrite Hu in Hp.
    apply pool_strings_spec in Hp as (texts & Hlen & Ht & -> & Hle);
      [|lia|unfold MANIFEST_LIMIT, U32_MAX in *; lia|lia|unfold STRING_POOL_DECODED_BYTES_LIMIT, U32_MAX; lia].
    assert (len texts = n) as Hln by (unfold len; lia). exists is_utf8, start, texts. rewrite Hln, <- Hf. split_and!; try done; lia.
  - intros (is_utf8 & start & texts & Hl & H0 & H2 & H8 & Hn & H12 & H16 & H20 & Hst & H24 & Ht & -> & Hle).
    rewrite H0, H2, H8, H12, H16, H20, H24. pose proof (len_nonneg texts). unfold is_at. rewrite bool_decide_eq_true_2 by done.
    rewrite (proj2 (Z.ltb_ge (len input) 28)), (proj2 (Z.ltb_ge MANIFEST_LIMIT _)) by lia. cbn [negb orb mbind option_bind].
    change (28 =? 28) with true. change (0 =? 0) with true. cbn [negb orb].
    rewrite (proj2 (Z.ltb_ge 65536 _)), (proj2 (Z.ltb_ge start _)), (proj2 (Z.ltb_ge (len input) start)) by lia.
    assert (Hf : (Z.land (if is_utf8 then STRING_POOL_UTF8 else 0) (U32_MAX - STRING_POOL_UTF8) =? 0) = true) by by destruct is_utf8.
    rewrite Hf. cbn [negb orb].
    assert (Hu : negb (Z.land (if is_utf8 then STRING_POOL_UTF8 else 0) STRING_POOL_UTF8 =? 0) = is_utf8) by by destruct is_utf8.
    rewrite Hu. apply pool_strings_spec;
      [lia|unfold MANIFEST_LIMIT, U32_MAX in *; lia|lia|unfold STRING_POOL_DECODED_BYTES_LIMIT, U32_MAX; lia|].
    exists texts. split_and!; try done. unfold len. lia.
Qed.
