(* ===== verification/Validation.v ===== *)
(** What [validate_apk_manifest] accepts, and a concrete archive for the witnesses. *)

From S2P Require Import Prelude Crates Apk Axml Slices Chunks Manifest Archive Texts.

(** The one bootstrap activity of a tree: it is below an application, exported, and enabled
    unless it says nothing about it. *)
Definition bootstrap_activity (package : bytes) (root : Node) (e : StartElement) : Prop :=
  List.filter (is_bootstrap package) (activities root) = [e] /\ is_exported e = Some (Some true) /\
  (is_enabled e = Some None \/ is_enabled e = Some (Some true)).

Lemma tree_facts_accepted package root f :
  tree_facts package root = Some f /\ mf_package f = package /\ mf_application_count f = 1 /\
  mf_bootstrap_activity_count f = 1 /\ mf_bootstrap_exported f = true /\ mf_bootstrap_enabled f = true <->
  el_name (element root) = str "manifest" /\
  identity_string_attribute (element root) None (str "package") None = Some (Some package) /\
  height root <= XML_DEPTH_LIMIT /\ length (applications root) = 1%nat /\
  (forall e, e ∈ activities root -> is_Some (activity_name package e)) /\
  (exists e, bootstrap_activity package root e) /\ f = mkManifestFacts package 1 1 true true.
Proof.
  unfold tree_facts, bootstrap_facts, bootstrap_activity. split.
  - intros (Hf & Hp & Ha & Hc & Hx & Hy). apply if_some in Hf as [Hg Hf]. tests.
    apply bind_Some in Hf as ([[n x] y] & Hb & [= <-]). cbn in *. subst.
    apply if_some in Hb as [Hall Hb]. rewrite forallb_forall in Hall. destruct_and!.
    destruct (List.filter (is_bootstrap package) (activities root)) as [|e [|e2 l]]; [done| |done].
    apply bind_Some in Hb as ([x|] & Hex & Hb); [|done]. cbn in Hb. apply bind_Some in Hb as (y & Hen & [= -> Hy]).
    split_and!; [tauto|tauto|tauto|unfold len in *; lia| | |by f_equal].
    + intros e' He'. apply is_Some_alt. specialize (Hall e'). rewrite <- list_elem_of_In in Hall. specialize (Hall He').
      by destruct (activity_name package e').
    + exists e. split_and!; [done|done|]. destruct y as [[|]|]; [by right|done|by left].
  - intros (Hn & Hi & Hh & Ha & Hall & (e & He & Hx & Hy) & ->).
    rewrite Hn, bytes_eqb_refl, bool_decide_eq_true_2, (proj2 (Z.leb_le _ _)) by done. cbn [andb].
    rewrite (proj2 (forallb_forall _ _)), He, Hx; [|intros e' He'%list_elem_of_In; by destruct (Hall e' He') as [? ->]].
    cbn. unfold len. rewrite Ha. destruct Hy as [-> | ->]; by split_and!.
Qed.

(** C22: an APK passes exactly if a manifest can be extracted from it that is a document with one
    tree, in which the root is the manifest of the expected package, exactly one application lies
    below a manifest, every activity below an application has a readable name, and exactly one of
    them is the package's [AppPilotKitBootstrapActivity], which is exported and not disabled. *)
Theorem apk_validated `{Zlib} file package :
  validate_apk_manifest (Some file) package = Some tt <->
  exists manifest pool ids root, extract_manifest file = Some manifest /\ document pool ids root manifest /\
    el_name (element root) = str "manifest" /\
    identity_string_attribute (element root) None (str "package") None = Some (Some package) /\
    height root <= XML_DEPTH_LIMIT /\ length (applications root) = 1%nat /\
    (forall e, e ∈ activities root -> is_Some (activity_name package e)) /\
    exists e, bootstrap_activity package root e.
Proof.
  unfold validate_apk_manifest. cbn [mbind option_bind]. split.
  - intros Hv. apply bind_Some in Hv as (manifest & Hm & Hv). apply bind_Some in Hv as (f & Hf & Hv).
    apply if_some in Hv as [Hg _]. tests. destruct_and!.
    apply manifest_spec in Hf as (pool & ids & root & Hdoc & Hf). exists manifest, pool, ids, root.
    pose proof (proj1 (tree_facts_accepted package root f)) as Hacc. destruct Hacc as (? & ? & ? & ? & ? & ? & _); [tauto|].
    by split_and!.
  - intros (manifest & pool & ids & root & -> & Hdoc & Hn & Hi & Hh & Ha & Hall & He). cbn [mbind option_bind].
    destruct (proj2 (tree_facts_accepted package root (mkManifestFacts package 1 1 true true))) as (Hf & _); [by split_and!|].
    rewrite (proj2 (manifest_spec manifest package (mkManifestFacts package 1 1 true true))) by by exists pool, ids, root.
    cbn. by rewrite bytes_eqb_refl.
Qed.

(** ** A concrete archive

    Nothing is inflated: the archive stores its manifest. *)

#[export] Instance zlib_zeros : Zlib :=
  {| zlib_inflate input n := mkInflated 0 1 0 n 0 (repeat (b8 0) (Z.to_nat n)) |}.

Definition ex_chunk (kind header : Z) (body : bytes) : bytes :=
  le_encode 2 kind ++ le_encode 2 header ++ le_encode 4 (8 + len body) ++ body.
Definition ex_string (s : bytes) : bytes := [b8 (len s); b8 (len s)] ++ s ++ [b8 0].
Fixpoint ex_offsets (o : Z) (l : list bytes) : bytes :=
  match l with [] => [] | s :: l => le_encode 4 o ++ ex_offsets (o + len (ex_string s)) l end.
Definition ex_pool (l : list bytes) : bytes :=
  ex_chunk RES_STRING_POOL 28
    (le_encode 4 (len l) ++ le_encode 4 0 ++ le_encode 4 STRING_POOL_UTF8 ++ le_encode 4 (28 + 4 * len l) ++
     le_encode 4 0 ++ ex_offsets 0 l ++ concat (map ex_string l)).
Definition ex_map (ids : list Z) : bytes := ex_chunk RES_XML_RESOURCE_MAP 8 (concat (map (le_encode 4) ids)).
(** An attribute: namespace, name, type and data. *)
Definition ex_attribute (a : Z * Z * Z * Z) : bytes :=
  let '(ns, name, ty, data) := a in
  le_encode 4 ns ++ le_encode 4 name ++ le_encode 4 NO_INDEX ++ le_encode 2 8 ++ [b8 0] ++ [b8 ty] ++ le_encode 4 data.
Definition ex_start (name : Z) (l : list (Z * Z * Z * Z)) : bytes :=
  ex_chunk RES_XML_START_ELEMENT 16
    (le_encode 8 0 ++ le_encode 4 NO_INDEX ++ le_encode 4 name ++ le_encode 2 20 ++ le_encode 2 20 ++
     le_encode 2 (len l) ++ le_encode 6 0 ++ concat (map ex_attribute l)).
Definition ex_end (name : Z) : bytes :=
  ex_chunk RES_XML_END_ELEMENT 16 (le_encode 8 0 ++ le_encode 4 NO_INDEX ++ le_encode 4 name).

Definition ex_strings : list bytes :=
  [str "name"; str "exported"; str "package"; str "manifest"; str "application"; str "activity"; ANDROID_NS;
   str "a.b"; str ".AppPilotKitBootstrapActivity"; str "extra"].
Definition ex_activity : bytes := ex_start 5 [(6, 0, TYPE_STRING, 8); (6, 1, TYPE_INT_BOOLEAN, NO_INDEX)].
Definition ex_xml (body : bytes) : bytes :=
  ex_chunk RES_XML 8 (ex_pool ex_strings ++ ex_map [ANDROID_ATTR_NAME; ANDROID_ATTR_EXPORTED] ++
    ex_start 3 [(NO_INDEX, 2, TYPE_STRING, 7)] ++ body ++ ex_end 3).
Definition ex_manifest : bytes := ex_xml (ex_start 4 [] ++ ex_activity ++ ex_end 5 ++ ex_end 4).

(** The manifest, stored, and a second entry. *)
Definition ex_local (name data : bytes) : bytes :=
  le_encode 4 ZIP_LOCAL ++ le_encode 2 20 ++ le_encode 2 0 ++ le_encode 2 0 ++ le_encode 4 0 ++
  le_encode 4 (crc32 data) ++ le_encode 4 (len data) ++ le_encode 4 (len data) ++ le_encode 2 (len name) ++
  le_encode 2 0 ++ name ++ data.
Definition ex_central (name data : bytes) (offset : Z) : bytes :=
  le_encode 4 ZIP_CENTRAL ++ le_encode 2 20 ++ le_encode 2 20 ++ le_encode 2 0 ++ le_encode 2 0 ++ le_encode 4 0 ++
  le_encode 4 (crc32 data) ++ le_encode 4 (len data) ++ le_encode 4 (len data) ++ le_encode 2 (len name) ++
  le_encode 2 0 ++ le_encode 2 0 ++ le_encode 2 0 ++ le_encode 2 0 ++ le_encode 4 0 ++ le_encode 4 offset ++ name.
Definition ex_zip (manifest : bytes) : bytes :=
  let first := ex_local (str "classes.dex") (str "dex") in
  let front := first ++ ex_local MANIFEST_NAME manifest in
  let central := ex_central (str "classes.dex") (str "dex") 0 ++ ex_central MANIFEST_NAME manifest (len first) in
  front ++ central ++ le_encode 4 ZIP_EOCD ++ le_encode 4 0 ++ le_encode 2 2 ++ le_encode 2 2 ++
  le_encode 4 (len central) ++ le_encode 4 (len front) ++ le_encode 2 0.
Definition ex_apk : bytes := ex_zip ex_manifest.

Example ex_apk_passes : validate_apk_manifest (Some ex_apk) (str "a.b") = Some tt.
Proof. vm_compute. reflexivity. Qed.
Example ex_apk_other_package : validate_apk_manifest (Some ex_apk) (str "a.c") = None.
Proof. vm_compute. reflexivity. Qed.
(** Parents are compared by name: the application counts below any element called manifest. *)
Definition ex_nested : bytes :=
  ex_xml (ex_start 9 [] ++ ex_start 3 [] ++ ex_start 4 [] ++ ex_activity ++ ex_end 5 ++ ex_end 4 ++ ex_end 3 ++ ex_end 9).
Example ex_nested_passes : validate_apk_manifest (Some (ex_zip ex_nested)) (str "a.b") = Some tt.
Proof. vm_compute. reflexivity. Qed.

Lemma archive_exact_witness :
  extract_manifest ex_apk = Some ex_manifest /\
  exists p front raws es e, directory ex_apk p front raws /\ Forall2 record raws es /\
    List.filter is_manifest es = [e] /\ entry_limits e /\ local_entry ex_apk (len front) e ex_manifest.
Proof.
  assert (He : extract_manifest ex_apk = Some ex_manifest) by (vm_compute; reflexivity).
  split; [exact He|]. apply (archive_exact ex_apk ex_manifest); [vm_compute; discriminate|exact He].
Defined.
