(* ===== verification/Machine.v ===== *)
(** What the Android adapter asks of the machine it runs on: the clock, flags shared between
    threads, random bytes, files and sockets, and commands ([CommandRunner] of
    [android-emulator-adapter/src/process.rs]), with the helpers that module gives to the
    others.  Nothing is assumed of an operation but what its documentation says of its
    result. *)

From S2P Require Import Prelude Adapter.

(** The kinds of [io::Error] the code distinguishes. *)
Inductive IoErrorKind : Set :=
| ConnectionRefused | IoTimedOut | WouldBlock | AlreadyExists | UnexpectedEof | BrokenPipe
| ConnectionAborted | ConnectionReset | NotConnected | OtherKind.
#[export] Instance IoErrorKind_eq_dec : EqDecision IoErrorKind.
Proof. solve_decision. Defined.

Abbreviation IoRes := (result IoErrorKind).

(** [unix_ms] is the time since the Unix epoch, if it is past; a failed draw leaves its buffer
    in any state; [Flag] is an [Arc<AtomicBool>], of which a [Cancellation] consists, and
    [flag_swap] sets it; a failed [File] operation is [None] or [false].  A pipe is read by a
    thread of its own: [read_so_far] are the pieces it has read at some time, [read_to_end] all
    of them when it has ended, [None] if a read failed.  [try_wait] says whether the process
    has ended, and whether it succeeded. *)
Class Machine (W : Type) := {
  Flag : Type;
  FileHandle : Type;
  Socket : Type;
  Child : Type;
  Pipe : Type;
  unix_ms : W -> option Z * W;
  sleep_ms : Z -> W -> unit * W;
  flag_new : W -> Flag * W;
  flag_load : Flag -> W -> bool * W;
  flag_swap : Flag -> W -> bool * W;
  getrandom : Z -> W -> (bool * bytes) * W;
  process_id : W -> Z * W;
  temp_dir : W -> bytes * W;
  open_file : bytes -> W -> option FileHandle * W;
  file_metadata : FileHandle -> W -> option (bool * Z) * W;
  file_read : FileHandle -> Z -> W -> option bytes * W;
  create_file : bytes -> W -> option FileHandle * W;
  file_write_all : FileHandle -> bytes -> W -> bool * W;
  file_flush : FileHandle -> W -> bool * W;
  set_read_only : bytes -> W -> bool * W;
  file_bytes : bytes -> W -> option bytes * W;
  create_dir : bytes -> W -> IoRes unit * W;
  remove_file : bytes -> W -> bool * W;
  remove_dir : bytes -> W -> bool * W;
  connect_timeout : Z -> Z -> W -> IoRes Socket * W;
  set_nodelay : Socket -> W -> bool * W;
  try_clone : Socket -> W -> option Socket * W;
  set_read_timeout : Socket -> Z -> W -> bool * W;
  set_write_timeout : Socket -> Z -> W -> bool * W;
  socket_read : Socket -> bytes -> W -> (IoRes Z * bytes) * W;
  socket_write : Socket -> bytes -> W -> IoRes Z * W;
  socket_shutdown : Socket -> W -> unit * W;
  spawn : bytes -> list bytes -> W -> option Child * W;
  take_stdout : Child -> W -> option Pipe * W;
  take_stderr : Child -> W -> option Pipe * W;
  read_so_far : Pipe -> W -> list bytes * W;
  read_to_end : Pipe -> W -> option (list bytes) * W;
  try_wait : Child -> W -> option (option bool) * W;
  child_kill : Child -> W -> unit * W;
  child_wait : Child -> W -> unit * W;
  unix_ms_unsigned : forall w n, fst (unix_ms w) = Some n -> 0 <= n;
  getrandom_len : forall n w, 0 <= n -> len (snd (fst (getrandom n w))) = n;
  file_read_len : forall f n w b, 0 <= n -> fst (file_read f n w) = Some b -> len b <= n;
  socket_read_len : forall x b w, len (snd (fst (socket_read x b w))) = len b;
  socket_read_usize : forall x b w n, fst (fst (socket_read x b w)) = Ok n -> 0 <= n;
  socket_write_usize : forall x b w n, fst (socket_write x b w) = Ok n -> 0 <= n
}.

(** ** Commands *)

Record ProcessOutput := mkOutput { stdout : bytes; stderr : bytes }.

(** [CommandRunner::run]: the executable, the serial, the arguments. *)
Class CommandRunner (W : Type) `{Machine W} := {
  run_command : bytes -> bytes -> list bytes -> Flag -> AbsoluteDeadline -> W ->
    PRes ProcessOutput * W
}.

Section Host.
Context `{Machine W}.

(** What the theorems look back at; no definition reads it. *)
Inductive HostEvent : Type :=
| ECommand (arguments : list bytes) (cancellation : Flag) (deadline : AbsoluteDeadline)
    (answer : PRes ProcessOutput)
| ETime (ms : option Z)
| ECreateDir (path : bytes) (answer : IoRes unit)
| ECreateFile (path : bytes) (answer : option FileHandle)
| EWrite (file : FileHandle) (b : bytes) (answer : bool)
| EReadBack (path : bytes) (content : option bytes)
| ERemoveFile (path : bytes) (answer : bool)
| ERemoveDir (path : bytes) (answer : bool)
| ESpawn (executable : bytes) (arguments : list bytes) (answer : option Child)
| EPipe (pipe : Pipe) (pieces : option (list bytes))
| EExit (child : Child) (success : bool)
| EKill (child : Child)
| EWait (child : Child)
| EStdout (child : Child) (answer : option Pipe)
| EStderr (child : Child) (answer : option Pipe).

Record Host := mkHost { h_world : W; h_log : list HostEvent }.

Definition CM := M Host PlatformFailure.

Definition act {A} (f : W -> A * W) : CM A := fun s =>
  let '(a, w) := f (h_world s) in (Ok a, mkHost w (h_log s)).
Definition act_as {A} (event : A -> HostEvent) (f : W -> A * W) : CM A := fun s =>
  let '(a, w) := f (h_world s) in (Ok a, mkHost w (h_log s ++ [event a])).

Definition failure (kind : PlatformFailureKind) : PlatformFailure := PlatformFailure_new kind.

(** [ok_or_else(|| failure(kind))?]. *)
Definition or_fail {A} (kind : PlatformFailureKind) (o : option A) : CM A :=
  lift (res_of_option (failure kind) o).
(** [if !b { return Err(failure(kind)) }]. *)
Definition need (kind : PlatformFailureKind) (b : bool) : CM unit := lift (ensure b (failure kind)).

(** The outcome of a computation as a value. *)
Definition attempt {A} (m : CM A) : M Host PlatformFailure (PRes A) := fun s =>
  let '(r, s') := m s in (Ok r, s').

(** ** [process.rs] *)

Definition now_unix_ms : CM Z :=
  do o <- act_as ETime unix_ms;
  do now <- or_fail PlatformInternal o;
  run need PlatformInternal (now <=? U64_MAX);
  ret now.

Definition remaining (deadline : AbsoluteDeadline) : CM Z :=
  do now <- now_unix_ms;
  let millis := Z.max 0 (dl_value deadline - now) in
  run need TimedOut (negb (millis =? 0));
  ret millis.

Definition expired (deadline : AbsoluteDeadline) : CM bool :=
  do r <- attempt now_unix_ms;
  ret match r with Ok now => dl_value deadline <=? now | Err _ => true end.

Definition ensure_active (cancellation : Flag) (deadline : AbsoluteDeadline) : CM unit :=
  do cancelled <- act (flag_load cancellation);
  run need Cancelled (negb cancelled);
  do over <- expired deadline;
  need TimedOut (negb over).
End Host.

Arguments HostEvent W {_}.
Arguments Host W {_}.
Arguments CM W {_} _.
