(* ===== verification/Adb.v ===== *)
(** The [adb] client of [android-emulator-adapter/src/lib.rs]: what the adapter makes of the
    output of the tool, and the commands it runs.  A [&str] is its UTF-8 bytes. *)

From S2P Require Import Prelude Crates Control Adapter Axml Machine.

Implicit Types output line value : bytes.

Definition BOOTSTRAP_ACTIVITY : bytes := str "/.AppPilotKitBootstrapActivity".
Definition DESCRIPTOR_EXTRA : bytes := str "dev.apppilotkit.transport.DESCRIPTOR".

Definition NUL : byte := b8 0.
Definition LF : byte := b8 10.
Definition CR : byte := b8 13.
Definition SPACE : byte := b8 32.

(** ** Text *)

(** [str::strip_suffix], [ends_with] a character, [contains] a string. *)
Definition strip_suffix (suffix value : bytes) : option bytes :=
  let n := (length value - length suffix)%nat in
  if bytes_eqb (drop n value) suffix then Some (take n value) else None.
Definition ends_with (c : byte) value : bool := bool_decide (last value = Some c).
Fixpoint contains (needle value : bytes) : bool :=
  is_Some_b (strip_prefix needle value)
  || match value with [] => false | _ :: value => contains needle value end.
Definition contains_byte (c : byte) value : bool := existsb (fun b => bool_decide (b = c)) value.

(** The [Display] of an unsigned integer, of up to twenty digits. *)
Fixpoint digits (fuel : nat) (n : Z) : bytes :=
  match fuel with
  | O => []
  | S fuel => if n <? 10 then [b8 (48 + n)] else digits fuel (n / 10) ++ [b8 (48 + n mod 10)]
  end.
Definition decimal (n : Z) : bytes := digits 20 n.

(** The number that digits write, and [str::parse::<u16>], which allows a sign. *)
Definition number (ds : bytes) : Z := foldl (fun n d => n * 10 + (u8 d - 48)) 0 ds.
Definition parse_u16 value : option Z :=
  let ds := match value with
            | c :: rest => if (u8 c =? 43) && negb (is_empty rest) then rest else value
            | [] => value
            end in
  if is_empty ds || negb (forallb is_digit ds) || (65535 <? number ds) then None
  else Some (number ds).

Definition all_digits value : bool := negb (is_empty value) && forallb is_digit value.

(** ** Output *)

Definition strip_one_line_ending output : PRes bytes :=
  let value := match strip_suffix [CR; LF] output with
               | Some v => v
               | None => default output (strip_suffix [LF] output)
               end in
  check negb (ends_with CR value || contains_byte NUL value || ends_with LF value)
    else failure Rejected in
  Ok value.

Definition require_exact_line output (expected : bytes) : PRes unit :=
  let? line := strip_one_line_ending output in
  ensure (bytes_eqb line expected) (failure Rejected).

Definition safe_tool_field value : bool := negb (is_empty value) && forallb is_ascii_graphic value.

Definition normalize_forward_list output : PRes bytes :=
  match strip_suffix [LF; LF] output with
  | Some entries => check negb (ends_with LF entries) else failure Rejected in Ok entries
  | None => strip_one_line_ending output
  end.

Record ForwardEntry := mkForward { fe_serial : bytes; fe_local : bytes; fe_remote : bytes }.
#[export] Instance ForwardEntry_eq_dec : EqDecision ForwardEntry.
Proof. solve_decision. Defined.

Definition parse_forward_line line : PRes ForwardEntry :=
  let fields := split_on SPACE line in
  check negb (negb (len fields =? 3) || existsb is_empty fields) else failure Rejected in
  check negb (existsb (fun field => negb (safe_tool_field field)) fields) else failure Rejected in
  match fields with
  | [serial; local; remote] => Ok (mkForward serial local remote)
  | _ => Err (failure Rejected)
  end.

(** [collect] into a [Result]: the first error ends it. *)
Fixpoint collect {A B} (f : A -> PRes B) (l : list A) : PRes (list B) :=
  match l with
  | [] => Ok []
  | a :: l => let? b := f a in let? bs := collect f l in Ok (b :: bs)
  end.

Definition parse_forward_list output : PRes (list ForwardEntry) :=
  let? normalized := normalize_forward_list output in
  if is_empty normalized then Ok [] else collect parse_forward_line (split_on LF normalized).

Definition parse_port output : PRes Z :=
  let? line := strip_one_line_ending output in
  check all_digits line else failure Rejected in
  let? port := res_of_option (failure Rejected) (parse_u16 line) in
  check negb (port =? 0) else failure Rejected in
  Ok port.

Definition parse_local_port (local : bytes) : PRes Z :=
  let? port := res_of_option (failure PlatformCleanupFailed) (strip_prefix (str "tcp:") local) in
  let? port := res_of_option (failure PlatformCleanupFailed) (parse_u16 port) in
  check negb (port =? 0) else failure PlatformCleanupFailed in
  Ok port.

Definition parse_install output : PRes unit :=
  let? value := strip_one_line_ending output in
  ensure (existsb (bytes_eqb value)
            [str "Success"; str "Performing Streamed Install" ++ [LF] ++ str "Success";
             str "Performing Push Install" ++ [LF] ++ str "Success";
             str "Performing Incremental Install" ++ [LF] ++ str "Success"])
    (failure Rejected).

Definition numeric_field line (prefix : bytes) : bool :=
  match strip_prefix prefix line with Some value => all_digits value | None => false end.

Definition unknown_launch_state line : bool :=
  match (v ← strip_prefix (str "LaunchState: UNKNOWN (") line; strip_suffix (str ")") v) with
  | Some value => all_digits value
  | None => false
  end.

(** The counters of [parse_start]. *)
Record StartLines := mkLines { n_status : Z; n_activity : Z; n_complete : Z; n_launch_state : Z }.

Definition is_prefix (p line : bytes) : bool := is_Some_b (strip_prefix p line).

Definition start_line (component : bytes) (n : StartLines) line : PRes StartLines :=
  let '(mkLines status activity complete launch_state) := n in
  if bytes_eqb line (str "Status: ok") then Ok (mkLines (status + 1) activity complete launch_state)
  else if bytes_eqb line (str "Activity: " ++ component)
  then Ok (mkLines status (activity + 1) complete launch_state)
  else if bytes_eqb line (str "Complete")
  then Ok (mkLines status activity (complete + 1) launch_state)
  else if bytes_eqb line (str "LaunchState: COLD") || unknown_launch_state line
  then Ok (mkLines status activity complete (launch_state + 1))
  else if is_prefix (str "Stopping: ") line || is_prefix (str "Starting: Intent { ") line
          || numeric_field line (str "TotalTime: ") || numeric_field line (str "WaitTime: ")
          || numeric_field line (str "ThisTime: ")
  then Ok n
  else Err (failure Rejected).

Fixpoint start_lines (component : bytes) (n : StartLines) (lines : list bytes) : PRes StartLines :=
  match lines with
  | [] => Ok n
  | line :: lines => let? n := start_line component n line in start_lines component n lines
  end.

Definition parse_start output (component : bytes) : PRes unit :=
  let? value := strip_one_line_ending output in
  let? n := start_lines component (mkLines 0 0 0 0) (split_on LF value) in
  ensure ((n_status n =? 1) && (n_activity n =? 1) && (n_complete n =? 1) && (n_launch_state n =? 1))
    (failure Rejected).

Definition benign_stderr (stderr : bytes) : bool :=
  is_empty stderr
  || bytes_eqb stderr (str "* daemon not running; starting now at tcp:5037" ++ [LF] ++
                       str "* daemon started successfully" ++ [LF]).

(** ** The client *)

(** What [AdbClient::run] makes of the output. *)
Definition adb_output (output : ProcessOutput) : PRes bytes :=
  check benign_stderr (stderr output) else failure Rejected in
  check valid_utf8 (stdout output) else failure Rejected in
  Ok (stdout output).

Record AdbClient := mkClient { executable : bytes; client_serial : bytes }.

Section Client.
Context `{CommandRunner W}.

Implicit Types (c : AdbClient) (cancellation : Flag) (deadline : AbsoluteDeadline).

Definition adb_run c (arguments : list bytes) cancellation deadline : CM W bytes :=
  do r <- act_as (ECommand arguments cancellation deadline)
            (run_command (executable c) (client_serial c) arguments cancellation deadline);
  lift (let? output := r in adb_output output).

Definition probe c cancellation deadline : CM W unit :=
  do output <- adb_run c [str "help"] cancellation deadline;
  need Rejected (contains (str "tcp:0") output && contains (str "localabstract:") output).

Definition require_online c cancellation deadline : CM W unit :=
  do output <- adb_run c [str "get-state"] cancellation deadline;
  lift (require_exact_line output (str "device")).

Definition install_arguments (artifact : bytes) : list bytes :=
  [str "install"; str "-r"; str "-t"; artifact].
Definition install c (artifact : bytes) cancellation deadline : CM W unit :=
  do output <- adb_run c (install_arguments artifact) cancellation deadline;
  lift (parse_install output).

Definition start_arguments (component descriptor : bytes) : list bytes :=
  [str "shell"; str "am"; str "start"; str "-W"; str "-S"; str "-n"; component; str "--es";
   DESCRIPTOR_EXTRA; descriptor].
Definition start c (component descriptor : bytes) cancellation deadline : CM W unit :=
  do output <- adb_run c (start_arguments component descriptor) cancellation deadline;
  lift (parse_start output component).

Definition stop_arguments (package : bytes) : list bytes :=
  [str "shell"; str "am"; str "force-stop"; package].
Definition force_stop c (package : bytes) deadline : CM W unit :=
  do cancellation <- act flag_new;
  do output <- adb_run c (stop_arguments package) cancellation deadline;
  lift (require_exact_line output []).

Definition remote_of (localabstract : bytes) : bytes := str "localabstract:" ++ localabstract.
Definition local_of (port : Z) : bytes := str "tcp:" ++ decimal port.

Definition create_forward c (localabstract : bytes) cancellation deadline : CM W Z :=
  do output <- adb_run c [str "forward"; str "tcp:0"; remote_of localabstract] cancellation deadline;
  lift (parse_port output).

Definition forward_list c cancellation deadline : CM W (list ForwardEntry) :=
  do output <- adb_run c [str "forward"; str "--list"] cancellation deadline;
  lift (parse_forward_list output).

(** The entries of the client's serial with a local end, with a remote end. *)
Definition with_local c (local : bytes) (entries : list ForwardEntry) : list ForwardEntry :=
  List.filter (fun e => bytes_eqb (fe_serial e) (client_serial c) && bytes_eqb (fe_local e) local) entries.
Definition with_remote c (remote : bytes) (entries : list ForwardEntry) : list ForwardEntry :=
  List.filter (fun e => bytes_eqb (fe_serial e) (client_serial c) && bytes_eqb (fe_remote e) remote) entries.

Definition require_exact_forward c (port : Z) (localabstract : bytes) cancellation deadline
    : CM W unit :=
  do entries <- forward_list c cancellation deadline;
  need Rejected match with_local c (local_of port) entries with
                | [e] => bytes_eqb (fe_remote e) (remote_of localabstract)
                | _ => false
                end.

Definition require_remote_absent c (localabstract : bytes) cancellation deadline : CM W unit :=
  do entries <- forward_list c cancellation deadline;
  need Rejected (is_empty (with_remote c (remote_of localabstract) entries)).

Definition remove_exact_with_cancellation c (port : Z) (localabstract : bytes) cancellation deadline
    : CM W unit :=
  do entries <- forward_list c cancellation deadline;
  let local := local_of port in
  match with_local c local entries with
  | [] => ret tt
  | [e] =>
      run need PlatformCleanupFailed (bytes_eqb (fe_remote e) (remote_of localabstract));
      do output <- adb_run c [str "forward"; str "--remove"; local] cancellation deadline;
      run lift (require_exact_line output []);
      do after <- forward_list c cancellation deadline;
      need PlatformCleanupFailed (is_empty (with_local c local after))
  | _ => throw (failure PlatformCleanupFailed)
  end.

Definition remove_exact c (port : Z) (localabstract : bytes) deadline : CM W unit :=
  do cancellation <- act flag_new;
  remove_exact_with_cancellation c port localabstract cancellation deadline.

Definition remove_by_remote c (localabstract : bytes) deadline : CM W unit :=
  do cancellation <- act flag_new;
  do entries <- forward_list c cancellation deadline;
  match with_remote c (remote_of localabstract) entries with
  | [] => ret tt
  | first :: rest =>
      do port <- lift (parse_local_port (fe_local first));
      run need PlatformCleanupFailed (is_empty rest);
      remove_exact c port localabstract deadline
  end.
End Client.
