(* ===== verification/Loopback.v ===== *)
(** The raw streams of the Android adapter ([android-emulator-adapter/src/raw.rs]): connecting
    to a forwarded port, reading, writing and cancelling. *)

From S2P Require Import Prelude Adapter Machine.

Definition CONNECT_RETRY : Z := 5.

(** The mutexes around the streams are taken by one call at a time and nothing panics under
    them, so that they are not poisoned. *)
Record LoopbackRaw `{Machine W} := mkLoopback {
  lb_read : Socket;
  lb_write : Socket;
  lb_control : Socket;
  lb_cancelled : Flag
}.

Definition map_io (error : IoErrorKind) : PlatformFailure :=
  match error with
  | IoTimedOut | WouldBlock => failure TimedOut
  | UnexpectedEof | BrokenPipe | ConnectionAborted | ConnectionReset | NotConnected => failure Eof
  | _ => failure Unavailable
  end.

Section Loopback.
Context `{Machine W}.

Definition LoopbackRaw_new (stream : Socket) : CM W LoopbackRaw :=
  do ok <- act (set_nodelay stream);
  run need PlatformInternal ok;
  do read <- act (try_clone stream);
  do read <- or_fail PlatformInternal read;
  do write <- act (try_clone stream);
  do write <- or_fail PlatformInternal write;
  do cancelled <- act flag_new;
  ret (mkLoopback _ _ read write stream cancelled).

Definition connect_turn (port : Z) (cancellation : Flag) (deadline : AbsoluteDeadline)
    : CM W (option LoopbackRaw) :=
  run ensure_active cancellation deadline;
  do left <- remaining deadline;
  do r <- act (connect_timeout port (Z.min left 50));
  match r with
  | Ok stream => do raw <- LoopbackRaw_new stream; ret (Some raw)
  | Err (ConnectionRefused | IoTimedOut | WouldBlock) =>
      do left <- remaining deadline;
      run act (sleep_ms (Z.min CONNECT_RETRY left));
      ret None
  | Err _ => throw (failure Unavailable)
  end.

(** A turn that goes on sleeps for a millisecond at least, and the deadline is a word
    ([waits_end]). *)
Definition CONNECT_TURNS : positive := 2 ^ 64 + 1.
Definition connect (port : Z) (cancellation : Flag) (deadline : AbsoluteDeadline)
    : CM W LoopbackRaw :=
  loop_ CONNECT_TURNS (failure PlatformInternal) (connect_turn port cancellation deadline).

Definition lb_check (raw : LoopbackRaw) (deadline : AbsoluteDeadline) : CM W Z :=
  do cancelled <- act (flag_load (lb_cancelled raw));
  run need Cancelled (negb cancelled);
  remaining deadline.

(** The buffer is the caller's: it comes back in every case. *)
Definition lb_read_into (raw : LoopbackRaw) (output : bytes) (deadline : AbsoluteDeadline)
    : Host W -> (PRes Z * bytes) * Host W := fun s =>
  match (do timeout <- lb_check raw deadline;
         do ok <- act (set_read_timeout (lb_read raw) timeout);
         need PlatformInternal ok) s with
  | (Ok _, s') =>
      let '(r, output', w) := socket_read (lb_read raw) output (h_world s') in
      (res_map_err map_io r, output', mkHost w (h_log s'))
  | (Err e, s') => (Err e, output, s')
  end.

Definition lb_write_from (raw : LoopbackRaw) (input : bytes) (deadline : AbsoluteDeadline) : CM W Z :=
  do timeout <- lb_check raw deadline;
  do ok <- act (set_write_timeout (lb_write raw) timeout);
  run need PlatformInternal ok;
  do r <- act (socket_write (lb_write raw) input);
  lift (res_map_err map_io r).

Definition lb_cancel (raw : LoopbackRaw) : CM W unit :=
  do cancelled <- act (flag_swap (lb_cancelled raw));
  if (cancelled : bool) then ret tt else act (socket_shutdown (lb_control raw)).
End Loopback.
