(* ===== verification/Android.v ===== *)
(** The Android emulator adapter ([android-emulator-adapter/src/lib.rs]): the snapshot of the
    artifact that is installed, the launch of the bootstrap activity with its rollback, and
    the receipt that removes the port forwarding. *)

From S2P Require Import Prelude Crates Control Adapter Apk Axml Machine Adb Loopback.

Definition LOCALABSTRACT_PREFIX : bytes := str "apppilotkit-android-".
Definition DESCRIPTOR_LIMIT : Z := 4 * 1024.
Definition ARTIFACT_LIMIT : Z := 1024 * 1024 * 1024.
Definition FORWARD_ROLLBACK_MS : Z := 2000.

(** ** What a selection may be *)

Definition starts_with (c : byte) (value : bytes) : bool := bool_decide (head value = Some c).

Definition android_emulator_serial (value : bytes) : bool :=
  (1 <=? len value) && (len value <=? 255)
  && match strip_prefix (str "emulator-") value with Some port => all_digits port | None => false end.

Definition is_ascii_alphabetic (b : byte) : bool := is_lower b || is_upper b.

Definition package_segment (segment : bytes) : bool :=
  match head segment with Some b => is_ascii_alphabetic b | None => false end
  && forallb (fun b => is_alphanumeric b || (u8 b =? 95)) segment.

Definition android_package (value : bytes) : bool :=
  if negb ((3 <=? len value) && (len value <=? 255)) || starts_with DOT value || ends_with DOT value
  then false
  else forallb package_segment (split_on DOT value).

Definition is_absolute (path : bytes) : bool := starts_with (b8 47) path.

Definition validate_selection (selection : TargetSelection) (adb_path : bytes)
    (deadline : AbsoluteDeadline) : PRes unit :=
  check negb (negb (match ts_platform selection with AndroidEmulator => true | _ => false end)
              || negb (android_emulator_serial (ts_device_selector selection))
              || negb (android_package (ts_app_id selection))
              || is_empty adb_path || negb (is_absolute (ts_artifact_path selection))
              || (dl_value deadline =? 0)) else failure Rejected in
  Ok tt.

Definition hex_digit (n : Z) : byte := b8 (if n <? 10 then 48 + n else 87 + n).
Definition hex (l : bytes) : bytes :=
  concat (map (fun b => [hex_digit (u8 b / 16); hex_digit (u8 b mod 16)]) l).

(** [Path::join] of a relative path. *)
Definition path_join (base name : bytes) : bytes :=
  base ++ (if is_empty base || ends_with (b8 47) base then [] else [b8 47]) ++ name.

(** ** The snapshot of the artifact *)

Record ArtifactSnapshot := mkSnapshot { snap_directory : bytes; snap_path : bytes }.

Section Snapshot.
Context `{Machine W} `{Zlib} `{Sha2}.

Implicit Types (cancellation : Flag) (deadline : AbsoluteDeadline).

Definition cleanup_snapshot (directory path : bytes) : CM W bool :=
  do file <- act_as (ERemoveFile path) (remove_file path);
  do removed <- act_as (ERemoveDir directory) (remove_dir directory);
  ret ((file : bool) && (removed : bool)).

Fixpoint snapshot_directory (tries : nat) cancellation deadline : CM W bytes :=
  match tries with
  | O => throw (failure Rejected)
  | S tries =>
      run ensure_active cancellation deadline;
      do r <- act (getrandom 16);
      let '(filled, random) := r : bool * bytes in
      run need PlatformInternal filled;
      do temp <- act temp_dir;
      do id <- act process_id;
      let directory := path_join temp (str "apppilotkit-android-adapter-" ++ decimal id ++ str "-"
                                       ++ hex random) in
      do r <- act_as (ECreateDir directory) (create_dir directory);
      match r with
      | Ok _ => ret directory
      | Err AlreadyExists => snapshot_directory tries cancellation deadline
      | Err _ => throw (failure Rejected)
      end
  end.
Definition create_snapshot_directory := snapshot_directory 4.

(** The state of the loop: the bytes so far, which the digest has taken, and the machine. *)
Definition copy_turn (source destination : FileHandle) (length : Z) (expected : bytes)
    cancellation deadline : M (bytes * Host W) PlatformFailure (option unit) := fun '(data, s) =>
  match (run ensure_active cancellation deadline;
         do r <- act (file_read source (64 * 1024));
         do chunk <- or_fail Rejected r;
         if is_empty chunk then
           run ensure_active cancellation deadline;
           run need Rejected ((len data =? length) && bytes_eqb (sha256 data) expected);
           ret None
         else
           do total <- or_fail Rejected (checked_add (len data) (len chunk));
           run need Rejected (total <=? ARTIFACT_LIMIT);
           do written <- act_as (EWrite destination chunk) (file_write_all destination chunk);
           run need Rejected written;
           ret (Some chunk)) s with
  | (Ok (Some chunk), s') => (Ok None, (data ++ chunk, s'))
  | (Ok None, s') => (Ok (Some tt), (data, s'))
  | (Err e, s') => (Err e, (data, s'))
  end.

(** A turn that goes on adds a byte, within the limit ([waits_end]). *)
Definition COPY_TURNS : positive := 2 ^ 30 + 2.
Definition copy_verified (source destination : FileHandle) (length : Z) (expected : bytes)
    cancellation deadline : CM W unit := fun s =>
  let '(r, (_, s')) := loop_ COPY_TURNS (failure PlatformInternal)
                         (copy_turn source destination length expected cancellation deadline) ([], s) in
  (r, s').

Definition validate_path (path expected_package : bytes) : CM W unit :=
  do content <- act_as (EReadBack path) (file_bytes path);
  need Rejected (is_Some_b (validate_apk_manifest content expected_package)).

(** The copy, from the open destination on, and the check of what was copied. *)
Definition fill_snapshot (source destination : FileHandle) (path : bytes) (length : Z)
    (expected expected_package : bytes) cancellation deadline : CM W unit :=
  run copy_verified source destination length expected cancellation deadline;
  do flushed <- act (file_flush destination);
  run need Rejected flushed;
  do closed <- act (set_read_only path);
  run need Rejected closed;
  validate_path path expected_package.

Definition snapshot_create (source_path expected expected_package : bytes) cancellation deadline
    : CM W ArtifactSnapshot :=
  run ensure_active cancellation deadline;
  do source <- act (open_file source_path);
  do source <- or_fail Rejected source;
  do metadata <- act (file_metadata source);
  do metadata <- or_fail Rejected metadata;
  let '(is_file, length) := metadata : bool * Z in
  run need Rejected (negb (negb is_file || (length =? 0) || (ARTIFACT_LIMIT <? length)));
  do directory <- create_snapshot_directory cancellation deadline;
  let path := path_join directory (str "selected.apk") in
  do destination <- act_as (ECreateFile path) (create_file path);
  match destination with
  | None =>
      do removed <- act_as (ERemoveDir directory) (remove_dir directory);
      throw (failure (if (removed : bool) then Rejected else PlatformCleanupFailed))
  | Some destination =>
      do verified <- attempt (fill_snapshot source destination path length expected expected_package
                                cancellation deadline);
      match verified with
      | Err original =>
          do cleaned <- cleanup_snapshot directory path;
          throw (if (cleaned : bool) then original else failure PlatformCleanupFailed)
      | Ok _ => ret (mkSnapshot directory path)
      end
  end.

Definition snapshot_cleanup (snapshot : ArtifactSnapshot) : CM W unit :=
  do cleaned <- cleanup_snapshot (snap_directory snapshot) (snap_path snapshot);
  need PlatformCleanupFailed cleaned.
End Snapshot.

(** ** The launch *)

Record AndroidEmulatorAdapter := mkAndroid { adb_path : bytes }.

Record AndroidPendingLaunch := mkPending {
  pl_adb_path : bytes;
  pl_serial : bytes;
  pl_package : bytes;
  pl_artifact : bytes;
  pl_artifact_digest : bytes;
  pl_localabstract : bytes;
  pl_endpoint : LaunchEndpoint;
  pl_validation : option PlatformFailureKind
}.

(** [AndroidCleanup] with its client. *)
Record AndroidCleanup := mkCleanup { ac_client : AdbClient; ac_localabstract : bytes; ac_port : Z }.

Record AndroidIo `{Machine W} := mkAndroidIo {
  ai_bootstrap : LoopbackRaw;
  ai_connector : Z;
  ai_cleanup : AndroidCleanup
}.

Section Launch.
Context `{CommandRunner W} `{Zlib} `{Sha2} `{Base64}.

Implicit Types (cancellation : Flag) (deadline : AbsoluteDeadline) (c : AdbClient).

(** The name, and the failure of the draw. *)
Definition random_localabstract (w : W) : (bytes * option PlatformFailure) * W :=
  let '(filled, random, w) := getrandom 16 w in
  ((LOCALABSTRACT_PREFIX ++ hex random, if filled then None else Some (failure PlatformInternal)), w).

(** The endpoint is valid ([endpoint_valid]), so that the [unwrap_or_else] gives it. *)
Definition begin_launch_android (adapter : AndroidEmulatorAdapter) (selection : TargetSelection)
    deadline (s : Host W) : AndroidPendingLaunch * Host W :=
  let '(localabstract, random_failure, w) := random_localabstract (h_world s) in
  let validation :=
    match validate_selection selection (adb_path adapter) deadline with
    | Ok _ => random_failure
    | Err f => Some f
    end in
  (mkPending (adb_path adapter) (ts_device_selector selection) (ts_app_id selection)
     (ts_artifact_path selection) (ts_artifact_digest selection) localabstract
     match android_local_abstract localabstract with
     | Ok endpoint => endpoint
     | Err _ => AndroidLocalAbstract localabstract
     end (pf_kind <$> validation), mkHost w (h_log s)).

Definition rollback_deadline : CM W AbsoluteDeadline :=
  do o <- act_as ETime unix_ms;
  do now <- or_fail PlatformCleanupFailed o;
  run need PlatformCleanupFailed (now <=? U64_MAX);
  lift (res_map_err (fun _ => failure PlatformCleanupFailed)
          (AbsoluteDeadline_new (Z.min (now + FORWARD_ROLLBACK_MS) U64_MAX))).

(** The error is always an error: [Err(result)]. *)
Definition rollback_after {A} (original : PlatformFailure) (rollback : CM W unit) : CM W A :=
  do r <- attempt rollback;
  throw match r with
        | Ok _ => original
        | Err _ => cleanup_failed_after (primary_kind original)
        end.

Definition rollback_after_started {A} (original : PlatformFailure) c (package : bytes)
    (remove_forward : AbsoluteDeadline -> CM W unit) : CM W A :=
  rollback_after original
    (do cleanup_deadline <- rollback_deadline;
     do forward <- attempt (remove_forward cleanup_deadline);
     do stopped <- attempt (force_stop c package cleanup_deadline);
     lift (let? _ := forward in stopped)).

(** [match m { Ok(a) => a, Err(original) => return rollback(original) }]. *)
Definition or_rollback {A} (m : CM W A) (rollback : PlatformFailure -> CM W A) : CM W A :=
  do r <- attempt m;
  match r with Ok a => ret a | Err original => rollback original end.

(** From the confirmed start on. *)
Definition connect_started (p : AndroidPendingLaunch) c cancellation deadline : CM W AndroidIo :=
  let package := pl_package p in
  let name := pl_localabstract p in
  run or_rollback (require_remote_absent c name cancellation deadline)
        (fun original => rollback_after_started original c package (fun _ => ret tt));
  do port <- or_rollback (create_forward c name cancellation deadline)
        (fun original => rollback_after_started original c package (fun d => remove_by_remote c name d));
  run or_rollback (require_exact_forward c port name cancellation deadline)
        (fun original => rollback_after_started original c package (fun d => remove_exact c port name d));
  do bootstrap <- or_rollback (connect port cancellation deadline)
        (fun original => rollback_after_started original c package (fun d => remove_exact c port name d));
  ret (mkAndroidIo _ _ bootstrap port (mkCleanup c name port)).

Definition launch_android (p : AndroidPendingLaunch) (descriptor : bytes) cancellation deadline
    : CM W AndroidIo :=
  run match pl_validation p with Some kind => throw (failure kind) | None => ret tt end;
  run ensure_active cancellation deadline;
  run need Rejected (len descriptor <=? DESCRIPTOR_LIMIT);
  let c := mkClient (pl_adb_path p) (pl_serial p) in
  do snapshot <- snapshot_create (pl_artifact p) (pl_artifact_digest p) (pl_package p)
                   cancellation deadline;
  do installed <- attempt (run probe c cancellation deadline;
                           run require_online c cancellation deadline;
                           install c (snap_path snapshot) cancellation deadline);
  do cleaned <- attempt (snapshot_cleanup snapshot);
  run need PlatformCleanupFailed (is_ok cleaned);
  run lift installed;
  let component := pl_package p ++ BOOTSTRAP_ACTIVITY in
  run start c component (b64_encode descriptor) cancellation deadline;
  connect_started p c cancellation deadline.

Definition abort_android (p : AndroidPendingLaunch) cancellation deadline : CM W unit := ret tt.

Definition cleanup_android (receipt : AndroidCleanup) cancellation deadline : CM W unit := fun s =>
  let '(r, s') := remove_exact_with_cancellation (ac_client receipt) (ac_port receipt)
                    (ac_localabstract receipt) cancellation deadline s in
  (res_map_err (fun _ => failure PlatformCleanupFailed) r, s').
End Launch.
