(* ===== verification/Commands.v ===== *)
(** [SystemCommandRunner] of [android-emulator-adapter/src/process.rs]: a command as a child
    process whose output is read by two threads while it is polled. *)

From S2P Require Import Prelude Adapter Machine.

Definition OUTPUT_LIMIT : Z := 64 * 1024.
Definition POLL_INTERVAL : Z := 2.

(** The thread of [spawn_reader] on the pieces it reads: the output it keeps, and the flag
    [oversized] as far as it sets it. *)
Definition read_piece (r : bytes * bool) (chunk : bytes) : bytes * bool :=
  let '(output, oversized) := r in
  if OUTPUT_LIMIT <? len output + len chunk then (output, true) else (output ++ chunk, oversized).
Definition read_pieces (pieces : list bytes) : bytes * bool := foldl read_piece ([], false) pieces.

Section Commands.
Context `{Machine W}.

(** [join_reader], with the flag the thread leaves. *)
Definition join_reader (pipe : Pipe) : CM W (bytes * bool) :=
  do pieces <- act_as (EPipe pipe) (read_to_end pipe);
  do pieces <- or_fail PlatformInternal pieces;
  ret (read_pieces pieces).

Definition terminate (child : Child) : CM W unit :=
  run act_as (fun _ => EKill child) (child_kill child);
  act_as (fun _ => EWait child) (child_wait child).

(** [terminate], both joins, then the error. *)
Definition bail_out {A} (child : Child) (out err : Pipe) (kind : PlatformFailureKind) : CM W A :=
  run terminate child;
  run join_reader out;
  run join_reader err;
  throw (failure kind).

(** [oversized.load]: what the threads have set it to by now. *)
Definition oversized_so_far (out err : Pipe) : CM W bool :=
  do o <- act (read_so_far out);
  do e <- act (read_so_far err);
  ret (snd (read_pieces o) || snd (read_pieces e)).

Definition poll_turn (child : Child) (out err : Pipe) (cancellation : Flag)
    (deadline : AbsoluteDeadline) : CM W (option bool) :=
  do cancelled <- act (flag_load cancellation);
  if (cancelled : bool) then bail_out child out err Cancelled
  else
    do over <- expired deadline;
    if (over : bool) then bail_out child out err TimedOut
    else
      do oversized <- oversized_so_far out err;
      if (oversized : bool) then bail_out child out err Rejected
      else
        do status <- act (try_wait child);
        match status with
        | Some (Some success) =>
            fun s => (Ok (Some success), mkHost (h_world s) (h_log s ++ [EExit child success]))
        | Some None => run act (sleep_ms POLL_INTERVAL); ret None
        | None => bail_out child out err PlatformInternal
        end.

(** A turn that goes on sleeps, and the deadline is a word ([waits_end]). *)
Definition POLL_TURNS : positive := 2 ^ 64 + 1.

Definition system_run (executable serial : bytes) (arguments : list bytes) (cancellation : Flag)
    (deadline : AbsoluteDeadline) : CM W ProcessOutput :=
  run ensure_active cancellation deadline;
  let arguments := [str "-s"; serial] ++ arguments in
  do child <- act_as (ESpawn executable arguments) (spawn executable arguments);
  do child <- or_fail Unavailable child;
  do out <- act_as (EStdout child) (take_stdout child);
  do out <- or_fail PlatformInternal out;
  do err <- act_as (EStderr child) (take_stderr child);
  do err <- or_fail PlatformInternal err;
  do status <- loop_ POLL_TURNS (failure PlatformInternal)
                 (poll_turn child out err cancellation deadline);
  do o <- join_reader out;
  do e <- join_reader err;
  let '(out_bytes, out_oversized) := o : bytes * bool in
  let '(err_bytes, err_oversized) := e : bytes * bool in
  run need Rejected (negb (out_oversized || err_oversized));
  run need Unavailable status;
  ret (mkOutput out_bytes err_bytes).
End Commands.

(** The runner of the adapter: the events inside a command are its own. *)
#[export] Instance SystemCommandRunner `{Machine W} : CommandRunner W :=
  {| run_command executable serial arguments cancellation deadline w :=
       let '(r, s) := system_run executable serial arguments cancellation deadline (mkHost w []) in
       (r, h_world s) |}.
