(* ===== verification/Traces.v ===== *)
(** What a computation of the Android adapter does to its machine: the events it adds to the
    history, with the rules that compose them. *)

From S2P Require Import Prelude Crates Control Adapter Machine Adb.

Section Traces.
Context `{Machine W}.

(** [traces m P]: from every state [m] adds events [es] and ends with [r] so that [P r es]. *)
Definition traces {A} (m : CM W A) (P : PRes A -> list (HostEvent W) -> Prop) : Prop :=
  forall s, exists es, h_log (snd (m s)) = h_log s ++ es /\ P (fst (m s)) es.

Lemma traces_mono {A} (m : CM W A) (P Q : PRes A -> list (HostEvent W) -> Prop) :
  traces m P -> (forall r es, P r es -> Q r es) -> traces m Q.
Proof. intros Hm Hpq s. destruct (Hm s) as (es & He & Hp). eauto. Qed.

Lemma traces_bind {A B} (m : CM W A) (k : A -> CM W B) P Q :
  traces m P -> (forall a, traces (k a) (Q a)) ->
  traces (mbind_M m k) (fun r es =>
    (exists e, r = Err e /\ P (Err e) es) \/
    exists a es1 es2, es = es1 ++ es2 /\ P (Ok a) es1 /\ Q a r es2).
Proof.
  intros Hm Hk s. unfold mbind_M. destruct (Hm s) as (es1 & He1 & Hp1).
  destruct (m s) as [[a|e] s1]; cbn in *; [|eauto 6].
  destruct (Hk a s1) as (es2 & He2 & Hq2). exists (es1 ++ es2).
  rewrite He2, He1, app_assoc. split; [done|]. right. eauto 6.
Qed.

(** A continuation that may use what the first part did. *)
Lemma traces_then {A B} (m : CM W A) (k : A -> CM W B) P R :
  traces m P -> (forall e es, P (Err e) es -> R (Err e) es) ->
  (forall a es1, P (Ok a) es1 -> traces (k a) (fun r es2 => R r (es1 ++ es2))) ->
  traces (mbind_M m k) R.
Proof.
  intros Hm He Hk s. unfold mbind_M. destruct (Hm s) as (es1 & He1 & Hp1).
  destruct (m s) as [[a|e] s1]; cbn in *; [|eauto].
  destruct (Hk a es1 Hp1 s1) as (es2 & He2 & Hr). exists (es1 ++ es2).
  rewrite He2, He1, app_assoc. by split.
Qed.

Lemma traces_lift {A} (r : PRes A) : traces (lift r) (fun r' es => r' = r /\ es = []).
Proof. intros s. exists []. by rewrite app_nil_r. Qed.
Lemma traces_ret {A} (a : A) : traces (ret a) (fun r es => r = Ok a /\ es = []).
Proof. apply traces_lift. Qed.
Lemma traces_throw {A} (e : PlatformFailure) : traces (throw e : CM W A) (fun r es => r = Err e /\ es = []).
Proof. apply traces_lift. Qed.
Lemma traces_need kind b :
  traces (need kind b) (fun r es => es = [] /\ r = if (b : bool) then Ok tt else Err (failure kind)).
Proof. intros s. exists []. by rewrite app_nil_r. Qed.
Lemma traces_or_fail {A} kind (o : option A) :
  traces (or_fail kind o) (fun r es => es = [] /\ match o with Some a => r = Ok a | None => r = Err (failure kind) end).
Proof. intros s. exists []. rewrite app_nil_r. by destruct o. Qed.
Lemma traces_act {A} (f : W -> A * W) : traces (act f) (fun r es => es = [] /\ is_ok r = true).
Proof. intros s. exists []. unfold act. destruct (f (h_world s)). cbn. by rewrite app_nil_r. Qed.
Lemma traces_act_as {A} (event : A -> HostEvent W) (f : W -> A * W) :
  traces (act_as event f) (fun r es => exists a, r = Ok a /\ es = [event a]).
Proof. intros s. unfold act_as. destruct (f (h_world s)) as [a w]. cbn. eauto. Qed.
Lemma traces_attempt {A} (m : CM W A) P :
  traces m P -> traces (attempt m) (fun r es => exists r', r = Ok r' /\ P r' es).
Proof.
  intros Hm s. unfold attempt. destruct (Hm s) as (es & He & Hp). destruct (m s) as [r s']. cbn in *. eauto.
Qed.

(** ** Computations of which every event is of a kind *)

Definition only {A} (K : HostEvent W -> Prop) (m : CM W A) : Prop := traces m (fun _ => Forall K).

Lemma only_mono {A} (K L : HostEvent W -> Prop) (m : CM W A) :
  (forall e, K e -> L e) -> only K m -> only L m.
Proof. intros Hkl Hm. eapply traces_mono; [done|]. intros r es Hf. exact (Forall_impl K L es Hf Hkl). Qed.
Lemma only_bind {A B} K (m : CM W A) (k : A -> CM W B) :
  only K m -> (forall a, only K (k a)) -> only K (mbind_M m k).
Proof.
  intros Hm Hk. eapply traces_then; [apply Hm|done|]. intros a es1 H1.
  eapply traces_mono; [apply Hk|]. intros r es2 H2. by apply Forall_app.
Qed.
Lemma only_lift {A} K (r : PRes A) : only K (lift r).
Proof. eapply traces_mono; [apply traces_lift|]. by intros ? ? [_ ->]. Qed.
Lemma only_ret {A} K (a : A) : only K (ret a).
Proof. apply only_lift. Qed.
Lemma only_throw {A} K (e : PlatformFailure) : only K (throw e : CM W A).
Proof. apply only_lift. Qed.
Lemma only_need K kind b : only K (need kind b).
Proof. apply only_lift. Qed.
Lemma only_or_fail {A} K kind (o : option A) : only K (or_fail kind o).
Proof. apply only_lift. Qed.
Lemma only_act {A} K (f : W -> A * W) : only K (act f).
Proof. eapply traces_mono; [apply traces_act|]. by intros ? ? [-> _]. Qed.
Lemma only_act_as {A} (K : HostEvent W -> Prop) (event : A -> HostEvent W) (f : W -> A * W) :
  (forall a, K (event a)) -> only K (act_as event f).
Proof. intros Hk. eapply traces_mono; [apply traces_act_as|]. intros r es (a & -> & ->). auto. Qed.
Lemma only_attempt {A} K (m : CM W A) : only K m -> only K (attempt m).
Proof. intros Hm. eapply traces_mono; [apply traces_attempt, Hm|]. by intros r es (? & ? & ?). Qed.
Lemma only_loop {A} K p spent (m : CM W (option A)) : only K m -> only K (loop_ p spent m).
Proof.
  intros Hm s. unfold loop_. rewrite repeat_until_turns. generalize (Pos.to_nat p). intros n.
  assert (Hn : exists es, h_log (snd (turns_of m n s)) = h_log s ++ es /\ Forall K es).
  { revert s. induction n as [|n IH]; intros s; cbn [turns_of]; [exists []; by rewrite app_nil_r|].
    destruct (Hm s) as (es1 & He1 & H1). destruct (m s) as [[[a|]|e] s1]; cbn in *; [eauto| |eauto].
    destruct (IH s1) as (es2 & He2 & H2). exists (es1 ++ es2). rewrite He2, He1, app_assoc.
    split; [done|]. by apply Forall_app. }
  destruct Hn as (es & He & Hk). exists es. destruct (turns_of m n s) as [[[a|]|e] s']; cbn in *; done.
Qed.

Definition is_time (e : HostEvent W) : Prop := match e with ETime _ => True | _ => False end.
End Traces.

Create HintDb traces.
#[export] Hint Resolve only_lift only_ret only_throw only_need only_or_fail only_act only_attempt
  only_loop : traces.

(** Reduces [only K m] to the events [m] adds itself. *)
Ltac only_auto :=
  repeat first
  [ progress intros
  | match goal with
    | |- only _ (mbind_M _ _) => apply only_bind
    | |- only _ (let '(_, _) := ?x in _) => destruct x
    | |- only _ (match ?x with _ => _ end) => destruct x
    | |- only _ (act_as _ _) => apply only_act_as
    end
  | solve [auto with traces] ].

(** The next part of a computation, which [H] describes; [nil_tac] clears the empty histories
    of the parts that add no event. *)
Ltac nil_tac := cbn [app] in *; rewrite ?app_nil_r in *.
Ltac then_by H := cbn beta iota; eapply traces_then; [apply H|cbn beta|cbn beta].
Ltac done_by H := cbn beta iota; eapply traces_mono; [apply H|cbn beta].

Section Common.
Context `{Machine W}.

Lemma only_now (K : HostEvent W -> Prop) : (forall e, is_time e -> K e) -> only K now_unix_ms.
Proof. intros Hk. unfold now_unix_ms. only_auto. by apply Hk. Qed.
Lemma only_remaining K d : (forall e, is_time e -> K e) -> only K (remaining d).
Proof. intros Hk. unfold remaining. only_auto. by apply only_now. Qed.
Lemma only_expired K d : (forall e, is_time e -> K e) -> only K (expired d).
Proof. intros Hk. unfold expired. only_auto. by apply only_attempt, only_now. Qed.
Lemma only_active K c d : (forall e, is_time e -> K e) -> only K (ensure_active c d).
Proof. intros Hk. unfold ensure_active. only_auto. by apply only_expired. Qed.
End Common.
#[export] Hint Resolve only_remaining only_expired only_active : traces.
