(* ===== verification/Rollback.v ===== *)
(** What a launch of the Android adapter leaves behind: the snapshot of the artifact, and the
    app that was started. *)

From S2P Require Import Prelude Crates Control Adapter Apk Axml Machine Adb Loopback Android Traces.

(** ** The paths that a history leaves *)

Fixpoint remove_first (p : bytes) (l : list bytes) : list bytes :=
  match l with [] => [] | q :: l => if bytes_eqb p q then l else q :: remove_first p l end.

Section Leftovers.
Context `{Machine W}.

Definition leave_step (l : list bytes) (e : HostEvent W) : list bytes :=
  match e with
  | ECreateDir p (Ok _) | ECreateFile p (Some _) => p :: l
  | ERemoveFile p true | ERemoveDir p true => remove_first p l
  | _ => l
  end.
Definition leave (l : list bytes) (es : list (HostEvent W)) : list bytes := foldl leave_step l es.

Lemma leave_app l es1 es2 : leave l (es1 ++ es2) = leave (leave l es1) es2.
Proof. apply foldl_app. Qed.

(** Events that run no command and change no path. *)
Definition quiet (e : HostEvent W) : Prop :=
  match e with
  | ECommand _ _ _ _ | ECreateDir _ (Ok _) | ECreateFile _ (Some _) | ERemoveFile _ true
  | ERemoveDir _ true => False
  | _ => True
  end.
(** Commands of which the arguments satisfy [P], and the events between them. *)
Definition runs (P : list bytes -> Prop) (e : HostEvent W) : Prop :=
  match e with ECommand arguments _ _ _ => P arguments | ETime _ => True | _ => False end.
Definition not_command (e : HostEvent W) : Prop := match e with ECommand _ _ _ _ => False | _ => True end.

Lemma quiet_leave es l : Forall quiet es -> leave l es = l.
Proof.
  revert l. induction es as [|e es IH]; intros l Hq; [done|]. inversion_clear Hq. unfold leave in *. cbn [foldl].
  rewrite IH by done. destruct e as [| |? []|? []|? ? []|? ?|? []|? []| | | | | | |]; done.
Qed.
Lemma runs_leave P es l : Forall (runs P) es -> leave l es = l.
Proof.
  revert l. induction es as [|e es IH]; intros l Hq; [done|]. inversion_clear Hq. unfold leave in *. cbn [foldl].
  rewrite IH by done. by destruct e.
Qed.
Lemma time_quiet e : is_time e -> quiet e.
Proof. by destruct e. Qed.
Lemma time_runs P e : is_time e -> runs P e.
Proof. by destruct e. Qed.
Lemma quiet_not_command es : Forall quiet es -> Forall not_command es.
Proof. intros. eapply Forall_impl; [done|]. by intros []. Qed.

(** What was written, and to which file. *)
Definition written (es : list (HostEvent W)) : bytes :=
  concat (map (fun e => match e with EWrite _ b true => b | _ => [] end) es).
Definition writes_to (f : FileHandle) (e : HostEvent W) : Prop :=
  match e with EWrite g _ _ => g = f | _ => True end.
Definition copies_to (f : FileHandle) (e : HostEvent W) : Prop :=
  match e with EWrite g _ _ => g = f | ETime _ => True | _ => False end.
Definition not_write (e : HostEvent W) : Prop := match e with EWrite _ _ _ => False | _ => True end.

Lemma written_app es1 es2 : written (es1 ++ es2) = written es1 ++ written es2.
Proof. unfold written. by rewrite map_app, concat_app. Qed.
Lemma written_none es : Forall not_write es -> written es = [].
Proof. unfold written. induction 1 as [|e es He _ IH]; [done|]. cbn. rewrite IH. by destruct e. Qed.
Lemma not_write_to f es : Forall not_write es -> Forall (writes_to f) es.
Proof. intros. eapply Forall_impl; [done|]. by intros []. Qed.
End Leftovers.

(** [Forall K] of a history from [Forall K] of its parts. *)
Ltac split_events :=
  repeat match goal with
  | H : Forall _ (_ ++ _) |- _ => apply Forall_app in H as [? H]
  | H : Forall _ (_ :: _) |- _ => apply Forall_cons in H as [? H]
  end;
  repeat (rewrite Forall_app || rewrite Forall_cons || rewrite Forall_nil); split_and!; done.

#[export] Hint Resolve time_quiet time_runs : traces.

(** ** The snapshot *)

Section Snapshots.
Context `{Machine W} `{Zlib} `{Sha2}.

(** The file at [path] holds bytes of the expected digest that were written to it alone, and
    what was read back from it afterwards is an APK of the package. *)
Definition verified (digest package path : bytes) (es : list (HostEvent W)) : Prop :=
  exists f content es0 rest, es = es0 ++ EReadBack path content :: rest /\
    ECreateFile path (Some f) ∈ es0 /\ Forall (writes_to f) es0 /\ sha256 (written es0) = digest /\
    0 < len (written es0) <= ARTIFACT_LIMIT /\ validate_apk_manifest content package = Some tt /\
    Forall not_write rest.

Lemma verified_app digest package path es rest :
  verified digest package path es -> Forall not_write rest -> verified digest package path (es ++ rest).
Proof.
  intros (f & content & es0 & rest0 & -> & ? & ? & ? & ? & ? & ?) Hr. exists f, content, es0, (rest0 ++ rest).
  rewrite <- app_assoc. do 6 (split; [done|]). by apply Forall_app.
Qed.

Lemma copy_turn_traces source destination length expected c d data s :
  exists es, h_log (snd (snd (copy_turn source destination length expected c d (data, s)))) = h_log s ++ es /\
    Forall (copies_to destination) es /\
    match copy_turn source destination length expected c d (data, s) with
    | (Ok None, (data', _)) => data' = data ++ written es
    | (Ok (Some _), (data', _)) => written es = [] /\ len data = length /\ sha256 data = expected
    | (Err _, _) => True
    end.
Proof.
  unfold copy_turn.
  set (m := run ensure_active c d; _).
  assert (Hm : traces m (fun r es => Forall (copies_to destination) es /\
      match r with
      | Ok (Some chunk) => written es = chunk
      | Ok None => written es = [] /\ len data = length /\ sha256 data = expected
      | Err _ => True
      end)).
  { assert (Htime : only is_time (ensure_active c d : CM W unit)) by (apply only_active; auto).
    assert (Ht : forall es : list (HostEvent W), Forall is_time es -> Forall (copies_to destination) es /\ written es = []).
    { intros es Hes. split; [|apply written_none]; (eapply Forall_impl; [exact Hes|]); by intros []. }
    then_by Htime; [intros e es Hes; split; [by apply Ht|done]|]. intros _ es1 [Hc1 Hw1]%Ht.
    then_by @traces_act; [intros e es [_ ?]; done|]. intros r ? [-> _].
    then_by @traces_or_fail; [by intros e es [-> _]; nil_tac|]. intros chunk ? [-> _]. nil_tac.
    destruct (is_empty chunk) eqn:Hempty.
    - then_by Htime; [intros e es Hes%Ht; split; [apply Forall_app; tauto|done]|]. intros _ es2 [Hc2 Hw2]%Ht.
      then_by @traces_need; [intros e es [-> _]; nil_tac; split; [by apply Forall_app|done]|]. intros [] ? [-> Hok].
      done_by @traces_ret. intros r' ? [-> ->]. nil_tac. split; [by apply Forall_app|].
      rewrite written_app, Hw1, Hw2. split; [done|].
      destruct ((len data =? length) && bytes_eqb (sha256 data) expected) eqn:Hg; [|done]. by bool_split.
    - then_by @traces_or_fail; [by intros e es [-> _]; nil_tac|]. intros total ? [-> _].
      then_by @traces_need; [by intros e es [-> _]; nil_tac|]. intros _ ? [-> _].
      then_by @traces_act_as; [intros e es (? & ? & _); done|]. intros ok ? (? & [= <-] & ->). nil_tac.
      assert (Hcopies : Forall (copies_to destination) (es1 ++ [EWrite destination chunk ok])).
      { apply Forall_app; split; [done|by repeat constructor]. }
      then_by @traces_need; [by intros e es [-> _]; nil_tac|]. intros [] ? [-> Hok].
      done_by @traces_ret. intros r' ? [-> ->]. nil_tac. split; [done|].
      rewrite written_app, Hw1. destruct ok; [|done]. cbn. by rewrite app_nil_r. }
  destruct (Hm s) as (es & He & Hc & Hr). exists es. destruct (m s) as [[[chunk|]|e] s']; cbn in *; [|done..].
  by rewrite Hr.
Qed.

Lemma copy_traces source destination length expected c d :
  traces (copy_verified source destination length expected c d) (fun r es =>
    Forall (copies_to destination) es /\
    (r = Ok tt -> len (written es) = length /\ sha256 (written es) = expected)).
Proof.
  intros s. unfold copy_verified, loop_. rewrite repeat_until_turns. generalize (Pos.to_nat COPY_TURNS). intros n.
  set (turn := copy_turn source destination length expected c d).
  assert (Hn : forall data, exists es, h_log (snd (snd (turns_of turn n (data, s)))) = h_log s ++ es /\
    Forall (copies_to destination) es /\
    match turns_of turn n (data, s) with
    | (Ok (Some _), _) => len (data ++ written es) = length /\ sha256 (data ++ written es) = expected
    | _ => True
    end).
  { revert s. induction n as [|n IH]; intros s data; cbn [turns_of]; [exists []; by rewrite app_nil_r|].
    destruct (copy_turn_traces source destination length expected c d data s) as (es1 & He1 & Hc1 & Hx1).
    fold turn in He1, Hx1. destruct (turn (data, s)) as [[[a|]|e] [data' s1]]; cbn in *.
    - exists es1. destruct Hx1 as (-> & ? & ?). rewrite app_nil_r. done.
    - destruct (IH s1 data') as (es2 & He2 & Hc2 & Hx2). exists (es1 ++ es2).
      rewrite He2, He1, app_assoc. split; [done|]. split; [by apply Forall_app|].
      rewrite written_app, app_assoc. subst data'. done.
    - exists es1. done. }
  destruct (Hn []) as (es & He & Hc & Hr). exists es. cbn in Hr.
  destruct (turns_of turn n ([], s)) as [[[[]|]|e] [data' s']]; cbn in *; done.
Qed.

Definition fills (f : FileHandle) (e : HostEvent W) : Prop :=
  match e with EWrite g _ _ => g = f | ETime _ | EReadBack _ _ => True | _ => False end.
Lemma copies_fills f es : Forall (copies_to f) es -> Forall (fills f) es.
Proof. intros. eapply Forall_impl; [done|]. by intros []. Qed.
Lemma fills_quiet f es : Forall (fills f) es -> Forall quiet es.
Proof. intros. eapply Forall_impl; [done|]. by intros []. Qed.
Lemma fills_writes f es : Forall (fills f) es -> Forall (writes_to f) es.
Proof. intros. eapply Forall_impl; [done|]. by intros []. Qed.

Lemma fill_traces source destination path length expected package c d :
  traces (fill_snapshot source destination path length expected package c d) (fun r es =>
    Forall (fills destination) es /\
    (r = Ok tt -> exists content es0, es = es0 ++ [EReadBack path content] /\ len (written es0) = length /\
       sha256 (written es0) = expected /\ validate_apk_manifest content package = Some tt)).
Proof.
  unfold fill_snapshot, validate_path.
  then_by copy_traces; [intros e es [Hc%copies_fills _]; done|]. intros [] es [Hc%copies_fills Hcopied].
  destruct (Hcopied eq_refl) as [Hlen Hsha].
  then_by @traces_act; [by intros e ? [_ ?]|]. intros flushed ? [-> _]. nil_tac.
  then_by @traces_need; [by intros e ? [-> _]; nil_tac|]. intros _ ? [-> _].
  then_by @traces_act; [by intros e ? [_ ?]|]. intros closed ? [-> _]. nil_tac.
  then_by @traces_need; [by intros e ? [-> _]; nil_tac|]. intros _ ? [-> _].
  then_by @traces_act_as; [intros e ? (? & ? & _); done|]. intros content ? (? & [= <-] & ->). nil_tac.
  done_by @traces_need. intros r ? [-> Hr]. nil_tac. split; [apply Forall_app; split; [done|by repeat constructor]|].
  intros ->. exists content, es. split_and!; try done.
  destruct (validate_apk_manifest content package) as [[]|]; done.
Qed.

Lemma directory_traces tries c d :
  traces (snapshot_directory tries c d) (fun r es => Forall not_write es /\
    match r with
    | Ok directory => exists es0, es = es0 ++ [ECreateDir directory (Ok tt)] /\ Forall quiet es0
    | Err f => Forall quiet es
    end).
Proof.
  assert (Ht : forall es : list (HostEvent W), Forall is_time es -> Forall not_write es /\ Forall quiet es).
  { intros es Hes. split; (eapply Forall_impl; [exact Hes|]); by intros []. }
  induction tries as [|tries IH]; cbn [snapshot_directory].
  { done_by @traces_throw. by intros r es [-> ->]. }
  then_by (only_active is_time c d); [done|by intros e es Hes%Ht|]. intros [] es1 [Hw1 Hq1]%Ht.
  then_by @traces_act; [by intros e ? [_ ?]|]. intros [filled random] ? [-> _]. nil_tac.
  then_by @traces_need; [by intros e ? [-> _]; nil_tac|]. intros _ ? [-> _].
  then_by @traces_act; [by intros e ? [_ ?]|]. intros temp ? [-> _]. nil_tac.
  then_by @traces_act; [by intros e ? [_ ?]|]. intros id ? [-> _]. nil_tac.
  then_by @traces_act_as; [intros e ? (? & ? & _); done|]. intros r ? (? & [= <-] & ->). nil_tac.
  destruct r as [[]|k].
  - done_by @traces_ret. intros r ? [-> ->]. nil_tac. split; [apply Forall_app; split; [done|by repeat constructor]|]. eauto.
  - assert (Hq : forall p, Forall not_write (es1 ++ [ECreateDir p (Err k)]) /\ Forall quiet (es1 ++ [ECreateDir p (Err k)])).
    { intros p. rewrite !Forall_app. split; (split; [done|by repeat constructor]). }
    destruct k; try (done_by @traces_throw; intros r ? [-> ->]; nil_tac; apply Hq).
    done_by IH. intros r es2 [Hw2 Hr]. split; [rewrite Forall_app, Forall_cons; by split_and!|].
    destruct r as [dir|f]; [|rewrite Forall_app, Forall_cons; by split_and!].
    destruct Hr as (es0 & -> & Hq0). eexists (es1 ++ ECreateDir _ (Err AlreadyExists) :: es0).
    rewrite <- app_assoc. split; [done|]. rewrite Forall_app, Forall_cons. by split_and!.
Qed.

Lemma cleanup_traces directory path :
  traces (cleanup_snapshot directory path) (fun r es => exists a b, r = Ok (a && b) /\
    es = [ERemoveFile path a; ERemoveDir directory b]).
Proof.
  unfold cleanup_snapshot.
  then_by @traces_act_as; [intros e ? (? & ? & _); done|]. intros a ? (? & [= <-] & ->).
  then_by @traces_act_as; [intros e ? (? & ? & _); done|]. intros b ? (? & [= <-] & ->).
  done_by @traces_ret. intros r ? [-> ->]. eauto.
Qed.

(** What is left of a snapshot: its two paths, or nothing, unless its cleanup failed. *)
Definition snapshot_outcome (digest package : bytes) (r : PRes ArtifactSnapshot) (es : list (HostEvent W)) : Prop :=
  Forall not_command es /\
  match r with
  | Ok snap => (forall l, leave l es = snap_path snap :: snap_directory snap :: l) /\
               verified digest package (snap_path snap) es
  | Err f => pf_kind f <> PlatformCleanupFailed -> forall l, leave l es = l
  end.

Lemma snapshot_quiet digest package f es : Forall quiet es -> snapshot_outcome digest package (Err f) es.
Proof. intros Hq. split; [by apply quiet_not_command|]. intros _ l. by apply quiet_leave. Qed.

Lemma remove_first_head p l : remove_first p (p :: l) = l.
Proof. cbn. by rewrite bytes_eqb_refl. Qed.

Lemma snapshot_traces source digest package c d :
  traces (snapshot_create source digest package c d) (snapshot_outcome digest package).
Proof.
  unfold snapshot_create.
  then_by (only_active is_time c d); [done|intros e es Hes; apply snapshot_quiet|].
  { eapply Forall_impl; [exact Hes|]. by intros []. }
  intros [] es Hes. assert (Hq : Forall quiet es /\ Forall not_write es).
  { split; (eapply Forall_impl; [exact Hes|]); by intros []. }
  clear Hes. destruct Hq as [Hq Hw].
  then_by @traces_act; [by intros e ? [_ ?]|]. intros file ? [-> _]. nil_tac.
  then_by @traces_or_fail; [intros e ? [-> _]; nil_tac; by apply snapshot_quiet|]. intros src ? [-> _].
  then_by @traces_act; [by intros e ? [_ ?]|]. intros metadata ? [-> _]. nil_tac.
  then_by @traces_or_fail; [intros e ? [-> _]; nil_tac; by apply snapshot_quiet|]. intros [is_file length] ? [-> _].
  then_by @traces_need; [intros e ? [-> _]; nil_tac; by apply snapshot_quiet|]. intros [] ? [-> Hlen]. nil_tac.
  then_by directory_traces.
  { intros e es2 [_ Hq2]. apply snapshot_quiet, Forall_app. done. }
  intros directory es2 [Hw2 (es0 & -> & Hq0)].
  then_by @traces_act_as; [intros e ? (? & ? & _); done|]. intros destination ? (? & [= <-] & ->).
  set (path := path_join directory (str "selected.apk")).
  assert (Hback : forall l, leave l (es ++ es0) = l) by (intros; by apply quiet_leave, Forall_app).
  assert (Hn : Forall not_command (es ++ es0 ++ [ECreateDir directory (Ok tt)])).
  { rewrite !Forall_app. split_and!; [by apply quiet_not_command..|by repeat constructor]. }
  destruct destination as [file_handle|].
  - then_by @traces_attempt; [apply fill_traces|by intros e es3 (? & ? & _)|].
    intros filled es3 (? & [= <-] & Hfills & Hok).
    assert (Hnn : Forall not_command (es ++ (es0 ++ [ECreateDir directory (Ok tt)]) ++ [ECreateFile path (Some file_handle)] ++ es3)).
    { rewrite !Forall_app in *. destruct Hn as (? & ? & ?). split_and!; try done; [by repeat constructor|].
      by eapply quiet_not_command, fills_quiet. }
    destruct filled as [[]|original].
    + done_by @traces_ret. intros r ? [-> ->]. nil_tac. split; [done|]. cbn [snap_path snap_directory]. split.
      * intros l. rewrite app_assoc, leave_app, app_assoc, leave_app, Hback. cbn [app].
        change (leave (leave l [ECreateDir directory (Ok tt)]) (ECreateFile path (Some file_handle) :: es3))
          with (leave (path :: directory :: l) es3). by eapply quiet_leave, fills_quiet.
      * destruct (Hok eq_refl) as (content & es4 & -> & Hl & Hs & Hv).
        exists file_handle, content, (es ++ (es0 ++ [ECreateDir directory (Ok tt)]) ++ [ECreateFile path (Some file_handle)] ++ es4), [].
        apply Forall_app in Hfills as [Hf4 _]. apply Forall_app in Hw2 as [Hw0 _].
        rewrite !written_app, !(written_none es), !(written_none es0) by done. cbn [written map concat app].
        rewrite <- !app_assoc. split_and!; try done.
        -- set_solver.
        -- apply fills_writes in Hf4. apply not_write_to with (f := file_handle) in Hw, Hw0. split_events.
        -- rewrite Hl. destruct (is_file), (Z.eqb_spec length 0); cbn in Hlen; try done. pose proof (len_nonneg (written es4)). lia.
        -- rewrite Hl. destruct (is_file), (Z.eqb_spec length 0), (Z.ltb_spec ARTIFACT_LIMIT length); cbn in Hlen; try done.
    + then_by cleanup_traces; [by intros e es4 (? & ? & ? & _)|]. intros cleaned es4 (a & b & [= ->] & ->).
      done_by @traces_throw. intros r ? [-> ->]. nil_tac. split.
      { split_events. }
      intros Hk l. destruct a, b; try (by destruct Hk). cbn [andb].
      rewrite app_assoc, leave_app, app_assoc, leave_app, Hback. cbn [app].
      change (leave (leave l [ECreateDir directory (Ok tt)]) (ECreateFile path (Some file_handle) :: es3 ++ [ERemoveFile path true; ERemoveDir directory true]))
        with (leave (path :: directory :: l) (es3 ++ [ERemoveFile path true; ERemoveDir directory true])).
      rewrite leave_app, (quiet_leave es3) by (by eapply fills_quiet). unfold leave. cbn [foldl leave_step].
      by rewrite !remove_first_head.
  - then_by @traces_act_as; [intros e ? (? & ? & _); done|]. intros removed ? (? & [= <-] & ->).
    done_by @traces_throw. intros r ? [-> ->]. nil_tac. split.
    { split_events. }
    intros Hk l. destruct removed; [|by destruct Hk].
    rewrite app_assoc, leave_app, app_assoc, leave_app, Hback. unfold leave. cbn [foldl app leave_step].
    by rewrite remove_first_head.
Qed.
End Snapshots.

(** ** Commands *)

Section Launches.
Context `{CommandRunner W} `{Zlib} `{Sha2} `{Base64}.

(** Neither an install nor a start. *)
Definition plain (arguments : list bytes) : Prop :=
  head arguments <> Some (str "install") /\ take 3 arguments <> [str "shell"; str "am"; str "start"].

(** A start that the tool confirmed. *)
Definition confirms (component : bytes) (e : HostEvent W) : Prop :=
  match e with
  | ECommand arguments _ _ (Ok o) =>
      take 3 arguments = [str "shell"; str "am"; str "start"] /\
      (let? output := adb_output o in parse_start output component) = Ok tt
  | _ => False
  end.
Definition not_install (e : HostEvent W) : Prop :=
  match e with ECommand arguments _ _ _ => head arguments <> Some (str "install") | _ => True end.

(** The last thing done was to stop the package, which the tool confirmed, before a deadline of
    two seconds. *)
Definition stopped (package : bytes) (es : list (HostEvent W)) : Prop :=
  exists es0 flag deadline o ms, es = es0 ++ [ECommand (stop_arguments package) flag deadline (Ok o)] /\
    (let? output := adb_output o in require_exact_line output []) = Ok tt /\
    ETime (Some ms) ∈ es0 /\ dl_value deadline = Z.min (ms + 2000) U64_MAX.

Lemma plain_not_confirms component es : Forall (runs plain) es -> Forall (fun e => ~ confirms component e) es.
Proof.
  intros. eapply Forall_impl; [done|]. intros [args f d [o|]| | | | | | | | | | | | | |] He Hc; try done.
  destruct He as [_ He], Hc as [Hc _]. exact (He Hc).
Qed.
Lemma plain_not_install es : Forall (runs plain) es -> Forall not_install es.
Proof. intros. eapply Forall_impl; [done|]. intros [args f d a| | | | | | | | | | | | | |] He; try done. exact (proj1 He). Qed.
Lemma not_command_not_confirms component (es : list (HostEvent W)) :
  Forall not_command es -> Forall (fun e => ~ confirms component e) es.
Proof. intros. eapply Forall_impl; [done|]. intros [] He Hc; done. Qed.
Lemma not_command_not_install (es : list (HostEvent W)) : Forall not_command es -> Forall not_install es.
Proof. intros. eapply Forall_impl; [done|]. by intros []. Qed.

Lemma adb_run_traces c arguments flag d :
  traces (adb_run c arguments flag d) (fun r es =>
    exists a, es = [ECommand arguments flag d a] /\ r = (let? o := a in adb_output o)).
Proof.
  unfold adb_run. then_by @traces_act_as; [intros e ? (? & ? & _); done|]. intros a ? (? & [= <-] & ->).
  done_by @traces_lift. intros r ? [-> ->]. eauto.
Qed.
Lemma only_adb_run P c arguments flag d : P arguments -> only (runs P) (adb_run c arguments flag d).
Proof. intros Hp. eapply traces_mono; [apply adb_run_traces|]. intros r es (a & -> & _). by repeat constructor. Qed.

Lemma runs_mono (P Q : list bytes -> Prop) {A} (m : CM W A) :
  (forall a, P a -> Q a) -> only (runs P) m -> only (runs Q) m.
Proof. intros Hpq. apply only_mono. intros []; cbn; auto. Qed.

Definition forwards_only (arguments : list bytes) : Prop := head arguments = Some (str "forward").
Lemma only_forward {A} (m : CM W A) : only (runs forwards_only) m -> only (runs plain) m.
Proof.
  apply runs_mono. unfold forwards_only, plain. intros a Ha. split; [rewrite Ha; by vm_compute|].
  destruct a as [|x a]; [done|]. injection Ha as ->. by intros [=].
Qed.

Ltac forwards_auto := only_auto; apply only_adb_run; reflexivity.
Lemma only_forward_list c flag d : only (runs forwards_only) (forward_list c flag d).
Proof. unfold forward_list. forwards_auto. Qed.
Lemma only_remote_absent c name flag d : only (runs forwards_only) (require_remote_absent c name flag d).
Proof. unfold require_remote_absent. only_auto. apply only_forward_list. Qed.
Lemma only_exact_forward c port name flag d : only (runs forwards_only) (require_exact_forward c port name flag d).
Proof. unfold require_exact_forward. only_auto. apply only_forward_list. Qed.
Lemma only_create_forward c name flag d : only (runs forwards_only) (create_forward c name flag d).
Proof. unfold create_forward. forwards_auto. Qed.
Lemma only_remove_cancellable c port name flag d :
  only (runs forwards_only) (remove_exact_with_cancellation c port name flag d).
Proof. unfold remove_exact_with_cancellation. only_auto; try apply only_forward_list; apply only_adb_run; reflexivity. Qed.
Lemma only_remove_exact c port name d : only (runs forwards_only) (remove_exact c port name d).
Proof. unfold remove_exact. only_auto. apply only_remove_cancellable. Qed.
Lemma only_remove_by_remote c name d : only (runs forwards_only) (remove_by_remote c name d).
Proof. unfold remove_by_remote. only_auto; [apply only_forward_list|apply only_remove_exact]. Qed.

Lemma only_connect P port flag d : only (runs P) (connect port flag d).
Proof.
  apply only_loop. unfold connect_turn, LoopbackRaw_new.
  only_auto; try apply only_active; try apply only_remaining; auto with traces.
Qed.

(** ** Rolling back *)

Lemma stop_traces c package d :
  traces (force_stop c package d) (fun r es => exists flag a, es = [ECommand (stop_arguments package) flag d a] /\
    r = (let? o := a in let? output := adb_output o in require_exact_line output [])).
Proof.
  unfold force_stop. then_by @traces_act; [by intros e es [_ ?]|]. intros flag ? [-> _]. cbn [app].
  then_by adb_run_traces.
  - intros e es (a & -> & Ha). exists flag, a. split; [done|]. destruct a; cbn in *; [|by injection Ha as ->].
    by rewrite <- Ha.
  - intros output es (a & -> & Ha). done_by @traces_lift. intros r ? [-> ->]. exists flag, a. split; [done|].
    destruct a; cbn in *; [|done]. by rewrite <- Ha.
Qed.

Lemma rollback_traces {A} original c package (m : AbsoluteDeadline -> CM W unit) :
  (forall d, only (runs plain) (m d)) ->
  traces (rollback_after_started original c package m : CM W A) (fun r es =>
    Forall (runs plain) es /\
    exists f, r = Err f /\ primary_kind f = primary_kind original /\
      (pf_kind f <> PlatformCleanupFailed -> f = original /\ stopped package es)).
Proof.
  intros Hm. unfold rollback_after_started, rollback_after.
  eapply traces_then with (P := fun r es => Forall (runs plain) es /\
    exists r', r = Ok r' /\ (r' = Ok tt -> stopped package es)); [|by intros e es (_ & ? & ? & _)|].
  2: { intros r es (Hp & r' & [= ->] & Hr). done_by @traces_throw. intros ? ? [-> ->]. nil_tac.
       split; [done|]. destruct r' as [[]|f]; eexists; (split; [done|]); cbn; [by auto|]. by split. }
  eapply traces_mono; [apply (traces_attempt _ (fun r es => Forall (runs plain) es /\ (r = Ok tt -> stopped package es)))
    |cbn beta; intros r es (r' & -> & Hp & Hr); split; [exact Hp|]; by exists r'].
  unfold rollback_deadline.
  eapply traces_then with (P := fun r es => Forall is_time es /\ forall d, r = Ok d ->
    exists ms, ETime (Some ms) ∈ es /\ dl_value d = Z.min (ms + 2000) U64_MAX).
  - then_by @traces_act_as; [by intros e ? (? & ? & _)|]. intros o ? (? & [= <-] & ->).
    then_by @traces_or_fail; [intros e ? [-> _]; split; [by repeat constructor|done]|].
    intros now ? [-> Ho]. then_by @traces_need; [intros e ? [-> _]; split; [by repeat constructor|done]|].
    intros [] ? [-> Hn]. done_by @traces_lift. intros r ? [-> ->]. nil_tac. split; [by repeat constructor|].
    intros d Hd. exists now. destruct o; [|done]. injection Ho as <-. split; [set_solver|].
    unfold AbsoluteDeadline_new in Hd. unfold FORWARD_ROLLBACK_MS in Hd.
    destruct (Z.min (now + 2000) U64_MAX =? 0); cbn in Hd; [done|]. by injection Hd as <-.
  - intros e es [Ht _]. split; [|done]. eapply Forall_impl; [done|]. auto with traces.
  - intros d es [Ht Hd]. destruct (Hd d eq_refl) as (ms & Hin & Hv).
    assert (Hp : Forall (runs plain) es) by (eapply Forall_impl; [done|]; auto with traces).
    then_by @traces_attempt; [apply Hm|by intros e es2 (? & ? & _)|]. intros forward es2 (? & [= <-] & Hp2).
    then_by @traces_attempt; [apply stop_traces|by intros e es3 (? & ? & _)|].
    intros r' es3 (? & [= <-] & flag & a & -> & ->).
    done_by @traces_lift. intros r ? [-> ->]. nil_tac. split.
    { split_events. }
    intros Hok. apply res_bind_ok in Hok as ([] & _ & Hok). apply res_bind_ok in Hok as (o & -> & Hok).
    exists (es ++ es2), flag, d, o, ms. rewrite <- app_assoc. split_and!; try done. set_solver.
Qed.

Lemma or_rollback_traces {A} (m : CM W A) rb (P : PRes A -> list (HostEvent W) -> Prop) Q :
  traces m P -> (forall f es1, P (Err f) es1 -> traces (rb f) (fun r es2 => Q r (es1 ++ es2))) ->
  (forall a es, P (Ok a) es -> Q (Ok a) es) -> traces (or_rollback m rb) Q.
Proof.
  intros Hm Hrb Hok. unfold or_rollback.
  then_by @traces_attempt; [exact Hm|by intros e es (? & ? & _)|]. intros r es (? & [= <-] & Hp).
  destruct r as [a|f]; [|by apply Hrb]. done_by @traces_ret. intros ? ? [-> ->]. nil_tac. auto.
Qed.

(** From a confirmed start on: a failure stops the app, or says that it could not. *)
Definition started_outcome {A} (package : bytes) (r : PRes A) (es : list (HostEvent W)) : Prop :=
  Forall (runs plain) es /\
    match r with Ok _ => True | Err f => pf_kind f <> PlatformCleanupFailed -> stopped package es end.

Lemma stopped_app package es1 es2 : stopped package es2 -> stopped package (es1 ++ es2).
Proof.
  intros (es0 & fl & d & o & ms & -> & ? & ? & ?). exists (es1 ++ es0), fl, d, o, ms. rewrite app_assoc.
  split_and!; try done. set_solver.
Qed.

Lemma guarded_traces {A} (m : CM W A) c package rb :
  only (runs plain) m -> (forall d, only (runs plain) (rb d)) ->
  traces (or_rollback m (fun original => rollback_after_started original c package rb)) (started_outcome package).
Proof.
  intros Hm Hrb. eapply or_rollback_traces; [exact Hm| |by split].
  intros f es1 Hp1. done_by @rollback_traces; [exact Hrb|]. intros r es2 (Hp2 & g & -> & _ & Hs).
  split; [by apply Forall_app|]. intros Hk. by apply stopped_app, Hs.
Qed.

Lemma started_then {A B} package (m : CM W A) (k : A -> CM W B) :
  traces m (started_outcome package) -> (forall a, traces (k a) (started_outcome package)) ->
  traces (mbind_M m k) (started_outcome package).
Proof.
  intros Hm Hk. then_by Hm; [done|]. intros a es1 [Hp1 _]. done_by Hk. intros r es2 [Hp2 Hr].
  split; [by apply Forall_app|]. destruct r; [done|]. intros. by apply stopped_app, Hr.
Qed.

Lemma connect_started_traces p c flag d :
  traces (connect_started p c flag d) (started_outcome (pl_package p)).
Proof.
  unfold connect_started. cbv zeta.
  repeat (apply started_then; [apply guarded_traces|intros]); try (apply only_connect);
    try (apply only_forward;
         first [apply only_remote_absent|apply only_create_forward|apply only_exact_forward]).
  - intros _. apply only_ret.
  - intros. apply only_forward, only_remove_by_remote.
  - intros. apply only_forward, only_remove_exact.
  - intros. apply only_forward, only_remove_exact.
  - done_by @traces_ret. intros r es [-> ->]. by split.
Qed.

(** ** Installing *)

(** At most one install, after plain commands. *)
Definition installing (path : bytes) (es : list (HostEvent W)) : Prop :=
  Forall (runs plain) es \/
  exists es0 flag d a, es = es0 ++ [ECommand (install_arguments path) flag d a] /\ Forall (runs plain) es0.

Lemma install_traces c path flag d :
  traces (run probe c flag d; run require_online c flag d; install c path flag d) (fun _ => installing path).
Proof.
  assert (Hp : only (runs plain) (probe c flag d)).
  { unfold probe. only_auto. apply only_adb_run. by split. }
  assert (Ho : only (runs plain) (require_online c flag d)).
  { unfold require_online. only_auto. apply only_adb_run. by split. }
  then_by Hp; [by left|]. intros _ es1 H1'. then_by Ho; [intros; left; by apply Forall_app|]. intros _ es2 H2'.
  unfold install. then_by adb_run_traces.
  - intros e es (a & -> & _). right. exists (es1 ++ es2), flag, d, a. rewrite app_assoc. split; [done|]. by apply Forall_app.
  - intros output es (a & -> & _). done_by @traces_lift. intros r ? [_ ->]. right. exists (es1 ++ es2), flag, d, a.
    nil_tac. rewrite app_assoc. split; [done|]. by apply Forall_app.
Qed.

Lemma runs_not_write P (es : list (HostEvent W)) : Forall (runs P) es -> Forall not_write es.
Proof. intros. eapply Forall_impl; [done|]. by intros []. Qed.
Lemma installing_leave path es l : installing path es -> leave l es = l.
Proof.
  intros [Hp|(es0 & fl & d & a & -> & Hp)]; [by eapply runs_leave|]. rewrite leave_app, (runs_leave _ _ _ Hp). done.
Qed.
Lemma installing_not_confirms path component es : installing path es -> Forall (fun e => ~ confirms component e) es.
Proof.
  intros [Hp|(es0 & fl & d & a & -> & Hp)]; [by apply plain_not_confirms|].
  apply Forall_app. split; [by apply plain_not_confirms|]. repeat constructor. destruct a; cbn; [|tauto]. by intros [? _].
Qed.

(** What is installed is the file of the snapshot, after it was verified. *)
Definition installs_verified (digest package : bytes) (es : list (HostEvent W)) : Prop :=
  Forall not_install es \/
  exists pre path flag d a post, es = pre ++ ECommand (install_arguments path) flag d a :: post /\
    Forall not_install pre /\ Forall not_install post /\ verified digest package path pre.

Lemma installs_app digest package es1 es2 :
  installs_verified digest package es1 -> Forall not_install es2 -> installs_verified digest package (es1 ++ es2).
Proof.
  intros [Hn|(pre & path & fl & d & a & post & -> & ? & ? & ?)] H2'; [left; by apply Forall_app|].
  right. exists pre, path, fl, d, a, (post ++ es2). rewrite <- app_assoc. split_and!; try done. by apply Forall_app.
Qed.

Definition launch_outcome (p : AndroidPendingLaunch) (r : PRes AndroidIo) (es : list (HostEvent W)) : Prop :=
  installs_verified (pl_artifact_digest p) (pl_package p) es /\
    match r with
  | Ok _ => forall l, leave l es = l
  | Err f => pf_kind f <> PlatformCleanupFailed -> (forall l, leave l es = l) /\
    (Forall (fun e => ~ confirms (pl_package p ++ BOOTSTRAP_ACTIVITY) e) es \/ stopped (pl_package p) es)
  end.

(** A history that has not come to a start. *)
Definition before_start (p : AndroidPendingLaunch) (es : list (HostEvent W)) : Prop :=
  installs_verified (pl_artifact_digest p) (pl_package p) es /\
  Forall (fun e => ~ confirms (pl_package p ++ BOOTSTRAP_ACTIVITY) e) es.
Lemma not_started p f es :
  before_start p es -> (pf_kind f <> PlatformCleanupFailed -> forall l, leave l es = l) -> launch_outcome p (Err f) es.
Proof. intros [Hi Hc] Hl. split; [done|]. intros Hk. split; [by apply Hl|by left]. Qed.
Lemma quiet_before p es : Forall not_command es -> before_start p es.
Proof. intros Hq. split; [left; by apply not_command_not_install|by apply not_command_not_confirms]. Qed.

Lemma install_verified p snap es es2 es3 :
  Forall not_command es -> Forall not_write es -> Forall not_command es2 ->
  verified (pl_artifact_digest p) (pl_package p) (snap_path snap) es2 -> installing (snap_path snap) es3 ->
  installs_verified (pl_artifact_digest p) (pl_package p) (es ++ es2 ++ es3).
Proof.
  intros Hn Hw Hn2 Hver [Hp|(es0 & fl & d & a & -> & Hp)].
  { left. rewrite !Forall_app. split_and!; [by apply not_command_not_install..|by apply plain_not_install]. }
  right. exists (es ++ es2 ++ es0), (snap_path snap), fl, d, a, []. rewrite <- !app_assoc. split_and!; [done| |constructor|].
  - rewrite !Forall_app. split_and!; [by apply not_command_not_install..|by apply plain_not_install].
  - destruct Hver as (f & content & es1 & rest & -> & ? & ? & ? & ? & ? & ?).
    exists f, content, (es ++ es1), (rest ++ es0). rewrite <- !app_assoc. cbn [app].
    rewrite written_app, (written_none es) by done.
    do 6 (split; [first [done|set_solver|apply Forall_app; split; [by apply not_write_to|done]]|]).
    apply Forall_app; split; [done|by eapply runs_not_write].
Qed.

Lemma snapshot_cleanup_traces snap :
  traces (snapshot_cleanup snap) (fun r es => Forall not_command es /\
    (r = Ok tt -> forall l, leave (snap_path snap :: snap_directory snap :: l) es = l)).
Proof.
  unfold snapshot_cleanup. then_by cleanup_traces; [by intros e es (? & ? & ? & _)|].
  intros cleaned es (a & b & [= ->] & ->). done_by @traces_need. intros r ? [-> ->]. nil_tac.
  split; [by repeat constructor|]. destruct a, b; cbn [andb]; try done. intros _ l.
  unfold leave. cbn [foldl leave_step]. by rewrite !remove_first_head.
Qed.

(** A start that fails is not confirmed. *)
Lemma start_traces c component encoded flag d :
  traces (start c component encoded flag d) (fun r es => Forall not_install es /\
    (is_ok r = false -> Forall (fun e => ~ confirms component e) es) /\ forall l, leave l es = l).
Proof.
  unfold start. then_by adb_run_traces.
  - intros e es (a & -> & Ha). split_and!; [by repeat constructor| |done]. intros _. repeat constructor.
    destruct a; [|by intros []]. cbn in Ha. intros [_ Hc]. by rewrite <- Ha in Hc.
  - intros output es (a & -> & Ha). done_by @traces_lift. intros r ? [-> ->]. nil_tac.
    split_and!; [by repeat constructor| |done]. intros Hr. repeat constructor.
    destruct a; [|by intros []]. cbn in Ha. intros [_ Hc]. rewrite <- Ha in Hc. cbn in Hc. by rewrite Hc in Hr.
Qed.

Lemma started_tail p c encoded flag d pre :
  before_start p pre -> (forall l, leave l pre = l) ->
  traces (run start c (pl_package p ++ BOOTSTRAP_ACTIVITY) encoded flag d; connect_started p c flag d)
    (fun r es => launch_outcome p r (pre ++ es)).
Proof.
  intros [Hi Hc] Hl. then_by start_traces.
  { intros e es5 (Hp5 & Hc5 & Hl5). apply not_started; [|intros _ l; by rewrite leave_app, Hl].
    split; [by apply installs_app|]. apply Forall_app. split; [done|by apply Hc5]. }
  intros _ es5 (Hp5 & _ & Hl5). done_by connect_started_traces. intros r es6 [Hp6 Hr].
  rewrite app_assoc. split.
  { apply installs_app; [by apply installs_app|by apply plain_not_install]. }
  assert (Hl6 : forall l, leave l ((pre ++ es5) ++ es6) = l).
  { intros l. by rewrite !leave_app, Hl, Hl5, (runs_leave _ _ _ Hp6). }
  destruct r as [io|f]; [done|]. intros Hk. split; [done|]. right. by apply stopped_app, Hr.
Qed.

Lemma launch_traces p descriptor flag d : traces (launch_android p descriptor flag d) (launch_outcome p).
Proof.
  unfold launch_android. cbv zeta.
  assert (Hv : traces (match pl_validation p with Some kind => throw (failure kind) | None => ret tt end : CM W unit)
                 (fun _ es => es = [])).
  { destruct (pl_validation p); [done_by @traces_throw|done_by @traces_ret]; by intros ? ? [_ ->]. }
  assert (Hq : forall es : list (HostEvent W), Forall is_time es -> Forall not_command es /\ Forall quiet es /\ Forall not_write es).
  { intros es Hes. split_and!; (eapply Forall_impl; [exact Hes|]); by intros []. }
  then_by Hv; [intros e ? ->; by apply not_started; [apply quiet_before|]|]. intros _ ? ->.
  then_by (only_active is_time flag d); [done|intros e es (Hn & Hes & _)%Hq; apply not_started|].
  { by apply quiet_before. } { intros _ l. by apply quiet_leave. }
  intros _ es (Hn & Hes & Hw)%Hq. cbn [app].
  then_by @traces_need; [intros e ? [-> _]; nil_tac; apply not_started; [by apply quiet_before|]|].
  { intros _ l. by apply quiet_leave. }
  intros _ ? [-> _]. nil_tac.
  then_by snapshot_traces.
  { intros e es2 [Hn2 Hl]. apply not_started; [apply quiet_before, Forall_app; done|].
    intros Hk l. rewrite leave_app, (quiet_leave es) by done. by apply Hl. }
  intros snap es2 (Hn2 & Hl2 & Hver).
  then_by @traces_attempt; [apply install_traces|by intros e es3 (? & ? & _)|].
  intros installed es3 (? & [= <-] & Hi).
  assert (Hb3 : before_start p (es ++ es2 ++ es3)).
  { split; [by eapply install_verified|]. rewrite !Forall_app.
    split_and!; [by apply not_command_not_confirms..|by eapply installing_not_confirms]. }
  assert (Hl3 : forall l, leave l (es ++ es2 ++ es3) = snap_path snap :: snap_directory snap :: l).
  { intros l. rewrite !leave_app, (quiet_leave es), Hl2 by done. by eapply installing_leave. }
  then_by @traces_attempt; [apply snapshot_cleanup_traces|by intros e es4 (? & ? & _)|].
  intros cleaned es4 (? & [= <-] & Hn4 & Hl4).
  assert (Hb4 : before_start p (es ++ es2 ++ es3 ++ es4)).
  { rewrite app_assoc, (app_assoc (es ++ es2)), <- (app_assoc es). destruct Hb3 as [Hi3 Hc3]. split.
    - apply installs_app; [done|by apply not_command_not_install].
    - apply Forall_app. split; [done|by apply not_command_not_confirms]. }
  then_by @traces_need.
  { intros e ? [-> He]. nil_tac. apply not_started; [done|]. destruct (is_ok cleaned); [done|]. injection He as ->. by intros []. }
  intros [] ? [-> Hc]. nil_tac. destruct cleaned as [[]|]; [|done].
  assert (Hl : forall l, leave l (es ++ es2 ++ es3 ++ es4) = l).
  { intros l. rewrite app_assoc, (app_assoc (es ++ es2)), <- (app_assoc es), leave_app, Hl3. by apply Hl4. }
  then_by @traces_lift; [intros e ? [_ ->]; nil_tac; by apply not_started|]. intros _ ? [_ ->]. nil_tac.
  done_by (started_tail p (mkClient (pl_adb_path p) (pl_serial p)) (b64_encode descriptor) flag d (es ++ es2 ++ es3 ++ es4)); [done..|].
  intros r es5. by rewrite <- !app_assoc.
Qed.

Lemma install_only pre post es1 es2 x y :
  pre ++ x :: post = es1 ++ y :: es2 -> Forall not_install pre -> Forall not_install post -> ~ not_install y -> es1 = pre.
Proof.
  revert es1. induction pre as [|e pre IH]; intros [|e1 es1] He Hpre Hpost Hy; cbn in He; try done.
  - injection He as _ ->. apply Forall_app in Hpost as [_ Hp]. by apply Forall_cons in Hp as [? _].
  - injection He as -> _. by apply Forall_cons in Hpre as [? _].
  - injection He as -> He. f_equal. apply Forall_cons in Hpre as [_ Hpre]. by apply IH.
Qed.

(** C11: what a launch installs is a file that it wrote itself and nothing else was written to,
    with the digest of the selection and at most 1 GiB long, and whose manifest, read back
    after the last write, is that of the package; and it installs nothing else. *)
Theorem installed_is_verified p descriptor flag d s r s' :
  launch_android p descriptor flag d s = (r, s') ->
  exists es, h_log s' = h_log s ++ es /\
    forall es1 path flag' d' answer es2, es = es1 ++ ECommand (install_arguments path) flag' d' answer :: es2 ->
      verified (pl_artifact_digest p) (pl_package p) path es1.
Proof.
  intros Hl. destruct (launch_traces p descriptor flag d s) as (es & He & Ho & _). rewrite Hl in He.
  exists es. split; [done|]. intros es1 path fl d' a es2 Hes.
  destruct Ho as [Hn|(pre & path' & fl' & d0 & a' & post & -> & Hpre & Hpost & Hv)].
  - rewrite Hes, Forall_app, Forall_cons in Hn. by destruct Hn as (_ & [] & _).
  - assert (es1 = pre) as ->.
    { eapply install_only; [exact Hes|done|done|]. intros Hx. by apply Hx. }
    apply app_inv_head in Hes. injection Hes as <- _ _ _ _. done.
Qed.

(** C10: a launch leaves none of the files and directories it created, and one that fails after
    the tool confirmed the start of the app has stopped the app as the last thing it did,
    within a deadline of two seconds of its own; unless it says that its cleanup failed. *)
Theorem launch_leaves_nothing p descriptor flag d s r s' :
  launch_android p descriptor flag d s = (r, s') ->
  (forall f, r = Err f -> pf_kind f <> PlatformCleanupFailed) ->
  exists es, h_log s' = h_log s ++ es /\ leave [] es = [] /\
    match r with
    | Ok _ => True
    | Err _ => Forall (fun e => ~ confirms (pl_package p ++ BOOTSTRAP_ACTIVITY) e) es \/ stopped (pl_package p) es
    end.
Proof.
  intros Hl Hk. destruct (launch_traces p descriptor flag d s) as (es & He & _ & Ho). rewrite Hl in He, Ho. cbn in Ho.
  exists es. split; [done|]. destruct r as [io|f]; [by split|]. destruct (Ho (Hk f eq_refl)) as [Hleave Hs]. by split.
Qed.
End Launches.
