(* ===== verification/Listings.v ===== *)
(** The outputs of [adb] as texts: line endings, numbers, and the list of forwardings. *)

From S2P Require Import Prelude Control Names Adapter Axml Machine Adb.

Implicit Types output line value : bytes.

(** ** Endings *)

Lemma strip_suffix_spec x v u : strip_suffix x v = Some u <-> v = u ++ x.
Proof.
  unfold strip_suffix. set (n := (length v - length x)%nat). split.
  - destruct (bytes_eqb (drop n v) x) eqn:He; [|done]. apply bytes_eqb_eq in He. intros [= <-].
    by rewrite <- He, take_drop.
  - intros ->. subst n. rewrite length_app. replace (length u + length x - length x)%nat with (length u) by lia.
    by rewrite drop_app_length, take_app_length, bytes_eqb_refl.
Qed.
Lemma ends_with_spec c v : ends_with c v = true <-> exists u, v = u ++ [c].
Proof.
  unfold ends_with. rewrite bool_decide_eq_true. split; [|intros (u & ->); apply last_snoc].
  intros Hl. apply last_Some in Hl as (u & ->). eauto.
Qed.
Lemma contains_byte_spec c v : contains_byte c v = false <-> c ∉ v.
Proof.
  unfold contains_byte. rewrite <- not_true_iff_false, existsb_exists. split.
  - intros Hn Hin. apply Hn. exists c. rewrite bool_decide_eq_true. split; [by apply list_elem_of_In|done].
  - intros Hn (b & Hin & Hb). apply bool_decide_eq_true in Hb as ->. by apply Hn, list_elem_of_In.
Qed.

(** A line without its ending. *)
Definition one_line (v : bytes) : Prop := ends_with CR v = false /\ ends_with LF v = false /\ NUL ∉ v.

Lemma strip_line_spec output v :
  strip_one_line_ending output = Ok v <->
  one_line v /\ (output = v \/ output = v ++ [LF] \/ output = v ++ [CR; LF]).
Proof.
  unfold strip_one_line_ending, one_line. set (value := match strip_suffix [CR; LF] output with Some _ => _ | None => _ end).
  assert (Hg : forall b : bool, (check b else failure Rejected in Ok value) = Ok v <-> b = true /\ value = v).
  { intros []; cbn; naive_solver. }
  rewrite Hg, negb_true_iff, !orb_false_iff, contains_byte_spec. clear Hg. split.
  - intros (((Hcr & Hnul) & Hlf) & <-). split; [done|]. unfold value in *.
    destruct (strip_suffix [CR; LF] output) as [u|] eqn:H1; [apply strip_suffix_spec in H1 as ->; auto|].
    destruct (strip_suffix [LF] output) as [u|] eqn:H2; cbn; [apply strip_suffix_spec in H2 as ->; auto|auto].
  - intros ((Hcr & Hlf & Hnul) & Ho). assert (Hv : value = v); [|by rewrite Hv].
    unfold value. clear value.
    assert (Hno : forall u w c, w = u ++ [c] -> ends_with c w = true) by (intros u w c Hw; apply ends_with_spec; eauto).
    destruct Ho as [->|[-> | ->]].
    + destruct (strip_suffix [CR; LF] v) as [u|] eqn:H1.
      { apply strip_suffix_spec in H1. change [CR; LF] with ([CR] ++ [LF]) in H1. rewrite app_assoc in H1.
        by rewrite (Hno _ _ _ H1) in Hlf. }
      destruct (strip_suffix [LF] v) as [u|] eqn:H2; [|done]. apply strip_suffix_spec in H2.
      by rewrite (Hno _ _ _ H2) in Hlf.
    + destruct (strip_suffix [CR; LF] (v ++ [LF])) as [u|] eqn:H1.
      { apply strip_suffix_spec in H1. change [CR; LF] with ([CR] ++ [LF]) in H1. rewrite app_assoc in H1.
        apply app_inj_tail in H1 as [H1 _]. by rewrite (Hno _ _ _ H1) in Hcr. }
      by rewrite (proj2 (strip_suffix_spec [LF] (v ++ [LF]) v)).
    + by rewrite (proj2 (strip_suffix_spec [CR; LF] (v ++ [CR; LF]) v)).
Qed.

(** ** Parts *)

Fixpoint join (c : byte) (parts : list bytes) : bytes :=
  match parts with [] => [] | [p] => p | p :: ps => p ++ c :: join c ps end.
Lemma join_cons c p ps : ps <> [] -> join c (p :: ps) = p ++ c :: join c ps.
Proof. by destruct ps. Qed.
Lemma join_split c l : join c (split_on c l) = l.
Proof.
  induction l as [|b l IH]; cbn [split_on]; [done|]. destruct (split_on_spec c l _ eq_refl) as [Hn _].
  destruct (Z.eqb_spec (u8 b) (u8 c)) as [->%u8_inj|Hb].
  - rewrite join_cons by done. by rewrite IH.
  - destruct (split_on c l) as [|p ps]; [done|]. destruct ps; cbn in *; by rewrite <- IH.
Qed.
Lemma split_join c parts :
  parts <> [] -> Forall (Forall (fun b => b <> c)) parts -> split_on c (join c parts) = parts.
Proof.
  intros Hn Hp. induction Hp as [|p ps Hp Hps IH]; [done|]. destruct ps as [|q ps]; [by apply split_last|].
  rewrite join_cons, split_part by done. by rewrite IH.
Qed.

Lemma collect_spec {A B} (f : A -> PRes B) l bs : collect f l = Ok bs <-> Forall2 (fun a b => f a = Ok b) l bs.
Proof.
  revert bs. induction l as [|a l IH]; intros bs; cbn [collect].
  - split; [by intros [= <-]|]. by inversion 1.
  - rewrite res_bind_ok. setoid_rewrite res_bind_ok. setoid_rewrite IH. split.
    + intros (b & Hb & bs' & Hbs & [= <-]). by constructor.
    + inversion 1; subst. eauto.
Qed.

(** ** The list of forwardings *)

Definition entry_ok (e : ForwardEntry) : Prop :=
  safe_tool_field (fe_serial e) = true /\ safe_tool_field (fe_local e) = true /\ safe_tool_field (fe_remote e) = true.
Definition render_entry (e : ForwardEntry) : bytes := join SPACE [fe_serial e; fe_local e; fe_remote e].
Definition render_list (es : list ForwardEntry) : bytes := join LF (map render_entry es).

Lemma safe_field_spec f : safe_tool_field f = true <-> f <> [] /\ Forall (fun b => 33 <= u8 b <= 126) f.
Proof.
  unfold safe_tool_field. rewrite andb_true_iff, negb_true_iff, forallb_forall, Forall_forall.
  unfold is_ascii_graphic. setoid_rewrite andb_true_iff. setoid_rewrite Z.leb_le. setoid_rewrite list_elem_of_In.
  destruct f; cbn [is_empty]; naive_solver.
Qed.
Lemma safe_no c f : u8 c < 33 -> safe_tool_field f = true -> Forall (fun b => b <> c) f.
Proof. intros Hc [_ Hf]%safe_field_spec. eapply Forall_impl; [done|]. intros b Hb ->. cbn in Hb. lia. Qed.

Lemma forward_line_spec line e : parse_forward_line line = Ok e <-> line = render_entry e /\ entry_ok e.
Proof.
  unfold parse_forward_line, render_entry, entry_ok. split.
  - intros Hp. res_inv Hp. rewrite negb_true_iff in *. bool_split.
    rewrite <- (join_split SPACE line). destruct (split_on SPACE line) as [|a [|b [|c [|? ?]]]]; try done.
    injection Hp as <-. cbn in Hc0. rewrite !orb_false_iff, !negb_false_iff in Hc0. by destruct Hc0 as (? & ? & ? & _).
  - intros (-> & H1 & H2 & H3). rewrite split_join; [|done|repeat constructor; by apply safe_no].
    cbn. rewrite H1, H2, H3. apply safe_field_spec in H1 as [? _], H2 as [? _], H3 as [? _].
    destruct e as [[|? ?] [|? ?] [|? ?]]; cbn in *; done.
Qed.

Lemma render_entry_text e : entry_ok e ->
  render_entry e <> [] /\ Forall (fun b => 32 <= u8 b <= 126) (render_entry e).
Proof.
  intros (H1 & H2 & H3). apply safe_field_spec in H1 as [Hn H1], H2 as [_ H2], H3 as [_ H3].
  unfold render_entry. cbn [join]. split; [by destruct (fe_serial e)|].
  rewrite !Forall_app, !Forall_cons, Forall_app, Forall_cons.
  assert (Hs : 32 <= u8 SPACE <= 126) by done.
  split_and!; try done; (eapply Forall_impl; [eassumption|]); cbn; lia.
Qed.

Lemma render_list_line es : Forall entry_ok es -> one_line (render_list es) /\ (render_list es = [] <-> es = []).
Proof.
  intros Hes. assert (Hend : forall c, u8 c < 32 -> ends_with c (render_list es) = false).
  { intros c Hc. unfold ends_with. apply bool_decide_eq_false. unfold render_list.
    induction Hes as [|e es He Hes IH]; [done|]. cbn [map]. destruct (render_entry_text e He) as [Hn Ht].
    destruct es as [|e2 es].
    - change (join LF (render_entry e :: map render_entry [])) with (render_entry e). intros Hl. apply last_Some in Hl as (u & Hu). rewrite Hu in Ht. apply Forall_app in Ht as [_ Ht].
      apply Forall_cons in Ht as [Ht _]. lia.
    - rewrite join_cons by done. destruct (last (join LF (map render_entry (e2 :: es)))) eqn:Hl.
      + assert (Hb : Some b <> Some c) by congruence. apply last_Some in Hl as (u & Hu). rewrite Hu.
        change (LF :: u ++ [b]) with ((LF :: u) ++ [b]). by rewrite app_assoc, last_snoc.
      + apply last_None in Hl. cbn [map] in Hl. apply Forall_cons in Hes as [He2 _].
        destruct (render_entry_text e2 He2) as [Hn2 _].
        destruct (map render_entry es); cbn [join] in Hl; [done|]. by destruct (render_entry e2). }
  split.
  - split_and!; try (by apply Hend). intros Hin. clear Hend. unfold render_list in Hin.
    induction Hes as [|e es He Hes IH]; [by apply not_elem_of_nil in Hin|]. cbn [map] in Hin.
    destruct (render_entry_text e He) as [Hn Ht].
    assert (Hno : NUL ∉ render_entry e) by (intros Hx; rewrite Forall_forall in Ht; apply Ht in Hx; cbn in Hx; by destruct Hx).
    destruct (map render_entry es) as [|q qs] eqn:Hm; [done|]. rewrite join_cons in Hin by done.
    apply elem_of_app in Hin as [?|Hin]; [done|]. apply elem_of_cons in Hin as [?|Hin]; [done|]. by apply IH.
  - split; [|by intros ->]. destruct Hes as [|e es He _]; [done|]. destruct (render_entry_text e He) as [Hn _].
    unfold render_list. cbn [map]. destruct (map render_entry es); cbn [join]; [done|]. by destruct (render_entry e).
Qed.

Definition list_ending (ending : bytes) : Prop :=
  ending = [] \/ ending = [LF] \/ ending = [CR; LF] \/ ending = [LF; LF].

Lemma normalize_spec output v : one_line v ->
  normalize_forward_list output = Ok v <-> exists ending, list_ending ending /\ output = v ++ ending.
Proof.
  intros Hv. unfold normalize_forward_list, list_ending. split.
  - destruct (strip_suffix [LF; LF] output) as [u|] eqn:Hs.
    + apply strip_suffix_spec in Hs as ->. intros Hp. res_inv Hp. injection Hp as ->. eauto 8.
    + intros (_ & [-> | [-> | ->]])%strip_line_spec; [exists []; rewrite app_nil_r|..]; eauto 8.
  - intros (ending & He & ->). destruct Hv as (Hcr & Hlf & Hnul).
    destruct He as [-> | [-> | [-> | ->]]].
    4: { rewrite (proj2 (strip_suffix_spec [LF; LF] (v ++ [LF; LF]) v)) by done. by rewrite Hlf. }
    all: destruct (strip_suffix [LF; LF] _) as [u|] eqn:Hs; [|apply strip_line_spec; rewrite ?app_nil_r; split; [by split_and!|by auto]].
    all: apply strip_suffix_spec in Hs; change [LF; LF] with ([LF] ++ [LF]) in Hs; rewrite app_assoc in Hs.
    + rewrite app_nil_r in Hs. by rewrite (proj2 (ends_with_spec LF v) (ex_intro _ _ Hs)) in Hlf.
    + apply app_inj_tail in Hs as [Hs _]. by rewrite (proj2 (ends_with_spec LF v) (ex_intro _ _ Hs)) in Hlf.
    + change [CR; LF] with ([CR] ++ [LF]) in Hs. rewrite app_assoc in Hs. apply app_inj_tail in Hs as [Hs _].
      by apply app_inj_tail in Hs as [_ Hs].
Qed.

(** The list of forwardings is read exactly: an output is a list of entries if it consists of
    one line of three graphic fields for each, separated by spaces and line feeds, with at
    most one line ending, or two line feeds, after the last. *)
Lemma forward_list_spec output es :
  parse_forward_list output = Ok es <->
  Forall entry_ok es /\ exists ending, list_ending ending /\ output = render_list es ++ ending.
Proof.
  unfold parse_forward_list. rewrite res_bind_ok. split.
  - intros (v & Hv & Hes). destruct (is_empty v) eqn:Hempty.
    + apply is_empty_true in Hempty as ->. injection Hes as <-. split; [done|].
      apply (normalize_spec output []); [|done]. split_and!; try done. by apply not_elem_of_nil.
    + apply collect_spec in Hes. assert (He : map render_entry es = split_on LF v /\ Forall entry_ok es).
      { induction Hes as [|l e ls es Hl _ IH]; [done|]. apply forward_line_spec in Hl as [-> Hok]. destruct IH as [<- ?].
        split; [done|]. by constructor. }
      destruct He as [Hm Hok]. split; [done|]. assert (Hr : render_list es = v) by (unfold render_list; by rewrite Hm, join_split).
      subst v. apply normalize_spec in Hv; [done|]. by apply render_list_line.
  - intros (Hok & Hout). destruct (render_list_line es Hok) as [Hline Hnil]. exists (render_list es).
    split; [by apply normalize_spec|]. destruct (is_empty (render_list es)) eqn:Hempty.
    + apply is_empty_true, Hnil in Hempty as ->. done.
    + apply collect_spec. unfold render_list. rewrite split_join.
      * clear -Hok. induction Hok; cbn; constructor; [by apply forward_line_spec|done].
      * intros Hm. apply map_eq_nil in Hm as ->. done.
      * apply Forall_map. eapply Forall_impl; [exact Hok|]. intros e He. destruct (render_entry_text e He) as [_ Ht].
        eapply Forall_impl; [exact Ht|]. intros b Hb ->. cbn in Hb. by destruct Hb.
Qed.

(** ** Numbers *)

Lemma number_snoc ds d : number (ds ++ [d]) = number ds * 10 + (u8 d - 48).
Proof. unfold number. by rewrite foldl_app. Qed.
Lemma digit_byte n : 0 <= n < 10 -> u8 (b8 (48 + n)) = 48 + n.
Proof. intros. apply u8_b8_small. lia. Qed.
Lemma digits_spec fuel n : 0 <= n < 10 ^ Z.of_nat fuel -> (0 < fuel)%nat ->
  digits fuel n <> [] /\ Forall (fun b => 48 <= u8 b <= 57) (digits fuel n) /\ number (digits fuel n) = n.
Proof.
  revert n. induction fuel as [|fuel IH]; intros n Hn Hf; [lia|]. cbn [digits].
  destruct (Z.ltb_spec n 10) as [Hlt|Hge].
  - split_and!; [done| |unfold number; cbn [foldl]; rewrite digit_byte; lia].
    repeat constructor; rewrite digit_byte; lia.
  - rewrite Nat2Z.inj_succ, Z.pow_succ_r in Hn by lia.
    pose proof (Z.mod_pos_bound n 10 ltac:(lia)). pose proof (Z.div_mod n 10 ltac:(lia)).
    assert (Hq : 0 <= n / 10 < 10 ^ Z.of_nat fuel) by (split; [apply Z.div_pos|apply Z.div_lt_upper_bound]; lia).
    destruct fuel as [|fuel]; [change (10 ^ Z.of_nat 0) with 1 in *; lia|].
    destruct (IH (n / 10) Hq ltac:(lia)) as (Hne & Hd & Hv). split_and!.
    + by destruct (digits (S fuel) (n / 10)).
    + apply Forall_app. split; [done|]. repeat constructor; rewrite digit_byte; lia.
    + rewrite number_snoc, Hv, digit_byte by lia. lia.
Qed.
Lemma decimal_spec n : 0 <= n <= U64_MAX ->
  decimal n <> [] /\ Forall (fun b => 48 <= u8 b <= 57) (decimal n) /\ number (decimal n) = n.
Proof. intros Hn. apply digits_spec; [|lia]. unfold U64_MAX in Hn. change (10 ^ Z.of_nat 20) with 100000000000000000000. lia. Qed.
Lemma decimal_inj a b : 0 <= a <= U64_MAX -> 0 <= b <= U64_MAX -> decimal a = decimal b -> a = b.
Proof. intros Ha Hb He. apply decimal_spec in Ha as (_ & _ & <-), Hb as (_ & _ & <-). by rewrite He. Qed.

Lemma is_digit_spec b : is_digit b = true <-> 48 <= u8 b <= 57.
Proof. unfold is_digit, in_range. rewrite andb_true_iff, !Z.leb_le. lia. Qed.
Lemma all_digits_spec v : all_digits v = true <-> v <> [] /\ Forall (fun b => 48 <= u8 b <= 57) v.
Proof.
  unfold all_digits. rewrite andb_true_iff, negb_true_iff, forallb_forall, Forall_forall.
  setoid_rewrite is_digit_spec. setoid_rewrite list_elem_of_In. destruct v; cbn [is_empty]; naive_solver.
Qed.
Lemma parse_u16_digits v : all_digits v = true -> parse_u16 v = if 65535 <? number v then None else Some (number v).
Proof.
  intros Hv. unfold parse_u16. apply all_digits_spec in Hv as Hd. destruct Hd as [Hn Hd].
  destruct v as [|c rest]; [done|]. apply Forall_cons in Hd as [Hc _].
  rewrite (proj2 (Z.eqb_neq (u8 c) 43)) by lia. cbn [andb].
  unfold all_digits in Hv. apply andb_true_iff in Hv as [He Hv]. rewrite Hv. by destruct (65535 <? _).
Qed.

(** A port is read exactly: a line of digits of a number from 1 to 65535. *)
Lemma parse_port_spec output port :
  parse_port output = Ok port <->
  exists ds, all_digits ds = true /\ number ds = port /\ 1 <= port <= 65535 /\
    (output = ds \/ output = ds ++ [LF] \/ output = ds ++ [CR; LF]).
Proof.
  assert (Hline : forall ds, all_digits ds = true -> one_line ds /\ 0 <= number ds).
  { intros ds [Hn Hd]%all_digits_spec. assert (Hc : forall c, u8 c < 48 -> c ∉ ds).
    { intros c Hc Hin. rewrite Forall_forall in Hd. apply Hd in Hin. lia. }
    split.
    - assert (He : forall c, u8 c < 48 -> ends_with c ds = false).
      { intros c Hlt. destruct (ends_with c ds) eqn:E; [|done]. apply ends_with_spec in E as (u & ->).
        destruct (Hc c Hlt). set_solver. }
      split_and!; [by apply He..|by apply Hc].
    - clear Hn Hc. induction ds as [|d ds IH] using rev_ind; [done|]. apply Forall_app in Hd as [Hd Hl].
      apply Forall_cons in Hl as [Hl _]. rewrite number_snoc. specialize (IH Hd). lia. }
  unfold parse_port. rewrite res_bind_ok. setoid_rewrite strip_line_spec. split.
  - intros (ds & (_ & Ho) & Hp). res_inv Hp. rewrite parse_u16_digits in Ho0 by done.
    destruct (Z.ltb_spec 65535 (number ds)); [done|]. injection Ho0 as <-. injection Hp as <-. bool_split.
    exists ds. destruct (Hline ds Hc) as [_ Hz]. split_and!; try done; lia.
  - intros (ds & Hd & <- & Hp & Ho). exists ds. split; [by split; [apply Hline|]|]. rewrite Hd. cbn.
    rewrite parse_u16_digits by done. destruct (Z.ltb_spec 65535 (number ds)); [lia|]. cbn.
    destruct (Z.eqb_spec (number ds) 0); [lia|done].
Qed.

Lemma decimal_digits n : 0 <= n <= U64_MAX -> all_digits (decimal n) = true /\ number (decimal n) = n.
Proof. intros (Hn & Hd & Hv)%decimal_spec. split; [|done]. by apply all_digits_spec. Qed.
Lemma parse_port_decimal port : 1 <= port <= 65535 -> parse_port (decimal port ++ [LF]) = Ok port.
Proof.
  intros Hp. apply parse_port_spec. destruct (decimal_digits port) as [Hd Hv]; [unfold U64_MAX; lia|].
  exists (decimal port). split_and!; try done; try lia. auto.
Qed.
Lemma parse_local_port_of port : 1 <= port <= 65535 -> parse_local_port (local_of port) = Ok port.
Proof.
  intros Hp. destruct (decimal_digits port) as [Hd Hv]; [unfold U64_MAX; lia|].
  unfold parse_local_port, local_of, strip_prefix. rewrite take_app_length, drop_app_length, bytes_eqb_refl. cbn [res_of_option res_bind].
  rewrite parse_u16_digits, Hv by done. destruct (Z.ltb_spec 65535 port); [lia|]. cbn.
  destruct (Z.eqb_spec port 0); [lia|done].
Qed.
Lemma local_of_inj a b : 0 <= a <= 65535 -> 0 <= b <= 65535 -> local_of a = local_of b -> a = b.
Proof. intros Ha Hb He%app_inv_head. apply decimal_inj; unfold U64_MAX in *; [lia|lia|done]. Qed.
Lemma local_of_safe port : 0 <= port <= U64_MAX -> safe_tool_field (local_of port) = true.
Proof.
  intros (Hn & Hd & _)%decimal_spec. apply safe_field_spec. unfold local_of. split; [done|].
  apply Forall_app. split; [|eapply Forall_impl; [done|]; cbn; lia].
  apply Forall_forall. intros b Hb. cbn in Hb. repeat (apply elem_of_cons in Hb as [->|Hb]; [done|]). by apply not_elem_of_nil in Hb.
Qed.
