(* ===== verification/Forwards.v ===== *)
(** The port forwardings of the [adb] server, and what the Android adapter does to them. *)

From S2P Require Import Prelude Crates Control Adapter Apk Axml Machine Adb Loopback Android Listings.

(** The operations of a machine other than its commands. *)
Inductive machine_op `{Machine W} : forall A, (W -> A * W) -> Prop :=
| op_unix_ms : machine_op _ unix_ms
| op_sleep n : machine_op _ (sleep_ms n)
| op_flag_new : machine_op _ flag_new
| op_flag_load f : machine_op _ (flag_load f)
| op_getrandom n : machine_op _ (getrandom n)
| op_process_id : machine_op _ process_id
| op_temp_dir : machine_op _ temp_dir
| op_open p : machine_op _ (open_file p)
| op_metadata f : machine_op _ (file_metadata f)
| op_read f n : machine_op _ (file_read f n)
| op_create p : machine_op _ (create_file p)
| op_write f b : machine_op _ (file_write_all f b)
| op_flush f : machine_op _ (file_flush f)
| op_read_only p : machine_op _ (set_read_only p)
| op_bytes p : machine_op _ (file_bytes p)
| op_create_dir p : machine_op _ (create_dir p)
| op_remove_file p : machine_op _ (remove_file p)
| op_remove_dir p : machine_op _ (remove_dir p)
| op_connect p n : machine_op _ (connect_timeout p n)
| op_nodelay x : machine_op _ (set_nodelay x)
| op_clone x : machine_op _ (try_clone x)
| op_read_timeout x n : machine_op _ (set_read_timeout x n)
| op_write_timeout x n : machine_op _ (set_write_timeout x n)
| op_socket_read x b : machine_op _ (socket_read x b)
| op_socket_write x b : machine_op _ (socket_write x b)
| op_shutdown x : machine_op _ (socket_shutdown x)
| op_swap f : machine_op _ (flag_swap f).

(** The documented behaviour of the tool: one local end leads to one place, the list is the
    list, [tcp:0] picks a free port and prints it, and a command that fails may have been
    carried out or not, but not in part.  The server is not used by others meanwhile. *)
Class AdbServer (W : Type) `{CommandRunner W} := {
  forwards : W -> list ForwardEntry;
  machine_keeps : forall A (f : W -> A * W) w, machine_op A f -> forwards (snd (f w)) = forwards w;
  command_keeps : forall exe serial args flag d w, head args <> Some (str "forward") ->
    forwards (snd (run_command exe serial args flag d w)) = forwards w;
  list_lists : forall exe serial flag d w,
    let '(r, w') := run_command exe serial [str "forward"; str "--list"] flag d w in
    forwards w' = forwards w /\
    forall o, r = Ok o -> exists ending, list_ending ending /\ stdout o = render_list (forwards w) ++ ending;
  create_creates : forall exe serial remote flag d w,
    let '(r, w') := run_command exe serial [str "forward"; str "tcp:0"; remote] flag d w in
    (forwards w' = forwards w /\ is_ok r = false) \/
    exists port, 1 <= port <= 65535 /\ ~ In (local_of port) (map fe_local (forwards w)) /\
      forwards w' = forwards w ++ [mkForward serial (local_of port) remote] /\
      forall o, r = Ok o -> stdout o = decimal port ++ [LF];
  remove_removes : forall exe serial local flag d w,
    let '(r, w') := run_command exe serial [str "forward"; str "--remove"; local] flag d w in
    (forwards w' = forwards w /\ is_ok r = false) \/
    forwards w' = List.filter (fun e => negb (bytes_eqb (fe_serial e) serial && bytes_eqb (fe_local e) local)) (forwards w)
}.

(** A table the tool can show, in which a local end occurs once. *)
Definition table_ok (l : list ForwardEntry) : Prop := Forall entry_ok l /\ NoDup (map fe_local l).

Section Table.
Context `{AdbServer W}.

Definition table (s : Host W) : list ForwardEntry := forwards (h_world s).

Lemma frame_act {A} (f : W -> A * W) : machine_op A f -> Prelude.frame table (act f).
Proof. intros Hf s. unfold act. pose proof (machine_keeps A f (h_world s) Hf). by destruct (f (h_world s)). Qed.
Lemma frame_act_as {A} (ev : A -> HostEvent W) (f : W -> A * W) : machine_op A f -> Prelude.frame table (act_as ev f).
Proof. intros Hf s. unfold act_as. pose proof (machine_keeps A f (h_world s) Hf). by destruct (f (h_world s)). Qed.
Lemma frame_need kind b : Prelude.frame table (need kind b).
Proof. done. Qed.
Lemma frame_or_fail {A} kind (o : option A) : Prelude.frame table (or_fail kind o).
Proof. done. Qed.
Lemma frame_attempt {A} (m : CM W A) : Prelude.frame table m -> Prelude.frame table (attempt m).
Proof. intros Hm s. unfold attempt. specialize (Hm s). by destruct (m s). Qed.
Lemma frame_loop {A} p spent (m : CM W (option A)) : Prelude.frame table m -> Prelude.frame table (loop_ p spent m).
Proof.
  intros Hm s. unfold loop_. rewrite repeat_until_turns. generalize (Pos.to_nat p). intros n.
  assert (Hn : table (snd (turns_of m n s)) = table s).
  { revert s. induction n as [|n IH]; intros s; cbn [turns_of]; [done|]. specialize (Hm s).
    destruct (m s) as [[[a|]|e] s1]; cbn in *; [done| |done]. by rewrite IH. }
  by destruct (turns_of m n s) as [[[a|]|e] s'].
Qed.

Lemma frame_run c args flag d : head args <> Some (str "forward") -> Prelude.frame table (adb_run c args flag d).
Proof.
  intros Hh. unfold adb_run. apply frame_bind; [|intros; apply frame_lift]. intros s. unfold act_as.
  pose proof (command_keeps (executable c) (client_serial c) args flag d (h_world s) Hh).
  by destruct (run_command _ _ _ _ _ _).
Qed.
End Table.

Create HintDb frames.
#[export] Hint Resolve frame_lift frame_ret frame_throw frame_need frame_or_fail frame_attempt frame_loop : frames.
#[export] Hint Constructors machine_op : frames.

Ltac frame_auto :=
  repeat first
  [ progress intros
  | match goal with
    | |- Prelude.frame _ (mbind_M _ _) => apply frame_bind
    | |- Prelude.frame _ (let '(_, _) := ?x in _) => destruct x
    | |- Prelude.frame _ (match ?x with _ => _ end) => destruct x
    | |- Prelude.frame _ (act_as _ _) => apply frame_act_as
    | |- Prelude.frame _ (act _) => apply frame_act
    | |- Prelude.frame _ (adb_run _ _ _ _) => apply frame_run
    end
  | solve [auto with frames]
  | discriminate ].

Section Frames.
Context `{AdbServer W} `{Zlib} `{Sha2} `{Base64}.

Lemma frame_now : Prelude.frame table now_unix_ms.
Proof. unfold now_unix_ms. frame_auto. Qed.
Lemma frame_remaining d : Prelude.frame table (remaining d).
Proof. unfold remaining. frame_auto. apply frame_now. Qed.
Lemma frame_expired d : Prelude.frame table (expired d).
Proof. unfold expired. frame_auto. apply frame_attempt, frame_now. Qed.
Lemma frame_active flag d : Prelude.frame table (ensure_active flag d).
Proof. unfold ensure_active. frame_auto. apply frame_expired. Qed.
Lemma frame_connect port flag d : Prelude.frame table (connect port flag d).
Proof. apply frame_loop. unfold connect_turn, LoopbackRaw_new. frame_auto; try apply frame_active; try apply frame_remaining. Qed.
Lemma frame_rollback_deadline : Prelude.frame table rollback_deadline.
Proof. unfold rollback_deadline. frame_auto. Qed.
Lemma frame_force_stop c package d : Prelude.frame table (force_stop c package d).
Proof. unfold force_stop. frame_auto. Qed.
Lemma frame_probe c flag d : Prelude.frame table (probe c flag d).
Proof. unfold probe. frame_auto. Qed.
Lemma frame_online c flag d : Prelude.frame table (require_online c flag d).
Proof. unfold require_online. frame_auto. Qed.
Lemma frame_install c path flag d : Prelude.frame table (install c path flag d).
Proof. unfold install. frame_auto. Qed.
Lemma frame_start c component encoded flag d : Prelude.frame table (start c component encoded flag d).
Proof. unfold start. frame_auto. Qed.

Lemma frame_copy source destination length expected flag d :
  Prelude.frame table (copy_verified source destination length expected flag d).
Proof.
  intros s. unfold copy_verified, loop_. rewrite repeat_until_turns. generalize (Pos.to_nat COPY_TURNS). intros n.
  set (turn := copy_turn source destination length expected flag d).
  assert (Hturn : forall data s, table (snd (snd (turn (data, s)))) = table s).
  { intros data s0. unfold turn, copy_turn. set (m := run ensure_active flag d; _).
    assert (Hm : Prelude.frame table m) by (unfold m; frame_auto; apply frame_active).
    specialize (Hm s0). by destruct (m s0) as [[[?|]|?] ?]. }
  assert (Hn : forall data s, table (snd (snd (turns_of turn n (data, s)))) = table s).
  { clear s. induction n as [|n IH]; intros data s; cbn [turns_of]; [done|]. specialize (Hturn data s).
    destruct (turn (data, s)) as [[[a|]|e] [data' s1]]; cbn in *; [done| |done]. by rewrite IH. }
  specialize (Hn [] s). by destruct (turns_of turn n ([], s)) as [[[[]|]|e] [data' s']].
Qed.
Lemma frame_directory tries flag d : Prelude.frame table (snapshot_directory tries flag d).
Proof. induction tries; cbn [snapshot_directory]; frame_auto; apply frame_active. Qed.
Lemma frame_cleanup_snapshot directory path : Prelude.frame table (cleanup_snapshot directory path).
Proof. unfold cleanup_snapshot. frame_auto. Qed.
Lemma frame_snapshot source digest package flag d : Prelude.frame table (snapshot_create source digest package flag d).
Proof.
  unfold snapshot_create. frame_auto; try apply frame_active; try apply frame_directory; try apply frame_cleanup_snapshot.
  apply frame_attempt. unfold fill_snapshot, validate_path. frame_auto. apply frame_copy.
Qed.
End Frames.

(** ** The forwarding of a launch *)

Section Forwarding.
Context `{AdbServer W} `{Zlib} `{Sha2} `{Base64}.

Definition ours (c : AdbClient) (name : bytes) (port : Z) : ForwardEntry :=
  mkForward (client_serial c) (local_of port) (remote_of name).
Definition without (e : ForwardEntry) (l : list ForwardEntry) : list ForwardEntry :=
  List.filter (fun x => negb (bool_decide (x = e))) l.

Lemma without_absent e l : ~ In e l -> without e l = l.
Proof.
  induction l as [|x l IH]; intros Hn; [done|]. cbn. rewrite bool_decide_eq_false_2 by (intros ->; apply Hn; by left).
  cbn. f_equal. apply IH. intros Hi. apply Hn. by right.
Qed.
Lemma without_last e l : ~ In e l -> without e (l ++ [e]) = l.
Proof.
  intros Hn. unfold without. rewrite List.filter_app. fold (without e l). rewrite without_absent by done.
  cbn. rewrite bool_decide_eq_true_2 by done. cbn. by rewrite app_nil_r.
Qed.
Lemma without_ok e l : table_ok l -> table_ok (without e l).
Proof.
  unfold without. intros [Hf Hd]. split.
  - apply Forall_forall. intros x Hx. rewrite Forall_forall in Hf. apply Hf.
    apply list_elem_of_In in Hx. apply filter_In in Hx as [Hx _]. by apply list_elem_of_In.
  - clear Hf. induction l as [|x l IH]; [done|]. cbn in *. apply NoDup_cons in Hd as [Hx Hd]. destruct (negb _); [|auto].
    cbn. apply NoDup_cons. split; [|auto]. intros Hin. apply Hx. apply list_elem_of_In in Hin.
    apply in_map_iff in Hin as (y & Hy & Hin). apply filter_In in Hin as [Hin _]. apply list_elem_of_In, in_map_iff. eauto.
Qed.
Lemma table_ok_snoc l c name port : table_ok l -> 1 <= port <= 65535 ->
  safe_tool_field (client_serial c) = true -> safe_tool_field (remote_of name) = true ->
  ~ In (local_of port) (map fe_local l) -> table_ok (l ++ [ours c name port]).
Proof.
  intros [Hf Hd] Hp Hs Hr Hn. split.
  - apply Forall_app. split; [done|]. repeat constructor; cbn; [done| |done]. apply local_of_safe. unfold U64_MAX. lia.
  - rewrite map_app. apply NoDup_app. split_and!; [done| |apply NoDup_singleton].
    intros x Hx Hx'. cbn in Hx'. apply list_elem_of_singleton in Hx' as ->. by apply Hn, list_elem_of_In.
Qed.

(** In a table one entry at most has a local end. *)
Lemma local_unique l e1 e2 : NoDup (map fe_local l) -> In e1 l -> In e2 l -> fe_local e1 = fe_local e2 -> e1 = e2.
Proof.
  induction l as [|x l IH]; intros Hd H1' H2' He; [done|]. cbn in *. apply NoDup_cons in Hd as [Hx Hd].
  destruct H1' as [->|H1'], H2' as [->|H2']; [done| | |auto].
  - destruct Hx. apply list_elem_of_In, in_map_iff. eauto.
  - destruct Hx. apply list_elem_of_In, in_map_iff. eauto.
Qed.
Lemma removed_without l c name port : NoDup (map fe_local l) -> In (ours c name port) l ->
  List.filter (fun e => negb (bytes_eqb (fe_serial e) (client_serial c) && bytes_eqb (fe_local e) (local_of port))) l =
  without (ours c name port) l.
Proof.
  intros Hd Hin. apply filter_ext_in. intros e He. f_equal.
  destruct (bytes_eqb (fe_serial e) (client_serial c)) eqn:Hs, (bytes_eqb (fe_local e) (local_of port)) eqn:Hl; cbn;
    symmetry; rewrite ?bool_decide_eq_true, ?bool_decide_eq_false; bool_split.
  - by eapply local_unique.
  - intros ->. by rewrite bytes_eqb_refl in Hl.
  - intros ->. by rewrite bytes_eqb_refl in Hs.
  - intros ->. by rewrite bytes_eqb_refl in Hs.
Qed.

Lemma in_with_local c local l e :
  In e (with_local c local l) <-> In e l /\ fe_serial e = client_serial c /\ fe_local e = local.
Proof. unfold with_local. rewrite filter_In, andb_true_iff, !bytes_eqb_eq. done. Qed.
Lemma in_with_remote c remote l e :
  In e (with_remote c remote l) <-> In e l /\ fe_serial e = client_serial c /\ fe_remote e = remote.
Proof. unfold with_remote. rewrite filter_In, andb_true_iff, !bytes_eqb_eq. done. Qed.

(** ** The commands *)

Lemma forward_list_table c flag d s : table_ok (table s) ->
  let '(r, s') := forward_list c flag d s in table s' = table s /\ forall es, r = Ok es -> es = table s.
Proof.
  intros [Hf Hd]. unfold forward_list, adb_run, mbind_M, act_as.
  pose proof (list_lists (executable c) (client_serial c) flag d (h_world s)) as Hl.
  destruct (run_command _ _ _ _ _ _) as [r w]. destruct Hl as [Hk Hl]. cbn [lift].
  assert (Ht : table (mkHost w (h_log s ++ [ECommand [str "forward"; str "--list"] flag d r])) = table s) by done.
  destruct r as [o|f]; cbn [res_bind]; [|by split].
  destruct (adb_output o) as [out|f] eqn:Ho; [|by split]. split; [done|]. intros es He.
  unfold adb_output in Ho. res_inv Ho. injection Ho as <-.
  destruct (Hl o eq_refl) as (ending & Hending & Hout). rewrite Hout in He.
  assert (He' : parse_forward_list (render_list (table s) ++ ending) = Ok (table s)) by (apply forward_list_spec; eauto).
  cbn in He. unfold table in He' |- *. congruence.
Qed.

Lemma frame_list c flag d : Prelude.frame table (forward_list c flag d).
Proof.
  unfold forward_list. apply frame_bind; [|intros; apply frame_lift]. unfold adb_run.
  apply frame_bind; [|intros; apply frame_lift]. intros s. unfold act_as.
  pose proof (list_lists (executable c) (client_serial c) flag d (h_world s)) as Hl.
  destruct (run_command _ _ _ _ _ _) as [r w]. by destruct Hl.
Qed.

Lemma create_table c name flag d s :
  let '(r, s') := create_forward c name flag d s in
  (table s' = table s /\ is_ok r = false) \/
  exists port, 1 <= port <= 65535 /\ ~ In (local_of port) (map fe_local (table s)) /\
    table s' = table s ++ [ours c name port] /\ forall p, r = Ok p -> p = port.
Proof.
  unfold create_forward, adb_run, mbind_M, act_as.
  pose proof (create_creates (executable c) (client_serial c) (remote_of name) flag d (h_world s)) as Hc.
  destruct (run_command _ _ _ _ _ _) as [r w]. cbn [lift].
  destruct Hc as [[Hk Hr]|(port & Hp & Hn & Hk & Ho)].
  - destruct r; [done|]. left. by split.
  - destruct r as [o|f]; cbn [res_bind]; [|right; exists port; do 3 (split; [done|]); by intros].
    destruct (adb_output o) as [out|f] eqn:Hout; right; exists port; do 3 (split; [done|]); [|by intros].
    intros p Hpp. unfold adb_output in Hout. res_inv Hout. injection Hout as <-.
    rewrite (Ho o eq_refl), parse_port_decimal in Hpp by done. by injection Hpp as <-.
Qed.

(** [exact]: our entry is gone; otherwise it may be. *)
Definition gives_back (e : ForwardEntry) (t : list ForwardEntry) (r : PRes unit) (t' : list ForwardEntry) : Prop :=
  match r with Ok _ => t' = without e t | Err _ => t' = t \/ t' = without e t end.

Lemma run_remove c local flag d s :
  let '(r, s') := adb_run c [str "forward"; str "--remove"; local] flag d s in
  (table s' = table s /\ is_ok r = false) \/
  table s' = List.filter (fun e => negb (bytes_eqb (fe_serial e) (client_serial c) && bytes_eqb (fe_local e) local)) (table s).
Proof.
  unfold adb_run, mbind_M, act_as.
  pose proof (remove_removes (executable c) (client_serial c) local flag d (h_world s)) as Hr.
  destruct (run_command _ _ _ _ _ _) as [r w]. cbn [lift]. destruct Hr as [[Hk Hr]|Hk]; [|by right].
  destruct r; [done|]. left. by split.
Qed.

Lemma remove_exact_table c port name flag d s : table_ok (table s) ->
  let '(r, s') := remove_exact_with_cancellation c port name flag d s in
  gives_back (ours c name port) (table s) r (table s').
Proof.
  intros Hok. unfold remove_exact_with_cancellation. unfold mbind_M at 1.
  pose proof (forward_list_table c flag d s Hok) as Hl. destruct (forward_list c flag d s) as [[es|f] s1]; [|left; exact (proj1 Hl)].
  destruct Hl as [Ht1 Hes]. specialize (Hes es eq_refl) as ->.
  pose proof (in_with_local c (local_of port) (table s)) as Hin.
  destruct (with_local c (local_of port) (table s)) as [|e [|e2 l]].
  - cbn. rewrite Ht1. symmetry. apply without_absent. intros Ho. by apply (Hin (ours c name port)).
  - unfold mbind_M at 1. destruct (bytes_eqb (fe_remote e) (remote_of name)) eqn:Hr; cbn [need lift ensure]; [|left; done].
    apply bytes_eqb_eq in Hr. assert (He : e = ours c name port /\ In e (table s)).
    { destruct (proj1 (Hin e)) as (? & Hs & Hlo); [by left|]. split; [|done]. destruct e. cbn in *. by subst. }
    destruct He as [-> Hi]. unfold mbind_M at 1.
    pose proof (run_remove c (local_of port) flag d s1) as Hrm.
    rewrite Ht1, (removed_without _ _ name) in Hrm; [|apply Hok|done].
    destruct (adb_run _ _ flag d s1) as [[out|f] s2].
    + destruct Hrm as [[_ ?]|Ht2]; [done|]. unfold mbind_M at 1.
      destruct (require_exact_line out []); cbn [lift]; [|by right]. unfold mbind_M at 1.
      assert (Hok2 : table_ok (table s2)) by (rewrite Ht2; by apply without_ok).
      pose proof (forward_list_table c flag d s2 Hok2) as Hl2.
      destruct (forward_list c flag d s2) as [[after|f] s3]; destruct Hl2 as [Ht3 _]; rewrite Ht2 in Ht3; [|by right].
      destruct (is_empty _); cbn; [done|by right].
    + destruct Hrm as [[Ht2 _]|Ht2]; [by left|by right].
  - left. done.
Qed.

Lemma act_flag_new {A} (k : Flag -> CM W A) s : exists flag s1, table s1 = table s /\ mbind_M (act flag_new) k s = k flag s1.
Proof.
  unfold mbind_M, act. pose proof (machine_keeps _ flag_new (h_world s) op_flag_new) as Hk.
  destruct (flag_new (h_world s)) as [flag w]. exists flag, (mkHost w (h_log s)). done.
Qed.

Lemma remove_by_remote_table c port name d s t : table_ok (table s) -> 1 <= port <= 65535 ->
  (forall e, In e t -> fe_serial e = client_serial c -> fe_remote e <> remote_of name) ->
  table s = t \/ table s = t ++ [ours c name port] ->
  let '(r, s') := remove_by_remote c name d s in
  match r with Ok _ => table s' = t | Err _ => table s' = table s \/ table s' = t end.
Proof.
  intros Hok Hp Hno Ht. unfold remove_by_remote.
  destruct (act_flag_new (fun cancellation => do entries <- forward_list c cancellation d;
     match with_remote c (remote_of name) entries with
     | [] => ret tt
     | first :: rest => do port <- lift (parse_local_port (fe_local first));
         run need PlatformCleanupFailed (is_empty rest); remove_exact c port name d
     end) s) as (flag & s1 & Ht1 & ->).
  unfold mbind_M at 1. assert (Hok1 : table_ok (table s1)) by (by rewrite Ht1).
  pose proof (forward_list_table c flag d s1 Hok1) as Hl.
  destruct (forward_list c flag d s1) as [[es|f] s2]; destruct Hl as [Ht2 Hes]; rewrite Ht1 in *; [|by left].
  specialize (Hes es eq_refl) as ->.
  assert (Hnil : with_remote c (remote_of name) t = []).
  { destruct (with_remote c (remote_of name) t) as [|e l] eqn:He; [done|].
    destruct (proj1 (in_with_remote c (remote_of name) t e)) as (? & ? & ?); [rewrite He; by left|]. by destruct (Hno e). }
  destruct Ht as [Ht|Ht]; rewrite Ht.
  - rewrite Hnil. cbn. congruence.
  - assert (Hw : with_remote c (remote_of name) (t ++ [ours c name port]) = [ours c name port]).
    { unfold with_remote in *. rewrite List.filter_app, Hnil. cbn. by rewrite !bytes_eqb_refl. }
    rewrite Hw. unfold mbind_M at 1. cbn [fe_local ours]. rewrite parse_local_port_of by done. cbn [lift].
    unfold mbind_M at 1. cbn [need lift is_empty ensure]. unfold remove_exact.
    destruct (act_flag_new (fun cancellation => remove_exact_with_cancellation c port name cancellation d) s2) as (flag2 & s3 & Ht3 & ->).
    assert (Hok3 : table_ok (table s3)) by (rewrite Ht3, Ht2; done).
    pose proof (remove_exact_table c port name flag2 d s3 Hok3) as Hr.
    assert (Hwo : without (ours c name port) (table s3) = t).
    { rewrite Ht3, Ht2, Ht. apply without_last. intros Hi. by destruct (Hno _ Hi). }
    destruct (remove_exact_with_cancellation c port name flag2 d s3) as [[[]|f] s4]; cbn in Hr; rewrite Hwo in Hr; [done|].
    rewrite Ht3, Ht2, Ht in Hr. done.
Qed.

(** ** Launching *)

Lemma post_frame {A} (m : CM W A) s (Q : A -> Host W -> Prop) X : Prelude.frame table m ->
  (forall a s', table s' = table s -> Q a s') -> (forall e s', table s' = table s -> X e s') -> post m s Q X.
Proof. intros Hm Hq Hx. unfold post. specialize (Hm s). destruct (m s) as [[a|e] s']; cbn in Hm; auto. Qed.
Lemma post_attempt {A} (m : CM W A) s (Q : PRes A -> Host W -> Prop) X :
  post m s (fun a s' => Q (Ok a) s') (fun e s' => Q (Err e) s') -> post (attempt m) s Q X.
Proof. unfold post, attempt. by destruct (m s) as [[a|e] s']. Qed.
Lemma post_or_rollback {A} (m : CM W A) rb s (Q : A -> Host W -> Prop) X :
  post m s Q (fun f s' => post (rb f) s' Q X) -> post (or_rollback m rb) s Q X.
Proof.
  intros Hm. unfold or_rollback. apply post_bind, post_attempt. eapply post_mono; [exact Hm|done|done].
Qed.

(** The table after a failure: as it was, or with our entry where the cleanup failed. *)
Definition forward_failed (c : AdbClient) (name : bytes) (t0 : list ForwardEntry) (f : PlatformFailure) (s' : Host W) : Prop :=
  table s' = t0 \/
  pf_kind f = PlatformCleanupFailed /\ exists port, 1 <= port <= 65535 /\ table s' = t0 ++ [ours c name port].

Lemma rollback_table {A} original c name package rb s t0 (Q : A -> Host W -> Prop) :
  (forall d s1, table s1 = table s -> post (rb d) s1 (fun _ s2 => table s2 = t0) (fun _ s2 => table s2 = table s \/ table s2 = t0)) ->
  table s = t0 \/ (exists port, 1 <= port <= 65535 /\ table s = t0 ++ [ours c name port]) ->
  post (rollback_after_started original c package rb) s Q (forward_failed c name t0).
Proof.
  intros Hrb Hs. unfold rollback_after_started, rollback_after. apply post_bind, post_attempt, post_bind.
  assert (Hfail : forall s', table s' = table s \/ table s' = t0 ->
    post (throw (cleanup_failed_after (primary_kind original)) : CM W A) s' Q (forward_failed c name t0)).
  { intros s' [Ht|Ht]; apply post_throw; [|by left]. unfold forward_failed. rewrite Ht.
    destruct Hs as [Hs|(port & ? & Hs)]; [by left|]. right. eauto. }
  apply post_frame; [apply frame_rollback_deadline| |]; [|intros; apply Hfail; by left].
  intros d s1 Ht1. apply post_bind, post_attempt. specialize (Hrb d s1 Ht1).
  eapply post_mono; [exact Hrb| |]; cbn beta.
  - intros [] s2 Ht2. apply post_bind, post_attempt, post_frame; [apply frame_force_stop|..]; intros; apply post_lift; intros ? Hr.
    + apply post_throw. left. congruence.
    + apply Hfail. right. congruence.
    + apply post_throw. left. congruence.
    + apply Hfail. right. congruence.
  - intros f s2 Ht2. apply post_bind, post_attempt, post_frame; [apply frame_force_stop|..]; intros ? s3 Ht3;
      apply post_lift; intros ? Hr; try done; apply Hfail; by rewrite Ht3.
Qed.

(** What a launch leaves in the table when it succeeds. *)
Definition forwarded (c : AdbClient) (name : bytes) (t0 : list ForwardEntry) (io : AndroidIo) (s' : Host W) : Prop :=
  exists port, 1 <= port <= 65535 /\ ai_connector io = port /\ ai_cleanup io = mkCleanup c name port /\
    ~ In (local_of port) (map fe_local t0) /\
    (forall e, In e t0 -> fe_serial e = client_serial c -> fe_remote e <> remote_of name) /\
    table s' = t0 ++ [ours c name port].

Lemma remove_exact_gives c port name t0 d s :
  table_ok (table s) -> ~ In (local_of port) (map fe_local t0) -> table s = t0 ++ [ours c name port] ->
  post (remove_exact c port name d) s (fun _ s' => table s' = t0) (fun _ s' => table s' = table s \/ table s' = t0).
Proof.
  intros Hok Hn Ht. unfold remove_exact, post.
  destruct (act_flag_new (fun cancellation => remove_exact_with_cancellation c port name cancellation d) s) as (flag & s1 & Ht1 & ->).
  pose proof (remove_exact_table c port name flag d s1 ltac:(by rewrite Ht1)) as Hr.
  assert (Hw : without (ours c name port) (table s1) = t0).
  { rewrite Ht1, Ht. apply without_last. intros Hi. apply Hn. by apply (in_map fe_local) in Hi. }
  destruct (remove_exact_with_cancellation c port name flag d s1) as [[[]|f] s2]; cbn in Hr; rewrite Hw in Hr; [done|].
  by rewrite <- Ht1.
Qed.

Section Started.
Context (p : AndroidPendingLaunch) (c : AdbClient) (flag : Flag) (d : AbsoluteDeadline) (t0 : list ForwardEntry).
Let name := pl_localabstract p.
Hypothesis (Hok : table_ok t0) (Hser : safe_tool_field (client_serial c) = true)
  (Hrem : safe_tool_field (remote_of name) = true).

Lemma rollback_same {A} original rb s (Q : A -> Host W -> Prop) : table s = t0 -> (forall d s1, table s1 = t0 -> post (rb d) s1
    (fun _ s2 => table s2 = t0) (fun _ s2 => table s2 = t0)) ->
  post (rollback_after_started original c (pl_package p) rb) s Q (forward_failed c name t0).
Proof.
  intros Hs Hrb. apply rollback_table; [|by left]. intros d0 s1 Ht1. eapply post_mono; [apply Hrb; congruence|done|auto].
Qed.
Lemma rollback_exact {A} original port s (Q : A -> Host W -> Prop) : 1 <= port <= 65535 ->
  ~ In (local_of port) (map fe_local t0) -> table s = t0 ++ [ours c name port] ->
  post (rollback_after_started original c (pl_package p) (fun d => remove_exact c port name d)) s Q (forward_failed c name t0).
Proof.
  intros Hp Hn Hs. apply rollback_table; [|eauto]. intros d0 s1 Ht1. rewrite Hs in Ht1.
  eapply post_mono; [apply (remove_exact_gives _ _ _ t0); [|done|done]|done|].
  - rewrite Ht1. by apply table_ok_snoc.
  - intros f0 s2. by rewrite Ht1, Hs.
Qed.

Lemma connect_started_table s : table s = t0 ->
  post (connect_started p c flag d) s (forwarded c name t0) (forward_failed c name t0).
Proof.
  intros Ht. unfold connect_started. cbv zeta. fold name.
  apply post_bind, post_or_rollback. unfold require_remote_absent. apply post_bind.
  pose proof (forward_list_table c flag d s ltac:(by rewrite Ht)) as Hl. unfold post at 1.
  destruct (forward_list c flag d s) as [[es|f] s1]; destruct Hl as [Ht1 Hes]; rewrite Ht in *.
  2: { apply rollback_same; [done|]. intros d0 s2 Ht2. by apply post_ret. }
  specialize (Hes es eq_refl) as ->. apply post_lift.
  2: { intros e _. apply rollback_same; [done|]. intros d0 s2 Ht2. by apply post_ret. }
  intros [] Habsent%ensure_ok%is_empty_true.
  assert (Hno : forall e, In e t0 -> fe_serial e = client_serial c -> fe_remote e <> remote_of name).
  { intros e He Hs Hr. assert (Hi : In e (with_remote c (remote_of name) t0)) by (by apply in_with_remote). by rewrite Habsent in Hi. }
  apply post_bind, post_or_rollback. pose proof (create_table c name flag d s1) as Hc. rewrite Ht1 in Hc. unfold post at 1.
  destruct (create_forward c name flag d s1) as [[port'|f] s2].
  2: { apply rollback_table; [|destruct Hc as [[? _]|(port & ? & _ & ? & _)]; eauto].
       intros d0 s3 Ht3. destruct Hc as [[Hc _]|(port & Hp & Hn & Hc & _)].
       - pose proof (remove_by_remote_table c 1 name d0 s3 t0 ltac:(by rewrite Ht3, Hc) ltac:(lia) Hno (or_introl (eq_trans Ht3 Hc))) as Hr.
         unfold post. destruct (remove_by_remote c name d0 s3) as [[[]|f'] s4]; [done|]. by rewrite <- Ht3.
       - pose proof (remove_by_remote_table c port name d0 s3 t0 ltac:(rewrite Ht3, Hc; by apply table_ok_snoc) Hp Hno (or_intror (eq_trans Ht3 Hc))) as Hr.
         unfold post. destruct (remove_by_remote c name d0 s3) as [[[]|f'] s4]; [done|]. by rewrite <- Ht3. }
  destruct Hc as [[_ ?]|(port & Hp & Hn & Ht2 & Heq)]; [done|]. specialize (Heq port' eq_refl) as ->.
  apply post_bind, post_or_rollback. unfold require_exact_forward. apply post_bind, post_frame;
    [apply frame_list| |intros e s3 Ht3; apply rollback_exact; congruence].
  intros es s3 Ht3. rewrite Ht2 in Ht3. apply post_lift; [|intros e _; by apply rollback_exact].
  intros _ _. apply post_bind, post_or_rollback, post_frame; [apply frame_connect| |intros e s4 Ht4; apply rollback_exact; congruence].
  intros raw s4 Ht4. apply post_ret. exists port. rewrite Ht4, Ht3. exact (conj Hp (conj eq_refl (conj eq_refl (conj Hn (conj Hno eq_refl))))).
Qed.

(** The whole launch. *)
Lemma launch_table descriptor s : table s = t0 -> c = mkClient (pl_adb_path p) (pl_serial p) ->
  post (launch_android p descriptor flag d) s (forwarded c name t0) (forward_failed c name t0).
Proof.
  intros Ht Hc. unfold launch_android. cbv zeta. rewrite <- Hc.
  assert (Hkeep : forall A B (m : CM W A) (k : A -> CM W B) s (Q : B -> Host W -> Prop), Prelude.frame table m -> table s = t0 ->
    (forall a s', table s' = t0 -> post (k a) s' Q (forward_failed c name t0)) ->
    post (mbind_M m k) s Q (forward_failed c name t0)).
  { intros A B m k s0 Q Hm Hs Hk. apply post_bind, post_frame; [done| |]; intros x s' Hs'; [apply Hk; congruence|].
    left. congruence. }
  apply Hkeep; [by destruct (pl_validation p)|done|]. intros _ s1 Ht1.
  apply Hkeep; [apply frame_active|done|]. intros _ s2 Ht2.
  apply Hkeep; [apply frame_need|done|]. intros _ s3 Ht3.
  apply Hkeep; [apply frame_snapshot|done|]. intros snap s4 Ht4.
  apply Hkeep; [|done|].
  { apply frame_attempt. frame_auto; [apply frame_probe|apply frame_online|apply frame_install]. }
  intros installed s5 Ht5. apply Hkeep; [|done|].
  { apply frame_attempt. unfold snapshot_cleanup. frame_auto. apply frame_cleanup_snapshot. }
  intros cleaned s6 Ht6. apply Hkeep; [apply frame_need|done|]. intros _ s7 Ht7.
  apply Hkeep; [apply frame_lift|done|]. intros _ s8 Ht8.
  apply Hkeep; [apply frame_start|done|]. intros _ s9 Ht9. by apply connect_started_table.
Qed.
End Started.

(** ** Names *)

Lemma hex_digit_graphic n : 0 <= n < 16 -> 48 <= u8 (hex_digit n) <= 102.
Proof. intros Hn. unfold hex_digit. destruct (Z.ltb_spec n 10); rewrite u8_b8_small; lia. Qed.
Lemma hex_spec l : Forall (fun b => 48 <= u8 b <= 102) (hex l) /\ len (hex l) = 2 * len l.
Proof.
  unfold hex. induction l as [|b l [IH IHl]]; [done|]. cbn [map concat app]. pose proof (u8_range b).
  split; [|rewrite !len_cons, IHl; lia].
  repeat (apply Forall_cons; split; [apply hex_digit_graphic; split;
    [first [apply Z.div_pos|apply Z.mod_pos_bound]; lia|first [apply Z.div_lt_upper_bound|apply Z.mod_pos_bound]; lia]|]).
  done.
Qed.

(** The name of an endpoint is a prefix and 32 hexadecimal digits. *)
Definition endpoint_name (name : bytes) : Prop := exists random, len random = 16 /\ name = LOCALABSTRACT_PREFIX ++ hex random.
Lemma endpoint_name_safe name : endpoint_name name -> safe_tool_field (remote_of name) = true.
Proof.
  intros (random & _ & ->). apply safe_field_spec. unfold remote_of. split; [done|].
  rewrite !Forall_app. split_and!; try (apply Forall_forall; intros b Hb; cbn in Hb;
    repeat (apply elem_of_cons in Hb as [->|Hb]; [done|]); by apply not_elem_of_nil in Hb).
  eapply Forall_impl; [apply hex_spec|]. cbn. lia.
Qed.
(** The endpoint of a pending launch is the one it is named by. *)
Lemma endpoint_valid name : endpoint_name name -> android_local_abstract name = Ok (AndroidLocalAbstract name).
Proof.
  intros (random & Hl & ->). unfold android_local_abstract. rewrite len_app, (proj2 (hex_spec random)), Hl. done.
Qed.
Lemma serial_safe serial : android_emulator_serial serial = true -> safe_tool_field serial = true.
Proof.
  unfold android_emulator_serial. intros Hs. apply andb_true_iff in Hs as [_ Hs].
  unfold strip_prefix in Hs. destruct (bytes_eqb _ _) eqn:He; [|done]. apply bytes_eqb_eq in He.
  apply all_digits_spec in Hs as [_ Hd]. apply safe_field_spec. split; [intros ->; done|].
  rewrite <- (take_drop (length (str "emulator-")) serial), He. apply Forall_app. split.
  - apply Forall_forall. intros b Hb. cbn in Hb. repeat (apply elem_of_cons in Hb as [->|Hb]; [done|]). by apply not_elem_of_nil in Hb.
  - eapply Forall_impl; [exact Hd|]. cbn. lia.
Qed.

(** A receipt takes away the forwarding it was given for, or says that it did not. *)
Definition receipt_returns (receipt : AndroidCleanup) (before after : list ForwardEntry) : Prop :=
  forall flag d s, table s = after ->
    let '(r, s') := cleanup_android receipt flag d s in
    (r = Ok tt -> table s' = before) /\ (table s' = before \/ table s' = after).

Lemma forwarded_returns c name t0 io s' :
  table_ok t0 -> safe_tool_field (client_serial c) = true -> safe_tool_field (remote_of name) = true ->
  forwarded c name t0 io s' -> receipt_returns (ai_cleanup io) t0 (table s').
Proof.
  intros Hok Hser Hname (port & Hport & Hcon & Hclean & Hn & Hno & Ht) flag d s1 Hs1. rewrite Hclean. unfold cleanup_android.
  cbn [ac_client ac_port ac_localabstract]. rewrite Ht in Hs1.
  assert (Hok1 : table_ok (table s1)) by (rewrite Hs1; by apply table_ok_snoc).
  pose proof (remove_exact_table c port name flag d s1 Hok1) as Hr.
  assert (Hw : without (ours c name port) (table s1) = t0).
  { rewrite Hs1. apply without_last. intros Hi. apply Hn. by apply (in_map fe_local) in Hi. }
  destruct (remove_exact_with_cancellation _ _ _ _ _ s1) as [[[]|f] s2]; cbn in Hr |- *; rewrite Hw in Hr.
  - split; [done|]. by left.
  - split; [done|]. rewrite Ht, <- Hs1. tauto.
Qed.

(** C9: a launch never disturbs the forwardings of others and leaks none of its own.  When it
    succeeds it has added exactly one, from a port that was free to its endpoint, to which
    none led before; the receipt it gives out takes exactly that one away.  When it fails the
    table is as it was, or the failure says that the cleanup failed and the table has at most
    the one more entry. *)
Theorem forwards_given_back p descriptor flag d s r s' :
  table_ok (table s) -> android_emulator_serial (pl_serial p) = true -> endpoint_name (pl_localabstract p) ->
  launch_android p descriptor flag d s = (r, s') ->
  let c := mkClient (pl_adb_path p) (pl_serial p) in
  match r with
  | Ok io => forwarded c (pl_localabstract p) (table s) io s' /\ receipt_returns (ai_cleanup io) (table s) (table s')
  | Err f => forward_failed c (pl_localabstract p) (table s) f s'
  end.
Proof.
  intros Hok Hser%serial_safe Hname%endpoint_name_safe Hl c.
  pose proof (launch_table p c flag d (table s) Hok Hser Hname descriptor s eq_refl eq_refl) as Hp.
  unfold post in Hp. rewrite Hl in Hp. destruct r as [io|f]; [|done].
  split; [done|]. exact (forwarded_returns c _ _ _ _ Hok Hser Hname Hp).
Qed.
End Forwarding.
