(* ===== verification/Polling.v ===== *)
(** The waits of the Android adapter end, and what a command of it gives back. *)

From S2P Require Import Prelude Crates Control Adapter Apk Axml Machine Adb Loopback Android Commands Traces Rollback Forwards.

(** The operations on processes until they end. *)
Inductive poll_op `{Machine W} : forall A, (W -> A * W) -> Prop :=
| poll_spawn e a : poll_op _ (spawn e a)
| poll_stdout c : poll_op _ (take_stdout c)
| poll_stderr c : poll_op _ (take_stderr c)
| poll_read p : poll_op _ (read_so_far p)
| poll_wait c : poll_op _ (try_wait c).

(** A system clock that does not go back, and a sleep that takes its time. *)
Class SteadyMachine (W : Type) `{Machine W} := {
  time : W -> Z;
  time_read : forall w, exists ms, fst (unix_ms w) = Some ms /\ time w <= ms <= time (snd (unix_ms w));
  time_sleep : forall n w, 0 <= n -> time w + n <= time (snd (sleep_ms n w));
  time_op : forall A f w, machine_op A f -> time w <= time (snd (f w));
  time_poll : forall A f w, poll_op A f -> time w <= time (snd (f w))
}.

Section Waits.
Context `{SteadyMachine W}.

Definition clock (s : Host W) : Z := time (h_world s).

(** A computation during which the clock goes on. *)
Definition onward {A} (m : CM W A) : Prop := forall s, clock s <= clock (snd (m s)).

Lemma onward_bind {A B} (m : CM W A) (k : A -> CM W B) : onward m -> (forall a, onward (k a)) -> onward (mbind_M m k).
Proof.
  intros Hm Hk s. specialize (Hm s). unfold mbind_M. destruct (m s) as [[a|e] s1]; cbn in *; [|done].
  specialize (Hk a s1). lia.
Qed.
Lemma onward_lift {A} (r : PRes A) : onward (lift r).
Proof. intros s. cbn. lia. Qed.
Lemma onward_need kind b : onward (need kind b).
Proof. apply onward_lift. Qed.
Lemma onward_or_fail {A} kind (o : option A) : onward (or_fail kind o).
Proof. apply onward_lift. Qed.
Lemma onward_throw {A} e : onward (throw e : CM W A).
Proof. apply onward_lift. Qed.
Lemma onward_ret {A} (a : A) : onward (ret a).
Proof. apply onward_lift. Qed.
Lemma onward_act {A} (f : W -> A * W) : machine_op A f -> onward (act f).
Proof. intros Hf s. unfold act, clock. pose proof (time_op A f (h_world s) Hf). by destruct (f (h_world s)). Qed.
Lemma onward_poll {A} (f : W -> A * W) : poll_op A f -> onward (act f).
Proof. intros Hf s. unfold act, clock. pose proof (time_poll A f (h_world s) Hf). by destruct (f (h_world s)). Qed.
Lemma onward_act_as {A} (ev : A -> HostEvent W) (f : W -> A * W) : machine_op A f -> onward (act_as ev f).
Proof. intros Hf s. unfold act_as, clock. pose proof (time_op A f (h_world s) Hf). by destruct (f (h_world s)). Qed.
Lemma onward_attempt {A} (m : CM W A) : onward m -> onward (attempt m).
Proof. intros Hm s. specialize (Hm s). unfold attempt. by destruct (m s). Qed.
End Waits.

Create HintDb onward.
#[export] Hint Resolve onward_lift onward_need onward_or_fail onward_throw onward_ret onward_attempt : onward.
#[export] Hint Constructors machine_op poll_op : onward.
Ltac onward_auto :=
  repeat first
  [ progress intros
  | match goal with
    | |- onward (mbind_M _ _) => apply onward_bind
    | |- onward (match ?x with _ => _ end) => destruct x
    | |- onward (act_as _ _) => apply onward_act_as
    | |- onward (act _) => first [apply onward_act; constructor | apply onward_poll; constructor]
    end
  | solve [auto with onward] ].

Section Loops.
Context `{SteadyMachine W}.

Lemma onward_now : onward now_unix_ms.
Proof. unfold now_unix_ms. onward_auto. Qed.
Lemma onward_active flag d : onward (ensure_active flag d).
Proof. unfold ensure_active, expired. onward_auto. apply onward_attempt, onward_now. Qed.

Lemma now_after s now s' : now_unix_ms s = (Ok now, s') -> clock s <= now.
Proof.
  unfold now_unix_ms, act_as, mbind_M, clock. destruct (time_read (h_world s)) as (ms & Hms & Hlo & _).
  destruct (unix_ms (h_world s)) as [o w]. cbn in Hms. subst o. cbn.
  destruct (ms <=? U64_MAX); cbn; [|done]. by intros [= <- _].
Qed.
(** What is left of a deadline is a millisecond at least. *)
Lemma remaining_before d s left s' : remaining d s = (Ok left, s') ->
  clock s <= clock s' /\ clock s < dl_value d /\ 1 <= left.
Proof.
  intros Hr. assert (Ho : onward (remaining d)) by (unfold remaining; onward_auto; apply onward_now).
  specialize (Ho s). rewrite Hr in Ho. split; [done|]. unfold remaining in Hr. m_inv Hr. apply now_after in Hm.
  unfold need in Hm0. injection Hm0 as Hn _. apply ensure_ok in Hn. bool_split. lia.
Qed.
Lemma expired_before d s s' : expired d s = (Ok false, s') -> clock s <= clock s' /\ clock s < dl_value d.
Proof.
  intros Hr. assert (Ho : onward (expired d)) by (unfold expired; onward_auto; apply onward_attempt, onward_now).
  specialize (Ho s). rewrite Hr in Ho. split; [done|]. unfold expired, mbind_M, attempt in Hr.
  destruct (now_unix_ms s) as [[now|e] s1] eqn:Hn; [|done]. injection Hr as Hl _. apply now_after in Hn. bool_split. lia.
Qed.
Lemma sleep_after n s u s' : 0 <= n -> act (sleep_ms n) s = (Ok u, s') -> clock s + n <= clock s'.
Proof.
  intros Hn. unfold act, clock. pose proof (time_sleep n (h_world s) Hn). destruct (sleep_ms n (h_world s)). by intros [= _ <-].
Qed.
Lemma onward_at {A} (m : CM W A) s r s' : onward m -> m s = (r, s') -> clock s <= clock s'.
Proof. intros Hm He. specialize (Hm s). by rewrite He in Hm. Qed.

Lemma retry_later {A} d s s' :
  (do left <- remaining d; run act (sleep_ms (Z.min CONNECT_RETRY left)); ret None) s = (Ok (@None A), s') ->
  clock s + 1 <= clock s'.
Proof.
  intros Hs. m_inv Hs. injection Hs as <-. apply remaining_before in Hm as (? & ? & ?).
  apply sleep_after in Hm0; unfold CONNECT_RETRY in *; lia.
Qed.
Lemma connect_turn_later port flag d s s' : connect_turn port flag d s = (Ok None, s') ->
  clock s < dl_value d /\ clock s + 1 <= clock s'.
Proof.
  unfold connect_turn. intros Ht. m_inv Ht.
  apply onward_at in Hm; [|apply onward_active]. apply remaining_before in Hm0 as (? & ? & ?).
  apply onward_at in Hm1; [|apply onward_act; constructor].
  destruct a1 as [stream|[]]; cbn beta iota in Ht; try discriminate Ht; try (apply retry_later in Ht; lia).
  m_inv Ht. done.
Qed.

Lemma poll_turn_later child out err flag d s s' : poll_turn child out err flag d s = (Ok None, s') ->
  clock s < dl_value d /\ clock s + 1 <= clock s'.
Proof.
  unfold poll_turn, bail_out. intros Ht. m_inv_step Ht. apply onward_at in Hm; [|apply onward_act; constructor].
  destruct a; [m_inv Ht; done|]. m_inv_step Ht. destruct a; [m_inv Ht; done|].
  apply expired_before in Hm0 as [? ?]. m_inv_step Ht. destruct a; [m_inv Ht; done|].
  apply onward_at in Hm0; [|unfold oversized_so_far; onward_auto].
  m_inv_step Ht. apply onward_at in Hm1; [|apply onward_poll; constructor].
  destruct a as [[success|]|]; [done| |m_inv Ht; done]. m_inv Ht. injection Ht as <-.
  apply sleep_after in Hm2; unfold POLL_INTERVAL in *; lia.
Qed.

(** A loop whose every turn that goes on is before the deadline and takes a millisecond. *)
Lemma timed_loop_ends {A} (m : CM W (option A)) d p s :
  (forall s s', m s = (Ok None, s') -> clock s < dl_value d /\ clock s + 1 <= clock s') ->
  0 <= clock s -> dl_value d < Zpos p -> fst (repeat_until p m s) <> Ok None.
Proof.
  intros Hm Hs Hp.
  pose proof (repeat_until_ends m (fun s => 0 <= clock s) (fun s => Z.to_nat (dl_value d - clock s))
                (fun _ _ => True) (fun _ _ => True) p s) as Hr.
  intros He. destruct (repeat_until p m s) as [[[a|]|e] s']; try discriminate He. apply Hr; [|done|lia].
  intros s1 Hs1. destruct (m s1) as [[[a|]|e] s2] eqn:E; try done. apply Hm in E. lia.
Qed.
End Loops.

(** Each turn of a copy that goes on adds to what was copied, within the limit. *)
Section Copies.
Context `{Machine W} `{Sha2}.

Lemma copy_turn_grows source destination length expected flag d data s data' s' :
  copy_turn source destination length expected flag d (data, s) = (Ok None, (data', s')) ->
  len data < len data' <= ARTIFACT_LIMIT.
Proof.
  unfold copy_turn. set (m := run ensure_active flag d; _).
  destruct (m s) as [[[chunk|]|e] s1] eqn:Hm; [|done..]. intros [= <- <-]. unfold m in Hm. clear m.
  m_inv_step Hm. m_inv_step Hm. m_inv_step Hm. destruct (is_empty a1) eqn:Hempty; [m_inv Hm; done|].
  apply is_empty_false in Hempty. m_inv Hm.
  unfold or_fail, lift in Hm3. injection Hm3 as Ht _. apply res_of_option_ok, checked_add_some in Ht as [-> _].
  unfold need in Hm4. injection Hm4 as Hl _. apply ensure_ok in Hl. bool_split. rewrite len_app. lia.
Qed.
End Copies.

(** The waits of the adapter end within their bounds, whatever the machine answers, on a
    clock that does not go back: the attempts to connect, the polling of a command, and the
    copy of an artifact. *)
Theorem waits_end `{SteadyMachine W} `{Sha2} port flag d s :
  0 <= clock s -> dl_value d <= U64_MAX ->
  fst (repeat_until CONNECT_TURNS (connect_turn port flag d) s) <> Ok None /\
  (forall child out err, fst (repeat_until POLL_TURNS (poll_turn child out err flag d) s) <> Ok None) /\
  (forall source destination length expected,
     fst (repeat_until COPY_TURNS (copy_turn source destination length expected flag d) ([], s)) <> Ok None).
Proof.
  intros Hs Hd. unfold U64_MAX in Hd. split_and!.
  - eapply timed_loop_ends; [apply connect_turn_later|done|]. unfold CONNECT_TURNS. lia.
  - intros child out err. eapply timed_loop_ends; [apply poll_turn_later|done|]. unfold POLL_TURNS. lia.
  - intros source destination length expected He.
    set (turn := copy_turn source destination length expected flag d) in *.
    pose proof (repeat_until_ends turn (fun _ => True) (fun '(data, _) => Z.to_nat (ARTIFACT_LIMIT + 1 - len data))
                  (fun _ _ => True) (fun _ _ => True) COPY_TURNS ([], s)) as Hr. cbv beta in Hr.
    destruct (repeat_until COPY_TURNS turn ([], s)) as [[[a|]|e] s']; try discriminate He. apply Hr; [|done|].
    + intros [data s1] _. destruct (turn (data, s1)) as [[[a|]|e] [data' s2]] eqn:E; try done.
      apply copy_turn_grows in E. lia.
    + rewrite len_nil. unfold ARTIFACT_LIMIT, COPY_TURNS. lia.
Qed.

(** ** The output of a command *)

Lemma read_pieces_spec ps o : read_pieces ps = (o, false) -> o = concat ps /\ len o <= OUTPUT_LIMIT.
Proof.
  unfold read_pieces. assert (Hgen : forall acc : bytes, len acc <= OUTPUT_LIMIT -> forall o, foldl read_piece (acc, false) ps = (o, false) ->
    o = acc ++ concat ps /\ len o <= OUTPUT_LIMIT).
  { induction ps as [|p ps IH]; intros acc Hacc o' He; cbn in *.
    - injection He as <-. by rewrite app_nil_r.
    - destruct (Z.ltb_spec OUTPUT_LIMIT (len acc + len p)).
      + assert (Hf : forall l a, snd (foldl read_piece (a, true) l) = true).
        { intros l. induction l as [|x l IHl]; intros a; cbn; [done|]. destruct (_ <? _); apply IHl. }
        specialize (Hf ps acc). by rewrite He in Hf.
      + apply IH in He as [-> ?]; [|rewrite len_app; lia]. split; [by rewrite <- app_assoc|done]. }
  intros He. by apply Hgen in He; [|rewrite len_nil; unfold OUTPUT_LIMIT].
Qed.

(** Both pipes of a child that was spawned with them are there. *)
Class PipedMachine (W : Type) `{Machine W} := {
  stdout_piped : forall e a c w w', spawn e a w = (Some c, w') -> is_Some (fst (take_stdout c w'));
  stderr_piped : forall e a c w w', spawn e a w = (Some c, w') -> is_Some (fst (take_stderr c (snd (take_stdout c w'))))
}.

Section Outputs.
Context `{SteadyMachine W}.

(** Events between the spawn and the end of a child. *)
Definition polling (e : HostEvent W) : Prop := match e with ETime _ => True | _ => False end.
(** The child has ended, or was killed and waited for. *)
Definition killed (child : Child) (es : list (HostEvent W)) : Prop :=
  exists pre post, es = pre ++ [EKill child; EWait child] ++ post.
Definition reaped (child : Child) (es : list (HostEvent W)) : Prop :=
  (exists b, EExit child b ∈ es) \/ killed child es.

Lemma killed_app child pre es post : killed child es -> killed child (pre ++ es ++ post).
Proof. intros (a & b & ->). exists (pre ++ a), (b ++ post). by rewrite <- !app_assoc. Qed.
Lemma killed_l child es post : killed child es -> killed child (es ++ post).
Proof. apply (killed_app _ []). Qed.
Lemma killed_r child pre es : killed child es -> killed child (pre ++ es).
Proof. rewrite <- (app_nil_r es) at 2. apply killed_app. Qed.

Lemma join_traces pipe : traces (join_reader pipe) (fun r es => exists o, es = [EPipe pipe o] /\
  forall x, r = Ok x -> exists ps, o = Some ps /\ x = read_pieces ps).
Proof.
  unfold join_reader. then_by @traces_act_as; [by intros e ? (? & ? & _)|]. intros o ? (? & [= <-] & ->).
  then_by @traces_or_fail; [intros e ? [-> _]; by exists o|]. intros ps ? [-> Ho].
  done_by @traces_ret. intros r ? [-> ->]. nil_tac. exists o. split; [done|]. intros x [= <-].
  destruct o as [ps'|]; [|done]. injection Ho as <-. eauto.
Qed.

Lemma bail_out_traces {A} child out err kind :
  traces (bail_out child out err kind : CM W A) (fun r es => is_ok r = false /\ killed child es).
Proof.
  unfold bail_out, terminate.
  eapply traces_then with (P := fun r es => is_ok r = true /\ killed child es); [|by intros e es []|].
  { then_by @traces_act_as; [by intros e ? (? & ? & _)|]. intros u ? (? & [= <-] & ->).
    done_by @traces_act_as. intros r ? (? & -> & ->). split; [done|]. by exists [], []. }
  intros [] es [_ Hk]. then_by join_traces; [intros e es2 _; split; [done|]; by apply killed_l|]. intros x es2 _.
  then_by join_traces; [intros e es3 _; split; [done|]; by apply killed_l|]. intros y es3 _.
  done_by @traces_throw. intros r ? [-> ->]. split; [done|]. by apply killed_l.
Qed.

Ltac giving_up := done_by @bail_out_traces; intros [?|?] ? [? ?]; [done|cbn in *; by repeat apply killed_r].
Lemma traces_any {A} (m : CM W A) : only (fun _ => True) m -> traces m (fun _ _ => True).
Proof. intros Hm. by eapply traces_mono. Qed.

Lemma poll_turn_traces child out err flag d :
  traces (poll_turn child out err flag d) (fun r es =>
    match r with
    | Ok None => True
    | Ok (Some success) => EExit child success ∈ es
    | Err _ => killed child es
    end).
Proof.
  unfold poll_turn.
  then_by @traces_act; [by intros e ? [_ ?]|]. intros cancelled ? [-> _]. destruct cancelled; [giving_up|].
  eapply traces_then with (P := fun r es => is_ok r = true); [|by intros|].
  { unfold expired. eapply traces_then with (P := fun r es => is_ok r = true); [|by intros|].
    - done_by @traces_attempt; [apply traces_any, only_now; auto|]. by intros r es (? & -> & _).
    - intros r es _. done_by @traces_ret. by intros ? ? [-> _]. }
  intros over es1 _. destruct over; [giving_up|].
  eapply traces_then with (P := fun r es => is_ok r = true); [|by intros|].
  { unfold oversized_so_far. then_by @traces_act; [by intros e ? [_ ?]|]. intros o ? _.
    then_by @traces_act; [by intros e ? [_ ?]|]. intros e ? _. done_by @traces_ret. by intros ? ? [-> _]. }
  intros oversized es2 _. destruct oversized; [giving_up|].
  then_by @traces_act; [by intros e ? [_ ?]|]. intros status ? [-> _].
  destruct status as [[success|]|]; [|then_by @traces_act; [by intros e ? [_ ?]|]; intros ? ? _; done_by @traces_ret; by intros ? ? [-> _]|giving_up].
  intros s. exists [EExit child success]. cbn. split; [done|]. set_solver.
Qed.

Lemma poll_loop_traces child out err flag d s : 0 <= clock s -> dl_value d <= U64_MAX ->
  exists es, h_log (snd (loop_ POLL_TURNS (failure PlatformInternal) (poll_turn child out err flag d) s)) = h_log s ++ es /\
    match fst (loop_ POLL_TURNS (failure PlatformInternal) (poll_turn child out err flag d) s) with
    | Ok success => EExit child success ∈ es
    | Err _ => killed child es
    end.
Proof.
  intros Hs Hd. set (turn := poll_turn child out err flag d).
  assert (Hend : fst (repeat_until POLL_TURNS turn s) <> Ok None).
  { eapply timed_loop_ends; [apply poll_turn_later|done|]. unfold POLL_TURNS, U64_MAX in *. lia. }
  unfold loop_. rewrite repeat_until_turns in *. revert Hend. generalize (Pos.to_nat POLL_TURNS). intros n Hend.
  assert (Hn : exists es, h_log (snd (turns_of turn n s)) = h_log s ++ es /\
    match fst (turns_of turn n s) with
    | Ok None => True | Ok (Some success) => EExit child success ∈ es | Err _ => killed child es
    end).
  { clear. revert s. induction n as [|n IH]; intros s; cbn [turns_of]; [exists []; by rewrite app_nil_r|].
    destruct (poll_turn_traces child out err flag d s) as (es1 & He1 & Hx1). fold turn in He1, Hx1.
    destruct (turn s) as [[[a|]|e] s1]; cbn in *; [eauto| |eauto].
    destruct (IH s1) as (es2 & He2 & Hx2). exists (es1 ++ es2). rewrite He2, He1, app_assoc. split; [done|].
    destruct (fst (turns_of turn n s1)) as [[b|]|e]; [set_solver|done|by apply killed_r]. }
  destruct Hn as (es & He & Hx). exists es. destruct (turns_of turn n s) as [[[a|]|e] s']; cbn in *; done.
Qed.

Definition not_spawn (e : HostEvent W) : Prop := match e with ESpawn _ _ _ => False | _ => True end.
Lemma only_join pipe : only not_spawn (join_reader pipe).
Proof. unfold join_reader. only_auto. done. Qed.
Lemma only_bail_out {A} child out err kind : only not_spawn (bail_out child out err kind : CM W A).
Proof. unfold bail_out, terminate. only_auto; try apply only_join; done. Qed.
Lemma only_poll child out err flag d :
  only not_spawn (loop_ POLL_TURNS (failure PlatformInternal) (poll_turn child out err flag d)).
Proof.
  apply only_loop. unfold poll_turn, oversized_so_far.
  only_auto; try apply only_bail_out; try (apply only_expired; by intros []).
  intros s. eexists [_]. split; [reflexivity|by repeat constructor].
Qed.

(** A command from its spawned child on, whatever the loop that waits for the child. *)
Definition command_tail (child : Child) (waits : Pipe -> Pipe -> CM W bool) : CM W ProcessOutput :=
  do out <- act_as (EStdout child) (take_stdout child);
  do out <- or_fail PlatformInternal out;
  do err <- act_as (EStderr child) (take_stderr child);
  do err <- or_fail PlatformInternal err;
  do status <- waits out err;
  do o <- join_reader out;
  do e <- join_reader err;
  let '(out_bytes, out_oversized) := o : bytes * bool in
  let '(err_bytes, err_oversized) := e : bytes * bool in
  run need Rejected (negb (out_oversized || err_oversized));
  run need Unavailable status;
  ret (mkOutput out_bytes err_bytes).

(** The process succeeded, and the output is what was read to the end of its own pipes. *)
Definition full_output (child : Child) (o : ProcessOutput) (es : list (HostEvent W)) : Prop :=
  exists out err ps qs, EExit child true ∈ es /\
    EStdout child (Some out) ∈ es /\ EPipe out (Some ps) ∈ es /\
    EStderr child (Some err) ∈ es /\ EPipe err (Some qs) ∈ es /\
    stdout o = concat ps /\ stderr o = concat qs /\ len (stdout o) <= OUTPUT_LIMIT /\ len (stderr o) <= OUTPUT_LIMIT.

Lemma join_tail child out err status es :
  EExit child status ∈ es -> EStdout child (Some out) ∈ es -> EStderr child (Some err) ∈ es ->
  traces (do o <- join_reader out; do e <- join_reader err;
          let '(out_bytes, out_oversized) := o : bytes * bool in
          let '(err_bytes, err_oversized) := e : bytes * bool in
          run need Rejected (negb (out_oversized || err_oversized));
          run need Unavailable status;
          ret (mkOutput out_bytes err_bytes))
    (fun r es2 => Forall not_spawn es2 /\ forall o, r = Ok o -> full_output child o (es ++ es2)).
Proof.
  intros Hexit Hout Herr. then_by join_traces; [intros e es2 (o & -> & _); split; [by repeat constructor|done]|].
  intros [ob oo] ? (po & -> & Ho). destruct (Ho _ eq_refl) as (ps & -> & Hps). clear Ho.
  then_by join_traces; [intros e es2 (o & -> & _); split; [by repeat constructor|done]|].
  intros [eb eo] ? (pe & -> & He). destruct (He _ eq_refl) as (qs & -> & Hqs). clear He.
  then_by @traces_need; [intros e ? [-> _]; split; [by repeat constructor|done]|]. intros [] ? [-> Hn].
  then_by @traces_need; [intros e ? [-> _]; split; [by repeat constructor|done]|]. intros [] ? [-> Hu].
  done_by @traces_ret. intros r ? [-> ->]. nil_tac. split; [by repeat constructor|]. intros o [= <-].
  destruct status; [|done]. destruct oo, eo; cbn in Hn; try done.
  destruct (read_pieces_spec _ _ (eq_sym Hps)) as [-> ?], (read_pieces_spec _ _ (eq_sym Hqs)) as [-> ?].
  exists out, err, ps, qs. cbn [stdout stderr]. split_and!; try done; set_solver.
Qed.

Lemma command_tail_runs `{!PipedMachine W} exe args w child waits s : 0 <= clock s -> spawn exe args w = (Some child, h_world s) ->
  (forall out err s, 0 <= clock s -> exists es, h_log (snd (waits out err s)) = h_log s ++ es /\ Forall not_spawn es /\
    match fst (waits out err s) with Ok success => EExit child success ∈ es | Err _ => killed child es end) ->
  exists es, h_log (snd (command_tail child waits s)) = h_log s ++ es /\ Forall not_spawn es /\ reaped child es /\
    forall o, fst (command_tail child waits s) = Ok o -> full_output child o es.
Proof.
  intros Hs Hsp Hw. destruct (command_tail child waits s) as [r s'] eqn:Hrun. unfold command_tail in Hrun.
  unfold mbind_M at 1, act_as at 1 in Hrun. pose proof (time_poll _ _ (h_world s) (poll_stdout child)) as Hto.
  destruct (stdout_piped _ _ _ _ _ Hsp) as [out Hout].
  destruct (stderr_piped _ _ _ _ _ Hsp) as [err Herr].
  destruct (take_stdout child (h_world s)) as [o w1]. cbn in Hout, Herr, Hto. subst o.
  unfold mbind_M at 1, or_fail at 1 in Hrun. cbn [res_of_option lift] in Hrun.
  unfold mbind_M at 1, act_as at 1 in Hrun. cbn [h_world h_log] in Hrun.
  pose proof (time_poll _ _ w1 (poll_stderr child)) as Hte.
  destruct (take_stderr child w1) as [o w2]. cbn in Herr, Hte. subst o.
  unfold mbind_M at 1, or_fail at 1 in Hrun. cbn [res_of_option lift h_log] in Hrun. unfold mbind_M at 1 in Hrun.
  rewrite <- app_assoc in Hrun. set (taken := [EStdout child (Some out)] ++ [EStderr child (Some err)]) in *.
  set (s2 := mkHost w2 (h_log s ++ taken)) in *. assert (Hs2 : 0 <= clock s2) by (unfold clock in *; cbn; lia).
  assert (Htaken : Forall not_spawn taken) by (by repeat constructor).
  destruct (Hw out err s2 Hs2) as (es & He & Hn & Hx). cbn [h_log s2] in He. rewrite <- app_assoc in He.
  destruct (waits out err s2) as [[status|e] s3]; cbn [fst snd] in *.
  - destruct (join_tail child out err status (taken ++ es) ltac:(set_solver) ltac:(set_solver) ltac:(set_solver) s3)
      as (es2 & He2 & Hn2 & Hf). rewrite Hrun in He2, Hf.
    exists ((taken ++ es) ++ es2). cbn [fst snd] in He2, Hf |- *. rewrite He2, He, !app_assoc.
    split; [done|]. split; [rewrite !Forall_app; by split_and!|]. split; [|exact Hf]. left. exists status. set_solver.
  - injection Hrun as <- <-. exists (taken ++ es). split; [done|]. split; [by apply Forall_app|].
    split; [right; by apply killed_r|done].
Qed.

Lemma poll_waits flag d child out err s : dl_value d <= U64_MAX -> 0 <= clock s ->
  let waits := loop_ POLL_TURNS (failure PlatformInternal) (poll_turn child out err flag d) in
  exists es, h_log (snd (waits s)) = h_log s ++ es /\ Forall not_spawn es /\
    match fst (waits s) with Ok success => EExit child success ∈ es | Err _ => killed child es end.
Proof.
  intros Hd Hs waits. destruct (poll_loop_traces child out err flag d s Hs Hd) as (es & He & Hx).
  destruct (only_poll child out err flag d s) as (es' & He' & Hn). fold waits in He, Hx, He'.
  rewrite He in He'. apply app_inv_head in He' as <-. by exists es.
Qed.

(** C33: a command that was run is never left behind: when the call returns, its process was
    seen to have ended, or was killed and then waited for, so that not even a zombie is left.
    Output that is given back is of a process that succeeded: its standard output is all that
    was read from the pipe of its standard output up to the end, its standard error that of its
    standard error, at most 64 KiB each. *)
Theorem command_runs `{!PipedMachine W} executable serial arguments flag d s r s' :
  0 <= clock s -> dl_value d <= U64_MAX ->
  system_run executable serial arguments flag d s = (r, s') ->
  exists es, h_log s' = h_log s ++ es /\
    (forall e a child, ESpawn e a (Some child) ∈ es ->
       e = executable /\ a = [str "-s"; serial] ++ arguments /\ reaped child es) /\
    forall o, r = Ok o -> exists child,
      ESpawn executable ([str "-s"; serial] ++ arguments) (Some child) ∈ es /\ full_output child o es.
Proof.
  intros Hs Hd. unfold system_run. intros Hrun.
  destruct (only_active is_time flag d (fun _ H => H) s) as (es & He & Ht). pose proof (onward_active flag d s) as Hc.
  unfold mbind_M at 1 in Hrun. destruct (ensure_active flag d s) as [[[]|e] s1]; cbn [fst snd] in *.
  2: { injection Hrun as <- <-. exists es. split; [done|]. split; [|done]. intros e' a child Hin.
       rewrite Forall_forall in Ht. by destruct (Ht _ Hin). }
  cbv zeta in Hrun. unfold mbind_M at 1, act_as at 1 in Hrun.
  pose proof (time_poll _ _ (h_world s1) (poll_spawn executable ([str "-s"; serial] ++ arguments))) as Hsp.
  destruct (spawn executable ([str "-s"; serial] ++ arguments) (h_world s1)) as [[child|] w] eqn:Hspawn; cbn [snd] in Hsp.
  - set (spawned := ESpawn executable ([str "-s"; serial] ++ arguments) (Some child)) in *.
    unfold mbind_M at 1, or_fail at 1 in Hrun. cbn [res_of_option lift] in Hrun.
    set (s2 := mkHost w (h_log s1 ++ [spawned])) in *. assert (Hs2 : 0 <= clock s2) by (unfold clock in *; cbn; lia).
    set (waits out err := loop_ POLL_TURNS (failure PlatformInternal) (poll_turn child out err flag d)).
    change (command_tail child waits s2 = (r, s')) in Hrun.
    destruct (command_tail_runs _ _ _ child waits s2 Hs2 Hspawn (fun out err s => poll_waits flag d child out err s Hd))
      as (es2 & He2 & Hn2 & Hr2 & Ho2).
    rewrite Hrun in He2, Ho2. cbn [fst snd] in *.
    assert (Happ : forall x, x ∈ es2 -> x ∈ es ++ [spawned] ++ es2) by set_solver.
    exists (es ++ [spawned] ++ es2). split; [rewrite He2; cbn; by rewrite He, <- !app_assoc|]. split.
    + intros e a c Hin. rewrite Forall_forall in Ht, Hn2.
      apply elem_of_app in Hin as [Hin|Hin]; [by destruct (Ht _ Hin)|].
      apply elem_of_app in Hin as [Hin|Hin]; [|by destruct (Hn2 _ Hin)].
      apply list_elem_of_singleton in Hin. injection Hin as -> -> ->. split_and!; try done.
      destruct Hr2 as [[b Hb]|Hk]; [left; exists b; auto|right; by repeat apply killed_r].
    + intros o Ho. exists child. split; [set_solver|]. destruct (Ho2 o Ho) as (out & err & ps & qs & ? & ? & ? & ? & ? & ? & ? & ? & ?).
      exists out, err, ps, qs. split_and!; auto.
  - cbn in Hrun. injection Hrun as <- <-. exists (es ++ [ESpawn executable ([str "-s"; serial] ++ arguments) None]).
    split; [cbn; by rewrite He, app_assoc|]. split; [|done]. intros e' a child Hin. rewrite Forall_forall in Ht.
    apply elem_of_app in Hin as [Hin|Hin]; [by destruct (Ht _ Hin)|]. by apply list_elem_of_singleton in Hin.
Qed.
End Outputs.
