(* ===== verification/Shell.v ===== *)
(** What the Android adapter runs in the shell of the device.  [adb shell] joins its arguments
    with spaces and gives the line to that shell, so that an argument with a space, a quote or
    a semicolon would be read as something else. *)

From S2P Require Import Prelude Crates Control Adapter Apk Axml Machine Adb Loopback Android Traces Rollback Listings.

(** A word that the shell takes as it is: letters, digits, [-], [_], [.] and [/]. *)
Definition shell_character (b : byte) : bool := b64_character b || (u8 b =? 46) || (u8 b =? 47).
Definition shell_word (word : bytes) : bool := negb (is_empty word) && forallb shell_character word.

Lemma shell_word_app a b : shell_word a = true -> forallb shell_character b = true -> shell_word (a ++ b) = true.
Proof.
  unfold shell_word. intros [Hn Ha]%andb_true_iff Hb. rewrite forallb_app, Ha, Hb. by destruct a.
Qed.

(** A package is a word. *)
Lemma segment_characters segment : package_segment segment = true -> forallb shell_character segment = true.
Proof.
  unfold package_segment. intros [_ Hs]%andb_true_iff. rewrite forallb_forall in *. intros b Hb. specialize (Hs b Hb).
  revert Hs. unfold is_alphanumeric, shell_character, b64_character, is_lower, is_upper, is_digit, in_range, utf8_tail.
  rewrite !orb_true_iff, !andb_true_iff. tauto.
Qed.
Lemma join_characters segments :
  forallb package_segment segments = true -> forallb shell_character (join DOT segments) = true.
Proof.
  induction segments as [|x l IH]; [done|]. cbn [forallb]. intros [Hx%segment_characters Hl%IH]%andb_true_iff.
  destruct l as [|y l]; [done|]. change (forallb shell_character (x ++ DOT :: join DOT (y :: l)) = true).
  rewrite forallb_app, Hx. cbn [forallb]. by rewrite Hl.
Qed.
Lemma package_word package : android_package package = true -> shell_word package = true.
Proof.
  unfold android_package. intros Hp. destruct (_ || _ || _) eqn:Hlen in Hp; [done|].
  rewrite <- (join_split DOT package) at 1. unfold shell_word. rewrite join_characters by done.
  rewrite join_split. destruct package; [done|reflexivity].
Qed.

Section Shell.
Context `{CommandRunner W} `{Zlib} `{Sha2} `{Base64} `{!Base64Laws}.

(** A command for the shell is the start of the package's bootstrap activity or the stop of
    the package, and the line the shell is given has its words. *)
Definition shell_commands (package descriptor : bytes) (arguments : list bytes) : Prop :=
  head arguments = Some (str "shell") ->
  (arguments = start_arguments (package ++ BOOTSTRAP_ACTIVITY) (b64_encode descriptor) \/
   arguments = stop_arguments package) /\
  forallb shell_word arguments = true /\ split_on SPACE (join SPACE arguments) = arguments.
Definition safe_event (package descriptor : bytes) (e : HostEvent W) : Prop :=
  match e with ECommand arguments _ _ _ => shell_commands package descriptor arguments | _ => True end.

Lemma safe_runs (P : list bytes -> Prop) package descriptor {A} (m : CM W A) :
  (forall a, P a -> head a <> Some (str "shell")) -> only (runs P) m -> only (safe_event package descriptor) m.
Proof. intros HP. apply only_mono. intros [a ? ? ?| | | | | | | | | | | | | |] He; try done. intros Hh. by destruct (HP a He). Qed.
Lemma safe_forward package descriptor {A} (m : CM W A) :
  only (runs forwards_only) m -> only (safe_event package descriptor) m.
Proof. apply safe_runs. unfold forwards_only. intros a -> [=]. Qed.
Lemma safe_other package descriptor {A} (m : CM W A) :
  traces m (fun _ => Forall not_command) -> only (safe_event package descriptor) m.
Proof. apply only_mono. by intros []. Qed.

Lemma words_joined arguments :
  arguments <> [] -> forallb shell_word arguments = true -> split_on SPACE (join SPACE arguments) = arguments.
Proof.
  intros Hn Ha. apply split_join; [done|]. apply Forall_forall. intros w Hw. apply Forall_forall. intros b Hb ->.
  rewrite forallb_forall in Ha. specialize (Ha w (proj1 (list_elem_of_In _ _) Hw)). apply andb_true_iff in Ha as [_ Ha].
  rewrite forallb_forall in Ha. by specialize (Ha SPACE (proj1 (list_elem_of_In _ _) Hb)).
Qed.

Lemma encoded_word descriptor : descriptor <> [] -> shell_word (b64_encode descriptor) = true.
Proof.
  intros Hd. unfold shell_word. apply andb_true_iff. split.
  - destruct (b64_encode descriptor) eqn:He; [|done]. pose proof (b64_encode_len descriptor) as Hl.
    rewrite He in Hl. destruct descriptor as [|b l]; [done|]. rewrite len_nil, len_cons in Hl. pose proof (len_nonneg l).
    assert (1 <= (8 * (1 + len l) + 5) / 6) by (apply Z.div_le_lower_bound; lia). lia.
  - pose proof (b64_encode_alphabet descriptor) as Ha. rewrite forallb_forall in *. intros b Hb.
    unfold shell_character. by rewrite Ha.
Qed.

Section Launched.
Variables (p : AndroidPendingLaunch) (descriptor : bytes).
Hypothesis Hpackage : android_package (pl_package p) = true.
Hypothesis Hdescriptor : descriptor <> [].

Let safe {A} (m : CM W A) : Prop := only (safe_event (pl_package p) descriptor) m.

Lemma safe_run c arguments flag d : shell_commands (pl_package p) descriptor arguments -> safe (adb_run c arguments flag d).
Proof. intros Ha. unfold safe, adb_run. by only_auto. Qed.

Lemma start_safe c flag d : safe (start c (pl_package p ++ BOOTSTRAP_ACTIVITY) (b64_encode descriptor) flag d).
Proof.
  unfold start. apply only_bind; [|by intros; apply only_lift]. apply safe_run. intros _.
  assert (Hw : forallb shell_word (start_arguments (pl_package p ++ BOOTSTRAP_ACTIVITY) (b64_encode descriptor)) = true).
  { unfold start_arguments. cbn [forallb]. rewrite encoded_word, shell_word_app by (try apply package_word; done). done. }
  split; [by left|]. split; [done|]. by apply words_joined.
Qed.
Lemma stop_safe c d : safe (force_stop c (pl_package p) d).
Proof.
  unfold force_stop. apply only_bind; [apply only_act|intros flag]. apply only_bind; [|by intros; apply only_lift].
  apply safe_run. intros _.
  assert (Hw : forallb shell_word (stop_arguments (pl_package p)) = true).
  { unfold stop_arguments. cbn [forallb]. by rewrite (package_word (pl_package p)). }
  split; [by right|]. split; [done|]. by apply words_joined.
Qed.

Lemma rollback_safe {A} original c (m : AbsoluteDeadline -> CM W unit) :
  (forall d, safe (m d)) -> safe (rollback_after_started original c (pl_package p) m : CM W A).
Proof.
  intros Hm. unfold safe, rollback_after_started, rollback_after, rollback_deadline.
  only_auto; try done. apply only_attempt. only_auto; try done; apply only_attempt; [apply Hm|apply stop_safe].
Qed.
Lemma guarded_safe {A} (m : CM W A) c rb :
  safe m -> (forall d, safe (rb d)) -> safe (or_rollback m (fun original => rollback_after_started original c (pl_package p) rb)).
Proof.
  intros Hm Hrb. unfold safe, or_rollback. apply only_bind; [by apply only_attempt|]. intros [a|f]; [apply only_ret|].
  by apply rollback_safe.
Qed.

Lemma connect_started_safe c flag d : safe (connect_started p c flag d).
Proof.
  unfold connect_started. cbv zeta.
  assert (Hforward : forall A (m : CM W A), only (runs forwards_only) m -> safe m) by (intros; by apply safe_forward).
  apply only_bind; [apply guarded_safe; intros; [apply Hforward, only_remote_absent|apply only_ret]|intros _].
  apply only_bind; [apply guarded_safe; intros; apply Hforward; [apply only_create_forward|apply only_remove_by_remote]|intros port].
  apply only_bind; [apply guarded_safe; intros; apply Hforward; [apply only_exact_forward|apply only_remove_exact]|intros _].
  apply only_bind; [apply guarded_safe; intros; [|apply Hforward, only_remove_exact]|intros bootstrap; apply only_ret].
  apply (safe_runs (fun _ => False)); [done|apply only_connect].
Qed.

Lemma installed_safe c path flag d :
  safe (run probe c flag d; run require_online c flag d; install c path flag d).
Proof.
  unfold probe, require_online, install. unfold safe. only_auto; apply safe_run; intros [=].
Qed.

Lemma launch_safe flag d : safe (launch_android p descriptor flag d).
Proof.
  unfold launch_android. cbv zeta.
  apply only_bind; [destruct (pl_validation p); [apply only_throw|apply only_ret]|intros _].
  apply only_bind; [apply only_active; by intros []|intros _].
  apply only_bind; [apply only_need|intros _].
  apply only_bind; [apply safe_other; eapply traces_mono; [apply snapshot_traces|by intros r es [? _]]|intros snap].
  apply only_bind; [apply only_attempt, installed_safe|intros installed].
  apply only_bind; [apply only_attempt, safe_other; eapply traces_mono; [apply snapshot_cleanup_traces|by intros r es [? _]]|intros cleaned].
  apply only_bind; [apply only_need|intros _]. apply only_bind; [apply only_lift|intros _].
  apply only_bind; [apply start_safe|intros _]. apply connect_started_safe.
Qed.
End Launched.

(** C32: all that a launch runs in the shell of the device is the start of the bootstrap activity
    of the selected package with the encoded descriptor and the stop of that package, and
    every argument is a word of characters the shell does not interpret, so that the line it
    is given is read back as exactly these arguments. *)
Theorem shell_words_safe adapter selection d0 s0 p s1 descriptor flag d s r s' :
  begin_launch_android adapter selection d0 s0 = (p, s1) -> descriptor <> [] ->
  launch_android p descriptor flag d s = (r, s') ->
  exists es, h_log s' = h_log s ++ es /\
    Forall (fun e => match e with
                     | ECommand arguments _ _ _ => shell_commands (ts_app_id selection) descriptor arguments
                     | _ => True
                     end) es.
Proof.
  intros Hb Hd Hl.
  assert (Hp : pl_package p = ts_app_id selection /\ (pl_validation p = None -> android_package (pl_package p) = true)).
  { unfold begin_launch_android in Hb. destruct (random_localabstract (h_world s0)) as [[name failed] w].
    injection Hb as <- _. split; [done|]. cbn [pl_validation pl_package]. unfold validate_selection.
    destruct (android_package (ts_app_id selection)); [done|]. rewrite !orb_true_r. intros [=]. }
  destruct Hp as [Hp Hv]. rewrite <- Hp. destruct (pl_validation p) as [kind|] eqn:Hk.
  - unfold launch_android in Hl. rewrite Hk in Hl. injection Hl as _ <-. exists []. by rewrite app_nil_r.
  - destruct (launch_safe p descriptor (Hv eq_refl) Hd flag d s) as (es & He & Hs). rewrite Hl in He. by exists es.
Qed.
End Shell.
