(* ===== verification/Kept.v ===== *)
(** What the raw transport does to a world: a property that the operations of a stream and the
    clock keep holds until a cleanup runs. *)

From S2P Require Import Prelude Errors Crates Outer Records Payloads Reassembly NoiseIO Lease Bootstrap Session Control Adapter RawTransport.

(** Computations after which a property of the state still holds. *)
Definition keeps {S E A} (I : S -> Prop) (m : M S E A) : Prop := forall s, I s -> I (snd (m s)).

Lemma keeps_bind {S E A B} (I : S -> Prop) (m : M S E A) (k : A -> M S E B) :
  keeps I m -> (forall a, keeps I (k a)) -> keeps I (mbind_M m k).
Proof.
  intros Hm Hk s Hs. unfold mbind_M. specialize (Hm s Hs). destruct (m s) as [[a|e] s1]; [by apply Hk|done].
Qed.
Lemma keeps_lift {S E A} (I : S -> Prop) (r : result E A) : keeps I (lift r).
Proof. by intros s Hs. Qed.
Lemma keeps_loop {S E A} (I : S -> Prop) p spent (m : M S E (option A)) : keeps I m -> keeps I (loop_ p spent m).
Proof.
  intros Hm s Hs. unfold loop_. rewrite repeat_until_turns. generalize (Pos.to_nat p). intros n.
  assert (Hn : I (snd (turns_of m n s))).
  { revert s Hs. induction n as [|n IH]; intros s Hs; cbn [turns_of]; [done|]. specialize (Hm s Hs).
    destruct (m s) as [[[a|]|e] s1]; cbn in *; auto. }
  by destruct (turns_of m n s) as [[[a|]|e] s'].
Qed.

Section Kept.
Context `{Minicbor} `{Snow} `{PlatformIo W} (P : W -> Prop).
Hypotheses (Hms : forall w, P w -> P (snd (system_ms w)))
  (Hread : forall raw b d w, P w -> P (snd (raw_read raw b d w)))
  (Hwrite : forall raw b d w, P w -> P (snd (raw_write raw b d w)))
  (Hcancel : forall raw w, P w -> P (raw_cancel raw w)).

Definition in_io (s : Io (W:=W)) : Prop := P (world s).
Definition in_conn {C} (s : Conn W C) : Prop := P (world (io s)).

Lemma keeps_now : keeps in_io now_unix_ms.
Proof.
  intros s Hs. unfold now_unix_ms. specialize (Hms (world s) Hs). destruct (system_ms (world s)) as [[ms|] w]; [|done].
  by destruct (ms <=? U64_MAX).
Qed.
Lemma keeps_ensure_deadline d : keeps in_io (ensure_deadline d).
Proof. apply keeps_bind; [apply keeps_now|intros; apply keeps_lift]. Qed.
Lemma keeps_write raw b d : keeps in_io (write_all raw b d).
Proof.
  intros s Hs. unfold write_all.
  pose proof (keeps_loop (fun s => in_io (snd s)) (Pos.of_succ_nat (length b)) (TransportFailure_new InternalError)
    (write_turn raw d)) as Hl.
  specialize (fun H => Hl H (b, s) Hs). destruct (loop_ _ _ _ (b, s)) as [r [rest s']]. apply Hl. clear r rest s' Hl s Hs.
  intros [b0 s] Hs. unfold write_turn. destruct (is_empty b0); [done|].
  assert (Hk : keeps in_io (run ensure_deadline d; io_write raw b0 d)).
  { apply keeps_bind; [apply keeps_ensure_deadline|]. intros _ s0 Hs0. unfold io_write.
    specialize (Hwrite raw b0 d (world s0) Hs0). by destruct (raw_write _ _ _ _). }
  specialize (Hk s Hs). destruct (mbind_M _ _ s) as [[n|e] s']; [|done]. by destruct (_ || _).
Qed.
Lemma keeps_c1 {A} raw d (r : Res A) : keeps in_io (or_c1 raw d r).
Proof.
  intros s Hs. unfold or_c1, c1_failure_after_close, return_after_reserved_close. destruct r as [a|e]; [done|].
  destruct (fst (take_close_frame e)) as [frame|]; [|done]. by apply keeps_write.
Qed.

Lemma keeps_on_io {C A} (m : IO A) : keeps in_io m -> keeps (in_conn (C:=C)) (on_io m).
Proof. intros Hm s Hs. unfold on_io. specialize (Hm (io s) Hs). by destruct (m (io s)). Qed.
Lemma keeps_on_reader {C A} (m : RM A) : keeps (in_conn (C:=C)) (on_reader m).
Proof. intros s Hs. unfold on_reader. by destruct (m (reader s)). Qed.
Lemma keeps_check {C} d : keeps (in_conn (C:=C)) (check_deadlines d).
Proof.
  apply keeps_bind; [apply keeps_on_io, keeps_now|]. intros n. apply keeps_bind; [apply keeps_on_reader|].
  intros _. apply keeps_lift.
Qed.
Lemma keeps_received {C} d b : keeps (in_conn (C:=C)) (received d b).
Proof.
  apply keeps_bind; [apply keeps_on_reader|]. intros frames. apply keeps_bind; [apply keeps_on_io, keeps_now|].
  intros n. apply keeps_bind; [apply keeps_on_reader|]. intros _. apply keeps_bind; [apply keeps_on_reader|].
  intros _. apply keeps_on_reader.
Qed.
Lemma keeps_read_failed {C} at_eof f : keeps (in_conn (C:=C)) at_eof -> keeps (in_conn (C:=C)) (read_failed at_eof f).
Proof.
  intros He. apply keeps_bind; [apply keeps_on_io, keeps_now|]. intros n. apply keeps_bind; [apply keeps_on_reader|].
  intros _. destruct (bool_decide _); [done|apply keeps_lift].
Qed.
Lemma keeps_read_turn {C} at_eof raw d :
  keeps (in_conn (C:=C)) at_eof -> keeps (fun s => in_conn (C:=C) (snd s)) (read_turn at_eof raw d).
Proof.
  intros He [chunk s] Hs. unfold read_turn.
  assert (Hk : keeps (in_conn (C:=C)) (run check_deadlines d; do s <- get; lift (read_deadline d (reader s)))).
  { apply keeps_bind; [apply keeps_check|]. intros _. apply keeps_bind; [by intros s0 Hs0|]. intros. apply keeps_lift. }
  specialize (Hk s Hs). destruct (mbind_M _ _ s) as [[rd|f] s1]; [|done]. cbn [snd] in Hk.
  assert (Hr : keeps in_io (io_read raw chunk rd)).
  { intros s0 Hs0. unfold io_read. specialize (Hread raw chunk rd (world s0) Hs0).
    by destruct (raw_read _ _ _ _) as [[[n|e] b] w]. }
  specialize (Hr (io s1) Hk). destruct (io_read raw chunk rd (io s1)) as [[[n b]|e] w]; cbn [snd fst] in *.
  - destruct (len b <? n); [done|]. destruct (n =? 0); [by apply He|]. by apply keeps_received.
  - by apply keeps_read_failed.
Qed.
Lemma keeps_read_outer {C} raw d : keeps (in_conn (C:=C)) (read_outer raw d).
Proof.
  apply keeps_bind; [apply keeps_on_reader|]. intros _. apply keeps_bind; [apply keeps_check|]. intros _.
  apply keeps_bind; [apply keeps_on_reader|]. intros [frame|]; [apply keeps_lift|]. intros s Hs.
  pose proof (keeps_loop (fun s => in_conn (C:=C) (snd s)) READ_TURNS (TransportFailure_new InternalError)
    (read_turn eof_from_outer raw d)) as Hl.
  specialize (fun H => Hl H (repeat (b8 0) READ_CHUNK, s) Hs). destruct (loop_ _ _ _ _) as [r [rest s']].
  apply Hl, keeps_read_turn, keeps_on_reader.
Qed.

Lemma keeps_bootstrap_on raw key pbs entropy binding d :
  keeps in_conn (bootstrap_on raw key pbs entropy binding d).
Proof.
  apply keeps_bind; [apply keeps_read_outer|]. intros m1. apply keeps_bind; [apply keeps_on_io, keeps_c1|].
  intros responder. apply keeps_bind; [apply keeps_on_io, keeps_c1|]. intros [m2 receiver].
  apply keeps_bind; [apply keeps_on_io, keeps_write|]. intros _. apply keeps_bind; [apply keeps_read_outer|].
  intros ack. apply keeps_on_io, keeps_c1.
Qed.

(** [cleaned]: a cleanup may have run, and has if the answer says so. *)
Definition cleaned (Q : W -> Prop) (ok : bool) (s : Io (W:=W)) : Prop :=
  (P (world s) \/ Q (world s)) /\ (ok = true -> Q (world s)).

Lemma bootstrap_failed_keeps {A} raw cleanup f s (Q : W -> Prop) :
  (forall w, P w -> P (snd (Cancellation_new w))) -> in_io s ->
  (forall c d w, P w -> let '(r, w') := raw_cleanup cleanup c d w in (P w' \/ Q w') /\ (r = Ok tt -> Q w')) ->
  let '(r, s') := bootstrap_failed (A:=A) raw cleanup f s in
  match r with Ok _ => False | Err f' => cleaned Q (negb (tf_cleanup_failed f')) s' end.
Proof.
  intros Hnew Hs Hclean. unfold bootstrap_failed, io_cancellation, io_cancel. cbn [world io_event].
  specialize (Hnew _ (Hcancel raw _ Hs)). destruct (Cancellation_new _) as [c w]. cbn [snd] in Hnew.
  set (s1 := mkIo w _). set (m := do d <- cleanup_deadline; _).
  assert (Hm : let '(r, s2) := m s1 in cleaned Q (is_ok r) s2).
  { assert (Hd : keeps in_io cleanup_deadline) by (apply keeps_bind; [apply keeps_now|intros; apply keeps_lift]).
    specialize (Hd s1 Hnew). unfold m, mbind_M at 1. destruct (cleanup_deadline s1) as [[d|e] s2]; [|by split; [left|]].
    pose proof (keeps_ensure_deadline d s2 Hd) as He. unfold mbind_M. destruct (ensure_deadline d s2) as [[[]|e] s3]; [|by split; [left|]].
    unfold io_cleanup. specialize (Hclean c d (world s3) He). destruct (raw_cleanup cleanup c d (world s3)) as [[[]|e] w']; cbn.
    - by split; [apply Hclean|intros _; apply Hclean].
    - split; [apply Hclean|done]. }
  destruct (m s1) as [[u|e] s2]; cbn [is_ok] in Hm.
  - split; [apply Hm|]. intros _. by apply Hm.
  - split; [apply Hm|done].
Qed.

(** A bootstrap touches no more than these until it cleans up. *)
Lemma bootstrap_keeps raw connector cleanup key pbs entropy binding d s (Q : W -> Prop) :
  (forall w, P w -> P (snd (Cancellation_new w))) -> P (world s) ->
  (forall c d w, P w -> let '(r, w') := raw_cleanup cleanup c d w in (P w' \/ Q w') /\ (r = Ok tt -> Q w')) ->
  let '(r, s') := bootstrap raw connector cleanup key pbs entropy binding d s in
  match r with
  | Ok b => P (world s') /\ bs_cleanup b = cleanup
  | Err f => cleaned Q (negb (tf_cleanup_failed f)) s'
  end.
Proof.
  intros Hnew Hs Hclean. unfold bootstrap, with_conn.
  pose proof (keeps_bootstrap_on raw key pbs entropy binding d (mkConn RawFrameReader_new tt s) Hs) as Hb.
  destruct (bootstrap_on _ _ _ _ _ _ _) as [[[ack lease]|f] s1]; cbn; [done|]. unfold in_conn in Hb. cbn in Hb.
  pose proof (bootstrap_failed_keeps raw cleanup f (io s1) Q Hnew Hb Hclean (A:=BootstrapSuccess)) as Hf.
  by destruct (bootstrap_failed raw cleanup f (io s1)) as [[b|f'] s2].
Qed.
End Kept.
