(* ===== verification/AndroidHost.v ===== *)
(** The Android adapter as the platform of the broker: its streams, connectors, receipts and
    pending launches are those of the traits of [host-runtime/src/adapter.rs], so that the
    theorems on the raw transport and the broker are theorems about it. *)

From S2P Require Import Prelude Errors Crates Outer Records Payloads Reassembly NoiseIO Lease Bootstrap Session Control Adapter RawTransport Broker Apk Axml Machine Adb Loopback Android Traces Rollback Listings Forwards Kept.

(** ** The instances *)

Section Instances.
Context `{CommandRunner W} `{Zlib} `{Sha2} `{Base64}.

Lemma loopback_read_len (raw : LoopbackRaw) b d s : len (snd (fst (lb_read_into raw b d s))) = len b.
Proof.
  unfold lb_read_into. destruct (mbind_M _ _ s) as [[u|e] s']; [|done].
  pose proof (socket_read_len (lb_read raw) b (h_world s')). by destruct (socket_read _ _ _) as [[r b'] w].
Qed.
Lemma loopback_read_usize (raw : LoopbackRaw) b d s n : fst (fst (lb_read_into raw b d s)) = Ok n -> 0 <= n.
Proof.
  unfold lb_read_into. destruct (mbind_M _ _ s) as [[u|e] s']; [|done].
  pose proof (socket_read_usize (lb_read raw) b (h_world s') n).
  destruct (socket_read _ _ _) as [[[k|k] b'] w]; [|done]. intros [= ->]. auto.
Qed.
Lemma loopback_write_usize (raw : LoopbackRaw) b d s n : fst (lb_write_from raw b d s) = Ok n -> 0 <= n.
Proof.
  intros Hn. destruct (lb_write_from raw b d s) as [r s'] eqn:Hw. cbn in Hn. subst r.
  unfold lb_write_from in Hw. m_inv Hw. unfold act in Hm2.
  pose proof (socket_write_usize (lb_write raw) b (h_world s2)) as Hu.
  destruct (socket_write (lb_write raw) b (h_world s2)) as [[k|k] w]; injection Hm2 as <- <-; unfold lift in Hw; cbn in Hw;
    [injection Hw as -> _; by apply Hu|discriminate].
Qed.

Definition host_ms (s : Host W) : option Z * Host W :=
  let '(o, w) := unix_ms (h_world s) in (o, mkHost w (h_log s)).
Lemma host_ms_unsigned s n : fst (host_ms s) = Some n -> 0 <= n.
Proof.
  unfold host_ms. pose proof (unix_ms_unsigned (h_world s) n). by destruct (unix_ms (h_world s)).
Qed.

(** What a trait object of the adapter does. *)
#[export] Instance android_io : PlatformIo (Host W) := {|
  RawDuplex := LoopbackRaw; RawConnector := Z; CleanupReceipt := AndroidCleanup; Cancellation := Flag;
  raw_read := lb_read_into;
  raw_write := lb_write_from;
  raw_cancel raw s := snd (lb_cancel raw s);
  raw_connect := connect;
  raw_cleanup := cleanup_android;
  Cancellation_new s := let '(flag, w) := flag_new (h_world s) in (flag, mkHost w (h_log s));
  system_ms := host_ms;
  raw_read_len := loopback_read_len;
  raw_read_usize := loopback_read_usize;
  raw_write_usize := loopback_write_usize;
  system_ms_unsigned := host_ms_unsigned
|}.

(** What is drawn from the operating system for the broker. *)
Class HostDraws : Type := {
  host_keypair : Host W -> Res (bytes * bytes) * Host W;
  host_pbs : Host W -> Res bytes * Host W;
  host_entropy : Host W -> bytes * Host W
}.

#[export] Instance android_host `{HostDraws} : PlatformHost (Host W) := {|
  PlatformTargetAdapter := AndroidEmulatorAdapter; PendingLaunch := AndroidPendingLaunch;
  begin_launch := begin_launch_android;
  endpoint_of := pl_endpoint;
  pending_launch p descriptor cancellation deadline s :=
    let '(r, s') := launch_android p descriptor cancellation deadline s in
    (let? io := r in Ok {| lt_bootstrap := ai_bootstrap io; lt_connector := ai_connector io; lt_cleanup := ai_cleanup io |}, s');
  pending_abort := abort_android;
  cancel flag s := let '(_, w) := flag_swap flag (h_world s) in mkHost w (h_log s);
  generate_keypair := host_keypair;
  generate_pbs := host_pbs;
  draw_entropy := host_entropy
|}.
End Instances.


(** ** A target that was launched and then prepared *)

Section Prepared.
Context `{AdbServer W} `{Zlib} `{Sha2} `{Base64} `{Minicbor} `{Snow}.

Lemma frame_lb_check raw d : Prelude.frame table (lb_check raw d).
Proof. unfold lb_check. frame_auto. apply frame_remaining. Qed.
Lemma read_table (raw : LoopbackRaw) b d s : table (snd (lb_read_into raw b d s)) = table s.
Proof.
  unfold lb_read_into.
  assert (Hf : Prelude.frame table (do timeout <- lb_check raw d; do ok <- act (set_read_timeout (lb_read raw) timeout);
                            need PlatformInternal ok)) by (frame_auto; apply frame_lb_check).
  specialize (Hf s). destruct (mbind_M _ _ s) as [[u|e] s']; [|done].
  pose proof (machine_keeps _ _ (h_world s') (op_socket_read (lb_read raw) b)).
  destruct (socket_read _ _ _) as [[r b'] w]. cbn in *. by rewrite <- Hf.
Qed.
Lemma frame_lb_write raw b d : Prelude.frame table (lb_write_from raw b d).
Proof. unfold lb_write_from. frame_auto. apply frame_lb_check. Qed.
Lemma frame_lb_cancel raw : Prelude.frame table (lb_cancel raw).
Proof. unfold lb_cancel. frame_auto. Qed.
Lemma host_ms_table s : table (snd (host_ms s)) = table s.
Proof.
  unfold host_ms. pose proof (machine_keeps _ _ (h_world s) op_unix_ms). by destruct (unix_ms (h_world s)).
Qed.

(** C31: a prepare of an Android target holds the port forwarding exactly as long as it holds the
    target.  When the bootstrap over the launched stream succeeds, the table has the launch's
    entry and the receipt that goes with the lease takes it away; when the bootstrap fails in
    any way, the table is as it was before the launch, or the failure is marked as a failed
    cleanup and at most the one entry is left. *)
Theorem prepared_or_given_back p descriptor flag d s io s1 key pbs entropy binding d' :
  table_ok (table s) -> android_emulator_serial (pl_serial p) = true -> endpoint_name (pl_localabstract p) ->
  launch_android p descriptor flag d s = (Ok io, s1) ->
  let '(r, s2) := bootstrap (W:=Host W) (ai_bootstrap io) (ai_connector io) (ai_cleanup io) key pbs entropy binding d'
                    (mkIo s1 []) in
  match r with
  | Ok b => table (world s2) = table s1 /\ receipt_returns (bs_cleanup b) (table s) (table s1)
  | Err f => (tf_cleanup_failed f = false -> table (world s2) = table s) /\
             (table (world s2) = table s \/ table (world s2) = table s1)
  end.
Proof.
  intros Hok Hser%serial_safe Hname%endpoint_name_safe Hl. set (c := mkClient (pl_adb_path p) (pl_serial p)).
  pose proof (launch_table p c flag d (table s) Hok Hser Hname descriptor s eq_refl eq_refl) as Hp.
  unfold post in Hp. rewrite Hl in Hp. apply forwarded_returns in Hp; [|done..]. clear Hl.
  pose proof (bootstrap_keeps (W:=Host W) (fun w => table w = table s1)) as Hb.
  unshelve epose proof (Hb _ _ _ _ (ai_bootstrap io) (ai_connector io) (ai_cleanup io) key pbs entropy binding d'
    (mkIo s1 []) (fun w => table w = table s) _ eq_refl _) as Hk; clear Hb; cbn beta.
  - intros w <-. apply host_ms_table.
  - intros raw b d0 w <-. apply read_table.
  - intros raw b d0 w <-. apply frame_lb_write.
  - intros raw w <-. apply frame_lb_cancel.
  - intros w <-. cbn. pose proof (machine_keeps _ _ (h_world w) op_flag_new). by destruct (flag_new (h_world w)).
  - intros fl d0 w Hw. specialize (Hp fl d0 w Hw). cbn [raw_cleanup android_io].
    destruct (cleanup_android (ai_cleanup io) fl d0 w) as [r w']. split; [tauto|apply Hp].
  - destruct (bootstrap _ _ _ _ _ _ _ _ _) as [[b|f] s2].
    + destruct Hk as [Ht ->]. by split.
    + destruct Hk as [Hor Hf]. split; [|tauto]. intros Hc. apply Hf. by rewrite Hc.
Qed.
End Prepared.
