(* ===== verification/Emulator.v ===== *)
(** A concrete machine with an [adb] server for the witnesses: files in memory, a table of
    forwardings, one app that listens or does not. *)

From S2P Require Import Prelude Errors Crates CratesRef Payloads Control Adapter RawTransport Apk Axml Validation Machine Adb Loopback Android Commands Traces Rollback Listings Forwards Polling Shell AndroidHost.

Record Emu := mkEmu {
  em_now : Z;
  em_table : list ForwardEntry;
  em_source : bytes;
  em_offset : Z;
  em_copy : option bytes;
  em_listens : bool
}.
Definition em_set_now x w := mkEmu x (em_table w) (em_source w) (em_offset w) (em_copy w) (em_listens w).
Definition em_set_table x w := mkEmu (em_now w) x (em_source w) (em_offset w) (em_copy w) (em_listens w).
Definition em_set_offset x w := mkEmu (em_now w) (em_table w) (em_source w) x (em_copy w) (em_listens w).
Definition em_set_copy x w := mkEmu (em_now w) (em_table w) (em_source w) (em_offset w) x (em_listens w).

Definition emu_read (b : bool) (n : Z) (w : Emu) : option bytes * Emu :=
  (Some (take (Z.to_nat n) (drop (Z.to_nat (em_offset w)) (em_source w))), em_set_offset (em_offset w + n) w).

(** A command's output, or its failure. *)
Definition emu_forward (serial : bytes) (args : list bytes) (w : Emu) : option bytes * Emu :=
  match args with
  | [a] => if bytes_eqb a (str "--list") then (Some (render_list (em_table w)), w) else (None, w)
  | [a; b] =>
      if bytes_eqb a (str "--remove") then
        (Some [], em_set_table (List.filter (fun e => negb (bytes_eqb (fe_serial e) serial && bytes_eqb (fe_local e) b)) (em_table w)) w)
      else if bytes_eqb a (str "tcp:0") then
        match find (fun port => negb (existsb (bytes_eqb (local_of port)) (map fe_local (em_table w)))) (seqZ 50000 100) with
        | Some port => (Some (decimal port ++ [LF]), em_set_table (em_table w ++ [mkForward serial (local_of port) b]) w)
        | None => (None, w)
        end
      else (None, w)
  | _ => (None, w)
  end.
Definition emu_other (args : list bytes) : option bytes :=
  match args with
  | [a] => if bytes_eqb a (str "help") then Some (str "forward tcp:0 localabstract:name")
           else Some (str "device" ++ [LF])
  | a :: b :: c :: rest =>
      if bytes_eqb a (str "install") then Some (str "Success" ++ [LF])
      else if bytes_eqb c (str "start") then
        Some (str "Status: ok" ++ [LF] ++ str "LaunchState: COLD" ++ [LF] ++ str "Activity: " ++ nth 3 rest [] ++ [LF] ++
              str "TotalTime: 312" ++ [LF] ++ str "Complete" ++ [LF])
      else Some []
  | _ => None
  end.
Definition emu_adb (serial : bytes) (args : list bytes) (w : Emu) : option bytes * Emu :=
  match args with
  | a :: rest => if bytes_eqb a (str "forward") then emu_forward serial rest w else (emu_other args, w)
  | [] => (None, w)
  end.

#[export, refine] Instance emu_machine : Machine Emu := {|
  Flag := bool; FileHandle := bool; Socket := unit; Child := option bytes; Pipe := list bytes;
  unix_ms w := (Some (Z.max 0 (em_now w)), w);
  sleep_ms n w := (tt, em_set_now (Z.max 0 (em_now w) + Z.max 0 n) w);
  flag_new w := (false, w);
  flag_load f w := (f, w);
  flag_swap f w := (f, w);
  getrandom n w := ((true, repeat (b8 0) (Z.to_nat n)), w);
  process_id w := (7, w);
  temp_dir w := (str "/tmp", w);
  open_file p w := (Some true, w);
  file_metadata f w := (Some (true, len (em_source w)), w);
  file_read := emu_read;
  create_file p w := (Some false, em_set_copy (Some []) w);
  file_write_all f b w := (true, em_set_copy (fmap (fun a => a ++ b) (em_copy w)) w);
  file_flush f w := (true, w);
  set_read_only p w := (true, w);
  file_bytes p w := (em_copy w, w);
  create_dir p w := (Ok tt, w);
  remove_file p w := (is_Some_b (em_copy w), em_set_copy None w);
  remove_dir p w := (true, w);
  connect_timeout p n w := (if em_listens w then Ok tt else Err OtherKind, w);
  set_nodelay x w := (true, w);
  try_clone x w := (Some x, w);
  set_read_timeout x n w := (true, w);
  set_write_timeout x n w := (true, w);
  socket_read x b w := ((Ok 0, b), w);
  socket_write x b w := (Ok (len b), w);
  socket_shutdown x w := (tt, w);
  spawn exe args w :=
    let '(o, w) := emu_adb (nth 1 args []) (drop 2 args) w in (Some o, w);
  take_stdout c w := (Some [default [] c], w);
  take_stderr c w := (Some [], w);
  read_so_far p w := (p, w);
  read_to_end p w := (Some p, w);
  try_wait c w := (Some (Some (is_Some_b c)), w);
  child_kill c w := (tt, w);
  child_wait c w := (tt, w)
|}.
Proof.
  - intros w n [= <-]. lia.
  - intros n w Hn. cbn. unfold len. rewrite repeat_length. lia.
  - intros f n w b Hn [= <-]. unfold len. rewrite length_take. lia.
  - done.
  - intros x b w n [= <-]. lia.
  - intros x b w n [= <-]. apply len_nonneg.
Defined.

Definition EmuRunner : CommandRunner Emu := {|
  run_command exe serial args flag d w :=
    let '(o, w) := emu_adb serial args w in
    (match o with Some out => Ok (mkOutput out []) | None => Err (failure Unavailable) end, w)
|}.
#[export] Existing Instance EmuRunner.

Lemma emu_adb_keeps serial args w : exists o w', emu_adb serial args w = (o, w') /\ em_now w' = em_now w.
Proof.
  unfold emu_adb, emu_forward. destruct args as [|a rest]; [eauto|]. destruct (bytes_eqb a _); [|eauto].
  destruct rest as [|b [|c [|]]]; eauto; [by destruct (bytes_eqb b _); eauto|].
  destruct (bytes_eqb b _); [by eauto|]. destruct (bytes_eqb b _); [|by eauto]. destruct (find _ _); eauto.
Qed.
Lemma emu_keeps A (f : Emu -> A * Emu) w : machine_op A f -> em_table (snd (f w)) = em_table w.
Proof. by destruct 1. Qed.

#[export, refine] Instance emu_server : AdbServer Emu := {| forwards := em_table; machine_keeps := emu_keeps |}.
Proof.
  - intros exe serial args flag d w Hh. cbn. unfold emu_adb. destruct args as [|a rest]; [done|].
    destruct (bytes_eqb a (str "forward")) eqn:Ha; [|by destruct (emu_other _)].
    apply bytes_eqb_eq in Ha as ->. done.
  - intros exe serial flag d w. cbn. split; [done|]. intros o [= <-]. exists []. split; [by left|]. cbn. by rewrite app_nil_r.
  - intros exe serial remote flag d w. cbn.
    destruct (find _ (seqZ 50000 100)) as [port|] eqn:Hf; cbn; [|by left]. right. exists port.
    apply find_some in Hf as [Hin Hn]. apply list_elem_of_In, elem_of_seqZ in Hin. split_and!; try done; [lia..| |].
    + intros Hi. apply negb_true_iff in Hn. rewrite <- not_true_iff_false, existsb_exists in Hn. apply Hn.
      exists (local_of port). split; [done|]. apply bytes_eqb_refl.
    + intros o Ho. apply Ok_inj in Ho as <-. reflexivity.
  - intros exe serial local flag d w. cbn. by right.
Defined.

#[export, refine] Instance emu_steady : SteadyMachine Emu := {| time w := Z.max 0 (em_now w) |}.
Proof.
  - intros w. exists (Z.max 0 (em_now w)). cbn. split; [done|lia].
  - intros n w Hn. cbn. lia.
  - destruct 1; cbn; lia.
  - destruct 1; cbn; try lia. destruct (emu_adb_keeps (nth 1 a []) (drop 2 a) w) as [o [w' [-> Hw]]]. cbn. lia.
Defined.
#[export] Instance emu_piped : PipedMachine Emu.
Proof. split; intros; cbn; eauto. Defined.

(** ** Two launches

    The app is an APK with one bootstrap activity; another device has a forwarding.  The app
    listens, or it does not, so that the launch fails after the start. *)

Definition ex_world (listens : bool) : Host Emu :=
  mkHost (mkEmu 1000000 [mkForward (str "emulator-5556") (str "tcp:50000") (str "localabstract:other")]
            ex_apk 0 None listens) [].
Definition ex_name : bytes := LOCALABSTRACT_PREFIX ++ hex (repeat (b8 0) 16).
Definition ex_pending : AndroidPendingLaunch :=
  mkPending (str "adb") (str "emulator-5554") (str "a.b") (str "/x.apk") (sha256 ex_apk) ex_name
    (AndroidLocalAbstract ex_name) None.
Definition ex_flag : @Flag Emu _ := false.
Definition ex_launch (listens : bool) : PRes AndroidIo * Host Emu :=
  launch_android ex_pending (str "d") ex_flag (mkDeadline 2000000) (ex_world listens).

(** A conversion unfolds the launch before it computes one. *)
Strategy expand [ex_launch].

(** The port, or none for the failure [Unavailable]. *)
Definition ex_outcome (r : PRes (@AndroidIo Emu _)) : option Z :=
  match r with
  | Ok io => Some (ai_connector io)
  | Err (mkPlatformFailure Unavailable Unavailable) => None
  | Err _ => Some (-1)
  end.
Example ex_launch_listens : ex_outcome (fst (ex_launch true)) = Some 50001.
Proof. vm_compute. reflexivity. Qed.
Example ex_launch_fails : ex_outcome (fst (ex_launch false)) = None.
Proof. vm_compute. reflexivity. Qed.
Lemma outcome_unavailable r : ex_outcome r = None -> r = Err (failure Unavailable).
Proof. by destruct r as [io|[[] []]]. Qed.

Lemma outcome_port r n : ex_outcome r = Some n -> (0 <=? n) = true -> exists io, r = Ok io.
Proof. destruct r as [io|[[] []]]; cbn; intros [= <-] Hn; try done. by exists io. Qed.

Lemma installed_is_verified_witness :
  exists es, h_log (snd (ex_launch true)) = [] ++ es /\
    forall es1 path flag' d' answer es2, es = es1 ++ ECommand (install_arguments path) flag' d' answer :: es2 ->
      verified (sha256 ex_apk) (str "a.b") path es1.
Proof.
  exact (installed_is_verified ex_pending (str "d") ex_flag (mkDeadline 2000000) (ex_world true)
           (fst (ex_launch true)) (snd (ex_launch true)) (surjective_pairing _)).
Defined.

Lemma launch_leaves_nothing_witness :
  exists es, h_log (snd (ex_launch false)) = [] ++ es /\ leave [] es = [] /\
    (Forall (fun e => ~ confirms (str "a.b" ++ BOOTSTRAP_ACTIVITY) e) es \/ stopped (str "a.b") es).
Proof.
  pose proof (launch_leaves_nothing ex_pending (str "d") ex_flag (mkDeadline 2000000) (ex_world false)
                (fst (ex_launch false)) (snd (ex_launch false)) (surjective_pairing _)) as Hw.
  rewrite (outcome_unavailable _ ex_launch_fails) in Hw. apply Hw. intros f [= <-] [=].
Defined.

Lemma ex_table_ok : table_ok (table (ex_world true)).
Proof. split; [repeat constructor|apply NoDup_singleton]. Qed.
Lemma ex_serial_ok : android_emulator_serial (pl_serial ex_pending) = true.
Proof. vm_compute. reflexivity. Qed.
Lemma ex_name_ok : endpoint_name (pl_localabstract ex_pending).
Proof. exists (repeat (b8 0) 16). split; reflexivity. Qed.

Lemma forwards_given_back_witness :
  match fst (ex_launch true) with
  | Ok io => forwarded (mkClient (str "adb") (str "emulator-5554")) ex_name (table (ex_world true)) io (snd (ex_launch true)) /\
      receipt_returns (ai_cleanup io) (table (ex_world true)) (table (snd (ex_launch true)))
  | Err f => forward_failed (mkClient (str "adb") (str "emulator-5554")) ex_name (table (ex_world true)) f (snd (ex_launch true))
  end.
Proof.
  exact (forwards_given_back ex_pending (str "d") ex_flag (mkDeadline 2000000) (ex_world true)
           (fst (ex_launch true)) (snd (ex_launch true)) ex_table_ok ex_serial_ok ex_name_ok (surjective_pairing _)).
Defined.

Lemma waits_end_witness :
  0 <= clock (ex_world false) /\
  fst (repeat_until CONNECT_TURNS (connect_turn 50001 ex_flag (mkDeadline 2000000)) (ex_world false)) <> Ok None.
Proof.
  assert (Hs : 0 <= clock (ex_world false)) by (vm_compute; done).
  assert (Hd : dl_value (mkDeadline 2000000) <= U64_MAX) by (vm_compute; done).
  split; [exact Hs|]. exact (proj1 (waits_end 50001 ex_flag (mkDeadline 2000000) (ex_world false) Hs Hd)).
Defined.

(** [adb get-state] run as a process. *)
Definition ex_run : PRes ProcessOutput * Host Emu :=
  system_run (str "adb") (str "emulator-5554") [str "get-state"] ex_flag (mkDeadline 2000000) (ex_world true).
Definition ex_stdout (r : PRes ProcessOutput) : option bytes := match r with Ok o => Some (stdout o) | Err _ => None end.
Example ex_run_gives : ex_stdout (fst ex_run) = Some (str "device" ++ [LF]).
Proof. vm_compute. reflexivity. Qed.

Lemma run_gives (r : PRes ProcessOutput) b : ex_stdout r = Some b -> exists o, r = Ok o /\ stdout o = b.
Proof. destruct r as [o|f]; [|done]. intros [= <-]. by exists o. Qed.

Lemma command_runs_witness :
  exists es o child, h_log (snd ex_run) = es /\
    fst ex_run = Ok o /\ stdout o = str "device" ++ [LF] /\
    ESpawn (str "adb") [str "-s"; str "emulator-5554"; str "get-state"] (Some child) ∈ es /\
    reaped child es /\ full_output child o es.
Proof.
  assert (Hs : 0 <= clock (ex_world true)) by (vm_compute; done).
  assert (Hd : dl_value (mkDeadline 2000000) <= U64_MAX) by (vm_compute; done).
  destruct (command_runs (str "adb") (str "emulator-5554") [str "get-state"] ex_flag (mkDeadline 2000000) (ex_world true)
              (fst ex_run) (snd ex_run) Hs Hd (surjective_pairing _)) as (es & Hlog & Hreap & Hout).
  destruct (run_gives _ _ ex_run_gives) as (o & Ho & Hb). destruct (Hout o Ho) as (child & Hspawn & Hfull).
  exists es, o, child. destruct (Hreap _ _ _ Hspawn) as (_ & _ & Hr).
  exact (conj Hlog (conj Ho (conj Hb (conj Hspawn (conj Hr Hfull))))).
Defined.

Lemma shell_words_safe_witness :
  exists es, h_log (snd (ex_launch true)) = [] ++ es /\
    Forall (fun e => match e with
                     | ECommand arguments _ _ _ => shell_commands (str "a.b") (str "d") arguments
                     | _ => True
                     end) es.
Proof.
  set (selection := mkSelection AndroidEmulator (str "emulator-5554") (str "a.b") (str "/x.apk") (sha256 ex_apk)).
  assert (Hb : begin_launch_android (mkAndroid (str "adb")) selection (mkDeadline 2000000) (ex_world true) =
    (ex_pending, snd (begin_launch_android (mkAndroid (str "adb")) selection (mkDeadline 2000000) (ex_world true)))).
  { reflexivity. }
  assert (Hd : str "d" <> []) by done.
  exact (shell_words_safe (mkAndroid (str "adb")) selection (mkDeadline 2000000) (ex_world true) ex_pending _
           (str "d") ex_flag (mkDeadline 2000000) (ex_world true) (fst (ex_launch true)) (snd (ex_launch true))
           Hb Hd (surjective_pairing _)).
Defined.

(** The socket ends at once, so that the bootstrap fails and the forwarding is taken away. *)
Lemma prepared_or_given_back_witness :
  exists io, fst (ex_launch true) = Ok io /\
    let '(r, s2) := bootstrap (W:=Host Emu) (ai_bootstrap io) (ai_connector io) (ai_cleanup io) [] [] []
                      ex_bootstrap_binding (mkDeadline 2000000) (mkIo (snd (ex_launch true)) []) in
    match r with
    | Ok b => table (world s2) = table (snd (ex_launch true)) /\
        receipt_returns (bs_cleanup b) (table (ex_world true)) (table (snd (ex_launch true)))
    | Err f => (tf_cleanup_failed f = false -> table (world s2) = table (ex_world true)) /\
        (table (world s2) = table (ex_world true) \/ table (world s2) = table (snd (ex_launch true)))
    end.
Proof.
  pose proof ex_launch_listens as Ho. remember (ex_launch true) as x eqn:Hx. unfold ex_launch in Hx. symmetry in Hx.
  destruct x as [r s1]. cbn [fst snd] in *. destruct (outcome_port r _ Ho eq_refl) as [io ->].
  exists io. split; [reflexivity|].
  exact (prepared_or_given_back ex_pending (str "d") ex_flag (mkDeadline 2000000) (ex_world true) io s1
           [] [] [] ex_bootstrap_binding (mkDeadline 2000000) ex_table_ok ex_serial_ok ex_name_ok Hx).
Defined.
